(* ===== verification/_CoqProject ===== *)
-Q . S2P
Prelude.v
Order.v
Redb.v
Memory.v
JournalCodec.v
Fields.v
OrderedCodec.v
OrderedSpec.v
Eval.v
EvalSpec.v
Trigram.v
Index.v
IndexKeys.v
TrigramSpec.v
IndexSpec.v
IndexProps.v
Exec.v
Plan.v
ExecSpec.v
PathSpec.v
PlanSpec.v
PlanProps.v
Marker.v
MarkerSpec.v
MarkerProps.v
Sum.v
SumSpec.v
BackupCodec.v
BackupCodecSpec.v
Backup.v
BackupSpec.v
BackupProps.v
B64.v
Cipher.v
Layout.v
Disk.v
Backend.v
BackendSpec.v
BackendFile.v
BackendHeader.v
BackendWrite.v
BackendProps.v
Chain.v
ChainSpec.v
Samples.v
Tx.v
LastWrite.v
IdContract.v
Unique.v
UniqueSpec.v
JournalBlob.v
Journal.v
JournalSpec.v
JournalOps.v
Demo.v
JournalProps.v
Repository.v
Replica.v
RepositorySpec.v
ManagerSpec.v
ManagerOps.v
ManagerProps.v
Store.v
StoreProps.v
Query.v
QuerySpec.v
QueryProps.v
Keys.v
Sealed.v
SealedProps.v
Protected.v
Slots.v
FieldSearch.v
FieldSpec.v
FieldRows.v
FieldProps.v
Rekey.v
RekeyProps.v
