(* ===== verification/Prelude.v ===== *)
(** * clove1db: a verification of the storage core

    clove1db is an embedded database on top of redb.  A database is a primary file of
    named tables (rows are [&str] keys with bytes), an optional backup file with the
    version history of every row, a value cache, attachment files, and disposable index
    files that follow a change log inside the primary file.  This library models the
    parts that decide what is stored and what is answered, as executable definitions
    translated from the source, and proves what makes them correct.

    ** How the parts interact, and where they are modelled

    A caller's write goes to the database manager ([Repository], from [repository.rs]),
    which runs one write transaction of the change log ([Journal], from [journal.rs]).
    The transaction runs the caller's body on the tables ([Tx]), validates the identity
    contracts ([IdContract]) and the unique constraints ([Unique]) that the body's
    effects touch, appends the effects to the log as rows ([JournalCodec]), enforces the
    retention, and updates the last-write index ([LastWrite]).  After the commit the
    manager updates its cache and records the write ([Store]) in the backup file
    ([Backup], with its record format in [BackupCodec]); a version can be put back unless a
    migration of its table ([Chain]) lies between.  Consumers (index builders, replicas) register
    with the log, read the changes and acknowledge them; a table replacement puts a
    snapshot in the file and one reset in the log ([Repository.capture_reset]).
    Attachments are files; the log and a reference table name them ([JournalBlob]).

    Changing the encryption of a database rewrites its files beside the old ones and swaps
    them by renames under a marker ([Marker], from [migration/encrypted/marker.rs] and
    [migration/encrypted/run.rs]); the next open finishes or takes back what a crash left.

    Index files are consumers of the log: each index holds the keys or postings of the rows
    of a table ([Index], [Trigram]), and the planner answers a predicate from them ([Plan],
    [Exec]) where it can.  Queries evaluate predicates over rows ([Fields], [Eval]), compare values through an
    order-preserving key encoding ([OrderedCodec]), page by page with cursors ([Query]), and
    aggregate exactly ([Sum]).

    Every key of an encrypted database comes from two random roots, locked by the
    programmer's keys ([Keys], from [crypto]).  An encrypted database file keeps each page
    as a sealed block and redb's header in four sealed pieces ([Layout]), behind a layer that
    redb takes for a plain file ([Backend], from [encrypted_store/backend.rs]); attachments
    and side files are sealed block by block ([Sealed], from [encrypted_store/sealed.rs]).
    Protected fields are sealed values bound to their place ([B64], [Cipher]), hashes and
    search fingerprints ([Protected]); rows are written and opened in [Slots] and found
    in [FieldSearch].  A change of keys copies a database: sealed values are sealed again,
    hashes and fingerprints keep the keys they were made with ([Rekey]).

    ** Files

    - [Prelude]: bytes and text, the error type [ClError] of [units.rs], the [result]
      monad and its notations, fixed-width integers, decimal text, tactics and the hint
      database [clove].
    - [Order], [Redb], [Memory]: total orders; redb's tables and serde's round trip as
      classes with concrete instances; fallible allocation ([memory.rs]).
    - [JournalCodec], [Tx], [LastWrite], [IdContract], [Unique], [JournalBlob], [Journal]:
      the change log and what a write transaction runs.  [JournalSpec], [JournalOps],
      [UniqueSpec] hold the invariants; [JournalProps] the theorems.
    - [Repository], [Replica], [RepositorySpec], [ManagerSpec], [ManagerOps],
      [ManagerProps]: the manager, its invariant and its theorems.  [Demo] and [Samples]
      are concrete databases for the witnesses.
    - [BackupCodec], [BackupCodecSpec], [Backup], [BackupSpec], [BackupProps]: the backup
      file.
    - [Chain], [ChainSpec]: the migration chains of the tables, on plain or sealed files
      that may fail at any call.
    - [Store], [StoreProps]: rows with their history: the writes and restores
      of [repository.rs] that touch the primary, the cache and the backup.
    - [Fields], [OrderedCodec], [OrderedSpec], [Eval], [EvalSpec], [Sum], [SumSpec]:
      values, keys, predicates and aggregates.
    - [Trigram], [Index], [Exec], [Plan]: the posting blocks of [indexes/trigram.rs], the
      rows and keys of an index ([indexes/worker.rs]), the execution of a plan and the
      choice of plans for a predicate.  [TrigramSpec], [IndexKeys],
      [IndexSpec], [IndexProps], [ExecSpec], [PathSpec], [PlanSpec] and [PlanProps] specify
      them: postings, reverse rows, ranges of keys, paths with quantifiers, conditions.
    - [Query], [QuerySpec], [QueryProps]: queries of [query/mod.rs]: building, identity,
      scans, pages, cursors and the operations on the whole answer; their reference; the
      theorems.
    - [B64], [Cipher], [Layout]: sealed values ([field_crypto/b64.rs],
      [crypto/cipher.rs], [field_crypto/envelope.rs]) and the encrypted file's geometry.
    - [Keys], [Sealed], [SealedProps]: locks, passwords and derived keys ([crypto/keys.rs],
      [crypto/kdf.rs], [crypto/mac.rs]); sealed files and the header with the locked roots
      ([encrypted_store/sealed.rs], [file_header.rs], [blobs.rs], [sidecar.rs]); the theorems.
    - [Protected]: keys, fingerprints, hashes and settings of protected fields
      ([field_crypto/keys.rs], [carried.rs], [prints.rs], [parts.rs], [hashing.rs],
      [method.rs], [spec.rs]).  [Slots]: values and rows ([slots.rs], [rowcodec.rs],
      [grant.rs]).  [FieldSearch]: handles, the check of a query, confirmed searches and
      scans ([search.rs], [confirm.rs], [scan.rs]).  [FieldSpec], [FieldRows]: lemmas;
      [FieldProps]: the theorems and a small domain of protected fields.
    - [Rekey], [RekeyProps]: the change of keys ([carried.rs], [migrate.rs],
      [migration/encrypted/rekey.rs]) and its theorems.
    - [Disk], [Backend]: a file as bytes, and the encrypted layer on it as computations
      over its state, the device and the random source.  [BackendSpec] (weakest
      preconditions, blocks, draining), [BackendFile] (reading), [BackendHeader] (the
      pieces), [BackendWrite] (writes, growing and cutting) specify its steps;
      [BackendProps] has the plain file it refines and the theorems.
    - [Marker]: the directory of a database with calls that may work, fail or be the last
      before a crash, and the marker's swap on it.  [MarkerSpec] has triples over the fates
      of the calls; [MarkerProps] the theorems.

    A [Record] of the source is a [Record] here with the source's field names where they
    are free; a function keeps its name, with a prefix only where two clash.  A fallible
    function returns [result]; one that changes state also returns the state, so that
    what an error leaves behind is part of the statement.

    ** What the theorems show

    - The log: every reachable database has a well-formed log (contiguous sequence
      numbers, exact byte count, decodable rows, no active consumer cut off); writes are
      all or nothing; sequence numbers keep their change; a consumer reads every change
      once and in order; retention ends inside its budget; old tokens are refused.
    - The manager: any sequence of operations keeps the log, the unique keys, the
      identity contracts and the references consistent, and the cache too as long as no
      table name holds a colon and no operation runs in the middle of a read (two examples
      show why); a replica that applies
      what it reads holds the primary's tables; batches commit a prefix; a replaced table
      holds exactly its entries; reads see the last write.
    - Indexes: after any writes and removals an index holds exactly the keys or postings of
      its rows; every recipe [filters] makes for a predicate that orders no booleans (an
      example shows why) runs without failing and finds every matching row, a covering one
      no other, and a count taken from the index alone counts every row once.
    - Backups: history is append-only and numbered without gaps, a record is read back
      byte for byte, a version never collides, the history of a key is its versions.
    - Rows and history: as long as operations succeed, every row is what the last version
      of its history says; a restore puts back exactly its version.  A migration is in its
      chain entirely or not at all; versions are read in the schema they were written with.
    - Values: keys compare as exact values and are self-delimiting, number spelling does
      not matter, predicates decide the reference order, the row cache is invisible, sums
      are the exact totals and are refused exactly when a summand or the total leaves the
      accumulator's window, minima, maxima and groups are what they say.
    - Queries: a page holds the first rows of the answer behind the cursor, in order, however
      the planner finds them; following the cursors shows every row once and ends; counts,
      extremes, sums and groups are those of the complete answer.
    - Encryption: base64 is canonical, an envelope opens only as what was sealed and only
      at its place; what any writes sealed is read back, and from any bytes a reader gives
      what was sealed or shows a block, at the place it reads, that opens though it was
      never sealed there.
    - Protected fields: a search by a piece of a value finds exactly the rows that contain it
      and meet its other condition, with a limit of at least one the first of them;
      a written row holds at their places what its values are; a query that is accepted
      and names a field in every path learns only which issued fingerprints the fields hold.
    - Change of keys: hashes and fingerprints answer as before, sealed values open to what
      they were, nothing else of a row changes, and the check of the new file agrees.
    - The encrypted file: the layer answers every call as a plain file would; a crash
      after a sync that succeeds, whatever the device then holds, loses nothing of the file; a failing device loses no page; a torn header write
      loses at most one commit slot; a page staged during a drain stays staged.
    - Changing the encryption: whatever call the process dies in or the system refuses, the
      next recovery that runs through leaves all old files or all new ones, and a recovery
      never touches a change that still runs.

    ** Parameters and bounds

    redb ([Redb]), serde_json ([Serde], [TextLib], [BackupJson], [JsonText], [RawJson]), the
    serialization of a query's identity and the distance between texts ([QueryText]), the AEAD ciphers ([CipherLib]), key
    derivation, password functions and keyed hashes ([KeyLib]), what is relied on of Unicode
    in fingerprints ([TagText]), the fst library's automaton ([FstLib]), the older JSON format of reverse
    rows ([ReverseJson]), the allocator ([Allocator]) and the operating system ([Host], and the
    [commit] and clock arguments) are parameters with the documented laws the code relies
    on; each has a concrete instance used by the witnesses.  Machine integers are [N] or
    [Z] with the checks and the wrap-around of the source written out ([U64], [i128_ok],
    [byte_of_N]).  The loops of retention take fuel; [enforce_terminates] shows that the
    fuel given, the number of log rows and consumers, always suffices, and
    [FuelExhausted] marks the impossible case.  Sums are stated at the scale [10 ^ 4096],
    where every accepted token is a whole number.  The
    device of the encrypted layer keeps the calls since the last flush apart: a crash may
    keep or lose each of them, in part and in any order.  The
    loops of the encrypted layer take the number of blocks left as fuel
    ([next_stop_spec], [fill_loop_spec]); a failing device call may leave any bytes in
    the range it wrote.  What the random source answers is a list of answers, errors among
    them, in the order they are asked for.  A query's planner and the pages of a domain's
    query are arguments, with what they have to give stated where it is needed;
    following the cursors takes a number of pages, and [pages_end] gives one that is
    enough.  That zeros, noise and torn sectors do not authenticate are the
    hypotheses [zeros_inert], [noise_inert] and [torn_inert].  In [Marker] a
    rename is atomic and durable at once, looking at a name does not fail, and the
    contents of the rewritten files are an argument.

    ** Not modelled

    JSON texts with an object key that does not decode, and index files whose token
    dictionary is damaged, are outside the data types, with the errors the code has for them.
    The access paths of [indexes/ordered.rs] are left out; the ordered scan they ask for
    is in [Exec].
    Files, locking and configuration ([storage.rs], [handle.rs], [fsutil.rs],
    [durability.rs], [blob], [encrypted_store/store.rs], [field_crypto/keyfile.rs]) are calls of
    the operating system; what depends on their answers takes them as parameters.  The turns of
    the background index worker (building, resetting, compacting), the floating-point
    estimates, statistics and feedback that choose between plans ([query/optimizer.rs],
    [query/stats.rs], the cheapest recipe in [indexes/planner.rs]) decide how fast an answer
    comes, not which; the choice is a parameter.  Running migrations and upgrades of older
    formats ([migration/runner.rs], [upgrade]), the copying of files when the encryption
    changes ([migration/encrypted] but for the marker and the change of keys), the
    metadata readers ([metadata]) and the derive macro are left out, as are event sinks
    and diagnostics everywhere. *)
From Stdlib Require Export NArith ZArith Lia.
From Stdlib Require Strings.Byte Strings.String.
Export Strings.String.StringSyntax.
From stdpp Require Export base list numbers option countable gmap sorting.

(** ** Bytes and Rust strings *)

Abbreviation byte := Init.Byte.byte.

#[global] Instance byte_eq_dec : EqDecision byte := Byte.byte_eq_dec.

Definition byte_to_N (b : byte) : N := Byte.to_N b.

(** [n as u8]: the low eight bits. *)
Definition byte_of_N (n : N) : byte :=
  default Byte.x00 (Byte.of_N (n mod 256)).

(** A Rust [String] is its UTF-8 bytes; so is a [&str]. *)
Abbreviation str := (list byte).
Abbreviation bytes := (list byte).

(** A string literal of the source. *)
Definition lit (s : String.string) : str := String.list_byte_of_string s.
Arguments lit s%_string_scope.

(** [x.len()] of a slice, as the machine integer it is. *)
Definition len {A} (l : list A) : N := N.of_nat (length l).

Lemma byte_to_N_bound b : (byte_to_N b < 256)%N.
Proof. unfold byte_to_N. pose proof (Byte.to_N_bounded b). lia. Qed.

Lemma byte_of_to_N b : byte_of_N (byte_to_N b) = b.
Proof.
  unfold byte_of_N, byte_to_N. pose proof (Byte.to_N_bounded b).
  rewrite N.mod_small by lia. by rewrite Byte.of_to_N.
Qed.

Lemma byte_to_of_N n : byte_to_N (byte_of_N n) = (n mod 256)%N.
Proof.
  unfold byte_of_N, byte_to_N.
  destruct (Byte.of_N (n mod 256)) as [b|] eqn:E; simpl.
  - by apply Byte.to_of_N in E.
  - apply Byte.of_N_None_iff in E. pose proof (N.mod_lt n 256). lia.
Qed.

Lemma byte_to_N_inj a b : byte_to_N a = byte_to_N b → a = b.
Proof. intros H. by rewrite <-(byte_of_to_N a), H, byte_of_to_N. Qed.

#[global] Instance byte_countable : Countable byte.
Proof.
  refine (inj_countable' byte_to_N byte_of_N _). exact byte_of_to_N.
Defined.

(** [String::from_utf8] accepts exactly the well-formed UTF-8 sequences: no
    overlong form, no surrogate, nothing above U+10FFFF. *)
Definition in_range (lo hi : N) (b : byte) : bool :=
  (lo <=? byte_to_N b)%N && (byte_to_N b <=? hi)%N.

Definition cont (b : byte) : bool := in_range 128 191 b.

Fixpoint utf8_valid (l : bytes) : bool :=
  match l with
  | [] => true
  | a :: l1 =>
    if in_range 0 127 a then utf8_valid l1
    else match l1 with
    | [] => false
    | b :: l2 =>
      if in_range 194 223 a then cont b && utf8_valid l2
      else match l2 with
      | [] => false
      | c :: l3 =>
        let second :=
          if in_range 224 224 a then in_range 160 191 b
          else if in_range 237 237 a then in_range 128 159 b
          else in_range 225 239 a && cont b in
        if in_range 224 239 a then second && cont c && utf8_valid l3
        else match l3 with
        | [] => false
        | d :: l4 =>
          let second4 :=
            if in_range 240 240 a then in_range 144 191 b
            else if in_range 244 244 a then in_range 128 143 b
            else in_range 241 243 a && cont b in
          second4 && cont c && cont d && utf8_valid l4
        end
      end
    end
  end.

(** ** Errors *)

(** [units.rs]: the error type of the library. A payload that the source
    formats is its text; an error of redb or serde_json is kept as its text.
    [FuelExhausted] is not an error of the library: it marks a loop of the model that was
    given too little fuel, and is shown unreachable where a loop is used. *)
Inductive ClError :=
| IdFieldMismatch
| NonUnique (count : N)
| InvalidCursor
| UnsupportedSum
| DecimalSumLimit
| SumOverflow
| UniqueViolation
| DuplicateGroups (groups : N)
| ConsumerExpired
| ConsumerNeedsRebuild
| IoError (why : str)
| ValidationError (why : str)
| SearchError (why : str)
| PermissionDenied (why : str)
| ExecutionError (why : str)
| ImageNotFound (why : str)
| InvalidCoordinates (why : str)
| KeyNotFound (why : str)
| DirectoryNotFound (why : str)
| Database (why : str)
| DatabaseInUse (path : str)
| BackupOpenFailed (path reason : str)
| OutOfMemory (site : str) (size : N)
| Serialization (why : str)
| CorruptMigrationIndex (path detail : str)
| NotFound (why : str)
| Validation (why : str)
| Cache (why : str)
| Utf8Error (why : str)
| OptionNone
| MigrationError (why : str)
| StreamExternal (why : str)
| NotRestorable (version : N) (schema_at_version current_schema_version migration_id : str)
| MigrationConflict (table key policy : str)
| DecoderNotFound (from_layout_hash to_layout_hash migration_id : str)
| LayoutMismatch (table registered : str) (chain_version : N)
| LegacyMigrationFormat (path : str)
| TargetTableOccupied (db table : str) (existing_keys : N)
| ExternalMappingRequired (table : str)
| IncompatibleOverwrite (table key : str)
| TableMismatch (expected found : list str)
| BackupNormalizeFailed (reason : str)
| NotCloveDatabase (path : str)
| UpgradeIncomplete (db_name : str)
| Closed (path : str)
| EncryptedOpenFailed
| DataTampered
| FuelExhausted.

#[global] Instance ClError_eq_dec : EqDecision ClError.
Proof. solve_decision. Defined.

Inductive result (A : Type) := Ok (a : A) | Err (e : ClError).
Arguments Ok {A} a.
Arguments Err {A} e.

Definition rbind {A B} (r : result A) (k : A → result B) : result B :=
  match r with Ok a => k a | Err e => Err e end.

Definition rmap {A B} (f : A → B) (r : result A) : result B :=
  match r with Ok a => Ok (f a) | Err e => Err e end.

(** [o.ok_or_else(|| e)] *)
Definition ok_or {A} (o : option A) (e : ClError) : result A :=
  match o with Some a => Ok a | None => Err e end.

Definition is_ok {A} (r : result A) : bool :=
  match r with Ok _ => true | Err _ => false end.

Declare Scope clove_scope.
Delimit Scope clove_scope with clove.

Notation "'let?' x := r 'in' k" := (rbind r (fun x => k))
  (at level 10, x name, r at level 100, k at level 200) : clove_scope.
Notation "'let?' ' p := r 'in' k" := (rbind r (fun x => match x with p => k end))
  (at level 10, p pattern, r at level 100, k at level 200) : clove_scope.
Notation "'check?' r 'in' k" := (rbind r (fun _ => k))
  (at level 10, r at level 100, k at level 200) : clove_scope.
Open Scope clove_scope.

(** [iter.map(f).collect::<Result<Vec<_>>>()]: stops at the first error. *)
Fixpoint traverse {A B} (f : A → result B) (l : list A) : result (list B) :=
  match l with
  | [] => Ok []
  | a :: l' => let? b := f a in let? bs := traverse f l' in Ok (b :: bs)
  end.

(** A [for] loop over [l] whose body may fail, threading the state [s]. *)
Fixpoint try_fold {A S} (f : S → A → result S) (s : S) (l : list A) : result S :=
  match l with
  | [] => Ok s
  | a :: l' => let? s' := f s a in try_fold f s' l'
  end.

(** ** Tactics *)

(** Split the first bind of a hypothesis [rbind r k = Ok _]. *)
Ltac ok_inv H :=
  match type of H with
  | rbind ?r _ = Ok _ =>
      let E := fresh "E" in
      destruct r eqn:E; cbn [rbind] in H; [| discriminate H]
  | Ok _ = Ok _ => injection H as H; subst
  | Err _ = Ok _ => discriminate H
  end.
Ltac ok_invs := repeat match goal with H : _ = Ok _ |- _ => ok_inv H end.

Lemma rbind_ok {A B} (r : result A) (k : A → result B) b :
  rbind r k = Ok b → ∃ a, r = Ok a ∧ k a = Ok b.
Proof. destruct r; simpl; [eauto | discriminate]. Qed.

Lemma traverse_ok_Forall2 {A B} (f : A → result B) l bs :
  traverse f l = Ok bs ↔ Forall2 (λ a b, f a = Ok b) l bs.
Proof.
  revert bs. induction l as [|a l IH]; intros bs; simpl.
  - split; [intros [= <-]; constructor | by inversion 1].
  - split.
    + intros H. apply rbind_ok in H as (b & Hb & H).
      apply rbind_ok in H as (bs' & Hbs & [= <-]).
      constructor; [done | by apply IH].
    + inversion 1 as [|? b ? bs' Hb Hbs]; subst. rewrite Hb. simpl.
      apply IH in Hbs. by rewrite Hbs.
Qed.

Lemma traverse_length {A B} (f : A → result B) l bs :
  traverse f l = Ok bs → length bs = length l.
Proof. rewrite traverse_ok_Forall2. intros H. symmetry. by eapply Forall2_length. Qed.

Lemma try_fold_app {A S} (f : S → A → result S) s l1 l2 :
  try_fold f s (l1 ++ l2) = rbind (try_fold f s l1) (λ s', try_fold f s' l2).
Proof. revert s. induction l1 as [|a l IH]; intros s; simpl; [done|]. destruct (f s a); simpl; auto. Qed.

(** ** Fixed-width integers *)

Definition U64 : N := 18446744073709551616.
Definition U32 : N := 4294967296.

(** [a.checked_add(b)] and [a.checked_sub(b)] on [u64]. *)
Definition checked_add (a b : N) : option N := if (a + b <? U64)%N then Some (a + b)%N else None.
Definition checked_sub (a b : N) : option N := if (b <=? a)%N then Some (a - b)%N else None.
(** [a.saturating_add(b)] on [u64]; [saturating_sub] is [N.sub]. *)
Definition saturating_add (a b : N) : N := N.min (a + b) (U64 - 1).

(** [v.to_le_bytes()] of an [n]-byte integer, and back. *)
Fixpoint le_bytes (n : nat) (v : N) : bytes :=
  match n with
  | O => []
  | S n' => byte_of_N v :: le_bytes n' (v / 256)
  end.

Fixpoint of_le (l : bytes) : N :=
  match l with
  | [] => 0
  | b :: l' => byte_to_N b + 256 * of_le l'
  end.

(** [v.to_be_bytes()] and [from_be_bytes]. *)
Definition be_bytes (n : nat) (v : N) : bytes := rev (le_bytes n v).
Definition of_be (l : bytes) : N := of_le (rev l).

Lemma le_bytes_length n v : length (le_bytes n v) = n.
Proof. revert v. induction n; intros; simpl; auto. Qed.

Lemma be_bytes_length n v : length (be_bytes n v) = n.
Proof. unfold be_bytes. by rewrite length_rev, le_bytes_length. Qed.

Lemma of_le_bytes n v : of_le (le_bytes n v) = (v mod 256 ^ N.of_nat n)%N.
Proof.
  revert v. induction n as [|n IH]; intros v.
  - simpl. by rewrite N.mod_1_r.
  - cbn [le_bytes of_le]. rewrite IH, byte_to_of_N, Nat2N.inj_succ, N.pow_succ_r'.
    rewrite N.Div0.mod_mul_r by lia. lia.
Qed.

Lemma of_le_bound l : (of_le l < 256 ^ len l)%N.
Proof.
  unfold len. induction l as [|b l IH]; simpl length; [simpl; lia|].
  cbn [of_le]. rewrite Nat2N.inj_succ, N.pow_succ_r'. pose proof (byte_to_N_bound b). lia.
Qed.

Lemma le_of_le l : le_bytes (length l) (of_le l) = l.
Proof.
  induction l as [|b l IH]; [done|]. cbn [length le_bytes of_le].
  pose proof (byte_to_N_bound b) as Hb. f_equal.
  - apply byte_to_N_inj. rewrite byte_to_of_N.
    rewrite N.mul_comm, N.Div0.mod_add, N.mod_small; lia.
  - replace ((byte_to_N b + 256 * of_le l) / 256)%N with (of_le l); [done|].
    rewrite N.mul_comm, N.div_add by lia. rewrite N.div_small by lia. lia.
Qed.

Lemma of_le_inj l1 l2 : length l1 = length l2 → of_le l1 = of_le l2 → l1 = l2.
Proof. intros Hl H. by rewrite <-(le_of_le l1), <-(le_of_le l2), Hl, H. Qed.

Lemma of_be_bytes n v : (v < 256 ^ N.of_nat n)%N → of_be (be_bytes n v) = v.
Proof.
  intros. unfold of_be, be_bytes. rewrite rev_involutive, of_le_bytes. by apply N.mod_small.
Qed.

Lemma of_be_bound l : (of_be l < 256 ^ len l)%N.
Proof. unfold of_be. pose proof (of_le_bound (rev l)). unfold len in *. by rewrite length_rev in H. Qed.

Lemma be_of_be l : be_bytes (length l) (of_be l) = l.
Proof.
  unfold of_be, be_bytes. rewrite <-(length_rev l), le_of_le. apply rev_involutive.
Qed.

Lemma of_be_inj l1 l2 : length l1 = length l2 → of_be l1 = of_be l2 → l1 = l2.
Proof. intros Hl H. by rewrite <-(be_of_be l1), <-(be_of_be l2), Hl, H. Qed.

Lemma be_bytes_inj n a b :
  (a < 256 ^ N.of_nat n)%N → (b < 256 ^ N.of_nat n)%N → be_bytes n a = be_bytes n b → a = b.
Proof. intros Ha Hb H. by rewrite <-(of_be_bytes n a), <-(of_be_bytes n b), H. Qed.

Lemma le_bytes_inj n a b :
  (a < 256 ^ N.of_nat n)%N → (b < 256 ^ N.of_nat n)%N → le_bytes n a = le_bytes n b → a = b.
Proof.
  intros Ha Hb H. apply (f_equal of_le) in H. rewrite !of_le_bytes in H.
  by rewrite !N.mod_small in H.
Qed.

Lemma U64_pow : U64 = (256 ^ N.of_nat 8)%N.
Proof. done. Qed.
Lemma U32_pow : U32 = (256 ^ N.of_nat 4)%N.
Proof. done. Qed.

Lemma checked_add_Some a b c : checked_add a b = Some c ↔ c = (a + b)%N ∧ (a + b < U64)%N.
Proof. unfold checked_add. destruct (N.ltb_spec (a + b) U64); split; intros; naive_solver lia. Qed.
Lemma checked_sub_Some a b c : checked_sub a b = Some c ↔ a = (b + c)%N.
Proof. unfold checked_sub. destruct (N.leb_spec b a); split; intros; simplify_eq; [lia|f_equal; lia|lia]. Qed.

Lemma len_app {A} (l1 l2 : list A) : len (l1 ++ l2) = (len l1 + len l2)%N.
Proof. unfold len. rewrite length_app. lia. Qed.
Lemma len_cons {A} (a : A) l : len (a :: l) = (1 + len l)%N.
Proof. unfold len. simpl. lia. Qed.
Lemma len_nil {A} : len (@nil A) = 0%N.
Proof. done. Qed.
Lemma len_le_bytes n v : len (le_bytes n v) = N.of_nat n.
Proof. unfold len. by rewrite le_bytes_length. Qed.
Lemma len_be_bytes n v : len (be_bytes n v) = N.of_nat n.
Proof. unfold len. by rewrite be_bytes_length. Qed.

(** ** Decimal text of an unsigned integer ([format!("{n}")]) *)
Fixpoint dec_digits (fuel : nat) (n : N) (acc : str) : str :=
  match fuel with
  | O => acc
  | S fuel' =>
      let acc' := byte_of_N (48 + n mod 10) :: acc in
      if (n <? 10)%N then acc' else dec_digits fuel' (n / 10) acc'
  end.
Definition dec (n : N) : str := dec_digits (S (N.to_nat (N.log2 n))) n [].

(** The number a decimal text spells. *)
Definition of_dec_from (s : str) (n : N) : N :=
  fold_left (λ acc b, acc * 10 + (byte_to_N b - 48))%N s n.
Definition of_dec (s : str) : N := of_dec_from s 0.

Definition is_dec_digit (b : byte) : bool := ((48 <=? byte_to_N b) && (byte_to_N b <=? 57))%N.

Lemma dec_digit_byte n : byte_to_N (byte_of_N (48 + n mod 10)) = (48 + n mod 10)%N.
Proof. rewrite byte_to_of_N. pose proof (N.mod_lt n 10 ltac:(lia)). apply N.mod_small. lia. Qed.

Lemma of_dec_digits fuel n acc :
  (n < 2 ^ N.of_nat fuel)%N → (0 < fuel)%nat →
  of_dec_from (dec_digits fuel n acc) 0 = of_dec_from acc n.
Proof.
  revert n acc. induction fuel as [|fuel IH]; [lia|]. intros n acc Hn _. cbn [dec_digits].
  pose proof (N.div_mod n 10 ltac:(lia)) as Hd. pose proof (N.mod_lt n 10 ltac:(lia)).
  destruct (N.ltb_spec n 10).
  - unfold of_dec_from. cbn [fold_left]. rewrite dec_digit_byte. f_equal.
    clear Hd. rewrite N.mod_small by lia. lia.
  - assert (n / 10 < 2 ^ N.of_nat fuel)%N as Hq.
    { apply N.Div0.div_lt_upper_bound. rewrite Nat2N.inj_succ, N.pow_succ_r' in Hn. lia. }
    destruct fuel as [|fuel]; [simpl in Hn; lia|].
    rewrite IH by (done || lia). unfold of_dec_from. cbn [fold_left]. rewrite dec_digit_byte.
    f_equal. generalize dependent (n / 10)%N. generalize dependent (n mod 10)%N. intros. lia.
Qed.

Lemma of_dec_dec n : of_dec (dec n) = n.
Proof.
  unfold of_dec, dec. rewrite of_dec_digits; [done| |lia].
  rewrite Nat2N.inj_succ, N2Nat.id. destruct (N.eq_dec n 0%N) as [->|]; [done|].
  by apply N.log2_spec; lia.
Qed.

#[global] Instance dec_inj : Inj (=) (=) dec.
Proof. intros a b E. by rewrite <-(of_dec_dec a), E, of_dec_dec. Qed.

Lemma dec_digits_all fuel n acc :
  Forall (λ b, is_dec_digit b = true) acc → Forall (λ b, is_dec_digit b = true) (dec_digits fuel n acc).
Proof.
  revert n acc. induction fuel as [|fuel IH]; [done|]. intros n acc Ha. cbn [dec_digits].
  assert (Forall (λ b, is_dec_digit b = true) (byte_of_N (48 + n mod 10) :: acc)).
  { constructor; [|done]. unfold is_dec_digit. rewrite dec_digit_byte.
    pose proof (N.mod_lt n 10 ltac:(lia)). rewrite andb_true_iff, !N.leb_le.
    generalize dependent (n mod 10)%N. intros. lia. }
  case_match; auto.
Qed.

Lemma dec_all_digits n : Forall (λ b, is_dec_digit b = true) (dec n).
Proof. by apply dec_digits_all. Qed.

Lemma dec_no_colon n : Byte.x3a ∉ dec n.
Proof. intros Hi. pose proof (dec_all_digits n) as Hd. rewrite Forall_forall in Hd. by apply Hd in Hi. Qed.

(** One digit of lower-case hexadecimal. *)
Definition hex_digit (n : N) : byte := byte_of_N (if (n <? 10)%N then 48 + n else 87 + n)%N.

Lemma dec_nonempty n : dec n ≠ [].
Proof.
  unfold dec. assert (∀ fuel n acc, dec_digits (S fuel) n acc ≠ []) as Hne; [|apply Hne].
  clear n. induction fuel as [|fuel IH]; intros n acc; cbn [dec_digits]; case_match; try done.
  apply IH.
Qed.

(** ** Bits as arithmetic *)

Lemma lor_high a k b : (b < 2 ^ k)%N → N.lor (a * 2 ^ k) b = (a * 2 ^ k + b)%N.
Proof.
  intros Hb. assert (Hd : N.land (a * 2 ^ k) b = 0%N).
  { apply N.bits_inj. intros i. rewrite N.land_spec, N.bits_0. destruct (N.ltb_spec i k).
    - by rewrite N.mul_pow2_bits_low.
    - rewrite <-(N.mod_small b (2 ^ k)), N.mod_pow2_bits_high by done. apply andb_false_r. }
  by rewrite N.add_nocarry_lxor, N.lxor_lor.
Qed.

(** ** Automation *)

(** Facts that side conditions ask for again and again. *)
Create HintDb clove.
#[export] Hint Resolve byte_to_N_bound dec_nonempty dec_all_digits : clove.
