(* ===== verification/Order.v ===== *)
(** * Total orders

    redb compares keys by their bytes ([&str], [&[u8]]) or as numbers ([u64]),
    and a [BTreeMap]/[BTreeSet] of the source compares the same way.  This file
    has the order class, its instances, the fixed-width big-endian encoding as an
    order embedding, and the fact that a strictly sorted list is determined by its
    elements. *)
From S2P Require Import Prelude.

Class TotalOrder (K : Type) := {
  cmp : K → K → comparison;
  cmp_eq : ∀ a b, cmp a b = Eq ↔ a = b;
  cmp_opp : ∀ a b, cmp b a = CompOpp (cmp a b);
  cmp_trans : ∀ a b c, cmp a b = Lt → cmp b c = Lt → cmp a c = Lt;
}.

Definition key_lt {K} `{TotalOrder K} (a b : K) : Prop := cmp a b = Lt.
Definition ltb {K} `{TotalOrder K} (a b : K) : bool :=
  match cmp a b with Lt => true | _ => false end.
Definition leb {K} `{TotalOrder K} (a b : K) : bool :=
  match cmp a b with Gt => false | _ => true end.

Section facts.
Context {K : Type} `{TotalOrder K}.

Lemma cmp_refl (a : K) : cmp a a = Eq.
Proof. by apply cmp_eq. Qed.
Lemma cmp_gt_lt (a b : K) : cmp a b = Gt ↔ cmp b a = Lt.
Proof. rewrite (cmp_opp a b). destruct (cmp a b); simpl; naive_solver. Qed.
Lemma key_lt_irrefl (a : K) : ¬ key_lt a a.
Proof. unfold key_lt. by rewrite cmp_refl. Qed.
Lemma key_lt_asym (a b : K) : key_lt a b → ¬ key_lt b a.
Proof. unfold key_lt. intros E. rewrite (cmp_opp a b), E. done. Qed.
#[global] Instance key_lt_trans : Transitive (@key_lt K _).
Proof. intros a b c. apply cmp_trans. Qed.
Lemma key_lt_total (a b : K) : key_lt a b ∨ a = b ∨ key_lt b a.
Proof.
  unfold key_lt. destruct (cmp a b) eqn:E; [|by auto|].
  - apply cmp_eq in E. auto.
  - apply cmp_gt_lt in E. auto.
Qed.
Lemma ltb_lt (a b : K) : ltb a b = true ↔ key_lt a b.
Proof. unfold ltb, key_lt. destruct (cmp a b); naive_solver. Qed.
Lemma leb_le (a b : K) : leb a b = true ↔ ¬ key_lt b a.
Proof.
  unfold leb, key_lt. rewrite (cmp_opp a b). destruct (cmp a b); simpl; naive_solver.
Qed.
#[global] Instance key_lt_dec (a b : K) : Decision (key_lt a b).
Proof. unfold key_lt. solve_decision. Defined.
#[global] Instance order_eq_dec : EqDecision K | 100.
Proof.
  intros a b. destruct (cmp a b) eqn:E; [left; by apply cmp_eq|right|right].
  - intros ->. by rewrite cmp_refl in E.
  - intros ->. by rewrite cmp_refl in E.
Defined.
End facts.

(** ** Instances *)

#[global] Program Instance N_order : TotalOrder N := {| cmp := N.compare |}.
Next Obligation. apply N.compare_eq_iff. Qed.
Next Obligation. intros a b. apply N.compare_antisym. Qed.
Next Obligation. intros a b c. rewrite !N.compare_lt_iff. lia. Qed.

#[global] Program Instance Z_order : TotalOrder Z := {| cmp := Z.compare |}.
Next Obligation. apply Z.compare_eq_iff. Qed.
Next Obligation. intros a b. apply Z.compare_antisym. Qed.
Next Obligation. intros a b c. rewrite !Z.compare_lt_iff. lia. Qed.

#[global] Program Instance byte_order : TotalOrder byte :=
  {| cmp a b := N.compare (byte_to_N a) (byte_to_N b) |}.
Next Obligation.
  intros a b. simpl. rewrite N.compare_eq_iff. split; [apply byte_to_N_inj | by intros ->].
Qed.
Next Obligation. intros a b. apply N.compare_antisym. Qed.
Next Obligation. intros a b c. simpl. rewrite !N.compare_lt_iff. lia. Qed.

(** Lexicographic order of slices, as Rust's [Ord for [T]]. *)
Fixpoint list_cmp {A} `{TotalOrder A} (l1 l2 : list A) : comparison :=
  match l1, l2 with
  | [], [] => Eq
  | [], _ :: _ => Lt
  | _ :: _, [] => Gt
  | a :: l1', b :: l2' => match cmp a b with Eq => list_cmp l1' l2' | c => c end
  end.

#[global] Program Instance list_order {A} `{TotalOrder A} : TotalOrder (list A) :=
  {| cmp := list_cmp |}.
Next Obligation.
  intros A ? l1. induction l1 as [|a l1 IH]; intros [|b l2]; simpl; try done.
  destruct (cmp a b) eqn:E.
  - apply cmp_eq in E as ->. rewrite IH. naive_solver.
  - split; [done|]. intros [= -> ->]. by rewrite cmp_refl in E.
  - split; [done|]. intros [= -> ->]. by rewrite cmp_refl in E.
Qed.
Next Obligation.
  intros A ? l1. induction l1 as [|a l1 IH]; intros [|b l2]; simpl; try done.
  rewrite (cmp_opp a b). destruct (cmp a b); simpl; auto.
Qed.
Next Obligation.
  intros A ? l1. induction l1 as [|a l1 IH]; intros [|b l2] [|c l3]; simpl; try done.
  destruct (cmp a b) eqn:E1, (cmp b c) eqn:E2; try done; intros H1 H2.
  - apply cmp_eq in E1 as ->. apply cmp_eq in E2 as ->. rewrite cmp_refl. eauto.
  - apply cmp_eq in E1 as ->. by rewrite E2.
  - apply cmp_eq in E2 as ->. by rewrite E1.
  - by rewrite (cmp_trans _ _ _ E1 E2).
Qed.

(** Tuple order: the first component decides. *)
Definition prod_cmp {A B} `{TotalOrder A, TotalOrder B} (p q : A * B) : comparison :=
  match cmp p.1 q.1 with Eq => cmp p.2 q.2 | c => c end.

#[global] Program Instance prod_order {A B} `{TotalOrder A, TotalOrder B} : TotalOrder (A * B) :=
  {| cmp := prod_cmp |}.
Next Obligation.
  intros A B ?? [a b] [c d]. unfold prod_cmp. simpl. destruct (cmp a c) eqn:E.
  - apply cmp_eq in E as ->. rewrite (cmp_eq b d). naive_solver.
  - split; [done|]. intros [= -> ->]. by rewrite cmp_refl in E.
  - split; [done|]. intros [= -> ->]. by rewrite cmp_refl in E.
Qed.
Next Obligation.
  intros A B ?? [a b] [c d]. unfold prod_cmp. simpl. rewrite (cmp_opp a c), (cmp_opp b d).
  by destruct (cmp a c).
Qed.
Next Obligation.
  intros A B ?? [a1 b1] [a2 b2] [a3 b3]; unfold prod_cmp; simpl.
  destruct (cmp a1 a2) eqn:E1, (cmp a2 a3) eqn:E2; try done; intros H1 H2.
  - apply cmp_eq in E1 as ->. apply cmp_eq in E2 as ->. rewrite cmp_refl.
    by eapply cmp_trans.
  - apply cmp_eq in E1 as ->. by rewrite E2.
  - apply cmp_eq in E2 as ->. by rewrite E1.
  - by rewrite (cmp_trans _ _ _ E1 E2).
Qed.

(** ** Lexicographic order of concatenations *)

Lemma list_cmp_app_same {A} `{TotalOrder A} (p l1 l2 : list A) :
  list_cmp (p ++ l1) (p ++ l2) = list_cmp l1 l2.
Proof. induction p; simpl; [done|]. by rewrite cmp_refl. Qed.

Lemma list_cmp_eq {A} `{TotalOrder A} (x y : list A) : list_cmp x y = Eq ↔ x = y.
Proof. exact (cmp_eq x y). Qed.

(** Two heads of the same length decide first. *)
Lemma list_cmp_app {A} `{TotalOrder A} (p q l1 l2 : list A) :
  length p = length q →
  list_cmp (p ++ l1) (q ++ l2) = match list_cmp p q with Eq => list_cmp l1 l2 | c => c end.
Proof.
  revert q. induction p as [|a p IH]; intros [|b q]; try done.
  simpl. intros [= Hl]. destruct (cmp a b); auto.
Qed.

(** [to_be_bytes] is an order embedding. *)
Lemma cmp_be_bytes n a b :
  (a < 256 ^ N.of_nat n)%N → (b < 256 ^ N.of_nat n)%N →
  list_cmp (be_bytes n a) (be_bytes n b) = N.compare a b.
Proof.
  revert a b. induction n as [|n IH]; intros a b Ha Hb.
  { change (256 ^ N.of_nat 0)%N with 1%N in *. assert (a = 0%N) as -> by lia.
    assert (b = 0%N) as -> by lia. done. }
  rewrite Nat2N.inj_succ, N.pow_succ_r' in Ha, Hb.
  unfold be_bytes. cbn [le_bytes rev].
  change (rev (le_bytes n ?x)) with (be_bytes n x).
  rewrite list_cmp_app by by rewrite !be_bytes_length.
  rewrite IH by (apply N.Div0.div_lt_upper_bound; lia).
  pose proof (N.div_mod a 256 ltac:(lia)) as Ea. pose proof (N.div_mod b 256 ltac:(lia)) as Eb.
  pose proof (N.mod_lt a 256 ltac:(lia)). pose proof (N.mod_lt b 256 ltac:(lia)).
  clear Ha Hb IH. simpl. rewrite !byte_to_of_N. revert Ea Eb H H0.
  generalize (a / 256)%N (b / 256)%N (a mod 256)%N (b mod 256)%N. intros qa qb ra rb Ea Eb ??.
  destruct (N.compare_spec qa qb) as [E|E|E].
  - destruct (N.compare_spec ra rb), (N.compare_spec a b); try done; lia.
  - symmetry. apply N.compare_lt_iff. lia.
  - symmetry. apply N.compare_gt_iff. lia.
Qed.

(** ** Strictly sorted association lists *)

Section sorted.
Context {K V : Type} `{TotalOrder K}.

Definition pair_lt (p q : K * V) : Prop := key_lt p.1 q.1.

#[global] Instance pair_lt_trans : Transitive pair_lt.
Proof. intros a b c. apply key_lt_trans. Qed.

Lemma sorted_cons_inv (p : K * V) l :
  StronglySorted pair_lt (p :: l) → StronglySorted pair_lt l ∧ Forall (pair_lt p) l.
Proof. by inversion 1. Qed.

Lemma sorted_lookup_inj (l : list (K * V)) k v w :
  StronglySorted pair_lt l → (k, v) ∈ l → (k, w) ∈ l → v = w.
Proof.
  induction 1 as [|[k0 v0] l Hs IH Hf]; [by intros ?%not_elem_of_nil|].
  rewrite Forall_forall in Hf. intros Hv Hw.
  apply elem_of_cons in Hv as [Hv|Hv]; apply elem_of_cons in Hw as [Hw|Hw]; simplify_eq; auto.
  - apply Hf in Hw. by apply key_lt_irrefl in Hw.
  - apply Hf in Hv. by apply key_lt_irrefl in Hv.
Qed.

(** A strictly sorted list is determined by its elements. *)
Lemma sorted_ext (l1 l2 : list (K * V)) :
  StronglySorted pair_lt l1 → StronglySorted pair_lt l2 →
  (∀ p, p ∈ l1 ↔ p ∈ l2) → l1 = l2.
Proof.
  intros H1. revert l2. induction H1 as [|p l1 Hs1 IH Hf1]; intros l2 H2 Heq.
  - destruct l2 as [|q l2]; [done|].
    exfalso. apply (not_elem_of_nil q), Heq. apply elem_of_cons; auto.
  - destruct H2 as [|q l2 Hs2 Hf2].
    { exfalso. apply (not_elem_of_nil p), Heq. apply elem_of_cons; auto. }
    rewrite Forall_forall in Hf1, Hf2.
    assert (p = q) as ->.
    { assert (p ∈ q :: l2) as Hp by (apply Heq, elem_of_cons; auto).
      assert (q ∈ p :: l1) as Hq by (apply Heq, elem_of_cons; auto).
      apply elem_of_cons in Hp as [->|Hp]; [done|].
      apply elem_of_cons in Hq as [->|Hq]; [done|].
      apply Hf2 in Hp. apply Hf1 in Hq. by apply key_lt_asym in Hp. }
    f_equal. apply IH; [done|]. intros r. specialize (Heq r). rewrite !elem_of_cons in Heq.
    split; intros Hr.
    + destruct (proj1 Heq (or_intror Hr)) as [->|]; [|done].
      apply Hf1 in Hr. by apply key_lt_irrefl in Hr.
    + destruct (proj2 Heq (or_intror Hr)) as [->|]; [|done].
      apply Hf2 in Hr. by apply key_lt_irrefl in Hr.
Qed.

Lemma sorted_snoc (l : list (K * V)) p :
  StronglySorted pair_lt l → Forall (λ q, pair_lt q p) l → StronglySorted pair_lt (l ++ [p]).
Proof.
  induction 1 as [|q l Hs IH Hf]; intros Hp; simpl.
  - repeat constructor.
  - inversion Hp; subst. constructor; [auto|]. apply Forall_app. auto.
Qed.

Lemma sorted_filter (P : K * V → Prop) `{∀ x, Decision (P x)} (l : list (K * V)) :
  StronglySorted pair_lt l → StronglySorted pair_lt (filter P l).
Proof.
  induction 1 as [|q l Hs IH Hf]; [constructor|].
  rewrite filter_cons. case_decide; [|done]. constructor; [done|].
  rewrite Forall_forall in *. intros x Hx. apply list_elem_of_filter in Hx as [_ Hx]. auto.
Qed.

Lemma sorted_app_inv (l1 l2 : list (K * V)) :
  StronglySorted pair_lt (l1 ++ l2) → StronglySorted pair_lt l1 ∧ StronglySorted pair_lt l2.
Proof.
  induction l1 as [|p l1 IH]; simpl; [intros; split; [constructor|done]|].
  intros [Hs Hf]%sorted_cons_inv. apply Forall_app in Hf as [Hf _].
  destruct (IH Hs) as [? ?]. split; [by constructor|done].
Qed.
End sorted.

(** ** [BTreeSet] *)

(** Insertion into a set kept in ascending order. *)
Fixpoint bset_insert {K} `{TotalOrder K} (k : K) (l : list K) : list K :=
  match l with
  | [] => [k]
  | k0 :: l' =>
      match cmp k k0 with
      | Lt => k :: l
      | Eq => l
      | Gt => k0 :: bset_insert k l'
      end
  end.

Lemma elem_of_bset_insert {K} `{TotalOrder K} (k x : K) l : x ∈ bset_insert k l ↔ x = k ∨ x ∈ l.
Proof.
  induction l as [|k0 l IH]; simpl; [set_solver|].
  destruct (cmp k k0) eqn:E; [apply cmp_eq in E as ->|..]; set_solver.
Qed.

(** [*map.entry(k).or_default() += 1] on a [BTreeMap] of counters. *)
Fixpoint bmap_count {K} `{TotalOrder K} (k : K) (l : list (K * N)) : list (K * N) :=
  match l with
  | [] => [(k, 1%N)]
  | (k0, n) :: l' =>
      match cmp k k0 with
      | Lt => (k, 1%N) :: l
      | Eq => (k0, n + 1)%N :: l'
      | Gt => (k0, n) :: bmap_count k l'
      end
  end.
