(* ===== verification/Redb.v ===== *)
(** * The redb and serde_json interfaces

    redb stores ordered maps in one file and serde_json turns values into bytes.
    Neither is part of this repository, so both are interfaces here: [Redb] is a
    family of ordered tables with the documented behaviour of [get], [insert],
    [remove] and ascending iteration, [Serde A] is a pair of functions with the
    round trip the code relies on.  Every definition that touches a table takes
    an instance; [ListRedb] and [countable_serde] are concrete instances. *)
From S2P Require Import Prelude Order.

(** ** Tables *)

Class Redb := {
  table : ∀ (K V : Type) `{TotalOrder K}, Type;
  t_new : ∀ {K V} `{TotalOrder K}, table K V;
  t_iter : ∀ {K V} `{TotalOrder K}, table K V → list (K * V);
  t_get : ∀ {K V} `{TotalOrder K}, table K V → K → option V;
  t_insert : ∀ {K V} `{TotalOrder K}, table K V → K → V → table K V;
  t_remove : ∀ {K V} `{TotalOrder K}, table K V → K → table K V;

  t_iter_sorted : ∀ {K V} `{TotalOrder K} (t : table K V), StronglySorted pair_lt (t_iter t);
  t_get_iter : ∀ {K V} `{TotalOrder K} (t : table K V) k v,
    t_get t k = Some v ↔ (k, v) ∈ t_iter t;
  t_get_new : ∀ {K V} `{TotalOrder K} (k : K), t_get (@t_new K V _) k = None;
  t_get_insert : ∀ {K V} `{TotalOrder K} (t : table K V) k v k',
    t_get (t_insert t k v) k' = if decide (k = k') then Some v else t_get t k';
  t_get_remove : ∀ {K V} `{TotalOrder K} (t : table K V) k k',
    t_get (t_remove t k) k' = if decide (k = k') then None else t_get t k';
}.

Section tables.
Context `{Redb} {K V : Type} `{TotalOrder K}.
Implicit Types (t : table K V) (k : K) (v : V).

(** [table.first()] is the entry with the lowest key. *)
Definition t_first t : option (K * V) := head (t_iter t).

(** [table.range(lo..)] with an excluded bound: entries above [k], ascending. *)
Definition t_range_above t k : list (K * V) := filter (λ p, key_lt k p.1) (t_iter t).

(** [table.range(lo..=hi)]: entries between two included bounds, ascending. *)
Definition t_range t (lo hi : K) : list (K * V) :=
  filter (λ p, ¬ key_lt p.1 lo ∧ ¬ key_lt hi p.1) (t_iter t).

(** [table.retain(f)] keeps the entries [f] accepts. *)
Definition t_retain (f : K → V → bool) t : table K V :=
  foldr (λ p acc, if f p.1 p.2 then acc else t_remove acc p.1) t (t_iter t).

Lemma t_get_insert_eq t k v : t_get (t_insert t k v) k = Some v.
Proof. rewrite t_get_insert. by case_decide. Qed.
Lemma t_get_insert_ne t k v k' : k ≠ k' → t_get (t_insert t k v) k' = t_get t k'.
Proof. intros. rewrite t_get_insert. by case_decide. Qed.
Lemma t_get_remove_eq t k : t_get (t_remove t k) k = None.
Proof. rewrite t_get_remove. by case_decide. Qed.
Lemma t_get_remove_ne t k k' : k ≠ k' → t_get (t_remove t k) k' = t_get t k'.
Proof. intros. rewrite t_get_remove. by case_decide. Qed.

Lemma t_iter_inj t k v w : (k, v) ∈ t_iter t → (k, w) ∈ t_iter t → v = w.
Proof. apply sorted_lookup_inj, t_iter_sorted. Qed.

(** Two tables that answer every [get] alike iterate alike. *)
Lemma t_iter_ext t t' : (∀ k, t_get t k = t_get t' k) → t_iter t = t_iter t'.
Proof.
  intros Hg. apply sorted_ext; [apply t_iter_sorted..|].
  intros [k v]. rewrite <-!t_get_iter. by rewrite Hg.
Qed.

Lemma t_get_list t l :
  StronglySorted pair_lt l → (∀ k v, t_get t k = Some v ↔ (k, v) ∈ l) → t_iter t = l.
Proof.
  intros Hs Hg. apply sorted_ext; [apply t_iter_sorted|done|].
  intros [k v]. rewrite <-t_get_iter. apply Hg.
Qed.

Lemma t_get_None t k : t_get t k = None ↔ ∀ v, (k, v) ∉ t_iter t.
Proof.
  split.
  - intros Hn v Hv%t_get_iter. congruence.
  - intros Hn. destruct (t_get t k) as [v|] eqn:E; [|done].
    apply t_get_iter in E. by apply Hn in E.
Qed.

Lemma t_iter_new : t_iter (@t_new _ K V _) = [].
Proof.
  destruct (t_iter t_new) as [|[k v] l] eqn:E; [done|].
  assert (t_get (@t_new _ K V _) k = Some v) as Hg
    by (apply t_get_iter; rewrite E; apply elem_of_cons; auto).
  by rewrite t_get_new in Hg.
Qed.

(** Appending above every key extends the iteration at its end. *)
Lemma t_iter_insert_last t k v :
  Forall (λ p, key_lt p.1 k) (t_iter t) → t_iter (t_insert t k v) = t_iter t ++ [(k, v)].
Proof.
  intros Hf. apply t_get_list.
  - apply sorted_snoc; [apply t_iter_sorted | done].
  - intros k' v'. rewrite t_get_insert, elem_of_app, list_elem_of_singleton.
    case_decide as Hk; [subst k'|].
    + split; [naive_solver|]. intros [Hv|[= ->]]; [|done].
      rewrite Forall_forall in Hf. apply Hf in Hv. by apply key_lt_irrefl in Hv.
    + rewrite t_get_iter. naive_solver.
Qed.

(** Removing the lowest key drops the head of the iteration. *)
Lemma t_iter_remove_first t k v l :
  t_iter t = (k, v) :: l → t_iter (t_remove t k) = l.
Proof.
  intros E. pose proof (t_iter_sorted t) as Hs. rewrite E in Hs.
  apply sorted_cons_inv in Hs as [Hs Hf]. apply t_get_list; [done|].
  intros k' v'. rewrite t_get_remove. case_decide as Hk; [subst k'|].
  - split; [done|]. intros Hv. rewrite Forall_forall in Hf. apply Hf in Hv.
    by apply key_lt_irrefl in Hv.
  - rewrite t_get_iter, E, elem_of_cons. naive_solver.
Qed.

Lemma t_iter_remove t k : t_iter (t_remove t k) = filter (λ p, p.1 ≠ k) (t_iter t).
Proof.
  apply t_get_list; [apply sorted_filter, t_iter_sorted|].
  intros k' v'. rewrite t_get_remove, list_elem_of_filter. simpl.
  case_decide; [naive_solver|]. rewrite t_get_iter. naive_solver.
Qed.

Lemma t_get_remove_all (l : list K) t k :
  t_get (foldr (λ k acc, t_remove acc k) t l) k = if decide (k ∈ l) then None else t_get t k.
Proof.
  induction l as [|k0 l IH]; simpl.
  - done.
  - rewrite t_get_remove, IH. repeat case_decide; set_solver.
Qed.

Lemma t_get_retain f t k :
  t_get (t_retain f t) k =
    match t_get t k with Some v => if f k v then Some v else None | None => None end.
Proof.
  assert (Hgen : ∀ l, (∀ p, p ∈ l → t_get t p.1 = Some p.2) →
    t_get (foldr (λ p acc, if f p.1 p.2 then acc else t_remove acc p.1) t l) k =
    match t_get t k with
    | Some v => if bool_decide (k ∈ l.*1) && negb (f k v) then None else Some v
    | None => None
    end).
  { induction l as [|[k0 v0] l IH]; intros Hl; simpl.
    - by destruct (t_get t k).
    - assert (t_get t k0 = Some v0) as E0 by apply (Hl (k0, v0)), elem_of_cons, or_introl, eq_refl.
      assert (∀ p, p ∈ l → t_get t p.1 = Some p.2) as Hl'
        by (intros p Hp; apply Hl, elem_of_cons; auto).
      specialize (IH Hl'). destruct (f k0 v0) eqn:Ef.
      + rewrite IH. destruct (t_get t k) as [v|] eqn:E; [|done].
        destruct (decide (k = k0)) as [->|Hne].
        * rewrite E0 in E. injection E as ->. rewrite Ef, !andb_false_r. done.
        * do 2 case_bool_decide; set_solver.
      + rewrite t_get_remove, IH. destruct (decide (k0 = k)) as [->|Hd].
        * rewrite E0, Ef. rewrite bool_decide_true by set_solver. done.
        * destruct (t_get t k) as [v|] eqn:E; [|done].
          do 2 case_bool_decide; set_solver. }
  unfold t_retain. rewrite Hgen; [|intros [k0 v0]; by rewrite t_get_iter].
  destruct (t_get t k) as [v|] eqn:E; [|done].
  rewrite bool_decide_true; [by destruct (f k v)|].
  apply t_get_iter in E. apply list_elem_of_fmap. by exists (k, v).
Qed.
End tables.

#[export] Hint Rewrite @t_get_insert_eq @t_get_remove_eq @t_get_new : clove.
#[export] Hint Resolve t_iter_sorted : clove.

(** ** Serialization *)

(** [serde_json::to_vec] and [from_slice] at one type: what was written is read back. *)
Class Serde (A : Type) := {
  ser : A → bytes;
  de : bytes → option A;
  de_ser : ∀ a, de (ser a) = Some a;
}.

Lemma ser_inj {A} `{Serde A} (a b : A) : ser a = ser b → a = b.
Proof. intros E. apply (f_equal de) in E. rewrite !de_ser in E. congruence. Qed.

(** [serde_json::from_slice(bytes)?]: the error is [ClError::Serialization]. *)
Definition from_slice {A} `{Serde A} (b : bytes) : result A :=
  ok_or (de b) (Serialization (lit "invalid JSON")).

Lemma from_slice_ser {A} `{Serde A} (a : A) : from_slice (ser a) = Ok a.
Proof. unfold from_slice. by rewrite de_ser. Qed.

(** ** Concrete instances *)

(** An association list kept in strictly ascending key order. *)
Module ListRedb.
Section list_table.
Context {K V : Type} `{TotalOrder K}.

Fixpoint l_insert (l : list (K * V)) (k : K) (v : V) : list (K * V) :=
  match l with
  | [] => [(k, v)]
  | (k0, v0) :: l' =>
      match cmp k k0 with
      | Lt => (k, v) :: l
      | Eq => (k, v) :: l'
      | Gt => (k0, v0) :: l_insert l' k v
      end
  end.

Fixpoint l_remove (l : list (K * V)) (k : K) : list (K * V) :=
  match l with
  | [] => []
  | (k0, v0) :: l' => if decide (k = k0) then l' else (k0, v0) :: l_remove l' k
  end.

Fixpoint l_get (l : list (K * V)) (k : K) : option V :=
  match l with
  | [] => None
  | (k0, v0) :: l' => if decide (k = k0) then Some v0 else l_get l' k
  end.

Lemma l_insert_elem l k v p : p ∈ l_insert l k v → p = (k, v) ∨ p ∈ l.
Proof.
  induction l as [|[k0 v0] l IH]; simpl; [set_solver|].
  destruct (cmp k k0); set_solver.
Qed.

Lemma l_insert_sorted l k v :
  StronglySorted pair_lt l → StronglySorted pair_lt (l_insert l k v).
Proof.
  induction 1 as [|[k0 v0] l Hs IH Hf]; simpl; [repeat constructor|].
  rewrite Forall_forall in Hf. destruct (cmp k k0) eqn:E.
  - apply cmp_eq in E as ->. constructor; [done|]. by rewrite Forall_forall.
  - constructor; [constructor; [done|by rewrite Forall_forall]|].
    constructor; [done|]. rewrite Forall_forall. intros q Hq. apply Hf in Hq.
    unfold pair_lt in *. simpl in *. by etrans; [exact E|].
  - constructor; [done|]. rewrite Forall_forall.
    intros q [->|Hq]%l_insert_elem; [by apply cmp_gt_lt|by apply Hf].
Qed.

Lemma l_remove_elem l k p : p ∈ l_remove l k → p ∈ l.
Proof.
  induction l as [|[k0 v0] l IH]; simpl; [done|]. case_decide; set_solver.
Qed.

Lemma l_remove_sorted l k : StronglySorted pair_lt l → StronglySorted pair_lt (l_remove l k).
Proof.
  induction 1 as [|[k0 v0] l Hs IH Hf]; simpl; [constructor|]. case_decide; [done|].
  constructor; [done|]. rewrite Forall_forall in *. intros q Hq%l_remove_elem. auto.
Qed.

Lemma l_get_elem l k v : StronglySorted pair_lt l → l_get l k = Some v ↔ (k, v) ∈ l.
Proof.
  induction 1 as [|[k0 v0] l Hs IH Hf]; simpl; [set_solver|].
  rewrite elem_of_cons. case_decide; subst.
  - split; [naive_solver|]. intros [[= ->]|Hv]; [done|].
    rewrite Forall_forall in Hf. apply Hf in Hv. by apply key_lt_irrefl in Hv.
  - rewrite IH. naive_solver.
Qed.

Lemma l_get_insert l k v k' :
  l_get (l_insert l k v) k' = if decide (k = k') then Some v else l_get l k'.
Proof.
  induction l as [|[k0 v0] l IH]; simpl.
  - repeat case_decide; congruence.
  - destruct (cmp k k0) eqn:E; simpl.
    + apply cmp_eq in E. repeat case_decide; congruence.
    + repeat case_decide; congruence.
    + rewrite IH. assert (k ≠ k0) by (intros ->; by rewrite cmp_refl in E).
      repeat case_decide; congruence.
Qed.

Lemma l_get_remove l k k' : StronglySorted pair_lt l →
  l_get (l_remove l k) k' = if decide (k = k') then None else l_get l k'.
Proof.
  induction 1 as [|[k0 v0] l Hs IH Hf]; simpl; [by case_decide|].
  destruct (decide (k = k0)) as [->|Hne]; simpl.
  - repeat case_decide; try congruence. subst k'.
    destruct (l_get l k0) eqn:E; [|done]. apply l_get_elem in E; [|done].
    rewrite Forall_forall in Hf. apply Hf in E. by apply key_lt_irrefl in E.
  - rewrite IH. repeat case_decide; congruence.
Qed.
End list_table.

Definition l_table (K V : Type) `{TotalOrder K} : Type :=
  {l : list (K * V) | StronglySorted pair_lt l}.
End ListRedb.

#[global] Program Instance list_redb : Redb := {|
  table := @ListRedb.l_table;
  t_new K V _ := exist _ [] _;
  t_iter K V _ t := proj1_sig t;
  t_get K V _ t k := ListRedb.l_get (proj1_sig t) k;
  t_insert K V _ t k v := exist _ (ListRedb.l_insert (proj1_sig t) k v) _;
  t_remove K V _ t k := exist _ (ListRedb.l_remove (proj1_sig t) k) _;
|}.
Next Obligation. constructor. Qed.
Next Obligation. intros K V ? [l Hl] k v. by apply ListRedb.l_insert_sorted. Qed.
Next Obligation. intros K V ? [l Hl] k. by apply ListRedb.l_remove_sorted. Qed.
Next Obligation. intros K V ? [l Hl]. done. Qed.
Next Obligation. intros K V ? [l Hl] k v. by apply ListRedb.l_get_elem. Qed.
Next Obligation. done. Qed.
Next Obligation. intros K V ? [l Hl] k v k'. apply ListRedb.l_get_insert. Qed.
Next Obligation. intros K V ? [l Hl] k k'. by apply ListRedb.l_get_remove. Qed.

(** Any countable type has a byte encoding with the round trip: the bits of its code. *)
Fixpoint pos_bytes (p : positive) : bytes :=
  match p with
  | xH => []
  | xO p' => Byte.x00 :: pos_bytes p'
  | xI p' => Byte.x01 :: pos_bytes p'
  end.
Fixpoint bytes_pos (l : bytes) : positive :=
  match l with
  | [] => xH
  | b :: l' => if decide (b = Byte.x00) then xO (bytes_pos l') else xI (bytes_pos l')
  end.
Lemma bytes_pos_bytes p : bytes_pos (pos_bytes p) = p.
Proof. induction p; simpl; by rewrite ?IHp. Qed.

Program Definition countable_serde {A} `{Countable A} : Serde A := {|
  ser a := pos_bytes (encode a);
  de b := decode (bytes_pos b);
|}.
Next Obligation. intros A ? ? a. simpl. by rewrite bytes_pos_bytes, decode_encode. Qed.
