(* ===== verification/Memory.v ===== *)
(** * Fallible allocation ([memory.rs])

    The library reserves memory for the caller's data before it uses it and
    answers [ClError::OutOfMemory] when the system refuses.  The system's answer
    is the class [Allocator]; the crash-inject switch of the tests is off. *)
From S2P Require Import Prelude.

(** Whether the system grants a reservation of so many bytes at a named site. *)
Class Allocator := try_reserve : str → N → bool.

(** The allocator that never refuses. *)
Definition generous : Allocator := λ _ _, true.

Section memory.
Context `{Allocator}.

Definition saturating_mul (a b : N) : N := N.min (a * b) (U64 - 1).

Definition refused {A} (site : str) (size : N) : result A := Err (OutOfMemory site size).

(** [vec_with_capacity::<T>(site, n)] with [size_of::<T>() = size]. The new vector is empty. *)
Definition vec_with_capacity {A} (site : str) (n size : N) : result (list A) :=
  let wanted := saturating_mul n size in
  if try_reserve site wanted then Ok [] else refused site wanted.

Definition reserve (site : str) (additional size : N) : result unit :=
  let wanted := saturating_mul additional size in
  if try_reserve site wanted then Ok tt else refused site wanted.

Definition push {A} (site : str) (size : N) (v : list A) (item : A) : result (list A) :=
  check? reserve site 1 size in Ok (v ++ [item]).

Definition copy_bytes (site : str) (src : bytes) : result bytes :=
  let? v := vec_with_capacity (A := byte) site (len src) 1 in Ok (v ++ src).

(** A reservation below 1 MiB is not probed. *)
Definition PROBE_MIN : N := 1048576.
Definition probe (site : str) (size : N) : result unit :=
  if (size <? PROBE_MIN)%N then Ok tt
  else if try_reserve site size then Ok tt else refused site size.

Lemma copy_bytes_ok site src b : copy_bytes site src = Ok b → b = src.
Proof. unfold copy_bytes, vec_with_capacity. case_match; simpl; congruence. Qed.

Lemma copy_bytes_cases site src :
  copy_bytes site src = Ok src ∨ ∃ n, copy_bytes site src = Err (OutOfMemory site n).
Proof. unfold copy_bytes, vec_with_capacity, refused. case_match; simpl; eauto. Qed.

Lemma push_ok {A} site size (v : list A) item v' : push site size v item = Ok v' → v' = v ++ [item].
Proof. unfold push, reserve. case_match; simpl; congruence. Qed.
End memory.

Lemma copy_bytes_generous site src : copy_bytes (H := generous) site src = Ok src.
Proof. done. Qed.
