(* ===== verification/JournalCodec.v ===== *)
(** * The row format of the change log ([journal.rs], [ChangeKind])

    One journal row is a version byte, a tag, three length-prefixed parts and a
    size, all numbers big-endian.  [encode] and [decode] follow
    [ChangeKind::encode] and [ChangeKind::decode] statement by statement. *)
From S2P Require Import Prelude Memory.

Inductive ChangeKind :=
| Upsert (table key : str) (value : bytes)
| Delete (table key : str)
| TableReset (table snapshot : str)
| BlobPut (table key blob_id : str) (size : N)
| BlobDelete (table key blob_id : str) (size : N).

#[global] Instance ChangeKind_eq_dec : EqDecision ChangeKind.
Proof. solve_decision. Defined.

Record Change := { ch_seq : N; ch_kind : ChangeKind }.

(** [ChangeKind::parts]: tag, table, key, payload, size. *)
Definition parts (c : ChangeKind) : N * str * str * bytes * N :=
  match c with
  | Upsert table key value => (0, table, key, value, 0)
  | Delete table key => (1, table, key, [], 0)
  | TableReset table snapshot => (2, table, [], snapshot, 0)
  | BlobPut table key blob_id size => (3, table, key, blob_id, size)
  | BlobDelete table key blob_id size => (4, table, key, blob_id, size)
  end%N.

(** Every string of a change is a Rust [String] and its size a [u64]. *)
Definition change_wf (c : ChangeKind) : Prop :=
  match c with
  | Upsert table key _ | Delete table key => utf8_valid table = true ∧ utf8_valid key = true
  | TableReset table snapshot => utf8_valid table = true ∧ utf8_valid snapshot = true
  | BlobPut table key blob_id size | BlobDelete table key blob_id size =>
      utf8_valid table = true ∧ utf8_valid key = true ∧ utf8_valid blob_id = true ∧ (size < U64)%N
  end.

Definition bad : ClError := Validation (lit "corrupt or unsupported journal row").

Section codec.
Context `{Allocator}.

(** One turn of the loop over the parts: the length as a [u64], then the bytes. *)
Definition put_part (out part : bytes) : result bytes :=
  let? n := (if (len part <? U64)%N then Ok (len part)
             else Err (Validation (lit "journal row too large"))) in
  Ok (out ++ be_bytes 8 n ++ part).

Definition encode (c : ChangeKind) : result bytes :=
  let '(tag, table, key, payload, size) := parts c in
  let? out := vec_with_capacity (lit "journal.encode_row")
                (2 + 3 * 8 + len table + len key + len payload + 8)%N 1 in
  let? out := try_fold put_part (out ++ [byte_of_N 1; byte_of_N tag]) [table; key; payload] in
  Ok (out ++ be_bytes 8 size).

(** [take(&mut bytes, n)]: the first [n] bytes and what is left. *)
Definition take_n (b : bytes) (n : N) : result (bytes * bytes) :=
  if (len b <? n)%N then Err bad
  else Ok (take (N.to_nat n) b, drop (N.to_nat n) b).

Definition take_number (b : bytes) : result (N * bytes) :=
  let? '(a, rest) := take_n b 8 in Ok (of_be a, rest).

Definition take_part (b : bytes) : result (bytes * bytes) :=
  let? '(n, rest) := take_number b in take_n rest n.

Definition from_utf8 (b : bytes) : result str :=
  if utf8_valid b then Ok b else Err bad.

Definition decode (b : bytes) : result ChangeKind :=
  let? '(v, b) := take_n b 1 in
  if decide (v ≠ [byte_of_N 1]) then Err bad else
  let? '(tag, b) := take_n b 1 in
  let tag := byte_to_N (default Byte.x00 (head tag)) in
  let? '(table, b) := take_part b in
  let? table := from_utf8 table in
  let? '(key, b) := take_part b in
  let? key := from_utf8 key in
  let? '(payload, b) := take_part b in
  let? payload := copy_bytes (lit "journal.read_rows") payload in
  let? '(size, b) := take_number b in
  if negb (bool_decide (b = [])) then Err bad else
  match tag with
  | 0 => Ok (Upsert table key payload)
  | 1 => Ok (Delete table key)
  | 2 => let? snapshot := from_utf8 payload in Ok (TableReset table snapshot)
  | 3 => let? blob_id := from_utf8 payload in Ok (BlobPut table key blob_id size)
  | 4 => let? blob_id := from_utf8 payload in Ok (BlobDelete table key blob_id size)
  | _ => Err bad
  end%N.

(** ** Encoding *)

(** The bytes of a row, once nothing was refused. *)
Definition row_bytes (c : ChangeKind) : bytes :=
  let '(tag, table, key, payload, size) := parts c in
  [byte_of_N 1; byte_of_N tag] ++ (be_bytes 8 (len table) ++ table) ++ (be_bytes 8 (len key) ++ key)
    ++ (be_bytes 8 (len payload) ++ payload) ++ be_bytes 8 size.

Definition parts_fit (c : ChangeKind) : Prop :=
  let '(_, table, key, payload, _) := parts c in
  (len table < U64 ∧ len key < U64 ∧ len payload < U64)%N.

Lemma put_part_ok out part r :
  put_part out part = Ok r ↔ (len part < U64)%N ∧ r = out ++ be_bytes 8 (len part) ++ part.
Proof.
  unfold put_part. destruct (N.ltb_spec (len part) U64); simpl; [naive_solver|].
  split; [done|]. intros []; lia.
Qed.

Lemma encode_ok c b : encode c = Ok b → parts_fit c ∧ b = row_bytes c.
Proof.
  unfold encode, parts_fit, row_bytes, vec_with_capacity.
  destruct (parts c) as [[[[tag table] key] payload] size]. case_match; [|done]. simpl.
  intros E. apply rbind_ok in E as (o1 & E & E1).
  apply rbind_ok in E as (o2 & [? ->]%put_part_ok & E).
  apply rbind_ok in E as (o3 & [? ->]%put_part_ok & E).
  apply rbind_ok in E as (o4 & [? ->]%put_part_ok & [= <-]).
  injection E1 as <-. split; [done|]. simpl. by rewrite <-!app_assoc.
Qed.

Lemma take_n_app a b : take_n (a ++ b) (len a) = Ok (a, b).
Proof.
  unfold take_n. rewrite len_app. destruct (N.ltb_spec (len a + len b) (len a)); [lia|].
  unfold len. rewrite Nat2N.id. by rewrite take_app_length, drop_app_length.
Qed.

Lemma take_n_cons a b : take_n (a :: b) 1 = Ok ([a], b).
Proof. apply (take_n_app [a]). Qed.

Lemma take_number_app v b : (v < U64)%N → take_number (be_bytes 8 v ++ b) = Ok (v, b).
Proof.
  intros Hv. unfold take_number. pose proof (take_n_app (be_bytes 8 v) b) as E.
  rewrite len_be_bytes in E. change (N.of_nat 8) with 8%N in E. rewrite E. simpl.
  by rewrite of_be_bytes.
Qed.

Lemma take_part_app a b :
  (len a < U64)%N → take_part ((be_bytes 8 (len a) ++ a) ++ b) = Ok (a, b).
Proof.
  intros Ha. unfold take_part. rewrite <-app_assoc, take_number_app by done. apply take_n_app.
Qed.

Lemma from_utf8_ok b s : from_utf8 b = Ok s ↔ utf8_valid b = true ∧ s = b.
Proof. unfold from_utf8. destruct (utf8_valid b); naive_solver. Qed.

(** What [decode] does after the two leading bytes of a row of the encoder. *)
Lemma decode_row tag table key payload size :
  (tag < 256)%N → (size < U64)%N →
  (len table < U64)%N → (len key < U64)%N → (len payload < U64)%N →
  utf8_valid table = true → utf8_valid key = true →
  decode ([byte_of_N 1; byte_of_N tag] ++ (be_bytes 8 (len table) ++ table)
    ++ (be_bytes 8 (len key) ++ key) ++ (be_bytes 8 (len payload) ++ payload) ++ be_bytes 8 size) =
  let? payload := copy_bytes (lit "journal.read_rows") payload in
  match tag with
  | 0 => Ok (Upsert table key payload)
  | 1 => Ok (Delete table key)
  | 2 => let? snapshot := from_utf8 payload in Ok (TableReset table snapshot)
  | 3 => let? blob_id := from_utf8 payload in Ok (BlobPut table key blob_id size)
  | 4 => let? blob_id := from_utf8 payload in Ok (BlobDelete table key blob_id size)
  | _ => Err bad
  end%N.
Proof.
  intros Htag Hs Ht Hk Hp Ut Uk. unfold decode. cbn [app].
  rewrite take_n_cons. cbn [rbind].
  rewrite decide_False by tauto. rewrite take_n_cons. cbn [rbind].
  change (default Byte.x00 (head [byte_of_N tag])) with (byte_of_N tag).
  rewrite byte_to_of_N, N.mod_small by done.
  rewrite take_part_app by done. cbn [rbind]. unfold from_utf8 at 1. rewrite Ut. cbn [rbind].
  rewrite take_part_app by done. cbn [rbind]. unfold from_utf8 at 1. rewrite Uk. cbn [rbind].
  rewrite take_part_app by done. cbn [rbind].
  destruct (copy_bytes _ payload) as [p|]; [|done]. cbn [rbind].
  rewrite <-(app_nil_r (be_bytes 8 size)), take_number_app by done. cbn [rbind].
  by rewrite bool_decide_true.
Qed.

Lemma take_n_more b n a r x : take_n b n = Ok (a, r) → take_n (b ++ x) n = Ok (a, r ++ x).
Proof.
  unfold take_n. destruct (N.ltb_spec (len b) n); [done|]. intros [= <- <-].
  rewrite len_app. destruct (N.ltb_spec (len b + len x) n); [lia|].
  unfold len in *. rewrite take_app_le, drop_app_le by lia. done.
Qed.

Lemma take_number_more b n r x : take_number b = Ok (n, r) → take_number (b ++ x) = Ok (n, r ++ x).
Proof.
  unfold take_number. intros E. apply rbind_ok in E as ([a r'] & E & [= <- <-]).
  by rewrite (take_n_more _ _ _ _ x E).
Qed.

Lemma take_part_more b a r x : take_part b = Ok (a, r) → take_part (b ++ x) = Ok (a, r ++ x).
Proof.
  unfold take_part. intros E. apply rbind_ok in E as ([n r'] & E & E').
  rewrite (take_number_more _ _ _ x E). simpl. by apply take_n_more.
Qed.

(** Everything [decode] reads before its last test, as one record of facts. *)
Lemma decode_inv b c :
  decode b = Ok c →
  ∃ v b1 tag b2 table b3 key b4 payload b5 size,
    take_n b 1 = Ok (v, b1) ∧ v = [byte_of_N 1] ∧ take_n b1 1 = Ok (tag, b2) ∧
    take_part b2 = Ok (table, b3) ∧ utf8_valid table = true ∧
    take_part b3 = Ok (key, b4) ∧ utf8_valid key = true ∧
    take_part b4 = Ok (payload, b5) ∧
    copy_bytes (lit "journal.read_rows") payload = Ok payload ∧
    take_number b5 = Ok (size, []).
Proof.
  unfold decode. intros E.
  apply rbind_ok in E as ([v b1] & E1 & E). case_decide as Hv; [done|].
  apply rbind_ok in E as ([tag b2] & E2 & E). apply rbind_ok in E as ([table b3] & E3 & E).
  apply rbind_ok in E as (? & [? ->]%from_utf8_ok & E).
  apply rbind_ok in E as ([key b4] & E4 & E).
  apply rbind_ok in E as (? & [? ->]%from_utf8_ok & E).
  apply rbind_ok in E as ([payload b5] & E5 & E).
  apply rbind_ok in E as (p & Ep & E). pose proof (copy_bytes_ok _ _ _ Ep) as ->.
  apply rbind_ok in E as ([size b6] & E6 & E). case_bool_decide; [|done]. subst b6.
  naive_solver.
Qed.

(** A row followed by anything is not a row. *)
Lemma decode_no_tail b c x : decode b = Ok c → x ≠ [] → decode (b ++ x) = Err bad.
Proof.
  intros (v & b1 & tag & b2 & table & b3 & key & b4 & payload & b5 & size & E1 & -> & E2 & E3 & U3 &
    E4 & U4 & E5 & Ep & E6)%decode_inv Hx. unfold decode.
  rewrite (take_n_more _ _ _ _ x E1). cbn [rbind]. rewrite decide_False by tauto.
  rewrite (take_n_more _ _ _ _ x E2). simpl. rewrite (take_part_more _ _ _ x E3). simpl.
  unfold from_utf8 at 1. rewrite U3. simpl. rewrite (take_part_more _ _ _ x E4). simpl.
  unfold from_utf8 at 1. rewrite U4. simpl. rewrite (take_part_more _ _ _ x E5). simpl.
  rewrite Ep. simpl. rewrite (take_number_more _ _ _ x E6). simpl.
  by rewrite bool_decide_false.
Qed.

Lemma take_number_bound b n r : take_number b = Ok (n, r) → (n < U64)%N.
Proof.
  unfold take_number. intros E. apply rbind_ok in E as ([a r'] & E & [= <- <-]).
  unfold take_n in E. destruct (N.ltb_spec (len b) 8); [done|]. injection E as <- <-.
  rewrite U64_pow. eapply N.lt_le_trans; [apply of_be_bound|]. unfold len in *.
  rewrite length_take. apply N.pow_le_mono_r; lia.
Qed.

Lemma decode_wf b c : decode b = Ok c → change_wf c.
Proof.
  intros E. pose proof E as (v & b1 & tag & b2 & table & b3 & key & b4 & payload & b5 & size & E1 &
    -> & E2 & E3 & U3 & E4 & U4 & E5 & Ep & E6)%decode_inv. revert E. unfold decode.
  rewrite E1. cbn [rbind]. rewrite decide_False by tauto. rewrite E2. simpl. rewrite E3. simpl.
  unfold from_utf8 at 1. rewrite U3. simpl. rewrite E4. simpl.
  unfold from_utf8 at 1. rewrite U4. simpl. rewrite E5. simpl. rewrite Ep. simpl. rewrite E6. simpl.
  pose proof (take_number_bound _ _ _ E6).
  unfold from_utf8. destruct (utf8_valid payload) eqn:Up; simpl; repeat case_match; try done;
    intros [= <-]; simpl; rewrite ?U3, ?U4, ?Up; done.
Qed.

Lemma encode_length c b : encode c = Ok b →
  len b = (let '(_, table, key, payload, _) := parts c in
           34 + len table + len key + len payload)%N.
Proof.
  intros [_ ->]%encode_ok. unfold row_bytes.
  destruct (parts c) as [[[[tag table] key] payload] size].
  rewrite !len_app, !len_cons, !len_be_bytes, len_nil. lia.
Qed.

(** The two header bytes decide how [prune] treats a row. *)
Lemma encode_head c b : encode c = Ok b →
  ∃ rest, b = byte_of_N 1 :: byte_of_N (parts c).1.1.1.1 :: rest.
Proof.
  intros [_ ->]%encode_ok. unfold row_bytes.
  destruct (parts c) as [[[[tag table] key] payload] size]. simpl. eauto.
Qed.
End codec.

(** A row is read back, or the copy is refused. *)
Lemma decode_row_bytes `{Allocator} c :
  change_wf c → parts_fit c →
  decode (row_bytes c) = Ok c ∨ ∃ n, decode (row_bytes c) = Err (OutOfMemory (lit "journal.read_rows") n).
Proof.
  intros Hwf Hfit. unfold parts_fit in Hfit. unfold row_bytes.
  destruct c; simpl in Hwf, Hfit; destruct_and?; cbn [parts]; rewrite decode_row by (done || lia);
    match goal with |- context [copy_bytes ?s ?p] =>
      destruct (copy_bytes_cases s p) as [->|[n ->]]; simpl; [left|right; by exists n] end;
    unfold from_utf8; repeat case_match; naive_solver.
Qed.

Lemma decode_encode `{Allocator} c b :
  change_wf c → encode c = Ok b →
  decode b = Ok c ∨ ∃ n, decode b = Err (OutOfMemory (lit "journal.read_rows") n).
Proof. intros Hwf [Hfit ->]%encode_ok. by apply decode_row_bytes. Qed.

(** ** Properties *)

(** A journal row is read back as the change it was written from, unless
    the system refuses the memory for the copy. *)
Lemma journal_row_roundtrip `{Allocator} c b :
  change_wf c → encode c = Ok b →
  decode b = Ok c ∨ ∃ n, decode b = Err (OutOfMemory (lit "journal.read_rows") n).
Proof. apply decode_encode. Qed.

Lemma journal_row_roundtrip_example :
  ∃ b, encode (H := generous) (BlobPut (lit "notes") (lit "a") (lit "v") 7) = Ok b ∧
       (decode (H := generous) b = Ok (BlobPut (lit "notes") (lit "a") (lit "v") 7) ∨
        ∃ n, decode (H := generous) b = Err (OutOfMemory (lit "journal.read_rows") n)).
Proof.
  eexists. split; [vm_compute; reflexivity|].
  refine (journal_row_roundtrip (H := generous) _ _ _ _); [repeat split | vm_compute; reflexivity].
Defined.

(** Every strict prefix of a journal row is refused, whatever the allocator
    answers; a truncated log is never misread. *)
Lemma journal_row_truncated `{Allocator} c b n :
  change_wf c → encode c = Ok b → n < length b → ∀ c', decode (take n b) ≠ Ok c'.
Proof.
  intros Hwf E Hn c' Hd.
  apply (decode_no_tail _ _ (drop n b)) in Hd.
  - rewrite take_drop in Hd.
    destruct (decode_encode c b Hwf E) as [Hb|[m Hb]]; unfold bad in Hd; congruence.
  - intros Hx%(f_equal length). rewrite length_drop in Hx. simpl in Hx. lia.
Qed.
