(* ===== verification/Fields.v ===== *)
(** * Typed fields, values and predicates ([fields/mod.rs], [fields/ast.rs],
      [fields/transforms.rs], [fields/extract.rs])

    The data types keep the source's constructors.  A [BTreeMap<String, Value>]
    is its association list in ascending key order.  Text is handled as UTF-8
    bytes; [chars] and [of_chars] are [str::chars] and the collection of [char]s.
    serde_json's reader ([json_read]) and the Unicode case table ([to_lowercase])
    are parameters, class [TextLib]. *)
From S2P Require Import Prelude Order.

(** ** Data *)

Inductive Value :=
| Missing
| Null
| VBool (b : bool)
| Number (token : str)
| Time (t : Z)
| VString (s : str)
| VArray (l : list Value)
| VObject (o : list (str * Value)).

(** Induction through the lists of a value. *)
Section value_ind.
Variable P : Value → Prop.
Hypotheses (HMissing : P Missing) (HNull : P Null) (HBool : ∀ b, P (VBool b))
  (HNumber : ∀ t, P (Number t)) (HTime : ∀ t, P (Time t)) (HString : ∀ s, P (VString s))
  (HArray : ∀ l, Forall P l → P (VArray l))
  (HObject : ∀ o, Forall (λ p, P p.2) o → P (VObject o)).
Fixpoint Value_ind' (v : Value) : P v :=
  match v with
  | Missing => HMissing
  | Null => HNull
  | VBool b => HBool b
  | Number t => HNumber t
  | Time t => HTime t
  | VString s => HString s
  | VArray l =>
      HArray l ((fix go l : Forall P l :=
        match l with [] => Forall_nil_2 _ | v :: l' => Forall_cons_2 _ _ _ (Value_ind' v) (go l') end) l)
  | VObject o =>
      HObject o ((fix go o : Forall (λ p, P p.2) o :=
        match o with [] => Forall_nil_2 _ | p :: o' => Forall_cons_2 _ _ _ (Value_ind' p.2) (go o') end) o)
  end.
End value_ind.

Definition is_null (v : Value) : bool := match v with Null => true | _ => false end.
Definition is_missing (v : Value) : bool := match v with Missing => true | _ => false end.
Definition is_empty (v : Value) : bool := is_missing v || is_null v.
Definition exists_ (v : Value) : bool := negb (is_missing v).

Inductive ValueKind := Auto | DateTime | Date | NaiveDateTime | EpochSeconds | EpochMillis.
#[global] Instance ValueKind_eq_dec : EqDecision ValueKind.
Proof. solve_decision. Defined.

Inductive Step := Key (k : str) | Index (i : N) | Any | All | Length.
#[global] Instance Step_eq_dec : EqDecision Step.
Proof. solve_decision. Defined.

Inductive TransformKind := Trim | Lowercase | NormalizeArabic.
#[global] Instance TransformKind_eq_dec : EqDecision TransformKind.
Proof. solve_decision. Defined.

Record Transform := { t_kind : TransformKind; t_version : N }.
#[global] Instance Transform_eq_dec : EqDecision Transform.
Proof. solve_decision. Defined.

Record Path := { p_steps : list Step; p_kind : ValueKind; p_transforms : list Transform }.
#[global] Instance Path_eq_dec : EqDecision Path.
Proof. solve_decision. Defined.

Inductive Compare :=
  CEq | CNe | CGt | CGe | CLt | CLe | CBetween | CIn | CPrefix | CContains | CText
| CFuzzy (distance : N) | CParts.
#[global] Instance Compare_eq_dec : EqDecision Compare.
Proof. solve_decision. Defined.

Inductive Presence := PExists | PNull | PMissing | PEmpty.

Inductive Expr :=
| ECompare (path : Path) (op : Compare) (values : list Value)
| EPresence (path : Path) (op : Presence)
| EAnd (a b : Expr)
| EOr (a b : Expr)
| ENot (a : Expr)
| EElemMatch (path : Path) (inner : Expr)
| ENever
| EInvalid (why : str).

(** [Field<E, V>]: the type parameters only guide the compiler. *)
Record Field := {
  f_first : option str;
  f_steps : list Step;
  f_kind : ValueKind;
  f_transforms : list Transform;
}.

Definition field_new (first : str) (kind : ValueKind) : Field :=
  {| f_first := Some first; f_steps := []; f_kind := kind; f_transforms := [] |}.
Definition field_flattened (kind : ValueKind) : Field :=
  {| f_first := None; f_steps := []; f_kind := kind; f_transforms := [] |}.

Definition steps (f : Field) : list Step :=
  match f_first f with Some first => [Key first] | None => [] end ++ f_steps f.

Definition json_path (f : Field) : list str :=
  omap (λ s, match s with Key k => Some k | Index i => Some (dec i) | _ => None end) (steps f).

(** [Field::then]: the child's own kind and transforms win. *)
Definition field_then (f child : Field) : Field :=
  {| f_first := None; f_steps := steps f ++ steps child;
     f_kind := f_kind child; f_transforms := f_transforms child |}.

Definition path (f : Field) : Path :=
  {| p_steps := steps f; p_kind := f_kind f; p_transforms := f_transforms f |}.

(** [Field::navigate]: a length is a plain number, every other step keeps the kind. *)
Definition navigate (f : Field) (step : Step) : Field :=
  {| f_first := None; f_steps := steps f ++ [step];
     f_kind := match step with Length => Auto | _ => f_kind f end;
     f_transforms := [] |}.

Definition any_ (f : Field) : Field := navigate f Any.
Definition all_ (f : Field) : Field := navigate f All.
Definition at_ (f : Field) (i : N) : Field := navigate f (Index i).
Definition len_ (f : Field) : Field := navigate f Length.
Definition key_ (f : Field) (k : str) : Field := navigate f (Key k).

(** [Field::transform], with [trim], [lowercase] and [normalize_arabic]. *)
Definition add_transform (f : Field) (kind : TransformKind) : Field :=
  {| f_first := f_first f; f_steps := f_steps f; f_kind := f_kind f;
     f_transforms := f_transforms f ++ [{| t_kind := kind; t_version := 1 |}] |}.

(** [Predicate<E>]: an expression and the fingerprints its handles put in it. *)
Record Predicate := { expression : Expr; printed : list str }.

Definition pred_new (e : Expr) : Predicate := {| expression := e; printed := [] |}.
Definition pred_and (p q : Predicate) : Predicate :=
  {| expression := EAnd (expression p) (expression q); printed := printed p ++ printed q |}.
Definition pred_or (p q : Predicate) : Predicate :=
  {| expression := EOr (expression p) (expression q); printed := printed p ++ printed q |}.
Definition pred_not (p : Predicate) : Predicate :=
  {| expression := ENot (expression p); printed := printed p |}.

(** [Field::compare], given the literals [FieldInput::field_value] made: an empty
    list, or a null or missing literal, can never match. *)
Definition field_compare (f : Field) (op : Compare) (values : result (list Value))
    (why : ClError → str) : Predicate :=
  pred_new
    match values with
    | Ok values =>
        let values := if decide (op = CIn) then filter (λ v, is_empty v = false) values else values in
        if bool_decide (values = []) || existsb is_empty values then ENever
        else ECompare (path f) op values
    | Err e => EInvalid (why e)
    end.

Definition field_presence (f : Field) (op : Presence) : Predicate :=
  pred_new (EPresence (path f) op).

Definition elem_match (f : Field) (p : Predicate) : Predicate :=
  pred_new (EElemMatch (path f) (expression p)).

(** ** Text *)

(** [str::chars]: the code points of well-formed UTF-8. *)
Definition low6 (b : byte) : N := (byte_to_N b mod 64)%N.

Fixpoint chars (l : str) : list N :=
  match l with
  | [] => []
  | a :: l1 =>
    let n := byte_to_N a in
    if (n <? 128)%N then n :: chars l1
    else match l1 with
    | [] => []
    | b :: l2 =>
      if (n <? 224)%N then (n mod 32 * 64 + low6 b)%N :: chars l2
      else match l2 with
      | [] => []
      | c :: l3 =>
        if (n <? 240)%N then (n mod 16 * 4096 + low6 b * 64 + low6 c)%N :: chars l3
        else match l3 with
        | [] => []
        | d :: l4 => (n mod 8 * 262144 + low6 b * 4096 + low6 c * 64 + low6 d)%N :: chars l4
        end
      end
    end
  end.

(** [char::encode_utf8]. *)
Definition of_char (c : N) : str :=
  (if c <? 128 then [byte_of_N c]
   else if c <? 2048 then [byte_of_N (192 + c / 64); byte_of_N (128 + c mod 64)]
   else if c <? 65536 then
     [byte_of_N (224 + c / 4096); byte_of_N (128 + c / 64 mod 64); byte_of_N (128 + c mod 64)]
   else
     [byte_of_N (240 + c / 262144); byte_of_N (128 + c / 4096 mod 64);
      byte_of_N (128 + c / 64 mod 64); byte_of_N (128 + c mod 64)])%N.

Definition of_chars (cs : list N) : str := cs ≫= of_char.

(** [char::is_whitespace]: the Unicode White_Space property. *)
Definition is_whitespace (c : N) : bool :=
  ((9 <=? c) && (c <=? 13) || (c =? 32) || (c =? 133) || (c =? 160) || (c =? 5760)
   || (8192 <=? c) && (c <=? 8202) || (c =? 8232) || (c =? 8233) || (c =? 8239)
   || (c =? 8287) || (c =? 12288))%N.

Fixpoint drop_while {A} (f : A → bool) (l : list A) : list A :=
  match l with a :: l' => if f a then drop_while f l' else l | [] => [] end.

(** [str::trim]. *)
Definition trim_chars (cs : list N) : list N :=
  rev (drop_while is_whitespace (rev (drop_while is_whitespace cs))).

(** One character under [NormalizeArabic]; [None] drops it. *)
Definition normalize_arabic_char (c : N) : option N :=
  (if (c =? 0x623) || (c =? 0x625) || (c =? 0x622) || (c =? 0x671) then Some 0x627
   else if c =? 0x629 then Some 0x647
   else if c =? 0x649 then Some 0x64A
   else if c =? 0x624 then Some 0x648
   else if c =? 0x626 then Some 0x64A
   else if (0x64B <=? c) && (c <=? 0x652) || (c =? 0x670) || (c =? 0x640) then None
   else if (0x660 <=? c) && (c <=? 0x669) then Some (48 + c - 0x660)
   else if (0x6F0 <=? c) && (c <=? 0x6F9) then Some (48 + c - 0x6F0)
   else Some c)%N.

(** The structure serde_json reads from a text.  A number keeps its token, an
    object its entries in order; [None] in a string is an escape that does not
    decode.  A text with an object key that does not decode (a lone surrogate) has no
    [json] of its own: what the code reports of such a text is outside the model. *)
Inductive json :=
| JNull
| JBool (b : bool)
| JNumber (token : str)
| JString (s : option str)
| JArray (l : list json)
| JObject (o : list (str * json)).

Class TextLib := {
  (** serde_json: read a text as a [RawValue]. *)
  json_read : bytes → option json;
  (** [RawValue::from_string(token)?.get()]: the token of a JSON text, without
      surrounding space. *)
  raw_token : str → option str;
  (** [str::to_lowercase]: the Unicode case table. *)
  to_lowercase : str → str;
  (** [char::is_alphanumeric]: the Unicode categories. *)
  is_alphanumeric : N → bool;
  (** strsim: the edit distance of two strings. *)
  levenshtein : str → str → N;
  (** [serde_json::to_vec] of a string: quotes and escapes. *)
  json_string : str → bytes;
  (** chrono: RFC 3339, date, and the two naive date-time forms, each as seconds
      and nanoseconds since the epoch. *)
  parse_rfc3339 : str → option (Z * Z);
  parse_date : str → option Z;
  parse_naive_t : str → option (Z * Z);
  parse_naive_space : str → option (Z * Z);
}.

Section text.
Context `{TextLib}.

(** [fields::transform]. *)
Definition transform (text : str) (kind : TransformKind) : str :=
  match kind with
  | Trim => of_chars (trim_chars (chars text))
  | Lowercase => to_lowercase text
  | NormalizeArabic => of_chars (omap normalize_arabic_char (chars text))
  end.

Definition apply_one (value : Value) (t : Transform) : result Value :=
  if negb (t_version t =? 1)%N
  then Err (Validation (lit "unsupported text transformation version"))
  else match value with
       | VString v => Ok (VString (transform v (t_kind t)))
       | _ => Err (Validation (lit "text transformation requires a string"))
       end.

(** [transforms::apply]: arrays element by element, nothing for null or missing. *)
Fixpoint apply (transforms : list Transform) (value : Value) : result Value :=
  if bool_decide (transforms = []) || is_empty value then Ok value
  else match value with
       | VArray values =>
           let? l := (fix go (l : list Value) : result (list Value) :=
              match l with
              | [] => Ok []
              | v :: l' => let? v' := apply transforms v in let? r := go l' in Ok (v' :: r)
              end) values in
           Ok (VArray l)
       | _ => try_fold apply_one value transforms
       end.

(** The last entry under a key wins, as in the visitor's loop. *)
Definition find_key (k : str) (o : list (str * json)) : option json :=
  fold_left (λ found p, if decide (p.1 = k) then Some p.2 else found) o None.

Definition bad_string : ClError := Serialization (lit "invalid string").

(** Insertion into a [BTreeMap]: ascending keys, a later entry replaces. *)
Fixpoint btree_insert {A} (k : str) (a : A) (m : list (str * A)) : list (str * A) :=
  match m with
  | [] => [(k, a)]
  | (k0, a0) :: m' =>
      match cmp k k0 with
      | Lt => (k, a) :: m
      | Eq => (k, a) :: m'
      | Gt => (k0, a0) :: btree_insert k a m'
      end
  end.

(** [materialize]: the value of a whole JSON text. *)
Fixpoint materialize (j : json) : result Value :=
  match j with
  | JNull => Ok Null
  | JBool b => Ok (VBool b)
  | JNumber t => Ok (Number t)
  | JString s => rmap VString (ok_or s bad_string)
  | JArray l =>
      rmap VArray ((fix go (l : list json) : result (list Value) :=
        match l with
        | [] => Ok []
        | v :: l' => let? v' := materialize v in let? r := go l' in Ok (v' :: r)
        end) l)
  | JObject o =>
      let values := (fix go (o : list (str * json)) (m : list (str * result Value)) :=
        match o with
        | [] => m
        | (k, v) :: o' => go o' (btree_insert k (materialize v) m)
        end) o [] in
      rmap VObject (traverse (λ p, rmap (pair p.1) p.2) values)
  end.

(** [select]: follow the steps; a step that does not fit gives [Missing]. *)
Fixpoint select (j : json) (path : list Step) : result Value :=
  match path with
  | [] => materialize j
  | first :: rest =>
      match first, j with
      | Key k, JObject o =>
          match find_key k o with Some v => select v rest | None => Ok Missing end
      | Index i, JArray l =>
          match l !! N.to_nat i with Some v => select v rest | None => Ok Missing end
      | (Any | All), JArray l => rmap VArray (traverse (λ v, select v rest) l)
      | Length, JArray l => Ok (Number (dec (len l)))
      | _, _ => Ok Missing
      end
  end.

Definition extract (b : bytes) (path : list Step) : result Value :=
  let? raw := ok_or (json_read b) (Serialization (lit "invalid JSON")) in
  select raw path.
End text.
