(* ===== verification/OrderedCodec.v ===== *)
(** * Ordered keys ([fields/codec.rs])

    [encode] turns a value into bytes whose order is the order of the values:
    missing, null, false, true, numbers, times, strings, arrays.  Numbers are
    decimal tokens of any size; they are compared exactly, never as floats. *)
From S2P Require Import Prelude Order Fields.

Definition error (message : String.string) : ClError := Validation (lit message).
Arguments error message%_string_scope.

Record Decimal := { negative : bool; digits : str; exponent : Z }.

(** ** Machine integers and text *)

Definition i128_ok (z : Z) : bool :=
  ((- 2 ^ 127 <=? z) && (z <? 2 ^ 127))%Z.

(** [checked_add]/[checked_sub] on [i128]: the exact result when it fits. *)
Definition checked_i128 (z : Z) : option Z := if i128_ok z then Some z else None.

Definition ascii (n : N) (b : byte) : bool := (byte_to_N b =? n)%N.
Definition is_digit (b : byte) : bool := ((48 <=? byte_to_N b) && (byte_to_N b <=? 57))%N.
Definition digit_val (b : byte) : Z := (Z.of_N (byte_to_N b) - 48)%Z.

(** [s.split_once(pred)]: the first byte that satisfies it. *)
Fixpoint split_once (f : byte → bool) (s : str) : option (str * str) :=
  match s with
  | [] => None
  | b :: s' => if f b then Some ([], s')
               else match split_once f s' with Some (x, y) => Some (b :: x, y) | None => None end
  end.

(** The number a list of digits spells, most significant first. *)
Definition digits_val (s : str) : Z := fold_left (λ acc b, acc * 10 + digit_val b)%Z s 0%Z.

(** [s.parse::<i128>()]: an optional sign, then digits. *)
Definition parse_i128 (s : str) : option Z :=
  let '(neg, ds) :=
    match s with
    | b :: s' => if ascii 45 b then (true, s') else if ascii 43 b then (false, s') else (false, s)
    | [] => (false, [])
    end in
  if bool_decide (ds = []) || negb (forallb is_digit ds) then None
  else checked_i128 (if neg : bool then - digits_val ds else digits_val ds)%Z.

Definition is_zero (b : byte) : bool := ascii 48 b.

(** [trim_start_matches('0')] and [trim_matches('0')]. *)
Definition trim_start0 (s : str) : str := drop_while is_zero s.
Definition trim_end0 (s : str) : str := rev (drop_while is_zero (rev s)).
Definition trim0 (s : str) : str := trim_end0 (trim_start0 s).

(** [format!("{z}")] of a signed integer. *)
Definition dec_Z (z : Z) : str :=
  if (z <? 0)%Z then byte_of_N 45 :: dec (Z.to_N (- z)) else dec (Z.to_N z).

Section codec.
Context `{TextLib}.

(** [Decimal::parse] after serde_json accepted the token. *)
Definition parse_token (token : str) : result Decimal :=
  match token with
  | b :: _ =>
      if negb (ascii 45 b || is_digit b) then Err (error "expected a finite JSON number") else
      let neg := ascii 45 b in
      let token := if neg then tail token else token in
      let '(mantissa, exp) := default (token, lit "0")
                                (split_once (λ b, ascii 101 b || ascii 69 b) token) in
      let? exp := ok_or (parse_i128 exp) (error "numeric exponent exceeds i128") in
      let '(integer, fraction) := default (mantissa, []) (split_once (ascii 46) mantissa) in
      let ds := integer ++ fraction in
      let leading := (Z.of_nat (length ds) - Z.of_nat (length (trim_start0 ds)))%Z in
      let? e := ok_or (checked_i128 (exp + Z.of_nat (length integer)) ≫= λ v,
                         checked_i128 (v - leading))%Z
                      (error "numeric exponent exceeds i128") in
      let ds := trim0 ds in
      if bool_decide (ds = []) then Ok {| negative := false; digits := ds; exponent := 0 |}
      else Ok {| negative := neg; digits := ds; exponent := e |}
  | [] => Err (error "expected a finite JSON number")
  end.

Definition parse (token : str) : result Decimal :=
  let? raw := ok_or (raw_token token) (Serialization (lit "invalid JSON")) in
  parse_token raw.

Definition power (d : Decimal) : Z := (exponent d - Z.of_nat (length (digits d)))%Z.

Definition canonical (d : Decimal) : result str :=
  if bool_decide (digits d = []) then Ok (lit "0")
  else let? p := ok_or (checked_i128 (power d)) (error "numeric exponent exceeds i128") in
       Ok ((if negative d then [byte_of_N 45] else []) ++ digits d ++ lit "e" ++ dec_Z p).

Definition canonical_number (token : str) : result str :=
  let? d := parse token in canonical d.

(** [10i128.checked_pow(e)] with [e: u32]. *)
Definition checked_pow10 (e : Z) : option Z := checked_i128 (10 ^ e).

Definition integer_scaled (d : Decimal) (scale : Z) : result Z :=
  if bool_decide (digits d = []) then Ok 0%Z
  else
    let out := error "timestamp outside supported range" in
    let? p := ok_or (checked_i128 (power d) ≫= λ v, checked_i128 (v + scale)%Z) out in
    if (p <? 0)%Z then Err (error "timestamp precision exceeds nanoseconds") else
    let? e := ok_or (if (p <? Z.of_N U32)%Z then Some p else None) out in
    let? value := ok_or (parse_i128 (digits d)) out in
    let? ten := ok_or (checked_pow10 e) out in
    let? value := ok_or (checked_i128 (value * ten)%Z) out in
    Ok (if negative d then - value else value)%Z.

(** [codec::integer]. *)
Definition integer (token : str) : result Z :=
  let? d := parse token in
  if bool_decide (digits d = []) then Ok 0%Z else
  let? p := ok_or (checked_i128 (power d)) SumOverflow in
  if (p <? 0)%Z then Err UnsupportedSum else
  if (38 <? p)%Z then Err SumOverflow else
  ok_or (parse_i128 ((if negative d then [byte_of_N 45] else []) ++ digits d
                       ++ replicate (Z.to_nat p) (byte_of_N 48))) SumOverflow.

(** [signed]: sixteen bytes, the sign bit flipped. *)
Definition signed (v : Z) : bytes :=
  be_bytes 16 (N.lxor (Z.to_N (v mod 2 ^ 128)) (2 ^ 127)).

(** [text]: a zero byte is escaped, two zero bytes end it. *)
Definition text (s : bytes) : bytes :=
  (s ≫= λ b, if decide (b = Byte.x00) then [Byte.x00; Byte.xff] else [b]) ++ [Byte.x00; Byte.x00].

(** [!b] on a byte. *)
Definition flip (b : byte) : byte := byte_of_N (255 - byte_to_N b).

Definition number_bytes (n : Decimal) : bytes :=
  if bool_decide (digits n = []) then [byte_of_N 1]
  else
    let part := signed (exponent n) ++ digits n ++ [Byte.x00] in
    byte_of_N (if negative n then 0 else 2) :: (if negative n then flip <$> part else part).

(** [append(value, out, objects)]: the bytes it adds to [out]. *)
Fixpoint append (objects : bool) (value : Value) : result bytes :=
  match value with
  | Missing => Ok [byte_of_N 1]
  | Null => Ok [byte_of_N 2]
  | VBool false => Ok [byte_of_N 3]
  | VBool true => Ok [byte_of_N 4]
  | Number token => let? n := parse token in Ok (byte_of_N 5 :: number_bytes n)
  | Time n => Ok (byte_of_N 6 :: signed n)
  | VString v => Ok (byte_of_N 7 :: text v)
  | VArray v =>
      let? out := (fix go (l : list Value) : result bytes :=
        match l with
        | [] => Ok []
        | v :: l' => let? x := append objects v in let? y := go l' in Ok (x ++ y)
        end) v in
      Ok (byte_of_N 8 :: out ++ [Byte.x00])
  | VObject v =>
      if objects then
        let? out := (fix go (o : list (str * Value)) : result bytes :=
          match o with
          | [] => Ok []
          | (k, v) :: o' =>
              let? x := append true v in let? y := go o' in
              Ok ((byte_of_N 7 :: text k) ++ x ++ y)
          end) v in
        Ok (byte_of_N 9 :: out ++ [Byte.x00])
      else Err (error "objects support canonical equality only, not ordering")
  end.

Definition encode (value : Value) : result bytes := append false value.
Definition encode_equality (value : Value) : result bytes := append true value.
Definition encode_tuple (values : list Value) : result bytes := encode (VArray values).

Definition nanos (p : Z * Z) : Z := (p.1 * 1000000000 + p.2)%Z.

Definition interpret_scalar (kind : ValueKind) (value : Value) : result Value :=
  rmap Time
    match kind, value with
    | EpochSeconds, Number v => let? d := parse v in integer_scaled d 9
    | EpochMillis, Number v => let? d := parse v in integer_scaled d 6
    | DateTime, VString v => rmap nanos (ok_or (parse_rfc3339 v) (error "invalid RFC3339 datetime"))
    | Date, VString v => rmap (λ s, s * 1000000000)%Z (ok_or (parse_date v) (error "invalid date"))
    | NaiveDateTime, VString v =>
        rmap nanos (ok_or (match parse_naive_t v with Some t => Some t | None => parse_naive_space v end)
                          (error "invalid naive datetime"))
    | _, _ => Err (error "value does not match declared temporal representation")
    end.

(** [interpret]: a declared temporal reading, element by element. *)
Fixpoint interpret (kind : ValueKind) (value : Value) : result Value :=
  if is_empty value || bool_decide (kind = Auto) then Ok value
  else match value with
  | Time _ => Ok value
  | VArray values =>
      rmap VArray ((fix go (l : list Value) : result (list Value) :=
        match l with
        | [] => Ok []
        | v :: l' => let? v' := interpret kind v in let? r := go l' in Ok (v' :: r)
        end) values)
  | VObject values =>
      rmap VObject ((fix go (o : list (str * Value)) : result (list (str * Value)) :=
        match o with
        | [] => Ok []
        | (k, v) :: o' => let? v' := interpret kind v in let? r := go o' in Ok ((k, v') :: r)
        end) values)
  | _ => interpret_scalar kind value
  end.
End codec.
