(* ===== verification/OrderedSpec.v ===== *)
(** * Correctness of the ordered keys

    The reference order [value_cmp] compares numbers by their exact value, times
    as integers, strings by bytes and arrays element by element.  The encoding is
    an order embedding into bytes, is self-delimiting, and does not depend on how
    a number is spelled. *)
From S2P Require Import Prelude Order Fields OrderedCodec.
Local Open Scope Z_scope.

(** ** Decimal values *)

(** The value of a decimal times [10 ^ s]; exact for every [s] with [0 <= power d + s]. *)
Definition scaled (s : Z) (d : Decimal) : Z :=
  (if negative d then -1 else 1) * digits_val (digits d) * 10 ^ (power d + s).

Definition scale_for (d1 d2 : Decimal) : Z := Z.max 0 (Z.max (- power d1) (- power d2)).

(** Numeric comparison, at a scale where both values are integers. *)
Definition num_cmp (d1 d2 : Decimal) : comparison :=
  Z.compare (scaled (scale_for d1 d2) d1) (scaled (scale_for d1 d2) d2).

(** What [Decimal::parse] guarantees: digits only, no zero at either end. *)
Record dec_normal (d : Decimal) : Prop := {
  dn_digits : Forall (λ b, is_digit b = true) (digits d);
  dn_head : ∀ b, head (digits d) = Some b → is_zero b = false;
  dn_last : ∀ b, last (digits d) = Some b → is_zero b = false;
  dn_exp : i128_ok (exponent d) = true;
  dn_zero : digits d = [] → negative d = false ∧ exponent d = 0;
}.

(** ** Digit lists *)

Lemma digit_val_range b : is_digit b = true → 0 <= digit_val b <= 9.
Proof. unfold is_digit, digit_val. rewrite andb_true_iff, !N.leb_le. lia. Qed.

Lemma digit_val_zero b : is_digit b = true → is_zero b = false → 0 < digit_val b.
Proof.
  unfold is_digit, is_zero, ascii, digit_val.
  rewrite andb_true_iff, !N.leb_le, N.eqb_neq. lia.
Qed.

Lemma digits_val_fold s a : fold_left (λ acc b, acc * 10 + digit_val b) s a = a * 10 ^ Z.of_nat (length s) + digits_val s.
Proof.
  unfold digits_val. revert a. induction s as [|b s IH]; intros a; [simpl; lia|].
  cbn [fold_left length]. rewrite IH, (IH (0 * 10 + _)), Nat2Z.inj_succ, Z.pow_succ_r by lia. lia.
Qed.

Lemma digits_val_cons b s : digits_val (b :: s) = digit_val b * 10 ^ Z.of_nat (length s) + digits_val s.
Proof. unfold digits_val at 1. cbn [fold_left]. rewrite digits_val_fold. lia. Qed.

Lemma digits_val_app s1 s2 :
  digits_val (s1 ++ s2) = digits_val s1 * 10 ^ Z.of_nat (length s2) + digits_val s2.
Proof. unfold digits_val at 1. rewrite fold_left_app. apply digits_val_fold. Qed.

Lemma digits_val_bound s :
  Forall (λ b, is_digit b = true) s → 0 <= digits_val s < 10 ^ Z.of_nat (length s).
Proof.
  induction 1 as [|b s Hb Hs IH]; [simpl; unfold digits_val; simpl; lia|].
  rewrite digits_val_cons. cbn [length]. rewrite Nat2Z.inj_succ, Z.pow_succ_r by lia.
  apply digit_val_range in Hb. nia.
Qed.

Lemma digits_val_pos s :
  Forall (λ b, is_digit b = true) s → s ≠ [] → (∀ b, last s = Some b → is_zero b = false) →
  0 < digits_val s.
Proof.
  intros Hd Hne Hl. destruct s as [|b s'] using rev_ind; [done|]. clear IHs'.
  rewrite digits_val_app. apply Forall_app in Hd as [Hd Hb]. rewrite Forall_singleton in Hb.
  pose proof (digits_val_bound _ Hd). specialize (Hl b). rewrite last_snoc in Hl.
  pose proof (digit_val_zero b Hb (Hl eq_refl)). unfold digits_val at 2. simpl. lia.
Qed.

Lemma cmp_digit a b : is_digit a = true → is_digit b = true → cmp a b = (digit_val a ?= digit_val b).
Proof.
  intros _ _. unfold digit_val. simpl.
  destruct (N.compare_spec (byte_to_N a) (byte_to_N b)), (Z.compare_spec
    (Z.of_N (byte_to_N a) - 48) (Z.of_N (byte_to_N b) - 48)); done || lia.
Qed.

(** The digits as a fraction of [10 ^ m]. *)
Definition frac (m : nat) (s : str) : Z := digits_val s * 10 ^ (Z.of_nat m - Z.of_nat (length s)).

Lemma frac_cons m b s : (length s <= m)%nat →
  frac (S m) (b :: s) = digit_val b * 10 ^ Z.of_nat m + frac m s.
Proof.
  intros Hm. unfold frac. rewrite digits_val_cons. cbn [length]. rewrite !Nat2Z.inj_succ.
  rewrite Z.mul_add_distr_r, <-Z.mul_assoc, <-Z.pow_add_r by lia. f_equal; f_equal; f_equal; lia.
Qed.

Lemma frac_bound m s : (length s <= m)%nat → Forall (λ b, is_digit b = true) s →
  0 <= frac m s < 10 ^ Z.of_nat m.
Proof.
  intros Hm Hd. apply digits_val_bound in Hd. unfold frac.
  assert (10 ^ Z.of_nat m = 10 ^ Z.of_nat (length s) * 10 ^ (Z.of_nat m - Z.of_nat (length s))) as ->
    by (rewrite <-Z.pow_add_r by lia; f_equal; lia).
  assert (0 < 10 ^ (Z.of_nat m - Z.of_nat (length s))) by (apply Z.pow_pos_nonneg; lia). nia.
Qed.

Lemma frac_pos m s : (length s <= m)%nat → Forall (λ b, is_digit b = true) s → s ≠ [] →
  (∀ b, last s = Some b → is_zero b = false) → 0 < frac m s.
Proof.
  intros Hm Hd Hne Hl. pose proof (digits_val_pos s Hd Hne Hl). unfold frac.
  assert (0 < 10 ^ (Z.of_nat m - Z.of_nat (length s))) by (apply Z.pow_pos_nonneg; lia). nia.
Qed.

Lemma last_cons_nonempty {A} (a : A) l b : l ≠ [] → last (a :: l) = Some b → last l = Some b.
Proof. destruct l; [done|]. by rewrite last_cons_cons. Qed.

(** Digit strings without a trailing zero compare as the fractions they spell. *)
Lemma cmp_frac m s1 s2 :
  (length s1 <= m)%nat → (length s2 <= m)%nat →
  Forall (λ b, is_digit b = true) s1 → Forall (λ b, is_digit b = true) s2 →
  (∀ b, last s1 = Some b → is_zero b = false) → (∀ b, last s2 = Some b → is_zero b = false) →
  list_cmp s1 s2 = (frac m s1 ?= frac m s2).
Proof.
  revert m s2. induction s1 as [|a s1 IH]; intros m s2 H1 H2 D1 D2 L1 L2.
  - destruct s2 as [|b s2]; [by rewrite Z.compare_refl|].
    symmetry. apply Z.compare_lt_iff. change (frac m []) with (0 * 10 ^ (Z.of_nat m - 0)).
    rewrite Z.mul_0_l. by apply frac_pos.
  - destruct s2 as [|b s2].
    { symmetry. apply Z.compare_gt_iff. change (frac m []) with (0 * 10 ^ (Z.of_nat m - 0)).
      rewrite Z.mul_0_l. by apply frac_pos. }
    destruct m as [|m]; [simpl in *; lia|]. cbn [length] in *.
    apply Forall_cons in D1 as [Da D1]. apply Forall_cons in D2 as [Db D2].
    rewrite !frac_cons by lia. cbn [list_cmp]. rewrite cmp_digit by done.
    pose proof (frac_bound m s1 ltac:(lia) D1). pose proof (frac_bound m s2 ltac:(lia) D2).
    assert (list_cmp s1 s2 = (frac m s1 ?= frac m s2)) as IH'.
    { apply IH; try done; try lia.
      - intros c Hc. apply L1. destruct s1; [done|]. by rewrite last_cons_cons.
      - intros c Hc. apply L2. destruct s2; [done|]. by rewrite last_cons_cons. }
    destruct (Z.compare_spec (digit_val a) (digit_val b)) as [E|E|E].
    + rewrite IH', E. by rewrite Z.add_compare_mono_l.
    + symmetry. apply Z.compare_lt_iff. nia.
    + symmetry. apply Z.compare_gt_iff. nia.
Qed.

(** ** Magnitudes *)

Definition mag (s : Z) (d : Decimal) : Z := digits_val (digits d) * 10 ^ (power d + s).

Lemma mag_scale s k d : 0 <= power d + s → 0 <= k → mag (s + k) d = mag s d * 10 ^ k.
Proof.
  intros. unfold mag. rewrite <-Z.mul_assoc, <-Z.pow_add_r by lia. do 2 f_equal. lia.
Qed.

Lemma mag_bounds s d : dec_normal d → digits d ≠ [] → 0 <= power d + s →
  10 ^ (exponent d - 1 + s) <= mag s d < 10 ^ (exponent d + s).
Proof.
  intros Hn Hne Hs. pose proof (dn_digits d Hn) as Hd. pose proof (digits_val_bound _ Hd) as Hb.
  unfold mag, power in *. set (n := length (digits d)) in *.
  assert (Hn1 : 10 ^ (Z.of_nat n - 1) <= digits_val (digits d)).
  { pose proof (dn_head d Hn) as Hh. destruct (digits d) as [|b l] eqn:E; [done|].
    apply Forall_cons in Hd as [Hdb Hdl]. rewrite digits_val_cons.
    pose proof (digit_val_zero b Hdb (Hh b eq_refl)). pose proof (digits_val_bound _ Hdl).
    subst n. cbn [length]. replace (Z.of_nat (S (length l)) - 1) with (Z.of_nat (length l)) by lia. nia. }
  assert (0 < 10 ^ (exponent d - Z.of_nat n + s)) as Hp by (apply Z.pow_pos_nonneg; lia).
  assert (0 < n)%nat by (subst n; destruct (digits d); [done|simpl; lia]).
  replace (exponent d - 1 + s) with ((Z.of_nat n - 1) + (exponent d - Z.of_nat n + s)) by lia.
  replace (exponent d + s) with (Z.of_nat n + (exponent d - Z.of_nat n + s)) by lia.
  rewrite (Z.pow_add_r 10 (Z.of_nat n - 1)), (Z.pow_add_r 10 (Z.of_nat n)) by lia. nia.
Qed.

Lemma mag_frac s d m : (length (digits d) <= m)%nat → 0 <= power d + s →
  mag (s + Z.of_nat m) d = frac m (digits d) * 10 ^ (exponent d + s).
Proof.
  intros Hm Hs. unfold mag, frac, power in *. rewrite <-Z.mul_assoc, <-Z.pow_add_r by lia.
  do 2 f_equal. lia.
Qed.

Lemma compare_mul_pos a b k : 0 < k → (a * k ?= b * k) = (a ?= b).
Proof.
  intros. destruct (Z.compare_spec a b), (Z.compare_spec (a * k) (b * k)); done || nia.
Qed.

Lemma pow10_lt a b : 0 <= a → a < b → 10 ^ a < 10 ^ b.
Proof. intros. apply Z.pow_lt_mono_r; lia. Qed.

(** The order of the stored parts is the order of the magnitudes. *)
Lemma mag_cmp s d1 d2 :
  dec_normal d1 → dec_normal d2 → digits d1 ≠ [] → digits d2 ≠ [] →
  0 <= power d1 + s → 0 <= power d2 + s →
  match exponent d1 ?= exponent d2 with Eq => list_cmp (digits d1) (digits d2) | c => c end
  = (mag s d1 ?= mag s d2).
Proof.
  intros N1 N2 E1 E2 S1 S2.
  pose proof (mag_bounds s d1 N1 E1 S1). pose proof (mag_bounds s d2 N2 E2 S2).
  assert (length (digits d1) > 0)%nat by (destruct (digits d1); [done|simpl; lia]).
  assert (length (digits d2) > 0)%nat by (destruct (digits d2); [done|simpl; lia]).
  unfold power in S1, S2.
  destruct (Z.compare_spec (exponent d1) (exponent d2)) as [E|E|E].
  - set (m := (length (digits d1) + length (digits d2))%nat).
    rewrite (cmp_frac m) by first [apply N1 | apply N2 | subst m; lia].
    rewrite <-(compare_mul_pos (mag s d1) _ (10 ^ Z.of_nat m)) by (apply Z.pow_pos_nonneg; lia).
    rewrite <-!mag_scale by (unfold power; lia).
    rewrite !mag_frac by (unfold power; subst m; lia). rewrite E.
    rewrite compare_mul_pos; [done|]. apply Z.pow_pos_nonneg; lia.
  - symmetry. apply Z.compare_lt_iff.
    assert (10 ^ (exponent d1 + s) <= 10 ^ (exponent d2 - 1 + s)) by (apply Z.pow_le_mono_r; lia). lia.
  - symmetry. apply Z.compare_gt_iff.
    assert (10 ^ (exponent d2 + s) <= 10 ^ (exponent d1 - 1 + s)) by (apply Z.pow_le_mono_r; lia). lia.
Qed.

Lemma scaled_mag s d : scaled s d = if negative d then - mag s d else mag s d.
Proof. unfold scaled, mag. destruct (negative d); lia. Qed.

Lemma mag_zero s d : digits d = [] → mag s d = 0.
Proof. intros E. unfold mag. by rewrite E. Qed.

Lemma mag_pos s d : dec_normal d → digits d ≠ [] → 0 <= power d + s → 0 < mag s d.
Proof.
  intros N E S. pose proof (mag_bounds s d N E S).
  assert (length (digits d) > 0)%nat by (destruct (digits d); [done|simpl; lia]).
  assert (0 < 10 ^ (exponent d - 1 + s)) by (apply Z.pow_pos_nonneg; unfold power in *; lia). lia.
Qed.

Lemma scaled_scale s k d : 0 <= power d + s → 0 <= k → scaled (s + k) d = scaled s d * 10 ^ k.
Proof. intros. rewrite !scaled_mag, mag_scale by lia. destruct (negative d); lia. Qed.

(** [num_cmp] does not depend on the scale. *)
Lemma num_cmp_scale s d1 d2 : 0 <= power d1 + s → 0 <= power d2 + s → 0 <= s →
  num_cmp d1 d2 = (scaled s d1 ?= scaled s d2).
Proof.
  intros. unfold num_cmp. set (t := scale_for d1 d2).
  assert (0 <= t /\ 0 <= power d1 + t /\ 0 <= power d2 + t) by (subst t; unfold scale_for; lia).
  rewrite <-(compare_mul_pos (scaled t d1) _ (10 ^ s)) by (apply Z.pow_pos_nonneg; lia).
  rewrite <-(compare_mul_pos (scaled s d1) _ (10 ^ t)) by (apply Z.pow_pos_nonneg; lia).
  rewrite <-!scaled_scale by lia. by rewrite (Z.add_comm t s).
Qed.

(** ** Bytes *)

Lemma i128_ok_range z : i128_ok z = true ↔ - 2 ^ 127 <= z < 2 ^ 127.
Proof. unfold i128_ok. rewrite andb_true_iff, Z.leb_le, Z.ltb_lt. done. Qed.

Lemma lxor_top w : (w < 2 ^ 127)%N → N.lxor w (2 ^ 127) = (w + 2 ^ 127)%N.
Proof.
  intros Hw. symmetry. apply N.add_nocarry_lxor. apply N.bits_inj. intros i.
  rewrite N.land_spec, N.bits_0, N.pow2_bits_eqb.
  destruct (N.eqb_spec 127 i) as [<-|]; [|by rewrite andb_false_r].
  rewrite andb_true_r. destruct (N.eq_dec w 0%N) as [->|Hz]; [done|].
  apply N.bits_above_log2. apply N.log2_lt_pow2; lia.
Qed.

Lemma signed_offset v : i128_ok v = true → signed v = be_bytes 16 (Z.to_N (v + 2 ^ 127)).
Proof.
  rewrite i128_ok_range. intros Hv. unfold signed. f_equal.
  destruct (Z.le_gt_cases 0 v).
  - rewrite Z.mod_small by lia. rewrite lxor_top by lia. lia.
  - assert (v mod 2 ^ 128 = v + 2 ^ 128) as ->.
    { symmetry. apply (Z.mod_unique_pos _ _ (-1)); lia. }
    assert (Z.to_N (v + 2 ^ 128) = N.lxor (Z.to_N (v + 2 ^ 127)) (2 ^ 127)) as ->.
    { rewrite lxor_top by lia. lia. }
    by rewrite N.lxor_assoc, N.lxor_nilpotent, N.lxor_0_r.
Qed.

Lemma signed_length v : length (signed v) = 16%nat.
Proof. apply be_bytes_length. Qed.

Lemma signed_cmp a b : i128_ok a = true → i128_ok b = true →
  list_cmp (signed a) (signed b) = (a ?= b).
Proof.
  intros Ha Hb. rewrite !signed_offset by done. apply i128_ok_range in Ha, Hb.
  rewrite cmp_be_bytes by (change (256 ^ N.of_nat 16)%N with (2 ^ 128)%N; lia).
  destruct (N.compare_spec (Z.to_N (a + 2 ^ 127)) (Z.to_N (b + 2 ^ 127))), (Z.compare_spec a b);
    done || lia.
Qed.

Lemma flip_val b : byte_to_N (flip b) = (255 - byte_to_N b)%N.
Proof. unfold flip. rewrite byte_to_of_N. pose proof (byte_to_N_bound b). apply N.mod_small. lia. Qed.

Lemma cmp_flip a b : cmp (flip a) (flip b) = CompOpp (cmp a b).
Proof.
  simpl. rewrite !flip_val. pose proof (byte_to_N_bound a). pose proof (byte_to_N_bound b).
  destruct (N.compare_spec (byte_to_N a) (byte_to_N b)),
    (N.compare_spec (255 - byte_to_N a) (255 - byte_to_N b)); done || lia.
Qed.

Lemma list_cmp_flip l1 l2 : length l1 = length l2 →
  list_cmp (flip <$> l1) (flip <$> l2) = CompOpp (list_cmp l1 l2).
Proof.
  revert l2. induction l1 as [|a l1 IH]; intros [|b l2]; try done. intros [= Hl].
  cbn [fmap list_fmap list_cmp]. rewrite (cmp_flip a b). destruct (cmp a b); simpl; auto.
Qed.

(** Comparing two encodings and then what follows them. *)
Definition then_cmp (c rest : comparison) : comparison :=
  match c with Eq => rest | _ => c end.

Lemma cmp_x00_l b : b ≠ Byte.x00 → cmp Byte.x00 b = Lt.
Proof.
  intros Hb. change ((byte_to_N Byte.x00 ?= byte_to_N b)%N = Lt). apply N.compare_lt_iff.
  assert (byte_to_N b ≠ byte_to_N Byte.x00) by (intros E; by apply Hb, byte_to_N_inj).
  change (byte_to_N Byte.x00) with 0%N in *. lia.
Qed.

Lemma cmp_x00_r b : b ≠ Byte.x00 → cmp b Byte.x00 = Gt.
Proof. intros. by apply cmp_gt_lt, cmp_x00_l. Qed.

(** Strings of non-zero bytes closed by a zero byte. *)
Lemma list_cmp_closed l1 l2 r1 r2 :
  Forall (λ b, b ≠ Byte.x00) l1 → Forall (λ b, b ≠ Byte.x00) l2 →
  list_cmp ((l1 ++ [Byte.x00]) ++ r1) ((l2 ++ [Byte.x00]) ++ r2)
  = then_cmp (list_cmp l1 l2) (list_cmp r1 r2).
Proof.
  revert l2. induction l1 as [|a l1 IH]; intros [|b l2] H1 H2; cbn [list_cmp app].
  - by rewrite cmp_refl.
  - apply Forall_cons in H2 as [Hb _]. by rewrite cmp_x00_l.
  - apply Forall_cons in H1 as [Ha _]. by rewrite cmp_x00_r.
  - apply Forall_cons in H1 as [_ H1]. apply Forall_cons in H2 as [_ H2].
    destruct (cmp a b); [by apply IH|done..].
Qed.

Lemma list_cmp_closed_flip l1 l2 r1 r2 :
  Forall (λ b, b ≠ Byte.x00) l1 → Forall (λ b, b ≠ Byte.x00) l2 →
  list_cmp ((flip <$> l1 ++ [Byte.x00]) ++ r1) ((flip <$> l2 ++ [Byte.x00]) ++ r2)
  = then_cmp (CompOpp (list_cmp l1 l2)) (list_cmp r1 r2).
Proof.
  revert l2. induction l1 as [|a l1 IH]; intros [|b l2] H1 H2; cbn [list_cmp app fmap list_fmap].
  - by rewrite cmp_refl.
  - apply Forall_cons in H2 as [Hb _]. rewrite cmp_flip. by rewrite cmp_x00_l.
  - apply Forall_cons in H1 as [Ha _]. rewrite cmp_flip. by rewrite cmp_x00_r.
  - apply Forall_cons in H1 as [_ H1]. apply Forall_cons in H2 as [_ H2].
    rewrite cmp_flip. destruct (cmp a b); simpl; [by apply IH|done..].
Qed.

Lemma digit_nonzero b : is_digit b = true → b ≠ Byte.x00.
Proof. by intros H ->. Qed.

(** ** Text *)

Lemma text_cons b s :
  text (b :: s) = (if decide (b = Byte.x00) then [Byte.x00; Byte.xff] else [b]) ++ text s.
Proof. unfold text. simpl. by rewrite <-app_assoc. Qed.

Lemma text_cmp s1 s2 r1 r2 :
  list_cmp (text s1 ++ r1) (text s2 ++ r2) = then_cmp (list_cmp s1 s2) (list_cmp r1 r2).
Proof.
  revert s2. induction s1 as [|a s1 IH]; intros [|b s2].
  - unfold text. cbn. done.
  - rewrite text_cons. cbn [list_cmp then_cmp]. case_decide as Hb; [by subst|].
    cbn [app text mbind list_bind list_cmp]. by rewrite cmp_x00_l.
  - rewrite text_cons. cbn [list_cmp then_cmp]. case_decide as Ha; [by subst|].
    cbn [app text mbind list_bind list_cmp]. by rewrite cmp_x00_r.
  - rewrite !text_cons. cbn [list_cmp]. repeat case_decide; subst; cbn [app list_cmp].
    + rewrite !cmp_refl. apply IH.
    + rewrite cmp_x00_l by done. done.
    + rewrite cmp_x00_r by done. done.
    + destruct (cmp a b); [apply IH|done..].
Qed.

(** ** Numbers *)

Lemma digits_nonzero s : Forall (λ b, is_digit b = true) s → Forall (λ b, b ≠ Byte.x00) s.
Proof. intros H. eapply Forall_impl; [exact H|]. intros b Hb. by apply digit_nonzero. Qed.


Lemma part_cmp d1 d2 r1 r2 :
  dec_normal d1 → dec_normal d2 →
  list_cmp ((signed (exponent d1) ++ digits d1 ++ [Byte.x00]) ++ r1)
           ((signed (exponent d2) ++ digits d2 ++ [Byte.x00]) ++ r2)
  = then_cmp (then_cmp (exponent d1 ?= exponent d2) (list_cmp (digits d1) (digits d2))) (list_cmp r1 r2).
Proof.
  intros N1 N2. rewrite <-!(app_assoc (signed _)), list_cmp_app by by rewrite !signed_length.
  rewrite signed_cmp by (apply N1 || apply N2).
  rewrite list_cmp_closed by (apply digits_nonzero; apply N1 || apply N2).
  by destruct (exponent d1 ?= exponent d2).
Qed.

Lemma part_cmp_flip d1 d2 r1 r2 :
  dec_normal d1 → dec_normal d2 →
  list_cmp ((flip <$> signed (exponent d1) ++ digits d1 ++ [Byte.x00]) ++ r1)
           ((flip <$> signed (exponent d2) ++ digits d2 ++ [Byte.x00]) ++ r2)
  = then_cmp (CompOpp (then_cmp (exponent d1 ?= exponent d2) (list_cmp (digits d1) (digits d2))))
             (list_cmp r1 r2).
Proof.
  intros N1 N2. rewrite !(fmap_app flip (signed _)), <-!app_assoc.
  rewrite list_cmp_app by by rewrite !length_fmap, !signed_length.
  rewrite list_cmp_flip by by rewrite !signed_length. rewrite signed_cmp by (apply N1 || apply N2).
  rewrite list_cmp_closed_flip by (apply digits_nonzero; apply N1 || apply N2).
  by destruct (exponent d1 ?= exponent d2).
Qed.

Lemma Zcompare_opp' a b : (- a ?= - b) = CompOpp (a ?= b).
Proof. destruct (Z.compare_spec a b), (Z.compare_spec (- a) (- b)); done || lia. Qed.

Lemma number_cmp d1 d2 r1 r2 :
  dec_normal d1 → dec_normal d2 →
  list_cmp (number_bytes d1 ++ r1) (number_bytes d2 ++ r2)
  = then_cmp (num_cmp d1 d2) (list_cmp r1 r2).
Proof.
  intros N1 N2. set (s := scale_for d1 d2).
  assert (0 <= s /\ 0 <= power d1 + s /\ 0 <= power d2 + s) as (? & S1 & S2)
    by (subst s; unfold scale_for; lia).
  unfold num_cmp. fold s. rewrite !scaled_mag.
  pose proof (mag_zero s d1) as Z1. pose proof (mag_zero s d2) as Z2.
  pose proof (mag_pos s d1 N1) as P1. pose proof (mag_pos s d2 N2) as P2.
  pose proof (mag_cmp s d1 d2 N1 N2) as M.
  unfold number_bytes.
  destruct (decide (digits d1 = [])) as [C1|C1], (decide (digits d2 = [])) as [C2|C2];
    rewrite ?(bool_decide_true (digits d1 = [])), ?(bool_decide_false (digits d1 = [])),
      ?(bool_decide_true (digits d2 = [])), ?(bool_decide_false (digits d2 = [])) by done.
  - by rewrite (proj1 (dn_zero _ N1 C1)), (proj1 (dn_zero _ N2 C2)), Z1, Z2.
  - rewrite (proj1 (dn_zero _ N1 C1)), Z1 by done. specialize (P2 C2 S2).
    destruct (negative d2); cbn [app list_cmp].
    + rewrite (proj2 (Z.compare_gt_iff _ _)) by lia. done.
    + rewrite (proj2 (Z.compare_lt_iff _ _)) by lia. done.
  - rewrite (proj1 (dn_zero _ N2 C2)), Z2 by done. specialize (P1 C1 S1).
    destruct (negative d1); cbn [app list_cmp].
    + rewrite (proj2 (Z.compare_lt_iff _ _)) by lia. done.
    + rewrite (proj2 (Z.compare_gt_iff _ _)) by lia. done.
  - specialize (P1 C1 S1). specialize (P2 C2 S2). specialize (M C1 C2 S1 S2).
    destruct (negative d1), (negative d2); cbn [app list_cmp].
    + rewrite cmp_refl, part_cmp_flip, Zcompare_opp', <-M by done.
      unfold then_cmp. by destruct (exponent d1 ?= exponent d2).
    + rewrite (proj2 (Z.compare_lt_iff _ _)) by lia. done.
    + rewrite (proj2 (Z.compare_gt_iff _ _)) by lia. done.
    + rewrite cmp_refl, part_cmp, <-M by done.
      unfold then_cmp. by destruct (exponent d1 ?= exponent d2).
Qed.

(** ** JSON number tokens *)

Definition is_sign (b : byte) : bool := ascii 43 b || ascii 45 b.

(** The grammar of a JSON number (RFC 8259): sign, integer, fraction, exponent. *)
Record number_parts := {
  np_neg : bool; np_int : str; np_frac : option str; np_exp : option (byte * option byte * str);
}.

Definition np_text (n : number_parts) : str :=
  (if np_neg n then [byte_of_N 45] else []) ++ np_int n
  ++ match np_frac n with Some f => byte_of_N 46 :: f | None => [] end
  ++ match np_exp n with
     | Some (e, sign, ds) => e :: match sign with Some b => [b] | None => [] end ++ ds
     | None => []
     end.

Definition all_digits (s : str) : Prop := Forall (λ b, is_digit b = true) s.

Record np_ok (n : number_parts) : Prop := {
  np_int_ok : all_digits (np_int n) ∧ np_int n ≠ [];
  np_int_lead : ∀ b l, np_int n = b :: l → is_zero b = true → l = [];
  np_frac_ok : ∀ f, np_frac n = Some f → all_digits f ∧ f ≠ [];
  np_exp_ok : ∀ e sign ds, np_exp n = Some (e, sign, ds) →
    (ascii 101 e || ascii 69 e = true) ∧ (∀ b, sign = Some b → is_sign b = true) ∧ all_digits ds ∧ ds ≠ [];
}.

(** What the code relies on from serde_json: a text that starts like a number and
    was accepted is a number. *)
Class TextLibOk `{TextLib} := raw_token_number : ∀ s t b l,
  raw_token s = Some t → t = b :: l → ascii 45 b || is_digit b = true →
  ∃ n, np_ok n ∧ t = np_text n.

(** And a number of the grammar is accepted as it stands. *)
Class TextLibNumbers `{TextLib} := raw_number : ∀ n, np_ok n → raw_token (np_text n) = Some (np_text n).

Definition np_exp_text (n : number_parts) : str :=
  match np_exp n with
  | Some (_, sign, ds) => match sign with Some b => [b] | None => [] end ++ ds
  | None => lit "0"
  end.

Definition np_fraction (n : number_parts) : str := default [] (np_frac n).

Lemma split_once_skip f s r : Forall (λ b, f b = false) s →
  split_once f (s ++ r) = match split_once f r with Some (x, y) => Some (s ++ x, y) | None => None end.
Proof.
  induction 1 as [|b s Hb Hs IH]; simpl; [by destruct (split_once f r) as [[]|]|].
  rewrite Hb, IH. by destruct (split_once f r) as [[]|].
Qed.

Lemma split_once_none f s : Forall (λ b, f b = false) s → split_once f s = None.
Proof. intros H. rewrite <-(app_nil_r s), split_once_skip by done. done. Qed.

Lemma ascii_false n m b : ascii n b = true → n ≠ m → ascii m b = false.
Proof. unfold ascii. rewrite N.eqb_eq, N.eqb_neq. congruence. Qed.

Lemma digit_ascii n b : is_digit b = true → (n < 48 ∨ 57 < n)%N → ascii n b = false.
Proof. unfold is_digit, ascii. rewrite andb_true_iff, !N.leb_le, N.eqb_neq. lia. Qed.

Lemma digits_skip (f : byte → bool) s :
  all_digits s → (∀ b, is_digit b = true → f b = false) → Forall (λ b, f b = false) s.
Proof. intros H Hf. eapply Forall_impl; [exact H|]. auto. Qed.

Lemma drop_while_suffix {A} (f : A → bool) l : ∃ p, l = p ++ drop_while f l ∧ Forall (λ a, f a = true) p.
Proof.
  induction l as [|a l (p & E & Hp)]; [by exists []|]. simpl. destruct (f a) eqn:Ef.
  - exists (a :: p). split; [by rewrite E at 1|]. by constructor.
  - by exists [].
Qed.

Lemma drop_while_head {A} (f : A → bool) l b : head (drop_while f l) = Some b → f b = false.
Proof. induction l as [|a l IH]; [done|]. simpl. destruct (f a) eqn:E; [done|]. by intros [= ->]. Qed.

Lemma trim_end0_prefix s : ∃ z, s = trim_end0 s ++ z ∧ Forall (λ b, is_zero b = true) z.
Proof.
  unfold trim_end0. destruct (drop_while_suffix is_zero (rev s)) as (p & E & Hp).
  exists (rev p). split.
  - by rewrite <-rev_app_distr, <-E, rev_involutive.
  - by apply Forall_rev.
Qed.

Lemma last_rev {A} (l : list A) : last (rev l) = head l.
Proof. destruct l as [|a l]; [done|]. simpl. by rewrite last_snoc. Qed.

Lemma trim_end0_last s b : last (trim_end0 s) = Some b → is_zero b = false.
Proof. unfold trim_end0. rewrite last_rev. apply drop_while_head. Qed.

Lemma digits_val_zeros z : Forall (λ b, is_zero b = true) z → digits_val z = 0.
Proof.
  induction 1 as [|b z Hb Hz IH]; [done|]. rewrite digits_val_cons, IH.
  unfold is_zero, ascii in Hb. apply N.eqb_eq in Hb. unfold digit_val. rewrite Hb. lia.
Qed.

(** Trimming zeros at both ends: how the digits and the value change. *)
Lemma trim0_spec s : ∃ p z, s = p ++ trim0 s ++ z ∧ Forall (λ b, is_zero b = true) p ∧
  Forall (λ b, is_zero b = true) z ∧ length p = (length s - length (trim_start0 s))%nat.
Proof.
  unfold trim0. destruct (drop_while_suffix is_zero s) as (p & E & Hp).
  fold (trim_start0 s) in E. destruct (trim_end0_prefix (trim_start0 s)) as (z & Ez & Hz).
  exists p, z. split; [by rewrite <-Ez|]. repeat split; [done..|].
  apply (f_equal length) in E. rewrite length_app in E. lia.
Qed.

Lemma trim0_head s b : head (trim0 s) = Some b → is_zero b = false.
Proof.
  unfold trim0. destruct (trim_end0_prefix (trim_start0 s)) as (z & Ez & _).
  intros Hh. apply (drop_while_head is_zero s). fold (trim_start0 s). rewrite Ez.
  by destruct (trim_end0 (trim_start0 s)).
Qed.

(** ** Parsing *)

Section parsing.
Context `{TextLib}.

(** The mantissa of a token and the text of its exponent. *)
Definition np_mantissa (n : number_parts) : str :=
  np_int n ++ match np_frac n with Some f => byte_of_N 46 :: f | None => [] end.

Definition np_tail (n : number_parts) : str :=
  match np_exp n with
  | Some (e, sign, ds) => e :: match sign with Some b => [b] | None => [] end ++ ds
  | None => []
  end.

Lemma np_text_split n :
  np_text n = (if np_neg n then [byte_of_N 45] else []) ++ np_mantissa n ++ np_tail n.
Proof. unfold np_text, np_mantissa, np_tail. by rewrite <-!app_assoc. Qed.

Lemma np_exp_split n : np_ok n →
  split_once (λ b, ascii 101 b || ascii 69 b) (np_mantissa n ++ np_tail n) =
    match np_exp n with Some _ => Some (np_mantissa n, np_exp_text n) | None => None end.
Proof.
  intros [[Hi _] _ Hf He]. unfold np_mantissa, np_tail, np_exp_text. rewrite <-app_assoc, split_once_skip.
  2:{ apply digits_skip; [done|]. intros b Hb. rewrite !digit_ascii by (done || lia). done. }
  rewrite split_once_skip.
  2:{ destruct (np_frac n) as [f|] eqn:Ef; [|constructor]. destruct (Hf f eq_refl) as [Hf1 _].
      constructor; [done|]. apply digits_skip; [done|].
      intros b Hb. rewrite !digit_ascii by (done || lia). done. }
  destruct (np_exp n) as [[[e sign] ds]|] eqn:Ee; [|done].
  destruct (He e sign ds eq_refl) as (He1 & _). simpl. by rewrite He1, app_nil_r.
Qed.

Lemma np_dot_split n : np_ok n →
  split_once (ascii 46) (np_mantissa n) =
    match np_frac n with Some f => Some (np_int n, f) | None => None end.
Proof.
  intros [[Hi _] _ _ _]. unfold np_mantissa.
  rewrite split_once_skip by (apply digits_skip; [done|]; intros; apply digit_ascii; done || lia).
  destruct (np_frac n) as [f|]; [|done]. cbn [split_once].
  change (ascii 46 (byte_of_N 46)) with true. cbn match. by rewrite app_nil_r.
Qed.

Lemma np_body_head n : np_ok n → ∃ c l, np_mantissa n ++ np_tail n = c :: l ∧ is_digit c = true.
Proof.
  intros [[Hi Hi0] _ _ _]. unfold np_mantissa. destruct (np_int n) as [|c cs]; [done|].
  apply Forall_cons in Hi as [Hc _]. cbn [app]. eauto.
Qed.

(** What [parse_token] reads from a token of the grammar. *)
Lemma parse_token_parts n : np_ok n →
  parse_token (np_text n) =
    let ds := np_int n ++ np_fraction n in
    let leading := (Z.of_nat (length ds) - Z.of_nat (length (trim_start0 ds))) in
    let? exp := ok_or (parse_i128 (np_exp_text n)) (error "numeric exponent exceeds i128") in
    let? e := ok_or (checked_i128 (exp + Z.of_nat (length (np_int n))) ≫= λ v, checked_i128 (v - leading))
                    (error "numeric exponent exceeds i128") in
    if bool_decide (trim0 ds = []) then Ok {| negative := false; digits := trim0 ds; exponent := 0 |}
    else Ok {| negative := np_neg n; digits := trim0 ds; exponent := e |}.
Proof.
  intros Hn. destruct (np_body_head n Hn) as (c & l & Eb & Hc).
  pose proof (np_exp_split n Hn) as Hs. pose proof (np_dot_split n Hn) as Hd.
  assert (Hm : default (np_mantissa n, []) (split_once (ascii 46) (np_mantissa n)) = (np_int n, np_fraction n)).
  { rewrite Hd. unfold np_fraction, np_mantissa. destruct (np_frac n); [done|]. by rewrite app_nil_r. }
  assert (He : default (np_mantissa n ++ np_tail n, lit "0")
      (split_once (λ b, ascii 101 b || ascii 69 b) (np_mantissa n ++ np_tail n)) = (np_mantissa n, np_exp_text n)).
  { rewrite Hs. unfold np_exp_text, np_tail. destruct (np_exp n) as [[[]]|]; [done|]. by rewrite app_nil_r. }
  rewrite np_text_split, Eb in *. unfold parse_token. destruct (np_neg n); cbn [app].
  - change (ascii 45 (byte_of_N 45)) with true. cbn [orb negb tail]. rewrite He.
    destruct (parse_i128 _); cbn [ok_or rbind]; [|reflexivity]. rewrite Hm. reflexivity.
  - rewrite (digit_ascii 45 c) by (done || lia). rewrite Hc. cbn [orb negb]. rewrite He.
    destruct (parse_i128 _); cbn [ok_or rbind]; [|reflexivity]. rewrite Hm. reflexivity.
Qed.

Lemma trim0_digits s : all_digits s → all_digits (trim0 s).
Proof.
  intros Hs. destruct (trim0_spec s) as (p & z & E & _). unfold all_digits in *.
  rewrite E in Hs. apply Forall_app in Hs as [_ Hs]. by apply Forall_app in Hs as [Hs _].
Qed.

Lemma checked_i128_Some a b : checked_i128 a = Some b ↔ b = a ∧ i128_ok a = true.
Proof. unfold checked_i128. case_match; naive_solver. Qed.

(** The exact value of a number of the grammar, times [10 ^ s]. *)
Definition np_exp_val (n : number_parts) : Z := default 0 (parse_i128 (np_exp_text n)).
Definition np_power (n : number_parts) : Z := np_exp_val n - Z.of_nat (length (np_fraction n)).
Definition np_scaled (s : Z) (n : number_parts) : Z :=
  (if np_neg n then -1 else 1) * digits_val (np_int n ++ np_fraction n) * 10 ^ (np_power n + s).

Lemma parse_token_ok n d : np_ok n → parse_token (np_text n) = Ok d →
  dec_normal d ∧ (digits d ≠ [] → np_power n <= power d) ∧
  ∀ s, 0 <= np_power n + s → scaled s d = np_scaled s n.
Proof.
  intros Hn. rewrite parse_token_parts by done. cbn zeta. set (ds := np_int n ++ np_fraction n).
  unfold np_scaled, np_power, np_exp_val. fold ds.
  destruct (parse_i128 (np_exp_text n)) as [exp|]; cbn [ok_or rbind]; [|done]. cbn [from_option id].
  assert (Hds : all_digits ds).
  { apply Forall_app. split; [apply Hn|]. unfold np_fraction.
    destruct (np_frac n) as [f|] eqn:E; [|constructor]. by apply (np_frac_ok n Hn). }
  destruct (trim0_spec ds) as (p & z & E & Hp & Hz & Hlp).
  assert (Hlen : Z.of_nat (length (np_int n)) + Z.of_nat (length (np_fraction n)) =
    Z.of_nat (length p) + Z.of_nat (length (trim0 ds)) + Z.of_nat (length z)).
  { pose proof (f_equal length E) as El. rewrite !length_app in El. subst ds.
    rewrite length_app in El. lia. }
  assert (Hlead : Z.of_nat (length ds) - Z.of_nat (length (trim_start0 ds)) = Z.of_nat (length p)).
  { destruct (drop_while_suffix is_zero ds) as (p' & E' & _).
    apply (f_equal length) in E'. rewrite length_app in E'. unfold trim_start0 in *. lia. }
  rewrite Hlead.
  destruct (checked_i128 (exp + _)) as [v|] eqn:E1; cbn [mbind option_bind ok_or rbind]; [|done].
  apply checked_i128_Some in E1 as [-> _].
  destruct (checked_i128 (exp + _ - _)) as [e|] eqn:E2; cbn [ok_or rbind]; [|done].
  apply checked_i128_Some in E2 as [-> He].
  assert (Hval : digits_val ds = digits_val (trim0 ds) * 10 ^ Z.of_nat (length z)).
  { rewrite E at 1. rewrite !digits_val_app, digits_val_zeros by done.
    rewrite (digits_val_zeros z) by done. lia. }
  pose proof (trim0_digits ds Hds) as Ht. pose proof (trim0_head ds) as Hth.
  pose proof (trim_end0_last (trim_start0 ds)) as Htl.
  change (trim_end0 (trim_start0 ds)) with (trim0 ds) in Htl.
  case_bool_decide as C; intros [= <-]; unfold power; cbn [digits exponent negative].
  - rewrite C in *. split; [by constructor|]. split; [done|]. intros s _.
    unfold scaled. cbn [digits negative]. rewrite Hval. change (digits_val []) with 0. lia.
  - split; [by constructor|]. split; [lia|]. intros s Hs. unfold scaled, power.
    cbn [digits negative exponent]. rewrite Hval.
    rewrite <-!Z.mul_assoc. do 2 f_equal. rewrite <-Z.pow_add_r by lia. f_equal. lia.
Qed.

Context `{!TextLibOk}.

Lemma parse_inv token d : parse token = Ok d →
  ∃ n, np_ok n ∧ raw_token token = Some (np_text n) ∧ parse_token (np_text n) = Ok d.
Proof.
  unfold parse. intros E. apply rbind_ok in E as (raw & E1 & E).
  destruct (raw_token token) as [raw'|] eqn:Er; [|done]. injection E1 as ->.
  pose proof E as E'. unfold parse_token in E. destruct raw as [|b l]; [done|].
  destruct (negb (ascii 45 b || is_digit b)) eqn:Eb; [done|]. apply negb_false_iff in Eb.
  destruct (raw_token_number _ _ _ _ Er eq_refl Eb) as (n & Hn & Et). exists n. by rewrite <-Et.
Qed.

Lemma parse_normal token d : parse token = Ok d → dec_normal d.
Proof. intros (n & Hn & _ & E)%parse_inv. by eapply parse_token_ok. Qed.
End parsing.

(** ** The reference order of values *)

(** Missing, null, false, true, numbers, times, strings, arrays, objects. *)
Definition rank (v : Value) : N :=
  match v with
  | Missing => 1 | Null => 2 | VBool false => 3 | VBool true => 4 | Number _ => 5
  | Time _ => 6 | VString _ => 7 | VArray _ => 8 | VObject _ => 9
  end%N.

(** A [Value::Time] holds an [i128]. *)
Fixpoint value_wf (v : Value) : bool :=
  match v with
  | Time t => i128_ok t
  | VArray l => forallb value_wf l
  | VObject o => forallb (λ p, value_wf p.2) o
  | _ => true
  end.

Section values.
Context `{TextLib}.

Definition token_cmp (t1 t2 : str) : comparison :=
  match parse t1, parse t2 with Ok d1, Ok d2 => num_cmp d1 d2 | _, _ => Eq end.

Fixpoint value_cmp (a b : Value) {struct a} : comparison :=
  match a, b with
  | Number t1, Number t2 => token_cmp t1 t2
  | Time x, Time y => (x ?= y)%Z
  | VString s, VString t => list_cmp s t
  | VArray l1, VArray l2 =>
      (fix go (l1 l2 : list Value) : comparison :=
        match l1, l2 with
        | [], [] => Eq
        | [], _ :: _ => Lt
        | _ :: _, [] => Gt
        | x :: l1', y :: l2' => then_cmp (value_cmp x y) (go l1' l2')
        end) l1 l2
  | _, _ => (rank a ?= rank b)%N
  end.

Fixpoint array_cmp (l1 l2 : list Value) : comparison :=
  match l1, l2 with
  | [], [] => Eq
  | [], _ :: _ => Lt
  | _ :: _, [] => Gt
  | x :: l1', y :: l2' => then_cmp (value_cmp x y) (array_cmp l1' l2')
  end.

Lemma value_cmp_array l1 l2 : value_cmp (VArray l1) (VArray l2) = array_cmp l1 l2.
Proof. done. Qed.

Fixpoint append_all (objects : bool) (l : list Value) : result bytes :=
  match l with
  | [] => Ok []
  | v :: l' => let? x := append objects v in let? y := append_all objects l' in Ok (x ++ y)
  end.

Lemma append_array o l :
  append o (VArray l) = let? out := append_all o l in Ok (byte_of_N 8 :: out ++ [Byte.x00]).
Proof.
  cbn [append]. f_equal. induction l as [|v l IH]; [done|]. cbn [append_all]. by rewrite <-IH.
Qed.

(** Every encoding starts with the rank of its value. *)
Lemma append_head a x : append false a = Ok x → ∃ x', x = byte_of_N (rank a) :: x'.
Proof.
  destruct a as [| |[]| | | |l|]; try (intros [= <-]; by eexists).
  - simpl. intros E. apply rbind_ok in E as (d & _ & [= <-]). by eexists.
  - rewrite append_array. intros E. apply rbind_ok in E as (d & _ & [= <-]). by eexists.
Qed.

Lemma cmp_rank a b : cmp (byte_of_N (rank a)) (byte_of_N (rank b)) = (rank a ?= rank b)%N.
Proof. by destruct a as [| |[]| | | | |], b as [| |[]| | | | |]. Qed.

Lemma cmp_rank_x00 a : cmp (byte_of_N (rank a)) Byte.x00 = Gt.
Proof. by destruct a as [| |[]| | | | |]. Qed.

Context `{!TextLibOk}.

Definition embeds (a : Value) : Prop := ∀ b x y r1 r2,
  value_wf a = true → value_wf b = true → append false a = Ok x → append false b = Ok y →
  list_cmp (x ++ r1) (y ++ r2) = then_cmp (value_cmp a b) (list_cmp r1 r2).

Lemma append_all_cmp l1 : Forall embeds l1 → ∀ l2 x y r1 r2,
  forallb value_wf l1 = true → forallb value_wf l2 = true →
  append_all false l1 = Ok x → append_all false l2 = Ok y →
  list_cmp ((x ++ [Byte.x00]) ++ r1) ((y ++ [Byte.x00]) ++ r2)
  = then_cmp (array_cmp l1 l2) (list_cmp r1 r2).
Proof.
  induction 1 as [|a l1 Ha Hl IH]; intros [|b l2] x y r1 r2 W1 W2; cbn [append_all array_cmp].
  - by intros [= <-] [= <-].
  - intros [= <-] E. apply rbind_ok in E as (y1 & (y' & ->)%append_head & E).
    apply rbind_ok in E as (y2 & _ & [= <-]). cbn [app list_cmp then_cmp].
    by rewrite (cmp_opp _ Byte.x00), cmp_rank_x00.
  - intros E [= <-]. apply rbind_ok in E as (x1 & (x' & ->)%append_head & E).
    apply rbind_ok in E as (x2 & _ & [= <-]). cbn [app list_cmp then_cmp]. by rewrite cmp_rank_x00.
  - simpl in W1, W2. apply andb_true_iff in W1 as [Wa W1], W2 as [Wb W2]. intros Ex Ey.
    apply rbind_ok in Ex as (x1 & Ex1 & Ex). apply rbind_ok in Ex as (x2 & Ex2 & [= <-]).
    apply rbind_ok in Ey as (y1 & Ey1 & Ey). apply rbind_ok in Ey as (y2 & Ey2 & [= <-]).
    rewrite <-!(app_assoc x1), <-!(app_assoc y1), (Ha b x1 y1) by done.
    destruct (value_cmp a b); [|done..]. cbn [then_cmp]. rewrite <-!app_assoc.
    rewrite !(app_assoc _ [Byte.x00]). by apply IH.
Qed.

Lemma rank_differs a b r r' : rank a ≠ rank b →
  match (rank a ?= rank b)%N with Eq => r | c => c end = then_cmp (value_cmp a b) r'.
Proof. by destruct a as [| |[]| | | | |], b as [| |[]| | | | |]. Qed.

Lemma append_embeds a : embeds a.
Proof.
  induction a as [| |c|t|t|s|l Hl|o Ho] using Value_ind'; intros b x y r1 r2 Wa Wb Ex Ey;
    match goal with |- _ = then_cmp (value_cmp ?a ?b) _ =>
      destruct (decide (rank a = rank b)) as [Er|Er];
      [| destruct (append_head _ _ Ex) as [x' ->], (append_head _ _ Ey) as [y' ->];
         cbn [app list_cmp]; rewrite cmp_rank; by apply rank_differs] end.
  1, 2, 3: destruct b as [| |[]| | | | |]; try destruct c; try done;
    injection Ex as <-; injection Ey as <-; cbn [app list_cmp]; by rewrite cmp_refl.
  - destruct b as [| |[]|t'| | | |]; try done. simpl in Ex, Ey.
    apply rbind_ok in Ex as (d1 & E1 & [= <-]). apply rbind_ok in Ey as (d2 & E2 & [= <-]).
    cbn [app list_cmp value_cmp]. rewrite cmp_refl. unfold token_cmp. rewrite E1, E2.
    apply number_cmp; by eapply parse_normal.
  - destruct b as [| |[]| |t'| | |]; try done. injection Ex as <-. injection Ey as <-.
    cbn [app list_cmp value_cmp]. rewrite cmp_refl, list_cmp_app by by rewrite !signed_length.
    rewrite signed_cmp by done. by destruct (t ?= t').
  - destruct b as [| |[]| | |s'| |]; try done. injection Ex as <-. injection Ey as <-.
    cbn [app list_cmp value_cmp]. rewrite cmp_refl. apply text_cmp.
  - destruct b as [| |[]| | | |l'|]; try done. rewrite append_array in Ex, Ey.
    apply rbind_ok in Ex as (x1 & E1 & [= <-]). apply rbind_ok in Ey as (y1 & E2 & [= <-]).
    rewrite value_cmp_array. cbn [app list_cmp]. rewrite cmp_refl. by apply append_all_cmp.
  - done.
Qed.

(** Two numbers of the grammar compare as their exact values at any scale that makes
    both integers. *)
Definition np_cmp (n1 n2 : number_parts) : comparison :=
  let s := Z.max 0 (Z.max (- np_power n1) (- np_power n2)) in
  (np_scaled s n1 ?= np_scaled s n2).

Lemma parse_num_cmp t1 t2 n1 n2 d1 d2 :
  np_ok n1 → np_ok n2 → raw_token t1 = Some (np_text n1) → raw_token t2 = Some (np_text n2) →
  parse t1 = Ok d1 → parse t2 = Ok d2 → num_cmp d1 d2 = np_cmp n1 n2.
Proof.
  intros N1 N2 R1 R2. unfold parse. rewrite R1, R2. cbn [ok_or rbind]. intros E1 E2.
  destruct (parse_token_ok n1 d1 N1 E1) as (D1 & P1 & S1).
  destruct (parse_token_ok n2 d2 N2 E2) as (D2 & P2 & S2).
  unfold np_cmp. set (s := Z.max 0 _). assert (0 <= s) by (subst s; lia).
  rewrite <-S1, <-S2 by (subst s; lia).
  set (k := Z.max 0 (Z.max (- power d1) (- power d2))).
  assert (Hz : ∀ d m, digits d = [] → scaled m d = 0).
  { intros d m E. rewrite scaled_mag, mag_zero by done. by destruct (negative d). }
  assert (Hs : ∀ d, (digits d ≠ [] → 0 <= power d + s) → scaled (s + k) d = scaled s d * 10 ^ k).
  { intros d Hd. destruct (decide (digits d = [])) as [Ez|Ez]; [by rewrite !Hz|].
    apply scaled_scale; [auto|subst k; lia]. }
  rewrite (num_cmp_scale (s + k)) by (subst k; lia).
  rewrite (Hs d1) by (intros Hd; specialize (P1 Hd); subst s; lia).
  rewrite (Hs d2) by (intros Hd; specialize (P2 Hd); subst s; lia).
  apply compare_mul_pos, Z.pow_pos_nonneg; subst k; lia.
Qed.

(** ** Canonical spelling *)

Lemma num_cmp_eq d1 d2 : dec_normal d1 → dec_normal d2 → num_cmp d1 d2 = Eq → d1 = d2.
Proof.
  intros N1 N2 E. pose proof (number_cmp d1 d2 [] [] N1 N2) as Hc. rewrite E, !app_nil_r in Hc.
  assert (number_bytes d1 = number_bytes d2) as Hb by by apply (cmp_eq (K := bytes)).
  unfold number_bytes in Hb. destruct d1 as [s1 g1 e1], d2 as [s2 g2 e2]; cbn [negative digits exponent] in Hb.
  pose proof (dn_zero _ N1) as Z1. pose proof (dn_zero _ N2) as Z2. simpl in Z1, Z2.
  assert (Hpart : signed e1 ++ g1 ++ [Byte.x00] = signed e2 ++ g2 ++ [Byte.x00] → e1 = e2 ∧ g1 = g2).
  { intros Hp. apply app_inj_1 in Hp as [Hs Hg]; [|by rewrite !signed_length].
    apply app_inj_2 in Hg as [-> _]; [|done]. split; [|done].
    apply Z.compare_eq. rewrite <-(signed_cmp e1 e2 (dn_exp _ N1) (dn_exp _ N2)), Hs.
    exact (cmp_refl (signed e2)). }
  case_bool_decide; case_bool_decide; subst.
  - destruct (Z1 eq_refl), (Z2 eq_refl). by subst.
  - by destruct s2.
  - by destruct s1.
  - destruct s1, s2; try done; apply (f_equal tail) in Hb; cbn [tail] in Hb.
    + assert (Hf : Inj (=) (=) flip).
      { intros a b Hab. apply (f_equal byte_to_N) in Hab. rewrite !flip_val in Hab.
        pose proof (byte_to_N_bound a). pose proof (byte_to_N_bound b).
        apply byte_to_N_inj. lia. }
      apply (inj (fmap flip)) in Hb. by destruct (Hpart Hb) as [-> ->].
    + by destruct (Hpart Hb) as [-> ->].
Qed.

Lemma dec_Z_inj a b : dec_Z a = dec_Z b → a = b.
Proof.
  assert (Hd : ∀ n l, dec n ≠ byte_of_N 45 :: l).
  { intros n l E. pose proof (dec_all_digits n) as Hf. rewrite E in Hf.
    by apply Forall_cons in Hf as [? _]. }
  unfold dec_Z. destruct (Z.ltb_spec a 0), (Z.ltb_spec b 0); intros E.
  - injection E as E%dec_inj. lia.
  - by destruct (Hd _ _ (eq_sym E)).
  - by destruct (Hd _ _ E).
  - apply dec_inj in E. lia.
Qed.

Lemma digits_split_e s r : all_digits s →
  split_once (ascii 101) (s ++ Byte.x65 :: r) = Some (s, r).
Proof.
  intros Hs. rewrite split_once_skip.
  - simpl. by rewrite app_nil_r.
  - apply digits_skip; [done|]. intros b Hb. apply digit_ascii; [done|lia].
Qed.

Lemma canonical_inj d1 d2 c : dec_normal d1 → dec_normal d2 →
  canonical d1 = Ok c → canonical d2 = Ok c → d1 = d2.
Proof.
  assert (Hs : ∀ d, dec_normal d → ∀ c, canonical d = Ok c →
    match split_once (ascii 101) c with
    | Some (m, p) => ∃ l, digits d ≠ [] ∧ p = dec_Z (power d) ∧ digits d = l ∧
         m = (if negative d then [byte_of_N 45] else []) ++ l
    | None => digits d = []
    end).
  { intros d Hn c'. unfold canonical. case_bool_decide; [by intros [= <-]|].
    intros E. apply rbind_ok in E as (p & Ep & [= <-]).
    destruct (checked_i128 (power d)) as [p'|] eqn:Eq; [|done]. injection Ep as ->.
    apply checked_i128_Some in Eq as [-> _].
    destruct (negative d); cbn [app].
    - cbn [split_once]. change (ascii 101 (byte_of_N 45)) with false. rewrite digits_split_e by apply Hn. simpl. eauto.
    - rewrite digits_split_e by apply Hn. eauto. }
  intros N1 N2 E1 E2. pose proof (Hs d1 N1 c E1) as H1. pose proof (Hs d2 N2 c E2) as H2.
  destruct (split_once (ascii 101) c) as [[m p]|].
  - destruct H1 as (l1 & G1 & -> & <- & ->), H2 as (l2 & G2 & Ep & <- & Em).
    apply dec_Z_inj in Ep. unfold power in Ep.
    assert (Hh : ∀ d l, dec_normal d → digits d ≠ byte_of_N 45 :: l).
    { intros d l Hn E. pose proof (dn_digits d Hn) as Hf. rewrite E in Hf.
      by apply Forall_cons in Hf as [? _]. }
    destruct d1 as [s1 g1 e1], d2 as [s2 g2 e2]; simpl in *.
    destruct s1, s2; simpl in Em; simplify_eq; try (f_equal; lia).
    + by destruct (Hh _ g1 N2).
    + by destruct (Hh _ g2 N1).
  - destruct d1 as [s1 g1 e1], d2 as [s2 g2 e2]; simpl in *. subst.
    destruct (dn_zero _ N1 eq_refl), (dn_zero _ N2 eq_refl). simpl in *. by subst.
Qed.
End values.

(** ** A concrete number reader *)

(** Reads exactly the JSON number grammar; the other readers accept nothing. *)
Module PlainText.
Definition guess (s : str) : number_parts :=
  let neg := match s with b :: _ => ascii 45 b | [] => false end in
  let body := if neg then tail s else s in
  let '(m, exp) := match split_once (λ b, ascii 101 b || ascii 69 b) body with
                   | Some (m, r) => (m, Some r) | None => (body, None) end in
  let '(i, f) := match split_once (ascii 46) m with
                 | Some (i, f) => (i, Some f) | None => (m, None) end in
  {| np_neg := neg; np_int := i; np_frac := f;
     np_exp := match exp with
       | Some r =>
           let e := default Byte.x00 (body !! length m) in
           match r with
           | b :: r' => if is_sign b then Some (e, Some b, r') else Some (e, None, r)
           | [] => Some (e, None, [])
           end
       | None => None end |}.

Definition digits_b (s : str) : bool := forallb is_digit s && negb (bool_decide (s = [])).

Definition ok_b (n : number_parts) : bool :=
  digits_b (np_int n)
  && match np_int n with b :: _ :: _ => negb (is_zero b) | _ => true end
  && match np_frac n with Some f => digits_b f | None => true end
  && match np_exp n with
     | Some (e, sign, ds) =>
         (ascii 101 e || ascii 69 e)
         && match sign with Some b => is_sign b | None => true end && digits_b ds
     | None => true
     end.

Lemma digits_b_ok s : digits_b s = true → all_digits s ∧ s ≠ [].
Proof.
  unfold digits_b. rewrite andb_true_iff, forallb_forall, negb_true_iff, bool_decide_eq_false.
  intros [Hs ?]. split; [|done]. apply Forall_forall. intros b Hb. by apply Hs, list_elem_of_In.
Qed.

Lemma ok_b_ok n : ok_b n = true → np_ok n.
Proof.
  unfold ok_b. rewrite !andb_true_iff. intros (((Hi & Hl) & Hf) & He). constructor.
  - by apply digits_b_ok.
  - intros b [|c l] E Hz; [done|]. rewrite E, Hz in Hl. done.
  - intros f E. rewrite E in Hf. by apply digits_b_ok.
  - intros e sign ds E. rewrite E in He. rewrite !andb_true_iff in He.
    destruct He as ((He & Hs) & Hd). split_and!; [done| |by apply digits_b_ok..].
    intros b ->. done.
Qed.

Definition plain_text : TextLib := {|
  json_read _ := None;
  raw_token s := if ok_b (guess s) && bool_decide (np_text (guess s) = s) then Some s else None;
  to_lowercase s := s; is_alphanumeric c := (48 <=? c)%N; levenshtein _ _ := 0%N; json_string s := s;
  parse_rfc3339 _ := None; parse_date _ := None; parse_naive_t _ := None; parse_naive_space _ := None;
|}.

Lemma plain_text_ok : @TextLibOk plain_text.
Proof.
  intros s t b l. simpl. destruct (ok_b (guess s)) eqn:E; [|done]. case_bool_decide as Hs; [|done].
  simpl. intros [= <-] _ _. exists (guess s). split; [by apply ok_b_ok|done].
Qed.

Lemma digits_b_of s : all_digits s → s ≠ [] → digits_b s = true.
Proof.
  intros Hs Hne. unfold digits_b. rewrite bool_decide_eq_false_2 by done.
  rewrite andb_true_r. apply forallb_forall. intros b Hb%list_elem_of_In.
  unfold all_digits in Hs. rewrite Forall_forall in Hs. auto.
Qed.

Lemma ok_b_of n : np_ok n → ok_b n = true.
Proof.
  intros [[Hi Hi0] Hl Hf He]. unfold ok_b. rewrite !andb_true_iff. split_and!.
  - by apply digits_b_of.
  - destruct (np_int n) as [|b [|c l]]; try done. destruct (is_zero b) eqn:Ez; [|done].
    by specialize (Hl b (c :: l) eq_refl Ez).
  - destruct (np_frac n) as [f|]; [|done]. apply digits_b_of; by apply Hf.
  - destruct (np_exp n) as [[[e sign] ds]|]; [|done].
    destruct (He e sign ds eq_refl) as (-> & Hs & Hd & Hd0). rewrite digits_b_of by done.
    destruct sign as [b|]; [|done]. by rewrite (Hs b).
Qed.

Lemma guess_text n : np_ok n → guess (np_text n) = n.
Proof.
  intros Hn. destruct (np_body_head n Hn) as (c & l & Eb & Hc).
  assert (Hneg : ∀ neg : bool, match (if neg then [byte_of_N 45] else []) ++ c :: l with
      b :: _ => ascii 45 b | [] => false end = neg).
  { intros []; [done|]. cbn [app]. by rewrite digit_ascii by (done || lia). }
  assert (Hbody : ∀ neg : bool, (if neg then tail ((if neg then [byte_of_N 45] else []) ++ c :: l)
      else (if neg then [byte_of_N 45] else []) ++ c :: l) = c :: l) by by intros [].
  pose proof (np_exp_split n Hn) as Hs. pose proof (np_dot_split n Hn) as Hd.
  pose proof (np_exp_ok n Hn) as He. rewrite np_text_split. unfold guess. rewrite Eb, Hneg, Hbody, <-Eb, Hs.
  destruct n as [neg int frac exp]; cbn [np_neg np_int np_frac np_exp] in *.
  destruct exp as [[[e sign] ds]|].
  - rewrite Hd. rewrite lookup_app_r by done. unfold np_tail, np_exp_text. cbn [np_exp].
    rewrite Nat.sub_diag. cbn [lookup list_lookup from_option id].
    destruct (He e sign ds eq_refl) as (_ & Hsg & Hds & Hd0).
    assert (Hr : (match match sign with Some b => [b] | None => [] end ++ ds with
        | b :: r' => if is_sign b then Some (e, Some b, r') else
            Some (e, None, match sign with Some b => [b] | None => [] end ++ ds)
        | [] => Some (e, None, []) end) = Some (e, sign, ds)).
    { destruct sign as [b|]; cbn [app]; [by rewrite (Hsg b)|]. destruct ds as [|b ds]; [done|].
      apply Forall_cons in Hds as [Hb _]. unfold is_sign. by rewrite !digit_ascii by (done || lia). }
    rewrite Hr. destruct frac; [done|]. unfold np_mantissa. cbn [np_int np_frac]. by rewrite app_nil_r.
  - unfold np_tail. cbn [np_exp]. rewrite app_nil_r, Hd. unfold np_mantissa. cbn [np_int np_frac].
    destruct frac; [done|]. by rewrite app_nil_r.
Qed.

Lemma plain_text_numbers : @TextLibNumbers plain_text.
Proof.
  intros n Hn. simpl. rewrite guess_text, ok_b_of by done. by rewrite bool_decide_eq_true_2.
Qed.
End PlainText.

(** ** Properties *)

(** C32: ordered keys compare as the values they encode, and stay comparable
    whatever follows them: the comparison of two keys with tails is the comparison of
    the values and then of the tails.  So a key is self-delimiting and a composite key
    is ordered field by field. *)
Theorem ordered_key_order `{TextLibOk} a b x y r1 r2 :
  value_wf a = true → value_wf b = true →
  OrderedCodec.encode a = Ok x → OrderedCodec.encode b = Ok y →
  list_cmp (x ++ r1) (y ++ r2) = then_cmp (value_cmp a b) (list_cmp r1 r2).
Proof. apply append_embeds. Qed.

Lemma ordered_key_order_witness :
  let T := PlainText.plain_text in
  let a := VArray [Number (lit "-12.50"); VString (lit "x")] in
  let b := VArray [Number (lit "1e400"); VString []] in
  ∃ x y, OrderedCodec.encode a = Ok x ∧ OrderedCodec.encode b = Ok y ∧
    list_cmp (x ++ []) (y ++ []) = then_cmp (value_cmp a b) (list_cmp (A := byte) [] []).
Proof.
  intros T a b. eexists _, _. split; [vm_compute; reflexivity|]. split; [vm_compute; reflexivity|].
  refine (ordered_key_order (H0 := PlainText.plain_text_ok) a b _ _ [] [] _ _ _ _);
    vm_compute; reflexivity.
Defined.

(** Number keys compare as the exact decimal values the tokens spell, at any
    magnitude: no rounding takes place. *)
Lemma number_key_exact `{TextLibOk} t1 t2 n1 n2 x y :
  np_ok n1 → np_ok n2 → raw_token t1 = Some (np_text n1) → raw_token t2 = Some (np_text n2) →
  OrderedCodec.encode (Number t1) = Ok x → OrderedCodec.encode (Number t2) = Ok y →
  list_cmp x y = np_cmp n1 n2.
Proof.
  intros N1 N2 R1 R2 Ex Ey. rewrite <-(app_nil_r x), <-(app_nil_r y).
  rewrite (append_embeds (Number t1) (Number t2)) by done. simpl in Ex, Ey.
  apply rbind_ok in Ex as (d1 & E1 & _). apply rbind_ok in Ey as (d2 & E2 & _).
  cbn [value_cmp]. unfold token_cmp. rewrite E1, E2, (parse_num_cmp t1 t2 n1 n2) by done.
  by destruct (np_cmp n1 n2).
Qed.

Lemma number_key_exact_witness :
  let T := PlainText.plain_text in
  let n1 := PlainText.guess (lit "9007199254740993") in
  let n2 := PlainText.guess (lit "9.007199254740992e15") in
  ∃ x y, OrderedCodec.encode (Number (np_text n1)) = Ok x ∧
    OrderedCodec.encode (Number (np_text n2)) = Ok y ∧ list_cmp x y = np_cmp n1 n2.
Proof.
  intros T n1 n2. eexists _, _. split; [vm_compute; reflexivity|]. split; [vm_compute; reflexivity|].
  refine (number_key_exact (H0 := PlainText.plain_text_ok) (np_text n1) (np_text n2) n1 n2 _ _
    (PlainText.ok_b_ok _ _) (PlainText.ok_b_ok _ _) _ _ _ _); vm_compute; reflexivity.
Defined.

(** two number tokens have the same canonical spelling exactly when they spell
    the same value. *)
Lemma canonical_number_unique `{TextLibOk} t1 t2 n1 n2 c1 c2 :
  np_ok n1 → np_ok n2 → raw_token t1 = Some (np_text n1) → raw_token t2 = Some (np_text n2) →
  canonical_number t1 = Ok c1 → canonical_number t2 = Ok c2 →
  c1 = c2 ↔ np_cmp n1 n2 = Eq.
Proof.
  intros N1 N2 R1 R2 E1 E2. apply rbind_ok in E1 as (d1 & P1 & C1). apply rbind_ok in E2 as (d2 & P2 & C2).
  rewrite <-(parse_num_cmp t1 t2 n1 n2 d1 d2) by done.
  pose proof (parse_normal _ _ P1) as D1. pose proof (parse_normal _ _ P2) as D2. split.
  - intros <-. rewrite (canonical_inj d1 d2 c1) by done. unfold num_cmp. apply Z.compare_refl.
  - intros E. apply num_cmp_eq in E as ->; [|done..]. congruence.
Qed.

Lemma canonical_number_unique_example :
  let T := PlainText.plain_text in
  let n1 := PlainText.guess (lit "100") in
  let n2 := PlainText.guess (lit "1.0E+2") in
  ∃ c1 c2, canonical_number (np_text n1) = Ok c1 ∧ canonical_number (np_text n2) = Ok c2 ∧
    (c1 = c2 ↔ np_cmp n1 n2 = Eq).
Proof.
  intros T n1 n2. eexists _, _. split; [vm_compute; reflexivity|]. split; [vm_compute; reflexivity|].
  refine (canonical_number_unique (H0 := PlainText.plain_text_ok) (np_text n1) (np_text n2) n1 n2 _ _
    (PlainText.ok_b_ok _ _) (PlainText.ok_b_ok _ _) _ _ _ _); vm_compute; reflexivity.
Defined.
