(* ===== verification/Eval.v ===== *)
(** * Row evaluation ([query/eval.rs])

    A predicate is evaluated on the stored bytes of a row.  [RowEvaluation]
    extracts each of the statement's paths at most once and keeps the value; the
    model threads that cache, and [matches_uncached] (EvalSpec) is the
    reference that extracts every time. *)
From S2P Require Import Prelude Order Fields OrderedCodec.

(** The value cache of a [RowEvaluation]: one slot per path of the statement. *)
Abbreviation slots := (list (option Value)).

Section eval.
Context `{TextLib}.

(** [s.split(|c| !c.is_alphanumeric())], the empty pieces filtered out. *)
Fixpoint split_tokens (cs : list N) (cur : list N) : list (list N) :=
  match cs with
  | [] => [cur]
  | c :: cs' => if is_alphanumeric c then split_tokens cs' (cur ++ [c])
                else cur :: split_tokens cs' []
  end.

Definition tokens (s : str) : list str :=
  (λ t, to_lowercase (of_chars t)) <$> filter (λ t, t ≠ []) (split_tokens (chars s) []).

Definition path_value (b : bytes) (p : Path) : result Value :=
  let? v := extract b (p_steps p) in
  let? v := interpret (p_kind p) v in
  apply (p_transforms p) v.

(** [std::mem::discriminant]. *)
Definition discriminant (v : Value) : N :=
  match v with
  | Missing => 0 | Null => 1 | VBool _ => 2 | Number _ => 3 | Time _ => 4 | VString _ => 5
  | VArray _ => 6 | VObject _ => 7
  end%N.

Definition compare (a b : Value) : result (option comparison) :=
  if negb (discriminant a =? discriminant b)%N || is_empty a || is_empty b then Ok None
  else let? x := encode_equality a in
       let? y := encode_equality b in
       Ok (Some (cmp x y)).

Fixpoint starts_with (a b : str) : bool :=
  match a, b with
  | _, [] => true
  | x :: a', y :: b' => bool_decide (x = y) && starts_with a' b'
  | [], _ :: _ => false
  end.

Fixpoint contains (a b : str) : bool :=
  starts_with a b || match a with [] => false | _ :: a' => contains a' b end.

Definition is_range (op : Compare) : bool :=
  match op with CGt | CGe | CLt | CLe | CBetween => true | _ => false end.

(** The [for] loop of [Compare::In]: the first equal literal ends it. *)
Fixpoint any_equal (v : Value) (values : list Value) : result bool :=
  match values with
  | [] => Ok false
  | b :: values' =>
      let? c := compare v b in
      if decide (c = Some Eq) then Ok true else any_equal v values'
  end.

Definition scalar (v : Value) (op : Compare) (values : list Value) : result bool :=
  match values with
  | [] => Ok false
  | first :: _ =>
      let? c := compare v first in
      check? (if bool_decide (is_Some c) && is_range op
              then check? OrderedCodec.encode v in
                   try_fold (λ _ value, rmap (λ _, tt) (OrderedCodec.encode value)) tt values
              else Ok tt) in
      match op with
      | CEq => Ok (bool_decide (c = Some Eq))
      | CNe => Ok (bool_decide (is_Some c) && negb (bool_decide (c = Some Eq)))
      | CGt => Ok (bool_decide (c = Some Gt))
      | CGe => Ok (bool_decide (is_Some c) && negb (bool_decide (c = Some Lt)))
      | CLt => Ok (bool_decide (c = Some Lt))
      | CLe => Ok (bool_decide (is_Some c) && negb (bool_decide (c = Some Gt)))
      | CBetween =>
          if bool_decide (is_Some c) && negb (bool_decide (c = Some Lt)) then
            match values !! 1 with
            | Some b => rmap (λ d, bool_decide (d = Some Lt)) (compare v b)
            | None => Ok false
            end
          else Ok false
      | CIn => any_equal v values
      | CPrefix | CContains | CText | CFuzzy _ | CParts =>
          match v, first with
          | VString a, VString b =>
              match op with
              | CPrefix => Ok (starts_with a b)
              | CContains => Ok (contains a b)
              | CFuzzy distance => Ok (existsb (λ t, levenshtein t b <=? distance)%N (tokens a))
              | _ => let b := tokens b in
                     Ok (negb (bool_decide (b = [])) && forallb (λ t, bool_decide (t ∈ tokens a)) b)
              end
          | _, _ => Ok false
          end
      end
  end.

Definition is_quantifier (s : Step) : bool := match s with Any | All => true | _ => false end.
Definition quantifiers (l : list Step) : nat := length (filter (λ s, is_quantifier s = true) l).

Definition with_steps (p : Path) (l : list Step) : Path :=
  {| p_steps := l; p_kind := p_kind p; p_transforms := p_transforms p |}.

(** The [for n in 0..items.len()] loop of [quantified]. *)
Fixpoint quantify (all : bool) (test : nat → result bool) (n count : nat) : result bool :=
  match count with
  | O => Ok all
  | S count' =>
      let? yes := test n in
      if bool_decide (yes ≠ all) then Ok (negb all) else quantify all test (S n) count'
  end.

(** [quantified]: one turn per quantifier of the path, so the fuel is their number. *)
Fixpoint quantified_fuel (fuel : nat) (b : bytes) (p : Path) (leaf : Value → result bool) : result bool :=
  match list_find (λ s, is_quantifier s = true) (p_steps p) with
  | Some (i, s) =>
      match fuel with
      | O => Err FuelExhausted
      | S fuel' =>
          let? v := extract b (take i (p_steps p)) in
          match v with
          | VArray items =>
              let all := bool_decide (s = All) in
              quantify all (λ n, quantified_fuel fuel' b
                  (with_steps p (<[i := Index (N.of_nat n)]> (p_steps p))) leaf) 0 (length items)
          | _ => Ok false
          end
      end
  | None => let? v := path_value b p in leaf v
  end.
Definition quantified (b : bytes) (p : Path) (leaf : Value → result bool) : result bool :=
  quantified_fuel (quantifiers (p_steps p)) b p leaf.

(** [parts.join(",")]. *)
Fixpoint join (parts : list bytes) : bytes :=
  match parts with
  | [] => []
  | [p] => p
  | p :: parts' => p ++ lit "," ++ join parts'
  end.

(** [json_bytes]: a value as JSON text, number tokens unchanged. *)
Fixpoint json_bytes (v : Value) : result bytes :=
  match v with
  | Number n => Ok n
  | Missing | Null => Ok (lit "null")
  | VBool true => Ok (lit "true")
  | VBool false => Ok (lit "false")
  | VString s => Ok (json_string s)
  | VArray a =>
      let? p := (fix go (l : list Value) : result (list bytes) :=
        match l with
        | [] => Ok []
        | v :: l' => let? x := json_bytes v in let? r := go l' in Ok (x :: r)
        end) a in
      Ok (lit "[" ++ join p ++ lit "]")
  | VObject o =>
      let? p := (fix go (o : list (str * Value)) : result (list bytes) :=
        match o with
        | [] => Ok []
        | (k, v) :: o' => let? x := json_bytes v in let? r := go o' in
                          Ok ((json_string k ++ lit ":" ++ x) :: r)
        end) o in
      Ok (lit "{" ++ join p ++ lit "}")
  | Time _ => Err (Validation (lit "time value is not raw JSON"))
  end.

Definition presence_test (op : Presence) (v : Value) : result bool :=
  Ok match op with
     | PExists => exists_ v
     | PNull => is_null v
     | PMissing => is_missing v
     | PEmpty => is_empty v
     end.

(** [RowEvaluation::value]: the slot of a known path is filled once. *)
Definition row_value (b : bytes) (paths : list Path) (values : slots) (p : Path) : result (Value * slots) :=
  match list_find (λ q, q = p) paths with
  | Some (i, _) =>
      match values !! i with
      | Some (Some v) => Ok (v, values)
      | _ => let? v := path_value b p in Ok (v, <[i := Some v]> values)
      end
  | None => let? v := path_value b p in Ok (v, values)
  end.

(** [for item in items { if matches(..)? { return Ok(true) } } Ok(false)]. *)
Fixpoint any_item (test : bytes → result bool) (items : list Value) : result bool :=
  match items with
  | [] => Ok false
  | item :: items' =>
      let? b := json_bytes item in
      let? yes := test b in
      if yes then Ok true else any_item test items'
  end.

(** [RowEvaluation::matches]; the element of [ElemMatch] is evaluated by a fresh
    [RowEvaluation] without paths. *)
Fixpoint row_matches (b : bytes) (paths : list Path) (values : slots) (e : Expr) : result (bool * slots) :=
  match e with
  | ECompare path op literals =>
      let? literals := traverse (interpret (p_kind path)) literals in
      if existsb is_quantifier (p_steps path)
      then rmap (λ r, (r, values)) (quantified b path (λ v, scalar v op literals))
      else let? '(v, values) := row_value b paths values path in
           rmap (λ r, (r, values)) (scalar v op literals)
  | EPresence path op =>
      if existsb is_quantifier (p_steps path)
      then rmap (λ r, (r, values)) (quantified b path (presence_test op))
      else let? '(v, values) := row_value b paths values path in
           rmap (λ r, (r, values)) (presence_test op v)
  | EAnd x y =>
      let? '(r, values) := row_matches b paths values x in
      if r then row_matches b paths values y else Ok (false, values)
  | EOr x y =>
      let? '(r, values) := row_matches b paths values x in
      if r then Ok (true, values) else row_matches b paths values y
  | ENot x =>
      let? '(r, values) := row_matches b paths values x in Ok (negb r, values)
  | EElemMatch path inner =>
      let? '(v, values) := row_value b paths values path in
      match v with
      | VArray items =>
          rmap (λ r, (r, values)) (any_item (λ item, rmap fst (row_matches item [] [] inner)) items)
      | _ => Ok (false, values)
      end
  | ENever => Ok (false, values)
  | EInvalid _ => Err (Validation (lit "invalid query expression"))
  end.

(** [RowEvaluation::new(bytes, paths).matches(expr)]. *)
Definition row_evaluation (b : bytes) (paths : list Path) (e : Expr) : result bool :=
  rmap fst (row_matches b paths (replicate (length paths) None) e).

(** [eval::matches]. *)
Definition matches (b : bytes) (e : Expr) : result bool := row_evaluation b [] e.
End eval.
