(* ===== verification/EvalSpec.v ===== *)
(** * Correctness of row evaluation

    The value cache of a row is invisible, the quantifier walk needs no more fuel than
    the path has quantifiers, and the range operators decide the reference order of
    values. *)
From S2P Require Import Prelude Order Fields OrderedCodec OrderedSpec Eval.

Section eval_spec.
Context `{TextLib}.

(** ** The cache *)

(** Every filled slot holds what extraction would give. *)
Definition slots_ok (b : bytes) (paths : list Path) (values : slots) : Prop :=
  length values = length paths ∧
  ∀ i p v, paths !! i = Some p → values !! i = Some (Some v) → path_value b p = Ok v.

Lemma slots_ok_fresh b paths : slots_ok b paths (replicate (length paths) None).
Proof.
  split; [apply length_replicate|]. intros i p v _ [E _]%lookup_replicate_1. done.
Qed.

(** The cached lookup agrees with a plain extraction. *)
Lemma row_value_ok b paths values p : slots_ok b paths values →
  match row_value b paths values p with
  | Ok (v, values') => path_value b p = Ok v ∧ slots_ok b paths values'
  | Err e => path_value b p = Err e
  end.
Proof.
  intros [Hl Hv]. unfold row_value.
  destruct (list_find (λ q, q = p) paths) as [[i q]|] eqn:Ef; [|by destruct (path_value b p)].
  apply list_find_Some in Ef as (Hi & -> & _).
  assert (Hslot : match (let? v := path_value b p in Ok (v, <[i:=Some v]> values)) with
    | Ok (v, values') => path_value b p = Ok v ∧ slots_ok b paths values'
    | Err e => path_value b p = Err e end).
  { destruct (path_value b p) as [v|] eqn:Ep; cbn [rbind]; [|done]. split; [done|].
    split; [by rewrite length_insert|]. intros j q w Hq Hw.
    destruct (decide (i = j)) as [<-|Hne].
    - rewrite list_lookup_insert_eq in Hw by (rewrite Hl; by eapply lookup_lt_Some).
      congruence.
    - rewrite list_lookup_insert_ne in Hw by done. by eapply Hv. }
  destruct (values !! i) as [[v|]|] eqn:Ev; [|done..]. split; [by eapply Hv|done].
Qed.

(** The reference: every path is extracted where it is used. *)
Fixpoint matches_uncached (b : bytes) (e : Expr) : result bool :=
  match e with
  | ECompare path op literals =>
      let? literals := traverse (interpret (p_kind path)) literals in
      if existsb is_quantifier (p_steps path) then quantified b path (λ v, scalar v op literals)
      else let? v := path_value b path in scalar v op literals
  | EPresence path op =>
      if existsb is_quantifier (p_steps path) then quantified b path (presence_test op)
      else let? v := path_value b path in presence_test op v
  | EAnd x y => let? r := matches_uncached b x in if r then matches_uncached b y else Ok false
  | EOr x y => let? r := matches_uncached b x in if r then Ok true else matches_uncached b y
  | ENot x => rmap negb (matches_uncached b x)
  | EElemMatch path inner =>
      let? v := path_value b path in
      match v with
      | VArray items => any_item (λ item, matches_uncached item inner) items
      | _ => Ok false
      end
  | ENever => Ok false
  | EInvalid _ => Err (Validation (lit "invalid query expression"))
  end.

(** A cached run gives the reference's answer and leaves a valid cache. *)
Definition agrees (b : bytes) (paths : list Path) (r : result (bool * slots)) (ref : result bool) : Prop :=
  match r with
  | Ok (v, values') => ref = Ok v ∧ slots_ok b paths values'
  | Err x => ref = Err x
  end.

Lemma agrees_fst b paths r ref : agrees b paths r ref → rmap fst r = ref.
Proof. destruct r as [[]|]; simpl; [by intros [-> _]|by intros ->]. Qed.

Lemma agrees_leaf b paths values p (leaf : Value → result bool) : slots_ok b paths values →
  agrees b paths (let? '(v, values) := row_value b paths values p in rmap (λ r, (r, values)) (leaf v))
    (let? v := path_value b p in leaf v).
Proof.
  intros Hs. pose proof (row_value_ok _ _ _ p Hs) as Hr.
  destruct (row_value b paths values p) as [[v values']|x]; cbn [rbind].
  - destruct Hr as [-> Hs']. cbn [rbind]. by destruct (leaf v).
  - by rewrite Hr.
Qed.

Lemma agrees_pure b paths values (r : result bool) : slots_ok b paths values →
  agrees b paths (rmap (λ r, (r, values)) r) r.
Proof. by destruct r. Qed.

Lemma agrees_bind b paths r ref k kref :
  agrees b paths r ref →
  (∀ v values, slots_ok b paths values → agrees b paths (k (v, values)) (kref v)) →
  agrees b paths (rbind r k) (rbind ref kref).
Proof. destruct r as [[v vs]|]; simpl; [intros [-> ?]|intros ->]; simpl; auto. Qed.

Lemma any_item_ext t1 t2 items : (∀ b, t1 b = t2 b) → any_item t1 items = any_item t2 items.
Proof.
  intros Ht. induction items as [|v l IH]; simpl; [done|]. destruct (json_bytes v); simpl; [|done].
  rewrite Ht, IH. done.
Qed.

Lemma row_matches_agrees e : ∀ b paths values, slots_ok b paths values →
  agrees b paths (row_matches b paths values e) (matches_uncached b e).
Proof.
  induction e as [p op l|p op|x IHx y IHy|x IHx y IHy|x IHx|p inner IH| |why];
    intros b paths values Hs; cbn [row_matches matches_uncached].
  - destruct (traverse _ l) as [l'|]; cbn [rbind]; [|done].
    case_match; [by apply agrees_pure|by apply agrees_leaf].
  - case_match; [by apply agrees_pure|by apply agrees_leaf].
  - apply agrees_bind; [by apply IHx|]. intros [] vs Hvs; [by apply IHy|done].
  - apply agrees_bind; [by apply IHx|]. intros [] vs Hvs; [done|by apply IHy].
  - specialize (IHx b paths values Hs). destruct (row_matches b paths values x) as [[r vs]|]; simpl.
    + destruct IHx as [-> ?]. done.
    + by rewrite IHx.
  - pose proof (row_value_ok _ _ _ p Hs) as Hr.
    destruct (row_value b paths values p) as [[v vs]|]; cbn [rbind]; [|by rewrite Hr].
    destruct Hr as [-> Hs']. cbn [rbind]. destruct v; try done.
    rewrite (any_item_ext _ (λ item, matches_uncached item inner)); [by apply agrees_pure|].
    intros item. apply (agrees_fst item []), IH. by split.
  - done.
  - done.
Qed.

(** ** Quantifiers *)

Lemma quantifiers_insert i s n l :
  list_find (λ s, is_quantifier s = true) l = Some (i, s) →
  quantifiers l = S (quantifiers (<[i := Index n]> l)).
Proof.
  unfold quantifiers. revert i. induction l as [|a l IH]; intros i; simpl; [done|].
  destruct (decide (is_quantifier a = true)) as [Ha|Ha].
  - intros [= <- <-]. simpl. rewrite !filter_cons, decide_True, decide_False by done. done.
  - destruct (list_find _ l) as [[j t]|] eqn:E; [|done]. intros [= <- <-].
    simpl. rewrite !filter_cons, !decide_False by done. by apply IH.
Qed.

Lemma quantify_ext all t1 t2 n count : (∀ n, t1 n = t2 n) → quantify all t1 n count = quantify all t2 n count.
Proof.
  intros Ht. revert n. induction count as [|c IH]; intros n; simpl; [done|]. rewrite Ht. by destruct (t2 n); simpl; rewrite ?IH.
Qed.

(** The recursive equation of [quantified], free of fuel. *)
Lemma quantified_unfold b p leaf :
  quantified b p leaf =
    match list_find (λ s, is_quantifier s = true) (p_steps p) with
    | Some (i, s) =>
        let? v := extract b (take i (p_steps p)) in
        match v with
        | VArray items =>
            quantify (bool_decide (s = All)) (λ n, quantified b
               (with_steps p (<[i := Index (N.of_nat n)]> (p_steps p))) leaf) 0 (length items)
        | _ => Ok false
        end
    | None => let? v := path_value b p in leaf v
    end.
Proof.
  unfold quantified. destruct (list_find _ (p_steps p)) as [[i s]|] eqn:E.
  - rewrite (quantifiers_insert i s 0) by done. simpl. rewrite E.
    destruct (extract b _) as [v|]; simpl; [|done]. destruct v; try done.
    apply quantify_ext. intros n. cbn [p_steps with_steps]. f_equal.
    pose proof (quantifiers_insert i s 0 _ E). pose proof (quantifiers_insert i s (N.of_nat n) _ E). lia.
  - destruct (quantifiers (p_steps p)); simpl; by rewrite E.
Qed.

(** The loop of [quantified] over values that all evaluate. *)
Lemma quantify_ok all (test : nat → result bool) (f : nat → bool) n count :
  (∀ i, (n <= i < n + count)%nat → test i = Ok (f i)) →
  quantify all test n count =
    Ok (if all then forallb f (seq n count) else existsb f (seq n count)).
Proof.
  revert n. induction count as [|c IH]; intros n Hf; simpl; [by destruct all|].
  rewrite Hf by lia. simpl. rewrite IH by (intros; apply Hf; lia).
  destruct all, (f n); simpl; done.
Qed.

(** ** Comparison *)

(** Where the ordered form exists, the equality form is the same bytes. *)
Lemma append_equality v : ∀ x, append false v = Ok x → append true v = Ok x.
Proof.
  induction v as [| |c|t|t|s|l Hl|o Ho] using Value_ind'; intros x; try done.
  rewrite !append_array. intros E. apply rbind_ok in E as (out & E & <-).
  assert (append_all true l = Ok out) as ->; [|done]. revert out E.
  induction Hl as [|v l Hv Hl IH]; intros out; [done|]. cbn [append_all]. intros E.
  apply rbind_ok in E as (a & Ea & E). apply rbind_ok in E as (r & Er & <-).
  by rewrite (Hv _ Ea), (IH _ Er).
Qed.

Context `{!TextLibOk}.

(** Values that can be ordered: not null or missing, and without objects inside. *)
Definition orderable (v : Value) : Prop :=
  value_wf v = true ∧ is_empty v = false ∧ is_ok (OrderedCodec.encode v) = true.

Lemma compare_spec a b : orderable a → orderable b →
  compare a b = Ok (if (discriminant a =? discriminant b)%N then Some (value_cmp a b) else None).
Proof.
  intros (Wa & Na & Ea) (Wb & Nb & Eb). unfold compare. rewrite Na, Nb, !orb_false_r.
  destruct (discriminant a =? discriminant b)%N; simpl; [|done].
  destruct (OrderedCodec.encode a) as [x|] eqn:Ex; [|done].
  destruct (OrderedCodec.encode b) as [y|] eqn:Ey; [|done].
  unfold encode_equality. rewrite (append_equality _ _ Ex), (append_equality _ _ Ey). simpl.
  do 2 f_equal. rewrite <-(app_nil_r x), <-(app_nil_r y).
  rewrite (append_embeds a b x y [] []) by done. by destruct (value_cmp a b).
Qed.

(** What each ordering operator means. *)
Definition holds (op : Compare) (c : comparison) : bool :=
  match op, c with
  | CEq, Eq | CGt, Gt | CLt, Lt => true
  | CNe, (Lt | Gt) | CGe, (Eq | Gt) | CLe, (Eq | Lt) => true
  | _, _ => false
  end.
End eval_spec.

(** ** Properties *)

(** C35: evaluating a predicate with the value cache of any list of paths gives the
    same answer, or the same error, as extracting every path where it is used. *)
Theorem row_cache_invisible `{TextLib} b paths e :
  row_evaluation b paths e = matches_uncached b e ∧ matches b e = matches_uncached b e.
Proof.
  unfold matches, row_evaluation.
  split; [apply (agrees_fst b paths)|apply (agrees_fst b [])]; apply row_matches_agrees, slots_ok_fresh.
Qed.

(** A comparison of two orderable values of one kind decides the reference order
    of values, for each of the six operators; values of different kinds never match. *)
Lemma scalar_decides_order `{TextLibOk} v x op :
  orderable v → orderable x → op ∈ [CEq; CNe; CGt; CGe; CLt; CLe] →
  scalar v op [x] =
    Ok (if (discriminant v =? discriminant x)%N then holds op (value_cmp v x) else false).
Proof.
  intros Hv Hx Hop. unfold scalar. rewrite compare_spec by done. cbn [rbind].
  destruct Hv as (_ & _ & Ev), Hx as (_ & _ & Ex).
  destruct (OrderedCodec.encode v) as [ev|] eqn:E1; [|done].
  destruct (OrderedCodec.encode x) as [ex|] eqn:E2; [|done]. clear Ev Ex.
  repeat (apply elem_of_cons in Hop as [->|Hop]); [..|by apply elem_of_nil in Hop];
    destruct (discriminant v =? discriminant x)%N; simpl; rewrite ?E2; simpl; try done;
    by destruct (value_cmp v x).
Qed.

Lemma scalar_decides_order_example :
  let T := PlainText.plain_text in
  scalar (Number (lit "10")) CGe [Number (lit "1e1")] = Ok true.
Proof.
  intros T.
  refine (scalar_decides_order (H0 := PlainText.plain_text_ok) (Number (lit "10")) (Number (lit "1e1")) CGe _ _ _);
    [split; [|split]; vm_compute; reflexivity | split; [|split]; vm_compute; reflexivity |].
  do 3 apply list_elem_of_further. apply list_elem_of_here.
Defined.

(** A path with a quantifier matches as its elements do: [Any] when one
    element's path matches and [All] when every one does, whatever quantifiers follow;
    no element's evaluation is cut short. *)
Lemma quantified_elements `{TextLib} b p leaf i s items f :
  list_find (λ s, is_quantifier s = true) (p_steps p) = Some (i, s) →
  extract b (take i (p_steps p)) = Ok (VArray items) →
  (∀ n, (n < length items)%nat →
     quantified b (with_steps p (<[i := Index (N.of_nat n)]> (p_steps p))) leaf = Ok (f n)) →
  quantified b p leaf =
    Ok (if decide (s = All) then forallb f (seq 0 (length items)) else existsb f (seq 0 (length items))).
Proof.
  intros Ef Ex Ht. rewrite quantified_unfold, Ef, Ex. cbn [rbind].
  rewrite (quantify_ok _ _ f) by (intros n ?; apply Ht; lia).
  f_equal. case_bool_decide; by case_decide.
Qed.

(** A reader that knows one text. *)
Definition one_text (j : json) : TextLib := {|
  json_read _ := Some j; raw_token _ := None; to_lowercase s := s; is_alphanumeric _ := true;
  levenshtein _ _ := 0%N; json_string s := s; parse_rfc3339 _ := None; parse_date _ := None;
  parse_naive_t _ := None; parse_naive_space _ := None |}.
