(* ===== verification/Trigram.v ===== *)
(** * Posting blocks ([indexes/trigram.rs], with the varints of [indexes/worker.rs])

    An index of terms (trigrams, or the parts of a protected value) numbers its terms and
    its rows, and keeps for each term the ascending numbers of the rows that have it, cut
    into blocks: the key of a block is the term's number and the first row, its value the
    differences to the following rows as varints.  [Tri] is the five tables of one index
    generation.  The counters a row keeps for the sampler ([RowStats], from
    [indexes/statistics.rs]) travel with it.  Numbers are [N]; a [u64] or [u32] overflow
    is checked where the source checks it. *)
From S2P Require Import Prelude Order Redb Fields OrderedCodec.
Local Open Scope N_scope.

Definition BLOCK_MAX : N := 384.

Definition corrupt {A} : result A := Err (Validation (lit "corrupt trigram index")).

(** ** Varints *)

(** A [u64] has at most ten groups of seven bits. *)
Fixpoint put_groups (fuel : nat) (v : N) : bytes :=
  match fuel with
  | O => [byte_of_N v]
  | S fuel' => if 128 <=? v then byte_of_N (N.lor (v mod 256) 128) :: put_groups fuel' (N.shiftr v 7) else [byte_of_N v]
  end.
Definition put_varint (v : N) : bytes := put_groups 9 v.

Fixpoint get_groups (v shift : N) (b : bytes) : result (N * bytes) :=
  match b with
  | [] => Err (Validation (lit "truncated reverse row"))
  | x :: rest =>
      let v := N.lor v (N.shiftl (N.land (byte_to_N x) 127) shift mod U64) in
      if N.land (byte_to_N x) 128 =? 0 then Ok (v, rest)
      else if 63 <? shift + 7 then Err (Validation (lit "corrupt reverse row")) else get_groups v (shift + 7) rest
  end.
Definition get_varint (b : bytes) : result (N * bytes) := get_groups 0 0 b.

Fixpoint varint_len_from (fuel : nat) (v : N) : N :=
  match fuel with
  | O => 1
  | S fuel' => if 128 <=? v then 1 + varint_len_from fuel' (N.shiftr v 7) else 1
  end.
Definition varint_len (v : N) : N := varint_len_from 9 v.

(** ** Blocks *)

Definition post_key (tri first : N) : bytes := be_bytes 4 tri ++ be_bytes 8 first.

(** The following rows of a block; every turn takes at least one byte. *)
Fixpoint decode_rows (fuel : nat) (last : N) (b : bytes) : result (list N) :=
  match b, fuel with
  | [], _ => Ok []
  | _, O => Err FuelExhausted
  | _, S fuel' =>
      let? '(delta, rest) := get_varint b in
      if last + delta <? U64 then rmap (cons (last + delta)) (decode_rows fuel' (last + delta) rest) else corrupt
  end.
Definition decode_block (key value : bytes) : result (list N) :=
  if negb (bool_decide (length key = 12%nat)) then corrupt
  else let first := of_be (drop 4 key) in rmap (cons first) (decode_rows (length value) first value).

(** [blocks]: the inner loop fills one block with ascending rows, the outer one goes on
    with the rest. *)
Fixpoint fill_block (prev : N) (value : bytes) (ids : list N) : bytes * list N :=
  match ids with
  | [] => (value, [])
  | id :: ids' =>
      let delta := id - prev in
      if BLOCK_MAX <? len value + varint_len delta then (value, ids) else fill_block id (value ++ put_varint delta) ids'
  end.
Fixpoint blocks (fuel : nat) (ids : list N) : list (N * bytes) :=
  match ids, fuel with
  | [], _ | _, O => []
  | first :: ids', S fuel' => let '(value, rest) := fill_block first [] ids' in (first, value) :: blocks fuel' rest
  end.

(** [slice::binary_search] on ascending numbers: where it is, or where it belongs. *)
Fixpoint binary_search (l : list N) (x : N) : bool * nat :=
  match l with
  | [] => (false, O)
  | y :: l' => match N.compare y x with
               | Lt => let '(found, i) := binary_search l' x in (found, S i)
               | Eq => (true, O)
               | Gt => (false, O)
               end
  end.

Section postings.
Context `{Redb}.

Definition block_at_or_before (t : table bytes bytes) (tri row : N) : option (bytes * bytes) :=
  last (t_range t (post_key tri 0) (post_key tri row)).

Definition put_blocks (t : table bytes bytes) (tri : N) (ids : list N) : table bytes bytes :=
  fold_left (λ t p, t_insert t (post_key tri p.1) p.2) (blocks (length ids) ids) t.

Definition add_posting (t : table bytes bytes) (tri row : N) : result (table bytes bytes) :=
  match block_at_or_before t tri row with
  | Some (k, v) =>
      let? ids := decode_block k v in
      let '(found, i) := binary_search ids row in
      if found then Ok t else Ok (put_blocks t tri (take i ids ++ row :: drop i ids))
  | None =>
      match head (t_range t (post_key tri row) (post_key tri (U64 - 1))) with
      | Some (k, v) => let? ids := decode_block k v in Ok (put_blocks (t_remove t k) tri (row :: ids))
      | None => Ok (put_blocks t tri [row])
      end
  end.

Definition remove_posting (t : table bytes bytes) (tri row : N) : result (table bytes bytes) :=
  match block_at_or_before t tri row with
  | None => Ok t
  | Some (k, v) =>
      let? ids := decode_block k v in
      let '(found, i) := binary_search ids row in
      if found then
        let t := if bool_decide (i = O) then t_remove t k else t in
        Ok (put_blocks t tri (take i ids ++ drop (S i) ids))
      else Ok t
  end.
End postings.

(** ** Rows *)

(** [RowStats]; its [key] is the row's, which the operations have at hand. *)
Record RowStats := {
  st_missing : N; st_nulls : N; st_fanout : N; st_json_bytes : N; st_key_bytes : N; st_values : list bytes;
  st_unorderable : N;
}.

Record TriRecord := { tr_id : N; tr_tris : list N; tr_flags : N; tr_fanout : N; tr_json : N }.

Definition bit (n : N) : N := if 0 <? n then 1 else 0.
Definition new_tri_record (id : N) (tris : list N) (s : RowStats) : TriRecord :=
  {| tr_id := id; tr_tris := tris;
     tr_flags := N.lor (bit (st_missing s)) (N.lor (N.shiftl (bit (st_nulls s)) 1) (N.shiftl (bit (st_unorderable s)) 2));
     tr_fanout := st_fanout s; tr_json := st_json_bytes s |}.

Definition record_stats (r : TriRecord) (row : str) : RowStats :=
  {| st_missing := N.land (tr_flags r) 1; st_nulls := N.land (N.shiftr (tr_flags r) 1) 1; st_fanout := tr_fanout r;
     st_json_bytes := tr_json r; st_key_bytes := len row; st_values := [];
     st_unorderable := N.land (N.shiftr (tr_flags r) 2) 1 |}.

(** The first number as it is, the others as differences. *)
Fixpoint put_deltas (prev : N) (l : list N) : bytes :=
  match l with [] => [] | t :: l' => put_varint (t - prev) ++ put_deltas t l' end.
Definition encode_tri_record (r : TriRecord) : bytes :=
  byte_of_N 3 :: put_varint (tr_id r) ++ byte_of_N (tr_flags r) :: put_varint (tr_fanout r) ++ put_varint (tr_json r)
    ++ put_varint (len (tr_tris r)) ++ put_deltas 0 (tr_tris r).

Fixpoint get_deltas (n : nat) (prev : N) (b : bytes) : result (list N) :=
  match n with
  | O => Ok []
  | S n' =>
      let? '(d, b) := get_varint b in
      if negb (d <? U32) then corrupt
      else if prev + d <? U32 then rmap (cons (prev + d)) (get_deltas n' (prev + d) b) else corrupt
  end.
(** Each number takes a byte or more, so a count above the bytes left runs into their
    end; one turn more than there are bytes is enough. *)
Definition decode_tri_record (b : bytes) : result TriRecord :=
  match b with
  | x :: b =>
      if negb (byte_to_N x =? 3) then corrupt else
      let? '(id, b) := get_varint b in
      match b with
      | [] => corrupt
      | flags :: b =>
          let? '(fanout, b) := get_varint b in
          let? '(json, b) := get_varint b in
          let? '(n, b) := get_varint b in
          let? tris := get_deltas (N.to_nat (N.min n (len b + 1))) 0 b in
          Ok {| tr_id := id; tr_tris := tris; tr_flags := byte_to_N flags; tr_fanout := fanout; tr_json := json |}
      end
  | [] => corrupt
  end.

Section tri.
Context `{Redb}.

(** The tables of one index generation. *)
Record Tri := {
  t_posts : table bytes bytes; t_reverse : table str bytes; t_dict : table str N; t_ids : table N str; t_counters : table str N;
}.

(** [create]. *)
Definition tri_new : Tri := {| t_posts := t_new; t_reverse := t_new; t_dict := t_new; t_ids := t_new; t_counters := t_new |}.

(** The numbers of the terms, handing out new ones. *)
Fixpoint number_terms (dict : table str N) (next : N) (grams : list str) : result (list N * table str N * N) :=
  match grams with
  | [] => Ok ([], dict, next)
  | g :: grams' =>
      match t_get dict g with
      | Some t => let? '(ts, dict, next) := number_terms dict next grams' in Ok (t :: ts, dict, next)
      | None =>
          if next <? U32 then
            let? '(ts, dict, next') := number_terms (t_insert dict g next) (next + 1) grams' in Ok (next :: ts, dict, next')
          else corrupt
      end
  end.

(** [sort_unstable] of numbers. *)
Fixpoint insert_sorted (x : N) (l : list N) : list N :=
  match l with [] => [x] | y :: l' => if x <=? y then x :: l else y :: insert_sorted x l' end.
Definition sort_numbers (l : list N) : list N := foldr insert_sorted [] l.

Definition each (f : table bytes bytes → N → result (table bytes bytes)) (l : list N) (t : table bytes bytes)
    : result (table bytes bytes) := try_fold f t l.

(** The numbers of [l] that are not in [other]. *)
Definition missing_from (other l : list N) : list N := filter (λ t, (binary_search other t).1 = false) l.

Definition counter (t : Tri) (name : str) : N := default 0 (t_get (t_counters t) name).
Definition old_record (t : Tri) (row : str) : result (option TriRecord) :=
  match t_get (t_reverse t) row with Some v => rmap Some (decode_tri_record v) | None => Ok None end.

(** [write]: replace one row's terms ([grams] ascending and distinct). *)
Definition tri_write (row : str) (grams : list str) (new : RowStats) (t : Tri) : result (option RowStats * Tri) :=
  let? old := old_record t row in
  let next_row := counter t (lit "row") in
  let next_tri := counter t (lit "tri") in
  let '(id, ids, row_n) := match old with
                           | Some o => (tr_id o, t_ids t, next_row)
                           | None => (next_row, t_insert (t_ids t) next_row row, next_row + 1)
                           end in
  let? '(tris, dict, tri_n) := number_terms (t_dict t) next_tri grams in
  let tris := sort_numbers tris in
  let before := match old with Some o => tr_tris o | None => [] end in
  let? posts := each (λ p x, remove_posting p x id) (missing_from tris before) (t_posts t) in
  let? posts := each (λ p x, add_posting p x id) (missing_from before tris) posts in
  let counters := if row_n =? next_row then t_counters t else t_insert (t_counters t) (lit "row") row_n in
  let counters := if tri_n =? next_tri then counters else t_insert counters (lit "tri") tri_n in
  Ok ((λ o, record_stats o row) <$> old,
      {| t_posts := posts; t_reverse := t_insert (t_reverse t) row (encode_tri_record (new_tri_record id tris new));
         t_dict := dict; t_ids := ids; t_counters := counters |}).

Definition tri_remove (row : str) (t : Tri) : result (option RowStats * Tri) :=
  let? old := old_record t row in
  match old with
  | None => Ok (None, t)
  | Some o =>
      let? posts := each (λ p x, remove_posting p x (tr_id o)) (tr_tris o) (t_posts t) in
      Ok (Some (record_stats o row),
          {| t_posts := posts; t_reverse := t_remove (t_reverse t) row; t_dict := t_dict t;
             t_ids := t_remove (t_ids t) (tr_id o); t_counters := t_counters t |})
  end.

(** [read]: the rows of a term, in order; [names]: their keys. *)
Definition tri_read (gram : str) (t : Tri) : result (list N) :=
  match t_get (t_dict t) gram with
  | None => Ok []
  | Some tri => rmap (@concat N) (traverse (λ p, decode_block p.1 p.2) (t_range (t_posts t) (post_key tri 0) (post_key tri (U64 - 1))))
  end.
Definition tri_names (numbers : list N) (t : Tri) : list str := omap (t_get (t_ids t)) numbers.
End tri.
