(* ===== verification/Index.v ===== *)
(** * Index definitions and the rows of an index ([indexes/format.rs], [indexes/worker.rs])

    An index definition names a table, the paths it reads and what it keeps of them
    ([Kind]).  Each row of the table has its entries in the index (key to row), its record
    in the reverse map (row to the keys it has), and, in an index of tokens, its part in
    the counts of terms from which the dictionary is built; an index of postings keeps
    its rows as in [Trigram].  [Tables] is what one generation of one index has in the index
    file.  The fields of a manifest that only the maintenance of indexes reads (times,
    sizes, reasons) are left out. *)
From S2P Require Import Prelude Order Redb Memory Fields OrderedCodec Eval Trigram.
Local Open Scope N_scope.

(** ** Definitions *)

Inductive Kind := KValue | KToken | KTrigram | KLastWrite | KParts.
#[global] Instance Kind_eq_dec : EqDecision Kind.
Proof. solve_decision. Defined.

(** Whether the index is kept as posting blocks of row numbers. *)
Definition postings (k : Kind) : bool := match k with KTrigram | KParts => true | _ => false end.

Inductive Direction := Asc | Desc.
#[global] Instance Direction_eq_dec : EqDecision Direction.
Proof. solve_decision. Defined.

(** [Definition] of format.rs. *)
Record IndexDef := { d_table : str; d_paths : list Path; d_kind : Kind; d_directions : list Direction }.
#[global] Instance IndexDef_eq_dec : EqDecision IndexDef.
Proof. solve_decision. Defined.

Inductive IndexState := Active | Idle | Abandoned | Merged.
#[global] Instance IndexState_eq_dec : EqDecision IndexState.
Proof. solve_decision. Defined.

Record Manifest := {
  m_id : N; m_definition : IndexDef; m_generation : N; m_ready : bool; m_state : IndexState; m_orderable : bool;
}.

(** [end] of planner.rs and ordered.rs: the smallest bytes above everything that begins
    with [p]. *)
Definition bump (b : byte) : byte := byte_of_N (byte_to_N b + 1).

Fixpoint upto (p : bytes) : option bytes :=
  match p with
  | [] => None
  | b :: p' => match upto p' with
               | Some q => Some (b :: q)
               | None => if byte_to_N b =? 255 then None else Some [bump b]
               end
  end.

(** A [BTreeSet] collected from a list. *)
Definition btree_set (l : list bytes) : list bytes := foldr bset_insert [] l.

Record Reverse := { r_keys : list bytes; r_terms : list str; r_stats : option RowStats }.

(** serde_json's reading of a row of the reverse map in its older format. *)
Class ReverseJson := reverse_json : bytes → result Reverse.

Section index.
Context `{TextLib}.

(** ** Keys *)

Definition entry_key (value : Value) (row : str) : result bytes :=
  let? key := encode_equality value in
  let? suffix := OrderedCodec.encode (VString row) in
  Ok (key ++ suffix).

(** The parts of a compound key: a descending one has its bytes inverted. *)
Fixpoint compound_parts (directions : list Direction) (values : list Value) : result bytes :=
  match values with
  | [] => Ok []
  | value :: values' =>
      let? part := encode_equality value in
      let part := if bool_decide (head directions = Some Desc) then flip <$> part else part in
      let? rest := compound_parts (tail directions) values' in
      Ok (part ++ rest)
  end.

Definition definition_key (d : IndexDef) (value : Value) (row : str) : result bytes :=
  if (length (d_paths d) <=? 1)%nat then entry_key value row
  else match value with
       | VArray values =>
           let? parts := compound_parts (d_directions d) values in
           let? suffix := OrderedCodec.encode (VString row) in
           Ok (byte_of_N 8 :: parts ++ Byte.x00 :: suffix)
       | _ => Err (Validation (lit "invalid compound index value"))
       end.

(** ** What a row has under a path *)

(** [s.chars().windows(3)], each as a string. *)
Fixpoint windows3 (cs : list N) : list str :=
  match cs with
  | a :: cs' => match cs' with b :: c :: _ => of_chars [a; b; c] :: windows3 cs' | _ => [] end
  | [] => []
  end.
Definition trigrams (s : str) : list str := btree_set (windows3 (chars s)).

(** Every [Any] of the path is expanded; one turn per [Any]. *)
Fixpoint path_values_fuel (fuel : nat) (b : bytes) (p : Path) : result (list Value) :=
  match list_find (λ s, s = Any) (p_steps p) with
  | Some (i, _) =>
      match fuel with
      | O => Err FuelExhausted
      | S fuel' =>
          let? v := extract b (take i (p_steps p)) in
          match v with
          | VArray items =>
              rmap (@concat Value) (traverse (λ n, path_values_fuel fuel' b
                  (with_steps p (<[i := Index (N.of_nat n)]> (p_steps p)))) (seq 0 (length items)))
          | _ => Ok []
          end
      end
  | None => let? v := path_value b p in Ok [v]
  end.
Definition path_values (b : bytes) (p : Path) : result (list Value) :=
  path_values_fuel (length (filter (λ s, s = Any) (p_steps p))) b p.

(** [RowStats::new]: the sample is dropped when it has more than 4096 bytes. *)
Fixpoint sample (used : N) (encoded : list bytes) (values : list Value) : result (list bytes) :=
  match values with
  | [] => Ok encoded
  | v :: values' =>
      let? b := encode_equality v in
      if (4096 <? len b) || (4096 <? used + len b) then Ok [] else sample (used + len b) (encoded ++ [b]) values'
  end.
Definition flag (b : bool) : N := if b then 1 else 0.
Definition unorderable (v : Value) : bool := negb (is_ok (OrderedCodec.encode v)).
Definition row_stats (row : str) (json : N) (values : list Value) : result RowStats :=
  let? encoded := sample 0 [] values in
  Ok {| st_missing := flag (existsb is_missing values); st_nulls := flag (existsb is_null values); st_fanout := len values;
        st_json_bytes := json; st_key_bytes := len row; st_values := encoded; st_unorderable := flag (existsb unorderable values) |}.

Section rows.
Context `{Allocator}.

(** The terms of the text values, in the order they are met. *)
Fixpoint text_terms (cut : str → list str) (values : list Value) : result (list str) :=
  match values with
  | [] => Ok []
  | VString s :: values' =>
      check? probe (lit "index.row_terms") (saturating_mul (len s) 48) in
      let? rest := text_terms cut values' in Ok (cut s ++ rest)
  | _ :: values' => text_terms cut values'
  end.

(** [trigram_inputs]. *)
Definition trigram_inputs (d : IndexDef) (row : str) (b : bytes) : result (list str * RowStats) :=
  let? values := match d_paths d with p :: _ => path_values b p | [] => Ok [] end in
  let? stats := row_stats row (len b) values in
  let? grams := text_terms (if bool_decide (d_kind d = KParts) then tokens else trigrams) values in
  Ok (btree_set grams, stats).

(** The values [write_row_core] samples, and those it makes keys of. *)
Definition sampled_values (d : IndexDef) (b : bytes) (seq : N) : result (list Value) :=
  if bool_decide (d_kind d = KLastWrite) then Ok [Number (dec seq)]
  else match d_paths d with p :: _ => path_values b p | [] => Ok [] end.

Definition tuple_value (b : bytes) (p : Path) : result Value :=
  if existsb is_quantifier (p_steps p) then Err (Validation (lit "compound multikey requires a single expansion path"))
  else path_value b p.

Definition key_values (d : IndexDef) (b : bytes) (sampled : list Value) : result (list Value) :=
  if bool_decide (d_kind d = KLastWrite) then Ok sampled
  else if (length (d_paths d) =? 1)%nat then
    match d_kind d with
    | KToken => rmap (fmap VString) (text_terms tokens sampled)
    | KTrigram => rmap (fmap VString) (text_terms trigrams sampled)
    | _ => Ok sampled
    end
  else rmap (λ tuple, [VArray tuple]) (traverse (tuple_value b) (d_paths d)).
End rows.

(** ** The reverse map *)

Definition ends_with (k suffix : bytes) : bool := bool_decide (drop (length k - length suffix) k = suffix).

Definition put_bytes (b : bytes) : bytes := put_varint (len b) ++ b.
Definition get_bytes (b : bytes) : result (bytes * bytes) :=
  let? '(n, b) := get_varint b in
  if len b <? n then Err (Validation (lit "truncated reverse row")) else Ok (take (N.to_nat n) b, drop (N.to_nat n) b).

Definition put_key (suffix k : bytes) : bytes :=
  let own := ends_with k suffix in
  byte_of_N (flag own) :: put_bytes (if own then take (length k - length suffix) k else k).
Definition put_stats (s : option RowStats) : bytes :=
  match s with
  | Some s => Byte.x01 :: ([st_missing s; st_nulls s; st_fanout s; st_json_bytes s; st_key_bytes s; st_unorderable s] ≫= put_varint)
  | None => [Byte.x00]
  end.
Definition encode_reverse (row : str) (r : Reverse) : result bytes :=
  let? suffix := OrderedCodec.encode (VString row) in
  Ok (byte_of_N 2 :: put_varint (len (r_keys r)) ++ (r_keys r ≫= put_key suffix)
      ++ put_varint (len (r_terms r)) ++ (r_terms r ≫= put_bytes) ++ put_stats (r_stats r)).

(** A [for _ in 0..n] loop that reads from [b].  What it reads has a byte or more, so a
    count above the bytes left ends in an error at most one turn after them. *)
Fixpoint get_times {A} (get : bytes → result (A * bytes)) (n : nat) (b : bytes) : result (list A * bytes) :=
  match n with
  | O => Ok ([], b)
  | S n' => let? '(a, b) := get b in let? '(l, b) := get_times get n' b in Ok (a :: l, b)
  end.
Definition get_many {A} (get : bytes → result (A * bytes)) (n : N) (b : bytes) : result (list A * bytes) :=
  get_times get (N.to_nat (N.min n (len b + 1))) b.

Definition get_key (suffix b : bytes) : result (bytes * bytes) :=
  match b with
  | [] => Err (Validation (lit "truncated reverse row"))
  | own :: b =>
      let? '(k, b) := get_bytes b in
      Ok (if byte_to_N own =? 1 then k ++ suffix else k, b)
  end.
Definition get_term (b : bytes) : result (str * bytes) :=
  let? '(t, b) := get_bytes b in
  if utf8_valid t then Ok (t, b) else Err (Validation (lit "corrupt reverse row")).
Definition get_stats (row : str) (b : bytes) : result (option RowStats) :=
  match b with
  | x :: b =>
      if byte_to_N x =? 1 then
        let? '(missing, b) := get_varint b in
        let? '(nulls, b) := get_varint b in
        let? '(fanout, b) := get_varint b in
        let? '(json, b) := get_varint b in
        let? '(key, b) := get_varint b in
        let? '(unord, b) := get_varint b in
        Ok (Some {| st_missing := missing; st_nulls := nulls; st_fanout := fanout; st_json_bytes := json;
                    st_key_bytes := key; st_values := []; st_unorderable := unord |})
      else Ok None
  | [] => Ok None
  end.
Definition decode_reverse `{ReverseJson} (row : str) (b : bytes) : result Reverse :=
  match b with
  | x :: body =>
      if byte_to_N x =? 2 then
        let? suffix := OrderedCodec.encode (VString row) in
        let? '(n, b) := get_varint body in
        let? '(keys, b) := get_many (get_key suffix) n b in
        let? '(t, b) := get_varint b in
        let? '(terms, b) := get_many get_term t b in
        let? stats := get_stats row b in
        Ok {| r_keys := keys; r_terms := terms; r_stats := stats |}
      else reverse_json b
  | [] => reverse_json b
  end.
End index.

(** ** The tables of one index generation *)

Section tables.
Context `{Redb} `{TextLib} `{Allocator} `{ReverseJson}.

(** [create_tables]: the entries and the reverse map, the counts of terms and the
    dictionary of an index of tokens ([None] until it is built), or the tables of
    postings. *)
Record Tables := {
  x_entries : table bytes str; x_reverse : table str bytes; x_terms : table str N; x_fst : option (list str); x_tri : Tri;
}.
Definition create_tables : Tables :=
  {| x_entries := t_new; x_reverse := t_new; x_terms := t_new; x_fst := None; x_tri := tri_new |}.

Definition set_tri (tri : Tri) (t : Tables) : Tables :=
  {| x_entries := x_entries t; x_reverse := x_reverse t; x_terms := x_terms t; x_fst := x_fst t; x_tri := tri |}.

Definition count_up (terms : table str N) (term : str) : table str N :=
  t_insert terms term (default 0 (t_get terms term) + 1).
Definition count_down (terms : table str N) (term : str) : table str N :=
  let count := default 0 (t_get terms term) in
  if count <=? 1 then t_remove terms term else t_insert terms term (count - 1).

Definition remove_row (d : IndexDef) (row : str) (t : Tables) : result (option RowStats * Tables) :=
  if postings (d_kind d) then
    let? '(old, tri) := tri_remove row (x_tri t) in Ok (old, set_tri tri t)
  else
    match t_get (x_reverse t) row with
    | None => Ok (None, t)
    | Some old =>
        let? old := decode_reverse row old in
        Ok (r_stats old,
            {| x_entries := fold_left t_remove (r_keys old) (x_entries t); x_reverse := t_remove (x_reverse t) row;
               x_terms := if bool_decide (d_kind d = KToken) then fold_left count_down (r_terms old) (x_terms t) else x_terms t;
               x_fst := x_fst t; x_tri := x_tri t |})
    end.

Record RowDelta := { old_stats : option RowStats; new_stats : RowStats }.

Definition string_of (v : Value) : option str := match v with VString s => Some s | _ => None end.

(** [write_row_core].  [pending] holds the entries of a build until [insert_run]; [fresh]
    says that the row cannot have an entry yet. *)
Definition write_row_core (d : IndexDef) (row : str) (b : bytes) (seq : N) (pending : option (list (bytes * str)))
    (fresh : bool) (t : Tables) : result (RowDelta * option (list (bytes * str)) * Tables) :=
  if postings (d_kind d) then
    let? '(grams, stats) := trigram_inputs d row b in
    let? '(old, tri) := tri_write row grams stats (x_tri t) in
    Ok ({| old_stats := old; new_stats := stats |}, pending, set_tri tri t)
  else
    let? '(old, t) := if fresh then Ok (None, t) else remove_row d row t in
    let? sampled := sampled_values d b seq in
    let? stats := row_stats row (len b) sampled in
    let? values := key_values d b sampled in
    let stats := if (1 <? length (d_paths d))%nat
                 then {| st_missing := st_missing stats; st_nulls := st_nulls stats; st_fanout := st_fanout stats;
                         st_json_bytes := st_json_bytes stats; st_key_bytes := st_key_bytes stats; st_values := st_values stats;
                         st_unorderable := flag (existsb unorderable values) |}
                 else stats in
    let terms := if bool_decide (d_kind d = KToken) then btree_set (omap string_of values) else [] in
    let? keys := traverse (λ value, definition_key d value row) values in
    let keys := btree_set keys in
    let counters := {| st_missing := st_missing stats; st_nulls := st_nulls stats; st_fanout := st_fanout stats;
                       st_json_bytes := st_json_bytes stats; st_key_bytes := st_key_bytes stats; st_values := [];
                       st_unorderable := st_unorderable stats |} in
    let? reverse := encode_reverse row {| r_keys := keys; r_terms := terms; r_stats := Some counters |} in
    let pairs := (λ key, (key, row)) <$> keys in
    Ok ({| old_stats := old; new_stats := stats |},
        (λ held, held ++ pairs) <$> pending,
        {| x_entries := match pending with
                        | Some _ => x_entries t
                        | None => fold_left (λ e p, t_insert e p.1 p.2) pairs (x_entries t)
                        end;
           x_reverse := t_insert (x_reverse t) row reverse; x_terms := fold_left count_up terms (x_terms t);
           x_fst := x_fst t; x_tri := x_tri t |}).

(** [write_row]: at once, over what the row has. *)
Definition write_row (d : IndexDef) (row : str) (b : bytes) (seq : N) (t : Tables) : result (RowDelta * Tables) :=
  let? '(delta, _, t) := write_row_core d row b seq None false t in Ok (delta, t).

(** [refresh_dictionary]: the terms with a count, in order. *)
Definition refresh_dictionary (d : IndexDef) (t : Tables) : Tables :=
  if negb (bool_decide (d_kind d = KToken)) then t
  else {| x_entries := x_entries t; x_reverse := x_reverse t; x_terms := x_terms t; x_fst := Some (fst <$> t_iter (x_terms t));
          x_tri := x_tri t |}.
End tables.
