(* ===== verification/IndexKeys.v ===== *)
(** * Keys that carry a value and a row

    An index key is the encoding of a value followed by the encoding of the row's key; a
    compound key has several parts.  The parts delimit themselves ([delim]): two keys
    compare as their first parts, and as the rest when those are equal.  [upto] bounds what
    begins with a prefix. *)
From S2P Require Import Prelude Order Fields OrderedCodec OrderedSpec Index.
Local Open Scope N_scope.

(** ** Parts that delimit themselves *)

Definition delim (x y : bytes) : Prop := ∀ r1 r2,
  list_cmp (x ++ r1) (y ++ r2) = then_cmp (list_cmp x y) (list_cmp r1 r2).

Lemma delim_head a b x y : a ≠ b → delim (a :: x) (b :: y).
Proof.
  intros Hne r1 r2. cbn [app list_cmp]. destruct (cmp a b) eqn:E; [|done..]. by apply cmp_eq in E.
Qed.

Lemma delim_cons a x y : delim x y → delim (a :: x) (a :: y).
Proof. intros D r1 r2. cbn [app list_cmp]. rewrite cmp_refl. apply D. Qed.

Lemma delim_app x y r s : delim x y → (x = y → delim r s) → delim (x ++ r) (y ++ s).
Proof.
  intros D Hr r1 r2. rewrite <-!app_assoc, !D. destruct (list_cmp x y) eqn:E; [|done..].
  apply list_cmp_eq in E. by apply Hr.
Qed.

Lemma delim_length (x y : bytes) : length x = length y → delim x y.
Proof. intros E r1 r2. rewrite list_cmp_app by done. by destruct (list_cmp x y). Qed.

Lemma delim_refl x : delim x x.
Proof. by apply delim_length. Qed.

Lemma delim_text s t : delim (text s) (text t).
Proof.
  intros r1 r2. rewrite text_cmp. rewrite <-(app_nil_r (text s)), <-(app_nil_r (text t)) at 1.
  rewrite text_cmp. by destruct (list_cmp s t).
Qed.

(** Neither of two different parts begins the other. *)
Lemma delim_prefix x y : delim x y → x `prefix_of` y → x = y.
Proof.
  intros D [r ->]. specialize (D r []). rewrite !app_nil_r in D.
  assert (E : list_cmp (x ++ r) (x ++ r) = Eq) by by apply list_cmp_eq. rewrite E in D.
  destruct (list_cmp x (x ++ r)) eqn:Ex; [|done..]. by apply list_cmp_eq in Ex.
Qed.

Lemma delim_split x y r s : delim x y → x ++ r = y ++ s → x = y ∧ r = s.
Proof.
  intros D E. specialize (D r s). rewrite E in D.
  assert (E2 : list_cmp (y ++ s) (y ++ s) = Eq) by by apply list_cmp_eq. rewrite E2 in D.
  destruct (list_cmp x y) eqn:Ex; [|done..]. apply list_cmp_eq in Ex as ->. cbn in D. symmetry in D.
  by apply list_cmp_eq in D.
Qed.

(** ** Encoded values *)

Section values.
Context `{TextLibOk}.

Lemma append_tag o a x : append o a = Ok x → ∃ x', x = byte_of_N (rank a) :: x'.
Proof.
  destruct a as [| |[]|t|t|s|l|m]; try (intros [= <-]; by eexists).
  - cbn [append]. intros E. apply rbind_ok in E as (d & _ & [= <-]). by eexists.
  - rewrite append_array. intros E. apply rbind_ok in E as (d & _ & [= <-]). by eexists.
  - cbn [append]. destruct o; [|done]. intros E. apply rbind_ok in E as (d & _ & [= <-]). by eexists.
Qed.

Fixpoint append_fields (m : list (str * Value)) : result bytes :=
  match m with
  | [] => Ok []
  | (k, v) :: m' => let? x := append true v in let? y := append_fields m' in Ok ((byte_of_N 7 :: text k) ++ x ++ y)
  end.

Lemma append_object m : append true (VObject m) = let? out := append_fields m in Ok (byte_of_N 9 :: out ++ [Byte.x00]).
Proof. done. Qed.

Definition delimits (a : Value) : Prop := ∀ b x y, append true a = Ok x → append true b = Ok y → delim x y.

Lemma tag_nonzero v : byte_of_N (rank v) ≠ Byte.x00.
Proof. by destruct v as [| |[]| | | | |]. Qed.

Lemma tag_inj a b : byte_of_N (rank a) = byte_of_N (rank b) → rank a = rank b.
Proof. by destruct a as [| |[]| | | | |], b as [| |[]| | | | |]. Qed.

Lemma delim_array l1 : Forall delimits l1 → ∀ l2 x y, append_all true l1 = Ok x → append_all true l2 = Ok y →
  delim (x ++ [Byte.x00]) (y ++ [Byte.x00]).
Proof.
  induction 1 as [|a l1 Ha _ IH]; intros [|b l2] x y Ex Ey; cbn [append_all] in Ex, Ey.
  - injection Ex as <-. injection Ey as <-. apply delim_refl.
  - injection Ex as <-. apply rbind_ok in Ey as (z & E1 & Ey). apply rbind_ok in Ey as (w & _ & [= <-]).
    apply append_tag in E1 as [z' ->]. cbn [app]. apply delim_head. intros E. symmetry in E. by apply tag_nonzero in E.
  - injection Ey as <-. apply rbind_ok in Ex as (z & E1 & Ex). apply rbind_ok in Ex as (w & _ & [= <-]).
    apply append_tag in E1 as [z' ->]. cbn [app]. apply delim_head. apply tag_nonzero.
  - apply rbind_ok in Ex as (z & E1 & Ex). apply rbind_ok in Ex as (w & E2 & [= <-]).
    apply rbind_ok in Ey as (z' & E1' & Ey). apply rbind_ok in Ey as (w' & E2' & [= <-]). rewrite <-!app_assoc.
    apply delim_app; [by eapply Ha|]. intros _. by eapply IH.
Qed.

Lemma delim_fields m1 : Forall (λ p, delimits p.2) m1 → ∀ m2 x y, append_fields m1 = Ok x → append_fields m2 = Ok y →
  delim (x ++ [Byte.x00]) (y ++ [Byte.x00]).
Proof.
  induction 1 as [|[k a] m1 Ha _ IH]; intros [|[k' b] m2] x y Ex Ey; cbn [append_fields] in Ex, Ey.
  - injection Ex as <-. injection Ey as <-. apply delim_refl.
  - injection Ex as <-. apply rbind_ok in Ey as (z & E1 & Ey). apply rbind_ok in Ey as (w & _ & [= <-]). by apply delim_head.
  - injection Ey as <-. apply rbind_ok in Ex as (z & E1 & Ex). apply rbind_ok in Ex as (w & _ & [= <-]). by apply delim_head.
  - apply rbind_ok in Ex as (z & E1 & Ex). apply rbind_ok in Ex as (w & E2 & [= <-]).
    apply rbind_ok in Ey as (z' & E1' & Ey). apply rbind_ok in Ey as (w' & E2' & [= <-]).
    rewrite <-!app_comm_cons. apply delim_cons. rewrite <-!app_assoc.
    apply delim_app; [apply delim_text|]. intros _. apply delim_app; [by eapply Ha|]. intros _. by eapply IH.
Qed.

(** The encoding for equality delimits itself, whatever the values. *)
Lemma equality_delim a : delimits a.
Proof.
  induction a as [| |c|t|t|s|l Hl|m Hm] using Value_ind'; intros b x y Ex Ey;
    match goal with |- delim _ _ => idtac end;
    (destruct (append_tag _ _ _ Ex) as [x' Ex'], (append_tag _ _ _ Ey) as [y' Ey'];
     match type of Ex with append _ ?a = _ =>
       destruct (decide (rank a = rank b)) as [Er|Er];
       [|rewrite Ex', Ey'; apply delim_head; intros Et; by apply tag_inj in Et] end).
  1, 2, 3: destruct b as [| |[]| | | | |]; try destruct c; try done;
    injection Ex as <-; injection Ey as <-; apply delim_refl.
  - destruct b as [| |[]|t'| | | |]; try done. cbn [append] in Ex, Ey.
    apply rbind_ok in Ex as (d1 & E1 & [= <-]). apply rbind_ok in Ey as (d2 & E2 & [= <-]). apply delim_cons.
    intros r1 r2. apply parse_normal in E1, E2. rewrite number_cmp by done.
    rewrite <-(app_nil_r (number_bytes d1)), <-(app_nil_r (number_bytes d2)) at 1. rewrite number_cmp by done.
    by destruct (num_cmp d1 d2).
  - destruct b as [| |[]| |t'| | |]; try done. injection Ex as <-. injection Ey as <-.
    apply delim_cons, delim_length. by rewrite !signed_length.
  - destruct b as [| |[]| | |s'| |]; try done. injection Ex as <-. injection Ey as <-. apply delim_cons, delim_text.
  - destruct b as [| |[]| | | |l'|]; try done. rewrite append_array in Ex, Ey.
    apply rbind_ok in Ex as (x1 & E1 & [= <-]). apply rbind_ok in Ey as (y1 & E2 & [= <-]).
    apply delim_cons. by eapply delim_array.
  - destruct b as [| |[]| | | | |m']; try done. rewrite append_object in Ex, Ey.
    apply rbind_ok in Ex as (x1 & E1 & [= <-]). apply rbind_ok in Ey as (y1 & E2 & [= <-]).
    apply delim_cons. by eapply delim_fields.
Qed.

Lemma encode_delim a b x y : encode_equality a = Ok x → encode_equality b = Ok y → delim x y.
Proof. apply equality_delim. Qed.
End values.

(** Inverted parts still delimit themselves. *)
Lemma flip_inj a b : flip a = flip b → a = b.
Proof. intros E. apply cmp_eq. pose proof (cmp_flip a b) as Hf. rewrite E, cmp_refl in Hf. by destruct (cmp a b). Qed.

Lemma prefix_delim x y : (x `prefix_of` y → x = y) → (y `prefix_of` x → x = y) → delim x y.
Proof.
  revert y. induction x as [|a x IH]; intros [|b y] H1 H2.
  - apply delim_refl.
  - by specialize (H1 (prefix_nil _)).
  - by specialize (H2 (prefix_nil _)).
  - destruct (decide (a = b)) as [<-|Hne]; [|by apply delim_head].
    apply delim_cons, IH; intros Hp; [specialize (H1 (prefix_cons _ _ _ Hp))|specialize (H2 (prefix_cons _ _ _ Hp))]; congruence.
Qed.

Lemma delim_sym x y : delim x y → delim y x.
Proof.
  intros D r1 r2. change (list_cmp (y ++ r1) (x ++ r2)) with (cmp (y ++ r1) (x ++ r2)).
  rewrite cmp_opp. change (cmp (x ++ r2) (y ++ r1)) with (list_cmp (x ++ r2) (y ++ r1)). rewrite D.
  change (list_cmp y x) with (cmp y x). rewrite (cmp_opp x y). change (cmp x y) with (list_cmp x y).
  change (list_cmp r1 r2) with (cmp r1 r2). rewrite (cmp_opp r2 r1). change (cmp r2 r1) with (list_cmp r2 r1).
  by destruct (list_cmp x y).
Qed.

Lemma flip_prefix x y : flip <$> x `prefix_of` flip <$> y → x `prefix_of` y.
Proof.
  revert y. induction x as [|a x IH]; intros [|b y] Hp; [apply prefix_nil|apply prefix_nil|by apply prefix_nil_not in Hp|].
  cbn [fmap list_fmap] in Hp. pose proof (prefix_cons_inv_1 _ _ _ _ Hp) as ->%flip_inj.
  apply prefix_cons, IH. by eapply prefix_cons_inv_2.
Qed.

Lemma delim_flip x y : delim x y → delim (flip <$> x) (flip <$> y).
Proof.
  intros D. apply prefix_delim; intros Hp%flip_prefix; f_equal.
  - by apply delim_prefix.
  - symmetry. apply delim_prefix; [by apply delim_sym|done].
Qed.

(** ** Bounds *)

Lemma upto_some b p : byte_to_N b ≠ 255 → is_Some (upto (b :: p)).
Proof. intros Hb. cbn [upto]. destruct (upto p); [eauto|]. apply N.eqb_neq in Hb. rewrite Hb. eauto. Qed.

Lemma cmp_byte a b : cmp a b = (byte_to_N a ?= byte_to_N b).
Proof. done. Qed.

Lemma cmp_bump b c : byte_to_N b ≠ 255 → cmp c (bump b) = Lt ↔ byte_to_N c <= byte_to_N b.
Proof.
  intros Hb. pose proof (byte_to_N_bound b). rewrite cmp_byte. unfold bump.
  rewrite byte_to_of_N, N.mod_small, N.compare_lt_iff by lia. lia.
Qed.

(** Nothing is above what begins with bytes 255. *)
Lemma upto_none p x : upto p = None → p `prefix_of` x ∨ list_cmp x p = Lt.
Proof.
  revert x. induction p as [|b p IH]; intros x E; [left; apply prefix_nil|]. cbn [upto] in E.
  destruct (upto p); [done|]. destruct (N.eqb_spec (byte_to_N b) 255) as [Hb|]; [|done].
  destruct x as [|c x]; [by right|]. cbn [list_cmp]. destruct (cmp c b) eqn:Ec.
  - apply cmp_eq in Ec as ->. destruct (IH x eq_refl) as [Hp|Hl]; [left; by apply prefix_cons|by right].
  - by right.
  - rewrite cmp_byte in Ec. apply N.compare_gt_iff in Ec. pose proof (byte_to_N_bound c). lia.
Qed.

Lemma cmp_cons c b x y : list_cmp (c :: x) (b :: y) = Lt ↔ cmp c b = Lt ∨ c = b ∧ list_cmp x y = Lt.
Proof.
  cbn [list_cmp]. destruct (cmp c b) eqn:E; [apply cmp_eq in E| |]; intuition; subst; try done; by rewrite cmp_refl in E.
Qed.

(** What is below [upto p] begins with [p] or is below [p]. *)
Lemma upto_cmp p q x : upto p = Some q → list_cmp x q = Lt ↔ p `prefix_of` x ∨ list_cmp x p = Lt.
Proof.
  revert q x. induction p as [|b p IH]; intros q x E; [done|]. cbn [upto] in E.
  destruct x as [|c x].
  { destruct (upto p); [|destruct (_ =? _)]; [injection E as <-|done|injection E as <-]; (split; [by right|done]). }
  assert (Hpre : b :: p `prefix_of` c :: x ↔ c = b ∧ p `prefix_of` x).
  { split; [|intros [-> Hp]; by apply prefix_cons]. intros Hp. split; [symmetry; by eapply prefix_cons_inv_1|by eapply prefix_cons_inv_2]. }
  rewrite Hpre, cmp_cons. destruct (upto p) as [q'|] eqn:Eq.
  - injection E as <-. rewrite cmp_cons, (IH q' x eq_refl). tauto.
  - destruct (N.eqb_spec (byte_to_N b) 255) as [|Hb]; [done|]. injection E as <-. rewrite cmp_cons, (cmp_bump b c Hb).
    pose proof (upto_none p x Eq). rewrite cmp_byte, N.compare_lt_iff. split.
    + intros [Hle|[_ Hl]]; [|by destruct x]. destruct (decide (byte_to_N c = byte_to_N b)) as [->%byte_to_N_inj|]; [tauto|right; left; lia].
    + intros [[-> _]|[?|[-> _]]]; left; lia.
Qed.

Section keys.
Context `{TextLibOk} (a b : Value) (x y p r : bytes).
Hypotheses (Ea : encode_equality a = Ok x) (Eb : encode_equality b = Ok y).

(** A key that holds [a] after [p], against the bound made from [b]. *)
Lemma key_cmp : list_cmp (p ++ x ++ r) (p ++ y) = then_cmp (list_cmp x y) (list_cmp r []).
Proof. rewrite list_cmp_app_same. rewrite <-(app_nil_r y) at 1. by apply (encode_delim a b). Qed.

Lemma key_below : list_cmp (p ++ x ++ r) (p ++ y) = Lt ↔ list_cmp x y = Lt.
Proof. rewrite key_cmp. destruct (list_cmp x y); cbn; [by destruct r|done..]. Qed.

Lemma key_prefix : p ++ y `prefix_of` p ++ x ++ r ↔ list_cmp x y = Eq.
Proof.
  rewrite list_cmp_eq. split.
  - intros [z Hz]. rewrite <-app_assoc in Hz. apply app_inv_head in Hz. apply (delim_split x y r z); [|done].
    by apply (encode_delim a b).
  - intros ->. apply prefix_app, prefix_app_r. done.
Qed.

Lemma key_below_end q : upto (p ++ y) = Some q → list_cmp (p ++ x ++ r) q = Lt ↔ list_cmp x y ≠ Gt.
Proof. intros E. rewrite (upto_cmp _ _ _ E), key_prefix, key_below. destruct (list_cmp x y); intuition done. Qed.
End keys.

(** ** Ranges of keys *)

Lemma upto_app_some p b y : byte_to_N b ≠ 255 → is_Some (upto (p ++ b :: y)).
Proof.
  intros Hb. induction p as [|a p [q IH]]; [by apply upto_some|]. cbn [app upto]. rewrite IH. eauto.
Qed.

Lemma upto_key_some `{TextLibOk} b y p : encode_equality b = Ok y → is_Some (upto (p ++ y)).
Proof.
  intros Eb. destruct (append_tag _ _ _ Eb) as [y' ->]. apply upto_app_some. by destruct b as [| |[]| | | | |].
Qed.

Section bounds.
Context `{TextLibOk} (a b : Value) (x y p r : bytes).
Hypotheses (Ea : encode_equality a = Ok x) (Eb : encode_equality b = Ok y).

Lemma ltb_key : ltb (p ++ x ++ r) (p ++ y) = bool_decide (list_cmp x y = Lt).
Proof using All. apply eq_true_iff_eq. rewrite ltb_lt, bool_decide_eq_true. by apply (key_below a b). Qed.

Lemma ltb_key_end : match upto (p ++ y) with Some q => ltb (p ++ x ++ r) q = bool_decide (list_cmp x y ≠ Gt) | None => False end.
Proof using All.
  destruct (upto_key_some b y p Eb) as [q Eq]. rewrite Eq. apply eq_true_iff_eq. rewrite ltb_lt, bool_decide_eq_true.
  by apply (key_below_end a b x y p r Ea Eb).
Qed.
End bounds.
