(* ===== verification/TrigramSpec.v ===== *)
(** * Posting blocks hold sets of rows

    Varints and blocks read back; a table of blocks stands for the set of (term, row) pairs
    in it ([in_post]), which [add_posting] and [remove_posting] change by one element. *)
From S2P Require Import Prelude Order Redb Fields OrderedCodec Trigram.
Local Open Scope N_scope.

(** ** Varints *)

Lemma lor_shift a b s : a < 2 ^ s → N.lor a (N.shiftl b s) = a + b * 2 ^ s.
Proof. intros Ha. rewrite N.shiftl_mul_pow2, N.lor_comm, lor_high by done. lia. Qed.

Lemma group_byte v : let x := byte_of_N (N.lor (v mod 256) 128) in
  N.land (byte_to_N x) 127 = v mod 128 ∧ N.land (byte_to_N x) 128 ≠ 0.
Proof.
  cbn zeta. rewrite byte_to_of_N. pose proof (N.mod_lt v 256 ltac:(lia)) as Hv.
  assert (Hm : v mod 128 = (v mod 256) mod 128).
  { change 256 with (128 * 2). rewrite N.Div0.mod_mul_r. rewrite N.mul_comm, N.Div0.mod_add. by rewrite N.Div0.mod_mod. }
  rewrite Hm. generalize dependent (v mod 256). intros w Hw _.
  assert (Hall : forallb (λ n, let w := N.of_nat n in let x := N.lor w 128 mod 256 in
    (N.land x 127 =? w mod 128) && negb (N.land x 128 =? 0)) (seq 0 256) = true) by (vm_compute; reflexivity).
  rewrite forallb_forall in Hall. specialize (Hall (N.to_nat w)).
  rewrite in_seq, N2Nat.id in Hall. specialize (Hall ltac:(lia)). cbn zeta in Hall.
  apply andb_true_iff in Hall as [E1 E2]. apply N.eqb_eq in E1. apply negb_true_iff, N.eqb_neq in E2. done.
Qed.

Lemma small_byte v : v < 128 → N.land (byte_to_N (byte_of_N v)) 127 = v ∧ N.land (byte_to_N (byte_of_N v)) 128 = 0.
Proof.
  intros Hv. rewrite byte_to_of_N, N.mod_small by lia.
  assert (Hall : forallb (λ n, let w := N.of_nat n in (N.land w 127 =? w) && (N.land w 128 =? 0)) (seq 0 128) = true)
    by (vm_compute; reflexivity).
  rewrite forallb_forall in Hall. specialize (Hall (N.to_nat v)). rewrite in_seq, N2Nat.id in Hall.
  specialize (Hall ltac:(lia)). cbn zeta in Hall. apply andb_true_iff in Hall as [E1%N.eqb_eq E2%N.eqb_eq]. done.
Qed.

Lemma get_put_groups fuel : ∀ v v0 r, let s := 63 - 7 * N.of_nat fuel in
  (fuel <= 9)%nat → v0 < 2 ^ s → v < 2 ^ (7 * N.of_nat fuel + 1) →
  get_groups v0 s (put_groups fuel v ++ r) = Ok (v0 + v * 2 ^ s, r).
Proof.
  assert (Hone : ∀ v v0 s r, v < 128 → v0 < 2 ^ s → v * 2 ^ s < U64 →
    get_groups v0 s (byte_of_N v :: r) = Ok (v0 + v * 2 ^ s, r)).
  { intros v v0 s r Hv Hv0 Hu. cbn [get_groups]. destruct (small_byte v Hv) as [-> ->]. cbn [N.eqb].
    rewrite N.mod_small by by rewrite N.shiftl_mul_pow2. by rewrite lor_shift. }
  induction fuel as [|fuel IH]; intros v v0 r s Hf Hv0 Hv; cbn [put_groups].
  { subst s. change (2 ^ (7 * N.of_nat 0 + 1)) with 2 in Hv. apply Hone; [lia|done|].
    change (2 ^ (63 - 7 * N.of_nat 0)) with (2 ^ 63). change U64 with (2 * 2 ^ 63). nia. }
  assert (Hs : 2 ^ (63 - 7 * N.of_nat fuel) = 128 * 2 ^ s).
  { subst s. replace (63 - 7 * N.of_nat fuel) with (7 + (63 - 7 * N.of_nat (S fuel))) by lia. by rewrite N.pow_add_r. }
  assert (Hw : 2 ^ (7 * N.of_nat (S fuel) + 1) = 128 * 2 ^ (7 * N.of_nat fuel + 1)).
  { replace (7 * N.of_nat (S fuel) + 1) with (7 + (7 * N.of_nat fuel + 1)) by lia. by rewrite N.pow_add_r. }
  assert (Hu : 2 ^ s * 2 ^ (7 * N.of_nat (S fuel) + 1) = U64).
  { rewrite <-N.pow_add_r. subst s. replace (63 - 7 * N.of_nat (S fuel) + (7 * N.of_nat (S fuel) + 1)) with 64 by lia. done. }
  destruct (N.leb_spec 128 v) as [Hge|Hlt]; [|apply Hone; [done..|nia]].
  cbn [app get_groups]. destruct (group_byte v) as [E1 E2]. rewrite E1. apply N.eqb_neq in E2. rewrite E2.
  pose proof (N.mod_lt v 128 ltac:(lia)) as Hm. pose proof (N.div_mod v 128 ltac:(lia)) as Hd.
  rewrite N.mod_small by (rewrite N.shiftl_mul_pow2; nia). rewrite lor_shift by done.
  destruct (N.ltb_spec 63 (s + 7)); [subst s; lia|]. replace (s + 7) with (63 - 7 * N.of_nat fuel) by (subst s; lia).
  rewrite N.shiftr_div_pow2. change (2 ^ 7) with 128. rewrite IH; [|lia|rewrite Hs; nia|nia].
  f_equal. f_equal. rewrite Hs. nia.
Qed.

Lemma get_put_varint v r : v < U64 → get_varint (put_varint v ++ r) = Ok (v, r).
Proof.
  intros Hv. unfold get_varint, put_varint. pose proof (get_put_groups 9 v 0 r ltac:(lia)) as Hg.
  change (63 - 7 * N.of_nat 9) with 0 in Hg. change (2 ^ (7 * N.of_nat 9 + 1)) with U64 in Hg. rewrite Hg by done.
  f_equal. f_equal. lia.
Qed.

Lemma put_varint_nonempty v : (0 < length (put_varint v))%nat.
Proof. unfold put_varint. cbn [put_groups]. case_match; cbn; lia. Qed.

(** ** One block *)

(** Strictly ascending. *)
Abbreviation asc := (StronglySorted N.lt).

Lemma asc_cons_le x l : asc (x :: l) → ∀ y, y ∈ x :: l → x <= y.
Proof.
  intros [_ Hf]%StronglySorted_inv y [->|Hy]%elem_of_cons; [lia|].
  rewrite Forall_forall in Hf. specialize (Hf y Hy). lia.
Qed.

Lemma decode_put_deltas l : ∀ prev fuel, asc (prev :: l) → Forall (λ x, x < U64) l →
  (length (put_deltas prev l) <= fuel)%nat → decode_rows fuel prev (put_deltas prev l) = Ok l.
Proof.
  induction l as [|x l IH]; intros prev fuel Ha Hu Hf; cbn [put_deltas] in *; [by destruct fuel|].
  apply StronglySorted_inv in Ha as [Ha Hp]. apply Forall_cons in Hp as [Hx _], Hu as [Hxu Hu]. cbv beta in Hxu.
  rewrite length_app in Hf. pose proof (put_varint_nonempty (x - prev)) as Hn.
  destruct fuel as [|fuel]; [lia|]. assert (Hg := get_put_varint (x - prev) (put_deltas x l) ltac:(lia)).
  destruct (put_varint (x - prev) ++ put_deltas x l) as [|b bs] eqn:Eb.
  { apply (f_equal length) in Eb. rewrite length_app in Eb. cbn [length] in Eb. lia. }
  cbn [decode_rows]. rewrite Hg. cbn [rbind]. replace (prev + (x - prev)) with x by lia.
  destruct (N.ltb_spec x U64); [|lia]. rewrite IH by (done || lia). done.
Qed.

(** A row of numbers as one block. *)
Definition seg_ok (l : list N) : Prop := l ≠ [] ∧ asc l ∧ Forall (λ x, x < U64) l.
Definition seg_value (l : list N) : bytes := match l with [] => [] | f :: l' => put_deltas f l' end.

Lemma post_key_length tri f : length (post_key tri f) = 12%nat.
Proof. unfold post_key. by rewrite length_app, !be_bytes_length. Qed.

Lemma decode_seg tri f l : seg_ok (f :: l) → decode_block (post_key tri f) (seg_value (f :: l)) = Ok (f :: l).
Proof.
  intros (_ & Ha & Hu). unfold decode_block. rewrite post_key_length, bool_decide_eq_true_2 by done. cbn [negb].
  apply Forall_cons in Hu as [Hf Hu]. unfold post_key. rewrite drop_app_length' by by rewrite be_bytes_length.
  rewrite of_be_bytes by exact Hf. cbn [seg_value]. rewrite decode_put_deltas by done. done.
Qed.

(** ** Cutting into blocks *)

Lemma fill_block_spec ids : ∀ prev value, ∃ taken rest,
  ids = taken ++ rest ∧ fill_block prev value ids = (value ++ put_deltas prev taken, rest).
Proof.
  induction ids as [|x ids IH]; intros prev value; cbn [fill_block].
  - exists [], []. split; [done|]. cbn [put_deltas]. by rewrite app_nil_r.
  - case_match; [exists [], (x :: ids); split; [done|]; cbn [put_deltas]; by rewrite app_nil_r|].
    destruct (IH x (value ++ put_varint (x - prev))) as (taken & rest & -> & ->).
    exists (x :: taken), rest. split; [done|]. cbn [put_deltas]. by rewrite <-app_assoc.
Qed.

Lemma blocks_cut fuel : ∀ ids, (length ids <= fuel)%nat → ∃ segs,
  concat segs = ids ∧ Forall (λ s, s ≠ []) segs ∧ blocks fuel ids = (λ s, (hd 0 s, seg_value s)) <$> segs.
Proof.
  induction fuel as [|fuel IH]; intros [|f ids] Hl; cbn [length] in Hl; [by exists []|lia|by exists []|].
  cbn [blocks]. destruct (fill_block_spec ids f []) as (taken & rest & -> & ->). rewrite length_app in Hl.
  destruct (IH rest ltac:(lia)) as (segs & <- & Hs & ->). exists ((f :: taken) :: segs). split_and!; [done|by constructor|done].
Qed.

Lemma asc_app a b : asc (a ++ b) ↔ asc a ∧ asc b ∧ ∀ x y, x ∈ a → y ∈ b → x < y.
Proof.
  induction a as [|z a IH]; cbn [app].
  - split; [intros Hb; split_and!; [constructor|done|]; intros x y Hx; by apply elem_of_nil in Hx|by intros (_ & ? & _)].
  - split.
    + intros [Ha Hf]%StronglySorted_inv. apply IH in Ha as (Ha & Hb & Hl). apply Forall_app in Hf as [Hfa Hfb].
      split_and!; [by constructor|done|]. intros x y [->|Hx]%elem_of_cons Hy; [|by apply Hl].
      rewrite Forall_forall in Hfb. by apply Hfb.
    + intros ([Ha Hf]%StronglySorted_inv & Hb & Hl). constructor.
      * apply IH. split_and!; [done|done|]. intros x y Hx. apply Hl. by right.
      * apply Forall_app. split; [done|]. apply Forall_forall. intros y. apply Hl. left.
Qed.

(** The pieces of an ascending list are blocks, one after the other. *)
Lemma segs_ok segs : asc (concat segs) → Forall (λ x, x < U64) (concat segs) → Forall (λ s, s ≠ []) segs →
  Forall seg_ok segs ∧ (∀ s s', s ∈ segs → s' ∈ segs → hd 0 s < hd 0 s' → Forall (λ x, x < hd 0 s') s) ∧
  (∀ s s', s ∈ segs → s' ∈ segs → hd 0 s = hd 0 s' → s = s').
Proof.
  induction segs as [|s segs IH]; intros Ha Hu Hn; [split_and!; [constructor|..]; intros s s' Hs; by apply elem_of_nil in Hs|].
  cbn [concat] in Ha, Hu. apply asc_app in Ha as (Hs & Ha & Hl). apply Forall_app in Hu as [Hus Hu]. apply Forall_cons in Hn as [Hns Hn].
  destruct (IH Ha Hu Hn) as (Hok & Hap & Heq).
  assert (Hlt : ∀ x s', x ∈ s → s' ∈ segs → x < hd 0 s').
  { intros x s' Hx Hs'. apply Hl; [done|]. rewrite Forall_forall in Hn. specialize (Hn s' Hs').
    apply list_elem_of_In, in_concat. exists s'. split; [by apply list_elem_of_In|]. destruct s'; [done|left; done]. }
  assert (Hh : hd 0 s ∈ s) by (destruct s; [done|left]).
  split_and!.
  - constructor; [by split|done].
  - intros s1 s2 [->|H1]%elem_of_cons [->|H2]%elem_of_cons Hlt'; [lia| | |by apply Hap].
    + apply Forall_forall. intros x Hx. by apply Hlt.
    + specialize (Hlt _ _ Hh H1). lia.
  - intros s1 s2 [->|H1]%elem_of_cons [->|H2]%elem_of_cons He; [done| | |by apply Heq].
    + specialize (Hlt _ _ Hh H2). lia.
    + specialize (Hlt _ _ Hh H1). lia.
Qed.

(** ** Tables of blocks *)

Lemma post_key_cmp t f t' f' : t < U32 → t' < U32 → f < U64 → f' < U64 →
  list_cmp (post_key t f) (post_key t' f') = match t ?= t' with Eq => f ?= f' | c => c end.
Proof.
  intros. unfold post_key. rewrite list_cmp_app by by rewrite !be_bytes_length. rewrite !cmp_be_bytes by done. done.
Qed.

Lemma post_key_inj t f t' f' : t < U32 → t' < U32 → f < U64 → f' < U64 → post_key t f = post_key t' f' → t = t' ∧ f = f'.
Proof.
  intros Ht Ht' Hf Hf' E. pose proof (post_key_cmp t f t' f' Ht Ht' Hf Hf') as Hc. rewrite E in Hc.
  assert (Er : list_cmp (post_key t' f') (post_key t' f') = Eq) by by apply list_cmp_eq.
  rewrite Er in Hc. destruct (N.compare_spec t t'); [|done..]. subst. symmetry in Hc. by apply N.compare_eq_iff in Hc.
Qed.

Section tables.
Context `{Redb}.
Implicit Types (t : table bytes bytes).

(** Block [l] of term [tri] is in the table. *)
Definition block t (tri : N) (l : list N) : Prop := seg_ok l ∧ t_get t (post_key tri (hd 0 l)) = Some (seg_value l).

Record post_ok t : Prop := {
  po_key : ∀ k v, t_get t k = Some v → ∃ tri l, tri < U32 ∧ k = post_key tri (hd 0 l) ∧ block t tri l;
  po_apart : ∀ tri l l', tri < U32 → block t tri l → block t tri l' → hd 0 l < hd 0 l' → Forall (λ x, x < hd 0 l') l;
}.

Definition in_post t (tri row : N) : Prop := ∃ l, block t tri l ∧ row ∈ l.

Lemma seg_head l : seg_ok l → ∃ f l', l = f :: l' ∧ f < U64.
Proof. intros (Hn & _ & Hu). destruct l as [|f l']; [done|]. apply Forall_cons in Hu as [? _]. eauto. Qed.

Lemma seg_value_inj l l' : seg_ok l → seg_ok l' → hd 0 l = hd 0 l' → seg_value l = seg_value l' → l = l'.
Proof.
  intros Hl Hl' Eh Ev. destruct (seg_head l Hl) as (f & r & -> & Hf), (seg_head l' Hl') as (f' & r' & -> & _).
  cbn in Eh. subst f'. pose proof (decode_seg 0 f r Hl) as E. pose proof (decode_seg 0 f r' Hl') as E'. rewrite Ev in E. congruence.
Qed.

Lemma block_unique t tri l l' : block t tri l → block t tri l' → hd 0 l = hd 0 l' → l = l'.
Proof. intros [Hl E] [Hl' E'] Eh. apply seg_value_inj; [done..|]. rewrite Eh in E. congruence. Qed.

Lemma decode_at t tri l : block t tri l → decode_block (post_key tri (hd 0 l)) (seg_value l) = Ok l.
Proof. intros [Hl _]. destruct (seg_head l Hl) as (f & r & -> & _). by apply decode_seg. Qed.

(** The entries of a term are its blocks. *)
Lemma range_block t tri lo hi k v : post_ok t → tri < U32 → lo < U64 → hi < U64 →
  (k, v) ∈ t_range t (post_key tri lo) (post_key tri hi) ↔
  ∃ l, block t tri l ∧ k = post_key tri (hd 0 l) ∧ v = seg_value l ∧ lo <= hd 0 l <= hi.
Proof.
  intros Ok_ Ht Hlo Hhi. unfold t_range. rewrite list_elem_of_filter, <-t_get_iter. cbn [fst]. unfold key_lt.
  change (@cmp (list byte) _) with (@list_cmp byte _). split.
  - intros [[H1 H2] Hg]. destruct (po_key t Ok_ k v Hg) as (tri' & l & Ht' & -> & Hb).
    destruct (seg_head l (proj1 Hb)) as (f & r & -> & Hf). cbn [hd] in *.
    rewrite post_key_cmp in H1, H2 by done. destruct (N.compare_spec tri' tri), (N.compare_spec tri tri'); try lia; try done.
    subst tri'. rewrite N.compare_lt_iff in H1, H2. exists (f :: r). split_and!; [done|done| |cbn; lia..].
    destruct Hb as [_ Hb]. cbn [hd] in Hb. congruence.
  - intros (l & Hb & -> & -> & Hl). pose proof Hb as [Hs Hg]. destruct (seg_head l Hs) as (f & r & -> & Hf). cbn [hd] in *.
    rewrite !post_key_cmp by done. rewrite !N.compare_refl, !N.compare_lt_iff. split; [lia|done].
Qed.

(** The ends of an ascending list of entries. *)
Lemma last_greatest {A} (R : A → A → Prop) (l : list A) p : StronglySorted R l → last l = Some p → ∀ q, q ∈ l → q = p ∨ R q p.
Proof.
  intros Hs [l' ->]%last_Some q [Hq|Hq]%elem_of_app; [right|left; by apply list_elem_of_singleton in Hq].
  induction l' as [|x l' IH]; [by apply elem_of_nil in Hq|]. apply StronglySorted_inv in Hs as [Hs Hf].
  apply elem_of_cons in Hq as [->|Hq]; [|by apply IH]. apply Forall_app in Hf as [_ Hf]. by apply Forall_cons in Hf as [? _].
Qed.
Lemma head_least {A} (R : A → A → Prop) (l : list A) p : StronglySorted R l → head l = Some p → ∀ q, q ∈ l → q = p ∨ R p q.
Proof.
  destruct l as [|x l]; [done|]. intros [_ Hf]%StronglySorted_inv [= ->] q [->|Hq]%elem_of_cons; [by left|].
  right. rewrite Forall_forall in Hf. by apply Hf.
Qed.

Lemma range_sorted t lo hi : StronglySorted pair_lt (t_range t lo hi).
Proof. unfold t_range. apply sorted_filter; auto with clove. Qed.

Lemma key_lt_head tri a b : tri < U32 → a < U64 → b < U64 → key_lt (post_key tri a) (post_key tri b) ↔ a < b.
Proof.
  intros. unfold key_lt. change (@cmp (list byte) _) with (@list_cmp byte _).
  by rewrite post_key_cmp, N.compare_refl, N.compare_lt_iff by done.
Qed.

Lemma hd_bound l : seg_ok l → hd 0 l < U64.
Proof. intros Hl. by destruct (seg_head l Hl) as (f & r & -> & Hf). Qed.

(** The block that begins at or before a row, the last such. *)
Lemma at_or_before t tri row : post_ok t → tri < U32 → row < U64 →
  match block_at_or_before t tri row with
  | Some (k, v) => ∃ l, block t tri l ∧ k = post_key tri (hd 0 l) ∧ v = seg_value l ∧ hd 0 l <= row ∧
      ∀ l', block t tri l' → hd 0 l' <= row → hd 0 l' <= hd 0 l
  | None => ∀ l', block t tri l' → row < hd 0 l'
  end.
Proof.
  intros Po Ht Hr. unfold block_at_or_before. destruct (last _) as [[k v]|] eqn:El.
  - pose proof El as Hin. apply last_Some_elem_of in Hin. apply range_block in Hin as (l & Hb & -> & -> & Hl); [|done..].
    exists l. split_and!; [done..|lia|]. intros l' Hb' Hl'.
    assert (Hin' : (post_key tri (hd 0 l'), seg_value l') ∈ t_range t (post_key tri 0) (post_key tri row)).
    { apply range_block; [done..|]. exists l'. split_and!; [done..|lia|done]. }
    destruct (last_greatest _ _ _ (range_sorted t _ _) El _ Hin') as [E|Hlt].
    + apply (f_equal fst) in E; cbn [fst] in E; apply post_key_inj in E as [_ E]; [lia|done..|apply hd_bound, Hb'|apply hd_bound, Hb].
    + unfold pair_lt in Hlt. cbn [fst] in Hlt. apply key_lt_head in Hlt; [lia|done|apply hd_bound, Hb'|apply hd_bound, Hb].
  - intros l' Hb'. destruct (N.lt_ge_cases row (hd 0 l')) as [|Hle]; [done|]. exfalso.
    assert (Hin' : (post_key tri (hd 0 l'), seg_value l') ∈ t_range t (post_key tri 0) (post_key tri row)).
    { apply range_block; [done..|]. exists l'. split_and!; [done..|lia|done]. }
    apply last_None in El. rewrite El in Hin'. by apply elem_of_nil in Hin'.
Qed.

Lemma binary_search_spec l x : asc l →
  let '(found, i) := binary_search l x in
  if found then ∃ a b, l = a ++ x :: b ∧ length a = i
  else x ∉ l ∧ ∃ a b, l = a ++ b ∧ length a = i ∧ (∀ y, y ∈ a → y < x) ∧ (∀ y, y ∈ b → x < y).
Proof.
  induction l as [|y l IH]; intros Ha; cbn [binary_search].
  { split; [apply not_elem_of_nil|]. exists [], []. split_and!; try done; intros y Hy; by apply elem_of_nil in Hy. }
  pose proof (asc_cons_le y l Ha) as Hle. apply StronglySorted_inv in Ha as [Ha Hf]. rewrite Forall_forall in Hf.
  destruct (N.compare_spec y x) as [->|Hlt|Hgt].
  - by exists [], l.
  - specialize (IH Ha). destruct (binary_search l x) as [[] i].
    + destruct IH as (a & b & -> & <-). by exists (y :: a), b.
    + destruct IH as (Hn & a & b & -> & <- & H1 & H2). split; [intros [->|?]%elem_of_cons; [lia|done]|].
      exists (y :: a), b. split_and!; [done..| |done]. intros z [->|Hz]%elem_of_cons; [lia|by apply H1].
  - split; [intros Hx%Hle; lia|]. exists [], (y :: l). split_and!; [done..| |].
    + intros z Hz. by apply elem_of_nil in Hz.
    + intros z Hz%Hle. lia.
Qed.

(** ** Replacing one block by the rows [new] *)

Lemma fold_blocks_get tri segs : tri < U32 → Forall seg_ok segs →
  (∀ s s', s ∈ segs → s' ∈ segs → hd 0 s = hd 0 s' → s = s') → ∀ t,
  let t' := fold_left (λ t p, t_insert t (post_key tri p.1) p.2) ((λ s, (hd 0 s, seg_value s)) <$> segs) t in
  (∀ s, s ∈ segs → t_get t' (post_key tri (hd 0 s)) = Some (seg_value s)) ∧
  (∀ k, (∀ s, s ∈ segs → k ≠ post_key tri (hd 0 s)) → t_get t' k = t_get t k).
Proof.
  intros Ht. induction segs as [|s segs IH]; intros Hok Heq t; cbn zeta; cbn [fmap list_fmap fold_left fst snd].
  { split; [intros s Hs; by apply elem_of_nil in Hs|done]. }
  apply Forall_cons in Hok as [Hs Hok].
  assert (Heq' : ∀ a b, a ∈ segs → b ∈ segs → hd 0 a = hd 0 b → a = b) by (intros a b Ha Hb; apply Heq; by right).
  destruct (IH Hok Heq' (t_insert t (post_key tri (hd 0 s)) (seg_value s))) as [H1 H2]. cbn zeta in H1, H2. split.
  - intros s' [->|Hs']%elem_of_cons; [|by apply H1].
    destruct (decide (Exists (λ s', hd 0 s' = hd 0 s) segs)) as [(s' & Hs' & E)%Exists_exists|Hno].
    + pose proof (H1 s' Hs') as X. rewrite E in X. rewrite X. f_equal. f_equal. apply Heq; [by right|left|done].
    + rewrite H2; [by rewrite t_get_insert_eq|]. intros s' Hs' E. apply Hno, Exists_exists. exists s'. split; [done|].
      rewrite Forall_forall in Hok. destruct (seg_head s (Hs)) as (? & ? & -> & ?), (seg_head s' (Hok s' Hs')) as (? & ? & -> & ?).
      by apply post_key_inj in E as [_ ->].
  - intros k Hk. rewrite H2 by (intros s' Hs'; apply Hk; by right). rewrite t_get_insert_ne; [done|].
    intros E. symmetry in E. apply (Hk s); [left|done].
Qed.

(** [t1] is [t] without the block [old], or with it about to be written over. *)
Record cleared t t1 (tri : N) (old new : list N) : Prop := {
  c_old : old = [] ∨ block t tri old;
  c_gone : old ≠ [] → hd 0 new = hd 0 old ∧ new ≠ [] ∨ t_get t1 (post_key tri (hd 0 old)) = None;
  c_rest : ∀ k, old = [] ∨ k ≠ post_key tri (hd 0 old) → t_get t1 k = t_get t k;
  c_asc : asc new; c_bound : Forall (λ x, x < U64) new;
  c_apart : ∀ l, block t tri l → l ≠ old → (∀ x y, x ∈ l → y ∈ new → x < y) ∨ (∀ x y, x ∈ l → y ∈ new → y < x);
}.

Lemma hd_elem (l : list N) : l ≠ [] → hd 0 l ∈ l.
Proof. destruct l; [done|left]. Qed.

Lemma concat_elem {A} (segs : list (list A)) x : x ∈ concat segs ↔ ∃ s, s ∈ segs ∧ x ∈ s.
Proof. rewrite list_elem_of_In, in_concat. by setoid_rewrite <-list_elem_of_In. Qed.

Lemma replace_blocks t t1 tri old new : post_ok t → tri < U32 → cleared t t1 tri old new →
  ∃ segs, concat segs = new ∧
  (∀ k v, t_get (put_blocks t1 tri new) k = Some v → (∃ s, s ∈ segs ∧ k = post_key tri (hd 0 s)) ∨
    t_get t k = Some v ∧ (old ≠ [] → k ≠ post_key tri (hd 0 old))) ∧
  ∀ tri' l, tri' < U32 →
    (block (put_blocks t1 tri new) tri' l ↔ tri' = tri ∧ l ∈ segs ∨ block t tri' l ∧ (tri' = tri → l ≠ old)) ∧
    ((tri' = tri ∧ l ∈ segs) → ∀ l', l' ∈ segs → hd 0 l < hd 0 l' → Forall (λ x, x < hd 0 l') l).
Proof.
  intros Po Ht C. unfold put_blocks. destruct (blocks_cut (length new) new ltac:(done)) as (segs & Ec & Hn & ->).
  pose proof (c_asc _ _ _ _ _ C) as Ha. pose proof (c_bound _ _ _ _ _ C) as Hu. rewrite <-Ec in Ha, Hu.
  destruct (segs_ok segs Ha Hu Hn) as (Hok & Hap & Heq). destruct (fold_blocks_get tri segs Ht Hok Heq t1) as [H1 H2].
  cbn zeta in H1, H2. set (t' := fold_left _ _ _) in *. exists segs. split; [done|]. rewrite Forall_forall in Hok.
  assert (Hgone : old ≠ [] → (∀ s, s ∈ segs → post_key tri (hd 0 old) ≠ post_key tri (hd 0 s)) →
    t_get t1 (post_key tri (hd 0 old)) = None).
  { intros Ho Hs. destruct (c_gone _ _ _ _ _ C Ho) as [[Eh Hne]|]; [|done]. exfalso.
    destruct segs as [|s segs]; [by rewrite <-Ec in Hne|]. apply (Hs s); [left|].
    apply Forall_cons in Hn as [Hns _]. rewrite <-Eh, <-Ec. by destruct s. }
  split.
  { intros k v Hg. destruct (decide (Exists (λ s, k = post_key tri (hd 0 s)) segs)) as [?%Exists_exists|Hno]; [by left|right].
    assert (Hk : ∀ s, s ∈ segs → k ≠ post_key tri (hd 0 s)).
    { intros s Hs E. apply Hno, Exists_exists. by exists s. }
    rewrite H2 in Hg by done. destruct (decide (old = [])) as [Ho|Ho].
    { rewrite (c_rest _ _ _ _ _ C) in Hg by by left. done. }
    assert (Hne : k ≠ post_key tri (hd 0 old)) by (intros ->; rewrite Hgone in Hg; done).
    rewrite (c_rest _ _ _ _ _ C) in Hg by by right. done. }
  intros tri' l Ht'. split; [|intros [-> Hl] l' Hl'; by apply Hap]. split.
  - intros [Hl Hg]. destruct (decide (tri' = tri ∧ Exists (λ s, hd 0 s = hd 0 l) segs)) as [[-> (s & Hs & E)%Exists_exists]|Hno].
    { left. split; [done|]. pose proof (H1 s Hs) as Hg'. rewrite E, Hg in Hg'. injection Hg' as Ev.
      by rewrite (seg_value_inj l s Hl (Hok s Hs)). }
    right. destruct (seg_head l Hl) as (f & r & -> & Hf). cbn [hd] in *.
    assert (Hk : ∀ s, s ∈ segs → post_key tri' f ≠ post_key tri (hd 0 s)).
    { intros s Hs E. destruct (seg_head s (Hok s Hs)) as (f' & r' & -> & Hf'). apply post_key_inj in E as [-> ->]; [|done..].
      apply Hno. split; [done|]. apply Exists_exists. by exists (f' :: r'). }
    rewrite H2 in Hg by done. destruct (decide (old = [])) as [Ho|Ho].
    { rewrite (c_rest _ _ _ _ _ C) in Hg by by left. split; [done|]. intros _ E. by rewrite <-E in Ho. }
    assert (Hne : post_key tri' f ≠ post_key tri (hd 0 old)).
    { intros E. rewrite E in Hg, Hk. rewrite Hgone in Hg by done. done. }
    rewrite (c_rest _ _ _ _ _ C) in Hg by by right. split; [done|]. intros -> <-. done.
  - intros [[-> Hl]|[Hb Hno]]; [split; [by apply Hok|by apply H1]|]. pose proof Hb as [Hl Hg]. split; [done|].
    destruct (seg_head l Hl) as (f & r & -> & Hf). cbn [hd] in *. rewrite H2.
    + rewrite (c_rest _ _ _ _ _ C); [done|]. destruct (decide (old = [])) as [Ho|Ho]; [by left|right]. intros E.
      destruct (c_old _ _ _ _ _ C) as [|Hbo]; [done|]. destruct (seg_head old (proj1 Hbo)) as (fo & ro & -> & Hfo). cbn [hd] in E.
      apply post_key_inj in E as [-> ->]; [|done..]. apply Hno; [done|]. by apply (block_unique t tri).
    + intros s Hs E. pose proof (Hok s Hs) as Hso. destruct (seg_head s Hso) as (f' & r' & -> & Hf'). cbn [hd] in E.
      apply post_key_inj in E as [-> ->]; [|done..].
      assert (Hin : f' ∈ new) by (rewrite <-Ec; apply concat_elem; exists (f' :: r'); split; [done|left]).
      destruct (c_apart _ _ _ _ _ C _ Hb (Hno eq_refl)) as [Hx|Hx]; specialize (Hx f' f' ltac:(left) Hin); lia.
Qed.

Lemma replace_block t t1 tri old new : post_ok t → tri < U32 → cleared t t1 tri old new →
  post_ok (put_blocks t1 tri new) ∧
  ∀ tri' row, tri' < U32 → in_post (put_blocks t1 tri new) tri' row ↔
    tri' = tri ∧ row ∈ new ∨ ∃ l, block t tri' l ∧ (tri' = tri → l ≠ old) ∧ row ∈ l.
Proof.
  intros Po Ht C. destruct (replace_blocks t t1 tri old new Po Ht C) as (segs & Ec & Hkey & Hb). split.
  - split.
    + intros k v [(s & Hs & ->)|[Hg Hno]]%Hkey.
      * exists tri, s. split_and!; [done..|]. apply (proj1 (Hb tri s Ht)). by left.
      * destruct (po_key t Po k v Hg) as (tri' & l & Ht' & -> & Hl). exists tri', l. split_and!; [done..|].
        apply (proj1 (Hb tri' l Ht')). right. split; [done|]. intros -> ->. apply Hno; [apply Hl|done].
    + intros tri' l l' Ht' Hl Hl' Hlt. destruct (Hb tri' l Ht') as [Hbl Hseg], (Hb tri' l' Ht') as [Hbl' _].
      pose proof (hd_elem l (proj1 (proj1 Hl))) as Hh. pose proof (hd_elem l' (proj1 (proj1 Hl'))) as Hh'.
      apply Hbl in Hl. apply Hbl' in Hl'.
      destruct Hl as [[-> Hl]|[Hl Hno]], Hl' as [[E' Hl']|[Hl' Hno']].
      * by apply Hseg.
      * assert (Hin : ∀ x, x ∈ l → x ∈ new) by (intros x Hx; rewrite <-Ec; apply concat_elem; eauto).
        destruct (c_apart _ _ _ _ _ C l' Hl' (Hno' eq_refl)) as [Hx|Hx].
        { specialize (Hx _ _ Hh' (Hin _ Hh)). lia. }
        apply Forall_forall. intros x Hxl. by apply Hx, Hin.
      * subst tri'. assert (Hin : ∀ x, x ∈ l' → x ∈ new) by (intros x Hx; rewrite <-Ec; apply concat_elem; eauto).
        destruct (c_apart _ _ _ _ _ C l Hl (Hno eq_refl)) as [Hx|Hx].
        { apply Forall_forall. intros x Hxl. by apply Hx, Hin. }
        specialize (Hx _ _ Hh (Hin _ Hh')). lia.
      * by apply (po_apart t Po tri').
  - intros tri' row Ht'. unfold in_post. split.
    + intros (l & Hl & Hr). apply (proj1 (proj1 (Hb tri' l Ht'))) in Hl as [[-> Hl]|[Hl Hno]]; [left|right; eauto].
      split; [done|]. rewrite <-Ec. apply concat_elem. eauto.
    + intros [[-> Hr]|(l & Hl & Hno & Hr)].
      * rewrite <-Ec in Hr. apply concat_elem in Hr as (s & Hs & Hr). exists s. split; [|done].
        apply (proj1 (Hb tri s Ht)). by left.
      * exists l. split; [|done]. apply (proj1 (Hb tri' l Ht')). by right.
Qed.

(** Rows that replace a block, none before its first, none up to the next block. *)
Lemma cleared_block t t1 tri old new : post_ok t → tri < U32 → block t tri old →
  (hd 0 new = hd 0 old ∧ new ≠ [] ∨ t_get t1 (post_key tri (hd 0 old)) = None) →
  (∀ k, k ≠ post_key tri (hd 0 old) → t_get t1 k = t_get t k) →
  asc new → Forall (λ x, x < U64) new →
  (∀ l, block t tri l → hd 0 l < hd 0 old → ∀ x y, x ∈ l → y ∈ new → x < y) →
  (∀ l, block t tri l → hd 0 old < hd 0 l → ∀ y, y ∈ new → y < hd 0 l) →
  cleared t t1 tri old new.
Proof.
  intros Po Ht Ho Hg Hk Ha Hu Hlo Hhi. constructor; [by right|done| |done|done|].
  - intros k [->|]; [by destruct Ho as [[? _] _]|by apply Hk].
  - intros l Hl Hne. destruct (N.lt_trichotomy (hd 0 l) (hd 0 old)) as [Hlt|[E|Hlt]].
    + left. by apply Hlo.
    + by destruct (Hne (block_unique t tri l old Hl Ho E)).
    + right. intros x y Hx Hy. specialize (Hhi l Hl Hlt y Hy). destruct Hl as [(_ & Hal & _) _]. destruct l as [|f l]; [by apply elem_of_nil in Hx|].
      pose proof (asc_cons_le f l Hal x Hx). cbn [hd] in *. lia.
Qed.

(** The rows of a term: those of one block, and those of the others. *)
Lemma in_post_split t tri old tri' r : block t tri old →
  in_post t tri' r ↔ tri' = tri ∧ r ∈ old ∨ ∃ l, block t tri' l ∧ (tri' = tri → l ≠ old) ∧ r ∈ l.
Proof.
  intros Ho. split.
  - intros (l & Hl & Hr). destruct (decide (tri' = tri ∧ l = old)) as [[-> ->]|Hne]; [by left|right].
    exists l. split_and!; [done| |done]. intros E1 E2. by apply Hne.
  - intros [[-> Hr]|(l & Hl & _ & Hr)]; [by exists old|by exists l].
Qed.

Lemma seg_hd_le l y : seg_ok l → y ∈ l → hd 0 l <= y.
Proof. intros (Hn & Ha & _) Hy. destruct l as [|f l]; [done|]. by apply (asc_cons_le f l Ha). Qed.

(** A row goes into the last block that begins at or before it. *)
Lemma cleared_insert t tri l a b row : post_ok t → tri < U32 → row < U64 → block t tri l → l = a ++ b →
  hd 0 l <= row → (∀ l', block t tri l' → hd 0 l' <= row → hd 0 l' <= hd 0 l) →
  (∀ y, y ∈ a → y < row) → (∀ y, y ∈ b → row < y) → cleared t t tri l (a ++ row :: b).
Proof.
  intros Po Ht Hr Hl E Hle Hmax H1 H2. pose proof Hl as [Hs _]. pose proof Hs as (Hn & Ha & Hu).
  assert (Hnew : ∀ y, y ∈ a ++ row :: b → y = row ∨ y ∈ l) by (intros y; rewrite E; set_solver).
  apply cleared_block; try done.
  - left. split; [|by destruct a]. destruct a as [|f a]; [|by rewrite E]. exfalso. cbn [app] in E. subst b.
    specialize (H2 (hd 0 l) (hd_elem l Hn)). lia.
  - rewrite E in Ha. apply asc_app in Ha as (Ha & Hb & Hab). apply asc_app. split_and!; [done| |].
    + constructor; [done|]. by apply Forall_forall.
    + intros x y Hx [->|Hy]%elem_of_cons; [by apply H1|by apply Hab].
  - apply Forall_forall. rewrite Forall_forall in Hu. intros y [->|Hy]%Hnew; [done|by apply Hu].
  - intros l' Hl' Hlt x y Hx [->|Hy%(seg_hd_le l y Hs)]%Hnew;
      pose proof (po_apart t Po tri l' l Ht Hl' Hl Hlt) as Hf; rewrite Forall_forall in Hf; specialize (Hf x Hx); lia.
  - intros l' Hl' Hlt y [->|Hy]%Hnew.
    + destruct (N.lt_ge_cases row (hd 0 l')) as [|Hge]; [done|]. specialize (Hmax l' Hl' Hge). lia.
    + pose proof (po_apart t Po tri l l' Ht Hl Hl' Hlt) as Hf. rewrite Forall_forall in Hf. by apply Hf.
Qed.

(** A row before every block of its term. *)
Lemma cleared_front t tri row : post_ok t → tri < U32 → row < U64 → (∀ l, block t tri l → row < hd 0 l) →
  match head (t_range t (post_key tri row) (post_key tri (U64 - 1))) with
  | Some (k, v) => ∃ l, block t tri l ∧ k = post_key tri (hd 0 l) ∧ v = seg_value l ∧ cleared t (t_remove t k) tri l (row :: l)
  | None => (∀ l, ¬ block t tri l) ∧ cleared t t tri [] [row]
  end.
Proof.
  intros Po Ht Hr Hall.
  assert (Hin : ∀ l, block t tri l → (post_key tri (hd 0 l), seg_value l) ∈ t_range t (post_key tri row) (post_key tri (U64 - 1))).
  { intros l Hl. apply range_block; [done..|]. exists l. split_and!; [done..| |]; [specialize (Hall l Hl); lia|].
    pose proof (hd_bound l (proj1 Hl)). lia. }
  destruct (head _) as [[k v]|] eqn:Eh.
  - pose proof (list_elem_of_lookup_2 _ 0 _ ltac:(rewrite <-Eh; by rewrite head_lookup)) as Hk.
    apply range_block in Hk as (l & Hl & -> & -> & _); [|done..]. exists l. split_and!; [done..|].
    pose proof Hl as [Hs _]. pose proof Hs as (Hn & Ha & Hu).
    apply cleared_block; try done.
    + right. apply t_get_remove_eq.
    + intros k Hk. by rewrite t_get_remove_ne.
    + constructor; [done|]. apply Forall_forall. intros y Hy%(seg_hd_le l y Hs). specialize (Hall l Hl). lia.
    + by constructor.
    + intros l' Hl' Hlt. exfalso. destruct (head_least _ _ _ (range_sorted t _ _) Eh _ (Hin l' Hl')) as [E|Hp].
      * apply (f_equal fst) in E; cbn [fst] in E; apply post_key_inj in E as [_ E]; [lia|done..|apply hd_bound, Hl'|by apply hd_bound].
      * unfold pair_lt in Hp. cbn [fst] in Hp. apply key_lt_head in Hp; [lia|done|by apply hd_bound|apply hd_bound, Hl'].
    + intros l' Hl' Hlt y [->|Hy]%elem_of_cons; [by apply Hall|].
      pose proof (po_apart t Po tri l l' Ht Hl Hl' Hlt) as Hf. rewrite Forall_forall in Hf. by apply Hf.
  - assert (Hno : ∀ l, ¬ block t tri l).
    { intros l Hl. specialize (Hin l Hl). destruct (t_range _ _ _); [by apply elem_of_nil in Hin|done]. }
    split; [done|]. constructor; try done; [by left|repeat constructor|by constructor|]. intros l Hl. by destruct (Hno l).
Qed.

Lemma add_posting_spec t tri row : post_ok t → tri < U32 → row < U64 →
  ∃ t', add_posting t tri row = Ok t' ∧ post_ok t' ∧
    ∀ tri' r, tri' < U32 → in_post t' tri' r ↔ tri' = tri ∧ r = row ∨ in_post t tri' r.
Proof.
  intros Po Ht Hr. unfold add_posting. pose proof (at_or_before t tri row Po Ht Hr) as Hb.
  destruct (block_at_or_before t tri row) as [[k v]|].
  - destruct Hb as (l & Hl & -> & -> & Hle & Hmax). rewrite (decode_at t tri l Hl). cbn [rbind].
    pose proof (binary_search_spec l row (proj1 (proj2 (proj1 Hl)))) as Hbs.
    destruct (binary_search l row) as [[] i].
    + destruct Hbs as (a & b & E & _). exists t. split_and!; [done..|]. intros tri' r _. split; [by right|].
      intros [[-> ->]|]; [|done]. exists l. split; [done|]. rewrite E. set_solver.
    + destruct Hbs as (Hni & a & b & E & <- & H1 & H2).
      pose proof (cleared_insert t tri l a b row Po Ht Hr Hl E Hle Hmax H1 H2) as C.
      destruct (replace_block t t tri l _ Po Ht C) as [Po' Hin]. eexists. split_and!; [by rewrite E, take_app_length, drop_app_length|done|].
      intros tri' r Ht'. rewrite Hin, (in_post_split t tri l) by done. rewrite E. set_solver.
  - pose proof (cleared_front t tri row Po Ht Hr Hb) as Hf. destruct (head _) as [[k v]|].
    + destruct Hf as (l & Hl & -> & -> & C). rewrite (decode_at t tri l Hl). cbn [rbind].
      destruct (replace_block t _ tri l _ Po Ht C) as [Po' Hin]. eexists. split_and!; [done..|].
      intros tri' r Ht'. rewrite Hin, (in_post_split t tri l) by done. set_solver.
    + destruct Hf as [Hno C]. destruct (replace_block t _ tri [] _ Po Ht C) as [Po' Hin]. eexists. split_and!; [done..|].
      intros tri' r Ht'. rewrite Hin by done. rewrite list_elem_of_singleton. unfold in_post. split.
      * intros [?|(l & Hl & _ & Hr')]; [by left|right; by exists l].
      * intros [?|(l & Hl & Hr')]; [by left|right]. exists l. split_and!; [done| |done]. intros -> _. by destruct (Hno l).
Qed.

(** A row is in at most one block of a term. *)
Lemma blocks_disjoint t tri l l' x : post_ok t → tri < U32 → block t tri l → block t tri l' → x ∈ l → x ∈ l' → l = l'.
Proof.
  intros Po Ht Hl Hl' Hx Hx'. pose proof (seg_hd_le l x (proj1 Hl) Hx). pose proof (seg_hd_le l' x (proj1 Hl') Hx').
  destruct (N.lt_trichotomy (hd 0 l) (hd 0 l')) as [Hlt|[E|Hlt]].
  - pose proof (po_apart t Po tri l l' Ht Hl Hl' Hlt) as Hf. rewrite Forall_forall in Hf. specialize (Hf x Hx). lia.
  - by apply (block_unique t tri).
  - pose proof (po_apart t Po tri l' l Ht Hl' Hl Hlt) as Hf. rewrite Forall_forall in Hf. specialize (Hf x Hx'). lia.
Qed.

(** Only the last block that begins at or before a row can hold it. *)
Lemma only_candidate t tri row l : post_ok t → tri < U32 → block t tri l →
  (∀ l', block t tri l' → hd 0 l' <= row → hd 0 l' <= hd 0 l) → hd 0 l <= row → in_post t tri row → row ∈ l.
Proof.
  intros Po Ht Hl Hmax Hle (l' & Hl' & Hr). pose proof (seg_hd_le l' row (proj1 Hl') Hr) as Hh.
  specialize (Hmax l' Hl' Hh). destruct (decide (hd 0 l' = hd 0 l)) as [E|Hne].
  - by rewrite <-(block_unique t tri l' l Hl' Hl E).
  - pose proof (po_apart t Po tri l' l Ht Hl' Hl ltac:(lia)) as Hf. rewrite Forall_forall in Hf. specialize (Hf row Hr). lia.
Qed.

Lemma cleared_delete t tri l a b row : post_ok t → tri < U32 → block t tri l → l = a ++ row :: b →
  cleared t (if bool_decide (length a = O) then t_remove t (post_key tri (hd 0 l)) else t) tri l (a ++ b).
Proof.
  intros Po Ht Hl E. pose proof Hl as [Hs _]. pose proof Hs as (Hn & Ha & Hu).
  assert (Hsub : ∀ y, y ∈ a ++ b → y ∈ l) by (intros y; rewrite E; set_solver).
  apply cleared_block; try done.
  - case_bool_decide as Hi; [right; apply t_get_remove_eq|]. left. destruct a as [|f a]; [done|]. split; [by rewrite E|done].
  - intros k Hk. case_bool_decide; [by rewrite t_get_remove_ne|done].
  - rewrite E in Ha. apply asc_app in Ha as (Ha & [Hb _]%StronglySorted_inv & Hab). apply asc_app. split_and!; [done..|].
    intros x y Hx Hy. apply Hab; [done|by right].
  - apply Forall_forall. rewrite Forall_forall in Hu. intros y Hy%Hsub. by apply Hu.
  - intros l' Hl' Hlt x y Hx Hy%Hsub%(seg_hd_le l y Hs). pose proof (po_apart t Po tri l' l Ht Hl' Hl Hlt) as Hf.
    rewrite Forall_forall in Hf. specialize (Hf x Hx). lia.
  - intros l' Hl' Hlt y Hy%Hsub. pose proof (po_apart t Po tri l l' Ht Hl Hl' Hlt) as Hf. rewrite Forall_forall in Hf. by apply Hf.
Qed.

Lemma remove_posting_spec t tri row : post_ok t → tri < U32 → row < U64 →
  ∃ t', remove_posting t tri row = Ok t' ∧ post_ok t' ∧
    ∀ tri' r, tri' < U32 → in_post t' tri' r ↔ in_post t tri' r ∧ ¬ (tri' = tri ∧ r = row).
Proof.
  intros Po Ht Hr. unfold remove_posting. pose proof (at_or_before t tri row Po Ht Hr) as Hb.
  assert (Hsame : ¬ in_post t tri row → ∀ tri' r, tri' < U32 → in_post t tri' r ↔ in_post t tri' r ∧ ¬ (tri' = tri ∧ r = row)).
  { intros Hno tri' r _. split; [|by intros [? _]]. intros Hin. split; [done|]. by intros [-> ->]. }
  destruct (block_at_or_before t tri row) as [[k v]|].
  - destruct Hb as (l & Hl & -> & -> & Hle & Hmax). rewrite (decode_at t tri l Hl). cbn [rbind].
    pose proof (proj1 (proj2 (proj1 Hl))) as Ha. pose proof (binary_search_spec l row Ha) as Hbs.
    destruct (binary_search l row) as [[] i].
    + destruct Hbs as (a & b & E & <-). pose proof (cleared_delete t tri l a b row Po Ht Hl E) as C.
      destruct (replace_block t _ tri l _ Po Ht C) as [Po' Hin]. eexists. split_and!; [|exact Po'|].
      { do 2 f_equal. rewrite E, take_app_length. f_equal. rewrite (app_assoc a [row] b : a ++ row :: b = _), drop_app_length'; [done|].
        rewrite length_app. cbn. lia. }
      intros tri' r Ht'. rewrite Hin, (in_post_split t tri l) by done.
      rewrite E in Ha. apply asc_app in Ha as (_ & Hb & Hab).
      assert (Hnot : row ∉ a ++ b).
      { intros [Hx|Hx]%elem_of_app; [specialize (Hab row row Hx ltac:(left)); lia|].
        apply StronglySorted_inv in Hb as [_ Hf]. rewrite Forall_forall in Hf. specialize (Hf row Hx). lia. }
      assert (Hrl : row ∈ l) by (rewrite E; set_solver).
      assert (Hel : ∀ y, y ∈ l ↔ y = row ∨ y ∈ a ++ b) by (intros y; rewrite E; set_solver).
      rewrite Hel. split.
      * intros [[-> Hy]|(l' & Hl' & Hne & Hy)]; [split; [left; tauto|intros [_ ->]; done]|].
        split; [right; by exists l'|]. intros [-> ->]. apply (Hne eq_refl). by apply (blocks_disjoint t tri l' l row).
      * intros [[[-> [->|Hy]]|Hother] Hne]; [tauto|by left|by right].
    + destruct Hbs as [Hni _]. exists t. split_and!; [done..|]. apply Hsame. intros Hin. apply Hni.
      by apply (only_candidate t tri row l).
  - exists t. split_and!; [done..|]. apply Hsame. intros (l & Hl & Hin). specialize (Hb l Hl).
    pose proof (seg_hd_le l row (proj1 Hl) Hin). lia.
Qed.

(** Reading a term gives its rows, ascending. *)
Lemma read_blocks t tri : post_ok t → tri < U32 →
  ∃ ns, rmap (@concat N) (traverse (λ p, decode_block p.1 p.2) (t_range t (post_key tri 0) (post_key tri (U64 - 1)))) = Ok ns ∧
    asc ns ∧ ∀ r, r ∈ ns ↔ in_post t tri r.
Proof.
  intros Po Ht. pose proof (range_sorted t (post_key tri 0) (post_key tri (U64 - 1))) as Hs.
  assert (Hr := λ k v, range_block t tri 0 (U64 - 1) k v Po Ht ltac:(done) ltac:(done)).
  set (es := t_range t _ _) in *.
  assert (Hd : ∃ segs, traverse (λ p, decode_block p.1 p.2) es = Ok segs ∧ asc (concat segs) ∧
    Forall2 (λ p s, block t tri s ∧ p.1 = post_key tri (hd 0 s)) es segs).
  { assert (Hin : ∀ p, p ∈ es → ∃ l, block t tri l ∧ p = (post_key tri (hd 0 l), seg_value l)).
    { intros [k v] (l & ? & -> & -> & _)%Hr. eauto. }
    clearbody es. clear Hr. induction Hs as [|p es Hs IH Hf]; [exists []; split_and!; [done|constructor..]|].
    destruct IH as (segs & E & Ha & H2); [intros q Hq; apply Hin; by right|].
    destruct (Hin p ltac:(left)) as (l & Hl & ->). exists (l :: segs). cbn [traverse fst snd].
    rewrite (decode_at t tri l Hl). cbn [rbind]. rewrite E. split_and!; [done| |by constructor].
    cbn [concat]. apply asc_app. split_and!; [apply Hl|done|]. intros x y Hx (s & Hsin & Hy)%concat_elem.
    apply list_elem_of_lookup in Hsin as [i Hi]. destruct (Forall2_lookup_r _ _ _ _ _ H2 Hi) as (q & Hq & Hbs & Eq).
    rewrite Forall_forall in Hf. specialize (Hf q (list_elem_of_lookup_2 _ _ _ Hq)). unfold pair_lt in Hf. cbn [fst] in Hf.
    rewrite Eq in Hf. apply key_lt_head in Hf; [|done|apply hd_bound, Hl|apply hd_bound, Hbs].
    pose proof (po_apart t Po tri l s Ht Hl Hbs Hf) as Hlt. rewrite Forall_forall in Hlt. specialize (Hlt x Hx).
    pose proof (seg_hd_le s y (proj1 Hbs) Hy). lia. }
  destruct Hd as (segs & -> & Ha & H2). exists (concat segs). split_and!; [done..|]. intros r. rewrite concat_elem. unfold in_post. split.
  - intros (s & Hsin & Hy). apply list_elem_of_lookup in Hsin as [i Hi].
    destruct (Forall2_lookup_r _ _ _ _ _ H2 Hi) as (q & _ & Hbs & _). eauto.
  - intros (l & Hl & Hy). assert (Hin : (post_key tri (hd 0 l), seg_value l) ∈ es).
    { apply Hr. exists l. pose proof (hd_bound l (proj1 Hl)). split_and!; [done..|lia|lia]. }
    apply list_elem_of_lookup in Hin as [i Hi]. destruct (Forall2_lookup_l _ _ _ _ _ H2 Hi) as (s & Hsi & Hbs & E).
    cbn [fst] in E. apply post_key_inj in E as [_ E]; [|done..|apply hd_bound, Hl|apply hd_bound, Hbs].
    rewrite (block_unique t tri l s Hl Hbs E) in Hy. exists s. split; [|done]. by eapply list_elem_of_lookup_2.
Qed.
End tables.

(** ** An index of terms answers exactly

    The record of a row reads back, and the tables of an index hold the terms of its rows. *)

(** ** The record of a row reads back *)

Record rec_ok (r : TriRecord) : Prop := {
  ro_id : tr_id r < U64; ro_flags : tr_flags r < 256; ro_fanout : tr_fanout r < U64; ro_json : tr_json r < U64;
  ro_count : len (tr_tris r) < U64; ro_asc : asc (tr_tris r); ro_tris : Forall (λ x, x < U32) (tr_tris r);
}.

Lemma get_put_deltas l : ∀ prev, asc l → Forall (λ x, prev <= x) l → Forall (λ x, x < U32) l →
  get_deltas (length l) prev (put_deltas prev l) = Ok l.
Proof.
  induction l as [|x l IH]; intros prev [Ha Hf]%StronglySorted_inv Hp Hu || intros prev Ha Hp Hu; [done|].
  apply Forall_cons in Hp as [Hx Hp], Hu as [Hxu Hu]. cbv beta in Hx, Hxu. cbn [length get_deltas put_deltas].
  assert (U32 < U64) by done. rewrite get_put_varint by lia. cbn [rbind].
  destruct (N.ltb_spec (x - prev) U32); [|lia]. cbn [negb]. replace (prev + (x - prev)) with x by lia.
  destruct (N.ltb_spec x U32); [|lia]. rewrite IH; [done..| |done]. eapply Forall_impl; [exact Hf|]. intros y. lia.
Qed.

Lemma put_deltas_len l : ∀ prev, len l <= len (put_deltas prev l).
Proof.
  induction l as [|x l IH]; intros prev; [done|]. cbn [put_deltas]. rewrite len_cons, len_app.
  specialize (IH x). pose proof (put_varint_nonempty (x - prev)). unfold len in *. lia.
Qed.

Lemma tri_record_back r : rec_ok r → decode_tri_record (encode_tri_record r) = Ok r.
Proof.
  intros [Hid Hfl Hfa Hj Hc Ha Hu]. unfold encode_tri_record, decode_tri_record.
  change (byte_to_N (byte_of_N 3) =? 3) with true. cbn [negb]. rewrite get_put_varint by done. cbn [rbind].
  rewrite get_put_varint by done. cbn [rbind]. rewrite get_put_varint by done. cbn [rbind].
  rewrite get_put_varint by done. cbn [rbind].
  rewrite N.min_l by (pose proof (put_deltas_len (tr_tris r) 0); lia). unfold len at 1. rewrite Nat2N.id.
  rewrite get_put_deltas; [|done|apply Forall_forall; lia|done]. cbn [rbind]. rewrite byte_to_of_N, N.mod_small by done.
  by destruct r.
Qed.

(** ** Numbers of terms *)

Lemma insert_sorted_elem x l y : y ∈ insert_sorted x l ↔ y = x ∨ y ∈ l.
Proof. induction l as [|z l IH]; cbn [insert_sorted]; [set_solver|]. case_match; set_solver. Qed.

Lemma sort_numbers_elem l y : y ∈ sort_numbers l ↔ y ∈ l.
Proof. induction l as [|x l IH]; [done|]. cbn [sort_numbers foldr]. rewrite insert_sorted_elem. fold (sort_numbers l). set_solver. Qed.

Lemma insert_sorted_asc x l : asc l → x ∉ l → asc (insert_sorted x l).
Proof.
  induction l as [|z l IH]; intros Ha Hx; cbn [insert_sorted]; [repeat constructor|].
  pose proof Ha as [Ha' Hf]%StronglySorted_inv. destruct (N.leb_spec x z) as [Hle|Hlt].
  - constructor; [done|]. apply Forall_forall. intros y Hy%(asc_cons_le z l Ha y). assert (x ≠ z) by set_solver. lia.
  - constructor; [apply IH; [done|set_solver]|]. apply Forall_forall. intros y [->|Hy]%insert_sorted_elem; [done|].
    rewrite Forall_forall in Hf. by apply Hf.
Qed.

Lemma sort_numbers_asc l : NoDup l → asc (sort_numbers l).
Proof.
  induction 1 as [|x l Hx _ IH]; [constructor|]. cbn [sort_numbers foldr]. fold (sort_numbers l).
  apply insert_sorted_asc; [done|]. by rewrite sort_numbers_elem.
Qed.

Lemma sort_numbers_len l : len (sort_numbers l) = len l.
Proof.
  assert (Hi : ∀ x l, len (insert_sorted x l) = len l + 1).
  { intros x l0. induction l0 as [|z l0 IH]; cbn [insert_sorted]; [done|]. case_match; rewrite !len_cons; [lia|]. rewrite IH. lia. }
  induction l as [|x l IH]; [done|]. cbn [sort_numbers foldr]. fold (sort_numbers l). rewrite Hi, len_cons, IH. lia.
Qed.

Lemma binary_search_in l x : asc l → (binary_search l x).1 = true ↔ x ∈ l.
Proof.
  intros Ha. pose proof (binary_search_spec l x Ha) as Hb. destruct (binary_search l x) as [[] i]; cbn.
  - destruct Hb as (a & b & -> & _). split; [|done]. intros _. set_solver.
  - destruct Hb as [Hn _]. split; [done|]. by intros ?.
Qed.

Lemma missing_from_elem other l x : asc other → x ∈ missing_from other l ↔ x ∈ l ∧ x ∉ other.
Proof.
  intros Ha. unfold missing_from. rewrite list_elem_of_filter, <-not_true_iff_false, binary_search_in by done. tauto.
Qed.

Section tri.
Context `{Redb}.

(** The dictionary gives different numbers below [next] to different terms. *)
Definition dict_ok (dict : table str N) (next : N) : Prop :=
  next <= U32 ∧ (∀ g n, t_get dict g = Some n → n < next) ∧
  ∀ g g' n, t_get dict g = Some n → t_get dict g' = Some n → g = g'.

Lemma number_terms_spec grams : ∀ dict next, dict_ok dict next → NoDup grams →
  match number_terms dict next grams with
  | Ok (ts, dict', next') => dict_ok dict' next' ∧ next <= next' ∧ NoDup ts ∧ len ts = len grams ∧
      (∀ g n, t_get dict g = Some n → t_get dict' g = Some n) ∧
      (∀ g, g ∈ grams → is_Some (t_get dict' g)) ∧ (∀ n, n ∈ ts ↔ ∃ g, g ∈ grams ∧ t_get dict' g = Some n)
  | Err _ => U32 < next + len grams
  end.
Proof.
  induction grams as [|g grams IH]; intros dict next Hd Hn; cbn [number_terms].
  { split_and!; try done; [constructor|set_solver|set_solver]. }
  apply NoDup_cons in Hn as [Hg Hn]. rewrite len_cons.
  assert (Hstep : ∀ t dict1 next1, dict_ok dict1 next1 → next <= next1 <= next + 1 → t_get dict1 g = Some t →
    (∀ g' n, t_get dict g' = Some n → t_get dict1 g' = Some n) →
    match (let? '(ts, dict', next') := number_terms dict1 next1 grams in Ok (t :: ts, dict', next')) with
    | Ok (ts, dict', next') => dict_ok dict' next' ∧ next <= next' ∧ NoDup ts ∧ len ts = 1 + len grams ∧
        (∀ g n, t_get dict g = Some n → t_get dict' g = Some n) ∧
        (∀ g', g' ∈ g :: grams → is_Some (t_get dict' g')) ∧ (∀ n, n ∈ ts ↔ ∃ g', g' ∈ g :: grams ∧ t_get dict' g' = Some n)
    | Err _ => U32 < next + (1 + len grams)
    end).
  { intros t dict1 next1 Hd1 Hnx Ht Hext. specialize (IH dict1 next1 Hd1 Hn). revert IH.
    destruct (number_terms dict1 next1 grams) as [[[ts dict'] next']|]; cbn [rbind]; intros IH; [|lia].
    destruct IH as (Hd' & Hle & Hnd & Hl & He & Hs & Hts). pose proof (He g t Ht) as Hgt.
    split_and!; [done|lia| |rewrite len_cons; lia|by auto| |].
    - constructor; [|done]. intros (g' & Hg' & E)%Hts. assert (g = g') as <- by (by apply (proj2 (proj2 Hd') g g' t)). done.
    - intros g' [->|Hg']%elem_of_cons; [eauto|by apply Hs].
    - intros n. rewrite elem_of_cons, Hts. split.
      + intros [->|(g' & Hg' & E)]; [exists g; split; [left|done]|exists g'; split; [by right|done]].
      + intros (g' & [->|Hg']%elem_of_cons & E); [left; congruence|right; eauto]. }
  destruct (t_get dict g) as [t|] eqn:Eg; [apply Hstep; [done|lia|done|done]|].
  destruct (N.ltb_spec next U32) as [Hlt|Hge]; [|unfold corrupt; lia]. destruct Hd as (Hu & Hb & Hi).
  apply (Hstep next (t_insert dict g next) (next + 1)); [|lia|by rewrite t_get_insert_eq|].
  - split_and!; [lia|..].
    + intros g' n. rewrite t_get_insert. case_decide; [intros [= <-]; lia|]. intros E%Hb. lia.
    + intros g1 g2 n. rewrite !t_get_insert. repeat case_decide; subst; try done.
      * intros [= <-] E%Hb. lia.
      * intros E%Hb [= <-]. lia.
      * apply Hi.
  - intros g' n E. rewrite t_get_insert_ne; [done|]. intros <-. congruence.
Qed.

(** ** Many postings *)

Lemma each_remove id l : id < U64 → Forall (λ n, n < U32) l → ∀ t, post_ok t →
  ∃ t', each (λ p x, remove_posting p x id) l t = Ok t' ∧ post_ok t' ∧
    ∀ n r, n < U32 → in_post t' n r ↔ in_post t n r ∧ ¬ (r = id ∧ n ∈ l).
Proof.
  intros Hid. induction l as [|x l IH]; intros Hl t Po; unfold each in *; cbn [try_fold].
  { exists t. split_and!; [done..|]. intros n r _. split; [|tauto]. intros Hin. split; [done|]. intros [_ Hx]. by apply elem_of_nil in Hx. }
  apply Forall_cons in Hl as [Hx Hl]. destruct (remove_posting_spec t x id Po Hx Hid) as (t1 & -> & Po1 & H1). cbn [rbind].
  destruct (IH Hl t1 Po1) as (t2 & -> & Po2 & H2). exists t2. split_and!; [done..|]. intros n r Hn. rewrite H2, H1 by done. set_solver.
Qed.

Lemma each_add id l : id < U64 → Forall (λ n, n < U32) l → ∀ t, post_ok t →
  ∃ t', each (λ p x, add_posting p x id) l t = Ok t' ∧ post_ok t' ∧
    ∀ n r, n < U32 → in_post t' n r ↔ in_post t n r ∨ (r = id ∧ n ∈ l).
Proof.
  intros Hid. induction l as [|x l IH]; intros Hl t Po; unfold each in *; cbn [try_fold].
  { exists t. split_and!; [done..|]. intros n r _. split; [by left|]. intros [?|[_ Hx]]; [done|]. by apply elem_of_nil in Hx. }
  apply Forall_cons in Hl as [Hx Hl]. destruct (add_posting_spec t x id Po Hx Hid) as (t1 & -> & Po1 & H1). cbn [rbind].
  destruct (IH Hl t1 Po1) as (t2 & -> & Po2 & H2). exists t2. split_and!; [done..|]. intros n r Hn. rewrite H2, H1 by done. set_solver.
Qed.

(** One row's terms change from [before] to [tris]. *)
Lemma posts_rewrite posts id before tris : post_ok posts → id < U64 → asc before → asc tris →
  Forall (λ n, n < U32) before → Forall (λ n, n < U32) tris → (∀ n, n < U32 → in_post posts n id ↔ n ∈ before) →
  ∃ p1 p2, each (λ p x, remove_posting p x id) (missing_from tris before) posts = Ok p1 ∧
    each (λ p x, add_posting p x id) (missing_from before tris) p1 = Ok p2 ∧ post_ok p2 ∧
    ∀ n r, n < U32 → in_post p2 n r ↔ r = id ∧ n ∈ tris ∨ r ≠ id ∧ in_post posts n r.
Proof.
  intros Po Hid Hb Ht Ub Ut Hin. rewrite Forall_forall in Ub, Ut.
  destruct (each_remove id (missing_from tris before) Hid) with (t := posts) as (p1 & E1 & Po1 & H1); [|done|].
  { apply Forall_forall. intros n [? _]%missing_from_elem; [by apply Ub|done]. }
  destruct (each_add id (missing_from before tris) Hid) with (t := p1) as (p2 & E2 & Po2 & H2); [|done|].
  { apply Forall_forall. intros n [? _]%missing_from_elem; [by apply Ut|done]. }
  exists p1, p2. split_and!; [done..|]. intros n r Hn. rewrite H2, H1, !missing_from_elem by done.
  destruct (decide (r = id)) as [->|Hne]; [|tauto]. rewrite Hin by done. destruct (decide (n ∈ before)), (decide (n ∈ tris)); tauto.
Qed.

(** ** The index stands for a map from rows to their terms *)

Definition row_record (t : Tri) (row : str) (r : TriRecord) : Prop :=
  t_get (t_reverse t) row = Some (encode_tri_record r) ∧ rec_ok r ∧ tr_id r < counter t (lit "row") ∧
  t_get (t_ids t) (tr_id r) = Some row.

(** The numbers of the terms [grams]. *)
Definition numbers_of (dict : table str N) (grams : list str) (ns : list N) : Prop :=
  (∀ g, g ∈ grams → is_Some (t_get dict g)) ∧ ∀ n, n ∈ ns ↔ ∃ g, g ∈ grams ∧ t_get dict g = Some n.

Record tri_ok (t : Tri) (rows : gmap str (list str)) : Prop := {
  to_posts : post_ok (t_posts t);
  to_dict : dict_ok (t_dict t) (counter t (lit "tri"));
  to_row : ∀ row grams, rows !! row = Some grams → ∃ r, row_record t row r ∧ numbers_of (t_dict t) grams (tr_tris r);
  to_none : ∀ row, rows !! row = None → t_get (t_reverse t) row = None;
  to_ids : ∀ id row, t_get (t_ids t) id = Some row → ∃ r, row_record t row r ∧ tr_id r = id;
  to_in : ∀ n id, n < U32 → in_post (t_posts t) n id ↔ ∃ row r, row_record t row r ∧ tr_id r = id ∧ n ∈ tr_tris r;
}.

Lemma row_record_unique t row r r' : row_record t row r → row_record t row r' → r = r'.
Proof.
  intros (E & Ho & _) (E' & Ho' & _). assert (Ee : encode_tri_record r = encode_tri_record r') by congruence.
  apply tri_record_back in Ho, Ho'. rewrite Ee in Ho. congruence.
Qed.

Lemma same_id t row row' r r' : row_record t row r → row_record t row' r' → tr_id r = tr_id r' → row = row'.
Proof. intros (_ & _ & _ & E) (_ & _ & _ & E') Eid. rewrite Eid in E. congruence. Qed.

Lemma old_record_spec t rows row : tri_ok t rows →
  match rows !! row with
  | Some grams => ∃ r, old_record t row = Ok (Some r) ∧ row_record t row r ∧ numbers_of (t_dict t) grams (tr_tris r)
  | None => old_record t row = Ok None
  end.
Proof.
  intros Ho. unfold old_record. destruct (rows !! row) as [grams|] eqn:E.
  - destruct (to_row t rows Ho row grams E) as (r & Hr & Hg). exists r. split_and!; [|done..].
    destruct Hr as (-> & Hok & _). by rewrite tri_record_back.
  - by rewrite (to_none t rows Ho row E).
Qed.

Lemma tri_new_ok : tri_ok tri_new ∅.
Proof.
  constructor; cbn [tri_new t_posts t_dict t_reverse t_ids t_counters].
  - split; [intros k v E; by rewrite t_get_new in E|]. intros tri l l' _ [_ E]. by rewrite t_get_new in E.
  - split_and!; [unfold counter; cbn; rewrite t_get_new; done|..]; intros g n; rewrite t_get_new; done.
  - intros row grams E. by rewrite lookup_empty in E.
  - intros. apply t_get_new.
  - intros id row E. by rewrite t_get_new in E.
  - intros n id _. split.
    + intros (l & [_ E] & _). by rewrite t_get_new in E.
    + intros (row & r & [E _] & _). cbn in E. by rewrite t_get_new in E.
Qed.

Lemma numbers_extend dict dict' grams ns : (∀ g n, t_get dict g = Some n → t_get dict' g = Some n) →
  numbers_of dict grams ns → numbers_of dict' grams ns.
Proof.
  intros He [Hs Hn]. split; [intros g Hg; destruct (Hs g Hg) as [n Hgn]; exists n; by apply He|].
  intros n. rewrite Hn. split.
  - intros (g & Hg & E). exists g. split; [done|by apply He].
  - intros (g & Hg & E). exists g. split; [done|]. destruct (Hs g Hg) as [m Hm]. pose proof (He g m Hm). congruence.
Qed.

(** One row has a new record; the others keep theirs. *)
Lemma tri_set t rows row grams r ids dict posts counters :
  let t' := {| t_posts := posts; t_reverse := t_insert (t_reverse t) row (encode_tri_record r); t_dict := dict; t_ids := ids;
               t_counters := counters |} in
  tri_ok t rows → rec_ok r → counter t (lit "row") <= counter t' (lit "row") → tr_id r < counter t' (lit "row") →
  dict_ok dict (counter t' (lit "tri")) → (∀ g n, t_get (t_dict t) g = Some n → t_get dict g = Some n) →
  numbers_of dict grams (tr_tris r) →
  t_get ids (tr_id r) = Some row → (∀ id, id ≠ tr_id r → t_get ids id = t_get (t_ids t) id) →
  (∀ row' r', row_record t row' r' → tr_id r' = tr_id r → row' = row) → (∀ r', row_record t row r' → tr_id r' = tr_id r) →
  post_ok posts →
  (∀ n id, n < U32 → in_post posts n id ↔ id = tr_id r ∧ n ∈ tr_tris r ∨ id ≠ tr_id r ∧ in_post (t_posts t) n id) →
  tri_ok t' (<[row := grams]> rows).
Proof.
  intros t' Ok_ Hr Hc Hid Hd Hext Hnum Hi Hio Huniq Hown Po Hin.
  assert (Hrec : row_record t' row r) by (split_and!; [apply t_get_insert_eq|done..]).
  assert (Hkeep : ∀ row' r', row' ≠ row → row_record t' row' r' ↔ row_record t row' r').
  { intros row' r' Hne. unfold row_record. cbn [t' t_reverse t_ids]. rewrite t_get_insert_ne by done. split.
    - intros (E & Ho & _ & _). destruct (rows !! row') as [g|] eqn:Er.
      + destruct (to_row t rows Ok_ row' g Er) as (r0 & H0 & _). pose proof H0 as (E0 & Ho0 & _).
        assert (r0 = r') as <-; [|done]. apply tri_record_back in Ho, Ho0. congruence.
      + rewrite (to_none t rows Ok_ row' Er) in E. done.
    - intros (E & Ho & Hl & Hids). split_and!; [done..|lia|]. rewrite Hio; [done|]. intros Eid. apply Hne.
      apply (Huniq row' r'); [by split_and!|done]. }
  constructor; cbn [t' t_posts t_dict t_reverse t_ids].
  - done.
  - done.
  - intros row' g. destruct (decide (row' = row)) as [->|Hne].
    + rewrite lookup_insert_eq. intros [= <-]. by exists r.
    + rewrite lookup_insert_ne by done. intros E. destruct (to_row t rows Ok_ row' g E) as (r' & H1 & H2).
      exists r'. split; [by apply Hkeep|by eapply numbers_extend].
  - intros row'. destruct (decide (row' = row)) as [->|Hne]; [by rewrite lookup_insert_eq|].
    rewrite lookup_insert_ne, t_get_insert_ne by done. apply (to_none t rows Ok_).
  - intros id row' E. destruct (decide (id = tr_id r)) as [->|Hne].
    + rewrite Hi in E. injection E as <-. by exists r.
    + rewrite Hio in E by done. destruct (to_ids t rows Ok_ id row' E) as (r' & H1 & <-).
      destruct (decide (row' = row)) as [->|Hne']; [by rewrite (Hown r' H1) in Hne|]. exists r'. split; [by apply Hkeep|done].
  - intros n id Hn. rewrite Hin by done. split.
    + intros [[-> Hx]|[Hne Hx]]; [by exists row, r|]. apply (to_in t rows Ok_) in Hx as (row' & r' & H1 & <- & H2); [|done].
      exists row', r'. split_and!; [|done..]. apply Hkeep; [|done]. intros ->. by rewrite (Hown r' H1) in Hne.
    + intros (row' & r' & H1 & <- & H2). destruct (decide (row' = row)) as [->|Hne].
      * rewrite (row_record_unique t' row r' r H1 Hrec) in *. by left.
      * apply Hkeep in H1; [|done]. right. split; [|apply (to_in t rows Ok_); [done|by exists row', r']].
        intros Eid. by apply Hne, (Huniq row' r').
Qed.

Definition stats_ok (s : RowStats) : Prop := st_fanout s < U64 ∧ st_json_bytes s < U64.

Lemma new_record_ok id tris s : id < U64 → stats_ok s → len tris < U64 → asc tris → Forall (λ x, x < U32) tris →
  rec_ok (new_tri_record id tris s).
Proof.
  intros Hi [Hf Hj] Hl Ha Hu. constructor; try done. cbn [new_tri_record tr_flags]. unfold bit. repeat case_match; done.
Qed.

Lemma counter_insert (t : table str N) k n k' : default 0 (t_get (t_insert t k n) k') = if decide (k = k') then n else default 0 (t_get t k').
Proof. rewrite t_get_insert. by repeat case_decide. Qed.

(** The counters after a write. *)
Lemma counters_after (t : Tri) row_n tri_n :
  let c1 := if row_n =? counter t (lit "row") then t_counters t else t_insert (t_counters t) (lit "row") row_n in
  let c2 := if tri_n =? counter t (lit "tri") then c1 else t_insert c1 (lit "tri") tri_n in
  default 0 (t_get c2 (lit "row")) = row_n ∧ default 0 (t_get c2 (lit "tri")) = tri_n.
Proof.
  cbn zeta. unfold counter. destruct (N.eqb_spec row_n (default 0 (t_get (t_counters t) (lit "row")))) as [Er|Er],
    (N.eqb_spec tri_n (default 0 (t_get (t_counters t) (lit "tri")))) as [Et|Et];
    rewrite ?counter_insert; rewrite ?(decide_True (P := lit _ = lit _)), ?(decide_False (P := lit _ = lit _)) by done; done.
Qed.

Lemma tri_write_ok row grams s t rows : tri_ok t rows → NoDup grams → len grams < U64 → counter t (lit "row") < U64 → stats_ok s →
  match tri_write row grams s t with
  | Ok (_, t') => tri_ok t' (<[row := grams]> rows)
  | Err _ => U32 < counter t (lit "tri") + len grams
  end.
Proof.
  intros Ok_ Hnd Hlen Hrow Hs. unfold tri_write. pose proof (old_record_spec t rows row Ok_) as Hold.
  pose proof (number_terms_spec grams (t_dict t) (counter t (lit "tri")) (to_dict t rows Ok_) Hnd) as Hnum.
  assert (Hgo : ∀ old id ids row_n,
    old_record t row = Ok old → id < U64 → id < row_n → counter t (lit "row") <= row_n →
    t_get ids id = Some row → (∀ id', id' ≠ id → t_get ids id' = t_get (t_ids t) id') →
    (∀ row' r', row_record t row' r' → tr_id r' = id → row' = row) → (∀ r', row_record t row r' → tr_id r' = id ∧ old = Some r') →
    match old with Some r => row_record t row r ∧ tr_id r = id | None => True end →
    match (let? '(tris, dict, tri_n) := number_terms (t_dict t) (counter t (lit "tri")) grams in
           let tris := sort_numbers tris in
           let before := match old with Some o => tr_tris o | None => [] end in
           let? posts := each (λ p x, remove_posting p x id) (missing_from tris before) (t_posts t) in
           let? posts := each (λ p x, add_posting p x id) (missing_from before tris) posts in
           let counters := if row_n =? counter t (lit "row") then t_counters t else t_insert (t_counters t) (lit "row") row_n in
           let counters := if tri_n =? counter t (lit "tri") then counters else t_insert counters (lit "tri") tri_n in
           Ok ((λ o, record_stats o row) <$> old,
               {| t_posts := posts; t_reverse := t_insert (t_reverse t) row (encode_tri_record (new_tri_record id tris s));
                  t_dict := dict; t_ids := ids; t_counters := counters |})) with
    | Ok (_, t') => tri_ok t' (<[row := grams]> rows)
    | Err _ => U32 < counter t (lit "tri") + len grams
    end).
  { intros old id ids row_n Eo Hid Hlt Hle Hi Hio Hu Hown Ho. destruct (number_terms _ _ grams) as [[[tris dict] tri_n]|]; cbn [rbind]; [|done].
    destruct Hnum as (Hd & _ & Hnt & Hl & Hext & Hsome & Hns). cbn zeta.
    assert (Ha : asc (sort_numbers tris)) by by apply sort_numbers_asc.
    assert (Hb : Forall (λ x, x < U32) (sort_numbers tris)).
    { apply Forall_forall. intros n (g & _ & E)%sort_numbers_elem%Hns. pose proof (proj1 (proj2 Hd) g n E). destruct Hd as [? _]. lia. }
    set (before := match old with Some o => tr_tris o | None => [] end).
    assert (Hbef : asc before ∧ Forall (λ x, x < U32) before).
    { unfold before. destruct old as [o|]; [|by split; constructor]. destruct Ho as [(_ & [] & _) _]. done. }
    destruct (posts_rewrite (t_posts t) id before (sort_numbers tris) (to_posts t rows Ok_) Hid (proj1 Hbef) Ha (proj2 Hbef) Hb)
      as (p1 & p2 & -> & E2 & Po & Hin).
    { intros n Hn. rewrite (to_in t rows Ok_) by done. split.
      - intros (row' & r' & H1 & H2 & H3). rewrite (Hu row' r' H1 H2) in H1. destruct (Hown r' H1) as [_ ->]. done.
      - intros Hx. unfold before in Hx. destruct old as [o|]; [|by apply elem_of_nil in Hx]. destruct Ho as [Ho <-]. by exists row, o. }
    cbn [rbind]. rewrite E2. cbn [rbind]. destruct (counters_after t row_n tri_n) as [C1 C2].
    unfold counter in C1, C2.
    apply (tri_set t rows row grams (new_tri_record id (sort_numbers tris) s)); unfold counter; cbn [t_counters]; rewrite ?C1, ?C2;
      cbn [new_tri_record tr_id tr_tris]; try done.
    - apply new_record_ok; try done. rewrite sort_numbers_len. lia.
    - split; [done|]. intros n. by rewrite sort_numbers_elem.
    - intros r' Hr'. by destruct (Hown r' Hr'). }
  destruct (rows !! row) as [g0|] eqn:Er.
  - destruct Hold as (r & Eo & Hr & _). rewrite Eo. cbn [rbind]. pose proof Hr as (_ & Hrok & Hlt & Hids).
    apply (Hgo (Some r)); try done; [by apply ro_id|..].
    + intros row' r' H1 H2. by apply (same_id t row' row r' r).
    + intros r' Hr'. by rewrite (row_record_unique t row r' r Hr' Hr).
  - rewrite Hold. cbn [rbind]. apply (Hgo None); try done; [lia|lia|apply t_get_insert_eq|..].
    + intros id' Hne. by rewrite t_get_insert_ne.
    + intros row' r' (_ & _ & Hlt & _) E. lia.
    + intros r' (E & _). by rewrite (to_none t rows Ok_ row Er) in E.
Qed.

Lemma tri_remove_ok row t rows : tri_ok t rows → ∃ old t', tri_remove row t = Ok (old, t') ∧ tri_ok t' (delete row rows) ∧
  counter t' (lit "row") = counter t (lit "row") ∧ counter t' (lit "tri") = counter t (lit "tri").
Proof.
  intros Ok_. unfold tri_remove. pose proof (old_record_spec t rows row Ok_) as Hold. destruct (rows !! row) as [g0|] eqn:Er.
  2:{ rewrite Hold. cbn [rbind]. rewrite delete_id by done. by exists None, t. }
  destruct Hold as (r & -> & Hr & _). cbn [rbind]. pose proof Hr as (_ & Hrok & Hlt & Hids).
  destruct (each_remove (tr_id r) (tr_tris r) (ro_id r Hrok) (ro_tris r Hrok) (t_posts t) (to_posts t rows Ok_))
    as (posts & -> & Po & Hin). cbn [rbind]. eexists _, _. split; [done|]. split; [|done].
  set (t' := {| t_posts := posts |}).
  assert (Hkeep : ∀ row' r', row_record t' row' r' ↔ row' ≠ row ∧ row_record t row' r').
  { intros row' r'. unfold row_record. cbn [t' t_reverse t_ids]. split.
    - intros (E & Ho & Hl & Hi). rewrite t_get_remove in E. rewrite t_get_remove in Hi. repeat case_decide; done.
    - intros [Hne (E & Ho & Hl & Hi)]. rewrite !t_get_remove_ne; [done| |congruence]. intros Eid. apply Hne.
      rewrite Eid in Hids. congruence. }
  constructor; cbn [t' t_posts t_dict t_reverse t_ids].
  - done.
  - apply (to_dict t rows Ok_).
  - intros row' g [Hne E]%lookup_delete_Some. destruct (to_row t rows Ok_ row' g E) as (r' & H1 & H2).
    exists r'. split; [by apply Hkeep|done].
  - intros row' [->|E]%lookup_delete_None; [apply t_get_remove_eq|]. rewrite t_get_remove. case_decide; [done|]. by apply (to_none t rows Ok_).
  - intros id row' E. rewrite t_get_remove in E. case_decide as Hne; [done|]. destruct (to_ids t rows Ok_ id row' E) as (r' & H1 & <-).
    exists r'. split; [|done]. apply Hkeep. split; [|done]. intros ->. by rewrite (row_record_unique t row r' r H1 Hr) in Hne.
  - intros n id Hn. rewrite Hin, (to_in t rows Ok_) by done. split.
    + intros [(row' & r' & H1 & <- & H2) Hno]. exists row', r'. split_and!; [|done..]. apply Hkeep. split; [|done].
      intros ->. rewrite (row_record_unique t row r' r H1 Hr) in *. by apply Hno.
    + intros (row' & r' & [Hne H1]%Hkeep & <- & H2). split; [by exists row', r'|]. intros [Eid _]. by apply Hne, (same_id t row' row r' r).
Qed.

Lemma tri_read_ids g t rows : tri_ok t rows →
  ∃ ns, tri_read g t = Ok ns ∧ asc ns ∧
    ∀ id, id ∈ ns ↔ ∃ row grams, t_get (t_ids t) id = Some row ∧ rows !! row = Some grams ∧ g ∈ grams.
Proof.
  intros Ok_. unfold tri_read. destruct (t_get (t_dict t) g) as [tri|] eqn:Eg.
  - pose proof (to_dict t rows Ok_) as (Hu & Hb & Hi). pose proof (Hb g tri Eg).
    destruct (read_blocks (t_posts t) tri (to_posts t rows Ok_) ltac:(lia)) as (ns & -> & Ha & Hns). exists ns. split_and!; [done..|].
    intros id. rewrite Hns, (to_in t rows Ok_) by lia. split.
    + intros (row & r & Hr & <- & Hn). exists row.
      destruct (rows !! row) as [grams|] eqn:Er; [|destruct Hr as [E' _]; by rewrite (to_none t rows Ok_ row Er) in E'].
      destruct (to_row t rows Ok_ row grams Er) as (r' & Hr' & Hnum). assert (r = r') as <- by by eapply row_record_unique.
      destruct (proj1 (proj2 Hnum tri) Hn) as (g' & Hg' & Eg'). rewrite (Hi g g' tri Eg Eg'). exists grams. split_and!; [apply Hr'|done..].
    + intros (row & grams & Ei & Er & Hg). destruct (to_row t rows Ok_ row grams Er) as (r & Hr & Hnum).
      destruct (to_ids t rows Ok_ id row Ei) as (r' & Hr' & <-). assert (r = r') as <- by by eapply row_record_unique.
      exists row, r. split_and!; [done..|]. apply Hnum. by exists g.
  - exists []. split_and!; [done|constructor|]. intros id. split; [intros Hx; by apply elem_of_nil in Hx|].
    intros (row & grams & _ & Er & Hg). destruct (to_row t rows Ok_ row grams Er) as (r & _ & Hnum).
    destruct (proj1 Hnum g Hg) as [n En]. congruence.
Qed.

(** Every row has a number, and only one. *)
Lemma tri_row_id t rows row grams : tri_ok t rows → rows !! row = Some grams → ∃ id, t_get (t_ids t) id = Some row.
Proof. intros Ok_ Er. destruct (to_row t rows Ok_ row grams Er) as (r & Hr & _). exists (tr_id r). apply Hr. Qed.

Lemma tri_id_inj t rows row id id' : tri_ok t rows → t_get (t_ids t) id = Some row → t_get (t_ids t) id' = Some row → id = id'.
Proof.
  intros Ok_ (r & Hr & <-)%(to_ids t rows Ok_) (r' & Hr' & <-)%(to_ids t rows Ok_). by rewrite (row_record_unique t row r r' Hr Hr').
Qed.

Lemma tri_read_ok g t rows : tri_ok t rows →
  ∃ ns, tri_read g t = Ok ns ∧ asc ns ∧
    ∀ row, row ∈ tri_names ns t ↔ ∃ grams, rows !! row = Some grams ∧ g ∈ grams.
Proof.
  intros Ok_. destruct (tri_read_ids g t rows Ok_) as (ns & -> & Ha & Hns). exists ns. split_and!; [done..|].
  intros row. unfold tri_names. rewrite list_elem_of_omap. split.
  - intros (id & (row' & grams & Ei & Er & Hg)%Hns & E). exists grams. by replace row with row' by congruence.
  - intros (grams & Er & Hg). destruct (tri_row_id t rows row grams Ok_ Er) as [id Ei]. exists id. split; [|done].
    apply Hns. by exists row, grams.
Qed.

(** Every operation that changes the index: the map it stands for, before and after. *)
Inductive tstep : Tri * gmap str (list str) → Tri * gmap str (list str) → Prop :=
| ts_write t rows row grams s old t' :
    NoDup grams → len grams < U64 → counter t (lit "row") < U64 → stats_ok s →
    tri_write row grams s t = Ok (old, t') → tstep (t, rows) (t', <[row := grams]> rows)
| ts_remove t rows row old t' : tri_remove row t = Ok (old, t') → tstep (t, rows) (t', delete row rows).

Lemma tstep_ok p p' : tstep p p' → tri_ok p.1 p.2 → tri_ok p'.1 p'.2.
Proof.
  intros [t rows row grams s old t' Hn Hl Hc Hs E|t rows row old t' E] Ok_; cbn [fst snd] in *.
  - pose proof (tri_write_ok row grams s t rows Ok_ Hn Hl Hc Hs) as Hw. by rewrite E in Hw.
  - destruct (tri_remove_ok row t rows Ok_) as (old' & t2 & E' & Hok & _). rewrite E in E'. by injection E' as -> ->.
Qed.
End tri.

(** An index of terms answers exactly.  After any sequence of writes and removals of
    rows from the empty index, reading a term never fails and gives, each once and in the
    order of their numbers, exactly the rows whose last written terms hold it; and a write
    fails only when the numbers of terms run out. *)
Lemma postings_exact `{Redb} t rows : rtc tstep (tri_new, ∅) (t, rows) →
  (∀ g, ∃ ns, tri_read g t = Ok ns ∧ asc ns ∧
     ∀ row, row ∈ tri_names ns t ↔ ∃ grams, rows !! row = Some grams ∧ g ∈ grams) ∧
  ∀ row grams s, NoDup grams → len grams < U64 → counter t (lit "row") < U64 → stats_ok s →
    counter t (lit "tri") + len grams <= U32 → is_ok (tri_write row grams s t) = true.
Proof.
  intros Hs. assert (Ok_ : tri_ok t rows).
  { change (tri_ok (t, rows).1 (t, rows).2). assert (H0 : tri_ok (tri_new, ∅ : gmap str (list str)).1 (tri_new, ∅ : gmap str (list str)).2) by apply tri_new_ok.
    induction Hs as [|x y z Hxy _ IH]; [done|]. apply IH. by eapply tstep_ok. }
  split; [intros g; by apply tri_read_ok|]. intros row grams s Hn Hl Hc Hst Hroom.
  pose proof (tri_write_ok row grams s t rows Ok_ Hn Hl Hc Hst) as Hw. destruct (tri_write row grams s t) as [[old t']|]; [done|]. lia.
Qed.

(** ** Witness *)

Module TrigramDemo.
Definition st : RowStats := {| st_missing := 0; st_nulls := 0; st_fanout := 1; st_json_bytes := 9; st_key_bytes := 1; st_values := []; st_unorderable := 0 |}.
Definition after (r : result (option RowStats * Tri)) : Tri := match r with Ok (_, t) => t | Err _ => tri_new end.
Definition t1 : Tri := after (tri_write (lit "a") [lit "abc"; lit "bcd"] st tri_new).
Definition t2 : Tri := after (tri_write (lit "b") [lit "bcd"; lit "cde"] st t1).
Definition t3 : Tri := after (tri_write (lit "a") [lit "cde"] st t2).

Lemma wrote r : is_ok r = true → ∃ old, r = Ok (old, after r).
Proof. destruct r as [[old t]|]; [by exists old|done]. Qed.

Lemma t3_steps : rtc tstep (tri_new, ∅) (t3, <[lit "a" := [lit "cde"]]> (<[lit "b" := [lit "bcd"; lit "cde"]]>
  (<[lit "a" := [lit "abc"; lit "bcd"]]> ∅))).
Proof.
  destruct (wrote (tri_write (lit "a") [lit "abc"; lit "bcd"] st tri_new) ltac:(vm_compute; reflexivity)) as [o1 E1].
  destruct (wrote (tri_write (lit "b") [lit "bcd"; lit "cde"] st t1) ltac:(vm_compute; reflexivity)) as [o2 E2].
  destruct (wrote (tri_write (lit "a") [lit "cde"] st t2) ltac:(vm_compute; reflexivity)) as [o3 E3].
  fold t1 in E1. fold t2 in E2. fold t3 in E3.
  eapply rtc_l; [eapply ts_write; [..|exact E1]|eapply rtc_l; [eapply ts_write; [..|exact E2]|eapply rtc_l; [eapply ts_write; [..|exact E3]|apply rtc_refl]]].
  all: try (by apply (bool_decide_unpack _)); try (split; reflexivity); vm_compute; reflexivity.
Qed.

Lemma postings_exact_example :
  ∃ ns, tri_read (lit "bcd") t3 = Ok ns ∧ lit "b" ∈ tri_names ns t3 ∧ lit "a" ∉ tri_names ns t3.
Proof.
  destruct (postings_exact t3 _ t3_steps) as [Hr _]. destruct (Hr (lit "bcd")) as (ns & E & _ & Hn). exists ns.
  split; [exact E|]. split.
  - apply Hn. exists [lit "bcd"; lit "cde"]. split; [vm_compute; reflexivity|left].
  - intros Ha. apply Hn in Ha as (grams & Eg & Hg). vm_compute in Eg. injection Eg as <-.
    by apply list_elem_of_singleton in Hg.
Defined.
End TrigramDemo.
