(* ===== verification/IndexSpec.v ===== *)
(** * The entries of an index follow the rows

    A key of an index is a body made from the value and the row's key behind it, so the
    entries of two rows never collide ([key_row]).  The record of a row in the reverse map
    reads back ([reverse_back]), and so removing a row removes exactly what writing it
    added. *)
From S2P Require Import Prelude Order Redb Memory Fields OrderedCodec OrderedSpec Eval IndexKeys Trigram TrigramSpec Index.
Local Open Scope N_scope.

(** ** Sets *)

Lemma elem_of_btree_set x l : x ∈ btree_set l ↔ x ∈ l.
Proof. induction l as [|a l IH]; [done|]. cbn [btree_set foldr]. rewrite elem_of_bset_insert. fold (btree_set l). set_solver. Qed.

Lemma bset_insert_sorted {K} `{TotalOrder K} (k : K) l : StronglySorted key_lt l → StronglySorted key_lt (bset_insert k l).
Proof.
  induction l as [|a l IH]; intros Hs; cbn [bset_insert]; [repeat constructor|].
  pose proof Hs as [Hl Hf]%StronglySorted_inv. destruct (cmp k a) eqn:E; [done|..].
  - constructor; [done|]. constructor; [done|]. eapply Forall_impl; [exact Hf|]. intros x. by transitivity a.
  - constructor; [by apply IH|]. apply Forall_forall. intros x [->|Hx]%elem_of_bset_insert; [by apply cmp_gt_lt|].
    rewrite Forall_forall in Hf. by apply Hf.
Qed.

Lemma btree_set_sorted l : StronglySorted key_lt (btree_set l).
Proof. induction l as [|a l IH]; [constructor|]. by apply bset_insert_sorted. Qed.

Lemma btree_set_nodup l : NoDup (btree_set l).
Proof.
  pose proof (btree_set_sorted l) as Hs. induction Hs as [|a s _ IH Hf]; [constructor|]. constructor; [|done].
  intros Ha. rewrite Forall_forall in Hf. apply Hf in Ha. by apply key_lt_irrefl in Ha.
Qed.

(** ** Keys *)

Definition row_suffix (row : str) : bytes := byte_of_N 7 :: text row.

Section keys.
Context `{TextLibOk}.

(** What stands before the row in a key. *)
Definition key_body (d : IndexDef) (value : Value) : result bytes :=
  if (length (d_paths d) <=? 1)%nat then encode_equality value
  else match value with
       | VArray values => let? parts := compound_parts (d_directions d) values in Ok (byte_of_N 8 :: parts ++ [Byte.x00])
       | _ => Err (Validation (lit "invalid compound index value"))
       end.

Lemma definition_key_body d value row :
  definition_key d value row = rmap (λ x, x ++ row_suffix row) (key_body d value).
Proof.
  unfold definition_key, key_body, entry_key. destruct (_ <=? 1)%nat.
  - by destruct (encode_equality value).
  - destruct value; try done. destruct (compound_parts _ _); [|done]. cbn. by rewrite <-app_assoc.
Qed.

Lemma flip_tag b : b ≠ Byte.x00 → b ≠ Byte.xff → flip b ≠ Byte.x00.
Proof.
  intros _ Hb E. apply (f_equal byte_to_N) in E. rewrite flip_val in E. change (byte_to_N Byte.x00) with 0 in E.
  pose proof (byte_to_N_bound b). apply Hb, byte_to_N_inj. change (byte_to_N Byte.xff) with 255. lia.
Qed.

Lemma part_head (down : bool) a x : encode_equality a = Ok x →
  ∃ c x', (if down then flip <$> x else x) = c :: x' ∧ c ≠ Byte.x00.
Proof.
  intros (x' & ->)%append_tag. destruct down; eexists _, _; (split; [done|]); [|apply tag_nonzero].
  apply flip_tag; [apply tag_nonzero|by destruct a as [| |[]| | | | |]].
Qed.

Lemma parts_delim l1 : ∀ ds l2 x y, compound_parts ds l1 = Ok x → compound_parts ds l2 = Ok y →
  delim (x ++ [Byte.x00]) (y ++ [Byte.x00]).
Proof.
  induction l1 as [|a l1 IH]; intros ds [|b l2] x y Ex Ey; cbn [compound_parts] in Ex, Ey.
  - injection Ex as <-. injection Ey as <-. apply delim_refl.
  - injection Ex as <-. apply rbind_ok in Ey as (z & E1 & Ey). apply rbind_ok in Ey as (w & _ & [= <-]).
    destruct (part_head (bool_decide (head ds = Some Desc)) b z E1) as (c & z' & -> & Hc). apply delim_head. by intros <-.
  - injection Ey as <-. apply rbind_ok in Ex as (z & E1 & Ex). apply rbind_ok in Ex as (w & _ & [= <-]).
    destruct (part_head (bool_decide (head ds = Some Desc)) a z E1) as (c & z' & -> & Hc). by apply delim_head.
  - apply rbind_ok in Ex as (z & E1 & Ex). apply rbind_ok in Ex as (w & E2 & [= <-]).
    apply rbind_ok in Ey as (z' & E1' & Ey). apply rbind_ok in Ey as (w' & E2' & [= <-]). rewrite <-!app_assoc.
    apply delim_app; [|intros _; by eapply IH]. pose proof (encode_delim a b z z' E1 E1').
    destruct (bool_decide _); [by apply delim_flip|done].
Qed.

Lemma key_body_delim d a b x y : key_body d a = Ok x → key_body d b = Ok y → delim x y.
Proof.
  unfold key_body. destruct (_ <=? 1)%nat; [apply encode_delim|]. destruct a, b; try done. intros Ex Ey.
  apply rbind_ok in Ex as (z & E1 & [= <-]). apply rbind_ok in Ey as (w & E2 & [= <-]).
  apply delim_cons. by eapply parts_delim.
Qed.

Lemma row_suffix_inj r r' : row_suffix r = row_suffix r' → r = r'.
Proof.
  unfold row_suffix. intros [= E]. assert (list_cmp (text r) (text r') = Eq) as Ec by by apply list_cmp_eq.
  rewrite <-(app_nil_r (text r)), <-(app_nil_r (text r')), text_cmp in Ec.
  destruct (list_cmp r r') eqn:Er; [by apply list_cmp_eq in Er|done..].
Qed.

(** Equal keys are of the same row. *)
Lemma key_row d a b r r' k : definition_key d a r = Ok k → definition_key d b r' = Ok k → r = r'.
Proof.
  rewrite !definition_key_body. destruct (key_body d a) as [x|] eqn:Ea; [|done]. destruct (key_body d b) as [y|] eqn:Eb; [|done].
  intros [= <-] [= E]. apply (delim_split y x) in E as [-> E]; [by apply row_suffix_inj|by eapply key_body_delim].
Qed.
End keys.

(** ** The reverse map reads back *)

Lemma get_put_bytes b r : len b < U64 → get_bytes (put_bytes b ++ r) = Ok (b, r).
Proof.
  intros Hb. unfold get_bytes, put_bytes. rewrite <-app_assoc, get_put_varint by done. cbn [rbind].
  rewrite len_app. destruct (N.ltb_spec (len b + len r) (len b)); [lia|]. unfold len. rewrite Nat2N.id.
  by rewrite take_app_length, drop_app_length.
Qed.

Lemma ends_with_split k suffix : ends_with k suffix = true → k = take (length k - length suffix) k ++ suffix.
Proof. unfold ends_with. intros E%bool_decide_eq_true. rewrite <-(take_drop (length k - length suffix) k) at 1. by rewrite E. Qed.

Lemma len_take_le {A} n (l : list A) : len (take n l) <= len l.
Proof. unfold len. rewrite length_take. lia. Qed.

Lemma get_put_key suffix k r : len k < U64 → get_key suffix (put_key suffix k ++ r) = Ok (k, r).
Proof.
  intros Hk. unfold put_key, get_key. rewrite <-app_comm_cons, get_put_bytes.
  2:{ pose proof (len_take_le (length k - length suffix) k). destruct (ends_with k suffix); lia. }
  cbn [rbind]. destruct (ends_with k suffix) eqn:E; [|done]. by rewrite <-(ends_with_split _ _ E).
Qed.

Lemma get_put_term t r : len t < U64 → utf8_valid t = true → get_term (put_bytes t ++ r) = Ok (t, r).
Proof. intros Ht Hv. unfold get_term. rewrite get_put_bytes by done. cbn [rbind]. by rewrite Hv. Qed.

Section many.
Context {A} (get : bytes → result (A * bytes)) (put : A → bytes) (P : A → Prop)
        (back : ∀ a r, P a → get (put a ++ r) = Ok (a, r)) (nonempty : ∀ a, put a ≠ []).

Lemma get_put_times l r : Forall P l → get_times get (length l) ((l ≫= put) ++ r) = Ok (l, r).
Proof using back.
  induction 1 as [|a l Ha _ IH]; [done|]. cbn [length get_times]. rewrite bind_cons, <-app_assoc, back by done.
  cbn [rbind]. by rewrite IH.
Qed.

Lemma bind_len l : len l <= len (l ≫= put).
Proof using nonempty.
  induction l as [|a l IH]; [done|]. rewrite bind_cons, len_cons, len_app. pose proof (nonempty a).
  destruct (put a); [done|]. rewrite len_cons. lia.
Qed.

Lemma get_put_many l r : Forall P l → get_many get (len l) ((l ≫= put) ++ r) = Ok (l, r).
Proof using back nonempty.
  intros Hl. unfold get_many. rewrite N.min_l by (rewrite len_app; pose proof (bind_len l); lia).
  unfold len. rewrite Nat2N.id. by apply get_put_times.
Qed.
End many.

(** What the record of a row keeps of its counters. *)
Definition kept (s : RowStats) : Prop :=
  st_values s = [] ∧ st_missing s < U64 ∧ st_nulls s < U64 ∧ st_fanout s < U64 ∧ st_json_bytes s < U64 ∧
  st_key_bytes s < U64 ∧ st_unorderable s < U64.

Record reverse_fits (r : Reverse) : Prop := {
  rf_keys : Forall (λ k, len k < U64) (r_keys r); rf_nkeys : len (r_keys r) < U64;
  rf_terms : Forall (λ t, len t < U64 ∧ utf8_valid t = true) (r_terms r); rf_nterms : len (r_terms r) < U64;
  rf_stats : from_option kept True (r_stats r);
}.

Lemma reverse_back `{TextLib} `{ReverseJson} row r e : reverse_fits r → encode_reverse row r = Ok e → decode_reverse row e = Ok r.
Proof.
  intros [Hk Hnk Ht Hnt Hs]. unfold encode_reverse, decode_reverse. destruct (OrderedCodec.encode (VString row)) as [suffix|]; [|done].
  cbn [rbind]. intros [= <-]. change (byte_to_N (byte_of_N 2) =? 2) with true. cbv iota. rewrite get_put_varint by done. cbn [rbind].
  rewrite (get_put_many (get_key suffix) (put_key suffix) (λ k, len k < U64)); [|by intros; apply get_put_key|done|done].
  cbn [rbind]. rewrite get_put_varint by done. cbn [rbind].
  rewrite (get_put_many get_term put_bytes (λ t, len t < U64 ∧ utf8_valid t = true)); [|intros a r0 [Ha Hb]; by apply get_put_term| |done].
  2:{ intros t E%app_nil. pose proof (put_varint_nonempty (len t)) as Hn. destruct E as [E _]. rewrite E in Hn. cbn in Hn. lia. }
  cbn [rbind]. destruct r as [keys terms stats]; cbn [r_keys r_terms r_stats] in *. destruct stats as [s|]; [|done].
  destruct Hs as (Hv & H1 & H2 & H3 & H4 & H5 & H6). cbn [put_stats get_stats]. change (byte_to_N Byte.x01 =? 1) with true. cbv iota.
  rewrite !bind_cons. do 5 (rewrite get_put_varint by done; cbn [rbind]). rewrite get_put_varint by done. cbn [rbind].
  destruct s; cbn in *. by subst.
Qed.

(** ** Rows and their keys *)

Section rows.
Context `{Redb} `{TextLibOk} `{Allocator} `{ReverseJson} (d : IndexDef).

(** The keys and the terms [write_row_core] makes of a row. *)
Definition row_values (b : bytes) (seq : N) : result (list Value) :=
  let? sampled := sampled_values d b seq in key_values d b sampled.
Definition row_terms (values : list Value) : list str :=
  if bool_decide (d_kind d = KToken) then btree_set (omap string_of values) else [].
Definition row_keys (row : str) (values : list Value) : result (list bytes) :=
  rmap btree_set (traverse (λ value, definition_key d value row) values).

Lemma row_keys_elem row values ks k : row_keys row values = Ok ks →
  k ∈ ks ↔ ∃ v, v ∈ values ∧ definition_key d v row = Ok k.
Proof.
  unfold row_keys. destruct (traverse _ values) as [l|] eqn:E; [|done]. intros [= <-]. rewrite elem_of_btree_set.
  apply traverse_ok_Forall2 in E. split.
  - intros Hk. apply list_elem_of_lookup in Hk as [i Hi].
    destruct (Forall2_lookup_r _ _ _ _ _ E Hi) as (v & Hv & Ev). exists v. split; [by eapply list_elem_of_lookup_2|done].
  - intros (v & Hv & Ev). apply list_elem_of_lookup in Hv as [i Hi].
    destruct (Forall2_lookup_l _ _ _ _ _ E Hi) as (k' & Hk' & Ev'). assert (k' = k) as -> by congruence.
    by eapply list_elem_of_lookup_2.
Qed.

(** A row as the index last saw it: its bytes and the sequence of its last write. *)
Abbreviation seen := (gmap str (bytes * N)).

Definition has_term (w : str) (p : bytes * N) : Prop := ∃ vs, row_values p.1 p.2 = Ok vs ∧ w ∈ row_terms vs.
#[local] Instance has_term_dec w p : Decision (has_term w p).
Proof.
  unfold has_term. destruct (row_values p.1 p.2) as [vs|e].
  - destruct (decide (w ∈ row_terms vs)) as [Hw|Hw]; [left; by exists vs|right]. by intros (? & [= <-] & ?).
  - right. by intros (? & ? & _).
Defined.

(** How many rows have a term. *)
Definition rows_with (w : str) (rows : seen) : N := N.of_nat (size (filter (λ p, has_term w p.2) rows)).

Lemma rows_with_insert w row p rows : rows !! row = None →
  rows_with w (<[row := p]> rows) = rows_with w rows + (if decide (has_term w p) then 1 else 0).
Proof.
  intros Hn. unfold rows_with. destruct (decide (has_term w p)) as [Hp|Hp].
  - rewrite map_filter_insert_True by done. rewrite map_size_insert_None; [lia|]. apply map_lookup_filter_None. by left.
  - rewrite map_filter_insert_False, delete_id by done. lia.
Qed.

Lemma rows_with_delete w row p rows : rows !! row = Some p →
  rows_with w rows = rows_with w (delete row rows) + (if decide (has_term w p) then 1 else 0).
Proof.
  intros Hp. rewrite <-(insert_delete_id rows row p) at 1 by done. apply rows_with_insert, lookup_delete_eq.
Qed.

Lemma rows_with_pos w rows : 0 < rows_with w rows ↔ ∃ row p, rows !! row = Some p ∧ has_term w p.
Proof.
  unfold rows_with. split.
  - intros Hs. destruct (map_choose (filter (λ p, has_term w p.2) rows)) as (row & p & E%map_lookup_filter_Some).
    { intros E. rewrite E in Hs. cbn in Hs. rewrite map_size_empty in Hs. lia. }
    exists row, p. exact E.
  - intros (row & p & E & Hw). pose proof (rows_with_delete w row p rows E) as Hd. unfold rows_with in Hd.
    rewrite decide_True in Hd by done. lia.
Qed.

(** The record of a row: what its values say it has. *)
Definition row_record (row : str) (p : bytes * N) (r : Reverse) : Prop :=
  ∃ vs, row_values p.1 p.2 = Ok vs ∧ row_keys row vs = Ok (r_keys r) ∧ r_terms r = row_terms vs.

Record keyed_ok (t : Tables) (rows : seen) : Prop := {
  ko_entry : ∀ k row, t_get (x_entries t) k = Some row ↔ ∃ p r, rows !! row = Some p ∧ row_record row p r ∧ k ∈ r_keys r;
  ko_row : ∀ row p, rows !! row = Some p → ∃ e r, t_get (x_reverse t) row = Some e ∧ decode_reverse row e = Ok r ∧ row_record row p r;
  ko_none : ∀ row, rows !! row = None → t_get (x_reverse t) row = None;
  ko_terms : d_kind d = KToken → ∀ w, t_get (x_terms t) w = if decide (rows_with w rows = 0) then None else Some (rows_with w rows);
}.

Lemma row_record_same row p r r' : row_record row p r → row_record row p r' → r_keys r = r_keys r' ∧ r_terms r = r_terms r'.
Proof. intros (vs & E & Ek & Et) (vs' & E' & Ek' & Et'). rewrite E in E'. injection E' as <-. split; congruence. Qed.

Lemma record_key_row row p r row' p' r' k : row_record row p r → row_record row' p' r' → k ∈ r_keys r → k ∈ r_keys r' → row = row'.
Proof.
  intros (vs & _ & E & _) (vs' & _ & E' & _) (v & _ & Hv)%(row_keys_elem _ _ _ _ E) (v' & _ & Hv')%(row_keys_elem _ _ _ _ E').
  by eapply key_row.
Qed.

(** ** Tables under many changes *)

Lemma get_remove_keys ks : ∀ (t : table bytes str) k, t_get (fold_left t_remove ks t) k = if decide (k ∈ ks) then None else t_get t k.
Proof.
  induction ks as [|x ks IH]; intros t k; cbn [fold_left]; [by rewrite decide_False by apply not_elem_of_nil|].
  rewrite IH, t_get_remove. repeat case_decide; set_solver.
Qed.

Lemma get_insert_pairs row ks : ∀ (t : table bytes str) k,
  t_get (fold_left (λ e p, t_insert e p.1 p.2) ((λ key, (key, row)) <$> ks) t) k = if decide (k ∈ ks) then Some row else t_get t k.
Proof.
  induction ks as [|x ks IH]; intros t k; cbn [fmap list_fmap fold_left fst snd]; [by rewrite decide_False by apply not_elem_of_nil|].
  rewrite IH, t_get_insert. repeat case_decide; set_solver.
Qed.

(** The counts of terms are [f]; a count of zero is not stored. *)
Definition tally (t : table str N) (f : str → N) : Prop := ∀ w, t_get t w = if decide (f w = 0) then None else Some (f w).

Lemma tally_default t f w : tally t f → default 0 (t_get t w) = f w.
Proof. intros Ht. rewrite (Ht w). by case_decide. Qed.

Lemma tally_ext t f g : (∀ w, f w = g w) → tally t f → tally t g.
Proof. intros Hfg Ht w. by rewrite <-Hfg. Qed.

Lemma count_up_all l : ∀ t f, NoDup l → tally t f → tally (fold_left count_up l t) (λ w, f w + (if decide (w ∈ l) then 1 else 0)).
Proof.
  induction l as [|x l IH]; intros t f Hl Ht; cbn [fold_left].
  { eapply tally_ext; [|exact Ht]. intros w. rewrite decide_False by apply not_elem_of_nil. lia. }
  apply NoDup_cons in Hl as [Hx Hl]. eapply tally_ext; [|apply (IH _ (λ w, f w + (if decide (w = x) then 1 else 0)) Hl)].
  - intros w. cbn beta. repeat case_decide; subst; set_solver by lia.
  - intros w. unfold count_up. rewrite t_get_insert, (tally_default t f x Ht), (Ht w).
    repeat case_decide; subst; try done; try lia; f_equal; lia.
Qed.

Lemma count_down_all l : ∀ t f, NoDup l → (∀ w, w ∈ l → 0 < f w) → tally t f →
  tally (fold_left count_down l t) (λ w, f w - (if decide (w ∈ l) then 1 else 0)).
Proof.
  induction l as [|x l IH]; intros t f Hl Hf Ht; cbn [fold_left].
  { eapply tally_ext; [|exact Ht]. intros w. rewrite decide_False by apply not_elem_of_nil. lia. }
  apply NoDup_cons in Hl as [Hx Hl]. eapply tally_ext; [|apply (IH _ (λ w, f w - (if decide (w = x) then 1 else 0)) Hl)].
  - intros w. cbn beta. repeat case_decide; subst; set_solver by lia.
  - intros w Hw. rewrite decide_False by (by intros ->). specialize (Hf w ltac:(by right)). lia.
  - intros w. unfold count_down. rewrite (tally_default t f x Ht). specialize (Hf x ltac:(by left)).
    destruct (N.leb_spec (f x) 1); [rewrite t_get_remove|rewrite t_get_insert]; rewrite (Ht w);
      repeat case_decide; subst; try done; try lia; f_equal; lia.
Qed.

(** ** Removing and writing a row *)

Lemma row_terms_nodup vs : NoDup (row_terms vs).
Proof. unfold row_terms. destruct (bool_decide _); [apply btree_set_nodup|constructor]. Qed.

Lemma has_term_record row p r w : row_record row p r → has_term w p ↔ w ∈ r_terms r.
Proof. intros (vs & E & _ & ->). split; [by intros (vs' & [= <-]%(eq_trans (eq_sym E)) & Hw)|by exists vs]. Qed.

Lemma create_keyed_ok : keyed_ok create_tables ∅.
Proof.
  constructor; cbn [create_tables x_entries x_reverse x_terms].
  - intros k row. rewrite t_get_new. split; [done|]. intros (p & r & E & _). by rewrite lookup_empty in E.
  - intros row p E. by rewrite lookup_empty in E.
  - intros. apply t_get_new.
  - intros _ w. by rewrite t_get_new.
Qed.

Lemma remove_row_ok row t rows : postings (d_kind d) = false → keyed_ok t rows →
  ∃ old t', remove_row d row t = Ok (old, t') ∧ keyed_ok t' (delete row rows).
Proof.
  intros Hk Ok_. unfold remove_row. rewrite Hk. destruct (rows !! row) as [p|] eqn:Er.
  2:{ rewrite (ko_none t rows Ok_ row Er), delete_id by done. by exists None, t. }
  destruct (ko_row t rows Ok_ row p Er) as (e & r & -> & -> & Hr). cbn [rbind]. eexists _, _. split; [done|].
  constructor; cbn [x_entries x_reverse x_terms].
  - intros k row'. rewrite get_remove_keys. case_decide as Hin.
    + split; [done|]. intros (p' & r' & [Hne E]%lookup_delete_Some & Hr' & Hk'). destruct Hne. by eapply (record_key_row row).
    + rewrite (ko_entry t rows Ok_). split; intros (p' & r' & E & Hr' & Hk').
      * exists p', r'. split_and!; [|done..]. apply lookup_delete_Some. split; [|done]. intros <-.
        rewrite Er in E. injection E as <-. exfalso. apply Hin. change (k ∈ r_keys r). by rewrite (proj1 (row_record_same row p r r' Hr Hr')).
      * apply lookup_delete_Some in E as [_ E]. by exists p', r'.
  - intros row' p' [Hne E]%lookup_delete_Some. rewrite t_get_remove_ne by done. by apply (ko_row t rows Ok_).
  - intros row' [->|E]%lookup_delete_None; [apply t_get_remove_eq|]. rewrite t_get_remove. case_decide; [done|]. by apply (ko_none t rows Ok_).
  - intros Ht w. rewrite bool_decide_true by done.
    assert (Hw : ∀ w, rows_with w rows = rows_with w (delete row rows) + (if decide (w ∈ r_terms r) then 1 else 0)).
    { intros w'. rewrite (rows_with_delete w' row p rows Er). repeat case_decide; rewrite ?(has_term_record row p r) in * by done; done. }
    rewrite (count_down_all (r_terms r) (x_terms t) (λ w, rows_with w rows)); [|..|exact (ko_terms t rows Ok_ Ht)].
    + cbn beta. rewrite Hw. repeat case_decide; try done; try lia; f_equal; lia.
    + destruct Hr as (vs & _ & _ & ->). apply row_terms_nodup.
    + intros w' Hin. rewrite Hw, decide_True by done. lia.
Qed.

(** What a row must be for its record to be kept: shorter than the machine's lengths,
    and its terms text. *)
Definition row_fits (row : str) (p : bytes * N) : Prop := ∀ sampled vs ks,
  sampled_values d p.1 p.2 = Ok sampled → row_values p.1 p.2 = Ok vs → row_keys row vs = Ok ks →
  reverse_fits {| r_keys := ks; r_terms := row_terms vs; r_stats := None |} ∧
  len sampled < U64 ∧ len p.1 < U64 ∧ len row < U64.

(** The row's values, keys and counters can be made. *)
Definition row_good (row : str) (p : bytes * N) : Prop :=
  ∃ sampled stats vs ks, sampled_values d p.1 p.2 = Ok sampled ∧ row_stats row (len p.1) sampled = Ok stats ∧
    key_values d p.1 sampled = Ok vs ∧ row_keys row vs = Ok ks.

Lemma row_stats_kept row json values s : row_stats row json values = Ok s → len values < U64 → json < U64 → len row < U64 →
  st_missing s < 2 ∧ st_nulls s < 2 ∧ st_fanout s < U64 ∧ st_json_bytes s < U64 ∧ st_key_bytes s < U64 ∧ st_unorderable s < 2.
Proof.
  unfold row_stats. destruct (sample 0 [] values); [|done]. intros [= <-] Hv Hj Hr. cbn. unfold flag.
  split_and!; try done; by case_match.
Qed.

Lemma flag_small b : flag b < 2.
Proof. by destruct b. Qed.

Lemma insert_row_ok row p t rows vs ks stats e : postings (d_kind d) = false → keyed_ok t rows → rows !! row = None →
  row_values p.1 p.2 = Ok vs → row_keys row vs = Ok ks → decode_reverse row e = Ok {| r_keys := ks; r_terms := row_terms vs; r_stats := stats |} →
  keyed_ok {| x_entries := fold_left (λ e p, t_insert e p.1 p.2) ((λ key, (key, row)) <$> ks) (x_entries t);
              x_reverse := t_insert (x_reverse t) row e; x_terms := fold_left count_up (row_terms vs) (x_terms t);
              x_fst := x_fst t; x_tri := x_tri t |} (<[row := p]> rows).
Proof.
  intros Hk Ok_ Hn Ev Ek Ed. set (r := {| r_keys := ks; r_terms := row_terms vs; r_stats := stats |}).
  assert (Hr : row_record row p r) by by exists vs.
  constructor; cbn [x_entries x_reverse x_terms].
  - intros k row'. rewrite get_insert_pairs. case_decide as Hin.
    + split.
      * intros [= <-]. exists p, r. split_and!; [apply lookup_insert_eq|done..].
      * intros (p' & r' & _ & Hr' & Hk'). f_equal. by eapply (record_key_row row p r row' p' r').
    + rewrite (ko_entry t rows Ok_). split; intros (p' & r' & E & Hr' & Hk').
      * exists p', r'. split_and!; [|done..]. rewrite lookup_insert_ne; [done|]. by intros <-; rewrite Hn in E.
      * exists p', r'. split_and!; [|done..]. destruct (decide (row = row')) as [<-|Hne]; [|by rewrite lookup_insert_ne in E].
        rewrite lookup_insert_eq in E. injection E as <-. exfalso. apply Hin. change (k ∈ r_keys r). by rewrite (proj1 (row_record_same row p r r' Hr Hr')).
  - intros row' p'. destruct (decide (row = row')) as [<-|Hne].
    + rewrite lookup_insert_eq, t_get_insert_eq. intros [= <-]. by exists e, r.
    + rewrite lookup_insert_ne, t_get_insert_ne by done. apply (ko_row t rows Ok_).
  - intros row' [E Hne]%lookup_insert_None. rewrite t_get_insert_ne by done. by apply (ko_none t rows Ok_).
  - intros Ht w. rewrite (count_up_all _ _ (λ w, rows_with w rows)); [|apply row_terms_nodup|exact (ko_terms t rows Ok_ Ht)].
    cbn beta. rewrite (rows_with_insert w row p rows Hn). pose proof (has_term_record row p r w Hr) as Hh. cbn in Hh.
    repeat case_decide; try tauto; try done; try lia; f_equal; lia.
Qed.

Lemma write_row_ok row p t rows : postings (d_kind d) = false → keyed_ok t rows → row_fits row p →
  match write_row d row p.1 p.2 t with
  | Ok (_, t') => keyed_ok t' (<[row := p]> rows)
  | Err _ => ¬ row_good row p
  end.
Proof.
  intros Hk Ok_ Hf. unfold write_row, write_row_core. rewrite Hk.
  destruct (remove_row_ok row t rows Hk Ok_) as (old & t1 & -> & Ok1). cbn [rbind].
  destruct (sampled_values d p.1 p.2) as [sampled|] eqn:Es; [cbn [rbind]|intros (? & ? & ? & ? & E & _); congruence].
  destruct (row_stats row (len p.1) sampled) as [stats|] eqn:Est; [cbn [rbind]|intros (? & ? & ? & ? & E & E' & _); congruence].
  destruct (key_values d p.1 sampled) as [vs|] eqn:Ev; [cbn [rbind]|intros (? & ? & ? & ? & E & _ & E' & _); congruence].
  assert (Er : row_values p.1 p.2 = Ok vs) by (unfold row_values; by rewrite Es).
  destruct (row_keys row vs) as [ks|] eqn:Ek.
  2:{ unfold row_keys in Ek. destruct (traverse _ vs) eqn:Et; [done|]. cbn [rbind]. intros (? & ? & vs' & ks' & E & _ & E' & E'').
      assert (vs' = vs) as -> by congruence. unfold row_keys in E''. by rewrite Et in E''. }
  destruct (Hf sampled vs ks Es Er Ek) as ([Hkl Hnk Htl Hnt _] & Hsl & Hbl & Hrl). cbn [r_keys r_terms] in *.
  unfold row_keys in Ek. destruct (traverse (λ value, definition_key d value row) vs) as [ks0|] eqn:Et; [|done]. injection Ek as <-.
  cbn [rbind]. match goal with |- context [encode_reverse row ?r] => set (rec := r) end.
  assert (Hfit : reverse_fits rec).
  { constructor; [done..|]. unfold rec. cbn [r_stats from_option].
    destruct (row_stats_kept row (len p.1) sampled stats Est Hsl Hbl Hrl) as (? & ? & ? & ? & ? & ?).
    assert (2 < U64) by done. pose proof (flag_small (existsb unorderable vs)).
    unfold kept. destruct (1 <? length (d_paths d))%nat; cbn; split_and!; try done; lia. }
  destruct (encode_reverse row rec) as [e|] eqn:Ee; [|by unfold encode_reverse in Ee]. cbn [rbind fmap option_fmap option_map].
  rewrite <-(insert_delete_eq rows row p).
  apply (insert_row_ok row p t1 (delete row rows) vs (btree_set ks0) (r_stats rec) e Hk Ok1); [apply lookup_delete_eq|done| |].
  - unfold row_keys. by rewrite Et.
  - by apply reverse_back.
Qed.
End rows.
