(* ===== verification/IndexProps.v ===== *)
(** * An index is what its rows say

    The two layouts of an index, entries with a reverse map and posting blocks, under one
    invariant [idx_ok] that every write and removal of a row keeps. *)
From S2P Require Import Prelude Order Redb Memory Fields OrderedCodec OrderedSpec Eval IndexKeys Trigram TrigramSpec Index IndexSpec.
Local Open Scope N_scope.

Section index.
Context `{Redb} `{TextLibOk} `{Allocator} `{ReverseJson} (d : IndexDef).

Abbreviation seen := (gmap str (bytes * N)).

(** The terms of a row in an index of postings. *)
Definition row_grams (b : bytes) : result (list str) :=
  let? values := match d_paths d with p :: _ => path_values b p | [] => Ok [] end in
  rmap btree_set (text_terms (if bool_decide (d_kind d = KParts) then tokens else trigrams) values).
Definition grams_of (p : bytes * N) : list str := match row_grams p.1 with Ok g => g | Err _ => [] end.

Lemma trigram_inputs_ok row b grams stats : trigram_inputs d row b = Ok (grams, stats) → row_grams b = Ok grams.
Proof.
  unfold trigram_inputs, row_grams. destruct (match d_paths d with [] => _ | _ => _ end) as [values|]; [|done]. cbn [rbind].
  destruct (row_stats row (len b) values); [|done]. cbn [rbind]. destruct (text_terms _ values); [|done]. by intros [= <- _].
Qed.

Lemma row_grams_nodup b grams : row_grams b = Ok grams → NoDup grams.
Proof.
  unfold row_grams. destruct (match d_paths d with [] => _ | _ => _ end); [|done]. cbn [rbind].
  destruct (text_terms _ _); [|done]. intros [= <-]. apply btree_set_nodup.
Qed.

Record posted_ok (t : Tables) (rows : seen) : Prop := {
  po_tri : tri_ok (x_tri t) (grams_of <$> rows);
  po_rows : ∀ row p, rows !! row = Some p → is_ok (row_grams p.1) = true;
}.

(** The tables of an index are what the rows it has seen say. *)
Definition idx_ok (t : Tables) (rows : seen) : Prop :=
  if postings (d_kind d) then posted_ok t rows else keyed_ok d t rows.

(** A row that the machine's lengths and numbers can hold. *)
Definition fits (t : Tables) (row : str) (p : bytes * N) : Prop :=
  if postings (d_kind d) then
    counter (x_tri t) (lit "row") < U64 ∧
    ∀ grams stats, trigram_inputs d row p.1 = Ok (grams, stats) → len grams < U64 ∧ stats_ok stats
  else row_fits d row p.

(** What a write needs to succeed: the row's values, keys and counters can be made, and
    there are numbers left for its terms. *)
Definition writable (t : Tables) (row : str) (p : bytes * N) : Prop :=
  if postings (d_kind d) then
    ∃ grams stats, trigram_inputs d row p.1 = Ok (grams, stats) ∧ counter (x_tri t) (lit "tri") + len grams <= U32
  else row_good d row p.

Lemma create_tables_ok : idx_ok create_tables ∅.
Proof.
  unfold idx_ok. destruct (postings (d_kind d)); [|apply create_keyed_ok].
  constructor; [rewrite fmap_empty; apply tri_new_ok|]. intros row p E. by rewrite lookup_empty in E.
Qed.

Lemma remove_ok row t rows : idx_ok t rows → ∃ old t', remove_row d row t = Ok (old, t') ∧ idx_ok t' (delete row rows).
Proof.
  unfold idx_ok. destruct (postings (d_kind d)) eqn:Hk; [|by apply remove_row_ok]. intros [Ht Hr].
  destruct (tri_remove_ok row (x_tri t) _ Ht) as (old & tri & E & Ht' & _). unfold remove_row. rewrite Hk, E. cbn [rbind].
  eexists _, _. split; [done|]. constructor; [by rewrite fmap_delete|]. intros row' p [_ E']%lookup_delete_Some. by eapply Hr.
Qed.

Lemma write_ok row p t rows : idx_ok t rows → fits t row p →
  match write_row d row p.1 p.2 t with
  | Ok (_, t') => idx_ok t' (<[row := p]> rows)
  | Err _ => ¬ writable t row p
  end.
Proof.
  unfold idx_ok, fits, writable. destruct (postings (d_kind d)) eqn:Hk; [|by apply write_row_ok]. intros [Ht Hr] [Hc Hf].
  unfold write_row, write_row_core. rewrite Hk. destruct (trigram_inputs d row p.1) as [[grams stats]|] eqn:Ei; cbn [rbind].
  2:{ by intros (grams & stats & E & _). }
  destruct (Hf grams stats eq_refl) as [Hl Hs]. pose proof (trigram_inputs_ok _ _ _ _ Ei) as Eg.
  pose proof (tri_write_ok row grams stats (x_tri t) _ Ht (row_grams_nodup _ _ Eg) Hl Hc Hs) as Hw.
  destruct (tri_write row grams stats (x_tri t)) as [[old tri]|]; cbn [rbind].
  - constructor; cbn [set_tri x_tri].
    + rewrite fmap_insert. unfold grams_of at 1. by rewrite Eg.
    + intros row' p' [[<- <-]|[_ E]]%lookup_insert_Some; [by rewrite Eg|by eapply Hr].
  - intros (grams' & stats' & [= <- <-] & Hroom). lia.
Qed.

Lemma refresh_ok t rows : idx_ok t rows → idx_ok (refresh_dictionary d t) rows.
Proof.
  unfold refresh_dictionary, idx_ok. destruct (postings (d_kind d)) eqn:Hk; intros Ok_; destruct (bool_decide_reflect (d_kind d = KToken)) as [E|E];
    cbn [negb]; [by rewrite E in Hk|done| |done]. by destruct Ok_.
Qed.

(** What happens to an index: rows written and removed, the dictionary built. *)
Inductive istep : Tables * seen → Tables * seen → Prop :=
| is_write t rows row p delta t' : fits t row p → write_row d row p.1 p.2 t = Ok (delta, t') →
    istep (t, rows) (t', <[row := p]> rows)
| is_remove t rows row old t' : remove_row d row t = Ok (old, t') → istep (t, rows) (t', delete row rows)
| is_refresh t rows : istep (t, rows) (refresh_dictionary d t, rows).

Lemma istep_ok x y : istep x y → idx_ok x.1 x.2 → idx_ok y.1 y.2.
Proof.
  intros [t rows row p delta t' Hf E|t rows row old t' E|t rows] Ok_; cbn [fst snd] in *.
  - pose proof (write_ok row p t rows Ok_ Hf) as Hw. by rewrite E in Hw.
  - destruct (remove_ok row t rows Ok_) as (old' & t2 & E2 & Hok). rewrite E in E2. by injection E2 as _ ->.
  - by apply refresh_ok.
Qed.

Lemma isteps_ok t rows : rtc istep (create_tables, ∅) (t, rows) → idx_ok t rows.
Proof.
  intros Hs. assert (Hg : ∀ x y, rtc istep x y → idx_ok x.1 x.2 → idx_ok y.1 y.2).
  { intros x y. induction 1 as [|x y z Hxy _ IH]; [done|]. intros Hx. by apply IH, (istep_ok x y). }
  apply (Hg _ _ Hs). apply create_tables_ok.
Qed.

(** ** What the invariant says of a lookup *)

Lemma posted_exact t rows : posted_ok t rows → ∀ g, ∃ ns, tri_read g (x_tri t) = Ok ns ∧ ∀ row, row ∈ tri_names ns (x_tri t) ↔
  ∃ p grams, rows !! row = Some p ∧ row_grams p.1 = Ok grams ∧ g ∈ grams.
Proof.
  intros [Ht Hr] g. destruct (tri_read_ok g (x_tri t) _ Ht) as (ns & E & _ & Hn). exists ns. split; [done|].
  intros row. rewrite Hn. setoid_rewrite lookup_fmap_Some. split.
  - intros (grams & (p & <- & Ep) & Hg). specialize (Hr row p Ep). unfold grams_of in Hg.
    destruct (row_grams p.1) as [grams|] eqn:Eg; [|done]. by exists p, grams.
  - intros (p & grams & Ep & Eg & Hg). exists grams. split; [|done]. exists p. unfold grams_of. by rewrite Eg.
Qed.

Lemma keyed_exact t rows : keyed_ok d t rows → ∀ k row, t_get (x_entries t) k = Some row ↔
  ∃ p values value, rows !! row = Some p ∧ row_values d p.1 p.2 = Ok values ∧ value ∈ values ∧ definition_key d value row = Ok k.
Proof.
  intros Ok_ k row. rewrite (ko_entry d t rows Ok_). split.
  - intros (p & r & E & (vs & Ev & Ek & _) & (v & Hv & Hk)%(row_keys_elem d row vs _ k Ek)). by exists p, vs, v.
  - intros (p & vs & v & E & Ev & Hv & Hk). destruct (ko_row d t rows Ok_ row p E) as (e & r & _ & _ & Hr).
    exists p, r. split_and!; [done..|]. destruct Hr as (vs' & Ev' & Ek & _). assert (vs' = vs) as -> by congruence.
    apply (row_keys_elem d row vs _ k Ek). by exists v.
Qed.
End index.

(** C7: an index is what its rows say.  After any writes and removals of rows and
    rebuilds of the dictionary, an entry is in an index of keys exactly when a row's last
    written values make it, and a row of an index of postings is found under exactly the
    terms of its last written text.  Removing a row never fails, and writing one fails only
    when its values, keys or counters cannot be made or the numbers of terms run out. *)
Theorem index_follows_rows `{Redb} `{TextLibOk} `{Allocator} `{ReverseJson} d t rows :
  rtc (istep d) (create_tables, ∅) (t, rows) →
  (∀ row, is_ok (remove_row d row t) = true) ∧
  (∀ row p, fits d t row p → writable d t row p → is_ok (write_row d row p.1 p.2 t) = true) ∧
  if postings (d_kind d) then
    ∀ g, ∃ ns, tri_read g (x_tri t) = Ok ns ∧ ∀ row, row ∈ tri_names ns (x_tri t) ↔
      ∃ p grams, rows !! row = Some p ∧ row_grams d p.1 = Ok grams ∧ g ∈ grams
  else
    ∀ k row, t_get (x_entries t) k = Some row ↔
      ∃ p values value, rows !! row = Some p ∧ row_values d p.1 p.2 = Ok values ∧ value ∈ values ∧
        definition_key d value row = Ok k.
Proof.
  intros Hs%isteps_ok. split_and!.
  - intros row. by destruct (remove_ok d row t rows Hs) as (old & t' & -> & _).
  - intros row p Hf Hw. pose proof (write_ok d row p t rows Hs Hf) as Hr. by destruct (write_row d row p.1 p.2 t) as [[delta t']|].
  - unfold idx_ok in Hs. destruct (postings (d_kind d)); [by apply posted_exact|by apply keyed_exact].
Qed.

(** ** Witness *)

Module IndexDemo.
(** A reader that takes every text as a JSON string. *)
Definition strings : TextLib := {|
  json_read b := Some (JString (Some b)); raw_token := @raw_token PlainText.plain_text; to_lowercase s := s;
  is_alphanumeric c := 48 <=? c; levenshtein a b := len a - len b + (len b - len a); json_string s := s;
  parse_rfc3339 _ := None; parse_date _ := None; parse_naive_t _ := None; parse_naive_space _ := None |}.
#[local] Existing Instances strings generous Redb.list_redb.
#[local] Instance strings_ok : TextLibOk := PlainText.plain_text_ok.
#[local] Instance no_json : ReverseJson := λ _, Err (Serialization (lit "expected value")).

Definition body : Path := {| p_steps := []; p_kind := Auto; p_transforms := [] |}.
Definition words : IndexDef := {| d_table := lit "notes"; d_paths := [body]; d_kind := KToken; d_directions := [] |}.
Definition after (r : result (RowDelta * Tables)) : Tables := match r with Ok (_, t) => t | Err _ => create_tables end.
Definition t1 : Tables := after (write_row words (lit "1") (lit "red dog") 1 create_tables).
Definition t2 : Tables := after (write_row words (lit "2") (lit "red") 2 t1).

Lemma row_wrote r : is_ok r = true → ∃ delta, r = Ok (delta, after r).
Proof. destruct r as [[delta t]|]; [by exists delta|done]. Qed.

(** Decides [row_fits] on a row. *)
Definition fits_b (d : IndexDef) (row : str) (p : bytes * N) : bool :=
  match sampled_values d p.1 p.2, row_values d p.1 p.2 with
  | Ok sampled, Ok vs =>
      match row_keys d row vs with
      | Ok ks => forallb (λ k, len k <? U64) ks && (len ks <? U64) && forallb (λ t, (len t <? U64) && utf8_valid t) (row_terms d vs)
                 && (len (row_terms d vs) <? U64) && (len sampled <? U64) && (len p.1 <? U64) && (len row <? U64)
      | Err _ => true
      end
  | _, _ => true
  end.
Lemma fits_b_ok d row p : fits_b d row p = true → row_fits d row p.
Proof.
  unfold fits_b. intros Hb sampled vs ks Es Ev Ek. rewrite Es, Ev, Ek in Hb. rewrite !andb_true_iff, !N.ltb_lt, !forallb_forall in Hb.
  destruct Hb as ((((((H1 & H2) & H3) & H4) & H5) & H6) & H7). split_and!; [|done..]. constructor; cbn; [|done| |done|done].
  - apply Forall_forall. intros k Hk. by apply N.ltb_lt, H1, list_elem_of_In.
  - apply Forall_forall. intros k Hk. specialize (H3 k ltac:(by apply list_elem_of_In)). rewrite andb_true_iff, N.ltb_lt in H3. done.
Qed.

Lemma step1 : ∃ delta, write_row words (lit "1") (lit "red dog") 1 create_tables = Ok (delta, t1).
Proof. apply row_wrote. vm_compute. reflexivity. Qed.
Lemma step2 : ∃ delta, write_row words (lit "2") (lit "red") 2 t1 = Ok (delta, t2).
Proof. apply row_wrote. vm_compute. reflexivity. Qed.

Lemma t2_steps : rtc (istep words) (create_tables, ∅) (t2, <[lit "2" := (lit "red", 2)]> (<[lit "1" := (lit "red dog", 1)]> ∅)).
Proof.
  destruct step1 as [d1 E1], step2 as [d2 E2].
  eapply rtc_l; [apply (is_write words _ _ (lit "1") (lit "red dog", 1) d1 t1); [|exact E1]|].
  { apply fits_b_ok. vm_compute. reflexivity. }
  eapply rtc_l; [apply (is_write words _ _ (lit "2") (lit "red", 2) d2 t2); [|exact E2]|apply rtc_refl].
  apply fits_b_ok. vm_compute. reflexivity.
Qed.

Lemma index_follows_rows_witness : ∃ k, definition_key words (VString (lit "red")) (lit "1") = Ok k ∧ t_get (x_entries t2) k = Some (lit "1").
Proof.
  destruct (index_follows_rows words t2 _ t2_steps) as (_ & _ & He). cbn [words d_kind postings] in He.
  eexists. split; [vm_compute; reflexivity|]. apply He.
  exists (lit "red dog", 1), [VString (lit "red"); VString (lit "dog")], (VString (lit "red")).
  split_and!; [vm_compute; reflexivity..|left|vm_compute; reflexivity].
Defined.
End IndexDemo.
