(* ===== verification/Exec.v ===== *)
(** * Running an index plan ([indexes/execution.rs])

    A plan is a tree of lookups ([Node]).  [set] gives the rows it stands for, in order of
    their keys; a tree over one index of postings is combined as row numbers first; an
    ordered scan gives rows in the order of their values, descending values with ascending
    ties, and may stop at a limit.  The index file is a map from the id and generation of
    a definition to its tables; a token dictionary is the list of its terms, which are text,
    so the errors for damaged [fst] bytes and for terms that are not UTF-8 do not arise.  The
    counters of entries and bytes read, which only feed estimates, are left out. *)
From S2P Require Import Prelude Order Redb Memory Fields OrderedCodec Eval Trigram Index.
Local Open Scope N_scope.

Inductive Node :=
| NRange (d : Manifest) (lower upper : option bytes) (dedup : bool)
| NPostings (d : Manifest) (term : str)
| NIntersection (a b : Node)
| NUnion (a b : Node)
| NFuzzy (d : Manifest) (term : str) (distance : N)
| NOrdered (d : Manifest) (lower upper : option bytes) (reverse : bool) (allowed : option Node) (limit : option N).

(** The fst library's automaton of the strings within an edit distance of a term, or
    [None] when it would be too large. *)
Class FstLib := fst_levenshtein : str → N → option (str → bool).

(** ** Ascending numbers *)

(** [intersect]'s merge, and its search when one list is much the shorter. *)
Fixpoint merge_common (a : list N) : list N → list N :=
  fix go (b : list N) : list N :=
    match a, b with
    | x :: a', y :: b' => match N.compare x y with
                          | Lt => merge_common a' b
                          | Gt => go b'
                          | Eq => x :: merge_common a' b'
                          end
    | _, _ => []
    end.
Definition intersect (a b : list N) : list N :=
  let '(small, large) := if len a <=? len b then (a, b) else (b, a) in
  if saturating_mul (len small) 16 <? len large then filter (λ n, (binary_search large n).1 = true) small
  else merge_common a b.

Fixpoint union (a : list N) : list N → list N :=
  fix go (b : list N) : list N :=
    match a, b with
    | x :: a', y :: b' => match N.compare x y with
                          | Lt => x :: union a' b
                          | Gt => y :: go b'
                          | Eq => x :: union a' b'
                          end
    | a, [] => a
    | [], b => b
    end.

(** Whether a key lies in a range with an optional included lower and excluded upper end. *)
Definition in_bounds (lower upper : option bytes) (k : bytes) : bool :=
  match lower with Some lo => negb (ltb k lo) | None => true end && match upper with Some hi => ltb k hi | None => true end.
Definition no_range (lower upper : option bytes) : bool :=
  match lower, upper with Some lo, Some hi => leb hi lo | _, _ => false end.

(** The rows of an ordered scan that are let through, how many may still be, and whether
    the scan stops. *)
Fixpoint accept (allowed : option (list str)) (room : option N) (rows : list str) : list str * option N * bool :=
  match rows with
  | [] => ([], room, false)
  | row :: rows' =>
      if match allowed with Some a => negb (bool_decide (row ∈ a)) | None => false end then accept allowed room rows'
      else match room with
           | Some n => if n <=? 1 then ([row], Some 0, true)
                       else let '(l, room, stop) := accept allowed (Some (n - 1)) rows' in (row :: l, room, stop)
           | None => let '(l, room, stop) := accept allowed None rows' in (row :: l, room, stop)
           end
  end.

(** The index whose postings are every leaf. *)
Fixpoint pure (node : Node) : option Manifest :=
  match node with
  | NPostings d _ => Some d
  | NIntersection a b | NUnion a b =>
      match pure a, pure b with
      | Some x, Some y => if m_id x =? m_id y then Some x else None
      | _, _ => None
      end
  | _ => None
  end.

Section execution.
Context `{Redb} `{TextLib} `{FstLib}.

Abbreviation file := (gmap (N * N) Tables).
Implicit Types f : file.

(** [open_table]: the tables of a generation are made before it is ready. *)
Definition open_tables (f : file) (d : Manifest) : result Tables :=
  ok_or (f !! (m_id d, m_generation d)) (Database (lit "Table does not exist")).

(** [range]: the entries it visits when the visitor never stops. *)
Definition range (f : file) (d : Manifest) (lower upper : option bytes) : result (list (bytes * str)) :=
  if no_range lower upper then Ok []
  else let? t := open_tables f d in Ok (filter (λ p, in_bounds lower upper p.1 = true) (t_iter (x_entries t))).

Fixpoint numbers (f : file) (node : Node) : result (list N) :=
  match node with
  | NPostings d term => let? t := open_tables f d in tri_read term (x_tri t)
  | NIntersection a b =>
      let? a := numbers f a in
      if bool_decide (a = []) then Ok a else let? b := numbers f b in Ok (intersect a b)
  | NUnion a b => let? a := numbers f a in let? b := numbers f b in Ok (union a b)
  | _ => Err (Validation (lit "trigram node expected"))
  end.

(** The rows of one token of the dictionary; a key of bytes 255 only would bound itself. *)
Definition posting (f : file) (d : Manifest) (token : str) : result (list str) :=
  let? key := encode_equality (VString token) in
  rmap (fmap snd) (range f d (Some key) (Some (default key (upto key)))).

Definition fuzzy_tokens (dictionary : list str) (term : str) (distance : N) : list str :=
  match fst_levenshtein term distance with
  | Some automaton => filter (λ token, automaton token = true) dictionary
  | None => filter (λ token, levenshtein token term <= distance) dictionary
  end.

(** The descending scan: from the last key below [next_upper] back to its group, which
    is then read forward.  Each turn goes below at least one entry. *)
Fixpoint groups (fuel : nat) (entries : list (bytes * str)) (lower upper next_upper : option bytes) (allowed : option (list str))
    (room : option N) : result (list str) :=
  match last (filter (λ p, in_bounds None next_upper p.1 = true) entries) with
  | None => Ok []
  | Some (key, row) =>
      match fuel with
      | O => Err FuelExhausted
      | S fuel' =>
          if match lower with Some lo => ltb key lo | None => false end then Ok []
          else
            let? suffix := OrderedCodec.encode (VString row) in
            if negb (ends_with key suffix) then Err (Validation (lit "corrupt index row suffix"))
            else
              let prefix := take (length key - length suffix) key in
              let group := filter (λ p, starts_with p.1 prefix && in_bounds None upper p.1 = true) entries in
              let '(rows, room, stop) := accept allowed room (snd <$> group) in
              if stop then Ok rows
              else rmap (app rows) (groups fuel' entries lower upper (Some prefix) allowed room)
      end
  end.

Definition ordered_rows (f : file) (d : Manifest) (lower upper : option bytes) (reverse : bool) (allowed : option (list str))
    (limit : option N) : result (list str) :=
  if reverse then
    let? t := open_tables f d in
    let entries := t_iter (x_entries t) in
    groups (S (length entries)) entries lower upper upper allowed limit
  else let? l := range f d lower upper in Ok (accept allowed limit (snd <$> l)).1.1.

Fixpoint set (f : file) (node : Node) : result (list str) :=
  match pure node with
  | Some d => let? rows := numbers f node in let? t := open_tables f d in Ok (btree_set (tri_names rows (x_tri t)))
  | None =>
      match node with
      | NPostings _ _ => Err (Validation (lit "a lone postings node is pure"))
      | NRange d lower upper _ => let? l := range f d lower upper in Ok (btree_set (snd <$> l))
      | NIntersection a b => let? a := set f a in let? b := set f b in Ok (filter (λ row, row ∈ b) a)
      | NUnion a b => let? a := set f a in let? b := set f b in Ok (foldr bset_insert a b)
      | NFuzzy d term distance =>
          let? t := open_tables f d in
          let? dictionary := ok_or (x_fst t) (Validation (lit "missing token dictionary")) in
          let? rows := traverse (posting f d) (fuzzy_tokens dictionary term distance) in
          Ok (btree_set (concat rows))
      | NOrdered d lower upper reverse allowed limit =>
          if bool_decide (limit = Some 0) then Ok []
          else
            let? allowed := match allowed with Some n => rmap Some (set f n) | None => Ok None end in
            rmap btree_set (ordered_rows f d lower upper reverse allowed limit)
      end
  end.

(** [keys]: the row keys of a plan, in the order of an ordered scan or of the keys. *)
Definition keys (f : file) (node : Node) : result (list str) :=
  match node with
  | NOrdered d lower upper reverse allowed limit =>
      if bool_decide (limit = Some 0) then Ok []
      else
        let? allowed := match allowed with Some n => rmap Some (set f n) | None => Ok None end in
        ordered_rows f d lower upper reverse allowed limit
  | _ => set f node
  end.

Definition count (f : file) (node : Node) : result N :=
  match node with
  | NRange d lower upper false => rmap len (range f d lower upper)
  | _ => rmap len (set f node)
  end.

End execution.
