(* ===== verification/Plan.v ===== *)
(** * Choosing an index plan ([indexes/planner.rs], [indexes/ordered.rs])

    [filters] lists the ways to answer a predicate from the indexes of a table: each
    [Recipe] is a tree of lookups and says whether its rows are exactly the matching ones
    ([r_covered]) or still have to be checked.  The estimated costs are floating-point
    numbers that only decide which recipe is taken; they are left out, and where the
    source takes the cheapest one the choice is a parameter. *)
From S2P Require Import Prelude Order Redb Memory Fields OrderedCodec Eval Trigram Index Exec.
Local Open Scope N_scope.

(** [optimizer.rs]: the kinds of plan. *)
Inductive PlanKind :=
| FullScan | SelectiveScan | PointLookup | TopK | EarlyStop
| IndexEquality | IndexRange | IndexUnion | IndexIntersection | IndexPrefix | IndexContains | IndexText | IndexOrder
| IndexCount | IndexFuzzy | IndexEsr | IndexErs.

Record Recipe := { r_node : Node; r_plan : PlanKind; r_ids : list N; r_covered : bool; r_ordered : bool }.

(** [query/mod.rs]: what a query is sorted by. *)
Inductive OrderSource := OField (p : Path) | OLastWrite | OSimilarity (p : Path) (term : str).

Definition scalar_path (p : Path) : bool := negb (existsb is_quantifier (p_steps p)).

Definition eligible (defs : list Manifest) (name : str) : list Manifest :=
  filter (λ d, m_ready d = true ∧ m_state d = Active ∧ d_table (m_definition d) = name) defs.

(** Ids merged: ascending, each once. *)
Fixpoint insert_id (n : N) (l : list N) : list N :=
  match l with
  | [] => [n]
  | m :: l' => match N.compare n m with Lt => n :: l | Eq => l | Gt => m :: insert_id n l' end
  end.
Definition ids (a b : list N) : list N := foldr insert_id [] (a ++ b).

(** A node of the list joined to the left by [join]; [None] for no nodes. *)
Definition join_nodes (join : Node → Node → Node) (l : list Node) : option Node :=
  match l with n :: l' => Some (fold_left join l' n) | [] => None end.

Section plan.
Context `{TextLib}.

Definition kind_for (op : Compare) : Kind :=
  match op with CText | CFuzzy _ => KToken | CContains => KTrigram | CParts => KParts | _ => KValue end.

Definition compound (d : Manifest) : bool := (1 <? length (d_paths (m_definition d)))%nat.

(** The key of a literal in an index, after the tag of compound keys. *)
Definition literal_key (d : Manifest) (v : Value) : result bytes :=
  rmap (app (if compound d then [byte_of_N 8] else [])) (encode_equality v).

(** The node, plan and coverage of one condition in one index; [None] when the index cannot
    answer it. *)
Definition leaf_node (d : Manifest) (p : Path) (op : Compare) (first : Value) (values : list Value)
    : result (option (Node * PlanKind * bool)) :=
  let? k := literal_key d first in
  let? e := encode_equality first in
  let type_prefix := (if compound d then [byte_of_N 8] else []) ++ take 1 e in
  let any := negb (scalar_path p) in
  let range_plan := if compound d then IndexErs else IndexRange in
  let range lower upper := NRange d lower upper any in
  match op with
  | CEq => Ok (Some (NRange d (Some k) (upto k) false, IndexEquality, true))
  | CNe => Ok (Some (NUnion (range (Some type_prefix) (Some k)) (range (upto k) (upto type_prefix)), IndexUnion, true))
  | CGt => Ok (Some (range (upto k) (upto type_prefix), range_plan, true))
  | CGe => Ok (Some (range (Some k) (upto type_prefix), range_plan, true))
  | CLt => Ok (Some (range (Some type_prefix) (Some k), range_plan, true))
  | CLe => Ok (Some (range (Some type_prefix) (upto k), range_plan, true))
  | CBetween =>
      match values !! 1%nat with
      | None => Ok None
      | Some upper =>
          let? u := literal_key d upper in
          Ok (Some (range (Some k) (Some u), range_plan, discriminant first =? discriminant upper))
      end
  | CIn =>
      let? nodes := traverse (λ v, let? k := literal_key d v in Ok (NRange d (Some k) (upto k) false)) values in
      Ok ((λ n, (n, IndexUnion, true)) <$> join_nodes NUnion nodes)
  | CPrefix =>
      match first with
      | VString _ =>
          let prefix := take (length k - 2) k in
          Ok (Some (range (Some prefix) (upto prefix), IndexPrefix, true))
      | _ => Ok None
      end
  | CText =>
      match first with
      | VString term =>
          let terms := tokens term in
          if bool_decide (terms = []) || (64 <? len terms) then Ok None
          else
            let? nodes := traverse (λ t, let? k := encode_equality (VString t) in Ok (NRange d (Some k) (upto k) false)) terms in
            Ok ((λ n, (n, IndexText, negb any)) <$> join_nodes NIntersection nodes)
      | _ => Ok None
      end
  | CContains | CParts =>
      match first with
      | VString term =>
          let terms := if bool_decide (op = CContains) then trigrams term else tokens term in
          if bool_decide (terms = []) || (64 <? len terms) then Ok None
          else Ok ((λ n, (n, IndexContains, false)) <$> join_nodes NIntersection (NPostings d <$> terms))
      | _ => Ok None
      end
  | CFuzzy distance =>
      match first with
      | VString term => Ok (Some (NFuzzy d term distance, IndexFuzzy, true))
      | _ => Ok None
      end
  end.

Definition leaf_recipe (p : Path) (op : Compare) (first : Value) (values : list Value) (d : Manifest) : result (option Recipe) :=
  if compound d && (negb (bool_decide (kind_for op = KValue))
                    || match head (d_directions (m_definition d)) with Some Desc => true | _ => false end)
  then Ok None
  else rmap (fmap (λ '(n, plan, covered), {| r_node := n; r_plan := plan; r_ids := [m_id d]; r_covered := covered; r_ordered := false |}))
            (leaf_node d p op first values).

Definition leaf (defs : list Manifest) (name : str) (p : Path) (op : Compare) (values : list Value) : result (list Recipe) :=
  if existsb (λ s, bool_decide (s = All)) (p_steps p) then Ok []
  else
    let? values := traverse (interpret (p_kind p)) values in
    match values with
    | [] => Ok []
    | first :: _ =>
        if is_range op && existsb unorderable values then Ok []
        else
          rmap (omap id)
            (traverse (leaf_recipe p op first values)
               (filter (λ d, d_kind (m_definition d) = kind_for op ∧ head (d_paths (m_definition d)) = Some p) (eligible defs name)))
    end.

(** [Presence::Exists] spans every type above missing. *)
Definition open_upper (r : Recipe) : Recipe :=
  match r_node r with
  | NRange d lower _ dedup =>
      {| r_node := NRange d lower (if compound d then Some [byte_of_N 9] else None) dedup;
         r_plan := r_plan r; r_ids := r_ids r; r_covered := r_covered r; r_ordered := r_ordered r |}
  | _ => r
  end.

Definition uncovered (r : Recipe) : Recipe :=
  {| r_node := r_node r; r_plan := r_plan r; r_ids := r_ids r; r_covered := false; r_ordered := r_ordered r |}.
Definition both (join : Node → Node → Node) (plan : PlanKind) (a b : Recipe) : Recipe :=
  {| r_node := join (r_node a) (r_node b); r_plan := plan; r_ids := ids (r_ids a) (r_ids b);
     r_covered := r_covered a && r_covered b; r_ordered := false |}.

Fixpoint filters (defs : list Manifest) (name : str) (e : Expr) : result (list Recipe) :=
  match e with
  | ECompare p op values =>
      if existsb is_empty values then Ok [] else leaf defs name p op values
  | EPresence p op =>
      match op with
      | PNull => leaf defs name p CEq [Null]
      | PMissing => leaf defs name p CEq [Missing]
      | PEmpty => leaf defs name p CIn [Missing; Null]
      | PExists => rmap (fmap open_upper) (leaf defs name p CGt [Missing])
      end
  | EAnd a b =>
      let? left_ := filters defs name a in
      let? right_ := filters defs name b in
      Ok ((uncovered <$> left_) ++ (uncovered <$> right_)
          ++ (left_ ≫= λ a, both NIntersection IndexIntersection a <$> right_))
  | EOr a b =>
      let? left_ := filters defs name a in
      let? right_ := filters defs name b in
      Ok (left_ ≫= λ a, both NUnion IndexUnion a <$> right_)
  | _ => Ok []
  end.
End plan.
