(* ===== verification/ExecSpec.v ===== *)
(** * What an index plan stands for

    [answers] says which rows a plan stands for, by the rows the indexes have seen;
    [set_exact]: running the plan never fails and gives exactly them. *)
From S2P Require Import Prelude Order Redb Memory Fields OrderedCodec OrderedSpec Eval IndexKeys Trigram TrigramSpec Index IndexSpec IndexProps Exec Plan.
Local Open Scope N_scope.

(** ** Ascending numbers *)

Lemma merge_common_elem a : ∀ b, asc a → asc b → ∀ n, n ∈ merge_common a b ↔ n ∈ a ∧ n ∈ b.
Proof.
  induction a as [|x a IHa]; intros b Ha Hb n; [assert (merge_common [] b = []) as -> by (by destruct b); set_solver|].
  pose proof Ha as [Ha' Hx]%StronglySorted_inv. rewrite Forall_forall in Hx.
  induction b as [|y b IHb]; [cbn [merge_common]; set_solver|].
  pose proof Hb as [Hb' Hy]%StronglySorted_inv. rewrite Forall_forall in Hy. cbn [merge_common].
  destruct (N.compare_spec x y) as [->|Hlt|Hgt].
  - rewrite elem_of_cons, IHa by done. assert (n ∈ a → n ≠ y) by (intros Hn ->; specialize (Hx y Hn); lia). set_solver.
  - rewrite IHa by done. assert (n ∈ y :: b → n ≠ x); [|set_solver].
    intros Hn ->. apply elem_of_cons in Hn as [->|Hn]; [lia|]. specialize (Hy x Hn). lia.
  - rewrite (IHb Hb'). assert (n ∈ x :: a → n ≠ y); [|set_solver].
    intros Hn ->. apply elem_of_cons in Hn as [->|Hn]; [lia|]. specialize (Hx y Hn). lia.
Qed.

Lemma merge_common_asc a : ∀ b, asc a → asc b → asc (merge_common a b).
Proof.
  induction a as [|x a IHa]; intros b Ha Hb; [destruct b; constructor|].
  pose proof Ha as [Ha' Hx]%StronglySorted_inv. rewrite Forall_forall in Hx.
  induction b as [|y b IHb]; [constructor|]. pose proof Hb as [Hb' Hy]%StronglySorted_inv. cbn [merge_common].
  destruct (N.compare_spec x y) as [->|Hlt|Hgt]; [|by apply IHa|by apply IHb].
  constructor; [by apply IHa|]. apply Forall_forall. intros n [Hn _]%merge_common_elem; [by apply Hx|done..].
Qed.

Lemma filter_asc (P : N → Prop) `{∀ n, Decision (P n)} l : asc l → asc (filter P l).
Proof.
  induction 1 as [|x l _ IH Hf]; [constructor|]. rewrite filter_cons. case_decide; [|done]. constructor; [done|].
  apply Forall_forall. intros y [_ Hy]%list_elem_of_filter. rewrite Forall_forall in Hf. by apply Hf.
Qed.

Lemma intersect_spec a b : asc a → asc b → asc (intersect a b) ∧ ∀ n, n ∈ intersect a b ↔ n ∈ a ∧ n ∈ b.
Proof.
  intros Ha Hb. unfold intersect. destruct (len a <=? len b); case_match.
  - split; [by apply filter_asc|]. intros n. rewrite list_elem_of_filter, binary_search_in by done. tauto.
  - split; [by apply merge_common_asc|]. intros n. by apply merge_common_elem.
  - split; [by apply filter_asc|]. intros n. rewrite list_elem_of_filter, binary_search_in by done. tauto.
  - split; [by apply merge_common_asc|]. intros n. by apply merge_common_elem.
Qed.

Lemma union_elem a : ∀ b n, n ∈ union a b ↔ n ∈ a ∨ n ∈ b.
Proof.
  induction a as [|x a IHa]; intros b n; [destruct b; set_solver|].
  induction b as [|y b IHb]; [set_solver|]. cbn [union]. destruct (N.compare_spec x y) as [->|Hlt|Hgt].
  - rewrite elem_of_cons, IHa. set_solver.
  - rewrite elem_of_cons, IHa. set_solver.
  - rewrite elem_of_cons, IHb. set_solver.
Qed.

Lemma union_asc a : ∀ b, asc a → asc b → asc (union a b).
Proof.
  induction a as [|x a IHa]; intros b Ha Hb; [by destruct b|].
  pose proof Ha as [Ha' Hx]%StronglySorted_inv. rewrite Forall_forall in Hx.
  induction b as [|y b IHb]; [done|]. pose proof Hb as [Hb' Hy]%StronglySorted_inv. rewrite Forall_forall in Hy. cbn [union].
  destruct (N.compare_spec x y) as [->|Hlt|Hgt].
  - constructor; [by apply IHa|]. apply Forall_forall. intros n [Hn|Hn]%union_elem; [by apply Hx|by apply Hy].
  - constructor; [by apply IHa|]. apply Forall_forall. intros n [Hn|[->|Hn]%elem_of_cons]%union_elem; [by apply Hx|done|].
    specialize (Hy n Hn). lia.
  - constructor; [by apply IHb|]. apply Forall_forall. change (list_fmap N N) with (@fmap list _ N N).
    intros n [Hn|Hn]%(union_elem (x :: a) b n); [|by apply Hy]. apply elem_of_cons in Hn as [->|Hn]; [done|]. specialize (Hx n Hn). lia.
Qed.

(** ** Plans *)

Section answers.
Context `{Redb} `{TextLibOk} `{Allocator} `{FstLib}.

Abbreviation seen := (gmap str (bytes * N)).
Abbreviation file := (gmap (N * N) Tables).

(** A row has a key of the index between the bounds. *)
Definition has_key (d : IndexDef) (lower upper : option bytes) (row : str) (p : bytes * N) : Prop :=
  ∃ vs v k, row_values d p.1 p.2 = Ok vs ∧ v ∈ vs ∧ definition_key d v row = Ok k ∧ in_bounds lower upper k = true.
Definition has_gram (d : IndexDef) (term : str) (p : bytes * N) : Prop := ∃ grams, row_grams d p.1 = Ok grams ∧ term ∈ grams.
Definition has_near (d : IndexDef) (term : str) (distance : N) (p : bytes * N) : Prop :=
  ∃ vs token, row_values d p.1 p.2 = Ok vs ∧ VString token ∈ vs ∧ levenshtein token term <= distance.

Fixpoint answers (node : Node) (row : str) (p : bytes * N) : Prop :=
  match node with
  | NRange d lower upper _ => has_key (m_definition d) lower upper row p
  | NPostings d term => has_gram (m_definition d) term p
  | NIntersection a b => answers a row p ∧ answers b row p
  | NUnion a b => answers a row p ∨ answers b row p
  | NFuzzy d term distance => has_near (m_definition d) term distance p
  | NOrdered d lower upper _ allowed _ =>
      has_key (m_definition d) lower upper row p ∧ match allowed with Some n => answers n row p | None => True end
  end.

(** The index file has, for every index a plan of the table may use, tables that are
    what the rows say, with their dictionary; and no two of them share an id. *)
Record file_ok `{ReverseJson} (f : file) (defs : list Manifest) (name : str) (rows : seen) : Prop := {
  fo_tables : ∀ d, d ∈ eligible defs name → ∃ t, f !! (m_id d, m_generation d) = Some t ∧ idx_ok (m_definition d) t rows ∧
    (d_kind (m_definition d) = KToken → x_fst t = Some (fst <$> t_iter (x_terms t)));
  fo_ids : ∀ d d', d ∈ eligible defs name → d' ∈ eligible defs name → m_id d = m_id d' → d = d';
}.

(** What the code relies on from the fst library's automaton. *)
Class FstLibOk := fst_distance : ∀ term distance automaton token,
  fst_levenshtein term distance = Some automaton → automaton token = (levenshtein token term <=? distance).

(** A plan that uses the indexes of the table, each the way it is kept. *)
Fixpoint sound_node (defs : list Manifest) (name : str) (node : Node) : Prop :=
  match node with
  | NRange d _ _ _ => d ∈ eligible defs name ∧ postings (d_kind (m_definition d)) = false
  | NPostings d _ => d ∈ eligible defs name ∧ postings (d_kind (m_definition d)) = true
  | NIntersection a b | NUnion a b => sound_node defs name a ∧ sound_node defs name b
  | NFuzzy d _ _ => d ∈ eligible defs name ∧ d_kind (m_definition d) = KToken ∧ length (d_paths (m_definition d)) = 1%nat
  | NOrdered _ _ _ _ _ _ => False
  end.

Context `{ReverseJson}.

Lemma no_range_empty lower upper k : no_range lower upper = true → in_bounds lower upper k = false.
Proof.
  destruct lower as [lo|], upper as [hi|]; try done. unfold no_range, in_bounds. rewrite leb_le. intros Hle.
  apply andb_false_iff. destruct (ltb k hi) eqn:E; [left|by right]. apply negb_false_iff, ltb_lt.
  apply ltb_lt in E. destruct (key_lt_total k lo) as [?|[->|?]]; [done|done|]. exfalso. apply Hle. by transitivity k.
Qed.

Lemma range_exact f defs name rows d lower upper : file_ok f defs name rows → d ∈ eligible defs name →
  postings (d_kind (m_definition d)) = false →
  ∃ l, range f d lower upper = Ok l ∧
    ∀ row, row ∈ snd <$> l ↔ ∃ p, rows !! row = Some p ∧ has_key (m_definition d) lower upper row p.
Proof.
  intros Hf Hd Hk. unfold range. destruct (no_range lower upper) eqn:En.
  { exists []. split; [done|]. intros row. split; [by intros []%elem_of_nil|].
    intros (p & _ & vs & v & k & _ & _ & _ & Hb). by rewrite no_range_empty in Hb. }
  destruct (fo_tables f defs name rows Hf d Hd) as (t & Et & Ho & _). unfold open_tables. rewrite Et. cbn [ok_or rbind].
  eexists. split; [done|]. unfold idx_ok in Ho. rewrite Hk in Ho. intros row. rewrite list_elem_of_fmap. split.
  - intros ([k row'] & -> & [Hb Hi%t_get_iter]%list_elem_of_filter). cbn [fst snd] in *.
    apply (keyed_exact (m_definition d) t rows Ho) in Hi as (p & vs & v & Er & Ev & Hv & Ek). exists p. split; [done|].
    by exists vs, v, k.
  - intros (p & Er & vs & v & k & Ev & Hv & Ek & Hb). exists (k, row). split; [done|]. apply list_elem_of_filter. split; [done|].
    apply t_get_iter, (keyed_exact (m_definition d) t rows Ho). by exists p, vs, v.
Qed.

(** *** One token *)

Lemma token_values d p vs v : d_kind d = KToken → length (d_paths d) = 1%nat → row_values d p.1 p.2 = Ok vs → v ∈ vs →
  ∃ token, v = VString token.
Proof.
  intros Hk Hl. unfold row_values, key_values. destruct (sampled_values d p.1 p.2) as [sampled|]; [cbn [rbind]|done].
  rewrite Hk, Hl, bool_decide_false by done. cbn [Nat.eqb]. destruct (text_terms tokens sampled) as [l|]; [|done]. intros [= <-].
  intros (s & -> & _)%list_elem_of_fmap. eauto.
Qed.

Lemma eq_bounds a b x y p r : encode_equality a = Ok x → encode_equality b = Ok y →
  in_bounds (Some (p ++ y)) (upto (p ++ y)) (p ++ x ++ r) = bool_decide (x = y).
Proof.
  intros Ea Eb. unfold in_bounds. rewrite (ltb_key a b) by done. pose proof (ltb_key_end a b x y p r Ea Eb) as He.
  destruct (upto (p ++ y)); [|done]. rewrite He. apply eq_true_iff_eq.
  rewrite andb_true_iff, negb_true_iff, bool_decide_eq_false, !bool_decide_eq_true, <-list_cmp_eq. destruct (list_cmp x y); intuition done.
Qed.

Lemma string_key s x : encode_equality (VString s) = Ok x → ∀ s', encode_equality (VString s') = Ok x → s = s'.
Proof. intros [= <-] s' [= E]. symmetry. apply row_suffix_inj. unfold row_suffix. by rewrite E. Qed.

(** What the index has of a row it has seen. *)
Lemma row_indexed f defs name rows d row p : file_ok f defs name rows → d ∈ eligible defs name →
  postings (d_kind (m_definition d)) = false → rows !! row = Some p →
  ∃ vs, row_values (m_definition d) p.1 p.2 = Ok vs ∧ ∀ v, v ∈ vs → ∃ k, definition_key (m_definition d) v row = Ok k.
Proof.
  intros Hf Hd Hk Er. destruct (fo_tables f defs name rows Hf d Hd) as (t & _ & Ho & _). unfold idx_ok in Ho. rewrite Hk in Ho.
  destruct (ko_row _ t rows Ho row p Er) as (e & r & _ & _ & vs & Ev & Ek & _). exists vs. split; [done|]. intros v Hv.
  unfold row_keys in Ek. destruct (traverse _ vs) as [ks|] eqn:Et; [|done]. apply traverse_ok_Forall2 in Et.
  apply list_elem_of_lookup in Hv as [i Hi]. destruct (Forall2_lookup_l _ _ _ _ _ Et Hi) as (k & _ & Ekk). by exists k.
Qed.

(** The keys of one token are those of the rows that have it. *)
Lemma token_range f defs name rows d token y row p : file_ok f defs name rows → d ∈ eligible defs name →
  d_kind (m_definition d) = KToken → length (d_paths (m_definition d)) = 1%nat → encode_equality (VString token) = Ok y → rows !! row = Some p →
  has_key (m_definition d) (Some y) (upto y) row p ↔ ∃ vs, row_values (m_definition d) p.1 p.2 = Ok vs ∧ VString token ∈ vs.
Proof.
  intros Hf Hd Hk Hl Ey Er.
  assert (Hb : ∀ s k, definition_key (m_definition d) (VString s) row = Ok k → in_bounds (Some y) (upto y) k = true ↔ s = token).
  { intros s k. rewrite definition_key_body. unfold key_body. rewrite Hl. cbn [Nat.leb].
    destruct (encode_equality (VString s)) as [x|] eqn:Ex; [|done]. intros [= <-].
    pose proof (eq_bounds (VString s) (VString token) x y [] (row_suffix row) Ex Ey) as Hb. cbn [app] in Hb.
    rewrite Hb, bool_decide_eq_true. split; [intros ->; by apply (string_key s y)|intros ->; congruence]. }
  split.
  - intros (vs & v & k & Ev & Hv & Ek & Hk'). exists vs. split; [done|].
    destruct (token_values _ p vs v Hk Hl Ev Hv) as [s ->]. apply (Hb s k Ek) in Hk' as ->. done.
  - intros (vs & Ev & Hv). destruct (row_indexed f defs name rows d row p Hf Hd) as (vs' & Ev' & Hks); [by rewrite Hk|done|].
    assert (vs' = vs) as -> by congruence. destruct (Hks _ Hv) as [k Ek]. exists vs, (VString token), k.
    split_and!; [done..|by apply (Hb token k Ek)].
Qed.

Lemma posting_exact f defs name rows d token : file_ok f defs name rows → d ∈ eligible defs name →
  d_kind (m_definition d) = KToken → length (d_paths (m_definition d)) = 1%nat →
  ∃ l, posting f d token = Ok l ∧ ∀ row, row ∈ l ↔ ∃ p vs, rows !! row = Some p ∧ row_values (m_definition d) p.1 p.2 = Ok vs ∧ VString token ∈ vs.
Proof.
  intros Hf Hd Hk Hl. unfold posting. destruct (encode_equality (VString token)) as [y|] eqn:Ey; [|done]. cbn [rbind].
  destruct (upto_key_some (VString token) y [] Ey) as [q Eq]. cbn [app] in Eq. rewrite Eq. change (default y (Some q)) with q.
  destruct (range_exact f defs name rows d (Some y) (Some q) Hf Hd) as (l & -> & Hin); [by rewrite Hk|].
  eexists. split; [done|]. intros row. rewrite Hin. rewrite <-Eq.
  split; [intros (p & Er & Hp)|intros (p & vs & Er & Hp)]; exists p; [|split; [done|]];
    pose proof (token_range f defs name rows d token y row p Hf Hd Hk Hl Ey Er) as Ht.
  - apply Ht in Hp as (vs & Hv). by exists vs.
  - apply Ht. by exists vs.
Qed.

(** The dictionary has the tokens that some row has. *)
Lemma dictionary_exact t d rows token : d_kind d = KToken → keyed_ok d t rows →
  token ∈ (t_iter (x_terms t)).*1 ↔ ∃ row p vs, rows !! row = Some p ∧ row_values d p.1 p.2 = Ok vs ∧ VString token ∈ vs.
Proof.
  intros Hk Ho. assert (Hs : ∀ vs, token ∈ row_terms d vs ↔ VString token ∈ vs).
  { intros vs. unfold row_terms. rewrite bool_decide_true, elem_of_btree_set, list_elem_of_omap by done. split.
    - intros (v & Hv & E). by destruct v; try done; injection E as ->.
    - intros Hv. by exists (VString token). }
  rewrite list_elem_of_fmap. split.
  - intros ([w n] & -> & Hn%t_get_iter). rewrite (ko_terms d t rows Ho Hk) in Hn. case_decide as Hz; [done|]. cbn [fst] in *.
    destruct (proj1 (rows_with_pos d w rows)) as (row & p & Er & vs & Ev & Hw); [lia|]. exists row, p, vs. split_and!; [done..|by apply Hs].
  - intros (row & p & vs & Er & Ev & Hv). assert (Hz : 0 < rows_with d token rows).
    { apply rows_with_pos. exists row, p. split; [done|]. exists vs. split; [done|by apply Hs]. }
    exists (token, rows_with d token rows). split; [done|]. apply t_get_iter. rewrite (ko_terms d t rows Ho Hk). case_decide; [lia|done].
Qed.

(** *** Row numbers *)

Lemma pure_sound defs name node d : sound_node defs name node → pure node = Some d →
  d ∈ eligible defs name ∧ postings (d_kind (m_definition d)) = true.
Proof.
  induction node as [| |a IHa b IHb|a IHa b IHb| |]; cbn [sound_node pure]; intros Hs Ep; try done; [by injection Ep as <-|..];
    destruct (pure a) as [x|], (pure b) as [y|], Hs as [Ha Hb]; try done; destruct (_ =? _); try done;
    injection Ep as <-; by apply IHa.
Qed.

Lemma numbers_exact f defs name rows d t node : file_ok f defs name rows → sound_node defs name node → pure node = Some d →
  f !! (m_id d, m_generation d) = Some t → posted_ok (m_definition d) t rows →
  ∃ ns, numbers f node = Ok ns ∧ asc ns ∧ ∀ id, id ∈ ns ↔
    ∃ row p, t_get (t_ids (x_tri t)) id = Some row ∧ rows !! row = Some p ∧ answers node row p.
Proof.
  intros Hf. induction node as [|d' term|a IHa b IHb|a IHa b IHb| |]; cbn [sound_node pure numbers answers]; intros Hs Hp Et Ho; try done.
  - injection Hp as ->. unfold open_tables. rewrite Et. cbn [ok_or rbind].
    destruct (tri_read_ids term (x_tri t) _ (po_tri _ t rows Ho)) as (ns & -> & Ha & Hns). exists ns. split_and!; [done..|].
    intros id. rewrite Hns. setoid_rewrite lookup_fmap_Some. split.
    + intros (row & grams & Ei & (p & <- & Er) & Hg). exists row, p. split_and!; [done..|].
      pose proof (po_rows _ t rows Ho row p Er) as Hr. unfold grams_of in Hg. destruct (row_grams _ p.1) as [g|] eqn:Eg; [|done]. by exists g.
    + intros (row & p & Ei & Er & grams & Eg & Hg). exists row, grams. split_and!; [done| |done]. exists p. split; [|done].
      unfold grams_of. by rewrite Eg.
  - destruct Hs as [Hsa Hsb]. destruct (pure a) as [x|] eqn:Epa; [|done]. destruct (pure b) as [y|] eqn:Epb; [|done].
    destruct (N.eqb_spec (m_id x) (m_id y)) as [Exy|]; [|done]. injection Hp as ->.
    destruct (pure_sound _ _ _ _ Hsa Epa) as [Hd _], (pure_sound _ _ _ _ Hsb Epb) as [Hy _].
    pose proof (fo_ids _ _ _ _ Hf _ _ Hd Hy Exy) as <-.
    destruct (IHa Hsa eq_refl Et Ho) as (na & -> & Haa & Hna). destruct (IHb Hsb eq_refl Et Ho) as (nb & -> & Hab & Hnb). cbn [rbind].
    assert (Hg : ∀ id, (id ∈ na ∧ id ∈ nb) ↔ ∃ row p, t_get (t_ids (x_tri t)) id = Some row ∧ rows !! row = Some p ∧ answers a row p ∧ answers b row p).
    { intros id. rewrite Hna, Hnb. split; [|by intros (row & p & ? & ? & ? & ?); split; exists row, p].
      intros [(row & p & Ei & Er & Ha) (row' & p' & Ei' & Er' & Hb)]. exists row, p. assert (row' = row) as -> by congruence.
      assert (p' = p) as -> by congruence. done. }
    destruct (bool_decide_reflect (na = [])) as [->|Hne].
    { exists []. split_and!; [done..|]. intros id. rewrite <-Hg. set_solver. }
    destruct (intersect_spec na nb Haa Hab) as [Hi1 Hi2]. eexists. split_and!; [done..|]. intros id. by rewrite Hi2.
  - destruct Hs as [Hsa Hsb]. destruct (pure a) as [x|] eqn:Epa; [|done]. destruct (pure b) as [y|] eqn:Epb; [|done].
    destruct (N.eqb_spec (m_id x) (m_id y)) as [Exy|]; [|done]. injection Hp as ->.
    destruct (pure_sound _ _ _ _ Hsa Epa) as [Hd _], (pure_sound _ _ _ _ Hsb Epb) as [Hy _].
    pose proof (fo_ids _ _ _ _ Hf _ _ Hd Hy Exy) as <-.
    destruct (IHa Hsa eq_refl Et Ho) as (na & -> & Haa & Hna). destruct (IHb Hsb eq_refl Et Ho) as (nb & -> & Hab & Hnb). cbn [rbind].
    eexists. split_and!; [done|by apply union_asc|]. intros id. rewrite union_elem, Hna, Hnb. split.
    + intros [(row & p & ? & ? & ?)|(row & p & ? & ? & ?)]; exists row, p; tauto.
    + intros (row & p & ? & ? & [?|?]); [left|right]; by exists row, p.
Qed.

(** *** Sets of rows *)

(** Ascending row keys, exactly those of the rows with [P]. *)
Definition exactly (rows : seen) (P : str → bytes * N → Prop) (l : list str) : Prop :=
  StronglySorted key_lt l ∧ ∀ row, row ∈ l ↔ ∃ p, rows !! row = Some p ∧ P row p.

Lemma sorted_filter_list {K} `{TotalOrder K} (P : K → Prop) `{∀ x, Decision (P x)} (l : list K) :
  StronglySorted key_lt l → StronglySorted key_lt (filter P l).
Proof.
  induction 1 as [|x l _ IH Hf]; [constructor|]. rewrite filter_cons. case_decide; [|done]. constructor; [done|].
  apply Forall_forall. intros y [_ Hy]%list_elem_of_filter. rewrite Forall_forall in Hf. by apply Hf.
Qed.

Lemma foldr_bset_sorted {K} `{TotalOrder K} (a b : list K) : StronglySorted key_lt a → StronglySorted key_lt (foldr bset_insert a b).
Proof. intros Ha. induction b as [|x b IH]; [done|]. by apply bset_insert_sorted. Qed.

Lemma elem_of_foldr_bset {K} `{TotalOrder K} (a b : list K) x : x ∈ foldr bset_insert a b ↔ x ∈ a ∨ x ∈ b.
Proof. induction b as [|y b IH]; [set_solver|]. cbn [foldr]. rewrite elem_of_bset_insert. set_solver. Qed.

Lemma set_pure f defs name rows d node : file_ok f defs name rows → sound_node defs name node → pure node = Some d →
  ∃ l, set f node = Ok l ∧ exactly rows (answers node) l.
Proof.
  intros Hf Hs Hp. destruct (pure_sound _ _ _ _ Hs Hp) as [Hd Hk]. destruct (fo_tables f defs name rows Hf d Hd) as (t & Et & Ho & _).
  unfold idx_ok in Ho. rewrite Hk in Ho. destruct (numbers_exact f defs name rows d t node Hf Hs Hp Et Ho) as (ns & En & _ & Hns).
  exists (btree_set (tri_names ns (x_tri t))). split.
  - destruct node; cbn [set]; rewrite Hp, En; unfold open_tables; rewrite Et; done.
  - split; [apply btree_set_sorted|]. intros row. unfold tri_names. rewrite elem_of_btree_set, list_elem_of_omap. split.
    + intros (id & (row' & p & Ei & Er & Ha)%Hns & E). assert (row' = row) as -> by congruence. by exists p.
    + intros (p & Er & Ha). destruct (tri_row_id (x_tri t) (grams_of (m_definition d) <$> rows) row (grams_of (m_definition d) p)) as [id Ei];
        [apply (po_tri _ t rows Ho)|by rewrite lookup_fmap, Er|]. exists id. split; [|done]. apply Hns. by exists row, p.
Qed.

Lemma fuzzy_tokens_elem `{!FstLibOk} dictionary term distance token :
  token ∈ fuzzy_tokens dictionary term distance ↔ token ∈ dictionary ∧ levenshtein token term <= distance.
Proof.
  unfold fuzzy_tokens. destruct (fst_levenshtein term distance) as [automaton|] eqn:E; rewrite list_elem_of_filter; [|tauto].
  rewrite (fst_distance term distance automaton token E), N.leb_le. tauto.
Qed.

Lemma traverse_total {A B} (g : A → result B) (Q : A → B → Prop) l : (∀ a, a ∈ l → ∃ b, g a = Ok b ∧ Q a b) →
  ∃ bs, traverse g l = Ok bs ∧ Forall2 Q l bs.
Proof.
  induction l as [|a l IH]; intros Hg; [by exists []|]. destruct (Hg a ltac:(left)) as (b & Eb & Hb).
  destruct IH as (bs & Ebs & Hbs); [intros x Hx; apply Hg; by right|]. exists (b :: bs). cbn [traverse]. rewrite Eb, Ebs.
  split; [done|by constructor].
Qed.

Lemma set_fuzzy `{!FstLibOk} f defs name rows d term distance : file_ok f defs name rows → sound_node defs name (NFuzzy d term distance) →
  ∃ l, set f (NFuzzy d term distance) = Ok l ∧ exactly rows (answers (NFuzzy d term distance)) l.
Proof.
  intros Hf (Hd & Hk & Hl). destruct (fo_tables f defs name rows Hf d Hd) as (t & Et & Ho & Hdict).
  unfold idx_ok in Ho. rewrite Hk in Ho. cbn [postings] in Ho. cbn [set pure answers]. unfold open_tables. rewrite Et. cbn [ok_or rbind].
  rewrite (Hdict Hk). cbn [ok_or rbind].
  destruct (traverse_total (posting f d) (λ token l, ∀ row, row ∈ l ↔ ∃ p vs, rows !! row = Some p ∧
    row_values (m_definition d) p.1 p.2 = Ok vs ∧ VString token ∈ vs) (fuzzy_tokens (t_iter (x_terms t)).*1 term distance)) as (ls & -> & Hls).
  { intros token _. by eapply posting_exact. }
  cbn [rbind]. eexists. split; [done|]. split; [apply btree_set_sorted|]. intros row. rewrite elem_of_btree_set, concat_elem. split.
  - intros (l & Hin & Hrow). apply list_elem_of_lookup in Hin as [i Hi]. destruct (Forall2_lookup_r _ _ _ _ _ Hls Hi) as (token & Ht & Hin).
    destruct (proj1 (Hin row) Hrow) as (p & vs & Er & Ev & Hv). destruct (proj1 (fuzzy_tokens_elem _ term distance token) (list_elem_of_lookup_2 _ _ _ Ht)) as [_ Hdist].
    exists p. split; [done|]. by exists vs, token.
  - intros (p & Er & vs & token & Ev & Hv & Hdist). assert (Ht : token ∈ fuzzy_tokens (t_iter (x_terms t)).*1 term distance).
    { apply fuzzy_tokens_elem. split; [|done]. apply (dictionary_exact t (m_definition d) rows token Hk Ho). by exists row, p, vs. }
    apply list_elem_of_lookup in Ht as [i Hi]. destruct (Forall2_lookup_l _ _ _ _ _ Hls Hi) as (l & Hli & Hin). exists l.
    split; [by eapply list_elem_of_lookup_2|apply Hin; by exists p, vs].
Qed.

Lemma set_exact `{!FstLibOk} f defs name rows node : file_ok f defs name rows → sound_node defs name node →
  ∃ l, set f node = Ok l ∧ exactly rows (answers node) l.
Proof.
  intros Hf. induction node as [d lower upper dedup|d term|a IHa b IHb|a IHa b IHb|d term distance|]; intros Hs; [| | | | |done].
  - destruct Hs as [Hd Hk]. destruct (range_exact f defs name rows d lower upper Hf Hd Hk) as (l & E & Hl).
    cbn [set pure]. rewrite E. cbn [rbind]. eexists. split; [done|]. split; [apply btree_set_sorted|]. intros row.
    by rewrite elem_of_btree_set, Hl.
  - by eapply set_pure.
  - destruct (pure (NIntersection a b)) as [d|] eqn:Ep; [by eapply set_pure|]. cbn [set]. rewrite Ep. destruct Hs as [Hsa Hsb].
    destruct (IHa Hsa) as (la & -> & Hla & Ea), (IHb Hsb) as (lb & -> & Hlb & Eb). cbn [rbind]. eexists. split; [done|].
    split; [by apply sorted_filter_list|]. intros row. rewrite list_elem_of_filter, Ea, Eb. cbn [answers]. split.
    + intros [(p & Er & Hb) (p' & Er' & Ha)]. exists p. assert (p' = p) as -> by congruence. done.
    + intros (p & Er & Ha & Hb). split; by exists p.
  - destruct (pure (NUnion a b)) as [d|] eqn:Ep; [by eapply set_pure|]. cbn [set]. rewrite Ep. destruct Hs as [Hsa Hsb].
    destruct (IHa Hsa) as (la & -> & Hla & Ea), (IHb Hsb) as (lb & -> & Hlb & Eb). cbn [rbind]. eexists. split; [done|].
    split; [by apply foldr_bset_sorted|]. intros row. rewrite elem_of_foldr_bset, Ea, Eb. cbn [answers]. split.
    + intros [(p & Er & Hp)|(p & Er & Hp)]; exists p; tauto.
    + intros (p & Er & [Hp|Hp]); [left|right]; by exists p.
  - by eapply set_fuzzy.
Qed.
End answers.
