(* ===== verification/PathSpec.v ===== *)
(** * Conditions on the values under a path

    An index keeps the values a path gives ([path_values]); a condition on a path with
    [Any] holds when it holds for one of them ([quantified_values]).  A text contains
    another only if it has all its trigrams ([contains_trigrams]), and begins with another
    exactly when its key does ([text_prefix]). *)
From S2P Require Import Prelude Order Fields OrderedCodec OrderedSpec Eval EvalSpec Trigram Index IndexKeys.
Local Open Scope N_scope.

(** ** Any *)

Definition no_all (l : list Step) : Prop := Forall (λ s, s ≠ All) l.

Lemma find_any l : no_all l → list_find (λ s, is_quantifier s = true) l = list_find (λ s, s = Any) l.
Proof.
  induction 1 as [|s l Hs _ IH]; [done|]. cbn [list_find]. rewrite IH. by destruct s.
Qed.

Lemma no_all_index i n l : no_all l → no_all (<[i := Index n]> l).
Proof. intros Hl. by apply Forall_insert. Qed.

Lemma anys_insert i s n l : list_find (λ s, s = Any) l = Some (i, s) →
  length (filter (λ s, s = Any) l) = S (length (filter (λ s, s = Any) (<[i := Index n]> l))).
Proof.
  revert i. induction l as [|a l IH]; intros i; cbn [list_find]; [done|]. case_decide as Ha.
  - intros [= <- <-]. by rewrite Ha.
  - destruct (list_find _ l) as [[j t]|] eqn:E; [|done]. intros [= <- <-]. cbn [list_insert insert].
    rewrite !filter_cons, !decide_False by done. by apply IH.
Qed.

Section paths.
Context `{TextLib}.

Lemma path_values_unfold b p : path_values b p =
  match list_find (λ s, s = Any) (p_steps p) with
  | Some (i, _) =>
      let? v := extract b (take i (p_steps p)) in
      match v with
      | VArray items => rmap (@concat Value) (traverse (λ n, path_values b
          (with_steps p (<[i := Index (N.of_nat n)]> (p_steps p)))) (seq 0 (length items)))
      | _ => Ok []
      end
  | None => let? v := path_value b p in Ok [v]
  end.
Proof.
  unfold path_values. destruct (list_find _ (p_steps p)) as [[i s]|] eqn:E.
  - rewrite (anys_insert i s 0) by done. cbn [path_values_fuel]. rewrite E. destruct (extract b _) as [v|]; [cbn [rbind]|done].
    destruct v; try done. f_equal. assert (Hext : ∀ l (f g : nat → result (list Value)), (∀ n, f n = g n) → traverse f l = traverse g l).
    { intros l' f g Hfg. induction l' as [|a l' IH]; [done|]. cbn [traverse]. by rewrite Hfg, IH. }
    apply Hext. intros n. cbn [p_steps with_steps]. f_equal. pose proof (anys_insert i s 0 _ E). pose proof (anys_insert i s (N.of_nat n) _ E). lia.
  - destruct (length _); cbn [path_values_fuel]; by rewrite E.
Qed.

(** [quantify] over tests that each hold for one of some values. *)
Lemma quantify_values (test : nat → result bool) (leaf : Value → result bool) (vss : list (list Value)) : ∀ n,
  (∀ i vs, vss !! i = Some vs → (test (n + i)%nat = Ok true → ∃ v, v ∈ vs ∧ leaf v = Ok true) ∧
     ((∃ v, v ∈ vs ∧ leaf v ≠ Ok false) → test (n + i)%nat ≠ Ok false)) →
  (quantify false test n (length vss) = Ok true → ∃ v, v ∈ concat vss ∧ leaf v = Ok true) ∧
  ((∃ v, v ∈ concat vss ∧ leaf v ≠ Ok false) → quantify false test n (length vss) ≠ Ok false).
Proof.
  induction vss as [|vs vss IH]; intros n Ht; cbn [length quantify concat].
  { split; [done|]. by intros (v & []%elem_of_nil & _). }
  destruct (IH (S n)) as [IH1 IH2].
  { intros i vs' Hi. replace (S n + i)%nat with (n + S i)%nat by lia. by apply Ht. }
  specialize (Ht 0%nat vs eq_refl) as [H1 H2]. rewrite Nat.add_0_r in H1, H2. destruct (test n) as [[]|e]; cbn [rbind].
  - rewrite bool_decide_true by done. split; [|done]. intros _. destruct (H1 eq_refl) as (v & Hv & El). exists v.
    split; [apply elem_of_app; by left|done].
  - rewrite bool_decide_false by (intros Hne; by apply Hne). split.
    + intros (v & Hv & El)%IH1. exists v. split; [apply elem_of_app; by right|done].
    + intros (v & [Hv|Hv]%elem_of_app & El); [exfalso; apply H2; [by exists v|done]|]. apply IH2. by exists v.
  - done.
Qed.

(** A condition on a path that has no [All] is a condition on one of its values. *)
Lemma quantified_values b leaf : ∀ p vs, no_all (p_steps p) → path_values b p = Ok vs →
  (quantified b p leaf = Ok true → ∃ v, v ∈ vs ∧ leaf v = Ok true) ∧
  ((∃ v, v ∈ vs ∧ leaf v ≠ Ok false) → quantified b p leaf ≠ Ok false).
Proof.
  intros p. remember (length (filter (λ s, s = Any) (p_steps p))) as k eqn:Ek. revert p Ek.
  induction k as [k IH] using lt_wf_ind. intros p Ek vs Hna. rewrite path_values_unfold, quantified_unfold, find_any by done.
  destruct (list_find (λ s, s = Any) (p_steps p)) as [[i s]|] eqn:E.
  - pose proof E as (_ & -> & _)%list_find_Some. rewrite (bool_decide_false (Any = All)) by done.
    destruct (extract b (take i (p_steps p))) as [v|]; [cbn [rbind]|done].
    assert (Hno : Ok [] = Ok vs → (Ok false = Ok true → ∃ v, v ∈ vs ∧ leaf v = Ok true) ∧ ((∃ v, v ∈ vs ∧ leaf v ≠ Ok false) → Ok false ≠ Ok false)).
    { intros [= <-]. split; [done|]. by intros (? & []%elem_of_nil & _). }
    destruct v as [| | | | | |items|]; try exact Hno. clear Hno.
    destruct (traverse _ (seq 0 (length items))) as [vss|] eqn:Et; [|done]. cbn [rmap]. intros [= <-].
    pose proof (traverse_length _ _ _ Et) as Hlen. rewrite length_seq in Hlen. rewrite <-Hlen. apply traverse_ok_Forall2 in Et.
    apply quantify_values. intros j vs Hj. destruct (Forall2_lookup_r _ _ _ _ _ Et Hj) as (n & Hn & En).
    apply lookup_seq in Hn as [-> _]. cbn [Nat.add] in *.
    eapply IH; [|done|by apply no_all_index|exact En]. subst k. rewrite (anys_insert i Any (N.of_nat j) _ E). cbn [p_steps with_steps]. lia.
  - destruct (path_value b p) as [v|]; [cbn [rbind]|done]. intros [= <-]. split.
    + intros Hl. exists v. split; [left|done].
    + intros (v' & ->%list_elem_of_singleton & Hl). done.
Qed.
End paths.

(** ** Contained texts *)

Lemma in_range_not_cont lo hi a : (hi < 128 ∨ 191 < lo) → in_range lo hi a = true → cont a = false.
Proof. unfold cont, in_range. intros Hr [?%N.leb_le ?%N.leb_le]%andb_true_iff. apply andb_false_iff. rewrite !N.leb_gt. lia. Qed.

Lemma in_range_cont lo hi a : 128 <= lo → hi <= 191 → in_range lo hi a = true → cont a = true.
Proof. unfold cont, in_range. intros ?? [?%N.leb_le ?%N.leb_le]%andb_true_iff. apply andb_true_iff. rewrite !N.leb_le. lia. Qed.

(** The first character of a text: a byte that begins one, then bytes that go on. *)
Lemma utf8_step l : utf8_valid l = true → l ≠ [] → ∃ a h c rest, l = (a :: h) ++ rest ∧ utf8_valid rest = true ∧ cont a = false ∧
  Forall (λ b, cont b = true) h ∧ ∀ r, chars ((a :: h) ++ r) = c :: chars r.
Proof.
  destruct l as [|a l1]; [done|]. intros Hv _. cbn [utf8_valid] in Hv.
  destruct (in_range 0 127 a) eqn:Ra.
  { exists a, [], (byte_to_N a), l1. split_and!; [done|done|by (apply (in_range_not_cont 0 127); [left|])|constructor|].
    intros r. unfold in_range in Ra. apply andb_true_iff in Ra as [_ Ha%N.leb_le]. cbn [app chars].
    destruct (N.ltb_spec (byte_to_N a) 128); [done|lia]. }
  assert (Ha1 : 127 < byte_to_N a).
  { unfold in_range in Ra. apply andb_false_iff in Ra as [Ha|Ha]; apply N.leb_gt in Ha; lia. }
  destruct l1 as [|b l2]; [done|]. destruct (in_range 194 223 a) eqn:R2.
  { apply andb_true_iff in Hv as [Hb Hv]. eexists a, [b], _, l2.
    split_and!; [done|done|by (apply (in_range_not_cont 194 223); [right|])|by repeat constructor|].
    intros r. unfold in_range in R2. apply andb_true_iff in R2 as [_ Ha%N.leb_le]. cbn [app chars].
    destruct (N.ltb_spec (byte_to_N a) 128); [lia|]. destruct (N.ltb_spec (byte_to_N a) 224); [done|lia]. }
  destruct l2 as [|c l3]; [done|]. destruct (in_range 224 239 a) eqn:R3.
  { apply andb_true_iff in Hv as [[Hb Hc]%andb_true_iff Hv]. eexists a, [b; c], _, l3.
    split_and!; [done|done|by (apply (in_range_not_cont 224 239); [right|])| |].
    - repeat constructor; [|done]. destruct (in_range 224 224 a); [by eapply (in_range_cont 160 191)|].
      destruct (in_range 237 237 a); [by eapply (in_range_cont 128 159)|]. by apply andb_true_iff in Hb as [_ Hb].
    - intros r. unfold in_range in R3. apply andb_true_iff in R3 as [Ha%N.leb_le Ha'%N.leb_le]. cbn [app chars].
      destruct (N.ltb_spec (byte_to_N a) 128); [lia|]. destruct (N.ltb_spec (byte_to_N a) 224); [lia|].
      destruct (N.ltb_spec (byte_to_N a) 240); [done|lia]. }
  destruct l3 as [|d l4]; [done|]. apply andb_true_iff in Hv as [[[Hb Hc]%andb_true_iff Hd]%andb_true_iff Hv].
  assert (240 <= byte_to_N a ∧ cont b = true) as [Ha Hb'].
  { destruct (in_range 240 240 a) eqn:R4; [|destruct (in_range 244 244 a) eqn:R5].
    - unfold in_range in R4. apply andb_true_iff in R4 as [?%N.leb_le _]. split; [done|by eapply (in_range_cont 144 191)].
    - unfold in_range in R5. apply andb_true_iff in R5 as [?%N.leb_le _]. split; [lia|by eapply (in_range_cont 128 143)].
    - apply andb_true_iff in Hb as [Hb Hb']. unfold in_range in Hb. apply andb_true_iff in Hb as [?%N.leb_le _]. split; [lia|done]. }
  eexists a, [b; c; d], _, l4. split_and!; [done|done| |by repeat constructor|].
  - unfold cont, in_range. apply andb_false_iff. right. apply N.leb_gt. lia.
  - intros r. cbn [app chars]. destruct (N.ltb_spec (byte_to_N a) 128); [lia|]. destruct (N.ltb_spec (byte_to_N a) 224); [lia|].
    destruct (N.ltb_spec (byte_to_N a) 240); [lia|done].
Qed.

Lemma chars_app l : utf8_valid l = true → ∀ r, chars (l ++ r) = chars l ++ chars r.
Proof.
  remember (length l) as n eqn:En. revert l En. induction n as [n IH] using lt_wf_ind. intros l En Hv r.
  destruct (decide (l = [])) as [->|Hne]; [done|].
  destruct (utf8_step l Hv Hne) as (a & h & c & rest & -> & Hr & _ & _ & Hc). rewrite <-app_assoc, !Hc. cbn [app]. f_equal.
  apply (IH (length rest)); [|done|done]. subst n. cbn [app length]. rewrite length_app. lia.
Qed.

Lemma chars_infix u : ∀ b w, utf8_valid (u ++ b ++ w) = true → utf8_valid b = true → b ≠ [] →
  ∃ cu, chars (u ++ b ++ w) = cu ++ chars b ++ chars w.
Proof.
  remember (length u) as n eqn:En. revert u En. induction n as [n IH] using lt_wf_ind. intros u En b w Hv Hb Hne.
  destruct (decide (u = [])) as [->|Hu]; [exists []; cbn [app]; by apply chars_app|].
  destruct (utf8_step (u ++ b ++ w) Hv) as (a & h & c & rest & E & Hr & _ & Hh & Hc); [by destruct u|].
  destruct (decide (length (a :: h) <= length u)%nat) as [Hle|Hgt].
  - assert (Hu' : u = (a :: h) ++ drop (length (a :: h)) u).
    { rewrite <-(take_drop (length (a :: h)) u) at 1. f_equal.
      rewrite <-(take_app_le u (b ++ w) (length (a :: h))) by done. by rewrite E, take_app_length. }
    rewrite Hu' in E. rewrite <-app_assoc in E. apply app_inv_head in E.
    destruct (IH (length (drop (length (a :: h)) u)) ltac:(subst n; rewrite length_drop; cbn [length] in *; lia) _ eq_refl b w) as [cu Ecu];
      [by rewrite E|done|done|]. exists (c :: cu). rewrite Hu', <-app_assoc, Hc, Ecu. done.
  - destruct u as [|x u]; [done|]. destruct b as [|y b]; [done|]. exfalso.
    assert (Hy : h !! length u = Some y).
    { assert (Ey : ((a :: h) ++ rest) !! length (x :: u) = Some y) by (rewrite <-E; by apply list_lookup_middle).
      rewrite lookup_app_l in Ey by (cbn [length] in *; lia). exact Ey. }
    rewrite Forall_forall in Hh. specialize (Hh y (list_elem_of_lookup_2 _ _ _ Hy)).
    destruct (utf8_step (y :: b) Hb) as (y' & h' & c' & rest' & [= <- _] & _ & Hy' & _); [done|congruence].
Qed.

Lemma starts_with_split a b : starts_with a b = true ↔ ∃ w, a = b ++ w.
Proof.
  revert b. induction a as [|x a IH]; intros [|y b]; cbn [starts_with]; [split; [by exists []|done]|split; [done|by intros [w ?]]|split; [by exists (x :: a)|done]|].
  rewrite andb_true_iff, bool_decide_eq_true, IH. split; [intros [-> [w ->]]; by exists w|intros [w [= -> ->]]; by split; [|exists w]].
Qed.

Lemma contains_split a b : contains a b = true → ∃ u w, a = u ++ b ++ w.
Proof.
  induction a as [|x a IH]; cbn [contains]; rewrite orb_true_iff, starts_with_split; intros [[w ->]|Hc]; [by exists [], w|done|by exists [], w|].
  destruct (IH Hc) as (u & w & ->). by exists (x :: u), w.
Qed.

Lemma windows3_app cu cs : ∀ g, g ∈ windows3 cs → g ∈ windows3 (cu ++ cs).
Proof.
  induction cu as [|c cu IH]; intros g Hg; [done|]. cbn [app windows3]. specialize (IH g Hg).
  destruct (cu ++ cs) as [|d [|e l]]; [done|done|]. by right.
Qed.

Lemma windows3_app_l cs cw : ∀ g, g ∈ windows3 cs → g ∈ windows3 (cs ++ cw).
Proof.
  induction cs as [|a cs IH]; intros g Hg; [by apply elem_of_nil in Hg|].
  destruct cs as [|b [|c l]]; [by apply elem_of_nil in Hg|by apply elem_of_nil in Hg|].
  change (g ∈ of_chars [a; b; c] :: windows3 (b :: c :: l)) in Hg. apply elem_of_cons in Hg as [->|Hg].
  - by left.
  - change (g ∈ of_chars [a; b; c] :: windows3 ((b :: c :: l) ++ cw)). right. by apply IH.
Qed.

Lemma elem_of_trigrams g s : g ∈ trigrams s ↔ g ∈ windows3 (chars s).
Proof.
  unfold trigrams. induction (windows3 (chars s)) as [|x l IH]; [done|]. cbn [btree_set foldr].
  rewrite elem_of_bset_insert. fold (btree_set l). set_solver.
Qed.

Lemma contains_trigrams a b : utf8_valid a = true → utf8_valid b = true → contains a b = true → ∀ g, g ∈ trigrams b → g ∈ trigrams a.
Proof.
  intros Ha Hb (u & w & ->)%contains_split g. rewrite !elem_of_trigrams. intros Hg.
  destruct (decide (b = [])) as [->|Hne]; [by apply elem_of_nil in Hg|].
  destruct (chars_infix u b w Ha Hb Hne) as [cu ->]. by apply windows3_app, windows3_app_l.
Qed.

(** ** Prefixes *)

Definition escaped (s : bytes) : bytes := s ≫= λ b, if decide (b = Byte.x00) then [Byte.x00; Byte.xff] else [b].

Lemma text_prefix a : ∀ b r, starts_with a b = true ↔ escaped b `prefix_of` text a ++ r.
Proof.
  induction a as [|x a IH]; intros [|y b] r; cbn [starts_with];
    [split; [intros _; apply prefix_nil|done]| |split; [intros _; apply prefix_nil|done]|].
  - split; [done|]. unfold escaped. rewrite bind_cons. intros [z Hz]. unfold text in Hz. cbn in Hz.
    destruct (decide (y = Byte.x00)) as [->|Hy]; cbn in Hz; [by injection Hz|]. injection Hz as E _. by rewrite <-E in Hy.
  - rewrite andb_true_iff, bool_decide_eq_true, (IH b r). unfold escaped at 2. rewrite bind_cons.
    assert (Et : text (x :: a) ++ r = (if decide (x = Byte.x00) then [Byte.x00; Byte.xff] else [x]) ++ (text a ++ r)).
    { unfold text. rewrite bind_cons. by rewrite <-!app_assoc. }
    rewrite Et. split.
    + intros [<- Hp]. by apply prefix_app.
    + intros Hp. assert (x = y) as <-; [|split; [done|by eapply prefix_app_inv]].
      destruct Hp as [z Hz]. destruct (decide (x = Byte.x00)) as [->|Hx], (decide (y = Byte.x00)) as [->|Hy]; cbn in Hz; try done;
        injection Hz as E _; by subst.
Qed.

