(* ===== verification/PlanSpec.v ===== *)
(** * The recipes of a predicate answer it

    For each condition of a predicate and each index that can answer it: the rows of the
    plan are those with a value that makes the condition true ([leaf_value], [leaf_token],
    [leaf_gram]), so a plan never misses a matching row, and a covering plan has no other. *)
From S2P Require Import Prelude Order Redb Memory Fields OrderedCodec OrderedSpec Eval EvalSpec IndexKeys Trigram TrigramSpec Index IndexSpec IndexProps Exec Plan ExecSpec PathSpec.
Local Open Scope N_scope.

(** ** Values by their keys *)

Lemma rank_discriminant v : discriminant v = if rank v <=? 3 then rank v - 1 else rank v - 2.
Proof. by destruct v as [| |[]| | | | |]. Qed.

Lemma rank_pos v : 1 <= rank v.
Proof. by destruct v as [| |[]| | | | |]. Qed.

Lemma rank_empty v : is_empty v = false ↔ 3 <= rank v.
Proof. destruct v as [| |[]| | | | |]; by split. Qed.

Lemma ltb_bytes (a b : bytes) : ltb a b = true ↔ list_cmp a b = Lt.
Proof. exact (ltb_lt a b). Qed.

Section values.
Context `{TextLibOk}.

Lemma list_cmp_rank a b x y : encode_equality a = Ok x → encode_equality b = Ok y →
  list_cmp x y = match rank a ?= rank b with Eq => list_cmp x y | c => c end.
Proof.
  intros (x' & ->)%append_tag (y' & ->)%append_tag. destruct (rank a ?= rank b) eqn:E; [done|..]; cbn [list_cmp]; by rewrite cmp_rank, E.
Qed.

Lemma compare_key v lit x y : encode_equality v = Ok x → encode_equality lit = Ok y → is_empty lit = false →
  compare v lit = Ok (if discriminant v =? discriminant lit then Some (list_cmp x y) else None).
Proof.
  intros Ex Ey He. unfold compare. rewrite He, orb_false_r. destruct (N.eqb_spec (discriminant v) (discriminant lit)) as [Ed|]; [|done].
  assert (is_empty v = false) as ->; [|by rewrite Ex, Ey]. apply rank_empty. apply rank_empty in He. rewrite !rank_discriminant in Ed.
  destruct (N.leb_spec (rank v) 3), (N.leb_spec (rank lit) 3); pose proof (rank_pos v); lia.
Qed.

(** The bounds made from the type of a literal. *)
Lemma type_low p a b x y r : encode_equality a = Ok x → encode_equality b = Ok y →
  ltb (p ++ x ++ r) (p ++ take 1 y) = (rank a <? rank b).
Proof.
  intros (x' & ->)%append_tag (y' & ->)%append_tag. apply eq_true_iff_eq. rewrite ltb_bytes, N.ltb_lt.
  change (take 1 (byte_of_N (rank b) :: y')) with [byte_of_N (rank b)]. rewrite list_cmp_app_same. cbn [app]. rewrite cmp_cons, cmp_rank, N.compare_lt_iff. split; [|by left].
  intros [?|[_ E]]; [done|]. by destruct (x' ++ r).
Qed.

Lemma type_high p a b x y r : encode_equality a = Ok x → encode_equality b = Ok y →
  match upto (p ++ take 1 y) with Some q => ltb (p ++ x ++ r) q = (rank a <=? rank b) | None => False end.
Proof.
  intros Ex Ey. pose proof (type_low p a b x y r Ex Ey) as Hl. apply append_tag in Ex as [x' ->], Ey as [y' ->].
  change (take 1 (byte_of_N (rank b) :: y')) with [byte_of_N (rank b)] in *.
  assert (Ht : byte_to_N (byte_of_N (rank b)) ≠ 255) by (by destruct b as [| |[]| | | | |]).
  destruct (upto_app_some p (byte_of_N (rank b)) [] Ht) as [q Eq]. rewrite Eq. apply eq_true_iff_eq.
  rewrite ltb_bytes, (upto_cmp _ _ _ Eq), N.leb_le.
  assert (Hlt : list_cmp (p ++ (byte_of_N (rank a) :: x') ++ r) (p ++ [byte_of_N (rank b)]) = Lt ↔ rank a < rank b).
  { rewrite <-N.ltb_lt, <-Hl. symmetry. apply ltb_bytes. }
  rewrite Hlt. assert (Hp : p ++ [byte_of_N (rank b)] `prefix_of` p ++ (byte_of_N (rank a) :: x') ++ r ↔ rank a = rank b).
  { split.
    - intros Hp%prefix_app_inv. apply prefix_cons_inv_1 in Hp. symmetry. by apply tag_inj.
    - intros ->. apply prefix_app, prefix_cons, prefix_nil. }
  rewrite Hp. lia.
Qed.

Lemma prefix_bounds P q k : upto P = Some q → in_bounds (Some P) (Some q) k = true ↔ P `prefix_of` k.
Proof.
  intros Eq. unfold in_bounds. rewrite andb_true_iff, negb_true_iff, ltb_bytes, (upto_cmp _ _ _ Eq). split.
  - intros [Hn [Hp|Hl]]; [done|]. exfalso. apply (not_true_iff_false (ltb k P)) in Hn. by apply Hn, ltb_bytes.
  - intros [z ->]. split; [|left; by apply prefix_app_r]. apply not_true_iff_false. rewrite ltb_bytes. rewrite <-(app_nil_r P) at 2. rewrite list_cmp_app_same. by destruct z.
Qed.

(** *** Comparisons *)

Definition is_bool (v : Value) : bool := match v with VBool _ => true | _ => false end.

Lemma same_type v b : is_bool b = false → discriminant v = discriminant b ↔ rank v = rank b.
Proof. destruct v as [| |[]| | | | |], b as [| |[]| | | | |]; by split. Qed.

Lemma rank_apart v b x y : encode_equality v = Ok x → encode_equality b = Ok y →
  (rank v < rank b → list_cmp x y = Lt) ∧ (rank b < rank v → list_cmp x y = Gt).
Proof.
  intros Ex Ey. rewrite (list_cmp_rank v b x y Ex Ey). split; intros Hr.
  - by apply N.compare_lt_iff in Hr as ->.
  - by apply N.compare_gt_iff in Hr as ->.
Qed.

Definition order_op (op : Compare) : bool := match op with CNe | CGt | CGe | CLt | CLe => true | _ => false end.

(** A comparison by order holds when the types and the keys say so; it is [false] only
    when they do not. *)
Lemma scalar_order v b rest op x y : encode_equality v = Ok x → encode_equality b = Ok y → is_empty b = false → is_bool b = false →
  order_op op = true →
  (scalar v op (b :: rest) = Ok true → rank v = rank b ∧ holds op (list_cmp x y) = true) ∧
  (rank v = rank b → holds op (list_cmp x y) = true → scalar v op (b :: rest) ≠ Ok false).
Proof.
  intros Ex Ey He Hb Hop. unfold scalar. rewrite (compare_key v b x y Ex Ey He). cbn [rbind].
  rewrite <-(same_type v b Hb). destruct (N.eqb_spec (discriminant v) (discriminant b)) as [Ed|Ed];
    set (chk := if bool_decide _ && is_range op then _ else Ok tt); destruct chk as [[]|]; cbn [rbind]; try (by split);
    destruct op; try done; destruct (list_cmp x y); cbn; split; intros; try done; split; done.
Qed.

Lemma compare_eq v b x y : encode_equality v = Ok x → encode_equality b = Ok y →
  (if discriminant v =? discriminant b then Some (list_cmp x y) else None) = Some Eq ↔ x = y.
Proof.
  intros Ex Ey. destruct (N.eqb_spec (discriminant v) (discriminant b)) as [Ed|Ed].
  - rewrite <-list_cmp_eq. split; [by intros [= ->]|by intros ->].
  - split; [done|]. intros ->. exfalso. apply Ed. rewrite !rank_discriminant.
    destruct (append_tag _ _ _ Ex) as [x' Ex'], (append_tag _ _ _ Ey) as [y' Ey']. rewrite Ex' in Ey'. injection Ey' as Et _.
    by rewrite (tag_inj _ _ Et).
Qed.

Lemma scalar_eq v b rest x y : encode_equality v = Ok x → encode_equality b = Ok y → is_empty b = false →
  scalar v CEq (b :: rest) = Ok (bool_decide (x = y)).
Proof.
  intros Ex Ey He. unfold scalar. rewrite (compare_key v b x y Ex Ey He). cbn [rbind is_range]. rewrite andb_false_r. cbn [rbind].
  f_equal. apply bool_decide_ext. by apply compare_eq.
Qed.

(** Whether the key [x] is the key of one of the literals. *)
Definition among (values : list Value) (x : bytes) : bool :=
  existsb (λ b, match encode_equality b with Ok y => bool_decide (x = y) | Err _ => false end) values.

Lemma any_equal_spec v x values : encode_equality v = Ok x → Forall (λ b, is_empty b = false ∧ is_ok (encode_equality b) = true) values →
  any_equal v values = Ok (among values x).
Proof.
  intros Ex. induction 1 as [|b values [He Hb] _ IH]; cbn [any_equal among existsb]; [done|].
  destruct (encode_equality b) as [y|] eqn:Ey; [|done]. rewrite (compare_key v b x y Ex Ey He). cbn [rbind].
  destruct (bool_decide_reflect (x = y)) as [Heq|Hne].
  - rewrite decide_True by (by apply compare_eq). done.
  - rewrite decide_False by (by rewrite compare_eq). exact IH.
Qed.

Lemma scalar_in v b rest x : encode_equality v = Ok x → Forall (λ b, is_empty b = false ∧ is_ok (encode_equality b) = true) (b :: rest) →
  scalar v CIn (b :: rest) = Ok (among (b :: rest) x).
Proof.
  intros Ex Hl. pose proof Hl as [[He Hb] _]%Forall_cons. unfold scalar. destruct (encode_equality b) as [y|] eqn:Ey; [|done].
  rewrite (compare_key v b x y Ex Ey He). cbn [rbind is_range]. rewrite andb_false_r. cbn [rbind]. by apply any_equal_spec.
Qed.

(** A value between two literals; below the upper one only when it has its type. *)
Lemma scalar_between v b u rest x y z : encode_equality v = Ok x → encode_equality b = Ok y → encode_equality u = Ok z →
  is_empty b = false → is_empty u = false →
  (scalar v CBetween (b :: u :: rest) = Ok true → list_cmp x y ≠ Lt ∧ list_cmp x z = Lt) ∧
  (discriminant b = discriminant u → list_cmp x y ≠ Lt → list_cmp x z = Lt → scalar v CBetween (b :: u :: rest) ≠ Ok false).
Proof.
  intros Ex Ey Ez Hb Hu. unfold scalar. cbn [lookup list_lookup].
  rewrite (compare_key v b x y Ex Ey Hb), (compare_key v u x z Ex Ez Hu). cbn [rbind].
  set (chk := if bool_decide _ && is_range CBetween then _ else Ok tt). destruct chk as [[]|]; cbn [rbind]; [|by split]. split.
  - destruct (discriminant v =? discriminant b); [|done]. destruct (list_cmp x y); try done; cbn;
      (destruct (discriminant v =? discriminant u); [|done]; destruct (list_cmp x z); done).
  - intros Ed Hy Hz. assert (Hd : discriminant v = discriminant b).
    { destruct (rank_apart v b x y Ex Ey) as [H1 _], (rank_apart v u x z Ex Ez) as [_ H2].
      assert (¬ rank v < rank b) by (intros Hl; by apply Hy, H1). assert (¬ rank u < rank v) by (intros Hl; specialize (H2 Hl); congruence).
      rewrite !rank_discriminant in *. apply rank_empty in Hb, Hu.
      destruct (N.leb_spec (rank v) 3), (N.leb_spec (rank b) 3), (N.leb_spec (rank u) 3); lia. }
    rewrite Hd, Ed, !N.eqb_refl, Hz. cbn. destruct (list_cmp x y); done.
Qed.

Lemma scalar_prefix v b rest : scalar v CPrefix (b :: rest) = Ok true →
  ∃ s t, v = VString s ∧ b = VString t ∧ starts_with s t = true.
Proof.
  unfold scalar. destruct (compare v b) as [c|]; [cbn [rbind is_range]|done]. rewrite andb_false_r. cbn [rbind].
  destruct v, b; try done. intros [= E]. by eexists _, _.
Qed.
End values.

(** ** Conditions on values *)

Section leaves.
Context `{Redb} `{TextLibOk} `{Allocator} `{FstLib, !FstLibOk} `{ReverseJson}.
Context (f : gmap (N * N) Tables) (defs : list Manifest) (name : str) (rows : gmap str (bytes * N)) (Hf : file_ok f defs name rows).

Definition tag_prefix (d : Manifest) : bytes := if compound d then [byte_of_N 8] else [].

Definition starts_key (d : Manifest) (v1 : Value) (k : bytes) : Prop :=
  ∃ x r, encode_equality v1 = Ok x ∧ k = tag_prefix d ++ x ++ r.

(** The keys of a row in an index of values begin with the values under the index's first path. *)
Lemma value_keys d path row p vs : d_kind (m_definition d) = KValue → head (d_paths (m_definition d)) = Some path →
  (compound d = true → head (d_directions (m_definition d)) ≠ Some Desc) → row_values (m_definition d) p.1 p.2 = Ok vs →
  ∃ fs, path_values p.1 path = Ok fs ∧
    (∀ v k, v ∈ vs → definition_key (m_definition d) v row = Ok k → ∃ v1, v1 ∈ fs ∧ starts_key d v1 k) ∧
    (∀ v1, v1 ∈ fs → ∃ v, v ∈ vs ∧ ∀ k, definition_key (m_definition d) v row = Ok k → starts_key d v1 k).
Proof using All.
  intros Hk Hp Hdir. unfold row_values, sampled_values, key_values, definition_key, starts_key, tag_prefix, compound in *.
  rewrite Hk, bool_decide_false by done. destruct (d_paths (m_definition d)) as [|path' ps]; [done|]. injection Hp as ->.
  destruct (path_values p.1 path) as [fs|] eqn:Ef; [cbn [rbind]|done].
  destruct ps as [|path2 ps]; cbn [length Nat.eqb Nat.leb Nat.ltb] in *.
  - intros [= <-]. exists fs. split; [done|]. unfold entry_key.
    split; [intros v k Hv Ek; exists v; split; [done|]|intros v Hv; exists v; split; [done|]; intros k Ek];
      (destruct (encode_equality v) as [x|]; [|done]); injection Ek as <-; by eexists x, _.
  - destruct (traverse (tuple_value p.1) (path :: path2 :: ps)) as [tuple|] eqn:Et; [|done]. intros [= <-].
    cbn [traverse] in Et. apply rbind_ok in Et as (v1 & E1 & Et). apply rbind_ok in Et as (vs' & _ & [= <-]).
    assert (fs = [v1]) as ->.
    { unfold tuple_value in E1. destruct (existsb is_quantifier (p_steps path)) eqn:Eq; [done|].
      rewrite path_values_unfold in Ef. destruct (list_find _ (p_steps path)) as [[i s]|] eqn:El; [|rewrite E1 in Ef; by injection Ef as <-].
      apply list_find_Some in El as (Hi & -> & _). exfalso. apply (not_true_iff_false (existsb is_quantifier (p_steps path))) in Eq. apply Eq, existsb_exists.
      exists Any. split; [|done]. apply list_elem_of_In. by eapply list_elem_of_lookup_2. }
    assert (Hkey : ∀ k, (let? parts := compound_parts (d_directions (m_definition d)) (v1 :: vs') in
        let? suffix := OrderedCodec.encode (VString row) in Ok (byte_of_N 8 :: parts ++ Byte.x00 :: suffix)) = Ok k →
        ∃ x r, encode_equality v1 = Ok x ∧ k = [byte_of_N 8] ++ x ++ r).
    { intros k. cbn [compound_parts]. destruct (encode_equality v1) as [x|]; [cbn [rbind]|done].
      rewrite bool_decide_false by (by apply Hdir). destruct (compound_parts _ vs') as [rest|]; [cbn [rbind]|done].
      intros [= <-]. eexists x, _. split; [done|]. by rewrite <-!app_assoc. }
    exists [v1]. split; [done|]. split.
    + intros v k ->%list_elem_of_singleton Ek. exists v1. split; [left|by apply Hkey].
    + intros v ->%list_elem_of_singleton. exists (VArray (v1 :: vs')). split; [left|]. intros k Ek. by apply Hkey.
Qed.

(** A range whose bounds only look at the first value of a key. *)
Lemma key_range d path row p fs lower upper (Q : Value → bytes → bool) :
  d ∈ eligible defs name → d_kind (m_definition d) = KValue → head (d_paths (m_definition d)) = Some path →
  (compound d = true → head (d_directions (m_definition d)) ≠ Some Desc) → rows !! row = Some p → path_values p.1 path = Ok fs →
  (∀ v x r, encode_equality v = Ok x → in_bounds lower upper (tag_prefix d ++ x ++ r) = Q v x) →
  has_key (m_definition d) lower upper row p ↔ ∃ v x, v ∈ fs ∧ encode_equality v = Ok x ∧ Q v x = true.
Proof using All.
  intros Hd Hk Hp Hdir Er Ef HQ. destruct (row_indexed f defs name rows d row p Hf Hd) as (vs & Ev & Hks); [by rewrite Hk|done|].
  destruct (value_keys d path row p vs Hk Hp Hdir Ev) as (fs' & Ef' & Hin1 & Hin2). assert (fs' = fs) as -> by congruence. split.
  - intros (vs' & v & k & Ev' & Hv & Ek & Hb). assert (vs' = vs) as -> by congruence.
    destruct (Hin1 v k Hv Ek) as (v1 & Hv1 & x & r & Ex & ->). exists v1, x. split_and!; [done..|]. by rewrite <-(HQ v1 x r Ex).
  - intros (v1 & x & Hv1 & Ex & Hq). destruct (Hin2 v1 Hv1) as (v & Hv & Hs). destruct (Hks v Hv) as [k Ek].
    destruct (Hs k Ek) as (x' & r & Ex' & ->). assert (x' = x) as -> by congruence. exists vs, v, (tag_prefix d ++ x ++ r).
    split_and!; [done..|]. by rewrite (HQ v1 x r Ex).
Qed.

(** An index that a condition on [path] may use: of the right kind, with [path] first. *)
Record usable (d : Manifest) (path : Path) (kind : Kind) : Prop := {
  us_eligible : d ∈ eligible defs name; us_kind : d_kind (m_definition d) = kind;
  us_path : head (d_paths (m_definition d)) = Some path;
  us_first : compound d = true → head (d_directions (m_definition d)) ≠ Some Desc;
}.

Lemma literal_key_ok d b y : encode_equality b = Ok y → literal_key d b = Ok (tag_prefix d ++ y).
Proof using All. intros Ey. unfold literal_key. by rewrite Ey. Qed.

(** The four bounds of a literal, on the key of a value. *)
Lemma literal_bounds d b y : encode_equality b = Ok y → ∃ q tq, upto (tag_prefix d ++ y) = Some q ∧ upto (tag_prefix d ++ take 1 y) = Some tq ∧
  ∀ v x r, encode_equality v = Ok x →
    ltb (tag_prefix d ++ x ++ r) (tag_prefix d ++ y) = bool_decide (list_cmp x y = Lt) ∧
    ltb (tag_prefix d ++ x ++ r) q = bool_decide (list_cmp x y ≠ Gt) ∧
    ltb (tag_prefix d ++ x ++ r) (tag_prefix d ++ take 1 y) = (rank v <? rank b) ∧
    ltb (tag_prefix d ++ x ++ r) tq = (rank v <=? rank b).
Proof using All.
  intros Ey. destruct (upto_key_some b y (tag_prefix d) Ey) as [q Eq].
  pose proof (type_high (tag_prefix d) b b y y [] Ey Ey) as Ht. destruct (upto (tag_prefix d ++ take 1 y)) as [tq|] eqn:Etq; [clear Ht|done].
  exists q, tq. split_and!; [done..|]. intros v x r Ex. split_and!.
  - by apply (ltb_key v b).
  - pose proof (ltb_key_end v b x y (tag_prefix d) r Ex Ey) as He. by rewrite Eq in He.
  - by apply (type_low (tag_prefix d) v b).
  - pose proof (type_high (tag_prefix d) v b x y r Ex Ey) as He. by rewrite Etq in He.
Qed.

Definition one_of (fs : list Value) (P : Value → bytes → Prop) : Prop := ∃ v x, v ∈ fs ∧ encode_equality v = Ok x ∧ P v x.

Lemma one_of_ext fs P Q : (∀ v x, encode_equality v = Ok x → P v x ↔ Q v x) → one_of fs P ↔ one_of fs Q.
Proof using All. intros HPQ. unfold one_of. by split; intros (v & x & Hv & Ex & Hp); exists v, x; (split_and!; [done..|]; apply (HPQ v x Ex)). Qed.

Lemma usable_range d path row p fs lower upper dedup (P : Value → bytes → Prop) : usable d path KValue → rows !! row = Some p →
  path_values p.1 path = Ok fs →
  (∀ v x r, encode_equality v = Ok x → in_bounds lower upper (tag_prefix d ++ x ++ r) = true ↔ P v x) →
  answers (NRange d lower upper dedup) row p ↔ one_of fs P.
Proof using All.
  intros [Hd Hk Hp Hdir] Er Ef HP. cbn [answers].
  rewrite (key_range d path row p fs lower upper (λ v x, in_bounds lower upper (tag_prefix d ++ x ++ [])) Hd Hk Hp Hdir Er Ef).
  - apply one_of_ext. intros v x Ex. apply (HP v x [] Ex).
  - intros v x r Ex. apply eq_true_iff_eq. by rewrite (HP v x r Ex), (HP v x [] Ex).
Qed.

(** Decides whether a key lies in a range made from the bounds of a literal. *)
Ltac key_test Hb Hr :=
  let v := fresh "v" in let x := fresh "x" in let r := fresh "r" in let Ex := fresh "Ex" in
  let B1 := fresh in let B2 := fresh in let B3 := fresh in let B4 := fresh in
  let R1 := fresh in let R2 := fresh in let Hl := fresh in
  intros v x r Ex; destruct (Hb v x r Ex) as (B1 & B2 & B3 & B4); destruct (Hr v x Ex) as [R1 R2]; unfold in_bounds;
  rewrite ?B1, ?B2, ?B3, ?B4; clear B1 B2 B3 B4;
  destruct (list_cmp x _); rewrite ?bool_decide_true, ?bool_decide_false by done;
  repeat match goal with |- context [?a <? ?b] => destruct (N.ltb_spec a b) | |- context [?a <=? ?b] => destruct (N.leb_spec a b) end;
  cbn; (split; [intros; try discriminate|intros [? ?]; try discriminate]);
  first [done | lia | split; [|done] | idtac];
  match goal with |- _ = rank ?b => destruct (N.lt_trichotomy (rank v) (rank b)) as [Hl|[Hl|Hl]] end;
  first [exact Hl | lia | discriminate (R1 Hl) | discriminate (R2 Hl)].

Lemma order_node d path op b rest y node plan covered row p fs : usable d path KValue → encode_equality b = Ok y → order_op op = true →
  leaf_node d path op b (b :: rest) = Ok (Some (node, plan, covered)) → rows !! row = Some p → path_values p.1 path = Ok fs →
  answers node row p ↔ one_of fs (λ v x, rank v = rank b ∧ holds op (list_cmp x y) = true).
Proof using All.
  intros Hu Ey Hop. unfold leaf_node. rewrite (literal_key_ok d b y Ey), Ey. cbn [rbind]. fold (tag_prefix d).
  destruct (literal_bounds d b y Ey) as (q & tq & Eq & Etq & Hb). rewrite Eq, Etq. intros E Er Ef.
  assert (Hr : ∀ v x, encode_equality v = Ok x → (rank v < rank b → list_cmp x y = Lt) ∧ (rank b < rank v → list_cmp x y = Gt)).
  { intros v x Ex. by apply rank_apart. }
  assert (Hrange : ∀ lower upper P, (∀ v x r, encode_equality v = Ok x → in_bounds lower upper (tag_prefix d ++ x ++ r) = true ↔ P v x) →
    has_key (m_definition d) lower upper row p ↔ one_of fs P).
  { intros lower upper P HP. by apply (usable_range d path row p fs lower upper false). }
  destruct op; try done; injection E as <- _ _; cbn [answers]; [|apply Hrange; key_test Hb Hr..].
  rewrite (Hrange _ _ (λ v x, rank v = rank b ∧ list_cmp x y = Lt)) by key_test Hb Hr.
  rewrite (Hrange _ _ (λ v x, rank v = rank b ∧ list_cmp x y = Gt)) by key_test Hb Hr. unfold one_of. split.
  - intros [(v & x & Hv & Ex & Er' & Hc)|(v & x & Hv & Ex & Er' & Hc)]; exists v, x; by rewrite Hc.
  - intros (v & x & Hv & Ex & Er' & Hc). destruct (list_cmp x y) eqn:El; [done|left|right]; by exists v, x.
Qed.

Lemma usable_keyed d path kind : usable d path kind → postings kind = false → d ∈ eligible defs name ∧ postings (d_kind (m_definition d)) = false.
Proof using All. intros Hu Hk. split; [apply Hu|by rewrite (us_kind _ _ _ Hu)]. Qed.

(** Every value the index has of a row has a key. *)
Lemma values_encoded d path row p : usable d path KValue → rows !! row = Some p →
  ∃ fs, path_values p.1 path = Ok fs ∧ ∀ v, v ∈ fs → ∃ x, encode_equality v = Ok x.
Proof using All.
  intros Hu Er. destruct (usable_keyed d path KValue Hu eq_refl) as [Hd Hk].
  destruct (row_indexed f defs name rows d row p Hf Hd Hk Er) as (vs & Ev & Hks). pose proof Hu as [_ Hkind Hp Hdir].
  destruct (value_keys d path row p vs Hkind Hp Hdir Ev) as (fs & Ef & _ & Hin). exists fs. split; [done|]. intros v Hv.
  destruct (Hin v Hv) as (v' & Hv' & Hs). destruct (Hks v' Hv') as [k Ek]. destruct (Hs k Ek) as (x & r & Ex & _). by exists x.
Qed.

Lemma eq_node d path b y row p fs : usable d path KValue → encode_equality b = Ok y → rows !! row = Some p → path_values p.1 path = Ok fs →
  has_key (m_definition d) (Some (tag_prefix d ++ y)) (upto (tag_prefix d ++ y)) row p ↔ one_of fs (λ _ x, x = y).
Proof using All.
  intros Hu Ey Er Ef. apply (usable_range d path row p fs _ _ false); [done..|]. intros v x r Ex.
  by rewrite (eq_bounds v b x y _ r Ex Ey), bool_decide_eq_true.
Qed.

Lemma join_union nodes node row p : join_nodes NUnion nodes = Some node →
  answers node row p ↔ ∃ m, m ∈ nodes ∧ answers m row p.
Proof using All.
  destruct nodes as [|n nodes]; [done|]. cbn [join_nodes]. intros [= <-]. revert n. induction nodes as [|m nodes IH]; intros n; cbn [fold_left].
  - split; [intros Ha; exists n; split; [left|done]|]. by intros (m & ->%list_elem_of_singleton & Ha).
  - rewrite IH. split.
    + intros (k & [->|Hk]%elem_of_cons & Ha); [|exists k; split; [by do 2 right|done]].
      cbn [answers] in Ha. destruct Ha as [Ha|Ha]; [exists n; split; [left|done]|exists m; split; [right; left|done]].
    + intros (k & [->|[->|Hk]%elem_of_cons]%elem_of_cons & Ha);
        [exists (NUnion n m); split; [left|by left]|exists (NUnion n m); split; [left|by right]|exists k; split; [by right|done]].
Qed.

Lemma join_intersection nodes node row p : join_nodes NIntersection nodes = Some node →
  answers node row p ↔ ∀ m, m ∈ nodes → answers m row p.
Proof using All.
  destruct nodes as [|n nodes]; [done|]. cbn [join_nodes]. intros [= <-]. revert n. induction nodes as [|m nodes IH]; intros n; cbn [fold_left].
  - split; [by intros Ha m ->%list_elem_of_singleton|]. intros Ha. apply Ha. left.
  - rewrite IH. split.
    + intros Ha k [->|[->|Hk]%elem_of_cons]%elem_of_cons;
        [by destruct (Ha (NIntersection n m) ltac:(left))|by destruct (Ha (NIntersection n m) ltac:(left))|apply Ha; by right].
    + intros Ha k [->|Hk]%elem_of_cons; [split; apply Ha; [left|right; left]|apply Ha; by do 2 right].
Qed.

(** What a plan for a condition has to give: every row with a value that makes the
    condition true, and, when it covers, no row without one that could. *)
Definition good_node (test : Value → result bool) (node : Node) (covered : bool) (row : str) (p : bytes * N) (fs : list Value) : Prop :=
  ((∃ v, v ∈ fs ∧ test v = Ok true) → answers node row p) ∧
  (covered = true → answers node row p → ∃ v, v ∈ fs ∧ test v ≠ Ok false).

Lemma good_order d path op b rest node plan covered row p fs : usable d path KValue → order_op op = true →
  is_empty b = false → is_bool b = false →
  leaf_node d path op b (b :: rest) = Ok (Some (node, plan, covered)) → rows !! row = Some p → path_values p.1 path = Ok fs →
  good_node (λ v, scalar v op (b :: rest)) node covered row p fs.
Proof using All.
  intros Hu Hop He Hb E Er Ef. pose proof E as E'. unfold leaf_node in E'. unfold literal_key in E'.
  destruct (encode_equality b) as [y|] eqn:Ey; [clear E'|by cbn in E'].
  pose proof (order_node d path op b rest y node plan covered row p fs Hu Ey Hop E Er Ef) as Ha. unfold good_node. rewrite Ha. split.
  - intros (v & Hv & Et). destruct (values_encoded d path row p Hu Er) as (fs' & Ef' & Hx). assert (fs' = fs) as -> by congruence.
    destruct (Hx v Hv) as [x Ex]. exists v, x. split_and!; [done|done|..]; by apply (scalar_order v b rest op x y Ex Ey He Hb Hop).
  - intros _ (v & x & Hv & Ex & Hr & Hh). exists v. split; [done|]. by apply (scalar_order v b rest op x y Ex Ey He Hb Hop).
Qed.

Lemma good_eq d path b rest node plan covered row p fs : usable d path KValue → is_empty b = false →
  leaf_node d path CEq b (b :: rest) = Ok (Some (node, plan, covered)) → rows !! row = Some p → path_values p.1 path = Ok fs →
  good_node (λ v, scalar v CEq (b :: rest)) node covered row p fs.
Proof using All.
  intros Hu He E Er Ef. unfold leaf_node, literal_key in E. destruct (encode_equality b) as [y|] eqn:Ey; [|done]. cbn [rmap rbind] in E.
  injection E as <- _ _. unfold good_node. cbn [answers].
  change ((if compound d then [byte_of_N 8] else []) ++ y) with (tag_prefix d ++ y). rewrite (eq_node d path b y row p fs Hu Ey Er Ef). split.
  - intros (v & Hv & Et). destruct (values_encoded d path row p Hu Er) as (fs' & Ef' & Hx). assert (fs' = fs) as -> by congruence.
    destruct (Hx v Hv) as [x Ex]. exists v, x. split_and!; [done..|]. rewrite (scalar_eq v b rest x y Ex Ey He) in Et.
    injection Et as Et. by apply bool_decide_eq_true in Et.
  - intros _ (v & x & Hv & Ex & ->). exists v. split; [done|]. rewrite (scalar_eq v b rest y y Ex Ey He), bool_decide_true by done. done.
Qed.

(** The union over the literals of [In]. *)
Lemma in_node d path values nodes node row p fs : usable d path KValue → rows !! row = Some p → path_values p.1 path = Ok fs →
  traverse (λ v, let? k := literal_key d v in Ok (NRange d (Some k) (upto k) false)) values = Ok nodes → join_nodes NUnion nodes = Some node →
  (answers node row p ↔ one_of fs (λ _ x, among values x = true)) ∧
  Forall (λ b, is_ok (encode_equality b) = true) values.
Proof using All.
  intros Hu Er Ef Et Ej. apply traverse_ok_Forall2 in Et. pose proof (join_union nodes node row p Ej) as Ha.
  assert (Hn : ∀ b m, (let? k := literal_key d b in Ok (NRange d (Some k) (upto k) false)) = Ok m →
    ∃ y, encode_equality b = Ok y ∧ m = NRange d (Some (tag_prefix d ++ y)) (upto (tag_prefix d ++ y)) false).
  { intros b m. unfold literal_key. destruct (encode_equality b) as [y|]; [|done]. intros [= <-]. by exists y. }
  split.
  - rewrite Ha. split.
    + intros (m & Hm & Hx). apply list_elem_of_lookup in Hm as [j Hj]. destruct (Forall2_lookup_r _ _ _ _ _ Et Hj) as (b & Hb & Eb).
      destruct (Hn b m Eb) as (y & Ey & ->). cbn [answers] in Hx. apply (eq_node d path b y row p fs Hu Ey Er Ef) in Hx as (v & x & Hv & Ex & ->).
      exists v, y. split_and!; [done..|]. apply existsb_exists. exists b.
      split; [apply list_elem_of_In; by eapply list_elem_of_lookup_2|]. by rewrite Ey, bool_decide_true.
    + intros (v & x & Hv & Ex & (b & Hb & Exb)%existsb_exists). apply list_elem_of_In, list_elem_of_lookup in Hb as [j Hj].
      destruct (Forall2_lookup_l _ _ _ _ _ Et Hj) as (m & Hm & Eb). destruct (Hn b m Eb) as (y & Ey & ->). rewrite Ey in Exb.
      apply bool_decide_eq_true in Exb as <-. eexists. split; [by eapply list_elem_of_lookup_2|]. cbn [answers].
      apply (eq_node d path b x row p fs Hu Ey Er Ef). by exists v, x.
  - apply Forall_forall. intros b Hb. apply list_elem_of_lookup in Hb as [j Hj]. destruct (Forall2_lookup_l _ _ _ _ _ Et Hj) as (m & _ & Eb).
    destruct (Hn b m Eb) as (y & -> & _). done.
Qed.

Lemma good_in d path b rest node plan covered row p fs : usable d path KValue → Forall (λ v, is_empty v = false) (b :: rest) →
  leaf_node d path CIn b (b :: rest) = Ok (Some (node, plan, covered)) → rows !! row = Some p → path_values p.1 path = Ok fs →
  good_node (λ v, scalar v CIn (b :: rest)) node covered row p fs.
Proof using All.
  intros Hu He E Er Ef. unfold leaf_node in E. destruct (literal_key d b) as [k|]; [cbn [rbind] in E|done].
  destruct (encode_equality b) as [y|]; [cbn [rbind] in E|done].
  destruct (traverse _ (b :: rest)) as [nodes|] eqn:Et; [cbn [rbind] in E|done]. destruct (join_nodes NUnion nodes) as [n|] eqn:Ej; [|done].
  injection E as <- _ _. destruct (in_node d path (b :: rest) nodes n row p fs Hu Er Ef Et Ej) as (Ha & Hok).
  assert (Hl : Forall (λ b, is_empty b = false ∧ is_ok (encode_equality b) = true) (b :: rest)).
  { apply Forall_forall. intros v Hv. rewrite Forall_forall in He, Hok. split; [by apply He|by apply Hok]. }
  unfold good_node. rewrite Ha. split.
  - intros (v & Hv & Etv). destruct (values_encoded d path row p Hu Er) as (fs' & Ef' & Hx). assert (fs' = fs) as -> by congruence.
    destruct (Hx v Hv) as [x Ex]. exists v, x. split_and!; [done..|]. rewrite (scalar_in v b rest x Ex Hl) in Etv. by injection Etv.
  - intros _ (v & x & Hv & Ex & Hin). exists v. split; [done|]. by rewrite (scalar_in v b rest x Ex Hl), Hin.
Qed.

Lemma good_between d path b rest node plan covered row p fs : usable d path KValue → Forall (λ v, is_empty v = false) (b :: rest) →
  leaf_node d path CBetween b (b :: rest) = Ok (Some (node, plan, covered)) → rows !! row = Some p → path_values p.1 path = Ok fs →
  good_node (λ v, scalar v CBetween (b :: rest)) node covered row p fs.
Proof using All.
  intros Hu He E Er Ef. unfold leaf_node, literal_key in E. destruct (encode_equality b) as [y|] eqn:Ey; [cbn [rmap rbind] in E|done].
  destruct rest as [|u rest]; [done|]. cbn [lookup list_lookup] in E. destruct (encode_equality u) as [z|] eqn:Ez; [cbn [rmap rbind] in E|done].
  apply Forall_cons in He as [Hb [Hue _]%Forall_cons]. cbv beta in Hb, Hue.
  injection E as <- _ <-. unfold good_node. cbn [answers].
  change (if compound d then [byte_of_N 8] else []) with (tag_prefix d).
  assert (Ha : has_key (m_definition d) (Some (tag_prefix d ++ y)) (Some (tag_prefix d ++ z)) row p ↔
    one_of fs (λ _ x, list_cmp x y ≠ Lt ∧ list_cmp x z = Lt)).
  { apply (usable_range d path row p fs _ _ false); [done..|]. intros v x r Ex. unfold in_bounds.
    by rewrite (ltb_key v b x y _ r Ex Ey), (ltb_key v u x z _ r Ex Ez), andb_true_iff, negb_true_iff, bool_decide_eq_false, bool_decide_eq_true. }
  rewrite Ha. split.
  - intros (v & Hv & Et). destruct (values_encoded d path row p Hu Er) as (fs' & Ef' & Hx). assert (fs' = fs) as -> by congruence.
    destruct (Hx v Hv) as [x Ex]. exists v, x. split_and!; [done|done|..]; by apply (scalar_between v b u rest x y z Ex Ey Ez Hb Hue).
  - intros Hd%N.eqb_eq (v & x & Hv & Ex & Hc1 & Hc2). exists v. split; [done|].
    by apply (scalar_between v b u rest x y z Ex Ey Ez Hb Hue).
Qed.

Lemma good_prefix d path b rest node plan covered row p fs : usable d path KValue →
  leaf_node d path CPrefix b (b :: rest) = Ok (Some (node, plan, covered)) → rows !! row = Some p → path_values p.1 path = Ok fs →
  good_node (λ v, scalar v CPrefix (b :: rest)) node covered row p fs.
Proof using All.
  intros Hu E Er Ef. unfold leaf_node in E. destruct (literal_key d b) as [k|] eqn:Ek; [cbn [rbind] in E|done].
  destruct (encode_equality b) as [y|] eqn:Ey; [cbn [rbind] in E|done]. destruct b as [| | | | |t| |]; try done.
  injection E as <- _ <-. rewrite (literal_key_ok d (VString t) y Ey) in Ek. injection Ek as <-. injection Ey as <-.
  unfold good_node. cbn [answers].
  assert (Ep : take (length (tag_prefix d ++ byte_of_N 7 :: text t) - 2) (tag_prefix d ++ byte_of_N 7 :: text t) = tag_prefix d ++ byte_of_N 7 :: escaped t).
  { unfold text. fold (escaped t). rewrite app_comm_cons, app_assoc, length_app. cbn [length].
    rewrite Nat.add_sub. apply take_app_length. }
  rewrite Ep. destruct (upto_app_some (tag_prefix d) (byte_of_N 7) (escaped t)) as [q Eq]; [done|]. rewrite Eq.
  assert (Ha : has_key (m_definition d) (Some (tag_prefix d ++ byte_of_N 7 :: escaped t)) (Some q) row p ↔
    one_of fs (λ v _, ∃ s, v = VString s ∧ starts_with s t = true)).
  { apply (usable_range d path row p fs _ _ false); [done..|]. intros v x r Ex. rewrite (prefix_bounds _ q _ Eq). split.
    - intros Hp%prefix_app_inv. destruct (append_tag _ _ _ Ex) as [x' ->]. pose proof (prefix_cons_inv_1 _ _ _ _ Hp) as Et.
      apply prefix_cons_inv_2 in Hp. destruct v as [| |[]| | |s| |]; try done. exists s. split; [done|]. injection Ex as <-.
      by apply (text_prefix s t r).
    - intros (s & -> & Hs). injection Ex as <-. apply prefix_app. cbn [app]. apply prefix_cons. by apply text_prefix. }
  rewrite Ha. split.
  - intros (v & Hv & (s & t' & -> & [= <-] & Hst)%scalar_prefix).
    exists (VString s), (byte_of_N 7 :: text s). split_and!; [done..|]. by exists s.
  - intros _ (v & x & Hv & Ex & s & -> & Hst). exists (VString s). split; [done|]. unfold scalar.
    destruct (compare (VString s) (VString t)); [|done]. cbn [rbind is_range]. rewrite andb_false_r. cbn [rbind]. by rewrite Hst.
Qed.

(** *** Indexes of terms *)

Lemma text_terms_elem cut values l t : text_terms cut values = Ok l → t ∈ l ↔ ∃ s, VString s ∈ values ∧ t ∈ cut s.
Proof using All.
  revert l. induction values as [|v values IH]; intros l; cbn [text_terms].
  { intros [= <-]. split; [by intros []%elem_of_nil|by intros (s & []%elem_of_nil & _)]. }
  assert (Hskip : text_terms cut values = Ok l → (∀ s, v ≠ VString s) → t ∈ l ↔ ∃ s, VString s ∈ v :: values ∧ t ∈ cut s).
  { intros E Hv. rewrite (IH l E). split; intros (s & Hs & Ht); exists s; (split; [|done]); [by right|].
    apply elem_of_cons in Hs as [Hs|Hs]; [by destruct (Hv s)|done]. }
  destruct v as [| | | | |s| |]; try (intros E; by apply Hskip). clear Hskip. destruct (probe _ _) as [[]|]; [cbn [rbind]|done].
  destruct (text_terms cut values) as [rest|] eqn:E; [cbn [rbind]|done]. intros [= <-]. rewrite elem_of_app, (IH rest eq_refl). split.
  - intros [Ht|(s' & Hs & Ht)]; [exists s; split; [left|done]|exists s'; split; [by right|done]].
  - intros (s' & [[= ->]|Hs]%elem_of_cons & Ht); [by left|right; by exists s'].
Qed.

(** The path of an index of one path. *)
Lemma usable_one d path kind : usable d path kind → compound d = false → d_paths (m_definition d) = [path].
Proof using All.
  intros [_ _ Hp _] Hc. unfold compound in Hc. destruct (d_paths (m_definition d)) as [|a [|b l]]; [done|by injection Hp as ->|done].
Qed.

Lemma token_row d path (p : bytes * N) vs : usable d path KToken → compound d = false → row_values (m_definition d) p.1 p.2 = Ok vs →
  ∃ fs, path_values p.1 path = Ok fs ∧ ∀ t, VString t ∈ vs ↔ ∃ s, VString s ∈ fs ∧ t ∈ tokens s.
Proof using All.
  intros Hu Hc. unfold row_values, sampled_values, key_values. rewrite (usable_one d path KToken Hu Hc), (us_kind _ _ _ Hu).
  rewrite !bool_decide_false by done. destruct (path_values p.1 path) as [fs|]; [cbn [rbind length Nat.eqb]|done].
  destruct (text_terms tokens fs) as [l|] eqn:Et; [|done]. intros [= <-]. exists fs. split; [done|]. intros t.
  rewrite <-(text_terms_elem tokens fs l t Et), list_elem_of_fmap. split; [by intros (x & [= ->] & Hx)|intros Ht; by exists t].
Qed.

Lemma gram_row d path kind (p : bytes * N) grams : usable d path kind → compound d = false → row_grams (m_definition d) p.1 = Ok grams →
  ∃ fs, path_values p.1 path = Ok fs ∧
    ∀ t, t ∈ grams ↔ ∃ s, VString s ∈ fs ∧ t ∈ (if bool_decide (kind = KParts) then tokens else trigrams) s.
Proof using All.
  intros Hu Hc. unfold row_grams. rewrite (usable_one d path kind Hu Hc), (us_kind _ _ _ Hu). cbn [rbind].
  destruct (path_values p.1 path) as [fs|]; [cbn [rbind]|done].
  destruct (text_terms _ fs) as [l|] eqn:Et; [|done]. intros [= <-]. exists fs. split; [done|]. intros t.
  by rewrite elem_of_btree_set, (text_terms_elem _ fs l t Et).
Qed.

Lemma scalar_text v op b rest : kind_for op ≠ KValue → scalar v op (b :: rest) = Ok true → ∃ s t, v = VString s ∧ b = VString t.
Proof using All.
  intros Hop. unfold scalar. destruct (compare v b) as [c|]; [cbn [rbind]|done].
  assert (is_range op = false) as -> by (by destruct op). rewrite andb_false_r. cbn [rbind].
  destruct op; try done; destruct v; try done; destruct b; try done; intros _; by eexists _, _.
Qed.

Lemma scalar_strings s op t rest : kind_for op ≠ KValue →
  scalar (VString s) op (VString t :: rest) =
    Ok match op with
       | CContains => contains s t
       | CFuzzy distance => existsb (λ w, levenshtein w t <=? distance) (tokens s)
       | _ => negb (bool_decide (tokens t = [])) && forallb (λ w, bool_decide (w ∈ tokens s)) (tokens t)
       end.
Proof using All.
  intros Hop. unfold scalar. rewrite (compare_key (VString s) (VString t) _ _ eq_refl eq_refl eq_refl). cbn [rbind].
  assert (is_range op = false) as -> by (by destruct op). rewrite andb_false_r. cbn [rbind]. by destruct op.
Qed.

(** Without [Any] there is one value. *)
Lemma scalar_path_value b path fs : scalar_path path = true → path_values b path = Ok fs → ∃ v, fs = [v].
Proof using All.
  unfold scalar_path. intros Hs. rewrite path_values_unfold. destruct (list_find _ (p_steps path)) as [[i s]|] eqn:El.
  - apply list_find_Some in El as (Hi & -> & _). apply negb_true_iff in Hs. exfalso.
    apply (not_true_iff_false (existsb is_quantifier (p_steps path))) in Hs. apply Hs, existsb_exists. exists Any. split; [|done].
    apply list_elem_of_In. by eapply list_elem_of_lookup_2.
  - destruct (path_value b path) as [v|]; [|done]. intros [= <-]. by exists v.
Qed.

Lemma good_text d path b rest node plan covered row p fs : usable d path KToken → compound d = false →
  leaf_node d path CText b (b :: rest) = Ok (Some (node, plan, covered)) → rows !! row = Some p → path_values p.1 path = Ok fs →
  good_node (λ v, scalar v CText (b :: rest)) node covered row p fs.
Proof using All.
  intros Hu Hc E Er Ef. unfold leaf_node in E. destruct (literal_key d b) as [k|]; [cbn [rbind] in E|done].
  destruct (encode_equality b); [cbn [rbind] in E|done]. destruct b as [| | | | |t| |]; try done.
  destruct (bool_decide (tokens t = []) || _) eqn:Eb; [done|]. apply orb_false_iff in Eb as [Hne%bool_decide_eq_false _].
  destruct (traverse _ (tokens t)) as [nodes|] eqn:Et; [cbn [rbind] in E|done]. destruct (join_nodes NIntersection nodes) as [n|] eqn:Ej; [|done].
  injection E as <- _ <-. apply traverse_ok_Forall2 in Et. pose proof (join_intersection nodes n row p Ej) as Ha.
  destruct (usable_keyed d path KToken Hu eq_refl) as [Hd Hk]. destruct (row_indexed f defs name rows d row p Hf Hd Hk Er) as (vs & Ev & _).
  destruct (token_row d path p vs Hu Hc Ev) as (fs' & Ef' & Hin). assert (fs' = fs) as -> by congruence.
  assert (Hl : length (d_paths (m_definition d)) = 1%nat) by (by rewrite (usable_one d path KToken Hu Hc)).
  assert (Hans : answers n row p ↔ ∀ w, w ∈ tokens t → ∃ s, VString s ∈ fs ∧ w ∈ tokens s).
  { rewrite Ha. split.
    - intros Hm w Hw. apply list_elem_of_lookup in Hw as [j Hj]. destruct (Forall2_lookup_l _ _ _ _ _ Et Hj) as (m & Hmj & Em).
      destruct (encode_equality (VString w)) as [y|] eqn:Ey; [|done]. injection Em as <-.
      specialize (Hm _ (list_elem_of_lookup_2 _ _ _ Hmj)). cbn [answers] in Hm.
      destruct (proj1 (token_range f defs name rows d w y row p Hf Hd (us_kind _ _ _ Hu) Hl Ey Er) Hm) as (vs' & Ev' & Hv).
      apply Hin. by replace vs with vs' by congruence.
    - intros Hw m Hm. apply list_elem_of_lookup in Hm as [j Hj]. destruct (Forall2_lookup_r _ _ _ _ _ Et Hj) as (w & Hwj & Em).
      destruct (encode_equality (VString w)) as [y|] eqn:Ey; [|done]. injection Em as <-. cbn [answers].
      apply (token_range f defs name rows d w y row p Hf Hd (us_kind _ _ _ Hu) Hl Ey Er). exists vs. split; [done|].
      apply Hin, Hw. by eapply list_elem_of_lookup_2. }
  unfold good_node. rewrite Hans. split.
  - intros (v & Hv & Hsc) w Hw. destruct (scalar_text v CText (VString t) rest) as (s & t' & -> & [= <-]); [done|done|].
    rewrite scalar_strings in Hsc by done. injection Hsc as [_ Hall]%andb_true_iff. rewrite forallb_forall in Hall.
    exists s. split; [done|]. specialize (Hall w ltac:(by apply list_elem_of_In)). by apply bool_decide_eq_true in Hall.
  - intros Hcov%negb_true_iff%negb_false_iff Hw. destruct (scalar_path_value p.1 path fs Hcov Ef) as [v ->]. exists v. split; [left|].
    destruct (tokens t) as [|w0 ws] eqn:Ett; [done|]. destruct (Hw w0 ltac:(left)) as (s & <-%list_elem_of_singleton & _).
    rewrite scalar_strings, Ett by done. rewrite bool_decide_false by done.
    assert (forallb (λ w, bool_decide (w ∈ tokens s)) (w0 :: ws) = true) as ->; [|done]. apply forallb_forall. intros w Hw'%list_elem_of_In. apply bool_decide_eq_true.
    by destruct (Hw w Hw') as (s' & [= ->]%list_elem_of_singleton & Hws).
Qed.

(** A Rust string is UTF-8. *)
Definition text_ok (v : Value) : Prop := match v with VString s => utf8_valid s = true | _ => True end.

Lemma posted_row d path kind row p : usable d path kind → postings kind = true → rows !! row = Some p →
  ∃ grams, row_grams (m_definition d) p.1 = Ok grams.
Proof using All.
  intros Hu Hk Er. destruct (fo_tables f defs name rows Hf d (us_eligible _ _ _ Hu)) as (t & _ & Ho & _). unfold idx_ok in Ho.
  rewrite (us_kind _ _ _ Hu), Hk in Ho. pose proof (po_rows _ t rows Ho row p Er) as Hg. destruct (row_grams _ p.1) as [grams|]; [by exists grams|done].
Qed.

Lemma good_grams d path op b rest node plan covered row p fs : usable d path (kind_for op) → compound d = false → op = CContains ∨ op = CParts →
  leaf_node d path op b (b :: rest) = Ok (Some (node, plan, covered)) → rows !! row = Some p → path_values p.1 path = Ok fs →
  text_ok b → Forall text_ok fs → good_node (λ v, scalar v op (b :: rest)) node covered row p fs.
Proof using All.
  intros Hu Hc Hop E Er Ef Hb Hfs. unfold leaf_node in E. destruct (literal_key d b) as [k|]; [cbn [rbind] in E|done].
  destruct (encode_equality b); [cbn [rbind] in E|done]. assert (Hp : postings (kind_for op) = true) by (by destruct Hop as [-> | ->]).
  destruct b as [| | | | |t| |]; try (by destruct Hop as [-> | ->]).
  set (cut := if bool_decide (op = CContains) then trigrams else tokens).
  assert (E' : (if bool_decide (cut t = []) || (64 <? len (cut t)) then Ok None
     else Ok ((λ n, (n, IndexContains, false)) <$> join_nodes NIntersection (NPostings d <$> cut t))) = Ok (Some (node, plan, covered))).
  { unfold cut. by destruct Hop as [-> | ->]. }
  clear E. destruct (bool_decide (cut t = []) || _) eqn:Eb; [done|]. destruct (join_nodes _ _) as [n|] eqn:Ej; [|done]. injection E' as <- _ <-.
  pose proof (join_intersection _ n row p Ej) as Ha. split; [|done].
  intros (v & Hv & Hsc). destruct (scalar_text v op (VString t) rest) as (s & t' & -> & [= <-]); [by destruct Hop as [-> | ->]|done|].
    rewrite scalar_strings in Hsc by (by destruct Hop as [-> | ->]). injection Hsc as Hsc.
    assert (Hcut : ∀ w, w ∈ cut t → w ∈ cut s).
    { intros w Hw. unfold cut in *. destruct Hop as [-> | ->].
      - rewrite Forall_forall in Hfs. by apply (contains_trigrams s t (Hfs _ Hv) Hb).
      - apply andb_true_iff in Hsc as [_ Hall]. rewrite forallb_forall in Hall. specialize (Hall w ltac:(by apply list_elem_of_In)).
        by apply bool_decide_eq_true in Hall. }
    apply Ha. intros m (w & -> & Hw)%list_elem_of_fmap. cbn [answers]. destruct (posted_row d path (kind_for op) row p Hu Hp Er) as [grams Eg].
    exists grams. split; [done|]. destruct (gram_row d path (kind_for op) p grams Hu Hc Eg) as (fs' & Ef' & Hin).
    apply Hin. exists s. assert (fs' = fs) as -> by congruence. split; [done|]. specialize (Hcut w Hw). unfold cut in Hcut. by destruct Hop as [-> | ->].
Qed.

Lemma good_fuzzy d path distance b rest node plan covered row p fs : usable d path KToken → compound d = false →
  leaf_node d path (CFuzzy distance) b (b :: rest) = Ok (Some (node, plan, covered)) → rows !! row = Some p → path_values p.1 path = Ok fs →
  good_node (λ v, scalar v (CFuzzy distance) (b :: rest)) node covered row p fs.
Proof using All.
  intros Hu Hc E Er Ef. unfold leaf_node in E. destruct (literal_key d b) as [k|]; [cbn [rbind] in E|done].
  destruct (encode_equality b); [cbn [rbind] in E|done]. destruct b as [| | | | |t| |]; try done. injection E as <- _ <-.
  destruct (usable_keyed d path KToken Hu eq_refl) as [Hd Hk]. destruct (row_indexed f defs name rows d row p Hf Hd Hk Er) as (vs & Ev & _).
  destruct (token_row d path p vs Hu Hc Ev) as (fs' & Ef' & Hin). assert (fs' = fs) as -> by congruence.
  split.
  - intros (v & Hv & Hsc). destruct (scalar_text v (CFuzzy distance) (VString t) rest) as (s & t' & -> & [= <-]); [done|done|].
    rewrite scalar_strings in Hsc by done. injection Hsc as (w & Hw%list_elem_of_In & Hdist%N.leb_le)%existsb_exists.
    exists vs, w. split_and!; [done| |done]. apply Hin. by exists s.
  - intros _ (vs' & w & Ev' & Hw & Hdist). assert (vs' = vs) as -> by congruence. apply Hin in Hw as (s & Hs & Hw).
    exists (VString s). split; [done|]. rewrite scalar_strings by done. intros [= Hfalse].
    apply (not_true_iff_false (existsb _ _)) in Hfalse. apply Hfalse, existsb_exists. exists w.
    split; [by apply list_elem_of_In|by apply N.leb_le].
Qed.

(** Every plan of a condition uses its index the way it is kept. *)
Lemma join_sound join nodes node : join = NUnion ∨ join = NIntersection → join_nodes join nodes = Some node →
  (∀ m, m ∈ nodes → sound_node defs name m) → sound_node defs name node.
Proof using All.
  intros Hj. destruct nodes as [|n nodes]; [done|]. cbn [join_nodes]. intros [= <-] Hm.
  assert (Hn : sound_node defs name n) by (apply Hm; left). assert (Hr : ∀ m, m ∈ nodes → sound_node defs name m) by (intros; apply Hm; by right).
  clear Hm. revert n Hn. induction nodes as [|m nodes IH]; intros n Hn; [done|]. cbn [fold_left].
  apply IH; [intros; apply Hr; by right|]. destruct Hj as [-> | ->]; (split; [done|apply Hr; left]).
Qed.

Lemma leaf_sound d path op first values node plan covered : usable d path (kind_for op) → (kind_for op ≠ KValue → compound d = false) →
  leaf_node d path op first values = Ok (Some (node, plan, covered)) → sound_node defs name node.
Proof using All.
  intros Hu Hc. pose proof (us_eligible _ _ _ Hu) as Hd. pose proof (us_kind _ _ _ Hu) as Hk. unfold leaf_node.
  assert (Hr : postings (kind_for op) = false → ∀ lower upper dedup, sound_node defs name (NRange d lower upper dedup)).
  { intros Hp lower upper dedup. split; [done|by rewrite Hk]. }
  destruct (literal_key d first) as [k|]; [cbn [rbind]|done]. destruct (encode_equality first) as [e|]; [cbn [rbind]|done].
  destruct op; cbn [kind_for] in *; try (intros [= <- _ _]; by apply Hr); try (intros [= <- _ _]; split; by apply Hr).
  - destruct (values !! 1%nat) as [u|]; [|done]. destruct (literal_key d u); [cbn [rbind]|done]. intros [= <- _ _]. by apply Hr.
  - destruct (traverse _ values) as [nodes|] eqn:Et; [cbn [rbind]|done]. destruct (join_nodes NUnion nodes) as [n|] eqn:Ej; [|done].
    intros [= <- _ _]. apply (join_sound NUnion nodes); [by left|done|]. apply traverse_ok_Forall2 in Et.
    intros m Hm. apply list_elem_of_lookup in Hm as [j Hj]. destruct (Forall2_lookup_r _ _ _ _ _ Et Hj) as (b & _ & Eb).
    destruct (literal_key d b); [|done]. injection Eb as <-. by apply Hr.
  - destruct first; try done. intros [= <- _ _]. by apply Hr.
  - destruct first; try done. case_match; [done|]. destruct (join_nodes _ _) as [n|] eqn:Ej; [|done]. intros [= <- _ _].
    apply (join_sound NIntersection _ _ (or_intror eq_refl) Ej). intros m (w & -> & _)%list_elem_of_fmap. split; [done|by rewrite Hk].
  - destruct first as [| | | | |s| |]; try done. case_match; [done|]. destruct (traverse _ _) as [nodes|] eqn:Et; [cbn [rbind]|done].
    destruct (join_nodes NIntersection nodes) as [n|] eqn:Ej; [|done]. intros [= <- _ _].
    apply (join_sound NIntersection _ _ (or_intror eq_refl) Ej). apply traverse_ok_Forall2 in Et. intros m Hm.
    apply list_elem_of_lookup in Hm as [j Hj]. destruct (Forall2_lookup_r _ _ _ _ _ Et Hj) as (b & _ & Eb). injection Eb as <-. by apply Hr.
  - destruct first; try done. intros [= <- _ _]. split_and!; [done..|]. by rewrite (usable_one d path KToken Hu (Hc ltac:(done))).
  - destruct first; try done. case_match; [done|]. destruct (join_nodes _ _) as [n|] eqn:Ej; [|done]. intros [= <- _ _].
    apply (join_sound NIntersection _ _ (or_intror eq_refl) Ej). intros m (w & -> & _)%list_elem_of_fmap. split; [done|by rewrite Hk].
Qed.

(** *** From conditions to recipes *)

Definition good_recipe (e : Expr) (r : Recipe) : Prop :=
  sound_node defs name (r_node r) ∧ ∀ row p, rows !! row = Some p →
    (matches_uncached p.1 e = Ok true → answers (r_node r) row p) ∧
    (r_covered r = true → answers (r_node r) row p → matches_uncached p.1 e ≠ Ok false).

Lemma leaf_inv path op values recipes r : leaf defs name path op values = Ok recipes → r ∈ recipes →
  ∃ b rest d node plan covered, no_all (p_steps path) ∧ traverse (interpret (p_kind path)) values = Ok (b :: rest) ∧
    usable d path (kind_for op) ∧ (kind_for op ≠ KValue → compound d = false) ∧
    leaf_node d path op b (b :: rest) = Ok (Some (node, plan, covered)) ∧ r_node r = node ∧ r_covered r = covered.
Proof using All.
  unfold leaf. destruct (existsb _ (p_steps path)) eqn:Ea; [intros [= <-]; by intros []%elem_of_nil|].
  destruct (traverse (interpret (p_kind path)) values) as [[|b rest]|] eqn:Et; cbn [rbind]; [intros [= <-]; by intros []%elem_of_nil| |done].
  destruct (is_range op && _); [intros [= <-]; by intros []%elem_of_nil|].
  destruct (traverse (leaf_recipe path op b (b :: rest)) _) as [found|] eqn:Er; [|done]. intros [= <-] (o & Ho & Hr)%list_elem_of_omap.
  cbn [id] in Hr. subst o. apply traverse_ok_Forall2 in Er. apply list_elem_of_lookup in Ho as [i Hi].
  destruct (Forall2_lookup_r _ _ _ _ _ Er Hi) as (d & Hdi & Ed). apply list_elem_of_lookup_2, list_elem_of_filter in Hdi as [[Hk Hp] Hd].
  unfold leaf_recipe in Ed. destruct (compound d && _) eqn:Ec; [done|]. destruct (leaf_node d path op b (b :: rest)) as [[[[n pl] c]|]|] eqn:El; try done.
  injection Ed as <-. exists b, rest, d, n, pl, c. split_and!; [|done| | |done..].
  - apply Forall_forall. intros s Hs%list_elem_of_In ->. apply (not_true_iff_false (existsb _ _)) in Ea. apply Ea, existsb_exists.
    exists All. by split.
  - split; [done..|]. intros Hcomp. rewrite Hcomp in Ec. apply orb_false_iff in Ec as [_ Ed'].
    destruct (head (d_directions (m_definition d))) as [[]|]; done.
  - intros Hne. apply andb_false_iff in Ec as [?|Ec]; [done|]. apply orb_false_iff in Ec as [Ec _].
    by rewrite bool_decide_false in Ec by done.
Qed.

Lemma values_known d path kind row p : usable d path kind → (kind ≠ KValue → compound d = false) → kind ≠ KLastWrite → rows !! row = Some p →
  ∃ fs, path_values p.1 path = Ok fs.
Proof using All.
  intros Hu Hc Hl Er. destruct kind; [| | |done|].
  - destruct (values_encoded d path row p Hu Er) as (fs & Ef & _). by exists fs.
  - destruct (usable_keyed d path KToken Hu eq_refl) as [Hd Hk]. destruct (row_indexed f defs name rows d row p Hf Hd Hk Er) as (vs & Ev & _).
    destruct (token_row d path p vs Hu (Hc ltac:(done)) Ev) as (fs & Ef & _). by exists fs.
  - destruct (posted_row d path KTrigram row p Hu eq_refl Er) as [g Eg].
    destruct (gram_row d path KTrigram p g Hu (Hc ltac:(done)) Eg) as (fs & Ef & _). by exists fs.
  - destruct (posted_row d path KParts row p Hu eq_refl Er) as [g Eg].
    destruct (gram_row d path KParts p g Hu (Hc ltac:(done)) Eg) as (fs & Ef & _). by exists fs.
Qed.

(** The rows and the literals are text the way Rust has it; and, for the order
    operators, no literal is a boolean. *)
Definition plain_literals (op : Compare) (values : list Value) : Prop :=
  Forall text_ok values ∧ (order_op op = true → Forall (λ v, is_bool v = false) values).

Context (texts : ∀ d path row p fs, d ∈ eligible defs name → head (d_paths (m_definition d)) = Some path →
  rows !! row = Some p → path_values p.1 path = Ok fs → Forall text_ok fs).

Lemma good_leaf d path op b rest node plan covered row p fs : usable d path (kind_for op) → (kind_for op ≠ KValue → compound d = false) →
  Forall (λ v, is_empty v = false) (b :: rest) → plain_literals op (b :: rest) →
  leaf_node d path op b (b :: rest) = Ok (Some (node, plan, covered)) → rows !! row = Some p → path_values p.1 path = Ok fs →
  good_node (λ v, scalar v op (b :: rest)) node covered row p fs.
Proof using All.
  intros Hu Hc He [Ht Hb] E Er Ef. pose proof (texts d path row p fs (us_eligible _ _ _ Hu) (us_path _ _ _ Hu) Er Ef) as Hfs. pose proof He as [Heb _]%Forall_cons. cbv beta in Heb.
  apply Forall_cons in Ht as [Htb _].
  assert (Hbb : order_op op = true → is_bool b = false) by (intros Ho; by apply Hb, Forall_cons in Ho as [? _]).
  destruct op; cbn [kind_for order_op] in *.
  - by eapply good_eq.
  - eapply good_order; eauto.
  - eapply good_order; eauto.
  - eapply good_order; eauto.
  - eapply good_order; eauto.
  - eapply good_order; eauto.
  - by eapply good_between.
  - by eapply good_in.
  - by eapply good_prefix.
  - eapply good_grams; eauto; by apply Hc.
  - eapply good_text; eauto.
  - eapply good_fuzzy; eauto.
  - eapply good_grams; eauto; by apply Hc.
Qed.

(** What declared readings keep of a literal. *)
Lemma interpret_scalar_time kind v w : interpret_scalar kind v = Ok w → ∃ t, w = Time t.
Proof using All. unfold interpret_scalar. match goal with |- rmap _ ?r = _ → _ => destruct r as [t|]; [|done] end. intros [= <-]. by exists t. Qed.

Lemma interpret_keeps kind v w : interpret kind v = Ok w →
  (is_empty v = false → is_empty w = false) ∧ (text_ok v → text_ok w) ∧ (is_bool v = false → is_bool w = false).
Proof using All.
  destruct (is_empty v || bool_decide (kind = Auto)) eqn:E; [destruct v; cbn [interpret]; rewrite E; by intros [= <-]|].
  destruct v; cbn [interpret]; rewrite E; try (by intros (t & ->)%interpret_scalar_time); [by intros [= <-]|..];
    match goal with |- rmap _ ?r = _ → _ => destruct r; [by intros [= <-]|done] end.
Qed.

Lemma interpret_all kind op values lits : traverse (interpret kind) values = Ok lits → plain_literals op values → existsb is_empty values = false →
  Forall (λ v, is_empty v = false) lits ∧ plain_literals op lits.
Proof using All.
  intros Et%traverse_ok_Forall2 [Ht Hb] He. unfold plain_literals. induction Et as [|v w values lits Ev _ IH]; [by repeat constructor|].
  cbn [existsb] in He. apply orb_false_iff in He as [He Her]. apply Forall_cons in Ht as [Htv Ht]. destruct (interpret_keeps _ _ _ Ev) as (K1 & K2 & K3).
  destruct IH as [IH1 [IH2 IH3]]; [done|intros Ho; by apply Hb, Forall_cons in Ho as [_ ?]|done|]. split_and!; [constructor; auto|constructor; auto|].
  intros Ho. pose proof (Hb Ho) as [Hbv _]%Forall_cons. constructor; [by apply K3|by apply IH3].
Qed.

(** Without quantifiers a condition is one on the value. *)
Lemma quantified_plain b path leaf :
  (if existsb is_quantifier (p_steps path) then quantified b path leaf else let? v := path_value b path in leaf v) = quantified b path leaf.
Proof using All.
  destruct (existsb is_quantifier (p_steps path)) eqn:Eq; [done|]. rewrite quantified_unfold.
  destruct (list_find _ (p_steps path)) as [[i s]|] eqn:El; [|done]. apply list_find_Some in El as (Hi & Hs & _). exfalso.
  apply (not_true_iff_false (existsb _ _)) in Eq. apply Eq, existsb_exists. exists s.
  split; [apply list_elem_of_In; by eapply list_elem_of_lookup_2|done].
Qed.

Lemma good_compare path op values recipes r : existsb is_empty values = false → plain_literals op values →
  leaf defs name path op values = Ok recipes → r ∈ recipes → good_recipe (ECompare path op values) r.
Proof using All.
  intros He Hp El Hr. destruct (leaf_inv path op values recipes r El Hr) as (b & rest & d & node & plan & covered & Hna & Et & Hu & Hc & E & Hn & Hcov).
  destruct (interpret_all _ op _ _ Et Hp He) as [He' Hp']. rewrite <-Hn, <-Hcov in *. split; [by eapply leaf_sound|]. intros row p Er.
  destruct (values_known d path (kind_for op) row p Hu Hc) as [fs Ef]; [by destruct op|done|].
  destruct (good_leaf d path op b rest _ plan _ row p fs Hu Hc He' Hp' E Er Ef) as [G1 G2].
  assert (Hq : matches_uncached p.1 (ECompare path op values) = quantified p.1 path (λ v, scalar v op (b :: rest))).
  { cbn [matches_uncached]. rewrite Et. cbn [rbind]. by rewrite quantified_plain. }
  rewrite Hq. destruct (quantified_values p.1 (λ v, scalar v op (b :: rest)) path fs Hna Ef) as [Q1 Q2]. split; [by intros Hm%Q1; apply G1|].
  intros Hcov' Ha. by apply Q2, G2.
Qed.

(** *** Presence *)

Definition present (op : Presence) (v : Value) : bool :=
  match op with PExists => exists_ v | PNull => is_null v | PMissing => is_missing v | PEmpty => is_empty v end.

Lemma good_presence path op r d : d ∈ eligible defs name → no_all (p_steps path) → sound_node defs name (r_node r) → usable d path KValue →
  (∀ row p fs, rows !! row = Some p → path_values p.1 path = Ok fs → answers (r_node r) row p ↔ one_of fs (λ v _, present op v = true)) →
  good_recipe (EPresence path op) r.
Proof using All.
  intros Hd Hna Hs Hu Ha. split; [done|]. intros row p Er. destruct (values_encoded d path row p Hu Er) as (fs & Ef & Hx).
  cbn [matches_uncached]. rewrite quantified_plain. destruct (quantified_values p.1 (presence_test op) path fs Hna Ef) as [Q1 Q2].
  rewrite (Ha row p fs Er Ef). split.
  - intros (v & Hv & Et)%Q1. destruct (Hx v Hv) as [x Ex]. exists v, x. split_and!; [done..|]. by destruct op; injection Et.
  - intros _ (v & x & Hv & _ & Hp). apply Q2. exists v. split; [done|]. destruct op; unfold present in Hp; unfold presence_test; by rewrite Hp.
Qed.

Lemma leaf_presence path op values recipes r : leaf defs name path op values = Ok recipes → r ∈ recipes → Forall (λ v, is_empty v = true) values →
  kind_for op = KValue →
  ∃ b rest d, values = b :: rest ∧ no_all (p_steps path) ∧ usable d path KValue ∧ sound_node defs name (r_node r) ∧
    ∃ plan, leaf_node d path op b values = Ok (Some (r_node r, plan, r_covered r)).
Proof using All.
  intros El Hr He Hk. destruct (leaf_inv path op values recipes r El Hr) as (b & rest & d & node & plan & covered & Hna & Et & Hu & Hc & E & Hn & Hcov).
  assert (values = b :: rest) as ->.
  { apply traverse_ok_Forall2 in Et. revert He. clear -Et. induction Et as [|v w l l' Ev _ IH]; [done|]. intros [Hv Hl]%Forall_cons.
    rewrite (IH Hl). f_equal. destruct v; try done; cbn [interpret is_empty is_missing is_null orb] in Ev; by injection Ev. }
  exists b, rest, d. split_and!; [done|done|by rewrite <-Hk|by rewrite Hn; eapply leaf_sound|]. exists plan. by rewrite Hn, Hcov.
Qed.

Lemma tag_of v x t : encode_equality v = Ok x → x = [byte_of_N t] → byte_of_N (rank v) = byte_of_N t.
Proof using All. intros (x' & ->)%append_tag. by intros [= ->]. Qed.

Lemma filters_presence path op recipes r : filters defs name (EPresence path op) = Ok recipes → r ∈ recipes →
  good_recipe (EPresence path op) r.
Proof using All.
  assert (Hkey : ∀ v x, encode_equality v = Ok x → (x = [byte_of_N 2] ↔ is_null v = true) ∧ (x = [byte_of_N 1] ↔ is_missing v = true)).
  { intros v x Ex. split; (split; [intros E; pose proof (tag_of v x _ Ex E) as Ht; by destruct v as [| |[]| | | | |]|]);
      by destruct v; try done; injection Ex as <-. }
  destruct op; cbn [filters].
  - destruct (leaf _ _ _ _ _) as [l|] eqn:El; [|done]. intros [= <-] (r0 & -> & Hr0)%list_elem_of_fmap.
    destruct (leaf_presence path CGt [Missing] l r0 El Hr0) as (b & rest & d & [= <- <-] & Hna & Hu & Hs & plan & E); [by repeat constructor|done|].
    destruct (literal_bounds d Missing [byte_of_N 1] eq_refl) as (q & tq & Eq & Etq & Hb).
    unfold leaf_node in E. cbn [literal_key encode_equality append rmap rbind] in E. fold (tag_prefix d) in E. rewrite Eq, Etq in E. injection E as En _ _.
    unfold open_upper. rewrite <-En in *. apply (good_presence path PExists _ d); [apply Hu|done|by destruct Hs|done|]. cbn [r_node].
    intros row p fs Er Ef. apply (usable_range d path row p fs _ _ false); [done..|]. intros v x r Ex. destruct (Hb v x r Ex) as (_ & B2 & _ & _).
    unfold in_bounds. rewrite B2, andb_true_iff, negb_true_iff, bool_decide_eq_false. cbn [present].
    assert (Hup : match (if compound d then Some [byte_of_N 9] else None) with Some hi => ltb (tag_prefix d ++ x ++ r) hi | None => true end = true).
    { unfold tag_prefix. by destruct (compound d). }
    rewrite Hup. destruct (append_tag _ _ _ Ex) as [x' ->]. cbn [list_cmp]. change (byte_of_N 1) with (byte_of_N (rank Missing)). rewrite cmp_rank.
    destruct v as [| |[]| | | | |]; try (split; [done|intros _; split; [by intros Hn|done]]).
    injection Ex as <-. cbn. split; [intros [Hn _]; by destruct Hn|done].
  - intros El Hr. destruct (leaf_presence path CEq [Null] recipes r El Hr) as (b & rest & d & [= <- <-] & Hna & Hu & Hs & plan & E); [by repeat constructor|done|].
    injection E as En _ _. apply (good_presence path PNull r d); [apply Hu|done..|]. intros row p fs Er Ef. rewrite <-En. cbn [answers].
    change ((if compound d then [byte_of_N 8] else []) ++ [byte_of_N 2]) with (tag_prefix d ++ [byte_of_N 2]).
    rewrite (eq_node d path Null [byte_of_N 2] row p fs Hu eq_refl Er Ef). apply one_of_ext. intros v x Ex. by apply Hkey.
  - intros El Hr. destruct (leaf_presence path CEq [Missing] recipes r El Hr) as (b & rest & d & [= <- <-] & Hna & Hu & Hs & plan & E); [by repeat constructor|done|].
    injection E as En _ _. apply (good_presence path PMissing r d); [apply Hu|done..|]. intros row p fs Er Ef. rewrite <-En. cbn [answers].
    change ((if compound d then [byte_of_N 8] else []) ++ [byte_of_N 1]) with (tag_prefix d ++ [byte_of_N 1]).
    rewrite (eq_node d path Missing [byte_of_N 1] row p fs Hu eq_refl Er Ef). apply one_of_ext. intros v x Ex. by apply Hkey.
  - intros El Hr. destruct (leaf_presence path CIn [Missing; Null] recipes r El Hr) as (b & rest & d & [= <- <-] & Hna & Hu & Hs & plan & E); [by repeat constructor|done|].
    unfold leaf_node in E. cbn [literal_key encode_equality append rmap rbind] in E.
    destruct (traverse _ [Missing; Null]) as [nodes|] eqn:Et; [cbn [rbind] in E|done]. destruct (join_nodes NUnion nodes) as [n|] eqn:Ej; [|done].
    injection E as En _ _. apply (good_presence path PEmpty r d); [apply Hu|done..|]. intros row p fs Er Ef. rewrite <-En.
    destruct (in_node d path [Missing; Null] nodes n row p fs Hu Er Ef Et Ej) as [Ha _]. rewrite Ha. apply one_of_ext. intros v x Ex.
    destruct (Hkey v x Ex) as [K1 K2]. unfold among, present, is_empty. cbn [existsb encode_equality append]. rewrite orb_false_r, !orb_true_iff, !bool_decide_eq_true.
    by rewrite K1, K2.
Qed.

(** *** Whole predicates *)

(** The literals of every condition are text, and no condition of order is on a boolean. *)
Fixpoint plain_expr (e : Expr) : Prop :=
  match e with
  | ECompare _ op values => plain_literals op values
  | EAnd a b | EOr a b => plain_expr a ∧ plain_expr b
  | _ => True
  end.

Lemma good_uncovered e e' r : good_recipe e r → (∀ b, matches_uncached b e' = Ok true → matches_uncached b e = Ok true) →
  good_recipe e' (uncovered r).
Proof using All. intros [Hs Hr] He. split; [done|]. intros row p Er. split; [|done]. intros Hm%He. by apply (Hr row p Er). Qed.

Lemma good_and a b r r' : good_recipe a r → good_recipe b r' → good_recipe (EAnd a b) (both NIntersection IndexIntersection r r').
Proof using All.
  intros [Hs Hr] [Hs' Hr']. split; [done|]. intros row p Er. destruct (Hr row p Er) as [C S], (Hr' row p Er) as [C' S'].
  cbn [both r_node r_covered answers matches_uncached]. destruct (matches_uncached p.1 a) as [[]|]; cbn [rbind]; split; try done.
  - intros Hb. by split; [apply C|apply C'].
  - intros [_ Hc']%andb_true_iff [_ Ha']. by apply S'.
  - intros [Hc _]%andb_true_iff [Ha _]. by specialize (S Hc Ha).
Qed.

Lemma good_or a b r r' : good_recipe a r → good_recipe b r' → good_recipe (EOr a b) (both NUnion IndexUnion r r').
Proof using All.
  intros [Hs Hr] [Hs' Hr']. split; [done|]. intros row p Er. destruct (Hr row p Er) as [C S], (Hr' row p Er) as [C' S'].
  cbn [both r_node r_covered answers matches_uncached]. destruct (matches_uncached p.1 a) as [[]|]; cbn [rbind]; split; try done.
  - intros _. left. by apply C.
  - intros Hb. right. by apply C'.
  - intros [Hc Hc']%andb_true_iff [Ha|Ha']; [by specialize (S Hc Ha)|by apply S'].
Qed.

Lemma filters_good e : ∀ recipes r, filters defs name e = Ok recipes → plain_expr e → r ∈ recipes → good_recipe e r.
Proof using All.
  induction e as [path op values|path op|a IHa b IHb|a IHa b IHb| | | |]; intros recipes r E Hp Hr;
    try (injection E as <-; by apply elem_of_nil in Hr).
  - cbn [filters] in E. destruct (existsb is_empty values) eqn:He; [injection E as <-; by apply elem_of_nil in Hr|]. by eapply good_compare.
  - by eapply filters_presence.
  - cbn [filters] in E. destruct (filters defs name a) as [la|]; [|done]. destruct (filters defs name b) as [lb|]; [|done].
    injection E as <-. destruct Hp as [Hpa Hpb]. rewrite !elem_of_app in Hr. destruct Hr as [Hr|[Hr|Hr]].
    + apply list_elem_of_fmap in Hr as (x & -> & Hx). apply (good_uncovered a); [by eapply IHa|]. intros body. cbn [matches_uncached].
      by destruct (matches_uncached body a) as [[]|].
    + apply list_elem_of_fmap in Hr as (x & -> & Hx). apply (good_uncovered b); [by eapply IHb|]. intros body. cbn [matches_uncached].
      by destruct (matches_uncached body a) as [[]|].
    + apply list_elem_of_bind in Hr as (x & (y & -> & Hy)%list_elem_of_fmap & Hx). apply good_and; [by eapply IHa|by eapply IHb].
  - cbn [filters] in E. destruct (filters defs name a) as [la|]; [|done]. destruct (filters defs name b) as [lb|]; [|done].
    injection E as <-. destruct Hp as [Hpa Hpb].
    apply list_elem_of_bind in Hr as (x & (y & -> & Hy)%list_elem_of_fmap & Hx). apply good_or; [by eapply IHa|by eapply IHb].
Qed.
End leaves.
