(* ===== verification/PlanProps.v ===== *)
(** * Plans answer predicates, and count them

    The theorems about the plans of [filters]: a plan finds every row that matches, a
    covering one finds no other, and a count taken from the index alone is the number of
    the rows the plan gives ([plans_answer], [counts_rows]). *)
From S2P Require Import Prelude Order Redb Memory Fields OrderedCodec OrderedSpec Eval EvalSpec IndexKeys Trigram TrigramSpec Index IndexSpec IndexProps Exec Plan ExecSpec PathSpec PlanSpec.
Local Open Scope N_scope.

Lemma sorted_seconds {K V} `{TotalOrder K} (es : list (K * V)) : StronglySorted pair_lt es →
  (∀ k k' v, (k, v) ∈ es → (k', v) ∈ es → k = k') → NoDup es.*2.
Proof.
  induction 1 as [|[k v] es _ IH Hx]; intros Hi; [constructor|]. cbn. constructor; [|by apply IH; intros a b w Ha Hb; apply (Hi a b w); right].
  intros ([k' v'] & -> & Hin)%list_elem_of_fmap. rewrite Forall_forall in Hx. specialize (Hx _ Hin). unfold pair_lt in Hx. cbn in Hx.
  rewrite (Hi k k' v') in Hx by (by left || by right). by apply key_lt_irrefl in Hx.
Qed.

(** ** Counting a range *)

Section counts.
Context `{Redb} `{TextLibOk} `{Allocator} `{FstLib, !FstLibOk} `{ReverseJson}.
Context (f : gmap (N * N) Tables) (defs : list Manifest) (name : str) (rows : gmap str (bytes * N)) (Hf : file_ok f defs name rows).

(** No row has two keys of the index between the bounds. *)
Definition once (d : IndexDef) (lower upper : option bytes) : Prop :=
  ∀ row p vs v v' k k', rows !! row = Some p → row_values d p.1 p.2 = Ok vs → v ∈ vs → v' ∈ vs →
    definition_key d v row = Ok k → definition_key d v' row = Ok k' →
    in_bounds lower upper k = true → in_bounds lower upper k' = true → k = k'.

Definition countable (node : Node) : Prop :=
  match node with NRange d lower upper false => once (m_definition d) lower upper | _ => True end.

Lemma count_exact node : sound_node defs name node → countable node →
  ∃ l, set f node = Ok l ∧ count f node = Ok (len l).
Proof using All.
  intros Hs Hc. destruct (set_exact f defs name rows node Hf Hs) as (l & El & Hl).
  destruct node as [d lower upper []| | | | |]; try (exists l; by cbn [count]; rewrite El).
  destruct Hs as [Hd Hk]. cbn [set pure count] in *. unfold range in *. destruct (no_range lower upper); [injection El as <-; by exists []|].
  destruct (fo_tables f defs name rows Hf d Hd) as (t & Et & Ho & _). unfold open_tables in *. rewrite Et in *. cbn [ok_or rbind rmap] in *.
  eexists. split; [done|]. unfold len. do 2 f_equal. unfold idx_ok in Ho. rewrite Hk in Ho.
  set (es := filter _ _) in *. injection El as <-.
  assert (Hnd : StronglySorted pair_lt es) by apply sorted_filter, t_iter_sorted.
  assert (Hrow : ∀ k row, (k, row) ∈ es → in_bounds lower upper k = true ∧ ∃ p vs v, rows !! row = Some p ∧
      row_values (m_definition d) p.1 p.2 = Ok vs ∧ v ∈ vs ∧ definition_key (m_definition d) v row = Ok k).
  { intros k row [Hb Hi%t_get_iter]%list_elem_of_filter. split; [done|]. by apply (keyed_exact (m_definition d) t rows Ho). }
  assert (Hns : NoDup es.*2).
  { apply (sorted_seconds es Hnd). intros k k' row Hi Hi'. destruct (Hrow k row Hi) as (Hb & p & vs & v & Er & Ev & Hv & Ek).
    destruct (Hrow k' row Hi') as (Hb' & p' & vs' & v' & Er' & Ev' & Hv' & Ek'). assert (p' = p) as -> by congruence.
    assert (vs' = vs) as -> by congruence. by eapply (Hc row p vs v v'). }
  rewrite <-(length_fmap snd es). apply Permutation_length, NoDup_Permutation; [done|apply btree_set_nodup|].
  intros row. by rewrite elem_of_btree_set.
Qed.

Lemma scalar_one path b fs : scalar_path path = true → path_values b path = Ok fs → ∃ v, fs = [v].
Proof using.
  unfold scalar_path. rewrite negb_true_iff. intros Eq. rewrite path_values_unfold.
  destruct (list_find _ (p_steps path)) as [[i s]|] eqn:El; [|destruct (path_value b path) as [v|]; [|done]; intros [= <-]; by exists v].
  apply list_find_Some in El as (Hi & -> & _). exfalso. apply (not_true_iff_false (existsb is_quantifier (p_steps path))) in Eq.
  apply Eq, existsb_exists. exists Any. split; [|done]. apply list_elem_of_In. by eapply list_elem_of_lookup_2.
Qed.

Lemma once_one d lower upper : (∀ row p vs, rows !! row = Some p → row_values d p.1 p.2 = Ok vs → ∃ v, vs = [v]) → once d lower upper.
Proof using.
  intros Hone row p vs v v' k k' Er Ev Hv Hv' Ek Ek' _ _. destruct (Hone row p vs Er Ev) as [w ->].
  apply list_elem_of_singleton in Hv as ->, Hv' as ->. congruence.
Qed.

(** A compound index has one key for a row. *)
Lemma once_compound d lower upper : d_kind (m_definition d) = KValue → compound d = true → once (m_definition d) lower upper.
Proof using.
  unfold compound. intros Hk Hc%Nat.ltb_lt. apply once_one. intros row p vs _. unfold row_values, key_values.
  destruct (sampled_values _ _ _) as [sampled|]; [cbn [rbind]|done]. rewrite Hk, bool_decide_false by done.
  replace (length (d_paths (m_definition d)) =? 1)%nat with false by (symmetry; apply Nat.eqb_neq; lia).
  destruct (traverse _ _) as [tuple|]; [|done]. intros [= <-]. by eexists.
Qed.

(** A path without quantifiers has one value in a row. *)
Lemma once_scalar d path lower upper : usable defs name d path KValue → scalar_path path = true → once (m_definition d) lower upper.
Proof using.
  intros [_ Hk Hp _] Hs. destruct (compound d) eqn:Hc; [by apply once_compound|]. apply once_one. intros row p vs _.
  unfold row_values, sampled_values, key_values, compound in *. rewrite Hk, bool_decide_false by done.
  destruct (d_paths (m_definition d)) as [|path' [|]]; [done| |done]. injection Hp as ->. cbn [length Nat.eqb].
  destruct (path_values p.1 path) as [fs|] eqn:Ef; [cbn [rbind]|done]. intros [= <-]. by eapply scalar_one.
Qed.

(** The keys of one value of a row are one key. *)
Lemma once_eq d b y : compound d = false ∨ d_kind (m_definition d) = KValue → encode_equality b = Ok y →
  once (m_definition d) (Some (tag_prefix d ++ y)) (upto (tag_prefix d ++ y)).
Proof using Type*.
  intros Hd Ey. destruct (compound d) eqn:Hc; [apply once_compound; [by destruct Hd|done]|]. unfold tag_prefix. rewrite Hc. cbn [app].
  assert (Hkey : ∀ v row k, definition_key (m_definition d) v row = Ok k → in_bounds (Some y) (upto y) k = true → k = y ++ row_suffix row).
  { intros v row k. rewrite definition_key_body. unfold key_body. unfold compound in Hc.
    replace (length (d_paths (m_definition d)) <=? 1)%nat with true by (symmetry; apply Nat.leb_le; by apply Nat.ltb_ge in Hc).
    destruct (encode_equality v) as [x|] eqn:Ex; [|done]. intros [= <-].
    pose proof (eq_bounds v b x y [] (row_suffix row) Ex Ey) as Hb. cbn [app] in Hb. rewrite Hb, bool_decide_eq_true. by intros ->. }
  intros row p vs v v' k k' _ _ _ _ Ek Ek' Hb Hb'. by rewrite (Hkey v row k), (Hkey v' row k').
Qed.

Lemma join_countable join nodes node : join = NUnion ∨ join = NIntersection → join_nodes join nodes = Some node →
  (∀ m, m ∈ nodes → countable m) → countable node.
Proof using.
  intros Hj. unfold join_nodes. destruct nodes as [|n [|m nodes]]; [intros [=]|intros [= <-] Hm; apply Hm; left|]. cbn [fold_left]. intros [= <-] _.
  assert (Ht : ∀ l a b, ∃ a' b', fold_left join l (join a b) = join a' b').
  { intros l. induction l as [|x l IH]; intros a b; [by exists a, b|apply (IH (join a b) x)]. }
  destruct (Ht nodes n m) as (a' & b' & ->). by destruct Hj as [-> | ->].
Qed.

Lemma leaf_countable d path op first values node plan covered : usable defs name d path (kind_for op) →
  (kind_for op ≠ KValue → compound d = false) →
  leaf_node d path op first values = Ok (Some (node, plan, covered)) → countable node.
Proof using Type*.
  intros Hu Hc. pose proof (us_kind _ _ _ _ _ Hu) as Hk. unfold leaf_node, literal_key.
  destruct (encode_equality first) as [e|] eqn:Ee; [cbn [rmap rbind]|done]. fold (tag_prefix d).
  assert (Hany : kind_for op = KValue → ∀ lower upper, countable (NRange d lower upper (negb (scalar_path path)))).
  { intros Ho lower upper. rewrite Ho in Hu. destruct (scalar_path path) eqn:Es; [|done]. by apply (once_scalar d path). }
  assert (Heq : ∀ b y, encode_equality b = Ok y → countable (NRange d (Some (tag_prefix d ++ y)) (upto (tag_prefix d ++ y)) false)).
  { intros b y Ey. apply (once_eq d b y); [|done]. rewrite Hk. destruct (decide (kind_for op = KValue)); [by right|left; by apply Hc]. }
  destruct op; cbn [kind_for] in *; try (intros [= <- _ _]; by first [apply Hany|eapply Heq|exact I]).
  - destruct (values !! 1%nat) as [u|]; [|done]. destruct (encode_equality u); [cbn [rmap rbind]|done]. intros [= <- _ _]. by apply Hany.
  - destruct (traverse _ values) as [nodes|] eqn:Et; [cbn [rbind]|done]. destruct (join_nodes NUnion nodes) as [n|] eqn:Ej; [|done].
    intros [= <- _ _]. apply (join_countable NUnion nodes); [by left|done|]. apply traverse_ok_Forall2 in Et.
    intros m Hm. apply list_elem_of_lookup in Hm as [j Hj]. destruct (Forall2_lookup_r _ _ _ _ _ Et Hj) as (b & _ & Eb).
    destruct (encode_equality b) as [y|] eqn:Ey; [|done]. injection Eb as <-. by eapply Heq.
  - destruct first; try done. intros [= <- _ _]. by apply Hany.
  - destruct first; try done. case_match; [done|]. destruct (join_nodes _ _) as [n|] eqn:Ej; [|done]. intros [= <- _ _].
    apply (join_countable NIntersection _ _ (or_intror eq_refl) Ej). by intros m (w & -> & _)%list_elem_of_fmap.
  - destruct first as [| | | | |s| |]; try done. case_match; [done|]. destruct (traverse _ _) as [nodes|] eqn:Et; [cbn [rbind]|done].
    destruct (join_nodes NIntersection nodes) as [n|] eqn:Ej; [|done]. intros [= <- _ _].
    apply (join_countable NIntersection _ _ (or_intror eq_refl) Ej). apply traverse_ok_Forall2 in Et. intros m Hm.
    apply list_elem_of_lookup in Hm as [j Hj]. destruct (Forall2_lookup_r _ _ _ _ _ Et Hj) as (b & _ & Eb). injection Eb as <-.
    assert (Ht : tag_prefix d = []) by (unfold tag_prefix; by rewrite Hc). pose proof (Heq (VString b) _ eq_refl) as He. by rewrite Ht in He.
  - destruct first; try done; by intros [= <- _ _].
  - destruct first; try done. case_match; [done|]. destruct (join_nodes _ _) as [n|] eqn:Ej; [|done]. intros [= <- _ _].
    apply (join_countable NIntersection _ _ (or_intror eq_refl) Ej). by intros m (w & -> & _)%list_elem_of_fmap.
Qed.

(** A property of recipes that the leaves have and the connectives keep. *)
Lemma filters_ind (P : Recipe → Prop) :
  (∀ path op values recipes r, leaf defs name path op values = Ok recipes → r ∈ recipes → P r) →
  (∀ path recipes r, leaf defs name path CGt [Missing] = Ok recipes → r ∈ recipes → P r → P (open_upper r)) →
  (∀ r, P r → P (uncovered r)) →
  (∀ a b, P a → P b → P (both NIntersection IndexIntersection a b) ∧ P (both NUnion IndexUnion a b)) →
  ∀ e recipes r, filters defs name e = Ok recipes → r ∈ recipes → P r.
Proof using.
  intros Hleaf Hopen Hun Hboth e. induction e as [path op values|path op|a IHa b IHb|a IHa b IHb| | | |]; intros recipes r E Hr;
    try (injection E as <-; by apply elem_of_nil in Hr); cbn [filters] in E.
  - case_match; [injection E as <-; by apply elem_of_nil in Hr|]. by eapply Hleaf.
  - destruct op; try by eapply Hleaf. destruct (leaf _ _ _ _ _) as [l|] eqn:El; [|done]. injection E as <-.
    apply list_elem_of_fmap in Hr as (r0 & -> & Hr0). eapply Hopen; [done..|]. by eapply Hleaf.
  - destruct (filters defs name a) as [la|]; [|done]. destruct (filters defs name b) as [lb|]; [|done]. injection E as <-.
    rewrite !elem_of_app in Hr. destruct Hr as [(x & -> & Hx)%list_elem_of_fmap|[(x & -> & Hx)%list_elem_of_fmap|Hr]];
      [by apply Hun, (IHa la x)|by apply Hun, (IHb lb x)|].
    apply list_elem_of_bind in Hr as (x & (y & -> & Hy)%list_elem_of_fmap & Hx). apply Hboth; [by apply (IHa la x)|by apply (IHb lb y)].
  - destruct (filters defs name a) as [la|]; [|done]. destruct (filters defs name b) as [lb|]; [|done]. injection E as <-.
    apply list_elem_of_bind in Hr as (x & (y & -> & Hy)%list_elem_of_fmap & Hx). apply Hboth; [by apply (IHa la x)|by apply (IHb lb y)].
Qed.

Lemma filters_countable e : ∀ recipes r, filters defs name e = Ok recipes → r ∈ recipes → countable (r_node r).
Proof using All.
  apply (filters_ind (λ r, countable (r_node r))).
  - intros path op values recipes r El Hr.
    destruct (leaf_inv f defs name rows Hf path op values recipes r El Hr) as (b & rest & d & node & plan & covered & _ & _ & Hu & Hc & E & -> & _).
    by eapply leaf_countable.
  - intros path l r0 El Hr0 _.
    destruct (leaf_inv f defs name rows Hf path CGt [Missing] l r0 El Hr0) as (b & rest & d & node & plan & covered & _ & _ & Hu & _ & E & <- & _).
    unfold leaf_node in E. destruct (literal_key d b); [cbn [rbind] in E|done]. destruct (encode_equality b); [cbn [rbind] in E|done].
    injection E as En _ _. unfold open_upper. rewrite <-En. cbn [r_node]. destruct (scalar_path path) eqn:Es; [|done]. by apply (once_scalar d path).
  - done.
  - done.
Qed.

Lemma filters_nodes e : ∀ recipes r, filters defs name e = Ok recipes → r ∈ recipes → sound_node defs name (r_node r).
Proof using All.
  apply (filters_ind (λ r, sound_node defs name (r_node r))).
  - intros path op values recipes r El Hr.
    destruct (leaf_inv f defs name rows Hf path op values recipes r El Hr) as (b & rest & d & node & plan & covered & _ & _ & Hu & Hc & E & -> & _).
    by eapply leaf_sound.
  - intros path l [[] ? ? ? ?] _ _ Hs; exact Hs.
  - done.
  - done.
Qed.

(** A recipe is a plan of the indexes. *)
Definition index_plan (plan : PlanKind) : Prop :=
  match plan with FullScan | SelectiveScan | PointLookup | TopK | EarlyStop => False | _ => True end.

Lemma leaf_plan d path op first values node plan covered : leaf_node d path op first values = Ok (Some (node, plan, covered)) → index_plan plan.
Proof using.
  unfold leaf_node. destruct (literal_key d first); [cbn [rbind]|done]. destruct (encode_equality first); [cbn [rbind]|done].
  assert (Hrange : index_plan (if compound d then IndexErs else IndexRange)) by by destruct (compound d).
  destruct op; try (by intros [= _ <- _]); try (destruct first; try done); repeat case_match; try done;
    repeat match goal with |- rbind ?r _ = _ → _ => destruct r; [cbn [rbind]|done] end;
    try (destruct (join_nodes _ _); [|done]); by intros [= _ <- _].
Qed.

Lemma filters_plan e : ∀ recipes r, filters defs name e = Ok recipes → r ∈ recipes → index_plan (r_plan r).
Proof using.
  apply (filters_ind (λ r, index_plan (r_plan r))); [|by intros path l [[] ? ? ? ?]|done|done].
  intros path op values recipes r El Hr. unfold leaf in El. case_match; [injection El as <-; by apply elem_of_nil in Hr|].
  destruct (traverse _ values) as [[|b rest]|]; cbn [rbind] in El; [injection El as <-; by apply elem_of_nil in Hr| |done].
  case_match; [injection El as <-; by apply elem_of_nil in Hr|]. destruct (traverse (leaf_recipe _ _ _ _) _) as [l|] eqn:Et; [|done]. injection El as <-.
  apply list_elem_of_omap in Hr as (o & Ho & Eo). unfold id in Eo. subst o. apply traverse_ok_Forall2 in Et.
  apply list_elem_of_lookup in Ho as [i Hi]. destruct (Forall2_lookup_r _ _ _ _ _ Et Hi) as (d & _ & Ed). unfold leaf_recipe in Ed.
  case_match; [done|]. destruct (leaf_node d path op b (b :: rest)) as [[[[n plan] c]|]|] eqn:En; try done. injection Ed as <-. by eapply leaf_plan.
Qed.
End counts.

(** ** The theorems *)

(** The paths of the indexes give text in every row. *)
Definition rows_text `{TextLib} (defs : list Manifest) (name : str) (rows : gmap str (bytes * N)) : Prop :=
  ∀ d path row p fs, d ∈ eligible defs name → head (d_paths (m_definition d)) = Some path →
    rows !! row = Some p → path_values p.1 path = Ok fs → Forall text_ok fs.

(** The rows of a recipe, with their number. *)
Lemma recipe_rows `{Redb} `{TextLibOk} `{Allocator} `{FstLib, !FstLibOk} `{ReverseJson} f defs name rows e recipes r :
  file_ok f defs name rows → rows_text defs name rows → plain_expr e → filters defs name e = Ok recipes → r ∈ recipes →
  ∃ l, keys f (r_node r) = Ok l ∧ StronglySorted key_lt l ∧
    (∀ row p, rows !! row = Some p → matches p.1 e = Ok true → row ∈ l) ∧
    (r_covered r = true → ∀ row, row ∈ l → ∃ p, rows !! row = Some p ∧ matches p.1 e ≠ Ok false).
Proof.
  intros Hf Ht Hp E Hr. destruct (filters_good f defs name rows Hf Ht e recipes r E Hp Hr) as [Hs Hg].
  destruct (set_exact f defs name rows (r_node r) Hf Hs) as (l & El & Hl & Hin). exists l.
  assert (Hm : ∀ b, matches b e = matches_uncached b e) by (intros b; apply (agrees_fst b []), row_matches_agrees, slots_ok_fresh).
  split_and!; [destruct (r_node r); done|done|..].
  - intros row p Er. rewrite Hm. intros Hmt. apply Hin. exists p. split; [done|]. by apply (Hg row p Er).
  - intros Hc row (p & Er & Ha)%Hin. exists p. split; [done|]. rewrite Hm. by apply (Hg row p Er).
Qed.

Lemma recipe_count `{Redb} `{TextLibOk} `{Allocator} `{FstLib, !FstLibOk} `{ReverseJson} f defs name rows e recipes r :
  file_ok f defs name rows → filters defs name e = Ok recipes → r ∈ recipes →
  ∃ l, keys f (r_node r) = Ok l ∧ count f (r_node r) = Ok (len l).
Proof.
  intros Hf E Hr. pose proof (filters_nodes f defs name rows Hf e recipes r E Hr) as Hs. destruct (count_exact f defs name rows Hf (r_node r) Hs) as (l & El & Ec); [by eapply filters_countable|].
  exists l. split; [destruct (r_node r); done|done].
Qed.

(** C8: take any recipe that [filters] of the planner makes from the indexes of a table, for a
    predicate whose literals are text and that puts no boolean under one of the order
    operators [!=], [<], [<=], [>] and [>=] ([plain_expr]; without it the claim fails, see
    [boolean_ranges_miss]).  Running its plan does not fail; it gives, ascending
    and each once, at least the rows that match the predicate, and when the recipe says that
    it covers the predicate, no row that does not.  The recipes of [indexes/ordered.rs], which
    follow an order or a compound prefix, are not among these. *)
Theorem plans_answer `{Redb} `{TextLibOk} `{Allocator} `{FstLib, !FstLibOk} `{ReverseJson} f defs name rows e recipes r :
  file_ok f defs name rows → rows_text defs name rows → plain_expr e → filters defs name e = Ok recipes → r ∈ recipes →
  ∃ l, keys f (r_node r) = Ok l ∧ StronglySorted key_lt l ∧
    (∀ row p, rows !! row = Some p → matches p.1 e = Ok true → row ∈ l) ∧
    (r_covered r = true → ∀ row, row ∈ l → ∃ p, rows !! row = Some p ∧ matches p.1 e ≠ Ok false).
Proof. intros. by eapply recipe_rows. Qed.

(** the count taken from the indexes alone is the number of rows the plan of the
    recipe gives: no row is counted twice, however many keys it has. *)
Lemma counts_rows `{Redb} `{TextLibOk} `{Allocator} `{FstLib, !FstLibOk} `{ReverseJson} f defs name rows e recipes r :
  file_ok f defs name rows → filters defs name e = Ok recipes → r ∈ recipes →
  ∃ l, keys f (r_node r) = Ok l ∧ count f (r_node r) = Ok (len l).
Proof. intros. by eapply recipe_count. Qed.

(** What [plain_expr] leaves out: the keys of the two booleans begin with different tags,
    so the ranges of an order condition, which stay inside the tag of the literal, miss
    the other boolean though the condition holds of it; the recipe still says it covers. *)
Lemma boolean_ranges_miss `{Redb} `{TextLibOk} `{Allocator} d path row p : compound d = false →
  ∃ node, leaf_node d path CNe (VBool true) [VBool true] = Ok (Some (node, IndexUnion, true)) ∧
    ¬ answers node row p ∧ scalar (VBool false) CNe [VBool true] = Ok true.
Proof.
  intros Hc. eexists. split; [unfold leaf_node, literal_key; rewrite Hc; reflexivity|]. split; [|reflexivity].
  intros [(vs & v & k & _ & _ & _ & Hb)|(vs & v & k & _ & _ & _ & Hb)]; by rewrite no_range_empty in Hb.
Qed.

(** ** Witness *)

Module PlanDemo.
#[local] Existing Instances IndexDemo.strings generous Redb.list_redb IndexDemo.strings_ok IndexDemo.no_json.
#[local] Instance near : FstLib := λ term distance, Some (λ token, levenshtein token term <=? distance).
#[local] Instance near_ok : FstLibOk.
Proof. intros term distance automaton token. by intros [= <-]. Qed.

Definition words : Manifest :=
  {| m_id := 1; m_definition := IndexDemo.words; m_generation := 1; m_ready := true; m_state := Active; m_orderable := false |}.
Definition t3 : Tables := refresh_dictionary IndexDemo.words IndexDemo.t2.
Definition file : gmap (N * N) Tables := {[ (1, 1) := t3 ]}.
Definition rows : gmap str (bytes * N) := <[lit "2" := (lit "red", 2)]> (<[lit "1" := (lit "red dog", 1)]> ∅).
Definition notes : str := lit "notes".
Definition dogs : Expr := EOr (ECompare IndexDemo.body CText [VString (lit "dog")]) (ECompare IndexDemo.body CText [VString (lit "red")]).
Definition recipes : list Recipe := match filters [words] notes dogs with Ok l => l | Err _ => [] end.

Lemma planned : filters [words] notes dogs = Ok recipes.
Proof. vm_compute. reflexivity. Qed.

Lemma file_good : file_ok file [words] notes rows.
Proof.
  constructor.
  - intros d Hd%list_elem_of_filter. destruct Hd as [_ ->%list_elem_of_singleton]. exists t3. split; [apply lookup_insert_eq|]. split.
    + apply isteps_ok. eapply rtc_r; [exact IndexDemo.t2_steps|]. apply is_refresh.
    + intros _. unfold t3, refresh_dictionary. by rewrite bool_decide_true.
  - intros d d' Hd%list_elem_of_filter Hd'%list_elem_of_filter. destruct Hd as [_ ->%list_elem_of_singleton], Hd' as [_ ->%list_elem_of_singleton]. done.
Qed.

Lemma text_good : rows_text [words] notes rows.
Proof.
  intros d path row p fs Hd Hp Er Ef. apply list_elem_of_filter in Hd as [_ ->%list_elem_of_singleton]. injection Hp as <-.
  unfold rows in Er. apply lookup_insert_Some in Er as [[_ <-]|[_ Er]]; [|apply lookup_insert_Some in Er as [[_ <-]|[_ Er]]; [|by rewrite lookup_empty in Er]].
  - vm_compute in Ef. injection Ef as <-. constructor; [by vm_compute|constructor].
  - vm_compute in Ef. injection Ef as <-. constructor; [by vm_compute|constructor].
Qed.

Lemma plans_answer_witness : ∃ r l, r ∈ recipes ∧ keys file (r_node r) = Ok l ∧ lit "1" ∈ l.
Proof.
  destruct recipes as [|r l0] eqn:Er; [by vm_compute in Er|]. exists r.
  destruct (plans_answer file [words] notes rows dogs recipes r file_good text_good) as (l & El & _ & Hl & _).
  - split; (split; [constructor; [by vm_compute|constructor]|done]).
  - exact planned.
  - rewrite Er. left.
  - exists l. split_and!; [left|exact El|]. apply (Hl (lit "1") (lit "red dog", 1)); [by vm_compute|by vm_compute].
Defined.

Lemma counts_rows_example : ∃ r l, r ∈ recipes ∧ keys file (r_node r) = Ok l ∧ count file (r_node r) = Ok (len l).
Proof.
  destruct recipes as [|r l0] eqn:Er; [by vm_compute in Er|]. exists r.
  destruct (counts_rows file [words] notes rows dogs recipes r file_good planned) as (l & El & Ec); [rewrite Er; left|].
  exists l. by split_and!; [left|..].
Defined.
End PlanDemo.
