(* ===== verification/Marker.v ===== *)
(** * Replacing the files of a database ([migration/encrypted/marker.rs])

    A migration writes the new files of a database next to the old ones, decides by making
    one file, and swaps them; whatever stops it, the next opening settles it ([recover]).

    The file system is a map from names (a folder and a name in it) to files and folders.
    Every call that changes it has a fate: it works, it fails, or the process dies in it;
    a call that is not one step of the system (removing a folder, writing a file) may then
    leave something in between.  The locks of a process that died are free.  A name keeps
    what a call gave it: the flushes of folders, which make that so, are left out, as is the
    wait for other programs on Windows.  Looking whether a name exists does not fail. *)
From S2P Require Import Prelude Redb.
From stdpp Require Import gmap.
Local Open Scope N_scope.

(** ** Files *)

Inductive FsNode :=
| File (b : bytes)
| Folder (children : list (str * FsNode)).

Abbreviation path := (str * str)%type.

Record Fs := { nodes : gmap path FsNode; locked : gset path; calls : nat }.

(** What happens to a call; what it may leave when it is not done in one step. *)
Inductive Fate := Works | Fails (left_over : option FsNode) | Dies (left_over : option FsNode).

Inductive outcome (A : Type) := Returned (a : A) | Raised (e : ClError) | Died.
Arguments Returned {A} a.
Arguments Raised {A} e.
Arguments Died {A}.

Definition MM (A : Type) : Type := Fs → Fs * outcome A.

#[global] Instance MM_ret : MRet MM := λ A a s, (s, Returned a).
#[global] Instance MM_bind : MBind MM := λ A B k m s,
  match m s with
  | (s', Returned a) => k a s'
  | (s', Raised e) => (s', Raised e)
  | (s', Died) => (s', Died)
  end.

Definition mm_lift {A} (r : result A) : MM A := λ s, (s, match r with Ok a => Returned a | Err e => Raised e end).
Definition raise {A} (e : ClError) : MM A := mm_lift (Err e).
(** The error of a call as a value; a process that died has none. *)
Definition attempt {A} (m : MM A) : MM (result A) := λ s,
  match m s with
  | (s', Returned a) => (s', Returned (Ok a))
  | (s', Raised e) => (s', Returned (Err e))
  | (s', Died) => (s', Died)
  end.
Fixpoint each {A} (f : A → MM ()) (l : list A) : MM () :=
  match l with [] => mret () | a :: l' => f a ;; each f l' end.

(** The process that had the locks is gone. *)
Definition restart (s : Fs) : Fs := {| nodes := nodes s; locked := ∅; calls := calls s |}.

(** The errors of the system that the code tells apart. *)
Definition already_exists : ClError := IoError (lit "entity already exists").
Definition not_found : ClError := IoError (lit "entity not found").
Definition io_error : ClError := IoError (lit "input/output error").

(** The random bytes a file is overwritten with. *)
Class Noise := noise : N → bytes.

Section files.
Context (fate : nat → Fate).

Definition there (p : path) : MM bool := λ s, (s, Returned (bool_decide (is_Some (nodes s !! p)))).
Definition put_node (p : path) (n : option FsNode) (s : Fs) : Fs :=
  {| nodes := partial_alter (λ _, n) p (nodes s); locked := locked s; calls := calls s |}.

(** A call: [work] is what it does, [halfway] what one cut short has done. *)
Definition call {A} (work : Fs → Fs * outcome A) (halfway : option FsNode → Fs → Fs) : MM A := λ s,
  let s' := {| nodes := nodes s; locked := locked s; calls := S (calls s) |} in
  match fate (calls s) with
  | Works => work s'
  | Fails x => (halfway x s', Raised io_error)
  | Dies x => (halfway x s', Died)
  end.
Definition at_once (_ : option FsNode) (s : Fs) : Fs := s.

Definition fs_rename (from to : path) : MM () :=
  call (λ s,
    match nodes s !! from, nodes s !! to with
    | None, _ => (s, Raised not_found)
    | Some (File b), Some (Folder _) => (s, Raised io_error)
    | Some (Folder _), Some (File _) => (s, Raised io_error)
    | Some (Folder _), Some (Folder (_ :: _)) => (s, Raised io_error)
    | Some n, _ =>
        ({| nodes := <[to := n]> (delete from (nodes s));
            locked := if bool_decide (from ∈ locked s) then {[ to ]} ∪ locked s ∖ {[ from ]} else locked s ∖ {[ to ]};
            calls := calls s |}, Returned ())
    end) at_once.

(** A file is removed at once; a folder, child by child. *)
Definition remove_any (p : path) : MM () :=
  call (λ s, ({| nodes := delete p (nodes s); locked := locked s ∖ {[ p ]}; calls := calls s |}, Returned ()))
       (λ x s, match nodes s !! p, x with Some (Folder _), Some (Folder es) => put_node p (Some (Folder es)) s | _, _ => s end).

(** [OpenOptions::create_new], then [write_all]: an error in between leaves a file with
    any bytes. *)
Definition create_new (p : path) : MM () :=
  call (λ s, match nodes s !! p with Some _ => (s, Raised already_exists) | None => (put_node p (Some (File [])) s, Returned ()) end) at_once.
Definition write_all (p : path) (b : bytes) : MM () :=
  call (λ s, (put_node p (Some (File b)) s, Returned ()))
       (λ x s, match x with Some (File b) => put_node p (Some (File b)) s | _ => s end).
Definition sync_all : MM () := call (λ s, (s, Returned ())) at_once.

(** Both names are the one file, with its lock. *)
Definition hard_link (from to : path) : MM () :=
  call (λ s,
    match nodes s !! from, nodes s !! to with
    | None, _ => (s, Raised not_found)
    | _, Some _ => (s, Raised already_exists)
    | Some n, None =>
        ({| nodes := <[to := n]> (nodes s);
            locked := if bool_decide (from ∈ locked s) then {[ to ]} ∪ locked s else locked s; calls := calls s |}, Returned ())
    end) at_once.

Definition read_to_end (p : path) : MM bytes :=
  call (λ s, (s, match nodes s !! p with Some (File b) => Returned b | Some (Folder _) => Raised io_error | None => Raised not_found end)) at_once.
Definition open_file (p : path) : MM () :=
  call (λ s, (s, if bool_decide (is_Some (nodes s !! p)) then Returned () else Raised not_found)) at_once.

Definition in_use (p : path) : ClError := DatabaseInUse (p.1 ++ lit "/" ++ p.2).
Definition lock_or_busy (p : path) : MM () :=
  call (λ s, if bool_decide (p ∈ locked s) then (s, Raised (in_use p))
             else ({| nodes := nodes s; locked := {[ p ]} ∪ locked s; calls := calls s |}, Returned ())) at_once.
(** The file that has the lock is closed. *)
Definition unlock (p : path) : MM () := λ s, ({| nodes := nodes s; locked := locked s ∖ {[ p ]}; calls := calls s |}, Returned ()).

Context `{Noise}.

Fixpoint wipe_node (n : FsNode) : FsNode :=
  match n with
  | File b => File (noise (len b))
  | Folder es => Folder (map (λ e, (e.1, wipe_node e.2)) es)
  end.
Definition wipe_path (p : path) : MM () :=
  call (λ s, match nodes s !! p with
             | Some n => (put_node p (Some (wipe_node n)) s, Returned ())
             | None => (s, Raised not_found)
             end)
       (λ x s, match nodes s !! p, x with Some _, Some n => put_node p (Some n) s | _, _ => s end).
End files.

(** ** Migrations *)

Definition NEW_SUFFIX : str := lit ".mig-new".
Definition OLD_SUFFIX : str := lit ".mig-old".
Definition INTENT_SUFFIX : str := lit ".migrating".
Definition COMMIT_SUFFIX : str := lit ".migrating.commit".

Inductive Root := Main | Backup.
#[global] Instance Root_eq_dec : EqDecision Root.
Proof. solve_decision. Defined.

Record Target := { t_root : Root; t_name : str; replace : bool; existed : bool }.
#[global] Instance Target_eq_dec : EqDecision Target.
Proof. solve_decision. Defined.
Record Intent := { i_version : N; i_targets : list Target; i_wipe : bool }.
Inductive Recovery := Nothing | RolledBack | RolledForward.

(** The two folders. *)
Record Places := { main : str; backup : str }.
Record Migration := { places : Places; db_name : str; targets : list Target; wipe : bool }.

Definition bad (why : str) : ClError := MigrationError why.
Definition unknown_state : ClError := bad (lit "the files of the migration are in a state this version does not know").

Definition name_ok (n : str) : bool :=
  negb (bool_decide (n = []) || bool_decide (n = lit ".") || bool_decide (n = lit "..")
        || existsb (λ b, bool_decide (b = Byte.x2f) || bool_decide (b = Byte.x5c)) n
        || bool_decide (NEW_SUFFIX `suffix_of` n) || bool_decide (OLD_SUFFIX `suffix_of` n)).
Definition check_targets (ts : list Target) : result () :=
  if negb (forallb (λ t, name_ok (t_name t)) ts) then Err (bad (lit "a file name of the migration is not valid"))
  else if bool_decide (NoDup ((λ t, (t_root t, t_name t)) <$> ts)) then Ok ()
  else Err (bad (lit "a file is listed twice in the migration")).

Definition intent_path (p : Places) (db : str) : path := (main p, db ++ INTENT_SUFFIX).
Definition commit_path (p : Places) (db : str) : path := (main p, db ++ COMMIT_SUFFIX).
Definition begin_path (p : Places) (db : str) : path := (main p, db ++ INTENT_SUFFIX ++ lit ".begin").
Definition target_path (p : Places) (t : Target) (suffix : str) : path :=
  (match t_root t with Main => main p | Backup => backup p end, t_name t ++ suffix).

Definition new_path (m : Migration) (t : Target) : path := target_path (places m) t NEW_SUFFIX.

Section migration.
Context `{Noise, Serde Intent} (fate : nat → Fate).

Definition any_there (l : list path) : MM bool := λ s, (s, Returned (existsb (λ p, bool_decide (is_Some (nodes s !! p))) l)).

(** The marker under its temporary name, then under its own. *)
Definition make_marker (temporary path : path) (b : bytes) : MM () :=
  lock_or_busy fate temporary ;;
  write_all fate temporary b ;;
  sync_all fate ;;
  linked ← attempt (hard_link fate temporary path);
  match linked with
  | Ok _ => mret ()
  | Err e =>
      if bool_decide (e = already_exists) then raise (bad (lit "a migration of this database is under way"))
      else (found ← there path; if (found : bool) then raise e else fs_rename fate temporary path)
  end.

Definition begin_with (p : Places) (db : str) (ts : list Target) (wipe : bool) : MM Migration :=
  mm_lift (check_targets ts) ;;
  taken ← any_there ([intent_path p db; begin_path p db; commit_path p db]
                     ++ (ts ≫= λ t, [target_path p t NEW_SUFFIX; target_path p t OLD_SUFFIX]));
  if (taken : bool) then raise (bad (lit "a migration of this database is under way or was cut short: open the database to finish it"))
  else
    existing ← (λ s, (s, Returned ((λ t, bool_decide (is_Some (nodes s !! target_path p t []))) <$> ts)));
    let ts := zip_with (λ t e, {| t_root := t_root t; t_name := t_name t; replace := replace t; existed := e |}) ts existing in
    create_new fate (begin_path p db) ;;
    made ← attempt (make_marker (begin_path p db) (intent_path p db) (ser {| i_version := 1; i_targets := ts; i_wipe := wipe |}));
    _ ← attempt (remove_any fate (begin_path p db));
    match made with
    | Err e => unlock (begin_path p db) ;; raise e
    | Ok _ => mret {| places := p; db_name := db; targets := ts; wipe := wipe |}
    end.

Section of_migration.
Context (m : Migration).
Let p := places m.

Definition commit : MM () :=
  missing ← (λ s, (s, Returned (existsb (λ t, replace t && negb (bool_decide (is_Some (nodes s !! new_path m t)))) (targets m))));
  if (missing : bool) then raise (bad (lit "a new file is missing: nothing was committed"))
  else create_new fate (commit_path p (db_name m)) ;; write_all fate (commit_path p (db_name m)) (lit "1") ;; sync_all fate.

Definition aside (t : Target) : MM () :=
  let file := target_path p t [] in
  let old := target_path p t OLD_SUFFIX in
  new ← there (target_path p t NEW_SUFFIX);
  f ← there file;
  o ← there old;
  if ((negb (replace t) || new) && f && negb o : bool) then fs_rename fate file old else mret ().

Definition place (t : Target) : MM () :=
  if negb (replace t) then mret ()
  else
    let file := target_path p t [] in
    let new := target_path p t NEW_SUFFIX in
    n ← there new;
    f ← there file;
    if (n && negb f : bool) then fs_rename fate new file else mret ().

(** The states of a target that the steps can produce. *)
Definition check_state (t : Target) : MM () :=
  f ← there (target_path p t []);
  n ← there (target_path p t NEW_SUFFIX);
  o ← there (target_path p t OLD_SUFFIX);
  if (f && n && o || replace t && negb f && negb n : bool) then raise unknown_state else mret ().

Definition swap : MM () := each check_state (targets m) ;; each (λ t, aside t ;; place t) (targets m).

Definition wipe_old (t : Target) : MM () :=
  o ← there (target_path p t OLD_SUFFIX);
  if (o : bool) then wipe_path fate (target_path p t OLD_SUFFIX) else mret ().

Definition remove_old (t : Target) : MM () :=
  o ← there (target_path p t OLD_SUFFIX);
  if (o : bool) then
    (if wipe m then wipe_old t else mret ()) ;; remove_any fate (target_path p t OLD_SUFFIX)
  else mret ().

Definition remove_intent : MM () := remove_any fate (intent_path p (db_name m)).
Definition remove_commit : MM () := remove_any fate (commit_path p (db_name m)).

Definition finish : MM () := each remove_old (targets m) ;; remove_intent ;; remove_commit.

(** The target as it was before the migration. *)
Definition restore (t : Target) : MM () :=
  let file := target_path p t [] in
  let old := target_path p t OLD_SUFFIX in
  (if negb (existed t) then remove_any fate file
   else (o ← there old; if (o : bool) then remove_any fate file ;; fs_rename fate old file else mret ())) ;;
  remove_any fate (target_path p t NEW_SUFFIX) ;;
  remove_any fate (target_path p t (NEW_SUFFIX ++ lit ".creating")).

Definition roll_back : MM () := remove_commit ;; each restore (targets m) ;; remove_intent.
End of_migration.

(** Nothing is changed, so that several databases can be asked before one is settled. *)
Definition check_free (p : Places) (db : str) : MM () :=
  each (λ path,
    opened ← attempt (open_file fate path);
    match opened with Ok _ => lock_or_busy fate path ;; unlock path | Err _ => mret () end)
    [begin_path p db; intent_path p db].

Definition recover (p : Places) (db : str) : MM Recovery :=
  opened ← attempt (open_file fate (begin_path p db));
  match opened with
  | Ok _ => lock_or_busy fate (begin_path p db) ;; unlock (begin_path p db) ;; attempt (remove_any fate (begin_path p db)) ;; mret ()
  | Err _ => mret ()
  end ;;
  has_intent ← there (intent_path p db);
  has_commit ← there (commit_path p db);
  if negb has_intent then
    if (has_commit : bool) then remove_any fate (commit_path p db) ;; mret RolledForward else mret Nothing
  else
    opened ← attempt (open_file fate (intent_path p db));
    match opened with
    | Err e => if bool_decide (e = not_found) then mret Nothing else raise e
    | Ok _ =>
        lock_or_busy fate (intent_path p db) ;;
        settled ← attempt (
          text ← read_to_end fate (intent_path p db);
          intent ← mm_lift (ok_or (de text) (bad (lit "the marker of an unfinished migration cannot be read")));
          (if negb (i_version intent =? 1) then raise (bad (lit "the marker of an unfinished migration is of a newer version")) else mret ()) ;;
          mm_lift (check_targets (i_targets intent)) ;;
          let m := {| places := p; db_name := db; targets := i_targets intent; wipe := i_wipe intent |} in
          if (has_commit : bool) then swap m ;; finish m ;; mret RolledForward
          else roll_back m ;; mret RolledBack);
        unlock (intent_path p db) ;;
        mm_lift settled
    end.

(** ** The change of a whole database ([ChangeProtection::execute], [undo])

    What writes the new files and what looks at the files in place are arguments. *)

Definition creating_of (base : path) : path := (base.1, base.2 ++ NEW_SUFFIX ++ lit ".creating").

Definition undo (m : Migration) : MM () :=
  _ ← attempt (roll_back m);
  each (λ base, _ ← attempt (remove_any fate (creating_of base)); mret ())
    [(main (places m), db_name m ++ lit ".cldb"); (backup (places m), db_name m ++ lit ".cldb.bak")].

Definition execute {A} (p : Places) (db : str) (ts : list Target) (wipe : bool)
    (write_new_files : Migration → MM A) (check_in_place : MM ()) : MM A :=
  m ← begin_with p db ts wipe;
  done ← attempt (
    made ← attempt (write_new_files m);
    match made with
    | Err e => undo m ;; raise e
    | Ok report =>
        placed ← attempt (commit m ;; swap m ;; check_in_place);
        match placed with
        | Err e => undo m ;; raise e
        | Ok _ =>
            finished ← attempt (finish m);
            match finished with
            | Err e => raise (bad (lit "the database was changed, but cleaning up failed: open it to finish"))
            | Ok _ => mret report
            end
        end
    end);
  unlock (intent_path p db) ;;
  mm_lift done.
End migration.
