(* ===== verification/MarkerSpec.v ===== *)
(** * What the steps of a migration keep

    Triples for computations over the file system, with one predicate for the states an
    error or the end of the process leaves; the states a target passes through
    ([waiting], [swapping], [placed], [restorable], [restored]); and the steps of
    [Marker] between them, target by target. *)
From S2P Require Import Prelude Redb Marker.
From stdpp Require Import gmap.
Local Open Scope N_scope.

(** ** Triples *)

Section triples.
(** What is known when a computation does not return: that some call did not work. *)
Context (faulty : Prop).

Definition spec {A} (P : Fs → Prop) (m : MM A) (Q : A → Fs → Prop) (I : Fs → Prop) : Prop :=
  ∀ s, P s → match m s with (s', Returned a) => Q a s' | (s', _) => I s' ∧ faulty end.

Lemma spec_ret {A} (a : A) P Q I : (∀ s, P s → Q a s) → spec P (mret a) Q I.
Proof. intros HPQ s Hs. by apply HPQ. Qed.

Lemma spec_bind {A B} (m : MM A) (k : A → MM B) P R Q I :
  spec P m R I → (∀ a, spec (R a) (k a) Q I) → spec P (m ≫= k) Q I.
Proof.
  intros Hm Hk s Hs. specialize (Hm s Hs). unfold mbind, MM_bind. destruct (m s) as [s' [a|e|]]; [|done..]. by apply (Hk a).
Qed.

Lemma spec_mono {A} (m : MM A) P P' Q Q' I I' : spec P' m Q' I' → (∀ s, P s → P' s) → (∀ a s, Q' a s → Q a s) → (∀ s, I' s → I s) → spec P m Q I.
Proof.
  intros Hm HP HQ HI s Hs. specialize (Hm s (HP s Hs)). destruct (m s) as [s' [a|e|]]; [by apply HQ|..]; destruct Hm as [Hi ?]; split; auto.
Qed.

Lemma spec_attempt {A} (m : MM A) P Q I :
  spec P m Q I → spec P (attempt m) (λ r s, match r with Ok a => Q a s | Err _ => I s ∧ faulty end) I.
Proof. intros Hm s Hs. specialize (Hm s Hs). unfold attempt. by destruct (m s) as [s' [a|e|]]. Qed.

Lemma spec_lift {A} (r : result A) P Q I : (∀ s, P s → match r with Ok a => Q a s | Err _ => I s ∧ faulty end) → spec P (mm_lift r) Q I.
Proof. intros Hr s Hs. specialize (Hr s Hs). unfold mm_lift. by destruct r. Qed.

Lemma spec_raise {A} e P (Q : A → Fs → Prop) I : (∀ s, P s → I s ∧ faulty) → spec P (raise e) Q I.
Proof. intros Hr. by apply spec_lift. Qed.

Lemma spec_pre {A} (m : MM A) (φ : Prop) P Q I : (φ → spec P m Q I) → spec (λ s, φ ∧ P s) m Q I.
Proof. intros Hm s [Hp Hs]. by apply Hm. Qed.

Lemma spec_ex {A X} (m : MM A) (P : X → Fs → Prop) Q I : (∀ x, spec (P x) m Q I) → spec (λ s, ∃ x, P x s) m Q I.
Proof. intros Hm s [x Hs]. by apply (Hm x). Qed.

(** A loop that takes one thing after another from [before] to [after]. *)
Lemma spec_each {A} (f : A → MM ()) (P : list A → list A → Fs → Prop) I l :
  (∀ done a todo, l = done ++ a :: todo → spec (P done (a :: todo)) (f a) (λ _, P (done ++ [a]) todo) I) →
  spec (P [] l) (each f l) (λ _, P l []) I.
Proof.
  intros Hf. assert (Hg : ∀ todo done, l = done ++ todo → spec (P done todo) (each f todo) (λ _, P l []) I).
  { intros todo. induction todo as [|a todo IH]; intros done_ E; cbn [each].
    - rewrite app_nil_r in E. subst. by apply spec_ret.
    - eapply spec_bind; [by apply Hf|]. intros []. apply IH. by rewrite <-app_assoc. }
  by apply (Hg l []).
Qed.

(** Calls, on a state known name by name. *)
Section calls.
Context (fate : nat → Fate) (Hfate : ∀ n, fate n ≠ Works → faulty).

Abbreviation names := (gmap path FsNode).
Definition are (F : names) (s : Fs) : Prop := nodes s = F.

Lemma spec_call {A} (work : Fs → Fs * outcome A) halfway P Q I :
  (∀ s, P s → match work {| nodes := nodes s; locked := locked s; calls := S (calls s) |} with
              | (s', Returned a) => Q a s' | (s', _) => I s' ∧ faulty end) →
  (∀ s x, P s → I (halfway x {| nodes := nodes s; locked := locked s; calls := S (calls s) |})) →
  spec P (call fate work halfway) Q I.
Proof.
  intros Hw Hh s Hs. unfold call. destruct (fate (calls s)) as [|x|x] eqn:E; [by apply Hw|split; [by apply Hh|]..];
    apply (Hfate (calls s)); by rewrite E.
Qed.

Lemma spec_there F q I : spec (are F) (there q) (λ b s, b = bool_decide (is_Some (F !! q)) ∧ are F s) I.
Proof. by intros s <-. Qed.

(** What [remove_any] may leave of a folder. *)
Definition partly_removed (F : names) (q : path) (s : Fs) : Prop := are F s ∨ ∃ es, (∃ es0, F !! q = Some (Folder es0)) ∧ are (<[q := Folder es]> F) s.

Lemma spec_remove F q : spec (are F) (remove_any fate q) (λ _, are (delete q F)) (partly_removed F q).
Proof.
  apply spec_call; [by intros s <-|]. intros s x <-. cbn [nodes].
  destruct (nodes s !! q) as [[b|es]|] eqn:Eq; [by left| |by left]. destruct x as [[b|es']|]; [by left| |by left].
  right. exists es'. split; [by exists es|]. unfold are, put_node. cbn [nodes]. done.
Qed.

Lemma spec_rename F from to n : F !! from = Some n → F !! to = None →
  spec (are F) (fs_rename fate from to) (λ _, are (<[to := n]> (delete from F))) (are F).
Proof. intros Hf Ht. apply spec_call; [|by intros s x E]. intros s E. unfold are in E. subst F. cbn [nodes]. rewrite Hf, Ht. by destruct n. Qed.

Lemma spec_create F q : F !! q = None → spec (are F) (create_new fate q) (λ _, are (<[q := File []]> F)) (are F).
Proof. intros Hq. apply spec_call; [|by intros s x E]. intros s E. unfold are in E. subst F. cbn [nodes]. by rewrite Hq. Qed.

Lemma spec_write F q b : spec (are F) (write_all fate q b) (λ _, are (<[q := File b]> F)) (λ s, are F s ∨ ∃ b', are (<[q := File b']> F) s).
Proof.
  apply spec_call; intros s; [by intros <-|]. intros [[b'|]|] E; unfold are in E; subst F; [right; by exists b'|by left..].
Qed.

Lemma spec_sync F : spec (are F) (sync_all fate) (λ _, are F) (are F).
Proof. apply spec_call; by intros s. Qed.

Lemma spec_wipe `{Noise} F q n : F !! q = Some n →
  spec (are F) (wipe_path fate q) (λ _ s, ∃ n', are (<[q := n']> F) s) (λ s, are F s ∨ ∃ n', are (<[q := n']> F) s).
Proof.
  intros Hq. apply spec_call; intros s; [|intros x]; intros E; unfold are in E; subst F; cbn [nodes]; rewrite Hq; [by eexists|].
  destruct x as [n'|]; [right; by exists n'|by left].
Qed.
End calls.
End triples.

(** ** One target *)

(** The four names of a target, and what is under them. *)
Inductive Slot := SFile | SNew | SOld | SCreating.
Definition suffix (i : Slot) : str :=
  match i with SFile => [] | SNew => NEW_SUFFIX | SOld => OLD_SUFFIX | SCreating => NEW_SUFFIX ++ lit ".creating" end.
Definition slot (p : Places) (t : Target) (i : Slot) : path := target_path p t (suffix i).
Definition slots (p : Places) (t : Target) : list path := slot p t <$> [SFile; SNew; SOld; SCreating].

Record View := { v_file : option FsNode; v_new : option FsNode; v_old : option FsNode; v_creating : option FsNode }.
Definition view (p : Places) (t : Target) (F : gmap path FsNode) : View :=
  {| v_file := F !! slot p t SFile; v_new := F !! slot p t SNew; v_old := F !! slot p t SOld; v_creating := F !! slot p t SCreating |}.
Definition vget (i : Slot) (v : View) : option FsNode :=
  match i with SFile => v_file v | SNew => v_new v | SOld => v_old v | SCreating => v_creating v end.
Definition vset (i : Slot) (x : option FsNode) (v : View) : View :=
  match i with
  | SFile => {| v_file := x; v_new := v_new v; v_old := v_old v; v_creating := v_creating v |}
  | SNew => {| v_file := v_file v; v_new := x; v_old := v_old v; v_creating := v_creating v |}
  | SOld => {| v_file := v_file v; v_new := v_new v; v_old := x; v_creating := v_creating v |}
  | SCreating => {| v_file := v_file v; v_new := v_new v; v_old := v_old v; v_creating := x |}
  end.

Lemma slot_inj p t i j : slot p t i = slot p t j → i = j.
Proof. intros [= E]. apply app_inv_head in E. by destruct i, j. Qed.

Lemma slot_in p t i : slot p t i ∈ slots p t.
Proof. apply list_elem_of_fmap. exists i. split; [done|]. destruct i; set_solver. Qed.

Lemma view_get p t F i : F !! slot p t i = vget i (view p t F).
Proof. by destruct i. Qed.

Lemma view_insert p t F i n : view p t (<[slot p t i := n]> F) = vset i (Some n) (view p t F).
Proof.
  unfold view. destruct i; cbn [vset]; f_equal; try apply lookup_insert_eq; apply lookup_insert_ne; by intros ?%slot_inj.
Qed.
Lemma view_delete p t F i : view p t (delete (slot p t i) F) = vset i None (view p t F).
Proof.
  unfold view. destruct i; cbn [vset]; f_equal; try apply lookup_delete_eq; apply lookup_delete_ne; by intros ?%slot_inj.
Qed.

(** The states of a target: [before] is what its name held before the migration (nothing
    when it was not there), [fresh] what was written for it. *)
Section states.
Context (before fresh : Target → option FsNode).

(** The migration has begun: everything is as it was, but for the new file. *)
Definition restorable (t : Target) (v : View) : Prop :=
  (v_old v = before t ∧ is_Some (before t)) ∨ (v_old v = None ∧ (is_Some (before t) → v_file v = before t)).
Definition restored (t : Target) (v : View) : Prop := v = {| v_file := before t; v_new := None; v_old := None; v_creating := None |}.

(** The new file is whole: waiting; the old one moved aside; in place. *)
Definition final (t : Target) : option FsNode := if replace t then fresh t else None.
Definition swapping (t : Target) (v : View) : Prop :=
  v_creating v = None ∧
  ((v_new v = final t ∧ v_file v = before t ∧ v_old v = None) ∨
   (v_new v = final t ∧ v_file v = None ∧ v_old v = before t) ∨
   (v_new v = None ∧ v_file v = final t ∧ v_old v = before t)).

(** The new file is in place; the old one may be gone, or be going. *)
Definition placed (t : Target) (v : View) : Prop := v_creating v = None ∧ v_new v = None ∧ v_file v = final t.
Definition settled (t : Target) (v : View) : Prop := v = {| v_file := final t; v_new := None; v_old := None; v_creating := None |}.
End states.

Section one.
Context `{Noise, Serde Intent} (faulty : Prop) (fate : nat → Fate) (Hfate : ∀ n, fate n ≠ Works → faulty).
Context (m : Migration) (before fresh : Target → option FsNode).
Let p := places m.

Definition touches (t : Target) (F F' : gmap path FsNode) : Prop := ∀ q, q ∉ slots p t → F' !! q = F !! q.

(** A step that only has to do with one target. *)
Definition local (step : MM ()) (t : Target) (V V' E : View → Prop) : Prop :=
  ∀ F, V (view p t F) → spec faulty (are F) step (λ _ s, touches t F (nodes s) ∧ V' (view p t (nodes s)))
                                              (λ s, touches t F (nodes s) ∧ E (view p t (nodes s))).

Lemma local_seq m1 m2 t V R V' E : local m1 t V R E → local m2 t R V' E → local (m1 ;; m2) t V V' E.
Proof.
  intros H1 H2 F HV. eapply spec_bind; [by apply H1|]. intros [] s [Ht HR]. pose proof (H2 _ HR s eq_refl) as Hs.
  assert (Htr : ∀ F', touches t (nodes s) F' → touches t F F') by (intros F' Hs' q Hq; by rewrite Hs', Ht).
  destruct (m2 s) as [s' [[]|e|]]; destruct Hs as [[Hs1 Hs2] Hs3] || destruct Hs as [Hs1 Hs2]; split_and!; auto.
Qed.

Lemma local_mono step t V V1 V' V1' E E1 : local step t V1 V1' E1 → (∀ v, V v → V1 v) → (∀ v, V1' v → V' v) → (∀ v, E1 v → E v) → local step t V V' E.
Proof.
  intros Hl HV HV' HE F HF. eapply spec_mono; [apply Hl; by apply HV|done|..]; cbn; [intros [] s [? ?]|intros s [? ?]]; split; auto.
Qed.

Lemma local_skip t (V V' E : View → Prop) : (∀ v, V v → V' v) → local (mret ()) t V V' E.
Proof. intros HV F HF s Hs. unfold are in Hs. subst F. split; [done|by apply HV]. Qed.

(** A step that looks at a name first. *)
Lemma local_look i k t (V V' E : View → Prop) :
  (∀ x, local (k (bool_decide (is_Some x))) t (λ v, V v ∧ vget i v = x) V' E) → local (b ← there (slot p t i); k b) t V V' E.
Proof.
  intros Hk F HF. eapply spec_bind; [apply spec_there|]. intros b s [-> Hs]. rewrite view_get. by apply (Hk _ F).
Qed.

Lemma local_remove i t (V V' E : View → Prop) : (∀ v, V v → V' (vset i None v)) →
  (∀ v, V v → E v ∧ ∀ es, is_Some (vget i v) → E (vset i (Some (Folder es)) v)) → local (remove_any fate (slot p t i)) t V V' E.
Proof.
  intros HV HE F HF. assert (Hn : ∀ q, q ∉ slots p t → slot p t i ≠ q) by (intros q Hq <-; apply Hq, slot_in).
  eapply spec_mono; [by apply (spec_remove faulty fate Hfate F)|done|..]; cbn.
  - intros [] s Hs. unfold are in Hs. rewrite Hs, view_delete. split; [|by apply HV]. intros q Hq. apply lookup_delete_ne. by apply Hn.
  - intros s [Hs|(es & (es0 & Hes) & Hs)]; unfold are in Hs; rewrite Hs; [split; [done|by apply HE]|]. rewrite view_insert. split.
    + intros q Hq. apply lookup_insert_ne. by apply Hn.
    + apply HE; [done|]. rewrite <-view_get. by eexists.
Qed.

Lemma local_rename i j t (V V' E : View → Prop) : i ≠ j →
  (∀ v, V v → E v ∧ vget j v = None ∧ ∃ n, vget i v = Some n ∧ V' (vset j (Some n) (vset i None v))) →
  local (fs_rename fate (slot p t i) (slot p t j)) t V V' E.
Proof.
  intros Hij HV F HF. destruct (HV _ HF) as (HE & Hj & n & Hi & Hv'). rewrite <-view_get in Hi, Hj.
  assert (Hn : ∀ i q, q ∉ slots p t → slot p t i ≠ q) by (intros i' q Hq <-; apply Hq, slot_in).
  eapply spec_mono; [by apply (spec_rename faulty fate Hfate F _ _ n)|done|..]; cbn.
  - intros [] s Hs. unfold are in Hs. rewrite Hs, view_insert, view_delete. split; [|done].
    intros q Hq. rewrite lookup_insert_ne, lookup_delete_ne by (by apply Hn). done.
  - intros s Hs. unfold are in Hs. rewrite Hs. done.
Qed.

(** *** The swap *)

Context (t : Target) (Hnew : replace t = true → is_Some (fresh t)).

Abbreviation swapping_ := (swapping before fresh t).
Abbreviation placed_ := (placed fresh t).

Lemma local_aside : local (aside fate m t) t swapping_ (λ v, swapping_ v ∧ (v_file v = None ∨ placed_ v)) swapping_.
Proof using Type*.
  apply (local_look SNew); intros xn. apply (local_look SFile); intros xf. apply (local_look SOld); intros xo.
  destruct ((negb (replace t) || _) && _ && _) eqn:Ec.
  - apply (local_rename SFile SOld); [done|]. intros v [[[Hv <-] <-] <-]. cbn [vget] in *.
    rewrite !andb_true_iff, orb_true_iff, negb_true_iff, !bool_decide_eq_true in Ec. destruct Ec as [[Hw [f Ef]] Eo%negb_true_iff%bool_decide_eq_false].
    apply eq_None_not_Some in Eo. split; [done|]. split; [done|]. exists f. split; [done|]. destruct v as [f' n o c]. cbn in *. subst.
    destruct Hv as [Hc Hv]. cbn in *. subst c. split; [|by left]. split; [done|]. right; left. cbn.
    destruct Hv as [(-> & -> & _)|[(_ & Hn & _)|(-> & Ef & <-)]]; [done..|]. exfalso. unfold final in Ef.
    destruct (replace t); [|done]. destruct Hw as [|[? ?]]; done.
  - apply local_skip. intros v [[[Hv <-] <-] <-]. cbn [vget] in *. split; [done|]. destruct v as [f n o c]. cbn in *.
    destruct f as [f|]; [right|by left]. unfold placed, final in *. cbn. unfold final in *.
    destruct Hv as [Hc Hv]. cbn in *. subst c. destruct Hv as [(-> & Ef & ->)|[(_ & ? & _)|(-> & -> & ->)]]; [|done..]. cbn in *. exfalso. unfold final in Ec. destruct (replace t); cbn in Ec; [|done].
    destruct (Hnew eq_refl) as [w Ew]. rewrite Ew in Ec. done.
Qed.

Lemma local_place : local (place fate m t) t (λ v, swapping_ v ∧ (v_file v = None ∨ placed_ v)) (λ v, swapping_ v ∧ placed_ v) swapping_.
Proof using Type*.
  unfold place. destruct (negb (replace t)) eqn:Er; [apply negb_true_iff in Er|apply negb_false_iff in Er].
  - apply local_skip. intros v [Hv [Hf|Hp]]; [|done]. split; [done|]. unfold placed. destruct Hv as [Hc Hv]. rewrite Hc, Hf. unfold final in *. rewrite Er in *.
    by destruct Hv as [(-> & _)|[(-> & _)|(-> & _)]].
  - apply (local_look SNew); intros xn. apply (local_look SFile); intros xf. destruct (bool_decide (is_Some xn) && _) eqn:Ec.
    + apply (local_rename SNew SFile); [done|]. intros v [[[Hv Hf] <-] <-]. cbn [vget] in *.
      rewrite andb_true_iff, negb_true_iff, bool_decide_eq_true, bool_decide_eq_false in Ec. destruct Ec as [[n En] Ef%eq_None_not_Some].
      split; [done|]. split; [done|]. exists n. split; [done|]. destruct v as [f' n' o c]. cbn in *. subst. unfold placed, swapping. cbn.
      destruct Hv as [Hc Hv]. cbn in *. subst c.
      destruct Hv as [(Hn & Hb & ->)|[(Hn & _ & ->)|(? & _)]]; [..|done]; (split; [split; [done|]; right; right|by split_and!]); by rewrite <-?Hb.
    + apply local_skip. intros v [[[Hv Hf] <-] <-]. cbn [vget] in *. split; [done|]. destruct Hf as [Hf|]; [|done]. rewrite Hf in Ec.
      rewrite andb_false_iff, bool_decide_eq_false in Ec. destruct Ec as [Ec%eq_None_not_Some|]; [|done]. split; [apply Hv|]. split; [done|].
      unfold swapping, final in *. rewrite Er in *. destruct (Hnew eq_refl) as [w Ew]. rewrite Hf.
      destruct Hv as [_ [(Hn & _)|[(Hn & _)|(_ & Hf' & _)]]]; congruence.
Qed.

Lemma local_swap : local (aside fate m t ;; place fate m t) t swapping_ (λ v, swapping_ v ∧ placed_ v) swapping_.
Proof using Type*. eapply local_seq; [apply local_aside|]. eapply local_mono; [apply local_place|done..]. Qed.

Lemma local_swapped : local (aside fate m t ;; place fate m t) t placed_ placed_ placed_.
Proof using Type*.
  apply (local_seq _ _ _ _ placed_).
  - apply (local_look SNew); intros xn. apply (local_look SFile); intros xf. apply (local_look SOld); intros xo. destruct (_ && _ && _) eqn:Ec.
    + apply (local_rename SFile SOld); [done|]. intros v [[[Hv <-] <-] <-]. cbn [vget] in *. exfalso. destruct Hv as (_ & Hn & Hf).
      rewrite Hn, Hf in Ec. unfold final in Ec. by destruct (replace t).
    + apply local_skip. by intros v [[[Hv _] _] _].
  - unfold place. destruct (negb (replace t)); [by apply local_skip|]. apply (local_look SNew); intros xn. apply (local_look SFile); intros xf.
    destruct (_ && _) eqn:Ec; [|apply local_skip; by intros v [[Hv _] _]]. apply (local_rename SNew SFile); [done|]. intros v [[Hv <-] <-].
    exfalso. cbn [vget] in *. destruct Hv as (_ & Hn & _). by rewrite Hn in Ec.
Qed.

Lemma local_check V : (∀ v, V v → swapping_ v ∨ placed_ v) → local (check_state m t) t V V V.
Proof using Type*.
  intros HV. apply (local_look SFile); intros xf. apply (local_look SNew); intros xn. apply (local_look SOld); intros xo.
  assert (Hno : ∀ v, ((V v ∧ vget SFile v = xf) ∧ vget SNew v = xn) ∧ vget SOld v = xo →
    bool_decide (is_Some xf) && bool_decide (is_Some xn) && bool_decide (is_Some xo) || replace t && negb (bool_decide (is_Some xf)) && negb (bool_decide (is_Some xn)) = false).
  { intros v [[[Hv <-] <-] <-]. apply HV in Hv. cbn [vget]. unfold swapping, placed, final in Hv.
    destruct (replace t); [destruct (Hnew eq_refl) as [w Ew]; rewrite Ew in Hv|];
      destruct Hv as [[_ [(-> & -> & ->)|[(-> & -> & ->)|(-> & -> & ->)]]]|(_ & -> & ->)]; try done; by rewrite ?andb_false_r, ?andb_true_r. }
  destruct (_ || _) eqn:Ec; [|apply local_skip; by intros v [[[Hv _] _] _]].
  intros F HF. by specialize (Hno _ HF).
Qed.

(** *** Removing what was replaced *)

Lemma local_wipe : local (wipe_old fate m t) t placed_ placed_ placed_.
Proof using Type*.
  apply (local_look SOld); intros xo. destruct (bool_decide (is_Some xo)) eqn:Eo; [|by apply local_skip; intros v [? _]].
  apply bool_decide_eq_true in Eo as [o ->]. intros F [HF Eo]. cbn [vget] in Eo.
  assert (Hout : ∀ n, touches t F (<[slot p t SOld := n]> F) ∧ placed_ (view p t (<[slot p t SOld := n]> F))).
  { intros n. split; [|by rewrite view_insert]. intros q Hq. apply lookup_insert_ne. intros <-. apply Hq, slot_in. }
  eapply spec_mono; [apply (spec_wipe faulty fate Hfate F (slot p t SOld) o); by rewrite view_get|done|..]; cbn.
  - intros [] s [n Hs]. unfold are in Hs. rewrite Hs. apply Hout.
  - intros s [Hs|[n Hs]]; unfold are in Hs; rewrite Hs; [done|apply Hout].
Qed.

Lemma local_remove_old : local (remove_old fate m t) t placed_ (settled fresh t) placed_.
Proof using Type*.
  apply (local_look SOld); intros xo. destruct (bool_decide (is_Some xo)) eqn:Eo.
  - apply (local_seq _ _ _ _ placed_).
    + destruct (wipe m); [eapply local_mono; [apply local_wipe|..]; try done; by intros v [? _]|by apply local_skip; intros v [? _]].
    + apply (local_remove SOld); [|by intros v Hv]. intros [f n o c] (Hc & Hn & Hf). cbn in *. by subst.
  - apply local_skip. intros [f n o c] [(Hc & Hn & Hf) Ho]. cbn in *. subst. apply bool_decide_eq_false, eq_None_not_Some in Eo. by subst.
Qed.

(** *** Putting a target back *)

Context (Hex : existed t = bool_decide (is_Some (before t))).
Abbreviation restorable_ := (restorable before t).

Lemma local_restore : local (restore fate m t) t restorable_ (restored before t) restorable_.
Proof using Type*.
  assert (Hfold : ∀ i v x, i ≠ SFile → i ≠ SOld → restorable_ v → restorable_ (vset i x v)) by (by intros []).
  apply (local_seq _ _ _ _ (λ v, v_file v = before t ∧ v_old v = None)).
  - rewrite Hex. destruct (bool_decide (is_Some (before t))) eqn:Eb; cbn [negb].
    + apply bool_decide_eq_true in Eb. apply (local_look SOld); intros xo. destruct (bool_decide (is_Some xo)) eqn:Eo.
      * apply (local_seq _ _ _ _ (λ v, v_old v = before t ∧ v_file v = None)).
        -- apply (local_remove SFile).
           ++ intros v [[[Hv _]|[Hv _]] <-]; cbn [vget] in Eo; [done|by rewrite Hv in Eo].
           ++ intros v [Hv <-]. split; [done|]. intros es _. left. destruct Hv as [[Hv _]|[Hv _]]; [done|]. cbn [vget] in Eo. by rewrite Hv in Eo.
        -- apply (local_rename SOld SFile); [done|]. intros v [Ho Hf]. split; [by left|]. split; [done|]. destruct Eb as [n Eb]. exists n.
           cbn [vget]. by rewrite Ho.
      * apply local_skip. intros v [[[Hv _]|[Ho Hv]] <-]; cbn [vget] in Eo; [by rewrite Hv, bool_decide_true in Eo|]. split; [by apply Hv|done].
    + apply bool_decide_eq_false, eq_None_not_Some in Eb. apply (local_remove SFile); unfold restorable; rewrite Eb.
      * intros v [[_ [? ?]]|[Hv _]]; done.
      * intros v Hv. split; [done|]. intros es _. destruct Hv as [[_ [? ?]]|[Hv _]]; [done|]. right. split; [done|]. by intros [? ?].
  - apply (local_seq _ _ _ _ (λ v, v_file v = before t ∧ v_old v = None ∧ v_new v = None)).
    + assert (Hr : ∀ v, v_file v = before t ∧ v_old v = None → restorable_ v) by (intros v [Hf Ho]; right; by split).
      apply (local_remove SNew); [by intros v [? ?]|]. intros v Hv. split; [by apply Hr|]. intros es _. by apply Hfold, Hr.
    + assert (Hr : ∀ v, v_file v = before t ∧ v_old v = None ∧ v_new v = None → restorable_ v) by (intros v (Hf & Ho & _); right; by split).
      apply (local_remove SCreating); [intros [f n o c] (? & ? & ?); cbn in *; by subst|]. intros v Hv. split; [by apply Hr|]. intros es _. by apply Hfold, Hr.
Qed.
End one.

(** ** All targets *)

Definition target_paths (p : Places) (ts : list Target) : list path := ts ≫= slots p.
Definition marker_paths (p : Places) (db : str) : list path := [intent_path p db; begin_path p db; commit_path p db].
(** No two files of a migration have the same name. *)
Definition separate (p : Places) (db : str) (ts : list Target) : Prop := NoDup (marker_paths p db ++ target_paths p ts).

Lemma target_paths_elem p ts t q : t ∈ ts → q ∈ slots p t → q ∈ target_paths p ts.
Proof. intros Ht Hq. apply list_elem_of_bind. by exists t. Qed.

Section all.
Context `{Noise, Serde Intent} (faulty : Prop) (fate : nat → Fate) (Hfate : ∀ n, fate n ≠ Works → faulty).
Context (m : Migration).
Let p := places m.
Let ts := targets m.
Context (Hsep : NoDup (target_paths p ts)).

Definition elsewhere (F : gmap path FsNode) (s : Fs) : Prop := ∀ q, q ∉ target_paths p ts → nodes s !! q = F !! q.
Definition views (V : Target → View → Prop) (s : Fs) : Prop := ∀ t, t ∈ ts → V t (view p t (nodes s)).

Lemma slots_apart done t todo t' q : ts = done ++ t :: todo → t' ∈ done ∨ t' ∈ todo → q ∈ slots p t' → q ∉ slots p t.
Proof using Hsep.
  intros E Ht Hq' Hq. unfold target_paths in Hsep. rewrite E, bind_app, bind_cons in Hsep.
  apply NoDup_app in Hsep as (_ & Hd & [_ [Ha _]]%NoDup_app).
  assert (Hb : ∀ l, t' ∈ l → q ∈ l ≫= slots p) by (intros l Hl; apply list_elem_of_bind; by exists t').
  destruct Ht as [Ht|Ht]; [|by apply (Ha q Hq), Hb]. apply (Hd q (Hb _ Ht)). apply elem_of_app. by left.
Qed.

Lemma each_local f (V V' E : Target → View → Prop) F :
  (∀ t, t ∈ ts → local faulty m (f t) t (V t) (V' t) (E t)) → (∀ t v, V t v → E t v) → (∀ t v, V' t v → E t v) →
  (∀ t, t ∈ ts → V t (view p t F)) →
  spec faulty (are F) (each f ts) (λ _ s, elsewhere F s ∧ views V' s) (λ s, elsewhere F s ∧ views E s).
Proof using Type*.
  intros Hf HV HV' HF.
  pose (P := λ (done todo : list Target) s, elsewhere F s ∧ (∀ t, t ∈ done → V' t (view p t (nodes s))) ∧ (∀ t, t ∈ todo → V t (view p t (nodes s)))).
  eapply spec_mono; [apply (spec_each faulty f P (λ s, elsewhere F s ∧ views E s) ts)|..].
  - intros done_ t todo Ets s (Ho & Hd & Ht). assert (Hin : t ∈ ts) by (rewrite Ets; set_solver).
    pose proof (Hf t Hin (nodes s) (Ht t ltac:(left)) s eq_refl) as Hs.
    assert (Hout : ∀ F', touches m t (nodes s) F' → ∀ q, q ∉ target_paths p ts → F' !! q = F !! q).
    { intros F' Hq q Hn. rewrite Hq; [by apply Ho|]. intros Hqs. apply Hn. by eapply target_paths_elem. }
    assert (Hother : ∀ F', touches m t (nodes s) F' → ∀ t', t' ∈ done_ ∨ t' ∈ todo → view p t' F' = view p t' (nodes s)).
    { intros F' Hq t' Ht'. unfold view. f_equal; apply Hq; eapply (slots_apart done_ t todo t'); try done; apply slot_in. }
    assert (Hfail : ∀ s', touches m t (nodes s) (nodes s') ∧ E t (view p t (nodes s')) → elsewhere F s' ∧ views E s').
    { intros s' [Hs' Hv]. split; [intros q; by apply Hout|]. intros t' Ht'. rewrite Ets, elem_of_app, elem_of_cons in Ht'.
      destruct Ht' as [Ht'|[->|Ht']]; [rewrite (Hother _ Hs') by (by left); by apply HV', Hd|done|].
      rewrite (Hother _ Hs') by (by right). apply HV, Ht. by right. }
    destruct (f t s) as [s' [[]|e|]].
    + destruct Hs as [Hs Hv]. split; [intros q; by apply Hout|]. split; intros t' Ht'.
      * apply elem_of_app in Ht' as [Ht'| ->%list_elem_of_singleton]; [|done]. rewrite (Hother _ Hs) by (by left). by apply Hd.
      * rewrite (Hother _ Hs) by (by right). apply Ht. by right.
    + destruct Hs as [Hs Hx]. split; [by apply Hfail|done].
    + destruct Hs as [Hs Hx]. split; [by apply Hfail|done].
  - intros s Hs. unfold are in Hs. subst F. split_and!; [by intros q|by intros t []%elem_of_nil|done].
  - intros [] s (Ho & Hd & _). by split.
  - done.
Qed.
End all.
