(* ===== verification/MarkerProps.v ===== *)
(** * A migration happens entirely or not at all

    The phases of a migration, told by the two markers and the states of the targets; what
    every operation and every crash does to them; and [change_or_not]: whatever stops a
    change of protection, and however often its recovery is stopped too, the recovery that
    returns leaves the old files or the new ones. *)
From S2P Require Import Prelude Redb Marker MarkerSpec.
From stdpp Require Import gmap.
Local Open Scope N_scope.

(** What the writing of the new files does: it only has to do with their names, and when it
    returns they are whole. *)
Definition writes {A : Type} (p : Places) (ts : list Target) (fresh : Target → option FsNode) (write : MM A) : Prop :=
  ∀ s, (∀ q, (∀ t, t ∈ ts → replace t = true → q ≠ slot p t SNew ∧ q ≠ slot p t SCreating) → nodes (write s).1 !! q = nodes s !! q) ∧
    ∀ a, (write s).2 = Returned a → ∀ t, t ∈ ts → replace t = true →
      nodes (write s).1 !! slot p t SNew = fresh t ∧ nodes (write s).1 !! slot p t SCreating = None.

(** What looks at the files changes none. *)
Definition looks {A : Type} (check : MM A) : Prop := ∀ s, nodes (check s).1 = nodes s.

Section phases.
Context `{Noise, Serde Intent}.
Context (p : Places) (db : str) (ts : list Target) (wp : bool) (F0 : gmap path FsNode) (fresh : Target → option FsNode).
Let m : Migration := {| places := p; db_name := db; targets := ts; wipe := wp |}.
Let before (t : Target) : option FsNode := F0 !! slot p t SFile.
Context (Hsep : separate p db ts).
Context (Hcalm : ∀ q, q ∈ marker_paths p db → F0 !! q = None) (Hviews : ∀ t, t ∈ ts → restored before t (view p t F0)).
Context (Hex : ∀ t, t ∈ ts → existed t = bool_decide (is_Some (before t))).
Context (Hnew : ∀ t, t ∈ ts → replace t = true → is_Some (fresh t)).
Context (Hck : check_targets ts = Ok ()).

Definition mark : FsNode := File (ser {| i_version := 1; i_targets := ts; i_wipe := wp |}).

(** What the names hold: the marker, whether the decision is there, and the targets. *)
Record st (i : option FsNode) (c : bool) (V : Target → View → Prop) (F : gmap path FsNode) : Prop := {
  st_outside : ∀ q, q ∉ marker_paths p db → q ∉ target_paths p ts → F !! q = F0 !! q;
  st_intent : F !! intent_path p db = i;
  st_commit : bool_decide (is_Some (F !! commit_path p db)) = c;
  st_views : ∀ t, t ∈ ts → V t (view p t F);
}.

Definition untouched := st None false (restored before).
Definition begun := st (Some mark) false (restorable before).
Definition decided := st (Some mark) true (swapping before fresh).
Definition forward := st (Some mark) true (λ t v, swapping before fresh t v ∨ placed fresh t v).
Definition leaving := st None true (settled fresh).
Definition changed := st None false (settled fresh).

Definition old_safe F := untouched F ∨ begun F.
Definition new_safe F := forward F ∨ leaving F ∨ changed F.

Lemma st_mono i c V V' F : st i c V F → (∀ t v, t ∈ ts → V t v → V' t v) → st i c V' F.
Proof using Type. intros [S1 S2 S3 S4] HV. split; auto. Qed.

Lemma markers_apart q : q ∈ marker_paths p db → q ∉ target_paths p ts.
Proof using Hsep. intros Hq. unfold separate in Hsep. apply NoDup_app in Hsep as (_ & Hd & _). by apply Hd. Qed.

Lemma markers_differ : intent_path p db ≠ begin_path p db ∧ intent_path p db ≠ commit_path p db ∧ begin_path p db ≠ commit_path p db.
Proof using Type.
  unfold intent_path, begin_path, commit_path. split_and!; intros [= E]; by apply app_inv_head in E.
Qed.

Lemma targets_nodup : NoDup (target_paths p ts).
Proof using Hsep. unfold separate in Hsep. by apply NoDup_app in Hsep as (_ & _ & ?). Qed.

Lemma slot_marker t i q : t ∈ ts → q ∈ marker_paths p db → slot p t i ≠ q.
Proof using Hsep. intros Ht Hq <-. eapply markers_apart; [done|]. eapply target_paths_elem; [done|apply slot_in]. Qed.

(** Changing one of the marker files. *)
Lemma view_marker t q x F : t ∈ ts → q ∈ marker_paths p db → view p t (partial_alter (λ _, x) q F) = view p t F.
Proof using Hsep. intros Ht Hq. unfold view. f_equal; apply lookup_partial_alter_ne; intros E; by eapply slot_marker. Qed.

Lemma st_begin x i c V F : st i c V F → st i c V (partial_alter (λ _, x) (begin_path p db) F).
Proof using Hsep.
  intros [S1 S2 S3 S4]. destruct markers_differ as (D1 & D2 & D3). split.
  - intros q Hq Ht. rewrite lookup_partial_alter_ne; [by apply S1|]. intros <-. apply Hq. by (right; left).
  - by rewrite lookup_partial_alter_ne.
  - by rewrite lookup_partial_alter_ne.
  - intros t Ht. rewrite view_marker; [by apply S4|done|]. by (right; left).
Qed.

Lemma st_set_intent x i c V F : st i c V F → st x c V (partial_alter (λ _, x) (intent_path p db) F).
Proof using Hsep.
  intros [S1 S2 S3 S4]. destruct markers_differ as (D1 & D2 & D3). split.
  - intros q Hq Ht. rewrite lookup_partial_alter_ne; [by apply S1|]. intros <-. apply Hq. left.
  - by rewrite lookup_partial_alter_eq.
  - by rewrite lookup_partial_alter_ne.
  - intros t Ht. rewrite view_marker; [by apply S4|done|]. left.
Qed.

Lemma st_set_commit x i c V F : st i c V F → st i (bool_decide (is_Some x)) V (partial_alter (λ _, x) (commit_path p db) F).
Proof using Hsep.
  intros [S1 S2 S3 S4]. destruct markers_differ as (D1 & D2 & D3). split.
  - intros q Hq Ht. rewrite lookup_partial_alter_ne; [by apply S1|]. intros <-. apply Hq. by (right; right; left).
  - by rewrite lookup_partial_alter_ne.
  - by rewrite lookup_partial_alter_eq.
  - intros t Ht. rewrite view_marker; [by apply S4|done|]. by (right; right; left).
Qed.

Lemma st_elsewhere i c V V' F s : st i c V F → elsewhere m F s → views m V' s → st i c V' (nodes s).
Proof using Hsep.
  intros [S1 S2 S3 S4] He Hv. split.
  - intros q Hq Ht. rewrite (He q Ht). by apply S1.
  - rewrite He; [done|]. apply markers_apart. left.
  - rewrite He; [done|]. apply markers_apart. by (right; right; left).
  - done.
Qed.

(** ** Operations on phases *)

Section operations.
Context (faulty : Prop) (fate : nat → Fate) (Hfate : ∀ n, fate n ≠ Works → faulty).

Definition on (S : gmap path FsNode → Prop) (s : Fs) : Prop := S (nodes s).

Lemma spec_on {A : Type} (S : gmap path FsNode → Prop) (x : MM A) Q I : (∀ F, S F → spec faulty (are F) x Q I) → spec faulty (on S) x Q I.
Proof using Type. intros Hx s Hs. by apply (Hx (nodes s)). Qed.

Lemma st_each f (V V' E : Target → View → Prop) i c :
  (∀ t, t ∈ ts → local faulty m (f t) t (V t) (V' t) (E t)) → (∀ t v, V t v → E t v) → (∀ t v, V' t v → E t v) →
  spec faulty (on (st i c V)) (each f ts) (λ _, on (st i c V')) (on (st i c E)).
Proof using Type*.
  intros Hf HV HV'. apply spec_on. intros F HF.
  eapply spec_mono; [apply (each_local faulty fate Hfate m targets_nodup f V V' E F); try done; apply HF|done|..]; cbn.
  - intros [] s [He Hv]. by apply (st_elsewhere i c V V' F).
  - intros s [He Hv]. by apply (st_elsewhere i c V E F).
Qed.

Lemma st_remove_intent x c V : (∀ es, x ≠ Some (Folder es)) →
  spec faulty (on (st x c V)) (remove_intent fate m) (λ _, on (st None c V)) (on (st x c V)).
Proof using Type*.
  intros Hx. apply spec_on. intros F HF. eapply spec_mono; [by apply (spec_remove faulty fate Hfate F)|done|..]; cbn.
  - intros [] s Hs. unfold are in Hs. unfold on. rewrite Hs. by apply (st_set_intent None x).
  - intros s [Hs|(es & (es0 & E) & _)]; [unfold are in Hs; unfold on; by rewrite Hs|]. pose proof (st_intent _ _ _ _ HF) as E'.
    exfalso. apply (Hx es0). rewrite <-E'. exact E.
Qed.

Lemma st_remove_commit i c V :
  spec faulty (on (st i c V)) (remove_any fate (commit_path p db)) (λ _, on (st i false V)) (on (st i c V)).
Proof using Type*.
  apply spec_on. intros F HF. eapply spec_mono; [by apply (spec_remove faulty fate Hfate F)|done|..]; cbn.
  - intros [] s Hs. unfold are in Hs. unfold on. rewrite Hs. apply (st_set_commit None i c V F HF).
  - intros s [Hs|(es & (es0 & E) & Hs)]; unfold are in Hs; unfold on; rewrite Hs; [done|].
    assert (c = true) as -> by (rewrite <-(st_commit _ _ _ _ HF), E; by apply bool_decide_true).
    apply (st_set_commit (Some (Folder es)) i true V F HF).
Qed.

Lemma mark_file es : Some mark ≠ Some (Folder es).
Proof using Type. done. Qed.

(** [finish]: the old files go, then the markers. *)
Lemma finish_steps : spec faulty (on (st (Some mark) true (placed fresh))) (finish fate m) (λ _, on changed) (on new_safe).
Proof using Type*.
  eapply spec_bind; [eapply spec_mono; [apply (st_each (remove_old fate m) (placed fresh) (settled fresh) (placed fresh))|done|done|]|].
  - intros t Ht. apply (local_remove_old faulty fate Hfate m fresh t); by apply Hnew.
  - done.
  - by intros t v ->.
  - intros s Hs. left. eapply st_mono; [exact Hs|]. by right.
  - intros []. eapply spec_bind; [eapply spec_mono; [apply (st_remove_intent (Some mark) true (settled fresh)), mark_file|done|done|]|].
    + intros s Hs. left. eapply st_mono; [exact Hs|]. intros t v _ ->. by right.
    + intros []. eapply spec_mono; [apply (st_remove_commit None true (settled fresh))|done|done|]. intros s Hs. right. by left.
Qed.

(** [swap], from a decision just made and from one found again. *)
Lemma swap_spec : spec faulty (on forward) (swap fate m) (λ _, on (st (Some mark) true (placed fresh))) (on forward).
Proof using Type*.
  eapply spec_bind.
  - apply (st_each (check_state m) (λ t v, swapping before fresh t v ∨ placed fresh t v)
      (λ t v, swapping before fresh t v ∨ placed fresh t v) (λ t v, swapping before fresh t v ∨ placed fresh t v)); [|done..].
    intros t Ht. by apply (local_check faulty fate Hfate m before fresh t (Hnew t Ht)).
  - intros []. apply (st_each _ (λ t v, swapping before fresh t v ∨ placed fresh t v) (placed fresh) (λ t v, swapping before fresh t v ∨ placed fresh t v));
      [|done|by right].
    intros t Ht F [HF|HF].
    + eapply spec_mono; [by apply (local_swap faulty fate Hfate m before fresh t (Hnew t Ht) F)|done|..]; cbn; [by intros [] s (? & _ & ?)|].
      intros s [? ?]. split; [done|by left].
    + eapply spec_mono; [by apply (local_swapped faulty fate Hfate m fresh t (Hnew t Ht) F)|done|..]; cbn; [done|].
      intros s [? ?]. split; [done|by right].
Qed.

Lemma swap_decided : spec faulty (on decided) (swap fate m) (λ _, on (st (Some mark) true (λ t v, swapping before fresh t v ∧ placed fresh t v))) (on decided).
Proof using Type*.
  eapply spec_bind.
  - apply (st_each (check_state m) (swapping before fresh) (swapping before fresh) (swapping before fresh)); [|done..].
    intros t Ht. apply (local_check faulty fate Hfate m before fresh t (Hnew t Ht)). by left.
  - intros []. apply (st_each _ (swapping before fresh) (λ t v, swapping before fresh t v ∧ placed fresh t v) (swapping before fresh)); [|done|by intros t v []].
    intros t Ht. by apply (local_swap faulty fate Hfate m before fresh t (Hnew t Ht)).
Qed.

Lemma swapping_restorable t v : swapping before fresh t v → restorable before t v.
Proof using Type.
  intros [_ Hv]. unfold restorable. destruct (before t) as [b|].
  - destruct Hv as [(_ & Hf & Ho)|[(_ & _ & Ho)|(_ & _ & Ho)]]; [right; by split|left; by split..].
  - right. destruct Hv as [(_ & _ & Ho)|[(_ & _ & Ho)|(_ & _ & Ho)]]; (split; [done|by intros [? ?]]).
Qed.

(** What [roll_back] does once the decision is withdrawn. *)
Lemma back_spec : spec faulty (on begun) (each (restore fate m) ts ;; remove_intent fate m) (λ _, on untouched) (on old_safe).
Proof using Type*.
  eapply spec_bind; [eapply spec_mono; [apply (st_each (restore fate m) (restorable before) (restored before) (restorable before))|done|done|]|].
  - intros t Ht. by apply (local_restore faulty fate Hfate m before fresh t (Hnew t Ht)), Hex.
  - done.
  - intros t v ->. right. by split.
  - intros s Hs. by right.
  - intros []. eapply spec_mono; [apply (st_remove_intent (Some mark) false (restored before)), mark_file|done|done|].
    intros s Hs. right. eapply st_mono; [exact Hs|]. intros t v _ ->. right. by split.
Qed.

Lemma roll_back_spec c : spec faulty (on (st (Some mark) c (restorable before))) (roll_back fate m) (λ _, on untouched)
  (λ s, on (st (Some mark) c (restorable before)) s ∨ on old_safe s).
Proof using Type*.
  eapply spec_bind; [eapply spec_mono; [apply (st_remove_commit (Some mark) c (restorable before))|done|done|by left]|].
  intros []. eapply spec_mono; [apply back_spec|done|done|by right].
Qed.

(** *** Recovery *)

Definition unlocked (s : Fs) : Prop := intent_path p db ∉ locked s ∧ begin_path p db ∉ locked s.
Definition free (S : gmap path FsNode → Prop) (s : Fs) : Prop := on S s ∧ unlocked s.

Lemma open_spec q S : spec faulty (free S) (attempt (open_file fate q))
  (λ r s, free S s ∧ (is_Some (nodes s !! q) → match r with Ok _ => True | Err e => e = io_error ∧ faulty end)) (on S).
Proof using Type*.
  intros s [Hs Hu]. unfold attempt, open_file, call, at_once. pose proof (Hfate (calls s)) as Hf.
  destruct (fate (calls s)) as [|x|x]; cbn [nodes locked]; [|split; [done|]; intros _; split; [done|by apply Hf]|split; [done|by apply Hf]].
  case_bool_decide; split; done.
Qed.

Lemma lock_spec q S : q ∈ [intent_path p db; begin_path p db] →
  spec faulty (free S) (lock_or_busy fate q) (λ _ s, on S s ∧
    ∀ q', q' ≠ q → q' ∈ [intent_path p db; begin_path p db] → q' ∉ locked s) (on S).
Proof using Type*.
  intros Hq. apply (spec_call faulty fate Hfate); [|by intros s x [Hs _]]. intros s [Hs [Hu1 Hu2]]. cbn [locked nodes].
  rewrite bool_decide_false by (rewrite !elem_of_cons in Hq; by destruct Hq as [->|[->|[]%elem_of_nil]]). split; [done|].
  intros q' Hne Hq'. cbn [locked]. rewrite !elem_of_cons in Hq'. destruct Hq' as [->|[->|[]%elem_of_nil]]; set_solver.
Qed.

(** The marker still being made is put out of the way. *)
Definition settle_begin : MM () :=
  opened ← attempt (open_file fate (begin_path p db));
  match opened with
  | Ok _ => lock_or_busy fate (begin_path p db) ;; unlock (begin_path p db) ;; attempt (remove_any fate (begin_path p db)) ;; mret ()
  | Err _ => mret ()
  end.

Lemma settle_begin_spec i c V : spec faulty (free (st i c V)) settle_begin (λ _, free (st i c V)) (on (st i c V)).
Proof using Type*.
  eapply spec_bind; [apply open_spec|]. intros [[]|e]; [|by apply spec_ret; intros s [? _]].
  eapply spec_bind; [eapply spec_mono; [apply (lock_spec (begin_path p db)); set_solver|by intros s [? _]|done|done]|].
  intros []. eapply (spec_bind _ _ _ _ (λ _, free (st i c V))).
  { intros s [Hs Hq]. split; [done|]. unfold unlocked. cbn [locked unlock].
    assert (intent_path p db ∉ locked s) by (apply Hq; [apply markers_differ|set_solver]). set_solver. }
  intros []. eapply (spec_bind _ _ _ _ (λ _, free (st i c V))); [|intros r; by apply spec_ret].
  intros s [Hs [Hu1 Hu2]]. unfold attempt, remove_any, call. pose proof (Hfate (calls s)) as Hf.
  assert (Hhalf : ∀ x s', on (st i c V) s' → locked s' = locked s → free (st i c V) (match nodes s' !! begin_path p db, x with
      | Some (Folder _), Some (Folder es) => put_node (begin_path p db) (Some (Folder es)) s' | _, _ => s' end)).
  { intros x s' Hs' El. split; [|unfold unlocked; repeat case_match; cbn [put_node locked]; by rewrite El]. unfold on.
    destruct (nodes s' !! begin_path p db) as [[]|], x as [[]|]; try done. cbn [put_node nodes]. by apply st_begin. }
  destruct (fate (calls s)) as [|x|x].
  - split; [by apply (st_begin None)|]. unfold unlocked. cbn [locked]. set_solver.
  - by apply Hhalf.
  - split; [|by apply Hf]. by apply Hhalf.
Qed.

Lemma spec_assoc {A B C : Type} (x : MM A) (k : A → MM B) (k' : B → MM C) P Q I :
  spec faulty P ((x ≫= k) ≫= k') Q I → spec faulty P (x ≫= λ a, k a ≫= k') Q I.
Proof using Type. intros Hs s HP. specialize (Hs s HP). unfold mbind, MM_bind in *. by destruct (x s) as [s' [a|e|]]. Qed.

(** What [recover] does when the marker is found, and when not. *)
Definition settle (c : bool) : MM Recovery :=
  if c then swap fate m ;; finish fate m ;; mret RolledForward else roll_back fate m ;; mret RolledBack.

Lemma looked_spec {A : Type} (i : option FsNode) (c : bool) (V : Target → View → Prop) (k : bool → bool → MM A) Q I :
  spec faulty (free (st i c V)) (k (bool_decide (is_Some i)) c) Q I →
  spec faulty (free (st i c V)) (hi ← there (intent_path p db); hc ← there (commit_path p db); k hi hc) Q I.
Proof using Type.
  intros Hk s Hs. unfold there, mbind, MM_bind. rewrite (st_intent _ _ _ _ (proj1 Hs)), (st_commit _ _ _ _ (proj1 Hs)). by apply Hk.
Qed.

Lemma marked_spec (c : bool) (V : Target → View → Prop) (R : Recovery → gmap path FsNode → Prop) (J : gmap path FsNode → Prop) : (∀ F, st (Some mark) c V F → J F) →
  spec faulty (on (st (Some mark) c V)) (settle c) (λ r, on (R r)) (on J) →
  spec faulty (free (st (Some mark) c V)) (recover fate p db) (λ r, on (R r)) (on J).
Proof using Type*.
  intros HJ Hs. apply spec_assoc. eapply spec_bind; [eapply spec_mono; [apply settle_begin_spec|done|done|intros s; apply HJ]|]. intros [].
  apply looked_spec. rewrite bool_decide_true by (by eexists). cbn [negb].
  change (spec faulty (free (st (Some mark) c V)) (opened ← attempt (open_file fate (intent_path p db));
    match opened with
    | Err e => if bool_decide (e = not_found) then mret Nothing else raise e
    | Ok _ => lock_or_busy fate (intent_path p db) ;;
        settled ← attempt (
          text ← read_to_end fate (intent_path p db);
          intent ← mm_lift (ok_or (de text) (bad (lit "the marker of an unfinished migration cannot be read")));
          (if negb (i_version intent =? 1) then raise (bad (lit "the marker of an unfinished migration is of a newer version")) else mret ()) ;;
          mm_lift (check_targets (i_targets intent)) ;;
          let m' := {| places := p; db_name := db; targets := i_targets intent; wipe := i_wipe intent |} in
          if c then swap fate m' ;; finish fate m' ;; mret RolledForward else roll_back fate m' ;; mret RolledBack);
        unlock (intent_path p db) ;; mm_lift settled
    end) (λ r, on (R r)) (on J)).
  eapply spec_bind; [eapply spec_mono; [apply (open_spec (intent_path p db))|done|done|intros s; apply HJ]|]. intros [[]|e].
  - eapply (spec_bind _ _ _ _ (λ _, on (st (Some mark) c V)));
      [eapply spec_mono; [apply (lock_spec (intent_path p db) (st (Some mark) c V)); left|by intros s [? _]|by intros [] s [? _]|intros s; apply HJ]|]. intros [].
    eapply spec_bind; [apply (spec_attempt faulty _ (on (st (Some mark) c V)) (λ r, on (R r)) (on J))|].
    + eapply (spec_bind _ _ _ _ (λ text s, on (st (Some mark) c V) s ∧ text = ser {| i_version := 1; i_targets := ts; i_wipe := wp |})).
      { apply spec_call; [done| |by intros s x ?%HJ]. intros s Hst. cbn [nodes]. by rewrite (st_intent _ _ _ _ Hst). }
      intros text s [Hst ->]. rewrite de_ser. unfold mbind, MM_bind, mm_lift. cbn. rewrite Hck. by apply Hs.
    + intros r. eapply (spec_bind _ _ _ _ (λ _ s, match r with Ok a => on (R a) s | Err _ => on J s ∧ faulty end)); [by intros s|].
      intros []. apply spec_lift. by destruct r.
  - intros s [[Hst _] He]. destruct He as [-> Hf]; [rewrite (st_intent _ _ _ _ Hst); by eexists|]. cbn. split; [by apply HJ|done].
Qed.

Lemma unmarked_spec (c : bool) (V : Target → View → Prop) (R : Recovery → gmap path FsNode → Prop) (J : gmap path FsNode → Prop) : (∀ F, st None c V F → J F) →
  spec faulty (on (st None c V)) (if c then remove_any fate (commit_path p db) ;; mret RolledForward else mret Nothing) (λ r, on (R r)) (on J) →
  spec faulty (free (st None c V)) (recover fate p db) (λ r, on (R r)) (on J).
Proof using Type*.
  intros HJ Hs. apply spec_assoc. eapply spec_bind; [eapply spec_mono; [apply settle_begin_spec|done|done|intros s; apply HJ]|]. intros [].
  apply looked_spec. intros s [Hst _]. by apply Hs.
Qed.

Lemma recover_old : spec faulty (free old_safe) (recover fate p db) (λ r s, on untouched s ∧ r ≠ RolledForward) (on old_safe).
Proof using Type*.
  intros s [[Hs|Hs] Hu].
  - apply (unmarked_spec false (restored before) (λ r F, untouched F ∧ r ≠ RolledForward) old_safe); [by left| |done]. by apply spec_ret.
  - apply (marked_spec false (restorable before) (λ r F, untouched F ∧ r ≠ RolledForward) old_safe); [by right| |done].
    eapply spec_bind; [eapply spec_mono; [apply (roll_back_spec false)|done|done|by intros s' [?|?]; [right|]]|]. intros []. by apply spec_ret.
Qed.

Lemma recover_new : spec faulty (free new_safe) (recover fate p db) (λ r s, on changed s ∧ r ≠ RolledBack) (on new_safe).
Proof using Type*.
  intros s [[Hs|[Hs|Hs]] Hu].
  - apply (marked_spec true (λ t v, swapping before fresh t v ∨ placed fresh t v) (λ r F, changed F ∧ r ≠ RolledBack) new_safe); [by left| |done].
    eapply spec_bind; [eapply spec_mono; [apply swap_spec|done|done|by left]|]. intros [].
    eapply spec_bind; [apply finish_steps|]. intros []. by apply spec_ret.
  - apply (unmarked_spec true (settled fresh) (λ r F, changed F ∧ r ≠ RolledBack) new_safe); [by right; left| |done].
    eapply spec_bind; [eapply spec_mono; [apply st_remove_commit|done|done|by right; left]|]. intros []. by apply spec_ret.
  - apply (unmarked_spec false (settled fresh) (λ r F, changed F ∧ r ≠ RolledBack) new_safe); [by right; right| |done]. by apply spec_ret.
Qed.
End operations.

(** ** The whole change *)

Lemma slot_eq t t' i j : t ∈ ts → t' ∈ ts → slot p t i = slot p t' j → t = t' ∧ i = j.
Proof using Type*.
  intros Ht Ht' E. destruct (list_elem_of_split _ _ Ht) as (l1 & l2 & El). assert (t' = t ∨ t' ∈ l1 ∨ t' ∈ l2) as [->|Hin] by set_solver.
  - by apply slot_inj in E.
  - exfalso. apply (slots_apart m targets_nodup l1 t l2 t' (slot p t' j) El Hin); [apply slot_in|]. rewrite <-E. apply slot_in.
Qed.

Section execution.
Context (fate : nat → Fate) (ts0 : list Target).
Definition marked (t : Target) : Target :=
  {| t_root := t_root t; t_name := t_name t; replace := replace t; existed := bool_decide (is_Some (F0 !! slot p t SFile)) |}.
Context (Hts : ts = marked <$> ts0).
Let Hfate : ∀ n, fate n ≠ Works → True := λ _ _, I.

Definition safe F := old_safe F ∨ new_safe F.

Lemma start : untouched F0.
Proof using Type*.
  split; [done|apply Hcalm; left|rewrite Hcalm by (by right; right; left); done|done].
Qed.

Lemma untouched_on F s : untouched F → are F s → on safe s.
Proof using Type. intros Hu E. unfold are in E. unfold on. rewrite E. left. by left. Qed.

Lemma marker_spec F : untouched F → (∃ b, F !! begin_path p db = Some (File b)) →
  spec True (are F) (make_marker fate (begin_path p db) (intent_path p db) (ser {| i_version := 1; i_targets := ts; i_wipe := wp |}))
    (λ _, on (st (Some mark) false (restored before))) (on untouched).
Proof using Type*.
  intros HF [b0 Eb]. unfold make_marker. eapply (spec_bind _ _ _ _ (λ _, are F)).
  { apply (spec_call True fate Hfate); [|by intros s x <-]. intros s <-. cbn [locked]. by case_bool_decide. }
  intros []. set (F1 := <[begin_path p db := mark]> F). assert (HF1 : untouched F1) by apply (st_begin (Some mark) None false (restored before) F HF).
  eapply spec_bind; [eapply spec_mono; [apply (spec_write True fate Hfate F)|done|done|]|].
  { intros s [Hs|[b Hs]]; unfold are in Hs; unfold on; rewrite Hs; [done|]. apply (st_begin (Some (File b)) None false (restored before) F HF). }
  intros []. fold mark F1. eapply spec_bind; [eapply spec_mono; [apply (spec_sync True fate Hfate F1)|done|done|by intros s <-]|].
  intros []. assert (E1 : F1 !! begin_path p db = Some mark) by apply lookup_insert_eq.
  assert (E2 : F1 !! intent_path p db = None) by apply (st_intent _ _ _ _ HF1).
  assert (Hl : spec True (are F1) (hard_link fate (begin_path p db) (intent_path p db)) (λ _, are (<[intent_path p db := mark]> F1)) (are F1)).
  { apply (spec_call True fate Hfate); [|by intros s x E]. intros s E. unfold are in *. cbn [nodes]. by rewrite E, E1, E2. }
  eapply spec_bind; [eapply spec_mono; [apply (spec_attempt True _ _ _ _ Hl)|done|done|by intros s <-]|].
  intros [[]|e].
  - apply spec_ret. intros s Hs. unfold are in Hs. unfold on. rewrite Hs. by apply (st_set_intent (Some mark) None).
  - case_bool_decide; [apply spec_raise; by intros s [<- _]|].
    eapply spec_bind; [eapply spec_mono; [apply (spec_there True F1 (intent_path p db) (are F1))|by intros s [? _]|done|by intros s <-]|].
    intros b s [-> Hs]. rewrite E2. cbn. eapply spec_mono; [apply (spec_rename True fate Hfate F1 _ _ mark E1 E2)|..|exact Hs]; [done| |by intros s' <-].
    intros [] s' Hs'. unfold are in Hs'. unfold on. rewrite Hs'.
    apply (st_set_intent (Some mark) None). by apply (st_begin None None).
Qed.

Lemma begin_spec : spec True (are F0) (begin_with fate p db ts0 wp) (λ m' s, m' = m ∧ on (st (Some mark) false (restored before)) s) (on safe).
Proof using Type*.
  unfold begin_with. eapply (spec_bind _ _ _ _ (λ _, are F0)).
  { apply spec_lift. intros s Hs. destruct (check_targets ts0); [done|]. split; [|done]. by apply (untouched_on F0), Hs; apply start. }
  intros []. eapply (spec_bind _ _ _ _ (λ _, are F0)); [by intros s|]. intros taken. destruct taken.
  { apply spec_raise. intros s Hs. split; [|done]. by apply (untouched_on F0), Hs; apply start. }
  eapply (spec_bind _ _ _ _ (λ l s, l = (λ t, bool_decide (is_Some (F0 !! target_path p t []))) <$> ts0 ∧ are F0 s)); [by intros s <-|].
  intros existing. apply spec_pre. intros ->. rewrite zip_with_fmap_r, zip_with_diag.
  assert (El : (λ x, {| t_root := t_root x; t_name := t_name x; replace := replace x; existed := bool_decide (is_Some (F0 !! target_path p x [])) |}) <$> ts0 = ts) by done.
  change (list_fmap Target Target) with (@fmap list _ Target Target). rewrite El.
  eapply spec_bind; [eapply spec_mono; [apply (spec_create True fate Hfate F0 (begin_path p db)), Hcalm; by right; left|done|done|]|].
  { intros s Hs. by apply (untouched_on F0), Hs; apply start. }
  intros []. set (F1 := <[begin_path p db := File []]> F0).
  assert (HF1 : untouched F1) by apply (st_begin (Some (File [])) None false (restored before) F0 start).
  eapply spec_bind; [eapply spec_mono; [apply (spec_attempt True _ _ _ _ (marker_spec F1 HF1 ltac:(exists []; apply lookup_insert_eq)))|done|done|]|].
  { intros s Hs. left. by left. }
  intros made. eapply (spec_bind _ _ _ _ (λ _ s, match made with Ok _ => on (st (Some mark) false (restored before)) s | Err _ => on untouched s end)).
  - intros s Hs. assert (Hrm : ∀ i V, on (st i false V) s → match attempt (remove_any fate (begin_path p db)) s with
        | (s', Returned _) => on (st i false V) s' | (s', _) => on (st i false V) s' ∧ True end).
    { intros i V HV. pose proof (spec_attempt True _ _ _ _ (spec_remove True fate Hfate (nodes s) (begin_path p db)) s eq_refl) as Hr.
      assert (Hpart : ∀ s', partly_removed (nodes s) (begin_path p db) s' → on (st i false V) s').
      { intros s' [E|(es & _ & E)]; unfold are in E; unfold on; rewrite E; [done|]. by apply (st_begin (Some (Folder es))). }
      destruct (attempt _ s) as [s' [[[]|e]|e|]]; [unfold are in Hr; unfold on; rewrite Hr; by apply (st_begin None)|by apply Hpart, Hr|..]; (split; [by apply Hpart, Hr|done]). }
    destruct made as [[]|e].
    + specialize (Hrm _ _ Hs). destruct (attempt _ s) as [s' [r|e|]]; [done|..]; (split; [|done]); left; right;
        (eapply st_mono; [apply Hrm|]); intros t v _ ->; right; by split.
    + specialize (Hrm _ _ (proj1 Hs)). destruct (attempt _ s) as [s' [r|e'|]]; [done|..]; (split; [|done]); left; left; apply Hrm.
  - intros _. destruct made as [[]|e]; [by apply spec_ret|].
    eapply (spec_bind _ _ _ _ (λ _, on untouched)); [by intros s|]. intros []. apply spec_raise. intros s Hs. split; [left; by left|done].
Qed.

Lemma decided_safe F : decided F → safe F.
Proof using Type. intros Hd. right. left. eapply st_mono; [exact Hd|]. by left. Qed.

Lemma swapping_begun F : st (Some mark) false (swapping before fresh) F → begun F.
Proof using Type*. intros Hs. eapply st_mono; [exact Hs|]. intros t v _. by apply swapping_restorable. Qed.

Lemma commit_spec : spec True (on (st (Some mark) false (swapping before fresh))) (commit fate m) (λ _, on decided) (λ s, on begun s ∨ on decided s).
Proof using Type*.
  eapply (spec_bind _ _ _ _ (λ _, on (st (Some mark) false (swapping before fresh)))); [by intros s|]. intros missing. destruct missing.
  { apply spec_raise. intros s Hs. split; [|done]. left. by apply swapping_begun. }
  eapply (spec_bind _ _ _ _ (λ _, on decided)).
  { apply (spec_call True fate Hfate); [|intros s x Hs; left; by apply swapping_begun]. intros s Hs. cbn [nodes].
    destruct (nodes s !! commit_path (places m) (db_name m)); [split; [left; by apply swapping_begun|done]|].
    apply (st_set_commit (Some (File [])) _ _ _ _ Hs). }
  intros []. eapply (spec_bind _ _ _ _ (λ _, on decided)); [|intros []; apply (spec_call True fate Hfate); [done|by right]].
  apply (spec_call True fate Hfate); [intros s Hs; apply (st_set_commit (Some (File (lit "1"))) _ _ _ _ Hs)|].
  intros s [[b|]|] Hs; right; [apply (st_set_commit (Some (File b)) _ _ _ _ Hs)|done..].
Qed.

Lemma roll_back_decided : spec True (on decided) (roll_back fate m) (λ _, on untouched) (on safe).
Proof using Type*.
  eapply spec_bind; [eapply spec_mono; [apply (st_remove_commit True fate Hfate (Some mark) true (swapping before fresh))|done|done|]|].
  { intros s. apply decided_safe. }
  intros []. eapply spec_mono; [apply (back_spec True fate Hfate)|intros s; apply swapping_begun|done|by left].
Qed.

(** The temporary names that [undo] removes belong to targets, or to no one. *)
Context (Hscratch : ∀ q, q ∈ [creating_of (main p, db ++ lit ".cldb"); creating_of (backup p, db ++ lit ".cldb.bak")] →
  (∃ t, t ∈ ts ∧ q = slot p t SCreating) ∨ (q ∉ marker_paths p db ∧ q ∉ target_paths p ts ∧ F0 !! q = None)).

Lemma st_scratch i c V q x F : st i c V F → (∀ t v, V t v → V t (vset SCreating x v)) →
  (∃ t, t ∈ ts ∧ q = slot p t SCreating) → st i c V (partial_alter (λ _, x) q F).
Proof using Type*.
  intros [S1 S2 S3 S4] HV (t & Ht & ->).
  assert (Hm : ∀ q, q ∈ marker_paths p db → slot p t SCreating ≠ q) by (intros q Hq; by apply slot_marker).
  split.
  - intros q Hq Hqt. rewrite lookup_partial_alter_ne; [by apply S1|]. intros <-. apply Hqt. eapply target_paths_elem; [done|apply slot_in].
  - rewrite lookup_partial_alter_ne; [done|]. apply Hm. left.
  - rewrite lookup_partial_alter_ne; [done|]. apply Hm. by right; right; left.
  - intros t' Ht'. destruct (decide (t' = t)) as [->|Hne].
    + assert (view p t (partial_alter (λ _, x) (slot p t SCreating) F) = vset SCreating x (view p t F)) as ->; [|by apply HV, S4].
      destruct x as [n|]; [apply view_insert|apply view_delete].
    + assert (view p t' (partial_alter (λ _, x) (slot p t SCreating) F) = view p t' F) as ->; [|by apply S4].
      unfold view. f_equal; apply lookup_partial_alter_ne; intros E; by apply slot_eq in E as [? _].
Qed.

(** Nothing is there, but when the migration has begun. *)
Lemma scratch_spec q : q ∈ [creating_of (main p, db ++ lit ".cldb"); creating_of (backup p, db ++ lit ".cldb.bak")] →
  spec True (on safe) (remove_any fate q) (λ _, on safe) (on safe).
Proof using Type*.
  intros Hq. pose proof (Hscratch q Hq) as Hsq. apply spec_on. intros F HF.
  assert (Hstep : ∀ x, (x = None ∨ is_Some (F !! q)) → safe (partial_alter (λ _, x) q F)).
  { intros x Hx. destruct Hsq as [Ht|(Hm & Htp & H0q)].
    - assert (Hcr : ∀ i c (V : Target → View → Prop), st i c V F → (∀ t v, V t v → v_creating v = None) → safe F → safe (partial_alter (λ _, x) q F)).
      { intros i c V HS HV Hsafe. destruct Ht as (t & Ht & ->). pose proof (HV t _ (st_views _ _ _ _ HS t Ht)) as Hc. cbn [v_creating view] in Hc.
        destruct Hx as [->|[? Hx]]; [|congruence]. change (safe (delete (slot p t SCreating) F)). by rewrite delete_id. }
      destruct HF as [[HF|HF]|[HF|[HF|HF]]].
      + apply (Hcr _ _ _ HF); [by intros t v ->|left; by left].
      + left. right. by apply st_scratch.
      + apply (Hcr _ _ _ HF); [by intros t v [[? _]|[? _]]|right; by left].
      + apply (Hcr _ _ _ HF); [by intros t v ->|right; right; by left].
      + apply (Hcr _ _ _ HF); [by intros t v ->|right; right; by right].
    - assert (Eq : F !! q = None). { rewrite <-H0q. by destruct HF as [[HF|HF]|[HF|[HF|HF]]]; apply (st_outside _ _ _ _ HF). }
      destruct Hx as [->|[? Hx]]; [|congruence]. change (safe (delete q F)). by rewrite delete_id. }
  eapply spec_mono; [by apply (spec_remove True fate Hfate F)|done|..]; cbn.
  - intros [] s E. unfold are in E. unfold on. rewrite E. apply (Hstep None). by left.
  - intros s [E|(es & (es0 & Es) & E)]; unfold are in E; unfold on; rewrite E; [done|]. apply (Hstep (Some (Folder es))). right. by eexists.
Qed.

Lemma undo_spec : spec True (λ s, on begun s ∨ on decided s) (undo fate m) (λ _, on safe) (on safe).
Proof using Type*.
  assert (Hback : spec True (λ s, on begun s ∨ on decided s) (roll_back fate m) (λ _, on safe) (on safe)).
  { intros s [Hs|Hs].
    - eapply spec_mono; [apply (roll_back_spec True fate Hfate false)|done|..|exact Hs]; [intros [] s' Hs'; left; by left|].
      intros s' [Hs'|Hs']; left; [by right|done].
    - eapply spec_mono; [apply roll_back_decided|done|..|exact Hs]; [intros [] s' Hs'; left; by left|done]. }
  eapply spec_bind; [eapply spec_mono; [apply (spec_attempt True _ _ _ _ Hback)|done| |done]|].
  { intros r s Hr. instantiate (1 := λ _, on safe). by destruct r as [|]; [|destruct Hr]. }
  intros r.
  assert (Hone : ∀ q, q ∈ [creating_of (main p, db ++ lit ".cldb"); creating_of (backup p, db ++ lit ".cldb.bak")] →
    spec True (on safe) (_ ← attempt (remove_any fate q); mret ()) (λ _, on safe) (on safe)).
  { intros q Hq. eapply (spec_bind _ _ _ _ (λ _, on safe)); [|intros ?; by apply spec_ret].
    eapply spec_mono; [apply (spec_attempt True _ _ _ _ (scratch_spec q Hq))|done| |done]. intros r' s Hr. by destruct r' as [|]; [|destruct Hr]. }
  unfold undo. cbn [each places db_name m]. eapply (spec_bind _ _ _ _ (λ _, on safe)); [apply Hone; left|]. intros [].
  eapply (spec_bind _ _ _ _ (λ _, on safe)); [apply Hone; right; left|]. intros []. by apply spec_ret.
Qed.

Lemma write_new_spec {A : Type} (write : MM A) : writes p ts fresh write →
  spec True (on (st (Some mark) false (restored before))) write (λ _, on (st (Some mark) false (swapping before fresh))) (on begun).
Proof using Type*.
  intros Hw s Hs. destruct (Hw s) as [Hout Hnewf]. clear Hw. destruct (write s) as [s' out]. cbn [fst snd] in *. destruct Hs as [S1 S2 S3 S4].
  assert (Hmine : ∀ q, q ∈ marker_paths p db → nodes s' !! q = nodes s !! q).
  { intros q Hq. apply Hout. intros t Ht _. split; intros E; by eapply slot_marker. }
  assert (Hkeep : ∀ t i, t ∈ ts → replace t = false ∨ i = SFile ∨ i = SOld → nodes s' !! slot p t i = nodes s !! slot p t i).
  { intros t i Ht Hi. apply Hout. intros t' Ht' Hr. split; intros E; apply slot_eq in E as [-> ->]; try done; destruct Hi as [?|[?|?]]; congruence. }
  assert (Hst : ∀ V : Target → View → Prop, (∀ t, t ∈ ts → V t (view p t (nodes s'))) → st (Some mark) false V (nodes s')).
  { intros V HV. split; [|rewrite Hmine; [done|left]|rewrite Hmine; [done|by right; right; left]|done]. intros q Hq Hqt.
    rewrite Hout; [by apply S1|]. intros t Ht _. split; intros ->; apply Hqt; (eapply target_paths_elem; [done|apply slot_in]). }
  assert (Hsame : ∀ t, t ∈ ts → v_file (view p t (nodes s')) = before t ∧ v_old (view p t (nodes s')) = None).
  { intros t Ht. pose proof (S4 t Ht) as Hv. unfold restored in Hv. cbn [view v_file v_old]. rewrite !Hkeep by auto. by injection Hv. }
  assert (Hbegun : begun (nodes s')) by (apply Hst; intros t Ht; right; split; [by apply Hsame|intros _; by apply Hsame]).
  destruct out as [a|e|]; [|by split..]. apply Hst. intros t Ht. pose proof (S4 t Ht) as Hv. unfold restored in Hv. destruct (Hsame t Ht) as [Hf Ho].
  unfold swapping, final. rewrite Hf, Ho. cbn [view v_new v_creating]. destruct (replace t) eqn:Er.
  - destruct (Hnewf a eq_refl t Ht Er) as [-> ->]. split; [done|by left].
  - rewrite !Hkeep by auto. injection Hv as _ -> _ ->. split; [done|by left].
Qed.

Lemma on_looks {A : Type} (check : MM A) S J : looks check → (∀ F, S F → J F) → spec True (on S) check (λ _, on S) (on J).
Proof using Type.
  intros Hl HJ s Hs. specialize (Hl s). destruct (check s) as [s' [a|e|]]; cbn [fst] in Hl; unfold on in *; rewrite Hl; [done|split; [by apply HJ|done]..].
Qed.

Lemma execute_spec {A : Type} (write : Migration → MM A) (check : MM ()) : writes p ts fresh (write m) → looks check →
  spec True (are F0) (execute fate p db ts0 wp write check) (λ _, on changed) (on safe).
Proof using Type*.
  intros Hw Hl. eapply spec_bind; [apply begin_spec|]. intros m'. apply spec_pre. intros ->.
  assert (Hfail : ∀ (e : ClError) (S : gmap path FsNode → Prop), (∀ s, on S s → on begun s ∨ on decided s) →
    spec True (λ s, on S s) (undo fate m ;; raise (A := A) e) (λ _, on changed) (on safe)).
  { intros e S HS. eapply spec_bind; [eapply spec_mono; [apply undo_spec|intros s; apply HS|done|done]|]. intros []. apply spec_raise. by split. }
  eapply spec_bind; [apply (spec_attempt True _ _ (λ _, on changed) (on safe))|].
  - eapply spec_bind; [eapply spec_mono; [apply (spec_attempt True _ _ _ _ (write_new_spec (write m) Hw))|done|done|]|].
    { intros s Hs. left. by right. }
    intros [report|e]; [|eapply spec_mono; [apply (Hfail e begun)|by intros s [? _]|done|done]; by left].
    assert (Hplace : spec True (on (st (Some mark) false (swapping before fresh))) (commit fate m ;; swap fate m ;; check)
      (λ _, on (st (Some mark) true (λ t v, swapping before fresh t v ∧ placed fresh t v))) (λ s, on begun s ∨ on decided s)).
    { eapply spec_bind; [apply commit_spec|]. intros [].
      eapply spec_bind; [eapply spec_mono; [apply (swap_decided True fate Hfate)|done|done|by right]|]. intros [].
      eapply spec_mono; [apply (on_looks check (st (Some mark) true (λ t v, swapping before fresh t v ∧ placed fresh t v)) decided Hl)|done|done|by right].
      intros F HF. eapply st_mono; [exact HF|]. by intros t v _ []. }
    eapply spec_bind; [eapply spec_mono; [apply (spec_attempt True _ _ _ _ Hplace)|done|done|]|].
    { intros s [Hs|Hs]; [left; by right|by apply decided_safe]. }
    intros [[]|e].
    + assert (Hfin : spec True (on (st (Some mark) true (λ t v, swapping before fresh t v ∧ placed fresh t v))) (finish fate m) (λ _, on changed) (on safe)).
      { eapply spec_mono; [apply (finish_steps True fate Hfate)| |done|by right]. intros s Hs. eapply st_mono; [exact Hs|]. by intros t v _ []. }
      eapply spec_bind; [apply (spec_attempt True _ _ _ _ Hfin)|]. intros [[]|e]; [by apply spec_ret|]. apply spec_raise. by intros s [? _].
    + eapply (spec_bind _ _ _ _ (λ _, on safe)); [eapply spec_mono; [apply undo_spec|by intros s [? _]|done|done]|].
      intros []. apply spec_raise. by split.
  - intros done_. eapply (spec_bind _ _ _ _ (λ _ s, match done_ with Ok _ => on changed s | Err _ => on safe s end)).
    { intros s Hs. destruct done_; [done|]. by destruct Hs. }
    intros []. apply spec_lift. intros s Hs. by destruct done_.
Qed.
End execution.
End phases.

(** ** The theorem *)

(** The temporary names of the two database files, which [undo] removes. *)
Definition scratch (p : Places) (db : str) : list path :=
  [creating_of (main p, db ++ lit ".cldb"); creating_of (backup p, db ++ lit ".cldb.bak")].

(** No migration is under way, and nothing else has the names it uses. *)
Record calm (p : Places) (db : str) (ts : list Target) (F : gmap path FsNode) : Prop := {
  calm_separate : separate p db ts;
  calm_markers : ∀ q, q ∈ marker_paths p db → F !! q = None;
  calm_targets : ∀ t i, t ∈ ts → i ≠ SFile → F !! slot p t i = None;
  calm_scratch : ∀ q, q ∈ scratch p db → (∃ t, t ∈ ts ∧ q = slot p t SCreating) ∨ (q ∉ marker_paths p db ∧ q ∉ target_paths p ts ∧ F !! q = None);
}.

(** The files as they are to become. *)
Definition replaced (p : Places) (ts : list Target) (fresh : Target → option FsNode) (F : gmap path FsNode) : gmap path FsNode :=
  foldr (λ t, partial_alter (λ _, final fresh t) (slot p t SFile)) F ts.

(** An opening that tries to settle the migration, whatever becomes of it. *)
Definition recovering `{Noise, Serde Intent} (p : Places) (db : str) (s s' : Fs) : Prop :=
  ∃ fate r, recover fate p db (restart s) = (s', r).

Lemma replaced_file p ts fresh F t : (∀ t', t' ∈ ts → slot p t SFile = slot p t' SFile → t = t') → t ∈ ts →
  replaced p ts fresh F !! slot p t SFile = final fresh t.
Proof.
  intros Hi. induction ts as [|a ts IH]; [by intros []%elem_of_nil|]. cbn [replaced foldr]. intros Hin.
  destruct (decide (slot p a SFile = slot p t SFile)) as [E|E].
  - assert (t = a) as -> by (apply Hi; [left|done]). by rewrite lookup_partial_alter_eq.
  - rewrite lookup_partial_alter_ne by done. apply elem_of_cons in Hin as [->|Hin]; [done|]. apply IH; [|done].
    intros t' Ht'. apply Hi. by right.
Qed.

Lemma replaced_other p ts fresh F q : (∀ t, t ∈ ts → q ≠ slot p t SFile) → replaced p ts fresh F !! q = F !! q.
Proof.
  induction ts as [|a ts IH]; [done|]. intros Hq. cbn [replaced foldr]. rewrite lookup_partial_alter_ne.
  - apply IH. intros t Ht. apply Hq. by right.
  - intros E. apply (Hq a); [left|done].
Qed.

Lemma check_marked p F ts : check_targets (marked p F <$> ts) = check_targets ts.
Proof.
  unfold check_targets. assert (forallb (λ t, name_ok (t_name t)) (marked p F <$> ts) = forallb (λ t, name_ok (t_name t)) ts) as ->.
  { induction ts as [|t ts IH]; [done|]. cbn. f_equal. apply IH. }
  rewrite <-list_fmap_compose. done.
Qed.

Lemma untouched_same p db ts F0 F : separate p db ts → (∀ q, q ∈ marker_paths p db → F0 !! q = None) →
  (∀ t i, t ∈ ts → i ≠ SFile → F0 !! slot p t i = None) →
  untouched p db ts F0 F → ∀ q, q ≠ begin_path p db → F !! q = F0 !! q.
Proof.
  intros Hsep Hmk Hcalm [S1 S2 S3 S4] q Hq. destruct (decide (q ∈ marker_paths p db)) as [Hm|Hm].
  - rewrite (Hmk q Hm). unfold marker_paths in Hm. rewrite !elem_of_cons in Hm. destruct Hm as [->|[->|[->|[]%elem_of_nil]]]; [done..|].
    by apply bool_decide_eq_false, eq_None_not_Some in S3.
  - destruct (decide (q ∈ target_paths p ts)) as [Ht|Ht]; [|by apply S1].
    apply list_elem_of_bind in Ht as (t & Hqt & Ht). apply list_elem_of_fmap in Hqt as (i & -> & _).
    rewrite view_get, (S4 t Ht). destruct i; cbn [vget v_file v_new v_old v_creating]; [done|by rewrite Hcalm..].
Qed.

Lemma changed_same p db ts F0 fresh F : separate p db ts → (∀ q, q ∈ marker_paths p db → F0 !! q = None) →
  (∀ t i, t ∈ ts → i ≠ SFile → F0 !! slot p t i = None) → (∀ t t' i j, t ∈ ts → t' ∈ ts → slot p t i = slot p t' j → t = t' ∧ i = j) →
  changed p db ts F0 fresh F → ∀ q, q ≠ begin_path p db → F !! q = replaced p ts fresh F0 !! q.
Proof.
  intros Hsep Hmk Hcalm Hslot [S1 S2 S3 S4] q Hq. destruct (decide (q ∈ marker_paths p db)) as [Hm|Hm].
  - rewrite replaced_other.
    + rewrite (Hmk q Hm). unfold marker_paths in Hm. rewrite !elem_of_cons in Hm. destruct Hm as [->|[->|[->|[]%elem_of_nil]]]; [done..|].
      by apply bool_decide_eq_false, eq_None_not_Some in S3.
    + intros t Ht E. symmetry in E. revert E. by eapply slot_marker.
  - destruct (decide (q ∈ target_paths p ts)) as [Ht|Ht].
    + apply list_elem_of_bind in Ht as (t & Hqt & Ht). apply list_elem_of_fmap in Hqt as (i & -> & _). rewrite view_get, (S4 t Ht).
      unfold settled in S4.
      destruct i; [symmetry; apply replaced_file; [|done]; intros t' Ht' E; by apply Hslot in E as [? _]|rewrite replaced_other; [by rewrite Hcalm|]..];
        intros t' Ht' E; by apply Hslot in E as [_ ?].
    + rewrite replaced_other; [by apply S1|]. intros t Hin ->. apply Ht. eapply target_paths_elem; [done|apply slot_in].
Qed.

(** C14: a change of protection happens entirely or not at all.  Begin with files that no
    migration has touched, run the change with any call failing or the process dying in
    any call, then open the database any number of times, each opening again failing or
    dying anywhere.  An opening whose recovery returns leaves every file as it was before
    the change, or every target replaced by its new file (or removed) and everything else as
    it was (a marker that was still being made may stay under its temporary name); it is
    the new files when the change reported success.  And a recovery whose calls all work
    returns. *)
Theorem change_or_not `{Noise, Serde Intent} {A : Type} fate p db ts0 wp (write : Migration → MM A) check fresh s0 s1 out s2 :
  let ts := marked p (nodes s0) <$> ts0 in
  check_targets ts0 = Ok () → calm p db ts (nodes s0) → (∀ t, t ∈ ts → replace t = true → is_Some (fresh t)) →
  writes p ts fresh (write {| places := p; db_name := db; targets := ts; wipe := wp |}) → looks check →
  execute fate p db ts0 wp write check s0 = (s1, out) → rtc (recovering p db) s1 s2 →
  (∀ fate' s3 r, recover fate' p db (restart s2) = (s3, Returned r) →
    (r ≠ RolledForward ∧ (∀ a, out ≠ Returned a) ∧ ∀ q, q ≠ begin_path p db → nodes s3 !! q = nodes s0 !! q) ∨
    (r ≠ RolledBack ∧ ∀ q, q ≠ begin_path p db → nodes s3 !! q = replaced p ts fresh (nodes s0) !! q)) ∧
  ∃ s3 r, recover (λ _, Works) p db (restart s2) = (s3, Returned r).
Proof.
  intros ts Hck [Hsep Hmk Hcalm Hscr] Hnew Hw Hl He Hr. set (F0 := nodes s0) in *.
  assert (Hck' : check_targets ts = Ok ()) by (unfold ts; by rewrite check_marked).
  assert (Hviews : ∀ t, t ∈ ts → restored (λ t, F0 !! slot p t SFile) t (view p t F0)).
  { intros t Ht. unfold restored, view. f_equal; by apply Hcalm. }
  assert (Hex : ∀ t, t ∈ ts → existed t = bool_decide (is_Some (F0 !! slot p t SFile))).
  { intros t (t0 & -> & _)%list_elem_of_fmap. done. }
  pose proof (execute_spec p db ts wp F0 fresh Hsep Hmk Hviews Hex Hnew Hck' fate ts0 eq_refl Hscr write check Hw Hl s0 eq_refl) as Hes.
  rewrite He in Hes.
  assert (Hun : ∀ s, unlocked p db (restart s)) by (intros s; split; apply not_elem_of_empty).
  pose (Old := old_safe p db ts wp F0). pose (New := new_safe p db ts wp F0 fresh).
  assert (Hs1 : (Old (nodes s1) ∧ ∀ a, out ≠ Returned a) ∨ New (nodes s1)).
  { destruct out as [a|e|]; [right; by right; right|..]; (destruct Hes as [[Hs|Hs] _]; [left; by split|by right]). }
  assert (Hold : ∀ faulty fate', (∀ n, fate' n ≠ Works → faulty) → ∀ s, Old (nodes s) → match recover fate' p db (restart s) with
    | (s', Returned r) => untouched p db ts F0 (nodes s') ∧ r ≠ RolledForward | (s', _) => Old (nodes s') ∧ faulty end).
  { intros faulty fate' Hf s Hs. apply (recover_old p db ts wp F0 fresh Hsep Hmk Hviews Hex Hnew Hck' faulty fate' Hf (restart s)). by split. }
  assert (Hnw : ∀ faulty fate', (∀ n, fate' n ≠ Works → faulty) → ∀ s, New (nodes s) → match recover fate' p db (restart s) with
    | (s', Returned r) => changed p db ts F0 fresh (nodes s') ∧ r ≠ RolledBack | (s', _) => New (nodes s') ∧ faulty end).
  { intros faulty fate' Hf s Hs. apply (recover_new p db ts wp F0 fresh Hsep Hmk Hviews Hex Hnew Hck' faulty fate' Hf (restart s)). by split. }
  assert (Hs2 : (Old (nodes s2) ∧ ∀ a, out ≠ Returned a) ∨ New (nodes s2)).
  { clear He Hes. induction Hr as [s|s s' s'' (fate' & r & E) _ IH]; [done|]. apply IH. destruct Hs1 as [[Hs Ho]|Hs].
    - left. split; [|done]. pose proof (Hold True fate' (λ _ _, I) s Hs) as Ho'. rewrite E in Ho'.
      destruct r as [r|e|]; destruct Ho' as [Ho' _]; [by left|done..].
    - right. pose proof (Hnw True fate' (λ _ _, I) s Hs) as Hn'. rewrite E in Hn'. destruct r as [r|e|]; destruct Hn' as [Hn' _]; [by right; right|done..]. }
  clear Hs1 Hr He Hes. split.
  - intros fate' s3 r E. destruct Hs2 as [[Hs Ho]|Hs].
    + left. pose proof (Hold True fate' (λ _ _, I) s2 Hs) as Hu. rewrite E in Hu. destruct Hu as [Hu Hne]. split_and!; [done..|].
      by apply (untouched_same p db ts F0 _ Hsep Hmk Hcalm).
    + right. pose proof (Hnw True fate' (λ _ _, I) s2 Hs) as Hc. rewrite E in Hc. destruct Hc as [Hc Hne]. split; [done|].
      apply (changed_same p db ts F0 fresh _ Hsep Hmk Hcalm); [|done].
      intros t t' i j. apply (slot_eq p db ts wp F0 fresh Hsep Hmk Hviews Hex Hnew Hck').
  - destruct Hs2 as [[Hs _]|Hs]; [pose proof (Hold False (λ _, Works) (λ _ Hne, Hne eq_refl) s2 Hs) as Hu
      |pose proof (Hnw False (λ _, Works) (λ _ Hne, Hne eq_refl) s2 Hs) as Hu];
      (destruct (recover _ p db (restart s2)) as [s3 [r|e|]]; [by exists s3, r|by destruct Hu..]).
Qed.

(** A migration that is running is not disturbed.  While its marker is locked, another
    opening of the database neither finishes nor undoes it, and does not proceed: whatever
    its calls do, it changes no file and does not return. *)
Lemma running_undisturbed `{Noise, Serde Intent} fate p db s : is_Some (nodes s !! intent_path p db) → intent_path p db ∈ locked s →
  nodes s !! begin_path p db = None ∨ begin_path p db ∈ locked s →
  nodes (recover fate p db s).1 = nodes s ∧ ∀ r, (recover fate p db s).2 ≠ Returned r.
Proof.
  intros Hi Hl Hb. pose (P := λ s', nodes s' = nodes s ∧ locked s' = locked s).
  assert (Hopen : ∀ q, spec True P (attempt (open_file fate q)) (λ r s', P s' ∧ (r = Ok () → is_Some (nodes s !! q)) ∧ (r = Err not_found → nodes s !! q = None)) (are (nodes s))).
  { intros q s' [En Elk]. unfold attempt, open_file, call, at_once, are. cbn [nodes].
    destruct (fate (calls s')); [case_bool_decide as Hq|..]; rewrite ?En in *; repeat split; try done. intros _. by apply eq_None_not_Some. }
  assert (Hlock : ∀ q, q ∈ locked s → spec True P (lock_or_busy fate q) (λ _ _, False) (are (nodes s))).
  { intros q Hq s' [En Elk]. unfold lock_or_busy, call, at_once, are. cbn [locked]. rewrite Elk, (bool_decide_true (q ∈ locked s)) by done.
    by destruct (fate (calls s')). }
  assert (Hr : spec True P (recover fate p db) (λ _ _, False) (are (nodes s))).
  { eapply spec_bind; [apply Hopen|]. intros opened. eapply (spec_bind True _ _ _ (λ _, P)).
    - destruct opened as [[]|e]; [|by intros s' [? _]]. intros s' (HP & Hbs & _). specialize (Hbs eq_refl).
      destruct Hb as [Hb|Hb]; [rewrite Hb in Hbs; by destruct Hbs|]. pose proof (Hlock _ Hb s' HP) as Hs.
      unfold mbind, MM_bind. by destruct (lock_or_busy fate _ s') as [? []].
    - intros []. eapply (spec_bind True _ _ _ (λ b s', b = true ∧ P s')); [intros s' HP; split; [|done]; by rewrite (proj1 HP), bool_decide_true|].
      intros hi. apply spec_pre. intros ->. eapply (spec_bind True _ _ _ (λ _, P)); [by intros s'|]. intros hc. cbn [negb].
      eapply spec_bind; [apply Hopen|]. intros [[]|e].
      + eapply spec_bind; [eapply spec_mono; [apply (Hlock _ Hl)|by intros s' [? _]|done|done]|]. intros []. by intros s'.
      + case_bool_decide as Ee; [|apply spec_raise; by intros s' [[? _] _]]. intros s' (_ & _ & Hn). exfalso. destruct Hi as [? Hi]. rewrite Hn in Hi; [done|by rewrite Ee]. }
  specialize (Hr s (conj eq_refl eq_refl)). destruct (recover fate p db s) as [s' [r|e|]]; [done|..]; (split; [apply Hr|done]).
Qed.

(** ** Witness *)

Module MarkerDemo.
#[local] Instance noisy : Noise := λ n, repeat Byte.x07 (N.to_nat n).
#[local] Instance Root_countable : Countable Root.
Proof. refine (inj_countable' (λ r, match r with Main => true | Backup => false end) (λ b, if b then Main else Backup) _). by intros []. Defined.
#[local] Instance Target_countable : Countable Target.
Proof.
  refine (inj_countable' (λ t, (t_root t, t_name t, replace t, existed t))
    (λ '(r, n, b, e), {| t_root := r; t_name := n; replace := b; existed := e |}) _). by intros [].
Defined.
#[local] Instance Intent_eq_dec : EqDecision Intent.
Proof. solve_decision. Defined.
#[local] Instance Intent_countable : Countable Intent.
Proof.
  refine (inj_countable' (λ i, (i_version i, i_targets i, i_wipe i)) (λ '(v, l, w), {| i_version := v; i_targets := l; i_wipe := w |}) _). by intros [].
Defined.
#[local] Instance intent_serde : Serde Intent := countable_serde.

Definition here : Places := {| main := lit "data"; backup := lit "data" |}.
Definition db : str := lit "x".
Definition main_file : Target := {| t_root := Main; t_name := lit "x.cldb"; replace := true; existed := false |}.
Definition index_file : Target := {| t_root := Main; t_name := lit "x.inx"; replace := false; existed := false |}.
Definition s0 : Fs := {|
  nodes := <[(lit "data", lit "x.cldb") := File (lit "old")]> (<[(lit "data", lit "x.inx") := File (lit "index")]> ∅);
  locked := ∅; calls := 0 |}.
Definition fresh (t : Target) : option FsNode := Some (File (lit "new")).
Definition write (m : Migration) : MM () := λ s,
  ({| nodes := <[slot here main_file SNew := File (lit "new")]> (delete (slot here main_file SCreating) (nodes s));
      locked := locked s; calls := calls s |}, Returned ()).
Definition glance : MM () := mret ().
Lemma glanced : looks glance.
Proof. by intros s. Qed.
(** The process dies when the new file is to be given its name. *)
Definition cut (n : nat) : Fate := if decide (n = 11)%nat then Dies None else Works.
Definition stopped : Fs * outcome () := execute cut here db [main_file; index_file] false write glance s0.

Lemma stopped_died : stopped.2 = Died.
Proof. vm_compute. reflexivity. Qed.

Lemma checked : check_targets [main_file; index_file] = Ok ().
Proof. vm_compute. reflexivity. Qed.

Lemma ready : calm here db (marked here (nodes s0) <$> [main_file; index_file]) (nodes s0).
Proof.
  constructor.
  - unfold separate. refine (bool_decide_unpack _ _). vm_compute. exact I.
  - intros q Hq. unfold marker_paths in Hq. rewrite !elem_of_cons in Hq. destruct Hq as [->|[->|[->|[]%elem_of_nil]]]; vm_compute; reflexivity.
  - intros t i Ht Hi. cbn [fmap list_fmap] in Ht. rewrite !elem_of_cons in Ht.
    destruct Ht as [->|[->|[]%elem_of_nil]], i; try done; vm_compute; reflexivity.
  - intros q Hq. unfold scratch in Hq. rewrite !elem_of_cons in Hq. destruct Hq as [->|[->|[]%elem_of_nil]].
    + left. exists (marked here (nodes s0) main_file). split; [left|done].
    + right. split_and!; [refine (bool_decide_unpack _ _); vm_compute; exact I..|vm_compute; reflexivity].
Qed.

Lemma written : writes here (marked here (nodes s0) <$> [main_file; index_file]) fresh (write {| places := here; db_name := db;
  targets := marked here (nodes s0) <$> [main_file; index_file]; wipe := false |}).
Proof.
  intros s. cbn [write fst snd nodes]. split.
  - intros q Hq. destruct (Hq (marked here (nodes s0) main_file)) as [H1 H2]; [left|done|]. by rewrite lookup_insert_ne, lookup_delete_ne.
  - intros a _ t Ht Hr. cbn [fmap list_fmap] in Ht. rewrite !elem_of_cons in Ht. destruct Ht as [->|[->|[]%elem_of_nil]]; [|done].
    split; [apply lookup_insert_eq|]. change (slot here (marked here (nodes s0) main_file) SCreating) with (slot here main_file SCreating).
    rewrite lookup_insert_ne; [apply lookup_delete_eq|]. by intros ?%slot_inj.
Qed.

Lemma running_undisturbed_example : nodes (recover (λ _, Works) here db stopped.1).1 = nodes stopped.1.
Proof. apply (running_undisturbed (λ _, Works) here db stopped.1); [vm_compute; by eexists|by vm_compute|left; vm_compute; reflexivity]. Defined.

Lemma change_or_not_witness : stopped.2 = Died ∧ ∃ s3 r, recover (λ _, Works) here db (restart stopped.1) = (s3, Returned r) ∧
  ((∀ q, q ≠ begin_path here db → nodes s3 !! q = nodes s0 !! q) ∨
   (∀ q, q ≠ begin_path here db → nodes s3 !! q = replaced here (marked here (nodes s0) <$> [main_file; index_file]) fresh (nodes s0) !! q)).
Proof.
  split; [exact stopped_died|].
  destruct (change_or_not cut here db [main_file; index_file] false write glance fresh s0 stopped.1 stopped.2 stopped.1
    checked ready (λ t _ _, ex_intro _ _ eq_refl) written glanced (surjective_pairing _) (rtc_refl _ _)) as [H1 (s3 & r & E)].
  exists s3, r. split; [exact E|]. destruct (H1 _ _ _ E) as [(_ & _ & Ho)|(_ & Hn)]; [by left|by right].
Defined.
End MarkerDemo.
