(* ===== verification/Sum.v ===== *)
(** * Exact sums and the other aggregates ([query/sum.rs], [query/mod.rs])

    [Accumulator] adds decimal tokens digit by digit, least significant digit first,
    without a float.  The digits are [u8] values in the code and [Z] here; [SumSpec]
    shows that every digit stays between 0 and 9, so no step leaves its width.

    [sum], [extreme], [group_count] and [distinct] are the bodies of the aggregates over the
    values that the query's scan hands them, in the order of the scan. *)
From S2P Require Import Prelude Order Redb Fields OrderedCodec.
Import ListRedb.
Local Open Scope Z_scope.

Inductive Sum := Integer (v : Z) | Decimal_ (s : str).

Definition MAX_SUM_DIGITS : nat := 4096.
Definition MAX_SUM_EXPONENT : Z := 4096.

Record Accumulator := {
  a_digits : list Z;
  a_negative : bool;
  a_power : Z;
  a_fractional : bool;
}.

Definition acc_default : Accumulator :=
  {| a_digits := []; a_negative := false; a_power := 0; a_fractional := false |}.

(** [(-MAX_SUM_EXPONENT..=MAX_SUM_EXPONENT).contains(&power)]. *)
Definition power_ok (p : Z) : bool := (- MAX_SUM_EXPONENT <=? p) && (p <=? MAX_SUM_EXPONENT).

(** The loop that adds: [right.get(i)] is 0 past its end. *)
Fixpoint add_loop (carry : Z) (left right : list Z) : list Z * Z :=
  match left with
  | [] => ([], carry)
  | d :: left' =>
      let n := d + default 0 (head right) + carry in
      let '(ds, c) := add_loop (n / 10) left' (tail right) in (n mod 10 :: ds, c)
  end.

(** [digits.resize(len, 0)] when [len] is not below the length. *)
Definition resize0 (len : nat) (ds : list Z) : list Z := ds ++ replicate (len - length ds) 0.

Definition add_digits (left right : list Z) : list Z :=
  let '(ds, carry) := add_loop 0 (resize0 (Nat.max (length left) (length right)) left) right in
  if 0 <? carry then ds ++ [carry] else ds.

(** The loop that subtracts, with a borrow of 0 or 1. *)
Fixpoint sub_loop (borrow : Z) (left right : list Z) : list Z :=
  match left with
  | [] => []
  | d :: left' =>
      let n := d - default 0 (head right) - borrow in
      (if n <? 0 then n + 10 else n) :: sub_loop (if n <? 0 then 1 else 0) left' (tail right)
  end.

(** The comparison of the magnitudes: by length, then from the top digit down. *)
Definition digits_order (left right : list Z) : comparison :=
  match Nat.compare (length left) (length right) with
  | Eq => list_cmp (rev left) (rev right)
  | c => c
  end.

(** [while digits.last() == Some(&0) { digits.pop(); }] *)
Definition is0 (d : Z) : bool := d =? 0.
Definition pop_zeros (ds : list Z) : list Z := rev (drop_while is0 (rev ds)).

Section add.
Context `{TextLib}.

(** The signed addition of [add] once both operands have the same power. *)
Definition combine (a : Accumulator) (right : list Z) (neg : bool) : list Z * bool :=
  if Bool.eqb (a_negative a) neg then (add_digits (a_digits a) right, a_negative a)
  else
    let '(big, small, sign) :=
      match digits_order (a_digits a) right with
      | Lt => (right, a_digits a, neg)
      | _ => (a_digits a, right, a_negative a)
      end in
    (sub_loop 0 big small, sign).

(** [Accumulator::add].  After an error the callers drop the accumulator. *)
Definition add (a : Accumulator) (token : str) : result Accumulator :=
  let? value := parse token in
  if bool_decide (digits value = []) then Ok a else
  let? p := ok_or (checked_i128 (power value)) DecimalSumLimit in
  if negb (power_ok p) || bool_decide (MAX_SUM_DIGITS < length (digits value))%nat
  then Err DecimalSumLimit else
  let fractional := a_fractional a || (p <? 0) in
  let right := rev (digit_val <$> digits value) in
  if bool_decide (a_digits a = []) then
    Ok {| a_digits := right; a_negative := negative value; a_power := p; a_fractional := fractional |}
  else
  let common := Z.min (a_power a) p in
  let left_padding := Z.to_nat (a_power a - common) in
  let right_padding := Z.to_nat (p - common) in
  if bool_decide (MAX_SUM_DIGITS < Nat.max (length (a_digits a) + left_padding)
                                           (length right + right_padding))%nat
  then Err DecimalSumLimit else
  let a' := {| a_digits := replicate left_padding 0 ++ a_digits a; a_negative := a_negative a;
               a_power := common; a_fractional := fractional |} in
  let '(ds, sign) := combine a' (replicate right_padding 0 ++ right) (negative value) in
  let ds := pop_zeros ds in
  let ds' := drop_while is0 ds in
  let zeros := (length ds - length ds')%nat in
  if bool_decide (MAX_SUM_DIGITS < length ds')%nat then Err DecimalSumLimit
  else Ok {| a_digits := ds'; a_negative := sign; a_power := common + Z.of_nat zeros;
             a_fractional := fractional |}.

Definition digit_char (v : Z) : byte := byte_of_N (Z.to_N (48 + v)).

Definition sum_token (a : Accumulator) : str :=
  (if a_negative a then [byte_of_N 45] else []) ++ (digit_char <$> rev (a_digits a))
    ++ lit "e" ++ dec_Z (a_power a).

(** [Accumulator::finish]. *)
Definition finish (a : Accumulator) : result Sum :=
  if bool_decide (a_digits a = []) then
    Ok (if a_fractional a then Decimal_ (lit "0") else Integer 0)
  else if negb (power_ok (a_power a)) then Err DecimalSumLimit
  else if a_fractional a then rmap Decimal_ (canonical_number (sum_token a))
  else rmap Integer (integer (sum_token a)).

(** [Query::sum] over the values of the scan. *)
Definition sum_step (a : Accumulator) (v : Value) : result Accumulator :=
  if is_empty v then Ok a
  else match v with Number n => add a n | _ => Err UnsupportedSum end.

Definition sum (values : list Value) : result Sum :=
  let? a := try_fold sum_step acc_default values in finish a.

(** [Query::extreme]: the first value whose key no other value beats. *)
Definition extreme_step (max : bool) (best : option (bytes * Value)) (v : Value)
    : result (option (bytes * Value)) :=
  if is_empty v then Ok best
  else
    let? k := encode v in
    Ok (if match best with
           | None => true
           | Some (old, _) => if max then ltb old k else ltb k old
           end
        then Some (k, v) else best).

Definition extreme (max : bool) (values : list Value) : result (option Value) :=
  let? best := try_fold (extreme_step max) None values in Ok (snd <$> best).

(** [GroupQuery::count]: a [BTreeMap] from the equality key to the first value seen and
    the number of values with that key. *)
Definition groups_t : Type := list (bytes * (Value * N)).

Definition group_step (groups : groups_t) (v : Value) : result groups_t :=
  let? k := encode_equality v in
  let '(v', n) := default (v, 0%N) (l_get groups k) in
  Ok (l_insert groups k (v', (n + 1)%N)).

Definition group_count (values : list Value) : result (list (Value * N)) :=
  let? groups := try_fold group_step [] values in Ok (snd <$> groups).

(** [Query::distinct]: the last value seen under each equality key. *)
Definition distinct_step (m : list (bytes * Value)) (v : Value) : result (list (bytes * Value)) :=
  let? k := encode_equality v in Ok (l_insert m k v).

Definition distinct (values : list Value) : result (list Value) :=
  let? m := try_fold distinct_step [] values in Ok (snd <$> m).
End add.
