(* ===== verification/SumSpec.v ===== *)
(** * Correctness of the aggregates

    The digit loops compute exact sums and differences; the accumulator's value is
    the exact sum of the tokens added; [finish] spells that value or says why not. *)
From S2P Require Import Prelude Order Redb Fields OrderedCodec OrderedSpec Sum.
Import ListRedb.
Local Open Scope Z_scope.

(** ** Digit arithmetic *)

(** The number a list of digits spells, least significant digit first. *)
Fixpoint le_val (l : list Z) : Z :=
  match l with [] => 0 | d :: l' => d + 10 * le_val l' end.

Definition digit (d : Z) : Prop := 0 <= d <= 9.

(** No zero at the top: the length tells the size. *)
Definition top_ok (l : list Z) : Prop := ∀ d, last l = Some d → d ≠ 0.

Notation p10 n := (10 ^ Z.of_nat n).

Lemma p10_pos n : 0 < p10 n.
Proof. apply Z.pow_pos_nonneg; lia. Qed.

Lemma p10_S n : p10 (S n) = 10 * p10 n.
Proof. rewrite Nat2Z.inj_succ, Z.pow_succ_r; lia. Qed.

Lemma le_val_app l1 l2 : le_val (l1 ++ l2) = le_val l1 + p10 (length l1) * le_val l2.
Proof. induction l1 as [|d l1 IH]; cbn [le_val app length]; [lia|]. rewrite IH, p10_S. lia. Qed.

Lemma le_val_zeros n : le_val (replicate n 0) = 0.
Proof. induction n; cbn [replicate le_val]; lia. Qed.

Lemma le_val_bound l : Forall digit l → 0 <= le_val l < p10 (length l).
Proof.
  induction 1 as [|d l Hd _ IH]; cbn [le_val length]; [lia|]. rewrite p10_S. unfold digit in Hd. lia.
Qed.

Lemma le_val_top l : Forall digit l → top_ok l → l ≠ [] → p10 (length l - 1) <= le_val l.
Proof.
  intros Hl Ht Hne. destruct l as [|d l] using rev_ind; [done|]. clear IHl.
  apply Forall_app in Hl as [Hl Hd]. rewrite Forall_singleton in Hd.
  rewrite le_val_app, length_app. cbn [length le_val]. replace (length l + 1 - 1)%nat with (length l) by lia.
  assert (d ≠ 0) by (apply Ht; by rewrite last_snoc). unfold digit in Hd.
  pose proof (le_val_bound l Hl). pose proof (p10_pos (length l)). nia.
Qed.

Lemma le_val_head_tail r : le_val r = default 0 (head r) + 10 * le_val (tail r).
Proof. destruct r; simpl; lia. Qed.

Lemma head_digit r : Forall digit r → digit (default 0 (head r)).
Proof. destruct 1; [unfold digit; simpl; lia|done]. Qed.

Lemma add_loop_spec carry l r ds c :
  Forall digit l → Forall digit r → 0 <= carry <= 1 → (length r <= length l)%nat →
  add_loop carry l r = (ds, c) →
  le_val ds + c * p10 (length l) = le_val l + le_val r + carry ∧
  Forall digit ds ∧ 0 <= c <= 1 ∧ length ds = length l.
Proof.
  intros Hl. revert carry r ds c. induction Hl as [|d l Hd Hl IH]; intros carry r ds c Hr Hc Hlen; cbn [add_loop].
  - intros [= <- <-]. destruct r; [|simpl in Hlen; lia]. simpl. split_and!; [lia|constructor|lia..].
  - destruct (add_loop _ l (tail r)) as [ds' c'] eqn:E. intros [= <- <-].
    pose proof (head_digit r Hr) as Hh. unfold digit in Hd, Hh.
    set (n := d + default 0 (head r) + carry) in *.
    assert (0 <= n <= 19) by lia.
    pose proof (Z.div_mod n 10 ltac:(lia)). pose proof (Z.mod_pos_bound n 10 ltac:(lia)).
    assert (0 <= n / 10 <= 1) by lia.
    apply IH in E as (E & Hds & Hc' & Hn); [| |done|].
    + cbn [le_val length]. rewrite p10_S, (le_val_head_tail r). split_and!; [lia| |lia..].
      constructor; [unfold digit; lia|done].
    + by destruct Hr.
    + destruct r; simpl in *; lia.
Qed.

Lemma le_val_resize n l : le_val (resize0 n l) = le_val l.
Proof. unfold resize0. rewrite le_val_app, le_val_zeros. lia. Qed.

Lemma zeros_digit n : Forall digit (replicate n 0).
Proof. apply Forall_replicate. unfold digit. lia. Qed.

Lemma add_digits_spec l r : Forall digit l → Forall digit r →
  le_val (add_digits l r) = le_val l + le_val r ∧ Forall digit (add_digits l r).
Proof.
  intros Hl Hr. unfold add_digits. set (l' := resize0 _ l).
  assert (Hl' : Forall digit l') by (apply Forall_app; split; [done|apply zeros_digit]).
  assert (Hlen : (length r <= length l')%nat)
    by (subst l'; unfold resize0; rewrite length_app, length_replicate; lia).
  destruct (add_loop 0 l' r) as [ds c] eqn:E.
  apply add_loop_spec in E as (E & Hds & Hc & Hn); [|done..|lia|done].
  assert (le_val l' = le_val l) as El by apply le_val_resize.
  destruct (Z.ltb_spec 0 c).
  - rewrite le_val_app, Hn. cbn [le_val]. split; [lia|]. apply Forall_app. split; [done|].
    apply Forall_singleton. unfold digit. lia.
  - split; [lia|done].
Qed.

Lemma sub_loop_spec b l r : Forall digit l → Forall digit r → 0 <= b <= 1 →
  (length r <= length l)%nat → le_val r + b <= le_val l →
  le_val (sub_loop b l r) = le_val l - le_val r - b ∧ Forall digit (sub_loop b l r).
Proof.
  intros Hl. revert b r. induction Hl as [|d l Hd Hl IH]; intros b r Hr Hb Hlen Hle; cbn [sub_loop].
  - destruct r; [|simpl in Hlen; lia]. simpl in *. split; [lia|constructor].
  - pose proof (head_digit r Hr) as Hh. unfold digit in Hd, Hh. rewrite (le_val_head_tail r) in *.
    cbn [le_val] in *. set (n := d - default 0 (head r) - b) in *.
    destruct (IH (if n <? 0 then 1 else 0) (tail r)) as [E Hds].
    + by destruct Hr.
    + by destruct (n <? 0).
    + destruct r; simpl in *; lia.
    + destruct (Z.ltb_spec n 0); lia.
    + split.
      * rewrite E. destruct (Z.ltb_spec n 0); lia.
      * constructor; [|done]. unfold digit. destruct (Z.ltb_spec n 0); lia.
Qed.

(** Reading both numbers from the top digit down. *)
Lemma rev_cmp_val l : ∀ r, length l = length r → Forall digit l → Forall digit r →
  list_cmp (rev l) (rev r) = (le_val l ?= le_val r).
Proof.
  induction l as [|a l IH] using rev_ind; intros r Hn Hl Hr.
  - by destruct r.
  - destruct r as [|b r _] using rev_ind; [rewrite length_app in Hn; simpl in Hn; lia|].
    rewrite !length_app in Hn. simpl in Hn. assert (Hn' : length l = length r) by lia.
    apply Forall_app in Hl as [Hl Ha], Hr as [Hr Hb]. rewrite Forall_singleton in Ha, Hb.
    rewrite !rev_unit. cbn [list_cmp]. rewrite !le_val_app, Hn'. cbn [le_val].
    pose proof (le_val_bound l Hl) as B1. pose proof (le_val_bound r Hr) as B2. rewrite Hn' in B1.
    change (cmp a b) with (a ?= b).
    destruct (Z.compare_spec a b) as [->|Hab|Hab].
    + rewrite IH by done. destruct (Z.compare_spec (le_val l) (le_val r)), (Z.compare_spec
        (le_val l + p10 (length r) * (b + 10 * 0)) (le_val r + p10 (length r) * (b + 10 * 0))); done || lia.
    + symmetry. apply Z.compare_lt_iff. nia.
    + symmetry. apply Z.compare_gt_iff. nia.
Qed.

Lemma digits_order_spec l r :
  Forall digit l → Forall digit r → top_ok l → top_ok r → l ≠ [] → r ≠ [] →
  match digits_order l r with
  | Lt => le_val l <= le_val r ∧ (length l <= length r)%nat
  | _ => le_val r <= le_val l ∧ (length r <= length l)%nat
  end.
Proof.
  intros Hl Hr Tl Tr Nl Nr. unfold digits_order.
  pose proof (le_val_bound l Hl). pose proof (le_val_bound r Hr).
  pose proof (le_val_top l Hl Tl Nl). pose proof (le_val_top r Hr Tr Nr).
  destruct (Nat.compare_spec (length l) (length r)) as [E|E|E].
  - rewrite rev_cmp_val by done. destruct (Z.compare_spec (le_val l) (le_val r)); split; lia.
  - split; [|lia]. assert (p10 (length l) <= p10 (length r - 1)) by (apply Z.pow_le_mono_r; lia). lia.
  - split; [|lia]. assert (p10 (length r) <= p10 (length l - 1)) by (apply Z.pow_le_mono_r; lia). lia.
Qed.

Lemma all_zero_val l : Forall (λ d, is0 d = true) l → le_val l = 0.
Proof. induction 1 as [|d l Hd _ IH]; [done|]. unfold is0 in Hd. apply Z.eqb_eq in Hd. simpl. lia. Qed.

Lemma pop_zeros_spec l : Forall digit l →
  le_val (pop_zeros l) = le_val l ∧ Forall digit (pop_zeros l) ∧ top_ok (pop_zeros l).
Proof.
  intros Hl. unfold pop_zeros. destruct (drop_while_suffix is0 (rev l)) as (p & E & Hp).
  apply (f_equal (@rev Z)) in E. rewrite rev_involutive, rev_app_distr in E.
  assert (Forall digit (rev (drop_while is0 (rev l)))) by (rewrite E in Hl; by apply Forall_app in Hl as [? _]).
  split_and!; [|done|].
  - rewrite E at 2. rewrite le_val_app, (all_zero_val (rev p)); [lia|].
    apply Forall_forall. intros x Hx%list_elem_of_In%in_rev%list_elem_of_In.
    rewrite Forall_forall in Hp. auto.
  - intros d. rewrite last_rev. intros Hd%drop_while_head. unfold is0 in Hd. lia.
Qed.

Lemma drop_zeros_spec l : Forall digit l → top_ok l →
  le_val l = le_val (drop_while is0 l) * p10 (length l - length (drop_while is0 l)) ∧
  Forall digit (drop_while is0 l) ∧ top_ok (drop_while is0 l).
Proof.
  intros Hl Ht. destruct (drop_while_suffix is0 l) as (p & E & Hp).
  set (q := drop_while is0 l) in *. rewrite E in Hl. apply Forall_app in Hl as [_ Hq].
  split_and!; [|done|].
  - rewrite E, le_val_app, length_app, all_zero_val by done.
    replace (length p + length q - length q)%nat with (length p) by lia. lia.
  - intros d Hd. apply Ht. rewrite E. destruct q; [done|]. by rewrite last_app_cons.
Qed.

(** ** The accumulator *)

Record acc_ok (a : Accumulator) : Prop := {
  ao_digits : Forall digit (a_digits a);
  ao_top : top_ok (a_digits a);
  ao_bottom : ∀ d, head (a_digits a) = Some d → d ≠ 0;
  ao_power : a_digits a ≠ [] → - MAX_SUM_EXPONENT <= a_power a;
  ao_whole : a_digits a ≠ [] → a_fractional a = false → 0 <= a_power a;
  ao_length : (length (a_digits a) <= MAX_SUM_DIGITS)%nat;
}.

(** The accumulated value times [10 ^ 4096]: an integer, as no power is below -4096. *)
Definition sign_of (neg : bool) : Z := if neg then -1 else 1.
Definition acc_val (a : Accumulator) : Z :=
  sign_of (a_negative a) * le_val (a_digits a) * 10 ^ (a_power a + MAX_SUM_EXPONENT).
Definition dec_val (d : Decimal) : Z := scaled MAX_SUM_EXPONENT d.

(** A decimal without a fractional part. *)
Definition whole (d : Decimal) : bool := bool_decide (digits d = []) || (0 <=? power d).

Lemma le_val_digits s : le_val (rev (digit_val <$> s)) = digits_val s.
Proof.
  induction s as [|b s IH]; [done|]. cbn [fmap list_fmap rev]. fold (digit_val <$> s).
  rewrite le_val_app, IH, digits_val_cons, length_rev, length_fmap. cbn [le_val]. lia.
Qed.

Lemma right_ok d : dec_normal d →
  Forall digit (rev (digit_val <$> digits d)) ∧ top_ok (rev (digit_val <$> digits d)) ∧
  (∀ x, head (rev (digit_val <$> digits d)) = Some x → x ≠ 0).
Proof.
  intros Hn. pose proof (dn_digits d Hn) as Hd.
  assert (Hp : ∀ b, b ∈ digits d → is_zero b = false → digit_val b ≠ 0).
  { intros b Hb Hz. rewrite Forall_forall in Hd. pose proof (digit_val_zero b (Hd b Hb) Hz). lia. }
  split_and!.
  - apply Forall_rev, Forall_fmap. eapply Forall_impl; [exact Hd|]. intros b. apply digit_val_range.
  - intros x. rewrite last_rev. destruct (digits d) as [|b l] eqn:E; [done|]. intros [= <-].
    apply Hp; [by left|]. apply (dn_head d Hn). by rewrite E.
  - intros x. rewrite <-last_rev, rev_involutive, fmap_last. intros (b & Eb & ->)%fmap_Some.
    apply Hp; [by eapply list_elem_of_lookup_2; rewrite <-last_lookup|]. by apply (dn_last d Hn).
Qed.

Lemma pad_spec n l : Forall digit l → top_ok l → l ≠ [] →
  Forall digit (replicate n 0 ++ l) ∧ top_ok (replicate n 0 ++ l) ∧ replicate n 0 ++ l ≠ [] ∧
  le_val (replicate n 0 ++ l) = p10 n * le_val l.
Proof.
  intros Hl Ht Hne. split_and!.
  - apply Forall_app. split; [apply zeros_digit|done].
  - intros d Hd. apply Ht. destruct l; [done|]. by rewrite last_app_cons in Hd.
  - by destruct (replicate n 0), l.
  - rewrite le_val_app, le_val_zeros, length_replicate. lia.
Qed.

Lemma combine_spec a right neg ds sign :
  Forall digit (a_digits a) → top_ok (a_digits a) → a_digits a ≠ [] →
  Forall digit right → top_ok right → right ≠ [] →
  combine a right neg = (ds, sign) →
  Forall digit ds ∧
  sign_of sign * le_val ds = sign_of (a_negative a) * le_val (a_digits a) + sign_of neg * le_val right.
Proof.
  intros Hl Tl Nl Hr Tr Nr. unfold combine.
  destruct (Bool.eqb (a_negative a) neg) eqn:E.
  - apply eqb_prop in E as <-. intros [= <- <-].
    destruct (add_digits_spec (a_digits a) right Hl Hr) as [-> ?]. split; [done|lia].
  - pose proof (digits_order_spec _ _ Hl Hr Tl Tr Nl Nr) as Ho.
    assert (Hs : sign_of neg = - sign_of (a_negative a)) by (by destruct (a_negative a), neg).
    destruct (digits_order (a_digits a) right); destruct Ho as [Ho Hn]; intros [= <- <-].
    2: destruct (sub_loop_spec 0 right (a_digits a) Hr Hl ltac:(lia) Hn ltac:(lia)) as [-> ?]; split; [done|lia].
    all: destruct (sub_loop_spec 0 (a_digits a) right Hl Hr ltac:(lia) Hn ltac:(lia)) as [-> ?]; split; [done|lia].
Qed.

Lemma pow_split a b : 0 <= a → 0 <= b → 10 ^ (a + b) = 10 ^ a * 10 ^ b.
Proof. intros. by apply Z.pow_add_r. Qed.

(** ** The window of an addition

    The scaled integer [z] fits at the exponent [e] when it is at most [MAX_SUM_DIGITS]
    digits followed by [e] zeros. *)
Definition fits_at (e z : Z) : Prop :=
  0 <= e ∧ (10 ^ e | z) ∧ Z.abs z < 10 ^ (e + Z.of_nat MAX_SUM_DIGITS).

(** The decimal [d] can be added to the total [T]: its power is in range, one window of
    4096 digits holds both operands, and one holds the result. *)
Definition fits (T : Z) (d : Decimal) : Prop :=
  digits d = [] ∨
  (- MAX_SUM_EXPONENT <= power d <= MAX_SUM_EXPONENT ∧
   (∃ e, fits_at e T ∧ fits_at e (dec_val d)) ∧
   ∃ e, fits_at e (T + dec_val d)).

Lemma le_val_bottom l : (∀ d, head l = Some d → d ≠ 0) → Forall digit l → l ≠ [] → ¬ (10 | le_val l).
Proof.
  intros Hb Hl Hne [q Hq]. destruct Hl as [|d l Hd Hl]; [done|]. specialize (Hb d eq_refl).
  unfold digit in Hd. cbn [le_val] in Hq. lia.
Qed.

Lemma abs_sign neg x : 0 <= x → Z.abs (sign_of neg * x) = x.
Proof. destruct neg; unfold sign_of; lia. Qed.

Lemma divide_sign neg y x : (y | sign_of neg * x) ↔ (y | x).
Proof.
  destruct neg; unfold sign_of; [|by rewrite Z.mul_1_l]. replace (-1 * x) with (- x) by lia. apply Z.divide_opp_r.
Qed.

(** Digits without zeros at the bottom have no more factors of 10 than their exponent. *)
Lemma divide_span e neg l k : Forall digit l → (∀ d, head l = Some d → d ≠ 0) → l ≠ [] → 0 <= k →
  (10 ^ e | sign_of neg * le_val l * 10 ^ k) → e <= k.
Proof.
  intros Hl Hb Hne Hk Hd. rewrite <-Z.mul_assoc in Hd. apply divide_sign in Hd.
  assert (Hk0 : 0 < 10 ^ k) by (apply Z.pow_pos_nonneg; lia).
  apply Z.nlt_ge. intros Hlt. apply (le_val_bottom l Hb Hl Hne).
  apply (Z.mul_divide_cancel_r _ _ (10 ^ k)); [lia|]. apply Z.divide_trans with (10 ^ e); [|done].
  replace e with ((e - k - 1) + (1 + k)) by lia. rewrite pow_split by lia.
  rewrite (pow_split 1 k) by lia. apply Z.divide_factor_r.
Qed.

(** Digits without zeros at the ends fit only where their own span does. *)
Lemma fits_at_span e neg l k : Forall digit l → top_ok l → (∀ d, head l = Some d → d ≠ 0) → l ≠ [] →
  0 <= k → fits_at e (sign_of neg * le_val l * 10 ^ k) →
  e <= k ∧ Z.of_nat (length l) + k <= e + Z.of_nat MAX_SUM_DIGITS.
Proof.
  intros Hl Ht Hb Hne Hk (He & Hd & Ha). split; [by eapply divide_span|].
  rewrite <-Z.mul_assoc in Ha. pose proof (le_val_top l Hl Ht Hne) as Hv. pose proof (p10_pos (length l - 1)).
  assert (Hk0 : 0 < 10 ^ k) by (apply Z.pow_pos_nonneg; lia). rewrite abs_sign in Ha by nia.
  apply Z.nlt_ge. intros Hlt.
  assert (10 ^ (e + Z.of_nat MAX_SUM_DIGITS) <= p10 (length l - 1) * 10 ^ k); [|nia].
  rewrite <-Z.pow_add_r by lia. apply Z.pow_le_mono_r; [lia|]. destruct l; [done|]. cbn [length] in *. lia.
Qed.

Lemma fits_at_zero e : 0 <= e → fits_at e 0.
Proof.
  intros He. split_and!; [done|apply Z.divide_0_r|]. cbn [Z.abs]. apply Z.pow_pos_nonneg; lia.
Qed.

(** And they do fit there, zeros appended or not. *)
Lemma fits_at_digits neg l e n : Forall digit l → 0 <= e → (length l + n <= MAX_SUM_DIGITS)%nat →
  fits_at e (sign_of neg * le_val l * 10 ^ (Z.of_nat n + e)).
Proof.
  intros Hl He Hn. pose proof (le_val_bound l Hl) as Hv.
  assert (He0 : 0 < 10 ^ e) by (apply Z.pow_pos_nonneg; lia). pose proof (p10_pos n) as Hn0.
  rewrite pow_split by lia. split_and!; [done| |].
  - exists (sign_of neg * le_val l * p10 n). ring.
  - rewrite <-Z.mul_assoc, abs_sign by nia.
    apply Z.lt_le_trans with (p10 (length l) * (p10 n * 10 ^ e)); [apply Z.mul_lt_mono_pos_r; nia|].
    rewrite <-!Z.pow_add_r by lia. apply Z.pow_le_mono_r; lia.
Qed.

Section add_proofs.
Context `{TextLibOk}.

Lemma power_ok_range p : negb (power_ok p) = false ↔ - MAX_SUM_EXPONENT <= p <= MAX_SUM_EXPONENT.
Proof. unfold power_ok. rewrite negb_false_iff, andb_true_iff, !Z.leb_le. lia. Qed.

(** What [add] makes of a decimal that was read. *)
Definition add_result (a : Accumulator) (d : Decimal) (r : result Accumulator) : Prop :=
  match r with
  | Ok a' => fits (acc_val a) d ∧ acc_ok a' ∧ acc_val a' = acc_val a + dec_val d ∧
      a_fractional a' = a_fractional a || negb (whole d)
  | Err e => e = DecimalSumLimit ∧ ¬ fits (acc_val a) d
  end.

Lemma power_i128 p : - MAX_SUM_EXPONENT <= p <= MAX_SUM_EXPONENT → checked_i128 p = Some p.
Proof. intros Hp. apply checked_i128_Some. split; [done|]. apply i128_ok_range. unfold MAX_SUM_EXPONENT in Hp. lia. Qed.

Lemma dec_val_right d :
  dec_val d = sign_of (negative d) * le_val (rev (digit_val <$> digits d)) * 10 ^ (power d + MAX_SUM_EXPONENT).
Proof. by rewrite le_val_digits. Qed.

Lemma length_right d : length (rev (digit_val <$> digits d)) = length (digits d).
Proof. by rewrite length_rev, length_fmap. Qed.

Lemma right_nonempty d : digits d ≠ [] → rev (digit_val <$> digits d) ≠ [].
Proof. intros Hd E. apply (f_equal length) in E. rewrite length_right in E. by destruct (digits d). Qed.

Section one_addition.
Context (a : Accumulator) (d : Decimal) (Ha : acc_ok a) (Hn : dec_normal d).
Context (Hd : digits d ≠ []) (Hp : - MAX_SUM_EXPONENT <= power d <= MAX_SUM_EXPONENT).

Lemma dec_fits_span e : fits_at e (dec_val d) →
  e <= power d + MAX_SUM_EXPONENT ∧
  Z.of_nat (length (digits d)) + (power d + MAX_SUM_EXPONENT) <= e + Z.of_nat MAX_SUM_DIGITS.
Proof using Hn Hd Hp.
  rewrite dec_val_right, <-length_right. destruct (right_ok d Hn) as (Hr & Tr & Br).
  apply fits_at_span; [done..|by apply right_nonempty|lia].
Qed.

Lemma acc_fits_span e : a_digits a ≠ [] → fits_at e (acc_val a) →
  e <= a_power a + MAX_SUM_EXPONENT ∧
  Z.of_nat (length (a_digits a)) + (a_power a + MAX_SUM_EXPONENT) <= e + Z.of_nat MAX_SUM_DIGITS.
Proof using Ha. intros Az. pose proof (ao_power a Ha Az). apply fits_at_span; try apply Ha; [done|lia]. Qed.

Let right := rev (digit_val <$> digits d).
Let common := Z.min (a_power a) (power d).
Let left_padding := Z.to_nat (a_power a - common).
Let right_padding := Z.to_nat (power d - common).

(** The first summand becomes the accumulator. *)
Lemma add_first : a_digits a = [] → (length (digits d) <= MAX_SUM_DIGITS)%nat →
  add_result a d (Ok {| a_digits := right; a_negative := negative d; a_power := power d;
                        a_fractional := a_fractional a || (power d <? 0) |}).
Proof.
  intros Az Hlen. destruct (right_ok d Hn) as (Hr & Tr & Br).
  assert (Hv : acc_val a = 0) by (unfold acc_val; rewrite Az; cbn [le_val]; lia).
  assert (Hf : fits_at (power d + MAX_SUM_EXPONENT) (dec_val d)).
  { rewrite dec_val_right. rewrite <-(Z.add_0_l (power d + _)) at 2.
    apply (fits_at_digits _ _ _ 0); [done|lia|]. rewrite length_right. lia. }
  split; [right|split; [|split]].
  - split; [done|]. rewrite Hv. split; (exists (power d + MAX_SUM_EXPONENT)); [split|]; [apply fits_at_zero; lia|done|done].
  - constructor; cbn [a_digits a_power a_fractional]; [done..|lia| |].
    + rewrite orb_false_iff, Z.ltb_ge. naive_solver.
    + subst right. by rewrite length_right.
  - rewrite Hv, dec_val_right. done.
  - cbn [a_fractional]. unfold whole. rewrite bool_decide_eq_false_2 by done. cbn [orb].
    by rewrite Z.leb_antisym, negb_involutive.
Qed.

(** The operands lie too far apart exactly when no window holds both. *)
Lemma operands_window : a_digits a ≠ [] →
  (∃ e, fits_at e (acc_val a) ∧ fits_at e (dec_val d)) ↔
  (Nat.max (length (a_digits a) + left_padding) (length right + right_padding) <= MAX_SUM_DIGITS)%nat.
Proof.
  intros Az. pose proof (ao_power a Ha Az). subst left_padding right_padding common right. split.
  - intros (e & Hf1 & Hf2). apply acc_fits_span in Hf1 as [? ?]; [|done].
    apply dec_fits_span in Hf2 as [? ?]. rewrite length_right. lia.
  - intros Hw. set (common := Z.min (a_power a) (power d)) in *. exists (common + MAX_SUM_EXPONENT).
    destruct (right_ok d Hn) as (Hr & Tr & Br). rewrite dec_val_right. unfold acc_val. split.
    + replace (a_power a + MAX_SUM_EXPONENT)
        with (Z.of_nat (Z.to_nat (a_power a - common)) + (common + MAX_SUM_EXPONENT)) by lia.
      apply fits_at_digits; [apply Ha|lia..].
    + replace (power d + MAX_SUM_EXPONENT)
        with (Z.of_nat (Z.to_nat (power d - common)) + (common + MAX_SUM_EXPONENT)) by lia.
      apply fits_at_digits; [done|lia..].
Qed.

(** What the signed addition leaves once the zeros at both ends are dropped. *)
Lemma combined_value ds sign : a_digits a ≠ [] →
  combine {| a_digits := replicate left_padding 0 ++ a_digits a; a_negative := a_negative a;
             a_power := common; a_fractional := a_fractional a || (power d <? 0) |}
    (replicate right_padding 0 ++ right) (negative d) = (ds, sign) →
  let ds' := drop_while is0 (pop_zeros ds) in
  Forall digit ds' ∧ top_ok ds' ∧
  sign_of sign * le_val ds' *
    10 ^ (common + Z.of_nat (length (pop_zeros ds) - length ds') + MAX_SUM_EXPONENT) = acc_val a + dec_val d.
Proof.
  intros Az Ecm. destruct (right_ok d Hn) as (Hr & Tr & Br). pose proof (ao_power a Ha Az).
  subst left_padding right_padding.
  destruct (pad_spec (Z.to_nat (a_power a - common)) (a_digits a)) as (P1 & P2 & P3 & P4); [apply Ha..|done|].
  destruct (pad_spec (Z.to_nat (power d - common)) right) as (Q1 & Q2 & Q3 & Q4); [done..|by apply right_nonempty|].
  apply combine_spec in Ecm as [Hds Hsum]; [|done..]. cbn [a_digits a_negative] in Hsum.
  rewrite P4, Q4, !Z2Nat.id in Hsum by lia.
  destruct (pop_zeros_spec ds Hds) as (V1 & Hq0 & Tp).
  destruct (drop_zeros_spec _ Hq0 Tp) as (V2 & Hq & Tq). cbn zeta. split; [done|]. split; [done|].
  set (ds' := drop_while is0 (pop_zeros ds)) in *. set (zs := (length (pop_zeros ds) - length ds')%nat) in *.
  unfold acc_val. rewrite dec_val_right. fold right.
  assert (Hc : 0 <= common + MAX_SUM_EXPONENT) by lia.
  replace (common + Z.of_nat zs + MAX_SUM_EXPONENT) with (Z.of_nat zs + (common + MAX_SUM_EXPONENT)) by lia.
  replace (a_power a + MAX_SUM_EXPONENT) with ((a_power a - common) + (common + MAX_SUM_EXPONENT)) by lia.
  replace (power d + MAX_SUM_EXPONENT) with ((power d - common) + (common + MAX_SUM_EXPONENT)) by lia.
  assert (Hl : 0 <= a_power a - common) by lia. assert (Hr' : 0 <= power d - common) by lia.
  generalize dependent (common + MAX_SUM_EXPONENT). intros c Hc.
  rewrite !(pow_split _ c) by lia. rewrite V1 in V2.
  transitivity ((sign_of sign * le_val ds) * 10 ^ c); [rewrite V2; ring|].
  rewrite Hsum. ring.
Qed.

Lemma add_more : a_digits a ≠ [] →
  (Nat.max (length (a_digits a) + left_padding) (length right + right_padding) <= MAX_SUM_DIGITS)%nat →
  ∀ ds sign,
  combine {| a_digits := replicate left_padding 0 ++ a_digits a; a_negative := a_negative a;
             a_power := common; a_fractional := a_fractional a || (power d <? 0) |}
    (replicate right_padding 0 ++ right) (negative d) = (ds, sign) →
  let ds' := drop_while is0 (pop_zeros ds) in
  add_result a d
    (if bool_decide (MAX_SUM_DIGITS < length ds')%nat then Err DecimalSumLimit
     else Ok {| a_digits := ds'; a_negative := sign;
                a_power := common + Z.of_nat (length (pop_zeros ds) - length ds');
                a_fractional := a_fractional a || (power d <? 0) |}).
Proof.
  intros Az Hw ds sign Ecm ds'. destruct (combined_value ds sign Az Ecm) as (Hq & Tq & Hv). fold ds' in Hq, Tq, Hv.
  pose proof (drop_while_head is0 (pop_zeros ds)) as Bq. fold ds' in Bq.
  assert (Bq' : ∀ x, head ds' = Some x → x ≠ 0) by (intros x Hx%Bq; unfold is0 in Hx; lia).
  pose proof (ao_power a Ha Az). assert (Hc : - MAX_SUM_EXPONENT <= common) by (subst common; lia).
  case_bool_decide as Hlen.
  - split; [done|]. intros [?|(_ & _ & (e & Hf))]; [done|]. rewrite <-Hv in Hf.
    assert (ds' ≠ []) by (intros E0; rewrite E0 in Hlen; simpl in Hlen; lia).
    apply fits_at_span in Hf as [? ?]; [|done..|lia]. lia.
  - split; [right|split; [constructor|split]]; cbn [a_digits a_power a_fractional].
    + split; [done|]. split; [by apply operands_window|].
      exists (common + Z.of_nat (length (pop_zeros ds) - length ds') + MAX_SUM_EXPONENT).
      rewrite <-Hv. rewrite <-(Z.add_0_l (common + _ + _)) at 2. apply (fits_at_digits _ _ _ 0); [done|lia..].
    + done.
    + done.
    + done.
    + lia.
    + intros _. rewrite orb_false_iff, Z.ltb_ge. intros [Hf ?]. pose proof (ao_whole a Ha Az Hf). subst common. lia.
    + lia.
    + exact Hv.
    + unfold whole. rewrite bool_decide_eq_false_2 by done. cbn [orb]. by rewrite Z.leb_antisym, negb_involutive.
Qed.
End one_addition.

(** One addition is exact, says whether a fraction was seen, and is refused exactly when
    the decimal does not fit. *)
Lemma add_spec a token d : acc_ok a → parse token = Ok d → add_result a d (add a token).
Proof.
  intros Ha Ed. unfold add. rewrite Ed. cbn [rbind]. pose proof (parse_normal _ _ Ed) as Hn.
  case_bool_decide as Dz.
  { split; [by left|]. split; [done|]. unfold dec_val, whole.
    rewrite scaled_mag, mag_zero, bool_decide_eq_true_2 by done. cbn [orb negb].
    split; [destruct (negative d); lia|by rewrite orb_false_r]. }
  destruct (decide (- MAX_SUM_EXPONENT <= power d <= MAX_SUM_EXPONENT)) as [Hp|Hp].
  2:{ assert (He : add_result a d (Err DecimalSumLimit))
        by (split; [done|]; intros [?|(? & _)]; [done|lia]).
      destruct (checked_i128 (power d)) as [p|] eqn:Ec; cbn [ok_or rbind]; [|done].
      apply checked_i128_Some in Ec as [-> _].
      destruct (negb (power_ok (power d))) eqn:Ep; [done|]. by apply power_ok_range in Ep. }
  rewrite power_i128 by done. cbn [ok_or rbind].
  rewrite (proj2 (power_ok_range (power d)) Hp). cbn [orb].
  case_bool_decide as Hlen.
  { split; [done|]. intros [?|(_ & (e & _ & Hf) & _)]; [done|]. apply dec_fits_span in Hf as [? Hf]; [|done..]. lia. }
  case_bool_decide as Az; [apply add_first; (done || lia)|].
  case_bool_decide as Hw.
  { split; [done|]. intros [?|(_ & He & _)]; [done|]. apply operands_window in He; [lia|done..]. }
  destruct (combine _ _ _) as [ds sign] eqn:Ecm. apply add_more; [done..|lia|exact Ecm].
Qed.
End add_proofs.

(** ** The result *)

Lemma of_dec_digits_val s : all_digits s → digits_val s = Z.of_N (of_dec s).
Proof.
  unfold digits_val, of_dec, of_dec_from. change 0 with (Z.of_N 0). generalize 0%N.
  intros n Hs. revert n. induction Hs as [|b s Hb _ IH]; intros n; [done|]. cbn [fold_left].
  rewrite <-IH. f_equal. unfold digit_val. unfold is_digit in Hb.
  apply andb_true_iff in Hb as [Hb _]. apply N.leb_le in Hb. lia.
Qed.

Lemma dec_digits_ok n : all_digits (dec n).
Proof. exact (dec_all_digits n). Qed.
#[local] Hint Resolve dec_digits_ok : clove.

Lemma digits_val_dec n : digits_val (dec n) = Z.of_N n.
Proof. by rewrite of_dec_digits_val, of_dec_dec by auto with clove. Qed.

Lemma forallb_digits s : all_digits s → forallb is_digit s = true.
Proof.
  intros Hs. apply forallb_forall. intros b Hb%list_elem_of_In.
  unfold all_digits in Hs. rewrite Forall_forall in Hs. auto.
Qed.

Lemma parse_i128_signed (neg : bool) ds : all_digits ds → ds ≠ [] →
  parse_i128 ((if neg then [byte_of_N 45] else []) ++ ds) = checked_i128 (sign_of neg * digits_val ds).
Proof.
  intros Hd Hne. unfold parse_i128. assert (Hf := forallb_digits ds Hd). destruct neg; cbn [app sign_of].
  - change (ascii 45 (byte_of_N 45)) with true. cbn match. rewrite Hf, bool_decide_eq_false_2 by done.
    cbn [orb negb]. done.
  - destruct ds as [|b ds]; [done|]. pose proof Hd as [Hb _]%Forall_cons.
    rewrite !digit_ascii by (done || lia). rewrite Hf, bool_decide_eq_false_2 by done.
    cbn [orb negb]. f_equal. lia.
Qed.

Lemma parse_i128_dec_Z z : parse_i128 (dec_Z z) = checked_i128 z.
Proof.
  unfold dec_Z. destruct (Z.ltb_spec z 0).
  - change (?b :: ?l) with ((if true then [b] else []) ++ l). rewrite (parse_i128_signed true) by auto with clove.
    rewrite digits_val_dec. f_equal. unfold sign_of. lia.
  - change (dec ?n) with ((if false then [byte_of_N 45] else []) ++ dec n). rewrite (parse_i128_signed false) by auto with clove.
    rewrite digits_val_dec. f_equal. unfold sign_of. lia.
Qed.

Lemma drop_while_id {A} (f : A → bool) l : (∀ b, head l = Some b → f b = false) → drop_while f l = l.
Proof. destruct l as [|b l]; [done|]. intros H. simpl. by rewrite (H b). Qed.

Lemma trim0_id s : (∀ b, head s = Some b → is_zero b = false) →
  (∀ b, last s = Some b → is_zero b = false) → trim0 s = s.
Proof.
  intros Hh Hl. unfold trim0, trim_start0, trim_end0. rewrite (drop_while_id _ s) by done.
  rewrite drop_while_id; [apply rev_involutive|]. intros b Hb. apply Hl.
  by rewrite <-(rev_involutive s), last_rev.
Qed.

Lemma digit_char_val v : digit v → digit_val (digit_char v) = v ∧ is_digit (digit_char v) = true.
Proof.
  unfold digit, digit_val, is_digit, digit_char. intros Hv. rewrite byte_to_of_N.
  rewrite N.mod_small by lia. rewrite andb_true_iff, !N.leb_le. lia.
Qed.

Lemma digit_char_zero v : digit v → v ≠ 0 → is_zero (digit_char v) = false.
Proof.
  unfold digit, is_zero, ascii, digit_char. intros Hv Hz. rewrite byte_to_of_N.
  rewrite N.mod_small by lia. apply N.eqb_neq. lia.
Qed.

(** The digits of [finish], most significant first. *)
Definition sum_digits (a : Accumulator) : str := digit_char <$> rev (a_digits a).

Section sum_digits.
Context (a : Accumulator) (Ha : acc_ok a).

Lemma sum_digits_all : all_digits (sum_digits a).
Proof.
  apply Forall_fmap, Forall_rev. eapply Forall_impl; [apply Ha|]. intros v Hv. by apply digit_char_val.
Qed.

Lemma sum_digits_elem v : v ∈ a_digits a → digit v.
Proof. pose proof (ao_digits a Ha) as Hd. rewrite Forall_forall in Hd. auto. Qed.

Lemma sum_digits_head b : head (sum_digits a) = Some b → is_zero b = false.
Proof.
  unfold sum_digits. rewrite <-last_rev, <-map_rev, rev_involutive.
  intros Hb. change (last (digit_char <$> a_digits a) = Some b) in Hb.
  rewrite fmap_last in Hb. apply fmap_Some in Hb as (v & Ev & ->).
  apply digit_char_zero; [|by apply (ao_top a Ha)].
  apply sum_digits_elem. eapply list_elem_of_lookup_2. by rewrite <-last_lookup.
Qed.

Lemma sum_digits_last b : last (sum_digits a) = Some b → is_zero b = false.
Proof.
  unfold sum_digits. rewrite fmap_last, last_rev. intros (v & Ev & ->)%fmap_Some.
  apply digit_char_zero; [|by apply (ao_bottom a Ha)].
  apply sum_digits_elem. destruct (a_digits a); [done|]. injection Ev as ->. by left.
Qed.

Lemma sum_digits_nonempty : a_digits a ≠ [] → sum_digits a ≠ [].
Proof.
  intros Hne E. apply Hne. apply (f_equal length) in E. unfold sum_digits in E.
  rewrite length_fmap, length_rev in E. by destruct (a_digits a).
Qed.

Lemma sum_digits_val : digits_val (sum_digits a) = le_val (a_digits a).
Proof.
  rewrite <-le_val_digits. unfold sum_digits. f_equal.
  rewrite <-list_fmap_compose. rewrite <-(rev_involutive (a_digits a)) at 2. f_equal.
  rewrite <-(list_fmap_id (rev (a_digits a))) at 2. apply list_fmap_ext.
  intros i v Hv. apply digit_char_val, sum_digits_elem.
  by apply list_elem_of_lookup_2, list_elem_of_In, in_rev, list_elem_of_In in Hv.
Qed.
End sum_digits.

Section finish_proofs.
Context `{TextLibOk} `{!TextLibNumbers}.

(** The token of [finish] as a number of the grammar. *)
Definition sum_parts (a : Accumulator) : number_parts :=
  {| np_neg := a_negative a; np_int := sum_digits a; np_frac := None;
     np_exp := Some (byte_of_N 101, if a_power a <? 0 then Some (byte_of_N 45) else None,
                     dec (Z.to_N (Z.abs (a_power a)))) |}.

Lemma sum_parts_exp a : np_exp_text (sum_parts a) = dec_Z (a_power a).
Proof.
  unfold np_exp_text, dec_Z. cbn [sum_parts np_exp].
  destruct (Z.ltb_spec (a_power a) 0); cbn [app]; do 2 f_equal; lia.
Qed.

Lemma sum_parts_text a : np_text (sum_parts a) = sum_token a.
Proof.
  pose proof (sum_parts_exp a) as E. unfold np_exp_text in E. unfold np_text, sum_token.
  cbn [sum_parts np_exp np_neg np_int np_frac] in *. by rewrite E.
Qed.

Lemma sum_parts_ok a : acc_ok a → a_digits a ≠ [] → np_ok (sum_parts a).
Proof.
  intros Ha Hne. constructor; cbn [sum_parts np_int np_frac np_exp].
  - split; [by apply sum_digits_all|by apply sum_digits_nonempty].
  - intros b l E Hz. pose proof (sum_digits_head a Ha b) as Hb. rewrite E, Hz in Hb. by specialize (Hb eq_refl).
  - done.
  - intros e sign ds [= <- <- <-]. split_and!; [done| |auto with clove..].
    intros b. by destruct (a_power a <? 0); intros [= <-].
Qed.

(** Reading the token back gives the digits, the sign and the power. *)
Definition sum_decimal (a : Accumulator) : Decimal :=
  {| negative := a_negative a; digits := sum_digits a;
     exponent := a_power a + Z.of_nat (length (sum_digits a)) |}.

Lemma sum_decimal_power a : power (sum_decimal a) = a_power a.
Proof. unfold power. cbn [sum_decimal exponent digits]. lia. Qed.

Lemma sum_decimal_val a : acc_ok a → scaled MAX_SUM_EXPONENT (sum_decimal a) = acc_val a.
Proof. intros Ha. unfold scaled, acc_val. rewrite sum_decimal_power. cbn [sum_decimal digits negative]. by rewrite sum_digits_val. Qed.

Lemma parse_sum_token a : acc_ok a → a_digits a ≠ [] → power_ok (a_power a) = true →
  parse (sum_token a) = Ok (sum_decimal a) ∧ dec_normal (sum_decimal a).
Proof.
  intros Ha Hne Hp. pose proof (sum_parts_ok a Ha Hne) as Hok.
  assert (Hr : - MAX_SUM_EXPONENT <= a_power a <= MAX_SUM_EXPONENT)
    by (apply power_ok_range; by rewrite Hp).
  assert (Hl : Z.of_nat (length (sum_digits a)) <= 4096).
  { pose proof (ao_length a Ha). unfold sum_digits. rewrite length_fmap, length_rev.
    unfold MAX_SUM_DIGITS in *. lia. }
  assert (Hi : ∀ z, - 8192 <= z <= 8192 → checked_i128 z = Some z).
  { intros z Hz. apply checked_i128_Some. split; [done|]. apply i128_ok_range. lia. }
  assert (Et : trim0 (sum_digits a) = sum_digits a).
  { apply trim0_id; intros b; [by apply sum_digits_head|by apply sum_digits_last]. }
  assert (Es : trim_start0 (sum_digits a) = sum_digits a).
  { apply drop_while_id. intros b. by apply sum_digits_head. }
  assert (E : parse (sum_token a) = Ok (sum_decimal a)).
  { unfold parse. rewrite <-sum_parts_text, raw_number by done. cbn [ok_or rbind].
    rewrite parse_token_parts, sum_parts_exp, parse_i128_dec_Z by done. unfold np_fraction.
    cbn [sum_parts np_int np_frac np_neg from_option]. rewrite app_nil_r, Es, Et.
    unfold MAX_SUM_EXPONENT in Hr. rewrite bool_decide_eq_false_2 by by apply sum_digits_nonempty.
    rewrite Z.sub_diag, (Hi (a_power a)) by lia. cbn [ok_or rbind]. rewrite (Hi (_ + _)) by lia.
    change (Some ?v ≫= ?f) with (f v). cbn beta. rewrite Z.sub_0_r, Hi by lia. done. }
  split; [done|]. by eapply parse_normal.
Qed.

(** A total whose last significant digit stands for more than [10 ^ 4096]. *)
Definition too_large (T : Z) : Prop := T ≠ 0 ∧ (10 ^ (1 + 2 * MAX_SUM_EXPONENT) | T).

(** What is returned for the total [T] of summands that are all whole, or not. *)
Definition spelled (whole : bool) (T : Z) (r : result Sum) : Prop :=
  match r with
  | Ok (Integer z) => whole = true ∧ z * 10 ^ MAX_SUM_EXPONENT = T ∧ i128_ok z = true
  | Ok (Decimal_ c) => whole = false ∧ ¬ too_large T ∧
      ∃ d, dec_normal d ∧ canonical d = Ok c ∧ scaled MAX_SUM_EXPONENT d = T
  | Err e =>
      (e = SumOverflow ∧ whole = true ∧ ¬ too_large T ∧
         ∃ z, z * 10 ^ MAX_SUM_EXPONENT = T ∧ i128_ok z = false)
      ∨ (e = DecimalSumLimit ∧ too_large T)
  end.

(** What [finish] returns for an accumulated value. *)
Definition finish_exact (a : Accumulator) : Prop := spelled (negb (a_fractional a)) (acc_val a) (finish a).

Lemma le_val_pos a : acc_ok a → a_digits a ≠ [] → 0 < le_val (a_digits a).
Proof.
  intros Ha Hne. pose proof (le_val_top _ (ao_digits a Ha) (ao_top a Ha) Hne).
  pose proof (p10_pos (length (a_digits a) - 1)). lia.
Qed.

Lemma not_too_large a : acc_ok a → a_digits a ≠ [] → power_ok (a_power a) = true → ¬ too_large (acc_val a).
Proof.
  intros Ha Hne Hp [_ Hd]. pose proof (ao_power a Ha Hne).
  assert (- MAX_SUM_EXPONENT <= a_power a <= MAX_SUM_EXPONENT) by (apply power_ok_range; by rewrite Hp).
  apply divide_span in Hd; [lia|apply Ha..|done|lia].
Qed.

Lemma finish_zero a : a_digits a = [] → finish_exact a.
Proof.
  intros E. unfold finish_exact, finish, acc_val. rewrite E. cbn [bool_decide_eq_true_2 le_val].
  rewrite bool_decide_eq_true_2 by done. rewrite Z.mul_0_r, Z.mul_0_l.
  destruct (a_fractional a); [|done]. split; [done|]. split; [by intros []|].
  exists {| negative := false; digits := []; exponent := 0 |}. split; [by constructor|]. done.
Qed.

Lemma finish_limit a : acc_ok a → a_digits a ≠ [] → power_ok (a_power a) = false → finish_exact a.
Proof.
  intros Ha Hne Hp. unfold finish_exact, finish. rewrite bool_decide_eq_false_2, Hp by done.
  cbn [negb]. right. split; [done|]. pose proof (le_val_pos a Ha Hne). pose proof (ao_power a Ha Hne).
  assert (MAX_SUM_EXPONENT < a_power a).
  { unfold power_ok in Hp. apply andb_false_iff in Hp as [Hp|Hp]; apply Z.leb_gt in Hp; lia. }
  unfold acc_val. split.
  - assert (0 < 10 ^ (a_power a + MAX_SUM_EXPONENT)) by (apply Z.pow_pos_nonneg; unfold MAX_SUM_EXPONENT in *; lia).
    unfold sign_of. destruct (a_negative a); nia.
  - apply Z.divide_mul_r. exists (10 ^ (a_power a - MAX_SUM_EXPONENT - 1)).
    unfold MAX_SUM_EXPONENT in *. rewrite <-Z.pow_add_r by lia. f_equal. lia.
Qed.

Lemma zeros_val n : digits_val (replicate n (byte_of_N 48)) = 0 ∧ all_digits (replicate n (byte_of_N 48)).
Proof.
  split; [|by apply Forall_replicate]. apply digits_val_zeros. by apply Forall_replicate.
Qed.

Lemma i128_ok_opp_big z : 2 ^ 127 < z → i128_ok z = false ∧ i128_ok (- z) = false.
Proof. intros. split; apply not_true_iff_false; rewrite i128_ok_range; lia. Qed.

Lemma finish_integer a : acc_ok a → a_digits a ≠ [] → power_ok (a_power a) = true →
  a_fractional a = false → finish_exact a.
Proof.
  intros Ha Hne Hp Hf. unfold finish_exact, finish. rewrite bool_decide_eq_false_2, Hp, Hf by done.
  cbn [negb]. unfold integer. destruct (parse_sum_token a Ha Hne Hp) as [-> Hn]. cbn [rbind].
  assert (Hd0 : digits (sum_decimal a) ≠ []) by by apply sum_digits_nonempty.
  rewrite bool_decide_eq_false_2 by done. rewrite sum_decimal_power.
  assert (Hr : - MAX_SUM_EXPONENT <= a_power a <= MAX_SUM_EXPONENT)
    by (apply power_ok_range; by rewrite Hp).
  pose proof (ao_whole a Ha Hne Hf) as Hw. pose proof (le_val_pos a Ha Hne) as Hpos.
  set (z := sign_of (a_negative a) * (le_val (a_digits a) * 10 ^ a_power a)).
  assert (Ez : z * 10 ^ MAX_SUM_EXPONENT = acc_val a).
  { unfold acc_val. rewrite Z.pow_add_r by (unfold MAX_SUM_EXPONENT; lia). subst z. ring. }
  assert (checked_i128 (a_power a) = Some (a_power a)) as ->.
  { apply checked_i128_Some. split; [done|]. apply i128_ok_range. unfold MAX_SUM_EXPONENT in Hr. lia. }
  cbn [ok_or rbind]. destruct (Z.ltb_spec (a_power a) 0); [lia|].
  destruct (Z.ltb_spec 38 (a_power a)).
  { cbn [rmap]. left. split_and!; [done..|by apply not_too_large|]. exists z. split; [done|].
    assert (10 ^ 39 <= 10 ^ a_power a) by (apply Z.pow_le_mono_r; lia).
    assert (2 ^ 127 < 10 ^ 39) by done.
    destruct (i128_ok_opp_big (le_val (a_digits a) * 10 ^ a_power a)) as [B1 B2]; [nia|].
    subst z. unfold sign_of. destruct (a_negative a); [|by rewrite Z.mul_1_l].
    by replace (-1 * _) with (- (le_val (a_digits a) * 10 ^ a_power a)) by lia. }
  cbn [sum_decimal negative digits]. destruct (zeros_val (Z.to_nat (a_power a))) as [V0 A0].
  rewrite parse_i128_signed.
  2:{ apply Forall_app. split; [by apply sum_digits_all|done]. }
  2:{ intros E. apply app_eq_nil in E as [E _]. by apply Hd0. }
  rewrite digits_val_app, V0, length_replicate, Z2Nat.id, sum_digits_val, Z.add_0_r by done.
  fold z. unfold checked_i128. destruct (i128_ok z) eqn:Ei; cbn [ok_or rmap]; [done|].
  left. split_and!; [done..|by apply not_too_large|eauto].
Qed.

Lemma finish_decimal a : acc_ok a → a_digits a ≠ [] → power_ok (a_power a) = true →
  a_fractional a = true → finish_exact a.
Proof.
  intros Ha Hne Hp Hf. unfold finish_exact, finish. rewrite bool_decide_eq_false_2, Hp, Hf by done.
  cbn [negb]. unfold canonical_number. destruct (parse_sum_token a Ha Hne Hp) as [-> Hn]. cbn [rbind].
  assert (Hr : - MAX_SUM_EXPONENT <= a_power a <= MAX_SUM_EXPONENT)
    by (apply power_ok_range; by rewrite Hp).
  destruct (canonical (sum_decimal a)) as [c|e] eqn:E; cbn [rmap].
  - split; [done|]. split; [by apply not_too_large|]. exists (sum_decimal a).
    split_and!; [done..|]. by apply sum_decimal_val.
  - exfalso. unfold canonical in E. case_bool_decide; [done|]. rewrite sum_decimal_power in E.
    assert (checked_i128 (a_power a) = Some (a_power a)) as Ec.
    { apply checked_i128_Some. split; [done|]. apply i128_ok_range. unfold MAX_SUM_EXPONENT in Hr. lia. }
    by rewrite Ec in E.
Qed.

Lemma finish_spec a : acc_ok a → finish_exact a.
Proof.
  intros Ha. destruct (decide (a_digits a = [])); [by apply finish_zero|].
  destruct (power_ok (a_power a)) eqn:Hp; [|by apply finish_limit].
  destruct (a_fractional a) eqn:Hf; [by apply finish_decimal|by apply finish_integer].
Qed.
End finish_proofs.

(** ** Properties *)

(** The decimals a sum runs over: every value that is neither missing nor null. *)
Definition summands `{TextLib} (values : list Value) (ds : list Decimal) : Prop :=
  Forall2 (λ v d, ∃ t, v = Number t ∧ parse t = Ok d) (filter (λ v, is_empty v = false) values) ds.

(** The exact total, times [10 ^ 4096]. *)
Definition total (ds : list Decimal) : Z := foldr (λ d z, dec_val d + z) 0 ds.

(** Every summand could be added to the total of those before it. *)
Fixpoint all_fit (T : Z) (ds : list Decimal) : Prop :=
  match ds with [] => True | d :: ds' => fits T d ∧ all_fit (T + dec_val d) ds' end.

(** The value [v], next after the total [T], stops the scan with [e]. *)
Definition stops `{TextLib} (T : Z) (v : Value) (e : ClError) : Prop :=
  is_empty v = false ∧
  match v with
  | Number t => match parse t with Ok d => e = DecimalSumLimit ∧ ¬ fits T d | Err e' => e = e' end
  | _ => e = UnsupportedSum
  end.

Section sums.
Context `{TextLibOk}.

(** What the scan makes of an accumulator. *)
Definition fold_result (a : Accumulator) (values : list Value) (r : result Accumulator) : Prop :=
  match r with
  | Ok a' => ∃ ds, summands values ds ∧ all_fit (acc_val a) ds ∧ acc_ok a' ∧
      acc_val a' = acc_val a + total ds ∧ a_fractional a' = a_fractional a || negb (forallb whole ds)
  | Err e => ∃ pre v post ds, values = pre ++ v :: post ∧ summands pre ds ∧ all_fit (acc_val a) ds ∧
      stops (acc_val a + total ds) v e
  end.

Lemma summands_empty v values ds : is_empty v = true → summands values ds → summands (v :: values) ds.
Proof. intros Ev. unfold summands. rewrite filter_cons, decide_False by by rewrite Ev. done. Qed.

Lemma summands_number t d values ds : parse t = Ok d → summands values ds → summands (Number t :: values) (d :: ds).
Proof. intros Ed. unfold summands. rewrite filter_cons, decide_True by done. constructor; eauto. Qed.

Lemma stops_now a v e values : acc_ok a → sum_step a v = Err e → fold_result a (v :: values) (Err e).
Proof.
  intros Ha E. exists [], v, values, []. split; [done|]. split; [constructor|]. split; [done|].
  cbn [total foldr]. rewrite Z.add_0_r. unfold sum_step in E. destruct (is_empty v) eqn:Ev; [done|]. split; [done|].
  destruct v as [| | |t| | | |]; try (by injection E as <-). destruct (parse t) as [d|e'] eqn:Ed.
  - pose proof (add_spec a t d Ha Ed) as Hr. by rewrite E in Hr.
  - unfold add in E. rewrite Ed in E. by injection E as <-.
Qed.

Lemma sum_fold_spec values a : acc_ok a → fold_result a values (try_fold sum_step a values).
Proof.
  revert a. induction values as [|v values IH]; intros a Ha; cbn [try_fold].
  - exists []. split; [constructor|]. split; [done|]. split; [done|]. simpl. rewrite orb_false_r. split; [lia|done].
  - destruct (sum_step a v) as [a1|e] eqn:E; cbn [rbind]; [|by apply stops_now].
    unfold sum_step in E. destruct (is_empty v) eqn:Ev.
    + injection E as <-. specialize (IH a Ha). destruct (try_fold _ a values) as [a'|e].
      * destruct IH as (ds & ? & ?). exists ds. split; [by apply summands_empty|done].
      * destruct IH as (pre & w & post & ds & -> & Hs & ?). exists (v :: pre), w, post, ds.
        split; [done|]. split; [by apply summands_empty|done].
    + destruct v as [| | |t| | | |]; try done. destruct (parse t) as [d|e] eqn:Ed; [|unfold add in E; by rewrite Ed in E].
      pose proof (add_spec a t d Ha Ed) as Hr. rewrite E in Hr. destruct Hr as (Hf & Ha1 & V1 & F1).
      specialize (IH a1 Ha1). destruct (try_fold _ a1 values) as [a'|e].
      * destruct IH as (ds & Hs & Hfs & Ha' & V & F). exists (d :: ds). cbn [total foldr forallb all_fit].
        fold (total ds). rewrite <-V1. split_and!; [by apply summands_number|done..|lia|].
        by rewrite F, F1, negb_andb, orb_assoc.
      * destruct IH as (pre & w & post & ds & -> & Hs & Hfs & Hst). exists (Number t :: pre), w, post, (d :: ds).
        cbn [total foldr all_fit]. fold (total ds). rewrite <-V1.
        split_and!; [done|by apply summands_number|done..|]. by rewrite Z.add_assoc, <-V1.
Qed.

Lemma acc_default_ok : acc_ok acc_default.
Proof. constructor; simpl; try done. unfold MAX_SUM_DIGITS. lia. Qed.

Lemma parse_not_overflow t : parse t ≠ Err SumOverflow.
Proof.
  unfold parse. destruct (raw_token t) as [r|]; [|done]. cbn [ok_or rbind]. unfold parse_token.
  destruct r as [|b l]; [done|]. destruct (negb _); [done|].
  destruct (default _ (split_once _ (if ascii 45 b then _ else _))) as [m e].
  destruct (parse_i128 e); [|done]. cbn [ok_or rbind].
  destruct (default _ (split_once _ m)) as [i f].
  destruct (_ ≫= _); [|done]. cbn [ok_or rbind]. by case_bool_decide.
Qed.

Lemma stops_not_overflow T v : ¬ stops T v SumOverflow.
Proof.
  intros [_ Hs]. destruct v as [| | |t| | | |]; try done. destruct (parse t) as [d|e] eqn:E; [by destruct Hs|].
  subst e. by apply (parse_not_overflow t).
Qed.
End sums.

(** C33: the sum of a scan is settled by the exact totals of its values.  Either the
    scan is stopped by its first value that is no number, is no readable number, or does
    not fit: its power is outside [-4096 .. 4096], or no window of 4096 digits holds it
    and the total so far, or none holds the new total; the error is then that value's.
    Or every value fits, and the exact total [T] decides: an integer of [i128] when every
    summand is whole, [SumOverflow] when that integer is outside [i128], the canonical
    spelling of [T] when some summand has a fraction, and [DecimalSumLimit] when the last
    significant digit of [T] stands for more than [10 ^ 4096].  An overflow is never
    reported by a value, only for a whole total. *)
Theorem sum_exact `{TextLibOk} `{!TextLibNumbers} values :
  (∃ ds, summands values ds ∧ all_fit 0 ds ∧ spelled (forallb whole ds) (total ds) (sum values)) ∨
  (∃ pre v post ds e, values = pre ++ v :: post ∧ summands pre ds ∧ all_fit 0 ds ∧
     stops (total ds) v e ∧ e ≠ SumOverflow ∧ sum values = Err e).
Proof.
  unfold sum. pose proof (sum_fold_spec values acc_default acc_default_ok) as Hf. unfold fold_result in Hf.
  change (acc_val acc_default) with (1 * 0 * 10 ^ (0 + MAX_SUM_EXPONENT)) in Hf.
  rewrite Z.mul_0_r, Z.mul_0_l in Hf. destruct (try_fold sum_step acc_default values) as [a|e]; cbn [rbind].
  - destruct Hf as (ds & Hs & Hfs & Ha & Hv & Hw). left. exists ds. split; [done|]. split; [done|].
    pose proof (finish_spec a Ha) as Hx. unfold finish_exact in Hx. rewrite Hv, Hw, Z.add_0_l in Hx.
    cbn [acc_default a_fractional orb] in Hx. by rewrite negb_involutive in Hx.
  - destruct Hf as (pre & v & post & ds & Ev & Hs & Hfs & Hst). right. exists pre, v, post, ds, e.
    rewrite Z.add_0_l in Hst. split_and!; [done..|intros ->; by eapply stops_not_overflow|done].
Qed.

Lemma sum_exact_witness :
  let added := [Number (lit "0.1"); Null; Number (lit "0.2")] in
  let refused := [Number (lit "1e-4096"); Null; Number (lit "1e4096"); Number (lit "1")] in
  (@sum PlainText.plain_text added = Ok (Decimal_ (lit "3e-1")) ∧
   ∃ ds, @summands PlainText.plain_text added ds ∧ all_fit 0 ds ∧ forallb whole ds = false ∧
     ∃ d, dec_normal d ∧ canonical d = Ok (lit "3e-1") ∧ scaled MAX_SUM_EXPONENT d = total ds) ∧
  (@sum PlainText.plain_text refused = Err DecimalSumLimit ∧
   ((∃ ds, @summands PlainText.plain_text refused ds ∧ too_large (total ds)) ∨
    ∃ pre v post ds, refused = pre ++ v :: post ∧ @summands PlainText.plain_text pre ds ∧
      @stops PlainText.plain_text (total ds) v DecimalSumLimit)).
Proof.
  intros added refused. split.
  - assert (E : @sum PlainText.plain_text added = Ok (Decimal_ (lit "3e-1"))) by (vm_compute; reflexivity).
    split; [exact E|].
    destruct (@sum_exact PlainText.plain_text PlainText.plain_text_ok PlainText.plain_text_numbers added)
      as [(ds & Hs & Hf & Hr)|(pre & v & post & ds & e & _ & _ & _ & _ & _ & E')]; [|by rewrite E in E'].
    rewrite E in Hr. destruct Hr as (Hw & _ & d & Hd). eauto 6.
  - assert (E : @sum PlainText.plain_text refused = Err DecimalSumLimit) by (vm_compute; reflexivity).
    split; [exact E|].
    destruct (@sum_exact PlainText.plain_text PlainText.plain_text_ok PlainText.plain_text_numbers refused)
      as [(ds & Hs & Hf & Hr)|(pre & v & post & ds & e & Ev & Hs & _ & Hst & _ & E')].
    + left. rewrite E in Hr. destruct Hr as [(Hc & _)|[_ Hl]]; [discriminate Hc|]. eauto.
    + right. rewrite E in E'. injection E' as <-. eauto 8.
Defined.

(** A total that fits can be refused on the way: [1e4096 + 1 - 1e4096] is 1, but no window
    holds [1e4096] and 1. *)
Example sum_refused_midway :
  @sum PlainText.plain_text (Number <$> [lit "1e4096"; lit "1"; lit "-1e4096"]) = Err DecimalSumLimit ∧
  @sum PlainText.plain_text (Number <$> [lit "1e4096"; lit "-1e4096"; lit "1"]) = Ok (Integer 1).
Proof. vm_compute. split; reflexivity. Qed.

(** The other cases of the code's own tests. *)
Example sum_cases :
  @sum PlainText.plain_text (Number <$> [lit "9e-5"; lit "1e-5"]) = Ok (Decimal_ (lit "1e-4")) ∧
  @sum PlainText.plain_text (Number <$> [lit "-0.9"; lit "0.1"]) = Ok (Decimal_ (lit "-8e-1")) ∧
  @sum PlainText.plain_text (Number <$> [lit "1e-40"; lit "1e40"; lit "-1e40"]) = Ok (Decimal_ (lit "1e-40")) ∧
  @sum PlainText.plain_text (Number <$> [lit "1.0"; lit "2e0"]) = Ok (Integer 3) ∧
  @sum PlainText.plain_text (Number <$> [lit "170141183460469231731687303715884105727"; lit "1"]) = Err SumOverflow ∧
  @sum PlainText.plain_text (Number <$> [lit "1e-4097"]) = Err DecimalSumLimit ∧
  @sum PlainText.plain_text (Number <$> [lit "1e-4096"; lit "1e4096"]) = Err DecimalSumLimit.
Proof. vm_compute. split_and!; reflexivity. Qed.

(** ** Minimum and maximum *)

Section extremes.
Context `{TextLibOk}.

Lemma encode_cmp v w x y : value_wf v = true → value_wf w = true →
  encode v = Ok x → encode w = Ok y → list_cmp x y = value_cmp v w.
Proof.
  intros Wv Ww Ex Ey. pose proof (append_embeds v w x y [] [] Wv Ww Ex Ey) as E.
  rewrite !app_nil_r in E. rewrite E. by destruct (value_cmp v w).
Qed.

(** A key that no key of the values seen so far beats. *)
Definition beats (max : bool) (x y : bytes) : bool := if max then ltb y x else ltb x y.

Definition best_of (max : bool) (seen : list Value) (best : option (bytes * Value)) : Prop :=
  match best with
  | None => Forall (λ v, is_empty v = true) seen
  | Some (k, v) => v ∈ seen ∧ is_empty v = false ∧ encode v = Ok k ∧
      ∀ w, w ∈ seen → is_empty w = false → ∃ x, encode w = Ok x ∧ beats max x k = false
  end.

Lemma beats_trans max x y z : beats max y x = true → beats max z x = true ∨ beats max z y = false.
Proof.
  unfold beats. destruct max; intros H1%ltb_lt.
  - destruct (ltb y z) eqn:E; [left|by right]. apply ltb_lt in E. apply ltb_lt. by etrans.
  - destruct (ltb z y) eqn:E; [left|by right]. apply ltb_lt in E. apply ltb_lt. by etrans.
Qed.

Lemma beats_irrefl max x : beats max x x = false.
Proof.
  unfold beats. destruct max; apply not_true_iff_false; rewrite ltb_lt; apply key_lt_irrefl.
Qed.

Lemma extreme_step_spec max seen best v best' :
  best_of max seen best → extreme_step max best v = Ok best' → best_of max (seen ++ [v]) best'.
Proof.
  intros Hb. unfold extreme_step. destruct (is_empty v) eqn:Ev.
  - intros [= <-]. destruct best as [[k u]|]; cbn [best_of] in *.
    + destruct Hb as (Hu & He & Hk & Hw). split_and!; [set_solver|done..|].
      intros w [Hin| ->%list_elem_of_singleton]%elem_of_app Hne; [eauto|congruence].
    + apply Forall_app. split; [done|]. by apply Forall_singleton.
  - intros E. apply rbind_ok in E as (x & Ex & [= <-]).
    destruct best as [[k u]|]; cbn [best_of] in Hb.
    + destruct Hb as (Hu & He & Hk & Hw).
      assert (Hf : (if max then ltb k x else ltb x k) = beats max x k) by by destruct max.
      rewrite Hf. destruct (beats max x k) eqn:Eb; cbn [best_of].
      * split_and!; [set_solver|done..|]. intros w [Hin| ->%list_elem_of_singleton]%elem_of_app Hne.
        -- destruct (Hw w Hin Hne) as (y & Ey & Hy). exists y. split; [done|].
           destruct (beats_trans max k x y Eb); congruence.
        -- exists x. by rewrite beats_irrefl.
      * split_and!; [set_solver|done..|]. intros w [Hin| ->%list_elem_of_singleton]%elem_of_app Hne; eauto.
    + split_and!; [set_solver|done..|]. intros w [Hin| ->%list_elem_of_singleton]%elem_of_app Hne.
      * rewrite Forall_forall in Hb. specialize (Hb w Hin). congruence.
      * exists x. by rewrite beats_irrefl.
Qed.

Lemma extreme_fold_spec max values : ∀ seen best best', best_of max seen best →
  try_fold (extreme_step max) best values = Ok best' → best_of max (seen ++ values) best'.
Proof.
  induction values as [|v values IH]; intros seen best best' Hb; cbn [try_fold].
  - intros [= <-]. by rewrite app_nil_r.
  - intros E. apply rbind_ok in E as (b & E1 & E). change (v :: values) with ([v] ++ values). rewrite app_assoc.
    eapply IH; [by eapply extreme_step_spec|done].
Qed.
End extremes.

(** the minimum and the maximum are values of the scan that no other value lies
    beyond, in the exact order of values; there is none only when every value is missing
    or null. *)
Lemma extreme_bound `{TextLibOk} (max : bool) values r :
  forallb value_wf values = true → extreme max values = Ok r →
  match r with
  | None => Forall (λ v, is_empty v = true) values
  | Some v => v ∈ values ∧ is_empty v = false ∧ ∀ w, w ∈ values → is_empty w = false →
      value_cmp v w ≠ (if max then Lt else Gt)
  end.
Proof.
  intros Wf E. apply rbind_ok in E as (b & E & [= <-]).
  apply (extreme_fold_spec max values [] None b) in E; [|constructor]. cbn [app] in E.
  destruct b as [[k v]|]; [|done]. destruct E as (Hv & Hne & Hk & Hw). cbn [fmap option_fmap option_map snd].
  split_and!; [done..|]. intros w Hin Hw0. destruct (Hw w Hin Hw0) as (x & Ex & Hb).
  rewrite forallb_forall in Wf.
  assert (Wv : value_wf v = true) by by apply Wf, list_elem_of_In.
  assert (Ww : value_wf w = true) by by apply Wf, list_elem_of_In.
  rewrite <-(encode_cmp v w k x Wv Ww Hk Ex). unfold beats, ltb in Hb.
  destruct max; intros Hc.
  - change (list_cmp k x) with (cmp k x) in Hc. by rewrite Hc in Hb.
  - change (list_cmp k x) with (cmp k x) in Hc. apply cmp_gt_lt in Hc. by rewrite Hc in Hb.
Qed.

Lemma extreme_bound_example :
  let vs := [Number (lit "9"); Missing; Number (lit "10"); Number (lit "1e1")] in
  @extreme PlainText.plain_text true vs = Ok (Some (Number (lit "10"))) ∧
  ∀ w, w ∈ vs → is_empty w = false → @value_cmp PlainText.plain_text (Number (lit "10")) w ≠ Lt.
Proof.
  intros vs.
  assert (E : @extreme PlainText.plain_text true vs = Ok (Some (Number (lit "10")))) by (vm_compute; reflexivity).
  split; [exact E|].
  exact (proj2 (proj2 (@extreme_bound PlainText.plain_text PlainText.plain_text_ok true vs _ eq_refl E))).
Defined.

(** ** Groups *)

Section groups.
Context `{TextLib}.

Definition has_key (k : bytes) (v : Value) : Prop := encode_equality v = Ok k.
#[global] Instance has_key_dec k v : Decision (has_key k v).
Proof.
  unfold has_key. destruct (encode_equality v) as [k'|e]; [|by right].
  destruct (decide (k' = k)) as [->|Hne]; [by left|right; congruence].
Defined.

(** How many values have a given equality key. *)
Definition tally (k : bytes) (values : list Value) : N := N.of_nat (length (filter (has_key k) values)).

Definition groups_ok (seen : list Value) (m : groups_t) : Prop :=
  StronglySorted pair_lt m ∧
  ∀ k, match l_get m k with
       | Some (v, n) => v ∈ seen ∧ has_key k v ∧ n = tally k seen
       | None => tally k seen = 0%N
       end.

Lemma tally_snoc k seen v :
  tally k (seen ++ [v]) = (tally k seen + if decide (has_key k v) then 1 else 0)%N.
Proof.
  unfold tally. rewrite filter_app, length_app. cbn [filter list_filter].
  change (filter (has_key k) [v]) with (if decide (has_key k v) then [v] else []).
  case_decide; simpl; lia.
Qed.

Lemma group_step_spec seen m v m' : groups_ok seen m → group_step m v = Ok m' → groups_ok (seen ++ [v]) m'.
Proof.
  intros [Hs Hm] E. apply rbind_ok in E as (k & Ek & E).
  destruct (default (v, 0%N) (l_get m k)) as [v' n] eqn:Ed. injection E as <-.
  split; [by apply l_insert_sorted|]. intros k'. rewrite l_get_insert, tally_snoc.
  specialize (Hm k') as Hk'. destruct (decide (k = k')) as [<-|Hne].
  - rewrite decide_True by done. destruct (l_get m k) as [[v0 n0]|]; injection Ed as <- <-.
    + destruct Hk' as (Hin & Hk & ->). split_and!; [set_solver|done..].
    + rewrite Hk'. split_and!; [set_solver|done..].
  - rewrite decide_False by (unfold has_key; congruence). rewrite N.add_0_r.
    destruct (l_get m k') as [[v0 n0]|]; [|done]. destruct Hk' as (Hin & Hk & ->). split_and!; [set_solver|done..].
Qed.

Lemma group_fold_spec values : ∀ seen m m', groups_ok seen m →
  try_fold group_step m values = Ok m' → groups_ok (seen ++ values) m'.
Proof.
  induction values as [|v values IH]; intros seen m m' Hm; cbn [try_fold].
  - intros [= <-]. by rewrite app_nil_r.
  - intros E. apply rbind_ok in E as (m1 & E1 & E). change (v :: values) with ([v] ++ values). rewrite app_assoc.
    eapply IH; [by eapply group_step_spec|done].
Qed.

Lemma groups_ok_nil : groups_ok [] [].
Proof. split; [constructor|done]. Qed.

(** Every value was read. *)
Lemma group_fold_keys values : ∀ m m', try_fold group_step m values = Ok m' →
  ∀ w, w ∈ values → ∃ k, has_key k w.
Proof.
  induction values as [|v values IH]; intros m m'; cbn [try_fold]; [by intros _ w ?%elem_of_nil|].
  intros E. apply rbind_ok in E as (m1 & E1 & E). apply rbind_ok in E1 as (k & Ek & _).
  intros w [->|Hw]%elem_of_cons; [by exists k|eauto].
Qed.

Lemma tally_pos k w seen : w ∈ seen → has_key k w → tally k seen ≠ 0%N.
Proof.
  intros Hw Hk E. unfold tally in E. assert (length (filter (has_key k) seen) = 0%nat) as E0 by lia.
  apply nil_length_inv in E0. assert (Hin : w ∈ filter (has_key k) seen) by by apply list_elem_of_filter.
  rewrite E0 in Hin. by apply elem_of_nil in Hin.
Qed.

Lemma sorted_keys_nodup (m : groups_t) : StronglySorted pair_lt m → NoDup (fst <$> m).
Proof.
  induction 1 as [|p m Hs IH Hf]; [constructor|]. cbn [fmap list_fmap]. constructor; [|done].
  intros (q & E & Hq)%list_elem_of_fmap. rewrite Forall_forall in Hf. apply Hf in Hq.
  unfold pair_lt in Hq. rewrite E in Hq. by apply key_lt_irrefl in Hq.
Qed.
End groups.

(** Grouping partitions the values: every group is a value of the scan with the
    number of values whose equality key is its own, every value is in a group, and no two
    groups have the same key. *)
Lemma group_count_partition `{TextLib} values gs : group_count values = Ok gs →
  (∀ v n, (v, n) ∈ gs → v ∈ values ∧ ∃ k, has_key k v ∧ n = tally k values) ∧
  (∀ w, w ∈ values → ∃ k v n, has_key k w ∧ has_key k v ∧ (v, n) ∈ gs) ∧
  NoDup (encode_equality ∘ fst <$> gs).
Proof.
  intros E. apply rbind_ok in E as (m & E & [= <-]).
  pose proof (group_fold_spec values [] [] m groups_ok_nil E) as [Hs Hm]. cbn [app] in Hm.
  assert (Hel : ∀ k v n, (k, (v, n)) ∈ m → v ∈ values ∧ has_key k v ∧ n = tally k values).
  { intros k v n Hin. specialize (Hm k). apply l_get_elem in Hin; [|done]. by rewrite Hin in Hm. }
  split_and!.
  - intros v n ([k [v' n']] & E' & Hin)%list_elem_of_fmap. cbn [snd] in E'. injection E' as <- <-.
    apply Hel in Hin as (? & ? & ?). eauto.
  - intros w Hw. destruct (group_fold_keys _ _ _ E w Hw) as (k & Hk).
    specialize (Hm k). destruct (l_get m k) as [[v n]|] eqn:Eg; [|by apply (tally_pos k w) in Hm].
    destruct Hm as (_ & Hv & _). apply l_get_elem in Eg; [|done]. exists k, v, n. split_and!; [done..|].
    apply list_elem_of_fmap. by exists (k, (v, n)).
  - rewrite <-list_fmap_compose.
    assert ((encode_equality ∘ fst) ∘ snd <$> m = Ok <$> (fst <$> m)) as ->.
    { rewrite <-list_fmap_compose. apply list_fmap_ext. intros i [k [v n]] Hi.
      apply list_elem_of_lookup_2 in Hi. by apply Hel in Hi as (_ & ? & _). }
    apply NoDup_fmap_2; [intros a b; congruence|]. by apply sorted_keys_nodup.
Qed.

Lemma group_count_partition_example :
  let vs := [Number (lit "1"); Null; Number (lit "1.0"); VString (lit "a")] in
  let gs := [(Null, 1%N); (Number (lit "1"), 2%N); (VString (lit "a"), 1%N)] in
  @group_count PlainText.plain_text vs = Ok gs ∧
  ∀ w, w ∈ vs → ∃ k v n, @has_key PlainText.plain_text k w ∧ @has_key PlainText.plain_text k v ∧ (v, n) ∈ gs.
Proof.
  intros vs gs. assert (E : @group_count PlainText.plain_text vs = Ok gs) by (vm_compute; reflexivity).
  split; [exact E|]. exact (proj1 (proj2 (@group_count_partition PlainText.plain_text vs gs E))).
Defined.

(** ** Distinct values *)

Section distinct.
Context `{TextLib}.

Lemma l_insert_keys {V W} (m : list (bytes * V)) (m' : list (bytes * W)) k v w :
  fst <$> m = fst <$> m' → fst <$> l_insert m k v = fst <$> l_insert m' k w.
Proof.
  revert m'. induction m as [|[k0 v0] m IH]; intros [|[k1 v1] m'] E; try done.
  cbn in E. injection E as -> E. cbn [l_insert]. destruct (cmp k k1); cbn [fmap list_fmap fst]; [f_equal; exact E|do 2 f_equal; exact E|].
  f_equal. apply IH. exact E.
Qed.

Lemma distinct_fold_keys values : ∀ m g m' g', fst <$> m = fst <$> g →
  try_fold distinct_step m values = Ok m' → try_fold group_step g values = Ok g' →
  fst <$> m' = fst <$> g'.
Proof.
  induction values as [|v values IH]; intros m g m' g' Hk; cbn [try_fold]; [by intros [= <-] [= <-]|].
  intros Em Eg. apply rbind_ok in Em as (m1 & E1 & Em). apply rbind_ok in Eg as (g1 & E2 & Eg).
  apply (IH m1 g1); [|done..]. unfold distinct_step in E1. unfold group_step in E2.
  destruct (encode_equality v) as [k|]; [|done]. cbn [rbind] in E1, E2. injection E1 as <-.
  destruct (default _ _) as [v' n]. injection E2 as <-. by apply l_insert_keys.
Qed.

Lemma distinct_fold_own values : ∀ m m', Forall (λ p, has_key p.1 p.2) m →
  try_fold distinct_step m values = Ok m' → Forall (λ p, has_key p.1 p.2) m'.
Proof.
  induction values as [|v values IH]; intros m m' Hm; cbn [try_fold]; [by intros [= <-]|].
  intros E. apply rbind_ok in E as (m1 & E1 & E). apply rbind_ok in E1 as (k & Ek & [= <-]).
  apply (IH _ _) in E; [done|]. apply Forall_forall. intros p [->|Hp]%l_insert_elem; [done|].
  rewrite Forall_forall in Hm. auto.
Qed.

(** [distinct] has one value per group, in the same order. *)
Lemma distinct_groups values ds gs : distinct values = Ok ds → group_count values = Ok gs →
  encode_equality <$> ds = encode_equality ∘ fst <$> gs.
Proof.
  intros Ed Eg. apply rbind_ok in Ed as (m & Em & [= <-]). apply rbind_ok in Eg as (g & Eg & [= <-]).
  pose proof (distinct_fold_keys values [] [] m g eq_refl Em Eg) as Hk.
  pose proof (distinct_fold_own values [] m (Forall_nil_2 _) Em) as Ho.
  destruct (group_fold_spec values [] [] g groups_ok_nil Eg) as [Hs Hm].
  transitivity (Ok (A := bytes) <$> (fst <$> m)); [|rewrite Hk]; rewrite <-!list_fmap_compose.
  - apply list_fmap_ext. intros i [k v] Hi. apply list_elem_of_lookup_2 in Hi.
    rewrite Forall_forall in Ho. exact (Ho _ Hi).
  - apply list_fmap_ext. intros i [k [v n]] Hi. apply list_elem_of_lookup_2 in Hi.
    specialize (Hm k). apply l_get_elem in Hi; [|done]. rewrite Hi in Hm. symmetry. apply Hm.
Qed.
End distinct.
