(* ===== verification/BackupCodec.v ===== *)
(** * Backup records as bytes ([backup/codec.rs])

    A record is a JSON object: its metadata, then the payload as the last field.  A
    payload that is JSON is stored as it is, outer white space included, under [doc];
    any other payload is base64 under [data_b64].  Older forms are read too: [data] as
    an array of numbers, and a row without an envelope, whose key gives the version.

    serde_json is the class [BackupJson]; where a value lies in the text is part of its
    answer, because [decode_record] reads around the value it was given. *)
From S2P Require Import Prelude Memory.
Local Open Scope N_scope.

Inductive BackupOperation := Set_ | Delete_ | Restore | RestoreBulk.
#[global] Instance BackupOperation_eq_dec : EqDecision BackupOperation.
Proof. solve_decision. Defined.

Record BackupRecord := {
  r_version : N;
  r_timestamp : Z;
  r_date : str;
  r_operation : BackupOperation;
  r_table : str;
  r_key : str;
  r_data : option bytes;
  r_bulk_id : option str;
  r_restored_version : option N;
  r_date_from_migration : bool;
}.

Record Metadata := {
  md_version : N;
  md_timestamp : Z;
  md_date : str;
  md_operation : BackupOperation;
  md_table : str;
  md_key : str;
  md_bulk_id : option str;
  md_restored_version : option N;
  md_date_from_migration : bool;
}.

Definition from_record (r : BackupRecord) : Metadata :=
  {| md_version := r_version r; md_timestamp := r_timestamp r; md_date := r_date r;
     md_operation := r_operation r; md_table := r_table r; md_key := r_key r;
     md_bulk_id := r_bulk_id r; md_restored_version := r_restored_version r;
     md_date_from_migration := r_date_from_migration r |}.

(** [Metadata::record]. *)
Definition record (m : Metadata) (data : option bytes) : BackupRecord :=
  {| r_version := md_version m; r_timestamp := md_timestamp m; r_date := md_date m;
     r_operation := md_operation m; r_table := md_table m; r_key := md_key m; r_data := data;
     r_bulk_id := md_bulk_id m; r_restored_version := md_restored_version m;
     r_date_from_migration := md_date_from_migration m |}.

(** [chrono::Local::now()]: milliseconds, and the formatted text. *)
Record Now := { now_millis : Z; now_text : str }.

Class BackupJson := {
  (** [from_slice::<Fields>]: the entries of an object in order, each with where its raw
      value starts and how long it is. *)
  fields : bytes → option (list (str * (nat * nat)));
  (** [to_vec] and [from_slice] of [Metadata]; reading ignores fields it does not know. *)
  meta_to_vec : Metadata → bytes;
  meta_from_slice : bytes → option Metadata;
  (** [from_slice::<&RawValue>(data).is_ok()]. *)
  is_json : bytes → bool;
  (** [to_vec] of a string and [from_str::<String>]. *)
  string_to_vec : str → bytes;
  string_from_str : bytes → option str;
  (** [from_str::<Option<Vec<u8>>>]. *)
  data_from_str : bytes → option (option bytes);
}.

Definition invalid (reason : String.string) : ClError := BackupNormalizeFailed (lit reason).
Arguments invalid reason%_string_scope.

Definition json_space (b : byte) : bool := bool_decide (b ∈ [Byte.x20; Byte.x0a; Byte.x0d; Byte.x09]).

(** ** Base64 with padding *)

Definition ALPHABET64 : bytes := lit "ABCDEFGHIJKLMNOPQRSTUVWXYZabcdefghijklmnopqrstuvwxyz0123456789+/".
Definition letter64 (i : N) : byte := nth (N.to_nat i) ALPHABET64 Byte.x00.
Definition pad64 : byte := Byte.x3d.

(** One chunk of one to three bytes. *)
Definition encode3 (chunk : bytes) : bytes :=
  let at_ i := match chunk !! i with Some x => byte_to_N x | None => 0 end in
  let a := at_ 0%nat in let b := at_ 1%nat in let c := at_ 2%nat in
  [ letter64 (N.shiftr a 2);
    letter64 (N.lor (N.shiftl (N.land a 3) 4) (N.shiftr b 4));
    if (1 <? length chunk)%nat then letter64 (N.lor (N.shiftl (N.land b 15) 2) (N.shiftr c 6)) else pad64;
    if (2 <? length chunk)%nat then letter64 (N.land c 63) else pad64 ].

(** [bytes.chunks(3)] one after the other. *)
Fixpoint encode_chunks (l : bytes) : bytes :=
  match l with
  | a :: b :: c :: l' => encode3 [a; b; c] ++ encode_chunks l'
  | [] => []
  | _ => encode3 l
  end.

(** [ALPHABET.iter().position(..)]. *)
Fixpoint position (b : byte) (l : bytes) (i : N) : option N :=
  match l with
  | [] => None
  | x :: l' => if decide (x = b) then Some i else position b l' (i + 1)
  end.

Definition digit64 (b : byte) : result N :=
  ok_or (position b ALPHABET64 0) (invalid "invalid base64 digit").

(** A [u8] operation keeps the low eight bits. *)
Definition u8 (n : N) : byte := byte_of_N n.

Definition decode4 (c0 c1 c2 c3 : byte) (last : bool) : result bytes :=
  let? a := digit64 c0 in
  let? b := digit64 c1 in
  let first := u8 (N.lor (N.shiftl a 2) (N.shiftr b 4)) in
  if decide (c2 = pad64) then
    if negb last || negb (bool_decide (c3 = pad64)) || negb (N.land b 15 =? 0)
    then Err (invalid "invalid base64 padding") else Ok [first]
  else
    let? d := digit64 c2 in
    let second := u8 (N.lor (N.land (N.shiftl b 4) 255) (N.shiftr d 2)) in
    if decide (c3 = pad64) then
      if negb last || negb (N.land d 3 =? 0)
      then Err (invalid "invalid base64 padding") else Ok [first; second]
    else
      let? e := digit64 c3 in
      Ok [first; second; u8 (N.lor (N.land (N.shiftl d 6) 255) e)].

(** [bytes.chunks_exact(4)]; the last chunk is the one that ends the text. *)
Fixpoint decode_chunks (l : bytes) : result bytes :=
  match l with
  | c0 :: c1 :: c2 :: c3 :: l' =>
      let? x := decode4 c0 c1 c2 c3 (bool_decide (l' = [])) in
      let? y := decode_chunks l' in Ok (x ++ y)
  | _ => Ok []
  end.

Definition decode_base64 (text : bytes) : result bytes :=
  if (len text mod 4 =? 0) then decode_chunks text else Err (invalid "invalid base64 length").

Section codec.
Context `{Allocator, BackupJson}.

Definition encode_site : str := lit "backup.encode_record".

(** [bytes.len().div_ceil(3).saturating_mul(4)], probed and then reserved. *)
Definition encode_base64 (l : bytes) : result bytes :=
  let capacity := saturating_mul ((len l + 2) / 3) 4 in
  if is_ok (probe encode_site capacity) && try_reserve encode_site capacity
  then Ok (encode_chunks l) else Err (OutOfMemory encode_site capacity).

Definition doc_tag : bytes := Byte.x2c :: Byte.x22 :: lit "doc" ++ [Byte.x22; Byte.x3a].
Definition b64_tag : bytes := Byte.x2c :: Byte.x22 :: lit "data_b64" ++ [Byte.x22; Byte.x3a].
Definition brace : byte := Byte.x7d.

Definition saturating_add (a b : N) : N := N.min (a + b) (U64 - 1).

(** A record without a date is given the present one. *)
Definition dated (now : Now) (m : Metadata) : Metadata :=
  if md_date_from_migration m && bool_decide (md_date m = []) then
    {| md_version := md_version m; md_timestamp := now_millis now; md_date := now_text now;
       md_operation := md_operation m; md_table := md_table m; md_key := md_key m;
       md_bulk_id := md_bulk_id m; md_restored_version := md_restored_version m;
       md_date_from_migration := md_date_from_migration m |}
  else m.

Definition encode_record (now : Now) (r : BackupRecord) : result bytes :=
  if bool_decide (r_operation r = Set_) && bool_decide (r_data r = None)
  then Err (invalid "set record has no payload") else
  let encoded := meta_to_vec (dated now (from_record r)) in
  match r_data r with
  | None => Ok encoded
  | Some data =>
      if bool_decide (r_operation r = Delete_) then Err (invalid "delete record contains a payload") else
      let encoded := take (length encoded - 1) encoded in
      check? reserve encode_site (saturating_add (saturating_add (len data) (len data / 3 * 2)) 64) 1 in
      if is_json data then Ok (encoded ++ doc_tag ++ data ++ [brace])
      else let? text := encode_base64 data in
           Ok (encoded ++ b64_tag ++ string_to_vec text ++ [brace])
  end.

(** ** Reading *)

Definition has (fs : list (str * (nat * nat))) (name : str) : bool := bool_decide (name ∈ fs.*1).

(** [HashMap::get]: the last entry under the name. *)
Definition get_field (fs : list (str * (nat * nat))) (name : str) : option (nat * nat) :=
  fold_left (λ found p, if decide (p.1 = name) then Some p.2 else found) fs None.

(** Whether a name came twice. *)
Fixpoint duplicated (names : list str) : bool :=
  match names with
  | [] => false
  | n :: names' => bool_decide (n ∈ names') || duplicated names'
  end.

Definition envelope_names : list str :=
  [lit "version"; lit "timestamp"; lit "date"; lit "operation"; lit "table"; lit "key"].

Definition envelope (fs : list (str * (nat * nat))) : bool :=
  negb (has fs (lit "id")) && (4 <=? length (filter (λ n, has fs n = true) envelope_names))%nat.

(** [while start > 0 && json_space(bytes[start - 1]) { start -= 1 }] *)
Fixpoint back (l : bytes) (start : nat) : nat :=
  match start with
  | O => O
  | S n => if default false (json_space <$> l !! n) then back l n else start
  end.

(** [while end < bytes.len() && json_space(bytes[end]) { end += 1 }]: how far it goes. *)
Fixpoint spaces (l : bytes) : nat :=
  match l with
  | b :: l' => if json_space b then S (spaces l') else O
  | [] => O
  end.

Definition slice (l : bytes) (start end_ : nat) : bytes := take (end_ - start) (drop start l).

(** [rsplit_once(':')]. *)
Definition colon : byte := Byte.x3a.
Fixpoint rsplit_once (s : str) : option (str * str) :=
  match s with
  | [] => None
  | b :: s' =>
      match rsplit_once s' with
      | Some (x, y) => Some (b :: x, y)
      | None => if decide (b = colon) then Some ([], s') else None
      end
  end.

(** [parse::<u64>()]: an optional plus sign, then digits, below [2 ^ 64]. *)
Definition parse_u64 (s : str) : option N :=
  let ds := match s with b :: s' => if decide (b = Byte.x2b) then s' else s | [] => [] end in
  if bool_decide (ds = []) || negb (forallb is_dec_digit ds) then None
  else if of_dec ds <? U64 then Some (of_dec ds) else None.

Definition raw_record (table key : str) (l : bytes) : result BackupRecord :=
  let? '(key, version) := ok_or (rsplit_once key) (invalid "backup key is not versioned") in
  let? version := ok_or (parse_u64 version) (invalid "invalid backup version suffix") in
  let empty := bool_decide (l = []) in
  Ok {| r_version := version; r_timestamp := 0; r_date := []; r_operation := if empty then Delete_ else Set_;
        r_table := table; r_key := key; r_data := if empty then None else Some l;
        r_bulk_id := None; r_restored_version := None; r_date_from_migration := true |}.

Definition bad_json : ClError := Serialization (lit "invalid JSON").

(** The payload of an envelope. *)
Definition payload (l : bytes) (fs : list (str * (nat * nat))) : result (option bytes) :=
  match get_field fs (lit "data"), get_field fs (lit "doc"), get_field fs (lit "data_b64") with
  | Some (s, n), _, _ => ok_or (data_from_str (slice l s (s + n))) bad_json
  | None, Some (s, n), _ =>
      let start := back l s in
      let end_ := (s + n + spaces (drop (s + n) l))%nat in
      Ok (Some (slice l start end_))
  | None, None, Some (s, n) =>
      let? text := ok_or (string_from_str (slice l s (s + n))) bad_json in
      rmap Some (decode_base64 text)
  | None, None, None => Ok None
  end.

Definition decode_envelope (l : bytes) (fs : list (str * (nat * nat))) : result BackupRecord :=
  if duplicated fs.*1 then Err (invalid "duplicate backup envelope field") else
  let? meta := ok_or (meta_from_slice l) bad_json in
  if (1 <? length (filter (λ n, has fs n = true) [lit "data"; lit "doc"; lit "data_b64"]))%nat
  then Err (invalid "ambiguous backup payload fields") else
  let? data := payload l fs in
  if bool_decide (md_operation meta = Set_) && bool_decide (data = None)
  then Err (invalid "set record has no payload")
  else if bool_decide (md_operation meta = Delete_) && negb (bool_decide (data = None))
  then Err (invalid "delete record contains a payload")
  else Ok (record meta data).

Definition decode_record (table key : str) (l : bytes) : result BackupRecord :=
  match fields l with
  | Some fs => if envelope fs then decode_envelope l fs else raw_record table key l
  | None => raw_record table key l
  end.

(** Whether the stored form is the present one. *)
Definition is_v2 (l : bytes) : result bool :=
  match fields l with
  | Some fs =>
      if envelope fs then
        let? r := decode_record [] [] l in
        Ok (negb (has fs (lit "data") || (r_date_from_migration r && bool_decide (r_date r = []))))
      else Ok false
  | None => Ok false
  end.
End codec.
