(* ===== verification/BackupCodecSpec.v ===== *)
(** * Correctness of the backup codec

    Base64 is read back, and a record is read back with its payload byte for byte, the
    white space around a JSON payload included. *)
From S2P Require Import Prelude Order Redb Memory Fields OrderedSpec BackupCodec.
Local Open Scope N_scope.

(** ** Base64 *)

(** A fact about every number below a bound, decided by trying them all. *)
Definition below (n : nat) (f : N → bool) : bool := forallb f (N.of_nat <$> seq 0 n).

Lemma below_spec n f : below n f = true → ∀ x, x < N.of_nat n → f x = true.
Proof.
  unfold below. rewrite forallb_forall. intros Hf x Hx. apply Hf, list_elem_of_In, list_elem_of_fmap.
  exists (N.to_nat x). rewrite N2Nat.id. split; [done|]. apply list_elem_of_In, in_seq. lia.
Qed.

Definition mid1 (a b : N) : N := N.lor (N.shiftl (N.land a 3) 4) (N.shiftr b 4).
Definition mid2 (b c : N) : N := N.lor (N.shiftl (N.land b 15) 2) (N.shiftr c 6).

Lemma first_back a b : a < 256 → b < 256 →
  N.shiftr a 2 < 64 ∧ mid1 a b < 64 ∧ N.lor (N.shiftl (N.shiftr a 2) 2) (N.shiftr (mid1 a b) 4) = a.
Proof.
  intros Ha Hb.
  assert (Hc : below 256 (λ a, below 256 (λ b, (N.shiftr a 2 <? 64) && (mid1 a b <? 64) &&
    (N.lor (N.shiftl (N.shiftr a 2) 2) (N.shiftr (mid1 a b) 4) =? a))) = true) by (vm_compute; reflexivity).
  pose proof (below_spec _ _ (below_spec _ _ Hc a Ha) b Hb) as Hd. cbn beta in Hd.
  rewrite !andb_true_iff, !N.ltb_lt, N.eqb_eq in Hd. tauto.
Qed.

Lemma second_back a b c : a < 256 → b < 256 → c < 256 →
  mid2 b c < 64 ∧ N.lor (N.land (N.shiftl (mid1 a b) 4) 255) (N.shiftr (mid2 b c) 2) = b.
Proof.
  intros Ha Hb Hc.
  assert (Hx : below 4 (λ g, below 256 (λ b, below 4 (λ h,
     (N.lor (N.shiftl (N.land b 15) 2) h <? 64) &&
     (N.lor (N.land (N.shiftl (N.lor (N.shiftl g 4) (N.shiftr b 4)) 4) 255)
        (N.shiftr (N.lor (N.shiftl (N.land b 15) 2) h) 2) =? b)))) = true) by (vm_compute; reflexivity).
  assert (Hg : N.land a 3 < 4) by (change 3 with (N.ones 2); rewrite N.land_ones; by apply N.mod_lt).
  assert (Hh : N.shiftr c 6 < 4) by (rewrite N.shiftr_div_pow2; apply N.Div0.div_lt_upper_bound; lia).
  pose proof (below_spec _ _ (below_spec _ _ (below_spec _ _ Hx _ Hg) _ Hb) _ Hh) as Hd. cbn beta in Hd.
  rewrite andb_true_iff, N.ltb_lt, N.eqb_eq in Hd. exact Hd.
Qed.

Lemma third_back b c : b < 256 → c < 256 →
  N.land c 63 < 64 ∧ N.lor (N.land (N.shiftl (mid2 b c) 6) 255) (N.land c 63) = c.
Proof.
  intros Hb Hc.
  assert (Hx : below 256 (λ b, below 256 (λ c, (N.land c 63 <? 64) &&
    (N.lor (N.land (N.shiftl (mid2 b c) 6) 255) (N.land c 63) =? c))) = true) by (vm_compute; reflexivity).
  pose proof (below_spec _ _ (below_spec _ _ Hx b Hb) c Hc) as Hd. cbn beta in Hd.
  rewrite andb_true_iff, N.ltb_lt, N.eqb_eq in Hd. exact Hd.
Qed.

Lemma letter64_digit i : i < 64 → digit64 (letter64 i) = Ok i ∧ letter64 i ≠ pad64.
Proof.
  intros Hi.
  assert (Hx : below 64 (λ i, bool_decide (position (letter64 i) ALPHABET64 0 = Some i)
    && negb (bool_decide (letter64 i = pad64))) = true) by (vm_compute; reflexivity).
  pose proof (below_spec _ _ Hx i Hi) as Hd. cbn beta in Hd.
  rewrite andb_true_iff, negb_true_iff, bool_decide_eq_true, bool_decide_eq_false in Hd.
  destruct Hd as [Hp Hn]. split; [|done]. unfold digit64. by rewrite Hp.
Qed.

Lemma u8_byte b : u8 (byte_to_N b) = b.
Proof. apply byte_of_to_N. Qed.

Lemma decode4_three a b c last :
  decode4 (letter64 (N.shiftr (byte_to_N a) 2)) (letter64 (mid1 (byte_to_N a) (byte_to_N b)))
    (letter64 (mid2 (byte_to_N b) (byte_to_N c))) (letter64 (N.land (byte_to_N c) 63)) last = Ok [a; b; c].
Proof.
  pose proof (byte_to_N_bound a) as Ha. pose proof (byte_to_N_bound b) as Hb. pose proof (byte_to_N_bound c) as Hc.
  destruct (first_back _ _ Ha Hb) as (B1 & B2 & E1). destruct (second_back _ _ _ Ha Hb Hc) as (B3 & E2).
  destruct (third_back _ _ Hb Hc) as (B4 & E3).
  destruct (letter64_digit _ B1) as [D1 _]. destruct (letter64_digit _ B2) as [D2 _].
  destruct (letter64_digit _ B3) as [D3 P3]. destruct (letter64_digit _ B4) as [D4 P4].
  unfold decode4. rewrite D1, D2. cbn [rbind]. rewrite decide_False by done. rewrite D3. cbn [rbind].
  rewrite decide_False by done. rewrite D4. cbn [rbind]. by rewrite E1, E2, E3, !u8_byte.
Qed.

Lemma decode4_two a b :
  decode4 (letter64 (N.shiftr (byte_to_N a) 2)) (letter64 (mid1 (byte_to_N a) (byte_to_N b)))
    (letter64 (mid2 (byte_to_N b) 0)) pad64 true = Ok [a; b].
Proof.
  pose proof (byte_to_N_bound a) as Ha. pose proof (byte_to_N_bound b) as Hb.
  destruct (first_back _ _ Ha Hb) as (B1 & B2 & E1).
  destruct (second_back _ _ 0 Ha Hb eq_refl) as (B3 & E2).
  destruct (letter64_digit _ B1) as [D1 _]. destruct (letter64_digit _ B2) as [D2 _].
  destruct (letter64_digit _ B3) as [D3 P3].
  unfold decode4. rewrite D1, D2. cbn [rbind]. rewrite decide_False by done. rewrite D3. cbn [rbind].
  rewrite decide_True by done. rewrite E1, E2, !u8_byte.
  assert (Hx : below 256 (λ b, N.land (mid2 b 0) 3 =? 0) = true) by (vm_compute; reflexivity).
  by rewrite (below_spec _ _ Hx _ Hb).
Qed.

Lemma decode4_one a :
  decode4 (letter64 (N.shiftr (byte_to_N a) 2)) (letter64 (mid1 (byte_to_N a) 0)) pad64 pad64 true = Ok [a].
Proof.
  pose proof (byte_to_N_bound a) as Ha. destruct (first_back _ 0 Ha eq_refl) as (B1 & B2 & E1).
  destruct (letter64_digit _ B1) as [D1 _]. destruct (letter64_digit _ B2) as [D2 _].
  unfold decode4. rewrite D1, D2. cbn [rbind]. rewrite decide_True by done. rewrite E1, u8_byte.
  assert (Hx : below 256 (λ a, N.land (mid1 a 0) 15 =? 0) = true) by (vm_compute; reflexivity).
  by rewrite (below_spec _ _ Hx _ Ha).
Qed.

(** Induction three bytes at a time. *)
Lemma by_threes (P : bytes → Prop) :
  P [] → (∀ a, P [a]) → (∀ a b, P [a; b]) → (∀ a b c l, P l → P (a :: b :: c :: l)) → ∀ l, P l.
Proof.
  intros H0 H1 H2 H3 l. assert (P l ∧ (∀ a, P (a :: l)) ∧ ∀ a b, P (a :: b :: l)); [|tauto].
  induction l as [|x l (I1 & I2 & I3)]; auto.
Qed.

Lemma base64_back l : decode_chunks (encode_chunks l) = Ok l ∧ (len (encode_chunks l) mod 4 = 0).
Proof.
  induction l as [|a|a b|a b c l [IH IL]] using by_threes.
  - done.
  - split; [|done]. cbn [encode_chunks encode3 decode_chunks].
    exact (f_equal (λ r, let? x := r in let? y := Ok [] in Ok (x ++ y)) (decode4_one a)).
  - split; [|done]. exact (f_equal (λ r, let? x := r in let? y := Ok [] in Ok (x ++ y)) (decode4_two a b)).
  - split.
    + pose proof (decode4_three a b c (bool_decide (encode_chunks l = []))) as E.
      change (encode_chunks (a :: b :: c :: l)) with (encode3 [a; b; c] ++ encode_chunks l).
      unfold encode3. cbn [app decode_chunks]. unfold mid1, mid2 in E.
      cbn [lookup list_lookup length Nat.ltb Nat.leb] in *. rewrite E. cbn [rbind]. by rewrite IH.
    + change (encode_chunks (a :: b :: c :: l)) with (encode3 [a; b; c] ++ encode_chunks l).
      unfold len in *. rewrite length_app. change (length (encode3 [a; b; c])) with 4%nat.
      rewrite Nat2N.inj_add. rewrite N.add_comm.
      rewrite <-N.Div0.add_mod_idemp_l, IL. done.
Qed.

Lemma base64_roundtrip `{Allocator} l t : encode_base64 l = Ok t → decode_base64 t = Ok l.
Proof.
  unfold encode_base64, decode_base64. case_match; [|done]. intros [= <-].
  destruct (base64_back l) as [-> ->]. done.
Qed.

(** ** What the codec relies on from serde_json *)

(** The value inside its white space. *)
Definition core (v : bytes) : bytes :=
  rev (drop_while json_space (rev (drop_while json_space v))).

(** The fields of [Metadata] as serde writes them: the last one only when it is set. *)
Definition meta_names (m : Metadata) : list str :=
  envelope_names ++ [lit "bulk_id"; lit "restored_version"]
  ++ if md_date_from_migration m then [lit "date_from_migration"] else [].

Definition tag_of (name : str) : bytes := Byte.x2c :: Byte.x22 :: name ++ [Byte.x22; Byte.x3a].

Class BackupJsonOk `{BackupJson} := {
  (** An object ends with a brace. *)
  meta_brace : ∀ m, ∃ body, meta_to_vec m = body ++ [brace];
  (** What was written is read back, field by field. *)
  meta_fields : ∀ m, ∃ fs, fields (meta_to_vec m) = Some fs ∧ fs.*1 = meta_names m;
  meta_back : ∀ m, meta_from_slice (meta_to_vec m) = Some m;
  (** A further field put before the brace is read too, as the value without the white
      space around it, and does not change the metadata. *)
  more_fields : ∀ m body name v, meta_to_vec m = body ++ [brace] →
    name = lit "doc" ∨ name = lit "data_b64" → is_json v = true →
    ∃ fs, fields (body ++ tag_of name ++ v ++ [brace]) =
            Some (fs ++ [(name, (length (body ++ tag_of name) + spaces v, length (core v))%nat)]) ∧
          fs.*1 = meta_names m;
  more_back : ∀ m body name v, meta_to_vec m = body ++ [brace] →
    name = lit "doc" ∨ name = lit "data_b64" → is_json v = true →
    meta_from_slice (body ++ tag_of name ++ v ++ [brace]) = Some m;
  (** A string is JSON without white space around it, and is read back. *)
  string_json : ∀ s, is_json (string_to_vec s) = true;
  string_tight : ∀ s, spaces (string_to_vec s) = 0%nat ∧ core (string_to_vec s) = string_to_vec s;
  string_back : ∀ s, string_from_str (string_to_vec s) = Some s;
}.

(** ** White space *)

Lemma spaces_drop v : drop_while json_space v = drop (spaces v) v.
Proof. induction v as [|b v IH]; [done|]. cbn [drop_while spaces]. by destruct (json_space b). Qed.

Lemma spaces_all v : Forall (λ b, json_space b = true) (take (spaces v) v).
Proof.
  induction v as [|b v IH]; [constructor|]. cbn [spaces]. destruct (json_space b) eqn:E; [|constructor].
  by constructor.
Qed.

(** A value is its leading space, its core, and its trailing space. *)
Lemma core_split v : ∃ post, v = take (spaces v) v ++ core v ++ post ∧
  Forall (λ b, json_space b = true) post.
Proof.
  unfold core. set (w := drop_while json_space v).
  destruct (drop_while_suffix json_space (rev w)) as (p & E & Hp). exists (rev p).
  apply (f_equal (@rev byte)) in E. rewrite rev_involutive, rev_app_distr in E. split.
  - rewrite <-E. subst w. rewrite spaces_drop. by rewrite take_drop.
  - apply Forall_forall. intros x Hx%list_elem_of_In%in_rev%list_elem_of_In.
    rewrite Forall_forall in Hp. auto.
Qed.

Lemma spaces_stop post r b : Forall (λ b, json_space b = true) post → json_space b = false →
  spaces (post ++ b :: r) = length post.
Proof. induction 1 as [|x post Hx _ IH]; simpl; intros Hb; [by rewrite Hb|]. rewrite Hx. f_equal. auto. Qed.

Lemma back_stop p b sp r : Forall (λ b, json_space b = true) sp → json_space b = false →
  back (p ++ b :: sp ++ r) (S (length p) + length sp) = S (length p).
Proof.
  intros Hsp Hb. revert r. induction sp as [|x sp IH] using rev_ind; intros r.
  - rewrite Nat.add_0_r. cbn [back app]. rewrite lookup_app_r, Nat.sub_diag by done. cbn. by rewrite Hb.
  - apply Forall_app in Hsp as [Hsp Hx]. rewrite Forall_singleton in Hx.
    rewrite length_app. cbn [length]. replace (S (length p) + (length sp + 1))%nat
      with (S (S (length p) + length sp)) by lia. cbn [back].
    replace ((p ++ b :: (sp ++ [x]) ++ r) !! (S (length p) + length sp)%nat) with (Some x).
    + change (default false (json_space <$> Some x)) with (json_space x). rewrite Hx, <-app_assoc. by apply IH.
    + symmetry. rewrite lookup_app_r by lia. replace (S (length p) + length sp - length p)%nat with (S (length sp)) by lia.
      change (((sp ++ [x]) ++ r) !! length sp = Some x). rewrite <-app_assoc, lookup_app_r by done. by rewrite Nat.sub_diag.
Qed.

(** What [payload] cuts out under [doc]: the whole value with its white space. *)
Lemma doc_slice p b v r c : json_space b = false → json_space c = false →
  let l := (p ++ [b]) ++ v ++ c :: r in
  let s := (length (p ++ [b]) + spaces v)%nat in let n := length (core v) in
  slice l (back l s) (s + n + spaces (drop (s + n) l)) = v.
Proof.
  intros Hb Hc l s n. destruct (core_split v) as (post & Ev & Hpost). pose proof (spaces_all v) as Hpre.
  set (pre := take (spaces v) v) in *.
  assert (Hlen : length pre = spaces v).
  { subst pre. rewrite length_take. clear. induction v as [|x v IH]; [done|]. cbn [spaces length].
    destruct (json_space x); lia. }
  assert (Hback : back l s = length (p ++ [b])).
  { subst l s. rewrite length_app. cbn [length]. rewrite <-Hlen, <-app_assoc. cbn [app].
    rewrite Ev, <-app_assoc. replace (length p + 1 + length pre)%nat with (S (length p) + length pre)%nat by lia.
    rewrite back_stop by done. lia. }
  assert (Hend : drop (s + n) l = post ++ c :: r).
  { subst l s n. rewrite <-Hlen. rewrite Ev at 2. rewrite !app_assoc, <-(app_assoc _ post).
    rewrite drop_app_length'; [done|]. rewrite !length_app. lia. }
  rewrite Hback, Hend, spaces_stop by done. unfold slice. subst l. rewrite drop_app_length.
  rewrite take_app_length'; [done|]. rewrite Ev at 1. rewrite !length_app. subst s n.
  rewrite !length_app. lia.
Qed.

(** ** Records *)

Section record_proofs.
Context `{Allocator, BackupJsonOk}.

(** The envelope of a record that was written: metadata names, then perhaps one payload. *)
Lemma meta_names_nodup m : duplicated (meta_names m) = false.
Proof. unfold meta_names. by destruct (md_date_from_migration m). Qed.

Lemma duplicated_snoc names n : duplicated (names ++ [n]) = duplicated names || bool_decide (n ∈ names).
Proof.
  induction names as [|x names IH]; [done|]. cbn [app duplicated]. rewrite IH.
  apply eq_true_iff_eq. rewrite !orb_true_iff, !bool_decide_eq_true. set_solver.
Qed.

Lemma has_names fs n : has fs n = bool_decide (n ∈ fs.*1).
Proof. done. Qed.

Definition payload_names : list str := [lit "data"; lit "doc"; lit "data_b64"].

Lemma meta_not_payload m n : n ∈ payload_names → n ∉ meta_names m.
Proof.
  intros Hn. assert (Hx : Forall (λ n, bool_decide (n ∉ meta_names m) = true) payload_names).
  { unfold meta_names, payload_names. destruct (md_date_from_migration m); repeat constructor. }
  rewrite Forall_forall in Hx. apply Hx in Hn. by apply bool_decide_eq_true in Hn.
Qed.

Lemma get_field_none fs n : n ∉ fs.*1 → get_field fs n = None.
Proof.
  unfold get_field. assert (Hg : ∀ o, n ∉ fs.*1 → fold_left (λ found p, if decide (p.1 = n) then Some p.2 else found) fs o = o); [|apply Hg].
  induction fs as [|[x p] fs IH]; intros o Hn; [done|]. cbn [fold_left]. cbn in Hn.
  rewrite decide_False by set_solver. apply IH. set_solver.
Qed.

Lemma get_field_snoc fs n p n' : get_field (fs ++ [(n, p)]) n' = if decide (n = n') then Some p else get_field fs n'.
Proof. unfold get_field. rewrite fold_left_app. done. Qed.

Lemma envelope_meta m fs extra :
  fs.*1 = meta_names m ++ extra → lit "id" ∉ extra → envelope fs = true.
Proof.
  intros E Hx. unfold envelope. apply andb_true_iff. split.
  - rewrite has_names, E, negb_true_iff, bool_decide_eq_false, elem_of_app. intros [Hi|Hi]; [|done].
    revert Hi. unfold meta_names. destruct (md_date_from_migration m); intros Hi;
      apply (bool_decide_eq_true_2 _) in Hi; discriminate Hi.
  - assert (filter (λ n, has fs n = true) envelope_names = envelope_names) as ->; [|done].
    assert (Hall : Forall (λ n, has fs n = true) envelope_names).
    { apply Forall_forall. intros n Hn. rewrite has_names, E. apply bool_decide_eq_true.
      unfold meta_names. set_solver. }
    revert Hall. generalize envelope_names. clear. induction 1 as [|n ns Hn _ IH]; [done|].
    rewrite filter_cons, decide_True by done. by rewrite IH.
Qed.

(** The operation and the payload that a record may have together. *)
Definition payload_ok (op : BackupOperation) (data : option bytes) : bool :=
  match op, data with Set_, None => false | Delete_, Some _ => false | _, _ => true end.

Lemma decode_envelope_ok l fs m extra data :
  fs.*1 = meta_names m ++ extra → extra = [] ∨ (∃ n, extra = [n] ∧ n ∈ payload_names) →
  meta_from_slice l = Some m → payload l fs = Ok data → payload_ok (md_operation m) data = true →
  decode_envelope l fs = Ok (record m data).
Proof.
  intros E Hx Hm Hp Hok. unfold decode_envelope.
  assert (duplicated fs.*1 = false) as ->.
  { rewrite E. destruct Hx as [->|(n & -> & Hn)]; [rewrite app_nil_r; apply meta_names_nodup|].
    rewrite duplicated_snoc, meta_names_nodup. apply bool_decide_eq_false_2. by apply meta_not_payload. }
  rewrite Hm. cbn [ok_or rbind].
  assert (Hmodes : (1 <? length (filter (λ n, has fs n = true) payload_names))%nat = false).
  { apply Nat.ltb_ge.
    assert (Hsub : filter (λ n, has fs n = true) payload_names ⊆ extra).
    { intros n [Hh Hn]%list_elem_of_filter. rewrite has_names, E in Hh. apply bool_decide_eq_true in Hh.
      apply elem_of_app in Hh as [Hh|Hh]; [|done]. by destruct (meta_not_payload m n Hn). }
    assert (Hnd : NoDup (filter (λ n, has fs n = true) payload_names)).
    { apply NoDup_filter. unfold payload_names. repeat constructor; set_solver by discriminate. }
    transitivity (length extra); [by apply submseteq_length, NoDup_submseteq|].
    destruct Hx as [->|(n & -> & _)]; simpl; lia. }
  change (filter _ _) with (filter (λ n, has fs n = true) payload_names). rewrite Hmodes, Hp. cbn [rbind].
  destruct (md_operation m), data; try done.
Qed.

Lemma doc_tag_eq : doc_tag = tag_of (lit "doc").
Proof. done. Qed.
Lemma b64_tag_eq : b64_tag = tag_of (lit "data_b64").
Proof. done. Qed.

Lemma decode_plain t k m : payload_ok (md_operation m) None = true →
  decode_record t k (meta_to_vec m) = Ok (record m None).
Proof.
  intros Hok. destruct (meta_fields m) as (fs & Ef & En). unfold decode_record. rewrite Ef.
  assert (En' : fs.*1 = meta_names m ++ []) by by rewrite app_nil_r.
  rewrite (envelope_meta m fs [] En') by set_solver.
  eapply decode_envelope_ok; [done|by left|apply meta_back| |done].
  unfold payload. rewrite !get_field_none; [done|..]; rewrite En; apply meta_not_payload; unfold payload_names; set_solver.
Qed.

(** One payload field after the metadata. *)
Lemma decode_more t k m body name v data :
  meta_to_vec m = body ++ [brace] → name = lit "doc" ∨ name = lit "data_b64" → is_json v = true →
  (∀ fs, fs.*1 = meta_names m →
    payload (body ++ tag_of name ++ v ++ [brace])
      (fs ++ [(name, (length (body ++ tag_of name) + spaces v, length (core v))%nat)]) = Ok data) →
  payload_ok (md_operation m) data = true →
  decode_record t k (body ++ tag_of name ++ v ++ [brace]) = Ok (record m data).
Proof.
  intros Eb Hn Hv Hp Hok. destruct (more_fields m body name v Eb Hn Hv) as (fs & Ef & En).
  unfold decode_record. rewrite Ef. set (fs' := fs ++ _).
  assert (E' : fs'.*1 = meta_names m ++ [name]) by (subst fs'; by rewrite fmap_app, En).
  rewrite (envelope_meta m fs' [name] E').
  2:{ intros Hi%list_elem_of_singleton. by destruct Hn as [-> | ->]. }
  eapply decode_envelope_ok; [done| |by apply more_back|by apply Hp|done].
  right. exists name. split; [done|]. unfold payload_names. destruct Hn as [-> | ->]; set_solver.
Qed.

Lemma payload_doc m body v fs : fs.*1 = meta_names m →
  payload (body ++ tag_of (lit "doc") ++ v ++ [brace])
    (fs ++ [(lit "doc", (length (body ++ tag_of (lit "doc")) + spaces v, length (core v))%nat)]) = Ok (Some v).
Proof.
  intros En. unfold payload. rewrite !get_field_snoc. rewrite decide_False by done. rewrite decide_True by done.
  rewrite (get_field_none fs) by (rewrite En; apply meta_not_payload; unfold payload_names; set_solver).
  do 2 f_equal.
  assert (Hp : body ++ tag_of (lit "doc") = (body ++ Byte.x2c :: Byte.x22 :: lit "doc" ++ [Byte.x22]) ++ [Byte.x3a])
    by (unfold tag_of; rewrite <-app_assoc; done).
  rewrite (app_assoc body), Hp. by apply (doc_slice _ Byte.x3a v [] brace).
Qed.

Lemma payload_b64 m body text data fs : fs.*1 = meta_names m → decode_base64 text = Ok data →
  payload (body ++ tag_of (lit "data_b64") ++ string_to_vec text ++ [brace])
    (fs ++ [(lit "data_b64", (length (body ++ tag_of (lit "data_b64")) + spaces (string_to_vec text),
                              length (core (string_to_vec text)))%nat)]) = Ok (Some data).
Proof.
  intros En Hd. unfold payload. rewrite !get_field_snoc.
  rewrite !(decide_False (P := lit "data_b64" = lit _)) by done. rewrite decide_True by done.
  rewrite !(get_field_none fs) by (rewrite En; apply meta_not_payload; unfold payload_names; set_solver).
  destruct (string_tight text) as [-> ->]. rewrite Nat.add_0_r. unfold slice.
  rewrite (app_assoc body), drop_app_length, take_app_length' by lia.
  rewrite string_back. cbn [ok_or rbind]. by rewrite Hd.
Qed.

Lemma dated_operation now m : md_operation (dated now m) = md_operation m.
Proof. unfold dated. by destruct (_ && _). Qed.

Lemma encode_record_back now r l t k : encode_record now r = Ok l →
  decode_record t k l = Ok (record (dated now (from_record r)) (r_data r)).
Proof.
  unfold encode_record. set (m := dated now (from_record r)).
  assert (Hop : md_operation m = r_operation r) by apply dated_operation.
  destruct (bool_decide (r_operation r = Set_) && bool_decide (r_data r = None)) eqn:Es; [done|].
  destruct (r_data r) as [data|].
  - destruct (bool_decide (r_operation r = Delete_)) eqn:Ed; [done|].
    apply bool_decide_eq_false in Ed. destruct (meta_brace m) as (body & Eb). rewrite Eb.
    rewrite length_app. cbn [length]. replace (length body + 1 - 1)%nat with (length body) by lia.
    rewrite take_app_length. intros E. apply rbind_ok in E as (_ & _ & E).
    assert (Hok : payload_ok (md_operation m) (Some data) = true) by (rewrite Hop; by destruct (r_operation r)).
    destruct (is_json data) eqn:Ej.
    + assert (body ++ doc_tag ++ data ++ [brace] = l) as <- by congruence. rewrite doc_tag_eq. apply (decode_more t k m body (lit "doc") data); auto.
      intros fs. by apply payload_doc.
    + apply rbind_ok in E as (text & Et & E).
      assert (body ++ b64_tag ++ string_to_vec text ++ [brace] = l) as <- by congruence. rewrite b64_tag_eq.
      apply (decode_more t k m body (lit "data_b64") (string_to_vec text)); auto using string_json.
      intros fs Hfs. apply (payload_b64 m); [done|]. by eapply base64_roundtrip.
  - intros [= <-]. apply decode_plain. rewrite Hop. rewrite (bool_decide_eq_true_2 (@None bytes = None)), andb_true_r in Es by done.
    apply bool_decide_eq_false in Es. by destruct (r_operation r).
Qed.

Lemma record_from_record r : record (from_record r) (r_data r) = r.
Proof. by destruct r. Qed.

(** A record that has a date, or is not from a conversion, is written as it is. *)
Lemma dated_same now m : md_date_from_migration m = false ∨ md_date m ≠ [] → dated now m = m.
Proof.
  intros Hm. unfold dated. destruct (md_date_from_migration m); [|done]. destruct Hm as [|Hm]; [done|].
  by rewrite bool_decide_eq_false_2.
Qed.
End record_proofs.

(** ** A concrete writer and reader *)

#[global] Instance BackupOperation_countable : Countable BackupOperation.
Proof.
  refine (inj_countable' (λ o, match o with Set_ => 0 | Delete_ => 1 | Restore => 2 | RestoreBulk => 3 end)
    (λ n, match n with 0 => Set_ | 1 => Delete_ | 2 => Restore | _ => RestoreBulk end) _). by intros [].
Defined.

#[global] Instance Metadata_countable_eq : EqDecision Metadata.
Proof. solve_decision. Defined.

#[global] Instance Metadata_countable : Countable Metadata.
Proof.
  refine (inj_countable'
    (λ m, (md_version m, md_timestamp m, md_date m, md_operation m, md_table m, md_key m, md_bulk_id m,
           md_restored_version m, md_date_from_migration m))
    (λ '(a, b, c, d, e, f, g, h, i), Build_Metadata a b c d e f g h i) _). by intros [].
Defined.

(** Metadata are the bits of their code; a comma separates the one further field. *)
Module BitJson.
Definition is_bit (b : byte) : bool := bool_decide (b = Byte.x00) || bool_decide (b = Byte.x01).

Fixpoint bits (l : bytes) : bytes * bytes :=
  match l with
  | b :: l' => if is_bit b then let '(x, y) := bits l' in (b :: x, y) else ([], l)
  | [] => ([], [])
  end.

Definition meta_of (p : bytes) : option Metadata := decode (Redb.bytes_pos p).

(** [strip p l]: what follows the prefix [p]. *)
Definition strip (p l : bytes) : option bytes :=
  if bool_decide (take (length p) l = p) then Some (drop (length p) l) else None.

Definition entry (name : str) (at_ : nat) (v : bytes) : str * (nat * nat) :=
  (name, (at_ + spaces v, length (core v))%nat).

Definition read_fields (l : bytes) : option (list (str * (nat * nat))) :=
  let '(p, rest) := bits l in
  match meta_of p with
  | None => None
  | Some m =>
      let fs := (λ n, (n, (0, 0)%nat)) <$> meta_names m in
      let field name tag := (λ v, fs ++ [entry name (length (p ++ tag)) (take (length v - 1) v)]) <$> strip tag rest in
      if bool_decide (rest = [brace]) then Some fs
      else match field (lit "doc") (tag_of (lit "doc")) with
           | Some x => Some x
           | None => field (lit "data_b64") (tag_of (lit "data_b64"))
           end
  end.

Definition quote : byte := Byte.x22.

Definition json : BackupJson := {|
  fields := read_fields;
  meta_to_vec m := Redb.pos_bytes (encode m) ++ [brace];
  meta_from_slice l := meta_of (bits l).1;
  is_json v := bool_decide (head v = Some Byte.x7b) || bool_decide (head v = Some quote)
               || bool_decide (head v = Some Byte.x20);
  string_to_vec s := quote :: s ++ [quote];
  string_from_str l := match l with _ :: l' => Some (take (length l' - 1) l') | [] => None end;
  data_from_str _ := None;
|}.

Lemma bits_app p b r : is_bit b = false → bits (Redb.pos_bytes p ++ b :: r) = (Redb.pos_bytes p, b :: r).
Proof. intros Hb. induction p as [p IH|p IH|]; cbn; [by rewrite IH..|by rewrite Hb]. Qed.

Lemma meta_of_bits m : meta_of (Redb.pos_bytes (encode m)) = Some m.
Proof. unfold meta_of. by rewrite Redb.bytes_pos_bytes, decode_encode. Qed.

Lemma strip_app p l : strip p (p ++ l) = Some l.
Proof. unfold strip. rewrite take_app_length, drop_app_length. by rewrite bool_decide_eq_true_2. Qed.

Lemma strip_other v : strip (tag_of (lit "doc")) (tag_of (lit "data_b64") ++ v) = None.
Proof. unfold strip. by rewrite bool_decide_eq_false_2. Qed.

Lemma names_of ns : ((λ n : str, (n, (0, 0)%nat)) <$> ns).*1 = ns.
Proof. rewrite <-list_fmap_compose. apply list_fmap_id. Qed.

Lemma read_more m name v : name = lit "doc" ∨ name = lit "data_b64" →
  read_fields (Redb.pos_bytes (encode m) ++ tag_of name ++ v ++ [brace]) =
    Some (((λ n, (n, (0, 0)%nat)) <$> meta_names m) ++
          [entry name (length (Redb.pos_bytes (encode m) ++ tag_of name)) v]).
Proof.
  intros Hn. unfold read_fields. change (tag_of name ++ v ++ [brace])
    with (Byte.x2c :: (Byte.x22 :: name ++ [Byte.x22; Byte.x3a]) ++ v ++ [brace]).
  rewrite bits_app, meta_of_bits by done.
  change (Byte.x2c :: (Byte.x22 :: name ++ [Byte.x22; Byte.x3a]) ++ v ++ [brace])
    with (tag_of name ++ v ++ [brace]).
  rewrite bool_decide_eq_false_2 by done.
  assert (Ht : take (length (v ++ [brace]) - 1) (v ++ [brace]) = v)
    by (rewrite length_app; apply take_app_length'; simpl; lia).
  destruct Hn as [-> | ->]; rewrite ?strip_other, strip_app; cbn [fmap option_fmap option_map]; by rewrite Ht.
Qed.

Lemma quoted_tight s : spaces (quote :: s ++ [quote]) = 0%nat ∧ core (quote :: s ++ [quote]) = quote :: s ++ [quote].
Proof.
  split; [done|]. unfold core. change (drop_while json_space (quote :: s ++ [quote])) with (quote :: s ++ [quote]).
  change (quote :: s ++ [quote]) with ((quote :: s) ++ [quote]). rewrite rev_unit.
  change (drop_while json_space (quote :: rev (quote :: s))) with (quote :: rev (quote :: s)).
  cbn [rev]. rewrite rev_app_distr. cbn [rev app]. by rewrite rev_involutive.
Qed.

Lemma json_ok : @BackupJsonOk json.
Proof.
  split; cbn.
  - eauto.
  - intros m. unfold read_fields. rewrite bits_app, meta_of_bits by done.
    rewrite bool_decide_eq_true_2 by done. eexists. split; [done|]. apply names_of.
  - intros m. rewrite bits_app by done. apply meta_of_bits.
  - intros m body name v Eb%app_inj_2 Hn _; [|done]. destruct Eb as [<- _]. eexists. split; [by apply read_more|].
    apply names_of.
  - intros m body name v Eb%app_inj_2 Hn _; [|done]. destruct Eb as [<- _].
    change (tag_of name ++ v ++ [brace]) with (Byte.x2c :: (Byte.x22 :: name ++ [Byte.x22; Byte.x3a]) ++ v ++ [brace]).
    rewrite bits_app by done. apply meta_of_bits.
  - done.
  - apply quoted_tight.
  - intros s. rewrite length_app. cbn [length]. by rewrite take_app_length' by lia.
Qed.
End BitJson.

(** ** Property *)

(** C37: a backup record is read back as it was written, payload byte for byte: a JSON
    payload with the white space around it, any other payload through base64.  Only a
    converted record without a date changes: it is given the present one. *)
Theorem backup_record_roundtrip `{Allocator} `{BackupJsonOk} now r l table key :
  encode_record now r = Ok l →
  decode_record table key l = Ok (record (dated now (from_record r)) (r_data r)) ∧
  (r_date_from_migration r = false ∨ r_date r ≠ [] → decode_record table key l = Ok r).
Proof.
  intros E. pose proof (encode_record_back now r l table key E) as Hd. split; [done|].
  intros Hr. rewrite Hd, dated_same by done. by rewrite record_from_record.
Qed.

Definition sample_record : BackupRecord :=
  {| r_version := 3; r_timestamp := 17; r_date := lit "2024"; r_operation := Set_; r_table := lit "t";
     r_key := lit "k"; r_data := Some (Byte.x20 :: lit "{}" ++ [Byte.x0a]); r_bulk_id := None;
     r_restored_version := None; r_date_from_migration := false |}.

Lemma backup_record_roundtrip_witness :
  ∃ l, @encode_record generous BitJson.json {| now_millis := 0; now_text := [] |} sample_record = Ok l ∧
       @decode_record BitJson.json [] [] l = Ok sample_record.
Proof.
  eexists. split; [vm_compute; reflexivity|].
  refine (proj2 (@backup_record_roundtrip generous BitJson.json BitJson.json_ok
    {| now_millis := 0; now_text := [] |} sample_record _ [] [] _) (or_introl eq_refl)).
  vm_compute. reflexivity.
Defined.
