(* ===== verification/Backup.v ===== *)
(** * The backup file ([backup.rs])

    The backup file keeps, for each table [t], the records of its rows in a table of the
    same name under [key:version], the last version of each key in [t_version], and the
    named sets of versions in [t_bulk].  All are tables of one redb file, so a name has
    one type; [Bak] is that file.  The clock and the fresh ids are arguments. *)
From S2P Require Import Prelude Order Redb Memory OrderedCodec Eval BackupCodec.
Local Open Scope N_scope.

Record BulkEntry := { be_key : str; be_version : N }.
Record BulkRecord := {
  bu_id : str; bu_timestamp : Z; bu_date : str; bu_table : str; bu_entries : list BulkEntry;
}.

Definition version_table_name (t : str) : str := t ++ lit "_version".
Definition bulk_table_name (t : str) : str := t ++ lit "_bulk".

(** [format!("{key}:{version}")]. *)
Definition backup_key (key : str) (version : N) : str := key ++ colon :: dec version.

Section bak.
Context `{Redb}.

(** A redb table has one key and value type for good. *)
Inductive BakTable := BData (t : table str bytes) | BVersions (t : table str N).
End bak.

(** The file: its tables by name. *)
Abbreviation Bak := (gmap str BakTable).

Section bak_tables.
Context `{Redb}.

Definition type_mismatch : ClError := Database (lit "table type mismatch").
Definition missing_table : ClError := Database (lit "table does not exist").

(** [tx.open_table(def)] in a write transaction creates a missing table. *)
Definition open_data (b : Bak) (name : str) : result (table str bytes * Bak) :=
  match b !! name with
  | None => Ok (t_new, <[name := BData t_new]> b)
  | Some (BData t) => Ok (t, b)
  | Some (BVersions _) => Err type_mismatch
  end.
Definition open_versions (b : Bak) (name : str) : result (table str N * Bak) :=
  match b !! name with
  | None => Ok (t_new, <[name := BVersions t_new]> b)
  | Some (BVersions t) => Ok (t, b)
  | Some (BData _) => Err type_mismatch
  end.

(** The same in a read transaction: a missing table is an error. *)
Definition read_data (b : Bak) (name : str) : result (table str bytes) :=
  match b !! name with
  | None => Err missing_table
  | Some (BData t) => Ok t
  | Some (BVersions _) => Err type_mismatch
  end.
Definition read_versions (b : Bak) (name : str) : result (table str N) :=
  match b !! name with
  | None => Err missing_table
  | Some (BVersions t) => Ok t
  | Some (BData _) => Err type_mismatch
  end.
End bak_tables.

(** [sort_by_key]: stable. *)
Section sort.
Context {A K : Type} `{TotalOrder K} (key : A → K).
Fixpoint insert_by (a : A) (l : list A) : list A :=
  match l with
  | [] => [a]
  | x :: l' => if leb (key a) (key x) then a :: l else x :: insert_by a l'
  end.
Definition sort_by_key (l : list A) : list A := foldr insert_by [] l.
End sort.

Section manager.
Context `{Redb, Allocator, BackupJson} {SBulk : Serde BulkRecord}.

(** [BackupManager]: the file as its last commit left it, and whether it is open. *)
Record BackupManager := { b_file : Bak; b_open : bool; b_path : str }.

Definition bak_db (m : BackupManager) : result Bak :=
  if b_open m then Ok (b_file m) else Err (Closed (b_path m)).

Definition set_file (b : Bak) (m : BackupManager) : BackupManager :=
  {| b_file := b; b_open := b_open m; b_path := b_path m |}.

Definition bak_close (m : BackupManager) : bool * BackupManager :=
  (b_open m, {| b_file := b_file m; b_open := false; b_path := b_path m |}).

(** One write transaction: on an error, of the body or of the commit, nothing is kept. *)
Definition bak_write {A} (m : BackupManager) (commit : result ()) (body : Bak → result (A * Bak))
    : BackupManager * result A :=
  match (let? b := bak_db m in let? '(a, b') := body b in check? commit in Ok (a, b')) with
  | Ok (a, b') => (set_file b' m, Ok a)
  | Err e => (m, Err e)
  end.

Definition init_body (name : str) (b : Bak) : result (() * Bak) :=
  let? '(_, b) := open_data b name in
  let? '(_, b) := open_versions b (version_table_name name) in
  let? '(_, b) := open_data b (bulk_table_name name) in
  Ok ((), b).

Definition init_table (m : BackupManager) (commit : result ()) (name : str) : BackupManager * result () :=
  match bak_db m with
  | Err e => (m, Err e)
  | Ok b =>
      if is_ok (read_data b name) && is_ok (read_versions b (version_table_name name))
         && is_ok (read_data b (bulk_table_name name))
      then (m, Ok ()) else bak_write m commit (init_body name)
  end.

Definition next_version (b : Bak) (table key : str) : result (N * Bak) :=
  let? '(t, b) := open_versions b (version_table_name table) in
  let current := default 0 (t_get t key) in
  if current + 1 <? U64 then
    Ok (current + 1, <[version_table_name table := BVersions (t_insert t key (current + 1))]> b)
  else Err (Validation (lit "backup version exhausted")).

Definition with_version (v : N) (r : BackupRecord) : BackupRecord :=
  {| r_version := v; r_timestamp := r_timestamp r; r_date := r_date r; r_operation := r_operation r;
     r_table := r_table r; r_key := r_key r; r_data := r_data r; r_bulk_id := r_bulk_id r;
     r_restored_version := r_restored_version r; r_date_from_migration := r_date_from_migration r |}.

Definition collision (k : str) : ClError := Validation (lit "backup version collision: " ++ k).

(** The body of [write]: [table] is the definition it was given. *)
Definition write_body (now : Now) (table key : str) (r : BackupRecord) (b : Bak) : result (() * Bak) :=
  let? '(version, b) := next_version b (r_table r) key in
  let? data := encode_record now (with_version version r) in
  let k := backup_key key version in
  let? '(t, b) := open_data b table in
  match t_get t k with
  | Some _ => Err (collision k)
  | None => Ok ((), <[table := BData (t_insert t k data)]> b)
  end.

Definition write (m : BackupManager) (commit : result ()) (now : Now) (table key : str) (r : BackupRecord)
    : BackupManager * result () := bak_write m commit (write_body now table key r).

Definition new_record (now : Now) (op : BackupOperation) (table key : str) (data : option bytes)
    (bulk_id : option str) (restored : option N) : BackupRecord :=
  {| r_version := 0; r_timestamp := now_millis now; r_date := now_text now; r_operation := op;
     r_table := table; r_key := key; r_data := data; r_bulk_id := bulk_id;
     r_restored_version := restored; r_date_from_migration := false |}.

Definition record_set m commit now (table table_name key : str) (data : bytes) :=
  write m commit now table key (new_record now Set_ table_name key (Some data) None None).

Definition record_delete m commit now (table table_name key : str) :=
  write m commit now table key (new_record now Delete_ table_name key None None None).

Definition record_restore m commit now (table table_name key : str) (restored_version : N)
    (data : option bytes) (bulk_id : option str) :=
  write m commit now table key (new_record now Restore table_name key data bulk_id (Some restored_version)).

(** The data a record stands for. *)
Definition record_data (r : BackupRecord) : option bytes :=
  match r_operation r with Delete_ => None | _ => r_data r end.

(** The record of one version, if there is one. *)
Definition read_record (b : Bak) (table name key : str) (version : N) : result (option BackupRecord) :=
  let? t := read_data b table in
  match t_get t (backup_key key version) with
  | Some v => rmap Some (decode_record name (backup_key key version) v)
  | None => Ok None
  end.

(** The loop of [restore_bulk]: each entry is its own transaction, so the entries done
    before a failure stay done. [commits] and [nows] answer in turn. *)
Fixpoint restore_entries (m : BackupManager) (commit : nat → result ()) (now : nat → Now) (table name bulk_id : str)
    (i : nat) (entries : list BulkEntry) (results : list (str * option bytes))
    : BackupManager * result (list (str * option bytes)) :=
  match entries with
  | [] => (m, Ok results)
  | e :: entries' =>
      match (let? b := bak_db m in
             let? r := read_record b table name (be_key e) (be_version e) in
             ok_or r (NotFound (lit "backup record " ++ backup_key (be_key e) (be_version e) ++ lit " not found"))) with
      | Err x => (m, Err x)
      | Ok r =>
          let data := record_data r in
          let '(m', a) := write m (commit i) (now i) table (be_key e)
            (new_record (now i) RestoreBulk name (be_key e) data (Some bulk_id) (Some (be_version e))) in
          match a with
          | Err x => (m', Err x)
          | Ok () => restore_entries m' commit now table name bulk_id (S i) entries' (results ++ [(be_key e, data)])
          end
      end
  end.

Definition read_bulk (b : Bak) (name bulk_id : str) : result BulkRecord :=
  let? t := read_data b (bulk_table_name name) in
  let? v := ok_or (t_get t bulk_id) (NotFound (lit "bulk_id " ++ bulk_id ++ lit " not found")) in
  from_slice v.

Definition restore_bulk (m : BackupManager) (commit : nat → result ()) (now : nat → Now) (table name bulk_id : str)
    : BackupManager * result (list (str * option bytes)) :=
  match (let? b := bak_db m in read_bulk b name bulk_id) with
  | Err x => (m, Err x)
  | Ok bulk => restore_entries m commit now table name bulk_id 0 (bu_entries bulk) []
  end.

Definition list_bulk (m : BackupManager) (name : str) : result (list BulkRecord) :=
  let? b := bak_db m in
  let? t := read_data b (bulk_table_name name) in
  let? l := traverse (λ p, from_slice (A := BulkRecord) p.2) (t_iter t) in
  Ok (sort_by_key bu_timestamp l).

(** The rows of a key are those under a key that starts with [key:]. *)
Definition history_rows (t : table str bytes) (key : str) : list (str * bytes) :=
  filter (λ p, starts_with p.1 (key ++ [colon]) = true) (t_iter t).

(** The rows that cannot be read, and the records of the others.  The text of the error,
    which lists the former, is abbreviated. *)
Definition unreadable (table : str) (l : list (str * bytes)) : list str :=
  omap (λ p, match decode_record table p.1 p.2 with Ok _ => None | Err _ => Some p.1 end) l.
Definition readable (table : str) (l : list (str * bytes)) : list BackupRecord :=
  omap (λ p, match decode_record table p.1 p.2 with Ok r => Some r | Err _ => None end) l.

Definition history (m : BackupManager) (table key : str) : result (list BackupRecord) :=
  let? b := bak_db m in
  let? t := read_data b table in
  let l := history_rows t key in
  if bool_decide (unreadable table l = []) then Ok (sort_by_key r_version (readable table l))
  else Err (BackupNormalizeFailed (lit "unreadable backup records")).

(** [filter(|r| r.timestamp <= timestamp).last()]. *)
Definition last_at (timestamp : Z) (l : list BackupRecord) : option BackupRecord :=
  last (filter (λ r, (r_timestamp r <= timestamp)%Z) l).

Definition view_at (m : BackupManager) (table key : str) (timestamp : Z) : result (option bytes) :=
  let? l := history m table key in Ok (last_at timestamp l ≫= record_data).

Definition view_by_version (m : BackupManager) (table key : str) (version : N) : result (option bytes) :=
  let? b := bak_db m in
  let? r := read_record b table table key version in Ok (r ≫= record_data).

Definition current_version (m : BackupManager) (name key : str) : result N :=
  let? b := bak_db m in
  let? t := read_versions b (version_table_name name) in Ok (default 0 (t_get t key)).

Definition write_bulk (m : BackupManager) (commit : result ()) (now : Now) (bulk_id name : str)
    (entries : list (str * N)) : BackupManager * result str :=
  let entries := (λ p, {| be_key := p.1; be_version := p.2 |}) <$> entries in
  if bool_decide (length entries = 0%nat) then (m, Err (Validation (lit "no valid ids provided"))) else
  let r := {| bu_id := bulk_id; bu_timestamp := now_millis now; bu_date := now_text now;
              bu_table := name; bu_entries := entries |} in
  bak_write m commit (λ b,
    let? '(t, b) := open_data b (bulk_table_name name) in
    Ok (bulk_id, <[bulk_table_name name := BData (t_insert t bulk_id (ser r))]> b)).

(** ** Renaming a table *)

Definition with_table (now : Now) (to : str) (r : BackupRecord) : BackupRecord :=
  let undated := r_date_from_migration r && bool_decide (r_date r = []) in
  {| r_version := r_version r; r_timestamp := if undated then now_millis now else r_timestamp r;
     r_date := if undated then now_text now else r_date r; r_operation := r_operation r;
     r_table := to; r_key := r_key r; r_data := r_data r; r_bulk_id := r_bulk_id r;
     r_restored_version := r_restored_version r; r_date_from_migration := r_date_from_migration r |}.

Definition with_bulk_table (to : str) (r : BulkRecord) : BulkRecord :=
  {| bu_id := bu_id r; bu_timestamp := bu_timestamp r; bu_date := bu_date r; bu_table := to;
     bu_entries := bu_entries r |}.

(** Move one entry; the target must not have it. *)
Definition move {V} (what : str → ClError) (ft : table str V * table str V) (e : str * V)
    : result (table str V * table str V) :=
  match t_get ft.2 e.1 with
  | Some _ => Err (what e.1)
  | None => Ok (t_remove ft.1 e.1, t_insert ft.2 e.1 e.2)
  end.

(** What [open_table] of the read transaction gives: nothing for a missing table. *)
Definition entries_data (b : Bak) (name : str) : result (list (str * bytes)) :=
  match b !! name with
  | None => Ok [] | Some (BData t) => Ok (t_iter t) | Some (BVersions _) => Err type_mismatch
  end.
Definition entries_versions (b : Bak) (name : str) : result (list (str * N)) :=
  match b !! name with
  | None => Ok [] | Some (BVersions t) => Ok (t_iter t) | Some (BData _) => Err type_mismatch
  end.

Definition rename_data (b : Bak) (from to : str) (what : str → ClError) (l : list (str * bytes)) : result Bak :=
  let? '(f, b) := open_data b from in
  let? '(t, b) := open_data b to in
  let? '(f, t) := try_fold (move what) (f, t) l in
  Ok (<[to := BData t]> (<[from := BData f]> b)).

Definition rename_versions (b : Bak) (from to : str) (what : str → ClError) (l : list (str * N)) : result Bak :=
  let? '(f, b) := open_versions b from in
  let? '(t, b) := open_versions b to in
  let? '(f, t) := try_fold (move what) (f, t) l in
  Ok (<[to := BVersions t]> (<[from := BVersions f]> b)).

Definition encode_entry (now : Now) (to : str) (p : str * BackupRecord) : result (str * bytes) :=
  rmap (pair p.1) (encode_record now (with_table now to p.2)).

(** The write transaction of the renaming. A row is encoded just before it is moved, so
    the first failure of either kind ends the loop. *)
Definition move_record (now : Now) (to : str) (ft : table str bytes * table str bytes) (p : str * BackupRecord)
    : result (table str bytes * table str bytes) :=
  let? e := encode_entry now to p in
  move (λ k, Validation (lit "backup rename collision: " ++ to ++ lit "/" ++ k)) ft e.

Definition rename_body (now : Now) (from to : str) (records : list (str * BackupRecord))
    (versions : list (str * N)) (bulks : list (str * bytes)) (b : Bak) : result (() * Bak) :=
  let? '(f, b) := open_data b from in
  let? '(t, b) := open_data b to in
  let? '(f, t) := try_fold (move_record now to) (f, t) records in
  let b := <[to := BData t]> (<[from := BData f]> b) in
  let? b := rename_versions b (version_table_name from) (version_table_name to)
              (λ k, Validation (lit "backup version rename collision: " ++ k)) versions in
  let? b := rename_data b (bulk_table_name from) (bulk_table_name to)
              (λ k, Validation (lit "backup bulk rename collision: " ++ k)) bulks in
  Ok ((), b).

Definition rewrite_table_name (m : BackupManager) (commit : result ()) (now : Now) (from to : str)
    : BackupManager * result () :=
  if bool_decide (from = to) then (m, Ok ()) else
  match (let? b := bak_db m in
         let? l := entries_data b from in
         let? records := traverse (λ p, rmap (pair p.1) (decode_record from p.1 p.2)) l in
         let? versions := entries_versions b (version_table_name from) in
         let? l := entries_data b (bulk_table_name from) in
         let? bulks := traverse (λ p, rmap (λ r, (p.1, ser (with_bulk_table to r))) (from_slice p.2)) l in
         Ok (records, versions, bulks)) with
  | Err x => (m, Err x)
  | Ok (records, versions, bulks) =>
      if bool_decide (length records = 0%nat) && bool_decide (length versions = 0%nat)
         && bool_decide (length bulks = 0%nat)
      then (m, Ok ()) else bak_write m commit (rename_body now from to records versions bulks)
  end.
End manager.
