(* ===== verification/BackupSpec.v ===== *)
(** * Correctness of the backup file

    The history of a key is append-only and numbered from one without gaps; a version
    written is read back for good; a version never collides. *)
From S2P Require Import Prelude Order Redb Memory Fields OrderedCodec Eval BackupCodec BackupCodecSpec Backup.
Local Open Scope N_scope.

(** ** Names *)

Lemma rsplit_dec s : colon ∉ s → rsplit_once s = None.
Proof.
  induction s as [|b s IH]; [done|]. intros Hn. cbn [rsplit_once]. rewrite IH by set_solver.
  rewrite decide_False; [done|]. set_solver.
Qed.

Lemma rsplit_app k s : colon ∉ s → rsplit_once (k ++ colon :: s) = Some (k, s).
Proof.
  intros Hs. induction k as [|b k IH]; cbn [app rsplit_once]; [by rewrite rsplit_dec|by rewrite IH].
Qed.

Lemma rsplit_backup_key k v : rsplit_once (backup_key k v) = Some (k, dec v).
Proof. apply rsplit_app, dec_no_colon. Qed.

(** A row of the history names its key and its version. *)
Lemma backup_key_inj k v k' v' : backup_key k v = backup_key k' v' → k = k' ∧ v = v'.
Proof.
  intros E. apply (f_equal rsplit_once) in E. rewrite !rsplit_backup_key in E.
  injection E as -> E. split; [done|]. by apply (inj dec).
Qed.

Lemma version_table_name_inj t t' : version_table_name t = version_table_name t' → t = t'.
Proof. apply app_inj_2. done. Qed.

Lemma version_table_name_ne t : version_table_name t ≠ t.
Proof.
  intros E. apply (f_equal length) in E. unfold version_table_name in E. rewrite length_app in E.
  change (length (lit "_version")) with 8%nat in E. lia.
Qed.

Lemma backup_key_colon k v : colon ∈ backup_key k v.
Proof. unfold backup_key. set_solver. Qed.

(** ** The invariant *)

Section spec.
Context `{Redb, BackupJson}.

Definition current_of (b : Bak) (t k : str) : N :=
  match b !! version_table_name t with Some (BVersions vs) => default 0 (t_get vs k) | _ => 0 end.

(** Version [v] of key [k] is there and says so. *)
Definition holds_version (t : str) (d : table str bytes) (k : str) (v : N) : Prop :=
  ∃ l r, t_get d (backup_key k v) = Some l ∧ decode_record t (backup_key k v) l = Ok r ∧
         r_version r = v ∧ r_key r = k ∧ r_table r = t.

Record bak_ok (b : Bak) : Prop := {
  bo_versions : ∀ t k, 0 < current_of b t k → current_of b t k < U64 ∧
    ∃ d, b !! t = Some (BData d) ∧ ∀ v, 0 < v <= current_of b t k → holds_version t d k v;
  bo_rows : ∀ t d k v l, b !! t = Some (BData d) → t_get d (backup_key k v) = Some l →
    0 < v <= current_of b t k;
}.

Lemma bak_ok_empty : bak_ok (∅ : gmap str BakTable).
Proof.
  split.
  - intros t k. unfold current_of. rewrite lookup_empty. lia.
  - intros t d k v l E. by rewrite lookup_empty in E.
Qed.

(** Nothing of the history is lost: versions written stay, as they were. *)
Definition bak_keeps (b b' : Bak) : Prop :=
  ∀ t k, current_of b t k <= current_of b' t k ∧
    ∀ v, 0 < v <= current_of b t k → read_record b' t t k v = read_record b t t k v.

#[global] Instance bak_keeps_refl : Reflexive bak_keeps.
Proof. intros b t k. done. Qed.
#[global] Instance bak_keeps_trans : Transitive bak_keeps.
Proof.
  intros b1 b2 b3 H1 H2 t k. destruct (H1 t k) as [L1 R1], (H2 t k) as [L2 R2]. split; [lia|].
  intros v Hv. rewrite R2 by lia. by apply R1.
Qed.

(** ** Opening tables *)

Definition data_of (b : Bak) (t : str) : table str bytes :=
  match b !! t with Some (BData d) => d | _ => t_new end.
Definition versions_of (b : Bak) (t : str) : table str N :=
  match b !! t with Some (BVersions d) => d | _ => t_new end.

Lemma open_data_ok b t d b' : open_data b t = Ok (d, b') →
  d = data_of b t ∧ (∀ vs, b !! t ≠ Some (BVersions vs)) ∧ b' = <[t := BData d]> b.
Proof.
  unfold open_data, data_of. destruct (b !! t) as [[d0|vs]|] eqn:E; intros [= <- <-].
  - split_and!; [done|congruence|]. by rewrite insert_id.
  - split_and!; [done|congruence|done].
Qed.

Lemma open_versions_ok b t d b' : open_versions b t = Ok (d, b') →
  d = versions_of b t ∧ (∀ vs, b !! t ≠ Some (BData vs)) ∧ b' = <[t := BVersions d]> b.
Proof.
  unfold open_versions, versions_of. destruct (b !! t) as [[d0|vs]|] eqn:E; intros [= <- <-].
  - split_and!; [done|congruence|]. by rewrite insert_id.
  - split_and!; [done|congruence|done].
Qed.

Lemma current_versions_of b t k : current_of b t k = default 0 (t_get (versions_of b (version_table_name t)) k).
Proof.
  unfold current_of, versions_of. destruct (b !! version_table_name t) as [[]|]; try done; by rewrite t_get_new.
Qed.

(** Adding a missing empty table changes no history. *)
Lemma add_data_ok b t : (∀ vs, b !! t ≠ Some (BVersions vs)) → bak_ok b →
  bak_ok (<[t := BData (data_of b t)]> b) ∧ bak_keeps b (<[t := BData (data_of b t)]> b).
Proof.
  intros Ht Hb. set (b' := <[t := _]> b).
  assert (Hc : ∀ t' k, current_of b' t' k = current_of b t' k).
  { intros t' k. unfold current_of, b'. rewrite lookup_insert. case_decide as Ec; [|done]. subst t.
    destruct (b !! version_table_name t') as [[|vs]|] eqn:E; [done|by destruct (Ht vs)|done]. }
  assert (Hd : ∀ t' d, b' !! t' = Some (BData d) → ∀ s l, t_get d s = Some l → b !! t' = Some (BData d)).
  { intros t' d. unfold b'. rewrite lookup_insert. case_decide as Ec; [|done]. subst t'. intros [= <-] s l.
    unfold data_of. destruct (b !! t) as [[]|] eqn:E; [done|by rewrite t_get_new..]. }
  assert (Hi : ∀ t' d, b !! t' = Some (BData d) → b' !! t' = Some (BData d)).
  { intros t' d E. unfold b'. rewrite lookup_insert. case_decide as Ec; [|done]. subst t'.
    unfold data_of. by rewrite E. }
  split; [split|].
  - intros t' k. rewrite Hc. intros Hp. destruct (bo_versions b Hb t' k Hp) as (Hu & d & Ed & Hv). eauto.
  - intros t' d k v l Ed Hl. rewrite Hc. eapply (bo_rows b Hb); [by eapply Hd|done].
  - intros t' k. rewrite Hc. split; [done|]. intros v Hv.
    destruct (bo_versions b Hb t' k) as (_ & d & Ed & _); [lia|].
    unfold read_record, read_data. by rewrite (Hi _ _ Ed), Ed.
Qed.

Lemma add_versions_ok b t : (∀ d, b !! t ≠ Some (BData d)) → bak_ok b →
  bak_ok (<[t := BVersions (versions_of b t)]> b) ∧ bak_keeps b (<[t := BVersions (versions_of b t)]> b).
Proof.
  intros Ht Hb. set (b' := <[t := _]> b).
  assert (Hc : ∀ t' k, current_of b' t' k = current_of b t' k).
  { intros t' k. rewrite !current_versions_of. unfold versions_of at 1, b'. rewrite lookup_insert.
    case_decide as Ec; [by subst t|done]. }
  assert (Hd : ∀ t' d, b' !! t' = Some (BData d) ↔ b !! t' = Some (BData d)).
  { intros t' d. unfold b'. rewrite lookup_insert. case_decide as Ec; [|done]. subst t'.
    split; [done|]. intros E. by destruct (Ht d). }
  split; [split|].
  - intros t' k. rewrite Hc. intros Hp. destruct (bo_versions b Hb t' k Hp) as (Hu & d & Ed & Hv).
    split; [done|]. exists d. by rewrite Hd.
  - intros t' d k v l Ed Hl. rewrite Hc. rewrite Hd in Ed. by eapply (bo_rows b Hb).
  - intros t' k. rewrite Hc. split; [done|]. intros v Hv.
    destruct (bo_versions b Hb t' k) as (_ & d & Ed & _); [lia|].
    unfold read_record, read_data. by rewrite (proj2 (Hd _ _) Ed), Ed.
Qed.

Lemma init_body_ok b t b' : bak_ok b → init_body t b = Ok ((), b') → bak_ok b' ∧ bak_keeps b b'.
Proof.
  intros Hb E. unfold init_body in E. apply rbind_ok in E as ([d1 b1] & E1 & E).
  apply rbind_ok in E as ([d2 b2] & E2 & E). apply rbind_ok in E as ([d3 b3] & E3 & [= <-]).
  apply open_data_ok in E1 as (-> & T1 & ->), E3 as (-> & T3 & ->). apply open_versions_ok in E2 as (-> & T2 & ->).
  destruct (add_data_ok b t T1 Hb) as [O1 K1]. destruct (add_versions_ok _ _ T2 O1) as [O2 K2].
  destruct (add_data_ok _ _ T3 O2) as [O3 K3]. split; [done|]. by etrans; [etrans|].
Qed.

(** Adding a row that is not a version of a key. *)
Lemma add_row_ok b t s l : colon ∉ s → (∀ vs, b !! t ≠ Some (BVersions vs)) → bak_ok b →
  bak_ok (<[t := BData (t_insert (data_of b t) s l)]> b) ∧
  bak_keeps b (<[t := BData (t_insert (data_of b t) s l)]> b).
Proof.
  intros Hs Ht Hb0. destruct (add_data_ok b t Ht Hb0) as [Hb K0]. set (b0 := <[t := _]> b) in *.
  set (d := data_of b t) in *.
  replace (<[t := BData (t_insert d s l)]> b) with (<[t := BData (t_insert d s l)]> b0)
    by (subst b0; by rewrite insert_insert_eq).
  set (b' := <[t := _]> b0).
  assert (E0 : b0 !! t = Some (BData d)) by (subst b0; by rewrite lookup_insert_eq).
  assert (Hk : ∀ k v, t_get (t_insert d s l) (backup_key k v) = t_get d (backup_key k v)).
  { intros k v. rewrite t_get_insert_ne; [done|]. intros ->. by apply Hs, backup_key_colon. }
  assert (Hc : ∀ t' k, current_of b' t' k = current_of b0 t' k).
  { intros t' k. unfold current_of, b'. rewrite lookup_insert. case_decide as Ec; [|done]. subst t. by rewrite E0. }
  assert (Hr : ∀ t' k v, read_record b' t' t' k v = read_record b0 t' t' k v).
  { intros t' k v. unfold read_record, read_data, b'. rewrite lookup_insert. case_decide as Ec; [|done]. subst t'.
    rewrite E0. cbn [rbind]. by rewrite Hk. }
  split; [split|].
  - intros t' k. rewrite Hc. intros Hp. destruct (bo_versions b0 Hb t' k Hp) as (Hu & d' & Ed & Hv). split; [done|].
    destruct (decide (t = t')) as [<-|Hne].
    + exists (t_insert d s l). unfold b'. rewrite lookup_insert_eq. split; [done|]. intros v Hv'.
      destruct (Hv v Hv') as (x & r & Ex & Er). exists x, r. rewrite Hk. rewrite E0 in Ed. by injection Ed as ->.
    + exists d'. unfold b'. by rewrite lookup_insert_ne.
  - intros t' d' k v x. unfold b' at 1. rewrite lookup_insert, Hc. case_decide as Ec; [subst t'|].
    + intros [= <-]. rewrite Hk. by apply (bo_rows b0 Hb).
    + apply (bo_rows b0 Hb).
  - etrans; [exact K0|]. intros t' k. rewrite Hc. split; [done|]. intros v _. apply Hr.
Qed.
End spec.

(** ** Writing a version *)

Section writing.
Context `{Redb, Allocator, BackupJsonOk} {SBulk : Serde BulkRecord}.

(** What a write did: one more version, holding the record. *)
Record wrote (b : Bak) (t k : str) (r : BackupRecord) (b' : Bak) : Prop := {
  w_room : current_of b t k + 1 < U64;
  w_current : ∀ t' k', current_of b' t' k' =
    if decide (t = t' ∧ k = k') then current_of b t k + 1 else current_of b t' k';
  w_record : read_record b' t t k (current_of b t k + 1) = Ok (Some (with_version (current_of b t k + 1) r));
  w_others : ∀ t' k' v, (t, k, current_of b t k + 1) ≠ (t', k', v) →
    ∀ d', b' !! t' = Some (BData d') → t_get d' (backup_key k' v) = t_get (data_of b t') (backup_key k' v);
  w_tables : ∀ t' d, b !! t' = Some (BData d) → ∃ d', b' !! t' = Some (BData d');
  w_back : ∀ t' d', b' !! t' = Some (BData d') → t' = t ∨ b !! t' = Some (BData d');
}.

Lemma encode_with_version now v r l t k : r_date_from_migration r = false →
  encode_record now (with_version v r) = Ok l → decode_record t k l = Ok (with_version v r).
Proof.
  intros Hd E. rewrite (encode_record_back now _ l t k E), dated_same by by left. by destruct r.
Qed.

Lemma write_body_wrote now t k r b b' : r_table r = t → r_date_from_migration r = false →
  write_body now t k r b = Ok ((), b') → wrote b t k r b'.
Proof.
  intros Ht Hd E. unfold write_body in E. rewrite Ht in E.
  apply rbind_ok in E as ([v b1] & E1 & E). apply rbind_ok in E as (l & El & E).
  apply rbind_ok in E as ([d b2] & E2 & E). unfold next_version in E1.
  apply rbind_ok in E1 as ([vs b0] & E0 & E1). apply open_versions_ok in E0 as (-> & T0 & ->).
  rewrite <-current_versions_of in E1. destruct (N.ltb_spec (current_of b t k + 1) U64) as [Hu|]; [|done].
  injection E1 as <- <-. rewrite insert_insert_eq in E2. set (vs' := t_insert _ k _) in E2.
  apply open_data_ok in E2 as (Ed & T2 & ->). pose proof (version_table_name_ne t) as Hne.
  assert (d = data_of b t) as -> by (rewrite Ed; unfold data_of; by rewrite lookup_insert_ne).
  clear Ed. set (n := current_of b t k + 1) in *.
  destruct (t_get (data_of b t) (backup_key k n)) eqn:Ec; [done|]. injection E as <-.
  rewrite insert_insert_eq. set (d' := t_insert _ _ l).
  set (b' := <[t := BData d']> _).
  assert (Lt : b' !! t = Some (BData d')) by (subst b'; by rewrite lookup_insert_eq).
  assert (Lv : b' !! version_table_name t = Some (BVersions vs'))
    by (subst b'; rewrite lookup_insert_ne, lookup_insert_eq; done).
  assert (Lo : ∀ s, s ≠ t → s ≠ version_table_name t → b' !! s = b !! s)
    by (intros s ? ?; subst b'; by rewrite !lookup_insert_ne by done).
  split.
  - done.
  - intros t' k'. destruct (decide (t = t')) as [<-|Hn].
    + unfold current_of at 1. rewrite Lv. subst vs'. rewrite t_get_insert.
      destruct (decide (k = k')) as [<-|Hk].
      * by rewrite decide_True.
      * rewrite decide_False by naive_solver. by rewrite current_versions_of.
    + rewrite decide_False by naive_solver. unfold current_of. destruct (decide (version_table_name t' = t)) as [Ev|Ev].
      * rewrite Ev, Lt. destruct (b !! t) as [[|vs]|] eqn:Eb; [done| |done].
        destruct (T2 vs). rewrite lookup_insert_ne by done. exact Eb.
      * rewrite Lo; [done|done|]. intros Ex%version_table_name_inj. by subst.
  - unfold read_record, read_data. rewrite Lt. cbn [rbind]. subst d'. autorewrite with clove.
    by rewrite (encode_with_version now n r l) by done.
  - intros t' k' v' Hx d0. destruct (decide (t' = t)) as [->|Hn].
    + rewrite Lt. intros [= <-]. subst d'. rewrite t_get_insert_ne; [done|].
      intros [E1 E2]%backup_key_inj. apply Hx. by rewrite <-E1, <-E2.
    + intros E0. assert (t' ≠ version_table_name t) by congruence. rewrite Lo in E0 by done.
      unfold data_of. by rewrite E0.
  - intros t' d0 E0. destruct (decide (t' = t)) as [->|Hn]; [eauto|]. exists d0. rewrite Lo; [done..|].
    intros ->. by destruct (T0 d0).
  - intros t' d0 E0. destruct (decide (t' = t)) as [->|Hn]; [by left|right].
    assert (t' ≠ version_table_name t) by congruence. by rewrite Lo in E0.
Qed.

Lemma wrote_table b t k r b' : wrote b t k r b' → ∃ d, b' !! t = Some (BData d).
Proof.
  intros W. pose proof (w_record _ _ _ _ _ W) as E. unfold read_record, read_data in E.
  destruct (b' !! t) as [[d|]|]; [eauto|done..].
Qed.

Lemma wrote_ok b t k r b' : r_table r = t → r_key r = k → wrote b t k r b' → bak_ok b →
  bak_ok b' ∧ bak_keeps b b'.
Proof.
  intros Ht Hk W Hb. set (n := current_of b t k + 1).
  assert (Hold : ∀ t' k' v d d', b !! t' = Some (BData d) → b' !! t' = Some (BData d') →
    v <= current_of b t' k' → t_get d' (backup_key k' v) = t_get d (backup_key k' v)).
  { intros t' k' v d d' Ed Ed' Hv. rewrite (w_others _ _ _ _ _ W t' k' v) by (done || (intros [= <- <- <-]; lia)).
    unfold data_of. by rewrite Ed. }
  split; [split|].
  - intros t' k' Hp. rewrite (w_current _ _ _ _ _ W) in *. case_decide as Ec.
    + destruct Ec as [<- <-]. split; [apply W|]. destruct (wrote_table _ _ _ _ _ W) as (d' & Ed'). exists d'.
      split; [done|]. intros v Hv. destruct (decide (v = n)) as [->|Hn].
      * pose proof (w_record _ _ _ _ _ W) as E. fold n in E. unfold read_record, read_data in E. rewrite Ed' in E. cbn [rbind] in E.
        destruct (t_get d' (backup_key k n)) as [l|] eqn:El; [|done].
        exists l. destruct (decode_record t (backup_key k n) l) as [r'|] eqn:Er; [|done]. injection E as ->.
        exists (with_version n r). done.
      * destruct (bo_versions b Hb t k) as (_ & d & Ed & Hv'); [lia|].
        destruct (Hv' v ltac:(lia)) as (l & r' & El & Er). exists l, r'.
        rewrite (Hold t k v d d' Ed Ed') by lia. done.
    + destruct (bo_versions b Hb t' k' Hp) as (Hu & d & Ed & Hv). split; [done|].
      destruct (w_tables _ _ _ _ _ W t' d Ed) as (d' & Ed'). exists d'. split; [done|]. intros v Hv'.
      destruct (Hv v Hv') as (l & r' & El & Er). exists l, r'. by rewrite (Hold t' k' v d d' Ed Ed') by lia.
  - intros t' d' k' v l Ed' El. destruct (decide ((t, k, n) = (t', k', v))) as [[= <- <- <-]|Hn].
    { rewrite (w_current _ _ _ _ _ W), decide_True by done. subst n. lia. }
    rewrite (w_others _ _ _ _ _ W t' k' v Hn d' Ed') in El. unfold data_of in El.
    destruct (b !! t') as [[d|]|] eqn:Ed; [|by rewrite t_get_new in El..].
    pose proof (bo_rows b Hb t' d k' v l Ed El). rewrite (w_current _ _ _ _ _ W). case_decide as Ec; [|done].
    destruct Ec as [<- <-]. lia.
  - intros t' k'. split.
    + rewrite (w_current _ _ _ _ _ W). case_decide as Ec; [destruct Ec as [<- <-]; lia|lia].
    + intros v Hv. destruct (bo_versions b Hb t' k') as (_ & d & Ed & _); [lia|].
      destruct (w_tables _ _ _ _ _ W t' d Ed) as (d' & Ed'). unfold read_record, read_data. rewrite Ed, Ed'. cbn [rbind].
      by rewrite (Hold t' k' v d d' Ed Ed') by lia.
Qed.

(** Under the invariant the version that comes next is free. *)
Lemma write_no_collision now t k r b x : r_table r = t → bak_ok b →
  write_body now t k r b ≠ Err (collision x).
Proof.
  intros Ht Hb E. unfold write_body in E. rewrite Ht in E.
  unfold next_version in E. destruct (open_versions b _) as [[vs b0]|e] eqn:E0; cbn [rbind] in E.
  2:{ unfold open_versions in E0. destruct (b !! _) as [[]|]; [|done..].
      unfold type_mismatch, collision in *. congruence. }
  apply open_versions_ok in E0 as (-> & T0 & ->). rewrite <-current_versions_of in E.
  destruct (N.ltb _ _); cbn [rbind] in E; [|discriminate E].
  destruct (encode_record _ _) as [l|e] eqn:El; cbn [rbind] in E.
  2:{ injection E as ->. unfold encode_record in El. destruct (_ && _); [done|].
      destruct (r_data _) as [data|]; [|done]. destruct (bool_decide _); [done|].
      unfold reserve in El. destruct (try_reserve _ _); cbn [rbind refused] in El; [|done].
      destruct (is_json data); [done|]. unfold encode_base64 in El. by destruct (_ && _). }
  rewrite insert_insert_eq in E. destruct (open_data _ t) as [[d b2]|e] eqn:E2; cbn [rbind] in E.
  2:{ unfold open_data in E2. destruct (_ !! t) as [[]|]; [done| |done].
      unfold type_mismatch, collision in *. congruence. }
  apply open_data_ok in E2 as (Ed & T2 & ->). pose proof (version_table_name_ne t) as Hne.
  assert (d = data_of b t) as -> by (rewrite Ed; unfold data_of; by rewrite lookup_insert_ne).
  destruct (t_get _ _) as [y|] eqn:Ey; [|done]. unfold data_of in Ey.
  destruct (b !! t) as [[d|]|] eqn:Eb; [|by rewrite t_get_new in Ey..].
  pose proof (bo_rows b Hb t d _ _ y Eb Ey). lia.
Qed.
End writing.
