(* ===== verification/BackupProps.v ===== *)
(** * Properties of the backup file *)
From S2P Require Import Prelude Order Redb Memory Fields OrderedCodec Eval BackupCodec BackupCodecSpec Backup BackupSpec.
Local Open Scope N_scope.

(** ** Steps *)

Section steps.
Context `{Redb, Allocator, BackupJsonOk} {SBulk : Serde BulkRecord}.

Definition mgr_ok (m : BackupManager) : Prop := bak_ok (b_file m).
Definition mgr_keeps (m m' : BackupManager) : Prop := bak_keeps (b_file m) (b_file m').

(** Every operation that changes the file, with any answer of the system; the table
    definition and its name agree, and a fresh id is a uuid, without a colon. *)
Inductive bstep : BackupManager → BackupManager → Prop :=
| bs_init m commit t : bstep m (init_table m commit t).1
| bs_set m commit now t k data : bstep m (record_set m commit now t t k data).1
| bs_delete m commit now t k : bstep m (record_delete m commit now t t k).1
| bs_restore m commit now t k v data bulk : bstep m (record_restore m commit now t t k v data bulk).1
| bs_restore_bulk m commit now t id : bstep m (restore_bulk m commit now t t id).1
| bs_write_bulk m commit now id t entries : colon ∉ id → bstep m (write_bulk m commit now id t entries).1
| bs_close m : bstep m (bak_close m).2.

Lemma bak_write_cases {A} (m : BackupManager) (commit : result ()) (body : Bak → result (A * Bak)) :
  (∃ a b', bak_write m commit body = (set_file b' m, Ok a) ∧ body (b_file m) = Ok (a, b') ∧
           b_open m = true ∧ commit = Ok ()) ∨
  (∃ e, bak_write m commit body = (m, Err e) ∧
        (b_open m = false ∨ body (b_file m) = Err e ∨ commit = Err e)).
Proof.
  unfold bak_write, bak_db. destruct (b_open m); cbn [rbind]; [|right; eauto].
  destruct (body (b_file m)) as [[a b']|e]; cbn [rbind]; [|right; eauto 7].
  destruct commit as [[]|e]; cbn [rbind]; [left; eauto 8|right; eauto 7].
Qed.

(** A transaction whose body keeps the invariant and the history. *)
Lemma bak_write_step {A} (m : BackupManager) (commit : result ()) (body : Bak → result (A * Bak)) :
  (∀ a b', body (b_file m) = Ok (a, b') → bak_ok b' ∧ bak_keeps (b_file m) b') → mgr_ok m →
  mgr_ok (bak_write m commit body).1 ∧ mgr_keeps m (bak_write m commit body).1.
Proof.
  intros Hb Hm. destruct (bak_write_cases m commit body) as [(a & b' & -> & E & _)|(e & -> & _)]; cbn [fst].
  - by apply Hb in E.
  - split; [done|]. unfold mgr_keeps. reflexivity.
Qed.

Lemma version_step m commit now t k r : r_table r = t → r_key r = k → r_date_from_migration r = false → mgr_ok m →
  mgr_ok (write m commit now t k r).1 ∧ mgr_keeps m (write m commit now t k r).1.
Proof.
  intros Ht Hk Hd Hm. apply bak_write_step; [|done]. intros [] b' E.
  apply write_body_wrote in E; [|done..]. by eapply wrote_ok.
Qed.

Lemma restore_entries_step commit now t id entries : ∀ m i res, mgr_ok m →
  mgr_ok (restore_entries m commit now t t id i entries res).1 ∧
  mgr_keeps m (restore_entries m commit now t t id i entries res).1.
Proof.
  induction entries as [|e entries IH]; intros m i res Hm; cbn [restore_entries].
  - split; [done|]. unfold mgr_keeps. reflexivity.
  - destruct (let? b := bak_db m in _) as [r|x]; [|split; [done|unfold mgr_keeps; reflexivity]].
    destruct (version_step m (commit i) (now i) t (be_key e)
      (new_record (now i) RestoreBulk t (be_key e) (record_data r) (Some id) (Some (be_version e))) eq_refl eq_refl eq_refl Hm)
      as [O K]. destruct (write _ _ _ _ _ _) as [m' a]. cbn [fst] in O, K. destruct a as [[]|x]; [|done].
    destruct (IH m' (S i) (res ++ [(be_key e, record_data r)]) O) as [O' K']. split; [done|].
    unfold mgr_keeps in *. by etrans.
Qed.

Lemma bstep_keeps m m' : bstep m m' → mgr_ok m → mgr_ok m' ∧ mgr_keeps m m'.
Proof.
  assert (Hr : ∀ m : BackupManager, mgr_ok m → mgr_ok m ∧ mgr_keeps m m)
    by (intros; split; [done|unfold mgr_keeps; reflexivity]).
  intros [] Hm.
  - unfold init_table. destruct (bak_db m0) as [b|]; [|by apply Hr]. destruct (_ && _); [by apply Hr|].
    apply bak_write_step; [|done]. intros [] b'. by apply init_body_ok.
  - by apply version_step.
  - by apply version_step.
  - by apply version_step.
  - unfold restore_bulk. destruct (let? b := bak_db m0 in _); [|by apply Hr]. by apply restore_entries_step.
  - unfold write_bulk. case_bool_decide; [by apply Hr|]. apply bak_write_step; [|done].
    intros a b' E. apply rbind_ok in E as ([d b1] & E & [= <- <-]). apply open_data_ok in E as (-> & T & ->).
    rewrite insert_insert_eq. by apply add_row_ok.
  - exact (Hr _ Hm).
Qed.

Lemma bsteps_keep m m' : rtc bstep m m' → mgr_ok m → mgr_ok m' ∧ mgr_keeps m m'.
Proof.
  induction 1 as [m|m1 m2 m3 Hs _ IH]; intros Hm.
  - split; [done|]. unfold mgr_keeps. reflexivity.
  - destruct (bstep_keeps _ _ Hs Hm) as [O K]. destruct (IH O) as [O' K']. split; [done|].
    unfold mgr_keeps in *. by etrans.
Qed.
End steps.

(** ** Sorting *)

Section sorting.
Context {A : Type} (key : A → N).

Lemma insert_by_perm a l : insert_by key a l ≡ₚ a :: l.
Proof.
  induction l as [|x l IH]; [done|]. cbn [insert_by]. case_match; [done|]. rewrite IH. constructor.
Qed.

Lemma sort_by_key_perm l : sort_by_key key l ≡ₚ l.
Proof. induction l as [|a l IH]; [done|]. cbn [sort_by_key foldr]. rewrite insert_by_perm. by constructor. Qed.

Lemma insert_by_sorted a l : StronglySorted N.le (key <$> l) → StronglySorted N.le (key <$> insert_by key a l).
Proof.
  induction l as [|x l IH]; intros Hs; [repeat constructor|]. cbn [insert_by].
  cbn [fmap list_fmap] in Hs. apply StronglySorted_inv in Hs as [Hs Hf]. fold (key <$> l) in Hs, Hf.
  destruct (leb (key a) (key x)) eqn:E.
  - assert (key a <= key x).
    { apply leb_le in E. unfold key_lt in E. cbn in E. rewrite N.compare_lt_iff in E. lia. }
    cbn [fmap list_fmap]. fold (key <$> l). constructor; [by constructor|]. constructor; [done|].
    eapply Forall_impl; [exact Hf|]. intros y. lia.
  - assert (key x <= key a).
    { apply not_true_iff_false in E. rewrite leb_le in E. apply dec_stable in E.
      unfold key_lt in E. cbn in E. rewrite N.compare_lt_iff in E. lia. }
    cbn [fmap list_fmap]. fold (key <$> insert_by key a l). constructor; [by apply IH|].
    apply Forall_forall. intros y Hy. rewrite (insert_by_perm a l) in Hy. cbn in Hy.
    apply elem_of_cons in Hy as [->|Hy]; [done|]. rewrite Forall_forall in Hf. by apply Hf.
Qed.

Lemma sort_by_key_sorted l : StronglySorted N.le (key <$> sort_by_key key l).
Proof. induction l as [|a l IH]; [constructor|]. by apply insert_by_sorted. Qed.

(** Distinct keys that are exactly [1..n] come out as [1..n]. *)
Lemma sort_by_key_seq l n : NoDup (key <$> l) → (∀ v, v ∈ key <$> l ↔ 0 < v <= N.of_nat n) →
  key <$> sort_by_key key l = N.of_nat <$> seq 1 n.
Proof.
  intros Hn Hv. apply (StronglySorted_unique N.le).
  - apply sort_by_key_sorted.
  - clear. generalize 1%nat. induction n as [|n IH]; intros i; [constructor|]. cbn [seq fmap list_fmap].
    constructor; [apply IH|]. apply Forall_forall. intros x (j & -> & Hj%list_elem_of_In%in_seq)%list_elem_of_fmap. lia.
  - rewrite sort_by_key_perm. apply NoDup_Permutation; [done| |].
    + apply NoDup_fmap_2; [apply _|]. apply NoDup_ListNoDup, seq_NoDup.
    + intros v. rewrite Hv, list_elem_of_fmap. split.
      * intros Hb. exists (N.to_nat v). split; [lia|]. apply list_elem_of_In, in_seq. lia.
      * intros (j & -> & Hj%list_elem_of_In%in_seq). lia.
Qed.
End sorting.

(** ** History *)

Section history.
Context `{Redb, BackupJson}.

(** No other key of the table begins with [key:]. *)
Definition prefix_free (d : table str bytes) (k : str) : Prop :=
  ∀ s l, t_get d s = Some l → starts_with s (k ++ [colon]) = true → ∃ v, s = backup_key k v.

Lemma starts_with_app' (a b : str) : starts_with (b ++ a) b = true.
Proof. induction b as [|x b IH]; [by destruct a|]. cbn. by rewrite bool_decide_eq_true_2, IH. Qed.

Lemma history_rows_elem d k s l : (s, l) ∈ history_rows d k ↔ t_get d s = Some l ∧ starts_with s (k ++ [colon]) = true.
Proof. unfold history_rows. rewrite list_elem_of_filter, t_get_iter. cbn. tauto. Qed.

Lemma history_rows_nodup d k : NoDup (history_rows d k).*1.
Proof.
  unfold history_rows. assert (Hs : StronglySorted pair_lt (filter (λ p, starts_with p.1 (k ++ [colon]) = true) (t_iter d)))
    by (apply sorted_filter; auto with clove).
  induction Hs as [|p l Hs IH Hf]; [constructor|]. cbn [fmap list_fmap]. constructor; [|done].
  intros (q & E & Hq)%list_elem_of_fmap. rewrite Forall_forall in Hf. apply Hf in Hq.
  unfold pair_lt in Hq. rewrite <-E in Hq. by apply key_lt_irrefl in Hq.
Qed.

Lemma backup_key_starts k v : starts_with (backup_key k v) (k ++ [colon]) = true.
Proof. unfold backup_key. change (colon :: dec v) with ([colon] ++ dec v). rewrite app_assoc. apply starts_with_app'. Qed.

(** The rows read one by one, when all can be read. *)
Lemma readable_all t l rs : Forall2 (λ p r, decode_record t p.1 p.2 = Ok r) l rs →
  unreadable t l = [] ∧ readable t l = rs.
Proof. induction 1 as [|p r l rs Hp _ [IH1 IH2]]; [done|].
  unfold unreadable, readable in *. cbn [omap list_omap]. rewrite Hp. split; [done|]. by f_equal.
Qed.

Lemma history_versions b t d k : bak_ok b → b !! t = Some (BData d) → prefix_free d k →
  ∃ rs, Forall2 (λ p r, decode_record t p.1 p.2 = Ok r ∧ p.1 = backup_key k (r_version r))
    (history_rows d k) rs.
Proof.
  intros Hb Ed Hp.
  assert (Hall : Forall (λ p, ∃ r, decode_record t p.1 p.2 = Ok r ∧ p.1 = backup_key k (r_version r)) (history_rows d k)).
  { apply Forall_forall. intros [s l] [Hg Hs]%history_rows_elem. destruct (Hp s l Hg Hs) as (v & ->).
    pose proof (bo_rows b Hb t d k v l Ed Hg) as Hv.
    destruct (bo_versions b Hb t k) as (_ & d' & Ed' & Hh); [lia|]. rewrite Ed in Ed'. injection Ed' as <-.
    destruct (Hh v Hv) as (l' & r & El & Er & Ev & _). rewrite Hg in El. injection El as <-.
    exists r. cbn. by rewrite Ev. }
  revert Hall. generalize (history_rows d k). induction 1 as [|p l (r & Hr) _ (rs & IH)]; [by exists []|].
  exists (r :: rs). by constructor.
Qed.
End history.

(** C18: the history of a backup file is append-only.  From any file whose history is
    sound, the empty one included, every sequence of initialisations, records of writes,
    deletes and restores, bulk sets and bulk restores, whatever the system answers,
    leaves it sound: versions run from one without gaps and each row decodes to a record
    that names its table, key and version.  Versions only grow, and a version once written
    reads the same for good. *)
Theorem backup_append_only `{Redb, Allocator, BackupJsonOk} {SBulk : Serde BulkRecord} m m' :
  bak_ok (b_file m) → rtc bstep m m' →
  bak_ok (b_file m') ∧
  ∀ t k, current_of (b_file m) t k <= current_of (b_file m') t k ∧
    ∀ v, 0 < v <= current_of (b_file m) t k →
      read_record (b_file m') t t k v = read_record (b_file m) t t k v.
Proof. intros Hm Hs. exact (bsteps_keep m m' Hs Hm). Qed.

(** Recording a write is all or nothing and never collides.  On an error the file is as
    it was, and the error is not a version collision.  On success the key has one more
    version, which reads back as the record with exactly the bytes given. *)
Lemma record_set_result `{Redb, Allocator, BackupJsonOk} {SBulk : Serde BulkRecord} m commit now t k data :
  bak_ok (b_file m) →
  match record_set m commit now t t k data with
  | (m', Err e) => m' = m ∧ ((∀ x, e ≠ collision x) ∨ commit = Err e)
  | (m', Ok ()) =>
      let n := current_of (b_file m) t k + 1 in
      n < U64 ∧ current_version m' t k = Ok n ∧ view_by_version m' t k n = Ok (Some data) ∧
      read_record (b_file m') t t k n = Ok (Some (with_version n (new_record now Set_ t k (Some data) None None)))
  end.
Proof.
  intros Hm. unfold record_set, write.
  destruct (bak_write_cases m commit (write_body now t k (new_record now Set_ t k (Some data) None None)))
    as [([] & b' & -> & E & Ho & _)|(e & Hw & He)].
  - apply write_body_wrote in E as W; [|done..]. pose proof (w_room _ _ _ _ _ W) as Hr.
    pose proof (w_record _ _ _ _ _ W) as Hrec. split_and!; [done| | |done].
    + unfold current_version, bak_db, set_file. cbn [b_open b_file]. rewrite Ho. cbn [rbind].
      pose proof (w_current _ _ _ _ _ W t k) as Hc. rewrite decide_True in Hc by done.
      unfold current_of in Hc at 1. unfold read_versions.
      destruct (b' !! version_table_name t) as [[|vs]|]; [lia| |lia]. cbn [rbind]. by rewrite Hc.
    + unfold view_by_version, bak_db, set_file. cbn [b_open b_file]. rewrite Ho. cbn [rbind]. by rewrite Hrec.
  - rewrite Hw. split; [done|]. destruct He as [Hc|[He|He]]; [| |by right].
    + left. intros x ->. unfold bak_write, bak_db in Hw. rewrite Hc in Hw. cbn [rbind] in Hw. done.
    + left. intros x ->. by apply (write_no_collision now t k _ (b_file m) x) in He.
Qed.

(** The history of a key is its versions in order.  When no other key of the table
    begins with the key and a colon, [history] answers the records of versions one to the
    last, each the one that reading its version gives. *)
Lemma history_exact `{Redb, BackupJson} m t d k :
  b_open m = true → bak_ok (b_file m) → b_file m !! t = Some (BData d) → prefix_free d k →
  ∃ rs, history m t k = Ok rs ∧
    (r_version <$> rs) = (N.of_nat <$> seq 1 (N.to_nat (current_of (b_file m) t k))) ∧
    ∀ r, r ∈ rs → read_record (b_file m) t t k (r_version r) = Ok (Some r).
Proof.
  intros Ho Hb Ed Hp. destruct (history_versions _ t d k Hb Ed Hp) as (rs & Hrs).
  destruct (readable_all t (history_rows d k) rs) as [Hu Hr].
  { eapply Forall2_impl; [exact Hrs|]. tauto. }
  exists (sort_by_key r_version rs). split.
  - unfold history, bak_db. rewrite Ho. cbn [rbind]. unfold read_data. rewrite Ed. cbn [rbind].
    by rewrite Hu, Hr.
  - assert (Hkeys : (history_rows d k).*1 = backup_key k <$> (r_version <$> rs)).
    { clear -Hrs. induction Hrs as [|p r l rs [_ E] _ IH]; [done|]. cbn [fmap list_fmap] in *. by rewrite E, IH. }
    split.
    + apply sort_by_key_seq.
      * eapply NoDup_fmap_1. rewrite <-Hkeys. apply history_rows_nodup.
      * intros v. rewrite N2Nat.id. split.
        -- intros Hv. assert (Hin : backup_key k v ∈ (history_rows d k).*1)
             by (rewrite Hkeys; by apply list_elem_of_fmap_2).
           apply list_elem_of_fmap in Hin as ([s l] & Es & [Hg _]%history_rows_elem). cbn in Es. subst s.
           by apply (bo_rows _ Hb t d k v l).
        -- intros Hv. destruct (bo_versions _ Hb t k) as (_ & d' & Ed' & Hh); [lia|].
           rewrite Ed in Ed'. injection Ed' as <-. destruct (Hh v Hv) as (l & r & El & _).
           assert (Hin : backup_key k v ∈ (history_rows d k).*1).
           { apply list_elem_of_fmap. exists (backup_key k v, l). split; [done|].
             apply history_rows_elem. split; [done|apply backup_key_starts]. }
           rewrite Hkeys in Hin. apply list_elem_of_fmap in Hin as (v' & Ev & Hv').
           by apply backup_key_inj in Ev as [_ ->].
    + intros r Hin. rewrite sort_by_key_perm in Hin. apply list_elem_of_lookup in Hin as (i & Hi).
      destruct (Forall2_lookup_r _ _ _ _ _ Hrs Hi) as ([s l] & Hs & Hd & Es). cbn in Es, Hd. subst s.
      apply list_elem_of_lookup_2, history_rows_elem in Hs as [Hg _].
      unfold read_record, read_data. rewrite Ed. cbn [rbind]. by rewrite Hg, Hd.
Qed.

(** ** A concrete file *)

#[global] Instance BulkEntry_eq_dec : EqDecision BulkEntry.
Proof. solve_decision. Defined.
#[global] Instance BulkEntry_countable : Countable BulkEntry.
Proof.
  refine (inj_countable' (λ e, (be_key e, be_version e)) (λ p, Build_BulkEntry p.1 p.2) _). by intros [].
Defined.
#[global] Instance BulkRecord_eq_dec : EqDecision BulkRecord.
Proof. solve_decision. Defined.
#[global] Instance BulkRecord_countable : Countable BulkRecord.
Proof.
  refine (inj_countable' (λ e, (bu_id e, bu_timestamp e, bu_date e, bu_table e, bu_entries e))
    (λ '(a, b, c, d, e), Build_BulkRecord a b c d e) _). by intros [].
Defined.

Module BackupDemo.
#[local] Existing Instance generous.
#[local] Existing Instance BitJson.json.
#[local] Existing Instance BitJson.json_ok.
#[local] Instance bulk_serde : Serde BulkRecord := countable_serde.

Definition clock (n : Z) : Now := {| now_millis := n; now_text := lit "day" |}.
Definition m0 : BackupManager := {| b_file := ∅; b_open := true; b_path := lit "db.bak" |}.
Definition m1 : BackupManager := (record_set m0 (Ok ()) (clock 1) (lit "t") (lit "t") (lit "a") (lit "one")).1.
Definition m2 : BackupManager := (record_set m1 (Ok ()) (clock 2) (lit "t") (lit "t") (lit "a") (lit "two")).1.
(** A second key, which extends the first with a colon. *)
Definition m3 : BackupManager := (record_set m2 (Ok ()) (clock 3) (lit "t") (lit "t") (lit "a:b") (lit "other")).1.
Definition m4 : BackupManager := (record_set m3 (Ok ()) (clock 4) (lit "t") (lit "t") (lit "a:b") (lit "other2")).1.
Definition m5 : BackupManager := (record_set m4 (Ok ()) (clock 5) (lit "t") (lit "t") (lit "a:b") (lit "other3")).1.

Lemma m0_ok : bak_ok (b_file m0).
Proof. apply bak_ok_empty. Qed.

Lemma m0_m2 : rtc bstep m0 m2.
Proof. eapply rtc_l; [apply bs_set|]. eapply rtc_l; [apply bs_set|]. apply rtc_refl. Qed.

Lemma backup_append_only_witness :
  bak_ok (b_file m2) ∧ current_of (b_file m0) (lit "t") (lit "a") <= current_of (b_file m2) (lit "t") (lit "a").
Proof.
  destruct (backup_append_only m0 m2 m0_ok m0_m2) as [O K]. split; [exact O|].
  exact (proj1 (K (lit "t") (lit "a"))).
Defined.

Lemma record_set_result_example :
  view_by_version m1 (lit "t") (lit "a") 1 = Ok (Some (lit "one")) ∧
  current_version m1 (lit "t") (lit "a") = Ok 1.
Proof.
  pose proof (record_set_result m0 (Ok ()) (clock 1) (lit "t") (lit "a") (lit "one") m0_ok) as Hr.
  assert (E : record_set m0 (Ok ()) (clock 1) (lit "t") (lit "t") (lit "a") (lit "one") = (m1, Ok ())).
  { unfold m1. assert (E2 : (record_set m0 (Ok ()) (clock 1) (lit "t") (lit "t") (lit "a") (lit "one")).2 = Ok ())
      by (vm_compute; reflexivity).
    destruct (record_set _ _ _ _ _ _ _) as [x y]. cbn [snd] in E2. by rewrite E2. }
  rewrite E in Hr. destruct Hr as (_ & Hc & Hv & _). split; [exact Hv|exact Hc].
Defined.

Definition d2 : table str bytes := data_of (b_file m2) (lit "t").

Lemma d2_free : prefix_free d2 (lit "a").
Proof.
  intros s l Hg _. apply t_get_iter in Hg.
  assert (Hk : (t_iter d2).*1 = [backup_key (lit "a") 1; backup_key (lit "a") 2]) by (vm_compute; reflexivity).
  assert (Hs : s ∈ (t_iter d2).*1) by (apply list_elem_of_fmap; by exists (s, l)).
  rewrite Hk in Hs. apply elem_of_cons in Hs as [->|Hs]; [by exists 1|].
  apply list_elem_of_singleton in Hs as ->. by exists 2.
Qed.

Lemma history_exact_example :
  ∃ rs, history m2 (lit "t") (lit "a") = Ok rs ∧ r_version <$> rs = [1; 2].
Proof.
  destruct (history_exact m2 (lit "t") d2 (lit "a")) as (rs & E & Ev & _).
  - reflexivity.
  - exact (proj1 (bsteps_keep m0 m2 m0_m2 m0_ok)).
  - vm_compute. reflexivity.
  - exact d2_free.
  - exists rs. split; [exact E|]. rewrite Ev. vm_compute. reflexivity.
Defined.

(** The condition of [history_exact] is needed: with a key [a:b] in the table, the
    history of [a] holds the records of [a:b] too, and a view of [a] at a time after
    them answers the value of [a:b], while the last version of [a] is another. *)
Lemma history_mixes_keys :
  (rmap (fmap r_key) (history m5 (lit "t") (lit "a"))
     = Ok [lit "a"; lit "a:b"; lit "a"; lit "a:b"; lit "a:b"]) ∧
  view_at m5 (lit "t") (lit "a") 9 = Ok (Some (lit "other3")) ∧
  current_version m5 (lit "t") (lit "a") = Ok 2 ∧
  view_by_version m5 (lit "t") (lit "a") 2 = Ok (Some (lit "two")).
Proof. vm_compute. split_and!; reflexivity. Qed.
End BackupDemo.
