(* ===== verification/B64.v ===== *)
(** * URL-safe base64 ([field_crypto/b64.rs])

    Three bytes make four characters of six bits each.  [encode] and [decode] are
    inverse to each other in both directions: every byte string has one spelling. *)
From S2P Require Import Prelude.
Local Open Scope N_scope.

Definition ALPHABET : bytes := lit "ABCDEFGHIJKLMNOPQRSTUVWXYZabcdefghijklmnopqrstuvwxyz0123456789-_".

(** [ALPHABET[i]], for an index below 64. *)
Definition letter (i : N) : byte := nth (N.to_nat i) ALPHABET Byte.x00.

(** [bytes.chunks(n)]. *)
Fixpoint chunks {A} (fuel n : nat) (l : list A) : list (list A) :=
  match fuel, l with
  | S fuel', _ :: _ => take n l :: chunks fuel' n (drop n l)
  | _, _ => []
  end.

Definition encode_chunk (chunk : bytes) : bytes :=
  let b i := match chunk !! i with Some x => byte_to_N x | None => 0 end in
  let n := N.lor (N.lor (N.shiftl (b 0%nat) 16) (N.shiftl (b 1%nat) 8)) (b 2%nat) in
  [letter (N.land (N.shiftr n 18) 63); letter (N.land (N.shiftr n 12) 63)]
  ++ (if (1 <? length chunk)%nat then [letter (N.land (N.shiftr n 6) 63)] else [])
  ++ (if (2 <? length chunk)%nat then [letter (N.land n 63)] else []).

Definition encode (l : bytes) : bytes := concat (encode_chunk <$> chunks (length l) 3 l).

(** [table]: the index of each letter, 255 for any other byte. *)
Definition table (c : byte) : N :=
  fold_left (λ t p, if decide (p.2 = c) then p.1 else t)
    (imap (λ i c, (N.of_nat i, c)) ALPHABET) 255.

Fixpoint gather (i : nat) (chunk : bytes) (n : N) : option N :=
  match chunk with
  | [] => Some n
  | c :: chunk' =>
      let v := table c in
      if v =? 255 then None
      else gather (S i) chunk' (N.lor n (N.shiftl v (18 - 6 * N.of_nat i)))
  end.

Definition decode_chunk (chunk : bytes) : option bytes :=
  match gather 0 chunk 0 with
  | None => None
  | Some n =>
      let produced := (length chunk * 6 / 8)%nat in
      let group := [byte_of_N (N.shiftr n 16); byte_of_N (N.shiftr n 8); byte_of_N n] in
      let total := N.of_nat (length chunk) * 6 in
      let used := N.of_nat produced * 8 in
      if (used <? total)
         && negb (N.land (N.shiftr n (24 - total)) (N.shiftl 1 (total - used) - 1) =? 0)
      then None else Some (take produced group)
  end.

Definition decode (text : bytes) : option bytes :=
  if (length text mod 4 =? 1)%nat then None
  else (@concat byte) <$> mapM decode_chunk (chunks (length text) 4 text).

(** ** Bits as arithmetic *)

Lemma low6 n : N.land n 63 = n mod 64.
Proof. change 63 with (N.ones 6). by rewrite N.land_ones. Qed.

Lemma pack3 a b c : a < 256 → b < 256 → c < 256 →
  N.lor (N.lor (N.shiftl a 16) (N.shiftl b 8)) c = a * 65536 + b * 256 + c.
Proof.
  intros. rewrite !N.shiftl_mul_pow2. rewrite lor_high by (change (2 ^ 16) with 65536; change (2 ^ 8) with 256; lia).
  replace (a * 2 ^ 16 + b * 2 ^ 8) with ((a * 256 + b) * 2 ^ 8) by (change (2 ^ 16) with 65536; change (2 ^ 8) with 256; lia).
  rewrite lor_high by done. change (2 ^ 8) with 256. lia.
Qed.

(** ** Letters *)

Lemma table_letter v : v < 64 → table (letter v) = v.
Proof.
  intros Hv. assert (Hall : forallb (λ i, table (letter (N.of_nat i)) =? N.of_nat i) (seq 0 64) = true) by (vm_compute; reflexivity).
  rewrite forallb_forall in Hall. specialize (Hall (N.to_nat v)). rewrite N2Nat.id in Hall.
  apply N.eqb_eq, Hall, in_seq. lia.
Qed.

Lemma letter_table c : table c ≠ 255 → table c < 64 ∧ letter (table c) = c.
Proof.
  intros Hc. assert (Hall : forallb (λ i, let c := byte_of_N (N.of_nat i) in
    (table c =? 255) || ((table c <? 64) && bool_decide (letter (table c) = c))) (seq 0 256) = true) by (vm_compute; reflexivity).
  rewrite forallb_forall in Hall. pose proof (byte_to_N_bound c).
  assert (Hin : In (N.to_nat (byte_to_N c)) (seq 0 256)) by (apply in_seq; lia).
  apply Hall in Hin. cbv zeta in Hin. rewrite N2Nat.id, byte_of_to_N in Hin.
  apply N.eqb_neq in Hc. rewrite Hc in Hin. cbn [orb] in Hin.
  by rewrite andb_true_iff, N.ltb_lt, bool_decide_eq_true in Hin.
Qed.

(** ** Digits *)

Ltac pow2 := change (2 ^ 18) with 262144 in *; change (2 ^ 16) with 65536 in *; change (2 ^ 12) with 4096 in *;
  change (2 ^ 8) with 256 in *; change (2 ^ 6) with 64 in *.

Lemma digit1 a : N.lor 0 (N.shiftl a 18) = a * 262144.
Proof. by rewrite N.lor_0_l, N.shiftl_mul_pow2. Qed.
Lemma digit2 a b : b < 64 → N.lor (a * 262144) (N.shiftl b 12) = a * 262144 + b * 4096.
Proof. intros. rewrite N.shiftl_mul_pow2. apply (lor_high a 18). pow2. lia. Qed.
Lemma digit3 a b d : d < 64 → N.lor (a * 262144 + b * 4096) (N.shiftl d 6) = a * 262144 + b * 4096 + d * 64.
Proof.
  intros. rewrite N.shiftl_mul_pow2. replace (a * 262144 + b * 4096) with ((a * 64 + b) * 2 ^ 12) by (pow2; lia).
  apply (lor_high _ 12). pow2. lia.
Qed.
Lemma digit4 a b d e : e < 64 →
  N.lor (a * 262144 + b * 4096 + d * 64) (N.shiftl e 0) = a * 262144 + b * 4096 + d * 64 + e.
Proof.
  intros. rewrite N.shiftl_0_r. replace (a * 262144 + b * 4096 + d * 64) with ((a * 4096 + b * 64 + d) * 2 ^ 6) by (pow2; lia).
  by apply (lor_high _ 6).
Qed.

(** Decoding the characters of digits. *)
Definition digit_value (vs : list N) : N :=
  match vs with
  | [a] => a * 262144
  | [a; b] => a * 262144 + b * 4096
  | [a; b; d] => a * 262144 + b * 4096 + d * 64
  | [a; b; d; e] => a * 262144 + b * 4096 + d * 64 + e
  | _ => 0
  end.

Lemma gather_letters vs : (length vs <= 4)%nat → Forall (λ v, v < 64) vs →
  gather 0 (letter <$> vs) 0 = Some (digit_value vs).
Proof.
  intros Hl Hv. assert (Hne : ∀ v, v < 64 → (table (letter v) =? 255) = false).
  { intros v Hlt. rewrite table_letter by done. apply N.eqb_neq. lia. }
  destruct vs as [|a [|b [|d [|e [|? ?]]]]]; simpl in Hl; try lia; [done|..];
    repeat (apply Forall_cons in Hv as [? Hv]); cbn [fmap list_fmap gather];
    rewrite !Hne by done; rewrite !table_letter by done; f_equal; cbn [digit_value];
    change (18 - 6 * N.of_nat 0) with 18; change (18 - 6 * N.of_nat 1) with 12;
    change (18 - 6 * N.of_nat 2) with 6; change (18 - 6 * N.of_nat 3) with 0;
    rewrite ?digit1, ?digit2, ?digit3, ?digit4 by done; done.
Qed.

(** A chunk that gathers is made of letters. *)
Lemma gather_inv chunk : ∀ i n r, gather i chunk n = Some r →
  ∃ vs, chunk = letter <$> vs ∧ length vs = length chunk ∧ Forall (λ v, v < 64) vs.
Proof.
  induction chunk as [|c chunk IH]; intros i n r E; simpl in E; [by exists []|].
  destruct (N.eqb_spec (table c) 255); [done|]. apply IH in E as (vs & -> & Hl & Hv).
  destruct (letter_table c) as [Hb Hc]; [done|]. exists (table c :: vs). simpl. rewrite Hc, Hl.
  split_and!; [done..|by constructor].
Qed.

(** ** One chunk *)

#[local] Ltac Zify.zify_post_hook ::= Z.to_euclidean_division_equations.

Lemma byte_of_mod m x : m mod 256 = byte_to_N x → byte_of_N m = x.
Proof. intros E. rewrite <-(byte_of_to_N x), <-E. unfold byte_of_N. by rewrite N.Div0.mod_mod. Qed.

Definition sextets (n : N) : list N := [n / 262144 mod 64; n / 4096 mod 64; n / 64 mod 64; n mod 64].

Lemma encode_chunk_spec chunk : (1 <= length chunk <= 3)%nat →
  ∃ x y z, encode_chunk chunk = letter <$> take (S (length chunk)) (sextets (x * 65536 + y * 256 + z)) ∧
    x < 256 ∧ y < 256 ∧ z < 256 ∧
    match chunk with
    | [a] => x = byte_to_N a ∧ y = 0 ∧ z = 0
    | [a; b] => x = byte_to_N a ∧ y = byte_to_N b ∧ z = 0
    | [a; b; d] => x = byte_to_N a ∧ y = byte_to_N b ∧ z = byte_to_N d
    | _ => False
    end.
Proof.
  intros Hl. unfold encode_chunk.
  destruct chunk as [|a [|b [|d [|? ?]]]]; simpl in Hl; try lia; cbn [lookup list_lookup];
    [exists (byte_to_N a), 0, 0|exists (byte_to_N a), (byte_to_N b), 0|exists (byte_to_N a), (byte_to_N b), (byte_to_N d)];
    pose proof (byte_to_N_bound a); try pose proof (byte_to_N_bound b); try pose proof (byte_to_N_bound d);
    (split; [|split_and!; done]); rewrite pack3 by done; rewrite !low6, !N.shiftr_div_pow2; pow2; reflexivity.
Qed.

(** Four digits, three or two: what comes out, and the spare bits. *)
Lemma decode_chunk_spec vs : (2 <= length vs <= 4)%nat → Forall (λ v, v < 64) vs →
  let n := digit_value vs in
  decode_chunk (letter <$> vs) =
    if (n mod 2 ^ (24 - 8 * N.of_nat (pred (length vs))) =? 0)
    then Some (take (pred (length vs)) [byte_of_N (n / 65536); byte_of_N (n / 256); byte_of_N n]) else None.
Proof.
  intros Hl Hv n. unfold decode_chunk. rewrite gather_letters by (done || lia). fold n. rewrite length_fmap.
  rewrite !N.shiftr_div_pow2. pow2.
  destruct vs as [|a [|b [|d [|e [|? ?]]]]]; simpl in Hl; try lia;
    repeat (apply Forall_cons in Hv as [? Hv]); cbn [length pred];
    change (2 * 6 / 8)%nat with 1%nat; change (3 * 6 / 8)%nat with 2%nat; change (4 * 6 / 8)%nat with 3%nat.
  - change (N.land _ _) with (N.land (n / 4096) (N.ones 4)). rewrite N.land_ones. cbn [N.ltb N.compare].
    change (2 ^ (24 - 8 * N.of_nat 1)) with 65536. change (2 ^ 4) with 16.
    destruct (N.eqb_spec (n / 4096 mod 16) 0), (N.eqb_spec (n mod 65536) 0); try done; exfalso; unfold n in *; cbn [digit_value] in *; lia.
  - change (N.land _ _) with (N.land (n / 64) (N.ones 2)). rewrite N.land_ones. pow2. change (2 ^ 2) with 4.
    change (2 ^ (24 - 8 * N.of_nat 2)) with 256.
    destruct (N.eqb_spec (n / 64 mod 4) 0), (N.eqb_spec (n mod 256) 0); try done; exfalso; unfold n in *; cbn [digit_value] in *; lia.
  - change (2 ^ (24 - 8 * N.of_nat 3)) with 1. rewrite N.mod_1_r. reflexivity.
Qed.

Lemma digit_value_sextets n : n < 16777216 → digit_value (sextets n) = n.
Proof. intros. unfold sextets, digit_value. lia. Qed.

Lemma sextets_bound n : Forall (λ v, v < 64) (sextets n).
Proof. unfold sextets. repeat constructor; lia. Qed.

Lemma chunk_roundtrip chunk : (1 <= length chunk <= 3)%nat → decode_chunk (encode_chunk chunk) = Some chunk.
Proof.
  intros Hl. destruct (encode_chunk_spec chunk Hl) as (x & y & z & -> & Hx & Hy & Hz & Hc).
  set (n := x * 65536 + y * 256 + z) in *. assert (Hn : n < 16777216) by lia.
  assert (Hv : Forall (λ v, v < 64) (take (S (length chunk)) (sextets n))) by apply Forall_take, sextets_bound.
  rewrite decode_chunk_spec; [|rewrite length_take; simpl; lia|done].
  assert (Hdv : digit_value (take (S (length chunk)) (sextets n)) = n).
  { destruct chunk as [|a [|b [|d [|? ?]]]]; simpl in Hl; try lia; destruct Hc as (-> & -> & ->);
      unfold sextets; cbn [take length digit_value]; lia. }
  rewrite Hdv. rewrite length_take.
  destruct chunk as [|a [|b [|d [|? ?]]]]; simpl in Hl; try lia; destruct Hc as (-> & -> & ->); cbn [length].
  - change (pred (2 `min` length (sextets n))) with 1%nat. change (2 ^ (24 - 8 * N.of_nat 1)) with 65536.
    destruct (N.eqb_spec (n mod 65536) 0); [|lia]. simpl. by rewrite (byte_of_mod _ a) by lia.
  - change (pred (3 `min` length (sextets n))) with 2%nat. change (2 ^ (24 - 8 * N.of_nat 2)) with 256.
    destruct (N.eqb_spec (n mod 256) 0); [|lia]. simpl. by rewrite (byte_of_mod _ a), (byte_of_mod _ b) by lia.
  - change (pred (4 `min` length (sextets n))) with 3%nat. change (2 ^ (24 - 8 * N.of_nat 3)) with 1.
    rewrite N.mod_1_r. simpl. by rewrite (byte_of_mod _ a), (byte_of_mod _ b), (byte_of_mod _ d) by lia.
Qed.

Lemma bytes_join n : n < 16777216 → n / 65536 mod 256 * 65536 + n / 256 mod 256 * 256 + n mod 256 = n.
Proof. intros. lia. Qed.

Lemma sextets_digits a b d e : a < 64 → b < 64 → d < 64 → e < 64 →
  sextets (a * 262144 + b * 4096 + d * 64 + e) = [a; b; d; e].
Proof.
  intros. unfold sextets. f_equal; [lia|]. f_equal; [lia|]. f_equal; [lia|]. f_equal. lia.
Qed.

(** The bytes of a decoded chunk join to its digits again. *)
Lemma decoded_value vs : (2 <= length vs <= 4)%nat → Forall (λ v, v < 64) vs →
  let n := digit_value vs in let k := pred (length vs) in n mod 2 ^ (24 - 8 * N.of_nat k) = 0 →
  ∃ x y z, take k [byte_of_N (n / 65536); byte_of_N (n / 256); byte_of_N n] =
      take k [byte_of_N x; byte_of_N y; byte_of_N z] ∧ x < 256 ∧ y < 256 ∧ z < 256 ∧
    x * 65536 + y * 256 + z = n ∧ match k with 1%nat => y = 0 ∧ z = 0 | 2%nat => z = 0 | _ => True end.
Proof.
  intros Hl Hv n k Hz. assert (Hn : n < 16777216).
  { unfold n. destruct vs as [|a [|b [|d [|e [|? ?]]]]]; simpl in Hl; try lia;
      repeat (apply Forall_cons in Hv as [? Hv]); cbn [digit_value]; lia. }
  exists (n / 65536 mod 256), (n / 256 mod 256), (n mod 256).
  assert (Hb : ∀ m, byte_of_N (m mod 256) = byte_of_N m) by (intros m; unfold byte_of_N; by rewrite N.Div0.mod_mod).
  rewrite !Hb, bytes_join by done. split_and!; try done; try lia.
  destruct vs as [|a [|b [|d [|e [|? ?]]]]]; simpl in Hl; try lia; unfold k in *; cbn [length pred] in *; [| |done].
  - change (2 ^ (24 - 8 * N.of_nat 1)) with 65536 in Hz. clearbody n. lia.
  - change (2 ^ (24 - 8 * N.of_nat 2)) with 256 in Hz. clearbody n. lia.
Qed.

Lemma chunk_canonical chunk out : (2 <= length chunk <= 4)%nat → decode_chunk chunk = Some out →
  encode_chunk out = chunk ∧ length out = pred (length chunk).
Proof.
  intros Hl E. assert (Hg : is_Some (gather 0 chunk 0)) by (unfold decode_chunk in E; by destruct (gather 0 chunk 0)).
  destruct Hg as [r (vs & -> & Hlen & Hv)%gather_inv]. rewrite length_fmap in Hl.
  rewrite decode_chunk_spec in E by done. rewrite length_fmap.
  destruct (N.eqb_spec (digit_value vs mod 2 ^ (24 - 8 * N.of_nat (pred (length vs)))) 0) as [Hz|]; [|done]. injection E as <-.
  destruct (decoded_value vs Hl Hv Hz) as (x & y & z & -> & Hx & Hy & Hz' & Hj & Hk).
  split; [|rewrite length_take; simpl; lia].
  match goal with |- encode_chunk ?o = _ => destruct (encode_chunk_spec o) as (x' & y' & z' & -> & _ & _ & _ & Hc) end;
    [rewrite length_take; simpl; lia|].
  assert (Hs : ∀ m, m < 256 → byte_to_N (byte_of_N m) = m) by (intros; rewrite byte_to_of_N; by apply N.mod_small).
  destruct vs as [|a [|b [|d [|e [|? ?]]]]]; simpl in Hl; try lia; cbn [take length pred digit_value] in *;
    repeat (apply Forall_cons in Hv as [? Hv]); destruct Hc as (-> & -> & ->); rewrite ?Hs by done.
  - destruct Hk as [-> ->]. rewrite Hj. replace (a * 262144 + b * 4096) with (a * 262144 + b * 4096 + 0 * 64 + 0) by lia.
    by rewrite (sextets_digits a b 0 0).
  - subst z. rewrite Hj. replace (a * 262144 + b * 4096 + d * 64) with (a * 262144 + b * 4096 + d * 64 + 0) by lia.
    by rewrite (sextets_digits a b d 0).
  - rewrite Hj. by rewrite sextets_digits.
Qed.

(** ** Whole strings *)

Lemma chunks_app {A} n (l1 l2 : list A) : ∀ f1 f2, length l1 = n → (0 < n)%nat →
  (length l2 <= f2)%nat → (length (l1 ++ l2) <= f1)%nat → chunks f1 n (l1 ++ l2) = l1 :: chunks f2 n l2.
Proof.
  assert (Hfuel : ∀ (l : list A) f f', (length l <= f)%nat → (length l <= f')%nat → (0 < n)%nat → chunks f n l = chunks f' n l).
  { intros l f. revert l. induction f as [|f IH]; intros [|a l] [|f'] H1 H2 H3; simpl in *; try lia; try done.
    f_equal. apply IH; [..|done]; rewrite length_drop; simpl; lia. }
  intros f1 f2 Hl Hn H2 H1. destruct f1 as [|f1]; [rewrite length_app in H1; lia|].
  destruct l1 as [|a l1]; [simpl in Hl; lia|]. cbn [chunks app].
  change (a :: l1 ++ l2) with ((a :: l1) ++ l2). rewrite take_app_length', drop_app_length' by done.
  f_equal. apply Hfuel; [|done|done]. rewrite length_app in H1. simpl in *. lia.
Qed.

Lemma chunks_short {A} n (l : list A) f : l ≠ [] → (length l <= n)%nat → (length l <= f)%nat → chunks f n l = [l].
Proof.
  intros Hl Hn Hf. destruct l as [|a l]; [done|]. destruct f as [|f]; [simpl in Hf; lia|]. cbn [chunks].
  rewrite take_ge, drop_ge by done. by destruct f.
Qed.

(** Splitting at a chunk, for induction on the length. *)
Lemma chunk_ind {A} (n : nat) (P : list A → Prop) : (0 < n)%nat → P [] →
  (∀ l, l ≠ [] → (length l <= n)%nat → P l) →
  (∀ l1 l2, length l1 = n → l2 ≠ [] → P l2 → P (l1 ++ l2)) → ∀ l, P l.
Proof.
  intros Hn P0 P1 P2 l. remember (length l) as k eqn:Ek. revert l Ek.
  induction k as [k IH] using lt_wf_ind. intros l ->. destruct (decide (l = [])) as [->|Hne]; [done|].
  destruct (decide (length l <= n)%nat) as [Hle|Hgt]; [by apply P1|].
  rewrite <-(take_drop n l). apply P2.
  - rewrite length_take. lia.
  - intros E%(f_equal length). rewrite length_drop in E. simpl in E. lia.
  - eapply IH; [|done]. rewrite length_drop. lia.
Qed.

Lemma encode_app l1 l2 : length l1 = 3%nat → encode (l1 ++ l2) = encode_chunk l1 ++ encode l2.
Proof.
  intros Hl. unfold encode. rewrite (chunks_app 3 l1 l2 _ (length l2)) by (done || lia). done.
Qed.

Lemma encode_short l : l ≠ [] → (length l <= 3)%nat → encode l = encode_chunk l.
Proof. intros Hne Hl. unfold encode. rewrite chunks_short by done. cbn [fmap list_fmap concat]. apply app_nil_r. Qed.

Lemma decode_app t1 t2 : length t1 = 4%nat → decode (t1 ++ t2) =
  match decode_chunk t1, decode t2 with Some a, Some b => Some (a ++ b) | _, _ => None end.
Proof.
  intros Hl. unfold decode. rewrite length_app, Hl, (Nat.add_comm 4), <-Nat.Div0.add_mod_idemp_r.
  change (4 mod 4)%nat with 0%nat. rewrite Nat.add_0_r. destruct (length t2 mod 4 =? 1)%nat; [by destruct (decode_chunk t1)|].
  rewrite (chunks_app 4 t1 t2 _ (length t2)) by (rewrite ?length_app; lia). cbn [mapM].
  destruct (decode_chunk t1) as [a|]; [|done]. simpl. by destruct (mapM decode_chunk _).
Qed.

Lemma decode_short t : t ≠ [] → (length t <= 4)%nat → length t ≠ 1%nat → decode t = decode_chunk t.
Proof.
  intros Hne Hl H1. unfold decode.
  assert ((length t mod 4 =? 1)%nat = false) as ->.
  { apply Nat.eqb_neq. destruct t as [|? [|? [|? [|? [|? ?]]]]]; simpl in *; try lia; done. }
  rewrite chunks_short by (done || lia). cbn [mapM]. destruct (decode_chunk t) as [o|]; [|done].
  simpl. by rewrite app_nil_r.
Qed.

Lemma encode_chunk_length chunk : (1 <= length chunk <= 3)%nat → length (encode_chunk chunk) = S (length chunk).
Proof.
  intros Hl. unfold encode_chunk. destruct chunk as [|? [|? [|? [|? ?]]]]; simpl in *; lia.
Qed.

Lemma b64_decode_encode l : decode (encode l) = Some l.
Proof.
  apply (chunk_ind 3 (λ l, decode (encode l) = Some l)); [lia|done|..]; clear l; [intros l Hne Hl|intros l1 l2 Hl Hne IH].
  - assert ((1 <= length l <= 3)%nat) by (destruct l; simpl in *; [done|lia]).
    rewrite encode_short by done. pose proof (encode_chunk_length l ltac:(done)) as He.
    rewrite decode_short; [by apply chunk_roundtrip| |lia|lia]. intros E. by rewrite E in He.
  - rewrite encode_app, decode_app, IH, chunk_roundtrip by (rewrite ?encode_chunk_length; lia). done.
Qed.

Lemma encode_decode t : ∀ l, decode t = Some l → encode l = t.
Proof.
  apply (chunk_ind 4 (λ t, ∀ l, decode t = Some l → encode l = t)); [lia|by intros l [= <-]|..]; clear t;
    [intros t Hne Hl l E|intros t1 t2 Hl Hne IH l E].
  - assert (length t ≠ 1%nat) by (intros E1; unfold decode in E; by rewrite E1 in E).
    assert ((2 <= length t <= 4)%nat) by (destruct t as [|? [|? ?]]; simpl in *; [done|done|lia]).
    rewrite decode_short in E by done. apply chunk_canonical in E as [He Hlen]; [|done].
    rewrite encode_short; [done| |lia]. intros ->. simpl in Hlen. lia.
  - rewrite decode_app in E by done. destruct (decode_chunk t1) as [a|] eqn:Ea; [|done].
    destruct (decode t2) as [b|] eqn:Eb; [|done]. injection E as <-.
    apply chunk_canonical in Ea as [He Hlen]; [|lia]. rewrite encode_app by lia. by rewrite He, IH.
Qed.

(** ** Properties *)

(** C38: every byte string has exactly one spelling: encoding and decoding give the
    string back, and whatever text decodes is the encoding of what it decodes to. *)
Theorem b64_canonical l t : decode (encode l) = Some l ∧ (decode t = Some l ↔ t = encode l).
Proof.
  split; [apply b64_decode_encode|]. split; [|intros ->; apply b64_decode_encode]. intros E. symmetry. by apply encode_decode.
Qed.
