(* ===== verification/Cipher.v ===== *)
(** * Authenticated encryption ([crypto/cipher.rs]) and sealed values
    ([field_crypto/envelope.rs])

    The four ciphers are third-party code: the class [CipherLib] holds their two
    operations and what their documentation says of them, that decryption recomputes
    the tag and so accepts exactly what encryption produces.  The sealed layout, the
    in-place variants and the envelope are the repository's. *)
From S2P Require Import Prelude B64.
Local Open Scope N_scope.

Inductive CryptoError := OpenFailed | Random | InvalidParams (why : str).
Inductive OpenDiagnostic := KeyMissing | MalformedInput | AuthenticationFailed.

(** [std::result::Result<A, E>]. *)
Definition outcome (E A : Type) : Type := (A + E)%type.

Definition TAG_LEN : nat := 16.

Inductive CipherKind := Aes256Gcm | Aes256GcmSiv | ChaCha20Poly1305 | XChaCha20Poly1305.

Definition nonce_len (k : CipherKind) : nat :=
  match k with XChaCha20Poly1305 => 24 | _ => 12 end.
Definition overhead (k : CipherKind) : nat := nonce_len k + TAG_LEN.

(** [AeadInOut] of the four ciphers under a 32-byte key, with nonces of the right length. *)
Class CipherLib := {
  encrypt : CipherKind → bytes → bytes → bytes → bytes → option (bytes * bytes);  (* kind, key, nonce, aad, plaintext *)
  decrypt : CipherKind → bytes → bytes → bytes → bytes → bytes → option bytes;    (* .., ciphertext, tag *)
  encrypt_len : ∀ kind key nonce aad p ct tag, encrypt kind key nonce aad p = Some (ct, tag) →
    length ct = length p ∧ length tag = TAG_LEN;
  decrypt_exact : ∀ kind key nonce aad p ct tag,
    decrypt kind key nonce aad ct tag = Some p ↔ encrypt kind key nonce aad p = Some (ct, tag);
}.

(** A cipher bound to one key. *)
Record Aead := { kind : CipherKind; a_key : bytes }.

Section cipher.
Context `{CipherLib}.

Definition bad_nonce : CryptoError := InvalidParams (lit "nonce length does not match the cipher").
Definition too_long : CryptoError := InvalidParams (lit "input too long").

Definition seal_with (a : Aead) (nonce aad plaintext : bytes) : outcome CryptoError bytes :=
  if negb (length nonce =? nonce_len (kind a))%nat then inr bad_nonce else
  match encrypt (kind a) (a_key a) nonce aad plaintext with
  | None => inr too_long
  | Some (ct, tag) => inl (nonce ++ ct ++ tag)
  end.

(** [seal]: [random] is what the system's random source answered. *)
Definition seal (a : Aead) (random : outcome CryptoError bytes) (aad plaintext : bytes) : outcome CryptoError bytes :=
  match random with
  | inr e => inr e
  | inl nonce => seal_with a nonce aad plaintext
  end.

(** [seal_into_with]: what [out] holds afterwards; [cap] is its length. *)
Definition seal_into_with (a : Aead) (nonce aad plaintext : bytes) (cap : nat) : outcome CryptoError bytes :=
  if negb (length nonce =? nonce_len (kind a))%nat then inr bad_nonce else
  if negb (cap =? length nonce + length plaintext + TAG_LEN)%nat
  then inr (InvalidParams (lit "output buffer has the wrong length")) else
  match encrypt (kind a) (a_key a) nonce aad plaintext with
  | None => inr too_long
  | Some (ct, tag) => inl (nonce ++ ct ++ tag)
  end.

(** [split_at] twice: nonce, ciphertext and tag of a sealed value. *)
Definition split_sealed (n : nat) (sealed : bytes) : bytes * bytes * bytes :=
  let rest := drop n sealed in
  (take n sealed, take (length rest - TAG_LEN) rest, drop (length rest - TAG_LEN) rest).

Definition open_with (a : Aead) (aad sealed : bytes) : outcome OpenDiagnostic bytes :=
  if (length sealed <? nonce_len (kind a) + TAG_LEN)%nat then inr MalformedInput else
  let '(nonce, ct, tag) := split_sealed (nonce_len (kind a)) sealed in
  match decrypt (kind a) (a_key a) nonce aad ct tag with
  | None => inr AuthenticationFailed
  | Some p => inl p
  end.

Definition open (a : Aead) (aad sealed : bytes) : outcome CryptoError bytes :=
  match open_with a aad sealed with inl p => inl p | inr _ => inr OpenFailed end.

(** [open_in_place]: the range of the plaintext, and the buffer afterwards. *)
Definition open_in_place_with (a : Aead) (aad buf : bytes) : outcome OpenDiagnostic (nat * nat) * bytes :=
  if (length buf <? nonce_len (kind a) + TAG_LEN)%nat then (inr MalformedInput, buf) else
  let '(nonce, ct, tag) := split_sealed (nonce_len (kind a)) buf in
  match decrypt (kind a) (a_key a) nonce aad ct tag with
  | None => (inr AuthenticationFailed, nonce ++ replicate (length ct) Byte.x00 ++ tag)
  | Some p => (inl (nonce_len (kind a), (length buf - TAG_LEN)%nat), nonce ++ p ++ tag)
  end.

Definition open_in_place (a : Aead) (aad buf : bytes) : outcome CryptoError (nat * nat) * bytes :=
  match open_in_place_with a aad buf with
  | (inl r, buf') => (inl r, buf')
  | (inr _, buf') => (inr OpenFailed, buf')
  end.

(** ** Envelopes *)

Definition VERSION : byte := Byte.x01.
Definition HEADER : nat := 5.

Record Place := { table_id : str; field_id : N; row_key : str }.

Definition push_part (part : bytes) : bytes := le_bytes 8 (len part) ++ part.

Definition authenticated_data (place : Place) : bytes :=
  lit "cf" ++ [VERSION] ++ push_part (table_id place) ++ le_bytes 4 (field_id place) ++ push_part (row_key place).

Definition seal_envelope (a : Aead) (random : outcome CryptoError bytes) (place : Place) (plaintext : bytes) :
    outcome CryptoError str :=
  match seal a random (authenticated_data place) plaintext with
  | inr e => inr e
  | inl sealed => inl (B64.encode ([VERSION] ++ le_bytes 4 (field_id place) ++ sealed))
  end.

Definition open_envelope (a : Aead) (place : Place) (envelope : str) : outcome CryptoError bytes :=
  match B64.decode envelope with
  | None => inr OpenFailed
  | Some raw =>
      if (length raw <? HEADER)%nat || negb (bool_decide (head raw = Some VERSION)) then inr OpenFailed else
      if negb (bool_decide (take 4 (drop 1 raw) = le_bytes 4 (field_id place))) then inr OpenFailed else
      open a (authenticated_data place) (drop HEADER raw)
  end.

(** ** Layout *)

Lemma split_sealed_app nonce ct tag : length tag = TAG_LEN →
  split_sealed (length nonce) (nonce ++ ct ++ tag) = (nonce, ct, tag).
Proof.
  intros Ht. unfold split_sealed. rewrite take_app_length, drop_app_length, length_app.
  replace (length ct + length tag - TAG_LEN)%nat with (length ct) by lia. by rewrite take_app_length, drop_app_length.
Qed.

Lemma split_sealed_inv n sealed nonce ct tag : (n + TAG_LEN <= length sealed)%nat →
  split_sealed n sealed = (nonce, ct, tag) →
  sealed = nonce ++ ct ++ tag ∧ length nonce = n ∧ length tag = TAG_LEN ∧ length ct = (length sealed - n - TAG_LEN)%nat.
Proof.
  unfold split_sealed. intros Hl [= <- <- <-]. rewrite !take_drop. split_and!; [done|..];
    rewrite ?length_take, ?length_drop, ?length_take, ?length_drop; lia.
Qed.

(** Opening succeeds exactly on what sealing with the nonce inside it gives. *)
Lemma open_exact a aad sealed p : open a aad sealed = inl p ↔
  ∃ nonce, length nonce = nonce_len (kind a) ∧ seal_with a nonce aad p = inl sealed.
Proof.
  unfold open, open_with, seal_with. split.
  - intros E. destruct (Nat.ltb_spec (length sealed) (nonce_len (kind a) + TAG_LEN)) as [|Hl]; [done|].
    destruct (split_sealed _ sealed) as [[nonce ct] tag] eqn:Es.
    apply split_sealed_inv in Es as (-> & Hn & Ht & _); [|done]. destruct (decrypt _ _ _ _ _ _) as [q|] eqn:Ed; [|done].
    injection E as ->. apply decrypt_exact in Ed. exists nonce. split; [done|]. by rewrite Hn, Nat.eqb_refl, Ed.
  - intros (nonce & Hn & E). rewrite Hn, Nat.eqb_refl in E. simpl in E.
    destruct (encrypt _ _ _ _ _) as [[ct tag]|] eqn:Ee; [|done]. injection E as <-.
    destruct (encrypt_len _ _ _ _ _ _ _ Ee) as [Hc Ht]. rewrite !length_app.
    destruct (Nat.ltb_spec (length nonce + (length ct + length tag)) (nonce_len (kind a) + TAG_LEN)); [lia|].
    rewrite <-Hn, split_sealed_app by done. apply decrypt_exact in Ee. by rewrite Ee.
Qed.

Lemma open_error a aad sealed : (∃ p, open a aad sealed = inl p) ∨ open a aad sealed = inr OpenFailed.
Proof. unfold open. destruct (open_with a aad sealed); eauto. Qed.

Lemma envelope_exact a place text p : open_envelope a place text = inl p ↔
  ∃ nonce, length nonce = nonce_len (kind a) ∧ seal_envelope a (inl nonce) place p = inl text.
Proof.
  unfold open_envelope, seal_envelope, seal. split.
  - intros E. destruct (B64.decode text) as [raw|] eqn:Ed; [|done]. apply B64.encode_decode in Ed as <-.
    destruct (_ || _) eqn:Eh; [done|]. apply orb_false_iff in Eh as [Hl Hv].
    apply Nat.ltb_ge in Hl. apply negb_false_iff, bool_decide_eq_true in Hv.
    case_bool_decide as Hf; [|done]. simpl in E. apply open_exact in E as (nonce & Hn & Es).
    exists nonce. split; [done|]. rewrite Es. f_equal. f_equal. rewrite <-Hf.
    destruct raw as [|b raw]; [done|]. injection Hv as ->. simpl. by rewrite take_drop.
  - intros (nonce & Hn & E). destruct (seal_with a nonce (authenticated_data place) p) as [sealed|] eqn:Es; [|done].
    assert (text = B64.encode ([VERSION] ++ le_bytes 4 (field_id place) ++ sealed)) as -> by congruence.
    clear E. rewrite B64.b64_decode_encode.
    assert (length (le_bytes 4 (field_id place)) = 4%nat) as H4 by apply le_bytes_length.
    set (w := le_bytes 4 (field_id place)) in *.
    destruct (Nat.ltb_spec (length ([VERSION] ++ w ++ sealed)) HEADER) as [Hs|_].
    { rewrite !length_app, H4 in Hs. unfold HEADER in Hs. simpl in Hs. lia. }
    assert (take 4 (drop 1 ([VERSION] ++ w ++ sealed)) = w) as -> by (by apply take_app_length').
    assert (drop HEADER ([VERSION] ++ w ++ sealed) = sealed) as -> by (by apply (drop_app_length' w sealed 4)).
    rewrite !bool_decide_true by done. cbn [orb negb].
    apply open_exact. eauto.
Qed.

(** ** Places *)

(** A [u32] and two lengths that fit [usize]. *)
Definition place_ok (p : Place) : Prop := field_id p < 2 ^ 32 ∧ len (table_id p) < U64 ∧ len (row_key p) < U64.

Lemma push_part_inj a b x y : len a < U64 → len b < U64 → push_part a ++ x = push_part b ++ y → a = b ∧ x = y.
Proof.
  intros Ha Hb E. unfold push_part in E. rewrite <-!app_assoc in E.
  apply app_inj_1 in E as [El E]; [|by rewrite !le_bytes_length]. rewrite U64_pow in *.
  apply le_bytes_inj in El; [|done..]. apply app_inj_1 in E; [done|]. unfold len in El. lia.
Qed.

Lemma authenticated_data_inj p q : place_ok p → place_ok q → authenticated_data p = authenticated_data q → p = q.
Proof.
  intros (Hf & Ht & Hr) (Hf' & Ht' & Hr') E. unfold authenticated_data in E. apply app_inv_head, app_inv_head in E.
  apply push_part_inj in E as [E1 E]; [|done..]. apply app_inj_1 in E as [E2 E]; [|by rewrite !le_bytes_length].
  apply le_bytes_inj in E2; [|done..]. rewrite <-(app_nil_r (push_part (row_key p))), <-(app_nil_r (push_part (row_key q))) in E.
  apply push_part_inj in E as [E3 _]; [|done..]. destruct p, q; simpl in *; by subst.
Qed.

(** ** In place *)

Lemma open_in_place_spec a aad buf :
  match open_in_place a aad buf with
  | (inl (s, e), buf') => open a aad buf = inl (take (e - s) (drop s buf')) ∧ length buf' = length buf
  | (inr err, buf') => open a aad buf = inr err ∧ length buf' = length buf ∧
      ((overhead (kind a) <= length buf)%nat →
       ∀ i, (nonce_len (kind a) <= i < length buf - TAG_LEN)%nat → buf' !! i = Some Byte.x00)
  end.
Proof.
  unfold open_in_place, open_in_place_with, open, open_with, overhead.
  destruct (Nat.ltb_spec (length buf) (nonce_len (kind a) + TAG_LEN)) as [Hs|Hl].
  { split_and!; [done|done|]. lia. }
  destruct (split_sealed _ buf) as [[nonce ct] tag] eqn:Es. apply split_sealed_inv in Es as (-> & Hn & Ht & Hc); [|done].
  rewrite !length_app in *. destruct (decrypt _ _ _ _ _ _) as [p|] eqn:Ed.
  - apply decrypt_exact, encrypt_len in Ed as [Hp _]. rewrite !length_app. split; [|lia].
    f_equal. rewrite <-Hn, drop_app_length. rewrite take_app_length' by lia. done.
  - rewrite !length_app, length_replicate. split_and!; [done|done|]. intros _ i Hi.
    rewrite lookup_app_r by lia. rewrite lookup_app_l by (rewrite length_replicate; lia).
    apply lookup_replicate. split; [done|lia].
Qed.
End cipher.

(** ** Properties *)

(** A sealed value opens exactly when it is the envelope that sealing the same
    plaintext for the same place gives with the nonce inside it; any other text, for any
    other reason, is the one error [OpenFailed]. *)
Lemma envelope_opens_exactly `{CipherLib} a place text :
  (∀ p, open_envelope a place text = inl p ↔
    ∃ nonce, length nonce = nonce_len (kind a) ∧ seal_envelope a (inl nonce) place p = inl text) ∧
  ((¬ ∃ p nonce, length nonce = nonce_len (kind a) ∧ seal_envelope a (inl nonce) place p = inl text) →
   open_envelope a place text = inr OpenFailed).
Proof.
  split; [intros p; apply envelope_exact|]. intros Hno.
  destruct (open_envelope a place text) as [p|e] eqn:E.
  - apply envelope_exact in E as (nonce & ? & ?). exfalso. eauto.
  - unfold open_envelope in E. destruct (B64.decode text) as [raw|]; [|congruence].
    destruct (_ || _); [congruence|]. destruct (negb _); [congruence|].
    destruct (open_error a (authenticated_data place) (drop HEADER raw)) as [[p Ep]|Ep]; congruence.
Qed.

(** C36: a value is bound to its place.  A text that opens at two places either has one
    place, or shows the cipher giving the same ciphertext and tag, under one key and
    nonce, for two different authenticated data: moving a value takes a forgery. *)
Theorem envelope_bound_to_place `{CipherLib} a p q text x y : place_ok p → place_ok q →
  open_envelope a p text = inl x → open_envelope a q text = inl y →
  p = q ∨ ∃ nonce ct tag, authenticated_data p ≠ authenticated_data q ∧
    encrypt (kind a) (a_key a) nonce (authenticated_data p) x = Some (ct, tag) ∧
    encrypt (kind a) (a_key a) nonce (authenticated_data q) y = Some (ct, tag).
Proof.
  intros Hp Hq E1 E2. destruct (decide (authenticated_data p = authenticated_data q)) as [Ha|Ha].
  { left. by apply authenticated_data_inj. }
  right. apply envelope_exact in E1 as (n1 & Hn1 & S1), E2 as (n2 & Hn2 & S2). unfold seal_envelope, seal, seal_with in S1, S2.
  rewrite Hn1, Nat.eqb_refl in S1. rewrite Hn2, Nat.eqb_refl in S2. cbn [negb] in S1, S2.
  destruct (encrypt _ _ n1 _ x) as [[c1 t1]|] eqn:Ee1; [|done]. destruct (encrypt _ _ n2 _ y) as [[c2 t2]|] eqn:Ee2; [|done].
  assert (S3 : Some ([VERSION] ++ le_bytes 4 (field_id q) ++ n2 ++ c2 ++ t2) =
               Some ([VERSION] ++ le_bytes 4 (field_id p) ++ n1 ++ c1 ++ t1)).
  { rewrite <-!B64.b64_decode_encode. congruence. }
  apply (inj Some), (app_inv_head [VERSION]) in S3. clear S1 S2. rename S3 into S2.
  destruct (encrypt_len _ _ _ _ _ _ _ Ee1) as [_ Ht1], (encrypt_len _ _ _ _ _ _ _ Ee2) as [_ Ht2].
  apply app_inj_1 in S2 as [_ S2]; [|by rewrite !le_bytes_length]. apply app_inj_1 in S2 as [<- S2]; [|congruence].
  apply app_inj_2 in S2 as [<- <-]; [|congruence]. exists n2, c2, t2. done.
Qed.

(** Opening in place answers as opening does, with the plaintext at the range it
    returns, and a refused buffer has its ciphertext wiped. *)
Lemma open_in_place_agrees `{CipherLib} a aad buf :
  match open_in_place a aad buf with
  | (inl (s, e), buf') => open a aad buf = inl (take (e - s) (drop s buf')) ∧ length buf' = length buf
  | (inr err, buf') => open a aad buf = inr err ∧ length buf' = length buf ∧
      ((overhead (kind a) <= length buf)%nat →
       ∀ i, (nonce_len (kind a) <= i < length buf - TAG_LEN)%nat → buf' !! i = Some Byte.x00)
  end.
Proof. apply open_in_place_spec. Qed.

(** ** Witness *)

(** A toy cipher: no key stream, and a tag of the first bytes it covers. *)
Definition toy_tag (nonce aad p : bytes) : bytes := take TAG_LEN (aad ++ p ++ nonce ++ replicate TAG_LEN Byte.x00).
Program Definition toy_cipher : CipherLib := {|
  encrypt _ _ nonce aad p := Some (p, toy_tag nonce aad p);
  decrypt _ _ nonce aad ct tag := if decide (tag = toy_tag nonce aad ct) then Some ct else None;
|}.
Next Obligation.
  simpl. intros kd key nonce aad p ct tag E. injection E as <- <-. split; [done|]. unfold toy_tag. rewrite length_take, !length_app, length_replicate. lia.
Qed.
Next Obligation. simpl. intros kd key nonce aad p ct tag. case_decide; naive_solver. Qed.

(** The toy tag does not cover the row key, so a value can be moved between rows, and the
    forgery shows. *)
Lemma envelope_bound_to_place_witness :
  let a := {| kind := XChaCha20Poly1305; a_key := [] |} in
  let p := {| table_id := lit "t"; field_id := 7; row_key := lit "r" |} in
  let q := {| table_id := lit "t"; field_id := 7; row_key := lit "s" |} in
  ∃ nonce ct tag, encrypt (CipherLib := toy_cipher) (kind a) (a_key a) nonce (authenticated_data p) (lit "x") = Some (ct, tag) ∧
    encrypt (CipherLib := toy_cipher) (kind a) (a_key a) nonce (authenticated_data q) (lit "x") = Some (ct, tag).
Proof.
  intros a p q.
  destruct (envelope_bound_to_place (H := toy_cipher) a p q
    (match seal_envelope (H := toy_cipher) a (inl (replicate 24 Byte.x05)) p (lit "x") with inl t => t | inr _ => [] end)
    (lit "x") (lit "x")) as [E|(n & c & t & _ & E1 & E2)].
  - split; [|split]; vm_compute; reflexivity.
  - split; [|split]; vm_compute; reflexivity.
  - vm_compute. reflexivity.
  - vm_compute. reflexivity.
  - discriminate E.
  - exists n, c, t. split; [exact E1|exact E2].
Defined.
