(* ===== verification/Layout.v ===== *)
(** * Where things are in an encrypted file ([encrypted_store/layout.rs])

    redb's pages and the blocks that hold them: lengths in both directions and the
    offsets of blocks. *)
From S2P Require Import Prelude Cipher.
Local Open Scope N_scope.

Definition PAGE : N := 4096.
Definition FILE_HEADER_LEN : N := 2048.
Definition PIECE_LEN : N := 512.
Definition PIECES_LEN : N := 4 * PIECE_LEN.
Definition DATA_BASE : N := FILE_HEADER_LEN + PIECES_LEN.
Definition LOGICAL_HEADER : N := PAGE.

(** [overhead] is the nonce and tag a cipher adds. *)
Record Geometry := { g_overhead : N }.

Definition geometry_of (k : CipherKind) : Geometry := {| g_overhead := N.of_nat (overhead k) |}.

Definition stride (g : Geometry) : N := PAGE + g_overhead g.

Definition block_offset (g : Geometry) (index : N) : N := DATA_BASE + index * stride g.

Definition logical_len (g : Geometry) (physical : N) : N :=
  if physical <? DATA_BASE then 0
  else LOGICAL_HEADER + (physical - DATA_BASE) / stride g * PAGE.

Definition physical_len (g : Geometry) (logical : N) : option N :=
  if logical =? 0 then Some FILE_HEADER_LEN
  else if (logical <? LOGICAL_HEADER) || negb (logical mod PAGE =? 0) then None
  else Some (DATA_BASE + (logical - LOGICAL_HEADER) / PAGE * stride g).

Lemma stride_pos g : 0 < stride g.
Proof. unfold stride, PAGE. lia. Qed.

(** The lengths redb may ask for, by the number of pages after its header. *)
Lemma physical_len_spec g logical p : physical_len g logical = Some p →
  (logical = 0 ∧ p = FILE_HEADER_LEN) ∨
  ∃ pages, logical = LOGICAL_HEADER + pages * PAGE ∧ p = block_offset g pages.
Proof.
  unfold physical_len, block_offset. destruct (N.eqb_spec logical 0) as [->|H0]; [intros [= <-]; by left|].
  destruct (N.ltb_spec logical LOGICAL_HEADER) as [|Hl]; [done|]. cbn [orb].
  destruct (N.eqb_spec (logical mod PAGE) 0) as [Hm|]; [|done]. cbn [negb]. intros [= <-]. right.
  exists ((logical - LOGICAL_HEADER) / PAGE). split; [|done].
  apply N.Lcm0.mod_divide in Hm. destruct Hm as [q ->]. unfold LOGICAL_HEADER, PAGE in *.
  destruct (decide (q = 0)) as [->|Hq]; [done|]. replace (q * 4096 - 4096) with ((q - 1) * 4096) by lia.
  rewrite N.div_mul by done. lia.
Qed.

Lemma logical_len_pages g pages torn : torn < stride g →
  logical_len g (block_offset g pages + torn) = LOGICAL_HEADER + pages * PAGE.
Proof.
  intros Ht. unfold logical_len, block_offset. destruct (N.ltb_spec (DATA_BASE + pages * stride g + torn) DATA_BASE); [lia|].
  replace (DATA_BASE + pages * stride g + torn - DATA_BASE) with (torn + pages * stride g) by lia.
  pose proof (stride_pos g). rewrite N.div_add by lia. by rewrite N.div_small.
Qed.

(** Lengths round trip and torn writes are ignored.  The physical length of every
    length redb may set maps back to it, also with a partial block after it; the next
    length starts with the next whole block; and every block lies behind the header area,
    before the next block and inside the file that holds it. *)
Lemma geometry_roundtrip g logical p : physical_len g logical = Some p →
  (logical ≠ 0 → ∀ torn, torn < stride g → logical_len g (p + torn) = logical) ∧
  logical_len g p = logical ∧
  (logical ≠ 0 → logical_len g (p + stride g) = logical + PAGE) ∧
  (∀ i, LOGICAL_HEADER + i * PAGE < logical →
     DATA_BASE <= block_offset g i ∧ block_offset g i + stride g = block_offset g (i + 1) ∧ block_offset g (i + 1) <= p).
Proof.
  intros E. destruct (physical_len_spec _ _ _ E) as [[-> ->]|(pages & -> & ->)].
  - split_and!; [done|done|done|]. intros i Hi. lia.
  - pose proof (stride_pos g). split_and!.
    + intros _ torn Ht. by apply logical_len_pages.
    + rewrite <-(N.add_0_r (block_offset g pages)). by apply logical_len_pages.
    + intros _. replace (block_offset g pages + stride g) with (block_offset g (pages + 1) + 0) by (unfold block_offset; lia).
      rewrite logical_len_pages by done. lia.
    + intros i Hi. assert (i < pages) as Hlt by (unfold PAGE in *; lia). unfold block_offset. split_and!; [lia|lia|].
      apply N.add_le_mono_l, N.mul_le_mono_r. lia.
Qed.

Lemma geometry_roundtrip_example :
  physical_len (geometry_of Aes256Gcm) 12288 = Some 12344 ∧ logical_len (geometry_of Aes256Gcm) 12400 = 12288.
Proof.
  assert (E : physical_len (geometry_of Aes256Gcm) 12288 = Some 12344) by (vm_compute; reflexivity).
  split; [exact E|]. destruct (geometry_roundtrip (geometry_of Aes256Gcm) 12288 12344 E) as (Ht & _).
  apply (Ht ltac:(discriminate) 56). vm_compute. reflexivity.
Defined.
