(* ===== verification/Disk.v ===== *)
(** * A file as bytes

    The file below the encrypted layer: a string of bytes that can be read, overwritten,
    extended and cut.  Positions are [u64] values, so they are [N]. *)
From S2P Require Import Prelude.
Local Open Scope N_scope.

(** [n] bytes from position [off]. *)
Definition sl (off n : N) (l : bytes) : bytes := take (N.to_nat n) (drop (N.to_nat off) l).

(** Bytes written at a position; a gap before it reads as zeros. *)
Definition splice (off : N) (d l : bytes) : bytes :=
  take (N.to_nat off) l ++ replicate (N.to_nat off - length l) Byte.x00 ++ d
  ++ drop (N.to_nat off + length d) l.

(** [set_len]: cut, or extend with zeros. *)
Definition resize (n : N) (l : bytes) : bytes :=
  take (N.to_nat n) l ++ replicate (N.to_nat n - length l) Byte.x00.

Lemma splice_lookup off d l i : splice off d l !! i =
  if decide (i < N.to_nat off)%nat
  then (if decide (i < length l)%nat then l !! i else Some Byte.x00)
  else if decide (i < N.to_nat off + length d)%nat then d !! (i - N.to_nat off)%nat else l !! i.
Proof.
  unfold splice. set (o := N.to_nat off). case_decide as H1.
  - case_decide as H2.
    + rewrite lookup_app_l by (rewrite length_take; lia). by rewrite lookup_take_lt by lia.
    + rewrite lookup_app_r by (rewrite length_take; lia).
      rewrite lookup_app_l by (rewrite length_take, length_replicate; lia).
      apply lookup_replicate_2. rewrite length_take. lia.
  - rewrite lookup_app_r by (rewrite length_take; lia).
    rewrite lookup_app_r by (rewrite length_take, length_replicate; lia).
    rewrite length_take, length_replicate.
    replace (i - o `min` length l - (o - length l))%nat with (i - o)%nat by lia.
    case_decide as H2.
    + by rewrite lookup_app_l by lia.
    + rewrite lookup_app_r, lookup_drop by lia. f_equal. lia.
Qed.

Lemma splice_length off d l : length (splice off d l) = Nat.max (length l) (N.to_nat off + length d).
Proof. unfold splice. rewrite !length_app, length_take, length_replicate, length_drop. lia. Qed.

Lemma sl_length off n l : length (sl off n l) = Nat.min (N.to_nat n) (length l - N.to_nat off).
Proof. unfold sl. by rewrite length_take, length_drop. Qed.

Lemma sl_lookup off n l i : sl off n l !! i = if decide (i < N.to_nat n)%nat then l !! (N.to_nat off + i)%nat else None.
Proof.
  unfold sl. case_decide.
  - by rewrite lookup_take_lt, lookup_drop by lia.
  - apply lookup_take_ge. lia.
Qed.

Lemma sl_len off n l : off + n <= len l → len (sl off n l) = n.
Proof. unfold len. rewrite sl_length. lia. Qed.

(** What was written is there. *)
Lemma sl_splice_in off d l o n : off <= o → o + n <= off + len d → sl o n (splice off d l) = sl (o - off) n d.
Proof.
  unfold len. intros H1 H2. apply list_eq. intros i. rewrite !sl_lookup. case_decide; [|done].
  rewrite splice_lookup. rewrite decide_False by lia. rewrite decide_True by lia. f_equal. lia.
Qed.

(** What lies elsewhere stays. *)
Lemma sl_splice_out off d l o n : o + n <= off ∨ off + len d <= o → o + n <= len l →
  sl o n (splice off d l) = sl o n l.
Proof.
  unfold len. intros H1 H2. apply list_eq. intros i. rewrite !sl_lookup. case_decide; [|done].
  rewrite splice_lookup. destruct H1 as [H1|H1].
  - rewrite decide_True by lia. by rewrite decide_True by lia.
  - case_decide; [|by rewrite decide_False by lia]. by rewrite decide_True by lia.
Qed.

Lemma sl_all l : sl 0 (len l) l = l.
Proof. unfold sl, len. rewrite Nat2N.id. by rewrite drop_0, take_ge. Qed.

Lemma resize_length n l : length (resize n l) = N.to_nat n.
Proof. unfold resize. rewrite length_app, length_take, length_replicate. lia. Qed.

Lemma sl_resize n l o k : o + k <= n → o + k <= len l → sl o k (resize n l) = sl o k l.
Proof.
  unfold len. intros H1 H2. apply list_eq. intros i. rewrite !sl_lookup. case_decide; [|done].
  unfold resize. rewrite lookup_app_l by (rewrite length_take; lia). by rewrite lookup_take_lt by lia.
Qed.

(** A slice of a slice. *)
Lemma sl_sl o n o' n' l : o' + n' <= n → sl o' n' (sl o n l) = sl (o + o') n' l.
Proof.
  intros Hb. apply list_eq. intros i. rewrite !sl_lookup. case_decide; [|done].
  rewrite decide_True by lia. f_equal. lia.
Qed.

Lemma sl_app_l o n a b : o + n <= len a → sl o n (a ++ b) = sl o n a.
Proof.
  unfold len. intros Hb. apply list_eq. intros i. rewrite !sl_lookup. case_decide; [|done].
  by rewrite lookup_app_l by lia.
Qed.

Lemma sl_app_r o n a b : len a <= o → sl o n (a ++ b) = sl (o - len a) n b.
Proof.
  unfold len. intros Hb. apply list_eq. intros i. rewrite !sl_lookup. case_decide; [|done].
  rewrite lookup_app_r by lia. f_equal. lia.
Qed.

Lemma sl_split o n k l : k <= n → sl o n l = sl o k l ++ sl (o + k) (n - k) l.
Proof.
  intros Hk. unfold sl. replace (N.to_nat n) with (N.to_nat k + N.to_nat (n - k))%nat by lia.
  rewrite <-take_take_drop, drop_drop. do 3 f_equal; lia.
Qed.
