(* ===== verification/Backend.v ===== *)
(** * The encrypted file layer ([encrypted_store/backend.rs])

    [BlockBackend] gives redb a file of pages; below it every page is a sealed block and
    redb's header page is four sealed pieces.  Pages written are staged in memory and
    sealed at the next sync; staged pages are newer than the file.

    The file, the random source and the device are explicit: [fate i] says whether the
    [i]th call to the file succeeds, and what a failing write leaves in its range; what
    was written or cut since the last sync of the file may be lost in a crash ([unsynced]);
    [random i n] is the [i]th answer of the random source.  A computation keeps its state
    when it fails, as the object does.  Sealing on several threads gives the same blocks
    as sealing in order, up to which nonce goes where, and is modelled in order.  An
    [Arc] has an identity: a staged page carries the stamp of its allocation. *)
From S2P Require Import Prelude Order Redb B64 Cipher Layout Disk.
Import ListRedb.
Local Open Scope N_scope.

Definition REDB_HEADER_LEN : N := 320.
Definition FILL_BATCH : N := 128.
Definition PENDING_CAP_PAGES : nat := 1024.
Definition WRITE_CHUNK : nat := 128.

Inductive IoError :=
| InvalidInput (why : str)
| Tampered (chunk : option N)
| ReadOnly
| UnexpectedEof
| Device.

Definition bad (why : String.string) : IoError := InvalidInput (lit why).
Arguments bad why%_string_scope.

(** redb's 320 header bytes as the layer last saw them. *)
Record Header := { h_bytes : bytes; h_seq : N; h_newest : N }.

Definition zeros (n : N) : bytes := replicate (N.to_nat n) Byte.x00.
Definition header_new : Header := {| h_bytes := zeros REDB_HEADER_LEN; h_seq := 0; h_newest := 0 |}.

(** A staged page: the identity of its allocation, and its bytes. *)
Abbreviation Staged := (N * bytes)%type.

(** A change of the file that the device has taken, and may still hold in its own memory. *)
Inductive DevOp := DevWrite (off : N) (d : bytes) | DevLen (n : N).
Definition dev_apply (f : bytes) (op : DevOp) : bytes :=
  match op with DevWrite off d => splice off d f | DevLen n => resize n f end.

Record Backend := {
  file : bytes;                         (* what a read of the file sees *)
  durable : bytes;                      (* the file as the last sync of it left it *)
  unsynced : list DevOp;                (* the changes since then *)
  calls : nat;                          (* calls made to the file *)
  draws : nat;                          (* answers taken from the random source *)
  allocs : N;                           (* pages allocated *)
  data_len : N;
  header_area : bool;
  header : Header;
  pending : list (N * Staged);
}.

(** How the layer was opened. *)
Record Settings := { aead : Aead; read_only : bool; parallel_seal : bool }.

Definition device (op : DevOp) (s : Backend) : Backend :=
  {| file := dev_apply (file s) op; durable := durable s; unsynced := unsynced s ++ [op]; calls := calls s; draws := draws s;
     allocs := allocs s; data_len := data_len s; header_area := header_area s; header := header s; pending := pending s |}.
Definition flushed (s : Backend) : Backend :=
  {| file := file s; durable := file s; unsynced := []; calls := calls s; draws := draws s;
     allocs := allocs s; data_len := data_len s; header_area := header_area s; header := header s; pending := pending s |}.
Definition set_calls (n : nat) (s : Backend) : Backend :=
  {| file := file s; durable := durable s; unsynced := unsynced s; calls := n; draws := draws s; allocs := allocs s; data_len := data_len s;
     header_area := header_area s; header := header s; pending := pending s |}.
Definition set_draws (n : nat) (s : Backend) : Backend :=
  {| file := file s; durable := durable s; unsynced := unsynced s; calls := calls s; draws := n; allocs := allocs s; data_len := data_len s;
     header_area := header_area s; header := header s; pending := pending s |}.
Definition set_data_len (n : N) (s : Backend) : Backend :=
  {| file := file s; durable := durable s; unsynced := unsynced s; calls := calls s; draws := draws s; allocs := allocs s; data_len := n;
     header_area := header_area s; header := header s; pending := pending s |}.
Definition set_header_area (b : bool) (s : Backend) : Backend :=
  {| file := file s; durable := durable s; unsynced := unsynced s; calls := calls s; draws := draws s; allocs := allocs s; data_len := data_len s;
     header_area := b; header := header s; pending := pending s |}.
Definition set_header (h : Header) (s : Backend) : Backend :=
  {| file := file s; durable := durable s; unsynced := unsynced s; calls := calls s; draws := draws s; allocs := allocs s; data_len := data_len s;
     header_area := header_area s; header := h; pending := pending s |}.
Definition set_pending (n : N) (p : list (N * Staged)) (s : Backend) : Backend :=
  {| file := file s; durable := durable s; unsynced := unsynced s; calls := calls s; draws := draws s; allocs := n; data_len := data_len s;
     header_area := header_area s; header := header s; pending := p |}.

(** ** Computations *)

Definition IO (A : Type) : Type := Backend → Backend * (A + IoError).

#[global] Instance IO_ret : MRet IO := λ A a s, (s, inl a).
#[global] Instance IO_bind : MBind IO := λ A B k m s,
  match m s with (s', inl a) => k a s' | (s', inr e) => (s', inr e) end.

Definition throw {A} (e : IoError) : IO A := λ s, (s, inr e).
Definition asks {A} (f : Backend → A) : IO A := λ s, (s, inl (f s)).
Definition update (f : Backend → Backend) : IO () := λ s, (f s, inl ()).
(** [if let Ok(v) = m]: a failure is an answer. *)
Definition attempt {A} (m : IO A) : IO (option A) := λ s,
  match m s with (s', inl a) => (s', inl (Some a)) | (s', inr _) => (s', inl None) end.

Fixpoint each {A} (l : list A) (body : A → IO ()) : IO () :=
  match l with [] => mret () | a :: l' => body a ;; each l' body end.

(** [for x in l { out.push(body(x)?) }]. *)
Fixpoint collect {A B} (l : list A) (body : A → IO B) : IO (list B) :=
  match l with
  | [] => mret []
  | a :: l' => b ← body a; bs ← collect l' body; mret (b :: bs)
  end.

Section backend.
Context `{CipherLib} (fate : nat → option bytes) (random : nat → nat → outcome CryptoError bytes) (g : Settings).

Definition geo : Geometry := geometry_of (kind (aead g)).
Definition strd : N := stride geo.

(** ** The file below *)

(** The device's answer to the next call. *)
Definition call : IO (option bytes) := λ s, (set_calls (S (calls s)) s, inl (fate (calls s))).

Definition file_len : IO N :=
  a ← call; match a with None => asks (λ s, len (file s)) | Some _ => throw Device end.

(** A failing write leaves some bytes of the same length in its range. *)
Definition torn (d garbage : bytes) : bytes := resize (len d) garbage.

Definition file_write (off : N) (d : bytes) : IO () :=
  a ← call;
  match a with
  | None => update (device (DevWrite off d))
  | Some garbage => update (device (DevWrite off (torn d garbage))) ;; throw Device
  end.

Definition file_read (off n : N) : IO bytes :=
  a ← call;
  match a with
  | Some _ => throw Device
  | None =>
      f ← asks file;
      if off + n <=? len f then mret (sl off n f) else throw UnexpectedEof
  end.

Definition file_set_len (n : N) : IO () :=
  a ← call;
  match a with None => update (device (DevLen n)) | Some _ => throw Device end.

Definition file_sync : IO () :=
  a ← call; match a with None => update flushed | Some _ => throw Device end.

(** [random_bytes] and the nonce of [seal_into]. *)
Definition draw (n : nat) : IO (outcome CryptoError bytes) :=
  λ s, (set_draws (S (draws s)) s, inl (random (draws s) n)).

Definition seal_into (why : String.string) (aad plain : bytes) (cap : N) : IO bytes :=
  r ← draw (nonce_len (kind (aead g)));
  match r with
  | inr _ => throw (bad why)
  | inl nonce =>
      match seal_into_with (aead g) nonce aad plain (N.to_nat cap) with
      | inl sealed => mret sealed
      | inr _ => throw (bad why)
      end
  end.

Arguments seal_into why%_string_scope aad plain cap.

(** ** Header pieces *)

Definition block_aad (index : N) : bytes := Byte.x62 :: le_bytes 8 index.
Definition piece_aad (piece : N) : bytes := [Byte.x68; byte_of_N piece].

Definition piece_offset (copy : N) : N := FILE_HEADER_LEN + copy * PIECE_LEN.

(** [v.resize(n, 0)]. *)
Definition piece_plain (h : Header) (piece plain_len : N) : bytes :=
  resize plain_len
    (if piece =? 0 then le_bytes 8 (h_seq h) ++ sl 0 64 (h_bytes h)
     else if piece =? 1 then sl 64 128 (h_bytes h) else sl 192 128 (h_bytes h)).

Definition write_piece (copy piece : N) (h : Header) : IO () :=
  sealed ← seal_into "sealing a header piece failed" (piece_aad piece)
             (piece_plain h piece (PIECE_LEN - g_overhead geo)) PIECE_LEN;
  file_write (piece_offset copy) sealed.

(** [None]: never written. *)
Definition read_piece (copy piece : N) : IO (option bytes) :=
  raw ← file_read (piece_offset copy) PIECE_LEN;
  if forallb (λ b, bool_decide (b = Byte.x00)) raw then mret None
  else match open_in_place (aead g) (piece_aad piece) raw with
       | (inl (a, b), buf) => mret (Some (sl (N.of_nat a) (N.of_nat (b - a)) buf))
       | (inr _, _) => throw (Tampered None)
       end.

(** The copy of piece 0 with the highest number wins; the first of two equal ones. *)
Definition better (best : option (N * N * bytes)) (copy : N) (p : option (option bytes)) : option (N * N * bytes) :=
  match p with
  | Some (Some p) =>
      let seq := of_le (sl 0 8 p) in
      if match best with None => true | Some (s, _, _) => s <? seq end
      then Some (seq, copy, sl 8 64 p) else best
  | _ => best
  end.

Definition put_header (off : N) (d : bytes) (h : Header) : Header :=
  {| h_bytes := splice off d (h_bytes h); h_seq := h_seq h; h_newest := h_newest h |}.

Definition load_slot (copy piece off : N) : IO () :=
  p ← attempt (read_piece copy piece);
  match p with
  | Some (Some p) => update (λ s, set_header (put_header off (sl 0 128 p) (header s)) s)
  | _ => mret ()
  end.

Definition load_header : IO () :=
  p0 ← attempt (read_piece 0 0);
  p1 ← attempt (read_piece 1 0);
  match better (better None 0 p0) 1 p1 with
  | Some (seq, copy, p) =>
      update (λ s, set_header {| h_bytes := splice 0 p (h_bytes (header s)); h_seq := seq; h_newest := copy |} s)
  | None => mret ()
  end ;;
  load_slot 2 1 64 ;;
  load_slot 3 2 192.

Definition write_header_range (offset : N) (data : bytes) : IO () :=
  let n := N.min (len data) (REDB_HEADER_LEN - offset) in
  if negb (forallb (λ b, bool_decide (b = Byte.x00)) (drop (N.to_nat n) data))
  then throw (bad "write into the unused part of redb's header page") else
  before ← asks (λ s, h_bytes (header s));
  let new := if 0 <? n then splice offset (take (N.to_nat n) data) before else before in
  update (λ s, set_header {| h_bytes := new; h_seq := h_seq (header s); h_newest := h_newest (header s) |} s) ;;
  if read_only g then mret () else
  h ← asks header;
  (if bool_decide (sl 64 128 before = sl 64 128 new) then mret () else write_piece 2 1 h) ;;
  (if bool_decide (sl 192 128 before = sl 192 128 new) then mret () else write_piece 3 2 h) ;;
  if bool_decide (sl 0 64 before = sl 0 64 new) then mret () else
  let h' := {| h_bytes := new; h_seq := h_seq h + 1; h_newest := h_newest h |} in
  update (set_header h') ;;
  let copy := N.lxor (h_newest h) 1 in
  write_piece copy 0 h' ;;
  update (set_header {| h_bytes := new; h_seq := h_seq h + 1; h_newest := copy |}).

Definition refuse_if_read_only : IO () := if read_only g then throw ReadOnly else mret ().

Definition init_pieces : IO () :=
  r ← draw (N.to_nat PIECES_LEN);
  match r with
  | inr _ => throw (bad "no random source")
  | inl noise => file_write FILE_HEADER_LEN noise ;; update (set_header header_new)
  end.

(** ** Blocks *)

(** Page [i] of a buffer of pages. *)
Definition page_of (plain : bytes) (i : N) : bytes := sl (i * PAGE) PAGE plain.
Definition indices (n : N) : list N := N.of_nat <$> seq 0 (N.to_nat n).

Definition seal_block (index : N) (plain : bytes) : IO bytes :=
  seal_into "sealing a block failed" (block_aad index) plain strd.

Definition write_blocks (first : N) (plain : bytes) : IO () :=
  refuse_if_read_only ;;
  sealed ← collect (indices (len plain / PAGE)) (λ i, seal_block (first + i) (page_of plain i));
  file_write (block_offset geo first) (concat sealed).

(** ** Staged pages *)

(** What a drain takes from the staged pages. *)
Definition drain_take : IO (list (N * Staged)) := asks pending.

(** The end of the run that starts the list: consecutive blocks, at most [WRITE_CHUNK]. *)
Fixpoint run_len (room : nat) (last : N) (l : list (N * bytes)) : nat :=
  match room, l with
  | S room', (i, _) :: l' => if i =? last + 1 then S (run_len room' i l') else O
  | _, _ => O
  end.

Fixpoint write_runs (fuel : nat) (l : list (N * bytes)) : IO () :=
  match fuel, l with
  | S fuel', (i, b) :: l' =>
      let n := run_len (WRITE_CHUNK - 1) i l' in
      file_write (block_offset geo i) (concat (b :: (take n l').*2)) ;;
      write_runs fuel' (drop n l')
  | _, _ => mret ()
  end.

Definition drain_write (batch : list (N * Staged)) : IO () :=
  sealed ← collect batch (λ p, b ← seal_block p.1 p.2.2; mret (p.1, b));
  write_runs (length sealed) sealed.

(** A page staged again meanwhile has another stamp and stays. *)
Definition drain_done (batch : list (N * Staged)) : IO () :=
  update (λ s, set_pending (allocs s)
    (fold_left (λ p e, match l_get p e.1 with
                       | Some now => if now.1 =? e.2.1 then l_remove p e.1 else p
                       | None => p end) batch (pending s)) s).

Definition drain : IO () :=
  batch ← drain_take;
  if bool_decide (length batch = 0%nat) then mret () else
  drain_write batch ;; drain_done batch.

(** Each page is a new allocation. *)
Definition stage_one (index : N) (page : bytes) : IO () :=
  update (λ s, set_pending (allocs s + 1) (l_insert (pending s) index (allocs s, page)) s).

Definition stage_pages (first : N) (plain : bytes) : IO () :=
  refuse_if_read_only ;;
  each (indices (len plain / PAGE)) (λ i, stage_one (first + i) (page_of plain i)) ;;
  n ← asks (λ s, length (pending s));
  if (PENDING_CAP_PAGES <=? n)%nat then drain else mret ().

(** ** Growing *)

Definition word (h : bytes) (off : N) : option N := if off + 4 <=? len h then Some (of_le (sl off 4 h)) else None.

Definition region_shape_of (h : bytes) : option (N * N) :=
  page ← word h 12; hp ← word h 16; dp ← word h 20;
  if (page =? PAGE) && (0 <? dp) then Some (hp, dp) else None.

Definition length_makes_layout (pages : N) (shape : option (N * N)) : bool :=
  match shape with
  | Some (header_pages, data_pages) =>
      let rest := pages mod (header_pages + data_pages) in (rest =? 0) || (header_pages <? rest)
  | None => true
  end.

Definition region_shape : IO (option (N * N)) :=
  h ← asks (λ s, h_bytes (header s));
  if forallb (λ b, bool_decide (b = Byte.x00)) h then mret None
  else match region_shape_of h with
       | Some x => mret (Some x)
       | None => throw (bad "the header page of the database file is not in the form this version knows, so the file was not grown")
       end.

(** [while stop < end && !valid(stop) { stop += 1 }]. *)
Fixpoint next_stop (fuel : nat) (shape : option (N * N)) (stop end_ : N) : N :=
  match fuel with
  | O => stop
  | S fuel' =>
      if (stop <? end_) && negb (length_makes_layout stop shape)
      then next_stop fuel' shape (stop + 1) end_ else stop
  end.

(** One turn of the loop per batch; the number of blocks left is enough fuel. *)
Fixpoint fill_loop (fuel : nat) (shape : option (N * N)) (at_ end_ : N) : IO () :=
  match fuel with
  | O => mret ()
  | S fuel' =>
      if at_ <? end_ then
        let stop := next_stop (N.to_nat (end_ - at_)) shape (N.min (at_ + FILL_BATCH) end_) end_ in
        write_blocks at_ (zeros ((stop - at_) * PAGE)) ;;
        fill_loop fuel' shape stop end_
      else mret ()
  end.

Definition fill (first end_ : N) : IO () :=
  shape ← region_shape;
  if bool_decide (shape = None) && (0 <? first)
  then throw (bad "the header page of the database file cannot be read, so the file was not grown")
  else fill_loop (N.to_nat (end_ - first)) shape first end_.

(** ** What redb calls *)

Definition backend_len (s : Backend) : N := if header_area s then LOGICAL_HEADER + data_len s else 0.

(** [with_tuning] on an existing file. *)
Definition open_backend (f : bytes) : Backend * (() + IoError) :=
  let s := {| file := f; durable := f; unsynced := []; calls := 0; draws := 0; allocs := 0; data_len := 0; header_area := false;
              header := header_new; pending := [] |} in
  (physical ← file_len;
   update (λ s, set_data_len (logical_len geo physical - LOGICAL_HEADER)
                  (set_header_area (DATA_BASE <=? physical) s)) ;;
   if DATA_BASE <=? physical then load_header else mret ()) s.

Definition set_len (n : N) : IO () :=
  if read_only g then
    f ← file_len;
    if bool_decide (physical_len geo n = Some f) then mret () else refuse_if_read_only
  else
  match physical_len geo n with
  | None => throw (bad "length is not a whole number of pages")
  | Some physical =>
      drain ;;
      if n =? 0 then
        update (set_data_len 0) ;;
        r ← attempt (file_set_len physical);
        update (set_header_area (DATA_BASE <=? physical)) ;;
        match r with Some _ => mret () | None => throw Device end
      else
      let new_data := n - LOGICAL_HEADER in
      old_data ← asks data_len;
      f ← file_len;
      (if f <? DATA_BASE then
         file_set_len DATA_BASE ;; update (set_header_area true) ;; init_pieces
       else mret ()) ;;
      (if old_data <? new_data then
         fill (old_data / PAGE) (new_data / PAGE) ;;
         f ← file_len;
         if physical <? f then file_set_len physical else mret ()
       else if new_data <? old_data then file_set_len physical else mret ()) ;;
      update (set_data_len new_data)
  end.

Definition sync_data : IO () := drain ;; file_sync.

(** The header page: redb's bytes, then zeros. *)
Definition read_header (h : Header) (pos n : N) : bytes :=
  sl pos n (h_bytes h ++ zeros (LOGICAL_HEADER - REDB_HEADER_LEN)).

(** Open one block of a buffer of blocks. *)
Definition open_block (index : N) (block : bytes) : IO bytes :=
  match open_in_place (aead g) (block_aad index) block with
  | (inl (a, b), buf) => mret (sl (N.of_nat a) (N.of_nat (b - a)) buf)
  | (inr _, _) => throw (Tampered (Some index))
  end.

(** The blocks read and opened, and [n] bytes taken from position [within] of them. *)
Definition read_blocks (first count within n : N) : IO bytes :=
  buf ← file_read (block_offset geo first) (count * strd);
  pages ← collect (indices count) (λ i, open_block (first + i) (sl (i * strd) strd buf));
  mret (sl within n (concat pages)).

(** Read [n] bytes from position [rel] after the header page. *)
Definition read_pages (rel n : N) : IO bytes :=
  let first := rel / PAGE in
  let last := (rel + n - 1) / PAGE in
  let count := last - first + 1 in
  let within := rel mod PAGE in
  let from_file := read_blocks first count within n in
  if parallel_seal g then
    p ← asks pending;
    if bool_decide (length p = 0%nat) then from_file
    else if count =? 1 then
      match l_get p first with
      | Some (_, page) => mret (sl within n page)
      | None => from_file
      end
    else if existsb (λ i, bool_decide (is_Some (l_get p (first + i)))) (indices count)
    then drain ;; from_file
    else from_file
  else from_file.

Definition read (offset n : N) : IO bytes :=
  if n =? 0 then mret [] else
  l ← asks backend_len;
  if l <? offset + n then throw UnexpectedEof else
  h ← asks header;
  let k := if offset <? LOGICAL_HEADER then N.min (LOGICAL_HEADER - offset) n else 0 in
  let top := read_header h offset k in
  if k =? n then mret top
  else rest ← read_pages (offset + k - LOGICAL_HEADER) (n - k); mret (top ++ rest).

Definition write (offset : N) (data : bytes) : IO () :=
  if len data =? 0 then mret () else
  l ← asks backend_len;
  if l <? offset + len data then throw (bad "write past the end") else
  let k := if offset <? LOGICAL_HEADER then N.min (LOGICAL_HEADER - offset) (len data) else 0 in
  (if offset <? LOGICAL_HEADER then
     drain ;; write_header_range offset (take (N.to_nat k) data)
   else mret ()) ;;
  if k =? len data then mret () else
  let rel := offset + k - LOGICAL_HEADER in
  let rest := drop (N.to_nat k) data in
  if negb (rel mod PAGE =? 0) || negb (len rest mod PAGE =? 0)
  then throw (bad "write is not aligned to whole pages") else
  if parallel_seal g then stage_pages (rel / PAGE) rest else write_blocks (rel / PAGE) rest.

(** Both are done, the drain's error first. *)
Definition close_backend : IO () :=
  r ← (λ s, match drain s with (s', x) => (s', inl x) end);
  a ← call;
  match r, a with
  | inr e, _ => throw e
  | inl _, Some _ => throw Device
  | inl _, None => mret ()
  end.
End backend.
