(* ===== verification/BackendSpec.v ===== *)
(** * The encrypted file layer as a plain file: blocks and staged pages

    [iowp] is the weakest precondition of a computation: what holds when it answers and
    what holds when it fails.  The lemmas below say what each step does to the blocks of
    the file, and that staged pages shadow them. *)
From S2P Require Import Prelude Order Redb B64 Cipher Layout Disk Backend.
Import ListRedb.
Local Open Scope N_scope.

(** ** Weakest preconditions *)

Definition iowp {A} (m : IO A) (Q : A → Backend → Prop) (E : Backend → Prop) (s : Backend) : Prop :=
  match m s with (s', inl a) => Q a s' | (s', inr _) => E s' end.

Section iowp.
Context {A B : Type}.
Implicit Types (m : IO A) (k : A → IO B).

Lemma iowp_ret (a : A) (Q : A → Backend → Prop) E s : Q a s → iowp (mret a) Q E s.
Proof. done. Qed.
Lemma iowp_bind m k Q E s : iowp m (λ a, iowp (k a) Q E) E s → iowp (m ≫= k) Q E s.
Proof. unfold iowp, mbind, IO_bind. by destruct (m s) as [s' [a|e]]. Qed.
Lemma iowp_mono m (Q Q' : A → Backend → Prop) (E E' : Backend → Prop) s :
  iowp m Q E s → (∀ a s', Q a s' → Q' a s') → (∀ s', E s' → E' s') → iowp m Q' E' s.
Proof. unfold iowp. destruct (m s) as [s' [a|e]]; auto. Qed.
Lemma iowp_asks (f : Backend → A) (Q : A → Backend → Prop) E s : Q (f s) s → iowp (asks f) Q E s.
Proof. done. Qed.
Lemma iowp_throw e (Q : A → Backend → Prop) E s : E s → iowp (throw e) Q E s.
Proof. done. Qed.
Lemma iowp_attempt m (Q : option A → Backend → Prop) E s :
  iowp m (λ a, Q (Some a)) (Q None) s → iowp (attempt m) Q E s.
Proof. unfold iowp, attempt. by destruct (m s) as [s' [a|e]]. Qed.
End iowp.
Lemma iowp_update f (Q : () → Backend → Prop) E s : Q () (f s) → iowp (update f) Q E s.
Proof. done. Qed.

(** A loop over a list with an invariant that knows what is done and what is left. *)
Lemma iowp_each {A} (l : list A) body (I : list A → Backend → Prop) (E : Backend → Prop) s :
  (∀ done a rest s, l = done ++ a :: rest → I done s → iowp (body a) (λ _, I (done ++ [a])) E s) →
  I [] s → iowp (each l body) (λ _, I l) E s.
Proof.
  intros Hb. assert (H : ∀ rest dn s, l = dn ++ rest → I dn s → iowp (each rest body) (λ _, I l) E s).
  { induction rest as [|a rest IH]; intros dn s0 El Hi; cbn [each].
    - apply iowp_ret. by rewrite El, app_nil_r.
    - apply iowp_bind. eapply iowp_mono; [by eapply Hb| |done]. intros [] s' Hs. apply (IH (dn ++ [a])); [|done].
      by rewrite <-app_assoc. }
  intros Hi. by apply (H l []).
Qed.

Lemma iowp_collect {A B} (l : list A) (body : A → IO B) (I : list A → list B → Backend → Prop) (E : Backend → Prop) s :
  (∀ done bs a rest s, l = done ++ a :: rest → I done bs s →
     iowp (body a) (λ b, I (done ++ [a]) (bs ++ [b])) E s) →
  I [] [] s → iowp (collect l body) (λ bs, I l bs) E s.
Proof.
  intros Hb. assert (H : ∀ rest dn bs s, l = dn ++ rest → I dn bs s →
    iowp (collect rest body) (λ bs', I l (bs ++ bs')) E s).
  { induction rest as [|a rest IH]; intros dn bs s0 El Hi; cbn [collect].
    - apply iowp_ret. by rewrite El, !app_nil_r.
    - apply iowp_bind. eapply iowp_mono; [by eapply Hb| |done]. intros b s' Hs. cbn beta.
      apply iowp_bind. eapply iowp_mono; [apply (IH (dn ++ [a]) (bs ++ [b]))|..]; [by rewrite <-app_assoc|done| |done].
      intros bs' s2 H2. cbn beta in H2. apply iowp_ret. rewrite <-app_assoc in H2. exact H2. }
  intros Hi. eapply iowp_mono; [by apply (H l [] [])|done|done].
Qed.

(** ** The system *)

Section spec.
Context `{CipherLib} (fate : nat → option bytes) (random : nat → nat → outcome CryptoError bytes) (g : Settings).
Abbreviation ge := (geo g).
Abbreviation st := (strd g).

(** A device that never fails, a random source that answers, a cipher that accepts a page. *)
Record healthy : Prop := {
  hl_fate : ∀ i, fate i = None;
  hl_random : ∀ i n, ∃ r, random i n = inl r ∧ length r = n;
  hl_cipher : ∀ nonce aad p, length nonce = nonce_len (kind (aead g)) → len p <= PAGE →
    is_Some (encrypt (kind (aead g)) (a_key (aead g)) nonce aad p);
}.

(** The state apart from the counters of the system's answers and the file. *)
Definition core_eq (s s' : Backend) : Prop :=
  allocs s' = allocs s ∧ data_len s' = data_len s ∧ header_area s' = header_area s ∧
  header s' = header s ∧ pending s' = pending s.

Lemma core_eq_refl s : core_eq s s.
Proof. done. Qed.
Lemma core_eq_trans s1 s2 s3 : core_eq s1 s2 → core_eq s2 s3 → core_eq s1 s3.
Proof. unfold core_eq. intros (?&?&?&?&?) (?&?&?&?&?). repeat split; congruence. Qed.

Lemma strd_overhead : st = PAGE + N.of_nat (overhead (kind (aead g))).
Proof. done. Qed.

Lemma strd_pos : 0 < st.
Proof. unfold strd, stride, PAGE. lia. Qed.

(** Sealing draws a nonce and changes nothing else; what it makes opens. *)
Lemma seal_into_spec why aad plain cap s :
  cap = len plain + N.of_nat (overhead (kind (aead g))) → len plain <= PAGE →
  iowp (seal_into random g why aad plain cap)
    (λ sealed s', open (aead g) aad sealed = inl plain ∧ len sealed = cap ∧ core_eq s s' ∧ file s' = file s ∧ calls s' = calls s)
    (λ s', ¬ healthy ∧ core_eq s s' ∧ file s' = file s) s.
Proof.
  intros Hc Hl. unfold seal_into. apply iowp_bind. unfold iowp at 1, draw. cbn.
  destruct (random (draws s) (nonce_len (kind (aead g)))) as [nonce|e] eqn:Er.
  - unfold seal_into_with. destruct (Nat.eqb_spec (length nonce) (nonce_len (kind (aead g)))) as [En|En]; cbn [negb].
    + assert ((N.to_nat cap =? length nonce + length plain + TAG_LEN)%nat = true) as ->.
      { apply Nat.eqb_eq. unfold len, overhead in Hc. lia. }
      cbn [negb]. destruct (encrypt (kind (aead g)) (a_key (aead g)) nonce aad plain) as [[ct tag]|] eqn:Ee.
      * apply iowp_ret. pose proof (encrypt_len _ _ _ _ _ _ _ Ee) as [Hct Htag]. split_and!; [|  |done..].
        -- apply open_exact. exists nonce. split; [done|]. unfold seal_with. by rewrite En, Nat.eqb_refl, Ee.
        -- unfold len in *. rewrite !length_app. unfold overhead in Hc. lia.
      * apply iowp_throw. split_and!; [|done..]. intros Hh. destruct (hl_cipher Hh nonce aad plain En Hl). congruence.
    + apply iowp_throw. split_and!; [|done..]. intros Hh.
      destruct (hl_random Hh (draws s) (nonce_len (kind (aead g)))) as (r & E & El). congruence.
  - apply iowp_throw. split_and!; [|done..]. intros Hh.
    destruct (hl_random Hh (draws s) (nonce_len (kind (aead g)))) as (r & E & El). congruence.
Qed.

(** A write to the file puts the bytes, or something as long, at its place. *)
Lemma file_write_spec off d s :
  iowp (file_write fate off d) (λ _ s', core_eq s s' ∧ file s' = splice off d (file s))
    (λ s', ¬ healthy ∧ core_eq s s' ∧ ∃ d', len d' = len d ∧ file s' = splice off d' (file s) ∧
       ∃ i x, fate i = Some x ∧ d' = torn d x) s.
Proof.
  unfold file_write. apply iowp_bind. unfold iowp at 1, call. cbn.
  destruct (fate (calls s)) as [x|] eqn:Ef.
  - apply iowp_bind, iowp_update, iowp_throw. split_and!; [|done..|].
    + intros Hh. pose proof (hl_fate Hh (calls s)). congruence.
    + exists (torn d x). split_and!; [|done|by eauto]. unfold torn, len. rewrite resize_length. lia.
  - by apply iowp_update.
Qed.

Lemma file_read_spec off n s : off + n <= len (file s) →
  iowp (file_read fate off n) (λ b s', core_eq s s' ∧ file s' = file s ∧ b = sl off n (file s))
    (λ s', ¬ healthy ∧ core_eq s s' ∧ file s' = file s) s.
Proof.
  intros Hb. unfold file_read. apply iowp_bind. unfold iowp at 1, call. cbn.
  destruct (fate (calls s)) as [x|] eqn:Ef.
  - apply iowp_throw. split_and!; [|done..]. intros Hh. pose proof (hl_fate Hh (calls s)). congruence.
  - apply iowp_bind, iowp_asks. cbn [file set_calls]. destruct (N.leb_spec (off + n) (len (file s))); [|lia]. by apply iowp_ret.
Qed.

Lemma open_block_spec index block s :
  open_block g index block s =
    match open (aead g) (block_aad index) block with
    | inl p => (s, inl p)
    | inr _ => (s, inr (Tampered (Some index)))
    end.
Proof.
  unfold open_block. pose proof (open_in_place_spec (aead g) (block_aad index) block) as Ho.
  destruct (open_in_place (aead g) (block_aad index) block) as [[[a b]|e] buf].
  - destruct Ho as [-> _]. unfold sl. by rewrite !Nat2N.id.
  - by destruct Ho as [-> _].
Qed.

(** ** Blocks *)

Definition block (f : bytes) (i : N) : bytes := sl (block_offset ge i) st f.

(** Only the blocks [ks] may have changed, and nothing before the blocks. *)
Record frame (ks : list N) (f f' : bytes) : Prop := {
  fr_len : len f <= len f';
  fr_top : ∀ o n, o + n <= DATA_BASE → o + n <= len f → sl o n f' = sl o n f;
  fr_block : ∀ j, j ∉ ks → block_offset ge (j + 1) <= len f → block f' j = block f j;
  fr_max : ∀ n, (∀ j, j ∈ ks → j < n) → len f' <= N.max (len f) (block_offset ge n);
}.

Lemma frame_refl ks f : frame ks f f.
Proof. split; [done..|]. lia. Qed.

Lemma frame_trans ks f1 f2 f3 : frame ks f1 f2 → frame ks f2 f3 → frame ks f1 f3.
Proof.
  intros [L1 T1 B1 M1] [L2 T2 B2 M2]. split; [lia| | |].
  - intros o n Ho Hn. rewrite T2 by lia. by apply T1.
  - intros j Hj Hl. rewrite B2 by (done || lia). by apply B1.
  - intros n Hn. specialize (M1 n Hn). specialize (M2 n Hn). lia.
Qed.

Lemma frame_sub ks ks' f f' : ks ⊆ ks' → frame ks f f' → frame ks' f f'.
Proof. intros Hs [L T B M]. split; [done|done| |]; [intros j Hj; apply B|intros n Hn; apply M; intros j Hj; apply Hn]; set_solver. Qed.

Lemma block_offset_S i : block_offset ge (i + 1) = block_offset ge i + st.
Proof. unfold block_offset, strd. lia. Qed.

Lemma block_offset_add i k : block_offset ge (i + k) = block_offset ge i + k * st.
Proof. unfold block_offset, strd. lia. Qed.

Definition span (i n : N) : list N := (λ k, i + k) <$> indices n.

Lemma elem_of_indices k n : k ∈ indices n ↔ k < n.
Proof.
  unfold indices. rewrite list_elem_of_fmap. split.
  - intros (x & -> & Hx%list_elem_of_In%in_seq). lia.
  - intros Hk. exists (N.to_nat k). split; [lia|]. apply list_elem_of_In, in_seq. lia.
Qed.

Lemma elem_of_span j i n : j ∈ span i n ↔ i <= j < i + n.
Proof.
  unfold span. rewrite list_elem_of_fmap. split.
  - intros (k & -> & Hk%elem_of_indices). lia.
  - intros Hj. exists (j - i). split; [lia|]. apply elem_of_indices. lia.
Qed.

Lemma len_concat {A} (bs : list (list A)) (w : N) : Forall (λ b, len b = w) bs → len (concat bs) = len bs * w.
Proof. unfold len. induction 1 as [|b bs Hb _ IH]; [done|]. cbn [concat length]. rewrite length_app. lia. Qed.

(** The [k]th part of equal parts. *)
Lemma sl_concat (bs : list bytes) (w : N) k b : Forall (λ b, len b = w) bs → bs !! k = Some b →
  sl (N.of_nat k * w) w (concat bs) = b.
Proof.
  intros Hw. revert k. induction Hw as [|c bs Hc Hw IH]; intros [|k] Hk; try done.
  - injection Hk as ->. cbn [concat]. rewrite sl_app_l by lia. rewrite N.mul_0_l, <-Hc. apply sl_all.
  - cbn [concat]. rewrite sl_app_r by lia. rewrite Hc. replace (N.of_nat (S k) * w - w) with (N.of_nat k * w) by lia.
    by apply IH.
Qed.

(** Writing a run of blocks, or something as long. *)
Lemma splice_blocks_frame f i d n : block_offset ge i <= len f → len d = n * st →
  frame (span i n) f (splice (block_offset ge i) d f).
Proof.
  intros Hf Hd. assert (Ho : DATA_BASE <= block_offset ge i) by (unfold block_offset; lia). split.
  - unfold len in *. rewrite splice_length. lia.
  - intros o m Hom Hl. apply sl_splice_out; [left; lia|done].
  - intros j Hj Hl. unfold block. rewrite elem_of_span in Hj. rewrite block_offset_S in Hl. pose proof strd_pos.
    apply sl_splice_out; [|done]. rewrite Hd. destruct (N.lt_ge_cases j i) as [Hlt|Hge].
    + left. rewrite <-block_offset_S. unfold block_offset, strd. apply N.add_le_mono_l, N.mul_le_mono_r. lia.
    + right. rewrite <-block_offset_add. unfold block_offset. apply N.add_le_mono_l, N.mul_le_mono_r. lia.
  - intros m Hm. unfold len in *. rewrite splice_length. destruct (N.eq_dec n 0) as [->|Hn]; [lia|].
    assert (Hlast : i + n - 1 < m) by (apply Hm, elem_of_span; lia).
    assert (block_offset ge (i + n) <= block_offset ge m) as Hle.
    { unfold block_offset. apply N.add_le_mono_l, N.mul_le_mono_r. lia. }
    rewrite block_offset_add in Hle. lia.
Qed.

Lemma splice_blocks_at f i bs k b : Forall (λ b, len b = st) bs → bs !! k = Some b →
  block (splice (block_offset ge i) (concat bs) f) (i + N.of_nat k) = b.
Proof.
  intros Hw Hk. unfold block. rewrite block_offset_add.
  assert (N.of_nat k + 1 <= len bs) by (apply lookup_lt_Some in Hk; unfold len; lia).
  rewrite sl_splice_in; [|lia|rewrite (len_concat bs st Hw); nia].
  replace (block_offset ge i + N.of_nat k * st - block_offset ge i) with (N.of_nat k * st) by lia.
  by apply sl_concat.
Qed.

(** ** Draining *)

Lemma run_len_bound room last l : (run_len room last l <= length l)%nat.
Proof.
  revert last l. induction room as [|room IH]; intros last [|[i b] l]; cbn [run_len length]; try lia.
  case_match; [|lia]. specialize (IH i l). lia.
Qed.

Lemma run_len_keys room last l k x : take (run_len room last l) l !! k = Some x → x.1 = last + 1 + N.of_nat k.
Proof.
  revert last l k. induction room as [|room IH]; intros last [|[i b] l] k; cbn [run_len]; try done.
  destruct (N.eqb_spec i (last + 1)) as [->|]; [|done]. cbn [take]. destruct k as [|k].
  - intros [= <-]. cbn. lia.
  - intros Hk. cbn in Hk. apply IH in Hk. lia.
Qed.

Lemma file_write_run i b run f : Forall (λ x, len x.2 = st) ((i, b) :: run) →
  (∀ k x, run !! k = Some x → x.1 = i + 1 + N.of_nat k) →
  let l := (i, b) :: run in
  (∀ j x, (j, x) ∈ l → block (splice (block_offset ge i) (concat (l.*2)) f) j = x) ∧
  span i (len l) ⊆ l.*1 ∧ len (concat l.*2) = len l * st.
Proof.
  intros Hw Hk l.
  assert (Hw2 : Forall (λ x, len x = st) l.*2) by by apply Forall_fmap.
  assert (Hkey : ∀ k x, l !! k = Some x → x.1 = i + N.of_nat k).
  { intros [|k] x; [intros [= <-]; cbn; lia|]. intros Hx. apply Hk in Hx. lia. }
  split_and!.
  - intros j x (k & Hx)%list_elem_of_lookup. pose proof (Hkey k _ Hx) as Hj. cbn in Hj. subst j.
    apply splice_blocks_at; [done|]. by rewrite list_lookup_fmap, Hx.
  - intros j Hj%elem_of_span. assert (Hb : (N.to_nat (j - i) < length l)%nat) by (unfold len in Hj; lia).
    destruct (lookup_lt_is_Some_2 l _ Hb) as [x Hx]. apply list_elem_of_fmap. exists x.
    split; [|by eapply list_elem_of_lookup_2]. rewrite (Hkey _ _ Hx). lia.
  - rewrite (len_concat _ st Hw2). unfold len. by rewrite length_fmap.
Qed.

Lemma write_runs_spec fuel n : ∀ l s, (length l <= fuel)%nat → NoDup l.*1 → Forall (λ x, len x.2 = st) l →
  Forall (λ x, x.1 < n) l → block_offset ge n <= len (file s) →
  iowp (write_runs fate g fuel l)
    (λ _ s', core_eq s s' ∧ frame l.*1 (file s) (file s') ∧ ∀ i b, (i, b) ∈ l → block (file s') i = b)
    (λ s', ¬ healthy ∧ core_eq s s' ∧ frame l.*1 (file s) (file s')) s.
Proof.
  induction fuel as [|fuel IH]; intros l s Hf Hnd Hw Hn Hfile.
  - destruct l; [|simpl in Hf; lia]. apply iowp_ret. split_and!; [done|apply frame_refl|].
    intros i b Hb. by apply elem_of_nil in Hb.
  - destruct l as [|[i b] l]; [apply iowp_ret; split_and!; [done|apply frame_refl|intros i b Hb; by apply elem_of_nil in Hb]|].
    cbn [write_runs]. set (k := run_len (WRITE_CHUNK - 1) i l). set (run := take k l). set (rest := drop k l).
    assert (El : (i, b) :: l = ((i, b) :: run) ++ rest) by (cbn [app]; subst run rest; by rewrite take_drop).
    rewrite El in Hnd, Hw, Hn |- *. rewrite fmap_app in Hnd |- *.
    apply NoDup_app in Hnd as (Hnd1 & Hdis & Hnd2). apply Forall_app in Hw as [Hw1 Hw2], Hn as [Hn1 Hn2].
    destruct (file_write_run i b run (file s) Hw1) as (Hset & Hspan & Hlen).
    { intros j x Hx. by apply run_len_keys in Hx. }
    assert (Hrange : block_offset ge (i + len ((i, b) :: run)) <= len (file s)).
    { etrans; [|exact Hfile]. unfold block_offset. apply N.add_le_mono_l, N.mul_le_mono_r.
      destruct (decide (n < i + len ((i, b) :: run))) as [Hlt|]; [|lia].
      assert (Hin : i + len ((i, b) :: run) - 1 ∈ span i (len ((i, b) :: run)))
        by (apply elem_of_span; unfold len; simpl; lia).
      apply Hspan, list_elem_of_fmap in Hin as (x & Ex & Hx). rewrite Forall_forall in Hn1. apply Hn1 in Hx. lia. }
    assert (Hframe : ∀ d, len d = len ((i, b) :: run) * st →
      frame (((i, b) :: run).*1 ++ rest.*1) (file s) (splice (block_offset ge i) d (file s))).
    { intros d Hd. eapply frame_sub; [|apply splice_blocks_frame; [|exact Hd]]; [set_solver|].
      rewrite block_offset_add in Hrange. lia. }
    apply iowp_bind. eapply iowp_mono; [apply (file_write_spec (block_offset ge i) (concat (b :: run.*2)))| |].
    + intros [] s1 [C1 F1]. cbn beta. eapply iowp_mono; [apply (IH rest s1)|..].
      * subst rest. rewrite length_drop. simpl in Hf. lia.
      * done.
      * done.
      * done.
      * rewrite F1. destruct (Hframe _ Hlen) as [Hl _ _]. change (concat (b :: run.*2)) with (concat ((i, b) :: run).*2). lia.
      * intros [] s2 (C2 & F2 & B2). split_and!; [by eapply core_eq_trans| |].
        -- apply (frame_trans _ _ (file s1)); [rewrite F1; by apply Hframe|]. eapply frame_sub; [|exact F2]. set_solver.
        -- intros j x [Hj|Hj]%elem_of_app; [|by apply B2].
           rewrite (fr_block _ _ _ F2).
           ++ rewrite F1. by apply Hset.
           ++ intros Hr. eapply Hdis; [|exact Hr]. apply list_elem_of_fmap. by exists (j, x).
           ++ rewrite F1. destruct (Hframe _ Hlen) as [Hl _ _]. etrans; [|exact Hl].
              assert (j < n) by (rewrite Forall_forall in Hn1; by apply (Hn1 (j, x))).
              etrans; [|exact Hfile]. unfold block_offset. apply N.add_le_mono_l, N.mul_le_mono_r. lia.
      * intros s2 (Hh & C2 & F2). split_and!; [done|by eapply core_eq_trans|].
        apply (frame_trans _ _ (file s1)); [rewrite F1; by apply Hframe|]. eapply frame_sub; [|exact F2]. set_solver.
    + intros s1 (Hh & C1 & d' & Hd' & F1 & _). split_and!; [done..|]. rewrite F1. apply Hframe.
      rewrite Hd'. exact Hlen.
Qed.

(** The blocks made from staged pages open to them. *)
Definition sealed_as (p : N * Staged) (b : N * bytes) : Prop :=
  b.1 = p.1 ∧ open (aead g) (block_aad p.1) b.2 = inl p.2.2 ∧ len b.2 = st.

Lemma seal_block_spec i plain s : len plain = PAGE →
  iowp (seal_block random g i plain)
    (λ b s', open (aead g) (block_aad i) b = inl plain ∧ len b = st ∧ core_eq s s' ∧ file s' = file s)
    (λ s', ¬ healthy ∧ core_eq s s' ∧ file s' = file s) s.
Proof.
  intros Hp. unfold seal_block. eapply iowp_mono; [apply seal_into_spec|..].
  - rewrite Hp. apply strd_overhead.
  - by rewrite Hp.
  - intros b s' (? & ? & ? & ? & _). done.
  - done.
Qed.

Lemma seal_batch_spec (batch : list (N * Staged)) s : Forall (λ p, len p.2.2 = PAGE) batch →
  iowp (collect batch (λ p, b ← seal_block random g p.1 p.2.2; mret (p.1, b)))
    (λ bs s', Forall2 sealed_as batch bs ∧ core_eq s s' ∧ file s' = file s)
    (λ s', ¬ healthy ∧ core_eq s s' ∧ file s' = file s) s.
Proof.
  intros Hp. apply (iowp_collect batch _ (λ dn bs s', Forall2 sealed_as dn bs ∧ core_eq s s' ∧ file s' = file s)).
  2:{ split_and!; [constructor|done..]. }
  intros dn bs p rest s1 El (Hf & C & F). apply iowp_bind.
  assert (Hpp : len p.2.2 = PAGE) by (rewrite Forall_forall in Hp; apply Hp; rewrite El; set_solver).
  eapply iowp_mono; [by apply seal_block_spec|..].
  - intros b s2 (Ho & Hl & C2 & F2). apply iowp_ret. split_and!.
    + apply Forall2_app; [done|]. by repeat constructor.
    + by eapply core_eq_trans.
    + congruence.
  - intros s2 (Hh & C2 & F2). split_and!; [done|by eapply core_eq_trans|congruence].
Qed.

Lemma drain_write_spec (batch : list (N * Staged)) n s :
  NoDup batch.*1 → Forall (λ p, p.1 < n ∧ len p.2.2 = PAGE) batch → block_offset ge n <= len (file s) →
  iowp (drain_write fate random g batch)
    (λ _ s', core_eq s s' ∧ frame batch.*1 (file s) (file s') ∧
       ∀ i e, (i, e) ∈ batch → open (aead g) (block_aad i) (block (file s') i) = inl e.2)
    (λ s', ¬ healthy ∧ core_eq s s' ∧ frame batch.*1 (file s) (file s')) s.
Proof.
  intros Hnd Hb Hf. unfold drain_write. apply iowp_bind. eapply iowp_mono.
  { apply seal_batch_spec. eapply Forall_impl; [exact Hb|]. by intros x [_ ?]. }
  - intros bs s1 (H2 & C1 & F1). cbn beta.
    assert (Hk : bs.*1 = batch.*1).
    { clear -H2. induction H2 as [|p b ps bs (E & _) _ IH]; [done|]. cbn. by rewrite E, IH. }
    eapply iowp_mono; [apply (write_runs_spec (length bs) n)|..].
    + done.
    + by rewrite Hk.
    + clear -H2. induction H2 as [|p b ps bs (_ & _ & E) _ IH]; by constructor.
    + apply Forall_forall. intros x Hx. assert (Hx1 : x.1 ∈ bs.*1) by by apply list_elem_of_fmap_2.
      rewrite Hk in Hx1. apply list_elem_of_fmap in Hx1 as (p & -> & Hp). rewrite Forall_forall in Hb. by apply Hb.
    + by rewrite F1.
    + intros [] s2 (C2 & F2 & B2). rewrite F1, Hk in F2. split_and!; [by eapply core_eq_trans|done|].
      intros i e (k & Hx)%list_elem_of_lookup. destruct (Forall2_lookup_l _ _ _ _ _ H2 Hx) as ([j b] & Hb' & E & Ho & _).
      cbn in E. subst j. rewrite (B2 i b); [done|]. by eapply list_elem_of_lookup_2.
    + intros s2 (Hh & C2 & F2). rewrite F1, Hk in F2. split_and!; [done|by eapply core_eq_trans|done].
  - intros s1 (Hh & C & F). split_and!; [done..|]. rewrite F. apply frame_refl.
Qed.

(** ** Header pieces *)

Definition blank (raw : bytes) : bool := forallb (λ b, bool_decide (b = Byte.x00)) raw.

(** What opening the layer makes of a piece. *)
Definition loaded (f : bytes) (copy piece : N) : option bytes :=
  let raw := sl (piece_offset copy) PIECE_LEN f in
  if blank raw then None
  else match open (aead g) (piece_aad piece) raw with inl p => Some p | inr _ => None end.

Definition plain_piece (h : Header) (piece : N) : bytes := piece_plain h piece (PIECE_LEN - g_overhead ge).

Definition slot (f : bytes) (h : Header) (copy piece off : N) : Prop :=
  loaded f copy piece = Some (plain_piece h piece) ∨ (loaded f copy piece = None ∧ sl off 128 (h_bytes h) = zeros 128).

(** The first piece: the newest copy, and an older other one. *)
Record firsts (f : bytes) (h : Header) : Prop := {
  fo_which : h_newest h < 2;
  fo_seq : h_seq h < 2 ^ 64;
  fo_first : loaded f (h_newest h) 0 = Some (plain_piece h 0) ∨
    (loaded f (h_newest h) 0 = None ∧ h_seq h = 0 ∧ h_newest h = 0 ∧ sl 0 64 (h_bytes h) = zeros 64);
  fo_other : ∀ p, loaded f (N.lxor (h_newest h) 1) 0 = Some p → of_le (sl 0 8 p) < h_seq h;
}.

(** The pieces in the file are the header in memory; a piece never written is one of zeros. *)
Record pieces (f : bytes) (h : Header) : Prop := {
  pc_firsts : firsts f h;
  pc_slot1 : slot f h 2 1 64;
  pc_slot2 : slot f h 3 2 192;
}.

Lemma piece_in_top copy : copy < 4 → piece_offset copy + PIECE_LEN <= DATA_BASE.
Proof. unfold piece_offset, DATA_BASE, PIECES_LEN, PIECE_LEN. lia. Qed.

Lemma other_copy c : c < 2 → N.lxor c 1 < 2 ∧ N.lxor c 1 ≠ c ∧ N.lxor (N.lxor c 1) 1 = c.
Proof. intros Hc. assert (c = 0 ∨ c = 1) as [-> | ->] by lia; done. Qed.

Lemma loaded_top f f' copy piece : copy < 4 → DATA_BASE <= len f →
  (∀ o n, o + n <= DATA_BASE → o + n <= len f → sl o n f' = sl o n f) → loaded f' copy piece = loaded f copy piece.
Proof. intros Hc Hl Ht. unfold loaded. pose proof (piece_in_top copy Hc). by rewrite Ht by lia. Qed.

Lemma pieces_top f f' h : DATA_BASE <= len f →
  (∀ o n, o + n <= DATA_BASE → o + n <= len f → sl o n f' = sl o n f) → pieces f h → pieces f' h.
Proof.
  intros Hl Ht [[p1 p2 p3 p4] p5 p6]. pose proof (other_copy _ p1) as (Ho & _). unfold slot in *.
  assert (E : ∀ c k, c < 4 → loaded f' c k = loaded f c k) by (intros; by apply loaded_top).
  split; [split|..]; unfold slot; rewrite ?E by lia; done.
Qed.

(** ** The plain file behind the layer *)

(** redb's header bytes, its pages, how often the first piece was written, and whether
    the file ends with the last page. *)
Record Plain := { p_header : bytes; p_pages : list bytes; p_seq : N; p_exact : bool }.

(** What a reader of page [i] gets. *)
Definition seen (s : Backend) (i : N) (p : bytes) : Prop :=
  match l_get (pending s) i with
  | Some (_, q) => p = q
  | None => open (aead g) (block_aad i) (block (file s) i) = inl p
  end.

Record shows (s : Backend) (A : Plain) : Prop := {
  sw_area : header_area s = true;
  sw_len : data_len s = len (p_pages A) * PAGE;
  sw_header : h_bytes (header s) = p_header A;
  sw_hlen : len (p_header A) = REDB_HEADER_LEN;
  sw_pages : ∀ i p, p_pages A !! i = Some p → len p = PAGE ∧ seen s (N.of_nat i) p;
  sw_sorted : StronglySorted pair_lt (pending s);
  sw_keys : ∀ i q, (i, q) ∈ pending s → i < len (p_pages A) ∧ len q.2 = PAGE;
  sw_file : block_offset ge (len (p_pages A)) <= len (file s);
  sw_mode : parallel_seal g = false → pending s = [];
  sw_seq : h_seq (header s) = p_seq A;
  sw_pieces : pieces (file s) (header s);
  sw_exact : p_exact A = true → len (file s) < block_offset ge (len (p_pages A) + 1);
}.

Lemma keys_nodup {V} (l : list (N * V)) : StronglySorted pair_lt l → NoDup l.*1.
Proof.
  induction 1 as [|p l Hs IH Hf]; [constructor|]. cbn [fmap list_fmap]. constructor; [|done].
  intros (q & E & Hq)%list_elem_of_fmap. rewrite Forall_forall in Hf. apply Hf in Hq.
  unfold pair_lt in Hq. rewrite <-E in Hq. by apply key_lt_irrefl in Hq.
Qed.

(** Writing blocks that are staged, or that lie behind the pages, changes nothing that is seen. *)
Lemma shows_frame_gen ks s s' A : shows s A → core_eq s s' → frame ks (file s) (file s') →
  (∀ j, j ∈ ks → j < len (p_pages A) → is_Some (l_get (pending s) j)) →
  (p_exact A = true → ∀ j, j ∈ ks → j < len (p_pages A)) → shows s' A.
Proof.
  intros Hs (Ca & Cd & Ch & Che & Cp) [L T B M] Hk He. destruct Hs as [s1 s2 s3 s4 s5 s6 s7 s8 s9 s10 s11 s12].
  assert (Hle : ∀ i p, p_pages A !! i = Some p → block_offset ge (N.of_nat i + 1) <= len (file s)).
  { intros i p Hi%lookup_lt_Some. etrans; [|exact s8]. unfold block_offset, len.
    apply N.add_le_mono_l, N.mul_le_mono_r. lia. }
  split; try congruence.
  - intros i p Hi. destruct (s5 i p Hi) as [Hl Hv]. split; [done|]. unfold seen in *. rewrite Cp.
    destruct (l_get (pending s) (N.of_nat i)) as [q|] eqn:Eg; [done|]. rewrite B; [done| |by eapply Hle].
    intros Hj. apply Hk in Hj; [rewrite Eg in Hj; by destruct Hj|]. apply lookup_lt_Some in Hi. unfold len. lia.
  - intros i q. rewrite Cp. apply s7.
  - lia.
  - rewrite Cp. exact s9.
  - rewrite Che. eapply pieces_top; [|exact T|exact s11]. unfold block_offset in s8. lia.
  - intros Hx. specialize (M _ (He Hx)). specialize (s12 Hx). lia.
Qed.

Lemma shows_frame s s' A : shows s A → core_eq s s' → frame (pending s).*1 (file s) (file s') → shows s' A.
Proof.
  intros Hs C F. eapply shows_frame_gen; [done..| |].
  - intros j ([i q] & -> & Hq)%list_elem_of_fmap _. cbn. apply l_get_elem in Hq; [by eexists|apply Hs].
  - intros _ j ([i q] & -> & Hq)%list_elem_of_fmap. by apply (sw_keys _ _ Hs) in Hq as [? _].
Qed.

Lemma drain_done_get (batch p0 : list (N * Staged)) i : StronglySorted pair_lt p0 → NoDup batch.*1 →
  let p := fold_left (λ p (e : N * Staged), match l_get p e.1 with
     | Some now => if now.1 =? e.2.1 then l_remove p e.1 else p | None => p end) batch p0 in
  StronglySorted pair_lt p ∧
  l_get p i = match l_get p0 i with
              | Some now => match l_get batch i with
                            | Some e => if now.1 =? e.1 then None else Some now
                            | None => Some now end
              | None => None end.
Proof.
  revert p0. induction batch as [|[k e] batch IH]; intros p0 Hs Hn; cbn zeta; cbn [fold_left].
  - split; [done|]. cbn [l_get]. destruct (l_get p0 i); reflexivity.
  - cbn [fmap list_fmap] in Hn. apply NoDup_cons in Hn as [Hk Hn]. cbn [fst snd].
    set (p1 := match l_get p0 k with Some now => if now.1 =? e.1 then l_remove p0 k else p0 | None => p0 end).
    assert (Hs1 : StronglySorted pair_lt p1) by (subst p1; repeat case_match; auto using l_remove_sorted).
    destruct (IH p1 Hs1 Hn) as [IH1 IH2]. split; [done|]. etrans; [exact IH2|]. cbn [l_get].
    destruct (decide (i = k)) as [->|Hne].
    + assert (Hb : l_get batch k = None).
      { clear -Hk. induction batch as [|[j x] batch IH]; [done|]. cbn in *. rewrite decide_False by set_solver. apply IH. set_solver. }
      rewrite Hb. subst p1. destruct (l_get p0 k) as [now|] eqn:E; [|by rewrite E].
      destruct (now.1 =? e.1); [|by rewrite E]. rewrite l_get_remove by done. by rewrite decide_True.
    + assert (E1 : l_get p1 i = l_get p0 i).
      { subst p1. destruct (l_get p0 k) as [now|]; [|done]. destruct (now.1 =? e.1); [|done].
        rewrite l_get_remove by done. by rewrite decide_False. }
      by rewrite E1.
Qed.

(** Dropping pages that are in the file; a page staged since has another stamp and stays. *)
Lemma drain_done_shows batch s A : shows s A → NoDup batch.*1 →
  (∀ i e, l_get batch i = Some e →
     open (aead g) (block_aad i) (block (file s) i) = inl e.2 ∧
     ∀ now, l_get (pending s) i = Some now → now.1 = e.1 → now = e) →
  iowp (drain_done batch) (λ _ s', shows s' A ∧ file s' = file s ∧ header s' = header s ∧
    ∀ i, l_get (pending s') i = match l_get (pending s) i with
         | Some now => match l_get batch i with
                       | Some e => if now.1 =? e.1 then None else Some now
                       | None => Some now end
         | None => None end) (λ _, False) s.
Proof.
  intros Hs Hn Hb. unfold drain_done. apply iowp_update.
  assert (Hg := λ i, drain_done_get batch (pending s) i (sw_sorted _ _ Hs) Hn). cbn zeta in Hg.
  set (p := fold_left _ batch (pending s)) in *.
  split; [|split_and!; [done..|apply Hg]].
  assert (Hsub : ∀ i q, l_get p i = Some q → l_get (pending s) i = Some q).
  { intros i q E. destruct (Hg i) as [_ Hi]. rewrite Hi in E. destruct (l_get (pending s) i) as [now|]; [|done].
    destruct (l_get batch i) as [e|]; [|done]. by destruct (now.1 =? e.1). }
  destruct Hs as [s1 s2 s3 s4 s5 s6 s7 s8 s9 s10 s11 s12]. split; try done; cbn [pending set_pending file].
  - intros i q Hi. destruct (s5 i q Hi) as [Hl Hv]. split; [done|]. unfold seen in Hv |- *. cbn [pending set_pending file].
    destruct (Hg (N.of_nat i)) as [_ Hgi]. rewrite Hgi. clear s5. destruct (l_get (pending s) (N.of_nat i)) as [now|] eqn:En; [|done].
    destruct (l_get batch (N.of_nat i)) as [e|] eqn:Ee; [|done].
    destruct (N.eqb_spec now.1 e.1) as [Ex|]; [|done]. destruct (Hb _ _ Ee) as [Ho Hu].
    rewrite Ho. destruct now as [t q']. pose proof (Hu _ En Ex) as <-. cbn in Hv. by subst q.
  - by destruct (Hg 0).
  - intros i q Hq. apply s7. apply l_get_elem; [done|]. apply Hsub. apply l_get_elem; [by destruct (Hg 0)|done].
  - intros Hm. subst p. clear -s9 Hm. rewrite (s9 Hm). induction batch; [done|]. done.
Qed.

Lemma drain_spec s A : shows s A →
  iowp (drain fate random g) (λ _ s', shows s' A ∧ pending s' = [] ∧ header s' = header s ∧
       frame (pending s).*1 (file s) (file s'))
    (λ s', ¬ healthy ∧ shows s' A ∧ header s' = header s ∧ frame (pending s).*1 (file s) (file s')) s.
Proof.
  intros Hs. unfold drain, drain_take. apply iowp_bind, iowp_asks. case_bool_decide as He.
  { apply iowp_ret. apply nil_length_inv in He. split_and!; [done..|apply frame_refl]. }
  pose proof (keys_nodup _ (sw_sorted _ _ Hs)) as Hn. apply iowp_bind.
  eapply iowp_mono; [apply (drain_write_spec (pending s) (len (p_pages A)))|..].
  - done.
  - apply Forall_forall. intros [i q] Hq. by apply (sw_keys _ _ Hs).
  - apply Hs.
  - intros [] s1 (C1 & F1 & O1). cbn beta. pose proof (shows_frame s s1 A Hs C1 F1) as Hs1.
    assert (Ep : pending s1 = pending s) by apply C1.
    eapply iowp_mono; [apply (drain_done_shows (pending s) s1 A Hs1 Hn)| |done].
    + intros i e Ei. split; [by apply O1, l_get_elem; [apply Hs|]|]. rewrite Ep. intros now En _. congruence.
    + intros [] s2 (Hs2 & F2 & H2 & G2). split_and!; [done| | |by rewrite F2].
      * destruct (pending s2) as [|[i q] l] eqn:E2; [done|exfalso]. specialize (G2 i). rewrite Ep in G2.
        cbn [l_get] in G2. rewrite decide_True in G2 by done.
        destruct (l_get (pending s) i) as [now|]; [|done]. by rewrite N.eqb_refl in G2.
      * rewrite H2. apply C1.
  - intros s1 (Hh & C1 & F1). split_and!; [done|by apply (shows_frame s)|apply C1|done].
Qed.
End spec.
