(* ===== verification/BackendFile.v ===== *)
(** * The encrypted file layer as a plain file: what redb's calls do

    [flat A] is the file redb sees.  Every call is specified against it: a read is a
    slice, a write a splice, a change of length a resize; a call that fails on a device,
    random source or cipher failure is told apart from one that fails by its own rules. *)
From S2P Require Import Prelude Order Redb B64 Cipher Layout Disk Backend BackendSpec.
Import ListRedb.
Local Open Scope N_scope.

Lemma concat_window (ps : list bytes) (w : N) f c : Forall (λ b, len b = w) ps → (f + c <= length ps)%nat →
  concat (take c (drop f ps)) = sl (N.of_nat f * w) (N.of_nat c * w) (concat ps).
Proof.
  intros Hw Hl. rewrite <-(take_drop f ps) at 2. rewrite <-(take_drop c (drop f ps)) at 2.
  assert (Hw1 : Forall (λ b, len b = w) (take f ps)) by by apply Forall_take.
  assert (Hw2 : Forall (λ b, len b = w) (take c (drop f ps))) by by apply Forall_take, Forall_drop.
  rewrite !concat_app.
  assert (L1 : len (concat (take f ps)) = N.of_nat f * w).
  { rewrite (len_concat _ w Hw1). unfold len. rewrite length_take. f_equal. lia. }
  assert (L2 : len (concat (take c (drop f ps))) = N.of_nat c * w).
  { rewrite (len_concat _ w Hw2). unfold len. rewrite length_take, length_drop. f_equal. lia. }
  rewrite sl_app_r, L1, N.sub_diag by lia. rewrite sl_app_l by lia. by rewrite <-L2, sl_all.
Qed.

Lemma len_zeros n : len (zeros n) = n.
Proof. unfold zeros, len. rewrite length_replicate. lia. Qed.

(** Equal parts put over others. *)
Definition put {X} (i : nat) (new l : list X) : list X := take i l ++ new ++ drop (i + length new) l.

Lemma put_lookup {X} i (new l : list X) k : (i + length new <= length l)%nat →
  put i new l !! k = if decide (i <= k < i + length new)%nat then new !! (k - i)%nat else l !! k.
Proof.
  intros Hl. unfold put. destruct (decide (k < i)%nat) as [Hk|Hk].
  - rewrite lookup_app_l by (rewrite length_take; lia). rewrite decide_False by lia. by apply lookup_take_lt.
  - rewrite lookup_app_r by (rewrite length_take; lia). rewrite length_take_le by lia. case_decide.
    + by rewrite lookup_app_l by lia.
    + rewrite lookup_app_r, lookup_drop by lia. f_equal. lia.
Qed.

Lemma put_length {X} i (new l : list X) : (i + length new <= length l)%nat → length (put i new l) = length l.
Proof. intros Hl. unfold put. rewrite !length_app, length_take_le, length_drop by lia. lia. Qed.

Lemma put_snoc {X} i (new l : list X) x : (i + length new < length l)%nat →
  put i (new ++ [x]) l = <[(i + length new)%nat := x]> (put i new l).
Proof.
  intros Hl. apply list_eq. intros k. rewrite put_lookup by (rewrite length_app; simpl; lia). rewrite length_app.
  cbn [length]. destruct (decide (k = i + length new)%nat) as [->|Hk].
  - rewrite list_lookup_insert_eq by (rewrite put_length; lia). rewrite decide_True by lia.
    rewrite lookup_app_r by lia. by replace (i + length new - i - length new)%nat with 0%nat by lia.
  - rewrite list_lookup_insert_ne by done. rewrite put_lookup by lia.
    destruct (decide (i <= k < i + length new)%nat).
    + rewrite decide_True by lia. by rewrite lookup_app_l by lia.
    + by rewrite decide_False by lia.
Qed.

(** A splice inside a file. *)
Lemma splice_inside off d l : off + len d <= len l →
  splice off d l = take (N.to_nat off) l ++ d ++ drop (N.to_nat off + length d) l.
Proof. unfold len, splice. intros Hl. by replace (N.to_nat off - length l)%nat with 0%nat by lia. Qed.

Lemma splice_app_l off d a b : off + len d <= len a → splice off d (a ++ b) = splice off d a ++ b.
Proof.
  intros Hl. rewrite !splice_inside; [|done|unfold len in *; rewrite length_app; lia]. unfold len in Hl.
  rewrite take_app_le by lia. rewrite drop_app_le by lia. by rewrite <-!app_assoc.
Qed.

Lemma splice_app_r off d a b : len a <= off → splice off d (a ++ b) = a ++ splice (off - len a) d b.
Proof.
  unfold len. intros Hl. apply list_eq. intros i. rewrite splice_lookup. rewrite length_app.
  destruct (decide (i < length a)%nat) as [Hi|Hi].
  - rewrite decide_True by lia. rewrite decide_True by lia. by rewrite !lookup_app_l by lia.
  - rewrite (lookup_app_r a (splice _ _ _)), splice_lookup, (lookup_app_r a b) by lia.
    repeat case_decide; try lia; try done. f_equal. lia.
Qed.

Lemma splice_nil off l : off <= len l → splice off [] l = l.
Proof. intros Ho. rewrite splice_inside by (unfold len in *; simpl; lia). simpl. by rewrite Nat.add_0_r, take_drop. Qed.

(** Two neighbouring splices are one. *)
Lemma splice_splice off d e l : off + len d + len e <= len l → splice (off + len d) e (splice off d l) = splice off (d ++ e) l.
Proof.
  unfold len. intros Hl. apply list_eq. intros i. rewrite !splice_lookup, splice_length, length_app.
  destruct (decide (i < N.to_nat off)%nat).
  { by do 3 rewrite decide_True by lia. }
  destruct (decide (i < N.to_nat off + length d)%nat).
  { do 3 rewrite decide_True by lia. by rewrite lookup_app_l by lia. }
  rewrite !(decide_False (P := (i < N.to_nat (off + _))%nat)) by lia.
  destruct (decide (i < N.to_nat off + (length d + length e))%nat).
  - rewrite decide_True by lia. rewrite lookup_app_r by lia. f_equal. lia.
  - by rewrite decide_False by lia.
Qed.

Lemma concat_put (new ps : list bytes) (w : N) i : Forall (λ b, len b = w) ps → Forall (λ b, len b = w) new →
  (i + length new <= length ps)%nat → concat (put i new ps) = splice (N.of_nat i * w) (concat new) (concat ps).
Proof.
  intros Hw Hn Hl. unfold put. rewrite !concat_app.
  rewrite <-(take_drop i ps) at 3. rewrite <-(take_drop (length new) (drop i ps)) at 1. rewrite !concat_app.
  assert (L1 : len (concat (take i ps)) = N.of_nat i * w).
  { rewrite (len_concat _ w) by by apply Forall_take. unfold len. rewrite length_take. f_equal. lia. }
  assert (L2 : len (concat (take (length new) (drop i ps))) = len (concat new)).
  { rewrite !(len_concat _ w) by (done || by apply Forall_take, Forall_drop). unfold len. rewrite length_take, length_drop. f_equal. lia. }
  rewrite splice_app_r by lia. f_equal. rewrite L1, N.sub_diag. rewrite splice_app_l by lia. rewrite drop_drop. f_equal.
  rewrite splice_inside by lia. change (N.to_nat 0) with 0%nat. rewrite take_0, drop_ge by (unfold len in L2; lia). by rewrite app_nil_r.
Qed.

(** A buffer of whole pages and its pages. *)
Definition pages_of (data : bytes) : list bytes := page_of data <$> indices (len data / PAGE).

Lemma length_indices n : length (indices n) = N.to_nat n.
Proof. unfold indices. by rewrite length_fmap, length_seq. Qed.

Lemma pages_of_width data : Forall (λ b, len b = PAGE) (pages_of data).
Proof.
  apply Forall_fmap, Forall_forall. intros i Hi%elem_of_indices. cbn beta. unfold page_of. apply sl_len.
  pose proof (N.Div0.mul_div_le (len data) PAGE). nia.
Qed.

Lemma pages_of_concat data : len data mod PAGE = 0 → concat (pages_of data) = data.
Proof.
  intros Hm. set (n := len data / PAGE). assert (Hd : len data = n * PAGE).
  { pose proof (N.div_mod (len data) PAGE ltac:(done)). subst n. lia. }
  apply list_eq. intros i. destruct (decide (i < length data)%nat) as [Hi|Hi].
  - pose proof (N.div_mod (N.of_nat i) PAGE ltac:(done)) as Ei. pose proof (N.mod_lt (N.of_nat i) PAGE ltac:(done)).
    set (q := N.of_nat i / PAGE) in *. set (r := N.of_nat i mod PAGE) in *.
    assert (Hq : q < n) by (unfold len in Hd; unfold PAGE in *; lia).
    assert (Hp : pages_of data !! N.to_nat q = Some (page_of data q)).
    { unfold pages_of. rewrite list_lookup_fmap. fold n. unfold indices. rewrite list_lookup_fmap, lookup_seq_lt by lia.
      cbn. by rewrite N2Nat.id. }
    pose proof (sl_concat _ PAGE _ _ (pages_of_width data) Hp) as Es. rewrite N2Nat.id in Es.
    apply (f_equal (λ l, l !! N.to_nat r)) in Es. unfold page_of in Es. rewrite !sl_lookup in Es. rewrite !decide_True in Es by lia.
    by replace (N.to_nat (q * PAGE) + N.to_nat r)%nat with i in Es by lia.
  - rewrite !lookup_ge_None_2; [done|lia|].
    pose proof (len_concat _ PAGE (pages_of_width data)) as Hc. unfold len at 2 in Hc. unfold pages_of in Hc at 2.
    rewrite length_fmap, length_indices in Hc. fold n in Hc. unfold len in Hc, Hd. lia.
Qed.

Section file.
Context `{CipherLib} (fate : nat → option bytes) (random : nat → nat → outcome CryptoError bytes) (g : Settings).
Abbreviation ge := (geo g).
Abbreviation st := (strd g).
Abbreviation healthy := (healthy fate random g).
Abbreviation shows := (shows g).

Definition top (A : Plain) : bytes := p_header A ++ zeros (LOGICAL_HEADER - REDB_HEADER_LEN).
Definition flat (A : Plain) : bytes := top A ++ concat (p_pages A).

Lemma shows_width s A : shows s A → Forall (λ b, len b = PAGE) (p_pages A).
Proof.
  intros Hs. apply Forall_forall. intros p (i & Hi)%list_elem_of_lookup. by apply (sw_pages _ _ _ Hs) in Hi as [? _].
Qed.

Lemma shows_top s A : shows s A → len (top A) = LOGICAL_HEADER.
Proof.
  intros Hs. unfold top, len. rewrite length_app, Nat2N.inj_add. fold (len (p_header A)).
  fold (len (zeros (LOGICAL_HEADER - REDB_HEADER_LEN))). by rewrite len_zeros, (sw_hlen _ _ _ Hs).
Qed.

Lemma shows_len s A : shows s A → len (flat A) = backend_len s.
Proof.
  intros Hs. unfold flat, backend_len. rewrite len_app, (shows_top s A Hs), (len_concat _ PAGE (shows_width s A Hs)).
  rewrite (sw_area _ _ _ Hs). by rewrite (sw_len _ _ _ Hs).
Qed.

Lemma shows_same s s' A : shows s A → core_eq s s' → file s' = file s → shows s' A.
Proof. intros Hs C F. eapply shows_frame; [done..|]. rewrite F. apply frame_refl. Qed.

(** ** Reading *)

Lemma block_slice f first count i : i < count → block g f (first + i) = sl (i * st) st (sl (block_offset ge first) (count * st) f).
Proof. intros Hi. rewrite sl_sl by nia. unfold block. by rewrite block_offset_add. Qed.

Lemma block_offset_mono i j : i <= j → block_offset ge i <= block_offset ge j.
Proof. intros Hij. unfold block_offset. by apply N.add_le_mono_l, N.mul_le_mono_r. Qed.

Lemma indices_lookup n k : (k < N.to_nat n)%nat → indices n !! k = Some (N.of_nat k).
Proof. intros Hk. unfold indices. rewrite list_lookup_fmap, lookup_seq_lt by done. done. Qed.

Lemma read_blocks_spec s A first count within n : shows s A → first + count <= len (p_pages A) →
  (∀ i, i < count → l_get (pending s) (first + i) = None) → within + n <= count * PAGE →
  iowp (read_blocks fate g first count within n)
    (λ b s', b = sl (first * PAGE + within) n (concat (p_pages A)) ∧ shows s' A)
    (λ s', ¬ healthy ∧ shows s' A) s.
Proof.
  intros Hs Hb Hp Hn. unfold read_blocks. apply iowp_bind. eapply iowp_mono; [apply (file_read_spec _ random g)|..].
  { rewrite <-block_offset_add. etrans; [|apply (sw_file _ _ _ Hs)]. by apply block_offset_mono. }
  2:{ intros s1 (Hh & C & F). split; [done|]. by eapply shows_same. }
  intros buf s1 (C & F & ->). cbn beta. apply iowp_bind. eapply iowp_mono.
  { apply (iowp_collect (indices count) _
      (λ dn ps s', s' = s1 ∧ ps = take (length dn) (drop (N.to_nat first) (p_pages A))) (λ _, False)); [|done].
    intros dn ps i rest s2 El [-> ->].
    assert (Hk : (length dn < N.to_nat count)%nat).
    { rewrite <-length_indices, El, length_app. simpl. lia. }
    assert (Hi : i = N.of_nat (length dn)).
    { pose proof (indices_lookup count (length dn) Hk) as Hi. rewrite El, lookup_app_r, Nat.sub_diag in Hi by done. by injection Hi. }
    assert (Hlt : (N.to_nat first + length dn < length (p_pages A))%nat) by (unfold len in Hb; lia).
    destruct (lookup_lt_is_Some_2 _ _ Hlt) as [p Hpg].
    destruct (sw_pages _ _ _ Hs _ _ Hpg) as [_ Hv].
    replace (N.of_nat (N.to_nat first + length dn)) with (first + i) in Hv by lia.
    unfold seen in Hv. rewrite Hp, (block_slice _ _ count) in Hv by lia.
    unfold iowp. rewrite open_block_spec, Hv. split; [done|].
    rewrite length_app. simpl. rewrite Nat.add_1_r. symmetry. apply take_S_r. by rewrite lookup_drop. }
  2: done.
  intros ps s2 [-> ->]. apply iowp_ret. split; [|by eapply shows_same].
  rewrite length_indices, (concat_window _ PAGE); [|by eapply shows_width|unfold len in Hb; lia].
  rewrite sl_sl by lia. f_equal; lia.
Qed.

Lemma page_span rel n : 0 < n → let first := rel / PAGE in let count := (rel + n - 1) / PAGE - first + 1 in
  rel = first * PAGE + rel mod PAGE ∧ rel mod PAGE + n <= count * PAGE ∧
  (∀ k, rel + n <= k * PAGE → first + count <= k).
Proof.
  intros Hn first count. subst first count.
  pose proof (N.div_mod rel PAGE ltac:(done)) as E. pose proof (N.mod_lt rel PAGE ltac:(done)).
  pose proof (N.div_mod (rel + n - 1) PAGE ltac:(done)) as E2. pose proof (N.mod_lt (rel + n - 1) PAGE ltac:(done)).
  assert (rel / PAGE <= (rel + n - 1) / PAGE) by (apply N.Div0.div_le_mono; lia).
  set (f := rel / PAGE) in *. set (l := (rel + n - 1) / PAGE) in *. unfold PAGE in *. split_and!; [lia|lia|].
  intros k Hk. assert (l < k) by (subst l; apply N.Div0.div_lt_upper_bound; lia). lia.
Qed.

Lemma read_pages_spec s A rel n : shows s A → 0 < n → rel + n <= len (p_pages A) * PAGE →
  iowp (read_pages fate random g rel n)
    (λ b s', b = sl rel n (concat (p_pages A)) ∧ shows s' A) (λ s', ¬ healthy ∧ shows s' A) s.
Proof.
  intros Hs Hn Hb. destruct (page_span rel n Hn) as (Hrel & Hw & Hk). specialize (Hk _ Hb).
  unfold read_pages. cbn zeta. set (first := rel / PAGE) in *. set (count := (rel + n - 1) / PAGE - first + 1) in *.
  assert (Hc : ∀ s, shows s A → (∀ i, i < count → l_get (pending s) (first + i) = None) →
    iowp (read_blocks fate g first count (rel mod PAGE) n)
      (λ b s', b = sl rel n (concat (p_pages A)) ∧ shows s' A) (λ s', ¬ healthy ∧ shows s' A) s).
  { intros s' Hs' Hp. eapply iowp_mono; [by apply read_blocks_spec| |done]. intros b s2 [-> ?]. by rewrite <-Hrel. }
  destruct (parallel_seal g) eqn:Em.
  2:{ apply Hc; [done|]. intros i _. by rewrite (sw_mode _ _ _ Hs Em). }
  apply iowp_bind, iowp_asks. case_bool_decide as He.
  { apply Hc; [done|]. intros i _. by apply nil_length_inv in He as ->. }
  destruct (N.eqb_spec count 1) as [E1|_].
  - destruct (l_get (pending s) first) as [[t p]|] eqn:Eg.
    + apply iowp_ret. split; [|done].
      destruct (lookup_lt_is_Some_2 (p_pages A) (N.to_nat first)) as [q Hq]; [unfold len in Hk; lia|].
      destruct (sw_pages _ _ _ Hs _ _ Hq) as [Hl Hv]. rewrite N2Nat.id in Hv. unfold seen in Hv. rewrite Eg in Hv. subst q.
      rewrite Hrel at 2. rewrite <-(sl_sl (first * PAGE) PAGE) by lia. f_equal.
      rewrite <-(N2Nat.id first). symmetry. apply sl_concat; [by eapply shows_width|done].
    + apply Hc; [done|]. intros i Hi. by replace (first + i) with first by lia.
  - destruct (existsb _ _) eqn:Ex.
    + apply iowp_bind. eapply iowp_mono; [by apply drain_spec| |].
      * intros [] s1 (Hs1 & Hp & _). apply Hc; [done|]. intros i _. by rewrite Hp.
      * intros s1 (Hh & Hs1 & _). done.
    + apply Hc; [done|]. intros i Hi. destruct (l_get (pending s) (first + i)) eqn:Eg; [|done].
      assert (existsb (λ i, bool_decide (is_Some (l_get (pending s) (first + i)))) (indices count) = true); [|congruence].
      apply existsb_exists. exists i. split; [by apply list_elem_of_In, elem_of_indices|]. by rewrite Eg.
Qed.

Lemma read_spec s A off n : shows s A → off + n <= len (flat A) →
  iowp (read fate random g off n) (λ b s', b = sl off n (flat A) ∧ shows s' A) (λ s', ¬ healthy ∧ shows s' A) s.
Proof.
  intros Hs Hb. unfold read. destruct (N.eqb_spec n 0) as [->|Hn]; [by apply iowp_ret|].
  apply iowp_bind, iowp_asks. rewrite <-(shows_len s A Hs). destruct (N.ltb_spec (len (flat A)) (off + n)); [lia|].
  apply iowp_bind, iowp_asks. cbn zeta. pose proof (shows_top s A Hs) as Ht.
  set (k := if off <? LOGICAL_HEADER then N.min (LOGICAL_HEADER - off) n else 0).
  assert (Hk : k <= n ∧ (off < LOGICAL_HEADER → off + k <= LOGICAL_HEADER ∧ (k < n → off + k = LOGICAL_HEADER)) ∧
               (LOGICAL_HEADER <= off → k = 0)).
  { subst k. destruct (N.ltb_spec off LOGICAL_HEADER); lia. }
  destruct Hk as (Hk1 & Hk2 & Hk3).
  assert (Eh : read_header (header s) off k = sl off k (flat A)).
  { unfold read_header. rewrite (sw_header _ _ _ Hs). fold (top A). unfold flat.
    destruct (N.lt_ge_cases off LOGICAL_HEADER) as [Hl|Hl].
    - rewrite sl_app_l; [done|]. rewrite Ht. by apply Hk2.
    - by rewrite Hk3. }
  rewrite Eh. destruct (N.eqb_spec k n) as [->|Hkn]; [by apply iowp_ret|].
  assert (Hge : LOGICAL_HEADER <= off + k) by (destruct (N.lt_ge_cases off LOGICAL_HEADER); [rewrite (proj2 (Hk2 ltac:(done)))|]; lia).
  assert (Hlen : len (flat A) = LOGICAL_HEADER + len (p_pages A) * PAGE).
  { unfold flat. by rewrite len_app, Ht, (len_concat _ PAGE (shows_width s A Hs)). }
  apply iowp_bind. eapply iowp_mono; [apply (read_pages_spec s A)|..]; [done|lia|lia| |done].
  intros b s' [-> Hs']. apply iowp_ret. split; [|done]. rewrite (sl_split off n k) by done. f_equal.
  unfold flat. rewrite sl_app_r by lia. by rewrite Ht.
Qed.
End file.
