(* ===== verification/BackendHeader.v ===== *)
(** * The encrypted file layer: redb's header in sealed pieces

    Loading gives the header that was written; a write of the header keeps the pieces
    and the memory together; a write that tears leaves a header in which at most one
    commit slot is lost and the first bytes are old or new. *)
From S2P Require Import Prelude Order Redb B64 Cipher Layout Disk Backend BackendSpec.
Import ListRedb.
Local Open Scope N_scope.

Lemma sl_0_l off l : sl off 0 l = [].
Proof. by unfold sl. Qed.

Lemma list_sl_eq (a b : bytes) : len a = 320 → len b = 320 → sl 0 64 a = sl 0 64 b → sl 64 128 a = sl 64 128 b →
  sl 192 128 a = sl 192 128 b → a = b.
Proof.
  intros Ha Hb E1 E2 E3. rewrite <-(sl_all a), <-(sl_all b), Ha, Hb.
  rewrite (sl_split 0 320 64 a), (sl_split 0 320 64 b) by lia.
  rewrite (sl_split (0 + 64) (320 - 64) 128 a), (sl_split (0 + 64) (320 - 64) 128 b) by lia.
  f_equal; [done|]. f_equal; done.
Qed.

Section header.
Context `{CipherLib} (fate : nat → option bytes) (random : nat → nat → outcome CryptoError bytes) (g : Settings).
Abbreviation healthy := (healthy fate random g).
Abbreviation loaded := (loaded g).
Abbreviation pieces := (pieces g).
Abbreviation plain_piece := (plain_piece g).

(** What authenticity means for bytes nobody sealed: zeros, the noise of a new file, and
    a piece that was torn do not open. *)
Definition zeros_inert : Prop := ∀ k, ∃ e, open (aead g) (piece_aad k) (zeros PIECE_LEN) = inr e.
Definition noise_inert : Prop := ∀ i r, random i (N.to_nat PIECES_LEN) = inl r → len r = PIECES_LEN ∧
  ∀ k copy, copy < 4 → ∃ e, open (aead g) (piece_aad k) (sl (copy * PIECE_LEN) PIECE_LEN r) = inr e.
Definition torn_inert : Prop := ∀ i x d k, fate i = Some x → len d = PIECE_LEN →
  torn d x = d ∨ ∃ e, open (aead g) (piece_aad k) (torn d x) = inr e.

(** ** Loading *)

Definition load_first (f : bytes) (h : Header) : Header :=
  match better (better None 0 (Some (loaded f 0 0))) 1 (Some (loaded f 1 0)) with
  | Some (seq, copy, p) => {| h_bytes := splice 0 p (h_bytes h); h_seq := seq; h_newest := copy |}
  | None => h
  end.
Definition load_one (f : bytes) (copy piece off : N) (h : Header) : Header :=
  match loaded f copy piece with Some p => put_header off (sl 0 128 p) h | None => h end.

(** The header a file gives. *)
Definition header_of (f : bytes) : Header := load_one f 3 2 192 (load_one f 2 1 64 (load_first f header_new)).

Lemma read_piece_loaded s copy piece : (∀ i, fate i = None) → copy < 4 → DATA_BASE <= len (file s) →
  ∃ r, attempt (read_piece fate g copy piece) s = (set_calls (S (calls s)) s, inl r) ∧ mjoin r = loaded (file s) copy piece.
Proof.
  intros Hf Hc Hl. unfold attempt, read_piece, file_read, mbind, IO_bind, call, asks. rewrite Hf. cbn.
  pose proof (piece_in_top copy Hc). destruct (N.leb_spec (piece_offset copy + PIECE_LEN) (len (file s))); [|lia].
  cbn. unfold loaded, blank. set (raw := sl _ _ _). destruct (forallb _ raw); [by eexists|].
  pose proof (open_in_place_spec (aead g) (piece_aad piece) raw) as Ho.
  destruct (open_in_place (aead g) (piece_aad piece) raw) as [[[a b]|e] buf].
  - destruct Ho as [-> _]. eexists. split; [done|]. cbn. unfold sl. by rewrite !Nat2N.id.
  - destruct Ho as [-> _]. by eexists.
Qed.

Lemma better_join best c p : better best c p = better best c (Some (mjoin p)).
Proof. by destruct p as [[p|]|]. Qed.

Lemma load_slot_spec s copy piece off : (∀ i, fate i = None) → copy < 4 → DATA_BASE <= len (file s) →
  load_slot fate g copy piece off s =
    (set_header (load_one (file s) copy piece off (header s)) (set_calls (S (calls s)) s), inl ()).
Proof.
  intros Hf Hc Hl. destruct (read_piece_loaded s copy piece Hf Hc Hl) as (r & E & Ej).
  unfold load_slot, mbind, IO_bind. rewrite E. unfold load_one. rewrite <-Ej. destruct s. by destruct r as [[p|]|].
Qed.

Lemma load_header_spec s : (∀ i, fate i = None) → DATA_BASE <= len (file s) → header s = header_new →
  ∃ n, load_header fate g s = (set_header (header_of (file s)) (set_calls n s), inl ()).
Proof.
  intros Hf Hl Hh. unfold load_header. unfold mbind at 1. unfold IO_bind at 1.
  destruct (read_piece_loaded s 0 0 Hf ltac:(done) Hl) as (r0 & -> & E0).
  unfold mbind at 1. unfold IO_bind at 1.
  destruct (read_piece_loaded (set_calls (S (calls s)) s) 1 0 Hf ltac:(done) Hl) as (r1 & -> & E1).
  rewrite (better_join None), (better_join _ 1), E0, E1. cbn [file set_calls calls].
  assert (E : ∀ s' : Backend, header s' = header_new → file s' = file s →
    match better (better None 0 (Some (loaded (file s) 0 0))) 1 (Some (loaded (file s) 1 0)) with
    | Some (seq, copy, p) => update (λ s, set_header {| h_bytes := splice 0 p (h_bytes (header s)); h_seq := seq; h_newest := copy |} s)
    | None => mret ()
    end s' = (set_header (load_first (file s) header_new) s', inl ())).
  { intros s' Hs' _. unfold load_first. destruct (better _ 1 _) as [[[q c] p]|].
    - unfold update. by rewrite Hs'.
    - unfold mret, IO_ret. rewrite <-Hs'. by destruct s'. }
  unfold mbind at 1. unfold IO_bind at 1. rewrite E by done.
  unfold mbind, IO_bind. rewrite load_slot_spec by done. rewrite load_slot_spec by done.
  eexists. cbn [file set_header set_calls header calls]. destruct s. done.
Qed.

Lemma overhead_le : g_overhead (geo g) <= 40.
Proof. unfold geo, geometry_of, g_overhead, overhead, nonce_len, TAG_LEN. destruct (kind (aead g)); lia. Qed.

Lemma plain_piece_slot h k off : len (h_bytes h) = REDB_HEADER_LEN → (k = 1 ∧ off = 64) ∨ (k = 2 ∧ off = 192) →
  sl 0 128 (plain_piece h k) = sl off 128 (h_bytes h).
Proof.
  intros Hl Hk. pose proof overhead_le. unfold BackendSpec.plain_piece, piece_plain, PIECE_LEN.
  assert (L : ∀ o, o + 128 <= 320 → sl 0 128 (resize (512 - g_overhead (geo g)) (sl o 128 (h_bytes h))) = sl o 128 (h_bytes h)).
  { intros o Ho. assert (E : len (sl o 128 (h_bytes h)) = 128) by (apply sl_len; unfold REDB_HEADER_LEN in Hl; lia).
    rewrite sl_resize by lia. rewrite <-E at 1. apply sl_all. }
  destruct Hk as [[-> ->]|[-> ->]]; cbn [N.eqb Pos.eqb]; apply L; lia.
Qed.

Lemma plain_piece_first h : len (h_bytes h) = REDB_HEADER_LEN → h_seq h < 2 ^ 64 →
  of_le (sl 0 8 (plain_piece h 0)) = h_seq h ∧ sl 8 64 (plain_piece h 0) = sl 0 64 (h_bytes h).
Proof.
  intros Hl Hs. pose proof overhead_le. unfold BackendSpec.plain_piece, piece_plain, PIECE_LEN. cbn [N.eqb].
  assert (L8 : len (le_bytes 8 (h_seq h)) = 8) by (unfold len; by rewrite le_bytes_length).
  assert (E : len (sl 0 64 (h_bytes h)) = 64) by (apply sl_len; unfold REDB_HEADER_LEN in Hl; lia).
  assert (LL : len (le_bytes 8 (h_seq h) ++ sl 0 64 (h_bytes h)) = 72) by (unfold len in *; rewrite length_app; lia).
  rewrite !sl_resize by lia. split.
  - rewrite sl_app_l by lia. rewrite <-L8 at 1. rewrite sl_all, of_le_bytes. by apply N.mod_small.
  - rewrite sl_app_r by lia. rewrite L8. rewrite <-E at 1. change (8 - 8) with 0. apply sl_all.
Qed.

Lemma loaded_len f copy k p : copy < 4 → DATA_BASE <= len f → loaded f copy k = Some p → 472 <= len p.
Proof.
  intros Hc Hl. unfold BackendSpec.loaded. set (raw := sl _ _ _). destruct (blank raw); [done|].
  destruct (open (aead g) (piece_aad k) raw) as [q|] eqn:Eo; [|done]. intros [= ->].
  assert (Hr : len raw = 512) by (apply sl_len; pose proof (piece_in_top copy Hc); unfold PIECE_LEN in *; lia).
  apply open_exact in Eo as (nonce & Hn & Es). unfold seal_with in Es. rewrite Hn, Nat.eqb_refl in Es. cbn [negb] in Es.
  destruct (encrypt _ _ _ _ _) as [[ct tag]|] eqn:Ee; [|done]. apply encrypt_len in Ee as [Hct Htag].
  injection Es as Es. rewrite <-Es in Hr. unfold len in *. rewrite !length_app in Hr.
  assert (length nonce <= 24)%nat by (rewrite Hn; destruct (kind (aead g)); simpl; lia). unfold TAG_LEN in Htag. lia.
Qed.

(** ** The header by its parts *)

Definition slot_of (f : bytes) (copy piece : N) : bytes :=
  match loaded f copy piece with Some p => sl 0 128 p | None => zeros 128 end.

Lemma len_splice off d l : off + len d <= len l → len (splice off d l) = len l.
Proof. unfold len. rewrite splice_length. lia. Qed.

Lemma load_first_cases f : DATA_BASE <= len f →
  load_first f header_new = header_new ∨
  ∃ c p, c < 2 ∧ loaded f c 0 = Some p ∧ len (sl 8 64 p) = 64 ∧
    load_first f header_new = {| h_bytes := splice 0 (sl 8 64 p) (zeros 320); h_seq := of_le (sl 0 8 p); h_newest := c |}.
Proof.
  intros Hl. unfold load_first, better.
  destruct (loaded f 0 0) as [p0|] eqn:E0, (loaded f 1 0) as [p1|] eqn:E1; [| | |by left].
  all: try (pose proof (loaded_len f 0 0 _ ltac:(done) Hl E0)); try (pose proof (loaded_len f 1 0 _ ltac:(done) Hl E1)).
  - right. destruct (_ <? _); [exists 1, p1|exists 0, p0]; (split_and!; [done|done|apply sl_len; lia|done]).
  - right. exists 0, p0. split_and!; [done|done|apply sl_len; lia|done].
  - right. exists 1, p1. split_and!; [done|done|apply sl_len; lia|done].
Qed.

Lemma load_one_bytes f copy k off h : copy < 4 → DATA_BASE <= len f → len (h_bytes h) = 320 → off + 128 <= 320 →
  sl off 128 (h_bytes h) = zeros 128 →
  let h' := load_one f copy k off h in
  len (h_bytes h') = 320 ∧ h_seq h' = h_seq h ∧ h_newest h' = h_newest h ∧ sl off 128 (h_bytes h') = slot_of f copy k ∧
  ∀ o n, o + n <= 320 → o + n <= off ∨ off + 128 <= o → sl o n (h_bytes h') = sl o n (h_bytes h).
Proof.
  intros Hc Hl Hh Ho Hz. unfold load_one, slot_of. destruct (loaded f copy k) as [p|] eqn:E; [|done].
  pose proof (loaded_len _ _ _ _ Hc Hl E). assert (Hp : len (sl 0 128 p) = 128) by (apply sl_len; lia).
  cbn [h_bytes put_header h_seq h_newest]. split_and!; [|done|done| |].
  - rewrite len_splice; lia.
  - rewrite sl_splice_in by lia. rewrite N.sub_diag. rewrite <-Hp at 1. apply sl_all.
  - intros o n Hon Hout. apply sl_splice_out; [rewrite Hp; lia|lia].
Qed.

Lemma sl_zeros o n k : o + n <= k → sl o n (zeros k) = zeros n.
Proof. intros Hb. unfold sl, zeros. rewrite drop_replicate, take_replicate. f_equal. lia. Qed.

(** What a file gives, part by part. *)
Lemma header_of_parts f : DATA_BASE <= len f →
  let h := header_of f in
  len (h_bytes h) = 320 ∧ sl 64 128 (h_bytes h) = slot_of f 2 1 ∧ sl 192 128 (h_bytes h) = slot_of f 3 2 ∧
  sl 0 64 (h_bytes h) = sl 0 64 (h_bytes (load_first f header_new)) ∧
  h_seq h = h_seq (load_first f header_new) ∧ h_newest h = h_newest (load_first f header_new).
Proof.
  intros Hl. unfold header_of. set (h0 := load_first f header_new).
  assert (H0 : len (h_bytes h0) = 320 ∧ ∀ o n, 64 <= o → o + n <= 320 → sl o n (h_bytes h0) = zeros n).
  { subst h0. destruct (load_first_cases f Hl) as [->|(c & p & Hc & _ & Hp & ->)]; cbn [h_bytes].
    - split; [done|]. intros o n _ Ho. by apply sl_zeros.
    - assert (len (zeros 320) = 320) as Hz by done. split; [rewrite len_splice; lia|]. intros o n Ho Hn.
      rewrite sl_splice_out by lia. by apply sl_zeros. }
  destruct H0 as [L0 Z0].
  destruct (load_one_bytes f 2 1 64 h0 ltac:(done) Hl L0 ltac:(done)) as (L1 & S1 & N1 & B1 & O1); [by apply Z0|].
  set (h1 := load_one f 2 1 64 h0) in *.
  destruct (load_one_bytes f 3 2 192 h1 ltac:(done) Hl L1 ltac:(done)) as (L2 & S2 & N2 & B2 & O2).
  { rewrite O1 by lia. by apply Z0. }
  split_and!; [done| |done| |congruence|congruence].
  - rewrite O2 by lia. done.
  - rewrite O2 by lia. by rewrite O1 by lia.
Qed.

Lemma slot_loaded f h copy k off : len (h_bytes h) = 320 → (k = 1 ∧ off = 64) ∨ (k = 2 ∧ off = 192) →
  slot g f h copy k off → slot_of f copy k = sl off 128 (h_bytes h).
Proof.
  intros Hl Hk [E|[E Z]]; unfold slot_of; rewrite E; [|done]. by apply plain_piece_slot.
Qed.

Lemma load_first_pieces f h : DATA_BASE <= len f → len (h_bytes h) = 320 → firsts g f h →
  let h' := load_first f header_new in
  sl 0 64 (h_bytes h') = sl 0 64 (h_bytes h) ∧ h_seq h' = h_seq h ∧ h_newest h' = h_newest h.
Proof.
  intros Hl Hb [p1 p2 p3 p4]. cbn zeta. destruct (plain_piece_first h Hb p2) as [Es E64].
  assert (Hsl : sl 0 64 (splice 0 (sl 0 64 (h_bytes h)) (zeros 320)) = sl 0 64 (h_bytes h)).
  { assert (Hn : len (sl 0 64 (h_bytes h)) = 64) by (apply sl_len; lia). rewrite sl_splice_in by lia.
    rewrite N.sub_diag. rewrite <-Hn at 1. apply sl_all. }
  unfold load_first, better. assert (h_newest h = 0 ∨ h_newest h = 1) as [En|En] by lia; rewrite En in *; cbn [N.lxor] in p4.
  - change (N.lxor 0 1) with 1 in p4. destruct p3 as [E0|(E0 & Hs0 & _ & Hz)]; rewrite E0.
    + destruct (loaded f 1 0) as [q|].
      * specialize (p4 q eq_refl). rewrite Es. destruct (N.ltb_spec (h_seq h) (of_le (sl 0 8 q))); [lia|].
        cbn [h_bytes h_seq h_newest header_new]. rewrite E64. done.
      * cbn [h_bytes h_seq h_newest header_new]. rewrite E64, Es. done.
    + destruct (loaded f 1 0) as [q|]; [specialize (p4 q eq_refl); lia|].
      cbn [h_bytes h_seq h_newest header_new]. rewrite Hz, Hs0. done.
  - change (N.lxor 1 1) with 0 in p4. destruct p3 as [E0|(_ & _ & ? & _)]; [|done]. rewrite E0.
    destruct (loaded f 0 0) as [q|].
    + specialize (p4 q eq_refl). rewrite Es. destruct (N.ltb_spec (of_le (sl 0 8 q)) (h_seq h)); [|lia].
      cbn [h_bytes h_seq h_newest header_new]. rewrite E64. done.
    + cbn [h_bytes h_seq h_newest header_new]. rewrite E64, Es. done.
Qed.

(** Loading gives back the header whose pieces are in the file. *)
Lemma header_of_pieces f h : DATA_BASE <= len f → len (h_bytes h) = 320 → pieces f h → header_of f = h.
Proof.
  intros Hl Hb Hp. destruct (header_of_parts f Hl) as (L & S1 & S2 & F & Q & N0).
  destruct (load_first_pieces f h Hl Hb (pc_firsts _ _ _ Hp)) as (F' & Q' & N').
  assert (E : h_bytes (header_of f) = h_bytes h).
  { apply list_sl_eq; [done|done|congruence|..].
    - rewrite S1. apply slot_loaded; [done|by left|apply Hp].
    - rewrite S2. apply slot_loaded; [done|by right|apply Hp]. }
  destruct (header_of f), h. cbn in *. congruence.
Qed.

(** ** Writing *)

(** Only the pieces of the header area may differ, and of them only [copy]. *)
Record kept (copy : N) (f f' : bytes) : Prop := {
  kp_len : len f' = len f;
  kp_data : ∀ o n, DATA_BASE <= o → o + n <= len f → sl o n f' = sl o n f;
  kp_other : ∀ c k, c < 4 → c ≠ copy → loaded f' c k = loaded f c k;
}.

Lemma kept_refl copy f : kept copy f f.
Proof. by split. Qed.

Lemma kept_splice copy f d : copy < 4 → DATA_BASE <= len f → len d = PIECE_LEN → kept copy f (splice (piece_offset copy) d f).
Proof.
  intros Hc Hl Hd. pose proof (piece_in_top copy Hc). split.
  - rewrite len_splice; [done|]. lia.
  - intros o n Ho Hn. apply sl_splice_out; lia.
  - intros c k Hc' Hne. unfold BackendSpec.loaded. pose proof (piece_in_top c Hc'). rewrite sl_splice_out; [done| |lia].
    rewrite Hd. unfold piece_offset, PIECE_LEN in *. lia.
Qed.

Lemma loaded_splice copy k f d : copy < 4 → DATA_BASE <= len f → len d = PIECE_LEN →
  loaded (splice (piece_offset copy) d f) copy k =
    if blank d then None else match open (aead g) (piece_aad k) d with inl p => Some p | inr _ => None end.
Proof.
  intros Hc Hl Hd. unfold BackendSpec.loaded. rewrite sl_splice_in by lia. rewrite N.sub_diag, <-Hd, sl_all. done.
Qed.

Lemma blank_zeros d : blank d = true → d = zeros (len d).
Proof.
  unfold blank, zeros, len. rewrite forallb_forall, Nat2N.id. intros Hb. symmetry. apply replicate_as_Forall.
  split; [done|]. apply Forall_forall. intros b Hbd%list_elem_of_In. specialize (Hb b Hbd). by apply bool_decide_eq_true in Hb as ->.
Qed.

Lemma plain_piece_len h k : len (h_bytes h) = 320 → len (plain_piece h k) = PIECE_LEN - g_overhead (geo g).
Proof. intros _. unfold BackendSpec.plain_piece, piece_plain, len. rewrite resize_length. lia. Qed.

Lemma write_piece_spec s copy k h : zeros_inert → copy < 4 → DATA_BASE <= len (file s) → len (h_bytes h) = 320 →
  iowp (write_piece fate random g copy k h)
    (λ _ s', core_eq s s' ∧ kept copy (file s) (file s') ∧ loaded (file s') copy k = Some (plain_piece h k))
    (λ s', ¬ healthy ∧ core_eq s s' ∧ kept copy (file s) (file s') ∧
       (torn_inert → loaded (file s') copy k = Some (plain_piece h k) ∨ loaded (file s') copy k = None ∨
                     loaded (file s') copy k = loaded (file s) copy k)) s.
Proof.
  intros Hz Hc Hl Hb. unfold write_piece. apply iowp_bind. fold (plain_piece h k).
  eapply iowp_mono; [apply (seal_into_spec fate)|..].
  { rewrite plain_piece_len by done. unfold geo, geometry_of. cbn [g_overhead]. pose proof overhead_le as Ho.
    unfold geo, geometry_of in Ho. cbn [g_overhead] in Ho. unfold PIECE_LEN. lia. }
  { rewrite plain_piece_len by done. unfold PAGE, PIECE_LEN. lia. }
  2:{ intros s' (Hh & C & F). rewrite F. split_and!; [done|done|apply kept_refl|]. auto. }
  intros sealed s1 (Ho & Hs & C1 & F1 & _). cbn beta.
  assert (Hload : loaded (splice (piece_offset copy) sealed (file s)) copy k = Some (plain_piece h k)).
  { rewrite loaded_splice by done. destruct (blank sealed) eqn:Eb; [|by rewrite Ho].
    apply blank_zeros in Eb. rewrite Hs in Eb. destruct (Hz k) as [e He]. rewrite <-Eb in He. congruence. }
  eapply iowp_mono; [apply (file_write_spec fate random g)|..].
  - intros [] s2 [C2 F2]. rewrite F2, F1. split_and!; [by eapply core_eq_trans|by apply kept_splice|done].
  - intros s2 (Hh & C2 & d' & Hd & F2 & i & x & Hi & ->). rewrite F2, F1. split_and!.
    + done.
    + by eapply core_eq_trans.
    + apply kept_splice; [done|done|congruence].
    + intros Ht. destruct (Ht i x sealed k Hi ltac:(congruence)) as [E|[e He]].
      * left. by rewrite E.
      * right. left. rewrite loaded_splice by (done || congruence). rewrite He. by destruct (blank _).
Qed.

Lemma slot_ext f f' h h' copy k off : (k = 1 ∧ off = 64) ∨ (k = 2 ∧ off = 192) → sl off 128 (h_bytes h) = sl off 128 (h_bytes h') →
  loaded f' copy k = loaded f copy k → slot g f h copy k off → slot g f' h' copy k off.
Proof.
  intros Hk E El Hs. unfold slot, BackendSpec.plain_piece, piece_plain in *. rewrite El.
  destruct Hk as [[-> ->]|[-> ->]]; cbn [N.eqb Pos.eqb] in *; by rewrite <-E.
Qed.

Lemma firsts_ext f f' h h' : sl 0 64 (h_bytes h) = sl 0 64 (h_bytes h') → h_seq h = h_seq h' → h_newest h = h_newest h' →
  (∀ c, c < 2 → loaded f' c 0 = loaded f c 0) → firsts g f h → firsts g f' h'.
Proof.
  intros E Es En El [p1 p2 p3 p4]. pose proof (other_copy _ p1) as (Ho & _).
  assert (Ep : plain_piece h' 0 = plain_piece h 0).
  { unfold BackendSpec.plain_piece, piece_plain. cbn [N.eqb]. by rewrite E, Es. }
  split; rewrite <-?Es, <-?En, ?El, ?Ep, <-?E by done; done.
Qed.

Lemma write_slot_spec s h0 h copy k off : zeros_inert → DATA_BASE <= len (file s) →
  len (h_bytes h0) = 320 → len (h_bytes h) = 320 → copy < 4 → (k = 1 ∧ off = 64) ∨ (k = 2 ∧ off = 192) →
  slot g (file s) h0 copy k off →
  iowp (if bool_decide (sl off 128 (h_bytes h0) = sl off 128 (h_bytes h)) then mret () else write_piece fate random g copy k h)
    (λ _ s', core_eq s s' ∧ kept copy (file s) (file s') ∧ slot g (file s') h copy k off)
    (λ s', ¬ healthy ∧ core_eq s s' ∧ kept copy (file s) (file s') ∧
       (torn_inert → slot_of (file s') copy k = zeros 128 ∨ slot_of (file s') copy k = sl off 128 (h_bytes h0) ∨
                     slot_of (file s') copy k = sl off 128 (h_bytes h))) s.
Proof.
  intros Hz Hl H0 Hh Hc Hk Hs. case_bool_decide as E.
  - apply iowp_ret. split_and!; [done|apply kept_refl|]. by eapply slot_ext.
  - eapply iowp_mono; [by apply write_piece_spec|..].
    + intros [] s' (C & K & L). split_and!; [done..|]. by left.
    + intros s' (Hu & C & K & L). split_and!; [done..|]. intros Ht. unfold slot_of. destruct (L Ht) as [->|[->|El]].
      * right. right. by apply plain_piece_slot.
      * by left.
      * right. left. fold (slot_of (file s') copy k). unfold slot_of. rewrite El. fold (slot_of (file s) copy k). by apply slot_loaded.
Qed.

(** What a header write that failed may have left: the old first bytes, with the first
    slot in doubt and the second old, or the first new and the second in doubt; or all new. *)
Definition in_doubt (old new : bytes) (o : N) (x : bytes) : Prop := x = zeros 128 ∨ x = sl o 128 old ∨ x = sl o 128 new.
Definition torn_outcome (old new l : bytes) : Prop :=
  l = new ∨
  (sl 0 64 l = sl 0 64 old ∧
   ((in_doubt old new 64 (sl 64 128 l) ∧ sl 192 128 l = sl 192 128 old) ∨
    (sl 64 128 l = sl 64 128 new ∧ in_doubt old new 192 (sl 192 128 l)))).

Lemma torn_old f h new : DATA_BASE <= len f → len (h_bytes h) = 320 → firsts g f h →
  let old := h_bytes h in
  (in_doubt old new 64 (slot_of f 2 1) ∧ slot_of f 3 2 = sl 192 128 old) ∨
  (slot_of f 2 1 = sl 64 128 new ∧ in_doubt old new 192 (slot_of f 3 2)) →
  torn_outcome old new (h_bytes (header_of f)).
Proof.
  intros Hl Hb Hf old Hs. right. destruct (header_of_parts f Hl) as (_ & P1 & P2 & PF & _).
  rewrite P1, P2, PF. split; [|done]. by destruct (load_first_pieces _ _ Hl Hb Hf) as (-> & _).
Qed.

Lemma firsts_kept copy f f' h : 2 <= copy → firsts g f h → kept copy f f' → firsts g f' h.
Proof. intros Hc Hf K. eapply firsts_ext; [done..| |exact Hf]. intros c Hc2. apply K; lia. Qed.

Lemma slot_kept copy c f f' h k off : c < 4 → c ≠ copy → (k = 1 ∧ off = 64) ∨ (k = 2 ∧ off = 192) →
  slot g f h c k off → kept copy f f' → slot g f' h c k off.
Proof. intros Hc Hne Hk Hs K. eapply slot_ext; [done|done| |exact Hs]. by apply K. Qed.

Definition h_put (b : bytes) (h : Header) : Header := {| h_bytes := b; h_seq := h_seq h; h_newest := h_newest h |}.

(** The state apart from the file, the counters and the header. *)
Definition rest_eq (s s' : Backend) : Prop :=
  allocs s' = allocs s ∧ data_len s' = data_len s ∧ header_area s' = header_area s ∧ pending s' = pending s.

Lemma rest_eq_core s s1 s2 : rest_eq s s1 → core_eq s1 s2 → rest_eq s s2.
Proof. unfold rest_eq, core_eq. intros (?&?&?&?) (?&?&?&?&?). repeat split; congruence. Qed.

(** The bytes a header write leaves. *)
Definition header_put (off : N) (data b : bytes) : bytes :=
  let n := N.min (len data) (REDB_HEADER_LEN - off) in
  if 0 <? n then splice off (take (N.to_nat n) data) b else b.

Lemma header_put_len off data b : len b = 320 → len (header_put off data b) = 320.
Proof.
  intros Hb. unfold header_put. cbn zeta. destruct (N.ltb_spec 0 (N.min (len data) (REDB_HEADER_LEN - off))); [|done].
  rewrite len_splice; [done|]. unfold len, REDB_HEADER_LEN in *. rewrite length_take. lia.
Qed.

Definition only_top (f f' : bytes) : Prop := len f' = len f ∧ ∀ o n, DATA_BASE <= o → o + n <= len f → sl o n f' = sl o n f.

Lemma kept_top copy f f' : kept copy f f' → only_top f f'.
Proof. by intros [? ? _]. Qed.
Lemma only_top_trans f1 f2 f3 : only_top f1 f2 → only_top f2 f3 → only_top f1 f3.
Proof. intros [L1 T1] [L2 T2]. split; [congruence|]. intros o n Ho Hn. rewrite T2 by lia. by apply T1. Qed.

(** The other copy takes over with the next number. *)
Lemma firsts_next f f' h new : h_seq h + 1 < 2 ^ 64 → len (h_bytes h) = 320 → firsts g f h →
  let copy := N.lxor (h_newest h) 1 in
  let h' := {| h_bytes := new; h_seq := h_seq h + 1; h_newest := copy |} in
  kept copy f f' → loaded f' copy 0 = Some (plain_piece h' 0) → firsts g f' h'.
Proof.
  intros Hq Hl [p1 p2 p3 p4] copy h' [_ _ K] L. pose proof (other_copy _ p1) as (Ho & Hne & Hback).
  split; cbn [h_newest h_seq h']; [done|done|by left|].
  intros p. subst copy. rewrite Hback, K by (lia || done). destruct p3 as [-> |(-> & _)]; [|done].
  intros [= <-]. destruct (plain_piece_first h Hl p2) as [-> _]. lia.
Qed.

(** A lost copy changes nothing. *)
Lemma firsts_lost f f' h : firsts g f h → kept (N.lxor (h_newest h) 1) f f' →
  loaded f' (N.lxor (h_newest h) 1) 0 = None → firsts g f' h.
Proof.
  intros [p1 p2 p3 p4] [_ _ K] L. pose proof (other_copy _ p1) as (Ho & Hne & _).
  split; [done|done| |by rewrite L]. rewrite K by (lia || done). done.
Qed.

Lemma firsts_unchanged f f' h : firsts g f h → kept (N.lxor (h_newest h) 1) f f' →
  loaded f' (N.lxor (h_newest h) 1) 0 = loaded f (N.lxor (h_newest h) 1) 0 → firsts g f' h.
Proof.
  intros Hf [_ _ K] L. pose proof (fo_which _ _ _ Hf) as Hw. eapply firsts_ext; [done..| |exact Hf].
  intros c Hc. destruct (decide (c = N.lxor (h_newest h) 1)) as [->|Hne]; [done|]. apply K; [lia|done].
Qed.

Definition write_first (b new : bytes) (h : Header) : IO () :=
  if bool_decide (sl 0 64 b = sl 0 64 new) then mret () else
  let h' := {| h_bytes := new; h_seq := h_seq h + 1; h_newest := h_newest h |} in
  update (set_header h') ;;
  let copy := N.lxor (h_newest h) 1 in
  write_piece fate random g copy 0 h' ;;
  update (set_header {| h_bytes := new; h_seq := h_seq h + 1; h_newest := copy |}).

Lemma write_first_spec s h0 new : zeros_inert → DATA_BASE <= len (file s) → len (h_bytes h0) = 320 → len new = 320 →
  h_seq h0 + 1 < 2 ^ 64 → header s = h_put new h0 → firsts g (file s) h0 →
  let slots f := ∀ c k, 2 <= c < 4 → loaded f c k = loaded (file s) c k in
  iowp (write_first (h_bytes h0) new (h_put new h0))
    (λ _ s', rest_eq s s' ∧ only_top (file s) (file s') ∧ slots (file s') ∧ firsts g (file s') (header s') ∧
       h_bytes (header s') = new ∧ h_seq (header s') <= h_seq h0 + 1)
    (λ s', ¬ healthy ∧ rest_eq s s' ∧ only_top (file s) (file s') ∧ slots (file s') ∧
       (torn_inert → sl 0 64 (h_bytes (load_first (file s') header_new)) = sl 0 64 (h_bytes h0) ∨
                     sl 0 64 (h_bytes (load_first (file s') header_new)) = sl 0 64 new)) s.
Proof.
  intros Hz Hl H0 Hn Hq Hh Hf slots. unfold write_first. case_bool_decide as E.
  { apply iowp_ret. rewrite Hh. split_and!; [done|done|done| |done|cbn; lia]. eapply firsts_ext; [..|exact Hf]; done. }
  apply iowp_bind, iowp_update, iowp_bind. cbn [h_put h_newest h_seq].
  set (h' := {| h_bytes := new; h_seq := h_seq h0 + 1; h_newest := h_newest h0 |}).
  set (copy := N.lxor (h_newest h0) 1). pose proof (other_copy _ (fo_which _ _ _ Hf)) as (Hc & Hne & _). fold copy in Hc, Hne.
  assert (Epp : plain_piece h' 0 = plain_piece {| h_bytes := new; h_seq := h_seq h0 + 1; h_newest := copy |} 0) by done.
  assert (Hslots : ∀ f', kept copy (file s) f' → slots f') by (intros f' [_ _ K] c k Hck; apply K; lia).
  eapply iowp_mono; [apply (write_piece_spec (set_header h' s) copy 0 h'); [done|lia|done|done]|..]; cbn [file set_header].
  - intros [] s1 (C & K & L). apply iowp_update. destruct C as (Ca & Cd & Cr & Ch & Cp).
    cbn [allocs data_len header_area pending set_header] in *. split_and!; [done|by eapply kept_top|by apply Hslots| |done|done].
    cbn [header set_header file]. by eapply firsts_next.
  - intros s1 (Hu & C & K & L). destruct C as (Ca & Cd & Cr & Ch & Cp). split_and!.
    + done.
    + done.
    + by eapply kept_top.
    + by apply Hslots.
    + intros Ht. assert (Hl1 : DATA_BASE <= len (file s1)) by (destruct K as [-> _ _]; done).
      destruct (L Ht) as [L1|[L1|L1]].
      * right. rewrite Epp in L1. pose proof (firsts_next (file s) (file s1) h0 new Hq H0 Hf K L1) as Hf1.
        by destruct (load_first_pieces _ {| h_bytes := new; h_seq := h_seq h0 + 1; h_newest := copy |} Hl1 Hn Hf1) as (-> & _).
      * left. pose proof (firsts_lost _ _ _ Hf K L1) as Hf1. by destruct (load_first_pieces _ _ Hl1 H0 Hf1) as (-> & _).
      * left. pose proof (firsts_unchanged _ _ _ Hf K L1) as Hf1. by destruct (load_first_pieces _ _ Hl1 H0 Hf1) as (-> & _).
Qed.

Lemma write_header_range_spec s off data : zeros_inert → read_only g = false → DATA_BASE <= len (file s) →
  len (h_bytes (header s)) = 320 → h_seq (header s) + 1 < 2 ^ 64 → pieces (file s) (header s) →
  blank (drop (N.to_nat (N.min (len data) (REDB_HEADER_LEN - off))) data) = true →
  let old := h_bytes (header s) in
  let new := header_put off data old in
  iowp (write_header_range fate random g off data)
    (λ _ s', rest_eq s s' ∧ only_top (file s) (file s') ∧ pieces (file s') (header s') ∧
       h_bytes (header s') = new ∧ h_seq (header s') <= h_seq (header s) + 1)
    (λ s', ¬ healthy ∧ rest_eq s s' ∧ only_top (file s) (file s') ∧
       (torn_inert → torn_outcome old new (h_bytes (header_of (file s'))))) s.
Proof.
  intros Hz Hro Hl Hlen Hq [Hf Hs1 Hs2] Hb old new. unfold write_header_range. cbn zeta.
  unfold blank in Hb. rewrite Hb. cbn [negb]. apply iowp_bind, iowp_asks. fold old.
  fold (header_put off data old). fold new. apply iowp_bind, iowp_update. rewrite Hro. apply iowp_bind, iowp_asks.
  cbn [header set_header]. fold (h_put new (header s)). set (h := h_put new (header s)).
  set (s0 := set_header h s). assert (Hn : len new = 320) by by apply header_put_len.
  assert (R0 : rest_eq s s0) by done. change (file s) with (file s0) in Hl, Hf, Hs1, Hs2.
  apply iowp_bind. eapply iowp_mono;
    [apply (write_slot_spec s0 (header s) h 2 1 64); [done|done|done|done|done|by left|done]|..].
  2:{ intros s1 (Hu & C & K & L). split_and!; [done|by eapply rest_eq_core|by eapply kept_top|].
      intros Ht. apply torn_old; [destruct K as [-> _ _]; done|done|by apply (firsts_kept 2 (file s0))|]. left.
      split; [by apply L|]. apply slot_loaded; [done|by right|]. by apply (slot_kept 2 3 (file s0)); [done|done|right| |]. }
  intros [] s1 (C1 & K1 & S1). cbn beta. assert (Hl1 : DATA_BASE <= len (file s1)) by (destruct K1 as [-> _ _]; done).
  assert (Hf1 : firsts g (file s1) (header s)).
  { by apply (firsts_kept 2 (file s0)). }
  apply iowp_bind. eapply iowp_mono;
    [apply (write_slot_spec s1 (header s) h 3 2 192); [done|done|done|done|done|by right|]|..].
  { by apply (slot_kept 2 3 (file s0)); [done|done|right| |]. }
  2:{ intros s2 (Hu & C & K & L). split_and!.
      - done.
      - eapply rest_eq_core; [|exact C]. by eapply rest_eq_core.
      - eapply only_top_trans; by eapply kept_top.
      - intros Ht. apply torn_old; [destruct K as [-> _ _]; done|done|by apply (firsts_kept 3 (file s1))|]. right.
        split; [|by apply L]. apply (slot_loaded (file s2) h); [done|by left|]. by apply (slot_kept 3 2 (file s1)); [done|done|left| |]. }
  intros [] s2 (C2 & K2 & S2). cbn beta. assert (Hl2 : DATA_BASE <= len (file s2)) by (destruct K2 as [-> _ _]; done).
  assert (Hf2 : firsts g (file s2) (header s)).
  { by apply (firsts_kept 3 (file s1)). }
  assert (S1' : slot g (file s2) h 2 1 64) by (by apply (slot_kept 3 2 (file s1)); [done|done|left| |]).
  assert (T2 : only_top (file s0) (file s2)) by (eapply only_top_trans; by eapply kept_top).
  assert (R2 : rest_eq s s2) by (eapply rest_eq_core; [|exact C2]; by eapply rest_eq_core).
  assert (Hh2 : header s2 = h_put new (header s)).
  { destruct C1 as (_ & _ & _ & C1 & _), C2 as (_ & _ & _ & C2 & _). by rewrite C2, C1. }
  eapply iowp_mono; [apply (write_first_spec s2 (header s) new); done|..].
  - intros [] s3 (R3 & T3 & SL & F3 & B3 & Q3). split_and!.
    + unfold rest_eq in *. destruct R2 as (?&?&?&?), R3 as (?&?&?&?). repeat split; congruence.
    + by eapply only_top_trans.
    + assert (Eb : h_bytes (header s3) = h_bytes h) by by rewrite B3.
      split; [done|..].
      * apply (slot_ext (file s2) _ h); [by left|by rewrite Eb|by apply SL|done].
      * apply (slot_ext (file s2) _ h); [by right|by rewrite Eb|by apply SL|done].
    + done.
    + done.
  - intros s3 (Hu & R3 & T3 & SL & L). split_and!.
    + done.
    + unfold rest_eq in *. destruct R2 as (?&?&?&?), R3 as (?&?&?&?). repeat split; congruence.
    + by eapply only_top_trans.
    + intros Ht. assert (Hl3 : DATA_BASE <= len (file s3)) by (destruct T3 as [-> _]; done).
      destruct (header_of_parts (file s3) Hl3) as (P0 & P1 & P2 & PF & _).
      assert (E1 : slot_of (file s3) 2 1 = sl 64 128 new).
      { apply (slot_loaded (file s3) h); [done|by left|]. eapply slot_ext; [by left|done| |exact S1']. apply SL. lia. }
      assert (E2 : slot_of (file s3) 3 2 = sl 192 128 new).
      { apply (slot_loaded (file s3) h); [done|by right|]. eapply slot_ext; [by right|done| |exact S2]. apply SL. lia. }
      rewrite E1 in P1. rewrite E2 in P2. destruct (L Ht) as [L1|L1]; rewrite L1 in PF.
      * right. rewrite P1, P2, PF. split; [done|]. right. unfold in_doubt. auto.
      * left. by apply list_sl_eq.
Qed.
End header.
