(* ===== verification/BackendWrite.v ===== *)
(** * The encrypted file layer as a plain file: writing and changing the length *)
From S2P Require Import Prelude Order Redb B64 Cipher Layout Disk Backend BackendSpec BackendFile BackendHeader.
Import ListRedb.
Local Open Scope N_scope.

(** ** The header page *)

Lemma splice_zeros off n m : off + n <= m → splice off (zeros n) (zeros m) = zeros m.
Proof.
  intros Hb. rewrite splice_inside by (rewrite !len_zeros; lia). unfold zeros.
  rewrite length_replicate, take_replicate, drop_replicate, <-!replicate_add. f_equal. lia.
Qed.

(** Bytes put into redb's header and zeros behind it are bytes put into the header page. *)
Lemma header_put_top off d hb : len hb = 320 → off + len d <= LOGICAL_HEADER →
  blank (drop (N.to_nat (N.min (len d) (REDB_HEADER_LEN - off))) d) = true →
  header_put off d hb ++ zeros (LOGICAL_HEADER - REDB_HEADER_LEN) =
  splice off d (hb ++ zeros (LOGICAL_HEADER - REDB_HEADER_LEN)).
Proof.
  intros Hl Hb Hz. unfold header_put. set (n := N.min (len d) (REDB_HEADER_LEN - off)) in *. cbn zeta.
  apply blank_zeros in Hz. set (z := len (drop (N.to_nat n) d)) in *.
  assert (Ez : z = len d - n) by (subst z; unfold len; rewrite length_drop; lia).
  assert (Lt : len (take (N.to_nat n) d) = n) by (unfold len in *; rewrite length_take; subst n; unfold len; lia).
  assert (Ed : d = take (N.to_nat n) d ++ zeros z) by (by rewrite <-Hz, take_drop).
  unfold LOGICAL_HEADER, REDB_HEADER_LEN, PAGE in *.
  destruct (N.ltb_spec 0 n) as [Hn|Hn].
  - destruct (N.eq_dec z 0) as [Z0|Z0].
    + rewrite Ed at 2. rewrite Z0. cbn [zeros N.to_nat replicate]. rewrite app_nil_r. by rewrite splice_app_l by lia.
    + assert (off + n = 320) by lia. rewrite Ed at 2. rewrite <-splice_splice; [|rewrite Lt, len_app, !len_zeros; lia].
      rewrite splice_app_l by lia. rewrite Lt, splice_app_r by (rewrite len_splice; lia). f_equal.
      rewrite len_splice by lia. symmetry. apply splice_zeros. lia.
  - assert (Hd : 320 <= off ∨ len d = 0) by lia. assert (n = 0) as -> by lia. change (N.to_nat 0) with 0%nat in Ed. rewrite take_0 in Ed. cbn [app] in Ed.
    destruct Hd as [Ho|Ho].
    + rewrite Ed, splice_app_r by lia. f_equal. symmetry. apply splice_zeros. lia.
    + assert (Hd0 : d = []) by (apply nil_length_inv; unfold len in Ho; lia). rewrite Hd0.
      rewrite splice_nil; [done|]. rewrite len_app, len_zeros. lia.
Qed.

Section write.
Context `{CipherLib} (fate : nat → option bytes) (random : nat → nat → outcome CryptoError bytes) (g : Settings).
Abbreviation ge := (geo g).
Abbreviation st := (strd g).
Abbreviation healthy := (healthy fate random g).
Abbreviation shows := (shows g).
Context (Hrw : read_only g = false).

Definition set_pages (ps : list bytes) (A : Plain) : Plain :=
  {| p_header := p_header A; p_pages := ps; p_seq := p_seq A; p_exact := p_exact A |}.

(** ** Staging *)

Lemma stage_one_shows s A i page : shows s A → parallel_seal g = true → i < len (p_pages A) → len page = PAGE →
  shows (set_pending (allocs s + 1) (l_insert (pending s) i (allocs s, page)) s) (set_pages (<[N.to_nat i := page]> (p_pages A)) A).
Proof.
  intros Hs Hm Hi Hp. destruct Hs as [s1 s2 s3 s4 s5 s6 s7 s8 s9 s10 s11 s12].
  split; cbn [pending set_pending file header header_area data_len set_pages p_pages p_header p_seq p_exact]; try done.
  - rewrite s2. unfold len. by rewrite length_insert.
  - intros j p Hj. unfold seen. cbn [pending set_pending file]. rewrite l_get_insert.
    destruct (decide (j = N.to_nat i)) as [->|Hne].
    + rewrite list_lookup_insert_eq in Hj by (unfold len in Hi; lia). injection Hj as <-.
      rewrite N2Nat.id, decide_True by done. done.
    + rewrite list_lookup_insert_ne in Hj by done. rewrite decide_False by lia. by apply s5.
  - by apply l_insert_sorted.
  - intros j q [[= -> ->]|Hq]%l_insert_elem; unfold len; rewrite length_insert; [done|]. by apply s7.
  - unfold len. rewrite length_insert. done.
  - by rewrite Hm.
  - unfold len at 2. by rewrite length_insert.
Qed.

Lemma stage_pages_spec s A first plain : shows s A → parallel_seal g = true → first + len plain / PAGE <= len (p_pages A) →
  let A' := set_pages (put (N.to_nat first) (pages_of plain) (p_pages A)) A in
  iowp (stage_pages fate random g first plain) (λ _ s', shows s' A') (λ s', ¬ healthy ∧ shows s' A') s.
Proof.
  intros Hs Hm Hb A'.
  assert (Hb' : (N.to_nat first + N.to_nat (len plain / PAGE) <= length (p_pages A))%nat) by (unfold len at 2 in Hb; lia).
  unfold stage_pages, refuse_if_read_only. rewrite Hrw. apply iowp_bind, iowp_ret, iowp_bind.
  eapply iowp_mono.
  { apply (iowp_each (indices (len plain / PAGE)) _
      (λ dn s', shows s' (set_pages (put (N.to_nat first) (page_of plain <$> dn) (p_pages A)) A)) (λ _, False)).
    2:{ unfold put. cbn [fmap list_fmap app length]. rewrite Nat.add_0_r, take_drop. by destruct A. }
    intros dn i rest s1 El Hs1. unfold stage_one. apply iowp_update.
    assert (Hk : (length dn < N.to_nat (len plain / PAGE))%nat).
    { rewrite <-length_indices, El, length_app. simpl. lia. }
    assert (Hi : i = N.of_nat (length dn)).
    { pose proof (indices_lookup _ (length dn) Hk) as Hi. rewrite El, lookup_app_r, Nat.sub_diag in Hi by done. by injection Hi. }
    assert (Hl : (N.to_nat first + length (page_of plain <$> dn) <= length (p_pages A))%nat).
    { rewrite length_fmap. lia. }
    rewrite fmap_app. cbn [fmap list_fmap]. rewrite put_snoc by (rewrite length_fmap; lia).
    rewrite length_fmap. replace (N.to_nat first + length dn)%nat with (N.to_nat (first + i)) by lia.
    apply (stage_one_shows s1 _ (first + i) (page_of plain i)) in Hs1; [exact Hs1|done|..].
    - cbn [p_pages set_pages]. unfold len. rewrite put_length by done. lia.
    - pose proof (pages_of_width plain) as Hw. unfold pages_of in Hw. rewrite Forall_fmap, Forall_forall in Hw. apply Hw.
      rewrite El. set_solver. }
  2: done.
  intros [] s1 Hs1. cbn beta in Hs1. fold (pages_of plain) in Hs1. fold A' in Hs1. cbn beta.
  apply iowp_bind, iowp_asks. destruct (_ <=? _)%nat; [|by apply iowp_ret].
  eapply iowp_mono; [by apply drain_spec| |]; [by intros [] s2 (? & _)|by intros s2 (? & ? & _)].
Qed.

(** ** Blocks written at once *)

(** Blocks that open to the pages of a buffer, from block [first] on. *)
Definition sealed_run (first : N) (ps bs : list bytes) : Prop :=
  length bs = length ps ∧ Forall (λ b, len b = st) bs ∧
  ∀ k p b, ps !! k = Some p → bs !! k = Some b → open (aead g) (block_aad (first + N.of_nat k)) b = inl p.

Lemma write_blocks_spec s first plain : 
  iowp (write_blocks fate random g first plain)
    (λ _ s', core_eq s s' ∧ ∃ bs, sealed_run first (pages_of plain) bs ∧
       file s' = splice (block_offset ge first) (concat bs) (file s))
    (λ s', ¬ healthy ∧ core_eq s s' ∧ (file s' = file s ∨
       ∃ d, len d = len plain / PAGE * st ∧ file s' = splice (block_offset ge first) d (file s))) s.
Proof.
  unfold write_blocks, refuse_if_read_only. rewrite Hrw. apply iowp_bind, iowp_ret, iowp_bind. eapply iowp_mono.
  { apply (iowp_collect (indices (len plain / PAGE)) _
      (λ dn bs s', sealed_run first (page_of plain <$> dn) bs ∧ core_eq s s' ∧ file s' = file s)
      (λ s', ¬ healthy ∧ core_eq s s' ∧ file s' = file s)); [|by split_and!].
    intros dn bs i rest s1 El ((Hlen & Hw & Ho) & C & F).
    assert (Hk : (length dn < N.to_nat (len plain / PAGE))%nat).
    { rewrite <-length_indices, El, length_app. simpl. lia. }
    assert (Hi : i = N.of_nat (length dn)).
    { pose proof (indices_lookup _ (length dn) Hk) as Hi. rewrite El, lookup_app_r, Nat.sub_diag in Hi by done. by injection Hi. }
    eapply iowp_mono; [apply (seal_block_spec fate)|..].
    - pose proof (pages_of_width plain) as Hp. unfold pages_of in Hp. rewrite Forall_fmap, Forall_forall in Hp. apply Hp.
      rewrite El. set_solver.
    - intros b s2 (Hob & Hlb & C2 & F2). split_and!.
      + unfold sealed_run. rewrite fmap_app, !length_app, Hlen. split_and!; [done|by apply Forall_app_2; repeat constructor|].
        intros k p b' Hp Hb. rewrite length_fmap in Hlen. destruct (decide (k < length dn)%nat).
        * rewrite lookup_app_l in Hp by (rewrite length_fmap; done). rewrite lookup_app_l in Hb by lia. by eapply Ho.
        * assert (k = length dn) as ->.
          { apply lookup_lt_Some in Hb. rewrite length_app in Hb. simpl in Hb. lia. }
          rewrite lookup_app_r, length_fmap, Nat.sub_diag in Hp by (rewrite length_fmap; done).
          rewrite lookup_app_r, Hlen, Nat.sub_diag in Hb by lia. injection Hp as <-. injection Hb as <-. by rewrite <-Hi.
      + by eapply core_eq_trans.
      + congruence.
    - intros s2 (Hu & C2 & F2). split_and!; [done|by eapply core_eq_trans|congruence]. }
  2:{ intros s1 (Hu & C & F). auto. }
  intros bs s1 (Hr & C & F). cbn beta. fold (pages_of plain) in Hr.
  eapply iowp_mono; [apply (file_write_spec fate random g)|..].
  - intros [] s2 [C2 F2]. split; [by eapply core_eq_trans|]. exists bs. by rewrite F2, F.
  - intros s2 (Hu & C2 & d & Hd & F2 & _). split_and!; [done|by eapply core_eq_trans|]. right. exists d. rewrite F2, F. split; [|done].
    rewrite Hd. destruct Hr as (Hlen & Hw & _). rewrite (len_concat _ st Hw). f_equal. unfold len at 1. rewrite Hlen.
    unfold pages_of. rewrite length_fmap, length_indices. lia.
Qed.

(** Blocks overwritten, with nothing staged. *)
Lemma put_blocks_shows s s' A first ps bs : shows s A → pending s = [] → sealed_run first ps bs →
  Forall (λ p, len p = PAGE) ps → first + len ps <= len (p_pages A) → core_eq s s' →
  file s' = splice (block_offset ge first) (concat bs) (file s) →
  shows s' (set_pages (put (N.to_nat first) ps (p_pages A)) A).
Proof.
  intros Hs Hp (Hlen & Hw & Ho) Hps Hb (Ca & Cd & Ch & Che & Cp) F. destruct Hs as [s1 s2 s3 s4 s5 s6 s7 s8 s9 s10 s11 s12].
  assert (Hl : (N.to_nat first + length ps <= length (p_pages A))%nat) by (unfold len in Hb; lia).
  assert (Hd : len (concat bs) = len ps * st) by (rewrite (len_concat _ st Hw); unfold len; congruence).
  assert (Hin : block_offset ge first <= len (file s)).
  { etrans; [apply (block_offset_mono g first (len (p_pages A))); lia|done]. }
  destruct (splice_blocks_frame g (file s) first (concat bs) (len ps) Hin Hd) as [L T B M]. rewrite <-F in L, T, B, M.
  split; cbn [set_pages p_pages p_header p_seq p_exact]; rewrite ?Cd, ?Ch, ?Che, ?Cp, ?Hp in *; try done.
  - unfold len. rewrite put_length by done. done.
  - intros i p Hi. rewrite put_lookup in Hi by done. unfold seen. rewrite Cp. cbn [l_get]. case_decide as Hd'.
    + split; [by eapply Forall_lookup_1 in Hi; [|exact Hps]|].
      destruct (lookup_lt_is_Some_2 bs (i - N.to_nat first)) as [b Hbk]; [rewrite Hlen; lia|].
      rewrite F. replace (N.of_nat i) with (first + N.of_nat (i - N.to_nat first)) by lia.
      rewrite (splice_blocks_at g _ _ bs _ b) by done. by apply (Ho _ p b).
    + destruct (s5 i p Hi) as [Hlp Hv]. split; [done|]. unfold seen in Hv. rewrite Hp in Hv. cbn [l_get] in Hv.
      rewrite B; [done| |].
      * rewrite elem_of_span. unfold len. lia.
      * apply lookup_lt_Some in Hi. etrans; [|exact s8]. unfold block_offset. apply N.add_le_mono_l, N.mul_le_mono_r. unfold len. lia.
  - intros i q Hq. by apply elem_of_nil in Hq.
  - unfold len at 1. rewrite put_length by done. fold (len (p_pages A)). lia.
  - eapply pieces_top; [|exact T|exact s11]. unfold block_offset in s8. lia.
  - intros Hx. specialize (s12 Hx). specialize (M (len (p_pages A))). unfold len at 2. rewrite put_length by done.
    fold (len (p_pages A)). enough (len (file s') <= N.max (len (file s)) (block_offset ge (len (p_pages A)))) by lia.
    apply M. intros j Hj%elem_of_span. lia.
Qed.

Lemma write_pages_spec s A first plain : shows s A → first + len plain / PAGE <= len (p_pages A) →
  iowp (if parallel_seal g then stage_pages fate random g first plain else write_blocks fate random g first plain)
    (λ _ s', shows s' (set_pages (put (N.to_nat first) (pages_of plain) (p_pages A)) A)) (λ _, ¬ healthy) s.
Proof.
  intros Hs Hb. destruct (parallel_seal g) eqn:Em.
  - eapply iowp_mono; [by apply stage_pages_spec|done|]. by intros s' [? _].
  - eapply iowp_mono; [by apply write_blocks_spec| |]; [|by intros s' [? _]].
    intros [] s' (C & bs & Hr & F). eapply put_blocks_shows; [done|by apply (sw_mode _ _ _ Hs)|done|apply pages_of_width| |done|done].
    unfold len at 1. unfold pages_of. rewrite length_fmap, length_indices. by rewrite N2Nat.id.
Qed.

Lemma write_header_spec s A off data : zeros_inert g → shows s A → p_seq A + 1 < 2 ^ 64 → off + len data <= LOGICAL_HEADER →
  blank (drop (N.to_nat (N.min (len data) (REDB_HEADER_LEN - off))) data) = true →
  iowp (write_header_range fate random g off data)
    (λ _ s', ∃ A', shows s' A' ∧ p_pages A' = p_pages A ∧ p_seq A' <= p_seq A + 1 ∧ p_exact A' = p_exact A ∧
       top A' = splice off data (top A))
    (λ _, ¬ healthy) s.
Proof.
  intros Hz Hs Hq Hb Hbl. destruct Hs as [s1 s2 s3 s4 s5 s6 s7 s8 s9 s10 s11 s12].
  eapply iowp_mono; [apply write_header_range_spec|..]; try done.
  - unfold block_offset in s8. lia.
  - by rewrite s3.
  - by rewrite s10.
  - intros [] s' ((Ra & Rd & Rh & Rp) & [TL TD] & P & B & Q).
    exists {| p_header := header_put off data (p_header A); p_pages := p_pages A; p_seq := h_seq (header s');
       p_exact := p_exact A |}.
    split_and!; [|done|cbn; by rewrite <-s10|done|unfold top; cbn [p_header]; by apply header_put_top].
    split; cbn [p_header p_pages p_seq p_exact]; try congruence; try done.
    + by apply header_put_len.
    + intros i p Hi. destruct (s5 i p Hi) as [Hl Hv]. split; [done|]. unfold seen in *. rewrite Rp.
      destruct (l_get (pending s) (N.of_nat i)); [done|]. unfold block in *. rewrite TD; [done|unfold block_offset; lia|].
      apply lookup_lt_Some in Hi. etrans; [|exact s8]. rewrite <-block_offset_S. unfold block_offset.
      apply N.add_le_mono_l, N.mul_le_mono_r. unfold len. lia.
    + rewrite Rp. exact s7.
    + rewrite Rp. exact s9.
    + by rewrite TL.
  - intros s' (? & _). done.
Qed.

Lemma flat_put A first data : Forall (λ b, len b = PAGE) (p_pages A) → len (top A) = LOGICAL_HEADER →
  len data mod PAGE = 0 → first + len data / PAGE <= len (p_pages A) →
  flat (set_pages (put (N.to_nat first) (pages_of data) (p_pages A)) A) = splice (LOGICAL_HEADER + first * PAGE) data (flat A).
Proof.
  intros Hw Ht Hm Hb. unfold flat. cbn [set_pages p_pages]. change (top (set_pages _ A)) with (top A).
  rewrite splice_app_r by lia. f_equal. rewrite Ht. rewrite (concat_put _ _ PAGE).
  - rewrite pages_of_concat by done. f_equal. lia.
  - done.
  - apply pages_of_width.
  - unfold pages_of. rewrite length_fmap, length_indices. unfold len in Hb at 2. lia.
Qed.

(** A write redb may make: inside the file, zeros only behind the header bytes, whole
    pages after the header page. *)
Definition write_ok (size off : N) (data : bytes) : Prop :=
  let k := if off <? LOGICAL_HEADER then N.min (LOGICAL_HEADER - off) (len data) else 0 in
  off + len data <= size ∧
  (off < LOGICAL_HEADER → blank (drop (N.to_nat (N.min k (REDB_HEADER_LEN - off))) (take (N.to_nat k) data)) = true) ∧
  (k < len data → (off + k) mod PAGE = 0 ∧ (len data - k) mod PAGE = 0).

Lemma write_spec s A off data : zeros_inert g → shows s A → p_seq A + 1 < 2 ^ 64 → write_ok (len (flat A)) off data →
  iowp (write fate random g off data)
    (λ _ s', ∃ A', shows s' A' ∧ p_seq A' <= p_seq A + 1 ∧ p_exact A' = p_exact A ∧ flat A' = splice off data (flat A))
    (λ _, ¬ healthy) s.
Proof.
  intros Hz Hs Hq (Hb & Hbl & Hal). unfold write. destruct (N.eqb_spec (len data) 0) as [E0|E0].
  { apply iowp_ret. exists A. split_and!; [done|lia|done|]. destruct data; [|unfold len in E0; simpl in E0; lia].
    rewrite splice_nil; [done|]. unfold len in Hb at 1. simpl in Hb. lia. }
  apply iowp_bind, iowp_asks. rewrite <-(shows_len g s A Hs). destruct (N.ltb_spec (len (flat A)) (off + len data)); [lia|].
  cbn zeta. set (k := if off <? LOGICAL_HEADER then N.min (LOGICAL_HEADER - off) (len data) else 0) in *.
  assert (Lk : k <= len data) by (subst k; destruct (off <? LOGICAL_HEADER); lia).
  assert (Ltake : len (take (N.to_nat k) data) = k) by (unfold len in *; rewrite length_take; lia).
  apply iowp_bind. apply (iowp_mono _
    (λ _ s', ∃ A', shows s' A' ∧ p_pages A' = p_pages A ∧ p_seq A' <= p_seq A + 1 ∧ p_exact A' = p_exact A ∧
       flat A' = splice off (take (N.to_nat k) data) (flat A))
    _ (λ _, ¬ healthy)); [|..|done].
  { destruct (N.ltb_spec off LOGICAL_HEADER) as [Ho|Ho].
    - apply iowp_bind. eapply iowp_mono; [by apply drain_spec| |by intros s1 (? & _)].
      intros [] s1 (Hs1 & _). cbn beta.
      assert (Hok : off + k <= LOGICAL_HEADER) by (subst k; destruct (off <? LOGICAL_HEADER); lia).
      eapply iowp_mono; [apply (write_header_spec s1 A); [done|done|done|by rewrite Ltake|]|..|done].
      { rewrite Ltake. by apply Hbl. }
      intros [] s2 (A2 & Hs2 & Ep & Eq & Ex & Et). exists A2. split_and!; [done|done|done|done|]. unfold flat. rewrite Ep, Et.
      symmetry. apply splice_app_l. rewrite (shows_top g s A Hs), Ltake. done.
    - apply iowp_ret. exists A. split_and!; [done|done|lia|done|]. assert (k = 0) as -> by (subst k; destruct (N.ltb_spec off LOGICAL_HEADER); lia).
      symmetry. apply splice_nil. lia. }
  intros [] s1 (A1 & Hs1 & Ep & Eq & Ex & Ef). cbn beta. destruct (N.eqb_spec k (len data)) as [Ek|Ek].
  { apply iowp_ret. exists A1. split_and!; [done|done|done|]. rewrite Ef. f_equal. apply take_ge. unfold len in Ek. lia. }
  destruct (Hal ltac:(lia)) as [Hm1 Hm2].
  assert (Hlow : LOGICAL_HEADER <= off + k) by (subst k; destruct (N.ltb_spec off LOGICAL_HEADER); lia).
  assert (Ldrop : len (drop (N.to_nat k) data) = len data - k) by (unfold len in *; rewrite length_drop; lia).
  assert (Hrel : ∃ q, off + k - LOGICAL_HEADER = q * PAGE).
  { apply N.Lcm0.mod_divide in Hm1 as [q Hq']. exists (q - 1). rewrite Hq'. unfold LOGICAL_HEADER. rewrite N.mul_sub_distr_r. by rewrite N.mul_1_l. }
  destruct Hrel as [q Hrel]. rewrite Hrel, Ldrop, Hm2, N.Div0.mod_mul, N.div_mul by done. cbn [negb orb N.eqb].
  assert (Hsz : q + (len data - k) / PAGE <= len (p_pages A1)).
  { pose proof (shows_len g s A Hs) as Hsl. unfold backend_len in Hsl. rewrite (sw_area _ _ _ Hs), (sw_len _ _ _ Hs) in Hsl.
    rewrite Ep. pose proof (N.div_mod (len data - k) PAGE ltac:(done)) as Hd. unfold PAGE in *. lia. }
  rewrite <-Ldrop in Hsz. eapply iowp_mono; [by apply write_pages_spec| |done].
  intros [] s2 Hs2. exists (set_pages (put (N.to_nat q) (pages_of (drop (N.to_nat k) data)) (p_pages A1)) A1).
  split_and!; [done|done|done|]. rewrite flat_put; [|by eapply shows_width|by eapply shows_top|by rewrite Ldrop|done].
  rewrite Ef. replace (LOGICAL_HEADER + q * PAGE) with (off + len (take (N.to_nat k) data)) by lia.
  rewrite splice_splice by lia. by rewrite take_drop.
Qed.
End write.

(** ** The encrypted file layer as a plain file: changing the length

    Growing writes sealed pages of zeros behind the last block, in batches that end at
    lengths redb accepts; shrinking cuts blocks off; a new file starts with noise in its
    header pieces. *)
From S2P Require Import Prelude Order Redb B64 Cipher Layout Disk Backend BackendSpec BackendFile BackendHeader.
Import ListRedb.
Local Open Scope N_scope.

(** ** Batches *)

(** Enough fuel: the search for a batch's end stops at an acceptable length or at the end. *)
Lemma next_stop_spec fuel shape stop end_ : stop <= end_ → (N.to_nat (end_ - stop) <= fuel)%nat →
  let r := next_stop fuel shape stop end_ in
  stop <= r <= end_ ∧ (r = end_ ∨ length_makes_layout r shape = true) ∧
  (∀ k, stop <= k < r → length_makes_layout k shape = false).
Proof.
  revert stop. induction fuel as [|fuel IH]; intros stop Hle Hf; cbn [next_stop].
  - split_and!; [lia|done|left; lia|]. intros k Hk. lia.
  - destruct (N.ltb_spec stop end_) as [Hlt|Hge]; cbn [andb].
    + destruct (length_makes_layout stop shape) eqn:Ev; cbn [negb].
      * split_and!; [lia|done|by right|]. intros k Hk. lia.
      * destruct (IH (stop + 1)) as (H1 & H2 & H3); [lia|lia|]. split_and!; [lia|lia|done|]. intros k Hk.
        destruct (decide (k = stop)) as [->|]; [done|]. apply H3. lia.
    + split_and!; [lia|done|left; lia|]. intros k Hk. lia.
Qed.

Lemma pages_of_zeros n : pages_of (zeros (n * PAGE)) = replicate (N.to_nat n) (zeros PAGE).
Proof.
  unfold pages_of. rewrite len_zeros, N.div_mul by done. symmetry. apply replicate_as_Forall.
  rewrite length_fmap, length_indices. split; [done|]. apply Forall_fmap, Forall_forall. intros i Hi%elem_of_indices.
  cbn beta. unfold page_of. symmetry. apply sl_zeros. nia.
Qed.

Lemma concat_zeros n : concat (replicate n (zeros PAGE)) = zeros (N.of_nat n * PAGE).
Proof.
  induction n as [|n IH]; [done|]. cbn [replicate concat]. rewrite IH. unfold zeros. rewrite <-replicate_add. f_equal. lia.
Qed.

Section len.
Context `{CipherLib} (fate : nat → option bytes) (random : nat → nat → outcome CryptoError bytes) (g : Settings).
Abbreviation ge := (geo g).
Abbreviation st := (strd g).
Abbreviation healthy := (healthy fate random g).
Abbreviation shows := (shows g).
Context (Hrw : read_only g = false).

(** ** Growing *)

(** A file that may go on behind its last page, and one that does not. *)
Definition loose (A : Plain) : Plain :=
  {| p_header := p_header A; p_pages := p_pages A; p_seq := p_seq A; p_exact := false |}.
Definition tight (A : Plain) : Plain :=
  {| p_header := p_header A; p_pages := p_pages A; p_seq := p_seq A; p_exact := true |}.

Lemma shows_loose s A : shows s A → shows s (loose A).
Proof. by intros []; split. Qed.
Lemma shows_tight s A : shows s A → len (file s) < block_offset ge (len (p_pages A) + 1) → shows s (tight A).
Proof. by intros [] ?; split. Qed.

(** Blocks of zeros from the last page of the file redb sees to block [a]. *)
Record filled (s : Backend) (A : Plain) (a : N) : Prop := {
  fl_shows : shows s (loose A);
  fl_pending : pending s = [];
  fl_from : len (p_pages A) <= a;
  fl_file : block_offset ge a <= len (file s);
  fl_zeros : ∀ i, len (p_pages A) <= i < a → open (aead g) (block_aad i) (block g (file s) i) = inl (zeros PAGE);
}.

Lemma fill_batch s A a stop : filled s A a → a <= stop →
  iowp (write_blocks fate random g a (zeros ((stop - a) * PAGE)))
    (λ _ s', filled s' A stop) (λ s', ¬ healthy ∧ shows s' (loose A)) s.
Proof.
  intros [Hs Hp Hfrom Hf Hz] Hle. eapply iowp_mono; [by apply write_blocks_spec|..].
  - intros [] s' (C & bs & (Hlen & Hw & Ho) & F). rewrite pages_of_zeros in Hlen, Ho. rewrite length_replicate in Hlen.
    assert (Hd : len (concat bs) = (stop - a) * st).
    { rewrite (len_concat _ st Hw). f_equal. unfold len. rewrite Hlen. lia. }
    pose proof (splice_blocks_frame g (file s) a (concat bs) _ Hf Hd) as Hfr. rewrite <-F in Hfr. split.
    + eapply shows_frame_gen; [done..| |done]. intros j Hj%elem_of_span Hlt. cbn [loose p_pages] in Hlt. lia.
    + destruct C as (_ & _ & _ & _ & ->). done.
    + lia.
    + rewrite F. unfold len. rewrite splice_length. fold (len (file s)). unfold len in Hd.
      replace stop with (a + (stop - a)) by lia. rewrite block_offset_add. lia.
    + intros i Hi. destruct (N.lt_ge_cases i a) as [Hia|Hia].
      * rewrite (fr_block _ _ _ _ Hfr); [apply Hz; lia|rewrite elem_of_span; lia|].
        etrans; [|exact Hf]. unfold block_offset. apply N.add_le_mono_l, N.mul_le_mono_r. lia.
      * destruct (lookup_lt_is_Some_2 bs (N.to_nat (i - a))) as [b Hb]; [rewrite Hlen; lia|].
        rewrite F. replace i with (a + N.of_nat (N.to_nat (i - a))) by lia. rewrite (splice_blocks_at g _ _ bs _ b) by done.
        apply (Ho _ (zeros PAGE) b); [|done]. apply lookup_replicate. split; [done|lia].
  - intros s' (Hu & C & [F|(d & Hd & F)]).
    + split; [done|]. eapply shows_same; done.
    + split; [done|]. rewrite len_zeros, N.div_mul in Hd by done.
      pose proof (splice_blocks_frame g (file s) a d _ Hf Hd) as Hfr. rewrite <-F in Hfr.
      eapply shows_frame_gen; [done..| |done]. intros j Hj%elem_of_span Hlt. cbn [loose p_pages] in Hlt. lia.
Qed.

Lemma fill_loop_spec fuel shape A end_ : ∀ a s, filled s A a → a <= end_ → (N.to_nat (end_ - a) <= fuel)%nat →
  iowp (fill_loop fate random g fuel shape a end_) (λ _ s', filled s' A end_) (λ s', ¬ healthy ∧ shows s' (loose A)) s.
Proof.
  induction fuel as [|fuel IH]; intros a s Hf Hle Hfu; cbn [fill_loop].
  - apply iowp_ret. by replace end_ with a by lia.
  - destruct (N.ltb_spec a end_) as [Hlt|Hge]; [|apply iowp_ret; by replace end_ with a by lia].
    cbn zeta. destruct (next_stop_spec (N.to_nat (end_ - a)) shape (N.min (a + FILL_BATCH) end_) end_) as (H1 & _); [lia|lia|].
    set (stop := next_stop _ _ _ _) in *. unfold FILL_BATCH in H1.
    apply iowp_bind. eapply iowp_mono; [apply (fill_batch s A a stop Hf); lia| |done].
    intros [] s' Hf'. apply IH; [done|lia|lia].
Qed.

(** Growing needs a header page that says how redb lays its file out, or a new file. *)
Definition growable (A : Plain) : Prop :=
  if blank (p_header A) then p_pages A = [] else is_Some (region_shape_of (p_header A)).

Lemma fill_spec s A end_ : shows s A → pending s = [] → growable A → len (p_pages A) <= end_ →
  iowp (fill fate random g (len (p_pages A)) end_) (λ _ s', filled s' A end_) (λ s', ¬ healthy ∧ shows s' (loose A)) s.
Proof.
  intros Hs Hp Hg Hle.
  assert (Hf : filled s A (len (p_pages A))) by (split; [by apply shows_loose|done|lia|apply Hs|lia]).
  unfold fill, region_shape. apply iowp_bind, iowp_bind, iowp_asks. rewrite (sw_header _ _ _ Hs).
  unfold growable, blank in Hg. destruct (forallb _ (p_header A)).
  - apply iowp_ret. rewrite bool_decide_true by done. rewrite Hg in *. cbn [andb N.ltb N.compare].
    change (0 <? len []) with false. cbn iota. by apply fill_loop_spec.
  - destruct Hg as [sh ->]. apply iowp_ret. rewrite bool_decide_false by done. cbn [andb]. by apply fill_loop_spec.
Qed.

(** The file redb sees gets the pages of zeros. *)
Definition grown (a : N) (A : Plain) : Plain :=
  set_pages (p_pages A ++ replicate (N.to_nat (a - len (p_pages A))) (zeros PAGE)) A.

Lemma filled_shows s A a : filled s A a → shows (set_data_len (a * PAGE) s) (loose (grown a A)).
Proof.
  intros [Hs Hp Hfrom Hf Hz]. destruct Hs as [s1 s2 s3 s4 s5 s6 s7 s8 s9 s10 s11 s12].
  assert (El : len (p_pages (loose (grown a A))) = a).
  { cbn. rewrite len_app. unfold len at 2. rewrite length_replicate. lia. }
  split; rewrite ?El; cbn [file header header_area data_len pending set_data_len]; try done.
  - intros i p Hi. cbn [p_pages grown loose set_pages] in Hi. unfold seen. cbn [pending set_data_len file].
    apply lookup_app_Some in Hi as [Hi|[Hge Hi]]; [by apply s5|].
    apply lookup_replicate in Hi as [-> Hlt]. split; [apply len_zeros|]. rewrite Hp. cbn [l_get]. apply Hz. unfold len in *. lia.
  - intros i q Hq. rewrite Hp in Hq. by apply elem_of_nil in Hq.
Qed.

Lemma flat_grown a A : len (p_pages A) <= a → len (top A) = LOGICAL_HEADER → Forall (λ b, len b = PAGE) (p_pages A) →
  flat (grown a A) = resize (LOGICAL_HEADER + a * PAGE) (flat A).
Proof.
  intros Hle Ht Hw. unfold flat, resize. change (top (grown a A)) with (top A). cbn [grown set_pages p_pages].
  assert (L : len (top A ++ concat (p_pages A)) = LOGICAL_HEADER + len (p_pages A) * PAGE).
  { by rewrite len_app, Ht, (len_concat _ PAGE Hw). }
  rewrite take_ge by (unfold len in *; nia). rewrite concat_app, concat_zeros, <-app_assoc. do 2 f_equal. unfold zeros. f_equal.
  unfold len in *. nia.
Qed.

(** ** Cutting *)

Lemma file_set_len_spec n s : iowp (file_set_len fate n) (λ _ s', core_eq s s' ∧ file s' = resize n (file s))
  (λ s', ¬ healthy ∧ core_eq s s' ∧ file s' = file s) s.
Proof.
  unfold file_set_len. apply iowp_bind. unfold iowp at 1, call. cbn. destruct (fate (calls s)) as [x|] eqn:Ef.
  - apply iowp_throw. split_and!; [|done..]. intros Hh. pose proof (hl_fate _ _ _ Hh (calls s)). congruence.
  - by apply iowp_update.
Qed.

Lemma file_len_spec s : iowp (file_len fate) (λ n s', n = len (file s) ∧ core_eq s s' ∧ file s' = file s)
  (λ s', ¬ healthy ∧ core_eq s s' ∧ file s' = file s) s.
Proof.
  unfold file_len. apply iowp_bind. unfold iowp at 1, call. cbn. destruct (fate (calls s)) as [x|] eqn:Ef.
  - apply iowp_throw. split_and!; [|done..]. intros Hh. pose proof (hl_fate _ _ _ Hh (calls s)). congruence.
  - by apply iowp_asks.
Qed.

Lemma pieces_resize f n h : DATA_BASE <= n → DATA_BASE <= len f → pieces g f h → pieces g (resize n f) h.
Proof. intros Hn Hl. apply pieces_top; [done|]. intros o k Ho _. apply sl_resize; lia. Qed.

(** The file cut to block [m], which changes nothing before it. *)
Lemma cut_shows s s' A m : shows s A → pending s = [] → m <= len (p_pages A) → core_eq s s' →
  file s' = resize (block_offset ge m) (file s) →
  shows (set_data_len (m * PAGE) s') (tight (set_pages (take (N.to_nat m) (p_pages A)) A)).
Proof.
  intros Hs Hp Hm (Ca & Cd & Ch & Che & Cp) F. destruct Hs as [s1 s2 s3 s4 s5 s6 s7 s8 s9 s10 s11 s12].
  assert (El : len (take (N.to_nat m) (p_pages A)) = m) by (unfold len in *; rewrite length_take; lia).
  assert (Lf : len (file s') = block_offset ge m) by (rewrite F; unfold len; rewrite resize_length; lia).
  split; cbn [file header header_area data_len pending set_data_len set_pages tight p_pages p_header p_seq p_exact];
    rewrite ?El, ?Ch, ?Che, ?Cp, ?Hp; try done; [|constructor|by intros i q Hq%elem_of_nil|by rewrite Lf| |].
  - intros i p Hi. assert (Him : (i < N.to_nat m)%nat) by (apply lookup_lt_Some in Hi; rewrite length_take in Hi; lia).
    rewrite lookup_take_lt in Hi by done. destruct (s5 i p Hi) as [Hl Hv]. split; [done|].
    unfold seen in *. cbn [pending set_data_len file]. rewrite Cp, Hp. rewrite Hp in Hv. cbn [l_get] in *.
    unfold block in *. rewrite F. assert (Hb : block_offset ge (N.of_nat i + 1) <= block_offset ge m) by (apply block_offset_mono; lia).
    pose proof (block_offset_mono g m _ Hm). rewrite block_offset_S in Hb. rewrite sl_resize by lia. done.
  - rewrite F. apply pieces_resize; [unfold block_offset; lia|unfold block_offset in s8; lia|done].
  - intros _. rewrite Lf, block_offset_S. pose proof (strd_pos g). lia.
Qed.

Lemma flat_cut m A : m <= len (p_pages A) → len (top A) = LOGICAL_HEADER → Forall (λ b, len b = PAGE) (p_pages A) →
  flat (set_pages (take (N.to_nat m) (p_pages A)) A) = resize (LOGICAL_HEADER + m * PAGE) (flat A).
Proof.
  intros Hm Ht Hw. unfold flat, resize. change (top (set_pages _ A)) with (top A). cbn [set_pages p_pages].
  assert (L : len (concat (p_pages A)) = len (p_pages A) * PAGE) by by apply len_concat.
  rewrite <-(take_drop (N.to_nat m) (p_pages A)) at 2. rewrite concat_app.
  assert (Lm : len (concat (take (N.to_nat m) (p_pages A))) = m * PAGE).
  { rewrite (len_concat _ PAGE) by by apply Forall_take. f_equal. unfold len in *. rewrite length_take. lia. }
  rewrite app_assoc. rewrite take_app_length' by (unfold len in *; rewrite length_app; lia).
  replace (N.to_nat (LOGICAL_HEADER + m * PAGE) - length (top A ++ concat (p_pages A)))%nat with 0%nat.
  - by rewrite app_nil_r.
  - unfold len in *. rewrite length_app. nia.
Qed.

(** ** Changing the length *)

Lemma shows_data_len s A : shows s A → set_data_len (len (p_pages A) * PAGE) s = s.
Proof. intros Hs. rewrite <-(sw_len _ _ _ Hs). by destruct s. Qed.

Lemma physical_len_pages m : physical_len ge (LOGICAL_HEADER + m * PAGE) = Some (block_offset ge m).
Proof.
  unfold physical_len. destruct (N.eqb_spec (LOGICAL_HEADER + m * PAGE) 0) as [E|_]; [unfold LOGICAL_HEADER, PAGE in E; lia|].
  destruct (N.ltb_spec (LOGICAL_HEADER + m * PAGE) LOGICAL_HEADER); [lia|]. cbn [orb].
  unfold LOGICAL_HEADER at 1. replace (PAGE + m * PAGE) with ((m + 1) * PAGE) by lia.
  rewrite N.Div0.mod_mul. cbn [N.eqb negb]. replace (LOGICAL_HEADER + m * PAGE - LOGICAL_HEADER) with (m * PAGE) by lia.
  by rewrite N.div_mul.
Qed.

(** The same first piece, and a file as exact as before. *)
Definition kin (A A' : Plain) : Prop := p_seq A' = p_seq A ∧ (p_exact A = true → p_exact A' = true).

Lemma len_grown m A : len (p_pages A) <= m → len (p_pages (grown m A)) = m.
Proof. intros Hm. cbn. rewrite len_app. unfold len at 2. rewrite length_replicate. lia. Qed.

(** The end of growing: what lies behind the new length is cut off. *)
Lemma grow_done s s' A m : filled s A m → len (p_pages A) <= m → core_eq s s' →
  (file s' = file s ∧ len (file s) <= block_offset ge m) ∨ file s' = resize (block_offset ge m) (file s) →
  shows (set_data_len (m * PAGE) s') (tight (grown m A)).
Proof.
  intros Hf Hm C F. pose proof (len_grown m A Hm) as Ep. apply filled_shows in Hf as Hg.
  assert (C' : core_eq (set_data_len (m * PAGE) s) (set_data_len (m * PAGE) s')) by (destruct C as (?&?&?&?&?); by repeat split).
  destruct F as [[F L]|F].
  - apply (shows_tight _ (loose (grown m A))); [by eapply shows_same|]. cbn [file set_data_len loose p_pages].
    rewrite F, Ep, block_offset_S. pose proof (strd_pos g). lia.
  - assert (Hc := cut_shows _ (set_data_len (m * PAGE) s') _ m Hg (fl_pending _ _ _ Hf)). cbn [loose p_pages] in Hc.
    rewrite Ep in Hc. rewrite take_ge in Hc by (unfold len in Ep; lia). apply Hc; [lia|done|exact F].
Qed.

(** Growing and cutting with the header area in place. *)
Definition change_len (old_data m : N) : IO () :=
  (if old_data <? m * PAGE then
     fill fate random g (old_data / PAGE) (m * PAGE / PAGE) ;;
     f ← file_len fate;
     if block_offset ge m <? f then file_set_len fate (block_offset ge m) else mret ()
   else if m * PAGE <? old_data then file_set_len fate (block_offset ge m) else mret ()) ;;
  update (set_data_len (m * PAGE)).

Lemma change_len_spec s A m : shows s A → pending s = [] → (len (p_pages A) < m → growable A) →
  iowp (change_len (len (p_pages A) * PAGE) m)
    (λ _ s', ∃ A', shows s' A' ∧ kin A A' ∧ flat A' = resize (LOGICAL_HEADER + m * PAGE) (flat A))
    (λ s', ¬ healthy ∧ shows s' (loose A)) s.
Proof.
  intros Hs Hp Hg. unfold change_len.
  pose proof (shows_top g s A Hs) as Ht. pose proof (shows_width g s A Hs) as Hw. rewrite !N.div_mul by done. apply iowp_bind.
  destruct (N.ltb_spec (len (p_pages A) * PAGE) (m * PAGE)) as [Hlt|Hge].
  - assert (Hm : len (p_pages A) < m) by nia. apply iowp_bind. eapply iowp_mono; [apply (fill_spec s A m); [done|done|by apply Hg|lia]| |done].
    intros [] s1 Hf. cbn beta. apply iowp_bind. eapply iowp_mono; [apply file_len_spec|..].
    2:{ intros s2 (Hu & C & F). split; [done|]. eapply shows_same; [apply Hf|done..]. }
    intros f s2 (-> & C & F). cbn beta.
    assert (Hdone : ∀ s3, core_eq s1 s3 →
      (file s3 = file s1 ∧ len (file s1) <= block_offset ge m) ∨ file s3 = resize (block_offset ge m) (file s1) →
      ∃ A', shows (set_data_len (m * PAGE) s3) A' ∧ kin A A' ∧ flat A' = resize (LOGICAL_HEADER + m * PAGE) (flat A)).
    { intros s3 C3 F3. exists (tight (grown m A)). split_and!; [by eapply grow_done; [done|lia|..]|done|].
      change (flat (tight (grown m A))) with (flat (grown m A)). by apply flat_grown; [lia|..]. }
    destruct (N.ltb_spec (block_offset ge m) (len (file s1))).
    + eapply iowp_mono; [apply file_set_len_spec|..].
      * intros [] s3 [C3 F3]. apply iowp_update. apply Hdone; [by eapply core_eq_trans|]. right. by rewrite F3, F.
      * intros s3 (Hu & C3 & F3). split; [done|]. eapply shows_same; [apply Hf|by eapply core_eq_trans|congruence].
    + apply iowp_ret, iowp_update. by apply Hdone; [|left; split].
  - destruct (N.ltb_spec (m * PAGE) (len (p_pages A) * PAGE)) as [Hlt|Hge2].
    + assert (Hm : m <= len (p_pages A)) by nia. eapply iowp_mono; [apply file_set_len_spec|..].
      * intros [] s1 [C1 F1]. apply iowp_update. exists (tight (set_pages (take (N.to_nat m) (p_pages A)) A)).
        split_and!; [by eapply cut_shows|done|by apply flat_cut].
      * intros s1 (Hu & C & F). split; [done|]. apply shows_loose. by eapply shows_same.
    + assert (Hm : m = len (p_pages A)) by (unfold PAGE in *; lia). apply iowp_ret, iowp_update. exists A. subst m.
      split_and!; [by rewrite shows_data_len|by split|]. rewrite <-(flat_cut (len (p_pages A)) A) by done.
      unfold flat. cbn [set_pages p_pages]. by rewrite take_ge by (unfold len; lia).
Qed.

(** No file yet: redb sees length 0. *)
Definition vacant (s : Backend) : Prop :=
  header_area s = false ∧ data_len s = 0 ∧ pending s = [] ∧ len (file s) < DATA_BASE.

Definition A0 : Plain := {| p_header := zeros 320; p_pages := []; p_seq := 0; p_exact := true |}.

Lemma set_len_pages m s : set_len fate random g (LOGICAL_HEADER + m * PAGE) s =
  (drain fate random g ;;
   old_data ← asks data_len;
   f ← file_len fate;
   (if f <? DATA_BASE then
      file_set_len fate DATA_BASE ;; update (set_header_area true) ;; init_pieces fate random
    else mret ()) ;;
   change_len old_data m) s.
Proof.
  unfold set_len. rewrite Hrw, physical_len_pages.
  destruct (N.eqb_spec (LOGICAL_HEADER + m * PAGE) 0) as [E|_]; [unfold LOGICAL_HEADER, PAGE in E; lia|].
  cbn zeta. replace (LOGICAL_HEADER + m * PAGE - LOGICAL_HEADER) with (m * PAGE) by lia. done.
Qed.

Lemma set_len_spec s A m : shows s A → (len (p_pages A) < m → growable A) →
  iowp (set_len fate random g (LOGICAL_HEADER + m * PAGE))
    (λ _ s', ∃ A', shows s' A' ∧ kin A A' ∧ flat A' = resize (LOGICAL_HEADER + m * PAGE) (flat A))
    (λ s', ¬ healthy ∧ shows s' (loose A)) s.
Proof.
  intros Hs Hg. unfold iowp. rewrite set_len_pages. apply iowp_bind.
  eapply iowp_mono; [by apply drain_spec| |intros s1 (? & ? & _); split; [done|by apply shows_loose]].
  intros [] s1 (Hs1 & Hp & _). cbn beta. apply iowp_bind, iowp_asks, iowp_bind.
  rewrite (sw_len _ _ _ Hs1). eapply iowp_mono; [apply file_len_spec|..].
  2:{ intros s2 (Hu & C & F). split; [done|]. apply shows_loose. by eapply shows_same. }
  intros f s2 (-> & C & F). cbn beta.
  destruct (N.ltb_spec (len (file s1)) DATA_BASE) as [Hlt|_].
  { pose proof (sw_file _ _ _ Hs1) as Hf. unfold block_offset in Hf. lia. }
  apply iowp_bind, iowp_ret. apply change_len_spec; [by eapply shows_same| |done]. destruct C as (_ & _ & _ & _ & ->). done.
Qed.

Lemma new_shows s d r : noise_inert random g → random d (N.to_nat PIECES_LEN) = inl r →
  data_len s = 0 → header_area s = true → pending s = [] → len (file s) = DATA_BASE →
  header s = header_new → ∀ f, file s = splice FILE_HEADER_LEN r f → shows s A0.
Proof.
  intros Hn Hr Hd Ha Hp Hf Hh f Ef. destruct (Hn _ _ Hr) as [Hl Ho].
  assert (Hload : ∀ c k, c < 4 → loaded g (file s) c k = None).
  { intros c k Hc. unfold loaded. rewrite Ef. unfold piece_offset. rewrite sl_splice_in; [|lia|rewrite Hl; unfold PIECES_LEN, PIECE_LEN; lia].
    replace (FILE_HEADER_LEN + c * PIECE_LEN - FILE_HEADER_LEN) with (c * PIECE_LEN) by lia.
    destruct (Ho k c Hc) as [e ->]. by destruct (blank _). }
  split; rewrite ?Hd, ?Ha, ?Hp, ?Hf, ?Hh; try done.
  - constructor.
  - by intros i q Hq%elem_of_nil.
  - split; [split|..].
    + done.
    + done.
    + right. rewrite Hload by done. done.
    + intros p. by rewrite Hload.
    + right. rewrite Hload by done. done.
    + right. rewrite Hload by done. done.
  - intros _. rewrite block_offset_S. unfold block_offset. pose proof (strd_pos g). lia.
Qed.

Lemma set_len_new_spec s m : noise_inert random g → vacant s →
  iowp (set_len fate random g (LOGICAL_HEADER + m * PAGE))
    (λ _ s', ∃ A', shows s' A' ∧ kin A0 A' ∧ flat A' = zeros (LOGICAL_HEADER + m * PAGE)) (λ _, ¬ healthy) s.
Proof.
  intros Hn (Ha & Hd & Hp & Hl). unfold iowp. rewrite set_len_pages. apply iowp_bind.
  unfold drain, drain_take. apply iowp_bind, iowp_asks. rewrite Hp. cbn [length]. rewrite bool_decide_true by done. apply iowp_ret.
  apply iowp_bind, iowp_asks, iowp_bind. rewrite Hd. eapply iowp_mono; [apply file_len_spec| |by intros s1 (? & _)].
  intros f s1 (-> & C1 & F1). cbn beta. destruct (N.ltb_spec (len (file s)) DATA_BASE) as [_|]; [|lia].
  apply iowp_bind, iowp_bind. eapply iowp_mono; [apply file_set_len_spec| |by intros s2 (? & _)].
  intros [] s2 (C2 & F2). apply iowp_bind, iowp_update. unfold init_pieces. apply iowp_bind.
  unfold iowp at 1, draw. cbn [draws set_header_area]. destruct (random (draws s2) (N.to_nat PIECES_LEN)) as [r|e] eqn:Er.
  2:{ apply iowp_throw. intros Hh. destruct (hl_random _ _ _ Hh (draws s2) (N.to_nat PIECES_LEN)) as (r & E & _). congruence. }
  apply iowp_bind. eapply iowp_mono; [apply (file_write_spec fate random g)| |by intros s3 (? & _)].
  intros [] s3 (C3 & F3). apply iowp_update. cbn beta.
  assert (Hr : len r = PIECES_LEN) by by apply (Hn (draws s2)).
  destruct C1 as (_ & Cd1 & _ & _ & Cp1), C2 as (_ & Cd2 & _ & _ & Cp2), C3 as (_ & Cd3 & Ca3 & _ & Cp3).
  cbn [data_len header_area pending set_header_area set_draws file] in *.
  eapply iowp_mono; [apply (change_len_spec _ A0)|..].
  - eapply (new_shows _ (draws s2) r); [done|done|..]; cbn [data_len header_area pending file header set_header];
      [congruence|done|congruence| |done|by rewrite F3].
    rewrite F3, F2. unfold len. rewrite splice_length, resize_length. unfold len in Hr.
    unfold DATA_BASE. lia.
  - cbn. congruence.
  - done.
  - intros [] s4 (A' & Hs4 & Hq & Hf4). exists A'. split_and!; [done|done|]. rewrite Hf4.
    change (flat A0) with (zeros LOGICAL_HEADER ++ []). rewrite app_nil_r. unfold resize, zeros.
    rewrite length_replicate, take_replicate, <-replicate_add. f_equal. lia.
  - by intros s4 (? & _).
Qed.

Lemma set_len_zero_spec s : vacant s ∨ (∃ A, shows s A) →
  iowp (set_len fate random g 0) (λ _, vacant) (λ _, ¬ healthy) s.
Proof.
  intros Hs. unfold set_len. rewrite Hrw. change (physical_len ge 0) with (Some FILE_HEADER_LEN). apply iowp_bind.
  apply (iowp_mono _ (λ _ s', pending s' = []) _ (λ _, ¬ healthy)); [|..|done].
  { destruct Hs as [(_ & _ & Hp & _)|[A Hs]].
    - unfold drain, drain_take. apply iowp_bind, iowp_asks. rewrite Hp. cbn [length]. rewrite bool_decide_true by done. by apply iowp_ret.
    - eapply iowp_mono; [by apply drain_spec| |]; [by intros [] s1 (_ & ? & _)|by intros s1 (? & _)]. }
  intros [] s1 Hp. cbn beta. cbn [N.eqb]. apply iowp_bind, iowp_update, iowp_bind, iowp_attempt.
  eapply iowp_mono; [apply file_set_len_spec|..].
  - intros [] s2 (C & F). apply iowp_bind, iowp_update, iowp_ret. change (DATA_BASE <=? FILE_HEADER_LEN) with false.
    destruct C as (_ & Cd & _ & _ & Cp). split_and!; [done|exact Cd|by rewrite <-Hp; exact Cp|].
    cbn [file set_header_area]. rewrite F. unfold len. rewrite resize_length. done.
  - intros s2 (Hu & _). apply iowp_bind, iowp_update, iowp_throw. done.
Qed.
End len.
