(* ===== verification/BackendProps.v ===== *)
(** * The encrypted file layer: its contract

    Calls of redb and a plain file that answers them; the layer refines it, keeps what is
    seen when the device fails, and gives it back after a sync and a reopening. *)
From S2P Require Import Prelude Order Redb B64 Cipher Layout Disk Backend BackendSpec BackendFile BackendHeader BackendWrite.
Import ListRedb.
Local Open Scope N_scope.

(** ** The plain file *)

Inductive FileOp :=
| Read (off n : N)
| Write (off : N) (data : bytes)
| SetLen (n : N)
| Sync
| Close.

(** What a call does to a plain file, and what it answers. *)
Definition plain_step (F : bytes) (op : FileOp) : bytes * bytes :=
  match op with
  | Read off n => (F, sl off n F)
  | Write off data => (splice off data F, [])
  | SetLen n => (resize n F, [])
  | Sync | Close => (F, [])
  end.

Fixpoint plain_run (F : bytes) (ops : list FileOp) : bytes * list bytes :=
  match ops with
  | [] => (F, [])
  | op :: ops' =>
      let '(F1, out) := plain_step F op in
      let '(F2, outs) := plain_run F1 ops' in (F2, out :: outs)
  end.

(** The calls redb makes: reads and writes inside the file, whole pages behind the header
    page, lengths of whole pages; a file with pages grows only when its header page says
    how redb lays it out. *)
Definition op_ok (F : bytes) (op : FileOp) : Prop :=
  match op with
  | Read off n => off + n <= len F
  | Write off data => write_ok (len F) off data
  | SetLen n => n = 0 ∨ ∃ m, n = LOGICAL_HEADER + m * PAGE ∧
      (0 < len F < n → if blank (sl 0 REDB_HEADER_LEN F) then len F = LOGICAL_HEADER
                       else is_Some (region_shape_of (sl 0 REDB_HEADER_LEN F)))
  | Sync | Close => True
  end.

Fixpoint ops_ok (F : bytes) (ops : list FileOp) : Prop :=
  match ops with [] => True | op :: ops' => op_ok F op ∧ ops_ok (plain_step F op).1 ops' end.

Section props.
Context `{CipherLib} (fate : nat → option bytes) (random : nat → nat → outcome CryptoError bytes) (g : Settings).
Abbreviation ge := (geo g).
Abbreviation healthy := (healthy fate random g).
Abbreviation shows := (shows g).

Definition backend_step (op : FileOp) : IO bytes :=
  match op with
  | Read off n => read fate random g off n
  | Write off data => write fate random g off data ;; mret []
  | SetLen n => set_len fate random g n ;; mret []
  | Sync => sync_data fate random g ;; mret []
  | Close => close_backend fate random g ;; mret []
  end.

(** The layer stands for the file [F]; [q] bounds how often its first piece was written. *)
Definition stands (s : Backend) (F : bytes) (q : N) : Prop :=
  (vacant s ∧ F = []) ∨ (∃ A, shows s A ∧ p_exact A = true ∧ p_seq A <= q ∧ F = flat A).

Lemma shows_header s A : shows s A → sl 0 REDB_HEADER_LEN (flat A) = p_header A.
Proof.
  intros Hs. pose proof (sw_hlen _ _ _ Hs) as Hl. unfold flat, top. rewrite <-app_assoc.
  rewrite sl_app_l by lia. by rewrite <-Hl, sl_all.
Qed.

Lemma drain_vacant s : vacant s → drain fate random g s = (s, inl ()).
Proof. intros (_ & _ & Hp & _). unfold drain, drain_take, mbind, IO_bind, asks. by rewrite Hp. Qed.

Lemma sync_spec s A : shows s A →
  iowp (sync_data fate random g) (λ _ s', shows s' A ∧ pending s' = []) (λ s', ¬ healthy ∧ shows s' A) s.
Proof.
  intros Hs. unfold sync_data. apply iowp_bind. eapply iowp_mono; [by apply drain_spec| |by intros s1 (? & ? & _)].
  intros [] s1 (Hs1 & Hp & _). cbn beta. unfold file_sync. apply iowp_bind. unfold iowp at 1, call. cbn.
  destruct (fate (calls s1)) as [x|] eqn:Ef; [|by apply iowp_update; split; [eapply shows_same|]].
  assert (Hs2 : shows (set_calls (S (calls s1)) s1) A) by by eapply shows_same.
  apply iowp_throw. split; [|done]. intros Hh. pose proof (hl_fate _ _ _ Hh (calls s1)). congruence.
Qed.

(** A sync that succeeds leaves nothing that the device could still lose. *)
Lemma sync_flushed s s' : sync_data fate random g s = (s', inl ()) → unsynced s' = [] ∧ durable s' = file s'.
Proof.
  unfold sync_data, file_sync, mbind, IO_bind, call. destruct (drain fate random g s) as [s1 [[]|e]]; [|done].
  destruct (fate (calls s1)); [done|]. intros E. injection E as <-. done.
Qed.

Lemma close_spec s A : shows s A →
  iowp (close_backend fate random g) (λ _ s', shows s' A ∧ pending s' = []) (λ s', ¬ healthy ∧ shows s' A) s.
Proof.
  intros Hs. pose proof (drain_spec fate random g s A Hs) as Hd. unfold iowp in Hd |- *.
  unfold close_backend, mbind, IO_bind, call. destruct (drain fate random g s) as [s1 [[]|e]].
  - destruct Hd as (Hs1 & Hp & _). assert (Hs2 : shows (set_calls (S (calls s1)) s1) A) by by eapply shows_same.
    destruct (fate (calls s1)) as [x|] eqn:Ef; [|done]. split; [|done].
    intros Hh. pose proof (hl_fate _ _ _ Hh (calls s1)). congruence.
  - destruct Hd as (Hu & Hs1 & _). assert (Hs2 : shows (set_calls (S (calls s1)) s1) A) by by eapply shows_same. done.
Qed.

Lemma iowp_unit (m : IO ()) Q (E : Backend → Prop) s : iowp m (λ _, Q) E s → iowp (m ;; mret []) (λ (out : bytes) s', out = [] ∧ Q s') E s.
Proof. intros Hm. apply iowp_bind. eapply iowp_mono; [exact Hm| |done]. intros [] s' Hq. by apply iowp_ret. Qed.

(** One call: the layer answers as the plain file does and goes on standing for it. *)
Lemma step_stands s F q op : read_only g = false → zeros_inert g → noise_inert random g → q + 1 < 2 ^ 64 →
  stands s F q → op_ok F op →
  iowp (backend_step op) (λ out s', out = (plain_step F op).2 ∧ stands s' (plain_step F op).1 (q + 1)) (λ _, ¬ healthy) s.
Proof.
  intros Hrw Hz Hn Hq Hs Hok. destruct Hs as [[Hv ->]|(A & Hs & Hx & Hsq & ->)].
  - assert (Hl : backend_len s = 0) by (unfold backend_len; destruct Hv as [-> _]; done).
    destruct op as [off n|off data|n| |]; cbn [backend_step plain_step fst snd op_ok] in *.
    + unfold len in Hok. cbn in Hok. unfold read. destruct (N.eqb_spec n 0) as [->|]; [|lia]. apply iowp_ret. split; [done|by left].
    + destruct Hok as (Hb & _). unfold len in Hb at 2. cbn in Hb. apply iowp_unit. unfold write.
      destruct (N.eqb_spec (len data) 0) as [E|]; [|lia]. apply iowp_ret. left. split; [done|].
      assert (off = 0) as -> by lia. destruct data; [done|]. unfold len in E. simpl in E. lia.
    + apply iowp_unit. destruct Hok as [->|(m & -> & _)].
      * eapply iowp_mono; [by apply set_len_zero_spec; [|left]| |done]. intros [] s' Hv'. by left.
      * eapply iowp_mono; [by apply set_len_new_spec| |done]. intros [] s' (A' & Hs' & [Kq Kx] & Hf). right. exists A'.
        split_and!; [done|by apply Kx|rewrite Kq; cbn; lia|]. rewrite Hf. unfold resize, zeros. cbn. by rewrite Nat.sub_0_r, take_nil.
    + apply iowp_unit. unfold sync_data. apply iowp_bind. unfold iowp. rewrite (drain_vacant s Hv). unfold file_sync, mbind, IO_bind, call.
      destruct (fate (calls s)) as [x|] eqn:Ef; [|by left]. intros Hh. pose proof (hl_fate _ _ _ Hh (calls s)). congruence.
    + apply iowp_unit. unfold close_backend, iowp, mbind, IO_bind. rewrite (drain_vacant s Hv). unfold call.
      destruct (fate (calls s)) as [x|] eqn:Ef; [|by left]. intros Hh. pose proof (hl_fate _ _ _ Hh (calls s)). congruence.
  - assert (Hkeep : ∀ s' A', shows s' A' → p_exact A' = true → p_seq A' <= p_seq A + 1 → ∀ F', flat A' = F' → stands s' F' (q + 1)).
    { intros s' A' Hs' Hx' Hq' F' <-. right. exists A'. split_and!; [done|done|lia|done]. }
    destruct op as [off n|off data|n| |]; cbn [backend_step plain_step fst snd op_ok] in *.
    + eapply iowp_mono; [by apply read_spec| |by intros s' [? _]]. intros b s' [-> Hs']. split; [done|]. eapply Hkeep; [done|done|lia|done].
    + apply iowp_unit. eapply iowp_mono; [apply write_spec; [done|done|done|lia|done]| |done].
      intros [] s' (A' & Hs' & Hq' & Hx' & Hf). eapply Hkeep; [done|congruence|done|done].
    + apply iowp_unit. destruct Hok as [->|(m & -> & Hg)].
      * eapply iowp_mono; [by apply set_len_zero_spec; [|right; eexists]| |done]. intros [] s' Hv'. by left.
      * eapply iowp_mono; [apply set_len_spec; [done|done|]| |by intros s' [? _]].
        -- intros Hm. unfold growable. rewrite (shows_header s A Hs) in Hg.
           pose proof (shows_len g s A Hs) as Hl. unfold backend_len in Hl. rewrite (sw_area _ _ _ Hs), (sw_len _ _ _ Hs) in Hl.
           rewrite Hl in Hg. specialize (Hg ltac:(unfold LOGICAL_HEADER, PAGE in *; lia)). destruct (blank (p_header A)); [|done].
           apply nil_length_inv. unfold len, LOGICAL_HEADER, PAGE in *. lia.
        -- intros [] s' (A' & Hs' & [Kq Kx] & Hf). eapply Hkeep; [done|by apply Kx|lia|done].
    + apply iowp_unit. eapply iowp_mono; [by apply sync_spec| |by intros s' [? _]]. intros [] s' [Hs' _]. eapply Hkeep; [done|done|lia|done].
    + apply iowp_unit. eapply iowp_mono; [by apply close_spec| |by intros s' [? _]]. intros [] s' [Hs' _]. eapply Hkeep; [done|done|lia|done].
Qed.

Lemma run_stands ops : read_only g = false → zeros_inert g → noise_inert random g → ∀ s F q,
  q + len ops < 2 ^ 64 → stands s F q → ops_ok F ops →
  iowp (collect ops backend_step)
    (λ outs s', outs = (plain_run F ops).2 ∧ stands s' (plain_run F ops).1 (q + len ops)) (λ _, ¬ healthy) s.
Proof.
  intros Hrw Hz Hn. induction ops as [|op ops IH]; intros s F q Hq Hs Hok.
  - apply iowp_ret. split; [done|]. unfold len. simpl. by rewrite N.add_0_r.
  - destruct Hok as [Ho Hok]. cbn [collect plain_run]. assert (El : len (op :: ops) = len ops + 1) by (unfold len; simpl; lia).
    rewrite El in Hq |- *. destruct (plain_step F op) as [F1 out1] eqn:Ep. apply iowp_bind.
    eapply iowp_mono; [apply (step_stands s F q op); [done|done|done|lia|done|done]| |done]. rewrite Ep. cbn [fst snd] in *.
    intros out s1 [-> Hs1]. cbn beta. destruct (plain_run F1 ops) as [F2 outs2] eqn:Er. apply iowp_bind.
    eapply iowp_mono; [apply (IH s1 F1 (q + 1)); [lia|done|done]| |done]. rewrite Er. cbn [fst snd].
    intros outs s2 [-> Hs2]. apply iowp_ret. split; [done|]. by replace (q + (len ops + 1)) with (q + 1 + len ops) by lia.
Qed.

Lemma run_end ops s F q : healthy → read_only g = false → zeros_inert g → noise_inert random g →
  q + len ops < 2 ^ 64 → stands s F q → ops_ok F ops →
  stands (collect ops backend_step s).1 (plain_run F ops).1 (q + len ops).
Proof.
  intros Hh Hrw Hz Hn Hq Hs Hok. pose proof (run_stands ops Hrw Hz Hn s F q Hq Hs Hok) as Hr. unfold iowp in Hr.
  destruct (collect ops backend_step s) as [s' [outs|e]]; [apply Hr|]. by destruct (Hr Hh).
Qed.

(** ** Opening again *)

(** What a crash leaves of a change that was not synced: of a write any bytes in its range. *)
Inductive survives : DevOp → DevOp → Prop :=
| survives_write off d d' : length d' = length d → survives (DevWrite off d) (DevWrite off d')
| survives_len n : survives (DevLen n) (DevLen n).

(** The files a crash may leave: the file of the last sync, with any of the changes since then,
    whole or in part, in any order. *)
Definition crash_image (s : Backend) (f : bytes) : Prop :=
  ∃ ops, Forall (λ op, ∃ made, made ∈ unsynced s ∧ survives made op) ops ∧ f = foldl dev_apply (durable s) ops.

Lemma crash_durable s : crash_image s (durable s).
Proof. by exists []. Qed.

Lemma crash_image_synced s f : unsynced s = [] → crash_image s f → f = durable s.
Proof.
  intros Hu (ops & Ho & ->). destruct ops as [|op ops]; [done|]. apply Forall_cons in Ho as [(made & Hm & _) _].
  rewrite Hu in Hm. by apply elem_of_nil in Hm.
Qed.

Lemma reopen_shows fate' s A : (∀ i, fate' i = None) → shows s A → pending s = [] → p_exact A = true →
  ∃ s', open_backend fate' g (file s) = (s', inl ()) ∧ shows s' A.
Proof.
  intros Hf Hs Hp Hx. pose proof (sw_file _ _ _ Hs) as Hfile. pose proof (sw_exact _ _ _ Hs Hx) as Hend.
  assert (Hbase : DATA_BASE <= len (file s)) by (unfold block_offset in Hfile; lia).
  unfold open_backend. cbn zeta. set (s0 := {| file := file s; calls := 0 |}).
  unfold mbind at 1. unfold IO_bind at 1. unfold file_len at 1. unfold mbind at 1. unfold IO_bind at 1. unfold call at 1. rewrite Hf. unfold asks at 1.
  unfold mbind at 1. unfold IO_bind at 1. unfold update at 1. cbn [file set_calls s0].
  destruct (N.leb_spec DATA_BASE (len (file s))); [|lia].
  match goal with |- ∃ _, load_header _ _ ?x = _ ∧ _ => destruct (load_header_spec fate' g x Hf Hbase eq_refl) as [n E] end.
  rewrite E. eexists. split; [done|]. clear E. cbn [file set_data_len set_header_area set_calls].
  rewrite (header_of_pieces g (file s) (header s)); [|done|rewrite (sw_header _ _ _ Hs); apply Hs|apply Hs].
  destruct Hs as [s1 s2 s3 s4 s5 s6 s7 s8 s9 s10 s11 s12].
  split; cbn [file header header_area data_len pending set_header set_calls set_data_len set_header_area]; try done.
  - replace (len (file s)) with (block_offset ge (len (p_pages A)) + (len (file s) - block_offset ge (len (p_pages A)))) by lia.
    rewrite logical_len_pages by (rewrite block_offset_S in Hend; unfold strd in Hend; lia). lia.
  - intros i p Hi. unfold seen. cbn [pending file set_header set_calls set_data_len set_header_area l_get].
    destruct (s5 i p Hi) as [Hl Hv]. unfold seen in Hv. by rewrite Hp in Hv.
  - constructor.
  - by intros i q Hq%elem_of_nil.
Qed.

Lemma reopen_vacant fate' s : (∀ i, fate' i = None) → vacant s → ∃ s', open_backend fate' g (file s) = (s', inl ()) ∧ vacant s'.
Proof.
  intros Hf (_ & _ & _ & Hl). unfold open_backend, file_len, mbind, IO_bind, call. rewrite Hf. cbn.
  destruct (N.leb_spec DATA_BASE (len (file s))); [lia|]. eexists. split; [done|]. split_and!; cbn; [done| |done|done].
  unfold logical_len. destruct (N.ltb_spec (len (file s)) DATA_BASE); [done|lia].
Qed.

(** ** Pages staged while a drain runs *)

Definition stage_all (ws : list (N * bytes)) : IO () := each ws (λ w, stage_one w.1 w.2).
Definition put_all (ws : list (N * bytes)) (A : Plain) : Plain :=
  fold_left (λ A w, set_pages (<[N.to_nat w.1 := w.2]> (p_pages A)) A) ws A.

Lemma put_all_len ws : ∀ A, len (p_pages (put_all ws A)) = len (p_pages A).
Proof. induction ws as [|w ws IH]; intros A; [done|]. cbn [put_all fold_left]. fold (put_all ws). rewrite IH. cbn. unfold len. by rewrite length_insert. Qed.

Lemma stage_all_spec ws : parallel_seal g = true → ∀ s A, shows s A → Forall (λ w, w.1 < len (p_pages A) ∧ len w.2 = PAGE) ws →
  iowp (stage_all ws) (λ _ s', shows s' (put_all ws A) ∧ file s' = file s ∧
    ∀ i now, l_get (pending s') i = Some now → (allocs s <= now.1 ∧ i ∈ ws.*1) ∨ l_get (pending s) i = Some now) (λ _, False) s.
Proof.
  intros Hm. induction ws as [|[i p] ws IH]; intros s A Hs Hw.
  - apply iowp_ret. split_and!; [done|done|]. intros j now Hj. by right.
  - apply Forall_cons in Hw as [[Hi Hp] Hw]. cbn [stage_all each]. fold (stage_all ws). apply iowp_bind. unfold stage_one.
    apply iowp_update. cbn [fst snd]. set (s1 := set_pending _ _ s).
    assert (Hs1 : shows s1 (set_pages (<[N.to_nat i := p]> (p_pages A)) A)) by by apply stage_one_shows.
    eapply iowp_mono; [apply (IH s1); [done|]| |done].
    + eapply Forall_impl; [exact Hw|]. intros w Hww. cbn [set_pages p_pages]. unfold len. by rewrite length_insert.
    + intros [] s2 (Hs2 & F2 & P2). split_and!; [done|done|]. intros j now Hj.
      destruct (P2 j now Hj) as [[Ha Hin]|Hg]; [left; cbn in Ha |- *; split; [lia|set_solver]|].
      cbn [pending s1 set_pending] in Hg. rewrite l_get_insert in Hg.
      case_decide as Hd; [injection Hg as <-; left; cbn; split; [lia|set_solver]|]. by right.
Qed.
End props.

(** ** Properties *)

Section theorems.
Context `{CipherLib} (fate : nat → option bytes) (random : nat → nat → outcome CryptoError bytes) (g : Settings).

(** C29: the encrypted layer is a plain file.  On a device that works, every sequence of
    the calls redb makes (reads, writes of header bytes and whole pages, changes of length,
    syncs) gives, call by call, the answers a plain file gives, whatever is staged in
    memory at the time and whether pages are staged at all, and the layer goes on standing
    for that file. *)
Theorem backend_refines_file ops s F q :
  healthy fate random g → read_only g = false → zeros_inert g → noise_inert random g →
  q + len ops < 2 ^ 64 → stands g s F q → ops_ok F ops →
  ∃ s', collect ops (backend_step fate random g) s = (s', inl (plain_run F ops).2) ∧
    stands g s' (plain_run F ops).1 (q + len ops).
Proof.
  intros Hh Hrw Hz Hn Hq Hs Hok. pose proof (run_stands fate random g ops Hrw Hz Hn s F q Hq Hs Hok) as Hr.
  unfold iowp in Hr. destruct (collect _ _ s) as [s' [outs|e]]; [|done]. destruct Hr as [-> Hs']. eauto.
Qed.

(** C30: a sync that reports success makes the file durable.  Whatever the device did before,
    whatever file a crash right after the sync may leave, of the changes the device had not
    synced any part in any order, opening it gives a layer that stands for the same file:
    header pieces, pages and length. *)
Theorem sync_durable fate' s s' F q f :
  stands g s F q → sync_data fate random g s = (s', inl ()) → crash_image s' f → (∀ i, fate' i = None) →
  ∃ s2, open_backend fate' g f = (s2, inl ()) ∧ stands g s2 F q.
Proof.
  intros Hs E Hf' Hf. destruct (sync_flushed _ _ _ _ _ E) as [Hu Hd]. apply crash_image_synced in Hf' as ->; [|done]. rewrite Hd.
  destruct Hs as [[Hv ->]|(A & Hs & Hx & Hq & ->)].
  - assert (Ef : file s' = file s).
    { unfold sync_data, mbind, IO_bind in E. rewrite drain_vacant in E by done. unfold file_sync, mbind, IO_bind, call in E.
      destruct (fate (calls s)); [done|]. by injection E as <-. }
    rewrite Ef. destruct (reopen_vacant g fate' s Hf Hv) as (s2 & E2 & V2). exists s2. split; [done|]. by left.
  - pose proof (sync_spec fate random g s A Hs) as Hy. unfold iowp in Hy. rewrite E in Hy. destruct Hy as [Hs' Hp].
    destruct (reopen_shows g fate' s' A Hf Hs' Hp Hx) as (s2 & E2 & Hs2). exists s2. split; [done|]. right. eauto.
Qed.

(** A failing device loses nothing that redb wrote.  A read, a sync or a close, on
    whatever device and random source, leaves the layer standing for the same file whether
    it succeeds or fails: staged pages stay staged until they are in the file. *)
Lemma failure_keeps_pages s A op :
  shows g s A → match op with Read off n => off + n <= len (flat A) | Sync | Close => True | _ => False end →
  shows g (backend_step fate random g op s).1 A.
Proof.
  intros Hs Hop. destruct op as [off n|off data|n| |]; try done; cbn [backend_step].
  - pose proof (read_spec fate random g s A off n Hs Hop) as Hr. unfold iowp in Hr.
    destruct (read fate random g off n s) as [s' [b|e]]; [apply Hr|apply Hr].
  - pose proof (sync_spec fate random g s A Hs) as Hr. unfold iowp in Hr. unfold mbind, IO_bind.
    destruct (sync_data fate random g s) as [s' [[]|e]]; apply Hr.
  - pose proof (close_spec fate random g s A Hs) as Hr. unfold iowp in Hr. unfold mbind, IO_bind.
    destruct (close_backend fate random g s) as [s' [[]|e]]; apply Hr.
Qed.

(** C31: a torn header write is harmless.  When writing redb's header bytes fails at any
    point, and the torn sector does not authenticate, opening the file gives the old first
    64 bytes (with redb's choice of commit slot) and at most one commit slot that is lost
    or of unknown age, the other being whole; or everything new. *)
Theorem torn_header s s' e off data :
  zeros_inert g → torn_inert fate g → read_only g = false → DATA_BASE <= len (file s) →
  len (h_bytes (header s)) = 320 → h_seq (header s) + 1 < 2 ^ 64 → pieces g (file s) (header s) →
  blank (drop (N.to_nat (N.min (len data) (REDB_HEADER_LEN - off))) data) = true →
  write_header_range fate random g off data s = (s', inr e) →
  torn_outcome (h_bytes (header s)) (header_put off data (h_bytes (header s))) (h_bytes (header_of g (file s'))).
Proof.
  intros Hz Ht Hrw Hl Hb Hq Hp Hbl E.
  pose proof (write_header_range_spec fate random g s off data Hz Hrw Hl Hb Hq Hp Hbl) as Hw. unfold iowp in Hw.
  rewrite E in Hw. by apply Hw.
Qed.

(** a page written while a drain runs is not lost.  The drain takes the staged pages,
    seals and writes them without the lock, and drops them at the end; pages staged in
    between, of new blocks or of blocks being drained, stay staged (their allocation is
    another), and every page that was not written again is dropped. *)
Lemma drain_keeps_new_pages s s1 A ws :
  parallel_seal g = true → shows g s A → (∀ i q, (i, q) ∈ pending s → q.1 < allocs s) →
  Forall (λ w, w.1 < len (p_pages A) ∧ len w.2 = PAGE) ws →
  drain_write fate random g (pending s) s = (s1, inl ()) →
  ∃ s2, (stage_all ws ;; drain_done (pending s)) s1 = (s2, inl ()) ∧ shows g s2 (put_all ws A) ∧
    ∀ i, is_Some (l_get (pending s2) i) → i ∈ ws.*1.
Proof.
  intros Hm Hs Hfresh Hw E. pose proof (keys_nodup _ (sw_sorted _ _ _ Hs)) as Hnd.
  pose proof (drain_write_spec fate random g (pending s) (len (p_pages A)) s Hnd) as Hd. unfold iowp in Hd. rewrite E in Hd.
  destruct Hd as (C1 & F1 & O1); [|apply Hs|].
  { apply Forall_forall. intros [i q] Hq. by apply (sw_keys _ _ _ Hs). }
  pose proof (shows_frame g s s1 A Hs C1 F1) as Hs1. assert (Ep : pending s1 = pending s ∧ allocs s1 = allocs s) by (destruct C1 as (?&?&?&?&?); done).
  destruct Ep as [Ep Ea]. pose proof (stage_all_spec g ws Hm s1 A Hs1 Hw) as Hst. unfold iowp in Hst.
  unfold mbind, IO_bind. destruct (stage_all ws s1) as [s2 [[]|]]; [|done]. destruct Hst as (Hs2 & F2 & P2).
  rewrite Ep, Ea in P2.
  assert (Hb : ∀ i e, l_get (pending s) i = Some e →
    open (aead g) (block_aad i) (block g (file s2) i) = inl e.2 ∧
    ∀ now, l_get (pending s2) i = Some now → now.1 = e.1 → now = e).
  { intros i e Ei. apply l_get_elem in Ei as Hin; [|apply Hs]. split; [rewrite F2; by apply O1|]. intros now En Et.
    destruct (P2 i now En) as [[Ha _]|Hg]; [|congruence]. pose proof (Hfresh _ _ Hin). lia. }
  pose proof (drain_done_shows g (pending s) s2 (put_all ws A) Hs2 Hnd Hb) as Hdd. unfold iowp in Hdd.
  destruct (drain_done (pending s) s2) as [s3 [[]|]]; [|done]. destruct Hdd as (Hs3 & _ & _ & G).
  exists s3. split_and!; [done|done|]. intros i [q Hi]. rewrite G in Hi.
  destruct (l_get (pending s2) i) as [now|] eqn:En; [|done].
  destruct (P2 i now En) as [[_ Hin]|Hg]; [done|]. rewrite Hg, N.eqb_refl in Hi. done.
Qed.
End theorems.

(** ** Witnesses *)

Module BackendDemo.
#[local] Existing Instance toy_cipher.
Definition g0 : Settings :=
  {| aead := {| kind := Aes256Gcm; a_key := [] |}; read_only := false; parallel_seal := true |}.
Definition calm : nat → option bytes := λ _, None.
Definition broken : nat → option bytes := λ _, Some (zeros 512).
Definition fives : nat → nat → outcome CryptoError bytes := λ _ n, inl (replicate n Byte.x05).

(** The toy cipher's tag starts with the authenticated data. *)
Lemma toy_open_fails k raw : len raw = 512 → raw !! 496%nat ≠ Some Byte.x68 → ∃ e, open (aead g0) (piece_aad k) raw = inr e.
Proof.
  intros Hl Hr. destruct (open (aead g0) (piece_aad k) raw) as [p|e] eqn:E; [|by eexists]. exfalso.
  apply open_exact in E as (nonce & Hn & E). unfold seal_with in E. rewrite Hn, Nat.eqb_refl in E.
  cbn [negb encrypt toy_cipher] in E. injection E as E.
  assert (Ht : length (toy_tag nonce (piece_aad k) p) = 16%nat).
  { unfold toy_tag. rewrite length_take, !length_app, length_replicate. unfold TAG_LEN. lia. }
  rewrite <-E in Hl, Hr. unfold len in Hl. rewrite !length_app in Hl. apply Hr. rewrite app_assoc.
  rewrite lookup_app_r by (rewrite length_app; lia). rewrite length_app.
  by replace (496 - (length nonce + length p))%nat with 0%nat by lia.
Qed.

Lemma calm_healthy : healthy calm fives g0.
Proof. split; [done| |by eexists]. intros i n. eexists. split; [done|]. apply length_replicate. Qed.
Lemma toy_zeros : zeros_inert g0.
Proof. intros k. apply toy_open_fails; [done|]. vm_compute. discriminate. Qed.
Lemma toy_noise : noise_inert fives g0.
Proof.
  intros i r Hr. assert (r = replicate (N.to_nat PIECES_LEN) Byte.x05) as -> by (unfold fives in Hr; congruence).
  split; [done|]. intros k copy Hc. apply toy_open_fails.
  - apply sl_len. unfold len. rewrite length_replicate. unfold PIECES_LEN, PIECE_LEN. lia.
  - rewrite sl_lookup. rewrite decide_True by (unfold PIECE_LEN; lia). rewrite lookup_replicate_2; [done|].
    unfold PIECES_LEN, PIECE_LEN. lia.
Qed.
Lemma toy_torn : torn_inert broken g0.
Proof.
  intros i x d k Hx Hd. assert (x = zeros 512) as -> by (unfold broken in Hx; congruence). right. apply toy_open_fails.
  - unfold torn, len. rewrite resize_length. unfold len, PIECE_LEN in Hd. lia.
  - unfold torn. rewrite Hd. vm_compute. discriminate.
Qed.

Definition page (b : byte) : bytes := replicate 4096 b.
Definition s0 : Backend := (open_backend calm g0 (zeros 2048)).1.
Definition ops : list FileOp :=
  [SetLen 8192; Write 4096 (page Byte.x07); Read 5000 2; Write 64 [Byte.x01; Byte.x02]; Write 4096 (page Byte.x08); Read 4095 2].

Lemma s0_stands : stands g0 s0 [] 0.
Proof. left. split; [|done]. by repeat split. Qed.
Lemma demo_ops_ok : ops_ok [] ops.
Proof.
  cbn [ops_ok ops]. split_and!; [|vm_compute..]; try by repeat split; intros; discriminate || (repeat split; discriminate).
  right. exists 1. split; [done|]. intros [Hf _]. done.
Qed.

(** The layer after these calls: one page staged, one written. *)
Definition s1 : Backend := (collect ops (backend_step calm fives g0) s0).1.
Definition F1 : bytes := (plain_run [] ops).1.

Lemma s1_stands : stands g0 s1 F1 (0 + len ops).
Proof. exact (run_end calm fives g0 ops s0 [] 0 calm_healthy eq_refl toy_zeros toy_noise eq_refl s0_stands demo_ops_ok). Qed.

Lemma F1_len : len F1 = 8192.
Proof. vm_compute. reflexivity. Qed.

Lemma s1_shows : ∃ A, shows g0 s1 A ∧ flat A = F1.
Proof.
  destruct s1_stands as [[_ E]|(A & Hs & _ & _ & ->)]; [|by exists A].
  pose proof F1_len as Hl. rewrite E in Hl. discriminate.
Qed.

Lemma backend_refines_file_witness :
  (collect ops (backend_step calm fives g0) s0).2 =
    inl [[]; []; [Byte.x07; Byte.x07]; []; []; [Byte.x00; Byte.x08]].
Proof.
  destruct (backend_refines_file calm fives g0 ops s0 [] 0 calm_healthy eq_refl toy_zeros toy_noise ltac:(done) s0_stands demo_ops_ok)
    as (s' & E & _). rewrite E. vm_compute. reflexivity.
Defined.

(** The layer after a sync; before it, a crash may leave the file the layer was opened on. *)
Definition synced1 : Backend := (sync_data calm fives g0 s1).1.
Lemma synced1_ok : sync_data calm fives g0 s1 = (synced1, inl ()).
Proof.
  assert (E : (sync_data calm fives g0 s1).2 = inl ()) by (vm_compute; reflexivity). rewrite <-E. apply surjective_pairing.
Qed.

Lemma sync_durable_witness :
  crash_image s1 (zeros 2048) ∧
  ∃ s2, open_backend calm g0 (durable synced1) = (s2, inl ()) ∧ stands g0 s2 F1 (0 + len ops).
Proof.
  assert (Ed : durable s1 = zeros 2048) by (vm_compute; reflexivity).
  refine (conj (eq_ind _ (crash_image s1) (crash_durable s1) _ Ed) _).
  exact (sync_durable calm fives g0 calm s1 synced1 F1 (0 + len ops) (durable synced1) s1_stands synced1_ok (crash_durable synced1) (λ _, eq_refl)).
Defined.

Lemma failure_keeps_pages_example :
  (backend_step broken fives g0 Sync s1).2 = inr Device ∧
  ∃ A, shows g0 (backend_step broken fives g0 Sync s1).1 A ∧ flat A = F1.
Proof.
  split; [vm_compute; reflexivity|]. destruct s1_shows as (A & Hs & EF). exists A. split; [|exact EF].
  apply (failure_keeps_pages broken fives g0 s1 A Sync Hs). exact I.
Defined.

Lemma torn_header_witness :
  let s' := (write_header_range broken fives g0 192 [Byte.x09] s1).1 in
  torn_outcome (h_bytes (header s1)) (header_put 192 [Byte.x09] (h_bytes (header s1))) (h_bytes (header_of g0 (file s'))).
Proof.
  assert (E : (write_header_range broken fives g0 192 [Byte.x09] s1).2 = inr Device) by (vm_compute; reflexivity).
  destruct s1_shows as (A & Hs & _). apply (torn_header broken fives g0 s1 _ Device 192 [Byte.x09]).
  - exact toy_zeros.
  - exact toy_torn.
  - reflexivity.
  - vm_compute. discriminate.
  - vm_compute. reflexivity.
  - vm_compute. reflexivity.
  - exact (sw_pieces _ _ _ Hs).
  - vm_compute. reflexivity.
  - rewrite <-E. apply surjective_pairing.
Defined.

Lemma drain_keeps_new_pages_example :
  ∃ A s2, shows g0 s1 A ∧ (stage_all [(0, page Byte.x09)] ;; drain_done (pending s1)) (drain_write calm fives g0 (pending s1) s1).1 = (s2, inl ()) ∧
    shows g0 s2 (put_all [(0, page Byte.x09)] A).
Proof.
  destruct s1_shows as (A & Hs & EF). assert (El : len (p_pages A) = 1).
  { pose proof (shows_len g0 s1 A Hs) as Hl. rewrite EF in Hl. unfold backend_len in Hl.
    rewrite (sw_area _ _ _ Hs), (sw_len _ _ _ Hs) in Hl. rewrite F1_len in Hl. unfold LOGICAL_HEADER, PAGE in Hl. lia. }
  assert (E : (drain_write calm fives g0 (pending s1) s1).2 = inl ()) by (vm_compute; reflexivity).
  destruct (drain_keeps_new_pages calm fives g0 s1 (drain_write calm fives g0 (pending s1) s1).1 A [(0, page Byte.x09)]) as (s2 & E2 & Hs2 & _).
  - reflexivity.
  - exact Hs.
  - assert (Ep : forallb (λ p, p.2.1 <? allocs s1) (pending s1) = true) by (vm_compute; reflexivity).
    rewrite forallb_forall in Ep. intros i q Hq. apply list_elem_of_In in Hq. apply Ep in Hq. by apply N.ltb_lt in Hq.
  - constructor; [|constructor]. rewrite El. split; reflexivity.
  - rewrite <-E. apply surjective_pairing.
  - exists A, s2. split; [exact Hs|]. split; [exact E2|exact Hs2].
Defined.

(** When the device refuses to cut the file to nothing, the flag that says whether the
    header area exists is cleared although the file is as long as before, and the next
    change of length does not set it again: it reports success, and redb sees length 0. *)
Definition s4 : Backend := (collect [SetLen 8192; Sync] (backend_step calm fives g0) s0).1.
Definition once : nat → option bytes := λ i, if (i =? calls s4)%nat then Some [] else None.

Lemma failed_cut_hides_file :
  let r1 := set_len once fives g0 0 s4 in
  let r2 := set_len once fives g0 8192 r1.1 in
  r1.2 = inr Device ∧ r2.2 = inl () ∧ backend_len r2.1 = 0 ∧ (DATA_BASE <=? len (file r2.1)) = true.
Proof. vm_compute. done. Qed.
End BackendDemo.
