(* ===== verification/Chain.v ===== *)
(** * Migration chains ([migration/chain.rs], [migration/types.rs], [migration/layout.rs])

    Each table has a chain of migrations: an index file that lists them in order, a
    manifest file for each, and the layouts of its versions; a root index summarises the
    tables.  The files are plain, or sealed in an encrypted database.

    Files are reached through [MigrationFiles], which replaces a file as a whole; the
    store below is a map from the logical place of a file ([parts]) to its content, where
    a sealed file may fail to open.  [fate i] is the answer of the [i]th call to the file
    system: a failing write says whether the new content got its name. *)
From S2P Require Import Prelude Order Redb.
Local Open Scope N_scope.

(** ** Types *)

Inductive MigrationKind := InPlaceEvolve | DataTransfer | ExternalImport.
Inductive TargetConflictPolicy := PolicyFail | Skip | OverwriteIfCompatible | Overwrite.

Record SchemaRef := { sr_db : str; sr_table : str; sr_schema_id : str; schema_version : N }.
Record VersionScope := {
  backup_versions_from : N; backup_versions_to : N; scope_table : str; primary_snapshot_ref : option str;
}.
Record TableRenameInfo := { ri_from : str; ri_to : str; backup_rewrite : bool }.
(** [fd_default]: the text of a JSON value. *)
Record FieldDiffEntry := { fd_op : str; fd_field : str; fd_default : option str; from_field : option str }.

Record MigrationManifest := {
  migration_id : str; parent_migration_id : option str; mf_timestamp : Z; mf_kind : MigrationKind;
  mf_from : SchemaRef; mf_to : SchemaRef; version_scope : VersionScope;
  from_layout_hash : str; to_layout_hash : str; target_conflict_policy : TargetConflictPolicy;
  table_rename : option TableRenameInfo; field_diff : option (list FieldDiffEntry);
}.

Record MigrationIndexEntry := { ie_migration_id : str; ie_order : N }.
Record TableChainSummary := { ts_schema_id : str; ts_current_version : N; ts_initial_version : N }.
Record TableChainIndex := {
  schema_id : str; current_version : N; initial_version : N; chain : list MigrationIndexEntry;
}.
Record DbMigrationRootIndex := { index_version : N; ri_db_name : str; ri_tables : gmap str TableChainSummary }.

Definition MIGRATION_INDEX_VERSION : N := 2.

Record FieldSpec := { fs_name : str; json_type : str; required : bool }.
Record FieldLayout := { l_fields : list FieldSpec; layout_hash : str }.

(** ** Files *)

Inductive Stored := Whole (b : bytes) | Damaged.

Record FS := { fs_files : gmap (list str) Stored; fs_calls : nat }.

(** What a failing call leaves: nothing, or the new content under its name. *)
Inductive Failure := Before | After.

Definition FM (A : Type) : Type := FS → FS * result A.

#[global] Instance FM_ret : MRet FM := λ A a s, (s, Ok a).
#[global] Instance FM_bind : MBind FM := λ A B k m s,
  match m s with (s', Ok a) => k a s' | (s', Err e) => (s', Err e) end.

Definition fm_lift {A} (r : result A) : FM A := λ s, (s, r).
(** [if let Ok(v) = m] and [match m]: the error as an answer. *)
Definition fm_try {A} (m : FM A) : FM (result A) := λ s, let '(s', r) := m s in (s', Ok r).

Fixpoint fm_traverse {A B} (f : A → FM B) (l : list A) : FM (list B) :=
  match l with
  | [] => mret []
  | a :: l' => b ← f a; bs ← fm_traverse f l'; mret (b :: bs)
  end.

(** serde and text: reading a text as UTF-8 and trimming it, and whether it is JSON. *)
Class IndexText := {
  utf8_trim : bytes → option str;
  json_ok : str → bool;
}.

(** The text of a value: [to_vec_pretty] and [from_slice]. *)
Class Doc (A : Type) `{IndexText} := {
  doc_serde :: Serde A;
  doc_text : ∀ a : A, ∃ t, utf8_trim (ser a) = Some t ∧ t ≠ [] ∧ json_ok t = true;
  doc_not_nul : ∀ a : A, forallb (λ b, bool_decide (b = Byte.x00)) (ser a) = false;
}.

Section files.
Context (fate : nat → option Failure) (sealed : bool).

Definition next_call : FM (option Failure) :=
  λ s, ({| fs_files := fs_files s; fs_calls := S (fs_calls s) |}, Ok (fate (fs_calls s))).

Definition io_error : ClError := IoError (lit "file system").

Definition get_file (parts : list str) : FM (option Stored) := λ s, (s, Ok (fs_files s !! parts)).
Definition set_file (parts : list str) (f : option Stored) : FM () :=
  λ s, ({| fs_files := partial_alter (λ _, f) parts (fs_files s); fs_calls := fs_calls s |}, Ok ()).

(** A file that cannot be looked at does not exist. *)
Definition fs_exists (parts : list str) : FM bool :=
  a ← next_call;
  match a with
  | Some _ => mret false
  | None => f ← get_file parts; mret (bool_decide (is_Some f))
  end.

(** A sealed file that was changed is [DataTampered]; a plain one is its bytes. *)
Definition fs_read (parts : list str) : FM (option bytes) :=
  a ← next_call;
  match a with
  | Some _ => fm_lift (Err io_error)
  | None =>
      f ← get_file parts;
      match f with
      | None => mret None
      | Some (Whole b) => mret (Some b)
      | Some Damaged => if sealed then fm_lift (Err DataTampered) else mret (Some [])
      end
  end.

(** [write_atomic] and the sealed write: the name holds the old file or the new one. *)
Definition fs_write (parts : list str) (b : bytes) : FM () :=
  a ← next_call;
  match a with
  | None => set_file parts (Some (Whole b))
  | Some Before => fm_lift (Err io_error)
  | Some After => set_file parts (Some (Whole b)) ;; fm_lift (Err io_error)
  end.

Definition create_dir_all : FM () :=
  a ← next_call; match a with None => mret () | Some _ => fm_lift (Err io_error) end.

(** [set_aside] and [quarantine_corrupt_file]: the file loses its name. *)
Definition move_aside (parts : list str) : FM () :=
  a ← next_call;
  match a with
  | None => set_file parts None
  | Some _ => fm_lift (Err (CorruptMigrationIndex [] (lit "also failed to remove")))
  end.

Section docs.
Context `{IndexText}.

Definition is_corrupt_index_bytes (data : bytes) : bool :=
  bool_decide (data = []) || forallb (λ b, bool_decide (b = Byte.x00)) data ||
  match utf8_trim data with
  | None => true
  | Some t => bool_decide (t = []) || negb (json_ok t)
  end.

Context {DM : Doc MigrationManifest} {DI : Doc TableChainIndex} {DR : Doc DbMigrationRootIndex} {DL : Doc FieldLayout}
  {DS : Doc (list (str * str))}.

(** ** A table's chain *)

Record TableMigrationChain := { tc_table : str; tc_index : TableChainIndex; tc_manifests : list MigrationManifest }.

Definition index_parts (table : str) : list str := [lit "tables"; table; lit "index.json"].
Definition manifest_parts (table id : str) : list str := [lit "tables"; table; id; lit "manifest.json"].
Definition layout_name (version : N) : str := lit "v" ++ dec version ++ lit ".json".
Definition layout_parts (table : str) (version : N) : list str := [lit "tables"; table; lit "layouts"; layout_name version].
Definition ref_parts (table id name : str) : list str := [lit "tables"; table; id; lit "refs"; name ++ lit ".json"].
Definition root_parts : list str := [lit "index.json"].

Definition fresh_index (table : str) : TableChainIndex :=
  {| schema_id := table; current_version := 1; initial_version := 1; chain := [] |}.

(** What an unreadable file means: tampering when sealed, nothing otherwise. *)
Definition load_or_recover_table_index (table : str) : FM (option TableChainIndex) :=
  data ← fs_read (index_parts table);
  let data := default [] data in
  if is_corrupt_index_bytes data then move_aside (index_parts table) ;; mret None
  else match de (A := TableChainIndex) data with
       | Some index => mret (Some index)
       | None => move_aside (index_parts table) ;; mret None
       end.

(** A manifest of a plain chain; one that cannot be read is moved aside and left out. *)
Definition load_manifest (table : str) (e : MigrationIndexEntry) : FM (option MigrationManifest) :=
  let parts := manifest_parts table (ie_migration_id e) in
  found ← fs_exists parts;
  if (found : bool) then
    data ← fs_read parts;
    let data := default [] data in
    if is_corrupt_index_bytes data then move_aside parts ;; mret None
    else match de (A := MigrationManifest) data with
         | Some m => mret (Some m)
         | None => move_aside parts ;; mret None
         end
  else mret None.

Definition load_table_chain (table : str) : FM TableMigrationChain :=
  found ← fs_exists (index_parts table);
  index ← (if (found : bool) then load_or_recover_table_index table else mret None);
  let index := default (fresh_index table) index in
  ms ← fm_traverse (load_manifest table) (chain index);
  mret {| tc_table := table; tc_index := index; tc_manifests := omap id ms |}.

(** A sealed chain is real history: what does not open, or is missing, fails the load. *)
Definition load_manifest_sealed (table : str) (e : MigrationIndexEntry) : FM MigrationManifest :=
  data ← fs_read (manifest_parts table (ie_migration_id e));
  match data with
  | Some b => fm_lift (ok_or (de b) DataTampered)
  | None => fm_lift (Err DataTampered)
  end.

Definition load_table_chain_sealed (table : str) : FM TableMigrationChain :=
  data ← fs_read (index_parts table);
  index ← (match data with
           | Some b => fm_lift (ok_or (de b) DataTampered)
           | None => mret (fresh_index table)
           end);
  ms ← fm_traverse (load_manifest_sealed table) (chain index);
  mret {| tc_table := table; tc_index := index; tc_manifests := ms |}.

(** The index file is written unless it already has these bytes. *)
Definition write_unless_same (parts : list str) (b : bytes) (look : FM (option bytes)) : FM () :=
  existing ← fm_try look;
  match existing with
  | Ok (Some old) => if bool_decide (old = b) then mret () else fs_write parts b
  | _ => fs_write parts b
  end.

(** [path.exists()] before reading, for plain files. *)
Definition look_plain (parts : list str) : FM (option bytes) :=
  found ← fs_exists parts; if (found : bool) then fs_read parts else mret None.

Definition ensure_layout (c : TableMigrationChain) (version : N) (layout : FieldLayout) : FM () :=
  let path := layout_parts (tc_table c) version in
  (if sealed then mret () else create_dir_all) ;;
  found ← fs_exists path;
  (if (found : bool) then mret () else fs_write path (ser layout)) ;;
  (if sealed then mret () else create_dir_all) ;;
  let index := index_parts (tc_table c) in
  write_unless_same index (ser (tc_index c)) (if sealed then fs_read index else look_plain index).

Definition read_layout (c : TableMigrationChain) (version : N) : FM (option FieldLayout) :=
  data ← fs_read (layout_parts (tc_table c) version);
  match data with
  | None => mret None
  | Some b => fm_lift (rmap Some (ok_or (de b) (if sealed then DataTampered else Serialization (lit "invalid JSON"))))
  end.

(** The schema a version of the backup was written with: that of the first migration
    whose scope it falls in. *)
Fixpoint era (manifests : list MigrationManifest) (backup_version : N) : option MigrationManifest :=
  match manifests with
  | [] => None
  | m :: ms => if backup_version <=? backup_versions_to (version_scope m) then Some m else era ms backup_version
  end.

Definition schema_version_for_backup (c : TableMigrationChain) (backup_version : N) : N :=
  match era (tc_manifests c) backup_version with
  | Some m => schema_version (mf_from m)
  | None => current_version (tc_index c)
  end.

Definition migration_id_for_version (c : TableMigrationChain) (backup_version : N) : option str :=
  migration_id <$> era (tc_manifests c) backup_version.

Definition is_restorable (c : TableMigrationChain) (backup_version : N) : bool :=
  schema_version_for_backup c backup_version =? current_version (tc_index c).

(** [format!("{schema_id}@{version}")]. *)
Definition at_version (c : TableMigrationChain) (version : N) : str :=
  schema_id (tc_index c) ++ lit "@" ++ dec version.

Definition assert_restorable (c : TableMigrationChain) (version : N) : result () :=
  if is_restorable c version then Ok ()
  else Err (NotRestorable version (at_version c (schema_version_for_backup c version))
              (at_version c (current_version (tc_index c))) (default (lit "unknown") (migration_id_for_version c version))).

(** [decode_to_json]: [step from to] is the registered decoder of a pair of layouts, and
    [parse] the JSON reader. *)
Definition Decoder : Type := bytes → result bytes.

Fixpoint normalize (c : TableMigrationChain) (step : str → str → option Decoder) (ms : list MigrationManifest)
    (b : bytes) (version : N) (path : list str) : result (bytes * list str) :=
  match ms with
  | [] => Ok (b, path)
  | m :: ms' =>
      let? '(b, version, path) :=
        (if version =? schema_version (mf_from m) then
           let? d := ok_or (step (from_layout_hash m) (to_layout_hash m))
                       (DecoderNotFound (from_layout_hash m) (to_layout_hash m) (migration_id m)) in
           let? b' := d b in
           Ok (b', schema_version (mf_to m), path ++ [at_version c (schema_version (mf_to m))])
         else Ok (b, version, path)) in
      if version =? current_version (tc_index c) then Ok (b, path) else normalize c step ms' b version path
  end.

Inductive HistoryDisplayMode := AsStored | Normalized.

Definition decode_to_json {V} (parse : bytes → result V) (c : TableMigrationChain) (step : str → str → option Decoder)
    (b : bytes) (backup_version : N) (mode : HistoryDisplayMode) : result (V * list str) :=
  let version := schema_version_for_backup c backup_version in
  let path := [at_version c version] in
  match mode with
  | AsStored => rmap (λ v, (v, path)) (parse b)
  | Normalized =>
      let? '(b', path') := normalize c step (tc_manifests c) b version path in
      rmap (λ v, (v, path')) (parse b')
  end.

(** [max_backup_version] of [migration/runner.rs]: the highest current version of the
    keys that were migrated; without any, the scope of the last migration. [current k] is
    the backup's answer for a key. *)
Definition max_backup_version (current : str → result N) (keys : list str) (c : option TableMigrationChain) : N :=
  let m := fold_left (λ m k, match current k with Ok v => N.max m v | Err _ => m end) keys 0 in
  if 0 <? m then m
  else match c ≫= λ c, last (tc_manifests c) with
       | Some x => backup_versions_to (version_scope x)
       | None => 0
       end.

(** [hex_encode]. *)
Definition hex_encode (b : bytes) : str := b ≫= λ x, [hex_digit (byte_to_N x / 16); hex_digit (byte_to_N x mod 16)].

(** [append]: the snapshot, the manifest, then in memory, then the index. The chain in
    memory has the manifest even when writing the index fails. *)
Definition appended (m : MigrationManifest) (c : TableMigrationChain) : TableMigrationChain :=
  {| tc_table := tc_table c;
     tc_index := {| schema_id := schema_id (tc_index c); current_version := schema_version (mf_to m);
                    initial_version := initial_version (tc_index c);
                    chain := chain (tc_index c) ++ [{| ie_migration_id := migration_id m;
                                                       ie_order := (len (chain (tc_index c)) + 1) mod U32 |}] |};
     tc_manifests := tc_manifests c ++ [m] |}.

Definition snapshot_ref (m : MigrationManifest) : str :=
  default (lit "primary_before_" ++ migration_id m) (primary_snapshot_ref (version_scope m)).

(** The writes before the chain in memory changes. *)
Definition append_files (c : TableMigrationChain) (m : MigrationManifest) (snapshot : option (list (str * bytes))) : FM () :=
  (if sealed then mret () else create_dir_all) ;;
  (match snapshot with
   | Some entries => fs_write (ref_parts (tc_table c) (migration_id m) (snapshot_ref m))
                       (ser ((λ p, (p.1, hex_encode p.2)) <$> entries))
   | None => mret ()
   end) ;;
  fs_write (manifest_parts (tc_table c) (migration_id m)) (ser m).

Definition append_index (c : TableMigrationChain) : FM () :=
  (if sealed then mret () else create_dir_all) ;;
  fs_write (index_parts (tc_table c)) (ser (tc_index c)).

(** The chain in memory afterwards, and the answer. *)
Definition append (c : TableMigrationChain) (m : MigrationManifest) (snapshot : option (list (str * bytes)))
    : FS → FS * TableMigrationChain * result () :=
  λ s, match append_files c m snapshot s with
       | (s', Err e) => (s', c, Err e)
       | (s', Ok _) =>
           let c' := appended m c in
           let '(s2, r) := append_index c' s' in (s2, c', r)
       end.

(** ** The chains of a database *)

Record DbMigrationIndex := { di_root : DbMigrationRootIndex; di_tables : gmap str TableMigrationChain }.

Definition fresh_chain (table : str) : TableMigrationChain :=
  {| tc_table := table; tc_index := fresh_index table; tc_manifests := [] |}.
Definition summary (i : TableChainIndex) : TableChainSummary :=
  {| ts_schema_id := schema_id i; ts_current_version := current_version i; ts_initial_version := initial_version i |}.
Definition fresh_root (db_name : str) : DbMigrationRootIndex :=
  {| index_version := MIGRATION_INDEX_VERSION; ri_db_name := db_name; ri_tables := ∅ |}.
Definition set_summaries (t : gmap str TableChainSummary) (r : DbMigrationRootIndex) : DbMigrationRootIndex :=
  {| index_version := index_version r; ri_db_name := ri_db_name r; ri_tables := t |}.

Definition empty_index (db_name : str) (tables : list str) : DbMigrationIndex :=
  {| di_root := set_summaries (list_to_map ((λ t, (t, summary (fresh_index t))) <$> tables)) (fresh_root db_name);
     di_tables := list_to_map ((λ t, (t, fresh_chain t)) <$> tables) |}.

Definition no_chain (table : str) : ClError := MigrationError (lit "table chain '" ++ table ++ lit "' not found").
Definition table_chain (d : DbMigrationIndex) (table : str) : result TableMigrationChain :=
  ok_or (di_tables d !! table) (no_chain table).

(** Loading after the directory and any older format were dealt with. *)
Definition load_or_recover_root : FM (option DbMigrationRootIndex) :=
  found ← fs_exists root_parts;
  if (found : bool) then
    data ← fs_read root_parts;
    let data := default [] data in
    if is_corrupt_index_bytes data then move_aside root_parts ;; mret None
    else match de (A := DbMigrationRootIndex) data with
         | Some root =>
             if index_version root =? MIGRATION_INDEX_VERSION then mret (Some root)
             else fm_lift (Err (LegacyMigrationFormat (lit "index.json")))
         | None => move_aside root_parts ;; mret None
         end
  else mret None.

Definition load_chains (load : str → FM TableMigrationChain) (tables : list str) : FM (gmap str TableMigrationChain) :=
  cs ← fm_traverse (λ t, c ← load t; mret (t, c)) tables;
  mret (list_to_map (reverse cs)).

Definition load_plain (db_name : str) (registered_tables : list str) : FM DbMigrationIndex :=
  root ← load_or_recover_root;
  tables ← load_chains load_table_chain registered_tables;
  mret {| di_root := default (fresh_root db_name) root; di_tables := tables |}.

(** The root of a sealed database only summarises the chains: one that does not open, or
    is of another version, is set aside and built again. *)
Definition load_sealed (db_name : str) (registered_tables : list str) : FM DbMigrationIndex :=
  data ← fm_try (fs_read root_parts);
  root ← (match data with
          | Ok (Some b) =>
              match de (A := DbMigrationRootIndex) b with
              | Some root => if index_version root =? MIGRATION_INDEX_VERSION then mret (Some root)
                             else move_aside root_parts ;; mret None
              | None => move_aside root_parts ;; mret None
              end
          | Ok None => mret None
          | Err e => if bool_decide (e = DataTampered) then move_aside root_parts ;; mret None else fm_lift (Err e)
          end);
  tables ← load_chains load_table_chain_sealed registered_tables;
  mret {| di_root := default (fresh_root db_name) root; di_tables := tables |}.

Definition load_index (db_name : str) (registered_tables : list str) : FM DbMigrationIndex :=
  if sealed then load_sealed db_name registered_tables else load_plain db_name registered_tables.

(** Operations that change the index in memory give it back with their answer. *)
Definition DM_op : Type := FS → FS * DbMigrationIndex * result ().

Definition with_summaries (d : DbMigrationIndex) : DbMigrationIndex :=
  {| di_root := set_summaries ((summary ∘ tc_index <$> di_tables d) ∪ ri_tables (di_root d)) (di_root d);
     di_tables := di_tables d |}.

Definition persist_root (d : DbMigrationIndex) : DM_op := λ s,
  match (if sealed then mret () else create_dir_all) s with
  | (s', Err e) => (s', d, Err e)
  | (s', Ok _) =>
      let d' := with_summaries d in
      let '(s2, r) := write_unless_same root_parts (ser (di_root d'))
                        (if sealed then fs_read root_parts else look_plain root_parts) s' in
      (s2, d', r)
  end.

Definition ensure_table_unpersisted (table : str) (layout : FieldLayout) (d : DbMigrationIndex) : DM_op := λ s,
  let d' := match di_tables d !! table with
            | Some _ => d
            | None =>
                {| di_root := set_summaries (<[table := summary (fresh_index table)]> (ri_tables (di_root d))) (di_root d);
                   di_tables := <[table := fresh_chain table]> (di_tables d) |}
            end in
  let c := default (fresh_chain table) (di_tables d' !! table) in
  let '(s', r) := ensure_layout c 1 layout s in (s', d', r).

Definition ensure_table (table : str) (layout : FieldLayout) (d : DbMigrationIndex) : DM_op := λ s,
  match ensure_table_unpersisted table layout d s with
  | (s', d', Err e) => (s', d', Err e)
  | (s', d', Ok _) => persist_root d' s'
  end.

Definition append_manifest (table : str) (m : MigrationManifest) (snapshot : option (list (str * bytes)))
    (new_layout : option FieldLayout) (d : DbMigrationIndex) : DM_op := λ s,
  match table_chain d table with
  | Err e => (s, d, Err e)
  | Ok c =>
      let '(s1, c', r) := append c m snapshot s in
      let d' := {| di_root := di_root d; di_tables := <[table := c']> (di_tables d) |} in
      match r with
      | Err e => (s1, d', Err e)
      | Ok _ =>
          let '(s2, r2) := match new_layout with
                           | Some layout => ensure_layout c' (current_version (tc_index c')) layout s1
                           | None => (s1, Ok ())
                           end in
          match r2 with
          | Err e => (s2, d', Err e)
          | Ok _ => persist_root d' s2
          end
      end
  end.
End docs.
End files.

(** ** Layouts *)

Inductive LayoutDiffKind := Identical | AutoSafe | RequiresDecoder | Breaking.
Record LayoutDiff := {
  ld_kind : LayoutDiffKind; added_fields : list str; removed_fields : list str; type_changes : list (str * str * str);
}.

Section layouts.
Import ListRedb.

(** [collect::<BTreeMap<_, _>>()] by name. *)
Definition by_name (fields : list FieldSpec) : list (str * FieldSpec) :=
  fold_left (λ m f, l_insert m (fs_name f) f) fields [].

Definition diff (a b : FieldLayout) : LayoutDiff :=
  let old := by_name (l_fields a) in
  let new := by_name (l_fields b) in
  let added := omap (λ p, match l_get old p.1 with Some _ => None | None => Some p.1 end) new in
  let changed := omap (λ p, match l_get old p.1 with
                            | Some f => if bool_decide (json_type f = json_type p.2) then None
                                        else Some (p.1, json_type f, json_type p.2)
                            | None => None end) new in
  let removed := omap (λ p, match l_get new p.1 with Some _ => None | None => Some p.1 end) old in
  let kind :=
    if bool_decide (layout_hash a = layout_hash b) then Identical
    else if negb (bool_decide (length removed = 0%nat)) || negb (bool_decide (length changed = 0%nat)) then Breaking
    else if negb (bool_decide (length added = 0%nat)) then AutoSafe else RequiresDecoder in
  {| ld_kind := kind; added_fields := added; removed_fields := removed; type_changes := changed |}.
End layouts.
