(* ===== verification/ChainSpec.v ===== *)
(** * Migration chains: old or new, and the right era

    A chain is stored when its index and every manifest it lists are in their files.
    Loading gives it back; appending a migration, interrupted anywhere, leaves the old
    chain or the new one; and the schema of a backup version, and the way from it to the
    current one, are those of the migrations after it. *)
From S2P Require Import Prelude Order Redb Chain.
Local Open Scope N_scope.

(** ** Calls *)

Section files.
Context (fate : nat → option Failure) (sealed : bool).

(** The files changed at [parts] only, to [b] or not at all. *)
Definition wrote (parts : list str) (b : bytes) (s s' : FS) : Prop :=
  fs_files s' = <[parts := Whole b]> (fs_files s).

Lemma fs_write_cases parts b s :
  match fs_write fate parts b s with
  | (s', Ok _) => wrote parts b s s'
  | (s', Err _) => ¬ (∀ i, fate i = None) ∧ (fs_files s' = fs_files s ∨ wrote parts b s s')
  end.
Proof.
  unfold fs_write, mbind, FM_bind, next_call. destruct (fate (fs_calls s)) as [[]|] eqn:E; cbn.
  - split; [|by left]. intros Hf. by rewrite Hf in E.
  - split; [|by right]. intros Hf. by rewrite Hf in E.
  - done.
Qed.

Lemma create_dir_cases s :
  match create_dir_all fate s with
  | (s', Ok _) => fs_files s' = fs_files s
  | (s', Err _) => ¬ (∀ i, fate i = None) ∧ fs_files s' = fs_files s
  end.
Proof.
  unfold create_dir_all, mbind, FM_bind, next_call. destruct (fate (fs_calls s)) eqn:E; cbn; [|done].
  split; [|done]. intros Hf. by rewrite Hf in E.
Qed.

Lemma fs_read_ok parts b s : (∀ i, fate i = None) → fs_files s !! parts = Some (Whole b) →
  ∃ s', fs_read fate sealed parts s = (s', Ok (Some b)) ∧ fs_files s' = fs_files s.
Proof.
  intros Hf E. unfold fs_read, mbind, FM_bind, next_call, get_file. rewrite Hf. cbn. rewrite E. by eexists.
Qed.

Lemma fs_exists_ok parts s : (∀ i, fate i = None) →
  ∃ s', fs_exists fate parts s = (s', Ok (bool_decide (is_Some (fs_files s !! parts)))) ∧ fs_files s' = fs_files s.
Proof. intros Hf. unfold fs_exists, mbind, FM_bind, next_call, get_file. rewrite Hf. cbn. by eexists. Qed.

Context `{IndexText} {DM : Doc MigrationManifest} {DI : Doc TableChainIndex} {DR : Doc DbMigrationRootIndex}
  {DL : Doc FieldLayout} {DS : Doc (list (str * str))}.

Lemma doc_sound {A} `{!Doc A} (a : A) : is_corrupt_index_bytes (ser a) = false.
Proof.
  unfold is_corrupt_index_bytes. destruct (doc_text a) as (t & -> & Ht & ->). rewrite (doc_not_nul a).
  rewrite (bool_decide_false (t = [])) by done. case_bool_decide as E; [|done].
  pose proof (doc_not_nul a) as Hn. by rewrite E in Hn.
Qed.

(** ** Stored chains *)

Definition has_manifest (s : FS) (table : str) (e : MigrationIndexEntry) (m : MigrationManifest) : Prop :=
  ie_migration_id e = migration_id m ∧ fs_files s !! manifest_parts table (migration_id m) = Some (Whole (ser m)).

Record stored (s : FS) (c : TableMigrationChain) : Prop := {
  st_index : fs_files s !! index_parts (tc_table c) = Some (Whole (ser (tc_index c)));
  st_manifests : Forall2 (has_manifest s (tc_table c)) (chain (tc_index c)) (tc_manifests c);
}.

Lemma load_manifest_ok s table e m : (∀ i, fate i = None) → has_manifest s table e m →
  ∃ s', load_manifest fate sealed table e s = (s', Ok (Some m)) ∧ fs_files s' = fs_files s.
Proof.
  intros Hf [Ei Em]. unfold load_manifest. rewrite Ei. unfold mbind at 1, FM_bind at 1.
  destruct (fs_exists_ok (manifest_parts table (migration_id m)) s Hf) as (s1 & -> & F1).
  rewrite Em. rewrite bool_decide_true by done. unfold mbind, FM_bind.
  rewrite <-F1 in Em. destruct (fs_read_ok _ _ s1 Hf Em) as (s2 & -> & F2). cbn [default from_option id].
  rewrite doc_sound, de_ser. eexists. split; [done|congruence].
Qed.

Lemma load_manifest_sealed_ok s table e m : (∀ i, fate i = None) → has_manifest s table e m →
  ∃ s', load_manifest_sealed fate sealed table e s = (s', Ok m) ∧ fs_files s' = fs_files s.
Proof.
  intros Hf [Ei Em]. unfold load_manifest_sealed. rewrite Ei. unfold mbind, FM_bind.
  destruct (fs_read_ok _ _ s Hf Em) as (s2 & -> & F2). unfold fm_lift. rewrite de_ser. by eexists.
Qed.

Lemma fm_traverse_ok {A B} (f : A → FM B) (R : FS → A → B → Prop) l bs :
  (∀ s a b, R s a b → ∃ s', f a s = (s', Ok b) ∧ fs_files s' = fs_files s) →
  (∀ s s' a b, fs_files s' = fs_files s → R s a b → R s' a b) →
  ∀ s, Forall2 (R s) l bs → ∃ s', fm_traverse f l s = (s', Ok bs) ∧ fs_files s' = fs_files s.
Proof.
  intros Hf Hr s H2. remember (R s) as Rs eqn:ER. assert (Hb : Forall2 (λ a b, R s a b) l bs) by (subst; done). clear H2 ER.
  revert s Hb. induction l as [|a l IH] in bs |- *; intros s Hb.
  - inversion Hb; subst. by eexists.
  - inversion Hb as [|? b ? bs' H1 H2]; subst. cbn [fm_traverse]. unfold mbind, FM_bind.
    destruct (Hf _ _ _ H1) as (s1 & -> & F1).
    destruct (IH bs' s1) as (s2 & E2 & F2).
    { eapply Forall2_impl; [exact H2|]. intros x y Hxy. by eapply Hr. }
    rewrite E2. eexists. split; [done|congruence].
Qed.

Lemma has_manifest_files s s' table e m : fs_files s' = fs_files s → has_manifest s table e m → has_manifest s' table e m.
Proof. intros E [Hi Hm]. split; [done|]. by rewrite E. Qed.

Lemma omap_some {A} (l : list A) : omap id (Some <$> l) = l.
Proof. induction l as [|a l IH]; [done|]. cbn. by f_equal. Qed.

(** Loading gives back a stored chain, whichever way the files are kept. *)
Lemma load_stored s c : (∀ i, fate i = None) → stored s c →
  ∃ s', (if sealed then load_table_chain_sealed fate sealed (tc_table c) else load_table_chain fate sealed (tc_table c)) s
        = (s', Ok c) ∧ fs_files s' = fs_files s.
Proof.
  intros Hf [Hi Hm]. destruct sealed eqn:Es.
  - unfold load_table_chain_sealed. unfold mbind, FM_bind.
    destruct (fs_read_ok _ _ s Hf Hi) as (s1 & E1 & F1). rewrite Es in E1. rewrite E1. unfold fm_lift at 1. rewrite de_ser.
    cbn [ok_or]. destruct (fm_traverse_ok (load_manifest_sealed fate true (tc_table c)) (λ s, has_manifest s (tc_table c))
      (chain (tc_index c)) (tc_manifests c)) with (s := s1) as (s2 & E2 & F2).
    + intros s' e m Hh. rewrite <-Es. by apply load_manifest_sealed_ok.
    + intros s' s'' e m E Hh. by eapply has_manifest_files.
    + eapply Forall2_impl; [exact Hm|]. intros e m. by apply has_manifest_files.
    + rewrite E2. eexists. split; [by destruct c|congruence].
  - unfold load_table_chain. unfold mbind, FM_bind.
    destruct (fs_exists_ok (index_parts (tc_table c)) s Hf) as (s1 & -> & F1). rewrite Hi, bool_decide_true by done.
    unfold load_or_recover_table_index, mbind, FM_bind.
    rewrite <-F1 in Hi. destruct (fs_read_ok _ _ s1 Hf Hi) as (s2 & E2 & F2). rewrite Es in E2. rewrite E2. cbn [default from_option id].
    rewrite doc_sound, de_ser. cbn [mret FM_ret default from_option id].
    destruct (fm_traverse_ok (load_manifest fate false (tc_table c)) (λ s e om, ∃ m, om = Some m ∧ has_manifest s (tc_table c) e m)
      (chain (tc_index c)) (Some <$> tc_manifests c)) with (s := s2) as (s3 & E3 & F3).
    + intros s' e om (m & -> & Hh). rewrite <-Es. by apply load_manifest_ok.
    + intros s' s'' e om E (m & -> & Hh). exists m. split; [done|]. by eapply has_manifest_files.
    + apply Forall2_fmap_r. eapply Forall2_impl; [exact Hm|]. intros e m Hh. exists m. split; [done|].
      eapply has_manifest_files; [|exact Hh]. congruence.
    + rewrite E3. exists s3. split; [|congruence]. rewrite omap_some. by destruct c.
Qed.

(** ** Appending *)

Lemma manifest_parts_inj t i t' i' : manifest_parts t i = manifest_parts t' i' → i = i'.
Proof. unfold manifest_parts. congruence. Qed.

(** A write elsewhere keeps a stored chain. *)
Lemma stored_other s s' c parts b : stored s c → wrote parts b s s' → parts ≠ index_parts (tc_table c) →
  (∀ m, m ∈ tc_manifests c → parts ≠ manifest_parts (tc_table c) (migration_id m)) → stored s' c.
Proof.
  intros [Hi Hm] Hw Hp Hq. split; [rewrite Hw, lookup_insert_ne by done; done|].
  apply Forall2_same_length_lookup. split; [by eapply Forall2_length|].
  intros k e m He Hk. destruct (Forall2_lookup_lr _ _ _ _ _ _ Hm He Hk) as [H1 H2]. split; [done|].
  rewrite Hw, lookup_insert_ne; [done|]. apply Hq. by eapply list_elem_of_lookup_2.
Qed.

Lemma stored_same s s' c : fs_files s' = fs_files s → stored s c → stored s' c.
Proof.
  intros E [Hi Hm]. split; [by rewrite E|]. eapply Forall2_impl; [exact Hm|]. intros e m. by apply has_manifest_files.
Qed.

(** The new manifest in its file, the index not yet. *)
Definition prepared (s : FS) (c : TableMigrationChain) (m : MigrationManifest) : Prop :=
  stored s c ∧ fs_files s !! manifest_parts (tc_table c) (migration_id m) = Some (Whole (ser m)).

Definition fresh_id (c : TableMigrationChain) (m : MigrationManifest) : Prop :=
  ∀ m', m' ∈ tc_manifests c → migration_id m' ≠ migration_id m.

Lemma index_not_manifest t i t' : index_parts t ≠ manifest_parts t' i.
Proof. discriminate. Qed.

Lemma append_files_cases s c m snapshot : stored s c → fresh_id c m →
  match append_files fate sealed c m snapshot s with
  | (s', Ok _) => prepared s' c m
  | (s', Err _) => ¬ (∀ i, fate i = None) ∧ stored s' c
  end.
Proof.
  intros Hs Hid. unfold append_files. unfold mbind, FM_bind.
  assert (Hd : match (if sealed then mret () else create_dir_all fate) s with
    | (s', Ok _) => stored s' c | (s', Err _) => ¬ (∀ i, fate i = None) ∧ stored s' c end).
  { destruct sealed; [done|]. pose proof (create_dir_cases s) as Hc. destruct (create_dir_all fate s) as [s' [[]|e]].
    - by eapply stored_same.
    - split; [apply Hc|]. eapply stored_same; [apply Hc|done]. }
  destruct ((if sealed then mret () else create_dir_all fate) s) as [s1 [[]|e]]; [|exact Hd].
  assert (H2 : match (match snapshot with
     | Some entries => fs_write fate (ref_parts (tc_table c) (migration_id m) (snapshot_ref m)) (ser ((λ p, (p.1, hex_encode p.2)) <$> entries))
     | None => mret () end) s1 with
    | (s', Ok _) => stored s' c | (s', Err _) => ¬ (∀ i, fate i = None) ∧ stored s' c end).
  { destruct snapshot as [entries|]; [|done].
    pose proof (fs_write_cases (ref_parts (tc_table c) (migration_id m) (snapshot_ref m)) (ser ((λ p, (p.1, hex_encode p.2)) <$> entries)) s1) as Hw.
    destruct (fs_write _ _ _ s1) as [s2 [[]|e]].
    - eapply stored_other; [exact Hd|exact Hw|discriminate|intros; discriminate].
    - destruct Hw as [Hf [Hw|Hw]]; (split; [done|]); [by eapply stored_same|].
      eapply stored_other; [exact Hd|exact Hw|discriminate|intros; discriminate]. }
  destruct (_ s1) as [s2 [[]|e]]; [|exact H2].
  assert (Hne : ∀ m', m' ∈ tc_manifests c → manifest_parts (tc_table c) (migration_id m) ≠ manifest_parts (tc_table c) (migration_id m')).
  { intros m' Hm' E%manifest_parts_inj. by apply (Hid m' Hm'). }
  pose proof (fs_write_cases (manifest_parts (tc_table c) (migration_id m)) (ser m) s2) as Hw.
  destruct (fs_write _ _ _ s2) as [s3 [[]|e]].
  - split; [|rewrite Hw; apply lookup_insert_eq]. eapply stored_other; [exact H2|exact Hw|discriminate|exact Hne].
  - destruct Hw as [Hf [Hw|Hw]]; (split; [done|]); [by eapply stored_same|].
    eapply stored_other; [exact H2|exact Hw|discriminate|exact Hne].
Qed.

Lemma prepared_same s s' c m : fs_files s' = fs_files s → prepared s c m → prepared s' c m.
Proof. intros E [Hs Hm]. split; [by eapply stored_same|]. by rewrite E. Qed.

(** Writing the index makes the chain the new one, in one step. *)
Lemma append_index_cases s c m : prepared s c m →
  match append_index fate sealed (appended m c) s with
  | (s', Ok _) => stored s' (appended m c)
  | (s', Err _) => ¬ (∀ i, fate i = None) ∧ (stored s' c ∨ stored s' (appended m c))
  end.
Proof.
  intros Hp. unfold append_index. unfold mbind, FM_bind.
  assert (Hd : match (if sealed then mret () else create_dir_all fate) s with
    | (s', Ok _) => prepared s' c m | (s', Err _) => ¬ (∀ i, fate i = None) ∧ prepared s' c m end).
  { destruct sealed; [done|]. pose proof (create_dir_cases s) as Hc. destruct (create_dir_all fate s) as [s' [[]|e]].
    - by eapply prepared_same.
    - split; [apply Hc|]. eapply prepared_same; [apply Hc|done]. }
  destruct ((if sealed then mret () else create_dir_all fate) s) as [s1 [[]|e]].
  2:{ destruct Hd as [Hf [Hs _]]. auto. }
  assert (Hnew : ∀ s2, wrote (index_parts (tc_table (appended m c))) (ser (tc_index (appended m c))) s1 s2 → stored s2 (appended m c)).
  { intros s2 Hw. destruct Hd as [[Hi Hm] Hq]. split; [rewrite Hw; apply lookup_insert_eq|].
    cbn [appended tc_table tc_index chain tc_manifests]. apply Forall2_app.
    - eapply Forall2_impl; [exact Hm|]. intros e m' [H1 H2]. split; [done|]. rewrite Hw, lookup_insert_ne; [done|]. apply index_not_manifest.
    - repeat constructor. rewrite Hw, lookup_insert_ne; [done|]. apply index_not_manifest. }
  pose proof (fs_write_cases (index_parts (tc_table (appended m c))) (ser (tc_index (appended m c))) s1) as Hw.
  destruct (fs_write _ _ _ s1) as [s2 [[]|e]]; [by apply Hnew|].
  destruct Hw as [Hf [Hw|Hw]]; (split; [done|]); [left; eapply stored_same; [done|apply Hd]|right; by apply Hnew].
Qed.

Lemma append_cases s c m snapshot : stored s c → fresh_id c m →
  match append fate sealed c m snapshot s with
  | (s', c', Ok _) => c' = appended m c ∧ stored s' c'
  | (s', c', Err _) => ¬ (∀ i, fate i = None) ∧ (stored s' c ∨ stored s' (appended m c))
  end.
Proof.
  intros Hs Hid. unfold append. pose proof (append_files_cases s c m snapshot Hs Hid) as Hf.
  destruct (append_files _ _ _ _ _ s) as [s1 [[]|e]]; [|destruct Hf; auto].
  pose proof (append_index_cases s1 c m Hf) as Hi. destruct (append_index _ _ _ s1) as [s2 [[]|e]]; done.
Qed.
End files.

(** ** Eras *)

(** The migrations lead from version [v] to [cur], each to a higher one. *)
Fixpoint linked (v : N) (ms : list MigrationManifest) (cur : N) : Prop :=
  match ms with
  | [] => v = cur
  | m :: ms' => schema_version (mf_from m) = v ∧ v < schema_version (mf_to m) ∧ linked (schema_version (mf_to m)) ms' cur
  end.

Lemma linked_le v ms cur : linked v ms cur → v <= cur.
Proof. revert v. induction ms as [|m ms IH]; intros v; cbn [linked]; [intros ->; lia|]. intros (_ & Hlt & Hl%IH). lia. Qed.

Lemma linked_app v pre ms cur : linked v (pre ++ ms) cur → ∃ w, linked v pre w ∧ linked w ms cur.
Proof.
  revert v. induction pre as [|m pre IH]; intros v; cbn [linked app]; [by eexists|].
  intros (E & Hlt & (w & Hp & Hm)%IH). exists w. done.
Qed.

Definition in_scope (b : N) (m : MigrationManifest) : Prop := b <= backup_versions_to (version_scope m).

Lemma era_spec ms b :
  match era ms b with
  | Some m => ∃ pre post, ms = pre ++ m :: post ∧ Forall (λ x, ¬ in_scope b x) pre ∧ in_scope b m
  | None => Forall (λ x, ¬ in_scope b x) ms
  end.
Proof.
  induction ms as [|m ms IH]; cbn [era]; [constructor|].
  destruct (N.leb_spec b (backup_versions_to (version_scope m))) as [Hle|Hlt].
  - by exists [], ms.
  - assert (Hn : ¬ in_scope b m) by (unfold in_scope; lia). destruct (era ms b) as [m'|].
    + destruct IH as (pre & post & -> & Hp & Hm). exists (m :: pre), post. split_and!; [done|by constructor|done].
    + by constructor.
Qed.

Section eras.
Context (c : TableMigrationChain) (step : str → str → option Decoder).
Context (v0 : N) (Hl : linked v0 (tc_manifests c) (current_version (tc_index c))).

(** A version is restorable exactly when it lies after every migration. *)
Lemma restorable_iff b : is_restorable c b = true ↔ Forall (λ m, ¬ in_scope b m) (tc_manifests c).
Proof.
  unfold is_restorable, schema_version_for_backup. pose proof (era_spec (tc_manifests c) b) as He.
  destruct (era (tc_manifests c) b) as [m|]; [|split; [done|by rewrite N.eqb_refl]].
  destruct He as (pre & post & E & _ & Hm). rewrite N.eqb_eq. rewrite E in Hl |- *. split.
  - intros Ev. destruct (linked_app _ _ _ _ Hl) as (w & _ & Hlm). cbn [linked] in Hlm. destruct Hlm as (Ew & Hlt & Hrest%linked_le). lia.
  - intros Hf. exfalso. rewrite Forall_app, Forall_cons in Hf. tauto.
Qed.

(** The migrations in order: the bytes, and the versions passed through. *)
Fixpoint run_steps (ms : list MigrationManifest) (b : bytes) (path : list str) : result (bytes * list str) :=
  match ms with
  | [] => Ok (b, path)
  | m :: ms' =>
      let? d := ok_or (step (from_layout_hash m) (to_layout_hash m))
                  (DecoderNotFound (from_layout_hash m) (to_layout_hash m) (migration_id m)) in
      let? b' := d b in
      run_steps ms' b' (path ++ [at_version c (schema_version (mf_to m))])
  end.

Lemma normalize_run ms b v path : linked v ms (current_version (tc_index c)) → normalize c step ms b v path = run_steps ms b path.
Proof.
  revert b v path. induction ms as [|m ms IH]; intros b v path Hms; [done|].
  cbn [linked] in Hms. destruct Hms as (Ev & Hlt & Hrest). cbn [normalize run_steps].
  rewrite Ev, N.eqb_refl. destruct (step _ _) as [d|]; [|done]. cbn [ok_or rbind]. destruct (d b) as [b'|e]; [|done]. cbn [rbind].
  destruct (N.eqb_spec (schema_version (mf_to m)) (current_version (tc_index c))) as [Ec|Ec].
  - destruct ms as [|m' ms]; [done|]. cbn [linked] in Hrest. destruct Hrest as (_ & Hlt' & Hr%linked_le). lia.
  - by apply IH.
Qed.

Lemma normalize_skip pre ms b v w path : linked v pre w → linked w ms (current_version (tc_index c)) → ms ≠ [] →
  normalize c step (pre ++ ms) b w path = normalize c step ms b w path.
Proof.
  intros Hp Hms Hne.
  assert (Hw : w < current_version (tc_index c)).
  { destruct ms as [|m ms]; [done|]. cbn [linked] in Hms. destruct Hms as (_ & Hlt & Hr%linked_le). lia. }
  revert v Hp. induction pre as [|m pre IH]; intros v Hp; [done|].
  cbn [linked] in Hp. destruct Hp as (Ev & Hlt & Hp). pose proof (linked_le _ _ _ Hp). cbn [app normalize].
  destruct (N.eqb_spec w (schema_version (mf_from m))); [lia|]. cbn [rbind].
  destruct (N.eqb_spec w (current_version (tc_index c))); [lia|]. by eapply IH.
Qed.

(** The first migration whose scope holds [b], and those after it. *)
Fixpoint from_era (ms : list MigrationManifest) (b : N) : list MigrationManifest :=
  match ms with
  | [] => []
  | m :: ms' => if b <=? backup_versions_to (version_scope m) then ms else from_era ms' b
  end.

Lemma from_era_none ms b : era ms b = None → from_era ms b = [].
Proof. induction ms as [|m ms IH]; cbn [era from_era]; [done|]. by destruct (b <=? _). Qed.

Lemma from_era_some ms b m : era ms b = Some m → ∃ pre post, ms = pre ++ m :: post ∧ from_era ms b = m :: post.
Proof.
  induction ms as [|x ms IH]; cbn [era from_era]; [done|]. destruct (b <=? _).
  - intros [= ->]. by exists [], ms.
  - intros (pre & post & -> & E)%IH. exists (x :: pre), post. done.
Qed.

Lemma normalize_era b data :
  let v := schema_version_for_backup c b in
  normalize c step (tc_manifests c) data v [at_version c v] = run_steps (from_era (tc_manifests c) b) data [at_version c v].
Proof.
  cbn zeta. unfold schema_version_for_backup. destruct (era (tc_manifests c) b) as [m|] eqn:Ee.
  - destruct (from_era_some _ _ _ Ee) as (pre & post & E & ->). rewrite E in Hl |- *.
    destruct (linked_app _ _ _ _ Hl) as (w & Hp & Hm). assert (Ew : schema_version (mf_from m) = w) by apply Hm. rewrite Ew.
    rewrite (normalize_skip pre (m :: post) data v0 w) by done. by apply normalize_run.
  - rewrite (from_era_none _ _ Ee). cbn [run_steps]. destruct (tc_manifests c) as [|m ms]; [done|].
    cbn [linked] in Hl. destruct Hl as (Ev & Hlt & Hr%linked_le). cbn [normalize].
    destruct (N.eqb_spec (current_version (tc_index c)) (schema_version (mf_from m))); [lia|]. cbn [rbind]. by rewrite N.eqb_refl.
Qed.
End eras.

(** ** Properties *)

(** C39: appending a migration is old or new.  Whatever fails while a migration is
    appended to a stored chain, in plain or in sealed files, loading the table's chain
    afterwards gives the chain as it was or with exactly the new migration; after a
    success it is the new one, and the chain in memory. *)
Theorem append_old_or_new `{IndexText} {DM : Doc MigrationManifest} {DI : Doc TableChainIndex} {DS : Doc (list (str * str))}
    fate fate' sealed s c m snapshot :
  stored s c → fresh_id c m → (∀ i, fate' i = None) →
  let '(s', c', r) := append fate sealed c m snapshot s in
  let load := if sealed then load_table_chain_sealed fate' sealed (tc_table c) else load_table_chain fate' sealed (tc_table c) in
  ∃ s2 c2, load s' = (s2, Ok c2) ∧ (c2 = c ∨ c2 = appended m c) ∧ (r = Ok () → c2 = appended m c ∧ c' = c2).
Proof.
  intros Hs Hid Hf. pose proof (append_cases fate sealed s c m snapshot Hs Hid) as Ha.
  destruct (append fate sealed c m snapshot s) as [[s' c'] [[]|e]].
  - destruct Ha as [-> Hs']. destruct (load_stored fate' sealed s' _ Hf Hs') as (s2 & E & _). exists s2, (appended m c). auto.
  - destruct Ha as [_ [Hs'|Hs']]; destruct (load_stored fate' sealed s' _ Hf Hs') as (s2 & E & _).
    + exists s2, c. split_and!; [done|by left|discriminate].
    + exists s2, (appended m c). split_and!; [done|by right|discriminate].
Qed.

(** C40: a version of the history is read in its own era.  In a chain whose migrations
    follow one another, a version is restorable exactly when it lies after the scope of
    every migration, and showing it in the current schema runs exactly the migrations
    from the first whose scope holds it to the last, in order, and names the versions it
    passed. *)
Theorem era_exact {V} (parse : bytes → result V) c step v0 b data :
  linked v0 (tc_manifests c) (current_version (tc_index c)) →
  (is_restorable c b = true ↔ Forall (λ m, backup_versions_to (version_scope m) < b) (tc_manifests c)) ∧
  decode_to_json parse c step data b Normalized =
    (let? '(data', path) := run_steps c step (from_era (tc_manifests c) b) data
                              [at_version c (schema_version_for_backup c b)] in
     rmap (λ v, (v, path)) (parse data')).
Proof.
  intros Hl. split.
  - rewrite (restorable_iff c v0 Hl b). rewrite !Forall_forall. unfold in_scope. split; intros Hf m Hm; specialize (Hf m Hm); lia.
  - unfold decode_to_json. cbn zeta. by rewrite (normalize_era c step v0 Hl).
Qed.

(** ** Witnesses *)

Module ChainDemo.
#[local] Instance bit_text : IndexText := {| utf8_trim b := Some b; json_ok _ := true |}.

Program Definition bit_doc {A} `{Countable A} : Doc A := {|
  doc_serde := {| ser a := Byte.x01 :: pos_bytes (encode a); de b := decode (bytes_pos (tail b)) |};
|}.
Next Obligation. intros A ? ? a. cbn. by rewrite bytes_pos_bytes, decode_encode. Qed.
Next Obligation. intros A ? ? a. by eexists. Qed.
Next Obligation. done. Qed.

#[local] Instance entry_dec : EqDecision MigrationIndexEntry.
Proof. solve_decision. Defined.
#[local] Instance entry_countable : Countable MigrationIndexEntry.
Proof. refine (inj_countable' (λ e, (ie_migration_id e, ie_order e)) (λ p, {| ie_migration_id := p.1; ie_order := p.2 |}) _). by intros []. Defined.
#[local] Instance index_dec : EqDecision TableChainIndex.
Proof. solve_decision. Defined.
#[local] Instance index_countable : Countable TableChainIndex.
Proof.
  refine (inj_countable' (λ i, (schema_id i, current_version i, initial_version i, chain i))
    (λ '(a, b, c, d), Build_TableChainIndex a b c d) _). by intros [].
Defined.
#[local] Instance schema_dec : EqDecision SchemaRef.
Proof. solve_decision. Defined.
#[local] Instance schema_countable : Countable SchemaRef.
Proof.
  refine (inj_countable' (λ i, (sr_db i, sr_table i, sr_schema_id i, schema_version i))
    (λ '(a, b, c, d), Build_SchemaRef a b c d) _). by intros [].
Defined.
#[local] Instance scope_dec : EqDecision VersionScope.
Proof. solve_decision. Defined.
#[local] Instance scope_countable : Countable VersionScope.
Proof.
  refine (inj_countable' (λ i, (backup_versions_from i, backup_versions_to i, scope_table i, primary_snapshot_ref i))
    (λ '(a, b, c, d), Build_VersionScope a b c d) _). by intros [].
Defined.
#[local] Instance rename_dec : EqDecision TableRenameInfo.
Proof. solve_decision. Defined.
#[local] Instance rename_countable : Countable TableRenameInfo.
Proof. refine (inj_countable' (λ i, (ri_from i, ri_to i, backup_rewrite i)) (λ '(a, b, c), Build_TableRenameInfo a b c) _). by intros []. Defined.
#[local] Instance diff_dec : EqDecision FieldDiffEntry.
Proof. solve_decision. Defined.
#[local] Instance diff_countable : Countable FieldDiffEntry.
Proof.
  refine (inj_countable' (λ i, (fd_op i, fd_field i, fd_default i, from_field i))
    (λ '(a, b, c, d), Build_FieldDiffEntry a b c d) _). by intros [].
Defined.
#[local] Instance kind_dec : EqDecision MigrationKind.
Proof. solve_decision. Defined.
#[local] Instance kind_countable : Countable MigrationKind.
Proof.
  refine (inj_countable' (λ k, match k with InPlaceEvolve => 0 | DataTransfer => 1 | ExternalImport => 2 end)%nat
    (λ n, match n with 0 => InPlaceEvolve | 1 => DataTransfer | _ => ExternalImport end)%nat _). by intros [].
Defined.
#[local] Instance policy_dec : EqDecision TargetConflictPolicy.
Proof. solve_decision. Defined.
#[local] Instance policy_countable : Countable TargetConflictPolicy.
Proof.
  refine (inj_countable' (λ k, match k with PolicyFail => 0 | Skip => 1 | OverwriteIfCompatible => 2 | Overwrite => 3 end)%nat
    (λ n, match n with 0 => PolicyFail | 1 => Skip | 2 => OverwriteIfCompatible | _ => Overwrite end)%nat _). by intros [].
Defined.
#[local] Instance manifest_dec : EqDecision MigrationManifest.
Proof. solve_decision. Defined.
#[local] Instance manifest_countable : Countable MigrationManifest.
Proof.
  refine (inj_countable' (λ m, (migration_id m, parent_migration_id m, mf_timestamp m, mf_kind m, mf_from m, mf_to m,
      version_scope m, from_layout_hash m, to_layout_hash m, target_conflict_policy m, table_rename m, field_diff m))
    (λ '(a, b, c, d, e, f, g, h, i, j, k, l), Build_MigrationManifest a b c d e f g h i j k l) _). by intros [].
Defined.
#[local] Instance manifest_doc : Doc MigrationManifest := bit_doc.
#[local] Instance index_doc : Doc TableChainIndex := bit_doc.
#[local] Instance rows_doc : Doc (list (str * str)) := bit_doc.

Definition schema (v : N) : SchemaRef := {| sr_db := lit "d"; sr_table := lit "t"; sr_schema_id := lit "t"; schema_version := v |}.
Definition manifest (id : str) (from to scope : N) : MigrationManifest :=
  {| migration_id := id; parent_migration_id := None; mf_timestamp := 0; mf_kind := InPlaceEvolve;
     mf_from := schema from; mf_to := schema to;
     version_scope := {| backup_versions_from := 1; backup_versions_to := scope; scope_table := lit "t"; primary_snapshot_ref := None |};
     from_layout_hash := lit "h" ++ dec from; to_layout_hash := lit "h" ++ dec to; target_conflict_policy := PolicyFail;
     table_rename := None; field_diff := None |}.
Definition c0 : TableMigrationChain := fresh_chain (lit "t").
Definition c1 : TableMigrationChain := appended (manifest (lit "m1") 1 2 10) c0.
Definition c2 : TableMigrationChain := appended (manifest (lit "m2") 2 3 20) c1.
Definition calm : nat → option Failure := λ _, None.
Definition s0 : FS := {| fs_files := {[index_parts (lit "t") := Whole (ser (tc_index c0))]}; fs_calls := 0 |}.
(** The third call fails, after the new content got its name. *)
Definition third : nat → option Failure := λ i, if (i =? 2)%nat then Some After else None.

Lemma s0_stored : stored s0 c0.
Proof. split; [done|constructor]. Qed.

Lemma append_old_or_new_witness :
  let '(s', c', r) := append third true c0 (manifest (lit "m1") 1 2 10) (Some [(lit "k", lit "v")]) s0 in
  r ≠ Ok () ∧ ∃ s2 c2, load_table_chain_sealed calm true (lit "t") s' = (s2, Ok c2) ∧ (c2 = c0 ∨ c2 = c1).
Proof.
  pose proof (append_old_or_new third calm true s0 c0 (manifest (lit "m1") 1 2 10) (Some [(lit "k", lit "v")]) s0_stored) as Hw.
  destruct (append third true c0 (manifest (lit "m1") 1 2 10) (Some [(lit "k", lit "v")]) s0) as [[s' c'] r] eqn:E.
  destruct Hw as (s2 & c2 & E2 & Hc & _).
  - intros m' Hm'. by apply elem_of_nil in Hm'.
  - reflexivity.
  - split; [|exists s2, c2; split; [exact E2|exact Hc]].
    assert (Er : (append third true c0 (manifest (lit "m1") 1 2 10) (Some [(lit "k", lit "v")]) s0).2 = Err io_error)
      by (vm_compute; reflexivity).
    rewrite E in Er. cbn [snd] in Er. rewrite Er. discriminate.
Defined.

Definition grow : str → str → option Decoder := λ _ to, Some (λ b, Ok (b ++ to)).

Lemma era_exact_witness :
  is_restorable c2 21 = true ∧ decode_to_json Ok c2 grow (lit "x") 15 Normalized = Ok (lit "xh3", [lit "t@2"; lit "t@3"]).
Proof.
  assert (Hl : linked 1 (tc_manifests c2) (current_version (tc_index c2))) by (vm_compute; done).
  split.
  - apply (era_exact Ok c2 grow 1 21 (lit "x") Hl). repeat constructor.
  - destruct (era_exact Ok c2 grow 1 15 (lit "x") Hl) as [_ ->]. vm_compute. reflexivity.
Defined.

(** Versions count per key, scopes per table: with keys [a] at version 3 and [b] at
    version 1, the migration's scope ends at 3.  The first version of [b] written after
    the migration, 2, is then taken for one before it: it cannot be restored, and showing
    it in the current schema migrates it a second time.  A key that was deleted before
    the migration is not asked, so its last versions, written before, pass as current. *)
Definition current (k : str) : result N := if bool_decide (k = lit "a") then Ok 3 else if bool_decide (k = lit "b") then Ok 1 else Ok 5.
Definition scope_ab : N := max_backup_version current [lit "a"; lit "b"] (Some c0).
Definition c1' : TableMigrationChain := appended (manifest (lit "m1") 1 2 scope_ab) c0.

Lemma scope_mixes_keys :
  is_restorable c1' 2 = false ∧
  decode_to_json Ok c1' grow (lit "new") 2 Normalized = Ok (lit "newh2", [lit "t@1"; lit "t@2"]) ∧
  current (lit "gone") = Ok 5 ∧ is_restorable c1' 5 = true.
Proof. vm_compute. done. Qed.
End ChainDemo.
