(* ===== verification/Samples.v ===== *)
(** * Concrete serializers for evaluated examples

    Countability of the stored types gives each a [Serde] instance, and a
    self-delimiting one where the code relies on JSON being self-delimiting. *)
From S2P Require Import Prelude Order Redb Fields.

#[global] Instance ValueKind_countable : Countable ValueKind.
Proof.
  refine (inj_countable' (λ k, match k with Auto => 0 | DateTime => 1 | Date => 2 | NaiveDateTime => 3
      | EpochSeconds => 4 | EpochMillis => 5 end)%nat
    (λ n, match n with 0 => Auto | 1 => DateTime | 2 => Date | 3 => NaiveDateTime
      | 4 => EpochSeconds | _ => EpochMillis end)%nat _). by intros [].
Defined.

#[global] Instance Step_countable : Countable Step.
Proof.
  refine (inj_countable' (λ s, match s with Key k => inl k | Index i => inr (inl i) | Any => inr (inr 0%nat)
      | All => inr (inr 1%nat) | Length => inr (inr 2%nat) end)
    (λ c, match c with inl k => Key k | inr (inl i) => Index i | inr (inr 0%nat) => Any
      | inr (inr 1%nat) => All | inr (inr _) => Length end) _). by intros [].
Defined.

#[global] Instance TransformKind_countable : Countable TransformKind.
Proof.
  refine (inj_countable' (λ k, match k with Trim => 0 | Lowercase => 1 | NormalizeArabic => 2 end)%nat
    (λ n, match n with 0 => Trim | 1 => Lowercase | _ => NormalizeArabic end)%nat _). by intros [].
Defined.

#[global] Instance Transform_countable : Countable Transform.
Proof.
  refine (inj_countable' (λ t, (t_kind t, t_version t)) (λ p, {| t_kind := p.1; t_version := p.2 |}) _).
  by intros [].
Defined.

#[global] Instance Path_countable : Countable Path.
Proof.
  refine (inj_countable' (λ p, (p_steps p, p_kind p, p_transforms p))
    (λ q, {| p_steps := q.1.1; p_kind := q.1.2; p_transforms := q.2 |}) _). by intros [].
Defined.

(** A serializer that ends with a byte it uses nowhere else. *)
Fixpoint until_end (l : bytes) : bytes :=
  match l with
  | [] => []
  | b :: l' => if decide (b = Byte.x02) then [] else b :: until_end l'
  end.

Lemma until_end_pos p x : until_end (pos_bytes p ++ Byte.x02 :: x) = pos_bytes p.
Proof. induction p; simpl; by rewrite ?IHp. Qed.

Program Definition closed_serde {A} `{Countable A} : Serde A := {|
  ser a := pos_bytes (encode a) ++ [Byte.x02];
  de b := decode (bytes_pos (until_end b));
|}.
Next Obligation. intros A ? ? a. simpl. by rewrite until_end_pos, bytes_pos_bytes, decode_encode. Qed.

Lemma closed_serde_prefix {A} `{Countable A} (a b : A) x y :
  ser (Serde := closed_serde) a ++ x = ser (Serde := closed_serde) b ++ y → a = b.
Proof.
  simpl. rewrite <-!app_assoc. simpl. intros E%(f_equal until_end). rewrite !until_end_pos in E.
  apply (f_equal bytes_pos) in E. rewrite !bytes_pos_bytes in E. by apply (inj encode) in E.
Qed.
