(* ===== verification/Tx.v ===== *)
(** * One write transaction of the primary database

    [Tx] is what a [redb::WriteTransaction] sees: the library's own tables under
    their constants' names, and every other table by name in [user].  A body of the
    source that takes [&WriteTransaction] and may fail is a computation in [M]: a
    failure drops the transaction, so no state is kept with it. *)
From S2P Require Import Prelude Order Redb.

Section tx.
Context `{Redb}.

Record Tx := {
  SEQ : table str bytes;            (* __seq *)
  CHANGES : table N bytes;          (* __changes *)
  CONSUMERS : table str bytes;      (* __consumers *)
  LASTWRITE : table bytes N;        (* __lastwrite *)
  ID_DEFS : table str bytes;        (* __id_contracts *)
  UQ_DEFS : table str bytes;        (* __unique_definitions *)
  UQ_KEYS : table bytes str;        (* __unique_keys *)
  UQ_REVERSE : table bytes bytes;   (* __unique_rows *)
  REFS : table str bytes;           (* __blob_refs *)
  user : gmap str (table str bytes);
}.

Definition tx_new : Tx :=
  {| SEQ := t_new; CHANGES := t_new; CONSUMERS := t_new; LASTWRITE := t_new; ID_DEFS := t_new;
     UQ_DEFS := t_new; UQ_KEYS := t_new; UQ_REVERSE := t_new; REFS := t_new; user := ∅ |}.

Definition set_SEQ v (x : Tx) := {| SEQ := v; CHANGES := CHANGES x; CONSUMERS := CONSUMERS x;
  LASTWRITE := LASTWRITE x; ID_DEFS := ID_DEFS x; UQ_DEFS := UQ_DEFS x; UQ_KEYS := UQ_KEYS x;
  UQ_REVERSE := UQ_REVERSE x; REFS := REFS x; user := user x |}.
Definition set_CHANGES v (x : Tx) := {| SEQ := SEQ x; CHANGES := v; CONSUMERS := CONSUMERS x;
  LASTWRITE := LASTWRITE x; ID_DEFS := ID_DEFS x; UQ_DEFS := UQ_DEFS x; UQ_KEYS := UQ_KEYS x;
  UQ_REVERSE := UQ_REVERSE x; REFS := REFS x; user := user x |}.
Definition set_CONSUMERS v (x : Tx) := {| SEQ := SEQ x; CHANGES := CHANGES x; CONSUMERS := v;
  LASTWRITE := LASTWRITE x; ID_DEFS := ID_DEFS x; UQ_DEFS := UQ_DEFS x; UQ_KEYS := UQ_KEYS x;
  UQ_REVERSE := UQ_REVERSE x; REFS := REFS x; user := user x |}.
Definition set_LASTWRITE v (x : Tx) := {| SEQ := SEQ x; CHANGES := CHANGES x; CONSUMERS := CONSUMERS x;
  LASTWRITE := v; ID_DEFS := ID_DEFS x; UQ_DEFS := UQ_DEFS x; UQ_KEYS := UQ_KEYS x;
  UQ_REVERSE := UQ_REVERSE x; REFS := REFS x; user := user x |}.
Definition set_ID_DEFS v (x : Tx) := {| SEQ := SEQ x; CHANGES := CHANGES x; CONSUMERS := CONSUMERS x;
  LASTWRITE := LASTWRITE x; ID_DEFS := v; UQ_DEFS := UQ_DEFS x; UQ_KEYS := UQ_KEYS x;
  UQ_REVERSE := UQ_REVERSE x; REFS := REFS x; user := user x |}.
Definition set_UQ_DEFS v (x : Tx) := {| SEQ := SEQ x; CHANGES := CHANGES x; CONSUMERS := CONSUMERS x;
  LASTWRITE := LASTWRITE x; ID_DEFS := ID_DEFS x; UQ_DEFS := v; UQ_KEYS := UQ_KEYS x;
  UQ_REVERSE := UQ_REVERSE x; REFS := REFS x; user := user x |}.
Definition set_UQ_KEYS v (x : Tx) := {| SEQ := SEQ x; CHANGES := CHANGES x; CONSUMERS := CONSUMERS x;
  LASTWRITE := LASTWRITE x; ID_DEFS := ID_DEFS x; UQ_DEFS := UQ_DEFS x; UQ_KEYS := v;
  UQ_REVERSE := UQ_REVERSE x; REFS := REFS x; user := user x |}.
Definition set_UQ_REVERSE v (x : Tx) := {| SEQ := SEQ x; CHANGES := CHANGES x; CONSUMERS := CONSUMERS x;
  LASTWRITE := LASTWRITE x; ID_DEFS := ID_DEFS x; UQ_DEFS := UQ_DEFS x; UQ_KEYS := UQ_KEYS x;
  UQ_REVERSE := v; REFS := REFS x; user := user x |}.
Definition set_REFS v (x : Tx) := {| SEQ := SEQ x; CHANGES := CHANGES x; CONSUMERS := CONSUMERS x;
  LASTWRITE := LASTWRITE x; ID_DEFS := ID_DEFS x; UQ_DEFS := UQ_DEFS x; UQ_KEYS := UQ_KEYS x;
  UQ_REVERSE := UQ_REVERSE x; REFS := v; user := user x |}.
Definition set_user v (x : Tx) := {| SEQ := SEQ x; CHANGES := CHANGES x; CONSUMERS := CONSUMERS x;
  LASTWRITE := LASTWRITE x; ID_DEFS := ID_DEFS x; UQ_DEFS := UQ_DEFS x; UQ_KEYS := UQ_KEYS x;
  UQ_REVERSE := UQ_REVERSE x; REFS := REFS x; user := v |}.

(** ** The transaction monad *)

Definition M (A : Type) : Type := Tx → result (A * Tx).

#[global] Instance M_ret : MRet M := λ A a tx, Ok (a, tx).
#[global] Instance M_bind : MBind M := λ A B k m tx, let? '(a, tx') := m tx in k a tx'.

Definition fail {A} (e : ClError) : M A := λ _, Err e.
(** [expr?] for an expression that does not touch the transaction. *)
Definition lift {A} (r : result A) : M A := λ tx, rmap (λ a, (a, tx)) r.
Definition gets {A} (f : Tx → A) : M A := λ tx, Ok (f tx, tx).
Definition modify (f : Tx → Tx) : M () := λ tx, Ok ((), f tx).

(** [for x in l { body(x)? }]. *)
Fixpoint for_each {A} (l : list A) (body : A → M ()) : M () :=
  match l with
  | [] => mret ()
  | a :: l' => body a ;; for_each l' body
  end.

(** The table [name], empty when it does not exist. *)
Definition rows (tx : Tx) (name : str) : table str bytes := default t_new (user tx !! name).

(** [tx.open_table(name)]: a missing table is created. *)
Definition open_table (name : str) : M (table str bytes) :=
  λ tx, Ok (rows tx name, set_user (<[name := rows tx name]> (user tx)) tx).

(** [tx.open_table(name)?.insert(k, v)?] and the like. *)
Definition put_row (name k : str) (v : bytes) : M () :=
  modify (λ tx, set_user (<[name := t_insert (rows tx name) k v]> (user tx)) tx).
Definition remove_row (name k : str) : M () :=
  modify (λ tx, set_user (<[name := t_remove (rows tx name) k]> (user tx)) tx).
Definition delete_table (name : str) : M () :=
  modify (λ tx, set_user (delete name (user tx)) tx).

(** ** Inversion *)

Lemma M_bind_ok {A B} (m : M A) (k : A → M B) tx b tx2 :
  (m ≫= k) tx = Ok (b, tx2) ↔ ∃ a tx1, m tx = Ok (a, tx1) ∧ k a tx1 = Ok (b, tx2).
Proof.
  unfold mbind, M_bind. split.
  - intros E. apply rbind_ok in E as ([a tx1] & E1 & E2). eauto.
  - intros (a & tx1 & E1 & E2). by rewrite E1.
Qed.

Lemma M_bind_eq {A B} (m : M A) (k : A → M B) tx a tx1 :
  m tx = Ok (a, tx1) → (m ≫= k) tx = k a tx1.
Proof. intros E. unfold mbind, M_bind. by rewrite E. Qed.

Lemma M_bind_err {A B} (m : M A) (k : A → M B) tx e :
  m tx = Err e → (m ≫= k) tx = Err e.
Proof. intros E. unfold mbind, M_bind. by rewrite E. Qed.

Lemma lift_ok {A} (r : result A) tx a tx' : lift r tx = Ok (a, tx') ↔ r = Ok a ∧ tx' = tx.
Proof. unfold lift. destruct r; simpl; naive_solver. Qed.

Lemma for_each_app {A} (l1 l2 : list A) body tx :
  for_each (l1 ++ l2) body tx = (for_each l1 body ;; for_each l2 body) tx.
Proof.
  revert tx. induction l1 as [|a l1 IH]; intros tx; [done|]. cbn [for_each app].
  unfold mbind, M_bind in *. destruct (body a tx) as [[[] tx1]|]; cbn [rbind]; [|done]. by rewrite IH.
Qed.

(** An invariant of the body is an invariant of the loop. *)
Lemma for_each_inv {A} (P : Tx → Prop) (l : list A) body tx tx' :
  (∀ a tx tx', a ∈ l → P tx → body a tx = Ok ((), tx') → P tx') →
  P tx → for_each l body tx = Ok ((), tx') → P tx'.
Proof.
  revert tx. induction l as [|a l IH]; intros tx Hb Hp; cbn [for_each].
  - by intros [= <-].
  - intros ([] & tx1 & E1 & E2)%M_bind_ok. apply (IH tx1); [|by eapply Hb; [left| |]|done].
    intros b t t' Hin. apply Hb. by right.
Qed.

(** ** Total correctness up to memory

    [wp m Q tx]: from [tx], [m] answers and [Q] holds of the answer and the
    transaction, unless the system refused memory; no other error is possible. *)
Definition wp {A} (m : M A) (Q : A → Tx → Prop) (tx : Tx) : Prop :=
  match m tx with
  | Ok (a, tx') => Q a tx'
  | Err (OutOfMemory _ _) => True
  | Err _ => False
  end.

Lemma wp_ret {A} (a : A) Q tx : Q a tx → wp (mret a) Q tx.
Proof. done. Qed.
Lemma wp_bind {A B} (m : M A) (k : A → M B) Q tx :
  wp m (λ a, wp (k a) Q) tx → wp (m ≫= k) Q tx.
Proof.
  unfold wp, mbind, M_bind. destruct (m tx) as [[a tx']|e]; simpl; [done|]. by destruct e.
Qed.
Lemma wp_gets {A} (f : Tx → A) Q tx : Q (f tx) tx → wp (gets f) Q tx.
Proof. done. Qed.
Lemma wp_modify f Q tx : Q () (f tx) → wp (modify f) Q tx.
Proof. done. Qed.
Lemma wp_lift {A} (r : result A) a Q tx : r = Ok a → Q a tx → wp (lift r) Q tx.
Proof. by intros ->. Qed.
Lemma wp_mono {A} (m : M A) (Q Q' : A → Tx → Prop) tx :
  (∀ a tx', Q a tx' → Q' a tx') → wp m Q tx → wp m Q' tx.
Proof. unfold wp. intros HQ. destruct (m tx) as [[a tx']|e]; [auto|done]. Qed.
Lemma wp_ok {A} (m : M A) (Q : A → Tx → Prop) tx a tx' : wp m Q tx → m tx = Ok (a, tx') → Q a tx'.
Proof. unfold wp. intros Hw E. by rewrite E in Hw. Qed.
End tx.

(** [Ok (a, tx) = Ok (b, tx')] as equations, rewriting the second side away. *)
Ltac m_inject Hm :=
  first [injection Hm as <- <- <- | injection Hm as <- <- | injection Hm as <- | injection Hm as ? ?; subst | injection Hm as ?; subst].

(** Split a successful computation into its steps. *)
Ltac m_inv :=
  repeat match goal with
  | Hm : mbind _ _ _ = Ok (_, _) |- _ => apply M_bind_ok in Hm as (? & ? & ? & Hm)
  | Hm : lift _ _ = Ok (_, _) |- _ => first [apply lift_ok in Hm as [Hm ->] | apply lift_ok in Hm as [Hm ?]; subst]
  | Hm : gets _ _ = Ok (_, _) |- _ => unfold gets in Hm; m_inject Hm
  | Hm : modify _ _ = Ok (_, _) |- _ => unfold modify in Hm; m_inject Hm
  | Hm : mret _ _ = Ok (_, _) |- _ => unfold mret, M_ret in Hm; m_inject Hm
  | Hm : fail _ _ = Ok _ |- _ => discriminate Hm
  | u : () |- _ => destruct u
  end.
