(* ===== verification/LastWrite.v ===== *)
(** * The last write of each row ([lastwrite.rs])

    [__lastwrite] maps a row to the sequence of the change that last wrote it; 0
    when no change did, or the row is gone. *)
From S2P Require Import Prelude Order Redb Tx JournalCodec.

Section lastwrite.
Context `{Redb} {SP : Serde (str * str)}.

Definition key (table row : str) : bytes := ser (table, row).

Definition get (tx : Tx) (table row : str) : N :=
  default 0%N (t_get (LASTWRITE tx) (key table row)).

(** The predicate of [retain]: an unreadable key stays. *)
Definition other_table (table : str) (k : bytes) : bool :=
  match de (A := str * str) k with Some (name, _) => negb (bool_decide (name = table)) | None => true end.

Definition apply (change : ChangeKind) (seq : N) : M () :=
  match change with
  | Upsert table row _ =>
      modify (λ tx, set_LASTWRITE (t_insert (LASTWRITE tx) (key table row) seq) tx)
  | Delete table row =>
      modify (λ tx, set_LASTWRITE (t_remove (LASTWRITE tx) (key table row)) tx)
  | TableReset table _ =>
      modify (λ tx, set_LASTWRITE (t_retain (λ k _, other_table table k) (LASTWRITE tx)) tx) ;;
      rows ← open_table table;
      for_each (t_iter rows)
        (λ p, modify (λ tx, set_LASTWRITE (t_insert (LASTWRITE tx) (key table p.1) seq) tx))
  | _ => mret ()
  end.

(** ** What one change does *)

Lemma key_inj t r t' r' : key t r = key t' r' → t = t' ∧ r = r'.
Proof. unfold key. intros [= -> ->]%ser_inj. done. Qed.

Lemma get_insert tx t r s t' r' :
  get (set_LASTWRITE (t_insert (LASTWRITE tx) (key t r) s) tx) t' r' =
    if decide (t = t' ∧ r = r') then s else get tx t' r'.
Proof.
  unfold get. simpl. rewrite t_get_insert. repeat case_decide; try done.
  - exfalso. eauto using key_inj.
  - naive_solver.
Qed.

Lemma get_remove tx t r t' r' :
  get (set_LASTWRITE (t_remove (LASTWRITE tx) (key t r)) tx) t' r' =
    if decide (t = t' ∧ r = r') then 0%N else get tx t' r'.
Proof.
  unfold get. simpl. rewrite t_get_remove. repeat case_decide; try done.
  - exfalso. eauto using key_inj.
  - naive_solver.
Qed.

Lemma get_retain tx t t' r' :
  get (set_LASTWRITE (t_retain (λ k _, other_table t k) (LASTWRITE tx)) tx) t' r' =
    if decide (t = t') then 0%N else get tx t' r'.
Proof.
  unfold get. simpl. rewrite t_get_retain. unfold other_table, key. rewrite de_ser.
  case_decide; subst.
  - rewrite bool_decide_true by done. simpl. by case_match.
  - rewrite bool_decide_false by done. simpl. by case_match.
Qed.

(** The loop over the rows of a reset table. *)
Lemma reset_loop t s (l : list (str * bytes)) : ∀ tx tx',
  for_each l (λ p, modify (λ tx, set_LASTWRITE (t_insert (LASTWRITE tx) (key t p.1) s) tx)) tx = Ok ((), tx') →
  (∀ t' r', get tx' t' r' = if decide (t = t' ∧ r' ∈ l.*1) then s else get tx t' r') ∧
  ∃ v, tx' = set_LASTWRITE v tx.
Proof.
  induction l as [|[k v] l IH]; intros tx tx'; cbn [for_each].
  - intros [= <-]. split; [|by exists (LASTWRITE tx); destruct tx].
    intros t' r'. rewrite decide_False; [done|]. set_solver.
  - intros ([] & tx1 & E1 & E2)%M_bind_ok. injection E1 as <-.
    destruct (IH _ _ E2) as [Hg [w ->]]. split; [|by exists w].
    intros t' r'. rewrite Hg, get_insert. simpl. repeat case_decide; set_solver.
Qed.

(** The frame of [apply]: only [__lastwrite] changes, and a table may be created. *)
Definition lw_frame (tx tx' : Tx) : Prop :=
  ∃ v u, tx' = set_LASTWRITE v (set_user u tx) ∧ ∀ name, rows tx' name = rows tx name.

Lemma rows_open tx name n : rows (set_user (<[name := rows tx name]> (user tx)) tx) n = rows tx n.
Proof.
  unfold rows at 1. simpl. destruct (decide (name = n)) as [->|Hne].
  - by rewrite lookup_insert_eq.
  - by rewrite lookup_insert_ne.
Qed.

(** The sequence of the last write after one change, by cases. *)
Definition touched (tx : Tx) (c : ChangeKind) (s : N) (t r : str) : N :=
  match c with
  | Upsert t' r' _ => if decide (t' = t ∧ r' = r) then s else get tx t r
  | Delete t' r' => if decide (t' = t ∧ r' = r) then 0%N else get tx t r
  | TableReset t' _ =>
      if decide (t' = t) then (if decide (is_Some (t_get (rows tx t) r)) then s else 0%N) else get tx t r
  | _ => get tx t r
  end.

Lemma elem_of_keys {K V} `{TotalOrder K} (tb : table K V) k :
  k ∈ (t_iter tb).*1 ↔ is_Some (t_get tb k).
Proof.
  rewrite list_elem_of_fmap. split.
  - intros ([k' v] & -> & Hin). exists v. by apply t_get_iter.
  - intros [v Hv%t_get_iter]. by exists (k, v).
Qed.

Lemma apply_spec c s tx tx' : apply c s tx = Ok ((), tx') →
  (∀ t r, get tx' t r = touched tx c s t r) ∧ lw_frame tx tx'.
Proof.
  assert (Hid : ∀ v, lw_frame tx (set_LASTWRITE v tx)).
  { intros v. exists v, (user tx). split; [by destruct tx|done]. }
  destruct c as [t r v|t r|t snap|t k b n|t k b n]; simpl.
  - intros [= <-]. split; [|done]. intros t' r'. by rewrite get_insert.
  - intros [= <-]. split; [|done]. intros t' r'. by rewrite get_remove.
  - intros ([] & tx1 & E1 & E2)%M_bind_ok. injection E1 as <-.
    apply M_bind_ok in E2 as (tb & tx2 & E2 & E3). injection E2 as <- <-.
    apply reset_loop in E3 as [Hg [w ->]]. split.
    + intros t' r'. rewrite Hg.
      change (get (set_user ?u ?x) ?a ?b) with (get x a b). rewrite get_retain.
      change (rows (set_LASTWRITE ?v tx) t) with (rows tx t).
      pose proof (elem_of_keys (rows tx t) r') as Hk.
      repeat case_decide; subst; naive_solver.
    + eexists w, _. split; [by destruct tx|]. intros name.
      apply (rows_open tx t name).
  - intros [= <-]. split; [done|]. destruct tx as [a1 a2 a3 a4 a5 a6 a7 a8 a9 a10].
    exists a4, a10. done.
  - intros [= <-]. split; [done|]. destruct tx as [a1 a2 a3 a4 a5 a6 a7 a8 a9 a10].
    exists a4, a10. done.
Qed.

Lemma apply_total c s tx : ∃ tx', apply c s tx = Ok ((), tx').
Proof.
  destruct c as [t r v|t r|t snap|t k b n|t k b n]; simpl; try (by eexists).
  unfold mbind, M_bind. simpl. generalize (t_iter (rows (set_LASTWRITE
    (t_retain (λ k _, other_table t k) (LASTWRITE tx)) tx) t)). intros l.
  match goal with |- ∃ _, for_each _ _ ?x = _ => generalize x end.
  induction l as [|p l IH]; intros x; cbn [for_each]; [by eexists|].
  unfold mbind, M_bind. simpl. apply IH.
Qed.

#[global] Instance lw_frame_refl : Reflexive lw_frame.
Proof. intros tx. exists (LASTWRITE tx), (user tx). by destruct tx. Qed.
#[global] Instance lw_frame_trans : Transitive lw_frame.
Proof.
  intros x y z (v & u & -> & H1) (v' & u' & -> & H2). exists v', u'. split; [by destruct x|].
  intros name. by rewrite H2.
Qed.

(** ** What a list of changes does *)

(** The specification of [__lastwrite]: the sequence of the last change that wrote the
    row, where a reset writes every row of the table's image. *)
Definition touch (present : bool) (t r : str) (old : N) (p : N * ChangeKind) : N :=
  match p.2 with
  | Upsert t' r' _ => if decide (t' = t ∧ r' = r) then p.1 else old
  | Delete t' r' => if decide (t' = t ∧ r' = r) then 0%N else old
  | TableReset t' _ => if decide (t' = t) then (if present then p.1 else 0%N) else old
  | _ => old
  end.

Definition last_write (present : bool) (t r : str) (old : N) (l : list (N * ChangeKind)) : N :=
  fold_left (touch present t r) l old.

Definition has_row (tx : Tx) (t r : str) : bool := bool_decide (is_Some (t_get (rows tx t) r)).

Lemma touched_touch tx c s t r : touched tx c s t r = touch (has_row tx t r) t r (get tx t r) (s, c).
Proof.
  unfold touched, touch, has_row. destruct c; simpl; try done.
  case_decide; [|done]. by case_bool_decide; case_decide.
Qed.

Lemma apply_all_spec l : ∀ tx tx', for_each l (λ p, apply p.2 p.1) tx = Ok ((), tx') →
  lw_frame tx tx' ∧ ∀ t r, get tx' t r = last_write (has_row tx t r) t r (get tx t r) l.
Proof.
  induction l as [|p l IH]; intros tx tx'; cbn [for_each].
  - by intros [= <-].
  - intros ([] & tx1 & E1 & E2)%M_bind_ok. apply apply_spec in E1 as [Hg F1].
    apply IH in E2 as [F2 Hg2]. split; [by etrans|]. intros t r. rewrite Hg2, Hg, touched_touch.
    unfold last_write. cbn [fold_left]. destruct p as [s c]. simpl.
    assert (has_row tx1 t r = has_row tx t r) as ->; [|done].
    unfold has_row. destruct F1 as (v & u & -> & Hrows). by rewrite Hrows.
Qed.
End lastwrite.
