(* ===== verification/IdContract.v ===== *)
(** * Declared row identities ([id_contract.rs])

    A table may declare that a field of each row holds the row's key.  The contract
    is checked on every row when it is first declared and on every written row
    afterwards, inside the transaction that writes. *)
From S2P Require Import Prelude Order Redb Fields Eval Tx JournalCodec.

Section id_contract.
Context `{Redb, TextLib} {SPath : Serde Path}.

Definition check (path : Path) (key : str) (b : bytes) : result () :=
  let? v := path_value b path in
  match v with
  | VString id => if decide (id = key) then Ok () else Err IdFieldMismatch
  | _ => Err IdFieldMismatch
  end.

Definition is_scalar_step (s : Step) : bool := match s with Key _ | Index _ => true | _ => false end.

Definition scalar_path (path : Path) : bool :=
  bool_decide (p_kind path = Auto) && bool_decide (p_transforms path = [])
  && negb (existsb (λ s, negb (is_scalar_step s)) (p_steps path)).

(** [for row in rows { check(path, row)? }]. *)
Definition check_rows (path : Path) (l : list (str * bytes)) : result () :=
  try_fold (λ _ p, check path p.1 p.2) () l.

Definition configure_one (table : str) (path : Path) : M () :=
  if negb (scalar_path path)
  then fail (Validation (lit "id_field requires an untransformed scalar path"))
  else
    let encoded := ser path in
    same ← gets (λ tx, bool_decide (t_get (ID_DEFS tx) table = Some encoded));
    if (same : bool) then mret ()
    else rows ← open_table table;
         lift (check_rows path (t_iter rows)) ;;
         modify (λ tx, set_ID_DEFS (t_insert (ID_DEFS tx) table encoded) tx).

Definition configure (configured : list (str * Path)) : M () :=
  for_each configured (λ p, configure_one p.1 p.2) ;;
  obsolete ← gets (λ tx, (t_iter (ID_DEFS tx)).*1);
  for_each obsolete (λ table,
    if existsb (λ p, bool_decide (p.1 = table)) configured then mret ()
    else modify (λ tx, set_ID_DEFS (t_remove (ID_DEFS tx) table) tx)).

Definition validate_one (effect : ChangeKind) : M () :=
  match effect with
  | Upsert table _ _ | TableReset table _ =>
      p ← gets (λ tx, t_get (ID_DEFS tx) table);
      match p with
      | None => mret ()
      | Some p =>
          path ← lift (from_slice p);
          match effect with
          | Upsert _ key value => lift (check path key value)
          | TableReset _ snapshot =>
              rows ← open_table snapshot;
              lift (check_rows path (t_iter rows))
          | _ => mret ()
          end
      end
  | _ => mret ()
  end.

Definition validate (effects : list ChangeKind) : M () :=
  empty ← gets (λ tx, bool_decide (t_iter (ID_DEFS tx) = []));
  if (empty : bool) then mret () else for_each effects validate_one.

Definition enforced (tx : Tx) (table : str) (path : Path) : bool :=
  match t_get (ID_DEFS tx) table with
  | Some value => match from_slice value with Ok p => bool_decide (p = path) | Err _ => false end
  | None => false
  end.

(** ** The contract as an invariant *)

(** Every row of a table with a declared identity carries its key. *)
Definition honoured (tx : Tx) : Prop :=
  ∀ t p, t_get (ID_DEFS tx) t = Some p →
    ∃ path, de p = Some path ∧ ∀ k v, t_get (rows tx t) k = Some v → check path k v = Ok ().

Lemma check_rows_ok path l : check_rows path l = Ok () ↔ ∀ k v, (k, v) ∈ l → check path k v = Ok ().
Proof.
  unfold check_rows. induction l as [|[k v] l IH]; simpl.
  - split; [|done]. intros _ k v Hin. by apply elem_of_nil in Hin.
  - split.
    + intros E. apply rbind_ok in E as ([] & Hc & E). intros k' v' [[= -> ->]|Hin]%elem_of_cons; [done|].
      by apply IH.
    + intros Hall. rewrite (Hall k v) by (left). simpl. apply IH. intros k' v' Hin. apply Hall. by right.
Qed.

(** The rows a list of effects leaves behind: unchanged outside the effects, written
    by an [Upsert], or copied from the snapshot of a [TableReset]. *)
Definition row_covered (tx0 tx : Tx) (effects : list ChangeKind) (t k : str) (v : bytes) : Prop :=
  t_get (rows tx0 t) k = Some v ∨ Upsert t k v ∈ effects ∨
  ∃ snap, TableReset t snap ∈ effects ∧ t_get (rows tx snap) k = Some v.

Definition written_through (tx0 tx : Tx) (effects : list ChangeKind) : Prop :=
  ID_DEFS tx = ID_DEFS tx0 ∧
  ∀ t k v, is_Some (t_get (ID_DEFS tx0) t) → t_get (rows tx t) k = Some v → row_covered tx0 tx effects t k v.

Definition id_frame (tx tx' : Tx) : Prop :=
  ∃ u, tx' = set_user u tx ∧ ∀ name, rows tx' name = rows tx name.

#[global] Instance id_frame_refl : Reflexive id_frame.
Proof. intros tx. exists (user tx). by destruct tx. Qed.
#[global] Instance id_frame_trans : Transitive id_frame.
Proof.
  intros a b c (u & -> & H1) (u' & -> & H2). exists u'. split; [by destruct a|].
  intros name. by rewrite H2.
Qed.

Lemma open_frame name tx tb tx' : open_table name tx = Ok (tb, tx') → tb = rows tx name ∧ id_frame tx tx'.
Proof.
  intros [= <- <-]. split; [done|]. eexists. split; [done|]. intros n. unfold rows at 1. simpl.
  destruct (decide (name = n)) as [->|Hne]; [by rewrite lookup_insert_eq|by rewrite lookup_insert_ne].
Qed.

Lemma validate_one_ok e tx tx' : validate_one e tx = Ok ((), tx') →
  id_frame tx tx' ∧
  ∀ t p, t_get (ID_DEFS tx) t = Some p →
    match e with
    | Upsert t' k v => t' = t → ∃ path, de p = Some path ∧ check path k v = Ok ()
    | TableReset t' snap => t' = t → ∃ path, de p = Some path ∧ check_rows path (t_iter (rows tx snap)) = Ok ()
    | _ => True
    end.
Proof.
  assert (Hslice : ∀ p (path : Path), from_slice p = Ok path → de p = Some path).
  { intros p path. unfold from_slice. by destruct (de p) as [?|]; simpl; intros [= ->]. }
  destruct e as [t k v|t k|t snap| |]; simpl; try (by intros [= <-]).
  - intros E. m_inv. destruct (t_get (ID_DEFS tx) t) as [p|] eqn:Ep; m_inv.
    + split; [done|]. intros t' p' Ep' <-. simplify_eq. eauto.
    + split; [done|]. intros t' p' Ep' <-. congruence.
  - intros E. m_inv. destruct (t_get (ID_DEFS tx) t) as [p|] eqn:Ep; m_inv.
    + match goal with Ho : open_table _ _ = _ |- _ => apply open_frame in Ho as [-> Hf] end.
      split; [done|]. intros t' p' Ep' <-. simplify_eq. eauto.
    + split; [done|]. intros t' p' Ep' <-. congruence.
Qed.

(** After a successful validation every effect was checked. *)
Lemma validate_loop effects : ∀ tx tx', for_each effects validate_one tx = Ok ((), tx') →
  id_frame tx tx' ∧
  ∀ e t p, e ∈ effects → t_get (ID_DEFS tx) t = Some p →
    match e with
    | Upsert t' k v => t' = t → ∃ path, de p = Some path ∧ check path k v = Ok ()
    | TableReset t' snap => t' = t → ∃ path, de p = Some path ∧ check_rows path (t_iter (rows tx snap)) = Ok ()
    | _ => True
    end.
Proof.
  induction effects as [|e es IH]; intros tx tx'; cbn [for_each].
  - intros [= <-]. split; [done|]. intros e t p Hin. by apply elem_of_nil in Hin.
  - intros ([] & tx1 & E1 & E2)%M_bind_ok. apply validate_one_ok in E1 as [F1 H1].
    apply IH in E2 as [F2 H2]. split; [by etrans|].
    destruct F1 as (u & -> & Hrows). intros e' t p [->|Hin]%elem_of_cons Hp; [by apply H1|].
    specialize (H2 e' t p Hin Hp). destruct e'; try done. intros Et.
    destruct (H2 Et) as (path & ? & Hc). exists path. rewrite <-Hrows. done.
Qed.

Lemma validate_frame effects tx tx' : validate effects tx = Ok ((), tx') → id_frame tx tx'.
Proof.
  intros E. unfold validate in E. m_inv. case_bool_decide; [by m_inv|]. by apply validate_loop in E as [? _].
Qed.

Lemma validate_honours tx0 tx effects tx' :
  honoured tx0 → written_through tx0 tx effects →
  validate effects tx = Ok ((), tx') → honoured tx' ∧ id_frame tx tx'.
Proof.
  intros Hh [Hd Hw] E. unfold validate in E. m_inv. case_bool_decide as He; m_inv.
  - split; [|done]. intros t p Hp. apply t_get_iter in Hp. rewrite He in Hp. by apply elem_of_nil in Hp.
  - apply validate_loop in E as [Hf Hv].
    split; [|done]. destruct Hf as (u & -> & Hrows). intros t p Hp. simpl in Hp.
    destruct (Hh t p) as (path & Hpath & Hold); [by rewrite <-Hd|]. exists path. split; [done|].
    intros k v Hk. rewrite Hrows in Hk. destruct (Hw t k v ltac:(rewrite <-Hd; by exists p) Hk) as [H0'|[Hu|(snap & Hs & Hsk)]].
    + by apply Hold.
    + destruct (Hv _ t p Hu Hp eq_refl) as (path' & ? & ?). by simplify_eq.
    + destruct (Hv _ t p Hs Hp eq_refl) as (path' & ? & Hc). simplify_eq.
      apply (proj1 (check_rows_ok _ _) Hc). by apply t_get_iter.
Qed.
End id_contract.
