(* ===== verification/Unique.v ===== *)
(** * Unique constraints ([unique.rs])

    [__unique_keys] maps an encoded key to the row that owns it, [__unique_rows]
    maps a row back to its keys; both are maintained inside the writing
    transaction. *)
From S2P Require Import Prelude Order Redb Fields OrderedCodec Eval Tx JournalCodec.

Record Unique := { u_paths : list Path }.
#[global] Instance Unique_eq_dec : EqDecision Unique.
Proof. solve_decision. Defined.

Definition unique_on (p : Path) : Unique := {| u_paths := [p] |}.
Definition unique_and (u : Unique) (p : Path) : Unique := {| u_paths := u_paths u ++ [p] |}.

Section unique.
Context `{Redb, TextLib}
  {SPair : Serde (str * str)} {SIdx : Serde (str * N)} {SKeys : Serde (list bytes)}
  {SDefs : Serde (list Unique)}.

Definition rowkey (table row : str) : bytes := ser (table, row).

Definition scalar_only : ClError := Validation (lit "unique requires scalar paths").

(** The values of one constraint; a null or missing one makes the list empty. *)
Fixpoint unique_values (b : bytes) (paths : list Path) (values : list Value) : result (list Value) :=
  match paths with
  | [] => Ok values
  | p :: paths' =>
      if existsb is_quantifier (p_steps p) then Err scalar_only else
      let? v := path_value b p in
      if is_empty v then Ok [] else unique_values b paths' (values ++ [v])
  end.

Fixpoint keys_from (table : str) (b : bytes) (i : N) (defs : list Unique) : result (list bytes) :=
  match defs with
  | [] => Ok []
  | d :: defs' =>
      let? values := unique_values b (u_paths d) [] in
      let? key := (if bool_decide (values = []) then Ok []
                   else let? k := encode_tuple values in Ok [ser (table, i) ++ k]) in
      let? rest := keys_from table b (i + 1) defs' in
      Ok (key ++ rest)
  end.
Definition keys (table : str) (b : bytes) (defs : list Unique) : result (list bytes) :=
  keys_from table b 0 defs.

Definition remove (table row : str) : M () :=
  let k := rowkey table row in
  old ← gets (λ tx, t_get (UQ_REVERSE tx) k);
  modify (λ tx, set_UQ_REVERSE (t_remove (UQ_REVERSE tx) k) tx) ;;
  match old with
  | None => mret ()
  | Some old =>
      ks ← lift (from_slice (A := list bytes) old);
      for_each ks (λ key, modify (λ tx, set_UQ_KEYS (t_remove (UQ_KEYS tx) key) tx))
  end.

Definition insert (table row : str) (b : bytes) (defs : list Unique) : M () :=
  ks ← lift (keys table b defs);
  for_each ks (λ key,
    owner ← gets (λ tx, t_get (UQ_KEYS tx) key);
    if match owner with Some v => negb (bool_decide (v = row)) | None => false end
    then fail UniqueViolation
    else modify (λ tx, set_UQ_KEYS (t_insert (UQ_KEYS tx) key row) tx)) ;;
  if bool_decide (ks = []) then mret ()
  else modify (λ tx, set_UQ_REVERSE (t_insert (UQ_REVERSE tx) (rowkey table row) (ser ks)) tx).

Definition clear (table : str) : M () :=
  rows ← gets (λ tx, traverse (λ p, from_slice (A := str * str) p.1) (t_iter (UQ_REVERSE tx)));
  rows ← lift rows;
  for_each rows (λ p, if decide (p.1 = table) then remove table p.2 else mret ()).

Definition scalar_defs (defs : list Unique) : bool :=
  negb (existsb (λ d, existsb (λ p, existsb is_quantifier (p_steps p)) (u_paths d)) defs).

Definition configure_one (old : list (str * list Unique)) (table : str) (defs : list Unique) : M () :=
  if negb (scalar_defs defs) then fail scalar_only
  else if existsb (λ p, bool_decide (p.1 = table) && bool_decide (p.2 = defs)) old then mret ()
  else
    rows ← open_table table;
    counts ← lift (try_fold (λ counts p,
               let? ks := keys table p.2 defs in Ok (fold_left (λ c k, bmap_count k c) ks counts))
               [] (t_iter rows));
    let groups := len (filter (λ p, (1 < p.2)%N) counts) in
    if (0 <? groups)%N then fail (DuplicateGroups groups)
    else
      clear table ;;
      for_each (t_iter rows) (λ p, insert table p.1 p.2 defs) ;;
      modify (λ tx, set_UQ_DEFS (t_insert (UQ_DEFS tx) table (ser defs)) tx).

Definition configure (configured : list (str * list Unique)) : M () :=
  old ← gets (λ tx, traverse (λ p, let? d := from_slice (A := list Unique) p.2 in Ok (p.1, d))
                       (t_iter (UQ_DEFS tx)));
  old ← lift old;
  for_each old (λ p,
    if existsb (λ c, bool_decide (c.1 = p.1)) configured then mret ()
    else clear p.1 ;; modify (λ tx, set_UQ_DEFS (t_remove (UQ_DEFS tx) p.1) tx)) ;;
  for_each configured (λ p, configure_one old p.1 p.2).

(** The two sets [validate] collects: changed rows and reset tables. *)
Definition collect (defs : table str bytes) (acc : list (str * str) * list str) (e : ChangeKind) :
    list (str * str) * list str :=
  match e with
  | Upsert table key _ | Delete table key =>
      match t_get defs table with
      | Some _ => (bset_insert (table, key) acc.1, acc.2)
      | None => acc
      end
  | TableReset table _ =>
      match t_get defs table with
      | Some _ => (acc.1, bset_insert table acc.2)
      | None => acc
      end
  | _ => acc
  end.

(** One turn of the loop over the reset tables. *)
Fixpoint reset_tables (changed : list (str * str)) (resets : list str) : M (list (str * str)) :=
  match resets with
  | [] => mret changed
  | table :: resets' =>
      clear table ;;
      rows ← open_table table;
      reset_tables (fold_left (λ c p, bset_insert (table, p.1) c) (t_iter rows) changed) resets'
  end.

Definition reinsert (p : str * str) : M () :=
  d ← gets (λ tx, default [] (t_get (UQ_DEFS tx) p.1));
  definitions ← lift (from_slice (A := list Unique) d);
  rows ← open_table p.1;
  match t_get rows p.2 with
  | Some v => insert p.1 p.2 v definitions
  | None => mret ()
  end.

Definition validate (effects : list ChangeKind) : M () :=
  defs ← gets UQ_DEFS;
  if bool_decide (t_iter defs = []) then mret () else
  let '(changed, resets) := fold_left (collect defs) effects ([], []) in
  changed ← reset_tables changed resets;
  for_each changed (λ p, remove p.1 p.2) ;;
  for_each changed reinsert.
End unique.
