(* ===== verification/UniqueSpec.v ===== *)
(** * Unique constraints hold after every write

    [registered tx R]: the two key tables are exactly the keys of the rows [R].
    Removing, inserting and clearing follow [R]; [validate] re-registers what a
    transaction changed, so afterwards the tables describe all rows of all
    constrained tables and no two rows of a table share a key. *)
From S2P Require Import Prelude Order Redb Fields OrderedCodec Eval EvalSpec Samples Tx JournalCodec Unique.

(** serde_json writes [(table, i)] as a JSON array, which is self-delimiting. *)
Class PrefixFree {A} `{Serde A} := ser_prefix : ∀ (a b : A) x y, ser a ++ x = ser b ++ y → a = b.

Section spec.
Context `{Redb, TextLib}
  {SPair : Serde (str * str)} {SIdx : Serde (str * N)} {SKeys : Serde (list bytes)}
  {SDefs : Serde (list Unique)} {PIdx : @PrefixFree _ SIdx}.

(** The keys of a row under the definitions stored for its table. *)
Definition row_keys (tx : Tx) (t : str) (v : bytes) (ks : list bytes) : Prop :=
  ∃ p ds, t_get (UQ_DEFS tx) t = Some p ∧ de p = Some ds ∧ keys t v ds = Ok ks.

Definition Rows := str → str → bytes → Prop.

Record registered (tx : Tx) (R : Rows) : Prop := {
  g_fun : ∀ t k v v', R t k v → R t k v' → v = v';
  g_keys : ∀ t k v, R t k v → ∃ ks, row_keys tx t v ks;
  g_rev : ∀ rk old, t_get (UQ_REVERSE tx) rk = Some old →
    ∃ t k v ks, rk = rowkey t k ∧ R t k v ∧ row_keys tx t v ks ∧ old = ser ks ∧ ks ≠ [];
  g_rev' : ∀ t k v ks, R t k v → row_keys tx t v ks → ks ≠ [] →
    t_get (UQ_REVERSE tx) (rowkey t k) = Some (ser ks);
  g_key : ∀ q k, t_get (UQ_KEYS tx) q = Some k → ∃ t v ks, R t k v ∧ row_keys tx t v ks ∧ q ∈ ks;
  g_key' : ∀ t k v ks q, R t k v → row_keys tx t v ks → q ∈ ks → t_get (UQ_KEYS tx) q = Some k;
}.

Lemma row_keys_fun tx t v ks ks' : row_keys tx t v ks → row_keys tx t v ks' → ks = ks'.
Proof. intros (p & ds & ? & ? & ?) (p' & ds' & ? & ? & ?). congruence. Qed.

Lemma rowkey_inj t r t' r' : rowkey t r = rowkey t' r' → t = t' ∧ r = r'.
Proof. unfold rowkey. by intros [= -> ->]%ser_inj. Qed.

Lemma keys_table t v ds ks q : keys t v ds = Ok ks → q ∈ ks → ∃ i x, q = ser (t, i) ++ x.
Proof.
  unfold keys. generalize 0%N. revert ks. induction ds as [|d ds IH]; intros ks i; simpl.
  - intros [= <-]. by intros ?%elem_of_nil.
  - intros E. apply rbind_ok in E as (vs & _ & E). apply rbind_ok in E as (key & Ek & E).
    apply rbind_ok in E as (rest & Er & [= <-]). intros [Hq|Hq]%elem_of_app; [|by eapply IH].
    case_bool_decide; [injection Ek as <-; by apply elem_of_nil in Hq|].
    apply rbind_ok in Ek as (x & _ & [= <-]). apply list_elem_of_singleton in Hq as ->. eauto.
Qed.

(** Keys of different tables are different. *)
Lemma row_keys_table tx t t' v v' ks ks' q :
  row_keys tx t v ks → row_keys tx t' v' ks' → q ∈ ks → q ∈ ks' → t = t'.
Proof.
  intros (p & ds & _ & _ & E) (p' & ds' & _ & _ & E') Hq Hq'.
  apply (keys_table _ _ _ _ _ E) in Hq as (i & x & ->).
  apply (keys_table _ _ _ _ _ E') in Hq' as (j & y & Hxy).
  apply (ser_prefix (H := SIdx)) in Hxy. congruence.
Qed.

(** Only the two key tables change, and an empty table may be created. *)
Definition uq_frame (tx tx' : Tx) : Prop :=
  ∃ a b u, tx' = set_UQ_KEYS a (set_UQ_REVERSE b (set_user u tx)) ∧ ∀ name, rows tx' name = rows tx name.

#[global] Instance uq_frame_refl : Reflexive uq_frame.
Proof. intros tx. exists (UQ_KEYS tx), (UQ_REVERSE tx), (user tx). by destruct tx. Qed.
#[global] Instance uq_frame_trans : Transitive uq_frame.
Proof.
  intros x y z (a & b & u & -> & H1) (c & d & w & -> & H2). exists c, d, w. split; [by destruct x|].
  intros name. by rewrite H2.
Qed.

Lemma uq_frame_rows tx tx' name : uq_frame tx tx' → rows tx' name = rows tx name.
Proof. by intros (a & b & u & _ & E). Qed.
Lemma uq_frame_keys tx tx' t v ks : uq_frame tx tx' → row_keys tx' t v ks ↔ row_keys tx t v ks.
Proof. by intros (a & b & u & -> & E). Qed.
Lemma uq_frame_defs tx tx' : uq_frame tx tx' → UQ_DEFS tx' = UQ_DEFS tx.
Proof. by intros (a & b & u & -> & E). Qed.
Lemma uq_frame_set tx a b : uq_frame tx (set_UQ_KEYS a (set_UQ_REVERSE b tx)).
Proof. exists a, b, (user tx). by destruct tx. Qed.
Lemma uq_frame_open tx name tb tx' : open_table name tx = Ok (tb, tx') →
  tb = rows tx name ∧ uq_frame tx tx' ∧ UQ_KEYS tx' = UQ_KEYS tx ∧ UQ_REVERSE tx' = UQ_REVERSE tx.
Proof.
  intros [= <- <-]. split_and!; try done. exists (UQ_KEYS tx), (UQ_REVERSE tx), (<[name := rows tx name]> (user tx)).
  split; [by destruct tx|]. intros n. unfold rows at 1. simpl.
  destruct (decide (name = n)) as [->|Hne]; [by rewrite lookup_insert_eq|by rewrite lookup_insert_ne].
Qed.

Definition without (R : Rows) (t k : str) : Rows := λ t' k' v, R t' k' v ∧ (t', k') ≠ (t, k).
Definition with_row (R : Rows) (t k : str) (v : bytes) : Rows :=
  λ t' k' v', R t' k' v' ∨ (t' = t ∧ k' = k ∧ v' = v).

(** The loop of [remove] over the keys of a row. *)
Lemma remove_keys ks : ∀ tx tx',
  for_each ks (λ key, modify (λ tx, set_UQ_KEYS (t_remove (UQ_KEYS tx) key) tx)) tx = Ok ((), tx') →
  (∃ a, tx' = set_UQ_KEYS a tx) ∧
  ∀ q, t_get (UQ_KEYS tx') q = if decide (q ∈ ks) then None else t_get (UQ_KEYS tx) q.
Proof.
  induction ks as [|k ks IH]; intros tx tx'; cbn [for_each].
  - intros [= <-]. split; [by exists (UQ_KEYS tx); destruct tx|done].
  - intros ([] & tx1 & E1 & E2)%M_bind_ok. injection E1 as <-.
    apply IH in E2 as [[a ->] Hq]. split; [by exists a|]. intros q. rewrite Hq. simpl.
    rewrite t_get_remove. repeat case_decide; set_solver.
Qed.

Lemma remove_spec tx R t k tx' : registered tx R → remove t k tx = Ok ((), tx') →
  registered tx' (without R t k) ∧ uq_frame tx tx'.
Proof.
  intros G E. unfold remove in E. m_inv.
  set (tx1 := set_UQ_REVERSE (t_remove (UQ_REVERSE tx) (rowkey t k)) tx) in *.
  assert (∃ ks, (∀ v ks', R t k v → row_keys tx t v ks' → ks' = ks) ∧
    (ks ≠ [] → ∃ v, R t k v ∧ row_keys tx t v ks) ∧ (∃ a, tx' = set_UQ_KEYS a tx1) ∧
    ∀ q, t_get (UQ_KEYS tx') q = if decide (q ∈ ks) then None else t_get (UQ_KEYS tx) q)
    as (ks & Hks & Hv & [a Ha] & Hq).
  { destruct (t_get (UQ_REVERSE tx) (rowkey t k)) as [old|] eqn:Eo; m_inv.
    - destruct (g_rev _ _ G _ _ Eo) as (t0 & k0 & v & ks & [-> ->]%rowkey_inj & HR & Hr & -> & Hne).
      match goal with Hs : from_slice _ = Ok _ |- _ => rewrite from_slice_ser in Hs; injection Hs as <- end.
      apply remove_keys in E as [Ha Hq]. exists ks. split_and!; [|by eauto|done|done].
      intros v' ks' HR' Hr'. rewrite (g_fun _ _ G _ _ _ _ HR' HR) in Hr'. by eapply row_keys_fun.
    - exists []. split_and!; [|done|by exists (UQ_KEYS tx); destruct tx|done].
      intros v ks' HR Hr. destruct ks' as [|q ks']; [done|].
      rewrite (g_rev' _ _ G _ _ _ _ HR Hr) in Eo by done. done. }
  assert (Hf : uq_frame tx tx').
  { rewrite Ha. apply (uq_frame_set tx a (t_remove (UQ_REVERSE tx) (rowkey t k))). }
  assert (Hrev : UQ_REVERSE tx' = t_remove (UQ_REVERSE tx) (rowkey t k)) by by rewrite Ha.
  split; [|done]. constructor; intros.
  - destruct H1 as [H1 _], H2 as [H2 _]. by eapply (g_fun _ _ G).
  - destruct H1 as [H1 _]. destruct (g_keys _ _ G _ _ _ H1) as [ks1 ?]. exists ks1. by rewrite uq_frame_keys.
  - rewrite Hrev, t_get_remove in H1. case_decide as Hd; [done|].
    destruct (g_rev _ _ G _ _ H1) as (t0 & k0 & v & ks1 & -> & ? & ? & ? & ?).
    exists t0, k0, v, ks1. rewrite uq_frame_keys by done. split_and!; try done.
    split; [done|]. congruence.
  - destruct H1 as [HR Hne]. rewrite uq_frame_keys in H2 by done.
    rewrite Hrev, t_get_remove_ne; [by eapply (g_rev' _ _ G)|].
    intros [-> ->]%rowkey_inj. done.
  - rewrite Hq in H1. case_decide as Hin; [done|].
    destruct (g_key _ _ G _ _ H1) as (t0 & v & ks1 & HR & Hr & Hin').
    exists t0, v, ks1. rewrite uq_frame_keys by done. split_and!; try done. split; [done|].
    intros [= -> ->]. rewrite (Hks _ _ HR Hr) in Hin'. done.
  - destruct H1 as [HR Hne]. rewrite uq_frame_keys in H2 by done. rewrite Hq.
    pose proof (g_key' _ _ G _ _ _ _ _ HR H2 H3) as Hk.
    case_decide as Hin; [|done]. exfalso.
    destruct Hv as (v1 & HR1 & Hr1); [by intros ->; apply elem_of_nil in Hin|].
    pose proof (g_key' _ _ G _ _ _ _ _ HR1 Hr1 Hin) as Hk1. rewrite Hk in Hk1. injection Hk1 as ->.
    apply Hne. f_equal. by eapply row_keys_table.
Qed.

(** ** Frames that need no invariant *)

Lemma uq_frame_keys_set tx a : uq_frame tx (set_UQ_KEYS a tx).
Proof. replace (set_UQ_KEYS a tx) with (set_UQ_KEYS a (set_UQ_REVERSE (UQ_REVERSE tx) tx)) by by destruct tx.
  apply uq_frame_set. Qed.
Lemma uq_frame_rev_set tx b : uq_frame tx (set_UQ_REVERSE b tx).
Proof. replace (set_UQ_REVERSE b tx) with (set_UQ_KEYS (UQ_KEYS tx) (set_UQ_REVERSE b tx)) by by destruct tx.
  apply uq_frame_set. Qed.

Lemma for_each_frame {A} (l : list A) (body : A → M ()) tx tx' :
  (∀ a tx tx', a ∈ l → body a tx = Ok ((), tx') → uq_frame tx tx') →
  for_each l body tx = Ok ((), tx') → uq_frame tx tx'.
Proof.
  intros Hb. apply for_each_inv; [|done]. intros a x y Ha Hx E. etrans; [exact Hx|]. by eapply Hb.
Qed.

Lemma remove_frame t k tx tx' : remove t k tx = Ok ((), tx') → uq_frame tx tx'.
Proof.
  intros E. unfold remove in E. m_inv. etrans; [apply uq_frame_rev_set|].
  destruct (t_get (UQ_REVERSE tx) (rowkey t k)); m_inv; [|done].
  eapply for_each_frame; [|exact E]. intros a ta tb _ Ex; cbn beta in Ex. m_inv. apply uq_frame_keys_set.
Qed.

Lemma insert_frame t k v ds tx tx' : insert t k v ds tx = Ok ((), tx') → uq_frame tx tx'.
Proof.
  intros E. unfold insert in E. m_inv. etrans.
  - eapply for_each_frame; [|eassumption]. intros a ta tb _ Ex; cbn beta in Ex. m_inv.
    match type of Ex with (if ?b then _ else _) _ = _ => destruct b; m_inv end. apply uq_frame_keys_set.
  - case_bool_decide; m_inv; [done|]. apply uq_frame_rev_set.
Qed.

Lemma clear_frame t tx tx' : clear t tx = Ok ((), tx') → uq_frame tx tx'.
Proof.
  intros E. unfold clear in E. m_inv. eapply for_each_frame; [|exact E].
  intros a ta tb _ Ex; cbn beta in Ex. case_decide; [by eapply remove_frame|by m_inv].
Qed.

Lemma reset_tables_frame rs : ∀ ch tx ch' tx', reset_tables ch rs tx = Ok (ch', tx') → uq_frame tx tx'.
Proof.
  induction rs as [|t rs IH]; intros ch tx ch' tx' E; cbn [reset_tables] in E; m_inv; [done|].
  match goal with Hc : clear _ _ = _ |- _ => apply clear_frame in Hc; etrans; [exact Hc|] end.
  match goal with Ho : open_table _ _ = _ |- _ => apply uq_frame_open in Ho as (_ & Hf & _); etrans; [exact Hf|] end.
  by eapply IH.
Qed.

Lemma reinsert_frame p tx tx' : reinsert p tx = Ok ((), tx') → uq_frame tx tx'.
Proof.
  intros E. unfold reinsert in E. m_inv.
  match goal with Ho : open_table _ _ = _ |- _ => apply uq_frame_open in Ho as (_ & Hf & _); etrans; [exact Hf|] end.
  case_match; [by eapply insert_frame|by m_inv].
Qed.

Lemma uq_validate_frame effects tx tx' : validate effects tx = Ok ((), tx') → uq_frame tx tx'.
Proof.
  intros E. unfold validate in E. m_inv. case_bool_decide; [by m_inv|].
  destruct (fold_left _ _ _) as [ch rs]. m_inv. etrans; [by eapply reset_tables_frame|].
  etrans; [eapply for_each_frame; [|eassumption]|eapply for_each_frame; [|exact E]].
  - intros a ta tb _ Ex; cbn beta in Ex. by eapply remove_frame.
  - intros a ta tb _ Ex; cbn beta in Ex. by eapply reinsert_frame.
Qed.

(** [registered] looks at the three tables of the constraints only. *)
Lemma registered_proper tx tx' R R' :
  UQ_DEFS tx' = UQ_DEFS tx → UQ_KEYS tx' = UQ_KEYS tx → UQ_REVERSE tx' = UQ_REVERSE tx →
  (∀ t k v, R t k v ↔ R' t k v) → registered tx R → registered tx' R'.
Proof.
  intros Ed Ek Er HR G.
  assert (Hrk : ∀ t v ks, row_keys tx' t v ks ↔ row_keys tx t v ks) by (unfold row_keys; by rewrite Ed).
  constructor; intros *; rewrite ?Er, ?Ek; try setoid_rewrite <-HR; try setoid_rewrite Hrk; by apply G.
Qed.

Lemma registered_iff tx R R' :
  (∀ t k v, R t k v ↔ R' t k v) → registered tx R → registered tx R'.
Proof. by apply registered_proper. Qed.

(** Rows without keys may be forgotten. *)
Lemma registered_drop tx R R' :
  registered tx R → (∀ t k v, R' t k v → R t k v) →
  (∀ t k v, R t k v → R' t k v ∨ row_keys tx t v []) → registered tx R'.
Proof.
  intros G Hsub Hempty. constructor; intros *.
  - intros ?%Hsub ?%Hsub. by eapply (g_fun _ _ G).
  - intros ?%Hsub. by apply (g_keys _ _ G t k).
  - intros (t & k & v & ks & -> & HR & Hr & -> & Hne)%(g_rev _ _ G).
    destruct (Hempty _ _ _ HR) as [?|He]; [by exists t, k, v, ks|].
    by pose proof (row_keys_fun _ _ _ _ _ Hr He).
  - intros ?%Hsub. by apply (g_rev' _ _ G).
  - intros (t & v & ks & HR & Hr & Hin)%(g_key _ _ G).
    destruct (Hempty _ _ _ HR) as [?|He]; [by exists t, v, ks|].
    rewrite (row_keys_fun _ _ _ _ _ Hr He) in Hin. by apply elem_of_nil in Hin.
  - intros ?%Hsub. by apply (g_key' _ _ G).
Qed.

(** The loop of [insert] over the keys of a row. *)
Lemma insert_keys row ks : ∀ tx tx',
  for_each ks (λ key,
    owner ← gets (λ tx, t_get (UQ_KEYS tx) key);
    if match owner with Some v => negb (bool_decide (v = row)) | None => false end
    then fail UniqueViolation
    else modify (λ tx, set_UQ_KEYS (t_insert (UQ_KEYS tx) key row) tx)) tx = Ok ((), tx') →
  (∃ a, tx' = set_UQ_KEYS a tx) ∧
  (∀ q, t_get (UQ_KEYS tx') q = if decide (q ∈ ks) then Some row else t_get (UQ_KEYS tx) q) ∧
  (∀ q o, q ∈ ks → t_get (UQ_KEYS tx) q = Some o → o = row).
Proof.
  induction ks as [|k ks IH]; intros tx tx'; cbn [for_each].
  - intros [= <-]. split_and!; [by exists (UQ_KEYS tx); destruct tx|done|].
    intros q o Hin. by apply elem_of_nil in Hin.
  - intros E. m_inv.
    assert (Ho : ∀ o, t_get (UQ_KEYS tx) k = Some o → o = row).
    { intros o Ho. rewrite Ho in *. destruct (bool_decide_reflect (o = row)); [done|].
      simpl in *. m_inv. }
    match goal with Hi : (if ?b then _ else _) _ = _ |- _ => destruct b; m_inv end.
    apply IH in E as ([a ->] & Hq & Hown). split_and!; [by exists a| |].
    + intros q. rewrite Hq. simpl. rewrite t_get_insert. repeat case_decide; set_solver.
    + intros q o Hin Hqo. destruct (decide (q = k)) as [->|Hne]; [by apply Ho|].
      apply elem_of_cons in Hin as [->|Hin]; [done|]. apply (Hown q); [done|]. simpl.
      by rewrite t_get_insert_ne.
Qed.

Lemma insert_spec tx R t k v p ds tx' :
  registered tx R → (∀ v', R t k v' → v' = v) →
  t_get (UQ_DEFS tx) t = Some p → de p = Some ds → insert t k v ds tx = Ok ((), tx') →
  registered tx' (with_row R t k v) ∧ uq_frame tx tx'.
Proof.
  intros G Hown Hp Hds E. unfold insert in E. m_inv.
  match goal with Hk : keys _ _ _ = Ok ?x |- _ => rename x into ks; rename Hk into Eks end.
  match goal with Hl : for_each _ _ tx = Ok (_, ?x) |- _ =>
    apply insert_keys in Hl as ([a ->] & Hq & Howner) end.
  assert (Hrk : row_keys tx t v ks) by (exists p, ds; done).
  assert (Htx : ∃ b, tx' = set_UQ_KEYS a (set_UQ_REVERSE b tx) ∧
    ∀ rk, t_get b rk = if decide (ks ≠ [] ∧ rk = rowkey t k) then Some (ser ks) else t_get (UQ_REVERSE tx) rk).
  { case_bool_decide as He; m_inv.
    - exists (UQ_REVERSE tx). split; [by destruct tx|]. intros rk. rewrite decide_False; [done|]. tauto.
    - exists (t_insert (UQ_REVERSE tx) (rowkey t k) (ser ks)).
      split; [by destruct tx|]. intros rk. rewrite t_get_insert.
      repeat case_decide; naive_solver. }
  clear E. destruct Htx as (b & -> & Hrev). simpl in Hq.
  split; [|apply uq_frame_set].
  assert (Hold : ∀ q k', q ∈ ks → t_get (UQ_KEYS tx) q = Some k' → k' = k ∧ R t k v).
  { intros q k' Hin Hk'. pose proof (Howner q k' Hin Hk') as ->. split; [done|].
    destruct (g_key _ _ G _ _ Hk') as (t0 & v0 & ks0 & HR & Hr & Hin0).
    assert (t0 = t) as -> by by eapply row_keys_table. by rewrite <-(Hown v0). }
  constructor; intros *; change (row_keys (set_UQ_KEYS ?x (set_UQ_REVERSE ?y tx))) with (row_keys tx); simpl.
  - intros [HR|(-> & -> & ->)] [HR'|(E1 & E2 & E3)]; subst; try done.
    + by eapply (g_fun _ _ G).
    + by apply Hown.
    + symmetry. by apply Hown.
  - intros [HR|(-> & -> & ->)]; [by eapply (g_keys _ _ G)|by exists ks].
  - rewrite Hrev. case_decide as Hd.
    + intros [= <-]. destruct Hd as [Hne ->]. exists t, k, v, ks. split_and!; try done. by right.
    + intros (t1 & k1 & v1 & ks1 & ? & ? & ? & ? & ?)%(g_rev _ _ G).
      exists t1, k1, v1, ks1. split_and!; try done. by left.
  - rewrite Hrev. intros HR Hr Hne. destruct (decide (ks ≠ [] ∧ rowkey t0 k0 = rowkey t k)) as [[? Heq]|Hd].
    + apply rowkey_inj in Heq as [-> ->]. f_equal. f_equal.
      assert (v0 = v) as -> by (destruct HR as [HR|(_ & _ & ->)]; [by apply Hown|done]).
      by eapply row_keys_fun.
    + destruct HR as [HR|(-> & -> & ->)]; [by eapply (g_rev' _ _ G)|].
      rewrite (row_keys_fun _ _ _ _ _ Hr Hrk) in Hne. tauto.
  - rewrite Hq. case_decide as Hin.
    + intros [= <-]. exists t, v, ks. split_and!; try done. by right.
    + intros (t1 & v1 & ks1 & ? & ? & ?)%(g_key _ _ G). exists t1, v1, ks1. split_and!; try done. by left.
  - rewrite Hq. intros HR Hr Hin. destruct HR as [HR|(-> & -> & ->)].
    + pose proof (g_key' _ _ G _ _ _ _ _ HR Hr Hin) as Hk. case_decide as Hks; [|done].
      by destruct (Hold _ _ Hks Hk) as [-> _].
    + rewrite (row_keys_fun _ _ _ _ _ Hr Hrk) in Hin. by rewrite decide_True.
Qed.

Definition removal (o : option (str * str)) : M () :=
  match o with Some p => remove p.1 p.2 | None => mret () end.

(** A loop that removes the selected rows of a list. *)
Lemma remove_loop {A} (sel : A → option (str * str)) l : ∀ tx R tx', registered tx R →
  for_each l (λ a, removal (sel a)) tx = Ok ((), tx') →
  registered tx' (λ t k v, R t k v ∧ Some (t, k) ∉ sel <$> l) ∧ uq_frame tx tx'.
Proof.
  induction l as [|a l IH]; intros tx R tx' G; cbn [for_each].
  - intros [= <-]. split; [|done]. eapply registered_iff; [|exact G].
    intros t k v. split; [|by intros []]. intros HR. split; [done|]. apply not_elem_of_nil.
  - intros ([] & tx1 & E1 & E2)%M_bind_ok.
    assert (registered tx1 (λ t k v, R t k v ∧ Some (t, k) ≠ sel a) ∧ uq_frame tx tx1) as [G1 F1].
    { unfold removal in E1. destruct (sel a) as [[t0 k0]|]; m_inv.
      - apply (remove_spec _ R) in E1 as [G1 F1]; [|done]. split; [|done].
        eapply registered_iff; [|exact G1]. unfold without. naive_solver.
      - split; [|done]. eapply registered_iff; [|exact G]. naive_solver. }
    apply (IH _ _ _ G1) in E2 as [G2 F2]. split; [|by etrans].
    eapply registered_iff; [|exact G2]. intros t k v. simpl. rewrite elem_of_cons. naive_solver.
Qed.

Lemma for_each_ext {A} (l : list A) f g tx : (∀ a tx, f a tx = g a tx) → for_each l f tx = for_each l g tx.
Proof.
  intros Hfg. revert tx. induction l as [|a l IH]; intros tx; [done|]. cbn [for_each].
  unfold mbind, M_bind. rewrite Hfg. destruct (g a tx) as [[]|]; [|done]. apply IH.
Qed.

Lemma clear_spec tx R t tx' : registered tx R → clear t tx = Ok ((), tx') →
  registered tx' (λ t' k v, R t' k v ∧ t' ≠ t) ∧ uq_frame tx tx'.
Proof.
  intros G E. unfold clear in E. m_inv.
  match goal with Ht : traverse _ _ = Ok ?x |- _ =>
    rename x into l; apply traverse_ok_Forall2 in Ht; rename Ht into Hl end.
  rewrite (for_each_ext _ _ (λ p : str * str, removal (if decide (p.1 = t) then Some (t, p.2) else None)))
    in E by (intros p ?; by case_decide).
  apply (remove_loop (λ p : str * str, if decide (p.1 = t) then Some (t, p.2) else None)) with (R := R)
    in E as [G1 F1]; [|done].
  split; [|done]. eapply registered_drop; [exact G1|..]; simpl.
  - intros t' k v [HR Hne]. split; [done|]. intros ((t0 & k0) & Heq & _)%list_elem_of_fmap.
    simpl in Heq. case_decide; simplify_eq.
  - intros t' k v [HR Hnot]. destruct (decide (t' = t)) as [->|]; [|by left]. right.
    rewrite uq_frame_keys by done. destruct (g_keys _ _ G _ _ _ HR) as [[|q ks] Hr]; [done|]. exfalso.
    apply Hnot. pose proof (g_rev' _ _ G _ _ _ _ HR Hr ltac:(done)) as Hrev%t_get_iter.
    apply list_elem_of_fmap. exists (t, k). split; [by rewrite decide_True|].
    apply list_elem_of_lookup in Hrev as [i Hi].
    destruct (Forall2_lookup_l _ _ _ _ _ Hl Hi) as (p & Hp & Ep). simpl in Ep. unfold rowkey in Ep.
    rewrite from_slice_ser in Ep. injection Ep as <-. by eapply list_elem_of_lookup_2.
Qed.

Lemma fold_bset (t : str) (l : list (str * bytes)) changed (p : str * str) :
  p ∈ fold_left (λ c p, bset_insert (t, p.1) c) l changed ↔ p ∈ changed ∨ (p.1 = t ∧ p.2 ∈ l.*1).
Proof.
  revert changed. induction l as [|[k v] l IH]; intros changed; simpl.
  - split; [by left|]. intros [?|[_ Hn]]; [done|by apply elem_of_nil in Hn].
  - rewrite IH, elem_of_bset_insert, elem_of_cons. destruct p; naive_solver.
Qed.

Lemma reset_tables_spec resets : ∀ changed tx R changed' tx', registered tx R →
  reset_tables changed resets tx = Ok (changed', tx') →
  registered tx' (λ t k v, R t k v ∧ t ∉ resets) ∧ uq_frame tx tx' ∧
  ∀ t k, (t, k) ∈ changed' ↔ (t, k) ∈ changed ∨ (t ∈ resets ∧ is_Some (t_get (rows tx t) k)).
Proof.
  induction resets as [|t0 rs IH]; intros changed tx R changed' tx' G E; cbn [reset_tables] in E; m_inv.
  - split_and!; [|done|].
    + eapply registered_iff; [|exact G]. intros. set_solver.
    + intros t k. set_solver.
  - match goal with Hc : clear _ _ = _ |- _ => apply (clear_spec _ R) in Hc as [G1 F1]; [|done] end.
    match goal with Ho : open_table _ _ = _ |- _ => apply uq_frame_open in Ho as (-> & F2 & Ek & Er) end.
    pose proof (uq_frame_defs _ _ F2) as Ed.
    eapply registered_proper in G1; [|exact Ed|exact Ek|exact Er|intros; apply iff_refl].
    apply (IH _ _ _ _ _ G1) in E as (G3 & F3 & Hin). split_and!; [| |].
    + eapply registered_iff; [|exact G3]. intros. set_solver.
    + etrans; [exact F1|]. by etrans.
    + intros t k. rewrite Hin, fold_bset. simpl.
      rewrite !(uq_frame_rows _ _ _ F2), !(uq_frame_rows _ _ _ F1), elem_of_cons.
      assert (k ∈ (t_iter (rows tx t0)).*1 ↔ is_Some (t_get (rows tx t0) k)) as ->.
      { rewrite list_elem_of_fmap. split.
        - intros ([? v] & -> & Hv). exists v. by apply t_get_iter.
        - intros [v Hv%t_get_iter]. by exists (k, v). }
      naive_solver.
Qed.

Lemma reinsert_loop l : ∀ tx R tx',
  registered tx R → (∀ t k v, R t k v → t_get (rows tx t) k = Some v) →
  (∀ p, p ∈ l → is_Some (t_get (UQ_DEFS tx) p.1)) →
  for_each l reinsert tx = Ok ((), tx') →
  registered tx' (λ t k v, R t k v ∨ ((t, k) ∈ l ∧ t_get (rows tx t) k = Some v)) ∧ uq_frame tx tx'.
Proof.
  induction l as [|[t0 k0] l IH]; intros tx R tx' G Hsub Hdef; cbn [for_each].
  - intros [= <-]. split; [|done]. eapply registered_iff; [|exact G]. intros. set_solver.
  - intros ([] & tx1 & E1 & E2)%M_bind_ok.
    assert (registered tx1 (λ t k v, R t k v ∨ (t = t0 ∧ k = k0 ∧ t_get (rows tx t) k = Some v))
      ∧ uq_frame tx tx1) as [G1 F1].
    { unfold reinsert in E1. m_inv. simpl in *.
      match goal with Ho : open_table _ _ = _ |- _ => apply uq_frame_open in Ho as (-> & F2 & Ek & Er) end.
      pose proof (uq_frame_defs _ _ F2) as Ed.
      eapply registered_proper in G; [|exact Ed|exact Ek|exact Er|intros; apply iff_refl].
      destruct (Hdef (t0, k0)) as [p Hp]; [by left|]. simpl in Hp.
      match goal with Hs : from_slice _ = Ok _ |- _ => rewrite Hp in Hs; simpl in Hs;
        unfold from_slice in Hs; destruct (de p) as [ds|] eqn:Hds; simpl in Hs; [injection Hs as <-|done] end.
      destruct (t_get (rows tx t0) k0) as [v0|] eqn:Ev; m_inv.
      - eapply insert_spec in E1 as [G1 F1]; [|exact G| |by rewrite Ed|done].
        + split; [|by etrans]. eapply registered_iff; [|exact G1].
          intros t k v. unfold with_row. naive_solver.
        + intros v' HR%Hsub. congruence.
      - split; [|done]. eapply registered_iff; [|exact G]. naive_solver. }
    apply (IH tx1) with (R := λ (t k : str) (v : bytes), R t k v ∨ (t = t0 ∧ k = k0 ∧ t_get (rows tx t) k = Some v)) in E2
      as [G2 F2]; [|done|..].
    + split; [|by etrans]. eapply registered_iff; [|exact G2].
      intros t k v. simpl. rewrite (uq_frame_rows _ _ _ F1), elem_of_cons. naive_solver.
    + intros t k v. rewrite (uq_frame_rows _ _ _ F1). naive_solver.
    + intros p Hp. rewrite (uq_frame_defs _ _ F1). apply Hdef. by right.
Qed.

(** ** The invariant of the constraints *)

Definition all_rows (tx : Tx) : Rows :=
  λ t k v, is_Some (t_get (UQ_DEFS tx) t) ∧ t_get (rows tx t) k = Some v.
Definition uq_ok (tx : Tx) : Prop := registered tx (all_rows tx).

(** What a transaction body may do: its effects name every row of a constrained table
    that it changed. *)
Definition effects_cover (tx0 tx : Tx) (effects : list ChangeKind) : Prop :=
  UQ_DEFS tx = UQ_DEFS tx0 ∧ UQ_KEYS tx = UQ_KEYS tx0 ∧ UQ_REVERSE tx = UQ_REVERSE tx0 ∧
  ∀ t k, is_Some (t_get (UQ_DEFS tx0) t) →
         t_get (rows tx t) k = t_get (rows tx0 t) k ∨ (∃ v, Upsert t k v ∈ effects) ∨
         Delete t k ∈ effects ∨ ∃ s, TableReset t s ∈ effects.

Definition names_row (e : ChangeKind) (t k : str) : Prop :=
  match e with Upsert t' k' _ | Delete t' k' => t' = t ∧ k' = k | _ => False end.
Definition resets (e : ChangeKind) (t : str) : Prop :=
  match e with TableReset t' _ => t' = t | _ => False end.

Lemma collect_one defs acc e :
  (∀ t k, (t, k) ∈ (collect defs acc e).1 ↔
     (t, k) ∈ acc.1 ∨ (is_Some (t_get defs t) ∧ names_row e t k)) ∧
  (∀ t, t ∈ (collect defs acc e).2 ↔ t ∈ acc.2 ∨ (is_Some (t_get defs t) ∧ resets e t)).
Proof.
  destruct e as [t0 k0 v0|t0 k0|t0 s0| |]; simpl;
    try (destruct (t_get defs t0) eqn:Ed; simpl); split; intros;
    rewrite ?elem_of_bset_insert; split; intros Hx;
    repeat match goal with
    | Hx : _ ∨ _ |- _ => destruct Hx as [Hx|Hx]
    | Hx : _ ∧ _ |- _ => destruct Hx as [? ?]
    | Hx : is_Some _ |- _ => destruct Hx as [? ?]
    end; simplify_eq;
    first [done | by left | by right | by right; split; [eexists|] | by left; split; [eexists|] | by left; left].
Qed.

Lemma exists_cons {A} (B D : Prop) (P : A → Prop) e0 es :
  ((B ∨ (D ∧ P e0)) ∨ (D ∧ ∃ e, e ∈ es ∧ P e)) ↔ B ∨ (D ∧ ∃ e, e ∈ e0 :: es ∧ P e).
Proof. setoid_rewrite elem_of_cons. naive_solver. Qed.

Lemma collect_spec defs effects : ∀ acc,
  let r := fold_left (collect defs) effects acc in
  (∀ t k, (t, k) ∈ r.1 ↔ (t, k) ∈ acc.1 ∨ (is_Some (t_get defs t) ∧ ∃ e, e ∈ effects ∧ names_row e t k)) ∧
  (∀ t, t ∈ r.2 ↔ t ∈ acc.2 ∨ (is_Some (t_get defs t) ∧ ∃ e, e ∈ effects ∧ resets e t)).
Proof.
  induction effects as [|e es IH]; intros acc; simpl.
  - split; intros; split; [by left| |by left|]; intros [?|(_ & e & He & _)]; try done;
      by apply elem_of_nil in He.
  - destruct (IH (collect defs acc e)) as [H1' H2']. destruct (collect_one defs acc e) as [H3' H4'].
    split; [intros t k|intros t]; [rewrite H1', H3'|rewrite H2', H4'];
      [apply (exists_cons _ _ (λ e, names_row e t k))|apply (exists_cons _ _ (λ e, resets e t))].
Qed.

Lemma names_row_effects (effects : list ChangeKind) t k :
  (∃ e, e ∈ effects ∧ names_row e t k) ↔ (∃ v, Upsert t k v ∈ effects) ∨ Delete t k ∈ effects.
Proof.
  split.
  - intros (e & Hin & He). destruct e; simpl in He; try done; destruct He as [-> ->]; eauto.
  - intros [[v Hv]|Hd]; eexists; split; eauto; done.
Qed.

Lemma resets_effects (effects : list ChangeKind) t : (∃ e, e ∈ effects ∧ resets e t) ↔ ∃ s, TableReset t s ∈ effects.
Proof.
  split.
  - intros (e & Hin & He). destruct e; simpl in He; try done. subst. eauto.
  - intros [s Hs]. eexists. split; eauto. done.
Qed.

Lemma validate_spec tx0 tx effects tx' :
  uq_ok tx0 → effects_cover tx0 tx effects → validate effects tx = Ok ((), tx') →
  uq_ok tx' ∧ uq_frame tx tx'.
Proof.
  intros G (Ed & Ek & Er & Hcov) E.
  eapply registered_proper in G; [|exact Ed|exact Ek|exact Er|intros; apply iff_refl].
  unfold validate in E. m_inv. case_bool_decide as Hempty.
  { m_inv. split; [|done]. assert (Hno : ∀ t, t_get (UQ_DEFS tx) t = None).
    { intros t. apply t_get_None. intros v. rewrite Hempty. apply not_elem_of_nil. }
    eapply registered_iff; [|exact G]. intros t k v. unfold all_rows. rewrite <-Ed, Hno.
    split; intros [[? ?] _]; done. }
  destruct (fold_left (collect (UQ_DEFS tx)) effects ([], [])) as [changed rs] eqn:Ec.
  pose proof (collect_spec (UQ_DEFS tx) effects ([], [])) as [Hch Hrs]. rewrite Ec in Hch, Hrs.
  simpl in Hch, Hrs. m_inv.
  match goal with Hr : reset_tables _ _ _ = Ok (?x, ?y) |- _ =>
    apply (reset_tables_spec _ _ _ _ _ _ G) in Hr as (G1 & F1 & Hin); rename x into ch end.
  match goal with Hl : for_each _ (λ p, remove p.1 p.2) _ = _ |- _ =>
    apply (remove_loop (λ p : str * str, Some p)) with (1 := G1) in Hl as [G2 F2] end.
  pose proof (transitivity F1 F2) as F12. pose proof (uq_frame_defs _ _ F12) as Ed2.
  assert (Hdefs : ∀ p, p ∈ ch → is_Some (t_get (UQ_DEFS tx) p.1)).
  { intros [t k] [Hp|[Hp _]]%Hin; [apply Hch in Hp|apply Hrs in Hp];
      (destruct Hp as [Hp|[Hp _]]; [by apply elem_of_nil in Hp|done]). }
  assert (Hsame : ∀ t k, is_Some (t_get (UQ_DEFS tx) t) → t ∉ rs → (t, k) ∉ ch →
    t_get (rows tx t) k = t_get (rows tx0 t) k).
  { intros t k Hd Hr Hc. destruct (Hcov t k) as [->|[Hx|[Hx|Hx]]]; [by rewrite <-Ed|done|exfalso..].
    - apply Hc, Hin. left. apply Hch. right. split; [done|]. apply names_row_effects. by left.
    - apply Hc, Hin. left. apply Hch. right. split; [done|]. apply names_row_effects. by right.
    - apply Hr, Hrs. right. split; [done|]. by apply resets_effects. }
  assert (Hsome : ∀ t k, Some (t, k) ∈ Some <$> ch ↔ (t, k) ∈ ch).
  { intros t k. rewrite list_elem_of_fmap. naive_solver. }
  eapply reinsert_loop in E as [G3 F3]; [|exact G2|..].
  - split; [|by etrans]. eapply registered_iff; [|exact G3]. intros t k v. simpl.
    unfold all_rows. rewrite (uq_frame_defs _ _ F3), Ed2, (uq_frame_rows _ _ _ F3), !(uq_frame_rows _ _ _ F12).
    rewrite <-Ed, Hsome. split.
    + intros [[[[Hd Hv] Hr] Hc]|[Hc Hv]]; [by rewrite Hsame|]. split; [by apply (Hdefs (t, k))|done].
    + intros [Hd Hv]. destruct (decide ((t, k) ∈ ch)) as [Hc|Hc]; [by right|]. left.
      assert (t ∉ rs) as Hr by (intros Hr; apply Hc, Hin; right; by split).
      split; [|done]. split; [|done]. by rewrite <-Hsame.
  - intros t k v. simpl. rewrite !(uq_frame_rows _ _ _ F12). unfold all_rows. rewrite <-Ed, Hsome.
    intros [[[Hd Hv] Hr] Hc]. by rewrite Hsame.
  - intros p Hp. rewrite Ed2. by apply Hdefs.
Qed.

(** No two rows of a constrained table share a key. *)
Definition unique_rows (tx : Tx) : Prop :=
  ∀ t k k' v v' ks ks' q,
    t_get (rows tx t) k = Some v → t_get (rows tx t) k' = Some v' →
    row_keys tx t v ks → row_keys tx t v' ks' → q ∈ ks → q ∈ ks' → k = k'.

Lemma uq_ok_unique tx : uq_ok tx → unique_rows tx.
Proof.
  intros G t k k' v v' ks ks' q Hv Hv' Hr Hr' Hq Hq'.
  assert (is_Some (t_get (UQ_DEFS tx) t)) as Hd by (destruct Hr as (p & ? & ? & _); by exists p).
  pose proof (g_key' _ _ G t k v ks q ltac:(by split) Hr Hq).
  pose proof (g_key' _ _ G t k' v' ks' q ltac:(by split) Hr' Hq'). congruence.
Qed.
End spec.

(** ** Properties *)

(** C16: when the unique constraints held before a transaction and its effects name
    every constrained row it changed, a transaction that passes validation leaves the key tables
    exact, and no two rows of a constrained table share a key. *)
Theorem unique_preserved `{Redb, TextLib} {SPair : Serde (str * str)} {SIdx : Serde (str * N)}
    {SKeys : Serde (list bytes)} {SDefs : Serde (list Unique)} {PIdx : @PrefixFree _ SIdx}
    tx0 tx effects tx' :
  uq_ok tx0 → effects_cover tx0 tx effects → validate effects tx = Ok ((), tx') →
  uq_ok tx' ∧ unique_rows tx'.
Proof. intros G Hc E. destruct (validate_spec _ _ _ _ G Hc E). eauto using uq_ok_unique. Qed.

(** A database with constraints and no rows. *)
Lemma empty_uq_ok `{Redb, TextLib} {SPair : Serde (str * str)} {SIdx : Serde (str * N)}
    {SKeys : Serde (list bytes)} {SDefs : Serde (list Unique)} d :
  uq_ok (set_UQ_DEFS d tx_new).
Proof.
  unfold uq_ok, all_rows, rows. simpl. constructor; intros *; simpl; rewrite ?lookup_empty; simpl;
    rewrite ?t_get_new; try done; by intros [_ ?].
Qed.

#[global] Instance Unique_countable : Countable Unique.
Proof. refine (inj_countable' u_paths Build_Unique _). by intros []. Defined.

Lemma unique_preserved_witness :
  let T := one_text (JObject [(lit "email", JString (Some (lit "a")))]) in
  let SPair : Serde (str * str) := countable_serde in
  let SIdx : Serde (str * N) := closed_serde in
  let SKeys : Serde (list bytes) := countable_serde in
  let SDefs : Serde (list Unique) := countable_serde in
  let d := [unique_on {| p_steps := [Key (lit "email")]; p_kind := Auto; p_transforms := [] |}] in
  let tx0 := set_UQ_DEFS (t_insert t_new (lit "t") (ser d)) tx_new in
  let tx := set_user (<[lit "t" := t_insert t_new (lit "k") (lit "v")]> ∅) tx0 in
  ∃ tx', validate [Upsert (lit "t") (lit "k") (lit "v")] tx = Ok ((), tx') ∧
    uq_ok tx' ∧ unique_rows tx'.
Proof.
  intros T SPair SIdx SKeys SDefs d tx0 tx. eexists. split; [vm_compute; reflexivity|].
  refine (unique_preserved (PIdx := closed_serde_prefix) tx0 tx [Upsert (lit "t") (lit "k") (lit "v")] _ _ _ _).
  - apply empty_uq_ok.
  - split_and!; [reflexivity..|]. intros t k _. unfold rows.
    change (user tx) with (<[lit "t" := t_insert t_new (lit "k") (lit "v")]> (∅ : gmap str (table str bytes))).
    destruct (decide (lit "t" = t)) as [<-|Ht].
    + rewrite lookup_insert_eq. destruct (decide (lit "k" = k)) as [<-|Hk].
      * right. left. exists (lit "v"). apply list_elem_of_here.
      * left. cbn [from_option id]. by rewrite t_get_insert_ne.
    + left. by rewrite lookup_insert_ne.
  - vm_compute. reflexivity.
Defined.
