(* ===== verification/JournalBlob.v ===== *)
(** * References to attachment files ([journal_blob.rs])

    [__blob_refs] maps a row to the immutable file that holds its attachment. *)
From S2P Require Import Prelude Order Redb Tx JournalCodec.

Record BlobRef := { b_id : str; b_size : N }.

(** [name.rsplitn(5, '.')]: pieces from the right, the fifth keeps the rest. *)
Fixpoint split_dots (s : str) (cur : str) : list str :=
  match s with
  | [] => [cur]
  | b :: s' => if decide (b = Byte.x2e) then cur :: split_dots s' [] else split_dots s' (cur ++ [b])
  end.
Definition join_dots (l : list str) : str :=
  match l with
  | [] => []
  | p :: l' => p ++ (l' ≫= λ q, Byte.x2e :: q)
  end.
Definition rsplitn (n : nat) (s : str) : list str :=
  let parts := split_dots s [] in
  let k := (length parts - (n - 1))%nat in
  rev (drop k parts) ++ (if (k =? 0)%nat then [] else [join_dots (take k parts)]).

Definition all_ascii_digits (p : str) : bool := negb (bool_decide (p = [])) && forallb is_dec_digit p.

Definition is_temporary_name (name : str) : bool :=
  let parts := rsplitn 5 name in
  forallb (λ i, match parts !! i with Some p => all_ascii_digits p | None => false end) [0; 1; 2]%nat
  && bool_decide (parts !! 3%nat = Some (lit "tmp")).

Section refs.
Context `{Redb} {SPair : Serde (str * str)} {SRef : Serde BlobRef}.

Definition key (table id : str) : str := ser (table, id).

Definition get (table id : str) : M (option BlobRef) :=
  v ← gets (λ tx, t_get (REFS tx) (key table id));
  match v with
  | None => mret None
  | Some v => r ← lift (from_slice v); mret (Some r)
  end.

(** [put(tx, table, id, reference, changes)]: the change it pushes is returned. *)
Definition put (table id : str) (reference : BlobRef) : M ChangeKind :=
  modify (λ tx, set_REFS (t_insert (REFS tx) (key table id) (ser reference)) tx) ;;
  mret (BlobPut table id (b_id reference) (b_size reference)).

(** [remove(tx, table, id, changes)]: the change it pushes, if there was a reference. *)
Definition remove (table id : str) : M (option ChangeKind) :=
  old ← gets (λ tx, t_get (REFS tx) (key table id));
  modify (λ tx, set_REFS (t_remove (REFS tx) (key table id)) tx) ;;
  match old with
  | None => mret None
  | Some v => r ← lift (from_slice v); mret (Some (BlobDelete table id (b_id r) (b_size r)))
  end.
End refs.
