(* ===== verification/Journal.v ===== *)
(** * The change log ([journal.rs])

    Every write transaction appends one row per effect to [__changes], numbered
    without gaps, keeps its byte count, prunes what every active consumer has
    acknowledged and enforces the size budget; then it commits all of it or nothing. *)
From S2P Require Import Prelude Order Redb Memory JournalCodec Fields OrderedCodec Eval Tx LastWrite IdContract Unique JournalBlob.

(** ** Data *)

Definition DEFAULT_JOURNAL_MAX_BYTES : N := 256 * 1024 * 1024.

Inductive Retention := Unlimited | RDefault | Limit (max_bytes : N).

Definition retention_max (r : Retention) : option N :=
  match r with
  | Unlimited => None
  | RDefault => Some DEFAULT_JOURNAL_MAX_BYTES
  | Limit max_bytes => Some max_bytes
  end.

Record ConsumerToken := { database_uuid : bytes; tk_name : str; tk_generation : N }.

Record Consumer := {
  generation : N;
  acked_seq : N;
  registered_at : Z;
  active : bool;
  internal : bool;
  needs_rebuild : bool;
}.

Record JournalStats := { s_head : N; s_floor : N; s_bytes : N; s_uuid : bytes }.

(** [events.rs]: what the journal reports. *)
Inductive LibraryEvent :=
| IndexRebuildRequired (name : str) (last_acked_seq : N)
| ConsumerExpiredEvent (name : str) (last_acked_seq : N).

(** [size_of::<Change>()] and [size_of::<(String, Vec<u8>)>()] on a 64-bit target; they only
    enter the sizes asked of the allocator. *)
Definition SIZE_CHANGE : N := 96.
Definition SIZE_ENTRY : N := 48.

(** [durability.rs]: [DEFAULT_MAX_COMMIT_BATCH_ENTRIES]. *)
Definition DEFAULT_MAX_COMMIT_BATCH_ENTRIES : nat := 512.

Definition ADOPTION_DUE : str := lit "blob_adopt_due".

Definition validate_table (name : str) : result () :=
  if starts_with name (lit "__") then Err (Validation (lit "table prefix __ is reserved")) else Ok ().

(** [l.iter().min()] with a default for the empty list. *)
Definition min_or (d : N) (l : list N) : N :=
  match l with [] => d | n :: l' => fold_left N.min l' n end.

(** [min_by_key(|c| c.generation)]: the first of the smallest. *)
Definition min_by_generation (l : list (str * Consumer)) : option (str * Consumer) :=
  match l with
  | [] => None
  | p :: l' => Some (fold_left (λ a b, if (generation b.2 <? generation a.2)%N then b else a) l' p)
  end.

Definition expired {A} : result A := Err ConsumerExpired.

Section journal.
Context `{Redb, Allocator, TextLib}
  {SPair : Serde (str * str)} {SIdx : Serde (str * N)} {SKeys : Serde (list bytes)}
  {SDefs : Serde (list Unique)} {SPath : Serde Path} {SRef : Serde BlobRef} {SCons : Serde Consumer}.

(** ** Metadata *)

Definition number_in (t : table str bytes) (key : str) : result N :=
  let? v := ok_or (t_get t key) (Validation (lit "missing journal metadata")) in
  if (length v =? 8)%nat then Ok (of_be v) else Err (Validation (lit "corrupt journal metadata")).

Definition read_number (tx : Tx) (key : str) : result N := number_in (SEQ tx) key.
Definition number (key : str) : M N := λ tx, rmap (λ n, (n, tx)) (number_in (SEQ tx) key).

Definition put_number (key : str) (value : N) : M () :=
  modify (λ tx, set_SEQ (t_insert (SEQ tx) key (be_bytes 8 value)) tx).

Definition uuid_in (tx : Tx) : result bytes :=
  ok_or (t_get (SEQ tx) (lit "db_uuid")) (Validation (lit "missing database uuid")).

Definition mark_adoption_due : M () :=
  modify (λ tx, match t_get (SEQ tx) (lit "head") with
                | None => set_SEQ (t_insert (SEQ tx) ADOPTION_DUE [byte_of_N 1]) tx
                | Some _ => tx
                end).

(** [initialize], with the fresh [Uuid] it draws. *)
Definition initialize (uuid : bytes) : M () :=
  modify (λ tx,
    match t_get (SEQ tx) (lit "head") with
    | None =>
        let t := fold_left (λ t p, t_insert t p.1 (be_bytes 8 p.2))
                   [(lit "head", 0); (lit "journal_bytes", 0); (lit "floor", 1);
                    (lit "reset_generation", 0); (lit "consumer_generation", 0)]%N (SEQ tx) in
        set_SEQ (t_insert t (lit "db_uuid") uuid) tx
    | Some _ => tx
    end).

(** ** Appending *)

(** [rows.insert(seq, row)]. *)
Definition put_insert (t : table N bytes) (seq : N) (row : bytes) : result (table N bytes) :=
  Ok (t_insert t seq row).

(** [cursor.insert_before(seq, row)] with the cursor at the end: redb refuses a key that is
    not above the last one. *)
Definition put_cursor (t : table N bytes) (seq : N) (row : bytes) : result (table N bytes) :=
  match last (t_iter t) with
  | Some (k, _) => if (k <? seq)%N then Ok (t_insert t seq row) else Err (Database (lit "unordered key"))
  | None => Ok (t_insert t seq row)
  end.

Definition append_effects (put : table N bytes → N → bytes → result (table N bytes))
    (effects : list ChangeKind) (st : N * N * table N bytes) : result (N * N * table N bytes) :=
  try_fold (λ '(head, size, t) effect,
    let? head := ok_or (checked_add head 1) (Validation (lit "journal sequence exhausted")) in
    let? row := JournalCodec.encode effect in
    let? size := ok_or (checked_add size (8 + len row)) (Validation (lit "journal size overflow")) in
    let? t := put t head row in
    Ok (head, size, t)) st effects.

(** ** Pruning *)

(** One row of [prune]: what the row says to delete, and its size. *)
Definition row_snapshot (row : bytes) : result (option str) :=
  if negb (bool_decide (head row = Some (byte_of_N 1)))
  then Err (Validation (lit "unsupported journal row"))
  else if bool_decide (row !! 1%nat = Some (byte_of_N 2)) then
    let? c := JournalCodec.decode row in
    Ok (match c with TableReset _ snapshot => Some snapshot | _ => None end)
  else Ok None.

Fixpoint prune_loop (fuel : nat) (through size : N) : M N :=
  first ← gets (λ tx, t_first (CHANGES tx));
  match first with
  | Some (key, row) =>
      if (key <=? through)%N then
        match fuel with
        | O => fail FuelExhausted
        | S fuel' =>
            modify (λ tx, set_CHANGES (t_remove (CHANGES tx) key) tx) ;;
            snapshot ← lift (row_snapshot row);
            match snapshot with
            | Some s => delete_table s ;; delete_table (s ++ lit "_blobs")
            | None => mret ()
            end ;;
            size ← lift (ok_or (checked_sub size (8 + len row))
                           (Validation (lit "invalid journal byte accounting")));
            prune_loop fuel' through size
        end
      else mret size
  | None => mret size
  end.

(** The floor is the first row, or the next sequence. *)
Definition put_floor : M () :=
  head ← number (lit "head");
  first ← gets (λ tx, t_first (CHANGES tx));
  put_number (lit "floor") (match first with Some (k, _) => k | None => saturating_add head 1 end).

Definition prune (through : N) : M () :=
  size ← number (lit "journal_bytes");
  fuel ← gets (λ tx, length (t_iter (CHANGES tx)));
  size ← prune_loop fuel through size;
  put_number (lit "journal_bytes") size ;;
  put_floor.

Definition consumers : M (list (str * Consumer)) :=
  l ← gets (λ tx, traverse (λ p, let? c := from_slice (A := Consumer) p.2 in Ok (p.1, c))
                    (t_iter (CONSUMERS tx)));
  lift l.

(** The lowest acknowledgement of an active consumer. *)
Definition min_acked (head : N) (l : list (str * Consumer)) : N :=
  min_or head ((λ p, acked_seq p.2) <$> filter (λ p, active p.2 = true) l).

Definition prune_acked : M () :=
  all ← consumers;
  head ← number (lit "head");
  prune (min_acked head all).

(** ** The size budget *)

Definition put_consumer (name : str) (c : Consumer) : M () :=
  modify (λ tx, set_CONSUMERS (t_insert (CONSUMERS tx) name (ser c)) tx).

(** What the budget does to the slowest consumer: an index is told to rebuild, anyone
    else expires. *)
Definition rebuild (head : N) (c : Consumer) : Consumer :=
  {| generation := generation c; acked_seq := head; registered_at := registered_at c;
     active := active c; internal := internal c; needs_rebuild := true |}.
Definition expire (c : Consumer) : Consumer :=
  {| generation := generation c; acked_seq := acked_seq c; registered_at := registered_at c;
     active := false; internal := internal c; needs_rebuild := needs_rebuild c |}.

Fixpoint enforce_loop (fuel : nat) (max : N) (events : list LibraryEvent) : M (list LibraryEvent) :=
  size ← number (lit "journal_bytes");
  if (size <=? max)%N then mret events else
  match fuel with
  | O => fail FuelExhausted
  | S fuel' =>
      prune_acked ;;
      size ← number (lit "journal_bytes");
      if (size <=? max)%N then mret events else
      all ← consumers;
      head ← number (lit "head");
      let min := min_acked head all in
      match min_by_generation (filter (λ p, active p.2 = true ∧ acked_seq p.2 = min) all) with
      | None => fail (Validation (lit "journal cannot be pruned"))
      | Some (name, oldest) =>
          if internal oldest then
            put_consumer name (rebuild head oldest) ;;
            enforce_loop fuel' max (events ++ [IndexRebuildRequired name (acked_seq oldest)])
          else
            put_consumer name (expire oldest) ;;
            enforce_loop fuel' max (events ++ [ConsumerExpiredEvent name (acked_seq oldest)])
      end
  end.

Definition enforce (retention : Retention) : M (list LibraryEvent) :=
  match retention_max retention with
  | None => mret []
  | Some max =>
      n ← gets (λ tx, length (t_iter (CONSUMERS tx)));
      enforce_loop (S n) max []
  end.

(** ** The write transaction *)

Definition stamp (head : N) (effects : list ChangeKind) : M () :=
  for_each (imap (λ i e, (N.of_nat i, e)) effects) (λ p,
    seq ← lift (ok_or (checked_add head (p.1 + 1)%N) (Validation (lit "sequence exhausted")));
    LastWrite.apply p.2 seq).

Definition append_all (effects : list ChangeKind) : M () :=
  head ← number (lit "head");
  size ← number (lit "journal_bytes");
  stamp head effects ;;
  rows ← gets CHANGES;
  '(head, size, rows) ← lift (append_effects
     (if (DEFAULT_MAX_COMMIT_BATCH_ENTRIES <=? length effects)%nat then put_cursor else put_insert)
     effects (head, size, rows));
  modify (set_CHANGES rows) ;;
  put_number (lit "floor") (match t_first rows with Some (k, _) => k | None => saturating_add head 1 end) ;;
  put_number (lit "head") head ;;
  put_number (lit "journal_bytes") size.

Definition write_body {A} (retention : Retention) (f : M (A * list ChangeKind)) :
    M (A * list LibraryEvent) :=
  '(output, effects) ← f;
  IdContract.validate effects ;;
  Unique.validate effects ;;
  append_all effects ;;
  prune_acked ;;
  events ← enforce retention;
  mret (output, events).

(** [write_with_sink]: the answer with the events it emits, and the database afterwards.
    [commit] is the answer of [tx.commit()]. *)
Definition write_with_sink {A} (retention : Retention) (commit : result ())
    (f : M (A * list ChangeKind)) (db : Tx) : result (A * list LibraryEvent) * Tx :=
  match write_body retention f db with
  | Err e => (Err e, db)
  | Ok (r, db') => match commit with Ok () => (Ok r, db') | Err e => (Err e, db) end
  end.

(** ** Consumers *)

Definition check_token (token : ConsumerToken) (uuid : bytes) (consumer : option Consumer) : result Consumer :=
  let? c := ok_or consumer ConsumerExpired in
  if negb (bool_decide (database_uuid token = uuid)) || negb (tk_generation token =? generation c)%N
     || negb (active c)
  then Err ConsumerExpired
  else if needs_rebuild c then Err ConsumerNeedsRebuild else Ok c.

(** [table.get(name)?.map(from_slice).transpose()?] of [__consumers]. *)
Definition consumer_in (tx : Tx) (name : str) : result (option Consumer) :=
  match t_get (CONSUMERS tx) name with
  | None => Ok None
  | Some v => rmap Some (from_slice v)
  end.

Definition managed : ClError := Validation (lit "internal consumer is managed by the library").
Definition is_internal (o : option Consumer) : bool :=
  match o with Some c => internal c | None => false end.

(** The transaction of [register_journal_consumer], at time [now]. *)
Definition register_tx (name : str) (int : bool) (now : Z) : M (ConsumerToken * list ChangeKind) :=
  (if int then mret ()
   else old ← gets (λ tx, consumer_in tx name);
        old ← lift old;
        if is_internal old then fail managed else mret ()) ;;
  g ← number (lit "consumer_generation");
  g ← lift (ok_or (checked_add g 1) (Validation (lit "consumer generation exhausted")));
  put_number (lit "consumer_generation") g ;;
  head ← number (lit "head");
  uuid ← gets uuid_in;
  uuid ← lift uuid;
  put_consumer name {| generation := g; acked_seq := head; registered_at := now; active := true;
                       internal := int; needs_rebuild := false |} ;;
  mret ({| database_uuid := uuid; tk_name := name; tk_generation := g |}, []).

Definition register_journal_consumer (retention : Retention) (commit : result ())
    (name : str) (int : bool) (now : Z) (db : Tx) : result ConsumerToken * Tx :=
  if bool_decide (name = []) then (Err (Validation (lit "empty consumer name")), db)
  else let '(r, db') := write_with_sink retention commit (register_tx name int now) db in (rmap fst r, db').

Definition ack_tx (token : ConsumerToken) (seq : N) : M (() * list ChangeKind) :=
  uuid ← gets uuid_in;
  uuid ← lift uuid;
  c ← gets (λ tx, consumer_in tx (tk_name token));
  c ← lift c;
  c ← lift (check_token token uuid c);
  head ← number (lit "head");
  if (seq <? acked_seq c)%N || (head <? seq)%N then fail (Validation (lit "invalid acknowledgement")) else
  put_consumer (tk_name token)
    {| generation := generation c; acked_seq := seq; registered_at := registered_at c;
       active := active c; internal := internal c; needs_rebuild := needs_rebuild c |} ;;
  prune_acked ;;
  mret ((), []).

Definition ack (retention : Retention) (commit : result ()) (token : ConsumerToken) (seq : N) (db : Tx) :
    result () * Tx :=
  let '(r, db') := write_with_sink retention commit (ack_tx token seq) db in (rmap fst r, db').

Definition unregister_tx (name : str) : M (() * list ChangeKind) :=
  old ← gets (λ tx, consumer_in tx name);
  old ← lift old;
  if is_internal old then fail managed else
  modify (λ tx, set_CONSUMERS (t_remove (CONSUMERS tx) name) tx) ;;
  prune_acked ;;
  mret ((), []).

Definition unregister_consumer (retention : Retention) (commit : result ()) (name : str) (db : Tx) :
    result () * Tx :=
  let '(r, db') := write_with_sink retention commit (unregister_tx name) db in (rmap fst r, db').

Definition indexer : str := lit "__indexer".

Definition disable_tx : M (() * list ChangeKind) :=
  old ← gets (λ tx, consumer_in tx indexer);
  old ← lift old;
  match old with
  | Some c => if internal c then put_consumer indexer (expire c) else mret ()
  | None => mret ()
  end ;;
  mret ((), []).

Definition disable_index_consumer (retention : Retention) (commit : result ()) (db : Tx) : result () * Tx :=
  let '(r, db') := write_with_sink retention commit disable_tx db in (rmap fst r, db').

Definition resume_index_consumer (retention : Retention) (commit : result ()) (now : Z) (db : Tx) :
    result (ConsumerToken * bool) * Tx :=
  match (let? _ := read_number db (lit "head") in
         let? uuid := uuid_in db in
         let? existing := consumer_in db indexer in
         Ok (uuid, existing)) with
  | Err e => (Err e, db)
  | Ok (uuid, existing) =>
      let fresh :=
        let '(r, db') := register_journal_consumer retention commit indexer true now db in
        (rmap (λ t, (t, true)) r, db') in
      match existing with
      | Some c =>
          if internal c && active c && negb (needs_rebuild c)
          then (Ok ({| database_uuid := uuid; tk_name := indexer; tk_generation := generation c |}, false), db)
          else fresh
      | None => fresh
      end
  end.

(** ** Reading *)

Definition journal_stats (tx : Tx) : result JournalStats :=
  let? uuid := uuid_in tx in
  let? h := read_number tx (lit "head") in
  let? f := read_number tx (lit "floor") in
  let? b := read_number tx (lit "journal_bytes") in
  Ok {| s_head := h; s_floor := f; s_bytes := b; s_uuid := uuid |}.

Definition journal_read (token : ConsumerToken) (tx : Tx) : result () :=
  let? uuid := uuid_in tx in
  let? c := consumer_in tx (tk_name token) in
  check? check_token token uuid c in Ok ().

Definition read_row (out : list Change) (p : N * bytes) : result (list Change) :=
  let? kind := JournalCodec.decode p.2 in
  push (lit "journal.read_rows") SIZE_CHANGE out {| ch_seq := p.1; ch_kind := kind |}.

Definition read_changes (token : ConsumerToken) (after : N) (limit : nat) (tx : Tx) : result (list Change) :=
  check? journal_read token tx in
  let? floor := read_number tx (lit "floor") in
  if (after <? floor - 1)%N then expired else
  let? head := read_number tx (lit "head") in
  if (head <? after)%N then Err (Validation (lit "sequence is ahead of journal")) else
  try_fold read_row [] (take limit (t_range_above (CHANGES tx) after)).

Definition no_table : ClError := Database (lit "table does not exist").

(** [tx.open_table(name)] of a read transaction. *)
Definition open_read (tx : Tx) (name : str) : result (table str bytes) := ok_or (user tx !! name) no_table.

Definition reset_at (token : ConsumerToken) (seq : N) (tx : Tx) : result str :=
  check? journal_read token tx in
  let? row := ok_or (t_get (CHANGES tx) seq) ConsumerExpired in
  let? c := JournalCodec.decode row in
  match c with
  | TableReset _ snapshot => Ok snapshot
  | _ => Err (Validation (lit "not a table reset"))
  end.

Definition read_reset (token : ConsumerToken) (seq : N) (tx : Tx) : result (list (str * bytes)) :=
  let? snapshot := reset_at token seq tx in
  let? t := open_read tx snapshot in
  Ok (t_iter t).

Definition read_reset_blobs (token : ConsumerToken) (seq : N) (tx : Tx) : result (list (str * str * N)) :=
  let? snapshot := reset_at token seq tx in
  let? t := open_read tx (snapshot ++ lit "_blobs") in
  traverse (λ p, let? k := from_slice (A := str * str) p.1 in
                 let? r := from_slice (A := BlobRef) p.2 in
                 Ok (k.2, b_id r, b_size r)) (t_iter t).

(** [ReadView]: a snapshot with its head and identity. *)
Record ReadView := { v_head : N; v_uuid : bytes; v_tx : Tx }.

Definition read_view_at_head (tx : Tx) : result ReadView :=
  let? h := read_number tx (lit "head") in
  let? uuid := uuid_in tx in
  Ok {| v_head := h; v_uuid := uuid; v_tx := tx |}.

Definition get_raw (view : ReadView) (table key : str) : result (option bytes) :=
  let? t := open_read (v_tx view) table in Ok (t_get t key).

Definition blob_reference (view : ReadView) (table key : str) : result (option (str * N)) :=
  match t_get (REFS (v_tx view)) (JournalBlob.key table key) with
  | None => Ok None
  | Some v => let? r := from_slice (A := BlobRef) v in Ok (Some (b_id r, b_size r))
  end.

Definition table_entries (view : ReadView) (table : str) : result (list (str * bytes)) :=
  let? t := open_read (v_tx view) table in
  let? out := vec_with_capacity (lit "journal.table_entries") (len (t_iter t)) SIZE_ENTRY in
  try_fold (λ out p,
    let? value := copy_bytes (lit "journal.table_entries") p.2 in
    push (lit "journal.table_entries") SIZE_ENTRY out (p.1, value)) out (t_iter t).
End journal.
