(* ===== verification/JournalSpec.v ===== *)
(** * The change log against its specification

    [Log] is what the log promises: the retained changes in order, starting at the
    floor, and the consumers.  [repr tx L] says the tables of a transaction hold
    exactly [L]; [log_inv L] says no consumer is ahead of the log or, while it is
    active, behind it.  Every operation is shown to move [repr] along, to keep
    [log_inv] and to touch nothing else ([jframe]). *)
From S2P Require Import Prelude Order Redb Memory JournalCodec Fields Eval Tx LastWrite IdContract Unique UniqueSpec JournalBlob Journal.
Local Open Scope N_scope.

(** ** The specification *)

Record Log := {
  l_floor : N;
  l_changes : list ChangeKind;
  l_consumers : gmap str Consumer;
  l_generation : N;
  l_uuid : bytes;
}.

(** The head is the sequence of the last change ever written. *)
Definition l_head (L : Log) : N := l_floor L + len (l_changes L) - 1.

Definition row_size (c : ChangeKind) : N := 8 + len (row_bytes c).
Fixpoint total_size (cs : list ChangeKind) : N :=
  match cs with [] => 0 | c :: cs' => row_size c + total_size cs' end.
Definition l_bytes (L : Log) : N := total_size (l_changes L).

Fixpoint rows_from (n : N) (cs : list ChangeKind) : list (N * bytes) :=
  match cs with [] => [] | c :: cs' => (n, row_bytes c) :: rows_from (n + 1) cs' end.

(** A change the library writes: well formed, of representable size, and a snapshot is a
    table of the library's own name space. *)
Definition change_ok (c : ChangeKind) : Prop :=
  change_wf c ∧ parts_fit c ∧
  match c with TableReset _ s => starts_with s (lit "__") = true | _ => True end.

Definition set_log (L : Log) floor changes : Log :=
  {| l_floor := floor; l_changes := changes; l_consumers := l_consumers L;
     l_generation := l_generation L; l_uuid := l_uuid L |}.
Definition set_consumers (L : Log) cs : Log :=
  {| l_floor := l_floor L; l_changes := l_changes L; l_consumers := cs;
     l_generation := l_generation L; l_uuid := l_uuid L |}.

(** Pruning through a sequence drops the changes up to it. *)
Definition l_prune (through : N) (L : Log) : Log :=
  let n := N.min (len (l_changes L)) (through + 1 - l_floor L) in
  set_log L (l_floor L + n) (drop (N.to_nat n) (l_changes L)).

Record log_inv (L : Log) : Prop := {
  i_acked : ∀ k c, l_consumers L !! k = Some c → acked_seq c <= l_head L;
  i_active : ∀ k c, l_consumers L !! k = Some c → active c = true → l_floor L <= acked_seq c + 1;
  i_generation : ∀ k c, l_consumers L !! k = Some c → generation c <= l_generation L;
  i_distinct : ∀ k k' c c', l_consumers L !! k = Some c → l_consumers L !! k' = Some c' →
    generation c = generation c' → k = k';
}.

(** ** Rows *)

Lemma rows_from_app n cs1 cs2 :
  rows_from n (cs1 ++ cs2) = rows_from n cs1 ++ rows_from (n + len cs1) cs2.
Proof.
  revert n. induction cs1 as [|c cs1 IH]; intros n; simpl.
  - by rewrite len_nil, N.add_0_r.
  - rewrite IH, len_cons. do 3 f_equal. lia.
Qed.

Lemma rows_from_drop n k cs :
  rows_from (n + N.of_nat k) (drop k cs) = drop k (rows_from n cs) ∨ (length cs < k)%nat.
Proof.
  revert n cs. induction k as [|k IH]; intros n cs.
  - left. simpl. by rewrite N.add_0_r, !drop_0.
  - destruct cs as [|c cs]; [right; simpl; lia|]. simpl.
    destruct (IH (n + 1) cs) as [E|?]; [left|right; lia]. rewrite <-E. f_equal. lia.
Qed.

Lemma rows_from_elem n cs k row :
  (k, row) ∈ rows_from n cs → n <= k < n + len cs ∧ ∃ c, cs !! N.to_nat (k - n) = Some c ∧ row = row_bytes c.
Proof.
  revert n. induction cs as [|c cs IH]; intros n; simpl; [by intros ?%elem_of_nil|].
  rewrite len_cons. intros [[= -> ->]|Hin]%elem_of_cons.
  - split; [lia|]. exists c. by rewrite N.sub_diag.
  - apply IH in Hin as (Hk & c' & Hc & ->). split; [lia|]. exists c'.
    replace (N.to_nat (k - n)) with (S (N.to_nat (k - (n + 1)))) by lia. done.
Qed.

Lemma total_size_app cs1 cs2 : total_size (cs1 ++ cs2) = total_size cs1 + total_size cs2.
Proof. induction cs1 as [|c cs IH]; simpl; lia. Qed.

Lemma total_size_drop n cs : total_size (drop n cs) <= total_size cs.
Proof. rewrite <-(take_drop n cs) at 2. rewrite total_size_app. lia. Qed.

Lemma len_drop {A} n (l : list A) : len (drop n l) = len l - N.of_nat n.
Proof. unfold len. rewrite length_drop. lia. Qed.

(** ** Representation *)

Section journal_spec.
Context `{Redb, Allocator, TextLib}
  {SPair : Serde (str * str)} {SIdx : Serde (str * N)} {SKeys : Serde (list bytes)}
  {SDefs : Serde (list Unique)} {SPath : Serde Path} {SRef : Serde BlobRef} {SCons : Serde Consumer}.

Definition has_number (tx : Tx) (key : str) (n : N) : Prop :=
  n < U64 ∧ t_get (SEQ tx) key = Some (be_bytes 8 n).

Record repr (tx : Tx) (L : Log) : Prop := {
  r_head : has_number tx (lit "head") (l_head L);
  r_bytes : has_number tx (lit "journal_bytes") (l_bytes L);
  r_floor : has_number tx (lit "floor") (l_floor L);
  r_generation : has_number tx (lit "consumer_generation") (l_generation L);
  r_uuid : t_get (SEQ tx) (lit "db_uuid") = Some (l_uuid L);
  r_rows : t_iter (CHANGES tx) = rows_from (l_floor L) (l_changes L);
  r_consumers : ∀ name, t_get (CONSUMERS tx) name = ser <$> l_consumers L !! name;
  r_low : 1 <= l_floor L;
  r_high : l_head L + 1 < U64;
  r_changes : Forall change_ok (l_changes L);
}.

(** What the log leaves alone: rows of tables outside the reserved name space, the
    constraints, the references, and its other settings. *)
Record jframe (tx tx' : Tx) : Prop := {
  f_lastwrite : LASTWRITE tx' = LASTWRITE tx;
  f_id : ID_DEFS tx' = ID_DEFS tx;
  f_defs : UQ_DEFS tx' = UQ_DEFS tx;
  f_keys : UQ_KEYS tx' = UQ_KEYS tx;
  f_reverse : UQ_REVERSE tx' = UQ_REVERSE tx;
  f_refs : REFS tx' = REFS tx;
  f_user : ∀ name, starts_with name (lit "__") = false → rows tx' name = rows tx name;
  f_reset : t_get (SEQ tx') (lit "reset_generation") = t_get (SEQ tx) (lit "reset_generation");
}.

#[global] Instance jframe_refl : Reflexive jframe.
Proof. by constructor. Qed.
#[global] Instance jframe_trans : Transitive jframe.
Proof.
  intros x y z [] []. constructor; try congruence.
  - intros n Hn. rewrite f_user1, f_user0 by done. done.
Qed.

Lemma number_in_ok tx key n : has_number tx key n → number_in (SEQ tx) key = Ok n.
Proof.
  intros [Hn Hk]. unfold number_in. rewrite Hk. cbn [ok_or rbind].
  rewrite be_bytes_length. simpl. rewrite of_be_bytes; [done|]. by rewrite <-U64_pow.
Qed.

Lemma wp_number tx key n Q : has_number tx key n → Q n tx → wp (number key) Q tx.
Proof. intros Hn HQ. unfold wp, number. rewrite (number_in_ok _ _ _ Hn). done. Qed.

Lemma has_number_put tx key n key' n' : has_number tx key' n' → key ≠ key' →
  has_number (set_SEQ (t_insert (SEQ tx) key (be_bytes 8 n)) tx) key' n'.
Proof. intros [? ?] ?. split; [done|]. simpl. by rewrite t_get_insert_ne. Qed.
Lemma has_number_put_eq tx key n : n < U64 →
  has_number (set_SEQ (t_insert (SEQ tx) key (be_bytes 8 n)) tx) key n.
Proof. intros ?. split; [done|]. simpl. by rewrite t_get_insert_eq. Qed.

(** ** Pruning *)

Lemma row_bytes_head c : ∃ rest, row_bytes c = byte_of_N 1 :: byte_of_N (parts c).1.1.1.1 :: rest.
Proof. unfold row_bytes. destruct (parts c) as [[[[? ?] ?] ?] ?]. simpl. eauto. Qed.

Definition snapshot_of (c : ChangeKind) : option str :=
  match c with TableReset _ s => Some s | _ => None end.

Lemma wp_decode {A} c (k : ChangeKind → M A) Q tx : change_ok c →
  wp (k c) Q tx → wp (c ← lift (JournalCodec.decode (row_bytes c)); k c) Q tx.
Proof.
  intros (Hwf & Hfit & _) Hk. unfold wp, mbind, M_bind, lift.
  destruct (decode_row_bytes c Hwf Hfit) as [->|[n ->]]; simpl; done.
Qed.

Lemma starts_with_app a x b : starts_with a b = true → starts_with (a ++ x) b = true.
Proof.
  revert b. induction a as [|c a IH]; intros [|d b]; simpl; try done; [by destruct x|].
  rewrite !andb_true_iff. intros [? ?]. auto.
Qed.

Lemma wp_row_snapshot {A} c (k : option str → M A) Q tx : change_ok c →
  wp (k (snapshot_of c)) Q tx → wp (s ← lift (row_snapshot (row_bytes c)); k s) Q tx.
Proof.
  intros Hok Hk. unfold row_snapshot. destruct (row_bytes_head c) as [rest E].
  assert (head (row_bytes c) = Some (byte_of_N 1)) as Eh by by rewrite E.
  assert (row_bytes c !! 1%nat = Some (byte_of_N (parts c).1.1.1.1)) as E1 by by rewrite E.
  rewrite Eh, E1. rewrite bool_decide_true by done. cbn [negb].
  destruct Hok as (Hwf & Hfit & _). destruct (decode_row_bytes c Hwf Hfit) as [Ed|[n Ed]];
    rewrite Ed; unfold wp, mbind, M_bind, lift; destruct c; simpl; done.
Qed.

(** The deletion of a pruned reset's tables. *)
Lemma wp_delete_snapshot c Q tx : change_ok c →
  (∀ u, (∀ name, starts_with name (lit "__") = false → rows (set_user u tx) name = rows tx name) →
     Q () (set_user u tx)) →
  wp (match snapshot_of c with
      | Some s => delete_table s ;; delete_table (s ++ lit "_blobs")
      | None => mret ()
      end) Q tx.
Proof.
  intros (_ & _ & Hs) HQ. destruct c as [| |t s| |]; simpl; try (specialize (HQ (user tx)); by destruct tx; apply HQ).
  apply wp_bind, wp_modify, wp_modify. apply HQ. intros name Hn. unfold rows. simpl.
  rewrite !lookup_delete_ne; [done|intros <-..]; [by rewrite Hs in Hn|].
  by rewrite (starts_with_app _ _ _ Hs) in Hn.
Qed.

Definition pruned (through floor : N) (cs : list ChangeKind) : N := N.min (len cs) (through + 1 - floor).

Definition prune_post (through floor size : N) (cs : list ChangeKind) (tx : Tx) (size' : N) (tx' : Tx) : Prop :=
  let n := pruned through floor cs in
  size' = size - total_size (take (N.to_nat n) cs) ∧
  t_iter (CHANGES tx') = rows_from (floor + n) (drop (N.to_nat n) cs) ∧
  ∃ t u, tx' = set_CHANGES t (set_user u tx) ∧
    ∀ name, starts_with name (lit "__") = false → rows tx' name = rows tx name.

Lemma prune_post_stop through floor size cs tx :
  pruned through floor cs = 0 → t_iter (CHANGES tx) = rows_from floor cs →
  prune_post through floor size cs tx size tx.
Proof.
  intros En Er. unfold prune_post. rewrite En. simpl. split_and!; [lia| |].
  - by rewrite N.add_0_r, drop_0.
  - exists (CHANGES tx), (user tx). by destruct tx.
Qed.

Lemma pruned_cons through floor c cs : floor <= through →
  N.to_nat (pruned through floor (c :: cs)) = S (N.to_nat (pruned through (floor + 1) cs)) ∧
  floor + pruned through floor (c :: cs) = floor + 1 + pruned through (floor + 1) cs.
Proof. unfold pruned. rewrite len_cons. lia. Qed.

Lemma wp_prune_loop through cs : ∀ tx floor size fuel,
  (length cs <= fuel)%nat → t_iter (CHANGES tx) = rows_from floor cs → Forall change_ok cs →
  total_size cs <= size →
  wp (prune_loop fuel through size) (prune_post through floor size cs tx) tx.
Proof.
  induction cs as [|c cs IH]; intros tx floor size fuel Hfuel Er Hok Hsize.
  { assert (Hf : t_first (CHANGES tx) = None) by (unfold t_first; by rewrite Er).
    destruct fuel; cbn [prune_loop]; apply wp_bind, wp_gets; rewrite Hf; apply wp_ret;
      apply prune_post_stop; try done; unfold pruned; rewrite len_nil; lia. }
  destruct fuel as [|fuel]; [simpl in Hfuel; lia|].
  assert (Hf : t_first (CHANGES tx) = Some (floor, row_bytes c)) by (unfold t_first; by rewrite Er).
  cbn [prune_loop]. apply wp_bind, wp_gets. rewrite Hf.
  destruct (N.leb_spec floor through) as [Hle|Hgt].
  2:{ apply wp_ret, prune_post_stop; [|done]. unfold pruned. lia. }
  apply Forall_cons in Hok as [Hc Hok]. cbn [total_size] in Hsize. unfold row_size in Hsize.
  apply wp_bind, wp_modify. apply wp_row_snapshot; [done|].
  apply wp_bind, wp_delete_snapshot; [done|]. intros u Hu.
  apply wp_bind. eapply wp_lift.
  { rewrite (proj2 (checked_sub_Some size (8 + len (row_bytes c)) (size - (8 + len (row_bytes c))))) by lia. done. }
  set (tx1 := set_user u (set_CHANGES (t_remove (CHANGES tx) floor) tx)) in *.
  eapply wp_mono; [|apply (IH tx1 (floor + 1))]; [|simpl in Hfuel; lia| |done|lia].
  - intros size' tx' (Hs & Hr & t & u' & -> & Hu'). destruct (pruned_cons through floor c cs Hle) as [En Ef].
    unfold prune_post. rewrite En, Ef. cbn [take drop total_size]. split_and!.
    + unfold row_size. lia.
    + done.
    + exists t, u'. split; [by destruct tx|]. intros name Hn. rewrite Hu' by done. by apply Hu.
  - subst tx1. simpl. by eapply t_iter_remove_first.
Qed.

Lemma l_prune_head through L : 1 <= l_floor L → l_head (l_prune through L) = l_head L.
Proof. intros. unfold l_head, l_prune. simpl. rewrite len_drop. lia. Qed.

Lemma l_prune_bytes through L :
  l_bytes (l_prune through L) =
    l_bytes L - total_size (take (N.to_nat (pruned through (l_floor L) (l_changes L))) (l_changes L)).
Proof.
  unfold l_bytes, l_prune. simpl. fold (pruned through (l_floor L) (l_changes L)).
  set (n := N.to_nat _). rewrite <-(take_drop n (l_changes L)) at 2. rewrite total_size_app. lia.
Qed.

(** A representation with new counters, rows and tables of the reserved name space. *)
Lemma repr_update tx L floor changes t u sq :
  repr tx L →
  let L' := set_log L floor changes in
  let tx' := set_SEQ sq (set_CHANGES t (set_user u tx)) in
  has_number tx' (lit "head") (l_head L') → has_number tx' (lit "journal_bytes") (l_bytes L') →
  has_number tx' (lit "floor") floor →
  t_get sq (lit "consumer_generation") = t_get (SEQ tx) (lit "consumer_generation") →
  t_get sq (lit "db_uuid") = t_get (SEQ tx) (lit "db_uuid") →
  t_iter t = rows_from floor changes → 1 <= floor → l_head L' + 1 < U64 → Forall change_ok changes →
  repr tx' L'.
Proof.
  intros R L' tx' Hh Hb Hf Hg Hu Hr Hlo Hhi Hc. constructor; try done.
  - destruct (r_generation _ _ R) as [? ?]. split; [done|]. subst tx'. simpl. by rewrite Hg.
  - subst tx'. simpl. rewrite Hu. apply R.
  - apply R.
Qed.

Ltac seq_get := simpl; repeat (rewrite t_get_insert_eq || rewrite t_get_insert_ne by done).

Lemma wp_prune through tx L Q : repr tx L →
  (∀ tx', repr tx' (l_prune through L) → jframe tx tx' → CONSUMERS tx' = CONSUMERS tx → Q () tx') →
  wp (prune through) Q tx.
Proof.
  intros R HQ. unfold prune. apply wp_bind. eapply wp_number; [apply R|].
  apply wp_bind, wp_gets, wp_bind. eapply wp_mono; [|eapply (wp_prune_loop through (l_changes L) tx)].
  2: by rewrite (r_rows _ _ R); clear; generalize (l_floor L); induction (l_changes L); intros; simpl; [|apply le_n_S]; auto.
  2: apply R. 2: apply R. 2: done.
  intros size' tx1 (-> & Hr & t & u & -> & Hu). fold (l_bytes L) in *. rewrite <-l_prune_bytes.
  apply wp_bind, wp_modify. unfold put_floor.
  pose proof (l_prune_head through L (r_low _ _ R)) as Hhead.
  assert (Hbytes : l_bytes (l_prune through L) < U64).
  { pose proof (proj1 (r_bytes _ _ R)). rewrite l_prune_bytes. lia. }
  set (n := pruned through (l_floor L) (l_changes L)) in *.
  assert (Hfl : l_floor L + n <= l_head L + 1).
  { unfold l_head. pose proof (r_low _ _ R). subst n. unfold pruned. lia. }
  apply wp_bind. eapply (wp_number _ _ (l_head L)).
  { destruct (r_head _ _ R) as [? Hg]. split; [done|]. by seq_get. }
  apply wp_bind, wp_gets, wp_modify. simpl in Hr.
  set (floor' := match t_first _ with Some (k, _) => k | None => _ end).
  assert (floor' = l_floor L + n) as ->.
  { subst floor'. unfold t_first. simpl. rewrite Hr. destruct (drop (N.to_nat n) (l_changes L)) eqn:Ed; simpl; [|done].
    apply (f_equal len) in Ed. rewrite len_drop, len_nil in Ed. pose proof (r_high _ _ R). pose proof (r_low _ _ R).
    unfold saturating_add, l_head in *. subst n. unfold pruned in *. lia. }
  apply HQ.
  - eapply (repr_update tx L (l_floor L + n) (drop (N.to_nat n) (l_changes L)) t u); [done|..].
    + change (set_log L _ _) with (l_prune through L). rewrite Hhead. destruct (r_head _ _ R) as [? Hg]. split; [done|]. by seq_get.
    + split; [done|]. by seq_get.
    + split; [pose proof (r_high _ _ R); lia|]. by seq_get.
    + by seq_get.
    + by seq_get.
    + done.
    + pose proof (r_low _ _ R). lia.
    + change (set_log L _ _) with (l_prune through L). rewrite Hhead. apply R.
    + apply Forall_drop, R.
  - constructor; try done. by seq_get.
  - done.
Qed.

(** ** Consumers *)

(** A list of consumers lists a map. *)
Definition lists (l : list (str * Consumer)) (m : gmap str Consumer) : Prop :=
  NoDup l.*1 ∧ ∀ k c, (k, c) ∈ l ↔ m !! k = Some c.

Lemma sorted_keys_NoDup {V} (l : list (str * V)) : StronglySorted pair_lt l → NoDup l.*1.
Proof.
  induction 1 as [|p l Hs IH Hf]; simpl; constructor; [|done].
  intros (q & Eq & Hq)%list_elem_of_fmap. rewrite Forall_forall in Hf. apply Hf in Hq.
  unfold pair_lt in Hq. rewrite Eq in Hq. by apply key_lt_irrefl in Hq.
Qed.

Lemma traverse_ser (l : list (str * bytes)) (m : gmap str Consumer) :
  (∀ k v, (k, v) ∈ l → ∃ c, m !! k = Some c ∧ v = ser c) →
  ∃ l', traverse (λ p, let? c := from_slice (A := Consumer) p.2 in Ok (p.1, c)) l = Ok l' ∧
    l'.*1 = l.*1 ∧ ∀ k c, (k, c) ∈ l' → m !! k = Some c.
Proof.
  induction l as [|[k v] l IH]; intros Hl; simpl.
  - exists []. split_and!; try done. by intros k c ?%elem_of_nil.
  - destruct (Hl k v) as (c & Hc & ->); [left|]. rewrite from_slice_ser. simpl.
    destruct IH as (l' & -> & Hk & Hin); [intros; apply Hl; by right|]. simpl.
    exists ((k, c) :: l'). split_and!; [done|simpl; by f_equal|].
    intros k' c' [[= -> ->]|?]%elem_of_cons; auto.
Qed.

Lemma wp_consumers tx L Q : repr tx L → (∀ l, lists l (l_consumers L) → Q l tx) → wp consumers Q tx.
Proof.
  intros R HQ. unfold consumers. apply wp_bind, wp_gets.
  destruct (traverse_ser (t_iter (CONSUMERS tx)) (l_consumers L)) as (l & El & Hk & Hin).
  { intros k v Hv%t_get_iter. rewrite (r_consumers _ _ R) in Hv.
    destruct (l_consumers L !! k) as [c|]; simplify_eq/=. eauto. }
  eapply wp_lift; [exact El|]. apply HQ. split.
  - rewrite Hk. apply sorted_keys_NoDup, t_iter_sorted.
  - intros k c. split; [apply Hin|]. intros Hc.
    assert ((k, ser c) ∈ t_iter (CONSUMERS tx)) as Hi.
    { apply t_get_iter. by rewrite (r_consumers _ _ R), Hc. }
    assert (k ∈ l.*1) as (p & -> & Hp)%list_elem_of_fmap.
    { rewrite Hk. apply list_elem_of_fmap. by exists (k, ser c). }
    destruct p as [k c']. simpl in *. pose proof (Hin _ _ Hp). by simplify_eq.
Qed.

(** The lowest acknowledgement of the active consumers; the head when there are none. *)
Definition is_min (L : Log) (m : N) : Prop :=
  (∀ k c, l_consumers L !! k = Some c → active c = true → m <= acked_seq c) ∧
  ((∃ k c, l_consumers L !! k = Some c ∧ active c = true ∧ acked_seq c = m) ∨
   (m = l_head L ∧ ∀ k c, l_consumers L !! k = Some c → active c = false)).

Lemma fold_min_spec l : ∀ n, fold_left N.min l n <= n ∧ (∀ x, x ∈ l → fold_left N.min l n <= x) ∧
  (fold_left N.min l n = n ∨ fold_left N.min l n ∈ l).
Proof.
  induction l as [|y l IH]; intros n; simpl.
  - split_and!; [lia|by intros x ?%elem_of_nil|by left].
  - destruct (IH (N.min n y)) as (H1' & H2' & H3'). split_and!; [lia| |].
    + intros x [->|Hx]%elem_of_cons; [lia|auto].
    + rewrite elem_of_cons. destruct H3' as [H3'|?]; [|by auto]. rewrite H3'.
      destruct (N.min_spec n y) as [[? ->]|[? ->]]; auto.
Qed.

Lemma min_acked_spec l L : lists l (l_consumers L) → is_min L (min_acked (l_head L) l).
Proof.
  intros [_ Hl]. unfold min_acked, min_or.
  assert (Hin : ∀ x, x ∈ ((λ p : str * Consumer, acked_seq p.2) <$> filter (λ p, active p.2 = true) l) ↔
    ∃ k c, l_consumers L !! k = Some c ∧ active c = true ∧ acked_seq c = x).
  { intros x. rewrite list_elem_of_fmap. split.
    - intros ([k c] & -> & [Ha Hc]%list_elem_of_filter). apply Hl in Hc. eauto.
    - intros (k & c & Hc & Ha & <-). exists (k, c). split; [done|]. apply list_elem_of_filter. by rewrite Hl. }
  destruct ((λ p : str * Consumer, acked_seq p.2) <$> filter (λ p, active p.2 = true) l) as [|n ns].
  - split.
    + intros k c Hc Ha. exfalso. apply (not_elem_of_nil (acked_seq c)), Hin. eauto.
    + right. split; [done|]. intros k c Hc. destruct (active c) eqn:Ha; [|done].
      exfalso. apply (not_elem_of_nil (acked_seq c)), Hin. eauto.
  - destruct (fold_min_spec ns n) as (H1' & H2' & H3'). split.
    + intros k c Hc Ha. assert (acked_seq c ∈ n :: ns) as [->|?]%elem_of_cons by (apply Hin; eauto); auto.
    + left. apply Hin. apply elem_of_cons. naive_solver.
Qed.

Lemma is_min_bounds L m : log_inv L → 1 <= l_floor L → is_min L m → l_floor L <= m + 1 ∧ m <= l_head L.
Proof.
  intros I Hlo [_ [(k & c & Hc & Ha & <-)|[-> _]]].
  - split; [by eapply (i_active _ I)|by eapply (i_acked _ I)].
  - unfold l_head. lia.
Qed.

(** Pruning at the minimum keeps every active consumer's unread changes. *)
Lemma log_inv_prune L m : log_inv L → 1 <= l_floor L → is_min L m → log_inv (l_prune m L).
Proof.
  intros I Hlo Hm. pose proof (is_min_bounds L m I Hlo Hm). destruct Hm as [Hmin _]. constructor.
  - intros k c Hc. rewrite l_prune_head by done. by eapply (i_acked _ I).
  - intros k c Hc Ha. simpl. specialize (Hmin k c Hc Ha). unfold l_head in *. lia.
  - apply I.
  - apply I.
Qed.

Lemma wp_prune_acked tx L Q : repr tx L →
  (∀ tx' m, is_min L m → repr tx' (l_prune m L) → jframe tx tx' → CONSUMERS tx' = CONSUMERS tx → Q () tx') →
  wp prune_acked Q tx.
Proof.
  intros R HQ. unfold prune_acked. apply wp_bind. eapply wp_consumers; [done|]. intros l Hl.
  apply wp_bind. eapply wp_number; [apply R|]. eapply wp_prune; [done|]. intros tx' R' F' Hc.
  eapply HQ; [by apply min_acked_spec|done..].
Qed.

(** ** The size budget *)

(** What may happen to a consumer that the budget cuts off: an index must rebuild, any
    other expires. *)
Definition degraded (head : N) (c c' : Consumer) : Prop :=
  c' = c ∨ (internal c = false ∧ c' = expire c) ∨ (internal c = true ∧ c' = rebuild head c).

Lemma degraded_trans head a b c : degraded head a b → degraded head b c → degraded head a c.
Proof. unfold degraded. intros [->|[[? ->]|[? ->]]] [->|[[? ->]|[? ->]]]; simpl in *; auto; congruence. Qed.

(** The log only loses its oldest changes, and consumers only degrade. *)
Record evolves (L L' : Log) : Prop := {
  e_floor : l_floor L <= l_floor L';
  e_low : 1 <= l_floor L → 1 <= l_floor L';
  e_gap : l_floor L' - l_floor L <= len (l_changes L);
  e_changes : l_changes L' = drop (N.to_nat (l_floor L' - l_floor L)) (l_changes L);
  e_head : 1 <= l_floor L → l_head L' = l_head L;
  e_generation : l_generation L' = l_generation L;
  e_uuid : l_uuid L' = l_uuid L;
  e_consumers : ∀ k, option_Forall2 (degraded (l_head L)) (l_consumers L !! k) (l_consumers L' !! k);
}.

Lemma evolves_refl L : evolves L L.
Proof.
  constructor; try done; try lia.
  - by rewrite N.sub_diag, drop_0.
  - intros k. destruct (l_consumers L !! k); constructor. by left.
Qed.

Lemma evolves_trans L1 L2 L3 : 1 <= l_floor L1 → evolves L1 L2 → evolves L2 L3 → evolves L1 L3.
Proof.
  intros Hlo A B. pose proof (e_floor _ _ A). pose proof (e_floor _ _ B).
  pose proof (e_gap _ _ A). pose proof (e_gap _ _ B) as Hg. rewrite (e_changes _ _ A), len_drop in Hg.
  constructor.
  - lia.
  - intros. lia.
  - lia.
  - rewrite (e_changes _ _ B), (e_changes _ _ A), drop_drop. f_equal. lia.
  - intros. rewrite (e_head _ _ B), (e_head _ _ A) by (done || lia). done.
  - by rewrite (e_generation _ _ B), (e_generation _ _ A).
  - by rewrite (e_uuid _ _ B), (e_uuid _ _ A).
  - intros k. pose proof (e_consumers _ _ A k) as Ha. pose proof (e_consumers _ _ B k) as Hb.
    rewrite (e_head _ _ A) in Hb by done.
    destruct Ha as [c c' Hd|]; inversion Hb; subst; constructor; eauto using degraded_trans.
Qed.

Lemma evolves_prune L m : 1 <= l_floor L → evolves L (l_prune m L).
Proof.
  intros Hlo. constructor; try done; simpl; try lia.
  - do 2 f_equal. lia.
  - intros _. by apply l_prune_head.
  - intros k. destruct (l_consumers L !! k); constructor. by left.
Qed.

Lemma evolves_consumer L name c c' :
  l_consumers L !! name = Some c → degraded (l_head L) c c' →
  evolves L (set_consumers L (<[name := c']> (l_consumers L))).
Proof.
  intros Hc Hd. constructor; try done; simpl; try lia.
  - by rewrite N.sub_diag, drop_0.
  - intros k. destruct (decide (name = k)) as [<-|Hne].
    + rewrite Hc, lookup_insert_eq. by constructor.
    + rewrite lookup_insert_ne by done. destruct (l_consumers L !! k); constructor. by left.
Qed.

Definition lagging (head : N) (p : str * Consumer) : Prop := active p.2 = true ∧ acked_seq p.2 < head.
#[global] Instance lagging_dec head p : Decision (lagging head p).
Proof. unfold lagging. apply _. Defined.
Definition lag (L : Log) : nat := size (filter (lagging (l_head L)) (l_consumers L)).

Lemma lag_decreases L name c c' :
  l_consumers L !! name = Some c → lagging (l_head L) (name, c) → ¬ lagging (l_head L) (name, c') →
  lag L = S (lag (set_consumers L (<[name := c']> (l_consumers L)))).
Proof.
  intros Hc Hl Hn. unfold lag. change (l_head (set_consumers L _)) with (l_head L). simpl.
  rewrite map_filter_insert_False by done.
  rewrite map_filter_delete.
  assert (Hin : filter (lagging (l_head L)) (l_consumers L) !! name = Some c).
  { by apply map_lookup_filter_Some. }
  rewrite map_size_delete, Hin.
  assert (size (filter (lagging (l_head L)) (l_consumers L)) ≠ 0%nat); [|lia].
  intros E. apply map_size_empty_iff in E. by rewrite E, lookup_empty in Hin.
Qed.

Lemma is_min_unique L m m' : is_min L m → is_min L m' → m = m'.
Proof.
  intros [H1' [(k & c & Hc & Ha & <-)|[-> Hno]]] [H2' [(k' & c' & Hc' & Ha' & <-)|[-> Hno']]]; try done.
  - pose proof (H1' _ _ Hc' Ha'). pose proof (H2' _ _ Hc Ha). lia.
  - by rewrite (Hno' _ _ Hc) in Ha.
  - by rewrite (Hno _ _ Hc') in Ha'.
Qed.

Lemma min_by_generation_spec l p : min_by_generation l = Some p → p ∈ l.
Proof.
  destruct l as [|q l]; [done|]. simpl. intros [= <-]. revert q.
  induction l as [|r l IH]; intros q; simpl; [apply list_elem_of_here|].
  case_match; [specialize (IH r)|specialize (IH q)]; rewrite !elem_of_cons in *; tauto.
Qed.

Lemma repr_put_consumer tx L name c : repr tx L →
  repr (set_CONSUMERS (t_insert (CONSUMERS tx) name (ser c)) tx)
       (set_consumers L (<[name := c]> (l_consumers L))).
Proof.
  intros []. constructor; try done. intros k. simpl. rewrite t_get_insert.
  case_decide; subst; [by rewrite lookup_insert_eq|by rewrite lookup_insert_ne].
Qed.

Lemma log_inv_degrade L name c c' : 1 <= l_floor L → log_inv L → l_consumers L !! name = Some c →
  degraded (l_head L) c c' → log_inv (set_consumers L (<[name := c']> (l_consumers L))).
Proof.
  intros Hlo I Hc Hd.
  assert (generation c' = generation c) as Hg by (destruct Hd as [->|[[_ ->]|[_ ->]]]; done).
  pose proof (i_acked _ I _ _ Hc) as Hack. pose proof (i_active _ I _ _ Hc) as Hact.
  pose proof (i_generation _ I _ _ Hc). assert (l_floor L <= l_head L + 1) by (unfold l_head; lia).
  constructor; simpl; change (l_head (set_consumers L _)) with (l_head L).
  - intros k d [[<- <-]|[? ?]]%lookup_insert_Some; [|by eapply (i_acked _ I)].
    destruct Hd as [->|[[_ ->]|[_ ->]]]; simpl; lia.
  - intros k d [[<- <-]|[? ?]]%lookup_insert_Some Ha; [|by eapply (i_active _ I)].
    destruct Hd as [->|[[_ ->]|[_ ->]]]; simpl in *; [auto|done|lia].
  - intros k d [[<- <-]|[? ?]]%lookup_insert_Some; [lia|by eapply (i_generation _ I)].
  - intros k k' d d' [[<- <-]|[? Hk]]%lookup_insert_Some [[<- <-]|[? Hk']]%lookup_insert_Some; try done.
    + rewrite Hg. intros E. by eapply (i_distinct _ I).
    + rewrite Hg. intros E. by eapply (i_distinct _ I).
    + by eapply (i_distinct _ I).
Qed.

Lemma jframe_consumers v tx : jframe tx (set_CONSUMERS v tx).
Proof. by constructor. Qed.

(** Rows left after pruning at the minimum mean a consumer is behind. *)
Lemma lagging_exists L m : 1 <= l_floor L → log_inv L → is_min L m → l_bytes (l_prune m L) ≠ 0 → m < l_head L.
Proof.
  intros Hlo I Hm Hb. pose proof (is_min_bounds L m I Hlo Hm). apply N.nle_gt. intros Hle. apply Hb.
  unfold l_bytes, l_prune. simpl. rewrite drop_ge; [done|]. unfold l_head, len in *. lia.
Qed.

Definition settled (max : N) (tx : Tx) (L : Log) (tx' : Tx) : Prop :=
  ∃ L', repr tx' L' ∧ log_inv L' ∧ evolves L L' ∧ jframe tx tx' ∧ l_bytes L' <= max.

(** The slowest active consumer after a prune that was not enough. *)
Lemma slowest_exists tx L l m : 1 <= l_floor L → log_inv L → lists l (l_consumers L) → is_min L m →
  l_bytes (l_prune m L) ≠ 0 → repr tx (l_prune m L) →
  ∃ name c, min_by_generation (filter (λ p, active p.2 = true ∧
      acked_seq p.2 = min_acked (l_head (l_prune m L)) l) l) = Some (name, c) ∧
    l_consumers L !! name = Some c ∧ lagging (l_head L) (name, c).
Proof.
  intros Hlo I Hl Hm Hb R. pose proof (lagging_exists L m Hlo I Hm Hb) as Hlt.
  pose proof (min_acked_spec l (l_prune m L) Hl) as Hm1.
  rewrite l_prune_head in Hm1 by done. rewrite l_prune_head by done.
  assert (min_acked (l_head L) l = m) as Em by (eapply is_min_unique; [by apply min_acked_spec|done]).
  rewrite Em. destruct Hm as [_ [(k & c & Hc & Ha & Hk)|[-> _]]]; [|lia].
  assert ((k, c) ∈ filter (λ p : str * Consumer, active p.2 = true ∧ acked_seq p.2 = m) l) as Hin.
  { apply list_elem_of_filter. split; [done|]. by apply Hl. }
  destruct (min_by_generation _) as [[name c']|] eqn:E.
  - apply min_by_generation_spec, list_elem_of_filter in E as [[Ha' Hk'] Hc']. simpl in *.
    exists name, c'. split_and!; [done|by apply Hl|]. split; [done|]. simpl. lia.
  - unfold min_by_generation in E. case_match; [|done]. by apply elem_of_nil in Hin.
Qed.

Lemma wp_enforce_loop max fuel : ∀ tx L events,
  repr tx L → log_inv L → (lag L < fuel)%nat →
  wp (enforce_loop fuel max events) (λ _ tx', settled max tx L tx') tx.
Proof.
  induction fuel as [|fuel IH]; [lia|]. intros tx L events R I Hfuel. pose proof (r_low _ _ R) as Hlo.
  cbn [enforce_loop]. apply wp_bind. eapply wp_number; [apply R|].
  destruct (N.leb_spec (l_bytes L) max) as [Hle|Hgt].
  { apply wp_ret. exists L. split_and!; try done. apply evolves_refl. }
  apply wp_bind. eapply wp_prune_acked; [done|]. intros tx1 m Hm R1 F1 Hcons.
  pose proof (log_inv_prune L m I Hlo Hm) as I1. pose proof (evolves_prune L m Hlo) as V1.
  apply wp_bind. eapply wp_number; [apply R1|].
  destruct (N.leb_spec (l_bytes (l_prune m L)) max) as [Hle|Hgt1].
  { apply wp_ret. by exists (l_prune m L). }
  apply wp_bind. eapply wp_consumers; [done|]. intros l Hl. apply wp_bind. eapply wp_number; [apply R1|].
  destruct (slowest_exists tx1 L l m Hlo I Hl Hm ltac:(lia) R1) as (name & c & -> & Hc & Hlag).
  rewrite l_prune_head by done.
  assert (Hstep : ∀ c', degraded (l_head L) c c' → ¬ lagging (l_head L) (name, c') → ∀ ev,
    wp (put_consumer name c' ;; enforce_loop fuel max ev) (λ _ tx', settled max tx L tx') tx1).
  { intros c' Hd Hnl ev. apply wp_bind, wp_modify.
    set (L1 := l_prune m L) in *. set (L2 := set_consumers L1 (<[name := c']> (l_consumers L1))).
    pose proof (l_prune_head m L Hlo) as Hh. fold L1 in Hh.
    eapply wp_mono; [|apply (IH _ L2)].
    - intros _ tx' (L' & R' & I' & V' & F' & Hb'). exists L'. split_and!; try done.
      + eapply evolves_trans; [done|exact V1|]. eapply evolves_trans; [apply R1| |exact V'].
        apply evolves_consumer with c; [done|]. by rewrite Hh.
      + etrans; [exact F1|]. etrans; [|exact F']. apply jframe_consumers.
    - by apply repr_put_consumer.
    - eapply log_inv_degrade; [apply R1|done|done|by rewrite Hh].
    - assert (lag L = lag L1) as E by (unfold lag; by rewrite Hh).
      rewrite E in Hfuel. rewrite (lag_decreases L1 name c c') in Hfuel; [|done|by rewrite Hh..]. subst L2. lia. }
  destruct (internal c) eqn:Hi; apply Hstep.
  - right. right. done.
  - intros [_ ?]. simpl in *. lia.
  - right. left. done.
  - intros [? _]. done.
Qed.

Lemma consumers_length tx L : repr tx L → length (t_iter (CONSUMERS tx)) = size (l_consumers L).
Proof.
  intros R. assert (list_to_map (t_iter (CONSUMERS tx)) = ser <$> l_consumers L) as E.
  { apply map_eq. intros k. rewrite lookup_fmap, <-(r_consumers _ _ R).
    destruct (t_get (CONSUMERS tx) k) as [v|] eqn:Ev.
    - apply elem_of_list_to_map; [apply sorted_keys_NoDup, t_iter_sorted|]. by apply t_get_iter.
    - apply not_elem_of_list_to_map. intros ([k' v] & -> & Hp%t_get_iter)%list_elem_of_fmap. simpl in *. congruence. }
  rewrite <-(map_size_fmap ser), <-E, map_size_list_to_map; [done|].
  apply sorted_keys_NoDup, t_iter_sorted.
Qed.

Definition fits (r : Retention) (size : N) : Prop :=
  match retention_max r with Some max => size <= max | None => True end.

Lemma wp_enforce r tx L Q : repr tx L → log_inv L →
  (∀ ev tx' L', repr tx' L' → log_inv L' → evolves L L' → jframe tx tx' → fits r (l_bytes L') → Q ev tx') →
  wp (enforce r) Q tx.
Proof.
  intros R I HQ. unfold enforce, fits in *. destruct (retention_max r) as [max|].
  - apply wp_bind, wp_gets. eapply wp_mono; [|apply wp_enforce_loop; [exact R|exact I|]].
    + intros ev tx' (L' & ? & ? & ? & ? & ?). by eapply HQ.
    + rewrite (consumers_length _ _ R). unfold lag.
      pose proof (map_filter_subseteq (lagging (l_head L)) (l_consumers L)) as Hs%map_subseteq_size. lia.
  - apply wp_ret. eapply HQ; try done. apply evolves_refl.
Qed.

(** ** Appending *)

Definition l_append (effects : list ChangeKind) (L : Log) : Log :=
  set_log L (l_floor L) (l_changes L ++ effects).

Lemma rows_from_below floor cs head p : 1 <= floor → floor + len cs = head + 1 →
  p ∈ rows_from floor cs → p.1 < head + 1.
Proof. destruct p as [k row]. intros ? ? [? _]%rows_from_elem. simpl. lia. Qed.

(** Both ways to store a row above all others do the same. *)
Lemma put_same t head row : (∀ p, p ∈ t_iter t → p.1 < head) → put_cursor t head row = put_insert t head row.
Proof.
  intros Hlt. unfold put_cursor, put_insert. destruct (last (t_iter t)) as [[k v]|] eqn:E; [|done].
  apply last_Some_elem_of, Hlt in E. simpl in E. by rewrite (proj2 (N.ltb_lt _ _) E).
Qed.

Definition append_step (put : table N bytes → N → bytes → result (table N bytes))
    (st : N * N * table N bytes) (effect : ChangeKind) : result (N * N * table N bytes) :=
  let '(head, size, t) := st in
  let? head := ok_or (checked_add head 1) (Validation (lit "journal sequence exhausted")) in
  let? row := JournalCodec.encode effect in
  let? size := ok_or (checked_add size (8 + len row)) (Validation (lit "journal size overflow")) in
  let? t := put t head row in
  Ok (head, size, t).

Lemma append_step_same st e : (∀ p, p ∈ t_iter st.2 → p.1 <= st.1.1) →
  append_step put_cursor st e = append_step put_insert st e.
Proof.
  destruct st as [[head size] t]. simpl. intros Hle. unfold append_step.
  destruct (checked_add head 1) as [h|] eqn:Eh; cbn [ok_or rbind]; [|done].
  apply checked_add_Some in Eh as [-> _].
  destruct (JournalCodec.encode e) as [row|]; cbn [rbind]; [|done].
  destruct (checked_add size _); cbn [ok_or rbind]; [|done].
  rewrite put_same; [done|]. intros p Hp. specialize (Hle p Hp). lia.
Qed.

Lemma append_step_insert st e st' : append_step put_insert st e = Ok st' →
  (∀ p, p ∈ t_iter st.2 → p.1 <= st.1.1) →
  parts_fit e ∧ st'.1.1 = st.1.1 + 1 ∧ st'.1.2 = st.1.2 + row_size e ∧ st'.1.2 < U64 ∧
  t_iter st'.2 = t_iter st.2 ++ [(st.1.1 + 1, row_bytes e)].
Proof.
  destruct st as [[head size] t]. simpl. intros E Hle.
  apply rbind_ok in E as (h & E1 & E). apply rbind_ok in E as (row & E2 & E).
  apply rbind_ok in E as (sz & E3 & [= <-]).
  destruct (checked_add head 1) as [h'|] eqn:Eh; [|done]. injection E1 as ->.
  apply checked_add_Some in Eh as [-> _]. apply encode_ok in E2 as [Hfit ->].
  destruct (checked_add size _) as [sz'|] eqn:Es; [|done]. injection E3 as ->.
  apply checked_add_Some in Es as [-> ?]. unfold row_size. simpl. split_and!; try done.
  apply t_iter_insert_last. apply Forall_forall. intros p Hp. specialize (Hle p Hp).
  apply N.compare_lt_iff. lia.
Qed.

Lemma append_effects_ok put effects : put = put_insert ∨ put = put_cursor → ∀ floor cs head size t head' size' t',
  1 <= floor → floor + len cs = head + 1 → t_iter t = rows_from floor cs → size < U64 →
  append_effects put effects (head, size, t) = Ok (head', size', t') →
  head' = head + len effects ∧ size' = size + total_size effects ∧ size' < U64 ∧
  t_iter t' = rows_from floor (cs ++ effects) ∧ Forall parts_fit effects.
Proof.
  intros Hput. induction effects as [|e es IH]; intros floor cs head size t head' size' t' Hlo Hhead Hr Hsz.
  - intros [= <- <- <-]. rewrite len_nil, app_nil_r. simpl. split_and!; try done; lia.
  - unfold append_effects. cbn [try_fold]. intros E. apply rbind_ok in E as (st & E1 & E2).
    assert (Hle : ∀ p, p ∈ t_iter t → p.1 <= head).
    { intros p Hp. rewrite Hr in Hp. pose proof (rows_from_below floor cs head p Hlo Hhead Hp). lia. }
    assert (append_step put_insert (head, size, t) e = Ok st) as E1'.
    { destruct Hput as [->|Hp]; [done|]. subst put. rewrite <-append_step_same; done. }
    apply append_step_insert in E1' as (Hfit & Hh & Hs & Hs' & Ht); [|done]. destruct st as [[h1 s1] t1].
    simpl in *. subst h1. apply (IH floor (cs ++ [e]) (head + 1) s1 t1) in E2 as (-> & -> & ? & Ht' & Hf).
    + rewrite len_cons. simpl. rewrite <-app_assoc in Ht'. split_and!; try done; [lia|lia|by constructor].
    + done.
    + rewrite len_app, len_cons, len_nil. lia.
    + rewrite Ht, Hr, rows_from_app. simpl. do 3 f_equal. lia.
    + done.
Qed.

(** The effects with the sequences they get. *)
Fixpoint numbered (n : N) (es : list ChangeKind) : list (N * ChangeKind) :=
  match es with [] => [] | e :: es' => (n, e) :: numbered (n + 1) es' end.

Lemma stamp_spec head effects tx tx' : stamp head effects tx = Ok ((), tx') →
  lw_frame tx tx' ∧ ∀ t r, LastWrite.get tx' t r =
    last_write (has_row tx t r) t r (LastWrite.get tx t r) (numbered (head + 1) effects).
Proof.
  intros E. apply apply_all_spec. revert tx E. unfold stamp.
  assert (Hgen : ∀ n tx, for_each (imap (λ i e, (N.of_nat (n + i), e)) effects) (λ p,
    seq ← lift (ok_or (checked_add head (p.1 + 1)) (Validation (lit "sequence exhausted")));
    LastWrite.apply p.2 seq) tx = Ok ((), tx') →
    for_each (numbered (head + N.of_nat n + 1) effects) (λ p, LastWrite.apply p.2 p.1) tx = Ok ((), tx')).
  { induction effects as [|e es IH]; intros n tx; cbn [imap numbered for_each]; [done|].
    intros E. apply M_bind_ok in E as ([] & tx1 & E1 & E2). m_inv. simpl in *.
    match goal with Hs : ok_or (checked_add _ _) _ = Ok ?x |- _ =>
      destruct (checked_add head (N.of_nat (n + 0) + 1)) as [s|] eqn:Ec; [injection Hs as <-|done] end.
    apply checked_add_Some in Ec as [-> _].
    replace (head + (N.of_nat (n + 0) + 1)) with (head + N.of_nat n + 1) in * by lia.
    rewrite (M_bind_eq _ _ _ _ _ E1).
    replace (head + N.of_nat n + 1 + 1) with (head + N.of_nat (S n) + 1) by lia. apply IH.
    erewrite imap_ext; [exact E2|]. intros i x _. simpl. do 2 f_equal. lia. }
  intros tx E. specialize (Hgen 0%nat tx). rewrite N.add_0_r in Hgen. by apply Hgen.
Qed.

(** Effects as a transaction body produces them. *)
Definition effect_ok (c : ChangeKind) : Prop :=
  change_wf c ∧ match c with TableReset _ s => starts_with s (lit "__") = true | _ => True end.

Lemma append_all_spec effects tx L tx' :
  repr tx L → log_inv L → Forall effect_ok effects → l_head L + len effects + 1 < U64 →
  append_all effects tx = Ok ((), tx') →
  repr tx' (l_append effects L) ∧ log_inv (l_append effects L) ∧
  jframe (set_LASTWRITE (LASTWRITE tx') tx) tx' ∧
  ∀ t r, LastWrite.get tx' t r =
    last_write (has_row tx t r) t r (LastWrite.get tx t r) (numbered (l_head L + 1) effects).
Proof.
  intros R I Hok Hhi E. pose proof (r_low _ _ R) as Hlo.
  assert (Hhead : l_head (l_append effects L) = l_head L + len effects).
  { unfold l_head, l_append. simpl. rewrite len_app. lia. }
  unfold append_all in E. apply M_bind_ok in E as (head & tx0 & E0 & E).
  unfold number in E0. rewrite (number_in_ok _ _ _ (r_head _ _ R)) in E0. injection E0 as <- <-.
  apply M_bind_ok in E as (size & tx0 & E0 & E).
  unfold number in E0. rewrite (number_in_ok _ _ _ (r_bytes _ _ R)) in E0. injection E0 as <- <-.
  apply M_bind_ok in E as ([] & tx1 & Es & E). apply stamp_spec in Es as [(v & u & -> & Hrows) Hlw].
  m_inv. match goal with Ha : append_effects _ _ _ = Ok ?x |- _ => destruct x as [[h sz] t]; rename Ha into Ea end.
  unfold put_number in E. m_inv. cbn [CHANGES set_LASTWRITE set_user] in Ea.
  apply (append_effects_ok _ effects) with (floor := l_floor L) (cs := l_changes L) in Ea
    as (-> & -> & Hsz & Ht & Hfit); [|destruct (DEFAULT_MAX_COMMIT_BATCH_ENTRIES <=? length effects)%nat; auto|done| |apply R|apply R].
  2:{ unfold l_head. lia. }
  assert (Hfl : match t_first t with Some (k, _) => k | None => saturating_add (l_head L + len effects) 1 end
    = l_floor L).
  { unfold t_first. rewrite Ht. destruct (l_changes L ++ effects) as [|c cs] eqn:Ec; simpl; [|done].
    apply (f_equal len) in Ec. rewrite len_app, len_nil in Ec. unfold saturating_add, l_head in *. lia. }
  rewrite Hfl in *. split_and!.
  - match goal with |- repr ?x _ =>
      change x with (set_SEQ (SEQ x) (set_CHANGES t (set_user u (set_LASTWRITE v tx)))) end.
    eapply (repr_update (set_LASTWRITE v tx) L (l_floor L) (l_changes L ++ effects) t u).
    + by destruct R.
    + change (set_log L _ _) with (l_append effects L). rewrite Hhead. split; [lia|]. by seq_get.
    + split; [|seq_get]; unfold l_bytes in *; simpl; rewrite total_size_app; done.
    + split; [apply R|]. by seq_get.
    + by seq_get.
    + by seq_get.
    + done.
    + done.
    + change (set_log L _ _) with (l_append effects L). lia.
    + apply Forall_app. split; [apply R|]. apply Forall_forall. intros c Hc.
      rewrite Forall_forall in Hok, Hfit. destruct (Hok c Hc). split_and!; auto.
  - constructor; simpl.
    + intros k c Hc. rewrite Hhead. pose proof (i_acked _ I _ _ Hc). lia.
    + apply I.
    + apply I.
    + apply I.
  - constructor; try done; [intros name _; apply (Hrows name)|by seq_get].
  - intros t' r. apply (Hlw t' r).
Qed.

(** ** The write transaction *)

(** The representation reads three tables. *)
Lemma repr_ext tx tx' L : SEQ tx' = SEQ tx → CHANGES tx' = CHANGES tx → CONSUMERS tx' = CONSUMERS tx →
  repr tx L → repr tx' L.
Proof. intros E1 E2 E3 []. constructor; unfold has_number in *; by rewrite ?E1, ?E2, ?E3. Qed.

Record wrote (r : Retention) (effects : list ChangeKind) (L1 : Log) (tx1 db' : Tx) (L' : Log) : Prop := {
  w_repr : repr db' L';
  w_inv : log_inv L';
  w_evolves : evolves (l_append effects L1) L';
  w_fits : fits r (l_bytes L');
  w_rows : ∀ name, starts_with name (lit "__") = false → rows db' name = rows tx1 name;
  w_refs : REFS db' = REFS tx1;
  w_lastwrite : ∀ t k, LastWrite.get db' t k =
    last_write (has_row tx1 t k) t k (LastWrite.get tx1 t k) (numbered (l_head L1 + 1) effects);
}.

Lemma write_body_spec {A} r (f : M (A * list ChangeKind)) db out effects tx1 L1 res ev db' :
  f db = Ok ((out, effects), tx1) → repr tx1 L1 → log_inv L1 → Forall effect_ok effects →
  l_head L1 + len effects + 1 < U64 →
  write_body r f db = Ok ((res, ev), db') → res = out ∧ ∃ L', wrote r effects L1 tx1 db' L'.
Proof.
  intros Ef R I Hok Hhi E. unfold write_body in E. rewrite (M_bind_eq _ _ _ _ _ Ef) in E.
  apply M_bind_ok in E as ([] & tx2 & Ei & E). apply IdContract.validate_frame in Ei as (u & -> & Hu).
  apply M_bind_ok in E as ([] & tx3 & Eu & E). apply UniqueSpec.uq_validate_frame in Eu as (a & b & w & -> & Hw).
  apply M_bind_ok in E as ([] & tx4 & Ea & E).
  eapply append_all_spec in Ea as (R4 & I4 & F4 & Hlw); [|by eapply (repr_ext tx1)|done..].
  apply M_bind_ok in E as ([] & tx5 & Ep & E).
  eapply wp_ok in Ep; [|eapply (wp_prune_acked _ _ (λ _ tx', ∃ m, is_min (l_append effects L1) m ∧
    repr tx' (l_prune m (l_append effects L1)) ∧ jframe tx4 tx')); [done|by eauto]].
  destruct Ep as (m & Hm & R5 & F5). pose proof (log_inv_prune _ _ I4 (r_low _ _ R4) Hm) as I5.
  apply M_bind_ok in E as (ev' & tx6 & Ee & [= <- <- <-]).
  eapply wp_ok in Ee; [|eapply (wp_enforce r _ _ (λ _ tx', ∃ L', repr tx' L' ∧ log_inv L' ∧
    evolves (l_prune m (l_append effects L1)) L' ∧ jframe tx5 tx' ∧ fits r (l_bytes L'))); [done..|by eauto 8]].
  destruct Ee as (L' & R6 & I6 & V6 & F6 & Hfit). split; [done|]. exists L'.
  pose proof (transitivity F5 F6) as F56. constructor; try done.
  - eapply evolves_trans; [apply R4|apply evolves_prune, R4|done].
  - intros name Hn. rewrite (f_user _ _ F56), (f_user _ _ F4) by done. by rewrite <-Hu, <-Hw.
  - by rewrite (f_refs _ _ F56), (f_refs _ _ F4).
  - intros t k. unfold LastWrite.get at 1. rewrite (f_lastwrite _ _ F56).
    change (default 0 (t_get (LASTWRITE tx4) (LastWrite.key t k))) with (LastWrite.get tx4 t k). rewrite Hlw.
    unfold has_row. by rewrite Hw, Hu.
Qed.
End journal_spec.
