(* ===== verification/JournalOps.v ===== *)
(** * Consumers of the change log

    Registration, acknowledgement, expiry and reading, on top of [JournalSpec];
    the reachable states of a database ([jstep]) and the guarantees a consumer has. *)
From S2P Require Import Prelude Order Redb Memory JournalCodec Fields Eval Tx LastWrite IdContract Unique UniqueSpec JournalBlob Journal JournalSpec.
Local Open Scope N_scope.

(** The log continues: it only gains changes at its end and loses them at its start. *)
Record continues (L L' : Log) : Prop := {
  c_floor : l_floor L <= l_floor L';
  c_generation : l_generation L <= l_generation L';
  c_uuid : l_uuid L' = l_uuid L;
  c_changes : ∃ es, l_floor L' - l_floor L <= len (l_changes L ++ es) ∧
    l_changes L' = drop (N.to_nat (l_floor L' - l_floor L)) (l_changes L ++ es);
}.

Lemma continues_refl L : continues L L.
Proof.
  constructor; try done; try lia. exists []. rewrite app_nil_r, N.sub_diag, drop_0. split; [lia|done].
Qed.

Lemma continues_trans L1 L2 L3 : continues L1 L2 → continues L2 L3 → continues L1 L3.
Proof.
  intros [F1 G1 U1 (e1 & B1 & C1)] [F2 G2 U2 (e2 & B2 & C2)]. constructor; [lia|lia|congruence|].
  exists (e1 ++ e2). rewrite C1 in B2, C2. rewrite <-drop_app_le in C2 by (unfold len in *; lia).
  rewrite drop_drop, <-app_assoc in C2. rewrite len_app, len_drop in B2. rewrite app_assoc, len_app. split.
  - lia.
  - rewrite <-app_assoc, C2. f_equal. lia.
Qed.

(** The change with a sequence number, while it is retained. *)
Definition change_at (L : Log) (s : N) : option ChangeKind :=
  if l_floor L <=? s then l_changes L !! N.to_nat (s - l_floor L) else None.

Lemma continues_at L L' s c : 1 <= l_floor L → continues L L' → s <= l_head L →
  change_at L' s = Some c → change_at L s = Some c.
Proof.
  intros Hlo [F _ _ (es & B & C)] Hs. unfold change_at.
  destruct (N.leb_spec (l_floor L') s); [|done]. destruct (N.leb_spec (l_floor L) s); [|lia].
  rewrite C, lookup_drop, lookup_app_l by (unfold l_head, len in *; lia).
  intros <-. f_equal. lia.
Qed.

Lemma evolves_continues L es L' : evolves (l_append es L) L' → continues L L'.
Proof.
  intros V. constructor.
  - apply (e_floor _ _ V).
  - by rewrite (e_generation _ _ V).
  - apply (e_uuid _ _ V).
  - exists es. split; [apply (e_gap _ _ V)|apply (e_changes _ _ V)].
Qed.

Section journal_ops.
Context `{Redb, Allocator, TextLib}
  {SPair : Serde (str * str)} {SIdx : Serde (str * N)} {SKeys : Serde (list bytes)}
  {SDefs : Serde (list Unique)} {SPath : Serde Path} {SRef : Serde BlobRef} {SCons : Serde Consumer}.

Lemma number_eq tx key n tx' a : has_number tx key n → number key tx = Ok (a, tx') → a = n ∧ tx' = tx.
Proof. intros Hn. unfold number. rewrite (number_in_ok _ _ _ Hn). by intros [= <- <-]. Qed.

Lemma consumer_in_ok tx L name : repr tx L → consumer_in tx name = Ok (l_consumers L !! name).
Proof.
  intros R. unfold consumer_in. rewrite (r_consumers _ _ R).
  destruct (l_consumers L !! name); simpl; [|done]. by rewrite from_slice_ser.
Qed.

Lemma uuid_in_ok tx L : repr tx L → uuid_in tx = Ok (l_uuid L).
Proof. intros R. unfold uuid_in. by rewrite (r_uuid _ _ R). Qed.

(** ** Registration *)

Definition fresh_consumer (L : Log) (int : bool) (now : Z) : Consumer :=
  {| generation := l_generation L + 1; acked_seq := l_head L; registered_at := now; active := true;
     internal := int; needs_rebuild := false |}.
Definition l_register (L : Log) (name : str) (int : bool) (now : Z) : Log :=
  {| l_floor := l_floor L; l_changes := l_changes L;
     l_consumers := <[name := fresh_consumer L int now]> (l_consumers L);
     l_generation := l_generation L + 1; l_uuid := l_uuid L |}.

Lemma log_inv_register L name int now : 1 <= l_floor L → log_inv L → log_inv (l_register L name int now).
Proof.
  intros Hlo I. assert (l_floor L <= l_head L + 1) by (unfold l_head; lia).
  constructor; simpl; change (l_head (l_register L name int now)) with (l_head L).
  - intros k c [[<- <-]|[_ ?]]%lookup_insert_Some; [simpl; lia|by eapply (i_acked _ I)].
  - intros k c [[<- <-]|[_ ?]]%lookup_insert_Some Ha; [simpl; lia|by eapply (i_active _ I)].
  - intros k c [[<- <-]|[_ Hk]]%lookup_insert_Some; [simpl; lia|]. pose proof (i_generation _ I _ _ Hk). lia.
  - intros k k' c c' [[<- <-]|[_ Hk]]%lookup_insert_Some [[<- <-]|[_ Hk']]%lookup_insert_Some; try done; simpl.
    + pose proof (i_generation _ I _ _ Hk'). lia.
    + pose proof (i_generation _ I _ _ Hk). lia.
    + by eapply (i_distinct _ I).
Qed.

Ltac seq_get := simpl; repeat (rewrite t_get_insert_eq || rewrite t_get_insert_ne by done).

Lemma register_tx_spec name int now db L tok es tx1 :
  repr db L → log_inv L → register_tx name int now db = Ok ((tok, es), tx1) →
  es = [] ∧ tok = {| database_uuid := l_uuid L; tk_name := name; tk_generation := l_generation L + 1 |} ∧
  repr tx1 (l_register L name int now) ∧ jframe db tx1 ∧
  (int = false → is_internal (l_consumers L !! name) = false).
Proof.
  intros R I E. unfold register_tx in E. apply M_bind_ok in E as ([] & tx0 & E0 & E).
  assert (tx0 = db ∧ (int = false → is_internal (l_consumers L !! name) = false)) as [-> Hint].
  { destruct int; m_inv; [done|]. rewrite (consumer_in_ok _ L) in * by done.
    match goal with Hc : Ok _ = Ok _ |- _ => injection Hc as <- end.
    destruct (is_internal _); m_inv; done. }
  apply M_bind_ok in E as (g & tx0 & E1 & E).
  apply (number_eq _ _ _ _ _ (r_generation _ _ R)) in E1 as [? ?]. subst g tx0.
  apply M_bind_ok in E as (g' & tx0 & E1 & E). apply lift_ok in E1 as [E1 ->].
  destruct (checked_add _ _) as [g|] eqn:Eg; simplify_eq/=. apply checked_add_Some in Eg as [Eg Hg]. subst g'.
  unfold put_number, put_consumer in E. apply M_bind_ok in E as ([] & tx2 & [= <-] & E).
  apply M_bind_ok in E as (h & tx2 & E1 & E).
  eapply (number_eq _ _ (l_head L)) in E1 as [? ?]; [subst h tx2|].
  2:{ destruct (r_head _ _ R). split; [done|]. by seq_get. }
  apply M_bind_ok in E as (u & tx2 & [= <- <-] & E). apply M_bind_ok in E as (u & tx2 & E1 & E).
  apply lift_ok in E1 as [E1 ->].
  assert (u = l_uuid L).
  { unfold uuid_in in E1. revert E1. seq_get. rewrite (r_uuid _ _ R). by intros [= ->]. }
  subst u. m_inv. split_and!; try done.
  - constructor; try apply R.
    + destruct (r_head _ _ R). split; [done|]. by seq_get.
    + destruct (r_bytes _ _ R). split; [done|]. by seq_get.
    + destruct (r_floor _ _ R). split; [done|]. by seq_get.
    + split; [done|]. by seq_get.
    + seq_get. apply R.
    + intros k. simpl. rewrite t_get_insert. case_decide; subst; [by rewrite lookup_insert_eq|].
      rewrite lookup_insert_ne by done. apply R.
  - constructor; try done. by seq_get.
Qed.

(** ** Acknowledgement and removal *)

Definition set_acked (c : Consumer) (seq : N) : Consumer :=
  {| generation := generation c; acked_seq := seq; registered_at := registered_at c;
     active := active c; internal := internal c; needs_rebuild := needs_rebuild c |}.

(** A consumer entry may move forward, up to the head. *)
Lemma log_inv_update L name c c' : log_inv L → l_consumers L !! name = Some c →
  generation c' = generation c → acked_seq c <= acked_seq c' <= l_head L →
  (active c' = true → active c = true) →
  log_inv (set_consumers L (<[name := c']> (l_consumers L))).
Proof.
  intros I Hc Hg [Ha Hh] Hact. pose proof (i_active _ I _ _ Hc) as Hfl.
  constructor; simpl; change (l_head (set_consumers L _)) with (l_head L).
  - intros k d [[<- <-]|[_ ?]]%lookup_insert_Some; [done|by eapply (i_acked _ I)].
  - intros k d [[<- <-]|[_ ?]]%lookup_insert_Some Hd; [|by eapply (i_active _ I)].
    specialize (Hfl (Hact Hd)). lia.
  - intros k d [[<- <-]|[_ ?]]%lookup_insert_Some; [rewrite Hg|]; by eapply (i_generation _ I).
  - intros k k' d d' [[<- <-]|[_ ?]]%lookup_insert_Some [[<- <-]|[_ ?]]%lookup_insert_Some; try done;
      rewrite ?Hg; intros; by eapply (i_distinct _ I).
Qed.

Lemma log_inv_delete L name : log_inv L → log_inv (set_consumers L (delete name (l_consumers L))).
Proof.
  intros I. constructor; simpl; change (l_head (set_consumers L _)) with (l_head L).
  - intros k c [_ ?]%lookup_delete_Some. by eapply (i_acked _ I).
  - intros k c [_ ?]%lookup_delete_Some. by eapply (i_active _ I).
  - intros k c [_ ?]%lookup_delete_Some. by eapply (i_generation _ I).
  - intros k k' c c' [_ ?]%lookup_delete_Some [_ ?]%lookup_delete_Some. by eapply (i_distinct _ I).
Qed.

(** What a body without effects leaves: a log with the same changes, pruned at most. *)
Definition prepared (L : Log) (tx1 : Tx) (L1 : Log) : Prop :=
  repr tx1 L1 ∧ log_inv L1 ∧ continues L L1 ∧ l_head L1 = l_head L.

Lemma prepared_prune db L L0 tx0 tx1 :
  1 <= l_floor L → repr tx0 L0 → log_inv L0 → l_floor L0 = l_floor L → l_changes L0 = l_changes L →
  l_generation L0 = l_generation L → l_uuid L0 = l_uuid L → jframe db tx0 →
  prune_acked tx0 = Ok ((), tx1) →
  ∃ m, is_min L0 m ∧ prepared L tx1 (l_prune m L0) ∧ jframe db tx1.
Proof.
  intros Hlo R I Ef Ec Eg Eu F E.
  eapply wp_ok in E; [|eapply (wp_prune_acked _ _ (λ _ tx', ∃ m, is_min L0 m ∧
    repr tx' (l_prune m L0) ∧ jframe tx0 tx')); [done|by eauto]].
  destruct E as (m & Hm & R1 & F1). exists m. split_and!; [done| |by etrans]. split_and!.
  - done.
  - apply log_inv_prune; [done|apply R|done].
  - constructor; simpl; try lia; try done. exists []. rewrite app_nil_r, Ec, Ef. split; [lia|]. f_equal. lia.
  - rewrite l_prune_head by apply R. unfold l_head. by rewrite Ef, Ec.
Qed.

Lemma check_token_ok token uuid o c : check_token token uuid o = Ok c →
  o = Some c ∧ database_uuid token = uuid ∧ tk_generation token = generation c ∧
  active c = true ∧ needs_rebuild c = false.
Proof.
  unfold check_token. destruct o as [c'|]; cbn [ok_or rbind]; [|done].
  destruct (bool_decide_reflect (database_uuid token = uuid)); simpl; [|done].
  destruct (N.eqb_spec (tk_generation token) (generation c')); simpl; [|done].
  destruct (active c') eqn:Ha; simpl; [|done]. destruct (needs_rebuild c') eqn:Hn; [done|].
  intros [= <-]. done.
Qed.

Lemma ack_tx_spec token seq db L o es tx1 :
  repr db L → log_inv L → ack_tx token seq db = Ok ((o, es), tx1) →
  es = [] ∧ jframe db tx1 ∧ ∃ c m, l_consumers L !! tk_name token = Some c ∧
    check_token token (l_uuid L) (Some c) = Ok c ∧ acked_seq c <= seq <= l_head L ∧
    let L0 := set_consumers L (<[tk_name token := set_acked c seq]> (l_consumers L)) in
    is_min L0 m ∧ prepared L tx1 (l_prune m L0).
Proof.
  intros R I E. unfold ack_tx in E. m_inv. rewrite (uuid_in_ok _ L), (consumer_in_ok _ L) in * by done.
  repeat match goal with Hx : Ok _ = Ok _ |- _ => injection Hx as <- end.
  match goal with Hk : check_token _ _ _ = Ok ?c |- _ =>
    pose proof (check_token_ok _ _ _ _ Hk) as (Hc & _); rewrite Hc in Hk; rename Hk into Htok; rename c into cc end.
  match goal with Hn : number _ _ = _ |- _ => apply (number_eq _ _ _ _ _ (r_head _ _ R)) in Hn as [? ?]; subst end.
  destruct (N.ltb_spec seq (acked_seq cc)); cbn [orb] in E; [by m_inv|].
  destruct (N.ltb_spec (l_head L) seq); [by m_inv|]. unfold put_consumer in E. m_inv.
  match goal with Hp : prune_acked _ = Ok _ |- _ =>
    eapply (prepared_prune db L (set_consumers L (<[tk_name token := set_acked cc seq]> (l_consumers L))))
      in Hp as (m & Hm & Hprep & Hf) end; [|apply R|by apply repr_put_consumer|..|apply jframe_consumers]; try done.
  - split_and!; try done. exists cc, m. done.
  - by apply (log_inv_update L _ cc).
Qed.

Lemma unregister_tx_spec name db L o es tx1 :
  repr db L → log_inv L → unregister_tx name db = Ok ((o, es), tx1) →
  es = [] ∧ jframe db tx1 ∧ ∃ L1, prepared L tx1 L1.
Proof.
  intros R I E. unfold unregister_tx in E. m_inv. rewrite (consumer_in_ok _ L) in * by done.
  repeat match goal with Hx : Ok _ = Ok _ |- _ => injection Hx as <- end.
  destruct (is_internal _); m_inv.
  match goal with Hp : prune_acked _ = Ok _ |- _ =>
    eapply (prepared_prune db L (set_consumers L (delete name (l_consumers L))))
      in Hp as (m & Hm & Hprep & Hf) end; [|apply R| | | | | | |apply jframe_consumers]; try done.
  - split_and!; try done. by eexists.
  - destruct R. constructor; try done. intros k. simpl. rewrite t_get_remove.
    case_decide; subst; [by rewrite lookup_delete_eq|by rewrite lookup_delete_ne].
  - by apply log_inv_delete.
Qed.

Lemma disable_tx_spec db L o es tx1 :
  repr db L → log_inv L → disable_tx db = Ok ((o, es), tx1) →
  es = [] ∧ jframe db tx1 ∧ ∃ L1, prepared L tx1 L1.
Proof.
  intros R I E. unfold disable_tx in E. m_inv. rewrite (consumer_in_ok _ L) in * by done.
  repeat match goal with Hx : Ok _ = Ok _ |- _ => injection Hx as <- end.
  assert (Hid : prepared L db L) by (split_and!; [done..|apply continues_refl|done]).
  destruct (l_consumers L !! indexer) as [c|] eqn:Hc; [|m_inv; split_and!; [done..|by exists L]].
  destruct (internal c); [|m_inv; split_and!; [done..|by exists L]]. unfold put_consumer in *. m_inv.
  split_and!; [done|apply jframe_consumers|].
  exists (set_consumers L (<[indexer := expire c]> (l_consumers L))). split_and!.
  - by apply repr_put_consumer.
  - apply (log_inv_update L _ c); try done. split; [simpl; lia|]. exact (i_acked _ I _ _ Hc).
  - constructor; try done; simpl; try lia. exists []. rewrite app_nil_r, N.sub_diag, drop_0. split; [lia|done].
  - done.
Qed.

(** ** Reachable states *)

Definition journal_ok (db : Tx) (L : Log) : Prop := repr db L ∧ log_inv L.

(** A body that writes data: its effects are well formed, it leaves the log's own tables
    alone and there are sequence numbers left. *)
Definition data_body {A} (f : M (A * list ChangeKind)) (db : Tx) : Prop :=
  ∀ out es tx1, f db = Ok ((out, es), tx1) →
    Forall effect_ok es ∧ (∀ L, repr db L → repr tx1 L) ∧
    (∀ h, read_number db (lit "head") = Ok h → h + len es + 1 < U64).

(** A body is fine for the log when what it leaves is a log again. *)
Definition body_ok {A} (f : M (A * list ChangeKind)) (db : Tx) (L : Log) : Prop :=
  ∀ out es tx1, f db = Ok ((out, es), tx1) →
    Forall effect_ok es ∧ ∃ L1, journal_ok tx1 L1 ∧ continues L L1 ∧ l_head L1 + len es + 1 < U64.

Lemma data_body_ok {A} (f : M (A * list ChangeKind)) db L : journal_ok db L → data_body f db → body_ok f db L.
Proof.
  intros [R I] Hd out es tx1 E. destruct (Hd _ _ _ E) as (He & Hr & Hh). split; [done|]. exists L.
  split_and!; [split; [auto|done]|apply continues_refl|]. apply Hh.
  unfold read_number. by apply number_in_ok, R.
Qed.

(** A write commits everything its body did and logged, or nothing at all. *)
Lemma write_sink_spec {A} r commit (f : M (A * list ChangeKind)) db L res db' :
  journal_ok db L → body_ok f db L → write_with_sink r commit f db = (res, db') →
  match res with
  | Err _ => db' = db
  | Ok (out, _) => ∃ es tx1 L1 L', f db = Ok ((out, es), tx1) ∧ continues L L1 ∧
      wrote r es L1 tx1 db' L' ∧ continues L L'
  end.
Proof.
  intros [R I] Hb E. unfold write_with_sink in E.
  destruct (write_body r f db) as [[[out ev] db1]|e] eqn:Ew; [|by injection E as <- <-].
  destruct commit as [[]|e]; [|by injection E as <- <-]. injection E as <- <-.
  pose proof Ew as Ew'. unfold write_body in Ew'. apply M_bind_ok in Ew' as ([out1 es] & tx1 & Ef & _).
  destruct (Hb _ _ _ Ef) as (He & L1 & [R1 I1] & Hc & Hh).
  destruct (write_body_spec r f db out1 es tx1 L1 out ev db1 Ef R1 I1 He Hh Ew) as [-> [L' HL']].
  exists es, tx1, L1, L'. split_and!; try done. eapply continues_trans; [exact Hc|].
  eapply evolves_continues, HL'.
Qed.

(** One operation on the database. *)
Inductive jstep (db : Tx) : Tx → Prop :=
| step_write A r commit (f : M (A * list ChangeKind)) res db' :
    data_body f db → write_with_sink r commit f db = (res, db') → jstep db db'
| step_register r commit name int now res db' :
    register_journal_consumer r commit name int now db = (res, db') → jstep db db'
| step_ack r commit token seq res db' : ack r commit token seq db = (res, db') → jstep db db'
| step_unregister r commit name res db' :
    unregister_consumer r commit name db = (res, db') → jstep db db'
| step_disable r commit res db' : disable_index_consumer r commit db = (res, db') → jstep db db'
| step_resume r commit now res db' : resume_index_consumer r commit now db = (res, db') → jstep db db'.

Definition step_post (L : Log) (db' : Tx) : Prop := ∃ L', journal_ok db' L' ∧ continues L L'.

Lemma step_post_refl L db : journal_ok db L → step_post L db.
Proof. intros. exists L. split; [done|apply continues_refl]. Qed.

Lemma write_step {A} r commit (f : M (A * list ChangeKind)) db L res db' :
  journal_ok db L → body_ok f db L → write_with_sink r commit f db = (res, db') → step_post L db'.
Proof.
  intros HL Hb E. pose proof (write_sink_spec r commit f db L res db' HL Hb E) as Hw.
  destruct res as [[out ev]|e]; [|subst; by apply step_post_refl].
  destruct Hw as (es & tx1 & L1 & L' & _ & _ & HW & Hc). exists L'. split; [|done]. split; apply HW.
Qed.

Lemma no_effects_ok {A} (f : M (A * list ChangeKind)) db L : journal_ok db L →
  (∀ out es tx1, f db = Ok ((out, es), tx1) →
     es = [] ∧ ∃ L1, repr tx1 L1 ∧ log_inv L1 ∧ continues L L1 ∧ l_head L1 = l_head L) → body_ok f db L.
Proof.
  intros [R I] Hf out es tx1 E. destruct (Hf _ _ _ E) as (-> & L1 & R1 & I1 & Hc & Hh).
  split; [done|]. exists L1. split_and!; try done. rewrite len_nil, Hh. pose proof (r_high _ _ R). lia.
Qed.

Lemma register_body_ok name int now db L : journal_ok db L → body_ok (register_tx name int now) db L.
Proof.
  intros HL. apply no_effects_ok; [done|]. intros out es tx1 E. destruct HL as [R I].
  destruct (register_tx_spec _ _ _ _ _ _ _ _ R I E) as (-> & -> & R1 & _). split; [done|].
  exists (l_register L name int now). split_and!; [done|apply log_inv_register; [apply R|done]| |done].
  constructor; simpl; try lia; try done. exists []. rewrite app_nil_r, N.sub_diag, drop_0. split; [lia|done].
Qed.

Lemma register_step r commit name int now db L res db' : journal_ok db L →
  register_journal_consumer r commit name int now db = (res, db') → step_post L db'.
Proof.
  intros HL E. unfold register_journal_consumer in E.
  case_bool_decide; [injection E as <- <-; by apply step_post_refl|].
  destruct (write_with_sink _ _ _ _) as [res1 db1] eqn:Ew. injection E as <- <-.
  eapply write_step; [done| |exact Ew]. by apply register_body_ok.
Qed.

Lemma jstep_ok db db' L : journal_ok db L → jstep db db' → step_post L db'.
Proof.
  intros HL Hs. pose proof HL as [R I]. destruct Hs.
  - eapply write_step; [done| |done]. by apply data_body_ok.
  - by eapply register_step.
  - unfold ack in *. destruct (write_with_sink _ _ _ _) as [res1 db1] eqn:Ew. simplify_eq.
    eapply write_step; [done| |exact Ew]. apply no_effects_ok; [done|]. intros out es tx1 E.
    destruct (ack_tx_spec _ _ _ _ _ _ _ R I E) as (-> & _ & c & m & _ & _ & _ & _ & Hp). eauto.
  - unfold unregister_consumer in *. destruct (write_with_sink _ _ _ _) as [res1 db1] eqn:Ew. simplify_eq.
    eapply write_step; [done| |exact Ew]. apply no_effects_ok; [done|]. intros out es tx1 E.
    destruct (unregister_tx_spec _ _ _ _ _ _ R I E) as (-> & _ & Hp). eauto.
  - unfold disable_index_consumer in *. destruct (write_with_sink _ _ _ _) as [res1 db1] eqn:Ew. simplify_eq.
    eapply write_step; [done| |exact Ew]. apply no_effects_ok; [done|]. intros out es tx1 E.
    destruct (disable_tx_spec _ _ _ _ _ R I E) as (-> & _ & Hp). eauto.
  - unfold resume_index_consumer in *. destruct (let? _ := _ in _) as [[uuid existing]|]; simplify_eq;
      [|by apply step_post_refl].
    destruct (register_journal_consumer _ _ _ _ _ _) as [r1 db1] eqn:Er.
    assert (step_post L db1) by by eapply register_step.
    destruct existing as [c|]; simplify_eq; [|done].
    destruct (internal c && active c && negb (needs_rebuild c)); simplify_eq; [by apply step_post_refl|done].
Qed.

Lemma jsteps_ok db db' L : journal_ok db L → rtc jstep db db' → step_post L db'.
Proof.
  intros HL Hs. revert L HL. induction Hs as [db|db db1 db' Hs _ IH]; intros L HL; [by apply step_post_refl|].
  destruct (jstep_ok _ _ _ HL Hs) as (L1 & HL1 & C1). destruct (IH _ HL1) as (L2 & HL2 & C2).
  exists L2. split; [done|]. by eapply continues_trans.
Qed.

(** The log of a new database. *)
Definition empty_log (uuid : bytes) : Log :=
  {| l_floor := 1; l_changes := []; l_consumers := ∅; l_generation := 0; l_uuid := uuid |}.

Definition create (uuid : bytes) : M () := mark_adoption_due ;; initialize uuid.

Lemma create_ok uuid db : create uuid tx_new = Ok ((), db) → journal_ok db (empty_log uuid).
Proof.
  intros E. unfold create, mark_adoption_due, initialize in E. m_inv.
  cbn [SEQ tx_new]. rewrite t_get_new. cbn [SEQ set_SEQ].
  rewrite t_get_insert_ne, t_get_new by done. split.
  - constructor; try (split; [done|]; by seq_get); simpl.
    + by seq_get.
    + apply t_iter_new.
    + intros name. by rewrite lookup_empty, t_get_new.
    + done.
    + done.
    + constructor.
  - constructor; simpl; intros *; by rewrite lookup_empty.
Qed.

(** ** Reading *)

Fixpoint changes_from (n : N) (cs : list ChangeKind) : list Change :=
  match cs with [] => [] | c :: cs' => {| ch_seq := n; ch_kind := c |} :: changes_from (n + 1) cs' end.

(** What a reader at [after] is owed: the retained changes above it, in order. *)
Definition owed (L : Log) (after : N) : list Change :=
  changes_from (after + 1) (drop (N.to_nat (after + 1 - l_floor L)) (l_changes L)).

Lemma filter_all_above a n cs : a < n → filter (λ p, key_lt a p.1) (rows_from n cs) = rows_from n cs.
Proof.
  revert n. induction cs as [|c cs IH]; intros n Hn; simpl; [done|].
  rewrite filter_cons, decide_True, IH; [done|lia|]. by apply N.compare_lt_iff.
Qed.

Lemma filter_rows_from a n cs : n <= a + 1 →
  filter (λ p, key_lt a p.1) (rows_from n cs) = rows_from (a + 1) (drop (N.to_nat (a + 1 - n)) cs).
Proof.
  revert n. induction cs as [|c cs IH]; intros n Hn; simpl; [by rewrite drop_nil|].
  destruct (N.eq_dec n (a + 1)) as [->|Hne].
  - rewrite N.sub_diag. simpl. rewrite filter_cons, decide_True by (apply N.compare_lt_iff; simpl; lia).
    by rewrite filter_all_above by lia.
  - rewrite filter_cons, decide_False.
    + rewrite IH by lia. replace (N.to_nat (a + 1 - n)) with (S (N.to_nat (a + 1 - (n + 1)))) by lia. done.
    + unfold key_lt. simpl. rewrite N.compare_lt_iff. lia.
Qed.

Lemma take_rows_from k n cs : take k (rows_from n cs) = rows_from n (take k cs).
Proof. revert n cs. induction k as [|k IH]; intros n [|c cs]; simpl; try done. by rewrite IH. Qed.

Definition is_oom {A} (r : result A) : Prop := ∃ site n, r = Err (OutOfMemory site n).

Lemma read_rows_ok cs : ∀ n out, Forall change_ok cs →
  try_fold read_row out (rows_from n cs) = Ok (out ++ changes_from n cs) ∨
  is_oom (try_fold read_row out (rows_from n cs)).
Proof.
  induction cs as [|c cs IH]; intros n out Hok; simpl; [left; by rewrite app_nil_r|].
  apply Forall_cons in Hok as [(Hwf & Hfit & _) Hok]. unfold read_row at 1 3. simpl.
  destruct (decode_row_bytes c Hwf Hfit) as [->|[m ->]]; simpl; [|right; by eexists _, _].
  unfold push, reserve, refused. destruct (try_reserve _ _); simpl; [|right; by eexists _, _].
  destruct (IH (n + 1) (out ++ [{| ch_seq := n; ch_kind := c |}]) Hok) as [E|E]; [left|by right].
  by rewrite E, <-app_assoc.
Qed.

Lemma journal_read_ok token db L : repr db L →
  journal_read token db = rmap (λ _, ()) (check_token token (l_uuid L) (l_consumers L !! tk_name token)).
Proof.
  intros R. unfold journal_read. rewrite (uuid_in_ok _ L), (consumer_in_ok _ L) by done. simpl.
  by destruct (check_token _ _ _).
Qed.

Lemma read_number_ok db key n : has_number db key n → read_number db key = Ok n.
Proof. apply number_in_ok. Qed.

Lemma read_changes_spec token after limit db L : repr db L →
  read_changes token after limit db =
    (let? _ := check_token token (l_uuid L) (l_consumers L !! tk_name token) in
     if after <? l_floor L - 1 then Err ConsumerExpired
     else if l_head L <? after then Err (Validation (lit "sequence is ahead of journal"))
     else Ok (take limit (owed L after))) ∨ is_oom (read_changes token after limit db).
Proof.
  intros R. unfold read_changes. rewrite (journal_read_ok _ _ L) by done.
  destruct (check_token _ _ _) as [c|e]; cbn [rmap rbind]; [|by left].
  rewrite (read_number_ok _ _ _ (r_floor _ _ R)). cbn [rbind].
  destruct (N.ltb_spec after (l_floor L - 1)); [by left|].
  rewrite (read_number_ok _ _ _ (r_head _ _ R)). cbn [rbind].
  destruct (N.ltb_spec (l_head L) after); [by left|].
  unfold t_range_above. rewrite (r_rows _ _ R), filter_rows_from by lia.
  rewrite take_rows_from. unfold owed.
  set (cs := drop _ (l_changes L)).
  destruct (read_rows_ok (take limit cs) (after + 1) []) as [Er|Er].
  - apply Forall_take, Forall_drop, R.
  - left. rewrite Er. simpl. f_equal. clear. generalize (after + 1). revert limit.
    induction cs as [|c cs IH]; intros [|k] n; simpl; try done. by rewrite IH.
  - by right.
Qed.

Lemma owed_length L after : l_floor L <= after + 1 → after <= l_head L → 1 <= l_floor L →
  len (owed L after) = l_head L - after.
Proof.
  intros Hf Ha Hlo. unfold owed.
  assert (Hl : ∀ n cs, len (changes_from n cs) = len cs).
  { intros n cs. revert n. induction cs as [|c cs IH]; intros n; [done|]. cbn [changes_from].
    by rewrite !len_cons, IH. }
  rewrite Hl, len_drop. unfold l_head in *. lia.
Qed.

Lemma changes_from_lookup n cs i : changes_from n cs !! i =
  (λ c, {| ch_seq := n + N.of_nat i; ch_kind := c |}) <$> cs !! i.
Proof.
  revert n i. induction cs as [|c cs IH]; intros n [|i]; simpl; try done.
  - by rewrite N.add_0_r.
  - rewrite IH. destruct (cs !! i); simpl; [|done]. do 2 f_equal. lia.
Qed.

Lemma owed_lookup L after i : l_floor L <= after + 1 →
  owed L after !! i = (λ c, {| ch_seq := after + 1 + N.of_nat i; ch_kind := c |}) <$> change_at L (after + 1 + N.of_nat i).
Proof.
  intros Hf. unfold owed, change_at. rewrite changes_from_lookup, lookup_drop.
  destruct (N.leb_spec (l_floor L) (after + 1 + N.of_nat i)); [|lia].
  replace (N.to_nat (after + 1 + N.of_nat i - l_floor L)) with
    (N.to_nat (after + 1 - l_floor L) + i)%nat by lia. done.
Qed.

(** What a successful registration leaves under the name. *)
Lemma register_after r commit name int now db L tok db' : journal_ok db L →
  register_journal_consumer r commit name int now db = (Ok tok, db') →
  tok = {| database_uuid := l_uuid L; tk_name := name; tk_generation := l_generation L + 1 |} ∧
  ∃ L' c', journal_ok db' L' ∧ l_consumers L' !! name = Some c' ∧ generation c' = l_generation L + 1.
Proof.
  intros [R I] E. unfold register_journal_consumer in E. case_bool_decide; [done|].
  unfold write_with_sink in E. destruct (write_body r (register_tx name int now) db) as [[[t ev] db1]|] eqn:Eb;
    [|done]. destruct commit as [[]|]; [|done]. injection E as -> ->.
  pose proof Eb as Eb'. unfold write_body in Eb'. apply M_bind_ok in Eb' as ([t0 es] & tx1 & Ef & _).
  destruct (register_tx_spec _ _ _ _ _ _ _ _ R I Ef) as (-> & Ht & R1 & _).
  destruct (write_body_spec r _ db t0 [] tx1 _ tok ev db' Ef R1 (log_inv_register _ _ _ _ (r_low _ _ R) I)
    (Forall_nil_2 _)) as [-> [L' HL']]; [|done|].
  { change (l_head (l_register L name int now)) with (l_head L). pose proof (r_high _ _ R). rewrite len_nil. lia. }
  split; [done|]. pose proof (e_consumers _ _ (w_evolves _ _ _ _ _ _ HL') name) as Hf. simpl in Hf.
  rewrite lookup_insert_eq in Hf. inversion Hf as [? c' Hd He|]; subst.
  exists L', c'. split_and!; [split; apply HL'|done|].
  by destruct Hd as [->|[[_ ->]|[_ ->]]].
Qed.

Lemma stale_token token uuid c : tk_generation token < generation c →
  check_token token uuid (Some c) = Err ConsumerExpired.
Proof.
  intros Hg. unfold check_token. cbn [ok_or rbind].
  destruct (N.eqb_spec (tk_generation token) (generation c)); [lia|]. simpl. by rewrite orb_true_r.
Qed.
End journal_ops.

(** ** Which tables pruning removes

    The log removes a table only together with the row that names it as a snapshot.
    [sweep] says so of any part of a transaction that follows the append; it does not
    need the log to be well formed. *)

Section sweep.
Context `{Redb, Allocator, TextLib}
  {SPair : Serde (str * str)} {SIdx : Serde (str * N)} {SKeys : Serde (list bytes)}
  {SDefs : Serde (list Unique)} {SPath : Serde Path} {SRef : Serde BlobRef} {SCons : Serde Consumer}.

(** [name] is a table of the snapshot a row of the log names. *)
Definition names_table (row : bytes) (name : str) : Prop :=
  ∃ s, row_snapshot row = Ok (Some s) ∧ (name = s ∨ name = s ++ lit "_blobs").

Record sweep (tx tx' : Tx) : Prop := {
  s_id : ID_DEFS tx' = ID_DEFS tx;
  s_defs : UQ_DEFS tx' = UQ_DEFS tx;
  s_keys : UQ_KEYS tx' = UQ_KEYS tx;
  s_reverse : UQ_REVERSE tx' = UQ_REVERSE tx;
  s_refs : REFS tx' = REFS tx;
  s_reset : t_get (SEQ tx') (lit "reset_generation") = t_get (SEQ tx) (lit "reset_generation");
  s_sub : ∀ k row, t_get (CHANGES tx') k = Some row → t_get (CHANGES tx) k = Some row;
  s_rows : ∀ name, rows tx' name = rows tx name ∨
    ∃ k row, t_get (CHANGES tx) k = Some row ∧ t_get (CHANGES tx') k = None ∧ names_table row name;
}.

#[global] Instance sweep_refl : Reflexive sweep.
Proof. constructor; auto. Qed.
#[global] Instance sweep_trans : Transitive sweep.
Proof.
  intros x y z [A1 A2 A3 A4 A5 A6 A7 A8] [B1 B2 B3 B4 B5 B6 B7 B8]. constructor; try congruence; [auto|].
  intros name. destruct (A8 name) as [E|(k & row & ? & Hn & ?)], (B8 name) as [E'|(k' & row' & ? & ? & ?)].
  - left. congruence.
  - right. exists k', row'. auto.
  - right. exists k, row. split_and!; try done. destruct (t_get (CHANGES z) k) eqn:Ez; [|done].
    apply B7 in Ez. congruence.
  - right. exists k', row'. auto.
Qed.

Lemma sweep_number key n tx : key ≠ lit "reset_generation" →
  sweep tx (set_SEQ (t_insert (SEQ tx) key (be_bytes 8 n)) tx).
Proof. intros Hk. constructor; simpl; auto. by rewrite t_get_insert_ne. Qed.

Lemma sweep_consumers t tx : sweep tx (set_CONSUMERS t tx).
Proof. constructor; simpl; auto. Qed.

Lemma rows_delete name tx n : rows (set_user (delete name (user tx)) tx) n =
  if decide (name = n) then t_new else rows tx n.
Proof. unfold rows. simpl. rewrite lookup_delete. by case_decide. Qed.

(** One turn of [prune]'s loop. *)
Lemma sweep_row key row o tx : t_get (CHANGES tx) key = Some row → row_snapshot row = Ok o →
  let tx1 := set_CHANGES (t_remove (CHANGES tx) key) tx in
  sweep tx (match o with
            | Some s => set_user (delete (s ++ lit "_blobs") (delete s (user tx))) tx1
            | None => tx1
            end).
Proof.
  intros Hk Hs tx1. assert (Hsub : ∀ k v, t_get (t_remove (CHANGES tx) key) k = Some v → t_get (CHANGES tx) k = Some v).
  { intros k v. rewrite t_get_remove. by case_decide. }
  destruct o as [s|]; constructor; simpl; auto. intros name.
  destruct (decide (name = s ∨ name = s ++ lit "_blobs")) as [Hn|Hn].
  - right. exists key, row. rewrite t_get_remove_eq. split_and!; [done..|]. by exists s.
  - left. unfold rows. simpl. rewrite !lookup_delete_ne; [done|naive_solver..].
Qed.

Lemma first_get {K V} `{TotalOrder K} (t : table K V) k v : t_first t = Some (k, v) → t_get t k = Some v.
Proof. unfold t_first. intros E%head_Some_elem_of. by apply t_get_iter. Qed.

Lemma sweep_prune_loop fuel : ∀ through size tx n tx',
  prune_loop fuel through size tx = Ok (n, tx') → sweep tx tx'.
Proof.
  induction fuel as [|fuel IH]; intros through size tx n tx' E; cbn [prune_loop] in E; m_inv;
    destruct (t_first (CHANGES tx)) as [[key row]|] eqn:Ef; try (by m_inv);
    destruct (key <=? through); m_inv; try done.
  apply first_get in Ef. match goal with Hr : row_snapshot row = Ok ?o |- _ =>
    pose proof (sweep_row key row o tx Ef Hr) as Hw; destruct o as [s|] end;
    unfold delete_table in *; m_inv; (etrans; [exact Hw|by eapply IH]).
Qed.

Lemma number_same key tx n tx' : number key tx = Ok (n, tx') → tx' = tx.
Proof. unfold number. destruct (number_in _ _); simpl; congruence. Qed.

Lemma sweep_put_floor tx tx' : put_floor tx = Ok ((), tx') → sweep tx tx'.
Proof.
  unfold put_floor, put_number. intros E. m_inv.
  match goal with Hn : number _ _ = _ |- _ => apply number_same in Hn as -> end. by apply sweep_number.
Qed.

Lemma sweep_prune through tx tx' : prune through tx = Ok ((), tx') → sweep tx tx'.
Proof.
  unfold prune, put_number. intros E. m_inv.
  match goal with Hn : number _ _ = _ |- _ => apply number_same in Hn as -> end.
  match goal with Hp : prune_loop _ _ _ _ = _ |- _ => apply sweep_prune_loop in Hp; etrans; [exact Hp|] end.
  etrans; [by apply (sweep_number (lit "journal_bytes"))|]. by apply sweep_put_floor.
Qed.

Lemma consumers_same tx l tx' : consumers tx = Ok (l, tx') → tx' = tx.
Proof. unfold consumers. intros E. by m_inv. Qed.

Lemma sweep_prune_acked tx tx' : prune_acked tx = Ok ((), tx') → sweep tx tx'.
Proof.
  unfold prune_acked. intros E. m_inv.
  repeat match goal with
  | Hn : number _ _ = _ |- _ => apply number_same in Hn as ->
  | Hn : consumers _ = _ |- _ => apply consumers_same in Hn as ->
  end. by apply sweep_prune in E.
Qed.

Lemma sweep_enforce_loop fuel : ∀ max ev tx ev' tx', enforce_loop fuel max ev tx = Ok (ev', tx') → sweep tx tx'.
Proof.
  induction fuel as [|fuel IH]; intros max ev tx ev' tx' E; cbn [enforce_loop] in E;
    apply M_bind_ok in E as (n & tx1 & ->%number_same & E); destruct (n <=? max); try (by m_inv).
  apply M_bind_ok in E as ([] & tx1 & Hp%sweep_prune_acked & E).
  apply M_bind_ok in E as (n2 & tx2 & ->%number_same & E). destruct (n2 <=? max); [by m_inv|].
  apply M_bind_ok in E as (all & tx2 & ->%consumers_same & E).
  apply M_bind_ok in E as (h & tx2 & ->%number_same & E). etrans; [exact Hp|].
  destruct (min_by_generation _) as [[name oldest]|]; [|done]. unfold put_consumer in E.
  destruct (internal oldest); m_inv; (etrans; [apply sweep_consumers|by eapply IH]).
Qed.

Lemma sweep_enforce r tx ev tx' : enforce r tx = Ok (ev, tx') → sweep tx tx'.
Proof.
  unfold enforce. intros E. destruct (retention_max r); m_inv; [|done]. by eapply sweep_enforce_loop.
Qed.

(** ** The whole write *)

(** Rows, constraints and references pass through the append. *)
Record appended (tx tx' : Tx) : Prop := {
  a_id : ID_DEFS tx' = ID_DEFS tx;
  a_defs : UQ_DEFS tx' = UQ_DEFS tx;
  a_keys : UQ_KEYS tx' = UQ_KEYS tx;
  a_reverse : UQ_REVERSE tx' = UQ_REVERSE tx;
  a_refs : REFS tx' = REFS tx;
  a_reset : t_get (SEQ tx') (lit "reset_generation") = t_get (SEQ tx) (lit "reset_generation");
  a_rows : ∀ name, rows tx' name = rows tx name;
}.

Lemma append_all_appended es tx tx' : append_all es tx = Ok ((), tx') → appended tx tx'.
Proof.
  unfold append_all, put_number. intros E.
  apply M_bind_ok in E as (h & tx1 & ->%number_same & E).
  apply M_bind_ok in E as (n & tx1 & ->%number_same & E).
  apply M_bind_ok in E as ([] & tx1 & [(v & u & -> & Hr) _]%stamp_spec & E). m_inv.
  match goal with Hx : append_effects _ _ _ = Ok ?x |- _ => destruct x as [[? ?] ?]; clear Hx end. m_inv.
  constructor; simpl; try done. by rewrite !t_get_insert_ne.
Qed.

(** A committed write is its body, the two validations, the append and a sweep. *)
Lemma write_body_parts {A} r (f : M (A * list ChangeKind)) db out ev db' :
  write_body r f db = Ok ((out, ev), db') →
  ∃ es tx1 tx2 tx3 tx4, f db = Ok ((out, es), tx1) ∧ IdContract.validate es tx1 = Ok ((), tx2) ∧
    Unique.validate es tx2 = Ok ((), tx3) ∧ appended tx3 tx4 ∧ sweep tx4 db' ∧ append_all es tx3 = Ok ((), tx4).
Proof.
  unfold write_body. intros E. apply M_bind_ok in E as ([o es] & tx1 & E1 & E).
  apply M_bind_ok in E as ([] & tx2 & E2 & E). apply M_bind_ok in E as ([] & tx3 & E3 & E).
  apply M_bind_ok in E as ([] & tx4 & E4 & E). apply M_bind_ok in E as ([] & tx5 & E5 & E).
  apply M_bind_ok in E as (ev' & tx6 & E6 & [= <- <- <-]).
  exists es, tx1, tx2, tx3, tx4. split_and!; try done; [by apply append_all_appended in E4|].
  etrans; [by apply sweep_prune_acked|by eapply sweep_enforce].
Qed.
End sweep.
