(* ===== verification/Demo.v ===== *)
(** * A concrete setting for evaluated examples

    Serializers, an allocator that never refuses, a number reader, a new database and
    the same database with one consumer. *)
From S2P Require Import Prelude Order Redb Memory JournalCodec Fields OrderedCodec OrderedSpec Eval EvalSpec Samples Tx LastWrite IdContract Unique UniqueSpec JournalBlob Journal JournalSpec JournalOps.
Local Open Scope N_scope.

#[global] Instance Consumer_eq_dec : EqDecision Consumer.
Proof. solve_decision. Defined.
#[global] Instance BlobRef_eq_dec : EqDecision BlobRef.
Proof. solve_decision. Defined.
#[global] Instance Consumer_countable : Countable Consumer.
Proof.
  refine (inj_countable' (λ c, (generation c, acked_seq c, registered_at c, (active c, internal c, needs_rebuild c)))
    (λ p, {| generation := p.1.1.1; acked_seq := p.1.1.2; registered_at := p.1.2; active := p.2.1.1;
             internal := p.2.1.2; needs_rebuild := p.2.2 |}) _). by intros [].
Defined.
#[global] Instance BlobRef_countable : Countable BlobRef.
Proof.
  refine (inj_countable' (λ b, (b_id b, b_size b)) (λ p, {| b_id := p.1; b_size := p.2 |}) _). by intros [].
Defined.
#[global] Instance demo_text : TextLib := PlainText.plain_text.
#[global] Instance demo_alloc : Allocator := generous.
#[global] Instance demo_pair : Serde (str * str) := countable_serde.
#[global] Instance demo_idx : Serde (str * N) := closed_serde.
#[global] Instance demo_keys : Serde (list bytes) := countable_serde.
#[global] Instance demo_defs : Serde (list Unique) := countable_serde.
#[global] Instance demo_paths : Serde Path := countable_serde.
#[global] Instance demo_ref : Serde BlobRef := countable_serde.
#[global] Instance demo_consumer : Serde Consumer := countable_serde.

(** A new database. *)
Definition db0 : Tx := match create (lit "u") tx_new with Ok (_, db) => db | Err _ => tx_new end.
Lemma db0_created : create (lit "u") tx_new = Ok ((), db0).
Proof. vm_compute. reflexivity. Qed.
Lemma db0_ok : journal_ok db0 (empty_log (lit "u")).
Proof. apply create_ok, db0_created. Qed.

(** The same with one consumer. *)
Definition db1 : Tx :=
  match register_tx (lit "c") false 0 db0 with Ok (_, db) => db | Err _ => db0 end.
Definition tok : ConsumerToken := {| database_uuid := lit "u"; tk_name := lit "c"; tk_generation := 1 |}.
Definition L1 : Log := l_register (empty_log (lit "u")) (lit "c") false 0.
Lemma db1_ok : journal_ok db1 L1.
Proof.
  destruct db0_ok as [R I].
  assert (register_tx (lit "c") false 0 db0 = Ok ((tok, []), db1)) as E by (vm_compute; reflexivity).
  destruct (register_tx_spec _ _ _ _ _ _ _ _ R I E) as (_ & _ & R1 & _). split; [done|].
  apply log_inv_register; [apply R|done].
Qed.

(** A body that stores one row. *)
Definition store_row (t k : str) (v : bytes) : M (() * list ChangeKind) :=
  put_row t k v ;; mret ((), [Upsert t k v]).
Lemma store_row_body t k v db : utf8_valid t = true → utf8_valid k = true →
  read_number db (lit "head") = Ok 0 → data_body (store_row t k v) db.
Proof.
  intros Ht Hk Hh out es tx1 E. injection E as _ <- <-. split_and!.
  - repeat constructor; done.
  - intros L. by apply repr_ext.
  - intros h Eh. rewrite Hh in Eh. injection Eh as <-. done.
Qed.
