(* ===== verification/JournalProps.v ===== *)
(** * What the change log guarantees

    The properties of [journal.rs] as one theorem each, with concrete witnesses
    on the list database of [Redb]. *)
From S2P Require Import Prelude Order Redb Memory JournalCodec Fields OrderedCodec OrderedSpec Eval EvalSpec Samples Tx LastWrite IdContract Unique UniqueSpec JournalBlob Journal JournalSpec JournalOps Demo.
Local Open Scope N_scope.

Section properties.
Context `{Redb, Allocator, TextLib}
  {SPair : Serde (str * str)} {SIdx : Serde (str * N)} {SKeys : Serde (list bytes)}
  {SDefs : Serde (list Unique)} {SPath : Serde Path} {SRef : Serde BlobRef} {SCons : Serde Consumer}.

(** C3: every state a database reaches from its creation holds a well-formed log: the
  retained rows are numbered without gaps from the floor to the head, the byte count is
  their exact size, every row decodes, generations are distinct, and no active consumer
  has an unread change below the floor. *)
Theorem journal_reachable_ok uuid db0 db :
create uuid tx_new = Ok ((), db0) → rtc jstep db0 db → ∃ L, repr db L ∧ log_inv L.
Proof.
intros Hc Hs. destruct (jsteps_ok _ _ _ (create_ok _ _ Hc) Hs) as (L & HL & _). by exists L.
Qed.

(** The log is append-only.  Whatever operations run in between, a sequence number
  that was written and is still retained holds the change it was written with, and
  nothing written is renumbered. *)
Lemma journal_append_only db db' L :
repr db L → log_inv L → rtc jstep db db' →
∃ L', repr db' L' ∧ l_head L <= l_head L' ∧ l_floor L <= l_floor L' ∧
  ∀ s c, s <= l_head L → change_at L' s = Some c → change_at L s = Some c.
Proof.
intros R I Hs. destruct (jsteps_ok _ _ _ (conj R I) Hs) as (L' & [R' I'] & Hc). exists L'.
pose proof (r_low _ _ R). pose proof Hc as [Hf _ _ (es & Hb & Hd)]. split_and!; try done.
- unfold l_head. rewrite Hd, len_drop. rewrite len_app in *. lia.
- intros s c. by apply continues_at.
Qed.

(** C5: a write transaction is all or nothing.  On an error, of its body, of a
  constraint, of the log or of the commit, the database is what it was.  On success the
  log is the old one followed by the body's effects in order, minus a prefix no active
  consumer still needs, within the retention budget; rows and references are the ones
  the body left, and [__lastwrite] holds the sequence of each row's last change. *)
Theorem write_all_or_nothing {A} r commit (f : M (A * list ChangeKind)) db L res db' :
repr db L → log_inv L → data_body f db → write_with_sink r commit f db = (res, db') →
match res with
| Err _ => db' = db
| Ok (out, _) => ∃ es tx1 L', f db = Ok ((out, es), tx1) ∧
    repr db' L' ∧ log_inv L' ∧ l_head L' = l_head L + len es ∧
    l_changes L' = drop (N.to_nat (l_floor L' - l_floor L)) (l_changes L ++ es) ∧
    fits r (l_bytes L') ∧
    (∀ name, starts_with name (lit "__") = false → rows db' name = rows tx1 name) ∧
    REFS db' = REFS tx1 ∧
    ∀ t k, LastWrite.get db' t k =
      last_write (has_row tx1 t k) t k (LastWrite.get tx1 t k) (numbered (l_head L + 1) es)
end.
Proof.
intros R I Hd E. unfold write_with_sink in E.
destruct (write_body r f db) as [[[out ev] db1]|e] eqn:Ew; [|by injection E as <- <-].
destruct commit as [[]|e]; [|by injection E as <- <-]. injection E as <- <-.
pose proof Ew as Ew'. unfold write_body in Ew'. apply M_bind_ok in Ew' as ([out1 es] & tx1 & Ef & _).
destruct (Hd _ _ _ Ef) as (He & Hr & Hh).
specialize (Hh _ (read_number_ok _ _ _ (r_head _ _ R))).
destruct (write_body_spec r f db out1 es tx1 L out ev db1 Ef (Hr _ R) I He Hh Ew) as [-> [L' []]].
exists es, tx1, L'. split_and!; try done.
- rewrite (e_head _ _ w_evolves) by apply R. unfold l_head. simpl. rewrite len_app. pose proof (r_low _ _ R). lia.
- apply (e_changes _ _ w_evolves).
Qed.

(** C4: an active consumer that need not rebuild can always read on from its
  acknowledged sequence: it gets every change after [after], in order and without gaps,
  up to its limit; the log never expired it silently. *)
Theorem consumer_reads_all token c after limit db L :
repr db L → log_inv L →
check_token token (l_uuid L) (l_consumers L !! tk_name token) = Ok c →
acked_seq c <= after <= l_head L →
(read_changes token after limit db = Ok (take limit (owed L after)) ∨
 is_oom (read_changes token after limit db)) ∧
len (owed L after) = l_head L - after ∧
∀ i, owed L after !! i = (λ k, {| ch_seq := after + 1 + N.of_nat i; ch_kind := k |})
                           <$> change_at L (after + 1 + N.of_nat i).
Proof.
intros R I Ht [Ha Hh]. pose proof (check_token_ok _ _ _ _ Ht) as (Hc & _ & _ & Hact & _).
pose proof (i_active _ I _ _ Hc Hact) as Hfl. split_and!.
- destruct (read_changes_spec token after limit db L R) as [E|E]; [left|by right].
  rewrite E, Ht. cbn [rbind]. destruct (N.ltb_spec after (l_floor L - 1)); [lia|].
  by destruct (N.ltb_spec (l_head L) after); [lia|].
- apply owed_length; [lia|done|apply R].
- intros i. apply owed_lookup. lia.
Qed.

(** C34: the size budget always ends with a log inside it.  On a well-formed log
  [enforce] answers, unless memory is refused, after at most one round per consumer;
  the result is a well-formed log of at most the budget that lost only its oldest
  changes, and a consumer it cut off is expired, or, for an index, told to rebuild. *)
Theorem enforce_terminates r tx L :
repr tx L → log_inv L →
wp (enforce r) (λ _ tx', ∃ L', repr tx' L' ∧ log_inv L' ∧ evolves L L' ∧ jframe tx tx' ∧ fits r (l_bytes L')) tx.
Proof. intros R I. eapply wp_enforce; [done..|]. eauto 8. Qed.

(** Registering a name again cuts off every token handed out before: reading and
  acknowledging with one answers [ConsumerExpired] and changes nothing. *)
Lemma stale_token_refused r commit name int now db L tok db' token after limit seq r' commit' :
repr db L → log_inv L →
register_journal_consumer r commit name int now db = (Ok tok, db') →
tk_name token = name → tk_generation token <= l_generation L →
tk_generation token < tk_generation tok ∧
read_changes token after limit db' = Err ConsumerExpired ∧
ack r' commit' token seq db' = (Err ConsumerExpired, db').
Proof.
intros R I E Hn Hg.
destruct (register_after _ _ _ _ _ _ _ _ _ (conj R I) E) as (-> & L' & c' & [R' I'] & Hc & Hgen).
assert (Hstale : ∀ uuid, check_token token uuid (l_consumers L' !! tk_name token) = Err ConsumerExpired).
{ intros uuid. rewrite Hn, Hc. apply stale_token. lia. }
split_and!; [simpl; lia| |].
- destruct (read_changes_spec token after limit db' L' R') as [Er|(site & n & Er)].
  + by rewrite Er, Hstale.
  + unfold read_changes in Er. by rewrite (journal_read_ok _ _ L'), Hstale in Er.
- unfold ack, write_with_sink, write_body, ack_tx, mbind, M_bind, gets, lift. cbn [rbind].
  rewrite (uuid_in_ok _ L') by done. cbn [rmap rbind]. rewrite (consumer_in_ok _ L') by done.
  cbn [rmap rbind]. by rewrite Hstale.
Qed.
End properties.

(** ** Witnesses *)

Lemma journal_reachable_ok_witness :
  ∃ db L, rtc jstep db0 db ∧ db ≠ db0 ∧ repr db L ∧ log_inv L.
Proof.
  set (step := register_journal_consumer RDefault (Ok ()) (lit "c") false 0 db0).
  assert (Hs : rtc jstep db0 step.2).
  { eapply rtc_once, step_register. apply surjective_pairing. }
  destruct (journal_reachable_ok (lit "u") db0 step.2 db0_created Hs) as (L & R & I).
  exists step.2, L. split; [exact Hs|]. split; [|split; assumption].
  intros E. apply (f_equal (λ d, length (t_iter (CONSUMERS d)))) in E. vm_compute in E. discriminate E.
Defined.

Lemma journal_append_only_example :
  ∃ db' L', rtc jstep db1 db' ∧ repr db' L' ∧ l_head L1 <= l_head L' ∧ l_floor L1 <= l_floor L' ∧
    ∀ s c, s <= l_head L1 → change_at L' s = Some c → change_at L1 s = Some c.
Proof.
  set (step := ack RDefault (Ok ()) tok 0 db1).
  assert (Hs : rtc jstep db1 step.2).
  { eapply rtc_once, step_ack. apply surjective_pairing. }
  destruct (journal_append_only db1 step.2 L1 (proj1 db1_ok) (proj2 db1_ok) Hs) as (L' & HL).
  exists step.2, L'. split; [exact Hs|exact HL].
Defined.

Lemma write_all_or_nothing_witness :
  ∃ ev db' L', write_with_sink RDefault (Ok ()) (store_row (lit "notes") (lit "a") (lit "v")) db1 = (Ok ((), ev), db') ∧
    repr db' L' ∧ l_head L' = 1.
Proof.
  destruct (write_with_sink RDefault (Ok ()) (store_row (lit "notes") (lit "a") (lit "v")) db1) as [res db'] eqn:E.
  assert (Hres : match res with Ok _ => True | Err _ => False end).
  { change res with (fst (res, db')). rewrite <-E. vm_compute. exact I. }
  assert (Hd : data_body (store_row (lit "notes") (lit "a") (lit "v")) db1)
    by (apply store_row_body; vm_compute; reflexivity).
  pose proof (write_all_or_nothing _ _ _ _ L1 res db' (proj1 db1_ok) (proj2 db1_ok) Hd E) as Hw.
  destruct res as [[[] ev]|]; [|destruct Hres].
  destruct Hw as (es & tx1 & L' & Ef & R' & _ & Hh & _). exists ev, db', L'.
  split; [reflexivity|]. split; [exact R'|]. rewrite Hh. injection Ef as <- <-. vm_compute. reflexivity.
Defined.

Lemma consumer_reads_all_witness :
  read_changes tok 0 10 db1 = Ok (take 10 (owed L1 0)) ∨ is_oom (read_changes tok 0 10 db1).
Proof.
  refine (proj1 (consumer_reads_all tok (fresh_consumer (empty_log (lit "u")) false 0) 0 10 db1 L1
    (proj1 db1_ok) (proj2 db1_ok) _ _)); [vm_compute; reflexivity|split; vm_compute; discriminate].
Defined.

Lemma enforce_terminates_witness :
  wp (enforce (Limit 0)) (λ _ tx', ∃ L', repr tx' L' ∧ log_inv L' ∧ evolves L1 L' ∧ jframe db1 tx' ∧
    fits (Limit 0) (l_bytes L')) db1.
Proof. exact (enforce_terminates (Limit 0) db1 L1 (proj1 db1_ok) (proj2 db1_ok)). Defined.

Lemma stale_token_refused_example :
  ∃ tok' db', register_journal_consumer RDefault (Ok ()) (lit "c") false 1 db1 = (Ok tok', db') ∧
    read_changes tok 0 10 db' = Err ConsumerExpired.
Proof.
  destruct (register_journal_consumer RDefault (Ok ()) (lit "c") false 1 db1) as [res db'] eqn:E.
  assert (Hres : match res with Ok _ => True | Err _ => False end).
  { change res with (fst (res, db')). rewrite <-E. vm_compute. exact I. }
  destruct res as [tok'|]; [|destruct Hres]. exists tok', db'. split; [reflexivity|].
  refine (proj1 (proj2 (stale_token_refused _ _ _ _ _ db1 L1 tok' db' tok 0 10 0 RDefault (Ok ())
    (proj1 db1_ok) (proj2 db1_ok) E _ _))); [reflexivity|vm_compute; discriminate].
Defined.
