(* ===== verification/Repository.v ===== *)
(** * The database manager ([repository.rs], with the attachment writes of
    [journal_blob.rs])

    [Config] is how a database was opened; [Manager] is what changes: the primary file
    as its last commit left it, whether it is open, and the value cache.  Every write
    goes through [write_with_sink] of [Journal]; the cache is touched after the commit.

    What the code asks of the operating system is the class [Host]: whether a commit
    succeeds, how long an attachment file is, and the size the compiler gave to a
    [ChangeKind].  moka may drop cache entries at any time; that is [evict]. *)
From S2P Require Import Prelude Order Redb Memory JournalCodec Fields OrderedCodec Eval Tx LastWrite IdContract Unique JournalBlob Journal.

(** [metadata::types::TableStorageMode]. *)
Inductive TableStorageMode := InlineJson | BlobSidecar.
#[global] Instance TableStorageMode_eq_dec : EqDecision TableStorageMode.
Proof. solve_decision. Defined.

Record Config := {
  db_path : str;
  has_cache : bool;
  journal_retention : Retention;
  max_commit_batch_entries : nat;
  blob_store : bool;                       (* [Some] when attachments are enabled *)
  table_storage : gmap str TableStorageMode;
  sealed_tables : gset str;
  search_only : bool;                      (* the program holds only the search key *)
}.

(** A raw write [(table, key, value)] and a delete [(table, key)]. *)
Definition Write : Type := str * str * bytes.
Definition Del : Type := str * str.

(** [PreparedRow]: [origin] is the identity of the opening it was made for. *)
Record PreparedRow := { pr_table : str; pr_key : str; pr_bytes : bytes; pr_origin : N }.

Definition table_storage_mode (c : Config) (t : str) : TableStorageMode :=
  default InlineJson (table_storage c !! t).
Definition is_blob_table (c : Config) (t : str) : bool :=
  bool_decide (table_storage_mode c t = BlobSidecar).

(** [format!("{table}:{key}")]. *)
Definition cache_key (t k : str) : str := t ++ lit ":" ++ k.

(** [format!("__reset_{generation}")] and its companion. *)
Definition snapshot_name (generation : N) : str := lit "__reset_" ++ dec generation.
Definition snapshot_blobs (s : str) : str := s ++ lit "_blobs".

Section manager.
Context `{Redb}.

Record Manager := { m_db : Tx; m_open : bool; m_origin : N; m_cache : gmap str bytes }.

Definition set_db (d : Tx) (m : Manager) : Manager :=
  {| m_db := d; m_open := m_open m; m_origin := m_origin m; m_cache := m_cache m |}.
Definition set_cache (x : gmap str bytes) (m : Manager) : Manager :=
  {| m_db := m_db m; m_open := m_open m; m_origin := m_origin m; m_cache := x |}.
End manager.

(** What the code asks of the system. *)
Class Host `{Redb} := {
  commit_answer : Tx → result ();                      (* [tx.commit()] of the write begun there *)
  blob_file_len : str → str → str → result N;          (* [open_read_row(..)?.len()?] *)
  change_kind_size : N;                                (* [size_of::<ChangeKind>()] *)
}.

Section repository.
Context `{Redb, Allocator, TextLib}
  {SPair : Serde (str * str)} {SIdx : Serde (str * N)} {SKeys : Serde (list bytes)}
  {SDefs : Serde (list Unique)} {SPath : Serde Path} {SRef : Serde BlobRef} {SCons : Serde Consumer}
  `{!Host} (c : Config).

(** [self.db()]. *)
Definition get_db (m : Manager) : result Tx :=
  if m_open m then Ok (m_db m) else Err (Closed (db_path c)).

Definition close (m : Manager) : bool * Manager :=
  (m_open m, {| m_db := m_db m; m_open := false; m_origin := m_origin m; m_cache := m_cache m |}).
Definition is_closed (m : Manager) : bool := negb (m_open m).

Definition ensure_writable : result () :=
  if search_only c
  then Err (Validation (lit "this program holds only the search key, so the database is read-only; open it with the read key to write"))
  else Ok ().

Definition refuse_sealed (tables : list str) : result () :=
  if existsb (λ t, bool_decide (t ∈ sealed_tables c)) tables
  then Err (Validation (lit "a table with protected fields is written through its entity (`Repository::set` or `commit_entities`), not with raw bytes"))
  else Ok ().

(** ** Attachments *)

Definition bad_component (s : str) : bool :=
  bool_decide (s = []) || existsb (λ b, bool_decide (b ∈ [Byte.x2f; Byte.x5c; Byte.x3a])) s
  || bool_decide (s = lit "..") || bool_decide (s = lit ".").

(** [open_blob_version_row(table, row, id)?.len()?]. *)
Definition open_blob_version_row (table row blob_id : str) : result N :=
  if bad_component table || bad_component blob_id
  then Err (Validation (lit "invalid blob path component"))
  else if blob_store c then blob_file_len table row blob_id
  else Err (Validation (lit "blob storage not enabled on this database")).

(** [prepare_blob]: [id] is the fresh name [__v_<uuid>] and [stored] the answer of
    writing the file. *)
Definition prepare_blob (table : str) (content : bytes) (id : str) (stored : result ()) : result BlobRef :=
  check? validate_table table in
  if bad_component table then Err (Validation (lit "invalid blob table path"))
  else if negb (is_blob_table c table) then Err (Validation (lit "not a blob table"))
  else if blob_store c then
    check? stored in Ok {| b_id := id; b_size := len content |}
  else Err (Validation (lit "blob storage not enabled on this database")).

(** Every row of an attachments table has its file; a reference without a row goes. *)
Definition check_blob_row (table k : str) : M () :=
  r ← JournalBlob.get table k;
  r ← lift (ok_or r (Validation (lit "blob metadata has no immutable file")));
  n ← lift (open_blob_version_row table k (b_id r));
  if (n =? b_size r)%N then mret () else fail (Validation (lit "blob size differs from reference")).

Fixpoint drop_orphans (table : str) (rows : Redb.table str bytes) (keys : list (str * str))
    (changes : list ChangeKind) : M (list ChangeKind) :=
  match keys with
  | [] => mret changes
  | (t, k) :: keys' =>
      if bool_decide (t = table) && bool_decide (t_get rows k = None) then
        e ← JournalBlob.remove table k;
        drop_orphans table rows keys' (changes ++ option_list e)
      else drop_orphans table rows keys' changes
  end.

Definition validate_blob_rows (table : str) (changes : list ChangeKind) : M (list ChangeKind) :=
  if negb (is_blob_table c table) then mret changes else
  rows ← open_table table;
  for_each (t_iter rows) (λ p, check_blob_row table p.1) ;;
  refs ← gets REFS;
  keys ← lift (traverse (λ p, from_slice (A := str * str) p.1) (t_iter refs));
  drop_orphans table rows keys changes.

(** ** Row changes *)

Fixpoint write_rows (writes : list Write) (changes : list ChangeKind) : M (list ChangeKind) :=
  match writes with
  | [] => mret changes
  | (table, key, value) :: writes' =>
      (if is_blob_table c table then
         r ← JournalBlob.get table key;
         match r with
         | None => fail (Validation (lit "blob metadata requires set_with_blob or a previously written blob"))
         | Some _ => mret ()
         end
       else mret ()) ;;
      copy ← lift (copy_bytes (lit "write.change_rows") value);
      put_row table key value ;;
      write_rows writes' (changes ++ [Upsert table key copy])
  end.

Fixpoint delete_rows (deletes : list Del) (removed : list bool) (changes : list ChangeKind) :
    M (list bool * list ChangeKind) :=
  match deletes with
  | [] => mret (removed, changes)
  | (table, key) :: deletes' =>
      rows ← open_table table;
      remove_row table key ;;
      let existed := bool_decide (is_Some (t_get rows key)) in
      let changes := changes ++ (if existed then [Delete table key] else []) in
      blob ← (if is_blob_table c table then JournalBlob.remove table key else mret None);
      delete_rows deletes' (removed ++ [existed || bool_decide (is_Some blob)])
        (changes ++ option_list blob)
  end.

(** The transaction of [apply_changes]. *)
Definition change_rows (writes : list Write) (deletes : list Del) : M (list bool * list ChangeKind) :=
  lift (reserve (lit "write.change_rows") (len writes + len deletes) change_kind_size) ;;
  changes ← write_rows writes [];
  delete_rows deletes [] changes.

Definition write_table (w : Write) : str := w.1.1.
Definition del_table (d : Del) : str := d.1.

Definition validate_tables (tables : list str) : result () :=
  rmap (λ _, ()) (traverse validate_table tables).

(** [cache_after_raw_write] for one row. *)
Definition cache_put (t k : str) (v : bytes) (x : gmap str bytes) : gmap str bytes :=
  if has_cache c then <[cache_key t k := v]> x else x.
Definition cache_drop (t k : str) (x : gmap str bytes) : gmap str bytes :=
  if has_cache c then delete (cache_key t k) x else x.
Definition cache_after_raw_write (t : str) (rows : list (str * bytes)) (x : gmap str bytes) : gmap str bytes :=
  fold_left (λ x p, cache_put t p.1 p.2 x) rows x.
Definition clear_cache (x : gmap str bytes) : gmap str bytes := if has_cache c then ∅ else x.

Definition cache_changes (writes : list Write) (deletes : list Del) (x : gmap str bytes) : gmap str bytes :=
  fold_left (λ x d, cache_drop d.1 d.2 x) deletes
    (fold_left (λ x w, cache_after_raw_write w.1.1 [(w.1.2, w.2)] x) writes x).

(** A write transaction of this database; the events go to the sink. *)
Definition journal_write {A} (f : M (A * list ChangeKind)) (m : Manager) : result A * Manager :=
  match get_db m with
  | Err e => (Err e, m)
  | Ok db =>
      let '(r, db') := write_with_sink (journal_retention c) (commit_answer db) f db in
      (rmap fst r, set_db db' m)
  end.

Definition apply_changes (writes : list Write) (deletes : list Del) (m : Manager) : result (list bool) * Manager :=
  match (check? validate_tables ((write_table <$> writes) ++ (del_table <$> deletes)) in
         check? get_db m in ensure_writable) with
  | Err e => (Err e, m)
  | Ok _ =>
      match journal_write (change_rows writes deletes) m with
      | (Err e, m') => (Err e, m')
      | (Ok removed, m') => (Ok removed, set_cache (cache_changes writes deletes (m_cache m')) m')
      end
  end.

Definition unit_answer {A} (p : result A * Manager) : result () * Manager := (rmap (λ _, ()) p.1, p.2).

Definition commit_batch_atomic (writes : list Write) (deletes : list Del) (m : Manager) : result () * Manager :=
  match refuse_sealed (write_table <$> writes) with
  | Err e => (Err e, m)
  | Ok _ => unit_answer (apply_changes writes deletes m)
  end.

Definition prepared_write (m : Manager) (row : PreparedRow) : result Write :=
  if negb (pr_origin row =? m_origin m)%N
  then Err (Validation (lit "a prepared row of table '" ++ pr_table row ++ lit "' was made for another database"))
  else if is_blob_table c (pr_table row)
  then Err (Validation (lit "table '" ++ pr_table row ++ lit "' keeps attachments: a prepared row cannot be written to it (use `set_with_blob`)"))
  else Ok (pr_table row, pr_key row, pr_bytes row).

Definition commit_atomic (prepared : list PreparedRow) (writes : list Write) (deletes : list Del) (m : Manager) :
    result () * Manager :=
  match (check? refuse_sealed (write_table <$> writes) in traverse (prepared_write m) prepared) with
  | Err e => (Err e, m)
  | Ok rows => unit_answer (apply_changes (rows ++ writes) deletes m)
  end.

(** ** Batches *)

Definition commit_batch_chunk (writes : list Write) (deletes : list Del) (m : Manager) : result () * Manager :=
  unit_answer (apply_changes writes deletes m).

(** [while offset < len { end = min(offset + limit, len); chunk(items[offset..end])?; offset = end }];
    with a limit of zero the source does not advance, and neither does this. *)
Fixpoint chunk_loop {A} (fuel : nat) (limit offset : nat) (items : list A)
    (chunk : list A → Manager → result () * Manager) (m : Manager) : result () * Manager :=
  if (offset <? length items)%nat then
    match fuel with
    | O => (Err FuelExhausted, m)
    | S fuel' =>
        let end_ := Nat.min (offset + limit) (length items) in
        match chunk (take (end_ - offset) (drop offset items)) m with
        | (Err e, m') => (Err e, m')
        | (Ok _, m') => chunk_loop fuel' limit end_ items chunk m'
        end
    end
  else (Ok (), m).

Definition commit_batch_prepared (writes : list Write) (deletes : list Del) (m : Manager) : result () * Manager :=
  let limit := max_commit_batch_entries c in
  if (limit <? length writes + length deletes)%nat then
    match chunk_loop (length writes) limit 0 writes (λ ws, commit_batch_chunk ws []) m with
    | (Err e, m') => (Err e, m')
    | (Ok _, m') => chunk_loop (length deletes) limit 0 deletes (commit_batch_chunk []) m'
    end
  else commit_batch_chunk writes deletes m.

Definition commit_batch (writes : list Write) (deletes : list Del) (m : Manager) : result () * Manager :=
  match refuse_sealed (write_table <$> writes) with
  | Err e => (Err e, m)
  | Ok _ => commit_batch_prepared writes deletes m
  end.

(** ** Whole-table writes *)

(** An immutable image of [table] and of its references, named by a fresh generation. *)
Definition capture_reset (table : str) (changes : list ChangeKind) : M (list ChangeKind) :=
  g ← number (lit "reset_generation");
  g ← lift (ok_or (checked_add g 1) (Validation (lit "reset generation exhausted")));
  put_number (lit "reset_generation") g ;;
  let snapshot := snapshot_name g in
  source ← open_table table;
  open_table snapshot ;;
  for_each (t_iter source) (λ p, put_row snapshot p.1 p.2) ;;
  refs ← gets REFS;
  open_table (snapshot_blobs snapshot) ;;
  for_each (t_iter refs) (λ p,
    tk ← lift (from_slice (A := str * str) p.1);
    if bool_decide (tk.1 = table) then put_row (snapshot_blobs snapshot) p.1 p.2 else mret ()) ;;
  mret (changes ++ [TableReset table snapshot]).

Definition replace_rows (table : str) (entries : list (str * bytes)) : M (() * list ChangeKind) :=
  delete_table table ;;
  open_table table ;;
  for_each entries (λ p, put_row table p.1 p.2) ;;
  changes ← validate_blob_rows table [];
  changes ← capture_reset table changes;
  mret ((), changes).

Definition replace_table (table : str) (entries : list (str * bytes)) (m : Manager) : result () * Manager :=
  match (check? refuse_sealed [table] in check? ensure_writable in validate_table table) with
  | Err e => (Err e, m)
  | Ok _ =>
      match journal_write (replace_rows table entries) m with
      | (Err e, m') => (Err e, m')
      | (Ok _, m') => (Ok (), set_cache (clear_cache (m_cache m')) m')
      end
  end.

Fixpoint delete_silent (deletes : list Del) (changes : list ChangeKind) : M (list ChangeKind) :=
  match deletes with
  | [] => mret changes
  | (table, key) :: deletes' =>
      remove_row table key ;;
      blob ← (if is_blob_table c table then JournalBlob.remove table key else mret None);
      delete_silent deletes' (changes ++ option_list blob)
  end.

Fixpoint put_blobs (prepared : list (str * str * BlobRef)) (changes : list ChangeKind) : M (list ChangeKind) :=
  match prepared with
  | [] => mret changes
  | (t, k, r) :: prepared' =>
      e ← JournalBlob.put t k r;
      put_blobs prepared' (changes ++ [e])
  end.

Fixpoint reset_each (tables : list str) (changes : list ChangeKind) : M (list ChangeKind) :=
  match tables with
  | [] => mret changes
  | t :: tables' =>
      changes ← validate_blob_rows t changes;
      changes ← capture_reset t changes;
      reset_each tables' changes
  end.

Definition rewrite_rows (tables : list str) (writes : list Write) (deletes : list Del)
    (prepared : list (str * str * BlobRef)) : M (() * list ChangeKind) :=
  changes ← delete_silent deletes [];
  changes ← put_blobs prepared changes;
  for_each writes (λ w, put_row w.1.1 w.1.2 w.2) ;;
  changes ← reset_each tables changes;
  mret ((), changes).

(** [rewrite_tables_with_blobs], with the references its [prepare_*] calls answered. *)
Definition rewrite_tables_with_blobs (writes : list Write) (deletes : list Del)
    (prepared : result (list (str * str * BlobRef))) (m : Manager) : result () * Manager :=
  let tables := foldr bset_insert [] ((write_table <$> writes) ++ (del_table <$> deletes)) in
  match (check? ensure_writable in
         let? refs := prepared in
         check? validate_tables tables in Ok refs) with
  | Err e => (Err e, m)
  | Ok refs =>
      match journal_write (rewrite_rows tables writes deletes refs) m with
      | (Err e, m') => (Err e, m')
      | (Ok _, m') => (Ok (), set_cache (clear_cache (m_cache m')) m')
      end
  end.

Definition rewrite_tables (writes : list Write) (deletes : list Del) (m : Manager) : result () * Manager :=
  match refuse_sealed (write_table <$> writes) with
  | Err e => (Err e, m)
  | Ok _ => rewrite_tables_with_blobs writes deletes (Ok []) m
  end.

(** ** Attachment writes *)

Definition publish_rows (table id : str) (blob : BlobRef) (metadata : option bytes) : M (() * list ChangeKind) :=
  e ← JournalBlob.put table id blob;
  match metadata with
  | None => mret ((), [e])
  | Some value => put_row table id value ;; mret ((), [e; Upsert table id value])
  end.

Definition publish_blob (table id : str) (content : bytes) (metadata : option bytes)
    (file : str) (stored : result ()) (m : Manager) : result () * Manager :=
  match prepare_blob table content file stored with
  | Err e => (Err e, m)
  | Ok blob =>
      match journal_write (publish_rows table id blob metadata) m with
      | (Err e, m') => (Err e, m')
      | (Ok _, m') => (Ok (), set_cache (match metadata with
                                         | Some v => cache_put table id v (m_cache m')
                                         | None => m_cache m'
                                         end) m')
      end
  end.

Definition write_blob (table id : str) (content : bytes) (file : str) (stored : result ()) :=
  publish_blob table id content None file stored.

(** [removed[0]]: one delete gives one flag. *)
Definition delete_blob (table id : str) (m : Manager) : result bool * Manager :=
  let '(r, m') := apply_changes [] [(table, id)] m in
  (let? l := r in ok_or (head l) OptionNone, m').

(** ** Reads *)

Definition get_uncached (table key : str) (m : Manager) : result (option bytes) :=
  let? db := get_db m in
  let? t := open_read db table in
  Ok (t_get t key).

(** [get] up to the moment it read the row: an answer, with the value it will put in the
    cache.  Another thread may run before [get_fill]. *)
Definition get_read (table key : str) (m : Manager) : result (option bytes * option bytes) :=
  let? db := get_db m in
  match (if has_cache c then m_cache m !! cache_key table key else None) with
  | Some v => Ok (Some v, None)
  | None =>
      let? t := open_read db table in
      Ok (t_get t key, t_get t key)
  end.
Definition get_fill (table key : str) (fill : option bytes) (m : Manager) : Manager :=
  match fill with
  | Some v => set_cache (cache_put table key v (m_cache m)) m
  | None => m
  end.
Definition get (table key : str) (m : Manager) : result (option bytes) * Manager :=
  match get_read table key m with
  | Err e => (Err e, m)
  | Ok (answer, fill) => (Ok answer, get_fill table key fill m)
  end.

Definition list_entries (table : str) (m : Manager) : result (list (str * bytes)) :=
  let? db := get_db m in
  let? t := open_read db table in
  Ok (t_iter t).
Definition list_values (table : str) (m : Manager) : result (list bytes) :=
  let? db := get_db m in
  let? t := open_read db table in
  Ok (snd <$> t_iter t).
Definition count_keys (table : str) (m : Manager) : result N :=
  let? db := get_db m in
  let? t := open_read db table in
  Ok (len (t_iter t)).

(** moka drops entries for size, age or idleness. *)
Definition evict (gone : gset str) (m : Manager) : Manager :=
  set_cache (filter (λ p, p.1 ∉ gone) (m_cache m)) m.
End repository.
