(* ===== verification/Replica.v ===== *)
(** * Replaying the log

    A consumer keeps a copy of the user tables and applies the changes it reads; a
    [TableReset] replaces a table by its snapshot.  [in_sync db L a copy]: replaying
    every change after [a] on [copy] gives the tables of [db].  The pruning of the log
    keeps that, as long as it keeps the changes after [a]. *)
From S2P Require Import Prelude Order Redb Memory JournalCodec Fields Eval Tx LastWrite IdContract Unique UniqueSpec JournalBlob Journal JournalSpec JournalOps Repository.
Local Open Scope N_scope.

(** Rows of the tables a copy holds. *)
Definition Store : Type := str → str → option bytes.

Definition replay1 (image S : Store) (e : ChangeKind) : Store :=
  λ t k, match e with
         | Upsert t' k' v => if decide (t' = t ∧ k' = k) then Some v else S t k
         | Delete t' k' => if decide (t' = t ∧ k' = k) then None else S t k
         | TableReset t' s => if decide (t' = t) then image s k else S t k
         | _ => S t k
         end.
Definition replay (image : Store) (es : list ChangeKind) (S : Store) : Store := fold_left (replay1 image) es S.

Lemma replay_app image es1 es2 S : replay image (es1 ++ es2) S = replay image es2 (replay image es1 S).
Proof. apply fold_left_app. Qed.

(** A row depends on the row it started from and on the snapshots named. *)
Lemma replay_ext image image' es : ∀ S S' t k, S t k = S' t k →
  (∀ s t', TableReset t' s ∈ es → ∀ k, image s k = image' s k) → replay image es S t k = replay image' es S' t k.
Proof.
  induction es as [|e es IH]; intros S S' t k HS Hi; simpl; [done|].
  apply IH; [|intros; eapply Hi; by right].
  destruct e as [? ? ?|? ?|t' s| |]; simpl; try (by rewrite HS). case_decide; [|done]. eapply Hi. by left.
Qed.

(** What a row may have become. *)
Lemma replay_source image es : ∀ S t k,
  (replay image es S t k = S t k) ∨ (∃ v, Upsert t k v ∈ es ∧ replay image es S t k = Some v) ∨
  (Delete t k ∈ es ∧ replay image es S t k = None) ∨ ∃ s, TableReset t s ∈ es ∧ replay image es S t k = image s k.
Proof.
  induction es as [|e es IH] using rev_ind; intros S t k; [by left|].
  rewrite replay_app. cbn [replay fold_left]. fold (replay image es S).
  assert (Hold : replay image es S t k = S t k ∨ (∃ v, Upsert t k v ∈ es ++ [e] ∧ replay image es S t k = Some v) ∨
    (Delete t k ∈ es ++ [e] ∧ replay image es S t k = None) ∨
    ∃ s, TableReset t s ∈ es ++ [e] ∧ replay image es S t k = image s k).
  { destruct (IH S t k) as [?|[(v & ? & ?)|[[? ?]|(s & ? & ?)]]]; [by left|right; left|right; right; left|right; right; right].
    - exists v. rewrite elem_of_app. auto.
    - rewrite elem_of_app. auto.
    - exists s. rewrite elem_of_app. auto. }
  assert (Hlast : ∀ x : ChangeKind, x = e → x ∈ es ++ [e]) by (intros x ->; apply elem_of_app; right; left).
  destruct e as [t' k' v|t' k'|t' s|? ? ? ?|? ? ? ?]; cbn [replay1]; try exact Hold; case_decide as Hd; try exact Hold.
  - destruct Hd as [-> ->]. right. left. exists v. auto.
  - destruct Hd as [-> ->]. right. right. left. auto.
  - subst t'. right. right. right. exists s. auto.
Qed.

(** ** Names of snapshots *)

Definition user_table (t : str) : Prop := starts_with t (lit "__") = false.

Lemma snapshot_reserved g x : starts_with (snapshot_name g ++ x) (lit "__") = true.
Proof. done. Qed.
Lemma snapshot_name_reserved g : starts_with (snapshot_name g) (lit "__") = true.
Proof. done. Qed.

Lemma snapshot_name_inj g g' : snapshot_name g = snapshot_name g' → g = g'.
Proof. unfold snapshot_name. intros E%app_inv_head. by apply dec_inj. Qed.

Lemma snapshot_blobs_ne g g' : snapshot_name g ≠ snapshot_blobs (snapshot_name g').
Proof.
  unfold snapshot_name, snapshot_blobs. rewrite <-app_assoc. intros E%app_inv_head.
  pose proof (dec_all_digits g) as Hd. rewrite E in Hd. apply Forall_app in Hd as [_ Hd].
  apply Forall_cons in Hd as [Hd _]. done.
Qed.

Lemma user_not_snapshot t g : user_table t → t ≠ snapshot_name g.
Proof. unfold user_table. intros Ht ->. by rewrite snapshot_name_reserved in Ht. Qed.
Lemma user_not_blobs t g : user_table t → t ≠ snapshot_blobs (snapshot_name g).
Proof. unfold user_table, snapshot_blobs. intros Ht ->. by rewrite snapshot_reserved in Ht. Qed.

(** The snapshots of a list of changes have distinct generations in a range, oldest first. *)
Definition snaps_in (lo hi : N) (cs : list ChangeKind) : Prop :=
  ∃ gs, omap snapshot_of cs = snapshot_name <$> gs ∧ StronglySorted N.lt gs ∧ Forall (λ g, lo < g <= hi) gs.

Lemma snaps_in_nil lo hi : snaps_in lo hi [].
Proof. exists []. split_and!; [done|constructor|constructor]. Qed.

Lemma snaps_in_app lo mid hi cs1 cs2 : lo <= mid → mid <= hi →
  snaps_in lo mid cs1 → snaps_in mid hi cs2 → snaps_in lo hi (cs1 ++ cs2).
Proof.
  intros ? ? (g1 & E1 & S1 & F1) (g2 & E2 & S2 & F2). exists (g1 ++ g2).
  rewrite omap_app, E1, E2, fmap_app. rewrite Forall_forall in F1, F2. split_and!; [done| |].
  - clear E1 E2. induction S1 as [|g g1 S1 IH Hg]; simpl; [done|]. constructor.
    + apply IH. intros x Hx. apply F1. by right.
    + apply Forall_app. split; [done|]. apply Forall_forall. intros x Hx. specialize (F2 x Hx).
      specialize (F1 g ltac:(by left)). lia.
  - apply Forall_app. rewrite !Forall_forall. split; intros x Hx; [specialize (F1 x Hx)|specialize (F2 x Hx)]; lia.
Qed.

Lemma snaps_in_suffix lo hi cs n : snaps_in lo hi cs → snaps_in lo hi (drop n cs).
Proof.
  revert n. induction cs as [|c cs IH]; intros [|n] Hs; try done. simpl. apply IH.
  destruct Hs as (gs & E & S & F). simpl in E. destruct (snapshot_of c).
  - destruct gs as [|g gs]; [done|]. injection E as _ E. exists gs. inversion S; inversion F; subst. done.
  - by exists gs.
Qed.

Lemma snaps_in_elem lo hi cs t s : snaps_in lo hi cs → TableReset t s ∈ cs →
  ∃ g, s = snapshot_name g ∧ lo < g <= hi.
Proof.
  intros (gs & E & _ & F) Hin.
  assert (s ∈ omap snapshot_of cs) as Hs by (apply list_elem_of_omap; by eexists).
  rewrite E in Hs. apply list_elem_of_fmap in Hs as (g & -> & Hg). rewrite Forall_forall in F. eauto.
Qed.

(** Two rows of the log never share a snapshot. *)
Lemma snaps_in_split lo hi cs n t s t' s' : snaps_in lo hi cs →
  TableReset t s ∈ take n cs → TableReset t' s' ∈ drop n cs → s ≠ s' ∧ s' ≠ s ++ lit "_blobs".
Proof.
  rewrite <-(take_drop n cs) at 1. intros (gs & E & S & _) H1 H2.
  rewrite omap_app in E. symmetry in E. apply fmap_app_inv in E as (g1 & g2 & E1 & E2 & ->).
  assert (Ht : s ∈ snapshot_name <$> g1) by (rewrite <-E1; apply list_elem_of_omap; by eexists).
  assert (Hd : s' ∈ snapshot_name <$> g2) by (rewrite <-E2; apply list_elem_of_omap; by eexists).
  apply list_elem_of_fmap in Ht as (a & -> & Ha), Hd as (b & -> & Hb).
  split; [|apply snapshot_blobs_ne]. intros ->%snapshot_name_inj.
  clear -S Ha Hb. induction g1 as [|g g1 IH]; [by apply elem_of_nil in Ha|]. simpl in S.
  apply StronglySorted_inv in S as [S F]. rewrite Forall_app in F. destruct F as [_ F].
  apply elem_of_cons in Ha as [->|Ha]; [|by apply IH]. rewrite Forall_forall in F. specialize (F _ Hb). lia.
Qed.

Section replica.
Context `{Redb, Allocator, TextLib}
  {SPair : Serde (str * str)} {SIdx : Serde (str * N)} {SKeys : Serde (list bytes)}
  {SDefs : Serde (list Unique)} {SPath : Serde Path} {SRef : Serde BlobRef} {SCons : Serde Consumer}.

Definition store_of (db : Tx) : Store := λ t k, t_get (rows db t) k.

(** The changes after [a] that the log retains. *)
Definition after_changes (L : Log) (a : N) : list ChangeKind :=
  drop (N.to_nat (a + 1 - l_floor L)) (l_changes L).

Definition in_sync (db : Tx) (L : Log) (a : N) (copy : Store) : Prop :=
  ∀ t k, user_table t → store_of db t k = replay (store_of db) (after_changes L a) copy t k.

(** The generation counter is above every snapshot; names above it are unused. *)
Record snaps_ok (db : Tx) (cs : list ChangeKind) (G : N) : Prop := {
  n_number : has_number db (lit "reset_generation") G;
  n_fresh : ∀ g k, G < g → store_of db (snapshot_name g) k = None;
  n_snaps : snaps_in 0 G cs;
}.

(** ** Pruning *)

(** The log lost [n] changes at its start. *)
Definition drops (L L' : Log) : Prop :=
  l_floor L <= l_floor L' ∧ l_changes L' = drop (N.to_nat (l_floor L' - l_floor L)) (l_changes L).

Lemma repr_row db L k row : repr db L → t_get (CHANGES db) k = Some row ↔
  l_floor L <= k ∧ row_bytes <$> l_changes L !! N.to_nat (k - l_floor L) = Some row.
Proof.
  intros R. rewrite t_get_iter, (r_rows _ _ R). split.
  - intros (? & c & Hc & ->)%rows_from_elem. split; [lia|]. by rewrite Hc.
  - intros [Hk (c & Hc & ->)%fmap_Some]. generalize dependent (l_floor L). intros n Hn.
    generalize dependent (l_changes L). intros cs. revert n Hn.
    induction cs as [|c' cs IH]; intros n Hn Hc; simpl; [done|].
    destruct (N.to_nat (k - n)) as [|j] eqn:Ej.
    + injection Hc as ->. replace n with k by lia. left.
    + simpl in Hc. right. apply IH; [lia|]. by replace (N.to_nat (k - (n + 1))) with j by lia.
Qed.

Lemma row_snapshot_of c s : change_ok c → row_snapshot (row_bytes c) = Ok (Some s) → snapshot_of c = Some s.
Proof.
  intros (Hwf & Hfit & _) E. unfold row_snapshot in E.
  destruct (negb _); [done|]. case_bool_decide; [|done].
  destruct (decode_row_bytes c Hwf Hfit) as [Hd|[n Hd]]; rewrite Hd in E; simpl in E; [|done].
  injection E as E. by destruct c.
Qed.

(** Pruning leaves the snapshots of the changes it keeps. *)
Lemma sweep_keeps db L db' L' G t s : repr db L → repr db' L' → snaps_in 0 G (l_changes L) →
  drops L L' → sweep db db' → TableReset t s ∈ l_changes L' → rows db' s = rows db s.
Proof.
  intros R R' Hsn [Hf Hd] W Hin. destruct (s_rows _ _ W s) as [E|(k & row & Hk & Hk' & s0 & Hs0 & Hname)]; [done|].
  exfalso. apply (repr_row _ _ _ _ R) in Hk as [Hfk (c & Hc & ->)%fmap_Some].
  apply row_snapshot_of in Hs0; [|by eapply (Forall_lookup_1 _ _ _ _ (r_changes _ _ R))].
  assert (Hlt : k < l_floor L').
  { destruct (N.ltb_spec k (l_floor L')) as [?|Hge]; [done|]. exfalso.
    assert (t_get (CHANGES db') k = Some (row_bytes c)) as Hc'; [|congruence].
    apply (repr_row _ _ _ _ R'). split; [done|]. rewrite Hd, lookup_drop.
    replace (N.to_nat (l_floor L' - l_floor L) + N.to_nat (k - l_floor L'))%nat
      with (N.to_nat (k - l_floor L)) by lia. by rewrite Hc. }
  destruct c as [|  |t0 s1| |]; simpl in Hs0; try done. injection Hs0 as ->.
  rewrite Hd in Hin. destruct (snaps_in_split 0 G _ (N.to_nat (l_floor L' - l_floor L)) t0 s0 t s Hsn) as [? ?]; [|done|].
  - apply list_elem_of_lookup. exists (N.to_nat (k - l_floor L)). rewrite lookup_take_lt by lia. done.
  - destruct Hname as [->| ->]; done.
Qed.

(** A pruned name only loses its rows. *)
Lemma repr_names db L k row name : repr db L → t_get (CHANGES db) k = Some row → names_table row name →
  ∃ t s, TableReset t s ∈ l_changes L ∧ (name = s ∨ name = s ++ lit "_blobs").
Proof.
  intros R Hk (s & Hs & Hn). apply (repr_row _ _ _ _ R) in Hk as [_ (c & Hc & ->)%fmap_Some].
  apply row_snapshot_of in Hs; [|by eapply (Forall_lookup_1 _ _ _ _ (r_changes _ _ R))].
  destruct c as [| |t0 s0| |]; simpl in Hs; try done. injection Hs as ->.
  exists t0, s. split; [|done]. apply list_elem_of_lookup. eauto.
Qed.

Lemma sweep_snaps db L db' L' G : repr db L → snaps_ok db (l_changes L) G → sweep db db' →
  (∃ n, l_changes L' = drop n (l_changes L)) → snaps_ok db' (l_changes L') G.
Proof.
  intros R [Hg Hfr Hsn] W [n Hn]. constructor.
  - unfold has_number in *. by rewrite (s_reset _ _ W).
  - intros g k Hlt. destruct (s_rows _ _ W (snapshot_name g)) as [E|(k0 & row & Hk & _ & Hnm)].
    + unfold store_of. rewrite E. by apply Hfr.
    + exfalso. destruct (repr_names _ _ _ _ _ R Hk Hnm) as (t & s & Hin & Hs).
      destruct (snaps_in_elem _ _ _ _ _ Hsn Hin) as (g' & -> & ?). destruct Hs as [->%snapshot_name_inj|Hs]; [lia|].
      by apply snapshot_blobs_ne in Hs.
  - rewrite Hn. by apply snaps_in_suffix.
Qed.

(** User tables are never pruned. *)
Lemma sweep_user db L db' G t : repr db L → snaps_in 0 G (l_changes L) → sweep db db' →
  user_table t → rows db' t = rows db t.
Proof.
  intros R Hsn W Ht. destruct (s_rows _ _ W t) as [E|(k0 & row & Hk & _ & Hnm)]; [done|]. exfalso.
  destruct (repr_names _ _ _ _ _ R Hk Hnm) as (t' & s & Hin & Hs).
  destruct (snaps_in_elem _ _ _ _ _ Hsn Hin) as (g' & -> & _). destruct Hs as [->| ->].
  - by apply (user_not_snapshot _ g') in Ht.
  - by apply (user_not_blobs _ g') in Ht.
Qed.

Lemma drops_after L L' a : drops L L' → l_floor L' <= a + 1 → after_changes L' a = after_changes L a.
Proof.
  intros [Hf Hd] Ha. unfold after_changes. rewrite Hd, drop_drop. f_equal. lia.
Qed.

Lemma sweep_sync db L db' L' G a copy : repr db L → repr db' L' → snaps_in 0 G (l_changes L) → drops L L' →
  sweep db db' → l_floor L' <= a + 1 → in_sync db L a copy → in_sync db' L' a copy.
Proof.
  intros R R' Hsn Hd W Ha Hs t k Ht. unfold store_of at 1. rewrite (sweep_user _ _ _ _ _ R Hsn W Ht).
  transitivity (replay (store_of db) (after_changes L a) copy t k); [by apply Hs|].
  rewrite <-(drops_after _ _ _ Hd Ha). apply replay_ext; [done|].
  intros s t' Hin k'. unfold store_of. erewrite (sweep_keeps db L db' L' G t' s); try done.
  unfold after_changes in Hin. apply list_elem_of_lookup in Hin as [i Hi]. rewrite lookup_drop in Hi.
  by eapply list_elem_of_lookup_2.
Qed.

(** A log that continues without new rows only dropped some. *)
Lemma continues_drops db L db' L' : repr db L → repr db' L' → sweep db db' → continues L L' →
  (∃ n, l_changes L' = drop n (l_changes L)) ∧ (l_floor L' <= l_head L + 1 → drops L L').
Proof.
  intros R R' W [Cf _ _ (es & Cb & Cc)]. pose proof (r_low _ _ R) as Hlo.
  assert (Hold : ∀ i c, l_changes L' !! i = Some c → (N.to_nat (l_floor L' - l_floor L) + i < length (l_changes L))%nat).
  { intros i c Hc. assert (t_get (CHANGES db') (l_floor L' + N.of_nat i) = Some (row_bytes c)) as Hk.
    { apply (repr_row _ _ _ _ R'). split; [lia|].
      replace (N.to_nat (l_floor L' + N.of_nat i - l_floor L')) with i by lia. by rewrite Hc. }
    apply (s_sub _ _ W), (repr_row _ _ _ _ R) in Hk as [_ (c' & Hc' & _)%fmap_Some].
    apply lookup_lt_Some in Hc'. lia. }
  destruct (decide (length (l_changes L) < N.to_nat (l_floor L' - l_floor L))%nat) as [Hgap|Hgap].
  - assert (l_changes L' = []) as ->.
    { destruct (l_changes L') as [|c cs] eqn:E; [done|]. specialize (Hold 0%nat c eq_refl). lia. }
    split; [exists (length (l_changes L)); by rewrite drop_all|]. unfold l_head, len. lia.
  - rewrite drop_app_le in Cc by lia.
    assert (es = []) as ->.
    { destruct es as [|e es]; [done|]. exfalso.
      specialize (Hold (length (drop (N.to_nat (l_floor L' - l_floor L)) (l_changes L))) e).
      rewrite Cc, lookup_app_r, Nat.sub_diag in Hold by lia. specialize (Hold eq_refl). rewrite length_drop in Hold. lia. }
    rewrite app_nil_r in Cc. split; [eauto|]. by split.
Qed.
End replica.
