(* ===== verification/RepositorySpec.v ===== *)
(** * What the manager's transactions do

    [did G D tx es G' tx']: a transaction body went from [tx] to [tx'] and pushed the
    changes [es]; replaying [es] on the rows of [tx] gives the rows of [tx'] for every
    user table outside [D], the tables changed but not logged yet.  Each loop of
    [repository.rs] extends [did]; a write that commits a body with no dirty table
    keeps the invariant [db_inv] of the whole database and every copy in sync. *)
From S2P Require Import Prelude Order Redb Memory JournalCodec Fields OrderedCodec Eval Tx LastWrite IdContract Unique UniqueSpec JournalBlob Journal JournalSpec JournalOps Repository Replica.
Local Open Scope N_scope.

Lemma ascii_utf8 l : Forall (λ b, in_range 0 127 b = true) l → utf8_valid l = true.
Proof. induction 1 as [|b l Hb Hl IH]; simpl; [done|]. by rewrite Hb. Qed.

Lemma snapshot_utf8 g : utf8_valid (snapshot_name g) = true.
Proof.
  apply ascii_utf8, Forall_app. split; [repeat constructor|].
  eapply Forall_impl; [apply dec_all_digits|]. intros b. unfold is_dec_digit, in_range.
  rewrite !andb_true_iff, !N.leb_le. lia.
Qed.

Section repository_spec.
Context `{Redb, Allocator, TextLib}
  {SPair : Serde (str * str)} {SIdx : Serde (str * N)} {SKeys : Serde (list bytes)}
  {SDefs : Serde (list Unique)} {SPath : Serde Path} {SRef : Serde BlobRef} {SCons : Serde Consumer}
  `{!Host} (c : Config).

(** Every reference is one the library wrote: names and ids are Rust strings. *)
Definition ref_wf (k : str) (v : bytes) : Prop :=
  ∃ t id r, k = ser (t, id) ∧ v = ser r ∧ utf8_valid t = true ∧ utf8_valid id = true ∧
    utf8_valid (b_id r) = true ∧ b_size r < U64.
Definition refs_ok (tx : Tx) : Prop := ∀ k v, t_get (REFS tx) k = Some v → ref_wf k v.

Definition Dirty : Type := str → Prop.

Record did (G : N) (D : Dirty) (tx : Tx) (es : list ChangeKind) (G' : N) (tx' : Tx) : Prop := {
  d_changes : CHANGES tx' = CHANGES tx;
  d_consumers : CONSUMERS tx' = CONSUMERS tx;
  d_id : ID_DEFS tx' = ID_DEFS tx;
  d_defs : UQ_DEFS tx' = UQ_DEFS tx;
  d_keys : UQ_KEYS tx' = UQ_KEYS tx;
  d_reverse : UQ_REVERSE tx' = UQ_REVERSE tx;
  d_seq : ∀ key, key ≠ lit "reset_generation" → t_get (SEQ tx') key = t_get (SEQ tx) key;
  d_le : G <= G';
  d_number : has_number tx' (lit "reset_generation") G';
  d_fresh : ∀ g k, G' < g → store_of tx' (snapshot_name g) k = None;
  d_snaps : snaps_in G G' es;
  d_old : ∀ g, g <= G → rows tx' (snapshot_name g) = rows tx (snapshot_name g);
  d_effects : Forall effect_ok es;
  d_refs : refs_ok tx';
  d_replay : ∀ t k, user_table t → ¬ D t → store_of tx' t k = replay (store_of tx') es (store_of tx) t k;
}.

(** A step that touches user tables and references only. *)
Definition data_step (tx tx' : Tx) : Prop :=
  ∃ u r, tx' = set_user u (set_REFS r tx) ∧ ∀ name, ¬ user_table name → rows tx' name = rows tx name.

Lemma did_start G tx : has_number tx (lit "reset_generation") G →
  (∀ g k, G < g → store_of tx (snapshot_name g) k = None) → refs_ok tx → did G (λ _, False) tx [] G tx.
Proof. intros ? ? ?. constructor; try done; try lia. apply snaps_in_nil. Qed.

Lemma did_step G (D D' : Dirty) tx es G1 tx1 es2 tx2 :
  did G D tx es G1 tx1 → data_step tx1 tx2 → refs_ok tx2 → Forall effect_ok es2 →
  omap snapshot_of es2 = [] → (∀ t, D t → D' t) →
  (∀ t k, user_table t → ¬ D' t → store_of tx2 t k = replay (store_of tx2) es2 (store_of tx1) t k) →
  did G D' tx (es ++ es2) G1 tx2.
Proof.
  intros I (u & r & E & Hr) Hrefs He Hs HD Hrep. subst tx2.
  assert (Hsn : ∀ g, ¬ user_table (snapshot_name g)) by by intros g.
  constructor; try apply I; try done.
  - intros g k Hg. unfold store_of. rewrite Hr by done. by apply I.
  - destruct (d_snaps _ _ _ _ _ _ I) as (gs & E & Hg). exists gs. by rewrite omap_app, Hs, app_nil_r.
  - intros g Hg. rewrite Hr by done. by apply I.
  - apply Forall_app. split; [apply I|done].
  - intros t k Ht Hd. rewrite Hrep, replay_app by done. apply replay_ext; [|done].
    rewrite (d_replay _ _ _ _ _ _ I) by auto. apply replay_ext; [done|].
    intros s t' Hin k'. destruct (snaps_in_elem _ _ _ _ _ (d_snaps _ _ _ _ _ _ I) Hin) as (g & -> & _).
    unfold store_of. by rewrite Hr.
Qed.

(** ** Rows *)

Lemma rows_put tx t (x : table str bytes) n :
  rows (set_user (<[t := x]> (user tx)) tx) n = if decide (t = n) then x else rows tx n.
Proof. unfold rows. simpl. rewrite lookup_insert. by case_decide. Qed.

(** Names and keys are Rust strings, and tables are not the library's own. *)
Definition name_ok (t k : str) : Prop := user_table t ∧ utf8_valid t = true ∧ utf8_valid k = true.

Lemma data_put tx t x : user_table t → data_step tx (set_user (<[t := x]> (user tx)) tx).
Proof.
  intros Ht. exists (<[t := x]> (user tx)), (REFS tx). split; [by destruct tx|].
  intros n Hn. rewrite rows_put. case_decide; [by subst|done].
Qed.

Lemma data_refs tx r : data_step tx (set_REFS r tx).
Proof. exists (user tx), r. by destruct tx. Qed.

Lemma data_trans tx1 tx2 tx3 : data_step tx1 tx2 → data_step tx2 tx3 → data_step tx1 tx3.
Proof.
  intros (u & r & -> & Hr1) (u' & r' & -> & Hr2). exists u', r'. split; [by destruct tx1|].
  intros n Hn. by rewrite Hr2, Hr1.
Qed.

Lemma open_same t tx x tx' : open_table t tx = Ok (x, tx') → x = rows tx t ∧
  tx' = set_user (<[t := rows tx t]> (user tx)) tx ∧ ∀ n, rows tx' n = rows tx n.
Proof.
  intros [= <- <-]. split_and!; try done. intros n. rewrite rows_put. by case_decide; subst.
Qed.

Lemma blob_get_same t k tx o tx' : JournalBlob.get t k tx = Ok (o, tx') → tx' = tx.
Proof. unfold JournalBlob.get. intros E. m_inv. by destruct (t_get _ _); m_inv. Qed.

(** Removing a reference logs the file it named. *)
Lemma blob_remove_spec t k tx o tx' : refs_ok tx → utf8_valid t = true → utf8_valid k = true →
  JournalBlob.remove t k tx = Ok (o, tx') →
  (∃ r, tx' = set_REFS r tx) ∧ refs_ok tx' ∧ Forall effect_ok (option_list o) ∧
  (o = None ∨ ∃ id n, o = Some (BlobDelete t k id n)).
Proof.
  intros Hr Ht Hk E. unfold JournalBlob.remove in E. m_inv.
  assert (Hrm : refs_ok (set_REFS (t_remove (REFS tx) (key t k)) tx)).
  { intros q v. simpl. rewrite t_get_remove. case_decide; [done|]. apply Hr. }
  destruct (t_get (REFS tx) (key t k)) as [v|] eqn:Ev; m_inv.
  - apply Hr in Ev as (t' & id' & r & Hkey & -> & _ & _ & Hid & Hsz).
    match goal with Hs : from_slice _ = Ok _ |- _ => rewrite from_slice_ser in Hs; injection Hs as <- end.
    split_and!; [by eexists|done|repeat constructor; simpl; auto|]. right. eauto.
  - split_and!; [by eexists|done|constructor|by left].
Qed.

Lemma did_blob_remove G D tx es G1 tx1 t k o tx2 : did G D tx es G1 tx1 →
  utf8_valid t = true → utf8_valid k = true → JournalBlob.remove t k tx1 = Ok (o, tx2) →
  did G D tx (es ++ option_list o) G1 tx2.
Proof.
  intros I Ht Hk E. apply blob_remove_spec in E as ([r ->] & Hr & He & Ho); [|apply I|done..].
  eapply did_step; [done|apply data_refs|done|done| |done|].
  - by destruct Ho as [->|(? & ? & ->)].
  - intros t' k' _ _. by destruct Ho as [->|(? & ? & ->)].
Qed.

Lemma did_blob_put G D tx es G1 tx1 t k r e tx2 : did G D tx es G1 tx1 →
  utf8_valid t = true → utf8_valid k = true → utf8_valid (b_id r) = true → b_size r < U64 →
  JournalBlob.put t k r tx1 = Ok (e, tx2) → did G D tx (es ++ [e]) G1 tx2.
Proof.
  intros I Ht Hk Hid Hsz E. unfold JournalBlob.put in E. m_inv.
  eapply did_step; [done|apply data_refs| | |done|done|done].
  - intros q v. simpl. rewrite t_get_insert. case_decide as Hq; [|apply I].
    intros [= <-]. exists t, k, r. split_and!; try done.
  - repeat constructor; done.
Qed.

Lemma did_put_row G D tx es G1 tx1 t k v tx2 : did G D tx es G1 tx1 → name_ok t k →
  put_row t k v tx1 = Ok ((), tx2) → did G D tx (es ++ [Upsert t k v]) G1 tx2.
Proof.
  intros I (Ht & Hut & Huk) E. unfold put_row in E. m_inv.
  eapply did_step; [done|by apply data_put|apply I|repeat constructor; done|done|done|].
  intros t' k' _ _. unfold store_of. rewrite rows_put. simpl. case_decide as Et.
  - subst t'. rewrite t_get_insert. repeat case_decide; naive_solver.
  - case_decide; naive_solver.
Qed.

Lemma did_delete_row G D tx es G1 tx1 t k tx2 : did G D tx es G1 tx1 →
  user_table t → utf8_valid t = true → utf8_valid k = true → remove_row t k tx1 = Ok ((), tx2) →
  did G D tx (es ++ (if bool_decide (is_Some (t_get (rows tx1 t) k)) then [Delete t k] else [])) G1 tx2.
Proof.
  intros I Ht Hut Huk E. unfold remove_row in E. m_inv.
  eapply did_step; [done|by apply data_put|apply I| | |done|].
  - case_bool_decide; repeat constructor; done.
  - by case_bool_decide.
  - intros t' k' _ _. unfold store_of. rewrite rows_put. case_decide as Et.
    + subst t'. rewrite t_get_remove. case_bool_decide as Hs; simpl; repeat case_decide; try naive_solver.
      subst k'. symmetry. by apply eq_None_not_Some.
    + case_bool_decide; simpl; [|done]. case_decide; naive_solver.
Qed.

(** A row written before its table is captured. *)
Lemma did_put_silent G (D : Dirty) tx es G1 tx1 t x : did G D tx es G1 tx1 → user_table t →
  did G (λ t', D t' ∨ t' = t) tx es G1 (set_user (<[t := x]> (user tx1)) tx1).
Proof.
  intros I Ht. rewrite <-(app_nil_r es).
  eapply did_step; [done|by apply data_put|apply I|constructor|done|by left|].
  intros t' k' _ Hd. unfold store_of. rewrite rows_put. simpl. case_decide; [|done]. subst. tauto.
Qed.

Lemma did_weaken G (D D' : Dirty) tx es G1 tx1 : did G D tx es G1 tx1 → (∀ t, D t → D' t) → did G D' tx es G1 tx1.
Proof. intros [] HD. constructor; auto. Qed.

Lemma did_open G D tx es G1 tx1 t x tx2 : did G D tx es G1 tx1 → user_table t →
  open_table t tx1 = Ok (x, tx2) → x = rows tx1 t ∧ did G D tx es G1 tx2.
Proof.
  intros I Ht (-> & -> & Hr)%open_same. split; [done|]. rewrite <-(app_nil_r es).
  eapply did_step; [done|by apply data_put|apply I|constructor|done|done|].
  intros t' k' _ _. unfold store_of. by rewrite Hr.
Qed.

(** ** Loops *)

Definition write_ok (w : Write) : Prop := name_ok w.1.1 w.1.2.
Definition del_ok (d : Del) : Prop := name_ok d.1 d.2.

Lemma did_write_rows G D tx writes : Forall write_ok writes → ∀ es G1 tx1 es' tx2, did G D tx es G1 tx1 →
  write_rows c writes es tx1 = Ok (es', tx2) → did G D tx es' G1 tx2 ∧ es' = es ++ ((λ w, Upsert w.1.1 w.1.2 w.2) <$> writes).
Proof.
  induction 1 as [|[[t k] v] writes Hw Hws IH]; intros es G1 tx1 es' tx2 I E; cbn [write_rows] in E.
  - m_inv. by rewrite app_nil_r.
  - apply M_bind_ok in E as ([] & tx1' & E1 & E).
    assert (tx1' = tx1) as ->.
    { destruct (is_blob_table c t); m_inv; [|done].
      match goal with Hg : JournalBlob.get _ _ _ = Ok (?o, _) |- _ => apply blob_get_same in Hg as ->; destruct o end; by m_inv. }
    apply M_bind_ok in E as (v' & tx1' & [E2%copy_bytes_ok ->]%lift_ok & E). subst v'.
    apply M_bind_ok in E as ([] & tx3 & E3 & E). eapply did_put_row in E3; [|done|apply Hw].
    eapply IH in E as [I2 ->]; [|done]. split; [done|]. by rewrite <-app_assoc.
Qed.

Lemma did_delete_rows G D tx deletes : Forall del_ok deletes → ∀ rm es G1 tx1 rm' es' tx2, did G D tx es G1 tx1 →
  delete_rows c deletes rm es tx1 = Ok ((rm', es'), tx2) → did G D tx es' G1 tx2.
Proof.
  induction 1 as [|[t k] deletes (Ht & Hut & Huk) Hds IH]; intros rm es G1 tx1 rm' es' tx2 I E; cbn [delete_rows] in E.
  - by m_inv.
  - apply M_bind_ok in E as (rs & tx3 & E1 & E). pose proof (open_same _ _ _ _ E1) as (_ & _ & Hrows).
    eapply did_open in E1 as [-> I3]; [|done..]. apply M_bind_ok in E as ([] & tx4 & E2 & E).
    eapply did_delete_row in E2; [|done..]. rewrite Hrows in E2.
    apply M_bind_ok in E as (ob & tx5 & Eb & E). eapply IH; [|exact E]. destruct (is_blob_table c t).
    + by eapply did_blob_remove in Eb.
    + m_inv. by rewrite app_nil_r.
Qed.

Lemma did_drop_orphans G D tx t rs keys : utf8_valid t = true → Forall (λ p : str * str, utf8_valid p.2 = true) keys →
  ∀ es G1 tx1 es' tx2, did G D tx es G1 tx1 →
  drop_orphans t rs keys es tx1 = Ok (es', tx2) → did G D tx es' G1 tx2.
Proof.
  intros Ht. induction 1 as [|[t' k] keys Hk Hks IH]; intros es G1 tx1 es' tx2 I E; cbn [drop_orphans] in E.
  - by m_inv.
  - destruct (_ && _); [|by eapply IH].
    apply M_bind_ok in E as (o & tx3 & Eb & E). eapply IH; [|exact E]. by eapply did_blob_remove in Eb.
Qed.

Lemma check_blob_rows_same t l : ∀ tx tx', for_each l (λ p : str * bytes, check_blob_row c t p.1) tx = Ok ((), tx') → tx' = tx.
Proof.
  intros tx tx' E. eapply (for_each_inv (λ y, y = tx)); [|done|exact E].
  intros p y y' _ -> Ep. unfold check_blob_row in Ep.
  apply M_bind_ok in Ep as (o & y1 & ->%blob_get_same & Ep). m_inv. by case_match; m_inv.
Qed.

(** Reading back the keys of the references. *)
Lemma refs_keys tx keys : refs_ok tx →
  traverse (λ p : str * bytes, from_slice (A := str * str) p.1) (t_iter (REFS tx)) = Ok keys →
  Forall (λ p : str * str, utf8_valid p.2 = true) keys.
Proof.
  intros Hr E. apply traverse_ok_Forall2 in E. apply Forall_forall. intros p Hp.
  apply list_elem_of_lookup in Hp as [i Hi]. destruct (Forall2_lookup_r _ _ _ _ _ E Hi) as ([q v] & Hq & Hde).
  apply list_elem_of_lookup_2, t_get_iter, Hr in Hq as (t & id & r & -> & _ & _ & Hid & _).
  simpl in Hde. rewrite from_slice_ser in Hde. by injection Hde as <-.
Qed.

Lemma did_validate_blob_rows G D tx t es G1 tx1 es' tx2 : user_table t → utf8_valid t = true → did G D tx es G1 tx1 →
  validate_blob_rows c t es tx1 = Ok (es', tx2) → did G D tx es' G1 tx2.
Proof.
  intros Ht Hu I E. unfold validate_blob_rows in E. destruct (is_blob_table c t); simpl in E; [|by m_inv].
  apply M_bind_ok in E as (rs & tx3 & E1 & E). eapply did_open in E1 as [-> I3]; [|done..].
  apply M_bind_ok in E as ([] & tx4 & ->%check_blob_rows_same & E).
  apply M_bind_ok in E as (refs & tx4 & [= <- <-] & E).
  apply M_bind_ok in E as (keys & tx4 & [Ek ->]%lift_ok & E).
  eapply did_drop_orphans; [done| |done|exact E]. eapply refs_keys; [apply I3|done].
Qed.

Definition blob_ok (p : str * str * BlobRef) : Prop :=
  utf8_valid p.1.1 = true ∧ utf8_valid p.1.2 = true ∧ utf8_valid (b_id p.2) = true ∧ b_size p.2 < U64.

Lemma did_put_blobs G D tx l : Forall blob_ok l → ∀ es G1 tx1 es' tx2, did G D tx es G1 tx1 →
  put_blobs l es tx1 = Ok (es', tx2) → did G D tx es' G1 tx2.
Proof.
  induction 1 as [|[[t k] r] l (H1' & H2' & H3' & H4') Hl IH]; intros es G1 tx1 es' tx2 I E; cbn [put_blobs] in E.
  - by m_inv.
  - apply M_bind_ok in E as (e & tx3 & Eb & E). eapply IH; [|exact E]. by eapply did_blob_put in Eb.
Qed.

Lemma did_delete_silent G (D : Dirty) tx l : Forall del_ok l → ∀ es G1 tx1 es' tx2, did G D tx es G1 tx1 →
  delete_silent c l es tx1 = Ok (es', tx2) → did G (λ t, D t ∨ t ∈ (del_table <$> l)) tx es' G1 tx2.
Proof.
  intros Hl. revert D. induction Hl as [|[t k] l (Ht & Hu & Hk) Hl IH]; intros D es G1 tx1 es' tx2 I E; cbn [delete_silent] in E.
  - m_inv. eapply did_weaken; [done|by left].
  - apply M_bind_ok in E as ([] & tx3 & E1 & E). unfold remove_row in E1. m_inject E1.
    apply M_bind_ok in E as (o & tx4 & Eb & E).
    pose proof (did_put_silent _ _ _ _ _ _ t (t_remove (rows tx1 t) k) I Ht) as I3.
    assert (I4 : did G (λ t', D t' ∨ t' = t) tx (es ++ option_list o) G1 tx4).
    { destruct (is_blob_table c t); [by eapply did_blob_remove in Eb|]. m_inv. by rewrite app_nil_r. }
    eapply did_weaken; [by eapply IH|]. simpl. intros t' [[?|?]|?]; [by left|right; subst; left|right; by right].
Qed.

Lemma did_put_silent_all G (D : Dirty) tx es G1 l : Forall (λ w : Write, user_table w.1.1) l → ∀ tx1 tx2, did G D tx es G1 tx1 →
  for_each l (λ w : Write, put_row w.1.1 w.1.2 w.2) tx1 = Ok ((), tx2) → did G (λ t, D t ∨ t ∈ (write_table <$> l)) tx es G1 tx2.
Proof.
  intros Hl. revert D. induction Hl as [|[[t k] v] l Ht Hl IH]; intros D tx1 tx2 I E; cbn [for_each] in E.
  - m_inv. eapply did_weaken; [done|by left].
  - apply M_bind_ok in E as ([] & tx3 & E1 & E). unfold put_row in E1. m_inject E1. simpl in *.
    pose proof (did_put_silent _ _ _ _ _ _ t (t_insert (rows tx1 t) k v) I Ht) as I3.
    eapply did_weaken; [by eapply IH|]. simpl. intros t' [[?|?]|?]; [by left|right; subst; left|right; by right].
Qed.

(** ** Snapshots *)

(** Entries inserted in order: the last one for a key wins. *)
Definition put_all (l : list (str * bytes)) (k : str) (o : option bytes) : option bytes :=
  fold_left (λ o p, if decide (p.1 = k) then Some p.2 else o) l o.

Lemma put_all_table (t : table str bytes) k : put_all (t_iter t) k None = t_get t k.
Proof.
  assert (Hgen : ∀ (l : list (str * bytes)) (o o' : option bytes), (∀ v, (k, v) ∈ l → o' = Some v) →
    (o' = o ∨ ∃ v, (k, v) ∈ l) → put_all l k o = o').
  { induction l as [|[k1 v1] l IH]; intros o o' Hv Ho; cbn [put_all fold_left]; simpl.
    - destruct Ho as [->|[v Hn]]; [done|by apply elem_of_nil in Hn].
    - apply IH; [intros v Hin; apply Hv; by right|]. case_decide as Hk.
      + subst k1. left. apply Hv. left.
      + destruct Ho as [->|[v Hn]]; [by left|]. apply elem_of_cons in Hn as [Hn|Hn]; [simplify_eq/=|]. right. eauto. }
  apply Hgen.
  - intros v Hv. by apply t_get_iter.
  - destruct (t_get t k) as [v|] eqn:E; [right|by left]. exists v. by apply t_get_iter.
Qed.

Lemma fill_rows name l : ∀ tx tx', for_each l (λ p : str * bytes, put_row name p.1 p.2) tx = Ok ((), tx') →
  (∃ u, tx' = set_user u tx) ∧ (∀ n, n ≠ name → rows tx' n = rows tx n) ∧
  ∀ k, t_get (rows tx' name) k = put_all l k (t_get (rows tx name) k).
Proof.
  induction l as [|[k1 v1] l IH]; intros tx tx' E; cbn [for_each] in E.
  - m_inv. split_and!; try done. exists (user tx). by destruct tx.
  - apply M_bind_ok in E as ([] & tx1 & E1 & E). unfold put_row in E1. m_inject E1. simpl in E.
    apply IH in E as ([u ->] & Hn & Hk). split_and!; [by exists u| |].
    + intros n Hne. rewrite Hn, rows_put by done. by case_decide.
    + intros k. rewrite Hk, rows_put, decide_True by done. rewrite t_get_insert. unfold put_all. simpl.
      f_equal. by repeat case_decide.
Qed.

(** The references of the table go to their own snapshot. *)
Lemma fill_refs name t l : ∀ tx tx', for_each l (λ p : str * bytes,
    tk ← lift (from_slice (A := str * str) p.1);
    if bool_decide (tk.1 = t) then put_row name p.1 p.2 else mret ()) tx = Ok ((), tx') →
  (∃ u, tx' = set_user u tx) ∧ ∀ n, n ≠ name → rows tx' n = rows tx n.
Proof.
  intros tx tx' E. eapply (for_each_inv (λ y, (∃ u, y = set_user u tx) ∧ ∀ n, n ≠ name → rows y n = rows tx n));
    [| |exact E]; [|split; [exists (user tx); by destruct tx|done]].
  intros p y y' _ [Hu Hn] Ep. apply M_bind_ok in Ep as (tk & y1 & [_ ->]%lift_ok & Ep).
  case_bool_decide; [|by m_inv]. unfold put_row, modify in Ep. injection Ep as <-.
  split; [destruct Hu as [u ->]; by eexists|]. intros n Hne. rewrite rows_put. case_decide; [done|]. by apply Hn.
Qed.

Lemma capture_reset_spec t es tx G es' tx' : has_number tx (lit "reset_generation") G →
  user_table t → capture_reset t es tx = Ok (es', tx') →
  let s := snapshot_name (G + 1) in
  es' = es ++ [TableReset t s] ∧ G + 1 < U64 ∧
  (∃ u, tx' = set_user u (set_SEQ (t_insert (SEQ tx) (lit "reset_generation") (be_bytes 8 (G + 1))) tx)) ∧
  (∀ n, n ≠ s → n ≠ snapshot_blobs s → rows tx' n = rows tx n) ∧
  ((∀ k, store_of tx s k = None) → ∀ k, store_of tx' s k = store_of tx t k).
Proof.
  intros HG Ht E s. unfold capture_reset in E.
  apply M_bind_ok in E as (g & tx0 & E0 & E). apply (number_eq _ _ _ _ _ HG) in E0 as [-> ->].
  apply M_bind_ok in E as (g & tx0 & [Eg ->]%lift_ok & E).
  destruct (checked_add G 1) as [g'|] eqn:Ec; [|done]. injection Eg as ->.
  apply checked_add_Some in Ec as [-> Hlt]. fold s in E.
  apply M_bind_ok in E as ([] & tx0 & E0 & E). unfold put_number in E0. m_inject E0.
  apply M_bind_ok in E as (src & tx2 & (-> & E2 & R2)%open_same & E).
  apply M_bind_ok in E as (dst & tx3 & (_ & E3 & R3)%open_same & E).
  apply M_bind_ok in E as ([] & tx4 & ([u4 E4] & R4 & K4)%fill_rows & E).
  apply M_bind_ok in E as (refs & tx5 & [= <- <-] & E).
  apply M_bind_ok in E as (dst2 & tx6 & (_ & E6 & R6)%open_same & E).
  apply M_bind_ok in E as ([] & tx7 & ([u7 E7] & R7)%fill_refs & [= <- <-]).
  split_and!; [done|done| | |].
  - exists u7. by rewrite E7, E6, E4, E3, E2.
  - intros n Hn Hn2. by rewrite R7, R6, R4, R3, R2.
  - intros Hfresh k. unfold store_of in *. rewrite R7 by (unfold s; apply snapshot_blobs_ne).
    rewrite R6, K4, R3, R2.
    change (rows (set_SEQ (t_insert (SEQ tx) (lit "reset_generation") (be_bytes 8 (G + 1))) tx) s) with (rows tx s).
    rewrite Hfresh. apply put_all_table.
Qed.

Lemma did_capture_reset G (D : Dirty) tx t es G1 tx1 es' tx2 : user_table t → utf8_valid t = true →
  did G D tx es G1 tx1 → capture_reset t es tx1 = Ok (es', tx2) →
  did G (λ t', D t' ∧ t' ≠ t) tx es' (G1 + 1) tx2.
Proof.
  intros Ht Hu I E. pose proof (d_le _ _ _ _ _ _ I) as Hle.
  apply (capture_reset_spec _ _ _ _ _ _ (d_number _ _ _ _ _ _ I) Ht) in E as (-> & Hlt & [u E] & Hrows & Himg).
  specialize (Himg (λ k, d_fresh _ _ _ _ _ _ I (G1 + 1) k ltac:(lia))). set (s := snapshot_name (G1 + 1)) in *.
  assert (Hold : ∀ g, g ≠ G1 + 1 → rows tx2 (snapshot_name g) = rows tx1 (snapshot_name g)).
  { intros g Hg. apply Hrows; [by intros ?%snapshot_name_inj|apply snapshot_blobs_ne]. }
  assert (Huser : ∀ t, user_table t → rows tx2 t = rows tx1 t).
  { intros t' Ht'. apply Hrows; [by apply user_not_snapshot|by apply user_not_blobs]. }
  constructor; try (rewrite E; apply I); try lia.
  - intros key Hk. rewrite E. simpl. rewrite t_get_insert_ne by done. by apply I.
  - rewrite E. by apply has_number_put_eq.
  - intros g k Hg. unfold store_of. rewrite Hold by lia. apply I. lia.
  - eapply (snaps_in_app _ G1); [done|lia|apply I|]. exists [G1 + 1]. split_and!; [done|by repeat constructor|].
    repeat constructor; lia.
  - intros g Hg. rewrite Hold by lia. by apply I.
  - apply Forall_app. split; [apply I|]. repeat constructor; [done|apply snapshot_utf8].
  - intros t' k Ht' HD. rewrite replay_app. cbn [replay fold_left replay1]. case_decide as Et.
    + subst t'. unfold store_of at 1. rewrite (Huser t) by done. symmetry. apply Himg.
    + unfold store_of at 1. rewrite Huser by done. fold (store_of tx1 t' k).
      rewrite (d_replay _ _ _ _ _ _ I) by (auto; intros ?; by apply HD). apply replay_ext; [done|].
      intros s' t'' Hin k'. destruct (snaps_in_elem _ _ _ _ _ (d_snaps _ _ _ _ _ _ I) Hin) as (g & -> & ?).
      unfold store_of. rewrite Hold; [done|lia].
Qed.

Lemma did_reset_each G tx tables : Forall (λ t, user_table t ∧ utf8_valid t = true) tables →
  ∀ (D : Dirty) es G1 tx1 es' tx2, did G D tx es G1 tx1 → reset_each c tables es tx1 = Ok (es', tx2) →
  ∃ G2, did G (λ t, D t ∧ t ∉ tables) tx es' G2 tx2.
Proof.
  induction 1 as [|t tables [Ht Hu] Hts IH]; intros D es G1 tx1 es' tx2 I E; cbn [reset_each] in E.
  - m_inv. exists G1. eapply did_weaken; [done|]. intros t Hd. split; [done|]. apply not_elem_of_nil.
  - apply M_bind_ok in E as (es1 & tx3 & E1 & E). eapply did_validate_blob_rows in E1; [|done..].
    apply M_bind_ok in E as (es2 & tx4 & E2 & E). eapply did_capture_reset in E2; [|done..].
    eapply IH in E as [G2 I2]; [|done]. exists G2. eapply did_weaken; [done|]. simpl.
    intros t' [[? ?] ?]. split; [done|]. by apply not_elem_of_cons.
Qed.
End repository_spec.
