(* ===== verification/ManagerSpec.v ===== *)
(** * The whole database stays consistent

    [db_inv] is what holds of the primary file between transactions: a well-formed
    log, snapshots under fresh names, readable references, exact unique keys and
    honoured identities.  [write_did]: a write whose body [did] what it logged keeps
    all of it, and keeps every copy that still has its changes in sync. *)
From S2P Require Import Prelude Order Redb Memory JournalCodec Fields OrderedCodec Eval Tx LastWrite IdContract Unique UniqueSpec JournalBlob Journal JournalSpec JournalOps Repository Replica RepositorySpec.
Local Open Scope N_scope.

Section manager_spec.
Context `{Redb, Allocator, TextLib}
  {SPair : Serde (str * str)} {SIdx : Serde (str * N)} {SKeys : Serde (list bytes)}
  {SDefs : Serde (list Unique)} {SPath : Serde Path} {SRef : Serde BlobRef} {SCons : Serde Consumer}
  {PIdx : @PrefixFree _ SIdx}.

Record db_inv (db : Tx) (L : Log) : Prop := {
  v_log : journal_ok db L;
  v_refs : refs_ok db;
  v_snaps : ∃ G, snaps_ok db (l_changes L) G;
  v_unique : uq_ok db;
  v_uq_user : ∀ t, is_Some (t_get (UQ_DEFS db) t) → user_table t;
  v_id : honoured db;
  v_id_user : ∀ t, is_Some (t_get (ID_DEFS db) t) → user_table t;
}.

(** The constraints see the rows of user tables only. *)
Lemma uq_ok_ext tx tx' : UQ_DEFS tx' = UQ_DEFS tx → UQ_KEYS tx' = UQ_KEYS tx → UQ_REVERSE tx' = UQ_REVERSE tx →
  (∀ t, is_Some (t_get (UQ_DEFS tx) t) → rows tx' t = rows tx t) → uq_ok tx → uq_ok tx'.
Proof.
  intros Ed Ek Er Hr G. eapply registered_proper; [exact Ed|exact Ek|exact Er| |exact G].
  intros t k v. unfold all_rows. rewrite Ed. split; intros [Hd Hv]; (split; [done|]); [by rewrite Hr|by rewrite Hr in Hv].
Qed.

Lemma honoured_ext tx tx' : ID_DEFS tx' = ID_DEFS tx →
  (∀ t, is_Some (t_get (ID_DEFS tx) t) → rows tx' t = rows tx t) → honoured tx → honoured tx'.
Proof.
  intros Ei Hr Hh t p Hp. rewrite Ei in Hp. destruct (Hh t p Hp) as (path & ? & Hc). exists path. split; [done|].
  intros k v. rewrite Hr by by exists p. apply Hc.
Qed.

Lemma did_repr G D db es G1 tx1 L : did G D db es G1 tx1 → repr db L → repr tx1 L.
Proof.
  intros I []. constructor; unfold has_number in *; rewrite ?(d_seq _ _ _ _ _ _ I), ?(d_changes _ _ _ _ _ _ I) by done; try done.
  intros name. by rewrite (d_consumers _ _ _ _ _ _ I).
Qed.

(** What replays is covered: the validations see every row that changed. *)
Lemma did_cover G db es G1 tx1 : did G (λ _, False) db es G1 tx1 →
  (∀ t, is_Some (t_get (UQ_DEFS db) t) → user_table t) → effects_cover db tx1 es.
Proof.
  intros I Hu. split_and!; [apply I..|]. intros t k Hd.
  pose proof (d_replay _ _ _ _ _ _ I t k (Hu t Hd) ltac:(tauto)) as Hr. unfold store_of in Hr at 1.
  destruct (replay_source (store_of tx1) es (store_of db) t k) as [E|[(v & ? & _)|[[? _]|(s & ? & _)]]]; eauto.
  left. by rewrite Hr, E.
Qed.

Lemma did_written G db es G1 tx1 : did G (λ _, False) db es G1 tx1 →
  (∀ t, is_Some (t_get (ID_DEFS db) t) → user_table t) → written_through db tx1 es.
Proof.
  intros I Hu. split; [apply I|]. intros t k v Hd Hv.
  pose proof (d_replay _ _ _ _ _ _ I t k (Hu t Hd) ltac:(tauto)) as Hr. unfold store_of in Hr at 1. rewrite Hv in Hr.
  unfold row_covered. destruct (replay_source (store_of tx1) es (store_of db) t k) as [E|[(v' & ? & E)|[[? E]|(s & ? & E)]]];
    rewrite E in Hr; simplify_eq; eauto.
Qed.

(** The invariant and the copies through a sweep. *)
Lemma db_inv_sweep db L db' L' : db_inv db L → sweep db db' → journal_ok db' L' → continues L L' →
  db_inv db' L' ∧ (∀ t, user_table t → rows db' t = rows db t) ∧
  ∀ a copy, a <= l_head L → l_floor L' <= a + 1 → in_sync db L a copy → in_sync db' L' a copy.
Proof.
  intros I W [R' J'] Cn. destruct (v_log _ _ I) as [R _]. destruct (v_snaps _ _ I) as [G Sn].
  destruct (continues_drops _ _ _ _ R R' W Cn) as [Hdrop Hd].
  assert (Hu : ∀ t, user_table t → rows db' t = rows db t).
  { intros t Ht. eapply sweep_user; [exact R|apply Sn|done..]. }
  split_and!; [|done|].
  - constructor.
    + by split.
    + intros k v. rewrite (s_refs _ _ W). apply I.
    + exists G. by eapply sweep_snaps.
    + eapply uq_ok_ext; [apply W..| |apply I]. intros t Ht. by apply Hu, (v_uq_user _ _ I).
    + intros t. rewrite (s_defs _ _ W). apply (v_uq_user _ _ I).
    + eapply honoured_ext; [apply W| |apply I]. intros t Ht. by apply Hu, (v_id_user _ _ I).
    + intros t. rewrite (s_id _ _ W). apply (v_id_user _ _ I).
  - intros a copy Ha Hf Hs. eapply sweep_sync; try done; [apply Sn|]. apply Hd. lia.
Qed.

(** The append itself: the body's rows, the two validations, then the new rows of the log. *)
Lemma append_inv G db L es G1 tx1 tx2 tx3 tx4 :
  db_inv db L → snaps_ok db (l_changes L) G → did G (λ _, False) db es G1 tx1 →
  IdContract.validate es tx1 = Ok ((), tx2) → Unique.validate es tx2 = Ok ((), tx3) → append_all es tx3 = Ok ((), tx4) →
  l_head L + len es + 1 < U64 →
  db_inv tx4 (l_append es L) ∧ (∀ n, rows tx4 n = rows tx1 n) ∧
  ∀ a copy, l_floor L <= a + 1 → a <= l_head L → in_sync db L a copy → in_sync tx4 (l_append es L) a copy.
Proof.
  intros I Sn Dd Ei Eu Ea Hroom. destruct (v_log _ _ I) as [R J].
  pose proof (did_cover _ _ _ _ _ Dd (v_uq_user _ _ I)) as Hcov.
  destruct (validate_honours _ _ _ _ (v_id _ _ I) (did_written _ _ _ _ _ Dd (v_id_user _ _ I)) Ei) as [Hh (u2 & E2 & R2)].
  assert (effects_cover db tx2 es) as Hcov2.
  { destruct Hcov as (H1' & H2' & H3' & H4'). subst tx2. split_and!; try done. intros t k Hd. rewrite R2. by apply H4'. }
  destruct (validate_spec _ _ _ _ (v_unique _ _ I) Hcov2 Eu) as [Hq (a3 & b3 & u3 & E3 & R3)].
  pose proof (append_all_appended _ _ _ Ea) as A4.
  assert (Hrows : ∀ n, rows tx4 n = rows tx1 n) by (intros n; by rewrite (a_rows _ _ A4), R3, R2).
  eapply append_all_spec in Ea as (R4 & J4 & _ & _); [| |exact J|apply Dd|done].
  2: { subst tx3 tx2. eapply (repr_ext tx1); [done..|]. by eapply did_repr. }
  split_and!; [|done|].
  - constructor.
    + by split.
    + intros k v. rewrite (a_refs _ _ A4). subst tx3 tx2. apply Dd.
    + exists G1. constructor.
      * unfold has_number. rewrite (a_reset _ _ A4). subst tx3 tx2. apply Dd.
      * intros g k Hg. unfold store_of. rewrite Hrows. by apply Dd.
      * simpl. eapply (snaps_in_app _ G); [lia|apply Dd|apply Sn|apply Dd].
    + eapply uq_ok_ext; [apply A4..| |exact Hq]. intros t _. apply A4.
    + intros t. rewrite (a_defs _ _ A4). subst tx3 tx2. simpl. rewrite (d_defs _ _ _ _ _ _ Dd). apply (v_uq_user _ _ I).
    + eapply honoured_ext; [apply A4| |eapply honoured_ext; [| |exact Hh]]; [intros t _; apply A4|by subst tx3|].
      intros t _. apply R3.
    + intros t. rewrite (a_id _ _ A4). subst tx3 tx2. simpl. rewrite (d_id _ _ _ _ _ _ Dd). apply (v_id_user _ _ I).
  - intros a copy Hf Ha Hs t k Ht.
    assert (Himg : ∀ s t', TableReset t' s ∈ l_changes L → ∀ k, store_of db s k = store_of tx4 s k).
    { intros s t' Hin k'. destruct (snaps_in_elem _ _ _ _ _ (n_snaps _ _ _ Sn) Hin) as (g & -> & ?).
      unfold store_of. rewrite Hrows. f_equal. symmetry. apply (d_old _ _ _ _ _ _ Dd). lia. }
    assert (after_changes (l_append es L) a = after_changes L a ++ es) as ->.
    { unfold after_changes. simpl. rewrite drop_app_le; [done|]. unfold l_head, len in *. pose proof (r_low _ _ R). lia. }
    rewrite replay_app. unfold store_of at 1. rewrite Hrows. fold (store_of tx1 t k).
    rewrite (d_replay _ _ _ _ _ _ Dd t k Ht ltac:(tauto)). apply replay_ext.
    + rewrite (Hs t k Ht). apply replay_ext; [done|]. intros s t' Hin. apply (Himg s t').
      unfold after_changes in Hin. apply list_elem_of_lookup in Hin as [i Hi]. rewrite lookup_drop in Hi.
      by eapply list_elem_of_lookup_2.
    + intros s t' Hin k'. unfold store_of. by rewrite Hrows.
Qed.

(** What a committed write keeps. *)
Record keeps (db : Tx) (L : Log) (db' : Tx) (L' : Log) : Prop := {
  k_inv : db_inv db' L';
  k_continues : continues L L';
  k_head : l_head L <= l_head L';
  k_sync : ∀ a copy, l_floor L <= a + 1 → a <= l_head L → l_floor L' <= a + 1 →
    in_sync db L a copy → in_sync db' L' a copy;
}.

Lemma keeps_refl db L : db_inv db L → keeps db L db L.
Proof. intros I. constructor; try done. apply continues_refl. Qed.

Lemma keeps_trans db1 L1 db2 L2 db3 L3 : keeps db1 L1 db2 L2 → keeps db2 L2 db3 L3 → keeps db1 L1 db3 L3.
Proof.
  intros [I1 C1 H1' S1] [I2 C2 H2' S2]. constructor; [done|by eapply continues_trans|lia|].
  intros a copy ? ? ? ?. pose proof (c_floor _ _ C2). apply S2; [lia|lia|done|]. apply S1; try done. lia.
Qed.

Lemma continues_head L L' : 1 <= l_floor L → continues L L' → l_head L <= l_head L'.
Proof.
  intros Hlo [Cf _ _ (es & Cb & Cc)]. unfold l_head. rewrite Cc, len_drop.
  rewrite len_app in Cb. rewrite len_app. lia.
Qed.

Lemma keeps_sweep db L db' L' : db_inv db L → sweep db db' → journal_ok db' L' → continues L L' → keeps db L db' L'.
Proof.
  intros I W J Cn. destruct (db_inv_sweep _ _ _ _ I W J Cn) as (I' & _ & Hs).
  constructor; try done; [|by intros; apply Hs]. apply continues_head; [|done]. apply (v_log _ _ I).
Qed.

(** What a body may do: first whatever keeps the database, then what it logged. *)
Definition body_did (db : Tx) (L : Log) (es : list ChangeKind) (tx1 : Tx) : Prop :=
  ∃ tx0 L0 G G1, keeps db L tx0 L0 ∧ snaps_ok tx0 (l_changes L0) G ∧ did G (λ _, False) tx0 es G1 tx1 ∧
    l_head L0 = l_head L ∧ l_head L + len es + 1 < U64.

Lemma write_did {A} r commit (f : M (A * list ChangeKind)) db L res db' :
  db_inv db L → (∀ out es tx1, f db = Ok ((out, es), tx1) → body_did db L es tx1) →
  write_with_sink r commit f db = (res, db') →
  match res with
  | Err _ => db' = db
  | Ok (out, _) => ∃ es tx1 L', f db = Ok ((out, es), tx1) ∧ keeps db L db' L' ∧ l_head L' = l_head L + len es ∧
      ∀ t, user_table t → rows db' t = rows tx1 t
  end.
Proof.
  intros I Hf E. unfold write_with_sink in E.
  destruct (write_body r f db) as [[[out ev] db1]|e] eqn:Eb; [|by injection E as <- <-].
  destruct commit as [[]|]; injection E as <- <-; [|done].
  destruct (write_body_parts _ _ _ _ _ _ Eb) as (es & tx1 & tx2 & tx3 & tx4 & Ef & Ei & Eu & A4 & W & Ea).
  destruct (Hf _ _ _ Ef) as (tx0 & L0 & G & G1 & K0 & Sn & Dd & Eh0 & Hroom). rewrite <-Eh0 in Hroom |- *.
  destruct (append_inv _ _ _ _ _ _ _ _ _ (k_inv _ _ _ _ K0) Sn Dd Ei Eu Ea Hroom) as (I4 & Hrows & Hsync).
  destruct (v_log _ _ (k_inv _ _ _ _ K0)) as [R J].
  destruct (write_body_spec r f db out es tx1 L0 out ev db1 Ef) as [_ [L' Wr]];
    [by eapply did_repr|done|apply Dd|done|done|].
  pose proof (w_evolves _ _ _ _ _ _ Wr) as V.
  assert (continues (l_append es L0) L') as Cn4.
  { constructor; try apply V; [by rewrite (e_generation _ _ V)|]. exists []. rewrite app_nil_r. split; apply V. }
  destruct (db_inv_sweep _ _ _ _ I4 W ltac:(split; apply Wr) Cn4) as (I' & Hu & Hs').
  assert (l_head (l_append es L0) = l_head L0 + len es) as Eh.
  { pose proof (r_low _ _ R). unfold l_head, l_append. simpl. rewrite len_app. lia. }
  assert (l_head L' = l_head L0 + len es) as Eh'.
  { rewrite <-Eh. apply V. apply R. }
  exists es, tx1, L'. split_and!; [done| |done|].
  - eapply keeps_trans; [done|]. constructor; [done|by eapply evolves_continues|lia|].
    intros a copy ? ? ? ?. apply Hs'; [lia|done|]. by apply Hsync.
  - intros t Ht. by rewrite Hu, Hrows.
Qed.

(** ** Consumers *)

(** A body without effects that only sweeps. *)
Definition quiet {A} (f : M (A * list ChangeKind)) (db : Tx) (L : Log) : Prop :=
  ∀ out es tx1, f db = Ok ((out, es), tx1) → es = [] ∧ sweep db tx1 ∧
    ∃ L1, repr tx1 L1 ∧ log_inv L1 ∧ continues L L1 ∧ l_head L1 = l_head L.

Lemma quiet_did {A} (f : M (A * list ChangeKind)) db L out es tx1 : db_inv db L → quiet f db L →
  f db = Ok ((out, es), tx1) → body_did db L es tx1.
Proof.
  intros I Hs E. destruct (Hs _ _ _ E) as (-> & W & L1 & R1 & J1 & Cn & Hh).
  pose proof (keeps_sweep _ _ _ _ I W (conj R1 J1) Cn) as K. destruct (v_snaps _ _ (k_inv _ _ _ _ K)) as [G Sn].
  exists tx1, L1, G, G. split_and!; try done.
  - apply did_start; [apply Sn..|]. apply (k_inv _ _ _ _ K).
  - rewrite len_nil. destruct (v_log _ _ I) as [R _]. pose proof (r_high _ _ R). lia.
Qed.

(** An operation that leaves every row alone. *)
Definition spares (db : Tx) (L : Log) (db' : Tx) : Prop :=
  ∃ L', keeps db L db' L' ∧ ∀ t, user_table t → rows db' t = rows db t.

Lemma spares_refl db L : db_inv db L → spares db L db.
Proof. intros I. exists L. split; [by apply keeps_refl|done]. Qed.

Lemma quiet_write {A} r commit (f : M (A * list ChangeKind)) db L res db' : db_inv db L → quiet f db L →
  write_with_sink r commit f db = (res, db') → spares db L db'.
Proof.
  intros I Q E. pose proof (write_did r commit f db L res db' I (λ out es tx1, quiet_did f db L out es tx1 I Q) E) as Hw.
  destruct res as [[out ev]|e]; [|subst; by apply spares_refl].
  destruct Hw as (es & tx1 & L' & Ef & K & _ & Hu). exists L'. split; [done|]. intros t Ht. rewrite Hu by done.
  destruct (Q _ _ _ Ef) as (_ & W & _). destruct (v_log _ _ I) as [R _], (v_snaps _ _ I) as [G Sn].
  eapply sweep_user; [done|apply Sn|done|done].
Qed.

Lemma register_quiet name int now db L : db_inv db L → quiet (register_tx name int now) db L.
Proof.
  intros I out es tx1 E. destruct (v_log _ _ I) as [R J].
  destruct (register_tx_spec _ _ _ _ _ _ _ _ R J E) as (-> & -> & R1 & _). split_and!; [done| |].
  - clear R1. unfold register_tx in E. apply M_bind_ok in E as ([] & tx & E1 & E).
    assert (tx = db) as -> by (destruct int; m_inv; [done|]; by case_match; m_inv).
    apply M_bind_ok in E as (g & tx & ->%number_same & E). apply M_bind_ok in E as (g' & tx & [_ ->]%lift_ok & E).
    apply M_bind_ok in E as ([] & tx & E2 & E). unfold put_number in E2. m_inject E2.
    apply M_bind_ok in E as (h & tx & ->%number_same & E). unfold put_consumer in E. m_inv.
    etrans; [|apply sweep_consumers]. by apply sweep_number.
  - exists (l_register L name int now). split_and!; [done|apply log_inv_register; [apply R|done]| |done].
    constructor; simpl; try lia; try done. exists []. rewrite app_nil_r, N.sub_diag, drop_0. split; [lia|done].
Qed.

Lemma ack_quiet token seq db L : db_inv db L → quiet (ack_tx token seq) db L.
Proof.
  intros I out es tx1 E. destruct (v_log _ _ I) as [R J].
  destruct (ack_tx_spec _ _ _ _ _ _ _ R J E) as (-> & _ & c & m & _ & _ & _ & _ & Hp). split_and!; [done| |by eauto].
  clear Hp. unfold ack_tx, put_consumer in E. m_inv.
  match goal with Hn : number _ _ = _ |- _ => apply number_same in Hn as -> end.
  case_match; [done|]. m_inv. etrans; [apply sweep_consumers|]. by apply sweep_prune_acked.
Qed.

Lemma unregister_quiet name db L : db_inv db L → quiet (unregister_tx name) db L.
Proof.
  intros I out es tx1 E. destruct (v_log _ _ I) as [R J].
  destruct (unregister_tx_spec _ _ _ _ _ _ R J E) as (-> & _ & Hp). split_and!; [done| |by eauto].
  clear Hp. unfold unregister_tx in E. m_inv. case_match; [done|]. m_inv.
  etrans; [apply sweep_consumers|]. by apply sweep_prune_acked.
Qed.

Lemma disable_quiet db L : db_inv db L → quiet disable_tx db L.
Proof.
  intros I out es tx1 E. destruct (v_log _ _ I) as [R J].
  destruct (disable_tx_spec _ _ _ _ _ R J E) as (-> & _ & Hp). split_and!; [done| |by eauto].
  clear Hp. unfold disable_tx, put_consumer in E. m_inv. repeat case_match; m_inv; try done. apply sweep_consumers.
Qed.

(** The operations of a consumer. *)
Inductive consumer_step (db : Tx) : Tx → Prop :=
| cs_register r commit name int now res db' :
    register_journal_consumer r commit name int now db = (res, db') → consumer_step db db'
| cs_ack r commit token seq res db' : ack r commit token seq db = (res, db') → consumer_step db db'
| cs_unregister r commit name res db' : unregister_consumer r commit name db = (res, db') → consumer_step db db'
| cs_disable r commit res db' : disable_index_consumer r commit db = (res, db') → consumer_step db db'
| cs_resume r commit now res db' : resume_index_consumer r commit now db = (res, db') → consumer_step db db'.

Lemma register_keeps r commit name int now db L res db' : db_inv db L →
  register_journal_consumer r commit name int now db = (res, db') → spares db L db'.
Proof.
  intros I E. unfold register_journal_consumer in E.
  case_bool_decide; [injection E as <- <-; by apply spares_refl|].
  destruct (write_with_sink _ _ _ _) as [res1 db1] eqn:Ew. injection E as <- <-.
  eapply quiet_write; [done|by apply register_quiet|exact Ew].
Qed.

Lemma consumer_keeps db db' L : db_inv db L → consumer_step db db' → spares db L db'.
Proof.
  intros I Hs. assert (spares db L db) as Hrefl by by apply spares_refl.
  destruct Hs as [r commit name int now res db' E|r commit token seq res db' E|r commit name res db' E|
    r commit res db' E|r commit now res db' E].
  - by eapply register_keeps.
  - unfold ack in E. destruct (write_with_sink _ _ _ _) as [res1 db1] eqn:Ew. simplify_eq.
    eapply quiet_write; [done|by apply ack_quiet|exact Ew].
  - unfold unregister_consumer in E. destruct (write_with_sink _ _ _ _) as [res1 db1] eqn:Ew. simplify_eq.
    eapply quiet_write; [done|by apply unregister_quiet|exact Ew].
  - unfold disable_index_consumer in E. destruct (write_with_sink _ _ _ _) as [res1 db1] eqn:Ew. simplify_eq.
    eapply quiet_write; [done|by apply disable_quiet|exact Ew].
  - unfold resume_index_consumer in E. destruct (let? _ := _ in _) as [[uuid existing]|]; simplify_eq; [|done].
    destruct (register_journal_consumer _ _ _ _ _ _) as [r1 db1] eqn:Er.
    assert (spares db L db1) by by eapply register_keeps.
    destruct existing as [c|]; simplify_eq; [|done].
    by destruct (internal c && active c && negb (needs_rebuild c)); simplify_eq.
Qed.

(** A new database is consistent. *)
Lemma create_inv uuid db : create uuid tx_new = Ok ((), db) → db_inv db (empty_log uuid).
Proof.
  intros E. pose proof (create_ok _ _ E) as J. unfold create, mark_adoption_due, initialize in E. m_inv.
  cbn [SEQ tx_new set_SEQ] in *. rewrite t_get_new in *. cbn [SEQ tx_new set_SEQ] in *.
  rewrite t_get_insert_ne, t_get_new in * by done.
  assert (Hrows : ∀ s n, rows (set_SEQ s tx_new) n = t_new) by (intros; unfold rows; simpl; by rewrite lookup_empty).
  constructor.
  - done.
  - intros k v. simpl. by rewrite t_get_new.
  - exists 0. constructor; [|intros g k _; unfold store_of, rows; simpl; rewrite lookup_empty; apply t_get_new|apply snaps_in_nil].
    split; [done|]. simpl. rewrite !t_get_insert. by repeat case_decide.
  - unfold uq_ok, all_rows. constructor; intros *; simpl; rewrite ?t_get_new; try done; by intros [[? ?] _].
  - intros t [? Hx]. simpl in Hx. by rewrite t_get_new in Hx.
  - intros t q Hx. simpl in Hx. by rewrite t_get_new in Hx.
  - intros t [? Hx]. simpl in Hx. by rewrite t_get_new in Hx.
Qed.
End manager_spec.
