(* ===== verification/ManagerOps.v ===== *)
(** * The manager's operations on a consistent database

    Each write of [repository.rs] keeps [db_inv] and every copy in sync, and its effect
    on rows and cache is a plain fold over what it was asked to do. *)
From S2P Require Import Prelude Order Redb Memory JournalCodec Fields OrderedCodec Eval Tx LastWrite IdContract Unique UniqueSpec JournalBlob Journal JournalSpec JournalOps Repository Replica RepositorySpec ManagerSpec.
Local Open Scope N_scope.

(** ** What a list of changes does to one row *)

Definition after_writes (writes : list Write) (t k : str) (o : option bytes) : option bytes :=
  fold_left (λ o w, if decide (w.1.1 = t ∧ w.1.2 = k) then Some w.2 else o) writes o.
Definition after_deletes (deletes : list Del) (t k : str) (o : option bytes) : option bytes :=
  fold_left (λ o d, if decide (d.1 = t ∧ d.2 = k) then None else o) deletes o.

Lemma after_writes_app ws1 ws2 t k o : after_writes (ws1 ++ ws2) t k o = after_writes ws2 t k (after_writes ws1 t k o).
Proof. apply fold_left_app. Qed.
Lemma after_deletes_app ds1 ds2 t k o : after_deletes (ds1 ++ ds2) t k o = after_deletes ds2 t k (after_deletes ds1 t k o).
Proof. apply fold_left_app. Qed.

(** [a] knows nothing wrong about [b]. *)
Definition known (a b : option bytes) : Prop := ∀ v, a = Some v → b = Some v.

Lemma known_writes ws t k : ∀ a b, known a b → known (after_writes ws t k a) (after_writes ws t k b).
Proof. induction ws as [|w ws IH]; intros a b Hk; simpl; [done|]. apply IH. case_decide; [by intros v|done]. Qed.
Lemma known_deletes ds t k : ∀ a b, known a b → known (after_deletes ds t k a) (after_deletes ds t k b).
Proof. induction ds as [|d ds IH]; intros a b Hk; simpl; [done|]. apply IH. case_decide; [by intros v|done]. Qed.

(** ** Cache keys *)

Definition no_colon (t : str) : Prop := Byte.x3a ∉ t.
#[global] Instance no_colon_dec t : Decision (no_colon t).
Proof. unfold no_colon. apply _. Defined.

Lemma cache_key_inj t k t' k' : no_colon t → no_colon t' → cache_key t k = cache_key t' k' → t = t' ∧ k = k'.
Proof.
  unfold cache_key, no_colon. revert t'. induction t as [|b t IH]; intros [|b' t'] Hn Hn' E; simpl in E.
  - by injection E as ->.
  - injection E as <- _. exfalso. apply Hn'. left.
  - injection E as -> _. exfalso. apply Hn. left.
  - injection E as -> E. destruct (IH t') as [-> ->]; [set_solver|set_solver|done|done].
Qed.

Section manager_ops.
Context `{Redb, Allocator, TextLib}
  {SPair : Serde (str * str)} {SIdx : Serde (str * N)} {SKeys : Serde (list bytes)}
  {SDefs : Serde (list Unique)} {SPath : Serde Path} {SRef : Serde BlobRef} {SCons : Serde Consumer}
  {PIdx : @PrefixFree _ SIdx} `{!Host} (c : Config).

(** ** The rows of [apply_changes] *)

Lemma write_rows_store writes : ∀ es tx es' tx', write_rows c writes es tx = Ok (es', tx') →
  ∀ t k, store_of tx' t k = after_writes writes t k (store_of tx t k).
Proof.
  induction writes as [|[[t0 k0] v0] writes IH]; intros es tx es' tx' E t k; cbn [write_rows] in E; [by m_inv|].
  apply M_bind_ok in E as ([] & tx1 & E1 & E).
  assert (tx1 = tx) as ->.
  { destruct (is_blob_table c t0); m_inv; [|done].
    match goal with Hg : JournalBlob.get _ _ _ = Ok (?o, _) |- _ => apply blob_get_same in Hg as ->; destruct o end; by m_inv. }
  apply M_bind_ok in E as (v & tx1 & [_ ->]%lift_ok & E). apply M_bind_ok in E as ([] & tx1 & E3 & E).
  unfold put_row in E3. m_inject E3. rewrite (IH _ _ _ _ E). simpl. f_equal. unfold store_of. rewrite rows_put.
  case_decide as Ht.
  - subst. rewrite t_get_insert. repeat case_decide; naive_solver.
  - rewrite decide_False; [done|naive_solver].
Qed.

Lemma blob_remove_rows t k tx o tx' n : JournalBlob.remove t k tx = Ok (o, tx') → rows tx' n = rows tx n.
Proof. unfold JournalBlob.remove. intros E. m_inv. destruct (t_get _ _); by m_inv. Qed.

Lemma delete_rows_store deletes : ∀ rm es tx rm' es' tx', delete_rows c deletes rm es tx = Ok ((rm', es'), tx') →
  (∀ t k, store_of tx' t k = after_deletes deletes t k (store_of tx t k)) ∧ length rm' = (length rm + length deletes)%nat.
Proof.
  induction deletes as [|[t0 k0] deletes IH]; intros rm es tx rm' es' tx' E; cbn [delete_rows] in E.
  { m_inv. split; [done|]. simpl. lia. }
  apply M_bind_ok in E as (rs & tx1 & (-> & _ & Hr)%open_same & E). apply M_bind_ok in E as ([] & tx2 & E2 & E).
  unfold remove_row in E2. m_inject E2. apply M_bind_ok in E as (o & tx3 & E3 & E).
  destruct (IH _ _ _ _ _ _ E) as [Hs Hl]. split; [|rewrite Hl, length_app; simpl; lia].
  intros t k. rewrite Hs. simpl. f_equal. unfold store_of.
  assert (rows tx3 t = rows (set_user (<[t0 := t_remove (rows tx1 t0) k0]> (user tx1)) tx1) t) as ->.
  { destruct (is_blob_table c t0); [by eapply blob_remove_rows in E3|by m_inv]. }
  rewrite rows_put, !Hr. case_decide as Ht.
  - subst. rewrite t_get_remove. repeat case_decide; naive_solver.
  - rewrite decide_False; [done|naive_solver].
Qed.

Lemma change_rows_store writes deletes tx rm es tx' : change_rows c writes deletes tx = Ok ((rm, es), tx') →
  (∀ t k, store_of tx' t k = after_deletes deletes t k (after_writes writes t k (store_of tx t k))) ∧
  length rm = length deletes.
Proof.
  unfold change_rows. intros E. apply M_bind_ok in E as ([] & tx1 & [_ ->]%lift_ok & E).
  apply M_bind_ok in E as (es1 & tx1 & E1 & E). destruct (delete_rows_store _ _ _ _ _ _ _ E) as [Hs Hl].
  split; [|done]. intros t k. by rewrite Hs, (write_rows_store _ _ _ _ _ E1).
Qed.

(** At most one change per write and two per delete. *)
Lemma write_rows_len writes : ∀ es tx es' tx', write_rows c writes es tx = Ok (es', tx') → len es' = len es + len writes.
Proof.
  induction writes as [|[[t k] v] writes IH]; intros es tx es' tx' E; cbn [write_rows] in E.
  { m_inv. rewrite len_nil. lia. }
  apply M_bind_ok in E as ([] & tx1 & _ & E). apply M_bind_ok in E as (v' & tx2 & _ & E).
  apply M_bind_ok in E as ([] & tx3 & _ & E). rewrite (IH _ _ _ _ E), len_app, !len_cons, len_nil. lia.
Qed.

Lemma delete_rows_len deletes : ∀ rm es tx rm' es' tx', delete_rows c deletes rm es tx = Ok ((rm', es'), tx') →
  len es' <= len es + 2 * len deletes.
Proof.
  induction deletes as [|[t k] deletes IH]; intros rm es tx rm' es' tx' E; cbn [delete_rows] in E.
  { m_inv. lia. }
  apply M_bind_ok in E as (rs & tx1 & _ & E). apply M_bind_ok in E as ([] & tx2 & _ & E).
  apply M_bind_ok in E as (o & tx3 & _ & E). apply IH in E. rewrite !len_app in E. rewrite len_cons.
  assert (len (option_list o) <= 1) by by destruct o.
  assert (len (if bool_decide (is_Some (t_get rs k)) then [Delete t k] else []) <= 1) by by case_bool_decide. lia.
Qed.

Lemma change_rows_len writes deletes tx rm es tx' : change_rows c writes deletes tx = Ok ((rm, es), tx') →
  len es <= len writes + 2 * len deletes.
Proof.
  unfold change_rows. intros E. apply M_bind_ok in E as ([] & tx1 & _ & E). apply M_bind_ok in E as (es1 & tx2 & E1 & E).
  apply write_rows_len in E1. apply delete_rows_len in E. rewrite len_nil in E1. lia.
Qed.

(** ** The bodies log what they do *)

Definition utf8_write (w : Write) : Prop := utf8_valid w.1.1 = true ∧ utf8_valid w.1.2 = true.
Definition utf8_del (d : Del) : Prop := utf8_valid d.1 = true ∧ utf8_valid d.2 = true.

Lemma validate_tables_ok l : validate_tables l = Ok () → Forall user_table l.
Proof.
  unfold validate_tables. intros E. destruct (traverse validate_table l) as [us|] eqn:Et; [|done].
  apply traverse_ok_Forall2 in Et. clear E. induction Et as [|t u l us Ht Hl IH]; constructor; [|done].
  unfold validate_table in Ht. unfold user_table. by destruct (starts_with t _).
Qed.

Lemma change_rows_did writes deletes db G out es tx1 :
  Forall user_table ((write_table <$> writes) ++ (del_table <$> deletes)) → Forall utf8_write writes → Forall utf8_del deletes →
  did G (λ _, False) db [] G db → change_rows c writes deletes db = Ok ((out, es), tx1) →
  did G (λ _, False) db es G tx1.
Proof.
  intros [Hw Hd]%Forall_app Uw Ud I E. unfold change_rows in E.
  apply M_bind_ok in E as ([] & tx & [_ ->]%lift_ok & E). apply M_bind_ok in E as (es1 & tx & E1 & E).
  rewrite Forall_fmap in Hw; rewrite Forall_fmap in Hd. eapply did_write_rows in E1 as [I1 _]; [| |exact I].
  - eapply did_delete_rows; [|exact I1|exact E]. apply Forall_forall. intros d Hin. rewrite Forall_forall in Hd; rewrite Forall_forall in Ud.
    split; [exact (Hd d Hin)|exact (Ud d Hin)].
  - apply Forall_forall. intros w Hin. rewrite Forall_forall in Hw; rewrite Forall_forall in Uw. split; [exact (Hw w Hin)|exact (Uw w Hin)].
Qed.

Lemma replace_rows_did table entries db G out es tx1 : user_table table → utf8_valid table = true →
  did G (λ _, False) db [] G db → replace_rows c table entries db = Ok ((out, es), tx1) →
  ∃ G1, did G (λ _, False) db es G1 tx1.
Proof.
  intros Ht Hu I E. unfold replace_rows in E. apply M_bind_ok in E as ([] & tx & E1 & E).
  unfold delete_table in E1. m_inject E1.
  assert (I1 : did G (λ t, False ∨ t = table) db [] G (set_user (delete table (user db)) db)).
  { rewrite <-(app_nil_r []). eapply did_step; [exact I| |apply I|constructor|done|by left|].
    - exists (delete table (user db)), (REFS db). split; [by destruct db|]. intros n Hn. rewrite rows_delete.
      case_decide; [by subst|done].
    - intros t' k' _ Hd. unfold store_of. rewrite rows_delete. case_decide; [|done]. subst. tauto. }
  apply M_bind_ok in E as (x & tx & E2 & E). eapply did_open in E2 as [_ I2]; [|exact I1|done].
  apply M_bind_ok in E as ([] & tx' & E3 & E).
  assert (I3 : did G (λ t, t = table) db [] G tx').
  { clear -Ht I2 E3. assert (I2' : did G (λ t, t = table) db [] G tx) by (eapply did_weaken; [exact I2|by intros ? [[]|?]]).
    eapply (for_each_inv (λ y, did G (λ t, t = table) db [] G y)); [| |exact E3]; [|done].
    intros p y y' _ Iy Ey. unfold put_row, modify in Ey. injection Ey as <-.
    eapply did_weaken; [by apply did_put_silent|by intros ? [?|?]]. }
  apply M_bind_ok in E as (es1 & tx2 & E4 & E). eapply did_validate_blob_rows in E4; [|done..].
  apply M_bind_ok in E as (es2 & tx3 & E5 & [= <- <- <-]). eapply did_capture_reset in E5; [|done..].
  eexists. eapply did_weaken; [exact E5|by intros ? [? ?]].
Qed.

Lemma elem_of_tables (l : list str) t : t ∈ foldr bset_insert [] l ↔ t ∈ l.
Proof. induction l as [|x l IH]; simpl; [done|]. rewrite elem_of_bset_insert, IH, elem_of_cons. done. Qed.

Lemma rewrite_rows_did writes deletes refs db G out es tx1 :
  let names := (write_table <$> writes) ++ (del_table <$> deletes) in
  Forall user_table names → Forall utf8_write writes → Forall utf8_del deletes → Forall blob_ok refs →
  did G (λ _, False) db [] G db →
  rewrite_rows c (foldr bset_insert [] names) writes deletes refs db = Ok ((out, es), tx1) →
  ∃ G1, did G (λ _, False) db es G1 tx1.
Proof.
  intros names Hn Uw Ud Ub I E. pose proof Hn as [Hw Hd]%Forall_app. rewrite Forall_fmap in Hw; rewrite Forall_fmap in Hd.
  rewrite Forall_forall in Hw; rewrite Forall_forall in Hd; rewrite Forall_forall in Uw; rewrite Forall_forall in Ud. unfold rewrite_rows in E.
  apply M_bind_ok in E as (es1 & tx & E1 & E). eapply did_delete_silent in E1; [| |exact I].
  2: { apply Forall_forall. intros d Hin. split; [exact (Hd d Hin)|exact (Ud d Hin)]. }
  apply M_bind_ok in E as (es2 & tx2 & E2 & E). eapply did_put_blobs in E2; [|done|exact E1].
  apply M_bind_ok in E as ([] & tx3 & E3 & E). eapply did_put_silent_all in E3; [| |exact E2].
  2: { apply Forall_forall. intros w Hin. exact (Hw w Hin). }
  apply M_bind_ok in E as (es4 & tx4 & E4 & [= <- <- <-]). eapply did_reset_each in E4 as [G1 I1]; [| |exact E3].
  - exists G1. eapply did_weaken; [exact I1|]. intros t [Ht Hno]. apply Hno, elem_of_tables, elem_of_app. tauto.
  - apply Forall_forall. intros t Ht. rewrite elem_of_tables in Ht. split; [rewrite Forall_forall in Hn; exact (Hn t Ht)|].
    apply elem_of_app in Ht as [(w & -> & Hin)%list_elem_of_fmap|(d & -> & Hin)%list_elem_of_fmap];
      [apply (Uw w Hin)|apply (Ud d Hin)].
Qed.

Lemma publish_rows_did table id blob metadata db G out es tx1 : name_ok table id → utf8_valid (b_id blob) = true →
  b_size blob < U64 → did G (λ _, False) db [] G db →
  publish_rows table id blob metadata db = Ok ((out, es), tx1) → did G (λ _, False) db es G tx1.
Proof.
  intros Hn Hb Hs I E. unfold publish_rows in E. apply M_bind_ok in E as (e & tx & E1 & E).
  eapply did_blob_put in E1; [|exact I|apply Hn|apply Hn|done..]. destruct metadata as [v|]; [|by m_inv].
  apply M_bind_ok in E as ([] & tx' & E2 & [= <- <- <-]). exact (did_put_row _ _ _ _ _ _ _ _ _ _ E1 Hn E2).
Qed.

(** ** Writes of the manager *)

(** There are sequence numbers left for what the body logs. *)
Definition room {A} (f : M (A * list ChangeKind)) (db : Tx) : Prop :=
  ∀ out es tx1 h, f db = Ok ((out, es), tx1) → read_number db (lit "head") = Ok h → h + len es + 1 < U64.

Lemma db_inv_start db L : db_inv db L → ∃ G, snaps_ok db (l_changes L) G ∧ did G (λ _, False) db [] G db.
Proof. intros I. destruct (v_snaps _ _ I) as [G Sn]. exists G. split; [done|]. apply did_start; [apply Sn..|apply I]. Qed.

Lemma data_did {A} (f : M (A * list ChangeKind)) db L : db_inv db L → room f db →
  (∀ G out es tx1, did G (λ _, False) db [] G db → f db = Ok ((out, es), tx1) → ∃ G1, did G (λ _, False) db es G1 tx1) →
  ∀ out es tx1, f db = Ok ((out, es), tx1) → body_did db L es tx1.
Proof.
  intros I Hr Hf out es tx1 E. destruct (db_inv_start _ _ I) as (G & Sn & D0). destruct (Hf _ _ _ _ D0 E) as [G1 Dd].
  exists db, L, G, G1. split_and!; try done; [by apply keeps_refl|].
  apply (Hr _ _ _ _ E). unfold read_number. apply number_in_ok. apply (v_log _ _ I).
Qed.

Lemma set_db_same m : set_db (m_db m) m = m.
Proof. by destruct m. Qed.

Lemma journal_write_keeps {A} (f : M (A * list ChangeKind)) m L r m' : db_inv (m_db m) L →
  (∀ out es tx1, f (m_db m) = Ok ((out, es), tx1) → body_did (m_db m) L es tx1) → journal_write c f m = (r, m') →
  match r with
  | Err _ => m' = m
  | Ok out => ∃ es tx1 L', f (m_db m) = Ok ((out, es), tx1) ∧ m' = set_db (m_db m') m ∧
      keeps (m_db m) L (m_db m') L' ∧ l_head L' = l_head L + len es ∧ ∀ t, user_table t → rows (m_db m') t = rows tx1 t
  end.
Proof.
  intros I Hf E. unfold journal_write, get_db in E. destruct (m_open m); [|by injection E as <- <-].
  destruct (write_with_sink _ _ _ _) as [res db'] eqn:Ew. injection E as <- <-.
  pose proof (write_did _ _ _ _ _ _ _ I Hf Ew) as Hw. destruct res as [[out ev]|e]; simpl.
  - destruct Hw as (es & tx1 & L' & ? & ? & ? & ?). exists es, tx1, L'. done.
  - subst. apply set_db_same.
Qed.

Definition names_of (writes : list Write) (deletes : list Del) : list str :=
  (write_table <$> writes) ++ (del_table <$> deletes).

Lemma apply_keeps writes deletes m L r m' : db_inv (m_db m) L → Forall utf8_write writes → Forall utf8_del deletes →
  room (change_rows c writes deletes) (m_db m) → apply_changes c writes deletes m = (r, m') →
  match r with
  | Err _ => m' = m
  | Ok removed => length removed = length deletes ∧ m_open m' = m_open m ∧
      m_cache m' = cache_changes c writes deletes (m_cache m) ∧
      (∀ t k, user_table t → store_of (m_db m') t k = after_deletes deletes t k (after_writes writes t k (store_of (m_db m) t k))) ∧
      ∃ L', keeps (m_db m) L (m_db m') L' ∧ l_head L' <= l_head L + len writes + 2 * len deletes
  end.
Proof.
  intros I Uw Ud Hr E. unfold apply_changes in E. fold (names_of writes deletes) in E.
  destruct (validate_tables (names_of writes deletes)) as [[]|] eqn:Ev; [|by injection E as <- <-]. cbn [rbind] in E.
  destruct (get_db c m); [|by injection E as <- <-]. cbn [rbind] in E.
  destruct (ensure_writable c) as [[]|]; [|by injection E as <- <-].
  destruct (journal_write c (change_rows c writes deletes) m) as [[rm|e] m1] eqn:Ej;
    injection E as <- <-; eapply journal_write_keeps in Ej; try done.
  1: destruct Ej as (es & tx1 & L' & Ef & Em & K & Hh & Hrows); pose proof (change_rows_len _ _ _ _ _ _ Ef).
  1: destruct (change_rows_store _ _ _ _ _ _ Ef) as [Hs Hl]; split_and!; [done|by rewrite Em|by rewrite Em| |exists L'; split; [done|lia]].
  1: intros t k Ht; unfold store_of at 1; simpl; rewrite Hrows by done; apply Hs.
  all: apply data_did; [done..|]; intros G out es' tx' D0 Ef'; exists G;
    eapply change_rows_did; [by apply validate_tables_ok|done..].
Qed.

(** ** The cache *)

(** The cache never disagrees with the file, for user tables whose name has no colon. *)
Definition coherent (m : Manager) : Prop :=
  has_cache c = true → ∀ t k, user_table t → no_colon t →
    known (m_cache m !! cache_key t k) (store_of (m_db m) t k).

Lemma cache_writes_lookup writes t k : has_cache c = true → no_colon t → Forall no_colon (write_table <$> writes) →
  ∀ x, fold_left (λ x w, cache_after_raw_write c w.1.1 [(w.1.2, w.2)] x) writes x !! cache_key t k =
    after_writes writes t k (x !! cache_key t k).
Proof.
  intros Hc Ht. induction writes as [|[[t0 k0] v0] ws IH]; intros Hn x; simpl; [done|].
  apply Forall_cons in Hn as [Hn0 Hn]. simpl in Hn0. rewrite IH by done. f_equal. unfold cache_put. rewrite Hc. simpl.
  case_decide as Hd; [destruct Hd as [-> ->]; by rewrite lookup_insert_eq|].
  rewrite lookup_insert_ne; [done|]. intros E%cache_key_inj; naive_solver.
Qed.

Lemma cache_deletes_lookup deletes t k : has_cache c = true → no_colon t → Forall no_colon (del_table <$> deletes) →
  ∀ x, fold_left (λ x d, cache_drop c d.1 d.2 x) deletes x !! cache_key t k = after_deletes deletes t k (x !! cache_key t k).
Proof.
  intros Hc Ht. induction deletes as [|[t0 k0] ds IH]; intros Hn x; simpl; [done|].
  apply Forall_cons in Hn as [Hn0 Hn]. simpl in Hn0. rewrite IH by done. f_equal. unfold cache_drop. rewrite Hc. simpl.
  case_decide as Hd; [destruct Hd as [-> ->]; by rewrite lookup_delete_eq|].
  rewrite lookup_delete_ne; [done|]. intros E%cache_key_inj; naive_solver.
Qed.

Lemma cache_changes_lookup writes deletes t k x : has_cache c = true → no_colon t → Forall no_colon (names_of writes deletes) →
  cache_changes c writes deletes x !! cache_key t k = after_deletes deletes t k (after_writes writes t k (x !! cache_key t k)).
Proof.
  intros Hc Ht [Hw Hd]%Forall_app. unfold cache_changes. by rewrite cache_deletes_lookup, cache_writes_lookup.
Qed.

Lemma coherent_db m db : coherent m → (∀ t, user_table t → rows db t = rows (m_db m) t) → coherent (set_db db m).
Proof. intros C Hr Hc t k Ht Hn v Hv. unfold store_of. simpl. rewrite Hr by done. by apply C. Qed.

Lemma coherent_sub m x : coherent m → x ⊆ m_cache m → coherent (set_cache x m).
Proof. intros C Hx Hc t k Ht Hn v Hv. apply C; try done. by eapply lookup_weaken. Qed.

Lemma coherent_put m t k v : coherent m → no_colon t → store_of (m_db m) t k = Some v →
  coherent (set_cache (cache_put c t k v (m_cache m)) m).
Proof.
  intros C Hn Hv Hc t' k' Ht' Hn' v'. unfold cache_put. rewrite Hc. simpl.
  destruct (decide (t' = t ∧ k' = k)) as [[-> ->]|Hne]; [rewrite lookup_insert_eq; congruence|].
  rewrite lookup_insert_ne; [by apply C|]. intros E%cache_key_inj; naive_solver.
Qed.

Lemma coherent_clear m : coherent (set_cache (clear_cache c (m_cache m)) m).
Proof. intros Hc t k Ht Hn v. unfold clear_cache. rewrite Hc. simpl. by rewrite lookup_empty. Qed.

(** ** Steps *)

(** What the manager does between two looks at it.  The disciplined steps ([tidy]) write
    and read only tables whose name has no colon, and let nothing run between the read of a
    row and the fill of the cache; the others do as they like: [ms_fill] is the second half
    of a [get] whose first half ran at any time before, on any state. *)
Inductive mstep (tidy : bool) (m : Manager) : Manager → Prop :=
| ms_apply writes deletes r m' :
    Forall utf8_write writes → Forall utf8_del deletes →
    (tidy = true → Forall no_colon (names_of writes deletes)) →
    room (change_rows c writes deletes) (m_db m) → apply_changes c writes deletes m = (r, m') → mstep tidy m m'
| ms_replace table entries r m' :
    utf8_valid table = true → room (replace_rows c table entries) (m_db m) →
    replace_table c table entries m = (r, m') → mstep tidy m m'
| ms_rewrite writes deletes refs r m' :
    Forall utf8_write writes → Forall utf8_del deletes → (∀ l, refs = Ok l → Forall blob_ok l ∧
      room (rewrite_rows c (foldr bset_insert [] (names_of writes deletes)) writes deletes l) (m_db m)) →
    rewrite_tables_with_blobs c writes deletes refs m = (r, m') → mstep tidy m m'
| ms_publish table id content metadata file stored r m' :
    utf8_valid table = true → utf8_valid id = true → utf8_valid file = true → len content < U64 →
    room (publish_rows table id {| b_id := file; b_size := len content |} metadata) (m_db m) →
    publish_blob c table id content metadata file stored m = (r, m') → mstep tidy m m'
| ms_get table key r m' : (tidy = true → user_table table ∧ no_colon table) →
    get c table key m = (r, m') → mstep tidy m m'
| ms_fill table key fill : tidy = false → mstep tidy m (get_fill c table key fill m)
| ms_consumer db' : consumer_step (m_db m) db' → mstep tidy m (set_db db' m)
| ms_evict gone : mstep tidy m (evict gone m)
| ms_close b m' : close m = (b, m') → mstep tidy m m'.

Definition m_inv (m : Manager) (L : Log) : Prop := db_inv (m_db m) L ∧ coherent m.

(** The file stays consistent; under the discipline so does the cache. *)
Definition m_keeps (tidy : bool) (m : Manager) (L : Log) (m' : Manager) : Prop :=
  ∃ L', keeps (m_db m) L (m_db m') L' ∧ (tidy = true → coherent m → coherent m').

Lemma m_keeps_refl tidy m L : db_inv (m_db m) L → m_keeps tidy m L m.
Proof. intros I. exists L. split; [by apply keeps_refl|done]. Qed.

Lemma apply_step tidy writes deletes m L r m' : db_inv (m_db m) L → Forall utf8_write writes → Forall utf8_del deletes →
  (tidy = true → Forall no_colon (names_of writes deletes)) → room (change_rows c writes deletes) (m_db m) →
  apply_changes c writes deletes m = (r, m') → m_keeps tidy m L m'.
Proof.
  intros I Uw Ud Hn Hr E. eapply apply_keeps in E; [|done..]. destruct r as [rm|e]; [|subst; by apply m_keeps_refl].
  destruct E as (_ & _ & Ec & Hs & L' & K & _). exists L'. split; [done|]. intros Hti C. specialize (Hn Hti).
  intros Hc t k Ht Ht'. rewrite Ec, Hs, cache_changes_lookup by done. apply known_deletes, known_writes. by apply C.
Qed.

(** A whole-table write drops the cache. *)
Lemma cleared_step {A} tidy (f : M (A * list ChangeKind)) m L r m' : db_inv (m_db m) L →
  (∀ out es tx1, f (m_db m) = Ok ((out, es), tx1) → body_did (m_db m) L es tx1) →
  match journal_write c f m with
  | (Err e, m') => (Err e, m')
  | (Ok _, m') => (Ok (), set_cache (clear_cache c (m_cache m')) m')
  end = (r, m') → m_keeps tidy m L m'.
Proof.
  intros I Hf E. destruct (journal_write c f m) as [[out|e] m1] eqn:Ej; injection E as <- <-;
    eapply journal_write_keeps in Ej; try done.
  - destruct Ej as (es & tx1 & L' & _ & _ & K & _). exists L'. split; [done|]. intros _ _. apply coherent_clear.
  - subst. by apply m_keeps_refl.
Qed.

Lemma replace_step tidy table entries m L r m' : db_inv (m_db m) L → utf8_valid table = true →
  room (replace_rows c table entries) (m_db m) → replace_table c table entries m = (r, m') → m_keeps tidy m L m'.
Proof.
  intros Hm Hu Hr E. unfold replace_table in E. assert (m_keeps tidy m L m) as Hrefl by by apply m_keeps_refl.
  destruct (refuse_sealed c [table]) as [[]|]; [|by injection E as <- <-]. cbn [rbind] in E.
  destruct (ensure_writable c) as [[]|]; [|by injection E as <- <-]. cbn [rbind] in E.
  destruct (validate_table table) as [[]|] eqn:Ev; [|by injection E as <- <-].
  eapply cleared_step; [done| |exact E]. apply data_did; [exact Hm|done|].
  intros G out es tx1 D0 Ef. eapply replace_rows_did; [|done..].
  unfold validate_table in Ev. unfold user_table. by destruct (starts_with table _).
Qed.

Lemma rewrite_step tidy writes deletes refs m L r m' : db_inv (m_db m) L → Forall utf8_write writes → Forall utf8_del deletes →
  (∀ l, refs = Ok l → Forall blob_ok l ∧
     room (rewrite_rows c (foldr bset_insert [] (names_of writes deletes)) writes deletes l) (m_db m)) →
  rewrite_tables_with_blobs c writes deletes refs m = (r, m') → m_keeps tidy m L m'.
Proof.
  intros Hm Uw Ud Hl E. unfold rewrite_tables_with_blobs in E. fold (names_of writes deletes) in E.
  assert (m_keeps tidy m L m) as Hrefl by by apply m_keeps_refl.
  destruct (ensure_writable c) as [[]|]; [|by injection E as <- <-]. cbn [rbind] in E.
  destruct refs as [l|e]; [|by injection E as <- <-]. destruct (Hl l eq_refl) as [Hb Hr]. cbn [rbind] in E.
  destruct (validate_tables _) as [[]|] eqn:Ev; [|by injection E as <- <-].
  eapply cleared_step; [done| |exact E]. apply data_did; [exact Hm|done|].
  intros G out es tx1 D0 Ef. eapply rewrite_rows_did; [|done..].
  apply validate_tables_ok in Ev. apply Forall_forall. intros t Ht. rewrite Forall_forall in Ev. apply Ev.
  by apply elem_of_tables.
Qed.

Lemma prepare_blob_ok table content id stored r : prepare_blob c table content id stored = Ok r →
  user_table table ∧ no_colon table ∧ r = {| b_id := id; b_size := len content |}.
Proof.
  unfold prepare_blob. intros E. destruct (validate_table table) as [[]|] eqn:Ev; [|done]. cbn [rbind] in E.
  destruct (bad_component table) eqn:Eb; [done|]. case_match; [done|]. case_match; [|done].
  destruct stored as [[]|]; [|done]. injection E as <-. split_and!; [| |done].
  - unfold validate_table in Ev. unfold user_table. by destruct (starts_with table _).
  - unfold bad_component in Eb. rewrite !orb_false_iff in Eb. destruct Eb as [[[_ Eb] _] _].
    intros Hin. apply not_true_iff_false in Eb. apply Eb, existsb_exists.
    exists Byte.x3a. split; [by apply list_elem_of_In|done].
Qed.

Lemma publish_step tidy table id content metadata file stored m L r m' : db_inv (m_db m) L →
  utf8_valid table = true → utf8_valid id = true → utf8_valid file = true → len content < U64 →
  room (publish_rows table id {| b_id := file; b_size := len content |} metadata) (m_db m) →
  publish_blob c table id content metadata file stored m = (r, m') → m_keeps tidy m L m'.
Proof.
  intros I Ut Ui Uf Hlen Hr E. unfold publish_blob in E. assert (m_keeps tidy m L m) as Hrefl by by apply m_keeps_refl.
  destruct (prepare_blob _ _ _ _ _) as [b|] eqn:Eb; [|by injection E as <- <-].
  apply prepare_blob_ok in Eb as (Ht & Hn & ->).
  set (blob := {| b_id := file; b_size := len content |}) in *.
  assert (Hdid : ∀ out es tx1, publish_rows table id blob metadata (m_db m) = Ok ((out, es), tx1) → body_did (m_db m) L es tx1).
  { apply data_did; [done..|]. intros G out es tx1 D0 Ef. exists G. refine (publish_rows_did table id blob metadata (m_db m) G out es tx1 _ Uf Hlen D0 Ef). by split. }
  destruct (journal_write _ _ _) as [[[]|e] m1] eqn:Ej; injection E as <- <-;
    (eapply journal_write_keeps in Ej; [|done|done]); [|by subst].
  destruct Ej as (es & tx1 & L' & Ef & Em & K & _ & Hrows). exists L'. split; [done|].
  assert (Hst : ∀ t k, user_table t → store_of (m_db m1) t k =
    match metadata with Some v => if decide (table = t ∧ id = k) then Some v else store_of (m_db m) t k
                      | None => store_of (m_db m) t k end).
  { intros t k Hu. unfold store_of at 1. rewrite Hrows by done. unfold publish_rows, JournalBlob.put in Ef.
    destruct metadata as [v|]; unfold put_row in Ef; m_inv; [|done].
    rewrite rows_put. case_decide as Ht1; [subst t; simpl; rewrite t_get_insert|]; repeat case_decide; naive_solver. }
  intros _ C Hc t k Ht1 Hn1 v. rewrite Em. rewrite Hst by done. destruct metadata as [v0|]; [|by apply C].
  cbn [m_cache set_cache set_db]. unfold cache_put. rewrite Hc.
  destruct (decide (table = t ∧ id = k)) as [[<- <-]|Hd]; [by rewrite lookup_insert_eq|].
  rewrite lookup_insert_ne; [by apply C|]. intros Ek%cache_key_inj; naive_solver.
Qed.

Lemma open_read_rows db t x : open_read db t = Ok x → x = rows db t.
Proof. unfold open_read, rows. destruct (user db !! t); simpl; congruence. Qed.

(** A read answers with the row of the file. *)
Lemma get_spec table key m r m' : coherent m → user_table table → no_colon table → get c table key m = (r, m') →
  coherent m' ∧ m_db m' = m_db m ∧ match r with Ok o => o = store_of (m_db m) table key | Err _ => m' = m end.
Proof.
  intros C Ht Hn E. unfold get, get_read, get_db in E. destruct (m_open m); [|by injection E as <- <-]. cbn [rbind] in E.
  assert (Hfile : ∀ r m', match (let? t := open_read (m_db m) table in Ok (t_get t key, t_get t key)) with
      | Ok (answer, fill) => (Ok answer, get_fill c table key fill m) | Err e => (Err e, m) end = (r, m') →
    coherent m' ∧ m_db m' = m_db m ∧ match r with Ok o => o = store_of (m_db m) table key | Err _ => m' = m end).
  { intros r' m'' E'. destruct (open_read (m_db m) table) as [x|] eqn:Eo; cbn [rbind] in E'; injection E' as <- <-; [|done].
    apply open_read_rows in Eo as ->. fold (store_of (m_db m) table key).
    destruct (store_of (m_db m) table key) as [v|] eqn:Ev; simpl; [|done]. split_and!; [|done|done]. by apply coherent_put. }
  destruct (has_cache c) eqn:Hc; [|by apply Hfile].
  destruct (m_cache m !! cache_key table key) as [v|] eqn:Ev; [|by apply Hfile].
  injection E as <- <-. split_and!; [done|done|]. symmetry. by apply C.
Qed.

Lemma get_db_same table key m r m' : get c table key m = (r, m') → m_db m' = m_db m.
Proof.
  unfold get. destruct (get_read c table key m) as [[a fill]|]; intros [= <- <-]; [|done]. by destruct fill.
Qed.

Lemma mstep_keeps tidy m L m' : db_inv (m_db m) L → mstep tidy m m' → m_keeps tidy m L m'.
Proof.
  intros I Hs. destruct Hs.
  - eapply apply_step; eauto.
  - eapply replace_step; eauto.
  - eapply rewrite_step; eauto.
  - eapply publish_step; [exact I|..|eassumption]; assumption.
  - match goal with Hg : get _ _ _ _ = _ |- _ => pose proof (get_db_same _ _ _ _ _ Hg) as Ed;
      rename Hg into E end.
    exists L. rewrite Ed. split; [by apply keeps_refl|]. intros Hti C.
    apply get_spec in E as (C' & _); naive_solver.
  - exists L. assert (m_db (get_fill c table key fill m) = m_db m) as -> by by destruct fill.
    split; [by apply keeps_refl|congruence].
  - destruct (consumer_keeps _ _ _ I ltac:(done)) as (L' & K & Hu). exists L'. split; [done|]. intros _ C.
    by apply coherent_db.
  - exists L. split; [by apply keeps_refl|]. intros _ C. apply coherent_sub; [done|]. apply map_filter_subseteq.
  - match goal with Hg : close _ = _ |- _ => injection Hg as <- <- end. exists L. split; [by apply keeps_refl|done].
Qed.

Lemma msteps_keep tidy m L m' : db_inv (m_db m) L → rtc (mstep tidy) m m' → m_keeps tidy m L m'.
Proof.
  intros I Hs. revert L I. induction Hs as [m|m m1 m' Hs _ IH]; intros L I; [by apply m_keeps_refl|].
  destruct (mstep_keeps _ _ _ _ I Hs) as (L1 & K1 & C1). destruct (IH L1) as (L2 & K2 & C2); [apply K1|].
  exists L2. split; [by eapply keeps_trans|auto].
Qed.

(** ** Batches *)

Lemma room_bound writes deletes db L : db_inv db L → l_head L + len writes + 2 * len deletes + 1 < U64 →
  room (change_rows c writes deletes) db.
Proof.
  intros I Hb rm es tx1 h E%change_rows_len Hh. unfold read_number in Hh.
  rewrite (number_in_ok _ _ (l_head L)) in Hh by apply (v_log _ _ I). injection Hh as <-. lia.
Qed.

Lemma chunk_loop_spec {A} (chunk : list A → Manager → result () * Manager) (P : nat → Manager → Prop) limit items :
  (1 <= limit)%nat →
  (∀ o e m r m', (o <= e <= length items)%nat → P o m → chunk (take (e - o) (drop o items)) m = (r, m') →
     match r with Ok _ => P e m' | Err _ => m' = m end) →
  ∀ fuel o m r m', (length items - o <= fuel)%nat → (o <= length items)%nat → P o m →
    chunk_loop fuel limit o items chunk m = (r, m') →
    match r with
    | Ok _ => P (length items) m'
    | Err e => ∃ i piece, (i <= length items)%nat ∧ P i m' ∧ chunk piece m' = (Err e, m')
    end.
Proof.
  intros Hl Hc. induction fuel as [|fuel IH]; intros o m r m' Hf Ho HP E; cbn [chunk_loop] in E;
    (destruct (Nat.ltb_spec o (length items)); [|injection E as <- <-; by replace (length items) with o by lia]); [lia|].
  destruct (chunk _ m) as [[u|e] m1] eqn:Ec.
  - apply IH in E; [done|lia|lia|]. exact (Hc o (Nat.min (o + limit) (length items)) m (Ok u) m1 ltac:(lia) HP Ec).
  - injection E as <- <-. pose proof (Hc o (Nat.min (o + limit) (length items)) m (Err e) m1 ltac:(lia) HP Ec) as ->.
    eauto.
Qed.
End manager_ops.
