(* ===== verification/ManagerProps.v ===== *)
(** * What the database manager guarantees

    The properties of [repository.rs] as one theorem each, and two examples where the
    value cache answers with a row that is not in the file. *)
From S2P Require Import Prelude Order Redb Memory JournalCodec Fields OrderedCodec OrderedSpec Eval EvalSpec Samples Tx LastWrite IdContract Unique UniqueSpec JournalBlob Journal JournalSpec JournalOps Demo Repository Replica RepositorySpec ManagerSpec ManagerOps.
Local Open Scope N_scope.

Section helpers.
Context `{Redb, Allocator, TextLib}
  {SPair : Serde (str * str)} {SIdx : Serde (str * N)} {SKeys : Serde (list bytes)}
  {SDefs : Serde (list Unique)} {SPath : Serde Path} {SRef : Serde BlobRef} {SCons : Serde Consumer}
  {PIdx : @PrefixFree _ SIdx} `{!Host} (c : Config).

(** After the first [i] writes and the first [j] deletes of a batch. *)
Record batch_at (writes : list Write) (deletes : list Del) (m : Manager) (L : Log) (i j : nat) (m1 : Manager) : Prop := {
  b_inv : ∃ L1, m_inv c m1 L1 ∧ l_head L1 <= l_head L + N.of_nat i + 2 * N.of_nat j;
  b_store : ∀ t k, user_table t → store_of (m_db m1) t k =
    after_deletes (take j deletes) t k (after_writes (take i writes) t k (store_of (m_db m) t k));
}.

(** One [apply_changes] moves a batch forward, or leaves the manager as it was. *)
Lemma batch_chunk writes deletes m L i i' j j' m1 r m2 :
  Forall utf8_write writes → Forall utf8_del deletes → Forall no_colon (names_of writes deletes) →
  l_head L + len writes + 2 * len deletes + 1 < U64 →
  (i <= i' <= length writes)%nat → (j <= j' <= length deletes)%nat → (i = i' ∨ j = 0%nat) →
  batch_at writes deletes m L i j m1 →
  apply_changes c (take (i' - i) (drop i writes)) (take (j' - j) (drop j deletes)) m1 = (r, m2) →
  match r with Ok _ => batch_at writes deletes m L i' j' m2 | Err _ => m2 = m1 end.
Proof.
  intros Uw Ud Hn Hroom Hi Hj Hor [(L1 & [I1 C1] & Hh) Hs] E.
  set (ws := take (i' - i) (drop i writes)) in *. set (ds := take (j' - j) (drop j deletes)) in *.
  assert (len ws = N.of_nat (i' - i)) as Ews by (unfold ws, len; rewrite length_take, length_drop; lia).
  assert (len ds = N.of_nat (j' - j)) as Eds by (unfold ds, len; rewrite length_take, length_drop; lia).
  assert (Forall utf8_write ws) by by apply Forall_take, Forall_drop.
  assert (Forall utf8_del ds) by by apply Forall_take, Forall_drop.
  assert (Forall no_colon (names_of ws ds)) as Hn'.
  { unfold names_of in *. apply Forall_app in Hn as [? ?]. apply Forall_app. unfold ws, ds.
    rewrite !fmap_take, !fmap_drop. split; by apply Forall_take, Forall_drop. }
  assert (room (change_rows c ws ds) (m_db m1)) as Hr.
  { eapply room_bound; [done|]. rewrite Ews, Eds. unfold len in *. lia. }
  destruct r as [rm|e].
  - pose proof (apply_keeps c ws ds m1 L1 (Ok rm) m2 I1 ltac:(done) ltac:(done) Hr E) as (_ & _ & _ & Hst & L2 & K & Hh2).
    pose proof (apply_step c true ws ds m1 L1 (Ok rm) m2 I1 ltac:(done) ltac:(done) (λ _, Hn') Hr E) as (L3 & K3 & C2).
    specialize (C2 eq_refl C1).
    constructor.
    + exists L2. split; [split; [apply K|done]|]. rewrite Ews, Eds in Hh2. lia.
    + intros t k Ht. rewrite Hst, Hs by done.
      assert (Hw : ∀ o, after_writes ws t k (after_writes (take i writes) t k o) = after_writes (take i' writes) t k o).
      { intros o. rewrite <-after_writes_app. unfold ws. replace (take i' writes) with (take (i + (i' - i)) writes) by (f_equal; lia).
        by rewrite <-take_take_drop. }
      assert (Hd : ∀ o, after_deletes ds t k (after_deletes (take j deletes) t k o) = after_deletes (take j' deletes) t k o).
      { intros o. rewrite <-after_deletes_app. unfold ds. replace (take j' deletes) with (take (j + (j' - j)) deletes) by (f_equal; lia).
        by rewrite <-take_take_drop. }
      destruct Hor as [-> | ->].
      * unfold ws. rewrite Nat.sub_diag. simpl. apply Hd.
      * simpl. rewrite Hw. specialize (Hd (after_writes (take i' writes) t k (store_of (m_db m) t k))). simpl in Hd. done.
  - exact (apply_keeps c ws ds m1 L1 (Err e) m2 I1 ltac:(done) ltac:(done) Hr E).
Qed.

Lemma batch_start writes deletes m L : m_inv c m L → batch_at writes deletes m L 0 0 m.
Proof. intros Hm. constructor; [exists L; split; [done|lia]|done]. Qed.

Section batch.
Context (writes : list Write) (deletes : list Del) (m : Manager) (L : Log).
Hypotheses (Uw : Forall utf8_write writes) (Ud : Forall utf8_del deletes) (Hn : Forall no_colon (names_of writes deletes))
  (Hb : l_head L + len writes + 2 * len deletes + 1 < U64).

Lemma batch_commit i i' j j' m1 r m2 : (i <= i' <= length writes)%nat → (j <= j' <= length deletes)%nat →
  (i = i' ∨ j = 0%nat) → batch_at writes deletes m L i j m1 →
  commit_batch_chunk c (take (i' - i) (drop i writes)) (take (j' - j) (drop j deletes)) m1 = (r, m2) →
  match r with Ok _ => batch_at writes deletes m L i' j' m2 | Err _ => m2 = m1 end.
Proof.
  intros Hi Hj Hor Hb1 E1. unfold commit_batch_chunk, unit_answer in E1.
  destruct (apply_changes c _ _ m1) as [ra ma] eqn:Ea. injection E1 as <- <-.
  pose proof (batch_chunk _ _ _ _ _ _ _ _ _ _ _ Uw Ud Hn Hb Hi Hj Hor Hb1 Ea) as Hx. by destruct ra.
Qed.

Lemma batch_error ws ds m1 e m2 : commit_batch_chunk c ws ds m1 = (Err e, m2) → apply_changes c ws ds m1 = (Err e, m2).
Proof.
  unfold commit_batch_chunk, unit_answer. intros E1.
  destruct (apply_changes c ws ds m1) as [[?|?] ?]; simpl in E1; congruence.
Qed.

Lemma batch_writes limit r m1 : (1 <= limit)%nat → m_inv c m L →
  chunk_loop (length writes) limit 0 writes (λ ws, commit_batch_chunk c ws []) m = (r, m1) →
  match r with
  | Ok _ => batch_at writes deletes m L (length writes) 0 m1
  | Err e => ∃ i ws, batch_at writes deletes m L i 0 m1 ∧ apply_changes c ws [] m1 = (Err e, m1)
  end.
Proof.
  intros Hl Hm E. eapply (chunk_loop_spec _ (λ i, batch_at writes deletes m L i 0)) in E; [|done| |lia|lia|by apply batch_start].
  - destruct r as [u|e]; [done|]. destruct E as (i & piece & _ & Bi & Ec%batch_error). eauto.
  - intros o e1 mo ro mo' Ho Hp Ec. apply (batch_commit o e1 0%nat 0%nat mo ro mo'); [lia|lia|by right|done|done].
Qed.

Lemma batch_deletes limit m1 r m2 : (1 <= limit)%nat → batch_at writes deletes m L (length writes) 0 m1 →
  chunk_loop (length deletes) limit 0 deletes (commit_batch_chunk c []) m1 = (r, m2) →
  match r with
  | Ok _ => batch_at writes deletes m L (length writes) (length deletes) m2
  | Err e => ∃ j ds, batch_at writes deletes m L (length writes) j m2 ∧ apply_changes c [] ds m2 = (Err e, m2)
  end.
Proof.
  intros Hl B E. eapply (chunk_loop_spec _ (λ j, batch_at writes deletes m L (length writes) j)) in E; [|done| |lia|lia|done].
  - destruct r as [u|e]; [done|]. destruct E as (j & piece & _ & Bj & Ec%batch_error). eauto.
  - intros o e1 mo ro mo' Ho Hp Ec.
    apply (batch_commit (length writes) (length writes) o e1 mo ro mo'); [lia|lia|by left|done|by rewrite Nat.sub_diag].
Qed.
End batch.

(** [replace_rows] on one row. *)
Lemma validate_blob_rows_rows t es tx es' tx' : validate_blob_rows c t es tx = Ok (es', tx') → ∀ n, rows tx' n = rows tx n.
Proof.
  unfold validate_blob_rows. destruct (is_blob_table c t); simpl; intros E n; [|by m_inv].
  apply M_bind_ok in E as (rs & tx1 & (_ & _ & Hr)%open_same & E).
  apply M_bind_ok in E as ([] & tx2 & ->%check_blob_rows_same & E).
  apply M_bind_ok in E as (refs & tx2 & [= <- <-] & E). apply M_bind_ok in E as (keys & tx2 & [_ ->]%lift_ok & E).
  rewrite <-Hr. clear Hr. revert es tx1 E. induction keys as [|[t' k'] keys IH]; intros es tx1 E; cbn [drop_orphans] in E; [by m_inv|].
  destruct (_ && _); [|by eapply IH]. apply M_bind_ok in E as (o & tx3 & E3 & E).
  rewrite (IH _ _ E). by eapply blob_remove_rows in E3.
Qed.

Lemma replace_rows_store table entries tx G out es tx' : has_number tx (lit "reset_generation") G → user_table table →
  replace_rows c table entries tx = Ok ((out, es), tx') →
  ∀ t k, user_table t → store_of tx' t k = if decide (t = table) then put_all entries k None else store_of tx t k.
Proof.
  intros HG Ht E t k Hu. unfold replace_rows in E. apply M_bind_ok in E as ([] & tx1 & E1 & E).
  unfold delete_table in E1. m_inject E1. apply M_bind_ok in E as (x & tx2 & (_ & E2 & R2)%open_same & E).
  apply M_bind_ok in E as ([] & tx3 & ([u3 E3] & R3 & K3)%fill_rows & E).
  apply M_bind_ok in E as (es1 & tx4 & E4 & E). pose proof (validate_blob_rows_rows _ _ _ _ _ E4) as R4.
  apply M_bind_ok in E as (es2 & tx5 & E5 & [= <- <- <-]).
  assert (HG4 : has_number tx4 (lit "reset_generation") G).
  { assert (SEQ tx4 = SEQ tx3) as Es.
    { clear -E4. unfold validate_blob_rows in E4. destruct (is_blob_table c table); simpl in E4; [|by m_inv].
      apply M_bind_ok in E4 as (rs & y1 & (_ & -> & _)%open_same & E).
      apply M_bind_ok in E as ([] & y2 & ->%check_blob_rows_same & E).
      apply M_bind_ok in E as (refs & y2 & [= <- <-] & E). apply M_bind_ok in E as (keys & y2 & [_ ->]%lift_ok & E).
      set (y := set_user _ tx3) in E. change (SEQ tx3) with (SEQ y). clearbody y. revert E. generalize (@nil ChangeKind). revert y.
      induction keys as [|[t' k'] keys IH]; intros y l E; cbn [drop_orphans] in E; [by m_inv|].
      destruct (_ && _); [|by eapply IH]. apply M_bind_ok in E as (o & y3 & E3 & E). rewrite (IH _ _ E).
      unfold JournalBlob.remove in E3. m_inv. destruct (t_get _ _); by m_inv. }
    unfold has_number in *. rewrite Es, E3, E2. done. }
  apply (capture_reset_spec _ _ _ _ _ _ HG4 Ht) in E5 as (_ & _ & _ & R5 & _).
  unfold store_of. rewrite R5, R4 by (first [by apply user_not_snapshot|by apply user_not_blobs]).
  case_decide as Hd; [subst t; rewrite K3, R2, rows_delete, decide_True, t_get_new by done; done|].
  rewrite R3, R2, rows_delete by done. by rewrite decide_False.
Qed.

(** A row of the file is read, and read again. *)
Lemma read_row_twice t k v m : coherent c m → m_open m = true → user_table t → no_colon t →
  store_of (m_db m) t k = Some v →
  ∃ m2, get c t k m = (Ok (Some v), m2) ∧ get c t k m2 = (Ok (Some v), m2) ∧ get_uncached c t k m2 = Ok (Some v).
Proof.
  intros C Ho Ht Hn Hst.
  assert (Hopen : open_read (m_db m) t = Ok (rows (m_db m) t)).
  { unfold open_read, store_of, rows in *. destruct (user (m_db m) !! t); [done|]. simpl in Hst. by rewrite t_get_new in Hst. }
  assert (Hun : ∀ m', m_db m' = m_db m → m_open m' = true → get_uncached c t k m' = Ok (Some v)).
  { intros m' Ed Eo. unfold get_uncached, get_db. rewrite Eo, Ed. cbn [rbind]. rewrite Hopen. cbn [rbind]. by rewrite <-Hst. }
  destruct (has_cache c) eqn:Hc.
  - exists (set_cache (<[cache_key t k := v]> (m_cache m)) m).
    assert (Hhit : ∀ m', m_open m' = true → m_cache m' !! cache_key t k = Some v → get c t k m' = (Ok (Some v), m')).
    { intros m' Eo Ek. unfold get, get_read, get_db. by rewrite Eo, Hc, Ek. }
    split_and!; [|apply Hhit; [done|apply lookup_insert_eq]|by apply Hun].
    destruct (m_cache m !! cache_key t k) as [w|] eqn:Ek.
    + assert (w = v) as -> by (pose proof (C Hc t k Ht Hn w Ek); congruence).
      rewrite Hhit by done. f_equal. rewrite insert_id by done. by destruct m.
    + unfold get, get_read, get_db. rewrite Ho, Hc, Ek. cbn [rbind]. rewrite Hopen. cbn [rbind].
      fold (store_of (m_db m) t k). rewrite Hst. simpl. unfold cache_put. by rewrite Hc.
  - exists m. assert (get c t k m = (Ok (Some v), m)) as Hg.
    { unfold get, get_read, get_db. rewrite Ho, Hc. cbn [rbind]. rewrite Hopen. cbn [rbind].
      fold (store_of (m_db m) t k). rewrite Hst. simpl. unfold cache_put. rewrite Hc. by destruct m. }
    split_and!; [done|done|by apply Hun].
Qed.
End helpers.

Section properties.
Context `{Redb, Allocator, TextLib}
  {SPair : Serde (str * str)} {SIdx : Serde (str * N)} {SKeys : Serde (list bytes)}
  {SDefs : Serde (list Unique)} {SPath : Serde Path} {SRef : Serde BlobRef} {SCons : Serde Consumer}
  {PIdx : @PrefixFree _ SIdx} `{!Host} (c : Config).


(** C2: a replica converges.  A consumer that copied the user tables when the log was at
    some head, reads the changes after that head later, and applies them in order with the
    snapshots of the resets, holds exactly the tables of the primary, whatever operations
    ran in between, disciplined or not. *)
Theorem replica_converges tidy m m' L token limit l head copy :
  db_inv (m_db m) L → rtc (mstep c tidy) m m' → (∀ t k, user_table t → copy t k = store_of (m_db m) t k) →
  read_changes token (l_head L) limit (m_db m') = Ok l →
  read_number (m_db m') (lit "head") = Ok head → head - l_head L <= N.of_nat limit →
  ∀ t k, user_table t → store_of (m_db m') t k = replay (store_of (m_db m')) (ch_kind <$> l) copy t k.
Proof.
  intros Hm Hs Hcopy Hread Hhead Hlim t k Ht. destruct (msteps_keep _ _ _ _ _ Hm Hs) as (L' & K & _).
  destruct (v_log _ _ Hm) as [R _]. destruct (v_log _ _ (k_inv _ _ _ _ K)) as [R' _].
  pose proof (r_low _ _ R). pose proof (r_low _ _ R') as Hlo'. pose proof (k_head _ _ _ _ K).
  destruct (read_changes_spec token (l_head L) limit (m_db m') L' R') as [Er|(site & n & Er)]; [|congruence].
  rewrite Hread in Er. destruct (check_token _ _ _); [|done]. cbn [rbind] in Er.
  destruct (N.ltb_spec (l_head L) (l_floor L' - 1)); [done|]. destruct (N.ltb_spec (l_head L') (l_head L)); [done|].
  injection Er as ->. unfold read_number in Hhead. rewrite (number_in_ok _ _ _ (r_head _ _ R')) in Hhead. injection Hhead as <-.
  rewrite take_ge by (pose proof (owed_length L' (l_head L) ltac:(lia) ltac:(lia) Hlo'); unfold len in *; lia).
  assert (Hk : ∀ n cs, ch_kind <$> changes_from n cs = cs).
  { intros n cs. revert n. induction cs as [|e cs IH]; intros n; simpl; [done|]. by rewrite IH. }
  unfold owed. rewrite Hk.
  assert (in_sync (m_db m) L (l_head L) copy) as Hsync.
  { intros t' k' Ht'. unfold after_changes. rewrite drop_ge by (unfold l_head, len in *; lia). symmetry. by apply Hcopy. }
  exact (k_sync _ _ _ _ K (l_head L) copy ltac:(unfold l_head in *; lia) ltac:(lia) ltac:(lia) Hsync t k Ht).
Qed.

(** C6: a batch of changes is all or nothing, and on success every row of every user
    table is what the writes in order and then the deletes make of it; there is one
    answer per delete, and the log invariant and the cache follow. *)
Theorem apply_changes_result writes deletes m L r m' : m_inv c m L →
  Forall utf8_write writes → Forall utf8_del deletes → Forall no_colon (names_of writes deletes) →
  l_head L + len writes + 2 * len deletes + 1 < U64 →
  apply_changes c writes deletes m = (r, m') →
  match r with
  | Err _ => m' = m
  | Ok removed => length removed = length deletes ∧ (∃ L', m_inv c m' L') ∧
      ∀ t k, user_table t →
        store_of (m_db m') t k = after_deletes deletes t k (after_writes writes t k (store_of (m_db m) t k))
  end.
Proof.
  intros Hm Uw Ud Hn Hb E. pose proof (room_bound c writes deletes _ _ (proj1 Hm) Hb) as Hr.
  pose proof (apply_step c true _ _ _ _ _ _ (proj1 Hm) Uw Ud (λ _, Hn) Hr E) as (L1 & K1 & C1).
  specialize (C1 eq_refl (proj2 Hm)).
  pose proof (apply_keeps c _ _ _ _ _ _ (proj1 Hm) Uw Ud Hr E) as Hk. destruct r as [rm|e]; [|done].
  destruct Hk as (Hl & _ & _ & Hs & _). split_and!; [done| |done]. exists L1. split; [apply K1|done].
Qed.

(** C15: [commit_batch] splits at the batch limit and commits a prefix.  Whatever fails, what
    is in the file is the first [i] writes and the first [j] deletes, no delete before all
    writes; on success it is all of them, as one transaction would leave; a batch within
    the limit is all or nothing; and the loops end with the error of a chunk. *)
Theorem commit_batch_prefix writes deletes m L r m' : m_inv c m L →
  Forall utf8_write writes → Forall utf8_del deletes → Forall no_colon (names_of writes deletes) →
  l_head L + len writes + 2 * len deletes + 1 < U64 → (1 <= max_commit_batch_entries c)%nat →
  commit_batch c writes deletes m = (r, m') →
  ∃ i j, batch_at c writes deletes m L i j m' ∧ (j = 0%nat ∨ i = length writes) ∧
    match r with
    | Ok _ => i = length writes ∧ j = length deletes
    | Err e => ((length writes + length deletes <= max_commit_batch_entries c)%nat → m' = m) ∧
        (refuse_sealed c (write_table <$> writes) = Err e ∨ ∃ ws ds, apply_changes c ws ds m' = (Err e, m'))
    end.
Proof.
  intros Hm Uw Ud Hn Hb Hl E. unfold commit_batch in E. pose proof (batch_start c writes deletes m L Hm) as B0.
  destruct (refuse_sealed c _) as [[]|e]; [|injection E as <- <-; exists 0%nat, 0%nat; by eauto 7].
  unfold commit_batch_prepared in E.
  destruct (Nat.ltb_spec (max_commit_batch_entries c) (length writes + length deletes)) as [Hbig|Hsmall].
  - destruct (chunk_loop _ _ _ writes _ m) as [r1 m1] eqn:E1.
    eapply (batch_writes c writes deletes m L) in E1; [|done..]. destruct r1 as [[]|e].
    + eapply (batch_deletes c writes deletes m L) in E; [|done..].
      destruct r as [u|e]; [exists (length writes), (length deletes); by auto|].
      destruct E as (j & ds & Bj & Ec). exists (length writes), j. split; [done|]. split; [by right|]. split; [lia|]. eauto.
    + injection E as <- <-. destruct E1 as (i & ws & Bi & Ec). exists i, 0%nat. split; [done|]. split; [by left|].
      split; [lia|]. eauto.
  - pose proof (batch_commit c writes deletes m L Uw Ud Hn Hb 0%nat (length writes) 0%nat (length deletes) m r m'
      ltac:(lia) ltac:(lia) ltac:(by right) B0) as Hx.
    rewrite !Nat.sub_0_r, !drop_0, !take_ge in Hx by lia. specialize (Hx E). destruct r as [u|e].
    + exists (length writes), (length deletes). auto.
    + subst m'. exists 0%nat, 0%nat. split; [done|]. split; [by left|]. split; [done|]. right.
      apply batch_error in E. eauto.
Qed.

(** replacing a table is all or nothing.  On success the table holds exactly the
    entries, the last one for a key winning, every other user table is as it was, and the
    database is consistent; on an error nothing changed. *)
Lemma replace_table_result table entries m L r m' : m_inv c m L → utf8_valid table = true →
  room (replace_rows c table entries) (m_db m) → replace_table c table entries m = (r, m') →
  match r with
  | Err _ => m' = m
  | Ok _ => (∃ L', m_inv c m' L') ∧ ∀ t k, user_table t →
      store_of (m_db m') t k = if decide (t = table) then put_all entries k None else store_of (m_db m) t k
  end.
Proof.
  intros Hm Hu Hr E. destruct (replace_step c true _ _ _ _ _ _ (proj1 Hm) Hu Hr E) as (L' & K & C').
  specialize (C' eq_refl (proj2 Hm)).
  unfold replace_table in E. destruct (refuse_sealed c [table]) as [[]|]; [|by injection E as <- <-]. cbn [rbind] in E.
  destruct (ensure_writable c) as [[]|]; [|by injection E as <- <-]. cbn [rbind] in E.
  destruct (validate_table table) as [[]|] eqn:Ev; [|by injection E as <- <-].
  assert (user_table table) as Ht.
  { unfold validate_table in Ev. unfold user_table. by destruct (starts_with table _). }
  destruct (journal_write _ _ _) as [[[]|e] m1] eqn:Ej; injection E as <- <-;
    (eapply journal_write_keeps in Ej; [|apply Hm|]); try done.
  - destruct Ej as (es & tx1 & L1 & Ef & _ & _ & _ & Hrows). split; [exists L'; split; [apply K|done]|].
    intros t k Hu'. unfold store_of at 1. simpl. rewrite Hrows by done.
    destruct (v_snaps _ _ (proj1 Hm)) as [G Sn]. exact (replace_rows_store c _ _ _ _ _ _ _ (n_number _ _ _ Sn) Ht Ef t k Hu').
  - apply data_did; [apply Hm|done|]. intros G out es tx1 D0 Ef. by eapply replace_rows_did.
  - apply data_did; [apply Hm|done|]. intros G out es tx1 D0 Ef. by eapply replace_rows_did.
Qed.

(** A read sees the last committed write.  After a batch that wrote a row and did not
    delete it, and whatever the cache dropped since, [get] answers with the last value
    written, and so does every read that follows, from the cache or from the file. *)
Lemma read_your_write writes deletes m L removed m1 gone t k v : m_inv c m L → m_open m = true →
  Forall utf8_write writes → Forall utf8_del deletes → Forall no_colon (names_of writes deletes) →
  l_head L + len writes + 2 * len deletes + 1 < U64 → user_table t → no_colon t →
  after_deletes deletes t k (after_writes writes t k None) = Some v →
  apply_changes c writes deletes m = (Ok removed, m1) →
  ∃ m2, get c t k (evict gone m1) = (Ok (Some v), m2) ∧ get c t k m2 = (Ok (Some v), m2) ∧
    get_uncached c t k m2 = Ok (Some v).
Proof.
  intros Hm Ho Uw Ud Hn Hb Ht Hc Hv E. pose proof (room_bound c writes deletes _ _ (proj1 Hm) Hb) as Hr.
  pose proof (apply_step c true _ _ _ _ _ _ (proj1 Hm) Uw Ud (λ _, Hn) Hr E) as (L1 & K1 & C1).
  specialize (C1 eq_refl (proj2 Hm)).
  pose proof (apply_keeps c _ _ _ _ _ _ (proj1 Hm) Uw Ud Hr E) as (_ & Ho1 & _ & Hs & _).
  assert (store_of (m_db m1) t k = Some v) as Hst.
  { rewrite Hs by done. apply (known_deletes deletes t k _ _ (known_writes writes t k None _ ltac:(done))). done. }
  exact (read_row_twice c t k v (evict gone m1) (coherent_sub c m1 _ C1 (map_filter_subseteq _ _)) ltac:(by rewrite <-Ho) Ht Hc Hst).
Qed.
End properties.

(** ** Witnesses *)

#[global] Instance demo_prefix : @PrefixFree _ demo_idx := closed_serde_prefix.
#[global] Instance demo_host : Host :=
  {| commit_answer := λ _, Ok (); blob_file_len := λ _ _ _, Ok 0; change_kind_size := 96 |}.

(** A cached database with batches of two. *)
Definition cfg : Config :=
  {| db_path := lit "db"; has_cache := true; journal_retention := RDefault; max_commit_batch_entries := 2;
     blob_store := false; table_storage := ∅; sealed_tables := ∅; search_only := false |}.
Definition m1 : Manager := {| m_db := db1; m_open := true; m_origin := 0; m_cache := ∅ |}.

Lemma m1_ok : m_inv cfg m1 L1.
Proof.
  split; [|intros _ t k _ _ v; simpl; by rewrite lookup_empty].
  assert (register_tx (lit "c") false 0 db0 = Ok ((tok, []), db1)) as E by (vm_compute; reflexivity).
  pose proof (create_inv _ _ db0_created) as I0.
  destruct (register_quiet _ _ _ _ _ I0 _ _ _ E) as (_ & W & _).
  apply (db_inv_sweep db0 (empty_log (lit "u")) db1 L1 I0 W db1_ok).
  constructor; simpl; try lia; try done. exists []. split; [vm_compute; discriminate|done].
Qed.

(** Three rows and a delete, over the limit. *)
Definition rows3 : list Write :=
  [(lit "t", lit "a", lit "1"); (lit "t", lit "b", lit "2"); (lit "u", lit "a", lit "3")].
Definition dels1 : list Del := [(lit "t", lit "a")].

Lemma rows3_ok : Forall utf8_write rows3 ∧ Forall utf8_del dels1 ∧ Forall no_colon (names_of rows3 dels1).
Proof. split_and!; repeat constructor; try done; by apply (bool_decide_unpack _). Qed.
Lemma rows3_room : l_head L1 + len rows3 + 2 * len dels1 + 1 < U64.
Proof. vm_compute. reflexivity. Qed.

Definition after3 : result (list bool) * Manager := apply_changes cfg rows3 dels1 m1.
Lemma after3_step : rtc (mstep cfg true) m1 after3.2.
Proof.
  destruct rows3_ok as (? & ? & ?). eapply rtc_once, ms_apply; [done..| |apply surjective_pairing].
  eapply room_bound; [apply m1_ok|apply rows3_room].
Qed.







Lemma replica_converges_witness :
  ∃ l, read_changes tok 0 10 (m_db after3.2) = Ok l ∧ length l = 4%nat ∧
    ∀ t k, user_table t → store_of (m_db after3.2) t k = replay (store_of (m_db after3.2)) (ch_kind <$> l) (store_of db1) t k.
Proof.
  destruct (read_changes tok 0 10 (m_db after3.2)) as [l|e] eqn:E.
  2: { exfalso. revert E. vm_compute. discriminate. }
  exists l. split; [reflexivity|]. split.
  - assert (Hl : match read_changes tok 0 10 (m_db after3.2) with Ok l => length l = 4%nat | Err _ => False end)
      by (vm_compute; reflexivity). rewrite E in Hl. exact Hl.
  - refine (replica_converges cfg true m1 after3.2 L1 tok 10 l 4 (store_of db1) (proj1 m1_ok) after3_step _ E _ _).
    + intros t k _. reflexivity.
    + vm_compute. reflexivity.
    + vm_compute. discriminate.
Defined.

Lemma apply_changes_result_witness :
  after3.1 = Ok [true] ∧ store_of (m_db after3.2) (lit "t") (lit "b") = Some (lit "2").
Proof.
  destruct rows3_ok as (Hw & Hd & Hn).
  pose proof (apply_changes_result cfg rows3 dels1 m1 L1 after3.1 after3.2 m1_ok Hw Hd Hn rows3_room
    (surjective_pairing after3)) as Hr.
  assert (E : after3.1 = Ok [true]) by (vm_compute; reflexivity). rewrite E in Hr.
  destruct Hr as (_ & _ & Hs). split; [exact E|]. rewrite Hs by reflexivity. vm_compute. reflexivity.
Defined.

Lemma commit_batch_prefix_witness :
  ∃ m', commit_batch cfg rows3 dels1 m1 = (Ok (), m') ∧ batch_at cfg rows3 dels1 m1 L1 3 1 m'.
Proof.
  destruct rows3_ok as (Hw & Hd & Hn).
  destruct (commit_batch cfg rows3 dels1 m1) as [r m'] eqn:E.
  assert (Hres : r = Ok ()).
  { change r with (fst (r, m')). rewrite <-E. vm_compute. reflexivity. }
  subst r. exists m'. split; [reflexivity|].
  destruct (commit_batch_prefix cfg rows3 dels1 m1 L1 (Ok ()) m' m1_ok Hw Hd Hn rows3_room ltac:(vm_compute; lia) E)
    as (i & j & B & _ & Hi & Hj). subst i j. exact B.
Defined.

Lemma replace_table_result_example :
  ∃ m', replace_table cfg (lit "t") [(lit "k", lit "v"); (lit "k", lit "w")] m1 = (Ok (), m') ∧
    store_of (m_db m') (lit "t") (lit "k") = Some (lit "w").
Proof.
  destruct (replace_table cfg (lit "t") [(lit "k", lit "v"); (lit "k", lit "w")] m1) as [r m'] eqn:E.
  assert (Hres : r = Ok ()).
  { change r with (fst (r, m')). rewrite <-E. vm_compute. reflexivity. }
  subst r. exists m'. split; [reflexivity|].
  destruct (replace_table_result cfg (lit "t") [(lit "k", lit "v"); (lit "k", lit "w")] m1 L1 (Ok ()) m' m1_ok
    ltac:(reflexivity)) as [_ Hs]; [|exact E|rewrite Hs by reflexivity; reflexivity].
  intros out es tx1 h Ef Eh.
  assert (Hl : match replace_rows cfg (lit "t") [(lit "k", lit "v"); (lit "k", lit "w")] (m_db m1) with
               | Ok ((_, es), _) => len es = 1 | Err _ => False end) by (vm_compute; reflexivity).
  rewrite Ef in Hl. rewrite Hl.
  assert (Hh : read_number (m_db m1) (lit "head") = Ok 0) by (vm_compute; reflexivity).
  rewrite Hh in Eh. injection Eh as <-. vm_compute. reflexivity.
Defined.

Lemma read_your_write_example :
  ∃ m2, get cfg (lit "t") (lit "b") (evict {[lit "t:b"]} after3.2) = (Ok (Some (lit "2")), m2).
Proof.
  destruct rows3_ok as (Hw & Hd & Hn).
  assert (E : apply_changes cfg rows3 dels1 m1 = (Ok [true], after3.2)).
  { assert (E1 : after3.1 = Ok [true]) by (vm_compute; reflexivity). rewrite <-E1. apply surjective_pairing. }
  destruct (read_your_write cfg rows3 dels1 m1 L1 [true] after3.2 {[lit "t:b"]} (lit "t") (lit "b") (lit "2") m1_ok
    ltac:(reflexivity) Hw Hd Hn rows3_room ltac:(reflexivity) ltac:(by apply (bool_decide_unpack _)) ltac:(reflexivity) E)
    as (m2 & Hg & _). exists m2. exact Hg.
Defined.

(** ** Where the cache is wrong *)

(** The cache key of a row is [table:key], so rows of two tables share one when a table
    name holds a colon: a read of table [a:b] answers with a row of table [a]. *)
Lemma cache_key_shared :
  let m := (apply_changes cfg [(lit "a", lit "b:c", lit "1"); (lit "a:b", lit "x", lit "2")] [] m1).2 in
  (get cfg (lit "a:b") (lit "c") m).1 = Ok (Some (lit "1")) ∧ get_uncached cfg (lit "a:b") (lit "c") m = Ok None.
Proof. split; vm_compute; reflexivity. Qed.

(** [get] reads the row and fills the cache in two steps; a write that commits and
    updates the cache in between is undone in the cache, and later reads are stale. *)
Lemma get_race_stale :
  let m := (apply_changes cfg [(lit "t", lit "k", lit "old")] [] m1).2 in
  let m := evict {[lit "t:k"]} m in
  get_read cfg (lit "t") (lit "k") m = Ok (Some (lit "old"), Some (lit "old")) ∧
  let m := (apply_changes cfg [(lit "t", lit "k", lit "new")] [] m).2 in
  let m := get_fill cfg (lit "t") (lit "k") (Some (lit "old")) m in
  (get cfg (lit "t") (lit "k") m).1 = Ok (Some (lit "old")) ∧
  get_uncached cfg (lit "t") (lit "k") m = Ok (Some (lit "new")).
Proof. split; [|split]; vm_compute; reflexivity. Qed.
