(* ===== verification/Store.v ===== *)
(** * Rows with their history ([repository.rs])

    The operations of [DatabaseManager] that touch both files: a row is written or deleted
    in the primary and recorded in the backup, and a version of the history is put back.
    [Store] is the manager with its backup file, when it has one, and the migration index
    ([None] when its lock is poisoned).  The primary commits first and the backup after it
    (in [restore_bulk] the other way round), so each operation gives back the store that an
    error leaves.  The answers of the backup's commits and the clock are arguments. *)
From S2P Require Import Prelude Order Redb Memory JournalCodec Fields OrderedCodec Eval BackupCodec Backup Chain Tx LastWrite IdContract Unique JournalBlob Journal Repository.
Local Open Scope N_scope.

Definition no_backup : ClError := NotFound (lit "backup not configured").
Definition no_version (version : N) : ClError := NotFound (lit "version " ++ dec version ++ lit " not found").
Definition name_mismatch : ClError := Validation (lit "table name mismatch").

Definition saturating_add (a b : N) : N := N.min (a + b) (U64 - 1).

Section store.
Context `{Redb, Allocator, TextLib, BackupJson} {SBulk : Serde BulkRecord}
  {SPair : Serde (str * str)} {SIdx : Serde (str * N)} {SKeys : Serde (list bytes)}
  {SDefs : Serde (list Unique)} {SPath : Serde Path} {SRef : Serde BlobRef} {SCons : Serde Consumer}
  `{!Host} (c : Config).

Record Store := { s_main : Manager; s_backup : option BackupManager; s_index : option DbMigrationIndex }.

Definition set_main (m : Manager) (st : Store) : Store :=
  {| s_main := m; s_backup := s_backup st; s_index := s_index st |}.
Definition set_backup (b : BackupManager) (st : Store) : Store :=
  {| s_main := s_main st; s_backup := Some b; s_index := s_index st |}.

(** The change of the primary that an operation begins with. *)
Definition on_main {A} (f : Manager → result A * Manager) (st : Store) : result A * Store :=
  let '(r, m) := f (s_main st) in (r, set_main m st).
(** The record an operation ends with. *)
Definition on_backup (f : BackupManager → BackupManager * result ()) (st : Store) : result () * Store :=
  match s_backup st with
  | None => (Ok (), st)
  | Some b => let '(b', r) := f b in (r, set_backup b' st)
  end.

(** ** Writing *)

Definition set_prepared (commit : result ()) (now : Now) (table table_name key : str) (value : bytes) (st : Store)
    : result () * Store :=
  if negb (bool_decide (table = table_name)) then (Err name_mismatch, st) else
  match (check? (match s_backup st with
                 | Some _ => probe (lit "backup.encode_record") (saturating_add (saturating_mul (len value) 2) 1024)
                 | None => Ok ()
                 end) in
         copy_bytes (lit "write.single_row") value) with
  | Err e => (Err e, st)
  | Ok copy =>
      match on_main (apply_changes c [(table_name, key, copy)] []) st with
      | (Err e, st') => (Err e, st')
      | (Ok _, st') => on_backup (λ b, record_set b commit now table table_name key value) st'
      end
  end.

Definition store_set (commit : result ()) (now : Now) (table table_name key : str) (value : bytes) (st : Store)
    : result () * Store :=
  match refuse_sealed c [table_name] with
  | Err e => (Err e, st)
  | Ok _ => set_prepared commit now table table_name key value st
  end.

(** [apply_changes(..)?[0]]: one delete gives one flag. *)
Definition store_delete (commit : result ()) (now : Now) (table table_name key : str) (st : Store) : result bool * Store :=
  if negb (bool_decide (table = table_name)) then (Err name_mismatch, st) else
  match on_main (apply_changes c [] [(table_name, key)]) st with
  | (Err e, st') => (Err e, st')
  | (Ok removed, st') =>
      match head removed with
      | None => (Err OptionNone, st')
      | Some false => (Ok false, st')
      | Some true =>
          let '(r, st2) := on_backup (λ b, record_delete b commit now table table_name key) st' in
          (rmap (λ _, true) r, st2)
      end
  end.

(** ** Reading the history *)

Definition get_by_version (table key : str) (version : N) (st : Store) : result BackupRecord :=
  let? bm := ok_or (s_backup st) OptionNone in
  let? b := bak_db bm in
  let? r := read_record b table table key version in
  ok_or r (no_version version).

Definition store_current_version (table_name id : str) (st : Store) : result N :=
  let? bm := ok_or (s_backup st) no_backup in Backup.current_version bm table_name id.

Definition store_history (table key : str) (st : Store) : result (list BackupRecord) :=
  let? bm := ok_or (s_backup st) no_backup in history bm table key.

Definition get_version_by_at (table key : str) (timestamp : Z) (st : Store) : result BackupRecord :=
  let? l := store_history table key st in
  ok_or (last_at timestamp l) (NotFound (lit "no record at this timestamp")).

(** ** Putting a version back *)

(** A version of an older schema is refused; without a chain there is nothing to refuse. *)
Definition check_restorable (table_name : str) (versions : list N) (st : Store) : result () :=
  match s_index st with
  | None => Ok ()
  | Some d =>
      match table_chain d table_name with
      | Err _ => Ok ()
      | Ok ch => rmap (λ _, ()) (traverse (assert_restorable ch) versions)
      end
  end.

(** The row of a record with data, or its absence, in the primary and in the cache. *)
Definition restore_row (table_name key : str) (data : option bytes) (st : Store) : result () * Store :=
  match data with
  | Some data =>
      match on_main (apply_changes c [(table_name, key, data)] []) st with
      | (Err e, st') => (Err e, st')
      | (Ok _, st') => (Ok (), set_main (set_cache (cache_put c table_name key data (m_cache (s_main st'))) (s_main st')) st')
      end
  | None =>
      match on_main (apply_changes c [] [(table_name, key)]) st with
      | (Err e, st') => (Err e, st')
      | (Ok _, st') => (Ok (), set_main (set_cache (cache_drop c table_name key (m_cache (s_main st'))) (s_main st')) st')
      end
  end.

Definition restore_by_version (commit : result ()) (now : Now) (table table_name key : str) (version : N) (st : Store)
    : result () * Store :=
  match (let? bm := ok_or (s_backup st) no_backup in
         check? check_restorable table_name [version] st in
         let? b := bak_db bm in
         let? r := read_record b table table key version in
         ok_or r (no_version version)) with
  | Err e => (Err e, st)
  | Ok record =>
      let '(data, bulk_id) := match r_operation record with
                              | Delete_ => (None, None)
                              | _ => (r_data record, r_bulk_id record)
                              end in
      match restore_row table_name key data st with
      | (Err e, st') => (Err e, st')
      | (Ok _, st') => on_backup (λ b, record_restore b commit now table table_name key version data bulk_id) st'
      end
  end.

Definition restore_at (commit : result ()) (now : Now) (table table_name key : str) (timestamp : Z) (st : Store)
    : result () * Store :=
  match get_version_by_at table key timestamp st with
  | Err e => (Err e, st)
  | Ok record => restore_by_version commit now table table_name key (r_version record) st
  end.

(** ** Bulk sets *)

Definition set_bulk (commit : result ()) (now : Now) (bulk_id table_name : str) (entries : list (str * N)) (st : Store)
    : result str * Store :=
  match (check? ensure_writable c in ok_or (s_backup st) no_backup) with
  | Err e => (Err e, st)
  | Ok bm => let '(bm', r) := write_bulk bm commit now bulk_id table_name entries in (r, set_backup bm' st)
  end.

(** The rows of a bulk restore, one transaction each. *)
Fixpoint apply_results (table_name : str) (results : list (str * option bytes)) (st : Store) : result () * Store :=
  match results with
  | [] => (Ok (), st)
  | (key, data) :: results' =>
      match on_main (match data with
                     | Some value => apply_changes c [(table_name, key, value)] []
                     | None => apply_changes c [] [(table_name, key)]
                     end) st with
      | (Err e, st') => (Err e, st')
      | (Ok _, st') => apply_results table_name results' st'
      end
  end.

Definition store_restore_bulk (commit : nat → result ()) (now : nat → Now) (table table_name bulk_id : str) (st : Store)
    : result () * Store :=
  match (let? bm := ok_or (s_backup st) no_backup in
         let? b := bak_db bm in
         let? bulk := read_bulk b table_name bulk_id in
         check? check_restorable table_name (be_version <$> bu_entries bulk) st in Ok bm) with
  | Err e => (Err e, st)
  | Ok bm =>
      let '(bm', r) := Backup.restore_bulk bm commit now table table_name bulk_id in
      match r with
      | Err e => (Err e, set_backup bm' st)
      | Ok results => apply_results table_name results (set_backup bm' st)
      end
  end.
End store.
