(* ===== verification/StoreProps.v ===== *)
(** * Rows and their history agree *)
(** ** What one operation does to a row and to its history

    [change_row]: one write or delete through [apply_changes].  [last_data]: what the last
    version of a key says about its row; [record_last], [restore_entries_last] and
    [apply_results_rows] follow it through the operations of [Store]. *)
From S2P Require Import Prelude Order Redb Memory JournalCodec Fields OrderedCodec Eval BackupCodec BackupCodecSpec Backup BackupSpec BackupProps Chain Tx LastWrite IdContract Unique UniqueSpec JournalBlob Journal JournalSpec JournalOps Repository Replica RepositorySpec ManagerSpec ManagerOps Store.
Local Open Scope N_scope.

(** ** The history's last word *)

Section history.
Context `{Redb, Allocator, BackupJsonOk} {SBulk : Serde BulkRecord}.

Definition last_data (b : Bak) (t k : str) : option (option bytes) :=
  match read_record b t t k (current_of b t k) with Ok (Some r) => Some (record_data r) | _ => None end.

Lemma last_data_zero b t k : bak_ok b → current_of b t k = 0 → last_data b t k = None.
Proof.
  intros Hb Hc. unfold last_data. rewrite Hc. unfold read_record, read_data.
  destruct (b !! t) as [[d|]|] eqn:Ed; cbn [rbind]; [|done..].
  destruct (t_get d (backup_key k 0)) as [l|] eqn:El; [|done].
  pose proof (bo_rows b Hb t d k 0 l Ed El). lia.
Qed.

Lemma last_data_same b b' t k : bak_ok b → bak_ok b' → bak_keeps b b' → current_of b' t k = current_of b t k →
  last_data b' t k = last_data b t k.
Proof.
  intros Hb Hb' K E. destruct (decide (current_of b t k = 0)) as [E0|Hne].
  - rewrite !last_data_zero by (done || congruence). done.
  - unfold last_data. rewrite E. destruct (K t k) as [_ Hr]. rewrite Hr by lia. done.
Qed.

(** A version that reads is one of the numbered ones, and reads the same for good. *)
Lemma read_keeps b b' t k v r : bak_ok b → bak_keeps b b' → read_record b t t k v = Ok (Some r) →
  read_record b' t t k v = Ok (Some r).
Proof.
  intros Hb K E. destruct (K t k) as [_ Hr]. rewrite Hr; [done|]. unfold read_record, read_data in E.
  destruct (b !! t) as [[d|]|] eqn:Ed; cbn [rbind] in E; [|done..].
  destruct (t_get d (backup_key k v)) as [l|] eqn:El; [|done]. by apply (bo_rows b Hb t d k v l).
Qed.

(** One record: the key's last word is the record, the others keep theirs. *)
Lemma record_last m commit now t k r m' : mgr_ok m → r_table r = t → r_key r = k → r_date_from_migration r = false →
  Backup.write m commit now t k r = (m', Ok ()) →
  mgr_ok m' ∧ mgr_keeps m m' ∧ b_open m' = b_open m ∧
  read_record (b_file m') t t k (current_of (b_file m) t k + 1) = Ok (Some (with_version (current_of (b_file m) t k + 1) r)) ∧
  (∀ t' k', current_of (b_file m') t' k' = if decide (t = t' ∧ k = k') then current_of (b_file m) t k + 1 else current_of (b_file m) t' k') ∧
  ∀ t' k', last_data (b_file m') t' k' = if decide (t = t' ∧ k = k') then Some (record_data r) else last_data (b_file m) t' k'.
Proof.
  intros Hm Ht Hk Hd E. pose proof (version_step m commit now t k r Ht Hk Hd Hm) as [O K].
  rewrite E in O, K. cbn [fst] in O, K. unfold Backup.write in E.
  destruct (bak_write_cases m commit (Backup.write_body now t k r)) as [([] & b' & E' & Eb & _)|(e & E' & _)]; [|congruence].
  rewrite E in E'. injection E' as ->. apply write_body_wrote in Eb as W; [|done..].
  pose proof (w_current _ _ _ _ _ W) as Hc. pose proof (w_record _ _ _ _ _ W) as Hrec.
  split_and!; [done..|]. intros t' k'. case_decide as Hdec.
  - destruct Hdec as [<- <-]. unfold last_data. rewrite Hc, decide_True by done. cbn [Backup.set_file b_file]. rewrite Hrec. done.
  - apply last_data_same; [done..|]. rewrite Hc, decide_False by done. done.
Qed.

(** What a list of restored rows says about one key. *)
Definition after_results {A} (some : option bytes → A) (results : list (str * option bytes)) (k : str) (o : A) : A :=
  fold_left (λ o p, if decide (p.1 = k) then some p.2 else o) results o.

Lemma restore_entries_last commit now t id entries : ∀ m i res m' out, mgr_ok m →
  restore_entries m commit now t t id i entries res = (m', Ok out) →
  ∃ new, out = res ++ new ∧ new.*1 = be_key <$> entries ∧ mgr_ok m' ∧ mgr_keeps m m' ∧
    Forall2 (λ e p, ∃ r, read_record (b_file m') t t (be_key e) (be_version e) = Ok (Some r) ∧ p.2 = record_data r) entries new ∧
    ∀ t' k', last_data (b_file m') t' k' =
      if decide (t' = t) then after_results Some new k' (last_data (b_file m) t' k') else last_data (b_file m) t' k'.
Proof.
  induction entries as [|e entries IH]; intros m i res m' out Hm E; cbn [restore_entries] in E.
  { injection E as <- <-. exists []. rewrite app_nil_r. split_and!; try done. intros. by case_decide. }
  destruct (let? b := bak_db m in _) as [r|x] eqn:Er; [|done].
  assert (Hr : read_record (b_file m) t t (be_key e) (be_version e) = Ok (Some r)).
  { unfold bak_db in Er. destruct (b_open m); [|done]. cbn [rbind] in Er.
    destruct (read_record _ _ _ _ _) as [[r0|]|]; cbn in Er; congruence. }
  destruct (Backup.write m _ _ _ _ _) as [m1 [[]|x]] eqn:Ew; [|done].
  apply record_last in Ew as (O1 & K1 & _ & _ & _ & L1); [|done..].
  destruct (IH _ _ _ _ _ O1 E) as (new & -> & Hk & O & K & Hv & Hl). exists ((be_key e, record_data r) :: new).
  assert (K2 : mgr_keeps m m') by (unfold mgr_keeps in *; by etrans).
  rewrite <-app_assoc. split_and!; [done|by cbn; f_equal|done|done| |].
  - constructor; [|done]. exists r. split; [|done]. by apply (read_keeps (b_file m)).
  - intros t' k'. rewrite Hl, L1. case_decide as Et; [|rewrite decide_False by (intros [? ?]; congruence); done]. subst t'.
    cbn [after_results fold_left fst snd]. f_equal.
    destruct (decide (be_key e = k')); [by rewrite decide_True|by rewrite decide_False by (intros [? ?]; congruence)].
Qed.
End history.

(** ** Rows of the primary *)

Section rows.
Context `{Redb, Allocator, TextLib, BackupJsonOk} {SBulk : Serde BulkRecord}
  {SPair : Serde (str * str)} {SIdx : Serde (str * N)} {SKeys : Serde (list bytes)}
  {SDefs : Serde (list Unique)} {SPath : Serde Path} {SRef : Serde BlobRef} {SCons : Serde Consumer}
  {PIdx : @PrefixFree _ SIdx} `{!Host} (c : Config).

Definition row_of (st : Store) (t k : str) : option bytes := store_of (m_db (s_main st)) t k.

(** A row name that every part of the database can hold. *)
Definition row_ok (t k : str) : Prop := utf8_valid t = true ∧ utf8_valid k = true ∧ no_colon t.

Definition row_writes (t k : str) (data : option bytes) : list Write :=
  match data with Some v => [(t, k, v)] | None => [] end.
Definition row_deletes (t k : str) (data : option bytes) : list Del :=
  match data with Some _ => [] | None => [(t, k)] end.

(** The manager after one row was set or removed. *)
Record row_set (m : Manager) (L : Log) (t k : str) (data : option bytes) (m' : Manager) : Prop := {
  rs_inv : ∃ L', m_inv c m' L' ∧ l_head L' <= l_head L + 2;
  rs_open : m_open m' = m_open m;
  rs_user : user_table t;
  rs_rows : ∀ t' k', user_table t' →
    store_of (m_db m') t' k' = if decide (t = t' ∧ k = k') then data else store_of (m_db m) t' k';
}.

Lemma change_row t k data m L r m' : m_inv c m L → row_ok t k → l_head L + 3 < U64 →
  apply_changes c (row_writes t k data) (row_deletes t k data) m = (r, m') →
  match r with Err _ => m' = m | Ok out => length out = length (row_deletes t k data) ∧ row_set m L t k data m' end.
Proof.
  intros Hm (Ut & Uk & Hn) Hh E.
  assert (Uw : Forall utf8_write (row_writes t k data)) by (destruct data; repeat constructor; done).
  assert (Ud : Forall utf8_del (row_deletes t k data)) by (destruct data; repeat constructor; done).
  assert (Hns : Forall no_colon (names_of (row_writes t k data) (row_deletes t k data))) by (destruct data; repeat constructor; done).
  assert (Hlen : len (row_writes t k data) + 2 * len (row_deletes t k data) <= 2) by (destruct data; vm_compute; discriminate).
  assert (Hr : room (change_rows c (row_writes t k data) (row_deletes t k data)) (m_db m)) by (eapply room_bound; [apply Hm|lia]).
  destruct r as [out|e]; [|exact (apply_keeps c _ _ _ _ _ _ (proj1 Hm) Uw Ud Hr E)].
  destruct (apply_keeps c _ _ _ _ _ _ (proj1 Hm) Uw Ud Hr E) as (Hl & Ho & _ & Hs & L' & K & Hh').
  destruct (apply_step c true _ _ _ _ _ _ (proj1 Hm) Uw Ud (λ _, Hns) Hr E) as (_ & _ & C').
  specialize (C' eq_refl (proj2 Hm)).
  split; [done|]. constructor; [|done| |].
  - exists L'. split; [split; [apply K|done]|lia].
  - unfold apply_changes in E. destruct (validate_tables _) as [[]|] eqn:Ev; [|done].
    apply validate_tables_ok in Ev. rewrite Forall_forall in Ev. apply Ev. destruct data; left.
  - intros t' k' Ht'. rewrite Hs by done. destruct data as [v|]; reflexivity.
Qed.

(** The answer of [apply_changes] is that of its transaction, and a delete that found
    nothing had no row. *)
Lemma apply_answer writes deletes m out m' : apply_changes c writes deletes m = (Ok out, m') →
  ∃ es tx1, change_rows c writes deletes (m_db m) = Ok ((out, es), tx1).
Proof.
  unfold apply_changes. destruct (check? _ in _); [|done]. unfold journal_write, get_db.
  destruct (m_open m); [|done]. unfold write_with_sink.
  destruct (Journal.write_body _ _ _) as [[r db']|] eqn:E; [|done]. destruct (commit_answer (m_db m)) as [[]|]; [|done].
  cbn [rmap fst]. intros [= <- _]. unfold Journal.write_body in E. apply M_bind_ok in E as ([out es] & tx1 & Ef & E).
  exists es, tx1. rewrite Ef. repeat (apply M_bind_ok in E as (? & ? & _ & E)). by m_inv.
Qed.

Lemma delete_missing t k m m' : apply_changes c [] [(t, k)] m = (Ok [false], m') → store_of (m_db m) t k = None.
Proof.
  intros (es & tx1 & E)%apply_answer. unfold change_rows in E. apply M_bind_ok in E as ([] & tx & [_ ->]%lift_ok & E).
  apply M_bind_ok in E as (es1 & tx & [= <- <-] & E). cbn [delete_rows] in E.
  apply M_bind_ok in E as (rs & tx2 & (-> & _ & _)%open_same & E). apply M_bind_ok in E as ([] & tx3 & _ & E).
  apply M_bind_ok in E as (o & tx4 & _ & E). injection E as E _ _. unfold store_of.
  destruct (t_get (rows (m_db m) t) k); [done|done].
Qed.

Lemma row_set_row m L t k data m' : row_set m L t k data m' → store_of (m_db m') t k = data.
Proof. intros R. rewrite (rs_rows _ _ _ _ _ _ R) by apply R. by rewrite decide_True. Qed.

Lemma row_set_put m L t k v m' : no_colon t → row_set m L t k (Some v) m' →
  row_set m L t k (Some v) (set_cache (cache_put c t k v (m_cache m')) m').
Proof.
  intros Hn [(L' & [I C] & Hh) Ho Hu Hr]. constructor; [|done..]. exists L'. split; [|done]. split; [done|].
  apply coherent_put; [done..|]. rewrite Hr, decide_True by done. done.
Qed.

Lemma row_set_drop m L t k data m' : row_set m L t k data m' →
  row_set m L t k data (set_cache (cache_drop c t k (m_cache m')) m').
Proof.
  intros [(L' & [I C] & Hh) Ho Hu Hr]. constructor; [|done..]. exists L'. split; [|done]. split; [done|].
  apply coherent_sub; [done|]. unfold cache_drop. case_match; [apply delete_subseteq|done].
Qed.

(** [restore_row] sets the row or leaves the store as it was. *)
Lemma restore_row_spec t k data st L r st' : m_inv c (s_main st) L → row_ok t k → l_head L + 3 < U64 →
  restore_row c t k data st = (r, st') →
  match r with
  | Err _ => st' = st
  | Ok _ => row_set (s_main st) L t k data (s_main st') ∧ s_backup st' = s_backup st ∧ s_index st' = s_index st
  end.
Proof.
  intros Hm Hk Hh E. unfold restore_row, on_main in E. destruct data as [v|].
  all: destruct (apply_changes c _ _ _) as [[out|e] m'] eqn:Ea; injection E as <- <-.
  all: first [eapply (change_row t k (Some v)) in Ea|eapply (change_row t k None) in Ea]; [|done..].
  - split; [|done]. apply row_set_put; [apply Hk|apply Ea].
  - subst m'. by destruct st.
  - split; [|done]. apply row_set_drop, Ea.
  - subst m'. by destruct st.
Qed.

(** The rows of a bulk restore, in order. *)
Lemma apply_results_rows t results : ∀ st L st', m_inv c (s_main st) L → Forall (row_ok t) results.*1 →
  l_head L + 2 * len results + 3 < U64 → apply_results c t results st = (Ok (), st') →
  (∃ L', m_inv c (s_main st') L') ∧ s_backup st' = s_backup st ∧ s_index st' = s_index st ∧
  ∀ t' k', user_table t' → row_of st' t' k' =
    if decide (t' = t) then after_results id results k' (row_of st t' k') else row_of st t' k'.
Proof.
  induction results as [|[k data] results IH]; intros st L st' Hm Hk Hh E; cbn [apply_results] in E.
  { injection E as <-. split_and!; [by exists L|done..|]. intros. by case_decide. }
  cbn [fmap list_fmap fst] in Hk. apply Forall_cons in Hk as [Hk0 Hk]. rewrite len_cons in Hh.
  destruct (on_main _ st) as [[out|] st1] eqn:E1; [|done]. unfold on_main in E1.
  destruct (match data with Some _ => _ | None => _ end (s_main st)) as [r1 m1] eqn:Ea. injection E1 as -> <-.
  assert (Ea' : apply_changes c (row_writes t k data) (row_deletes t k data) (s_main st) = (Ok out, m1)) by by destruct data.
  apply (change_row t k data _ L) in Ea' as [_ R1]; [|done|done|lia]. destruct (rs_inv _ _ _ _ _ _ R1) as (L1 & I1 & Hh1).
  eapply IH in E as (I & -> & -> & Hrows); [|exact I1|done|lia]. split_and!; [done..|].
  intros t' k' Ht'. rewrite Hrows by done. unfold row_of. cbn [set_main s_main]. rewrite (rs_rows _ _ _ _ _ _ R1) by done.
  cbn [after_results fold_left fst snd]. case_decide as Et; [|by rewrite decide_False by (intros [? ?]; congruence)].
  subst t'. f_equal. destruct (decide (k = k')); [by rewrite decide_True|by rewrite decide_False by (intros [? ?]; congruence)].
Qed.
End rows.

From S2P Require Import Prelude Order Redb Memory JournalCodec Fields OrderedCodec OrderedSpec Eval EvalSpec BackupCodec BackupCodecSpec Backup BackupSpec BackupProps Chain Samples Tx LastWrite IdContract Unique UniqueSpec JournalBlob Journal JournalSpec JournalOps Demo Repository Replica RepositorySpec ManagerSpec ManagerOps ManagerProps Store.
Local Open Scope N_scope.

Section helpers.
Context `{Redb, Allocator, TextLib, BackupJsonOk} {SBulk : Serde BulkRecord}
  {SPair : Serde (str * str)} {SIdx : Serde (str * N)} {SKeys : Serde (list bytes)}
  {SDefs : Serde (list Unique)} {SPath : Serde Path} {SRef : Serde BlobRef} {SCons : Serde Consumer}
  {PIdx : @PrefixFree _ SIdx} `{!Host} (c : Config).

(** Both files are sound. *)
Definition store_inv (st : Store) (L : Log) : Prop :=
  m_inv c (s_main st) L ∧ ∀ bm, s_backup st = Some bm → mgr_ok bm.

(** The last word of the history about a row is the row. *)
Definition mirrors (st : Store) : Prop :=
  ∀ bm t k d, s_backup st = Some bm → user_table t → last_data (b_file bm) t k = Some d → row_of st t k = d.

Definition agree (st : Store) : Prop := (∃ L, store_inv st L) ∧ mirrors st.

(** The log has room for [n] more changes. *)
Definition fits (n : N) (st : Store) : Prop :=
  ∀ h, read_number (m_db (s_main st)) (lit "head") = Ok h → h + n < U64.

Lemma fits_head n st L : m_inv c (s_main st) L → fits n st → l_head L + n < U64.
Proof. intros [I _] Hf. apply Hf. unfold read_number. apply number_in_ok. apply (v_log _ _ I). Qed.

(** A row is changed, then recorded. *)
Lemma recorded st L t k data m' commit now r st' :
  store_inv st L → mirrors st → row_set c (s_main st) L t k data m' →
  r_table r = t → r_key r = k → r_date_from_migration r = false → record_data r = data →
  on_backup (λ b, Backup.write b commit now t k r) (set_main m' st) = (Ok (), st') → agree st'.
Proof.
  intros [Hm Hb] Mi R Et Ek Ed Er E. destruct (rs_inv _ _ _ _ _ _ _ R) as (L' & I' & _).
  unfold on_backup in E. cbn [set_main s_backup] in E. destruct (s_backup st) as [bm|] eqn:Eb.
  2:{ injection E as <-. split; [exists L'; split; [done|intros bm Eb'; cbn in Eb'; congruence]|].
      intros bm t' k' d Eb'. cbn in Eb'. congruence. }
  destruct (Backup.write _ _ _ _ _ _) as [bm' r'] eqn:Ew. injection E as -> <-.
  apply record_last in Ew as (O & _ & _ & _ & _ & Hl); [|by apply Hb|done..].
  split; [exists L'; split; [done|]; by intros ? [= <-]|].
  intros ? t' k' d [= <-] Ht'. unfold row_of. cbn [set_backup set_main s_main]. rewrite Hl, (rs_rows _ _ _ _ _ _ _ R) by done.
  case_decide; [by intros [= <-]|]. intros Hd. by apply (Mi bm t' k' d).
Qed.

(** The success of an operation on rows with a proper name and room in the log. *)
Inductive sok (st : Store) : Store → Prop :=
| so_set commit now t k v st' : row_ok t k → fits 3 st → store_set c commit now t t k v st = (Ok (), st') → sok st st'
| so_delete commit now t k b st' : row_ok t k → fits 3 st → store_delete c commit now t t k st = (Ok b, st') → sok st st'
| so_restore commit now t k v st' :
    row_ok t k → fits 3 st → restore_by_version c commit now t t k v st = (Ok (), st') → sok st st'
| so_restore_at commit now t k at_ st' :
    row_ok t k → fits 3 st → restore_at c commit now t t k at_ st = (Ok (), st') → sok st st'
| so_restore_bulk commit now t id bm bulk st' :
    s_backup st = Some bm → read_bulk (b_file bm) t id = Ok bulk → Forall (row_ok t) (be_key <$> bu_entries bulk) →
    fits (2 * len (bu_entries bulk) + 3) st → store_restore_bulk c commit now t t id st = (Ok (), st') → sok st st'
| so_set_bulk commit now id t entries r st' :
    colon ∉ id → set_bulk c commit now id t entries st = (Ok r, st') → sok st st'.

Lemma restore_success st L commit now t k v st' : store_inv st L → mirrors st → row_ok t k → fits 3 st →
  restore_by_version c commit now t t k v st = (Ok (), st') → agree st'.
Proof.
  intros Hs Mi Hk Hf E. pose proof (fits_head 3 st L (proj1 Hs) Hf) as Hh. unfold restore_by_version in E.
  destruct (let? bm := _ in _) as [r|]; [|done].
  set (data := record_data r). set (bulk := match r_operation r with Delete_ => None | _ => r_bulk_id r end).
  assert (Ep : (match r_operation r with Delete_ => (None, None) | _ => (r_data r, r_bulk_id r) end) = (data, bulk))
    by (unfold data, bulk, record_data; by destruct (r_operation r)).
  rewrite Ep in E. destruct (restore_row c t k data st) as [[[]|] st1] eqn:Er; [|done].
  apply (restore_row_spec c t k data st L) in Er as (R & Eb & Ei); [|apply Hs|done|done].
  unfold record_restore in E.
  eapply (recorded st L t k data (s_main st1)); [done|done|done|..]; cycle 4.
  { etrans; [|exact E]. f_equal. destruct st1. cbn in Eb, Ei |- *. unfold set_main. cbn. by rewrite Eb, Ei. }
  all: done.
Qed.

Lemma after_results_mirror {l : list (str * option bytes)} k : ∀ (o : option (option bytes)) (r : option bytes) d,
  (∀ d', o = Some d' → r = d') → after_results Some l k o = Some d → after_results id l k r = d.
Proof.
  induction l as [|p l IH]; intros o r d Ho; cbn [after_results fold_left]; [by apply Ho|].
  apply IH. case_decide; [by intros d' [= <-]|done].
Qed.

(** A named set of versions is not part of any history. *)
Lemma write_bulk_current bm commit now id t entries bm' r t' k : mgr_ok bm → write_bulk bm commit now id t entries = (bm', Ok r) →
  current_of (b_file bm') t' k = current_of (b_file bm) t' k.
Proof.
  intros Hb E. unfold write_bulk in E. case_bool_decide; [done|].
  match type of E with bak_write _ _ ?body = _ => destruct (bak_write_cases bm commit body) as [(a & b' & E' & Ebody & _)|(e & E' & _)] end;
    rewrite E in E'; [|done]. injection E' as -> ->. apply rbind_ok in Ebody as ([d b1] & E1 & [= <- <-]).
  apply open_data_ok in E1 as (-> & Ht & ->). rewrite insert_insert_eq. unfold current_of. cbn [Backup.set_file b_file].
  rewrite lookup_insert. case_decide as Ec; [|done]. rewrite <-Ec.
  destruct (b_file bm !! bulk_table_name t) as [[|vs]|] eqn:El; [done|by destruct (Ht vs)|done].
Qed.

Lemma sok_agree st st' : agree st → sok st st' → agree st'.
Proof.
  intros [[L Hs] Mi] Hstep. destruct Hstep as [commit now t k v st' Hk Hf E|commit now t k b st' Hk Hf E
    |commit now t k v st' Hk Hf E|commit now t k at_ st' Hk Hf E|commit now t id bm bulk st' Eb Er Hk Hf E
    |commit now id t entries r st' Hid E].
  - unfold store_set, set_prepared in E. destruct (refuse_sealed c [t]); [|done].
    rewrite bool_decide_eq_true_2 in E by done. cbn [negb] in E.
    destruct (check? _ in _) as [copy|] eqn:Ec; [|done].
    assert (copy = v) as ->.
    { destruct (match s_backup st with Some _ => _ | None => _ end) as [[]|]; [|done]. by apply copy_bytes_ok in Ec. }
    unfold on_main in E. destruct (apply_changes c _ _ _) as [[out|] m'] eqn:Ea; [|done].
    apply (change_row c t k (Some v) _ L) in Ea as [_ R]; [|apply Hs|done|exact (fits_head 3 st L (proj1 Hs) Hf)].
    eapply (recorded st L t k (Some v) m'); [done..| | | | |exact E]; done.
  - unfold store_delete in E. rewrite bool_decide_eq_true_2 in E by done. cbn [negb] in E.
    unfold on_main in E. destruct (apply_changes c _ _ _) as [[out|] m'] eqn:Ea; [|done].
    pose proof Ea as Ec. apply (change_row c t k None _ L) in Ec as [Hl R]; [|apply Hs|done|exact (fits_head 3 st L (proj1 Hs) Hf)].
    destruct out as [|found [|]]; [done| |done]. cbn [head] in E. destruct found.
    + destruct (on_backup _ _) as [r2 st2] eqn:E2. destruct r2 as [[]|]; [|done]. injection E as <- <-.
      eapply (recorded st L t k None m'); [done..| | | | |exact E2]; done.
    + injection E as <- <-. apply delete_missing in Ea as Hnone. destruct (rs_inv _ _ _ _ _ _ _ R) as (L' & I' & _).
      split; [exists L'; split; [done|apply Hs]|]. intros bm t' k' d Eb Ht' Hd. specialize (Mi bm t' k' d Eb Ht' Hd).
      unfold row_of in *. cbn [set_main s_main]. rewrite (rs_rows _ _ _ _ _ _ _ R) by done.
      case_decide as Ht; [|done]. destruct Ht as [<- <-]. congruence.
  - by eapply restore_success.
  - unfold restore_at in E. destruct (get_version_by_at _ _ _ _); [|done]. by eapply restore_success.
  - destruct Hs as [Hm Hb]. unfold store_restore_bulk in E. rewrite Eb in E. cbn [ok_or rbind] in E.
    destruct (let? b := bak_db bm in _) as [bm0|] eqn:E0; [|done].
    assert (bm0 = bm) as -> by (repeat (apply rbind_ok in E0 as (? & _ & E0)); by injection E0).
    unfold Backup.restore_bulk in E. destruct (bak_db bm) as [b|] eqn:Edb; [|done].
    assert (b = b_file bm) as -> by (unfold bak_db in Edb; destruct (b_open bm); [by injection Edb|done]).
    cbn [rbind] in E. rewrite Er in E. destruct (restore_entries _ _ _ _ _ _ _ _ _) as [bm' [out|]] eqn:Ee; [|done].
    apply restore_entries_last in Ee as (new & -> & En & O & _ & _ & Hl); [|by apply Hb]. cbn [app] in E.
    pose proof (fits_head _ st L Hm Hf) as Hh.
    assert (Hlen : len new = len (bu_entries bulk)) by (apply (f_equal length) in En; rewrite !length_fmap in En; unfold len; lia).
    eapply apply_results_rows in E as ((L' & I') & Eb' & _ & Hrows); [|exact Hm|by rewrite En|rewrite Hlen; lia].
    cbn [set_backup s_backup] in Eb'. split; [exists L'; split; [done|]; intros ? Ex; rewrite Eb' in Ex; by injection Ex as <-|].
    intros bm2 t' k' d Ex Ht' Hd. rewrite Eb' in Ex. injection Ex as <-. rewrite Hrows by done. rewrite Hl in Hd.
    unfold row_of in *. cbn [set_backup s_main]. specialize (Mi bm t' k'). unfold row_of in Mi. case_decide.
    + eapply after_results_mirror; [|exact Hd]. intros d' Hd'. by apply Mi.
    + by apply Mi.
  - unfold set_bulk in E. destruct (check? ensure_writable c in _) as [bm|] eqn:E0; [|done].
    assert (Eb : s_backup st = Some bm) by (destruct (ensure_writable c) as [[]|]; [|done]; destruct (s_backup st); cbn in E0; congruence).
    destruct (write_bulk _ _ _ _ _ _) as [bm' r'] eqn:Ew. injection E as -> <-. destruct Hs as [Hm Hb].
    pose proof (bs_write_bulk bm commit now id t entries Hid) as Hx. rewrite Ew in Hx. cbn [fst] in Hx.
    destruct (bstep_keeps bm bm' Hx (Hb bm Eb)) as [O K].
    split; [exists L; split; [done|]; by intros ? [= <-]|]. intros ? t' k' d [= <-] Ht' Hd.
    apply (Mi bm t' k' d); [done..|]. rewrite <-Hd. symmetry. apply last_data_same; [by apply Hb|done|done|].
    eapply write_bulk_current; [by apply Hb|exact Ew].
Qed.
End helpers.

Section properties.
Context `{Redb, Allocator, TextLib, BackupJsonOk} {SBulk : Serde BulkRecord}
  {SPair : Serde (str * str)} {SIdx : Serde (str * N)} {SKeys : Serde (list bytes)}
  {SDefs : Serde (list Unique)} {SPath : Serde Path} {SRef : Serde BlobRef} {SCons : Serde Consumer}
  {PIdx : @PrefixFree _ SIdx} `{!Host} (c : Config).

(** C17: the history mirrors the rows.  From a store whose files are sound and whose
    history agrees with its rows, every sequence of successful writes, deletes, restores,
    bulk sets and bulk restores leaves both files sound, and for every key with a history
    the row is what its last version says: its bytes, or no row. *)
Theorem history_mirrors_rows st st' : agree c st → rtc (sok c) st st' →
  (∃ L, store_inv c st' L) ∧
  ∀ bm t k r, s_backup st' = Some bm → user_table t →
    read_record (b_file bm) t t k (current_of (b_file bm) t k) = Ok (Some r) → row_of st' t k = record_data r.
Proof.
  intros Ha Hs. assert (Ha' : agree c st') by (induction Hs; [done|]; by eauto using sok_agree).
  destruct Ha' as [Hi Mi]. split; [done|]. intros bm t k r Eb Ht Er. apply (Mi bm); [done..|].
  unfold last_data. by rewrite Er.
Qed.

(** Restoring a version puts exactly that version back.  On success the version was
    restorable, the row is what it holds (or gone, if it holds none), every other row and
    the invariants are kept, and the history gains one record that says which version was
    restored and what it held.  An error leaves the store as it was, or the row restored
    and the history without its record. *)
Lemma restore_by_version_result st L commit now t k v :
  store_inv c st L → row_ok t k → fits 3 st →
  match restore_by_version c commit now t t k v st with
  | (Err _, st') => st' = st ∨ ∃ bm r, s_backup st = Some bm ∧ s_backup st' = Some bm ∧
      read_record (b_file bm) t t k v = Ok (Some r) ∧ row_set c (s_main st) L t k (record_data r) (s_main st')
  | (Ok _, st') => ∃ bm bm' r, s_backup st = Some bm ∧ s_backup st' = Some bm' ∧ check_restorable t [v] st = Ok () ∧
      read_record (b_file bm) t t k v = Ok (Some r) ∧ row_set c (s_main st) L t k (record_data r) (s_main st') ∧
      mgr_ok bm' ∧ mgr_keeps bm bm' ∧
      let n := current_of (b_file bm) t k + 1 in
      current_of (b_file bm') t k = n ∧
      ∃ r', read_record (b_file bm') t t k n = Ok (Some r') ∧ r_operation r' = Restore ∧
        r_data r' = record_data r ∧ r_restored_version r' = Some v
  end.
Proof.
  intros [Hm Hb] Hk Hf. pose proof (fits_head c 3 st L Hm Hf) as Hh. unfold restore_by_version.
  destruct (s_backup st) as [bm|] eqn:Eb; cbn [ok_or rbind]; [|by left].
  destruct (check_restorable t [v] st) as [[]|] eqn:Ec; cbn [rbind]; [|by left].
  unfold bak_db. destruct (b_open bm); cbn [rbind]; [|by left].
  destruct (read_record (b_file bm) t t k v) as [[r|]|] eqn:Er; cbn [rbind ok_or]; [|by left|by left].
  set (data := record_data r). set (bulk := match r_operation r with Delete_ => None | _ => r_bulk_id r end).
  replace (match r_operation r with Delete_ => (None, None) | _ => (r_data r, r_bulk_id r) end) with (data, bulk)
    by (unfold data, bulk, record_data; by destruct (r_operation r)).
  destruct (restore_row c t k data st) as [[[]|] st1] eqn:E1.
  2:{ left. by apply (restore_row_spec c t k data st L) in E1. }
  apply (restore_row_spec c t k data st L) in E1 as (R & Eb1 & _); [|done..].
  unfold on_backup, record_restore. rewrite Eb1, Eb. destruct (Backup.write _ _ _ _ _ _) as [bm' [[]|e]] eqn:Ew.
  - apply record_last in Ew as (O & K & _ & Hrec & Hc & _); [|by apply Hb|done..].
    exists bm, bm', r. split_and!; try done; cbn zeta.
    + rewrite Hc, decide_True by done. done.
    + eexists. split; [exact Hrec|done].
  - right. exists bm, r. split_and!; try done. unfold Backup.write in Ew.
    destruct (bak_write_cases bm commit (Backup.write_body now t k (new_record now Restore t k data bulk (Some v))))
      as [(a & b' & E' & _)|(e' & E' & _)]; rewrite Ew in E'; [done|]. by injection E' as -> ->.
Qed.
End properties.

(** ** Witnesses *)

Module StoreDemo.
#[local] Existing Instance BitJson.json.
#[local] Existing Instance BitJson.json_ok.
#[local] Instance bulk_serde : Serde BulkRecord := countable_serde.

Abbreviation clock := BackupDemo.clock.
Definition st0 : Store := {| s_main := m1; s_backup := Some BackupDemo.m0; s_index := None |}.
Definition st1 : Store := (store_set cfg (Ok ()) (clock 1) (lit "t") (lit "t") (lit "a") (lit "one") st0).2.
Definition st2 : Store := (store_set cfg (Ok ()) (clock 2) (lit "t") (lit "t") (lit "a") (lit "two") st1).2.
Definition st3 : Store := (restore_by_version cfg (Ok ()) (clock 3) (lit "t") (lit "t") (lit "a") 1 st2).2.

Lemma st0_agree : agree cfg st0.
Proof.
  split; [exists L1; split; [exact m1_ok|]; intros bm [= <-]; exact BackupDemo.m0_ok|].
  intros bm t k d [= <-] _ Hd. rewrite last_data_zero in Hd; [done|apply BackupDemo.m0_ok|reflexivity].
Qed.

Lemma ta_ok : row_ok (lit "t") (lit "a").
Proof. split_and!; [reflexivity|reflexivity|by apply (bool_decide_unpack _)]. Qed.

Lemma fits_at st h : read_number (m_db (s_main st)) (lit "head") = Ok h → h + 3 < U64 → fits 3 st.
Proof. intros E Hh h' E'. rewrite E in E'. by injection E' as <-. Qed.

Lemma answered {A} (p : result () * A) : p.1 = Ok () → p = (Ok (), p.2).
Proof. destruct p as [r a]. cbn. by intros ->. Qed.

Lemma st0_st1 : sok cfg st0 st1.
Proof.
  apply (so_set cfg st0 (Ok ()) (clock 1) (lit "t") (lit "a") (lit "one")); [exact ta_ok| |].
  - apply (fits_at st0 0); vm_compute; reflexivity.
  - unfold st1. apply answered. vm_compute. reflexivity.
Qed.

Lemma st1_st2 : sok cfg st1 st2.
Proof.
  apply (so_set cfg st1 (Ok ()) (clock 2) (lit "t") (lit "a") (lit "two")); [exact ta_ok| |].
  - apply (fits_at st1 1); vm_compute; reflexivity.
  - unfold st2. apply answered. vm_compute. reflexivity.
Qed.

Lemma st0_st2 : rtc (sok cfg) st0 st2.
Proof. exact (rtc_l _ _ _ _ st0_st1 (rtc_l _ _ _ _ st1_st2 (rtc_refl _ _))). Qed.

Lemma st2_st3 : sok cfg st2 st3.
Proof.
  apply (so_restore cfg st2 (Ok ()) (clock 3) (lit "t") (lit "a") 1); [exact ta_ok| |].
  - apply (fits_at st2 2); vm_compute; reflexivity.
  - unfold st3. apply answered. vm_compute. reflexivity.
Qed.

Lemma history_mirrors_rows_witness :
  (∃ L, store_inv cfg st3 L) ∧ row_of st3 (lit "t") (lit "a") = Some (lit "one").
Proof.
  destruct (history_mirrors_rows cfg st0 st3 st0_agree (rtc_r _ _ _ st0_st2 st2_st3)) as [Hi Hr]. split; [exact Hi|].
  assert (Hb : match s_backup st3 with
               | Some bm => rmap (fmap record_data)
                   (read_record (b_file bm) (lit "t") (lit "t") (lit "a") (current_of (b_file bm) (lit "t") (lit "a")))
                   = Ok (Some (Some (lit "one")))
               | None => False end) by (vm_compute; reflexivity).
  destruct (s_backup st3) as [bm|] eqn:Eb; [|done].
  destruct (read_record _ _ _ _ _) as [[r|]|] eqn:Er; [|done|done].
  rewrite (Hr bm (lit "t") (lit "a") r eq_refl eq_refl Er). by injection Hb.
Defined.

Lemma restore_by_version_result_example :
  ∃ bm', s_backup st3 = Some bm' ∧ row_of st3 (lit "t") (lit "a") = Some (lit "one") ∧
    current_of (b_file bm') (lit "t") (lit "a") = 3.
Proof.
  assert (Ha : agree cfg st2).
  { pose proof st0_st2 as Hs. pose proof st0_agree as H0. revert H0.
    induction Hs as [|x y z Hxy Hyz IH]; [done|]. intros H0. apply IH. by eapply sok_agree. }
  destruct Ha as [[L Hi] _].
  pose proof (restore_by_version_result cfg st2 L (Ok ()) (clock 3) (lit "t") (lit "a") 1 Hi ta_ok
    (fits_at st2 2 ltac:(vm_compute; reflexivity) ltac:(vm_compute; reflexivity))) as Hr.
  rewrite (answered (restore_by_version cfg (Ok ()) (clock 3) (lit "t") (lit "t") (lit "a") 1 st2)) in Hr
    by (vm_compute; reflexivity).
  change (restore_by_version cfg (Ok ()) (clock 3) (lit "t") (lit "t") (lit "a") 1 st2).2 with st3 in Hr.
  destruct Hr as (bm & bm' & r & Eb & Eb' & _ & Er & R & _ & _ & Hn & _). exists bm'. split; [exact Eb'|].
  assert (Hb : match s_backup st2 with
               | Some bm => rmap (fmap record_data) (read_record (b_file bm) (lit "t") (lit "t") (lit "a") 1) = Ok (Some (Some (lit "one")))
                   ∧ current_of (b_file bm) (lit "t") (lit "a") = 2
               | None => False end) by (vm_compute; split; reflexivity).
  rewrite Eb in Hb. destruct Hb as [Hb Hc]. rewrite Er in Hb. split.
  - injection Hb as Hb. exact (eq_trans (row_set_row _ _ _ _ _ _ _ R) Hb).
  - rewrite Hn, Hc. reflexivity.
Defined.
End StoreDemo.
