(* ===== verification/Query.v ===== *)
(** * Queries ([query/mod.rs])

    A query reads one table of a view: the rows its predicate accepts, in the order of its
    terms and then of their keys, a page at a time.  The optimizer and the access to the
    index files decide where the rows are looked for; their answer is the argument
    [planner], and [QuerySpec] says what it has to give.  The build without the feature
    [encryption] is modelled: no field is protected, and [decode_row] reads a row as it
    is.  Timing, events and the feedback to the optimizer are left out. *)
From S2P Require Import Prelude Order Redb Memory Fields OrderedCodec Eval Sum Tx JournalCodec LastWrite IdContract Journal Trigram Index Exec Plan.
Local Open Scope N_scope.

Definition VERSION : N := 1.
Definition TOKENIZER_VERSION : N := 1.

(** What serde_json and strsim give: the bytes of an expression and of the tuple that
    identifies a query, and the decimal text of a similarity. *)
Class QueryText := {
  expr_to_vec : Expr → bytes;
  identity_to_vec : N → N → str → option bytes → list (OrderSource * Direction) → bytes;
  normalized_levenshtein : str → str → str;
}.

Record Cursor := {
  c_fingerprint : bytes; c_order : list bytes; c_key : str; c_sequence : N; c_database : bytes }.

Record Query := {
  q_table : str; q_predicate : option Predicate; q_order : list (OrderSource * Direction);
  q_limit : option N; q_after : option Cursor; q_allow_stale : bool }.

Record Page (E : Type) := {
  items : list E; next : option Cursor; pg_sequence : N;
  index_sequence : option N; index_age : option N; stale : bool }.
Arguments items {E}. Arguments next {E}. Arguments pg_sequence {E}. Arguments index_sequence {E}.
Arguments index_age {E}. Arguments stale {E}.

Record Row := { r_order : list bytes; r_key : str; r_bytes : bytes }.

(** [impl Ord for Row], and the position of a cursor in the same order. *)
Definition row_position (r : Row) : list bytes * str := (r_order r, r_key r).
Definition c_position (c : Cursor) : list bytes * str := (c_order c, c_key c).

(** ** Building a query *)

Definition query_new (table : str) : Query :=
  {| q_table := table; q_predicate := None; q_order := []; q_limit := None; q_after := None; q_allow_stale := false |}.
Definition query_filter (p : Predicate) (q : Query) : Query :=
  {| q_table := q_table q;
     q_predicate := Some (match q_predicate q with Some old => pred_and old p | None => p end);
     q_order := q_order q; q_limit := q_limit q; q_after := q_after q; q_allow_stale := q_allow_stale q |}.
Definition order_by (f : OrderSource) (d : Direction) (q : Query) : Query :=
  {| q_table := q_table q; q_predicate := q_predicate q; q_order := [(f, d)]; q_limit := q_limit q;
     q_after := q_after q; q_allow_stale := q_allow_stale q |}.
Definition then_by (f : OrderSource) (d : Direction) (q : Query) : Query :=
  {| q_table := q_table q; q_predicate := q_predicate q; q_order := q_order q ++ [(f, d)]; q_limit := q_limit q;
     q_after := q_after q; q_allow_stale := q_allow_stale q |}.
Definition query_limit (n : N) (q : Query) : Query :=
  {| q_table := q_table q; q_predicate := q_predicate q; q_order := q_order q; q_limit := Some n;
     q_after := q_after q; q_allow_stale := q_allow_stale q |}.
Definition query_allow_stale (q : Query) : Query :=
  {| q_table := q_table q; q_predicate := q_predicate q; q_order := q_order q; q_limit := q_limit q;
     q_after := q_after q; q_allow_stale := true |}.
Definition query_after (c : Cursor) (q : Query) : Query :=
  {| q_table := q_table q; q_predicate := q_predicate q; q_order := q_order q; q_limit := q_limit q;
     q_after := Some c; q_allow_stale := q_allow_stale q |}.

(** [optimizer::paths]: the paths of the predicate and of the order, each once. *)
Fixpoint walk (e : Expr) : list Path :=
  match e with
  | ECompare p _ _ | EPresence p _ | EElemMatch p _ => [p]
  | EAnd a b | EOr a b => walk a ++ walk b
  | ENot a => walk a
  | ENever | EInvalid _ => []
  end.

Definition paths (e : option Expr) (order : list (OrderSource * Direction)) : list Path :=
  fold_left (λ out p, if decide (p ∈ out) then out else out ++ [p])
    (from_option walk [] e ++ omap (λ o, match o.1 with OField p | OSimilarity p _ => Some p | OLastWrite => None end) order) [].

(** What the optimizer and the index files answer: the plan, and the row keys found. *)
Record Access := { a_keys : list str; a_count : option N; a_sequence : N; a_age_ms : N; a_covered : bool }.
Record Choice := { selected : PlanKind; access : option Access }.

Section query.
Context `{Redb, TextLib, Allocator, QueryText} {SPath : Serde Path} {SP : Serde (str * str)}.

(** ** The identity of a query *)

(** [check] of [Predicate::fingerprint]. *)
Fixpoint check_expr (e : Expr) : result () :=
  match e with
  | ECompare _ (CFuzzy distance) _ => if 2 <? distance then Err (Validation (lit "fuzzy distance exceeds 2")) else Ok ()
  | EInvalid v => Err (Validation v)
  | EAnd a b | EOr a b => check? check_expr a in check_expr b
  | ENot a | EElemMatch _ a => check_expr a
  | ECompare _ _ _ | EPresence _ _ | ENever => Ok ()
  end.

Fixpoint canonical_value (v : Value) : result Value :=
  match v with
  | Number n => rmap Number (canonical_number n)
  | VArray l =>
      rmap VArray ((fix go (l : list Value) : result (list Value) :=
        match l with
        | [] => Ok []
        | v :: l' => let? v' := canonical_value v in let? r := go l' in Ok (v' :: r)
        end) l)
  | VObject o =>
      rmap VObject ((fix go (o : list (str * Value)) : result (list (str * Value)) :=
        match o with
        | [] => Ok []
        | (k, v) :: o' => let? v' := canonical_value v in let? r := go o' in Ok ((k, v') :: r)
        end) o)
  | Missing | Null | VBool _ | Time _ | VString _ => Ok v
  end.

Fixpoint normalize (e : Expr) : result Expr :=
  match e with
  | ECompare p op values =>
      rmap (ECompare p op) (traverse (λ v, let? v := interpret (p_kind p) v in canonical_value v) values)
  | EAnd a b => let? a := normalize a in let? b := normalize b in Ok (EAnd a b)
  | EOr a b => let? a := normalize a in let? b := normalize b in Ok (EOr a b)
  | ENot a => rmap ENot (normalize a)
  | EElemMatch p a => rmap (EElemMatch p) (normalize a)
  | EPresence _ _ | ENever | EInvalid _ => Ok e
  end.

Definition predicate_fingerprint (p : Predicate) : result bytes :=
  check? check_expr (expression p) in
  let? e := normalize (expression p) in
  Ok ([byte_of_N 1; byte_of_N VERSION] ++ expr_to_vec e).

Definition fingerprint (q : Query) : result bytes :=
  let? pred := match q_predicate q with Some p => rmap Some (predicate_fingerprint p) | None => Ok None end in
  Ok (identity_to_vec 1 TOKENIZER_VERSION (q_table q) pred (q_order q)).

(** ** Scanning *)

Context (id_field : option Field).

Definition point_key (q : Query) (view : ReadView) : option str :=
  match id_field with
  | None => None
  | Some declared =>
      if negb (enforced (v_tx view) (q_table q) (path declared)) then None
      else
        match q_predicate q with
        | Some {| expression := ECompare p CEq [VString s] |} =>
            if bool_decide (p = path declared) && bool_decide (p_transforms p = []) then Some s else None
        | _ => None
        end
  end.

(** The planner's answer for a query: whether it is an aggregate, and whether a count is
    all it needs. *)
Context (planner : Query → ReadView → bool → bool → result Choice).

(** [process], the closure of [rows]. *)
Definition process {S : Type} (q : Query) (paths : list Path)
    (visit : S → str → bytes → slots → result (S * bool)) (s : S) (key : str) (b : bytes) : result (S * bool) :=
  let fresh : slots := replicate (length paths) None in
  let? '(yes, values) := match q_predicate q with
                         | Some p => row_matches b paths fresh (expression p)
                         | None => Ok (true, fresh)
                         end in
  if yes then visit s key b values else Ok (s, true).

(** The loop over rows: it ends when a visitor says so. *)
Fixpoint scan {S : Type} (step : S → str → bytes → result (S * bool)) (l : list (str * bytes)) (s : S) : result S :=
  match l with
  | [] => Ok s
  | (key, b) :: l' => let? '(s, more) := step s key b in if more then scan step l' s else Ok s
  end.

(** Where the rows are looked for. *)
Definition candidates (q : Query) (view : ReadView) (c : Choice) (t : table str bytes) : list (str * bytes) :=
  match selected c with
  | PointLookup =>
      match point_key q view with
      | Some key => match t_get t key with Some v => [(key, v)] | None => [] end
      | None => []
      end
  | _ =>
      match access c with
      | Some a => omap (λ key, (λ v, (key, v)) <$> t_get t key) (a_keys a)
      | None => t_iter t
      end
  end.

Definition bad_cursor (q : Query) (view : ReadView) (fp : bytes) : bool :=
  match q_after q with
  | None => false
  | Some c => negb (bool_decide (c_fingerprint c = fp)) || negb (bool_decide (c_database c = v_uuid view)) || (v_head view <? c_sequence c)
  end.

(** The statement's paths, of which a row keeps the values. *)
Definition row_paths (q : Query) (aggregate : bool) : list Path :=
  if aggregate || bool_decide (length (q_order q) = O) then [] else paths (expression <$> q_predicate q) (q_order q).

Definition rows {S : Type} (q : Query) (view : ReadView) (aggregate : bool)
    (visit : S → str → bytes → slots → result (S * bool)) (s : S) : result (S * option (N * N)) :=
  let? fp := fingerprint q in
  if bad_cursor q view fp then Err InvalidCursor
  else
    let? c := planner q view aggregate false in
    let? t := open_read (v_tx view) (q_table q) in
    let? s := scan (process q (row_paths q aggregate) visit) (candidates q view c t) s in
    Ok (s, (λ a, (a_sequence a, a_age_ms a)) <$> access c).

(** ** A page *)

Context {E : Type} `{SE : Serde E} (size_of_E : N).

Definition decode_row (key : str) (b : bytes) : result E := from_slice b.

(** The key of a row under the terms of the order ([Query::row]). *)
Fixpoint row_order (view : ReadView) (table key : str) (b : bytes) (paths : list Path) (values : slots)
    (order : list (OrderSource * Direction)) : result (list bytes) :=
  match order with
  | [] => Ok []
  | (f, d) :: order' =>
      let? '(encoded, values) :=
        match f with
        | OField p => let? '(v, values) := row_value b paths values p in let? e := OrderedCodec.encode v in Ok (e, values)
        | OSimilarity p term =>
            let? '(v, values) := row_value b paths values p in
            let score := match v with VString value => normalized_levenshtein value term | _ => lit "0" end in
            let? e := OrderedCodec.encode (Number score) in Ok (e, values)
        | OLastWrite => let? e := OrderedCodec.encode (Number (dec (LastWrite.get (v_tx view) table key))) in Ok (e, values)
        end in
      let? rest := row_order view table key b paths values order' in
      Ok ((match d with Desc => flip <$> encoded | Asc => encoded end) :: rest)
  end.

Definition row (q : Query) (view : ReadView) (key : str) (b : bytes) (paths : list Path) (values : slots) : result Row :=
  let? order := row_order view (q_table q) key b paths values (q_order q) in
  Ok {| r_order := order; r_key := key; r_bytes := [] |}.

(** [BinaryHeap] as the ascending list of its rows: [peek] and [pop] take the last. *)
Fixpoint heap_push (r : Row) (heap : list Row) : list Row :=
  match heap with
  | [] => [r]
  | r0 :: heap' => match cmp (row_position r) (row_position r0) with Lt => r :: heap | _ => r0 :: heap_push r heap' end
  end.
Definition heap_pop (heap : list Row) : list Row := removelast heap.

Definition SITE : str := lit "query.collect_rows".
(** [size_of::<Row>()]: two vectors and a string. *)
Definition SIZE_ROW : N := 72.

Definition with_bytes (r : Row) (b : bytes) : Row := {| r_order := r_order r; r_key := r_key r; r_bytes := b |}.

(** The visitor of [page_in]: its state is [rows] and [heap]. *)
Definition page_visit (q : Query) (view : ReadView) (limit : N) (paths : list Path)
    (s : list Row * list Row) (key : str) (b : bytes) (values : slots) : result (list Row * list Row * bool) :=
  let '(rows, heap) := s in
  let? r := row q view key b paths values in
  if match q_after q with Some c => negb (ltb (c_position c) (row_position r)) | None => false end then Ok (s, true)
  else if limit =? 0 then Ok (s, false)
  else if bool_decide (length (q_order q) = O) then
    let? b := copy_bytes SITE b in
    let? rows := push SITE SIZE_ROW rows (with_bytes r b) in
    Ok ((rows, heap), len rows <? limit)
  else if (len heap <? limit) || match last heap with Some max => ltb (row_position r) (row_position max) | None => false end then
    let? b := copy_bytes SITE b in
    check? reserve SITE 1 SIZE_ROW in
    let heap := heap_push (with_bytes r b) heap in
    Ok ((rows, if limit <? len heap then heap_pop heap else heap), true)
  else Ok (s, true).

Definition cursor_at (q : Query) (view : ReadView) (r : Row) : result Cursor :=
  let? fp := fingerprint q in
  Ok {| c_fingerprint := fp; c_order := r_order r; c_key := r_key r; c_sequence := v_head view; c_database := v_uuid view |}.

(** [usize::MAX] where no limit was set. *)
Definition limit_of (q : Query) : N := default (U64 - 1) (q_limit q).

Definition page_in (q : Query) (view : ReadView) : result (Page E) :=
  let limit := limit_of q in
  let? '(rows, heap, info) := rows q view false (page_visit q view limit (row_paths q false)) ([], []) in
  let rows := if bool_decide (length (q_order q) = O) then rows else heap in
  let? next := match last rows with Some r => rmap Some (cursor_at q view r) | None => Ok None end in
  let? out := vec_with_capacity SITE (len rows) size_of_E in
  let? items := try_fold (λ out r, let? e := decode_row (r_key r) (r_bytes r) in Ok (out ++ [e])) out rows in
  Ok {| items := items; next := next; pg_sequence := v_head view; index_sequence := fst <$> info; index_age := snd <$> info;
        stale := match info with Some i => i.1 <? v_head view | None => false end |}.

Definition collect_in (q : Query) (view : ReadView) : result (list E) := rmap items (page_in q view).

(** ** The complete filtered set *)

Definition one (q : Query) (view : ReadView) : result (option E) :=
  let? '(count, item, _) := rows q view true
    (λ s key b _, let count := s.1 + 1 in
                  let? item := if count =? 1 then rmap Some (decode_row key b) else Ok s.2 in
                  Ok ((count, item), true)) (0, None) in
  if 1 <? count then Err (NonUnique count) else Ok item.

Definition scan_count (q : Query) (view : ReadView) : result N :=
  rmap fst (rows q view true (λ n _ _ _, Ok (n + 1, true)) 0).

Definition count (q : Query) (view : ReadView) : result N :=
  check? fingerprint q in
  let? c := planner q view true true in
  match access c with
  | Some a =>
      if a_covered a && (a_sequence a =? v_head view) && negb (bool_decide (is_Some (q_after q)))
      then Ok (default (len (a_keys a)) (a_count a))
      else scan_count q view
  | None => scan_count q view
  end.

Definition exists_row (q : Query) (view : ReadView) : result bool :=
  rmap fst (rows q view true (λ _ _ _ _, Ok (true, false)) false).

(** [values]: the visitor runs on the value of the path in every matching row. *)
Definition values {S : Type} (q : Query) (view : ReadView) (p : Path) (f : S → Value → result S) (s : S) : result S :=
  rmap fst (rows q view true (λ s _ b _, let? v := path_value b p in let? s := f s v in Ok (s, true)) s).

Definition q_distinct (q : Query) (view : ReadView) (p : Path) : result (list Value) :=
  let? m := values q view p distinct_step [] in Ok (snd <$> m).
Definition q_extreme (q : Query) (view : ReadView) (p : Path) (max : bool) : result (option Value) :=
  let? best := values q view p (extreme_step max) None in Ok (snd <$> best).
Definition q_sum (q : Query) (view : ReadView) (p : Path) : result Sum :=
  let? a := values q view p sum_step acc_default in finish a.
Definition q_group_count (q : Query) (view : ReadView) (p : Path) : result (list (Value * N)) :=
  let? groups := values q view p group_step [] in Ok (snd <$> groups).
End query.
