(* ===== verification/QuerySpec.v ===== *)
(** * What a query answers

    The reference of [Query]: [eval] extracts every path where it is used, [term_key] is
    the key of a row under one term of the order, and [answers] says that a list is the
    complete answer of a query, in order.  The rows a page takes from its heap are the first
    of that list ([scan_heap], [scan_rows]), whether all rows of the table were looked at or
    only those an index named ([trusted]). *)
From S2P Require Import Prelude Order Redb Memory Fields OrderedCodec OrderedSpec Eval EvalSpec Sum Tx JournalCodec LastWrite IdContract Journal Trigram Index Exec Plan Query.
Local Open Scope N_scope.

(** ** Results that only an allocation can refuse *)

Definition fits `{Allocator} {A : Type} (r : result A) (P : A → Prop) : Prop :=
  match r with
  | Ok a => P a
  | Err (OutOfMemory site size) => try_reserve site size = false
  | Err _ => False
  end.

Section fits.
Context `{Allocator}.

Lemma fits_bind {A B : Type} (r : result A) (k : A → result B) (P : A → Prop) (Q : B → Prop) :
  fits r P → (∀ a, P a → fits (k a) Q) → fits (rbind r k) Q.
Proof. destruct r as [a|[]]; simpl; auto. Qed.

Lemma fits_mono {A : Type} (r : result A) (P Q : A → Prop) : fits r P → (∀ a, P a → Q a) → fits r Q.
Proof. destruct r as [a|[]]; simpl; auto. Qed.

Lemma fits_copy site b : fits (copy_bytes site b) (λ b', b' = b).
Proof. unfold copy_bytes, vec_with_capacity. destruct (try_reserve _ _) eqn:E; done. Qed.
Lemma fits_reserve site n size : fits (reserve site n size) (λ _, True).
Proof. unfold reserve. destruct (try_reserve _ _) eqn:E; done. Qed.
Lemma fits_push {A : Type} site size (l : list A) a : fits (push site size l a) (λ l', l' = l ++ [a]).
Proof. unfold push, reserve. destruct (try_reserve _ _) eqn:E; done. Qed.
Lemma fits_capacity {A : Type} site n size : fits (vec_with_capacity (A := A) site n size) (λ l, l = []).
Proof. unfold vec_with_capacity. destruct (try_reserve _ _) eqn:E; done. Qed.
End fits.

(** ** Rows in order *)

Definition row_lt (a b : Row) : Prop := key_lt (row_position a) (row_position b).
#[global] Instance row_lt_trans : Transitive row_lt.
Proof. intros a b c. apply key_lt_trans. Qed.

Definition sort_rows (l : list Row) : list Row := fold_left (λ h r, heap_push r h) l [].

Lemma sort_rows_snoc l r : sort_rows (l ++ [r]) = heap_push r (sort_rows l).
Proof. unfold sort_rows. by rewrite fold_left_app. Qed.

Lemma heap_push_perm r h : heap_push r h ≡ₚ r :: h.
Proof.
  induction h as [|r0 h IH]; [done|]. cbn [heap_push]. destruct (cmp _ _); [|done|]; rewrite IH; apply Permutation_swap.
Qed.

Lemma sort_rows_perm l : sort_rows l ≡ₚ l.
Proof.
  induction l as [|r l IH] using rev_ind; [done|]. rewrite sort_rows_snoc, heap_push_perm, IH. apply Permutation_cons_append.
Qed.

Lemma heap_push_sorted r h : StronglySorted row_lt h → row_position r ∉ row_position <$> h → StronglySorted row_lt (heap_push r h).
Proof.
  induction 1 as [|r0 h Hs IH Hf]; intros Hn; [repeat constructor|]. cbn [heap_push].
  rewrite fmap_cons, not_elem_of_cons in Hn. destruct Hn as [Hne Hn].
  destruct (cmp (row_position r) (row_position r0)) eqn:E.
  - by apply cmp_eq in E.
  - constructor; [by constructor|]. constructor; [done|]. eapply Forall_impl; [exact Hf|]. intros x Hx. by etrans.
  - constructor; [by apply IH|]. rewrite heap_push_perm. constructor; [by apply cmp_gt_lt|done].
Qed.

Lemma sort_rows_sorted l : NoDup (row_position <$> l) → StronglySorted row_lt (sort_rows l).
Proof.
  induction l as [|r l IH] using rev_ind; [constructor|]. rewrite fmap_app, NoDup_app. intros (Hl & Hd & _).
  rewrite sort_rows_snoc. apply heap_push_sorted; [by apply IH|]. rewrite sort_rows_perm. intros Hin. apply (Hd _ Hin). by left.
Qed.

(** Only what is among the first [n] matters for the first [n]. *)
Lemma take_push n r h : take n (heap_push r h) = take n (heap_push r (take n h)).
Proof.
  revert h. induction n as [|n IH]; intros h; [done|]. destruct h as [|r0 h]; [done|]. cbn [take heap_push].
  destruct (cmp _ _); cbn [take]; f_equal; [apply IH| |apply IH].
  destruct n; cbn [take]; [done|]. f_equal. by rewrite take_take, Nat.min_l by lia.
Qed.

(** A row that is not below the last stays behind. *)
Lemma push_last r h max : StronglySorted row_lt h → last h = Some max → ¬ row_lt r max → heap_push r h = h ++ [r].
Proof.
  intros Hs. induction Hs as [|r0 h Hs IH Hf]; [done|]. intros El Hr. cbn [heap_push app].
  assert (Hle : ¬ row_lt r r0).
  { destruct h as [|r1 h]; [by simplify_eq/=|]. intros Hlt. apply Hr. etrans; [exact Hlt|].
    rewrite Forall_forall in Hf. apply Hf. apply last_Some_elem_of. done. }
  unfold row_lt, key_lt in Hle. assert (heap_push r h = h ++ [r]) as ->.
  - destruct h as [|r1 h]; [done|]. by apply IH.
  - by destruct (cmp _ _).
Qed.

Lemma heap_push_length r h : length (heap_push r h) = S (length h).
Proof. by rewrite heap_push_perm. Qed.

Lemma sorted_take {A : Type} (R : A → A → Prop) n l : StronglySorted R l → StronglySorted R (take n l).
Proof.
  intros Hs. revert n. induction Hs as [|a l Hs IH Hf]; intros [|n]; cbn [take]; constructor; [done|]. by apply Forall_take.
Qed.

(** Two ascending lists with the same rows are the same list. *)
Lemma rows_ext (l1 l2 : list Row) : StronglySorted row_lt l1 → StronglySorted row_lt l2 → (∀ r, r ∈ l1 ↔ r ∈ l2) → l1 = l2.
Proof.
  intros H1 H2 Hin.
  assert (Hpos : ∀ l, StronglySorted row_lt l → StronglySorted pair_lt ((λ r, (row_position r, r)) <$> l)).
  { induction 1 as [|r l Hs IH Hf]; [constructor|]. rewrite fmap_cons. constructor; [done|]. by rewrite Forall_fmap. }
  assert ((λ r, (row_position r, r)) <$> l1 = (λ r, (row_position r, r)) <$> l2) as E.
  { apply sorted_ext; [by apply Hpos..|]. intros p. rewrite !list_elem_of_fmap. by setoid_rewrite Hin. }
  apply (f_equal (fmap snd)) in E. rewrite <-!list_fmap_compose in E. by rewrite !list_fmap_id in E.
Qed.

(** ** The answer *)

Section spec.
Context `{Redb, TextLib, Allocator, QueryText} {SPath : Serde Path} {SP : Serde (str * str)}.

Definition eval (q : Query) (b : bytes) : result bool :=
  match q_predicate q with Some p => matches_uncached b (expression p) | None => Ok true end.

Definition term_key (view : ReadView) (table key : str) (b : bytes) (o : OrderSource * Direction) : result bytes :=
  rmap (λ e, match o.2 with Desc => flip <$> e | Asc => e end)
    match o.1 with
    | OField p => let? v := path_value b p in OrderedCodec.encode v
    | OSimilarity p term =>
        let? v := path_value b p in
        OrderedCodec.encode (Number (match v with VString value => normalized_levenshtein value term | _ => lit "0" end))
    | OLastWrite => OrderedCodec.encode (Number (dec (LastWrite.get (v_tx view) table key)))
    end.

Definition order_key (q : Query) (view : ReadView) (key : str) (b : bytes) : result (list bytes) :=
  traverse (term_key view (q_table q) key b) (q_order q).

(** The row of an entry of the table, if the query accepts it. *)
Definition hit (q : Query) (view : ReadView) (p : str * bytes) : option Row :=
  match eval q p.2 with
  | Ok true => match order_key q view p.1 p.2 with
               | Ok o => Some {| r_order := o; r_key := p.1; r_bytes := p.2 |}
               | Err _ => None
               end
  | _ => None
  end.

(** [L] is the complete answer of [q], in order. *)
Definition answers (q : Query) (view : ReadView) (t : table str bytes) (L : list Row) : Prop :=
  StronglySorted row_lt L ∧
  ∀ r, r ∈ L ↔ t_get t (r_key r) = Some (r_bytes r) ∧ eval q (r_bytes r) = Ok true ∧
               order_key q view (r_key r) (r_bytes r) = Ok (r_order r).

Definition after_cursor (q : Query) (r : Row) : Prop :=
  match q_after q with Some c => key_lt (c_position c) (row_position r) | None => True end.
#[global] Instance after_cursor_dec q r : Decision (after_cursor q r).
Proof. unfold after_cursor. destruct (q_after q); apply _. Defined.

(** The rows behind the cursor, and those of the page. *)
Definition beyond (q : Query) (L : list Row) : list Row := filter (after_cursor q) L.
Definition page_part (q : Query) (L : list Row) : list Row := take (N.to_nat (limit_of q)) (beyond q L).

(** The predicate decides the row, and a row it accepts has a key under every term. *)
Definition settled_row (q : Query) (view : ReadView) (p : str * bytes) : Prop :=
  ∃ yes, eval q p.2 = Ok yes ∧ (yes = true → is_ok (order_key q view p.1 p.2) = true).
Definition settled (q : Query) (view : ReadView) (t : table str bytes) : Prop := ∀ k v, t_get t k = Some v → settled_row q view (k, v).

Lemma hit_Some q view p r : hit q view p = Some r ↔
  r_key r = p.1 ∧ r_bytes r = p.2 ∧ eval q p.2 = Ok true ∧ order_key q view p.1 p.2 = Ok (r_order r).
Proof.
  unfold hit. destruct (eval q p.2) as [[]|]; [|naive_solver..]. destruct (order_key q view p.1 p.2) as [o|]; [|naive_solver].
  split; [by intros [= <-]|]. destruct r; simpl. intros (-> & -> & _ & [= ->]). done.
Qed.

Lemma elem_of_hits q view (l : list (str * bytes)) r : r ∈ omap (hit q view) l ↔
  (r_key r, r_bytes r) ∈ l ∧ eval q (r_bytes r) = Ok true ∧ order_key q view (r_key r) (r_bytes r) = Ok (r_order r).
Proof.
  rewrite list_elem_of_omap. split.
  - intros ([k b] & Hin & (Hk & Hb & He & Ho)%hit_Some). simpl in *. subst. auto.
  - intros (Hin & He & Ho). exists (r_key r, r_bytes r). split; [done|]. by apply hit_Some.
Qed.

Lemma hits_keys q view (l : list (str * bytes)) : r_key <$> omap (hit q view) l `sublist_of` l.*1.
Proof.
  induction l as [|p l IH]; [done|]. cbn [omap list_omap fmap list_fmap].
  destruct (hit q view p) as [r|] eqn:E; [|by apply sublist_cons]. apply hit_Some in E as (Er & _). cbn [fmap list_fmap]. rewrite Er. by apply sublist_skip.
Qed.

Lemma positions_nodup (l : list Row) : NoDup (r_key <$> l) → NoDup (row_position <$> l).
Proof.
  intros Hn. apply (NoDup_fmap_1 snd). rewrite <-list_fmap_compose. done.
Qed.

Lemma NoDup_keys {K V} `{TotalOrder K} (t : table K V) : NoDup (t_iter t).*1.
Proof.
  pose proof (t_iter_sorted t) as Hs. induction Hs as [|p l Hs IH Hf]; [constructor|]. cbn [fmap list_fmap]. constructor; [|done].
  intros (q & E & Hq)%list_elem_of_fmap. rewrite Forall_forall in Hf. apply Hf in Hq. unfold pair_lt in Hq. rewrite E in Hq. by apply key_lt_irrefl in Hq.
Qed.

Lemma answers_sort q view t : answers q view t (sort_rows (omap (hit q view) (t_iter t))).
Proof.
  split.
  - apply sort_rows_sorted, positions_nodup. eapply sublist_NoDup; [|apply hits_keys]; apply NoDup_keys.
  - intros r. rewrite sort_rows_perm, elem_of_hits, <-t_get_iter. done.
Qed.

Lemma answers_unique q view t L L' : answers q view t L → answers q view t L' → L = L'.
Proof. intros [S1 E1] [S2 E2]. apply rows_ext; [done..|]. intros r. by rewrite E1, E2. Qed.

(** ** One row *)

Lemma row_order_ok view table key b paths order : ∀ values, slots_ok b paths values →
  row_order view table key b paths values order = traverse (term_key view table key b) order.
Proof.
  induction order as [|[f d] order IH]; intros values Hs; [done|]. cbn [row_order traverse term_key fst snd].
  assert (Hp : ∀ p (k : Value → result bytes),
    (let? '(encoded, values) := (let? '(v, values) := row_value b paths values p in let? e := k v in Ok (e, values)) in
     let? rest := row_order view table key b paths values order in
     Ok ((match d with Desc => flip <$> encoded | Asc => encoded end) :: rest)) =
    (let? x := rmap (λ e, match d with Desc => flip <$> e | Asc => e end) (let? v := path_value b p in k v) in
     let? bs := traverse (term_key view table key b) order in Ok (x :: bs))).
  { intros p k. pose proof (row_value_ok b paths values p Hs) as Hr. destruct (row_value b paths values p) as [[v values']|]; cbn [rbind].
    - destruct Hr as [-> Hs']. cbn [rbind]. destruct (k v); cbn [rbind rmap]; [|done]. by rewrite IH.
    - by rewrite Hr. }
  destruct f as [p| |p term].
  - apply Hp.
  - unfold term_key at 1. cbn [fst snd]. destruct (OrderedCodec.encode _); cbn [rbind rmap]; [|done]. by rewrite IH.
  - apply (Hp p (λ v, OrderedCodec.encode (Number (match v with VString value => normalized_levenshtein value term | _ => lit "0" end)))).
Qed.

(** [process]: the visitor sees the rows the predicate accepts, with a valid cache. *)
Lemma process_ok {S : Type} q paths (visit : S → str → bytes → slots → result (S * bool)) s key b (ref : result (S * bool)) :
  (∀ values, slots_ok b paths values → visit s key b values = ref) →
  process q paths visit s key b = let? yes := eval q b in if yes then ref else Ok (s, true).
Proof.
  intros Hv. unfold process, eval. pose proof (slots_ok_fresh b paths) as Hf. destruct (q_predicate q) as [p|].
  - pose proof (row_matches_agrees (expression p) b paths _ Hf) as Ha. destruct (row_matches _ _ _ _) as [[yes values]|]; cbn [rbind]; simpl in Ha.
    + destruct Ha as [-> Hs]. cbn [rbind]. destruct yes; [by apply Hv|done].
    + by rewrite Ha.
  - cbn [rbind]. by apply Hv.
Qed.

(** ** Collecting a page *)

(** [page_visit] once the row is made. *)
Definition collect_row (q : Query) (limit : N) (s : list Row * list Row) (r : Row) : result (list Row * list Row * bool) :=
  if bool_decide (¬ after_cursor q r) then Ok (s, true)
  else if limit =? 0 then Ok (s, false)
  else if bool_decide (length (q_order q) = O) then
    let? b := copy_bytes SITE (r_bytes r) in
    let? rows := push SITE SIZE_ROW s.1 (with_bytes r b) in
    Ok ((rows, s.2), len rows <? limit)
  else if (len s.2 <? limit) || match last s.2 with Some max => ltb (row_position r) (row_position max) | None => false end then
    let? b := copy_bytes SITE (r_bytes r) in
    check? reserve SITE 1 SIZE_ROW in
    let heap := heap_push (with_bytes r b) s.2 in
    Ok ((s.1, if limit <? len heap then heap_pop heap else heap), true)
  else Ok (s, true).

Lemma passed_cursor q r :
  match q_after q with Some c => negb (ltb (c_position c) (row_position r)) | None => false end = bool_decide (¬ after_cursor q r).
Proof.
  apply eq_true_iff_eq. rewrite bool_decide_eq_true. unfold after_cursor. destruct (q_after q) as [c|]; [|naive_solver].
  by rewrite negb_true_iff, <-not_true_iff_false, ltb_lt.
Qed.

Lemma page_process q view limit paths s k b : settled_row q view (k, b) →
  process q paths (page_visit q view limit paths) s k b =
    match hit q view (k, b) with Some r => collect_row q limit s r | None => Ok (s, true) end.
Proof.
  intros (yes & Ey & Ho). unfold hit. cbn [fst snd] in *. rewrite Ey.
  rewrite (process_ok _ _ _ _ _ _ (let? o := order_key q view k b in
    collect_row q limit s {| r_order := o; r_key := k; r_bytes := b |})).
  - rewrite Ey. cbn [rbind]. destruct yes; [|done]. specialize (Ho eq_refl). by destruct (order_key q view k b).
  - intros values Hs. unfold page_visit, row, order_key. destruct s as [rows heap]. rewrite (row_order_ok _ _ _ _ _ _ _ Hs).
    destruct (traverse _ _) as [o|]; cbn [rbind]; [|done]. unfold collect_row. rewrite <-passed_cursor. done.
Qed.

Lemma with_bytes_same r : with_bytes r (r_bytes r) = r.
Proof. by destruct r. Qed.

Abbreviation hits q view := (λ l : list (str * bytes), beyond q (omap (hit q view) l)).

Lemma hits_cons q view p l : hits q view (p :: l) =
  match hit q view p with Some r => (if decide (after_cursor q r) then [r] else []) | None => [] end ++ hits q view l.
Proof.
  cbn [omap list_omap]. destruct (hit q view p) as [r|]; [|done]. unfold beyond. rewrite filter_cons. by case_decide.
Qed.

(** Without an order the rows come as they are found, up to the limit. *)
Lemma scan_rows q view limit paths l : ∀ found, Forall (settled_row q view) l → q_order q = [] →
  (len found < limit ∨ limit = 0 ∧ found = []) →
  fits (scan (process q paths (page_visit q view limit paths)) l (found, []))
    (λ s, s = (take (N.to_nat limit) (found ++ hits q view l), [])).
Proof.
  induction l as [|p l IH]; intros found Hset Hord Hlim; cbn [scan].
  - cbn [omap list_omap beyond]. rewrite app_nil_r. cbn [fits]. f_equal. symmetry. apply take_ge. destruct Hlim as [Hlim|[-> ->]]; [unfold len in Hlim; lia|done].
  - destruct p as [k b]. apply Forall_cons in Hset as [Hp Hset]. rewrite page_process, hits_cons by done. destruct (hit q view (k, b)) as [r|]; [|by apply IH].
    unfold collect_row. case_bool_decide as Ha; [rewrite decide_False by done; by apply IH|]. rewrite decide_True by done.
    destruct (N.eqb_spec limit 0) as [->|Hne].
    { destruct Hlim as [?|[_ ->]]; [lia|]. done. }
    rewrite bool_decide_true by (by rewrite Hord). cbn [fst snd].
    destruct Hlim as [Hlim|[? _]]; [|done].
    assert (Hlast : fits (let? b := copy_bytes SITE (r_bytes r) in let? rows := push SITE SIZE_ROW found (with_bytes r b) in
        Ok ((rows, []), len rows <? limit)) (λ s : list Row * list Row * bool, s = ((found ++ [r], []), len (found ++ [r]) <? limit))).
    { eapply fits_bind; [apply fits_copy|]. intros ? ->. eapply fits_bind; [apply fits_push|]. intros rows ->. by rewrite with_bytes_same. }
    eapply fits_bind; [exact Hlast|]. intros s ->. destruct (N.ltb_spec (len (found ++ [r])) limit) as [Hl|Hl].
    + eapply fits_mono; [apply IH; auto|]. intros s ->. by rewrite <-app_assoc.
    + cbn [fits]. f_equal. unfold len in *. rewrite length_app in *. simpl in *.
      assert (N.to_nat limit = length (found ++ [r])) as -> by (rewrite length_app; simpl; lia).
      rewrite <-(take_app_length (found ++ [r]) (hits q view l)) at 1. f_equal. by rewrite <-app_assoc.
Qed.

(** With an order the heap keeps the first rows of those seen. *)
Lemma heap_step q limit seen r : limit ≠ 0 → q_order q ≠ [] → after_cursor q r → NoDup (row_position <$> seen ++ [r]) →
  fits (collect_row q limit ([], take (N.to_nat limit) (sort_rows seen)) r)
    (λ s, s = (([], take (N.to_nat limit) (sort_rows (seen ++ [r]))), true)).
Proof.
  intros Hl Ho Ha Hn. unfold collect_row. rewrite bool_decide_false by naive_solver. destruct (N.eqb_spec limit 0) as [|_]; [done|].
  rewrite bool_decide_false by (by destruct (q_order q)). cbn [fst snd]. rewrite sort_rows_snoc.
  set (n := N.to_nat limit). assert (Hs : StronglySorted row_lt (take n (sort_rows seen))).
  { apply sorted_take, sort_rows_sorted. rewrite fmap_app, NoDup_app in Hn. apply Hn. }
  rewrite (take_push n r (sort_rows seen)). revert Hs. generalize (take n (sort_rows seen)) (firstn_le_length n (sort_rows seen)). intros h Hlen Hs. fold (len h).
  destruct (N.ltb_spec (len h) limit) as [Hlt|Hge]; cbn [orb].
  - eapply fits_bind; [apply fits_copy|]. intros ? ->. eapply fits_bind; [apply fits_reserve|]. intros _ _. rewrite with_bytes_same. cbn [fits].
    unfold len in *. rewrite heap_push_length. destruct (N.ltb_spec limit (N.of_nat (S (length h)))); [lia|].
    rewrite take_ge by (rewrite heap_push_length; unfold n; lia). done.
  - assert (Hfull : length h = n) by (unfold len, n in *; lia). destruct (last h) as [max|] eqn:El.
    2:{ apply last_None in El as ->. simpl in Hfull. unfold n in Hfull. lia. }
    destruct (ltb (row_position r) (row_position max)) eqn:Elt.
    + eapply fits_bind; [apply fits_copy|]. intros ? ->. eapply fits_bind; [apply fits_reserve|]. intros _ _. rewrite with_bytes_same. cbn [fits].
      unfold len in *. rewrite heap_push_length. destruct (N.ltb_spec limit (N.of_nat (S (length h)))); [|lia].
      unfold heap_pop. rewrite removelast_firstn_len, heap_push_length, Hfull. done.
    + cbn [fits]. rewrite (push_last r h max) by (try done; unfold row_lt; rewrite <-ltb_lt; by rewrite Elt).
      rewrite <-Hfull, take_app_length. done.
Qed.

Lemma scan_heap q view limit paths l : ∀ seen, Forall (settled_row q view) l → q_order q ≠ [] →
  NoDup (row_position <$> seen ++ hits q view l) →
  fits (scan (process q paths (page_visit q view limit paths)) l ([], take (N.to_nat limit) (sort_rows seen)))
    (λ s, s = ([], take (N.to_nat limit) (sort_rows (seen ++ hits q view l)))).
Proof.
  induction l as [|p l IH]; intros seen Hset Hord Hn; cbn [scan].
  - cbn [omap list_omap beyond]. by rewrite app_nil_r.
  - destruct p as [k b]. apply Forall_cons in Hset as [Hp Hset]. rewrite page_process by done. rewrite hits_cons in *. destruct (hit q view (k, b)) as [r|]; [|by apply IH].
    destruct (decide (after_cursor q r)) as [Ha|Ha].
    2:{ unfold collect_row. rewrite bool_decide_true by done. by apply IH. }
    rewrite app_assoc in Hn |- *. destruct (decide (limit = 0)) as [->|Hl].
    { unfold collect_row. rewrite bool_decide_false by naive_solver. done. }
    eapply fits_bind; [apply heap_step; try done|].
    { rewrite fmap_app in Hn. by apply NoDup_app in Hn as (? & _). }
    intros s ->. by apply IH.
Qed.

(** ** Where the rows of a page are found *)

Lemma take_ext n (l l' : list Row) : StronglySorted row_lt l → StronglySorted row_lt l' → (∀ r, r ∈ l' → r ∈ l) →
  (∀ r, r ∈ take n l → r ∈ l') → take n l' = take n l.
Proof.
  revert l l'. induction n as [|n IH]; intros l l' Hs Hs' Hsub Htake; [done|]. destruct Hs as [|a l Hs Hf].
  { destruct l' as [|b l']; [done|]. exfalso. apply (not_elem_of_nil b), Hsub. by left. }
  cbn [take] in Htake. assert (Ha : a ∈ l') by (apply Htake; by left). destruct Hs' as [|b l' Hs' Hf']; [by apply not_elem_of_nil in Ha|].
  rewrite Forall_forall in Hf, Hf'. assert (b = a) as ->.
  { assert (Hb : b ∈ a :: l) by (apply Hsub; by left). apply elem_of_cons in Hb as [|Hb]; [done|]. apply elem_of_cons in Ha as [|Ha]; [done|].
    exfalso. exact (key_lt_asym _ _ (Hf _ Hb) (Hf' _ Ha)). }
  cbn [take]. f_equal. apply IH; [done..| |].
  - intros r Hr. assert (Hin : r ∈ a :: l) by (apply Hsub; by right). apply elem_of_cons in Hin as [->|]; [|done].
    exfalso. by apply (key_lt_irrefl (row_position a)), Hf'.
  - intros r Hr. assert (Hin : r ∈ a :: l') by (apply Htake; by right). apply elem_of_cons in Hin as [->|]; [|done].
    exfalso. apply (key_lt_irrefl (row_position a)), Hf. by eapply (subseteq_take n).
Qed.

Lemma hits_sorted q view (l : list (str * bytes)) : q_order q = [] → StronglySorted key_lt l.*1 → StronglySorted row_lt (omap (hit q view) l).
Proof.
  intros Ho. induction l as [|p l IH]; [constructor|]. cbn [fmap list_fmap omap list_omap]. intros Hs. inversion_clear Hs as [|? ? Hl Hf].
  destruct (hit q view p) as [r|] eqn:E; [|by apply IH]. constructor; [by apply IH|]. rewrite Forall_forall. intros r' Hr'.
  apply hit_Some in E as (Ek & _ & _ & Eo). apply elem_of_hits in Hr' as (Hin & _ & Eo'). unfold order_key in *. rewrite Ho in Eo, Eo'.
  injection Eo as Eo. injection Eo' as Eo'. unfold row_lt, key_lt, row_position. rewrite <-Eo, <-Eo', Ek.
  rewrite Forall_forall in Hf. apply (Hf (r_key r')). apply list_elem_of_fmap. by exists (r_key r', r_bytes r').
Qed.

(** Rows [C] of the table among which the page lies give the page. *)
Definition encloses (q : Query) (view : ReadView) (t : table str bytes) (L : list Row) (C : list (str * bytes)) : Prop :=
  NoDup C.*1 ∧ (∀ p, p ∈ C → t_get t p.1 = Some p.2) ∧ (q_order q = [] → StronglySorted key_lt C.*1) ∧
  ∀ r, r ∈ page_part q L → (r_key r, r_bytes r) ∈ C.

Lemma filter_sorted {A : Type} (R : A → A → Prop) (P : A → Prop) `{∀ x, Decision (P x)} (l : list A) : StronglySorted R l → StronglySorted R (filter P l).
Proof.
  induction 1 as [|a l Hs IH Hf]; [constructor|]. rewrite filter_cons. case_decide; [|done]. constructor; [done|].
  rewrite Forall_forall in *. intros x Hx. apply list_elem_of_filter in Hx as [_ Hx]. auto.
Qed.

Lemma enclosed_page q view t L C : answers q view t L → encloses q view t L C →
  take (N.to_nat (limit_of q)) (if bool_decide (length (q_order q) = O) then hits q view C else sort_rows (hits q view C)) = page_part q L.
Proof.
  intros [Hs HL] (Hn & Hget & Hsort & Hpage).
  assert (Hhit : ∀ r, r ∈ hits q view C ↔ after_cursor q r ∧ (r_key r, r_bytes r) ∈ C ∧ eval q (r_bytes r) = Ok true ∧ order_key q view (r_key r) (r_bytes r) = Ok (r_order r)).
  { intros r. unfold beyond. by rewrite list_elem_of_filter, elem_of_hits. }
  assert (Hsub : ∀ r, r ∈ hits q view C → r ∈ beyond q L).
  { intros r (Ha & Hin & He & Ho)%Hhit. apply list_elem_of_filter. split; [done|]. apply HL. split_and!; [|done..]. exact (Hget _ Hin). }
  assert (Hin : ∀ r, r ∈ page_part q L → r ∈ hits q view C).
  { intros r Hr. apply Hhit. pose proof (Hpage r Hr) as HC. apply (subseteq_take (N.to_nat (limit_of q))) in Hr.
    apply list_elem_of_filter in Hr as [Ha (_ & He & Ho)%HL]. done. }
  unfold page_part. case_bool_decide as Hlen.
  - apply take_ext; [by apply filter_sorted| |done..]. apply filter_sorted, hits_sorted; [|apply Hsort]; by destruct (q_order q).
  - apply take_ext; [by apply filter_sorted|..].
    + apply sort_rows_sorted, positions_nodup. eapply sublist_NoDup; [exact Hn|]. etrans; [|apply (hits_keys q view)].
      apply fmap_sublist, sublist_filter.
    + intros r. rewrite sort_rows_perm. apply Hsub.
    + intros r. rewrite sort_rows_perm. apply Hin.
Qed.

(** The collected rows of [page_in] over enclosing rows. *)
Lemma scan_page q view t L C paths : answers q view t L → settled q view t → encloses q view t L C →
  fits (scan (process q paths (page_visit q view (limit_of q) paths)) C ([], []))
    (λ s, (if bool_decide (length (q_order q) = O) then s.1 else s.2) = page_part q L).
Proof.
  intros Ha Hset HC. rewrite <-(enclosed_page q view t L C Ha HC). destruct HC as (Hn & Hget & _).
  assert (Hsc : Forall (settled_row q view) C) by (rewrite Forall_forall; intros [k b] Hp; by apply Hset, (Hget _ Hp)).
  case_bool_decide as Hl.
  - eapply fits_mono; [apply (scan_rows q view (limit_of q) paths C []); [done|by destruct (q_order q)|]|by intros s ->].
    unfold len. simpl. destruct (N.eq_dec (limit_of q) 0) as [->|]; [by right|left; lia].
  - eapply fits_mono; [|intros s E; exact E]. pose proof (scan_heap q view (limit_of q) paths C [] Hsc) as Hh. unfold sort_rows in Hh at 1. cbn [fold_left app] in Hh.
    rewrite take_nil in Hh. eapply fits_mono; [apply Hh|by intros s ->]; [by intros E; rewrite E in Hl|].
    apply positions_nodup. eapply sublist_NoDup; [exact Hn|]. etrans; [|apply (hits_keys q view)]. apply fmap_sublist, sublist_filter.
Qed.

(** ** The row of an identity *)

Lemma select_string steps : ∀ j s, select j steps = Ok (VString s) → existsb is_quantifier steps = false.
Proof.
  induction steps as [|[k|i| | |] steps IH]; intros j s; [done|..]; cbn [existsb is_quantifier orb]; destruct j; cbn [select]; try done.
  - destruct (find_key k o); [apply IH|done].
  - destruct (_ !! _); [apply IH|done].
  - by destruct (traverse _ _).
  - by destruct (traverse _ _).
Qed.

Lemma interpret_string kind v s : interpret kind v = Ok (VString s) → kind = Auto ∧ v = VString s.
Proof.
  intros E. destruct (decide (kind = Auto)) as [->|Hk]; [destruct v; injection E as E; naive_solver|]. exfalso.
  destruct v; cbn [interpret is_empty is_missing is_null orb] in E; rewrite ?bool_decide_false in E by done; cbn [orb] in E; try done;
    unfold interpret_scalar in E; match type of E with rmap _ ?r = _ => by destruct r end.
Qed.

(** The identity of a row, as the contract reads it and as a condition compares it. *)
Lemma check_value p key b : p_transforms p = [] → check p key b = Ok () →
  p_kind p = Auto ∧ existsb is_quantifier (p_steps p) = false ∧ path_value b p = Ok (VString key).
Proof.
  intros Ht. unfold check. destruct (path_value b p) as [v|] eqn:E; cbn [rbind]; [|done]. destruct v as [| | | | |id| |]; try done.
  case_decide as Hk; [|done]. subst id. intros _. unfold path_value in E. apply rbind_ok in E as (raw & Eraw & E).
  apply rbind_ok in E as (v & Ev & E). rewrite Ht in E. assert (v = VString key) as -> by (by destruct v; injection E as ->).
  apply interpret_string in Ev as [Hk ->]. split_and!; [done| |].
  - unfold extract in Eraw. apply rbind_ok in Eraw as (j & _ & Eraw). by eapply select_string.
  - done.
Qed.

Lemma string_equal k s : scalar (VString k) CEq [VString s] = Ok true → k = s.
Proof.
  unfold scalar. unfold compare. cbn. case_bool_decide as E; [|done]. intros _. injection E as E.
  rewrite <-(app_nil_r (text k)), <-(app_nil_r (text s)) in E. rewrite text_cmp in E. unfold then_cmp in E.
  destruct (list_cmp k s) eqn:Ek; try done. by apply list_cmp_eq.
Qed.

Context (id_field : option Field).

Lemma point_key_only q view t key k b : honoured (v_tx view) → t = Tx.rows (v_tx view) (q_table q) →
  point_key id_field q view = Some key → t_get t k = Some b → eval q b = Ok true → k = key.
Proof.
  intros Hh -> Hp Hk. unfold point_key in Hp. destruct id_field as [declared|]; [|done].
  destruct (enforced _ _ _) eqn:Een; [|done]. cbn [negb] in Hp. unfold eval.
  destruct (q_predicate q) as [[e printed]|]; [|done]. destruct e as [p [] [|[| | | | |s| |] []]| | | | | | |]; try done.
  destruct (bool_decide_reflect (p = path declared)) as [->|]; [|done]. case_bool_decide as Ht; [|done]. injection Hp as <-.
  assert (Hc : check (path declared) k b = Ok ()).
  { unfold enforced in Een. destruct (t_get (ID_DEFS (v_tx view)) (q_table q)) as [raw|] eqn:Er; [|done].
    destruct (Hh _ _ Er) as (p & Ep & Hrows). unfold from_slice in Een. rewrite Ep in Een. cbn [ok_or] in Een.
    apply bool_decide_eq_true in Een as ->. by apply Hrows. }
  apply check_value in Hc as (Ek & Eq & Ev); [|done]. cbn [expression matches_uncached traverse]. rewrite Ek. cbn [interpret is_empty is_missing is_null orb bool_decide rbind].
  rewrite bool_decide_true by done. cbn [rbind]. rewrite Eq, Ev. cbn [rbind]. apply string_equal.
Qed.

(** What the planner has to give: a point lookup only where the predicate names an enforced
    identity; of an index distinct keys, ascending if the query has no order, among them
    those of the page. *)
Definition trusted (q : Query) (view : ReadView) (t : table str bytes) (L : list Row) (c : Choice) : Prop :=
  match selected c with
  | PointLookup => is_Some (point_key id_field q view) ∧ honoured (v_tx view)
  | _ =>
      match access c with
      | None => True
      | Some a => NoDup (a_keys a) ∧ (q_order q = [] → StronglySorted key_lt (a_keys a)) ∧ ∀ r, r ∈ page_part q L → r_key r ∈ a_keys a
      end
  end.

Lemma keys_fetch (t : table str bytes) keys : (omap (λ key, (λ v, (key, v)) <$> t_get t key) keys).*1 `sublist_of` keys.
Proof.
  induction keys as [|k keys IH]; [done|]. cbn [omap list_omap]. destruct (t_get t k); cbn [fmap option_fmap option_map]; [|by apply sublist_cons].
  cbn [list_fmap fst]. by apply sublist_skip.
Qed.

Lemma sublist_sorted {A : Type} (R : A → A → Prop) l1 l2 : l1 `sublist_of` l2 → StronglySorted R l2 → StronglySorted R l1.
Proof.
  induction 1 as [|a l1 l2 Hsub IH|a l1 l2 Hsub IH]; intros Hs; [done|..]; inversion_clear Hs as [|? ? Hs' Hf]; [|by apply IH].
  constructor; [by apply IH|]. rewrite Forall_forall in *. intros x Hx. apply Hf. by eapply sublist_subseteq.
Qed.

Lemma sorted_keys {V : Type} (l : list (str * V)) : StronglySorted pair_lt l → StronglySorted key_lt l.*1.
Proof.
  induction 1 as [|p l Hs IH Hf]; [constructor|]. cbn [fmap list_fmap]. constructor; [done|]. by apply Forall_fmap.
Qed.

Lemma iter_keys_sorted (t : table str bytes) : StronglySorted key_lt (t_iter t).*1.
Proof. apply sorted_keys, t_iter_sorted. Qed.

(** A trusted choice looks where the page is. *)
Lemma trusted_encloses q view t L c : answers q view t L → t = Tx.rows (v_tx view) (q_table q) → trusted q view t L c →
  encloses q view t L (candidates id_field q view c t).
Proof.
  intros [Hs HL] Et Ht. assert (Hget : ∀ r, r ∈ page_part q L → t_get t (r_key r) = Some (r_bytes r) ∧ eval q (r_bytes r) = Ok true).
  { intros r Hr%subseteq_take. apply list_elem_of_filter in Hr as [_ (? & ? & _)%HL]. done. }
  assert (Hall : encloses q view t L (t_iter t)).
  { split_and!; [apply NoDup_keys|by intros [k b] ?%t_get_iter|intros _; apply iter_keys_sorted|]. intros r [Hr _]%Hget. by apply t_get_iter. }
  assert (Hidx : ∀ a, NoDup (a_keys a) ∧ (q_order q = [] → StronglySorted key_lt (a_keys a)) ∧ (∀ r, r ∈ page_part q L → r_key r ∈ a_keys a) →
    encloses q view t L (omap (λ key, (λ v, (key, v)) <$> t_get t key) (a_keys a))).
  { intros a (Hn & Hso & Hin). pose proof (keys_fetch t (a_keys a)) as Hsub. split_and!.
    - by eapply sublist_NoDup.
    - intros p (k & Hk & Ep)%list_elem_of_omap. destruct (t_get t k) eqn:Eg; [|done]. by injection Ep as <-.
    - intros Ho. eapply sublist_sorted; [exact Hsub|auto].
    - intros r Hr. apply list_elem_of_omap. exists (r_key r). split; [auto|]. by rewrite (proj1 (Hget r Hr)). }
  unfold trusted, candidates in *. destruct (selected c); try (destruct (access c) as [a|]; [by apply Hidx|done]).
  destruct Ht as [[key Ek] Hh]. rewrite Ek. assert (Hpoint : ∀ r, r ∈ page_part q L → r_key r = key).
  { intros r [Hr He]%Hget. by eapply point_key_only. }
  destruct (t_get t key) as [v|] eqn:Eg.
  - split_and!; [apply NoDup_singleton| |repeat constructor|].
    + by intros p ->%list_elem_of_singleton.
    + intros r Hr. pose proof (Hpoint r Hr). destruct (Hget r Hr) as [E _]. apply list_elem_of_singleton. congruence.
  - split_and!; [constructor|by intros p ?%not_elem_of_nil|constructor|]. intros r Hr. pose proof (Hpoint r Hr). destruct (Hget r Hr) as [E _]. congruence.
Qed.
End spec.
