(* ===== verification/QueryProps.v ===== *)
(** * Pages, counts and aggregates of a query

    [page_exact]: a page holds the first rows of the answer behind the cursor, however the
    planner finds them.  [pages_stable] and [pages_end]: following the cursors visits every
    row once, over views that change and over one that does not.  [aggregates_exact]: the
    operations on the complete filtered set.  [indexed_page] puts a page on top of the
    plans of [PlanProps]. *)
From S2P Require Import Prelude Order Redb Memory Fields OrderedCodec OrderedSpec Eval EvalSpec Sum Tx JournalCodec LastWrite IdContract Journal Trigram Index Exec Plan IndexKeys TrigramSpec IndexSpec IndexProps ExecSpec PathSpec PlanSpec PlanProps Samples Query QuerySpec.
Local Open Scope N_scope.

Section pages.
Context `{Redb, TextLib, Allocator, QueryText} {SPath : Serde Path} {SP : Serde (str * str)}.
Context (id_field : option Field) (planner : Query → ReadView → bool → bool → result Choice).
Context {E : Type} `{SE : Serde E} (size_of_E : N).

Abbreviation page_in := (page_in id_field planner size_of_E).

(** What a page is read from: a table whose rows the query decides and whose accepted rows
    are entities, and a planner that can be trusted on it. *)
Definition served (q : Query) (view : ReadView) (L : list Row) : Prop :=
  ∃ t c fp, open_read (v_tx view) (q_table q) = Ok t ∧ answers q view t L ∧ settled q view t ∧
    (∀ r, r ∈ L → is_Some (de (A := E) (r_bytes r))) ∧
    fingerprint q = Ok fp ∧ planner q view false false = Ok c ∧ trusted id_field q view t L c.

Definition entities (es : list E) (L : list Row) : Prop := Forall2 (λ e r, de (r_bytes r) = Some e) es L.

(** The cursor a page ends with. *)
Definition cursor_of (fp : bytes) (view : ReadView) (r : Row) : Cursor :=
  {| c_fingerprint := fp; c_order := r_order r; c_key := r_key r; c_sequence := v_head view; c_database := v_uuid view |}.

Lemma open_read_is tx name (t : table str bytes) : open_read tx name = Ok t → t = Tx.rows tx name.
Proof. unfold open_read, Tx.rows. destruct (user tx !! name); simpl; congruence. Qed.

Lemma decode_items L out : (∀ r, r ∈ L → is_Some (de (A := E) (r_bytes r))) →
  ∃ es, entities es L ∧ try_fold (λ out r, let? e := decode_row (r_key r) (r_bytes r) in Ok (out ++ [e])) out L = Ok (out ++ es).
Proof.
  revert out. induction L as [|r L IH]; intros out Hd; cbn [try_fold].
  - exists []. split; [constructor|by rewrite app_nil_r].
  - destruct (Hd r) as [e Ee]; [by left|]. unfold decode_row at 1, from_slice. rewrite Ee. cbn [ok_or rbind].
    destruct (IH (out ++ [e])) as (es & Hes & Ef); [intros; apply Hd; by right|]. exists (e :: es). split; [by constructor|].
    by rewrite Ef, <-app_assoc.
Qed.

Lemma page_of_incl q L r : r ∈ page_part q L → r ∈ L ∧ after_cursor q r.
Proof. intros Hr%subseteq_take. by apply list_elem_of_filter in Hr as [? ?]. Qed.

Lemma page_ok q view L : served q view L → (∀ fp, fingerprint q = Ok fp → bad_cursor q view fp = false) →
  fits (page_in q view) (λ pg, ∃ fp, fingerprint q = Ok fp ∧ entities (items pg) (page_part q L) ∧
    next pg = cursor_of fp view <$> last (page_part q L) ∧ pg_sequence pg = v_head view).
Proof.
  intros (t & c & fp & Et & Ha & Hset & Hdec & Efp & Ec & Htr) Hcur. specialize (Hcur fp Efp).
  pose proof (trusted_encloses id_field q view t L c Ha (open_read_is _ _ _ Et) Htr) as Hen.
  unfold Query.page_in, rows. rewrite Efp. cbn [rbind]. rewrite Hcur, Ec. cbn [rbind]. rewrite Et. cbn [rbind].
  pose proof (scan_page q view t L _ (row_paths q false) Ha Hset Hen) as Hscan. destruct (scan _ _ _) as [s|e]; cbn [rbind fits] in *; [|done].
  destruct s as [found heap]. cbn [fst snd] in Hscan. cbn [rbind]. rewrite Hscan.
  assert (Hnext : match last (page_part q L) with Some r => rmap Some (cursor_at q view r) | None => Ok None end = Ok (cursor_of fp view <$> last (page_part q L))).
  { destruct (last (page_part q L)); [|done]. unfold cursor_at. by rewrite Efp. }
  rewrite Hnext. cbn [rbind]. eapply fits_bind; [apply fits_capacity|]. intros out ->.
  destruct (decode_items (page_part q L) []) as (es & Hes & Ef); [intros r [Hr _]%page_of_incl; by apply Hdec|]. rewrite Ef. cbn [rbind fits].
  exists fp. done.
Qed.

(** ** Following the cursors *)

(** A client that takes a page of each view, behind the last row it saw, until a page is
    empty. *)
Fixpoint follow (q : Query) (views : list ReadView) : result (list (Page E) * bool) :=
  match views with
  | [] => Ok ([], false)
  | view :: views' =>
      let? pg := page_in q view in
      match next pg with
      | None => Ok ([pg], true)
      | Some c => rmap (λ r, (pg :: r.1, r.2)) (follow (query_after c q) views')
      end
  end.

(** Views of one database, in the order they were opened. *)
Definition successive (views : list ReadView) : Prop :=
  StronglySorted (λ v w, v_head v <= v_head w ∧ v_uuid v = v_uuid w) views.

Definition same_but_cursor (q q' : Query) : Prop :=
  q_table q' = q_table q ∧ q_predicate q' = q_predicate q ∧ q_order q' = q_order q ∧ q_limit q' = q_limit q ∧
  q_allow_stale q' = q_allow_stale q.

Lemma same_fingerprint q q' : same_but_cursor q q' → fingerprint q' = fingerprint q.
Proof. intros (E1 & E2 & E3 & _). unfold fingerprint. by rewrite E1, E2, E3. Qed.

(** A row behind the cursor is on the page or behind its last row. *)
Lemma page_split q (L : list Row) r last_row : StronglySorted row_lt L → r ∈ beyond q L → last (page_part q L) = Some last_row →
  r ∈ page_part q L ∨ row_lt last_row r.
Proof.
  intros Hs Hr El. unfold page_part in *. pose proof (filter_sorted row_lt (after_cursor q) L Hs) as Hb. fold (beyond q L) in Hb.
  revert Hb Hr El. generalize (beyond q L). intros l Hb Hr El. rewrite <-(take_drop (N.to_nat (limit_of q)) l) in Hr, Hb.
  apply elem_of_app in Hr as [|Hr]; [by left|right]. apply last_Some in El as [l' El]. rewrite El in Hb. rewrite <-app_assoc in Hb.
  clear El. induction l' as [|x l' IH]; inversion_clear Hb as [|? ? Hb' Hf]; [|by apply IH]. rewrite Forall_forall in Hf. by apply Hf.
Qed.

Lemma page_empty q (L : list Row) : 0 < limit_of q → last (page_part q L) = None → beyond q L = [].
Proof.
  intros Hl He%last_None. unfold page_part in He. destruct (beyond q L) as [|r l]; [done|]. destruct (N.to_nat (limit_of q)) eqn:En; [lia|done].
Qed.

(** Strictly ascending after what is below. *)
Lemma sorted_app_last (l1 l2 : list Row) m : StronglySorted row_lt l1 → last l1 = Some m → StronglySorted row_lt l2 →
  (∀ r, r ∈ l2 → row_lt m r) → StronglySorted row_lt (l1 ++ l2).
Proof.
  intros Hs1 El Hs2 Hm. apply last_Some in El as [l ->]. rewrite <-app_assoc. induction l as [|x l IH]; cbn [app] in *.
  - constructor; [done|]. by apply Forall_forall.
  - inversion_clear Hs1 as [|? ? Hs Hf]. constructor; [by apply IH|]. rewrite Forall_forall in *.
    assert (Hx : row_lt x m) by (apply Hf, elem_of_app; right; by left).
    intros r [Hr|[->|Hr]%elem_of_cons]%elem_of_app; [apply Hf, elem_of_app; by left|done|]. etrans; [exact Hx|by apply Hm].
Qed.

Definition behind (q : Query) (p : list bytes * str) : Prop :=
  match q_after q with Some c => key_lt (c_position c) p | None => True end.

(** What following the cursors from [q] gives. *)
Definition followed (ans : ReadView → list Row) (q : Query) (views : list ReadView) (r : list (Page E) * bool) : Prop :=
  ∃ Ls, Forall2 (λ pg L, entities (items pg) L) r.1 Ls ∧ StronglySorted row_lt (concat Ls) ∧
    (∀ x, x ∈ concat Ls → behind q (row_position x)) ∧ Forall2 (λ L view, L ⊆ ans view) Ls (take (length Ls) views) ∧
    (r.2 = true → ∀ p, behind q p → (∀ view, view ∈ views → p ∈ row_position <$> ans view) → p ∈ row_position <$> concat Ls) ∧
    (r.2 = false → (length views <= length (concat Ls))%nat).

Lemma followed_cons ans q view views fp m pg r :
  StronglySorted row_lt (ans view) → entities (items pg) (page_part q (ans view)) → last (page_part q (ans view)) = Some m →
  followed ans (query_after (cursor_of fp view m) q) views r → followed ans q (view :: views) (pg :: r.1, r.2).
Proof.
  intros Hs Hpg El (Ls & Hes & Hso & Hbe & Hin & Hall & Hlen). set (L := page_part q (ans view)) in *.
  assert (HsL : StronglySorted row_lt L) by (apply sorted_take, filter_sorted, Hs).
  assert (HL : ∀ x, x ∈ L → behind q (row_position x)) by (intros x [_ Hx]%page_of_incl; exact Hx).
  assert (Hm : m ∈ L) by (by apply last_Some_elem_of). exists (L :: Ls). cbn [fst snd concat]. split_and!.
  - by constructor.
  - by eapply sorted_app_last.
  - intros x [Hx|Hx]%elem_of_app; [by apply HL|]. apply Hbe in Hx. cbn in Hx. specialize (HL m Hm). unfold behind in *.
    destruct (q_after q); [|done]. etrans; [exact HL|exact Hx].
  - cbn [length take]. constructor; [|done]. by intros x [Hx _]%page_of_incl.
  - intros Hfin p Hp Hv. rewrite fmap_app, elem_of_app. assert (Hp1 : p ∈ row_position <$> ans view) by (apply Hv; by left).
    apply list_elem_of_fmap in Hp1 as (x & -> & Hx). assert (Hb : x ∈ beyond q (ans view)) by (by apply list_elem_of_filter).
    destruct (page_split q (ans view) x m Hs Hb El) as [|Hlt]; [left; by apply list_elem_of_fmap_2|right].
    apply Hall; [done|exact Hlt|]. intros v Hin'. apply Hv. by right.
  - intros Hf. specialize (Hlen Hf). rewrite length_app. cbn [length]. destruct L; [by apply not_elem_of_nil in Hm|]. cbn [length]. lia.
Qed.

Lemma follow_ok ans views : ∀ q, successive views → 0 < limit_of q →
  (∀ view q', view ∈ views → same_but_cursor q q' → served q' view (ans view)) →
  (∀ c view, q_after q = Some c → view ∈ views → fingerprint q = Ok (c_fingerprint c) ∧ c_sequence c <= v_head view ∧ c_database c = v_uuid view) →
  fits (follow q views) (followed ans q views).
Proof.
  induction views as [|view views IH]; intros q Hv Hl Hser Hcur; cbn [follow].
  { exists []. split_and!; try constructor; try done. by intros x ?%not_elem_of_nil. }
  inversion_clear Hv as [|? ? Hv' Hf]. rewrite Forall_forall in Hf.
  assert (Hs : served q view (ans view)) by (apply Hser; [by left|done]).
  assert (Hso : StronglySorted row_lt (ans view)) by (destruct Hs as (t & ? & ? & ? & [Hso _] & _); exact Hso).
  eapply fits_bind; [apply page_ok; [exact Hs|]|].
  { intros fp Efp. unfold bad_cursor. destruct (q_after q) as [c|] eqn:Eq; [|done].
    destruct (Hcur c view eq_refl) as (Ec & Hseq & Hdb); [by left|]. rewrite Ec in Efp. injection Efp as Efp.
    rewrite !bool_decide_true by done. cbn [negb orb]. apply N.ltb_ge. lia. }
  intros pg (fp & Efp & Hes & Hn & _). rewrite Hn. destruct (last (page_part q (ans view))) as [m|] eqn:El; cbn [fmap option_fmap option_map].
  - assert (Hrest : fits (follow (query_after (cursor_of fp view m) q) views) (followed ans (query_after (cursor_of fp view m) q) views)).
    { apply IH; [done|done| |].
      - intros w q' Hw Hq. apply Hser; [by right|]. exact Hq.
      - intros c w [= <-] Hw. destruct (Hf w Hw) as [Hh Hu]. split_and!; [exact Efp|exact Hh|exact Hu]. }
    destruct (follow _ views) as [r|e]; cbn [rmap fits] in *; [|exact Hrest]. by eapply followed_cons.
  - cbn [fits]. pose proof (page_empty q _ Hl El) as Hb. apply last_None in El. rewrite El in Hes. exists [[]]. cbn [fst snd concat app]. split_and!.
    + by repeat constructor.
    + constructor.
    + by intros x ?%not_elem_of_nil.
    + constructor; [|constructor]. by intros x ?%not_elem_of_nil.
    + intros _ p Hp Hin. assert (Hp1 : p ∈ row_position <$> ans view) by (apply Hin; by left). apply list_elem_of_fmap in Hp1 as (x & -> & Hx).
      assert (Hbx : x ∈ beyond q (ans view)) by (by apply list_elem_of_filter). rewrite Hb in Hbx. by apply not_elem_of_nil in Hbx.
    + done.
Qed.

(** ** The complete filtered set *)

Definition accepted (q : Query) (b : bytes) : bool := match eval q b with Ok true => true | _ => false end.

(** The entries the query accepts, by key. *)
Definition matched (q : Query) (t : table str bytes) : list (str * bytes) := filter (λ p, accepted q p.2 = true) (t_iter t).

(** What the planner has to give an aggregate: of an index, ascending keys with those of
    all matching rows; as a count taken from an index alone, the number of these. *)
Definition trusted_all (q : Query) (view : ReadView) (t : table str bytes) (c : Choice) : Prop :=
  match selected c with
  | PointLookup => is_Some (point_key id_field q view) ∧ honoured (v_tx view)
  | _ =>
      match access c with
      | None => True
      | Some a => StronglySorted key_lt (a_keys a) ∧ ∀ k v, t_get t k = Some v → eval q v = Ok true → k ∈ a_keys a
      end
  end.
Definition trusted_count (q : Query) (view : ReadView) (t : table str bytes) (c : Choice) : Prop :=
  ∀ a, access c = Some a → a_covered a = true → a_sequence a = v_head view → default (len (a_keys a)) (a_count a) = len (matched q t).


Lemma accepted_true q b : accepted q b = true ↔ eval q b = Ok true.
Proof using. unfold accepted. split; intros Ha; destruct (eval q b) as [[]|]; congruence. Qed.

Lemma pair_sorted {V : Type} (l : list (str * V)) : StronglySorted key_lt l.*1 → StronglySorted pair_lt l.
Proof.
  induction l as [|p l IH]; [constructor|]. cbn [fmap list_fmap]. intros Hs. inversion_clear Hs as [|? ? Hl Hf].
  constructor; [by apply IH|]. by rewrite Forall_fmap in Hf.
Qed.










(** ** The theorems *)

(** C9: a page of a query that is served (the table is there, its rows are decided and
    readable, the planner is trusted) either is refused by an allocation or holds the
    entities of the first [limit] rows of the complete answer that lie behind the cursor, in
    order, and ends with a cursor at the last of them; it holds them whether the planner
    chose a scan, a point lookup or an index. *)
Theorem page_exact q view L : served q view L → (∀ fp, fingerprint q = Ok fp → bad_cursor q view fp = false) →
  fits (page_in q view) (λ pg, ∃ fp, fingerprint q = Ok fp ∧ entities (items pg) (page_part q L) ∧
    next pg = cursor_of fp view <$> last (page_part q L) ∧ pg_sequence pg = v_head view).
Proof. apply page_ok. Qed.

(** C10: a client that follows the cursors while the database changes, reading each page
    from a later view, gets rows in strictly ascending order, so that none comes twice, each
    out of the answer of the view its page was read from; and when it reaches an empty page,
    no position was left out that was in the answer of every view. *)
Theorem pages_stable ans q views : successive views → 0 < limit_of q → q_after q = None →
  (∀ view q', view ∈ views → same_but_cursor q q' → served q' view (ans view)) →
  fits (follow q views) (λ r, ∃ Ls, Forall2 (λ pg L, entities (items pg) L) r.1 Ls ∧ StronglySorted row_lt (concat Ls) ∧
    Forall2 (λ L view, L ⊆ ans view) Ls (take (length Ls) views) ∧
    (r.2 = true → ∀ p, (∀ view, view ∈ views → p ∈ row_position <$> ans view) → p ∈ row_position <$> concat Ls)).
Proof.
  intros Hv Hl Ha Hs. eapply fits_mono; [apply (follow_ok ans views q Hv Hl Hs)|].
  - intros c view Ec. by rewrite Ha in Ec.
  - intros r (Ls & Hes & Hso & _ & Hin & Hall & _). exists Ls. split_and!; [done..|]. intros Hf p. apply Hall; [done|]. unfold behind. by rewrite Ha.
Qed.

(** C11: over a view that does not change, more turns than the answer has rows are enough
    to reach the empty page, and the pages together are the complete answer. *)
Theorem pages_end q view L n : 0 < limit_of q → q_after q = None → (length L < n)%nat →
  (∀ q', same_but_cursor q q' → served q' view L) →
  fits (follow q (replicate n view)) (λ r, r.2 = true ∧ ∃ Ls, Forall2 (λ pg L, entities (items pg) L) r.1 Ls ∧ concat Ls = L).
Proof.
  intros Hl Ha Hn Hs. assert (Hv : successive (replicate n view)).
  { clear Hn. induction n as [|n IH]; constructor; [exact IH|]. apply Forall_replicate. split; [apply N.le_refl|done]. }
  assert (Hso : StronglySorted row_lt L) by (destruct (Hs q) as (t & ? & ? & ? & [Hso _] & _); [done|exact Hso]).
  eapply fits_mono; [apply (follow_ok (λ _, L) (replicate n view) q Hv Hl)|].
  - intros w q' Hw Hq. apply elem_of_replicate in Hw as [-> _]. by apply Hs.
  - intros c w Ec. by rewrite Ha in Ec.
  - intros [ps fin] (Ls & Hes & Hcs & _ & Hin & Hall & Hlen). cbn [fst snd] in *.
    assert (Hsub : ∀ x, x ∈ concat Ls → x ∈ L).
    { intros x Hx. apply list_elem_of_In, in_concat in Hx as (l & Hl' & Hx). apply list_elem_of_In in Hl', Hx. apply list_elem_of_lookup in Hl' as [i Hi].
      destruct (Forall2_lookup_l _ _ _ _ _ Hin Hi) as (w & _ & Hw). by apply Hw. }
    assert (Hfin : fin = true).
    { destruct fin; [done|]. specialize (Hlen eq_refl). rewrite length_replicate in Hlen.
      assert (length (concat Ls) <= length L)%nat; [|lia]. apply submseteq_length, NoDup_submseteq; [|exact Hsub].
      clear -Hcs. induction Hcs as [|x l Hs IH Hf]; constructor; [|done]. intros Hx. rewrite Forall_forall in Hf. apply Hf in Hx. by apply key_lt_irrefl in Hx. }
    split; [done|]. exists Ls. split; [done|]. apply rows_ext; [done..|]. intros r. split; [apply Hsub|]. intros Hr.
    assert (Hp : row_position r ∈ row_position <$> concat Ls).
    { apply Hall; [done|unfold behind; by rewrite Ha|]. intros w _. by apply list_elem_of_fmap_2. }
    apply list_elem_of_fmap in Hp as (r' & Ep & Hr'). assert (r = r') as ->; [|done].
    pose proof (Hsub r' Hr') as HL. clear -Hso Hr HL Ep.
    induction Hso as [|x l Hs IH Hf]; [by apply not_elem_of_nil in Hr|]. rewrite Forall_forall in Hf.
    apply elem_of_cons in Hr as [->|Hr], HL as [->|HL]; [done|apply Hf in HL|apply Hf in Hr|by apply IH];
      exfalso; [apply (key_lt_irrefl (row_position x))|apply (key_lt_irrefl (row_position x))]; unfold row_lt in *; congruence.
Qed.

End pages.

(** ** Plans serve queries *)

(** The choice of an index recipe whose keys are [l]. *)
Definition choice_of (r : Recipe) (l : list str) (n : option N) (sequence age : N) : Choice :=
  {| selected := r_plan r;
     access := Some {| a_keys := l; a_count := n; a_sequence := sequence; a_age_ms := age; a_covered := r_covered r |} |}.

(** C13: the contract between queries and indexes.  When the index files follow the rows of
    the table, the keys of any recipe that [filters] of the planner makes for the predicate of
    a query can be trusted, for a page as for an aggregate; and a count taken from a covering
    recipe is the number of the matching rows.  As for the plans themselves, the literals of
    the predicate are text and no boolean is under an order operator ([plain_expr], which
    [boolean_ranges_miss] shows to be needed); every row can be evaluated; and the recipes of
    [indexes/ordered.rs] are not among these. *)
Theorem plans_serve `{Redb} `{TextLibOk} `{Allocator} `{FstLib, !FstLibOk} `{ReverseJson} `{QueryText} {SPath : Serde Path} {SP : Serde (str * str)}
    (id_field : option Field) f defs rows q p view t L recipes r sequence age :
  q_predicate q = Some p → (∀ k, fst <$> rows !! k = t_get t k) → (∀ k v, t_get t k = Some v → is_ok (eval q v) = true) →
  answers q view t L →
  file_ok f defs (q_table q) rows → rows_text defs (q_table q) rows → plain_expr (expression p) →
  filters defs (q_table q) (expression p) = Ok recipes → r ∈ recipes →
  ∃ l n, keys f (r_node r) = Ok l ∧ Exec.count f (r_node r) = Ok n ∧
    (∀ m, trusted id_field q view t L (choice_of r l m sequence age) ∧ trusted_all id_field q view t (choice_of r l m sequence age)) ∧
    trusted_count q view t (choice_of r [] (Some n) sequence age).
Proof.
  intros Hq Hrows Hok [_ HL] Hf Ht Hp E Hr.
  destruct (recipe_rows f defs (q_table q) rows (expression p) recipes r Hf Ht Hp E Hr) as (l & El & Hs & Hall & Hcov).
  destruct (recipe_count f defs (q_table q) rows (expression p) recipes r Hf E Hr) as (l' & El' & En). rewrite El in El'. injection El' as <-.
  assert (Hm : ∀ b, matches b (expression p) = eval q b).
  { intros b. unfold eval. rewrite Hq. apply (agrees_fst b []), row_matches_agrees, slots_ok_fresh. }
  assert (Hin : ∀ k v, t_get t k = Some v → eval q v = Ok true → k ∈ l).
  { intros k v Hk He. rewrite <-Hrows in Hk. destruct (rows !! k) as [[b s]|] eqn:Ek; [|done]. injection Hk as <-. eapply Hall; [exact Ek|by rewrite Hm]. }
  pose proof (filters_plan defs (q_table q) (expression p) recipes r E Hr) as Hplan.
  assert (Hnd : NoDup l).
  { clear -Hs. induction Hs as [|x l Hs IH Hf]; constructor; [|done]. intros Hx. rewrite Forall_forall in Hf. apply Hf in Hx. by apply key_lt_irrefl in Hx. }
  exists l, (len l). split_and!; [done..| |].
  - intros m. unfold trusted, trusted_all. cbn [selected choice_of access a_keys].
    assert (Hpage : NoDup l ∧ (q_order q = [] → StronglySorted key_lt l) ∧ ∀ x, x ∈ page_part q L → r_key x ∈ l).
    { split_and!; [done..|]. intros x [(Hk & He & _)%HL _]%page_of_incl. by eapply Hin. }
    assert (Hagg : StronglySorted key_lt l ∧ ∀ k v, t_get t k = Some v → eval q v = Ok true → k ∈ l) by done.
    destruct (r_plan r); done.
  - intros a [= <-] Hc _. cbn [a_covered a_count default] in *. specialize (Hcov Hc). unfold len. f_equal.
    assert (l = (matched q t).*1) as ->; [|by rewrite length_fmap].
    assert (Hms : StronglySorted key_lt (matched q t).*1).
    { apply sorted_keys, sorted_filter, t_iter_sorted. }
    assert (Hl : ∀ k, k ∈ l ↔ k ∈ (matched q t).*1).
    { intros k. rewrite list_elem_of_fmap. split.
      - intros Hk. destruct (Hcov k Hk) as ([b s] & Ek & Hne). rewrite Hm in Hne. assert (Hg : t_get t k = Some b) by (by rewrite <-Hrows, Ek).
        exists (k, b). split; [done|]. apply list_elem_of_filter. cbn [snd]. rewrite accepted_true, <-t_get_iter. split; [|done].
        specialize (Hok k b Hg). cbn [fst] in Hne. destruct (eval q b) as [[]|]; done.
      - intros ([k' b] & -> & Hb). apply list_elem_of_filter in Hb as [He Hg%t_get_iter]. cbn [fst snd] in *. apply accepted_true in He. by eapply Hin. }
    assert (Hlp : (λ k, (k, ())) <$> l = (λ k, (k, ())) <$> (matched q t).*1).
    { apply sorted_ext; try (apply pair_sorted; by rewrite <-list_fmap_compose, list_fmap_id). intros [k []]. rewrite !list_elem_of_fmap. by setoid_rewrite Hl. }
    apply (f_equal (fmap fst)) in Hlp. by rewrite <-!list_fmap_compose, !list_fmap_id in Hlp.
Qed.

(** ** Witnesses *)

Module QueryDemo.
#[local] Existing Instances IndexDemo.strings generous Redb.list_redb IndexDemo.strings_ok IndexDemo.no_json PlanDemo.near PlanDemo.near_ok.
#[local] Instance no_text : QueryText :=
  {| expr_to_vec _ := []; identity_to_vec _ _ _ _ _ := []; normalized_levenshtein _ _ := lit "0" |}.
#[local] Instance raw_rows : Serde bytes := {| ser b := b; de b := Some b; de_ser _ := eq_refl |}.
#[local] Instance path_rows : Serde Path := countable_serde.
#[local] Instance pair_rows : Serde (str * str) := countable_serde.

Definition notes : str := lit "notes".
Definition t1 : table str bytes := t_insert (t_insert t_new (lit "1") (lit "red dog")) (lit "2") (lit "red").
Definition t2 : table str bytes := t_insert t1 (lit "3") (lit "dog").
Definition view_of (head : N) (t : table str bytes) : ReadView :=
  {| v_head := head; v_uuid := lit "u"; v_tx := set_user {[ notes := t ]} tx_new |}.
Definition v1 : ReadView := view_of 2 t1.
Definition v2 : ReadView := view_of 3 t2.
Definition q : Query := order_by (OField IndexDemo.body) Asc (query_limit 1 (query_filter (pred_new PlanDemo.dogs) (query_new notes))).
Definition scans (q : Query) (view : ReadView) (aggregate cover : bool) : result Choice := Ok {| selected := FullScan; access := None |}.
Definition table_of (view : ReadView) : table str bytes := Tx.rows (v_tx view) notes.
Definition ans (view : ReadView) : list Row := sort_rows (omap (hit q view) (t_iter (table_of view))).

Definition row_ok (view : ReadView) (p : str * bytes) : bool :=
  match eval q p.2 with Ok yes => negb yes || is_ok (order_key q view p.1 p.2) | Err _ => false end.
Lemma rows_ok view : forallb (row_ok view) (t_iter (table_of view)) = true → settled q view (table_of view).
Proof.
  intros Hf k v Hk%t_get_iter. rewrite forallb_forall in Hf. apply list_elem_of_In in Hk. apply Hf in Hk. unfold row_ok in Hk.
  unfold settled_row. cbn [fst snd] in *. destruct (eval q v) as [yes|]; [|done]. exists yes. split; [done|]. intros ->. exact Hk.
Qed.

Lemma served_q view q' : open_read (v_tx view) notes = Ok (table_of view) → forallb (row_ok view) (t_iter (table_of view)) = true →
  same_but_cursor q q' → served (E := bytes) None scans q' view (ans view).
Proof.
  intros Eo Hf Hq. pose proof Hq as (E1 & E2 & E3 & _). exists (table_of view), {| selected := FullScan; access := None |}, [].
  assert (He : ∀ b, eval q' b = eval q b) by (intros b; unfold eval; by rewrite E2).
  assert (Ho : ∀ k b, order_key q' view k b = order_key q view k b) by (intros k b; unfold order_key; by rewrite E1, E3).
  split_and!; [by rewrite E1|..].
  - split; [apply (answers_sort q view (table_of view))|]. intros r. rewrite He, Ho. apply (answers_sort q view (table_of view)).
  - intros k v Hk. unfold settled_row. rewrite He, Ho. by eapply rows_ok.
  - by intros r _.
  - rewrite (same_fingerprint q q' Hq). by vm_compute.
  - done.
  - done.
Qed.

(** The first page of the first view. *)
Lemma page_exact_witness : ∃ pg, page_in (E := bytes) None scans 24 q v1 = Ok pg ∧ items pg = [lit "red"].
Proof.
  pose proof (page_exact None scans (E := bytes) 24 q v1 (ans v1)) as Hp. unfold fits in Hp.
  assert (Hi : items <$> match page_in (E := bytes) None scans 24 q v1 with Ok pg => Some pg | Err _ => None end = Some [lit "red"]) by (vm_compute; reflexivity).
  destruct (page_in _ _ _ _ _) as [pg|]; [|done]. exists pg. split; [done|].
  destruct Hp as (fp & _ & Hes & _ & _).
  - apply served_q; [done|by vm_compute|done].
  - intros fp _. done.
  - injection Hi as Hi. exact Hi.
Defined.

(** A row is added before the cursor between the first page and the second. *)
Definition views : list ReadView := [v1; v2; v2].
Lemma views_served view q' : view ∈ views → same_but_cursor q q' → served (E := bytes) None scans q' view (ans view).
Proof.
  intros Hv. assert (Hok : view = v1 ∨ view = v2) by (unfold views in Hv; set_solver).
  destruct Hok as [-> | ->]; apply served_q; [done|by vm_compute|done|by vm_compute].
Qed.
Lemma views_successive : successive views.
Proof. repeat constructor; cbn; lia. Qed.

Lemma pages_stable_witness : ∃ r Ls, follow (E := bytes) None scans 24 q views = Ok r ∧ r.2 = true ∧
  mjoin (items <$> r.1) = [lit "red"; lit "red dog"] ∧ StronglySorted row_lt (concat Ls).
Proof.
  pose proof (pages_stable None scans (E := bytes) 24 ans q views views_successive) as Hp. unfold fits in Hp.
  assert (Hi : (λ r, (mjoin (items <$> r.1), r.2)) <$> match follow (E := bytes) None scans 24 q views with Ok r => Some r | Err _ => None end =
    Some ([lit "red"; lit "red dog"], true)) by (vm_compute; reflexivity).
  destruct (follow _ _ _ _ _) as [r|]; [|done]. injection Hi as Hi Hf. exists r.
  destruct Hp as (Ls & _ & Hs & _); [done|done|exact views_served|]. by exists Ls.
Defined.

Lemma pages_end_witness : ∃ r Ls, follow (E := bytes) None scans 24 q (replicate 4 v2) = Ok r ∧ r.2 = true ∧
  entities (E := bytes) (mjoin (items <$> r.1)) (concat Ls) ∧ concat Ls = ans v2.
Proof.
  assert (Hl : (length (ans v2) < 4)%nat) by (apply Nat.ltb_lt; by vm_compute).
  pose proof (pages_end None scans (E := bytes) 24 q v2 (ans v2) 4) as Hp. unfold fits in Hp.
  assert (Hi : is_ok (follow (E := bytes) None scans 24 q (replicate 4 v2)) = true) by (vm_compute; reflexivity).
  destruct (follow _ _ _ _ _) as [r|]; [|done]. exists r.
  destruct Hp as (Hf & Ls & Hes & EL); [done|done|done|..].
  - intros q' Hq. apply views_served; [unfold views; set_solver|done].
  - exists Ls. split_and!; [done..| |done]. clear -Hes. revert Hes. generalize r.1. intros ps Hes.
    induction Hes as [|pg L ps Ls Hpg Hes IH]; [constructor|]. cbn. by apply Forall2_app.
Defined.


Lemma plans_serve_witness : ∃ r l, r ∈ PlanDemo.recipes ∧ keys PlanDemo.file (r_node r) = Ok l ∧
  trusted None q v1 t1 (ans v1) (choice_of r l None 2 0).
Proof.
  destruct PlanDemo.recipes as [|r l0] eqn:Er; [by vm_compute in Er|]. exists r.
  destruct (plans_serve None PlanDemo.file [PlanDemo.words] PlanDemo.rows q (pred_new PlanDemo.dogs) v1 t1 (ans v1) PlanDemo.recipes r 2 0) as (l & n & El & _ & Ht & _).
  - done.
  - intros k. unfold PlanDemo.rows, t1. rewrite !t_get_insert, t_get_new.
    destruct (decide (lit "2" = k)) as [<-|H2]; [by rewrite lookup_insert_eq|]. rewrite lookup_insert_ne by done.
    destruct (decide (lit "1" = k)) as [<-|H1]; [by rewrite lookup_insert_eq|]. by rewrite lookup_insert_ne, lookup_empty.
  - intros k v Hk. destruct (rows_ok v1 ltac:(by vm_compute) k v Hk) as (yes & E & _). cbn [snd] in E. by rewrite E.
  - apply (answers_sort q v1 (table_of v1)).
  - exact PlanDemo.file_good.
  - exact PlanDemo.text_good.
  - split; (split; [constructor; [by vm_compute|constructor]|done]).
  - exact PlanDemo.planned.
  - rewrite Er. left.
  - exists l. split_and!; [left|exact El|]. apply (Ht None).
Defined.
End QueryDemo.
