(* ===== verification/Keys.v ===== *)
(** * The keys of a database ([crypto/keys.rs], [crypto/kdf.rs], [crypto/mac.rs])

    The data key of a database is two random roots; each is kept locked by a key of the
    programmer, and every other key is derived from one of them for one scope.  HKDF, the
    password functions and the keyed hashes are third-party code: the class [KeyLib] has
    them with the lengths of what they give.  What the system's random source answered is an
    argument of every call that asks it. *)
From S2P Require Import Prelude B64 Cipher.
Local Open Scope N_scope.

Definition KEY_LEN : nat := 32.
Definition SALT_LEN : nat := 32.
Definition LOCK_LABEL : bytes := lit "clove1db/lock/v1".
Definition SUBKEY_LABEL : bytes := lit "clove1db/subkey/v1".

(** [?] on a result of [crypto]. *)
Definition obind {E A B : Type} (r : outcome E A) (k : A → outcome E B) : outcome E B :=
  match r with inl a => k a | inr e => inr e end.
Notation "'ok?' x := r 'in' k" := (obind r (fun x => k))
  (at level 10, x name, r at level 100, k at level 200) : clove_scope.

Inductive HkdfHash := Sha256 | Sha512.
Inductive MacKind := HmacSha256 | HmacSha512 | HmacSha3_256 | Blake3Keyed.

(** The bytes of a tag. *)
Definition output_len (kind : MacKind) : nat := match kind with HmacSha512 => 64 | _ => 32 end.

Class KeyLib := {
  (** extract and expand: hash, salt, key material, info, length of the output *)
  hkdf : HkdfHash → option bytes → bytes → bytes → nat → option bytes;
  (** memory, iterations, lanes; password, salt, length *)
  argon2id : N → N → N → bytes → bytes → nat → option bytes;
  (** log N, r, p; password, salt, length *)
  scrypt : N → N → N → bytes → bytes → nat → option bytes;
  (** the tag of the data under a key; [None] when the key is refused *)
  keyed_hash : MacKind → bytes → bytes → option bytes;
  hkdf_len : ∀ h salt ikm info n k, hkdf h salt ikm info n = Some k → length k = n;
  argon2id_len : ∀ m i l password salt n k, argon2id m i l password salt n = Some k → length k = n;
  scrypt_len : ∀ log_n r p password salt n k, scrypt log_n r p password salt n = Some k → length k = n;
  keyed_hash_len : ∀ kind key data tag, keyed_hash kind key data = Some tag → length tag = output_len kind;
}.

Record KeySuite := { s_cipher : CipherKind; s_hkdf : HkdfHash }.
Definition default_suite : KeySuite := {| s_cipher := Aes256GcmSiv; s_hkdf := Sha256 |}.

(** ** Passwords *)

Inductive PasswordKdf :=
| Argon2id (memory_kib iterations lanes : N)
| Scrypt (log_n r p : N).

Definition argon2id_default : PasswordKdf := Argon2id 65536 3 1.
Definition scrypt_default : PasswordKdf := Scrypt 17 8 1.

Definition ARGON2ID_MIN_MEMORY_KIB : N := 19456.
Definition ARGON2ID_MIN_ITERATIONS : N := 2.
Definition ARGON2ID_MIN_LANES : N := 1.
Definition SCRYPT_MIN_R : N := 8.
Definition SCRYPT_MIN_WORK_LOG2 : N := 17.

Definition bad_params (why : String.string) {A : Type} : outcome CryptoError A := inr (InvalidParams (lit why)).
Arguments bad_params why%_string_scope {A}.

Definition validate (kdf : PasswordKdf) : outcome CryptoError () :=
  match kdf with
  | Argon2id memory_kib iterations lanes =>
      if memory_kib <? ARGON2ID_MIN_MEMORY_KIB then bad_params "argon2id memory under the minimum"
      else if iterations <? ARGON2ID_MIN_ITERATIONS then bad_params "argon2id iterations under the minimum"
      else if lanes <? ARGON2ID_MIN_LANES then bad_params "argon2id lanes under the minimum"
      else inl ()
  | Scrypt log_n r p =>
      if r <? SCRYPT_MIN_R then bad_params "scrypt r under the minimum"
      else
        let enough := (1 <=? p) && ((SCRYPT_MIN_WORK_LOG2 <=? log_n)
                                    || (N.shiftl 1 SCRYPT_MIN_WORK_LOG2 <=? N.shiftl p log_n mod U64)) in
        if negb enough then bad_params "scrypt N times p under the minimum" else inl ()
  end.

Section keys.
Context `{KeyLib, CipherLib}.

Definition compute (kdf : PasswordKdf) (password salt : bytes) (n : nat) : outcome CryptoError bytes :=
  match match kdf with
        | Argon2id m i l => argon2id m i l password salt n
        | Scrypt log_n r p => scrypt log_n r p password salt n
        end with
  | Some out => inl out
  | None => bad_params "password hashing settings rejected"
  end.

Definition kdf_derive (kdf : PasswordKdf) (password salt : bytes) (n : nat) : outcome CryptoError bytes :=
  ok? _ := validate kdf in compute kdf password salt n.

(** [verify]: the comparison in constant time is the equality of the bytes. *)
Definition kdf_verify (kdf : PasswordKdf) (password salt expected : bytes) : outcome CryptoError bool :=
  ok? again := kdf_derive kdf password salt (length expected) in inl (bool_decide (again = expected)).

Definition hkdf_derive (h : HkdfHash) (salt : option bytes) (ikm info : bytes) (n : nat) : outcome CryptoError bytes :=
  match hkdf h salt ikm info n with Some k => inl k | None => bad_params "derived length too long" end.

(** ** Keyed fingerprints *)

Definition mac (kind : MacKind) (key data : bytes) : outcome CryptoError bytes :=
  match keyed_hash kind key data with Some tag => inl tag | None => bad_params "HMAC key rejected" end.
Definition mac_verify (kind : MacKind) (key data expected : bytes) : outcome CryptoError bool :=
  ok? tag := mac kind key data in inl (bool_decide (tag = expected)).

(** ** Locked roots *)

Inductive ProgrammerKey := Raw (key : bytes) | Password (password : bytes) (kdf : PasswordKdf).

Inductive Role := Read | Search.
Definition role_byte (r : Role) : byte := match r with Read => byte_of_N 1 | Search => byte_of_N 2 end.

Definition lock_aad (role : Role) (salt : bytes) : bytes := LOCK_LABEL ++ [role_byte role] ++ salt.

Definition wrap_key (suite : KeySuite) (role : Role) (key : ProgrammerKey) (salt : bytes) : outcome CryptoError bytes :=
  ok? ikm := match key with Raw raw => inl raw | Password password kdf => kdf_derive kdf password salt KEY_LEN end in
  hkdf_derive (s_hkdf suite) (Some salt) ikm (LOCK_LABEL ++ [role_byte role]) KEY_LEN.

(** [salt] and [nonce] are what the random source answered. *)
Definition lock_root (salt nonce : outcome CryptoError bytes) (suite : KeySuite) (role : Role) (root : bytes) (key : ProgrammerKey)
    : outcome CryptoError bytes :=
  ok? salt := salt in
  ok? wrap := wrap_key suite role key salt in
  ok? sealed := seal {| kind := s_cipher suite; a_key := wrap |} nonce (lock_aad role salt) root in
  inl (salt ++ sealed).

(** The answer, and what the sink was told. *)
Definition unlock_root (suite : KeySuite) (role : Role) (locked : bytes) (key : option ProgrammerKey)
    : outcome CryptoError bytes * list OpenDiagnostic :=
  match key with
  | None => (inr OpenFailed, [KeyMissing])
  | Some key =>
      if negb (length locked =? SALT_LEN + overhead (s_cipher suite) + KEY_LEN)%nat then (inr OpenFailed, [MalformedInput])
      else
        let salt := take SALT_LEN locked in
        let sealed := drop SALT_LEN locked in
        match wrap_key suite role key salt with
        | inr e => (inr e, [])
        | inl wrap =>
            match open_with {| kind := s_cipher suite; a_key := wrap |} (lock_aad role salt) sealed with
            | inr why => (inr OpenFailed, [why])
            | inl root => if negb (length root =? KEY_LEN)%nat then (inr OpenFailed, []) else (inl root, [])
            end
        end
  end.

(** [relock]: the same root, locked again under [new]. *)
Definition relock (salt nonce : outcome CryptoError bytes) (suite : KeySuite) (role : Role) (locked : bytes) (old new : ProgrammerKey)
    : outcome CryptoError bytes :=
  ok? root := (unlock_root suite role locked (Some old)).1 in lock_root salt nonce suite role root new.

Record DataKey := { k_read : bytes; k_search : bytes }.
Record LockedDataKey := { l_read : bytes; l_search : bytes }.
Record KeyAccess := { ac_read : option bytes; ac_search : option bytes }.

Definition key_generate (random : outcome CryptoError bytes) : outcome CryptoError bytes := random.
Definition data_key_generate (r1 r2 : outcome CryptoError bytes) : outcome CryptoError DataKey :=
  ok? read := key_generate r1 in ok? search := key_generate r2 in inl {| k_read := read; k_search := search |}.

Definition data_key_lock (s1 n1 s2 n2 : outcome CryptoError bytes) (suite : KeySuite) (k : DataKey) (read_key search_key : ProgrammerKey)
    : outcome CryptoError LockedDataKey :=
  ok? read := lock_root s1 n1 suite Read (k_read k) read_key in
  ok? search := lock_root s2 n2 suite Search (k_search k) search_key in
  inl {| l_read := read; l_search := search |}.

(** [Option::map] of an unlock, then [transpose]. *)
Definition unlock_given (suite : KeySuite) (role : Role) (locked : bytes) (key : option ProgrammerKey)
    : outcome CryptoError (option bytes) * list OpenDiagnostic :=
  match key with
  | None => (inl None, [])
  | Some k => let '(r, told) := unlock_root suite role locked (Some k) in
              (match r with inl root => inl (Some root) | inr e => inr e end, told)
  end.

Definition unlock_reporting (locked : LockedDataKey) (suite : KeySuite) (read_key search_key : option ProgrammerKey)
    : outcome CryptoError KeyAccess * list OpenDiagnostic :=
  match read_key, search_key with
  | None, None => (inr OpenFailed, [KeyMissing])
  | _, _ =>
      match unlock_given suite Read (l_read locked) read_key with
      | (inr e, told) => (inr e, told)
      | (inl read, told) =>
          match unlock_given suite Search (l_search locked) search_key with
          | (inr e, told') => (inr e, told ++ told')
          | (inl search, told') => (inl {| ac_read := read; ac_search := search |}, told ++ told')
          end
      end
  end.

(** ** Subkeys *)

Record Scope := { sc_table : str; sc_field : str }.
Inductive Purpose := Encryption | FullFingerprint | PartFingerprint | Hash.
Definition purpose_byte (p : Purpose) : byte :=
  match p with Encryption => byte_of_N 1 | FullFingerprint => byte_of_N 2 | PartFingerprint => byte_of_N 3 | Hash => byte_of_N 4 end.

(** One scope name with its length, a big-endian [u32]. *)
Definition scope_part (part : str) : outcome CryptoError bytes :=
  if len part <? 2 ^ 32 then inl (be_bytes 4 (len part) ++ part) else bad_params "scope name too long".

Definition subkey_info (role : Role) (purpose : Purpose) (scope : Scope) : outcome CryptoError bytes :=
  ok? table := scope_part (sc_table scope) in
  ok? field := scope_part (sc_field scope) in
  inl (SUBKEY_LABEL ++ [role_byte role; purpose_byte purpose] ++ table ++ field).

Definition derive_subkey (root : bytes) (h : HkdfHash) (role : Role) (purpose : Purpose) (scope : Scope) : outcome CryptoError bytes :=
  ok? info := subkey_info role purpose scope in hkdf_derive h None root info KEY_LEN.

(** The keys of the two roots: [ReadRoot] and [SearchRoot]. *)
Definition encryption_key (root : bytes) (h : HkdfHash) := derive_subkey root h Read Encryption.
Definition hash_key (root : bytes) (h : HkdfHash) := derive_subkey root h Read Hash.
Definition full_fingerprint_key (root : bytes) (h : HkdfHash) := derive_subkey root h Search FullFingerprint.
Definition part_fingerprint_key (root : bytes) (h : HkdfHash) := derive_subkey root h Search PartFingerprint.

(** ** What identifies a subkey *)

Lemma scope_part_inj p p' x x' r r' : scope_part p = inl x → scope_part p' = inl x' → x ++ r = x' ++ r' → p = p' ∧ r = r'.
Proof.
  unfold scope_part. destruct (N.ltb_spec (len p) (2 ^ 32)) as [Hl|]; [|done]. destruct (N.ltb_spec (len p') (2 ^ 32)) as [Hl'|]; [|done].
  intros Ex Ex'. assert (x = be_bytes 4 (len p) ++ p) as -> by congruence. assert (x' = be_bytes 4 (len p') ++ p') as -> by congruence.
  rewrite <-!app_assoc. intros E. apply app_inj_1 in E as [E1 E2]; [|by rewrite !be_bytes_length].
  apply be_bytes_inj in E1; [|done..]. unfold len in E1. by apply app_inj_1 in E2 as [-> ->]; [|lia].
Qed.

Lemma subkey_info_inj role role' purpose purpose' scope scope' info :
  subkey_info role purpose scope = inl info → subkey_info role' purpose' scope' = inl info →
  role = role' ∧ purpose = purpose' ∧ scope = scope'.
Proof.
  unfold subkey_info. destruct (scope_part (sc_table scope)) as [a|] eqn:Ea; [|done]. destruct (scope_part (sc_field scope)) as [b|] eqn:Eb; [|done].
  destruct (scope_part (sc_table scope')) as [a'|] eqn:Ea'; [|done]. destruct (scope_part (sc_field scope')) as [b'|] eqn:Eb'; [|done].
  cbn [obind]. intros E1 E2. assert (E : SUBKEY_LABEL ++ [role_byte role; purpose_byte purpose] ++ a ++ b =
    SUBKEY_LABEL ++ [role_byte role'; purpose_byte purpose'] ++ a' ++ b') by congruence. apply app_inv_head in E. injection E as Er Ep E.
  destruct (scope_part_inj _ _ _ _ _ _ Ea Ea' E) as [Et Ef]. rewrite <-(app_nil_r b), <-(app_nil_r b') in Ef.
  destruct (scope_part_inj _ _ _ _ _ _ Eb Eb' Ef) as [Ef' _].
  split_and!; [by destruct role, role'|by destruct purpose, purpose'|destruct scope, scope'; simpl in *; congruence].
Qed.

(** ** Opening a lock *)

Lemma open_with_open a aad sealed p : open_with a aad sealed = inl p ↔ open a aad sealed = inl p.
Proof. unfold open. destruct (open_with a aad sealed); naive_solver. Qed.

(** A lock opens with a key exactly when it is the lock that this key makes of the root,
    with some salt and nonce. *)
Lemma unlock_exact suite role locked key root : length root = KEY_LEN →
  (unlock_root suite role locked (Some key)).1 = inl root ↔
  ∃ salt nonce, length salt = SALT_LEN ∧ length nonce = nonce_len (s_cipher suite) ∧
    lock_root (inl salt) (inl nonce) suite role root key = inl locked.
Proof.
  intros Hr. unfold unlock_root, lock_root. cbn [obind seal]. split.
  - destruct (Nat.eqb_spec (length locked) (SALT_LEN + overhead (s_cipher suite) + KEY_LEN)) as [Hl|]; [|done]. cbn [negb].
    destruct (wrap_key suite role key (take SALT_LEN locked)) as [wrap|] eqn:Ew; [|done].
    destruct (open_with _ _ _) as [root'|] eqn:Eo; [|done]. apply open_with_open, open_exact in Eo as (nonce & Hn & Es).
    destruct (length root' =? KEY_LEN)%nat; [|done]. cbn [negb fst]. intros [= ->]. exists (take SALT_LEN locked), nonce.
    split_and!; [rewrite length_take; unfold SALT_LEN, KEY_LEN in *; lia|done|]. rewrite Ew. cbn [obind]. rewrite Es. cbn [obind]. by rewrite take_drop.
  - intros (salt & nonce & Hs & Hn & E). destruct (wrap_key suite role key salt) as [wrap|] eqn:Ew; [|done]. cbn [obind] in E.
    destruct (seal_with _ nonce _ root) as [sealed|] eqn:Es; [|done]. cbn [obind] in E. injection E as <-.
    assert (Hsl : length sealed = (overhead (s_cipher suite) + KEY_LEN)%nat).
    { unfold seal_with in Es. destruct (negb _); [done|]. destruct (encrypt _ _ _ _ _) as [[ct tag]|] eqn:Ee; [|done]. injection Es as <-.
      apply encrypt_len in Ee as [Hc Ht]. rewrite !length_app. unfold overhead. lia. }
    rewrite length_app, Hsl, Hs. destruct (Nat.eqb_spec (SALT_LEN + (overhead (s_cipher suite) + KEY_LEN)) (SALT_LEN + overhead (s_cipher suite) + KEY_LEN)); [|lia].
    cbn [negb]. rewrite <-Hs, take_app_length, drop_app_length, Ew.
    assert (Ho : open {| kind := s_cipher suite; a_key := wrap |} (lock_aad role salt) sealed = inl root) by (apply open_exact; eauto).
    apply open_with_open in Ho as ->. by rewrite Hr.
Qed.
End keys.
