(* ===== verification/Sealed.v ===== *)
(** * Sealed files ([encrypted_store/sealed.rs], [encrypted_store/file_header.rs])

    Everything of an encrypted database that is not a redb file is one sealed file: a salt,
    then blocks of at most 64 KiB.  [SealedWriter] makes one from any sequence of writes,
    [SealedReader] reads one piece by piece with random access.  The bytes written and the
    bytes read are those of a file that does not change meanwhile; what the random source
    answers for the salt and for the nonce of each block is an argument. *)
From S2P Require Import Prelude B64 Cipher Layout Keys.
Local Open Scope N_scope.

(** The errors of [std::io] that the code makes or tells apart. *)
Inductive IoError :=
| Tamper (block : option N)
| PermissionDenied
| InvalidInput (why : str)
| UnexpectedEof
| OtherError (why : str).

Definition other (why : String.string) {A : Type} : outcome IoError A := inr (OtherError (lit why)).
Arguments other why%_string_scope {A}.

(** [map_err(|_| io::Error::other(why))]. *)
Definition or_other (why : String.string) {A : Type} (r : outcome CryptoError A) : outcome IoError A :=
  match r with inl a => inl a | inr _ => other why end.
Arguments or_other why%_string_scope {A} r.

(** Plaintext bytes in a full block. *)
Definition BLOCK : N := 65536.

Definition sealed_aad (index : N) (last_total : option N) : bytes :=
  lit "s" ++ le_bytes 8 index ++
  match last_total with None => [byte_of_N 0] | Some total => [byte_of_N 1] ++ le_bytes 8 total end.

Definition hex (b : bytes) : str := b ≫= λ x, [hex_digit (byte_to_N x / 16); hex_digit (byte_to_N x mod 16)].

(** [trait FileKeys]: where the keys of sealed files come from. *)
Record FileKeys := {
  sealed_aead : str → str → bytes → outcome IoError Aead;       (* label, binding, salt *)
  name_fingerprint : str → str → outcome IoError str;           (* domain, name *)
  can_open : bool;
}.

(** ** The keys of a database encrypted as a whole *)

Section context_keys.
Context `{KeyLib, CipherLib}.

Record EncryptionContext := { suite : KeySuite; c_access : KeyAccess }.

Definition no_read_key {A : Type} : outcome IoError A := inr PermissionDenied.

Definition sealed_field (label binding : str) (salt : bytes) : str :=
  label ++ lit ":" ++ dec (len binding) ++ lit ":" ++ hex salt ++ lit ":" ++ binding.

Definition context_aead (c : EncryptionContext) (label binding : str) (salt : bytes) : outcome IoError Aead :=
  match ac_read (c_access c) with
  | None => no_read_key
  | Some read =>
      ok? key := or_other "key derivation failed"
                   (encryption_key read (s_hkdf (suite c)) {| sc_table := lit "sealed"; sc_field := sealed_field label binding salt |}) in
      inl {| kind := s_cipher (suite c); a_key := key |}
  end.

Definition context_fingerprint (c : EncryptionContext) (domain name : str) : outcome IoError str :=
  match ac_read (c_access c) with
  | None => no_read_key
  | Some read =>
      ok? key := or_other "key derivation failed" (hash_key read (s_hkdf (suite c)) {| sc_table := lit "names"; sc_field := domain |}) in
      ok? tag := or_other "mac failed" (mac HmacSha256 key name) in
      inl (hex (take 16 tag))
  end.

(** [impl FileKeys for EncryptionContext]. *)
Definition context_keys (c : EncryptionContext) : FileKeys :=
  {| sealed_aead := context_aead c; name_fingerprint := context_fingerprint c; can_open := true |}.

(** [masked_path]: the folders and the name of a side file, below its root. *)
Fixpoint masked_path (c : EncryptionContext) (components : list str) : outcome IoError (list str) :=
  match components with
  | [] => inl []
  | x :: rest => ok? f := context_fingerprint c (lit "path") x in ok? path := masked_path c rest in inl (f :: path)
  end.
End context_keys.

(** ** Writing *)

Section sealed.
Context `{CipherLib}.

Record SealedWriter := {
  w_out : bytes; w_aead : Aead; w_overhead : nat; w_index : N; w_buf : bytes; w_total : N }.

Definition writer_new (keys : FileKeys) (label binding : str) (salt : outcome CryptoError bytes) : outcome IoError SealedWriter :=
  ok? salt := or_other "no random source" salt in
  ok? aead := sealed_aead keys label binding salt in
  inl {| w_out := salt; w_aead := aead; w_overhead := overhead (kind aead); w_index := 0; w_buf := []; w_total := 0 |}.

(** What the random source answers for the nonce of a block. *)
Context (nonces : N → outcome CryptoError bytes).

Definition emit (w : SealedWriter) (last : bool) : outcome IoError SealedWriter :=
  let n := length (w_buf w) in
  let a := sealed_aad (w_index w) (if last then Some (w_total w) else None) in
  ok? block := or_other "sealing failed"
                 (ok? nonce := nonces (w_index w) in seal_into_with (w_aead w) nonce a (w_buf w) (n + w_overhead w)) in
  inl {| w_out := w_out w ++ block; w_aead := w_aead w; w_overhead := w_overhead w;
         w_index := w_index w + 1; w_buf := []; w_total := w_total w |}.

(** [Write::write]: how many bytes were taken. *)
Definition write (w : SealedWriter) (data : bytes) : outcome IoError (nat * SealedWriter) :=
  if bool_decide (data = []) then inl (O, w)
  else
    ok? w := if len (w_buf w) =? BLOCK then emit w false else inl w in
    let n := N.to_nat (N.min (BLOCK - len (w_buf w)) (len data)) in
    inl (n, {| w_out := w_out w; w_aead := w_aead w; w_overhead := w_overhead w; w_index := w_index w;
               w_buf := w_buf w ++ take n data; w_total := w_total w + N.of_nat n |}).

(** [Write::write_all] of the standard library. *)
Fixpoint write_all_fuel (fuel : nat) (w : SealedWriter) (data : bytes) : outcome IoError SealedWriter :=
  match data, fuel with
  | [], _ => inl w
  | _, O => other "fuel"
  | _, S fuel' =>
      match write w data with
      | inr e => inr e
      | inl (O, _) => other "failed to write whole buffer"
      | inl (n, w) => write_all_fuel fuel' w (drop n data)
      end
  end.
Definition write_all (w : SealedWriter) (data : bytes) : outcome IoError SealedWriter := write_all_fuel (length data) w data.

Definition finish (w : SealedWriter) : outcome IoError bytes :=
  ok? w := emit w true in inl (w_out w).

(** ** Reading *)

Record SealedReader := {
  rd_src : bytes; rd_aead : Aead; rd_overhead : N; rd_blocks : N; rd_total : N; rd_pos : N; rd_cached : option (N * bytes) }.

(** [seek] to a position and [read_exact] of a length. *)
Definition read_at (src : bytes) (pos n : N) : outcome IoError bytes :=
  if len src <? pos + n then inr UnexpectedEof else inl (take (N.to_nat n) (drop (N.to_nat pos) src)).

Definition with_cached (r : SealedReader) (c : option (N * bytes)) : SealedReader :=
  {| rd_src := rd_src r; rd_aead := rd_aead r; rd_overhead := rd_overhead r; rd_blocks := rd_blocks r; rd_total := rd_total r;
     rd_pos := rd_pos r; rd_cached := c |}.
Definition at_pos (r : SealedReader) (pos : N) : SealedReader :=
  {| rd_src := rd_src r; rd_aead := rd_aead r; rd_overhead := rd_overhead r; rd_blocks := rd_blocks r; rd_total := rd_total r;
     rd_pos := pos; rd_cached := rd_cached r |}.

Definition load (r : SealedReader) (index : N) : outcome IoError SealedReader :=
  if match rd_cached r with Some (i, _) => i =? index | None => false end then inl r
  else
    let stride := BLOCK + rd_overhead r in
    let last := index + 1 =? rd_blocks r in
    let plain_len := if last then rd_total r - index * BLOCK else BLOCK in
    ok? buf := read_at (rd_src r) (N.of_nat SALT_LEN + index * stride) (plain_len + rd_overhead r) in
    let a := sealed_aad index (if last then Some (rd_total r) else None) in
    match open_in_place (rd_aead r) a buf with
    | (inr _, _) => inr (Tamper (Some index))
    | (inl (from, to), buf) => inl (with_cached r (Some (index, take (to - from) (drop from buf))))
    end.

Definition div_ceil (a b : N) : N := (a + b - 1) / b.

Definition reader_new (src : bytes) (keys : FileKeys) (label binding : str) : outcome IoError SealedReader :=
  let file_len := len src in
  if file_len <? N.of_nat SALT_LEN then inr (Tamper None)
  else
    ok? salt := read_at src 0 (N.of_nat SALT_LEN) in
    ok? aead := sealed_aead keys label binding salt in
    let over := N.of_nat (overhead (kind aead)) in
    let stride := BLOCK + over in
    let payload := file_len - N.of_nat SALT_LEN in
    if payload <? over then inr (Tamper None)
    else
      let blocks := div_ceil payload stride in
      let last_len := payload - (blocks - 1) * stride in
      if last_len <? over then inr (Tamper (Some (blocks - 1)))
      else
        let total := (blocks - 1) * BLOCK + (last_len - over) in
        load {| rd_src := src; rd_aead := aead; rd_overhead := over; rd_blocks := blocks; rd_total := total; rd_pos := 0; rd_cached := None |}
             (blocks - 1).

(** [Read::read] into a buffer of [n] bytes: the bytes it was given. *)
Definition read (r : SealedReader) (n : N) : outcome IoError (bytes * SealedReader) :=
  if (rd_total r <=? rd_pos r) || (n =? 0) then inl ([], r)
  else
    let index := rd_pos r / BLOCK in
    ok? r := load r index in
    let within := rd_pos r mod BLOCK in
    let plain := match rd_cached r with Some (_, plain) => plain | None => [] end in
    let k := N.min (len plain - within) n in
    inl (take (N.to_nat k) (drop (N.to_nat within) plain), at_pos r (rd_pos r + k)).

Inductive SeekFrom := Start (p : N) | End (d : Z) | Current (d : Z).

(** [Seek::seek]: the target is cut to 64 bits by [as u64]. *)
Definition seek (r : SealedReader) (to : SeekFrom) : outcome IoError (N * SealedReader) :=
  let target := match to with
                | Start p => Z.of_N p
                | End d => (Z.of_N (rd_total r) + d)%Z
                | Current d => (Z.of_N (rd_pos r) + d)%Z
                end in
  if (target <? 0)%Z then inr (InvalidInput (lit "seek before the start"))
  else let pos := (Z.to_N target mod U64)%N in inl (pos, at_pos r pos).

(** [Read::read_to_end]: reads into buffers of sizes the standard library chooses. *)
Fixpoint read_to_end (fuel : nat) (sizes : nat → N) (r : SealedReader) (out : bytes) : outcome IoError bytes :=
  match fuel with
  | O => other "fuel"
  | S fuel' =>
      match read r (N.max 1 (sizes fuel')) with
      | inr e => inr e
      | inl ([], _) => inl out
      | inl (b, r) => read_to_end fuel' sizes r (out ++ b)
      end
  end.

(** ** The header of an encrypted database *)

Definition lock_len (suite : KeySuite) : nat := SALT_LEN + overhead (s_cipher suite) + KEY_LEN.
Definition PLAIN_SIGNATURE : bytes := lit "redb" ++ (byte_of_N <$> [26; 10; 169; 13; 10]).

Inductive StoreDiagnostic := SdKeyMissing | LockRejected | HeaderMalformed | LooksLikeUnencrypted | DatabaseUnreadable.

(** [random]: 2048 bytes of the random source. *)
Definition header_encode (random : outcome CryptoError bytes) (suite : KeySuite) (locked : LockedDataKey) : outcome IoError bytes :=
  ok? filler := or_other "no random source" random in
  let n := lock_len suite in
  if negb (length (l_read locked) =? n)%nat || negb (length (l_search locked) =? n)%nat
  then inr (InvalidInput (lit "locked key does not match the cipher"))
  else inl (l_read locked ++ l_search locked ++ drop (2 * n) filler).

Definition header_decode (suite : KeySuite) (b : bytes) : outcome StoreDiagnostic LockedDataKey :=
  if bool_decide (take (length PLAIN_SIGNATURE) b = PLAIN_SIGNATURE) then inr LooksLikeUnencrypted
  else
    let n := lock_len suite in
    if len b <? FILE_HEADER_LEN then inr HeaderMalformed
    else inl {| l_read := take n b; l_search := take n (drop n b) |}.
End sealed.
