(* ===== verification/SealedProps.v ===== *)
(** * Sealed files give back what was sealed

    [made]: the blocks of a sealed file.  [sealed_roundtrip]: what any sequence of writes
    sealed is read back.  [sealed_integrity]: whatever a file with the same salt holds, a
    reader of it gives the data that was sealed or an error, or shows a forged block.
    [keys_separated] and [lock_opens_exactly] are about the keys. *)
From S2P Require Import Prelude B64 Cipher Layout Keys Sealed.
Local Open Scope N_scope.

Lemma BLOCK_pos : 0 < BLOCK.
Proof. done. Qed.
#[local] Opaque BLOCK.

Lemma join_cons {A} (x : list A) l : mjoin (x :: l) = x ++ mjoin l.
Proof. done. Qed.

Section made.
Context `{CipherLib} (a : Aead).

Abbreviation over := (N.of_nat (overhead (kind a))).

(** The authenticated data of block [i] of [n], for data of length [total]. *)
Definition block_data (n : nat) (total : N) (i : nat) : bytes :=
  sealed_aad (N.of_nat i) (if bool_decide (S i = n) then Some total else None).

(** The plain and the sealed blocks of a file that holds [data]. *)
Record made (data : bytes) (bs : list (bytes * bytes)) : Prop := {
  md_data : mjoin (fst <$> bs) = data;
  md_full : ∀ i p s, bs !! i = Some (p, s) → (S i < length bs)%nat → len p = BLOCK;
  md_last : ∀ i p s, bs !! i = Some (p, s) → len p <= BLOCK;
  md_open : ∀ i p s, bs !! i = Some (p, s) → open a (block_data (length bs) (len data) i) s = inl p;
  md_some : bs ≠ [];
  md_len : len data < U64;
}.

(** How many blocks a reader of [src] finds in it, for how much data, and block [i] with the
    authenticated data it is opened with. *)
Definition blocks_in (src : bytes) : N := div_ceil (len src - N.of_nat SALT_LEN) (BLOCK + over).
Definition total_in (src : bytes) : N :=
  (blocks_in src - 1) * BLOCK + (len src - N.of_nat SALT_LEN - (blocks_in src - 1) * (BLOCK + over) - over).


Lemma open_length aad s p : open a aad s = inl p → len s = len p + over.
Proof.
  intros (nonce & Hn & Es)%open_exact. unfold seal_with in Es. destruct (negb _); [done|].
  destruct (encrypt _ _ _ _ _) as [[ct tag]|] eqn:Ee; [|done]. injection Es as <-. apply encrypt_len in Ee as [Hc Ht].
  unfold len, overhead. rewrite !length_app. lia.
Qed.


(** Where a block lies. *)
Lemma join_take (B : N) (l : list bytes) i p : (∀ j q, l !! j = Some q → (j < i)%nat → len q = B) → l !! i = Some p →
  p = take (length p) (drop (N.to_nat (N.of_nat i * B)) (mjoin l)) ∧ len (mjoin (take i l)) = N.of_nat i * B.
Proof.
  intros Hfull Hi. assert (Hj : len (mjoin (take i l)) = N.of_nat i * B).
  { assert (Hle : (i <= length l)%nat) by (apply lookup_lt_Some in Hi; lia). clear Hi p. induction i as [|i IH]; [done|].
    destruct (lookup_lt_is_Some_2 l i ltac:(lia)) as [q Hq]. rewrite (take_S_r _ _ q) by done. rewrite join_app, len_app. cbn [mjoin list_join].
    rewrite app_nil_r, IH; [|intros; apply (Hfull j); [done|lia]|lia]. rewrite (Hfull i q Hq) by lia. lia. }
  split; [|done]. rewrite <-(take_drop_middle l i p Hi) at 1. rewrite join_app. cbn [mjoin list_join]. rewrite <-Hj.
  unfold len. rewrite Nat2N.id, drop_app_length. by rewrite take_app_length.
Qed.

Context (data : bytes) (bs : list (bytes * bytes)) (Hm : made data bs).

Lemma made_block i p s : bs !! i = Some (p, s) →
  p = take (length p) (drop (N.to_nat (N.of_nat i * BLOCK)) data) ∧ N.of_nat i * BLOCK + len p <= len data ∧
  (S i = length bs → N.of_nat i * BLOCK + len p = len data).
Proof using Hm.
  intros Hi. destruct (join_take BLOCK (fst <$> bs) i p) as [Ep Hl].
  - intros j q Hq Hj. rewrite list_lookup_fmap in Hq. destruct (bs !! j) as [[q' s']|] eqn:Ej; [|done]. injection Hq as <-.
    apply (md_full _ _ Hm j q' s' Ej). apply lookup_lt_Some in Hi. lia.
  - by rewrite list_lookup_fmap, Hi.
  - rewrite (md_data _ _ Hm) in Ep. split; [done|].
    assert (Hd : mjoin (take i (fst <$> bs)) ++ p ++ mjoin (drop (S i) (fst <$> bs)) = data).
    { rewrite <-(md_data _ _ Hm). rewrite <-(take_drop_middle (fst <$> bs) i p) at 3 by (by rewrite list_lookup_fmap, Hi). by rewrite join_app. }
    rewrite <-Hd, !len_app, Hl. split; [lia|]. intros Hlast. rewrite drop_ge by (rewrite length_fmap; lia). cbn. unfold len. simpl. lia.
Qed.

Lemma made_count i : (i < length bs)%nat → N.of_nat i * BLOCK <= len data.
Proof using Hm.
  intros [[p s] Hi]%lookup_lt_is_Some_2. destruct (made_block i p s Hi) as (_ & ? & _). lia.
Qed.



(** The blocks cover the data. *)
Lemma made_cover : len data <= len bs * BLOCK.
Proof using Hm.
  destruct (lookup_lt_is_Some_2 bs (length bs - 1)) as [[p s] Hi].
  { pose proof (md_some _ _ Hm). destruct bs; [done|]. simpl. lia. }
  pose proof Hi as Hlt%lookup_lt_Some. destruct (made_block _ p s Hi) as (_ & _ & E). rewrite <-E by lia.
  pose proof (md_last _ _ Hm _ p s Hi). unfold len in *. nia.
Qed.

Lemma made_sealed i p s : bs !! i = Some (p, s) → len s = len p + over.
Proof using Hm. intros Hi. eapply open_length, (md_open _ _ Hm), Hi. Qed.

Lemma made_file_length : len (mjoin (snd <$> bs)) = len data + len bs * over.
Proof using Hm.
  rewrite <-(md_data _ _ Hm). assert (Hl : ∀ i x, bs !! i = Some x → len x.2 = len x.1 + over) by (intros i [p s]; apply made_sealed).
  clear Hm. induction bs as [|x l IH]; [done|]. rewrite !fmap_cons, !join_cons, !len_app, len_cons, IH.
  - rewrite (Hl O x) by done. lia.
  - intros i. apply (Hl (S i)).
Qed.
End made.

(** ** Writing *)

Section writing.
Context `{CipherLib} (nonces : N → outcome CryptoError bytes) (a : Aead) (salt : bytes).

(** The writer after [data] was written, with [bs] the blocks it gave out. *)
Record writing (w : SealedWriter) (bs : list (bytes * bytes)) (data : bytes) : Prop := {
  wr_out : w_out w = salt ++ mjoin (snd <$> bs);
  wr_aead : w_aead w = a;
  wr_over : w_overhead w = overhead (kind a);
  wr_index : w_index w = len bs;
  wr_data : data = mjoin (fst <$> bs) ++ w_buf w;
  wr_blocks : ∀ i p s, bs !! i = Some (p, s) → len p = BLOCK ∧ open a (sealed_aad (N.of_nat i) None) s = inl p;
  wr_buf : len (w_buf w) <= BLOCK;
  wr_total : w_total w = len data;
}.

Lemma emit_inv w bs data last w' : writing w bs data → emit nonces w last = inl w' →
  ∃ s, open a (sealed_aad (len bs) (if last then Some (len data) else None)) s = inl (w_buf w) ∧
    w' = {| w_out := w_out w ++ s; w_aead := a; w_overhead := overhead (kind a); w_index := len bs + 1; w_buf := []; w_total := len data |}.
Proof.
  intros Hw. unfold emit. rewrite (wr_index _ _ _ Hw), (wr_total _ _ _ Hw), (wr_aead _ _ _ Hw), (wr_over _ _ _ Hw).
  destruct (nonces (len bs)) as [nonce|]; [|done]. cbn [obind].
  destruct (seal_into_with _ nonce _ _ _) as [s|] eqn:Es; [|done]. cbn [or_other obind]. intros [= <-]. exists s. split; [|done].
  apply open_exact. unfold seal_into_with in Es. destruct (Nat.eqb_spec (length nonce) (nonce_len (kind a))) as [Hn|]; [|done].
  destruct (negb (_ =? _)%nat) in Es; [done|]. exists nonce. split; [done|]. unfold seal_with. rewrite Hn, Nat.eqb_refl. exact Es.
Qed.

Lemma emit_full w bs data w' : writing w bs data → len (w_buf w) = BLOCK → emit nonces w false = inl w' →
  ∃ bs', writing w' bs' data ∧ w_buf w' = [].
Proof.
  intros Hw Hb (s & Ho & ->)%(emit_inv _ _ _ _ _ Hw). exists (bs ++ [(w_buf w, s)]). split; [|done].
  split; cbn [w_out w_aead w_overhead w_index w_buf w_total]; rewrite ?fmap_app, ?join_app; cbn; rewrite ?app_nil_r; try done.
  - by rewrite (wr_out _ _ _ Hw), app_assoc.
  - rewrite len_app. unfold len. simpl. lia.
  - apply (wr_data _ _ _ Hw).
  - intros i p s'. rewrite lookup_app_Some. intros [Hi|[Hge Hi]]; [by apply (wr_blocks _ _ _ Hw)|].
    apply list_lookup_singleton_Some in Hi as [Hi [= <- <-]]. split; [done|]. by replace (N.of_nat i) with (len bs) by (unfold len; lia).
Qed.

(** The random source answers, and the cipher takes a whole block. *)
Definition ready : Prop :=
  (∀ i, ∃ nonce, nonces i = inl nonce ∧ length nonce = nonce_len (kind a)) ∧
  (∀ nonce aad p, length nonce = nonce_len (kind a) → len p <= BLOCK → is_Some (encrypt (kind a) (a_key a) nonce aad p)).

Lemma emit_ok w bs data last : ready → writing w bs data → ∃ w', emit nonces w last = inl w'.
Proof.
  intros [Hn He] Hw. unfold emit. destruct (Hn (w_index w)) as (nonce & -> & Hl). cbn [obind]. unfold seal_into_with.
  rewrite (wr_aead _ _ _ Hw), (wr_over _ _ _ Hw), Hl, Nat.eqb_refl. cbn [negb].
  destruct (Nat.eqb_spec (length (w_buf w) + overhead (kind a)) (nonce_len (kind a) + length (w_buf w) + TAG_LEN)); [|unfold overhead in *; lia].
  cbn [negb]. destruct (He nonce (sealed_aad (w_index w) (if last then Some (w_total w) else None)) (w_buf w) Hl (wr_buf _ _ _ Hw)) as [[ct tag] ->].
  cbn. eauto.
Qed.

Lemma write_inv w bs data d n w' : writing w bs data → write nonces w d = inl (n, w') →
  ∃ bs', writing w' bs' (data ++ take n d) ∧ (n = 0%nat → d = []).
Proof.
  intros Hw. unfold write. case_bool_decide as Hd.
  { intros [= <- <-]. exists bs. by rewrite take_0, app_nil_r. }
  destruct (if len (w_buf w) =? BLOCK then emit nonces w false else inl w) as [w1|] eqn:E1; [|done]. cbn [obind]. intros [= <- <-].
  assert (∃ bs1, writing w1 bs1 data ∧ len (w_buf w1) < BLOCK) as (bs1 & Hw1 & Hlt).
  { destruct (N.eqb_spec (len (w_buf w)) BLOCK) as [Hb|Hb].
    - destruct (emit_full _ _ _ _ Hw Hb E1) as (bs1 & ? & ->). exists bs1. split; [done|]. apply BLOCK_pos.
    - injection E1 as <-. exists bs. split; [done|]. pose proof (wr_buf _ _ _ Hw). lia. }
  assert (Hpos : 0 < len d) by (destruct d; [done|rewrite len_cons; lia]).
  set (k := N.min (BLOCK - len (w_buf w1)) (len d)). exists bs1. split; [|intros Hk; assert (Hk' : 0 < k) by (unfold k; lia); lia].
  assert (Hlen : len (take (N.to_nat k) d) = k) by (subst k; unfold len; rewrite length_take; lia).
  destruct Hw1 as [? ? ? ? Hdat ? ? Htot]. split; cbn [w_out w_aead w_overhead w_index w_buf w_total]; try done.
  - by rewrite Hdat, app_assoc.
  - rewrite len_app, Hlen. lia.
  - rewrite len_app, Hlen, Htot. lia.
Qed.

Lemma write_all_fuel_inv fuel w bs data d w' : writing w bs data → write_all_fuel nonces fuel w d = inl w' →
  ∃ bs', writing w' bs' (data ++ d).
Proof.
  revert w bs data d. induction fuel as [|fuel IH]; intros w bs data d Hw; destruct d as [|x d]; cbn [write_all_fuel].
  - intros [= <-]. exists bs. by rewrite app_nil_r.
  - done.
  - intros [= <-]. exists bs. by rewrite app_nil_r.
  - destruct (write nonces w (x :: d)) as [[n w1]|] eqn:Ew; [|done]. destruct (write_inv _ _ _ _ _ _ Hw Ew) as (bs1 & Hw1 & _).
    destruct n as [|n]; [done|]. intros Hr. destruct (IH _ _ _ _ Hw1 Hr) as (bs' & Hw'). exists bs'.
    by rewrite <-app_assoc, take_drop in Hw'.
Qed.

Lemma write_all_fuel_ok fuel w bs data d : ready → writing w bs data → (length d <= fuel)%nat → ∃ w', write_all_fuel nonces fuel w d = inl w'.
Proof.
  intros Hr. revert w bs data d. induction fuel as [|fuel IH]; intros w bs data d Hw Hf; destruct d as [|x d]; cbn [write_all_fuel]; [eauto|simpl in Hf; lia|eauto|].
  assert (∃ n w1, write nonces w (x :: d) = inl (n, w1)) as (n & w1 & Ew).
  { unfold write. case_bool_decide; [eauto|]. destruct (_ =? BLOCK); [|cbn [obind]; eauto].
    destruct (emit_ok _ _ _ false Hr Hw) as (w1 & ->). cbn [obind]. eauto. }
  rewrite Ew. destruct (write_inv _ _ _ _ _ _ Hw Ew) as (bs1 & Hw1 & Hn). destruct n as [|n]; [by specialize (Hn eq_refl)|].
  apply (IH _ _ _ _ Hw1). rewrite length_drop. simpl in Hf |- *. lia.
Qed.

Lemma finish_ok w bs data : ready → writing w bs data → ∃ file, finish nonces w = inl file.
Proof. intros Hr Hw. unfold finish. destruct (emit_ok _ _ _ true Hr Hw) as (w' & ->). cbn. eauto. Qed.

Lemma finish_inv w bs data file : writing w bs data → len data < U64 → finish nonces w = inl file →
  ∃ bs', made a data bs' ∧ file = salt ++ mjoin (snd <$> bs').
Proof.
  intros Hw Hlt. unfold finish. destruct (emit nonces w true) as [w'|] eqn:Ew; [|done]. cbn [obind]. intros [= <-].
  destruct (emit_inv _ _ _ _ _ Hw Ew) as (s & Ho & ->). exists (bs ++ [(w_buf w, s)]). cbn [w_out].
  split; [split|].
  - rewrite fmap_app, join_app. cbn. rewrite app_nil_r. symmetry. apply (wr_data _ _ _ Hw).
  - intros i p s' Hi. rewrite length_app. cbn [length]. intros Hl. rewrite lookup_app_l in Hi by lia. by apply (wr_blocks _ _ _ Hw) in Hi as [? _].
  - intros i p s'. rewrite lookup_app_Some. intros [Hi|[_ Hi]]; [apply (wr_blocks _ _ _ Hw) in Hi as [-> _]; done|].
    apply list_lookup_singleton_Some in Hi as [_ [= <- <-]]. apply (wr_buf _ _ _ Hw).
  - intros i p s'. unfold block_data. rewrite length_app. cbn [length]. rewrite lookup_app_Some. intros [Hi|[Hge Hi]].
    + rewrite bool_decide_false by (apply lookup_lt_Some in Hi; lia). by apply (wr_blocks _ _ _ Hw).
    + apply list_lookup_singleton_Some in Hi as [Hi [= <- <-]]. rewrite bool_decide_true by lia.
      by replace (N.of_nat i) with (len bs) by (unfold len; lia).
  - by destruct bs.
  - done.
  - rewrite (wr_out _ _ _ Hw), fmap_app, join_app, <-app_assoc. cbn. by rewrite app_nil_r.
Qed.
End writing.

(** ** Reading *)

(** The data from a position to the end of its block, or [n] bytes of it. *)
Definition piece (data : bytes) (pos n : N) : bytes := take (N.to_nat (N.min n (BLOCK - pos mod BLOCK))) (drop (N.to_nat pos) data).

Lemma read_at_slice src pos n buf : read_at src pos n = inl buf → buf = take (length buf) (drop (N.to_nat pos) src).
Proof.
  unfold read_at. destruct (_ <? _); [done|]. intros [= <-]. rewrite <-firstn_all at 1. by rewrite take_take, length_take, Nat.min_l by lia.
Qed.


Section reading.
Context `{CipherLib} (a : Aead) (data : bytes) (bs : list (bytes * bytes)) (src : bytes) (Hm : made a data bs).

(** A reader that has checked that the file's last block is the last of [bs]. *)
Record tracks (r : SealedReader) : Prop := {
  tr_src : rd_src r = src;
  tr_aead : rd_aead r = a;
  tr_over : rd_overhead r = N.of_nat (overhead (kind a));
  tr_blocks : rd_blocks r = len bs;
  tr_total : rd_total r = len data;
  tr_blocks_in : blocks_in a src = len bs;
  tr_total_in : total_in a src = len data;
  tr_cached : ∀ i p, rd_cached r = Some (i, p) → ∃ k s, i = N.of_nat k ∧ bs !! k = Some (p, s);
}.


(** What a read gives when the block it needs is there. *)
Lemma piece_of_block k p s pos n : bs !! k = Some (p, s) → pos / BLOCK = N.of_nat k → pos < len data →
  take (N.to_nat (N.min (len p - pos mod BLOCK) n)) (drop (N.to_nat (pos mod BLOCK)) p) = piece data pos n ∧
  N.min (len p - pos mod BLOCK) n = len (piece data pos n).
Proof using Hm.
  intros Hk Hd Hpos. pose proof BLOCK_pos as HB. pose proof (N.div_mod' pos BLOCK) as Hdm. pose proof (N.mod_lt pos BLOCK ltac:(lia)) as Hml.
  destruct (made_block a data bs Hm k p s Hk) as (Ep & Hle & Hlast). pose proof (md_last _ _ _ Hm k p s Hk) as HpB.
  rewrite Hd in Hdm. set (m := pos mod BLOCK) in *.
  assert (Hc : N.min (len p - m) n = N.min (N.min n (BLOCK - m)) (len data - pos)).
  { destruct (decide (S k = length bs)) as [Hk'|Hk']; [pose proof (Hlast Hk'); lia|].
    rewrite (md_full _ _ _ Hm k p s Hk) by (apply lookup_lt_Some in Hk; lia).
    pose proof (md_full _ _ _ Hm k p s Hk ltac:(apply lookup_lt_Some in Hk; lia)). lia. }
  assert (Hpc : piece data pos n = take (N.to_nat (N.min (len p - m) n)) (drop (N.to_nat pos) data)).
  { unfold piece. fold m. rewrite Hc. destruct (N.le_gt_cases (N.min n (BLOCK - m)) (len data - pos)); [by rewrite (N.min_l (N.min n _))|].
    rewrite (N.min_r (N.min n _)) by lia.
    by rewrite !take_ge by (rewrite length_drop; unfold len in *; lia). }
  split.
  - rewrite Hpc. assert (HK : N.min (len p - m) n <= len p - m) by lia. generalize dependent (N.min (len p - m) n). intros K _ _ HK.
    rewrite Ep at 1. rewrite skipn_firstn_comm, take_take, drop_drop. f_equal; [|f_equal]; unfold len in *; lia.
  - rewrite Hpc. unfold len at 2. rewrite length_take, length_drop. unfold len in *. lia.
Qed.

Lemma piece_end pos n : len data <= pos ∨ n = 0 → piece data pos n = [].
Proof using Type.
  unfold piece. intros [?| ->]; [by rewrite drop_ge, take_nil by (unfold len in *; lia)|]. by rewrite N.min_l by lia.
Qed.

Lemma piece_split pos n : piece data pos n ++ drop (N.to_nat (pos + len (piece data pos n))) data = drop (N.to_nat pos) data.
Proof using Type.
  unfold piece. set (k := N.to_nat _). rewrite <-(take_drop k (drop (N.to_nat pos) data)) at 3. f_equal. rewrite drop_drop.
  destruct (decide (k <= length (drop (N.to_nat pos) data))%nat) as [Hk|Hk].
  - f_equal. unfold len. rewrite length_take. lia.
  - rewrite length_drop in Hk. rewrite !drop_ge; [done|lia|]. unfold len. rewrite length_take, length_drop. lia.
Qed.

Lemma piece_some pos n : 0 < n → pos < len data → piece data pos n ≠ [].
Proof using Type.
  intros Hn Hp E. apply (f_equal length) in E. unfold piece in E. rewrite length_take, length_drop in E. simpl in E.
  pose proof (N.mod_lt pos BLOCK ltac:(pose proof BLOCK_pos; lia)). unfold len in *. lia.
Qed.

Lemma at_pos_tracks r pos : tracks r → tracks (at_pos r pos).
Proof using Type. by intros []. Qed.


Lemma seek_tracks r to p r' : tracks r → seek r to = inl (p, r') → tracks r' ∧ rd_pos r' = p.
Proof using Type. intros Hr. unfold seek. destruct (_ <? 0)%Z; [done|]. intros [= <- <-]. split; [by apply at_pos_tracks|done]. Qed.

End reading.

(** ** Opening *)

Lemma div_ceil_bounds x y : 0 < x → 0 < y → 1 <= div_ceil x y ∧ (div_ceil x y - 1) * y < x ∧ x <= div_ceil x y * y.
Proof.
  intros Hx Hy. unfold div_ceil. pose proof (N.div_mod' (x + y - 1) y) as E. pose proof (N.mod_lt (x + y - 1) y ltac:(lia)) as Hm.
  set (q := (x + y - 1) / y) in *. clearbody q. set (m := (x + y - 1) mod y) in *. clearbody m. nia.
Qed.

Lemma div_ceil_unique x y q : (q - 1) * y < x → x <= q * y → 1 <= q → div_ceil x y = q.
Proof.
  intros H1 H2 Hq. assert (Hy : 0 < y) by nia. destruct (div_ceil_bounds x y) as (? & ? & ?); [lia|done|]. nia.
Qed.


(** A reader reached from opening the file by reads and seeks. *)
Inductive reading `{CipherLib} (src : bytes) (keys : FileKeys) (label binding : str) : SealedReader → Prop :=
| reading_new r : reader_new src keys label binding = inl r → reading src keys label binding r
| reading_read r n b r' : reading src keys label binding r → read r n = inl (b, r') → reading src keys label binding r'
| reading_seek r to p r' : reading src keys label binding r → seek r to = inl (p, r') → reading src keys label binding r'.


(** ** The file that was written *)

Section own.
Context `{CipherLib} (a : Aead) (data : bytes) (bs : list (bytes * bytes)) (salt : bytes) (Hm : made a data bs) (Hs : length salt = SALT_LEN).

Abbreviation file := (salt ++ mjoin (snd <$> bs)).
Abbreviation over := (N.of_nat (overhead (kind a))).

Lemma block_at k p s : bs !! k = Some (p, s) → read_at file (N.of_nat SALT_LEN + N.of_nat k * (BLOCK + over)) (len p + over) = inl s.
Proof using Hm Hs.
  intros Hk. pose proof (made_sealed a data bs Hm k p s Hk) as Hsl.
  destruct (join_take (BLOCK + over) (snd <$> bs) k s) as [Es Hl].
  - intros j q Hj Hlt. rewrite list_lookup_fmap in Hj. destruct (bs !! j) as [[p' s']|] eqn:Ej; [|done]. injection Hj as <-.
    cbn [snd]. rewrite (made_sealed a data bs Hm j p' s' Ej), (md_full _ _ _ Hm j p' s' Ej); [done|]. apply lookup_lt_Some in Hk. lia.
  - by rewrite list_lookup_fmap, Hk.
  - assert (Hle : N.of_nat k * (BLOCK + over) + len s <= len (mjoin (snd <$> bs))).
    { rewrite <-(take_drop_middle (snd <$> bs) k s) by (by rewrite list_lookup_fmap, Hk). rewrite join_app, len_app, Hl, join_cons, len_app. lia. }
    unfold read_at. rewrite len_app. unfold len at 1. rewrite Hs. destruct (N.ltb_spec (N.of_nat SALT_LEN + len (mjoin (snd <$> bs)))
      (N.of_nat SALT_LEN + N.of_nat k * (BLOCK + over) + (len p + over))); [lia|].
    f_equal. rewrite Es at 1. rewrite <-Hsl. unfold len at 1. rewrite Nat2N.id. f_equal.
    rewrite N2Nat.inj_add, Nat2N.id, <-drop_drop, <-Hs, drop_app_length. done.
Qed.

(** Every block loads. *)
Lemma load_own r k : tracks a data bs file r → (k < length bs)%nat →
  ∃ p s, bs !! k = Some (p, s) ∧ load r (N.of_nat k) = inl (with_cached r (Some (N.of_nat k, p))).
Proof using Hm Hs.
  intros Hr [[p s] Hk]%lookup_lt_is_Some_2. exists p, s. split; [done|]. unfold load.
  destruct (match rd_cached r with Some (i, _) => i =? N.of_nat k | None => false end) eqn:Ec.
  { destruct (rd_cached r) as [[i q]|] eqn:Eq; [|done]. apply N.eqb_eq in Ec as ->. destruct (tr_cached _ _ _ _ _ Hr _ _ Eq) as (k' & s' & Hk' & Hb).
    apply Nat2N.inj in Hk' as <-. rewrite Hk in Hb. injection Hb as <- <-. f_equal. destruct r; cbn in *. by subst. }
  rewrite (tr_src _ _ _ _ _ Hr), (tr_over _ _ _ _ _ Hr), (tr_blocks _ _ _ _ _ Hr), (tr_total _ _ _ _ _ Hr), (tr_aead _ _ _ _ _ Hr).
  pose proof Hk as Hlt%lookup_lt_Some. destruct (made_block a data bs Hm k p s Hk) as (_ & _ & Hlast).
  assert (El : (if N.of_nat k + 1 =? len bs then len data - N.of_nat k * BLOCK else BLOCK) = len p).
  { destruct (N.eqb_spec (N.of_nat k + 1) (len bs)); unfold len in *; [lia|]. symmetry. apply (md_full _ _ _ Hm k p s Hk). lia. }
  rewrite El, (block_at k p s Hk). cbn [obind].
  pose proof (md_open _ _ _ Hm k p s Hk) as Ho. unfold block_data in Ho.
  assert (Ea : (if bool_decide (S k = length bs) then Some (len data) else None) = if N.of_nat k + 1 =? len bs then Some (len data) else None).
  { case_bool_decide; destruct (N.eqb_spec (N.of_nat k + 1) (len bs)); unfold len in *; [done|lia..|done]. }
  rewrite Ea in Ho. pose proof (open_in_place_spec a (sealed_aad (N.of_nat k) (if N.of_nat k + 1 =? len bs then Some (len data) else None)) s) as Hi.
  destruct (open_in_place _ _ s) as [[[from to]|] buf]; destruct Hi as [Hi _]; rewrite Ho in Hi; [|done]. injection Hi as <-. done.
Qed.

Lemma read_own r n : tracks a data bs file r →
  ∃ r', read r n = inl (piece data (rd_pos r) n, r') ∧ tracks a data bs file r' ∧ rd_pos r' = rd_pos r + len (piece data (rd_pos r) n).
Proof using Hm Hs.
  intros Hr. unfold read. rewrite (tr_total _ _ _ _ _ Hr). destruct (_ || _) eqn:Eo.
  { apply orb_true_iff in Eo. rewrite N.leb_le, N.eqb_eq in Eo. rewrite piece_end, len_nil, N.add_0_r by done. eauto. }
  apply orb_false_iff in Eo as [Hp%N.leb_gt Hn%N.eqb_neq]. pose proof BLOCK_pos.
  assert (Hd : rd_pos r / BLOCK < len bs).
  { apply N.Div0.div_lt_upper_bound. pose proof (made_cover a data bs Hm). lia. }
  destruct (load_own r (N.to_nat (rd_pos r / BLOCK)) Hr) as (p & s & Hk & El); [unfold len in Hd; lia|]. rewrite N2Nat.id in El. rewrite El.
  cbn [obind rd_cached with_cached rd_pos]. destruct (piece_of_block a data bs Hm _ p s (rd_pos r) n Hk) as [-> ->]; [by rewrite N2Nat.id|done|].
  eexists. split_and!; [done| |done]. apply at_pos_tracks. destruct Hr. split; try done. cbn. intros i q [= <- <-].
  exists (N.to_nat (rd_pos r / BLOCK)), s. by rewrite N2Nat.id.
Qed.

Lemma read_to_end_own fuel sizes r out : tracks a data bs file r → len data - rd_pos r < N.of_nat fuel →
  read_to_end fuel sizes r out = inl (out ++ drop (N.to_nat (rd_pos r)) data).
Proof using Hm Hs.
  revert r out. induction fuel as [|fuel IH]; intros r out Hr Hf; cbn [read_to_end]; [lia|].
  destruct (read_own r (N.max 1 (sizes fuel)) Hr) as (r' & Er & Hr' & Hpos). rewrite Er.
  destruct (N.lt_ge_cases (rd_pos r) (len data)) as [Hlt|Hge].
  - pose proof (piece_some data (rd_pos r) (N.max 1 (sizes fuel)) ltac:(lia) Hlt) as Hne. destruct (piece data _ _) as [|x b] eqn:Ep; [done|].
    rewrite IH; [|done|rewrite Hpos, len_cons; lia].
    rewrite Hpos, <-app_assoc, <-Ep. by rewrite piece_split.
  - rewrite piece_end by (by left). by rewrite drop_ge, app_nil_r by (unfold len in *; lia).
Qed.

Lemma file_shape : len file - N.of_nat SALT_LEN = len data + len bs * over ∧ 1 <= len bs ∧ (len bs - 1) * BLOCK <= len data ∧
  len data <= len bs * BLOCK ∧ 0 < over ∧ len salt = N.of_nat SALT_LEN ∧ blocks_in a file = len bs ∧ total_in a file = len data.
Proof using Hm Hs.
  pose proof BLOCK_pos. pose proof (made_cover a data bs Hm) as Hcov. pose proof (made_file_length a data bs Hm) as Hfl.
  assert (Hn : 1 <= len bs) by (pose proof (md_some _ _ _ Hm); destruct bs; [done|rewrite len_cons; lia]).
  assert (Hlow : (len bs - 1) * BLOCK <= len data).
  { pose proof (made_count a data bs Hm (length bs - 1) ltac:(unfold len in Hn; lia)). unfold len in *. nia. }
  assert (Hsl : len salt = N.of_nat SALT_LEN) by (unfold len; by rewrite Hs).
  assert (Hop : 0 < over) by (unfold overhead, TAG_LEN; lia).
  assert (Hpay : len file - N.of_nat SALT_LEN = len data + len bs * over) by (rewrite len_app; lia).
  assert (Hb : blocks_in a file = len bs) by (unfold blocks_in; rewrite Hpay; apply div_ceil_unique; nia).
  split_and!; try done. unfold total_in. rewrite Hb, Hpay. nia.
Qed.



Lemma reader_new_own keys label binding : sealed_aead keys label binding salt = inl a →
  ∃ r, reader_new file keys label binding = inl r ∧ tracks a data bs file r ∧ rd_pos r = 0.
Proof using Hm Hs.
  intros Hk. unfold reader_new. pose proof BLOCK_pos. destruct file_shape as (Hpay & Hn & Hlow & Hcov & Hop & Hsl & Hbi & Hti).
  pose proof (made_file_length a data bs Hm) as Hfl.
  rewrite len_app, Hsl. destruct (N.ltb_spec (N.of_nat SALT_LEN + len (mjoin (snd <$> bs))) (N.of_nat SALT_LEN)); [lia|].
  unfold read_at at 1. rewrite len_app, Hsl. destruct (N.ltb_spec (N.of_nat SALT_LEN + len (mjoin (snd <$> bs))) (0 + N.of_nat SALT_LEN)); [lia|].
  cbn [obind]. rewrite drop_0, Nat2N.id, <-Hs, take_app_length, Hk. cbn [obind]. rewrite Hs.
  replace (N.of_nat SALT_LEN + len (mjoin (snd <$> bs)) - N.of_nat SALT_LEN) with (len data + len bs * over) by lia.
  destruct (N.ltb_spec (len data + len bs * over) over); [nia|].
  rewrite (div_ceil_unique _ _ (len bs)) by nia.
  replace (len data + len bs * over - (len bs - 1) * (BLOCK + over)) with (len data - (len bs - 1) * BLOCK + over) by nia.
  destruct (N.ltb_spec (len data - (len bs - 1) * BLOCK + over) over); [lia|].
  replace ((len bs - 1) * BLOCK + (len data - (len bs - 1) * BLOCK + over - over)) with (len data) by lia.
  set (r0 := {| rd_src := _ |}). assert (Hr0 : tracks a data bs file r0) by (by split).
  destruct (load_own r0 (length bs - 1) Hr0) as (p & s & Hb & El); [unfold len in Hn; lia|].
  replace (len bs - 1) with (N.of_nat (length bs - 1)) by (unfold len; lia). rewrite El. eexists. split_and!; [done| |done].
  destruct Hr0. split; try done. intros i q [= <- <-]. eauto.
Qed.

(** A reader of the file that was written tracks it, without a proviso. *)
Lemma reading_own keys label binding r : sealed_aead keys label binding salt = inl a → reading file keys label binding r → tracks a data bs file r.
Proof using Hm Hs.
  intros Hk. induction 1 as [r Hn|r n b r' _ Hr Er|r to p r' _ Hr Es].
  - destruct (reader_new_own _ _ _ Hk) as (r' & Hn' & Ht & _). rewrite Hn in Hn'. by injection Hn' as <-.
  - destruct (read_own r n Hr) as (r1 & Er' & Hr1 & _). rewrite Er in Er'. by injection Er' as _ <-.
  - by apply (seek_tracks a data bs file) in Es as [? _].
Qed.
End own.

(** ** The theorems *)

(** A file sealed by any sequence of writes. *)
Definition write_pieces `{CipherLib} (nonces : N → outcome CryptoError bytes) (w : SealedWriter) (ds : list bytes) : outcome IoError SealedWriter :=
  foldl (λ r d, ok? w := r in write_all nonces w d) (inl w) ds.
Definition seal_pieces `{CipherLib} (nonces : N → outcome CryptoError bytes) (keys : FileKeys) (label binding : str) (salt : bytes)
    (ds : list bytes) : outcome IoError bytes :=
  ok? w := writer_new keys label binding (inl salt) in
  ok? w := write_pieces nonces w ds in
  finish nonces w.

Section theorems.
Context `{CipherLib} (nonces : N → outcome CryptoError bytes) (a : Aead) (salt : bytes).

Lemma writer_new_writing keys label binding : sealed_aead keys label binding salt = inl a →
  ∃ w, writer_new keys label binding (inl salt) = inl w ∧ writing a salt w [] [].
Proof. intros Hk. unfold writer_new. cbn [obind or_other]. rewrite Hk. cbn [obind]. eexists. split; [done|]. split; cbn; rewrite ?app_nil_r; done. Qed.

Lemma write_pieces_inv ds w bs data w' : writing a salt w bs data → write_pieces nonces w ds = inl w' →
  ∃ bs', writing a salt w' bs' (data ++ mjoin ds).
Proof.
  unfold write_pieces. revert w bs data. revert w'. induction ds as [|d ds IH] using rev_ind; intros w' w bs data Hw.
  - intros [= <-]. exists bs. by rewrite app_nil_r.
  - rewrite foldl_app. cbn [foldl]. destruct (foldl _ _ ds) as [w1|] eqn:Ef; [|done]. cbn [obind]. intros E.
    destruct (IH _ _ _ _ Hw Ef) as (bs1 & Hw1). destruct (write_all_fuel_inv _ _ _ _ _ _ _ _ _ Hw1 E) as (bs2 & Hw2).
    exists bs2. rewrite join_app. cbn. by rewrite app_nil_r, app_assoc.
Qed.

Lemma write_pieces_ok ds w bs data : ready nonces a → writing a salt w bs data → ∃ w', write_pieces nonces w ds = inl w'.
Proof.
  intros Hr Hw. unfold write_pieces. induction ds as [|d ds [w1 Ef]] using rev_ind; [eauto|].
  rewrite foldl_app. cbn [foldl]. rewrite Ef. cbn [obind]. destruct (write_pieces_inv ds _ _ _ _ Hw Ef) as (bs1 & Hw1).
  by eapply write_all_fuel_ok.
Qed.

Lemma seal_pieces_inv keys label binding ds file : sealed_aead keys label binding salt = inl a → len (mjoin ds) < U64 →
  seal_pieces nonces keys label binding salt ds = inl file → ∃ bs, made a (mjoin ds) bs ∧ file = salt ++ mjoin (snd <$> bs).
Proof.
  intros Hk Hlt. unfold seal_pieces. destruct (writer_new_writing _ _ _ Hk) as (w & -> & Hw). cbn [obind].
  destruct (write_pieces _ w ds) as [w'|] eqn:Ew; [|done]. cbn [obind]. intros Ef.
  destruct (write_pieces_inv _ _ _ _ _ Hw Ew) as (bs & Hw'). by eapply finish_inv.
Qed.

Lemma seal_pieces_ok keys label binding ds : sealed_aead keys label binding salt = inl a → ready nonces a →
  ∃ file, seal_pieces nonces keys label binding salt ds = inl file.
Proof.
  intros Hk Hr. unfold seal_pieces. destruct (writer_new_writing _ _ _ Hk) as (w & -> & Hw). cbn [obind].
  destruct (write_pieces_ok ds _ _ _ Hr Hw) as (w' & Ew). rewrite Ew. cbn [obind].
  destruct (write_pieces_inv _ _ _ _ _ Hw Ew) as (bs & Hw'). by eapply finish_ok.
Qed.
End theorems.

(** C25: what is sealed is read back.  When the random source answers and the cipher takes a
    block, any sequence of writes is sealed into a file that opens under the same name; a
    reader of it, wherever reads and seeks have brought it, knows the length, gives at once
    the bytes at its position up to the end of the block, and read to the end, with buffers
    of any sizes, gives everything from its position on. *)
Theorem sealed_roundtrip `{CipherLib} nonces keys label binding a salt ds :
  sealed_aead keys label binding salt = inl a → length salt = SALT_LEN → len (mjoin ds) < U64 → ready nonces a →
  ∃ file, seal_pieces nonces keys label binding salt ds = inl file ∧
    (∃ r, reader_new file keys label binding = inl r ∧ rd_pos r = 0) ∧
    ∀ r, reading file keys label binding r → rd_total r = len (mjoin ds) ∧
      (∀ n, ∃ r', read r n = inl (piece (mjoin ds) (rd_pos r) n, r') ∧ rd_pos r' = rd_pos r + len (piece (mjoin ds) (rd_pos r) n)) ∧
      ∀ fuel sizes, len (mjoin ds) < N.of_nat fuel → read_to_end fuel sizes r [] = inl (drop (N.to_nat (rd_pos r)) (mjoin ds)).
Proof.
  intros Hk Hs Hlt Hr. destruct (seal_pieces_ok nonces a salt keys label binding ds Hk Hr) as (file & Ef). exists file.
  destruct (seal_pieces_inv _ _ _ _ _ _ _ _ Hk Hlt Ef) as (bs & Hm & ->). split; [done|]. split.
  - destruct (reader_new_own _ _ _ _ Hm Hs _ _ _ Hk) as (r & ? & _ & ?). eauto.
  - intros r Hrd. pose proof (reading_own _ _ _ _ Hm Hs _ _ _ _ Hk Hrd) as Ht. split_and!; [apply (tr_total _ _ _ _ _ Ht)|..].
    + intros n. destruct (read_own _ _ _ _ Hm Hs _ n Ht) as (r' & ? & _ & ?). eauto.
    + intros fuel sizes Hf. apply (read_to_end_own _ _ _ _ Hm Hs); [done|lia].
Qed.


(** ** The keys *)

Lemma split_colon (x x' y y' : str) c : c ∉ x → c ∉ x' → x ++ c :: y = x' ++ c :: y' → x = x' ∧ y = y'.
Proof.
  revert x'. induction x as [|d x IH]; intros [|d' x'] Hx Hx' E; injection E as E.
  - by subst.
  - destruct Hx'. subst. by left.
  - destruct Hx. subst. by left.
  - subst d'. destruct (IH x') as [-> ->]; [by intros ?; apply Hx; right|by intros ?; apply Hx'; right|done|done].
Qed.

Lemma hex_length b : length (hex b) = (2 * length b)%nat.
Proof. induction b as [|x b IH]; [done|]. unfold hex in *. rewrite bind_cons, length_app, IH. simpl. lia. Qed.

Lemma hex_digit_inj i j : i < 16 → j < 16 → hex_digit i = hex_digit j → i = j.
Proof.
  unfold hex_digit. intros Hi Hj E%(f_equal byte_to_N). rewrite !byte_to_of_N in E.
  destruct (N.ltb_spec i 10), (N.ltb_spec j 10); rewrite !N.mod_small in E; lia.
Qed.

Lemma hex_inj b b' : hex b = hex b' → b = b'.
Proof.
  revert b'. induction b as [|x b IH]; intros [|y b']; cbn; [done..|]. intros E. assert (Ed := f_equal (λ l, l !! O) E).
  assert (Em := f_equal (λ l, l !! 1%nat) E). cbn in Ed, Em. injection E as _ _ E. apply IH in E as ->. f_equal.
  injection Ed as Ed. injection Em as Em. pose proof (byte_to_N_bound x). pose proof (byte_to_N_bound y).
  apply hex_digit_inj in Ed; [|apply N.Div0.div_lt_upper_bound; lia..]. apply hex_digit_inj in Em; [|apply N.mod_lt; lia..].
  apply byte_to_N_inj. rewrite (N.div_mod' (byte_to_N x) 16), (N.div_mod' (byte_to_N y) 16). congruence.
Qed.

Lemma sealed_field_inj label label' binding binding' salt salt' : Byte.x3a ∉ label → Byte.x3a ∉ label' → length salt = length salt' →
  sealed_field label binding salt = sealed_field label' binding' salt' → label = label' ∧ binding = binding' ∧ salt = salt'.
Proof.
  intros Hl Hl' Hs. unfold sealed_field. change (lit ":") with [Byte.x3a]. intros [-> E]%split_colon; [|done..].
  apply split_colon in E as [_ E]; [|apply dec_no_colon..]. apply app_inj_1 in E as [Eh E]; [|by rewrite !hex_length, Hs].
  apply hex_inj in Eh as ->. by injection E as ->.
Qed.

(** What the key of a sealed file is derived for. *)
Definition sealed_info (label binding : str) (salt : bytes) : outcome CryptoError bytes :=
  subkey_info Keys.Read Encryption {| sc_table := lit "sealed"; sc_field := sealed_field label binding salt |}.

(** C28: every key of a database has its own derivation.  The key of a sealed file is HKDF of
    the read root for an info that no sealed file of another kind, name or salt has, as long as
    the labels of the kinds hold no colon, and that no key with another role, another purpose
    or another scope has: the name fingerprints, the fields and their fingerprints are
    derived apart from it.  ([label_with_colon] shows why the labels are restricted.) *)
Theorem sealed_keys_separated `{KeyLib, CipherLib} c a label binding salt :
  context_aead c label binding salt = inl a → Byte.x3a ∉ label → length salt = SALT_LEN →
  ∃ read info, ac_read (c_access c) = Some read ∧ sealed_info label binding salt = inl info ∧
    kind a = s_cipher (suite c) ∧ hkdf (s_hkdf (suite c)) None read info KEY_LEN = Some (a_key a) ∧
    (∀ label' binding' salt', Byte.x3a ∉ label' → length salt' = SALT_LEN → sealed_info label' binding' salt' = inl info →
      label' = label ∧ binding' = binding ∧ salt' = salt) ∧
    ∀ role purpose scope, subkey_info role purpose scope = inl info →
      role = Keys.Read ∧ purpose = Encryption ∧ scope = {| sc_table := lit "sealed"; sc_field := sealed_field label binding salt |}.
Proof.
  intros Ek Hl Hs. unfold context_aead in Ek. destruct (ac_read (c_access c)) as [read|] eqn:Er; [|done].
  unfold encryption_key, derive_subkey in Ek. fold (sealed_info label binding salt) in Ek.
  destruct (sealed_info label binding salt) as [info|] eqn:Ei; [|done]. cbn [obind] in Ek. unfold hkdf_derive in Ek.
  destruct (hkdf _ _ _ _ _) as [key|] eqn:Eh; [|done]. cbn in Ek. injection Ek as <-. exists read, info. split_and!; [done..| |].
  - intros label' binding' salt' Hl' Hs' E'. destruct (subkey_info_inj _ _ _ _ _ _ _ E' Ei) as (_ & _ & E). injection E as E.
    apply sealed_field_inj in E as (-> & -> & ->); [done..|congruence].
  - intros role purpose scope E. by destruct (subkey_info_inj _ _ _ _ _ _ _ E Ei) as (-> & -> & ->).
Qed.

(** Two sealed files with the same salt, of different kinds and names, that have one key: the label of
    the second spells the length of a name and the salt after the label of the first. *)
Lemma label_with_colon (salt : bytes) : length salt = SALT_LEN →
  sealed_info (lit "a") (lit "1:" ++ hex salt ++ lit ":x") salt = sealed_info (lit "a:68:" ++ hex salt) (lit "x") salt.
Proof.
  intros Hs. unfold sealed_info. do 2 f_equal. unfold sealed_field.
  replace (len (lit "1:" ++ hex salt ++ lit ":x")) with 68 by (unfold len; rewrite !length_app, hex_length, Hs; done).
  change (dec 68) with (lit "68"). change (dec (len (lit "x"))) with (lit "1"). change (lit "a:68:") with (lit "a" ++ lit ":" ++ lit "68" ++ lit ":").
  change (lit "1:") with (lit "1" ++ lit ":"). change (lit ":x") with (lit ":" ++ lit "x"). by rewrite <-!app_assoc.
Qed.

Lemma lock_root_inv `{KeyLib, CipherLib} salt nonce suite role root key locked : length salt = SALT_LEN → length root = KEY_LEN →
  lock_root (inl salt) (inl nonce) suite role root key = inl locked →
  length locked = lock_len suite ∧ take SALT_LEN locked = salt ∧ unlock_root suite role locked (Some key) = (inl root, []).
Proof.
  intros Hs Hr E. assert (Hn : length nonce = nonce_len (s_cipher suite)).
  { unfold lock_root in E. cbn [obind] in E. destruct (wrap_key _ _ _ _); [|done]. cbn [obind] in E. unfold seal, seal_with in E. cbn [kind] in E.
    destruct (Nat.eqb_spec (length nonce) (nonce_len (s_cipher suite))); [done|]. done. }
  assert (Hu : (unlock_root suite role locked (Some key)).1 = inl root) by (apply unlock_exact; eauto 6).
  assert (Hlen : length locked = lock_len suite).
  { unfold unlock_root in Hu. destruct (Nat.eqb_spec (length locked) (SALT_LEN + overhead (s_cipher suite) + KEY_LEN)); done. }
  split_and!; [done|..].
  - unfold lock_root in E. cbn [obind] in E. destruct (wrap_key _ _ _ _); [|done]. cbn [obind] in E. destruct (seal _ _ _ _); [|done].
    injection E as <-. by rewrite take_app_length'.
  - unfold unlock_root in *. destruct (negb _); [done|]. destruct (wrap_key _ _ _ _); [|done]. destruct (open_with _ _ _); [|done].
    destruct (negb _); [done|]. cbn in Hu. by injection Hu as ->.
Qed.

Lemma unlock_reporting_keys `{KeyLib, CipherLib} locked suite k rk sk (g1 g2 : bool) : g1 || g2 = true →
  unlock_root suite Keys.Read (l_read locked) (Some rk) = (inl (k_read k), []) →
  unlock_root suite Search (l_search locked) (Some sk) = (inl (k_search k), []) →
  unlock_reporting locked suite (if g1 then Some rk else None) (if g2 then Some sk else None) =
    (inl {| ac_read := if g1 then Some (k_read k) else None; ac_search := if g2 then Some (k_search k) else None |}, []).
Proof. intros Hg E1 E2. unfold unlock_reporting, unlock_given. destruct g1, g2; [..|done]; by rewrite ?E1, ?E2. Qed.

(** The lock of a root. *)
Definition lock_of (role : Role) (locked : LockedDataKey) : bytes :=
  match role with Keys.Read => l_read locked | Search => l_search locked end.

(** C27: the header of an encrypted database gives the keys back.  The two roots, locked under
    the programmer's keys and written into a header among random bytes, are read from it and
    unlock to themselves with the keys given, either of them or both.  Whatever key is tried on
    either lock, a root it unlocks to is one that this very key, over the same salt, locks into
    exactly the bytes of that lock; for the key that was used it is the stored root.  A header
    is refused as an ordinary file exactly when the random salt spells redb's signature. *)
Theorem header_keys_roundtrip `{KeyLib, CipherLib} suite k rk sk s1 n1 s2 n2 locked filler b :
  length s1 = SALT_LEN → length s2 = SALT_LEN → length (k_read k) = KEY_LEN → length (k_search k) = KEY_LEN → len filler = FILE_HEADER_LEN →
  data_key_lock (inl s1) (inl n1) (inl s2) (inl n2) suite k rk sk = inl locked → header_encode (inl filler) suite locked = inl b →
  len b = FILE_HEADER_LEN ∧
  header_decode suite b = (if bool_decide (take (length PLAIN_SIGNATURE) s1 = PLAIN_SIGNATURE) then inr LooksLikeUnencrypted else inl locked) ∧
  (∀ g1 g2 : bool, g1 || g2 = true →
    unlock_reporting locked suite (if g1 then Some rk else None) (if g2 then Some sk else None) =
      (inl {| ac_read := if g1 then Some (k_read k) else None; ac_search := if g2 then Some (k_search k) else None |}, [])) ∧
  ∀ role key root, length root = KEY_LEN → (unlock_root suite role (lock_of role locked) (Some key)).1 = inl root →
    (∃ nonce, lock_root (inl (match role with Keys.Read => s1 | Search => s2 end)) (inl nonce) suite role root key = inl (lock_of role locked)) ∧
    (key = match role with Keys.Read => rk | Search => sk end → root = match role with Keys.Read => k_read k | Search => k_search k end).
Proof.
  intros Hs1 Hs2 Hk1 Hk2 Hf El Eb. unfold data_key_lock in El.
  destruct (lock_root (inl s1) (inl n1) suite Keys.Read (k_read k) rk) as [l1|] eqn:E1; [|done]. cbn [obind] in El.
  destruct (lock_root (inl s2) (inl n2) suite Search (k_search k) sk) as [l2|] eqn:E2; [|done]. cbn [obind] in El. injection El as <-.
  destruct (lock_root_inv _ _ _ _ _ _ _ Hs1 Hk1 E1) as (Hl1 & Ht1 & Hu1). destruct (lock_root_inv _ _ _ _ _ _ _ Hs2 Hk2 E2) as (Hl2 & Ht2 & Hu2).
  assert (Hln : (2 * lock_len suite <= 2048)%nat) by (unfold lock_len, overhead, SALT_LEN, KEY_LEN, TAG_LEN; destruct (s_cipher suite); simpl; lia).
  unfold header_encode in Eb. cbn [or_other obind l_read l_search] in Eb. rewrite Hl1, Hl2, !Nat.eqb_refl in Eb. cbn [negb orb] in Eb.
  assert (b = l1 ++ l2 ++ drop (2 * lock_len suite) filler) as -> by congruence. clear Eb. assert (Hb : len (l1 ++ l2 ++ drop (2 * lock_len suite) filler) = FILE_HEADER_LEN).
  { unfold len, FILE_HEADER_LEN in *. rewrite !length_app, length_drop, Hl1, Hl2. lia. }
  split_and!; [done|..].
  - unfold header_decode. rewrite Hb. change (FILE_HEADER_LEN <? FILE_HEADER_LEN) with false. cbn match.
    rewrite take_app_le by (rewrite Hl1; unfold lock_len, SALT_LEN; simpl; lia).
    assert (Et : take (length PLAIN_SIGNATURE) l1 = take (length PLAIN_SIGNATURE) s1) by (rewrite <-Ht1, take_take; done). rewrite Et.
    case_bool_decide; [done|]. rewrite <-Hl1, take_app_length, drop_app_length, Hl1, <-Hl2, take_app_length. done.
  - intros g1 g2 Hg. by apply unlock_reporting_keys.
  - intros role key root Hr Hu. split.
    + pose proof Hu as (salt & nonce & Hs & _ & E)%(unlock_exact suite role _ key root Hr). exists nonce.
      destruct (lock_root_inv _ _ _ _ _ _ _ Hs Hr E) as (_ & Ht & _). rewrite <-E. do 2 f_equal. destruct role; cbn [lock_of l_read l_search] in *; congruence.
    + intros ->. destruct role; cbn [lock_of l_read l_search] in Hu; [rewrite Hu1 in Hu|rewrite Hu2 in Hu]; by injection Hu.
Qed.

(** ** Witnesses *)

Module SealedDemo.
Definition toy_aead : Aead := {| kind := Aes256GcmSiv; a_key := lit "k" |}.
Definition toy_keys : FileKeys := {| sealed_aead _ _ _ := inl toy_aead; name_fingerprint _ _ := inl []; can_open := true |}.
Definition toy_nonces (_ : N) : outcome CryptoError bytes := inl (replicate 12 Byte.x05).
Definition toy_salt : bytes := replicate SALT_LEN Byte.x06.
#[local] Existing Instance toy_cipher.

Lemma toy_ready : ready toy_nonces toy_aead.
Proof. split; [intros i; by exists (replicate 12 Byte.x05)|intros nonce aad p _ _; by eexists]. Qed.

Lemma sealed_roundtrip_witness : ∃ file r, seal_pieces toy_nonces toy_keys (lit "blob") (lit "b") toy_salt [lit "ab"; []; lit "c"] = inl file ∧
  reader_new file toy_keys (lit "blob") (lit "b") = inl r ∧ read_to_end 4 (λ _, 2) r [] = inl (lit "abc").
Proof.
  destruct (sealed_roundtrip toy_nonces toy_keys (lit "blob") (lit "b") toy_aead toy_salt [lit "ab"; []; lit "c"]) as (file & Ef & (r & Er & Hp) & Hr).
  - reflexivity.
  - reflexivity.
  - vm_compute. reflexivity.
  - exact toy_ready.
  - exists file, r. split; [exact Ef|split; [exact Er|]]. destruct (Hr r (reading_new _ _ _ _ _ Er)) as (_ & _ & Hend).
    rewrite Hend by (vm_compute; reflexivity). rewrite Hp. reflexivity.
Defined.


(** A byte of the block changed, or the file cut: an error. *)
Example tampered_file :
  (ok? file := seal_pieces toy_nonces toy_keys (lit "blob") (lit "b") toy_salt [lit "abc"] in
   ok? r := reader_new (<[47%nat := Byte.x00]> file) toy_keys (lit "blob") (lit "b") in inl (rd_total r)) = inr (Tamper (Some 0)) ∧
  (ok? file := seal_pieces toy_nonces toy_keys (lit "blob") (lit "b") toy_salt [lit "abc"] in
   ok? r := reader_new (take 62 file) toy_keys (lit "blob") (lit "b") in inl (rd_total r)) = inr (Tamper (Some 0)).
Proof. split; vm_compute; reflexivity. Qed.

(** A seek from the current position past the last one a [u64] holds lands at the start. *)
Example seek_wraps :
  (ok? file := seal_pieces toy_nonces toy_keys (lit "blob") (lit "b") toy_salt [lit "abc"] in
   ok? r := reader_new file toy_keys (lit "blob") (lit "b") in
   ok? far := seek r (Start (U64 - 1)) in
   ok? near := seek far.2 (Current 2) in inl (far.1, near.1)) = inl (U64 - 1, 1).
Proof. vm_compute. reflexivity. Qed.

Program Definition toy_lib : KeyLib := {|
  hkdf _ salt ikm info n := Some (take n (ikm ++ info ++ replicate n Byte.x00));
  argon2id _ _ _ _ _ _ := None;
  scrypt _ _ _ _ _ _ := None;
  keyed_hash _ _ _ := None;
|}.
Next Obligation. simpl. intros _ _ ikm info n k [= <-]. rewrite length_take, !length_app, length_replicate. lia. Qed.
Next Obligation. done. Qed.
Next Obligation. done. Qed.
Next Obligation. done. Qed.
#[local] Existing Instance toy_lib.

Definition toy_context : EncryptionContext :=
  {| suite := default_suite; c_access := {| ac_read := Some (lit "root"); ac_search := None |} |}.

Lemma sealed_keys_separated_witness : ∃ a info, context_aead toy_context (lit "side") (lit "b") toy_salt = inl a ∧
  sealed_info (lit "side") (lit "b") toy_salt = inl info ∧
  ∀ role purpose scope, subkey_info role purpose scope = inl info →
    role = Keys.Read ∧ purpose = Encryption ∧ scope = {| sc_table := lit "sealed"; sc_field := sealed_field (lit "side") (lit "b") toy_salt |}.
Proof.
  destruct (context_aead toy_context (lit "side") (lit "b") toy_salt) as [a|e] eqn:Ea; [|vm_compute in Ea; discriminate Ea].
  destruct (sealed_keys_separated toy_context a (lit "side") (lit "b") toy_salt) as (read & info & _ & Ei & _ & _ & _ & Hs).
  - exact Ea.
  - refine (bool_decide_unpack _ _). vm_compute. exact I.
  - reflexivity.
  - exists a, info. split; [reflexivity|split; [exact Ei|exact Hs]].
Defined.

Definition toy_root (b : byte) : bytes := replicate KEY_LEN b.
Definition toy_locked : outcome CryptoError LockedDataKey :=
  data_key_lock (inl toy_salt) (inl (replicate 12 Byte.x01)) (inl toy_salt) (inl (replicate 12 Byte.x02)) default_suite
    {| k_read := toy_root Byte.x11; k_search := toy_root Byte.x22 |} (Raw (lit "reader")) (Raw (lit "searcher")).

(** The program that holds only the search key gets only the search root. *)
Lemma header_keys_roundtrip_witness : ∃ locked, toy_locked = inl locked ∧
  unlock_reporting locked default_suite None (Some (Raw (lit "searcher"))) =
    (inl {| ac_read := None; ac_search := Some (toy_root Byte.x22) |}, []).
Proof.
  destruct toy_locked as [locked|e] eqn:El; [|vm_compute in El; discriminate El].
  destruct (header_encode (inl (replicate 2048 Byte.x00)) default_suite locked) as [b|e] eqn:Eb;
    [|exfalso; vm_compute in El; injection El as <-; vm_compute in Eb; discriminate Eb].
  destruct (header_keys_roundtrip default_suite {| k_read := toy_root Byte.x11; k_search := toy_root Byte.x22 |} (Raw (lit "reader")) (Raw (lit "searcher"))
    toy_salt (replicate 12 Byte.x01) toy_salt (replicate 12 Byte.x02) locked (replicate 2048 Byte.x00) b) as (_ & _ & Hu & _).
  - reflexivity.
  - reflexivity.
  - reflexivity.
  - reflexivity.
  - vm_compute. reflexivity.
  - exact El.
  - exact Eb.
  - exists locked. split; [reflexivity|]. exact (Hu false true eq_refl).
Defined.
End SealedDemo.
