(* ===== verification/Protected.v ===== *)
(** * Protected fields: keys, fingerprints and searches ([field_crypto])

    A protected field of an entity is sealed, hashed or only fingerprinted.  This file has the
    keys of the fields ([keys.rs], [carried.rs]), the fingerprints of whole values and of their
    parts ([prints.rs], [parts.rs]), the verification hashes ([hashing.rs]) and the conditions
    that search by fingerprint ([search.rs], [method.rs], [spec.rs]).  The sources of keys, a
    database encrypted as a whole or the keys of its protected fields, differ only in where
    they were unlocked. *)
From S2P Require Import Prelude Order Fields Eval Redb B64 Cipher Index Keys Sealed.
Local Open Scope N_scope.

(** ** Methods and specs *)

Inductive Method := Encrypt | EncryptFullPrint | EncryptPartPrints | HashMethod | SearchPrint.
#[global] Instance Method_eq_dec : EqDecision Method.
Proof. solve_decision. Defined.

Definition code (m : Method) : N :=
  match m with Encrypt => 1 | EncryptFullPrint => 2 | EncryptPartPrints => 3 | HashMethod => 4 | SearchPrint => 5 end.
Definition from_code (c : N) : option Method :=
  match c with
  | 1 => Some Encrypt | 2 => Some EncryptFullPrint | 3 => Some EncryptPartPrints | 4 => Some HashMethod | 5 => Some SearchPrint
  | _ => None
  end.
Definition has_stored_print (m : Method) : bool := match m with EncryptFullPrint | EncryptPartPrints => true | _ => false end.
Definition has_parts (m : Method) : bool := match m with EncryptPartPrints => true | _ => false end.
Definition has_full_print (m : Method) : bool := match m with EncryptFullPrint | EncryptPartPrints | SearchPrint => true | _ => false end.
Definition is_sealing (m : Method) : bool := match m with Encrypt | EncryptFullPrint | EncryptPartPrints => true | _ => false end.

Inductive HashAlgo := HashArgon2id | HashScrypt.

(** One protected field as the entity declares it. *)
Record SealedSpec := {
  sp_id : N; sp_key : str; sp_method : Method; sp_hash : option HashAlgo;
  sp_normalize : list TransformKind; sp_window : N; sp_bits : N }.

Inductive CarriedKind := CarriedHash | CarriedPrint.
#[global] Instance CarriedKind_eq_dec : EqDecision CarriedKind.
Proof. solve_decision. Defined.
#[global] Instance CarriedKind_countable : Countable CarriedKind.
Proof.
  refine (inj_countable' (λ k, match k with CarriedHash => true | CarriedPrint => false end)
    (λ b : bool, if b then CarriedHash else CarriedPrint) _). by intros [].
Defined.
Definition carried_code (k : CarriedKind) : byte := match k with CarriedHash => byte_of_N 1 | CarriedPrint => byte_of_N 2 end.
Definition carried_from_code (b : byte) : option CarriedKind :=
  match byte_to_N b with 1 => Some CarriedHash | 2 => Some CarriedPrint | _ => None end.

(** ** The keys of fields *)

(** The roots that were unlocked ([None] once cleared), the ciphers made so far and the keys
    carried over from earlier roots. *)
Record FieldKeys := {
  fk_suite : KeySuite;
  fk_source : option KeyAccess;
  fk_ciphers : gmap (str * N) Aead;
  fk_carried : gmap (str * N * CarriedKind) bytes }.

Definition fail (why : String.string) {A : Type} : result A := Err (Validation (lit why)).
Arguments fail why%_string_scope {A}.

Definition fail_on (why : String.string) {E A : Type} (r : outcome E A) : result A :=
  match r with inl a => Ok a | inr _ => fail why end.
Arguments fail_on why%_string_scope {E A} r.

Definition cipher_allowed (kind : CipherKind) : bool :=
  match kind with Aes256GcmSiv | XChaCha20Poly1305 => true | _ => false end.

Definition field_keys_new (s : KeySuite) (access : KeyAccess) : result FieldKeys :=
  if negb (cipher_allowed (s_cipher s)) then fail "this cipher is not allowed for protected fields"
  else Ok {| fk_suite := s; fk_source := Some access; fk_ciphers := ∅; fk_carried := ∅ |}.

Definition keys_clear (k : FieldKeys) : FieldKeys :=
  {| fk_suite := fk_suite k; fk_source := None; fk_ciphers := ∅; fk_carried := ∅ |}.

Definition has_search (k : FieldKeys) : bool :=
  match fk_source k with Some a => bool_decide (is_Some (ac_search a)) | None => false end.
Definition is_search_only (k : FieldKeys) : bool :=
  match fk_source k with Some a => negb (bool_decide (is_Some (ac_read a))) | None => false end.

Definition install_carried (k : FieldKeys) (kind : CarriedKind) (table_id : str) (field_id : N) (key : bytes) : FieldKeys :=
  {| fk_suite := fk_suite k; fk_source := fk_source k; fk_ciphers := fk_ciphers k;
     fk_carried := <[(table_id, field_id, kind) := key]> (fk_carried k) |}.

Definition unavailable {A : Type} : result A := fail "protected-field keys are unavailable".
Definition derived {A : Type} (r : outcome CryptoError A) : result A := fail_on "a field key could not be derived" r.

Definition field_scope (table_id : str) (field_id : N) : Scope :=
  {| sc_table := lit "t:" ++ table_id; sc_field := lit "f:" ++ dec field_id |}.

Definition entry_name (table_id : str) (field_id : N) : str := table_id ++ lit ":" ++ dec field_id.
Definition CARRIED_SCOPE : str := lit "carried-keys".

Definition bad (why : String.string) {A : Type} : result A := Err (MigrationError (lit why)).
Arguments bad why%_string_scope {A}.
Definition bad_on (why : String.string) {E A : Type} (r : outcome E A) : result A :=
  match r with inl a => Ok a | inr _ => bad why end.
Arguments bad_on why%_string_scope {E A} r.

Section keys.
Context `{KeyLib, CipherLib, TextLib}.

Definition read_root (k : FieldKeys) (none : result bytes) : result bytes :=
  match fk_source k with None => unavailable | Some a => match ac_read a with Some r => Ok r | None => none end end.
Definition search_root (k : FieldKeys) : result bytes :=
  match fk_source k with
  | None => unavailable
  | Some a => match ac_search a with
              | Some r => Ok r
              | None => fail "this program holds no search key; fingerprints can be neither written nor matched"
              end
  end.

Definition carried_seal_key (k : FieldKeys) (kind : CarriedKind) (table_id : str) (field_id : N) : result (option bytes) :=
  let scope := {| sc_table := CARRIED_SCOPE; sc_field := entry_name table_id field_id |} in
  match fk_source k with
  | None => unavailable
  | Some a =>
      match kind with
      | CarriedHash => match ac_read a with Some r => rmap Some (derived (encryption_key r (s_hkdf (fk_suite k)) scope)) | None => Ok None end
      | CarriedPrint => match ac_search a with Some r => rmap Some (derived (full_fingerprint_key r (s_hkdf (fk_suite k)) scope)) | None => Ok None end
      end
  end.

Definition print_key (k : FieldKeys) (table_id : str) (field_id : N) : result bytes :=
  match fk_carried k !! (table_id, field_id, CarriedPrint) with
  | Some key => Ok key
  | None => let? r := search_root k in derived (full_fingerprint_key r (s_hkdf (fk_suite k)) (field_scope table_id field_id))
  end.

Definition part_key (k : FieldKeys) (table_id : str) (field_id : N) : result bytes :=
  let? r := search_root k in derived (part_fingerprint_key r (s_hkdf (fk_suite k)) (field_scope table_id field_id)).

Definition no_read {A : Type} : result A := fail "this program holds no read key; protected fields can be neither written nor opened".

Definition field_hash_key (k : FieldKeys) (table_id : str) (field_id : N) : result bytes :=
  match fk_carried k !! (table_id, field_id, CarriedHash) with
  | Some key => Ok key
  | None => let? r := read_root k no_read in derived (hash_key r (s_hkdf (fk_suite k)) (field_scope table_id field_id))
  end.

(** The cipher of a field, made once and then remembered. *)
Definition field_cipher (k : FieldKeys) (table_id : str) (field_id : N) : result (Aead * FieldKeys) :=
  match fk_ciphers k !! (table_id, field_id) with
  | Some a => Ok (a, k)
  | None =>
      let? r := read_root k no_read in
      let? key := derived (encryption_key r (s_hkdf (fk_suite k)) (field_scope table_id field_id)) in
      let a := {| kind := s_cipher (fk_suite k); a_key := key |} in
      Ok (a, {| fk_suite := fk_suite k; fk_source := fk_source k;
                fk_ciphers := <[(table_id, field_id) := a]> (fk_ciphers k); fk_carried := fk_carried k |})
  end.

Definition key_file_cipher (k : FieldKeys) : result Aead :=
  let? r := read_root k (fail "this program holds no read key; the table list of the keys file can be neither written nor opened") in
  let? key := derived (encryption_key r (s_hkdf (fk_suite k)) {| sc_table := lit "keys-file"; sc_field := lit "tables" |}) in
  Ok {| kind := s_cipher (fk_suite k); a_key := key |}.

(** [impl FileKeys for FieldKeys]: the attachments of tables with protected fields. *)
Definition attachment_aead (k : FieldKeys) (label binding : str) (salt : bytes) : outcome IoError Aead :=
  match fk_source k with
  | None => other "keys unavailable"
  | Some a =>
      match ac_read a with
      | None => no_read_key
      | Some read =>
          ok? key := or_other "key derivation failed"
                       (encryption_key read (s_hkdf (fk_suite k)) {| sc_table := lit "attachment"; sc_field := sealed_field label binding salt |}) in
          inl {| kind := s_cipher (fk_suite k); a_key := key |}
      end
  end.
Definition attachment_fingerprint (k : FieldKeys) (domain name : str) : outcome IoError str :=
  match fk_source k with
  | None => other "keys unavailable"
  | Some a =>
      match ac_read a with
      | None => no_read_key
      | Some read =>
          ok? key := or_other "key derivation failed" (hash_key read (s_hkdf (fk_suite k)) {| sc_table := lit "attachment-names"; sc_field := domain |}) in
          ok? tag := or_other "mac failed" (mac HmacSha256 key name) in
          inl (hex (take 16 tag))
      end
  end.
Definition field_file_keys (k : FieldKeys) : FileKeys :=
  {| sealed_aead := attachment_aead k; name_fingerprint := attachment_fingerprint k; can_open := negb (is_search_only k) |}.

(** ** Carried keys *)

Definition carried_aad (kind : CarriedKind) (table_id : str) (field_id : N) : bytes :=
  lit "carried/v1" ++ [carried_code kind] ++ push_part table_id ++ le_bytes 4 field_id.

(** [random]: the nonce the random source answers. *)
Definition seal_entry (k : FieldKeys) (kind : CarriedKind) (table_id : str) (field_id : N) (random : outcome CryptoError bytes) (key : bytes)
    : result bytes :=
  let? seal_key := carried_seal_key k kind table_id field_id in
  match seal_key with
  | None => match kind with
            | CarriedHash => bad "this program holds no read key; a carried key cannot be sealed"
            | CarriedPrint => bad "this program holds no search key; a carried key cannot be sealed"
            end
  | Some sk =>
      let? sealed := bad_on "a carried key could not be sealed"
                       (seal {| kind := s_cipher (fk_suite k); a_key := sk |} random (carried_aad kind table_id field_id) key) in
      Ok ([byte_of_N 1; carried_code kind] ++ sealed)
  end.

Definition unknown_form {A : Type} : result A := bad "an entry of the carried keys is of a form this version does not know".

Definition open_entry (k : FieldKeys) (table_id : str) (field_id : N) (stored : bytes) : result (option (CarriedKind * bytes)) :=
  match stored with
  | version :: kd :: sealed =>
      if negb (byte_to_N version =? 1) then unknown_form else
      match carried_from_code kd with
      | None => unknown_form
      | Some kd =>
          let? seal_key := carried_seal_key k kd table_id field_id in
          match seal_key with
          | None => Ok None
          | Some sk =>
              match Cipher.open {| kind := s_cipher (fk_suite k); a_key := sk |} (carried_aad kd table_id field_id) sealed with
              | inr _ => Err DataTampered
              | inl key => if (length key =? KEY_LEN)%nat then Ok (Some (kd, key)) else Err DataTampered
              end
          end
      end
  | _ => unknown_form
  end.

(** ** Fingerprints of whole values *)

Definition normalize (text : str) (kinds : list TransformKind) : str := foldl transform text kinds.

Definition print_value (k : FieldKeys) (table_id : str) (field_id : N) (kinds : list TransformKind) (value : bytes) : result str :=
  if negb (utf8_valid value) then fail "a fingerprint value must be text" else
  let? key := print_key k table_id field_id in
  let? tag := fail_on "the fingerprint could not be made" (mac HmacSha256 key (lit "cf-print" ++ normalize value kinds)) in
  Ok (B64.encode tag).

Definition transform_byte (t : TransformKind) : byte :=
  match t with Trim => byte_of_N 1 | Lowercase => byte_of_N 2 | NormalizeArabic => byte_of_N 3 end.

Definition print_settings (k : FieldKeys) (table_id : str) (field_id : N) (kinds : list TransformKind) : result str :=
  let? key := print_key k table_id field_id in
  let? tag := fail_on "the fingerprint settings could not be made"
                (mac HmacSha256 key (lit "cf-print-settings" ++ [byte_of_N 1] ++ (transform_byte <$> kinds))) in
  Ok (B64.encode tag).

(** ** Fingerprints of parts *)

(** [kept[0] &= 0xFF >> spare]. *)
Definition mask_first (spare : N) (kept : bytes) : bytes :=
  match kept with
  | b :: rest => if 0 <? spare then byte_of_N (N.land (byte_to_N b) (N.shiftr 255 spare)) :: rest else kept
  | [] => []
  end.

Definition part_tag (key : bytes) (window bits : N) (text : str) : result str :=
  let? tag := fail_on "the fingerprint could not be made" (mac HmacSha256 key (lit "cf-part" ++ [byte_of_N window] ++ text)) in
  let n := div_ceil bits 8 in
  let kept := mask_first (n * 8 - bits) (take (N.to_nat n) tag) in
  let h := hex kept in
  Ok (drop (length h - N.to_nat (div_ceil bits 4)) h).

(** [slice::windows] of a positive size. *)
Fixpoint windows {A : Type} (n : nat) (l : list A) : list (list A) :=
  match l with
  | [] => []
  | _ :: l' => if (n <=? length l)%nat then take n l :: windows n l' else []
  end.

Definition part_tags (k : FieldKeys) (table_id : str) (field_id : N) (kinds : list TransformKind) (window bits : N) (text : str)
    : result (list str) :=
  if (window =? 0) || negb ((1 <=? bits) && (bits <=? 64)) then fail "the fingerprints of the parts of this field are not set up" else
  let? key := part_key k table_id field_id in
  let? tags := traverse (λ piece, part_tag key window bits (of_chars piece)) (windows (N.to_nat window) (chars (normalize text kinds))) in
  Ok (btree_set tags).

Definition normalized_len (kinds : list TransformKind) (text : str) : N := len (chars (normalize text kinds)).

(** [tags.join(" ")]. *)
Fixpoint join_tags (tags : list str) : str :=
  match tags with
  | [] => []
  | [t] => t
  | t :: tags' => t ++ lit " " ++ join_tags tags'
  end.

(** ** Verification hashes *)

Definition HASH_SALT : nat := 16.
Definition HASH_LEN : nat := 32.

Definition hash_settings (algo : HashAlgo) : PasswordKdf :=
  match algo with HashArgon2id => argon2id_default | HashScrypt => scrypt_default end.

Definition hash_settings_data (algo : HashAlgo) : bytes :=
  lit "cf-hash-settings" ++
  match hash_settings algo with
  | Argon2id m i l => [byte_of_N 1] ++ le_bytes 4 m ++ le_bytes 4 i ++ le_bytes 4 l
  | Scrypt n r p => [byte_of_N 2; byte_of_N n] ++ le_bytes 4 r ++ le_bytes 4 p
  end.
Definition hash_settings_print (k : FieldKeys) (table_id : str) (field_id : N) (algo : HashAlgo) : result str :=
  let? key := field_hash_key k table_id field_id in
  let? tag := fail_on "the hash settings could not be fingerprinted" (mac HmacSha256 key (hash_settings_data algo)) in
  Ok (B64.encode tag).

Definition hash_compute (k : FieldKeys) (algo : HashAlgo) (place : Place) (secret salt : bytes) : result bytes :=
  let? key := field_hash_key k (table_id place) (field_id place) in
  let? mixed := fail_on "the hash input could not be made" (mac HmacSha256 key (lit "cf-hash" ++ push_part (row_key place) ++ secret)) in
  fail_on "the hash could not be computed" (kdf_derive (hash_settings algo) mixed salt HASH_LEN).

(** [salt]: 16 bytes of the random source. *)
Definition hash_value (k : FieldKeys) (algo : HashAlgo) (place : Place) (salt : outcome CryptoError bytes) (secret : bytes) : result str :=
  let? salt := fail_on "the system could not provide random bytes" salt in
  let? h := hash_compute k algo place secret salt in
  Ok (B64.encode ([byte_of_N 1] ++ salt ++ h)).

Definition verify_value (k : FieldKeys) (algo : HashAlgo) (place : Place) (secret : bytes) (stored : str) : result bool :=
  match B64.decode stored with
  | None => Ok false
  | Some raw =>
      if negb (length raw =? 1 + HASH_SALT + HASH_LEN)%nat || negb (bool_decide (head raw = Some (byte_of_N 1))) then Ok false else
      let salt := take HASH_SALT (tail raw) in
      let expected := drop HASH_SALT (tail raw) in
      let? h := hash_compute k algo place secret salt in
      Ok (bool_decide (h = expected))
  end.
End keys.
