(* ===== verification/Slots.v ===== *)
(** * Protected fields: values, rows and searches ([field_crypto])

    What an entity holds in a protected field ([slots.rs]), the writing of its row
    ([rowcodec.rs]), the opening of values ([grant.rs]), the conditions of the search handles and
    their check ([search.rs]), the confirmed search and the slow scan ([confirm.rs], [scan.rs]).
    A row is the JSON that serde_json makes: the class [JsonText] has its writer, of which
    [json_read] reads back what was written.  The type of the value of a sealed field is a
    parameter with its serde implementation. *)
From S2P Require Import Prelude Order Fields Eval B64 Cipher Index Keys Sealed Protected.
Local Open Scope N_scope.

(** [serde_json::to_vec] of a [serde_json::Value]; [None] when the structure is no [Value]. *)
Class JsonText `{TextLib} := {
  json_write : json → option bytes;
  json_write_read : ∀ j b, json_write j = Some b → json_read b = Some j;
}.

(** ** Values *)

Record Binding := {
  b_table : str; b_table_id : str; b_field : str; b_field_id : N; b_row_key : str;
  b_hash : option HashAlgo; b_normalize : list TransformKind }.

(** [PartialEq]: the place, not the names. *)
Definition binding_eqb (a b : Binding) : bool :=
  bool_decide (b_table_id a = b_table_id b) && (b_field_id a =? b_field_id b) && bool_decide (b_row_key a = b_row_key b).

Record RowBinding := { rb_table : str; rb_table_id : str; rb_row_key : str }.
Definition field_named (r : RowBinding) (field_id : N) (field : str) : Binding :=
  {| b_table := rb_table r; b_table_id := rb_table_id r; b_field := field; b_field_id := field_id; b_row_key := rb_row_key r;
     b_hash := None; b_normalize := [] |}.
Definition binding_of (r : RowBinding) (field_id : N) : Binding := field_named r field_id [].
Definition with_normalize (b : Binding) (kinds : list TransformKind) : Binding :=
  {| b_table := b_table b; b_table_id := b_table_id b; b_field := b_field b; b_field_id := b_field_id b; b_row_key := b_row_key b;
     b_hash := b_hash b; b_normalize := kinds |}.
Definition with_hash (b : Binding) (algo : option HashAlgo) : Binding :=
  {| b_table := b_table b; b_table_id := b_table_id b; b_field := b_field b; b_field_id := b_field_id b; b_row_key := b_row_key b;
     b_hash := algo; b_normalize := b_normalize b |}.

(** What one protected field holds, as the row codec needs it. *)
Inductive Part :=
| PartNew (plain : bytes)
| PartClosed (text : str) (full parts : option str) (bound : option Binding)
| PartStored (text : str).

(** [Sealed<T>], [Hashed] and [SearchPrint]. *)
Inductive SealedState (T : Type) := SealedNew (v : T) | SealedClosed (text : str) (full parts : option str) (bound : option Binding).
Arguments SealedNew {T} v.
Arguments SealedClosed {T} text full parts bound.
Inductive SecretState := SecretNew (b : bytes) | SecretClosed (text : str) (bound : option Binding).
Inductive PrintState := PrintNew (b : bytes) | PrintStored (text : str) (bound : option Binding).

Definition not_written {A : Type} (what : String.string) : result A := Err (Validation (lit what)).
Arguments not_written {A} what%_string_scope.
Definition not_from_storage {A : Type} : result A :=
  fail "this value was not read from a storage; read the row from a table registered with `register_sealed`".

(** [serde]: a string field of a stored object, as an untagged struct reads it: named at most
    once, [None] when missing or null. *)
Definition named (k : str) (o : list (str * json)) : list json := (λ p, p.2) <$> filter (λ p, p.1 = k) o.
Definition opt_text (k : str) (o : list (str * json)) : option (option str) :=
  match named k o with
  | [] | [JNull] => Some None
  | [JString (Some s)] => Some (Some s)
  | _ => None
  end.

Section slots.
Context `{KeyLib, CipherLib, JsonText}.

Definition sealed_bind {T} (s : SealedState T) (b : Binding) : SealedState T :=
  match s with SealedClosed text full parts _ => SealedClosed text full parts (Some b) | _ => s end.
Definition secret_bind (s : SecretState) (b : Binding) : SecretState :=
  match s with SecretClosed text _ => SecretClosed text (Some b) | _ => s end.
Definition print_bind (s : PrintState) (b : Binding) : PrintState :=
  match s with PrintStored text _ => PrintStored text (Some b) | _ => s end.

Definition sealed_part {T} (to_vec : T → result bytes) (s : SealedState T) : result Part :=
  match s with
  | SealedNew v => rmap PartNew (to_vec v)
  | SealedClosed text full parts bound => Ok (PartClosed text full parts bound)
  end.
Definition secret_part (s : SecretState) : Part :=
  match s with SecretNew b => PartNew b | SecretClosed text bound => PartClosed text None None bound end.
Definition print_part (s : PrintState) : Part :=
  match s with PrintNew b => PartNew b | PrintStored text _ => PartStored text end.

(** An object as the map of [serde_json], in key order. *)
Definition map_of (o : list (str * json)) : list (str * json) := foldl (λ m p, btree_insert p.1 p.2 m) [] o.

(** [stored_form], also what [Serialize] gives for a closed [Sealed]. *)
Definition stored_form (sealed : str) (full parts : option str) : json :=
  match full, parts with
  | None, None => JString (Some sealed)
  | _, _ => JObject (map_of ([(lit "s", JString (Some sealed))]
      ++ match full with Some f => [(lit "f", JString (Some f))] | None => [] end
      ++ match parts with Some p => [(lit "p", JString (Some p))] | None => [] end))
  end.

(** [Serialize]: a new value is a placeholder while a row is being written, and refused
    everywhere else. *)
Definition serialize_new (active : bool) : result json :=
  if active then Ok JNull else Err (Serialization (lit "a new value can only be serialized by the storage that protects it")).
Definition sealed_serialize {T} (active : bool) (s : SealedState T) : result json :=
  match s with SealedClosed text full parts _ => Ok (stored_form text full parts) | SealedNew _ => serialize_new active end.
Definition secret_serialize (active : bool) (s : SecretState) : result json :=
  match s with SecretClosed text _ => Ok (JString (Some text)) | SecretNew _ => serialize_new active end.
Definition print_serialize (active : bool) (s : PrintState) : result json :=
  match s with PrintStored text _ => Ok (JString (Some text)) | PrintNew _ => serialize_new active end.

(** [Deserialize]: closed, and not yet bound to a place. *)
Definition sealed_deserialize {T} (j : json) : result (SealedState T) :=
  let bad_form := Err (Serialization (lit "a sealed field is stored as text")) in
  match j with
  | JString (Some text) => Ok (SealedClosed text None None None)
  | JObject o =>
      match named (lit "s") o, opt_text (lit "f") o, opt_text (lit "p") o with
      | [JString (Some s)], Some f, Some p => Ok (SealedClosed s f p None)
      | _, _, _ => bad_form
      end
  | _ => bad_form
  end.
Definition secret_deserialize (j : json) : result SecretState :=
  match j with JString (Some text) => Ok (SecretClosed text None) | _ => Err (Serialization (lit "a hashed field is stored as text")) end.
Definition print_deserialize (j : json) : result PrintState :=
  match j with JString (Some text) => Ok (PrintStored text None) | _ => Err (Serialization (lit "a fingerprint field is stored as text")) end.

(** ** Opening ([ReadGrant], [Verifier]) *)

Definition place_of (b : Binding) : Place := {| table_id := b_table_id b; field_id := b_field_id b; row_key := b_row_key b |}.

Definition tampered {E A : Type} (r : outcome E A) : result A := match r with inl a => Ok a | inr _ => Err DataTampered end.

Definition open_value (k : FieldKeys) (at_ : Binding) (text : str) : result (bytes * FieldKeys) :=
  let? '(cipher, k) := field_cipher k (b_table_id at_) (b_field_id at_) in
  let? plain := tampered (open_envelope cipher (place_of at_) text) in
  Ok (plain, k).

Definition sealed_open {T} (from_slice : bytes → result T) (k : FieldKeys) (s : SealedState T) : result (T * FieldKeys) :=
  match s with
  | SealedNew _ => fail "a value that has not been written yet cannot be opened"
  | SealedClosed _ _ _ None => not_from_storage
  | SealedClosed text _ _ (Some at_) =>
      let? '(plain, k) := open_value k at_ text in
      let? v := from_slice plain in
      Ok (v, k)
  end.

Definition verifier_verify (k : FieldKeys) (at_ : Binding) (stored : str) (secret : bytes) : result bool :=
  match b_hash at_ with
  | None => fail "this value is not a verification hash"
  | Some algo => verify_value k algo (place_of at_) secret stored
  end.
Definition hashed_verify (k : FieldKeys) (s : SecretState) (secret : bytes) : result bool :=
  match s with
  | SecretNew _ => fail "a value that has not been written yet cannot be checked"
  | SecretClosed _ None => not_from_storage
  | SecretClosed text (Some at_) => verifier_verify k at_ text secret
  end.

Definition matches_print (k : FieldKeys) (at_ : Binding) (stored candidate : str) : result bool :=
  let? print := print_value k (b_table_id at_) (b_field_id at_) (b_normalize at_) candidate in
  Ok (bool_decide (print = stored)).
Definition print_matches (k : FieldKeys) (s : PrintState) (candidate : str) : result bool :=
  match s with
  | PrintNew _ => fail "a value that has not been written yet cannot be matched"
  | PrintStored _ None => not_from_storage
  | PrintStored text (Some at_) => matches_print k at_ text candidate
  end.

(** ** Writing a row *)

(** [serde_json::from_slice::<String>]. *)
Definition json_text (b : bytes) : option str :=
  match json_read b with Some (JString (Some s)) => Some s | _ => None end.

Definition must_hold_text {A : Type} : result A := fail "a field with a fingerprint must hold text".

Definition full_print_of_json (k : FieldKeys) (table_id : str) (spec : SealedSpec) (plain : bytes) : result str :=
  match json_text plain with
  | None => must_hold_text
  | Some text => print_value k table_id (sp_id spec) (sp_normalize spec) text
  end.
Definition parts_of_json (k : FieldKeys) (table_id : str) (spec : SealedSpec) (plain : bytes) : result str :=
  match json_text plain with
  | None => must_hold_text
  | Some text => rmap join_tags (part_tags k table_id (sp_id spec) (sp_normalize spec) (sp_window spec) (sp_bits spec) text)
  end.

Definition moved {A : Type} : result A := fail "a protected value can only be written back to the table, field and row it was read from".
Definition no_print {A : Type} : result A := fail "a field declared with a fingerprint holds sealed text without one; nothing was saved".

(** What is stored for one field; [random] is what the random source answers for it. *)
Definition stored_part (k : FieldKeys) (table : str) (key : str) (spec : SealedSpec) (random : outcome CryptoError bytes) (part : Part)
    : result (json * FieldKeys) :=
  let place := {| table_id := table; field_id := sp_id spec; row_key := key |} in
  match part with
  | PartNew plain =>
      if is_sealing (sp_method spec) then
        let? full := if has_stored_print (sp_method spec) then rmap Some (full_print_of_json k table spec plain) else Ok None in
        let? parts := if has_parts (sp_method spec) then rmap Some (parts_of_json k table spec plain) else Ok None in
        let? '(cipher, k) := field_cipher k table (sp_id spec) in
        let? sealed := fail_on "a protected value could not be sealed" (seal_envelope cipher random place plain) in
        Ok (stored_form sealed full parts, k)
      else
        match sp_method spec with
        | HashMethod =>
            match sp_hash spec with
            | None => fail "a hashed field has no hash setting"
            | Some algo => let? text := hash_value k algo place random plain in Ok (JString (Some text), k)
            end
        | SearchPrint => let? text := print_value k table (sp_id spec) (sp_normalize spec) plain in Ok (JString (Some text), k)
        | _ => fail "fingerprint fields cannot be written with this version"
        end
  | PartClosed text full parts bound =>
      if negb match bound with
              | Some b => binding_eqb b (binding_of {| rb_table := []; rb_table_id := table; rb_row_key := key |} (sp_id spec))
              | None => false
              end then moved
      else
        match has_stored_print (sp_method spec), has_parts (sp_method spec), full, parts with
        | true, false, Some full, None => Ok (stored_form text (Some full) None, k)
        | true, true, Some full, Some parts => Ok (stored_form text (Some full) (Some parts), k)
        | true, _, _, _ => no_print
        | false, _, None, None => Ok (JString (Some text), k)
        | false, _, _, _ => moved
        end
  | PartStored text =>
      if bool_decide (sp_method spec = SearchPrint) then Ok (JString (Some text), k) else moved
  end.

Fixpoint seal_parts (k : FieldKeys) (table key : str) (randoms : list (outcome CryptoError bytes)) (specs : list SealedSpec) (parts : list Part)
    (object : list (str * json)) : result (list (str * json) * FieldKeys) :=
  match specs, parts with
  | spec :: specs', part :: parts' =>
      let? '(stored, k) := stored_part k table key spec (default (inr Random) (head randoms)) part in
      seal_parts k table key (tail randoms) specs' parts' (btree_insert (sp_key spec) stored object)
  | _, _ => Ok (object, k)
  end.

Definition some_text (j : option json) : bool := match j with Some (JString (Some t)) => negb (bool_decide (t = [])) | _ => false end.

(** Every protected field must now be stored text. *)
Definition sealed_ok (object : list (str * json)) (spec : SealedSpec) : bool :=
  let stored := find_key (sp_key spec) object in
  if has_stored_print (sp_method spec) then
    match stored with
    | Some (JObject o) => some_text (find_key (lit "s") o) && some_text (find_key (lit "f") o)
        && (negb (has_parts (sp_method spec)) || match find_key (lit "p") o with Some (JString _) => true | _ => false end)
    | _ => false
    end
  else some_text stored.
Definition check_sealed (object : list (str * json)) (specs : list SealedSpec) : result () :=
  if forallb (sealed_ok object) specs then Ok () else fail "a protected field was not sealed; nothing was saved".

(** [seal_row]: the parts and the JSON value of the entity come from its serde and derived code. *)
Definition seal_row (k : FieldKeys) (table : str) (specs : list SealedSpec) (key : str) (randoms : list (outcome CryptoError bytes))
    (parts : result (list Part)) (value : result json) : result (bytes * FieldKeys) :=
  let? parts := parts in
  if negb (length parts =? length specs)%nat then fail "the protected fields of the entity do not match its table" else
  let? value := value in
  match value with
  | JObject object =>
      let? '(object, k) := seal_parts k table key randoms specs parts object in
      check? check_sealed object specs in
      let? b := ok_or (json_write (JObject object)) (Serialization (lit "row")) in
      Ok (b, k)
  | _ => fail "a row with protected fields must be a JSON object"
  end.
End slots.
