(* ===== verification/FieldSearch.v ===== *)
(** * Searching protected fields ([field_crypto/search.rs], [confirm.rs], [scan.rs])

    A handle turns what is looked for into fingerprints, and a condition on a protected field is
    accepted only when a handle made it.  A search by a piece of a value asks for the rows that
    have all its parts, and, with the read key, opens them and keeps those that contain the
    text.  The pages of the query of a domain, and the look at the sealed text of a row that the
    derived code takes, are arguments; what is reported to the event sink is left out. *)
From S2P Require Import Prelude Order Fields Eval B64 Cipher Index Keys Sealed Protected Slots.
Local Open Scope N_scope.

Definition PRINT_KEY : str := lit "f".
Definition PARTS_KEY : str := lit "p".
Definition MAX_QUERY_PARTS : nat := 64.
Definition CONFIRM_CHUNK : nat := 256.
Definition SCAN_CHUNK : nat := 256.

(** Where the fingerprint of a whole value is in the stored row. *)
Definition steps_for (m : Method) (key : str) : option (list Step) :=
  match m with
  | SearchPrint => Some [Key key]
  | m => if has_stored_print m then Some [Key key; Key PRINT_KEY] else None
  end.
Definition print_steps (spec : SealedSpec) : option (list Step) := steps_for (sp_method spec) (sp_key spec).
Definition parts_steps (spec : SealedSpec) : option (list Step) :=
  if has_parts (sp_method spec) then Some [Key (sp_key spec); Key PARTS_KEY] else None.

(** ** The check of a query's conditions *)

Definition first_spec (specs : list SealedSpec) (p : Path) : option SealedSpec :=
  match p_steps p with Key key :: _ => snd <$> list_find (λ s, sp_key s = key) specs | _ => None end.

Definition DENIED : str := lit "is a protected field: it cannot be used to filter, order, group or aggregate".
(** A name between back-quotes. *)
Definition quoted (name : str) : str := lit "`" ++ name ++ lit "`".
Definition refuse (spec : SealedSpec) : result () := Err (Validation (quoted (sp_key spec) ++ lit " " ++ DENIED)).

Definition issued (printed : list str) (values : list Value) : bool :=
  negb (bool_decide (values = [])) && forallb (λ v, match v with VString s => bool_decide (s ∈ printed) | _ => false end) values.

Fixpoint check_walk (specs : list SealedSpec) (printed : list str) (e : Expr) : result () :=
  match e with
  | ECompare path op values =>
      match first_spec specs path with
      | None => Ok ()
      | Some spec =>
          let on_print := bool_decide (print_steps spec = Some (p_steps path)) && bool_decide (p_transforms path = []) in
          let on_parts := bool_decide (parts_steps spec = Some (p_steps path)) && bool_decide (p_transforms path = []) in
          if on_print && match op with CEq | CIn => true | _ => false end && issued printed values then Ok ()
          else if on_parts && match op with CParts => true | _ => false end && issued printed values && (length values =? 1)%nat then Ok ()
          else if on_print || on_parts
          then Err (Validation (quoted (sp_key spec) ++ lit ": a condition on this field must be built with its handle and a search grant"))
          else refuse spec
      end
  | EPresence path _ | EElemMatch path _ =>
      match first_spec specs path with Some spec => refuse spec | None => Ok () end
  | EAnd a b | EOr a b => check? check_walk specs printed a in check_walk specs printed b
  | ENot a => check_walk specs printed a
  | ENever | EInvalid _ => Ok ()
  end.
Definition check_filter (specs : list SealedSpec) (e : Expr) (printed : list str) : result () := check_walk specs printed e.

(** ** Handles *)

Record SearchGrant := { g_keys : FieldKeys; g_table : str; g_table_id : str }.
Definition search_grant_new (k : FieldKeys) (table table_id : str) : result SearchGrant :=
  if negb (has_search k) then fail "this program holds no search key; fingerprints can be neither written nor matched"
  else Ok {| g_keys := k; g_table := table; g_table_id := table_id |}.

Record PrintHandle := {
  ph_key : str; ph_field_id : N; ph_method : Method; ph_normalize : list TransformKind; ph_window : N; ph_bits : N }.

Definition with_printed (e : Expr) (printed : list str) : Predicate := {| expression := e; printed := printed |}.

(** Confirmed rows, or candidates of a program without the read key. *)
Inductive PartResults (R : Type) := Confirmed (rows : list R) | Candidates (rows : list R).
Arguments Confirmed {R} rows.
Arguments Candidates {R} rows.
Definition is_confirmed {R} (r : PartResults R) : bool := match r with Confirmed _ => true | Candidates _ => false end.
Definition into_confirmed {R} (r : PartResults R) : result (list R) :=
  match r with
  | Confirmed rows => Ok rows
  | Candidates _ => fail "this program holds no read key: the rows are candidates, and cannot be confirmed"
  end.

Section search.
Context `{KeyLib, CipherLib, JsonText}.
(** [ClError::to_string]. *)
Context (why : ClError → str).

(** A double quote. *)
Definition quote : str := [byte_of_N 34].
Definition invalid_search (message : str) : Predicate := with_printed (EInvalid message) [].

Definition print_of (g : SearchGrant) (h : PrintHandle) (value : str) : result str :=
  print_value (g_keys g) (g_table_id g) (ph_field_id h) (ph_normalize h) value.

Definition handle_path (h : PrintHandle) : Path :=
  {| p_steps := default [] (steps_for (ph_method h) (ph_key h)); p_kind := Auto; p_transforms := [] |}.
Definition print_field (h : PrintHandle) : Path := handle_path h.

Definition condition (h : PrintHandle) (op : Compare) (tags : list str) : Predicate :=
  if bool_decide (tags = []) then with_printed ENever []
  else with_printed (ECompare (handle_path h) op (VString <$> tags)) tags.

Definition print_eq (h : PrintHandle) (value : str) (g : SearchGrant) : Predicate :=
  match print_of g h value with
  | Ok tag => condition h CEq [tag]
  | Err e => invalid_search (why e)
  end.
Definition print_in (h : PrintHandle) (values : list str) (g : SearchGrant) : Predicate :=
  match traverse (print_of g h) values with
  | Ok tags => condition h CIn tags
  | Err e => invalid_search (why e)
  end.

Definition part_candidates (h : PrintHandle) (text : str) (g : SearchGrant) : Predicate :=
  if negb (has_parts (ph_method h)) then invalid_search (quoted (ph_key h) ++ lit " has no fingerprints of parts: declare it with `print = " ++ quote ++ lit "parts" ++ quote ++ lit "`")
  else if normalized_len (ph_normalize h) text <? ph_window h then invalid_search (quoted (ph_key h) ++ lit " is searched by parts of " ++ dec (ph_window h) ++ lit " characters, and the text searched for has "
      ++ dec (normalized_len (ph_normalize h) text) ++ lit ": a shorter text needs the slow scan, with a read grant")
  else
    match part_tags (g_keys g) (g_table_id g) (ph_field_id h) (ph_normalize h) (ph_window h) (ph_bits h) text with
    | Err e => invalid_search (why e)
    | Ok tags =>
        let joined := join_tags (take MAX_QUERY_PARTS tags) in
        with_printed (ECompare {| p_steps := [Key (ph_key h); Key PARTS_KEY]; p_kind := Auto; p_transforms := [] |} CParts [VString joined]) [joined]
    end.

(** ** The confirmed search *)

Record ClosedView := { cv_text : str; cv_at : Binding }.

Section pages.
Context {R C : Type} (view : R → option ClosedView).
(** A page of the query: its rows and the cursor of the next one. *)
Context (page : option C → result (list R * option C)).

(** Without the read key. *)
Fixpoint candidates_loop (fuel : nat) (limit : option nat) (cursor : option C) (rows : list R) : result (PartResults R) :=
  match fuel with
  | O => Err FuelExhausted
  | S fuel' =>
      let? '(items, next) := page cursor in
      let rows := rows ++ items in
      if match limit with Some n => (n <=? length rows)%nat | None => false end
      then Ok (Candidates (take (default (length rows) limit) rows))
      else match next with Some c => candidates_loop fuel' limit (Some c) rows | None => Ok (Candidates rows) end
  end.

(** Whether a candidate contains the text. *)
Definition confirm (g : SearchGrant) (h : PrintHandle) (cipher : Aead) (needle : str) (row : R) : result bool :=
  match view row with
  | None => fail "a candidate row was not read from a table registered with `register_sealed`"
  | Some v =>
      if negb (bool_decide (b_table_id (cv_at v) = g_table_id g)) || negb (b_field_id (cv_at v) =? ph_field_id h) then Err DataTampered else
      let? plain := tampered (open_envelope cipher (place_of (cv_at v)) (cv_text v)) in
      match json_text plain with
      | None => fail "a field searched by parts must hold text"
      | Some value => Ok (contains (normalize value (ph_normalize h)) needle)
      end
  end.

(** The rows of one page; [true] when the limit was reached. *)
Fixpoint confirm_items (test : R → result bool) (limit : option nat) (items rows : list R) : result (list R * bool) :=
  match items with
  | [] => Ok (rows, false)
  | row :: items' =>
      let? hit := test row in
      if hit then
        let rows := rows ++ [row] in
        if match limit with Some n => (n <=? length rows)%nat | None => false end then Ok (rows, true)
        else confirm_items test limit items' rows
      else confirm_items test limit items' rows
  end.

Fixpoint confirm_loop (test : R → result bool) (fuel : nat) (limit : option nat) (cursor : option C) (rows : list R) : result (list R) :=
  match fuel with
  | O => Err FuelExhausted
  | S fuel' =>
      let? '(items, next) := page cursor in
      let? '(rows, done) := confirm_items test limit items rows in
      if done then Ok rows
      else match next with Some c => confirm_loop test fuel' limit (Some c) rows | None => Ok rows end
  end.

(** ** The slow scan *)

(** What [walk] opens of a row; the cipher is that of the row's table. *)
Definition scan_value {T} (from_slice : bytes → result T) (k : FieldKeys) (h : PrintHandle) (row : R) : result T :=
  match view row with
  | None => fail "a row was not read from a table registered with `register_sealed`"
  | Some v =>
      if negb (b_field_id (cv_at v) =? ph_field_id h) then Err DataTampered else
      let? '(cipher, _) := field_cipher k (b_table_id (cv_at v)) (ph_field_id h) in
      let? plain := tampered (open_envelope cipher (place_of (cv_at v)) (cv_text v)) in
      match from_slice plain with
      | Ok v => Ok v
      | Err _ => fail "the field does not hold a value of the type the scan asks for"
      end
  end.

(** [SealedScan::run]: like the confirmation, with the caller's test; the limit is looked at after
    every row, kept or not. *)
Fixpoint scan_items (test : R → result bool) (limit : option nat) (items rows : list R) : result (list R * bool) :=
  match items with
  | [] => Ok (rows, false)
  | row :: items' =>
      let? hit := test row in
      let rows := if hit then rows ++ [row] else rows in
      if match limit with Some n => (n <=? length rows)%nat | None => false end then Ok (rows, true)
      else scan_items test limit items' rows
  end.
Fixpoint scan_loop (test : R → result bool) (fuel : nat) (limit : option nat) (cursor : option C) (rows : list R) : result (list R) :=
  match fuel with
  | O => Err FuelExhausted
  | S fuel' =>
      let? '(items, next) := page cursor in
      let? '(rows, done) := scan_items test limit items rows in
      if done then Ok rows
      else match next with Some c => scan_loop test fuel' limit (Some c) rows | None => Ok rows end
  end.
Definition scan_run {T} (from_slice : bytes → result T) (fuel : nat) (k : FieldKeys) (h : PrintHandle) (keep : T → bool) (limit : option nat)
    : result (list R) :=
  scan_loop (λ row, rmap keep (scan_value from_slice k h row)) fuel limit None [].
End pages.

(** ** [PartSearch]

    [report_rows], which only puts row keys in the event of the search, is left out with the
    event. *)
Record PartSearch := {
  ps_handle : PrintHandle; ps_text : str; ps_filter : option Predicate; ps_limit : option nat }.

Definition part_search (h : PrintHandle) (text : str) : PartSearch :=
  {| ps_handle := h; ps_text := text; ps_filter := None; ps_limit := None |}.
Definition part_filter (p : Predicate) (s : PartSearch) : PartSearch :=
  {| ps_handle := ps_handle s; ps_text := ps_text s;
     ps_filter := Some match ps_filter s with Some old => pred_and old p | None => p end; ps_limit := ps_limit s |}.
Definition part_limit (n : nat) (s : PartSearch) : PartSearch :=
  {| ps_handle := ps_handle s; ps_text := ps_text s; ps_filter := ps_filter s; ps_limit := Some n |}.

(** The predicate [run] queries for. *)
Definition part_predicate (s : PartSearch) (g : SearchGrant) : Predicate :=
  let p := part_candidates (ps_handle s) (ps_text s) g in
  match ps_filter s with Some extra => pred_and p extra | None => p end.

(** [PartSearch::run]; [domain] gives the pages of the query with a predicate. *)
Definition part_search_run {R C} (view : R → option ClosedView) (domain : Predicate → option C → result (list R * option C))
    (fuel : nat) (g : SearchGrant) (s : PartSearch) : result (PartResults R) :=
  let h := ps_handle s in
  let page := domain (part_predicate s g) in
  match field_cipher (g_keys g) (g_table_id g) (ph_field_id h) with
  | Err _ => candidates_loop page fuel (ps_limit s) None []
  | Ok (cipher, _) =>
      rmap Confirmed (confirm_loop page (confirm view g h cipher (normalize (ps_text s) (ph_normalize h))) fuel (ps_limit s) None [])
  end.
End search.
