(* ===== verification/FieldSpec.v ===== *)
(** * Lemmas about protected fields

    Texts stay texts under a normalisation; the windows of a text are among those of a text that
    contains it; the tokens of joined tags are the tags; what writing a row and opening a value
    have to do with each other.  [TagText] is what the code relies on of Unicode: hexadecimal
    digits are letters or digits without an upper case, a space is neither, and lower case is
    text. *)
From S2P Require Import Prelude Order Fields OrderedCodec Eval B64 Cipher Index IndexSpec PathSpec Keys Sealed SealedProps Protected Slots.
Local Open Scope N_scope.

(** ** Texts *)

(** A Unicode scalar value. *)
Definition scalar_char (c : N) : Prop := c < 55296 ∨ 57344 ≤ c < 1114112.

Lemma in_range_spec lo hi b : in_range lo hi b = true ↔ lo <= byte_to_N b <= hi.
Proof. unfold in_range. by rewrite andb_true_iff, !N.leb_le. Qed.

Lemma in_range_no lo hi b : in_range lo hi b = false ↔ ¬ (lo <= byte_to_N b <= hi).
Proof. rewrite <-in_range_spec. by destruct (in_range lo hi b). Qed.

Ltac ranges := repeat match goal with
  | H : in_range _ _ _ = true |- _ => apply in_range_spec in H
  | H : in_range _ _ _ = false |- _ => apply in_range_no in H
  | H : cont _ = true |- _ => unfold cont in H
  end.

Ltac char_lia := zify; Z.to_euclidean_division_equations; lia.

(** What the bytes of a character say. *)
Lemma scalar_two a b : in_range 194 223 a = true → cont b = true → scalar_char (byte_to_N a mod 32 * 64 + Fields.low6 b).
Proof. intros. ranges. unfold scalar_char, Fields.low6. left. char_lia. Qed.

Lemma scalar_three a b c : in_range 224 239 a = true → cont c = true →
  (if in_range 224 224 a then in_range 160 191 b else if in_range 237 237 a then in_range 128 159 b else in_range 225 239 a && cont b) = true →
  scalar_char (byte_to_N a mod 16 * 4096 + Fields.low6 b * 64 + Fields.low6 c).
Proof.
  intros Ha Hc Hb. unfold scalar_char, Fields.low6.
  destruct (in_range 224 224 a) eqn:E1; [|destruct (in_range 237 237 a) eqn:E2; [|apply andb_true_iff in Hb as [_ Hb]]]; ranges; char_lia.
Qed.

Lemma scalar_four a b c d : in_range 0 239 a = false → cont c = true → cont d = true →
  (if in_range 240 240 a then in_range 144 191 b else if in_range 244 244 a then in_range 128 143 b else in_range 241 243 a && cont b) = true →
  scalar_char (byte_to_N a mod 8 * 262144 + Fields.low6 b * 4096 + Fields.low6 c * 64 + Fields.low6 d).
Proof.
  intros Ha Hc Hd Hb. unfold scalar_char, Fields.low6. right.
  destruct (in_range 240 240 a) eqn:E1; [|destruct (in_range 244 244 a) eqn:E2; [|apply andb_true_iff in Hb as [Hb' Hb]]]; ranges; char_lia.
Qed.

Lemma chars_scalar l : utf8_valid l = true → Forall scalar_char (chars l).
Proof.
  remember (length l) as n eqn:En. revert l En. induction n as [n IH] using lt_wf_ind. intros l En Hv.
  assert (Hrec : ∀ r, (length r < length l)%nat → utf8_valid r = true → Forall scalar_char (chars r)) by (intros r Hr; apply (IH (length r)); [lia|done]).
  clear IH En. destruct l as [|a l1]; [constructor|]. cbn [utf8_valid chars] in *.
  destruct (in_range 0 127 a) eqn:Ra.
  { destruct (N.ltb_spec (byte_to_N a) 128); [|ranges; lia]. constructor; [left; lia|apply Hrec; [simpl; lia|done]]. }
  destruct (N.ltb_spec (byte_to_N a) 128); [ranges; lia|]. destruct l1 as [|b l2]; [done|].
  destruct (in_range 194 223 a) eqn:R2.
  { apply andb_true_iff in Hv as [Hb Hv]. destruct (N.ltb_spec (byte_to_N a) 224); [|ranges; lia].
    constructor; [by apply scalar_two|apply Hrec; [simpl; lia|done]]. }
  destruct l2 as [|c l3]; [done|]. destruct (in_range 224 239 a) eqn:R3.
  { apply andb_true_iff in Hv as [[Hb Hc]%andb_true_iff Hv]. destruct (N.ltb_spec (byte_to_N a) 224); [ranges; lia|].
    destruct (N.ltb_spec (byte_to_N a) 240); [|ranges; lia]. constructor; [by apply scalar_three|apply Hrec; [simpl; lia|done]]. }
  destruct l3 as [|d l4]; [done|]. apply andb_true_iff in Hv as [[[Hb Hc]%andb_true_iff Hd]%andb_true_iff Hv].
  assert (Ha : in_range 0 239 a = false).
  { apply in_range_no. intros ?. destruct (in_range 240 240 a) eqn:E1; [|destruct (in_range 244 244 a) eqn:E2; [|apply andb_true_iff in Hb as [Hb' _]]]; ranges; lia. }
  destruct (N.ltb_spec (byte_to_N a) 224); [ranges; lia|]. destruct (N.ltb_spec (byte_to_N a) 240); [ranges; lia|].
  constructor; [by apply scalar_four|apply Hrec; [simpl; lia|done]].
Qed.

Lemma in_range_of_N lo hi x : x < 256 → in_range lo hi (byte_of_N x) = (lo <=? x) && (x <=? hi).
Proof. intros Hx. unfold in_range. by rewrite byte_to_of_N, N.mod_small. Qed.

Ltac decide_ranges := repeat match goal with
  | |- context [in_range _ _ (byte_of_N ?x)] => rewrite (in_range_of_N _ _ x) by lia
  | |- context [?x <=? ?y] => first [rewrite (proj2 (N.leb_le x y)) by lia | rewrite (proj2 (N.leb_gt x y)) by lia]
  end.

Lemma of_char_valid c r : scalar_char c → utf8_valid (of_char c ++ r) = utf8_valid r.
Proof.
  intros Hc. unfold of_char, scalar_char in *.
  destruct (N.ltb_spec c 128); [|destruct (N.ltb_spec c 2048); [|destruct (N.ltb_spec c 65536)]]; cbn [app utf8_valid]; unfold cont.
  - by decide_ranges.
  - assert (c / 64 < 32 ∧ 2 <= c / 64 ∧ c mod 64 < 64) as (? & ? & ?) by char_lia.
    generalize dependent (c / 64). generalize dependent (c mod 64). intros. by decide_ranges.
  - assert (c / 4096 < 16 ∧ c / 64 mod 64 < 64 ∧ c mod 64 < 64 ∧ (c / 4096 = 0 → 32 <= c / 64 mod 64) ∧ (c / 4096 = 13 → c / 64 mod 64 < 32))
      as (? & ? & ? & ? & ?) by char_lia.
    generalize dependent (c / 64 mod 64). generalize dependent (c / 4096). generalize dependent (c mod 64). intros x ? q ? y ? ? ?.
    destruct (N.eq_dec q 0); [|destruct (N.lt_trichotomy q 13) as [|[|]]]; by decide_ranges.
  - assert (c / 262144 < 5 ∧ c / 4096 mod 64 < 64 ∧ c / 64 mod 64 < 64 ∧ c mod 64 < 64 ∧ (c / 262144 = 0 → 16 <= c / 4096 mod 64) ∧
      (c / 262144 = 4 → c / 4096 mod 64 < 16)) as (? & ? & ? & ? & ? & ?) by char_lia.
    generalize dependent (c / 4096 mod 64). generalize dependent (c / 262144). generalize dependent (c / 64 mod 64). generalize dependent (c mod 64).
    intros x ? y ? q ? z ? ? ?. destruct (N.eq_dec q 0); [|destruct (N.eq_dec q 4)]; by decide_ranges.
Qed.

Lemma of_chars_valid cs : Forall scalar_char cs → utf8_valid (of_chars cs) = true.
Proof. unfold of_chars. induction 1 as [|c cs Hc Hcs IH]; [done|]. cbn [mbind list_bind]. by rewrite of_char_valid. Qed.

Class TagText `{TextLib} := {
  hex_alphanumeric : ∀ n, n < 16 → is_alphanumeric (byte_to_N (hex_digit n)) = true;
  space_separates : is_alphanumeric 32 = false;
  hex_lowercase : ∀ s, Forall (λ b, ∃ n, n < 16 ∧ b = hex_digit n) s → to_lowercase s = s;
  lowercase_valid : ∀ s, utf8_valid s = true → utf8_valid (to_lowercase s) = true;
}.

Section text.
Context `{TextLib, !TagText}.

Lemma drop_while_sub {A} (f : A → bool) (P : A → Prop) l : Forall P l → Forall P (drop_while f l).
Proof. induction 1 as [|x l Hx Hl IH]; [constructor|]. simpl. destruct (f x); [done|by constructor]. Qed.

Lemma normalize_char_scalar c d : scalar_char c → normalize_arabic_char c = Some d → scalar_char d.
Proof.
  unfold normalize_arabic_char. intros Hc. repeat case_match; intros [= <-]; try done; left; try done;
    repeat match goal with H : (_ && _) = true |- _ => apply andb_true_iff in H as [?%N.leb_le ?%N.leb_le] end; lia.
Qed.

Lemma transform_valid s t : utf8_valid s = true → utf8_valid (transform s t) = true.
Proof using All.
  intros Hs. pose proof (chars_scalar s Hs) as Hc. destruct t; cbn [transform].
  - apply of_chars_valid. unfold trim_chars. apply Forall_rev, drop_while_sub, Forall_rev, drop_while_sub, Hc.
  - by apply lowercase_valid.
  - apply of_chars_valid. clear Hs. induction Hc as [|c l Hc Hl IH]; [constructor|]. cbn [omap list_omap].
    destruct (normalize_arabic_char c) eqn:E; [|done]. constructor; [by eapply normalize_char_scalar|done].
Qed.

Lemma normalize_valid kinds s : utf8_valid s = true → utf8_valid (normalize s kinds) = true.
Proof using All. unfold normalize. revert s. induction kinds as [|k ks IH]; intros s Hs; [done|]. simpl. apply IH. by apply transform_valid. Qed.
End text.

(** ** Windows *)

Lemma elem_of_windows {A} n (l w : list A) : (0 < n)%nat → w ∈ windows n l ↔ length w = n ∧ ∃ u v, l = u ++ w ++ v.
Proof.
  intros Hn. induction l as [|x l IH]; cbn [windows].
  - rewrite elem_of_nil. split; [done|]. intros (Hl & u & v & E). destruct u, w; try done. simpl in Hl. lia.
  - destruct (Nat.leb_spec n (length (x :: l))) as [Hle|Hgt].
    + rewrite elem_of_cons, IH. split.
      * intros [->|(Hl & u & v & ->)].
        -- split; [rewrite length_take; lia|]. exists [], (drop n (x :: l)). cbn [app]. by rewrite take_drop.
        -- split; [done|]. by exists (x :: u), v.
      * intros (Hl & [|y u] & v & E).
        -- left. cbn [app] in E. rewrite E, <-Hl. by rewrite take_app_length.
        -- right. split; [done|]. injection E as <- ->. by exists u, v.
    + rewrite elem_of_nil. split; [done|]. intros (Hl & u & v & E). apply (f_equal length) in E. rewrite !length_app in E. lia.
Qed.

Lemma windows_infix {A} n (cu l cv w : list A) : (0 < n)%nat → w ∈ windows n l → w ∈ windows n (cu ++ l ++ cv).
Proof.
  intros Hn. rewrite !elem_of_windows by done. intros [Hl (u & v & ->)]. split; [done|]. exists (cu ++ u), (v ++ cv). by rewrite <-!app_assoc.
Qed.

Lemma windows_some {A} n (l : list A) : (n <= length l)%nat → l ≠ [] → windows n l ≠ [].
Proof. destruct l as [|x l]; [done|]. intros Hl _. cbn [windows]. destruct (Nat.leb_spec n (length (x :: l))); [done|lia]. Qed.

Lemma contains_windows n a b w : (0 < n)%nat → utf8_valid a = true → utf8_valid b = true → contains a b = true →
  w ∈ windows n (chars b) → w ∈ windows n (chars a).
Proof.
  intros Hn Ha Hb (u & v & ->)%contains_split Hw. destruct (decide (b = [])) as [->|Hne]; [by apply elem_of_nil in Hw|].
  destruct (chars_infix u b v Ha Hb Hne) as [cu ->]. by apply windows_infix.
Qed.

(** ** Tags *)

Definition hex_text (s : str) : Prop := Forall (λ b, ∃ n, n < 16 ∧ b = hex_digit n) s.

Lemma hex_hex_text b : hex_text (hex b).
Proof.
  unfold hex_text, hex. induction b as [|x b IH]; [constructor|]. rewrite bind_cons. cbn [app]. pose proof (byte_to_N_bound x).
  constructor; [eexists; split; [|done]; apply N.Div0.div_lt_upper_bound; lia|].
  constructor; [eexists; split; [|done]; apply N.mod_lt; lia|done].
Qed.

Lemma hex_ascii n : n < 16 → byte_to_N (hex_digit n) < 128.
Proof. intros Hn. unfold hex_digit. rewrite byte_to_of_N. destruct (N.ltb_spec n 10); rewrite N.mod_small; lia. Qed.

Lemma hex_text_chars t r : hex_text t → chars (t ++ r) = (byte_to_N <$> t) ++ chars r.
Proof.
  induction 1 as [|b t (n & Hn & ->) Ht IH]; [done|]. cbn [app chars fmap list_fmap]. pose proof (hex_ascii n Hn).
  destruct (N.ltb_spec (byte_to_N (hex_digit n)) 128); [|lia]. by rewrite IH.
Qed.

Lemma hex_text_back t : hex_text t → of_chars (byte_to_N <$> t) = t.
Proof.
  unfold of_chars. induction 1 as [|b t (n & Hn & ->) Ht IH]; [done|]. rewrite fmap_cons, bind_cons, IH. unfold of_char. pose proof (hex_ascii n Hn).
  destruct (N.ltb_spec (byte_to_N (hex_digit n)) 128); [|lia]. by rewrite byte_of_to_N.
Qed.

Section tokens.
Context `{TextLib, !TagText}.

Lemma split_hex t : hex_text t → ∀ cs cur, split_tokens ((byte_to_N <$> t) ++ cs) cur = split_tokens cs (cur ++ (byte_to_N <$> t)).
Proof using All.
  induction 1 as [|b t (n & Hn & ->) Ht IH]; intros cs cur; cbn [fmap list_fmap app]; [by rewrite app_nil_r|].
  cbn [split_tokens]. rewrite hex_alphanumeric by done. rewrite IH. by rewrite <-app_assoc.
Qed.

Lemma tokens_join tags : Forall (λ t, hex_text t ∧ t ≠ []) tags → tokens (join_tags tags) = tags.
Proof using All.
  unfold tokens. assert (Hone : ∀ t, hex_text t → t ≠ [] → to_lowercase (of_chars (byte_to_N <$> t)) = t ∧ byte_to_N <$> t ≠ []).
  { intros t Ht Hne. rewrite hex_text_back by done. split; [by apply hex_lowercase|by destruct t]. }
  induction 1 as [|t tags [Ht Hne] Htags IH]; [done|]. destruct (Hone t Ht Hne) as [Hlow Hcs]. destruct tags as [|t' tags].
  - cbn [join_tags]. rewrite <-(app_nil_r t), hex_text_chars, split_hex by done. cbn [chars split_tokens app].
    rewrite filter_cons_True by done. cbn. by rewrite Hlow, app_nil_r.
  - cbn [join_tags]. cbn [join_tags] in IH. rewrite hex_text_chars, split_hex by done.
    change (chars (lit " " ++ ?x)) with (32 :: chars x). cbn [split_tokens]. rewrite space_separates. cbn [app].
    rewrite filter_cons_True by done. rewrite fmap_cons, Hlow. f_equal. exact IH.
Qed.
End tokens.

(** ** Objects *)

(** The keys of a [serde_json] map ascend. *)
Definition key_sorted {A} (o : list (str * A)) : Prop := StronglySorted key_lt o.*1.

Lemma find_key_cons k k0 v (o : list (str * json)) :
  find_key k ((k0, v) :: o) = match find_key k o with Some x => Some x | None => if decide (k0 = k) then Some v else None end.
Proof.
  unfold find_key. cbn [fold_left]. cbn [fst snd]. generalize (if decide (k0 = k) then Some v else None) as acc. induction o as [|[k1 v1] o IH]; intros acc; [done|].
  cbn [fold_left fst snd]. destruct (decide (k1 = k)); [|apply IH]. rewrite (IH (Some v1)).
  by destruct (fold_left (λ found p, if decide (p.1 = k) then Some p.2 else found) o None).
Qed.

Lemma find_key_absent k (o : list (str * json)) : k ∉ o.*1 → find_key k o = None.
Proof.
  induction o as [|[k0 v] o IH]; intros Hk; [done|]. rewrite find_key_cons. cbn in Hk. apply not_elem_of_cons in Hk as [Hne Hk].
  rewrite IH by done. by rewrite decide_False by congruence.
Qed.

Lemma btree_insert_keys {A} k (v : A) o x : x ∈ (btree_insert k v o).*1 ↔ x = k ∨ x ∈ o.*1.
Proof.
  induction o as [|[k0 v0] o IH]; cbn [btree_insert fmap list_fmap fst]; [set_solver|].
  destruct (cmp k k0) eqn:E; [apply cmp_eq in E as ->|..]; cbn [fmap list_fmap fst]; set_solver.
Qed.

Lemma btree_insert_sorted {A} k (v : A) o : key_sorted o → key_sorted (btree_insert k v o).
Proof.
  unfold key_sorted. induction o as [|[k0 v0] o IH]; intros Hs; cbn [btree_insert fmap list_fmap fst]; [by repeat constructor|].
  cbn [fmap list_fmap fst] in Hs. apply StronglySorted_inv in Hs as [Hs Hf]. destruct (cmp k k0) eqn:E; cbn [fmap list_fmap fst].
  - apply cmp_eq in E as ->. by constructor.
  - constructor; [by constructor|]. constructor; [done|]. eapply Forall_impl; [exact Hf|]. intros x Hx. by eapply cmp_trans.
  - constructor; [by apply IH|]. apply Forall_forall. intros x [->|Hx]%btree_insert_keys; [by apply cmp_gt_lt|].
    rewrite Forall_forall in Hf. by apply Hf.
Qed.

Lemma sorted_head {A} k0 (v0 : A) o k : key_sorted ((k0, v0) :: o) → ¬ key_lt k0 k → k ∉ o.*1.
Proof. intros [_ Hf]%StronglySorted_inv Hk Hin. rewrite Forall_forall in Hf. by apply Hk, Hf. Qed.

Lemma find_key_insert k v (o : list (str * json)) k' : key_sorted o →
  find_key k' (btree_insert k v o) = if decide (k = k') then Some v else find_key k' o.
Proof.
  induction o as [|[k0 v0] o IH]; intros Hs; cbn [btree_insert].
  { rewrite find_key_cons. cbn. by case_decide. }
  pose proof Hs as [Hs' _]%StronglySorted_inv. destruct (cmp k k0) eqn:E.
  - apply cmp_eq in E as ->. rewrite !find_key_cons. destruct (decide (k0 = k')) as [->|]; [|done].
    by rewrite find_key_absent by (by eapply sorted_head; [|apply key_lt_irrefl]).
  - rewrite (find_key_cons k' k v). destruct (decide (k = k')) as [->|]; [|case_match; done].
    rewrite find_key_absent; [done|]. cbn [fmap list_fmap fst]. intros [->|Hin]%elem_of_cons; [by apply key_lt_irrefl in E|].
    by apply (sorted_head k0 v0 o k') in Hin; [|done|by apply key_lt_asym].
  - rewrite !find_key_cons, IH by done. destruct (decide (k = k')) as [->|]; [done|]. done.
Qed.

(** ** What a tag is *)

Section tags.
Context `{KeyLib, CipherLib, TextLib, !TagText}.

Lemma mask_first_length n l : length (mask_first n l) = length l.
Proof using All. destruct l as [|b l]; [done|]. unfold mask_first. by destruct (0 <? n). Qed.

Lemma part_tag_hex key window bits text t : 1 <= bits → bits <= 64 → part_tag key window bits text = Ok t → hex_text t ∧ t ≠ [].
Proof using All.
  intros Hb Hb'. unfold part_tag, mac. destruct (keyed_hash _ _ _) as [tag|] eqn:Ek; [|done]. cbn [fail_on rbind]. intros [= <-].
  apply keyed_hash_len in Ek. cbn [output_len] in Ek.
  destruct (div_ceil_bounds bits 8) as (Hn1 & Hn2 & Hn3); [lia|lia|]. destruct (div_ceil_bounds bits 4) as (Hm1 & Hm2 & Hm3); [lia|lia|].
  set (n := div_ceil bits 8) in *. set (m := div_ceil bits 4) in *. clearbody n m.
  set (kept := mask_first _ _). assert (Hlen : length (hex kept) = (2 * N.to_nat n)%nat).
  { rewrite hex_length. unfold kept. rewrite mask_first_length, length_take. lia. }
  split.
  - apply Forall_drop, hex_hex_text.
  - intros E. apply (f_equal length) in E. rewrite length_drop, Hlen in E. simpl in E. lia.
Qed.

Lemma part_tags_inv k table id kinds window bits text tags : part_tags k table id kinds window bits text = Ok tags →
  0 < window ∧ 1 <= bits ∧ bits <= 64 ∧ ∃ key, part_key k table id = Ok key ∧
    ∀ t, t ∈ tags ↔ ∃ w, w ∈ windows (N.to_nat window) (chars (normalize text kinds)) ∧ part_tag key window bits (of_chars w) = Ok t.
Proof using All.
  unfold part_tags. destruct (_ || _) eqn:Ec; [done|]. apply orb_false_iff in Ec as [Ew Eb]. apply N.eqb_neq in Ew.
  apply negb_false_iff, andb_true_iff in Eb as [Eb1%N.leb_le Eb2%N.leb_le].
  destruct (part_key k table id) as [key|]; [|done]. cbn [rbind]. destruct (traverse _ _) as [l|] eqn:Et; [|done]. intros [= <-].
  split_and!; [lia|done|done|]. exists key. split; [done|]. intros t. rewrite elem_of_btree_set.
  apply traverse_ok_Forall2 in Et. split.
  - intros (i & Hi)%list_elem_of_lookup. destruct (Forall2_lookup_r _ _ _ _ _ Et Hi) as (w & Hw & Hp). exists w.
    split; [by eapply list_elem_of_lookup_2|done].
  - intros (w & (i & Hi)%list_elem_of_lookup & Hp). destruct (Forall2_lookup_l _ _ _ _ _ Et Hi) as (t' & Ht & Hp').
    rewrite Hp in Hp'. injection Hp' as <-. by eapply list_elem_of_lookup_2.
Qed.

Lemma part_tags_hex k table id kinds window bits text tags : part_tags k table id kinds window bits text = Ok tags →
  Forall (λ t, hex_text t ∧ t ≠ []) tags.
Proof using All.
  intros (Hw & Hb & Hb' & key & _ & Ht)%part_tags_inv. apply Forall_forall. intros t (w & _ & Hp)%Ht. by eapply part_tag_hex.
Qed.

(** The parts of a text are parts of every text that contains it. *)
Lemma part_tags_contained k table id kinds window bits a b ta tb : utf8_valid a = true → utf8_valid b = true →
  part_tags k table id kinds window bits a = Ok ta → part_tags k table id kinds window bits b = Ok tb →
  contains (normalize a kinds) (normalize b kinds) = true → ∀ t, t ∈ tb → t ∈ ta.
Proof using All.
  intros Va Vb (Hw & _ & _ & key & Ek & Ha)%part_tags_inv (_ & _ & _ & key' & Ek' & Hb)%part_tags_inv Hc t (w & Hin & Hp)%Hb.
  rewrite Ek in Ek'. injection Ek' as <-. apply Ha. exists w. split; [|done].
  eapply contains_windows; [lia|by apply normalize_valid..|done|done].
Qed.

Lemma part_tags_some k table id kinds window bits text tags : part_tags k table id kinds window bits text = Ok tags →
  window <= normalized_len kinds text → tags ≠ [].
Proof using All.
  intros Et Hl. unfold normalized_len in Hl. pose proof (part_tags_inv _ _ _ _ _ _ _ _ Et) as (Hw & _). unfold part_tags in Et. destruct (_ || _) in Et; [done|].
  destruct (part_key k table id) as [key|]; [|done]. cbn [rbind] in Et. destruct (traverse _ _) as [l|] eqn:Ev; [|done]. injection Et as <-.
  pose proof (windows_some (N.to_nat window) (chars (normalize text kinds))) as Hs. unfold len in Hl.
  assert (windows (N.to_nat window) (chars (normalize text kinds)) ≠ []) as Hne.
  { apply Hs; [lia|]. intros E. rewrite E in Hl. simpl in Hl. lia. }
  apply traverse_ok_Forall2 in Ev. inversion Ev as [E|? t ? l' _ _ E]; subst; [by rewrite <-E in Hne|]. clear E. intros E.
  assert (t ∈ btree_set (t :: l')) as Hin by (apply elem_of_btree_set; by left). rewrite E in Hin. by apply elem_of_nil in Hin.
Qed.
End tags.
