(* ===== verification/FieldRows.v ===== *)
(** * Rows of protected fields

    What [seal_row] writes: each protected field holds what its value is, at its place, and the
    rest of the row is untouched; a verification hash verifies its secret. *)
From S2P Require Import Prelude Order Fields OrderedCodec Eval B64 Cipher Index PathSpec PlanSpec Keys Sealed Protected Slots FieldSearch FieldSpec.
Local Open Scope N_scope.

Section rows.
Context `{KL : KeyLib, CL : CipherLib, TL : TextLib, !JsonText}.

(** ** Keys that were used *)

(** Keys that answer alike, whichever ciphers were already made. *)
Record same_keys (k k' : FieldKeys) : Prop := {
  same_suite : fk_suite k = fk_suite k';
  same_source : fk_source k = fk_source k';
  same_carried : fk_carried k = fk_carried k';
  same_cipher table id : rmap fst (field_cipher k table id) = rmap fst (field_cipher k' table id);
}.

#[global] Instance same_keys_equiv : Equivalence same_keys.
Proof using Type.
  constructor.
  - intros k. by constructor.
  - intros k k' [? ? ? ?]. by constructor.
  - intros k k' k'' [? ? ? Hc] [? ? ? Hc']. constructor; [congruence..|]. intros table id. by rewrite Hc.
Qed.

Lemma field_cipher_same k table id a k' : field_cipher k table id = Ok (a, k') → same_keys k k'.
Proof using Type.
  unfold field_cipher at 1. destruct (fk_ciphers k !! (table, id)) eqn:Ec; [by intros [= _ <-]|].
  destruct (read_root k no_read) as [r|] eqn:Er; [|done]. cbn [rbind]. destruct (derived _) as [key|] eqn:Ek; [|done]. cbn [rbind]. intros [= <- <-].
  split; [done..|]. intros table' id'. unfold field_cipher. cbn [fk_ciphers fk_suite]. destruct (decide ((table, id) = (table', id'))) as [[= <- <-]|Hne].
  - rewrite Ec, lookup_insert_eq, Er. cbn [rbind]. by rewrite Ek.
  - rewrite lookup_insert_ne by done. destruct (fk_ciphers k !! (table', id')); [done|].
    unfold read_root. cbn [fk_source]. destruct (fk_source k) as [s|]; [|done]. destruct (ac_read s) as [r'|]; [|done]. cbn [rbind].
    match goal with |- context [derived ?x] => destruct (derived x) end; reflexivity.
Qed.

(** The operations that use the keys see no difference. *)
Lemma print_key_same k k' : same_keys k k' → print_key k = print_key k'.
Proof using Type. intros [Hs Ho Hc _]. unfold print_key, search_root. by rewrite Hs, Ho, Hc. Qed.
Lemma part_key_same k k' : same_keys k k' → part_key k = part_key k'.
Proof using Type. intros [Hs Ho _ _]. unfold part_key, search_root. by rewrite Hs, Ho. Qed.
Lemma hash_key_same k k' : same_keys k k' → field_hash_key k = field_hash_key k'.
Proof using Type. intros [Hs Ho Hc _]. unfold field_hash_key, read_root. by rewrite Hs, Ho, Hc. Qed.

#[global] Instance print_value_same : Proper (same_keys ==> eq) print_value.
Proof using Type. intros k k' Hk. unfold print_value. by rewrite (print_key_same k k' Hk). Qed.
#[global] Instance part_tags_same : Proper (same_keys ==> eq) part_tags.
Proof using Type. intros k k' Hk. unfold part_tags. by rewrite (part_key_same k k' Hk). Qed.
#[global] Instance hash_compute_same : Proper (same_keys ==> eq) hash_compute.
Proof using Type. intros k k' Hk. unfold hash_compute. by rewrite (hash_key_same k k' Hk). Qed.
#[global] Instance verify_value_same : Proper (same_keys ==> eq) verify_value.
Proof using Type. intros k k' Hk. unfold verify_value. by rewrite (hash_compute_same k k' Hk). Qed.
#[global] Instance full_print_same : Proper (same_keys ==> eq) full_print_of_json.
Proof using Type. intros k k' Hk. unfold full_print_of_json. by rewrite (print_value_same k k' Hk). Qed.
#[global] Instance parts_same : Proper (same_keys ==> eq) parts_of_json.
Proof using Type. intros k k' Hk. unfold parts_of_json. by rewrite (part_tags_same k k' Hk). Qed.

(** ** Hashes *)

Lemma kdf_derive_len kdf password salt n h : kdf_derive kdf password salt n = inl h → length h = n.
Proof using Type.
  unfold kdf_derive, compute. destruct (validate kdf); [|done]. cbn [obind]. destruct kdf; destruct (_ : option bytes) eqn:E; try done;
    intros [= <-]; [by eapply argon2id_len|by eapply scrypt_len].
Qed.

Lemma hash_compute_len k algo place secret salt h : hash_compute k algo place secret salt = Ok h → length h = HASH_LEN.
Proof using Type.
  unfold hash_compute. destruct (field_hash_key _ _ _); [|done]. cbn [rbind]. destruct (mac _ _ _); [|done]. cbn [fail_on rbind].
  destruct (kdf_derive _ _ _ _) as [h'|] eqn:E; [|done]. cbn [fail_on]. intros [= <-]. by eapply kdf_derive_len.
Qed.

(** A stored hash verifies exactly the secrets it can have been made of. *)
Lemma hash_exact k algo place secret stored :
  verify_value k algo place secret stored = Ok true ↔
  ∃ salt, length salt = HASH_SALT ∧ hash_value k algo place (inl salt) secret = Ok stored.
Proof using Type.
  unfold verify_value, hash_value. cbn [fail_on rbind]. split.
  - destruct (B64.decode stored) as [raw|] eqn:Ed; [|done]. apply B64.encode_decode in Ed.
    destruct (negb (length raw =? _)%nat || _) eqn:Eh; [done|]. apply orb_false_iff in Eh as [El Ev].
    apply negb_false_iff, Nat.eqb_eq in El. apply negb_false_iff, bool_decide_eq_true in Ev.
    destruct (hash_compute _ _ _ _ _) as [h|] eqn:Ec; [|done]. cbn [rbind]. intros [= Heq]. apply bool_decide_eq_true in Heq.
    destruct raw as [|b raw]; [done|]. injection Ev as ->. cbn [tail] in *. cbn [length] in El. exists (take HASH_SALT raw).
    split; [rewrite length_take; lia|]. rewrite Ec. cbn [rbind app]. by rewrite Heq, take_drop, Ed.
  - intros (salt & Hs & E). destruct (hash_compute k algo place secret salt) as [h|] eqn:Ec; [|done]. cbn [rbind] in E. injection E as <-.
    pose proof (hash_compute_len _ _ _ _ _ _ Ec) as Hh. rewrite B64.b64_decode_encode. cbn [app]. cbn [length tail head].
    rewrite length_app, Hs, Hh. cbn [Nat.add]. rewrite Nat.eqb_refl, bool_decide_eq_true_2 by done. cbn [negb orb].
    rewrite <-Hs, take_app_length, drop_app_length, Ec. cbn [rbind]. by rewrite bool_decide_eq_true_2.
Qed.

(** ** What a written field holds *)

(** The fingerprints stored beside a sealed text. *)
Definition made (wanted : bool) (made : result str) (stored : option str) : Prop :=
  if wanted then ∃ t, made = Ok t ∧ stored = Some t else stored = None.

Definition holds_part (k : FieldKeys) (table key : str) (spec : SealedSpec) (part : Part) (stored : json) : Prop :=
  let place := {| table_id := table; field_id := sp_id spec; row_key := key |} in
  match part with
  | PartNew plain =>
      if is_sealing (sp_method spec) then
        ∃ text full parts cipher, stored = stored_form text full parts ∧ rmap fst (field_cipher k table (sp_id spec)) = Ok cipher ∧
          open_envelope cipher place text = inl plain ∧
          made (has_stored_print (sp_method spec)) (full_print_of_json k table spec plain) full ∧
          made (has_parts (sp_method spec)) (parts_of_json k table spec plain) parts
      else match sp_method spec with
           | HashMethod => ∃ algo text, sp_hash spec = Some algo ∧ stored = JString (Some text) ∧ verify_value k algo place plain text = Ok true
           | _ => ∃ text, sp_method spec = SearchPrint ∧ stored = JString (Some text) ∧ print_value k table (sp_id spec) (sp_normalize spec) plain = Ok text
           end
  | PartClosed text full parts bound =>
      (∃ b, bound = Some b ∧ b_table_id b = table ∧ b_field_id b = sp_id spec ∧ b_row_key b = key) ∧ stored = stored_form text full parts ∧
      bool_decide (is_Some full) = has_stored_print (sp_method spec) ∧ bool_decide (is_Some parts) = has_parts (sp_method spec)
  | PartStored text => sp_method spec = SearchPrint ∧ stored = JString (Some text)
  end.

(** The random source gives a salt of the length asked for. *)
Definition salted (spec : SealedSpec) (part : Part) (random : outcome CryptoError bytes) : Prop :=
  ∀ plain s, part = PartNew plain → sp_method spec = HashMethod → random = inl s → length s = HASH_SALT.

#[global] Instance holds_part_same : Proper (same_keys ==> eq ==> eq ==> eq ==> eq ==> eq ==> iff) holds_part.
Proof using Type.
  intros k k' Hk ? table -> ? key -> ? spec -> ? part -> ? stored ->. unfold holds_part. destruct part as [plain|text full parts bound|text]; [|done..].
  rewrite (full_print_same k k' Hk), (parts_same k k' Hk), (verify_value_same k k' Hk), (print_value_same k k' Hk).
  destruct (is_sealing _); [|done]. by setoid_rewrite (same_cipher _ _ Hk).
Qed.

Lemma rmap_some_inv {A} (r : result A) o : rmap Some r = Ok o → ∃ t, r = Ok t ∧ o = Some t.
Proof using Type. destruct r; [intros [= <-]; eauto|done]. Qed.

Lemma made_inv (wanted : bool) (r : result str) o : (if wanted then rmap Some r else Ok None) = Ok o → made wanted r o.
Proof using Type. destruct wanted; [apply rmap_some_inv|by intros [= <-]]. Qed.

Lemma new_sealed k table key spec random plain j k' : is_sealing (sp_method spec) = true →
  stored_part k table key spec random (PartNew plain) = Ok (j, k') → same_keys k k' ∧ holds_part k table key spec (PartNew plain) j.
Proof using Type.
  intros Hm E. cbn [stored_part] in E. rewrite Hm in E. unfold holds_part. rewrite Hm.
  apply rbind_ok in E as (full & Ef & E). apply rbind_ok in E as (parts & Ep & E). apply rbind_ok in E as ([cipher k1] & Ec & E).
  apply rbind_ok in E as (text & Es & [= <- <-]). split; [by eapply field_cipher_same|]. exists text, full, parts, cipher.
  split_and!; [done|by rewrite Ec| |by apply made_inv..].
  destruct (seal_envelope _ _ _ _) as [t|] eqn:Et; [|done]. injection Es as <-. apply envelope_exact.
  destruct random as [nonce|]; [|by unfold seal_envelope, seal in Et]. exists nonce. split; [|done].
  unfold seal_envelope, seal, seal_with in Et. destruct (Nat.eqb_spec (length nonce) (nonce_len (kind cipher))); [done|done].
Qed.

Lemma stored_part_holds k table key spec random part j k' : salted spec part random →
  stored_part k table key spec random part = Ok (j, k') → same_keys k k' ∧ holds_part k table key spec part j.
Proof using Type.
  intros Hs E. destruct part as [plain|text full parts bound|text].
  - destruct (is_sealing (sp_method spec)) eqn:Hm; [by eapply new_sealed|]. cbn [stored_part] in E. rewrite Hm in E. unfold holds_part. rewrite Hm.
    destruct (sp_method spec) eqn:Em; try done.
    + destruct (sp_hash spec) as [algo|] eqn:Ea; [|done]. apply rbind_ok in E as (text & Eh & [= <- <-]). split; [done|].
      exists algo, text. split_and!; [done..|]. apply hash_exact. destruct random as [salt|]; [|done]. exists salt. split; [by eapply Hs|done].
    + apply rbind_ok in E as (text & Ep & [= <- <-]). split; [done|]. by exists text.
  - cbn [stored_part] in E. destruct bound as [b|]; [|done]. unfold binding_eqb in E. cbn [binding_of field_named b_table_id b_field_id b_row_key rb_table_id rb_row_key] in E.
    destruct (negb _) eqn:Eb; [done|]. apply negb_false_iff in Eb. rewrite !andb_true_iff, !bool_decide_eq_true, N.eqb_eq in Eb.
    destruct Eb as [[? ?] ?]. cbn [holds_part].
    assert (Hb : ∃ b', Some b = Some b' ∧ b_table_id b' = table ∧ b_field_id b' = sp_id spec ∧ b_row_key b' = key) by eauto.
    destruct (has_stored_print (sp_method spec)) eqn:Ep; destruct (has_parts (sp_method spec)) eqn:Eq; destruct full, parts; try done;
      injection E as <- <-; (split; [done|]); (split; [exact Hb|done]) || (by destruct (sp_method spec)).
  - cbn [stored_part] in E. case_bool_decide; [|done]. injection E as <- <-. by split.
Qed.

(** ** The row *)

Lemma seal_parts_spec table key : ∀ specs parts k randoms object object' k',
  length parts = length specs → NoDup (sp_key <$> specs) → key_sorted object →
  (∀ i spec part, specs !! i = Some spec → parts !! i = Some part → salted spec part (default (inr Random) (randoms !! i))) →
  seal_parts k table key randoms specs parts object = Ok (object', k') →
  same_keys k k' ∧ key_sorted object' ∧
  (∀ i spec part, specs !! i = Some spec → parts !! i = Some part →
     ∃ stored, find_key (sp_key spec) object' = Some stored ∧ holds_part k table key spec part stored) ∧
  (∀ name, name ∉ sp_key <$> specs → find_key name object' = find_key name object).
Proof using Type.
  induction specs as [|spec specs IH]; intros parts k randoms object object' k' Hl Hn Hk Hs E; destruct parts as [|part parts]; try done; cbn [seal_parts] in E.
  { injection E as <- <-. by split_and!. }
  apply rbind_ok in E as ([stored k1] & Ep & E). apply NoDup_cons in Hn as [Hnot Hn].
  assert (Hs0 : salted spec part (default (inr Random) (head randoms))) by (specialize (Hs 0%nat _ _ eq_refl eq_refl); by destruct randoms).
  destruct (stored_part_holds _ _ _ _ _ _ _ _ Hs0 Ep) as [Hsame Hhold].
  apply IH in E as (Hsame' & Hk' & Hrows & Hrest); [|by injection Hl|done|by apply btree_insert_sorted|].
  - split_and!; [by etrans|done| |].
    + intros [|i] spec' part' Ei Ej; cbn in Ei, Ej.
      * injection Ei as <-. injection Ej as <-. exists stored. split; [|done]. rewrite Hrest by done. rewrite find_key_insert by done. by rewrite decide_True.
      * destruct (Hrows i spec' part' Ei Ej) as (j & Hj & Hh). exists j. split; [done|]. by rewrite Hsame.
    + intros name Hname. cbn in Hname. apply not_elem_of_cons in Hname as [Hne Hname]. rewrite Hrest, find_key_insert by done. by rewrite decide_False by congruence.
  - intros i spec' part' Ei Ej. specialize (Hs (S i) spec' part' Ei Ej). destruct randoms; [by destruct i|done].
Qed.

Lemma seal_row_spec k table specs key randoms parts object b k' : key_sorted object → NoDup (sp_key <$> specs) →
  (∀ i spec part, specs !! i = Some spec → parts !! i = Some part → salted spec part (default (inr Random) (randoms !! i))) →
  seal_row k table specs key randoms (Ok parts) (Ok (JObject object)) = Ok (b, k') →
  same_keys k k' ∧ length parts = length specs ∧ ∃ object', json_read b = Some (JObject object') ∧
    (∀ i spec part, specs !! i = Some spec → parts !! i = Some part →
       ∃ stored, find_key (sp_key spec) object' = Some stored ∧ sealed_ok object' spec = true ∧ holds_part k table key spec part stored) ∧
    (∀ name, name ∉ sp_key <$> specs → find_key name object' = find_key name object).
Proof using Type.
  intros Hk Hn Hs E. unfold seal_row in E. cbn [rbind] in E. destruct (Nat.eqb_spec (length parts) (length specs)) as [Hl|]; [|done].
  cbn [negb] in E. apply rbind_ok in E as ([object' k1] & Es & E). apply rbind_ok in E as ([] & Ec & E). apply rbind_ok in E as (b' & Ew & [= <- <-]).
  apply seal_parts_spec in Es as (Hsame & _ & Hrows & Hrest); [|done..]. split_and!; [done..|]. exists object'.
  unfold check_sealed in Ec. destruct (forallb _ specs) eqn:Ef; [|done]. rewrite forallb_forall in Ef. split_and!; [|..|done].
  - apply json_write_read. by destruct (json_write _); [injection Ew as ->|].
  - intros i spec part Ei Ej. destruct (Hrows i spec part Ei Ej) as (j & Hj & Hh). exists j. split_and!; [done| |done].
    apply Ef, list_elem_of_In. by eapply list_elem_of_lookup_2.
Qed.
End rows.

(** ** What an accepted query can tell of protected fields

    The answer of a condition on an unprotected field does not depend on the protected ones; the
    conditions on fingerprints that the check lets through depend only on which of the issued
    fingerprints a row has. *)
From S2P Require Import Prelude Order Fields OrderedCodec Eval EvalSpec B64 Cipher Index PathSpec PlanSpec Keys Sealed Protected Slots FieldSearch FieldSpec.
Local Open Scope N_scope.

Lemma text_inj a b : text a = text b → a = b.
Proof.
  assert (Hp : ∀ a b, text a = text b → starts_with a b = true).
  { intros x y E. apply (text_prefix x y []). rewrite app_nil_r, E. eexists. reflexivity. }
  intros E. pose proof (Hp a b E) as (w & ->)%starts_with_split. pose proof (Hp b (b ++ w) (eq_sym E)) as (w' & Ew)%starts_with_split.
  apply (f_equal length) in Ew. rewrite !length_app in Ew. destruct w; [by rewrite app_nil_r|simpl in Ew; lia].
Qed.

Section guard.
Context `{TL : TextLib}.

Lemma interpret_auto kind v : kind = Auto → interpret kind v = Ok v.
Proof using Type. intros ->. by destruct v. Qed.

Lemma path_value_auto b p v : extract b (p_steps p) = Ok v → p_kind p = Auto → p_transforms p = [] → path_value b p = Ok v.
Proof using Type. intros Ex Ek Et. unfold path_value. rewrite Ex. cbn [rbind]. rewrite interpret_auto by done. cbn [rbind]. rewrite Et. by destruct v. Qed.

Lemma text_encoded s : encode_equality (VString s) = Ok (byte_of_N 7 :: text s).
Proof using Type. done. Qed.

Lemma traverse_auto kind values : kind = Auto → traverse (interpret kind) values = Ok values.
Proof using Type. intros Hk. induction values as [|v l IH]; [done|]. cbn [traverse]. by rewrite interpret_auto, IH by done. Qed.

(** ** Paths below a field that two rows share *)

Section field.
Context (b b' : bytes) (k : str) (Hsame : ∀ rest, extract b (Key k :: rest) = extract b' (Key k :: rest)).

Lemma path_value_shared p : head (p_steps p) = Some (Key k) → path_value b p = path_value b' p.
Proof using Hsame. unfold path_value. destruct (p_steps p) as [|s rest]; [done|]. intros [= ->]. by rewrite Hsame. Qed.

Lemma quantified_shared fuel leaf : ∀ p, head (p_steps p) = Some (Key k) → quantified_fuel fuel b p leaf = quantified_fuel fuel b' p leaf.
Proof using Hsame.
  induction fuel as [|fuel IH]; intros p Hp; cbn [quantified_fuel]; rewrite (path_value_shared p Hp); destruct (list_find _ (p_steps p)) as [[i s]|] eqn:Ef; try done.
  destruct (p_steps p) as [|s0 rest] eqn:Es; [done|]. injection Hp as ->. destruct i as [|i]; [by apply list_find_Some in Ef as (E & Hq & _); injection E as <-|].
  cbn [take]. rewrite Hsame. destruct (extract b' _) as [v|]; [|done]. cbn [rbind]. destruct v; try done. apply quantify_ext. intros n. by apply IH.
Qed.
End field.

(** ** Fingerprints *)

Lemma scalar_tag t tags op : op = CEq ∨ op = CIn → tags ≠ [] →
  scalar (VString t) op (VString <$> tags) = Ok (match op with CEq => bool_decide (Some t = head tags) | _ => bool_decide (t ∈ tags) end).
Proof using Type.
  intros Hop Hne. destruct tags as [|t0 tags]; [done|]. cbn [fmap list_fmap head].
  assert (Heq : ∀ a c, byte_of_N 7 :: text a = byte_of_N 7 :: text c ↔ a = c) by (intros a c; split; [by intros [= ?%text_inj]|by intros ->]).
  destruct Hop as [->| ->].
  - rewrite (scalar_eq _ _ _ _ _ (text_encoded t) (text_encoded t0)) by done. f_equal. apply bool_decide_ext. rewrite Heq. split; [by intros ->|by intros [= ->]].
  - rewrite (scalar_in _ _ _ _ (text_encoded t)).
    + f_equal. unfold among. apply eq_true_iff_eq. rewrite bool_decide_eq_true, existsb_exists. split.
      * intros (v & Hv%list_elem_of_In & Hm). apply (list_elem_of_fmap_1 VString (t0 :: tags)) in Hv as (a & -> & Ha). rewrite text_encoded in Hm.
        apply bool_decide_eq_true, Heq in Hm as ->. done.
      * intros Ht. exists (VString t). split; [apply list_elem_of_In; by apply (list_elem_of_fmap_2 VString (t0 :: tags))|]. rewrite text_encoded. by apply bool_decide_eq_true.
    + change (VString t0 :: (VString <$> tags)) with (VString <$> t0 :: tags). apply Forall_fmap, Forall_forall. intros a _. by split.
Qed.

Lemma scalar_parts t tag : scalar (VString t) CParts [VString tag] =
  Ok (negb (bool_decide (tokens tag = [])) && forallb (λ w, bool_decide (w ∈ tokens t)) (tokens tag)).
Proof using Type. unfold scalar. by rewrite (compare_key _ _ _ _ (text_encoded t) (text_encoded tag)). Qed.

(** ** The check *)

(** Two rows that differ at most in protected fields, and hold the same of the issued
    fingerprints. *)
Record alike (specs : list SealedSpec) (printed : list str) (b b' : bytes) : Prop := {
  alike_rows : ∃ o o', json_read b = Some (JObject o) ∧ json_read b' = Some (JObject o') ∧
    ∀ name, name ∉ sp_key <$> specs → find_key name o = find_key name o';
  alike_prints spec steps : spec ∈ specs → print_steps spec = Some steps →
    ∃ t t', extract b steps = Ok (VString t) ∧ extract b' steps = Ok (VString t') ∧ ∀ tag, tag ∈ printed → t = tag ↔ t' = tag;
  alike_parts spec steps : spec ∈ specs → parts_steps spec = Some steps →
    ∃ t t', extract b steps = Ok (VString t) ∧ extract b' steps = Ok (VString t') ∧
      ∀ tag, tag ∈ printed → (∀ w, w ∈ tokens tag → w ∈ tokens t) ↔ (∀ w, w ∈ tokens tag → w ∈ tokens t');
}.

Definition starts_at_key (p : Path) : bool := match p_steps p with Key _ :: _ => true | _ => false end.
Fixpoint rooted (e : Expr) : bool :=
  match e with
  | ECompare p _ _ | EPresence p _ | EElemMatch p _ => starts_at_key p
  | EAnd x y | EOr x y => rooted x && rooted y
  | ENot x => rooted x
  | ENever | EInvalid _ => true
  end.

(** A fingerprint reads as no date and no time. *)
Definition timeless (printed : list str) : Prop :=
  ∀ kind tag, tag ∈ printed → kind ≠ Auto → ∃ e, interpret kind (VString tag) = Err e.

Lemma first_spec_some specs p spec : first_spec specs p = Some spec → spec ∈ specs.
Proof using Type.
  unfold first_spec. destruct (p_steps p) as [|[] ?]; try done. destruct (list_find _ _) as [[i s]|] eqn:E; [|done]. intros [= <-].
  apply list_find_Some in E as (Hi & _ & _). by eapply list_elem_of_lookup_2.
Qed.

Lemma first_spec_none specs p k rest : first_spec specs p = None → p_steps p = Key k :: rest → k ∉ sp_key <$> specs.
Proof using Type.
  unfold first_spec. intros E Ep. rewrite Ep in E. destruct (list_find _ _) as [|] eqn:Ef; [done|]. apply list_find_None in Ef. rewrite Forall_forall in Ef.
  intros (spec & -> & Hs)%list_elem_of_fmap. by apply (Ef spec Hs).
Qed.

Lemma issued_tags printed values : issued printed values = true → ∃ tags, values = VString <$> tags ∧ tags ≠ [] ∧ ∀ t, t ∈ tags → t ∈ printed.
Proof using Type.
  unfold issued. intros [Hne Hall]%andb_true_iff. apply negb_true_iff, bool_decide_eq_false in Hne. rewrite forallb_forall in Hall.
  assert (∃ tags, values = VString <$> tags ∧ ∀ t, t ∈ tags → t ∈ printed) as (tags & -> & Ht).
  { clear Hne. induction values as [|v values IH]; [exists []; split; [done|by intros t Ht%elem_of_nil]|]. destruct IH as (tags & -> & Ht); [intros x Hx; apply Hall; by right|].
    specialize (Hall v (or_introl eq_refl)). destruct v as [| | | | |s| |]; try done. apply bool_decide_eq_true in Hall.
    exists (s :: tags). split; [done|]. intros t [->|Hin]%elem_of_cons; [done|by apply Ht]. }
  exists tags. split_and!; [done| |done]. by intros ->.
Qed.

Section rows.
Context (specs : list SealedSpec) (printed : list str) (b b' : bytes).

Lemma open_shared k : alike specs printed b b' → k ∉ sp_key <$> specs → ∀ rest, extract b (Key k :: rest) = extract b' (Key k :: rest).
Proof using Type. intros [(o & o' & E & E' & Ho) _ _] Hk rest. unfold extract. rewrite E, E'. cbn [ok_or rbind select]. by rewrite Ho. Qed.

Lemma print_condition path op tags spec : alike specs printed b b' → timeless printed → spec ∈ specs → print_steps spec = Some (p_steps path) → p_transforms path = [] →
  op = CEq ∨ op = CIn → tags ≠ [] → (∀ t, t ∈ tags → t ∈ printed) →
  matches_uncached b (ECompare path op (VString <$> tags)) = matches_uncached b' (ECompare path op (VString <$> tags)).
Proof using Type.
  intros Hal Htime Hspec Hsteps Htr Hop Hne Htags. cbn [matches_uncached]. destruct (decide (p_kind path = Auto)) as [Hk|Hk].
  - rewrite traverse_auto by done. cbn [rbind]. assert (existsb is_quantifier (p_steps path) = false) as ->.
    { unfold print_steps, steps_for in Hsteps. destruct (sp_method spec); (discriminate Hsteps || (injection Hsteps as <-; reflexivity)). }
    destruct (alike_prints _ _ _ _ Hal spec _ Hspec Hsteps) as (t & t' & E & E' & Ht). rewrite (path_value_auto b path _ E), (path_value_auto b' path _ E') by done.
    cbn [rbind]. rewrite !scalar_tag by done. f_equal. destruct Hop as [->| ->]; apply bool_decide_ext.
    + destruct tags as [|t0 tags]; [done|]. cbn [head]. specialize (Ht t0 (Htags t0 ltac:(left))). naive_solver.
    + split; intros Hin; pose proof (Ht _ (Htags _ Hin)); naive_solver.
  - destruct tags as [|t0 tags]; [done|]. cbn [fmap list_fmap traverse]. destruct (Htime (p_kind path) t0 (Htags t0 ltac:(left)) Hk) as [e ->]. done.
Qed.

Lemma parts_condition_shared path tag spec : alike specs printed b b' → timeless printed → spec ∈ specs → parts_steps spec = Some (p_steps path) → p_transforms path = [] →
  tag ∈ printed →
  matches_uncached b (ECompare path CParts [VString tag]) = matches_uncached b' (ECompare path CParts [VString tag]).
Proof using Type.
  intros Hal Htime Hspec Hsteps Htr Htag. cbn [matches_uncached]. destruct (decide (p_kind path = Auto)) as [Hk|Hk].
  - rewrite traverse_auto by done. cbn [rbind]. assert (existsb is_quantifier (p_steps path) = false) as ->.
    { unfold parts_steps in Hsteps. destruct (has_parts _); (discriminate Hsteps || (injection Hsteps as <-; reflexivity)). }
    destruct (alike_parts _ _ _ _ Hal spec _ Hspec Hsteps) as (t & t' & E & E' & Ht). rewrite (path_value_auto b path _ E), (path_value_auto b' path _ E') by done.
    cbn [rbind]. rewrite !scalar_parts. do 2 f_equal. apply eq_true_iff_eq. specialize (Ht tag Htag).
    rewrite !forallb_forall. setoid_rewrite bool_decide_eq_true. setoid_rewrite <-list_elem_of_In. done.
  - cbn [traverse]. by destruct (Htime (p_kind path) tag Htag Hk) as [e ->].
Qed.

Lemma accepted_shared : alike specs printed b b' → timeless printed → ∀ e, rooted e = true → check_walk specs printed e = Ok () →
  matches_uncached b e = matches_uncached b' e.
Proof using Type.
  intros Hal Htime. assert (Hpath : ∀ p k, head (p_steps p) = Some (Key k) → k ∉ sp_key <$> specs → path_value b p = path_value b' p).
  { intros p k Hp Hk. eapply path_value_shared; [|exact Hp]. by apply open_shared. }
  assert (Hquant : ∀ p k leaf, head (p_steps p) = Some (Key k) → k ∉ sp_key <$> specs → quantified b p leaf = quantified b' p leaf).
  { intros p k leaf Hp Hk. eapply quantified_shared; [|exact Hp]. by apply open_shared. }
  assert (Hroot : ∀ p, starts_at_key p = true → first_spec specs p = None → ∃ k, head (p_steps p) = Some (Key k) ∧ k ∉ sp_key <$> specs).
  { intros p Hs Hf. unfold starts_at_key in Hs. destruct (p_steps p) as [|[k| | | |] rest] eqn:Ep; try done. exists k. split; [done|]. by eapply first_spec_none. }
  induction e as [path op values|path op|x IHx y IHy|x IHx y IHy|x IHx|path inner _| |why]; intros Hr Hc; cbn [rooted check_walk] in *.
  - destruct (first_spec specs path) as [spec|] eqn:Ef.
    + pose proof (first_spec_some _ _ _ Ef) as Hspec. destruct (_ && issued printed values) eqn:Ep in Hc; [|destruct (_ && (length values =? 1)%nat) eqn:Eq in Hc].
      * apply andb_true_iff in Ep as [[[Hst Htr]%andb_true_iff Hop]%andb_true_iff Hi]. apply bool_decide_eq_true in Hst, Htr.
        destruct (issued_tags _ _ Hi) as (tags & -> & Hne & Ht). eapply print_condition; try done. destruct op; (by left) || (by right) || done.
      * rewrite !andb_true_iff, Nat.eqb_eq in Eq. destruct Eq as [[[[Hst Htr] Hop] Hi] Hl]. apply bool_decide_eq_true in Hst, Htr.
        destruct (issued_tags _ _ Hi) as ([|tag [|? ?]] & -> & _ & Ht); try done. destruct op; try done. eapply parts_condition_shared; [done..|]. apply Ht. by left.
      * exfalso. clear -Hc. unfold refuse in Hc. by destruct (_ || _).
    + destruct (Hroot path Hr Ef) as (k & Hk & Hn). cbn [matches_uncached]. destruct (traverse _ values); [|done]. cbn [rbind].
      destruct (existsb is_quantifier _); [by eapply Hquant|by erewrite Hpath].
  - destruct (first_spec specs path) eqn:Ef; [done|]. destruct (Hroot path Hr Ef) as (k & Hk & Hn). cbn [matches_uncached].
    destruct (existsb is_quantifier _); [by eapply Hquant|by erewrite Hpath].
  - apply andb_true_iff in Hr as [Hx Hy]. destruct (check_walk specs printed x) as [[]|]; [|done]. cbn [matches_uncached]. by rewrite IHx, IHy by done.
  - apply andb_true_iff in Hr as [Hx Hy]. destruct (check_walk specs printed x) as [[]|]; [|done]. cbn [matches_uncached]. by rewrite IHx, IHy by done.
  - cbn [matches_uncached]. by rewrite IHx.
  - destruct (first_spec specs path) eqn:Ef; [done|]. destruct (Hroot path Hr Ef) as (k & Hk & Hn). cbn [matches_uncached]. by erewrite Hpath.
  - done.
  - done.
Qed.
End rows.
End guard.
