(* ===== verification/FieldProps.v ===== *)
(** * What holds of protected fields

    The search by a piece of a value finds exactly the rows that contain it; a row that was
    written holds what its values are, at their places; a hash verifies the secret it was made of
    and no other; a query that passes the check learns of the protected fields only which of the
    issued fingerprints they hold. *)
From S2P Require Import Prelude Order Fields OrderedCodec OrderedSpec Eval EvalSpec B64 Cipher Index PathSpec PlanSpec Keys Sealed Protected Slots FieldSearch FieldSpec FieldRows.
Local Open Scope N_scope.

(** ** Pages *)

Section pages.
Context {R C : Type} (page : option C → result (list R * option C)).

(** The rows that the pages from a cursor have, in [n] pages. *)
Inductive pages : nat → option C → list R → Prop :=
| pages_last c items : page c = Ok (items, None) → pages 1 c items
| pages_more n c items c' rest : page c = Ok (items, Some c') → pages n (Some c') rest → pages (S n) c (items ++ rest).

(** What a limit keeps of the candidates, and of the confirmed rows: [.limit(0)] keeps the first
    of those, since the limit is looked at after a row was added. *)
Definition limited (limit : option nat) (l : list R) : list R := match limit with Some n => take n l | None => l end.
Definition at_least_one (limit : option nat) : option nat := Nat.max 1 <$> limit.
Definition reached (limit : option nat) (l : list R) : bool := match limit with Some n => (n <=? length l)%nat | None => false end.

Lemma limited_reached limit l r : reached limit l = true → limited limit (l ++ r) = limited limit l.
Proof using Type. destruct limit as [n|]; [|done]. intros Hn%Nat.leb_le. cbn. by rewrite take_app_le. Qed.

Lemma reached_more limit l r : reached limit l = true → reached limit (l ++ r) = true.
Proof using Type. destruct limit as [n|]; [|done]. cbn. rewrite length_app, !Nat.leb_le. lia. Qed.

Lemma limited_open limit l : reached limit l = false → limited limit l = l.
Proof using Type. destruct limit as [n|]; [|done]. intros Hn%Nat.leb_gt. cbn. by rewrite take_ge by lia. Qed.

Lemma candidates_loop_spec fuel limit n c rest : pages n c rest → (n <= fuel)%nat → ∀ rows, 
  candidates_loop page fuel limit c rows = Ok (Candidates (limited limit (rows ++ rest))).
Proof using Type.
  intros Hp. revert fuel. induction Hp as [c items E|n c items c' rest E Hp IH]; intros fuel Hf rows; (destruct fuel as [|fuel]; [lia|]); cbn [candidates_loop];
    rewrite E; cbn [rbind]; fold (reached limit (rows ++ items)); destruct (reached limit (rows ++ items)) eqn:Er.
  - do 2 f_equal. by destruct limit.
  - by rewrite limited_open.
  - rewrite app_assoc, limited_reached by done. do 2 f_equal. by destruct limit.
  - rewrite IH by lia. by rewrite app_assoc.
Qed.

Section confirm.
Context (test : R → result bool) (f : R → bool) (limit : option nat).

Lemma reached_one rows row : reached limit (rows ++ [row]) = reached (at_least_one limit) (rows ++ [row]).
Proof using Type. destruct limit as [n|]; [|done]. cbn. rewrite length_app. cbn. destruct n; [|done]. destruct (length rows); done. Qed.

Lemma confirm_items_spec items : Forall (λ r, test r = Ok (f r)) items → ∀ rows, reached (at_least_one limit) rows = false →
  confirm_items test limit items rows =
    Ok (limited (at_least_one limit) (rows ++ filter (λ r, f r = true) items), reached (at_least_one limit) (rows ++ filter (λ r, f r = true) items)).
Proof using Type.
  induction 1 as [|row items Hr _ IH]; intros rows Hopen; cbn [confirm_items].
  - rewrite filter_nil, app_nil_r. by rewrite limited_open, Hopen.
  - rewrite Hr. cbn [rbind]. rewrite filter_cons. destruct (f row) eqn:Ef; [rewrite decide_True by done|rewrite decide_False by done; by apply IH].
    fold (reached limit (rows ++ [row])). rewrite reached_one, (cons_middle row rows (filter _ _)), app_assoc.
    destruct (reached (at_least_one limit) (rows ++ [row])) eqn:Er; [|by apply IH].
    rewrite limited_reached by done. f_equal. f_equal; [|by rewrite reached_more].
    destruct limit as [n|]; [|done]. cbn in *. apply Nat.leb_le in Er. apply Nat.leb_gt in Hopen. rewrite length_app in Er. cbn in Er.
    rewrite take_ge; [done|]. rewrite length_app. cbn. lia.
Qed.

Lemma confirm_loop_spec fuel n c rest : pages n c rest → (n <= fuel)%nat → Forall (λ r, test r = Ok (f r)) rest →
  ∀ rows, reached (at_least_one limit) rows = false →
  confirm_loop page test fuel limit c rows = Ok (limited (at_least_one limit) (rows ++ filter (λ r, f r = true) rest)).
Proof using Type.
  intros Hp. revert fuel. induction Hp as [c items E|n c items c' rest E Hp IH]; intros fuel Hf Ht rows Hopen; (destruct fuel as [|fuel]; [lia|]); cbn [confirm_loop];
    rewrite E; cbn [rbind].
  - rewrite confirm_items_spec by done. cbn [rbind]. by case_match.
  - apply Forall_app in Ht as [Ht Ht']. rewrite confirm_items_spec by done. cbn [rbind]. rewrite filter_app, app_assoc.
    case_match eqn:Er; [by rewrite (limited_reached _ _ _ Er)|]. rewrite limited_open by done. apply IH; [lia|done|done].
Qed.
End confirm.
End pages.

(** ** The search by parts *)

Section search.
Context `{KL : KeyLib, CL : CipherLib, TL : TextLib, !TagText, !JsonText} (why : ClError → str).

Lemma parts_condition b l text stored : extract b l = Ok (VString stored) → existsb is_quantifier l = false →
  matches b (ECompare {| p_steps := l; p_kind := Auto; p_transforms := [] |} CParts [VString text]) =
    Ok (negb (bool_decide (tokens text = [])) && forallb (λ t, bool_decide (t ∈ tokens stored)) (tokens text)).
Proof using Type.
  intros Ex Eq. unfold matches, row_evaluation. cbn [row_matches traverse p_kind p_steps]. rewrite interpret_auto by done. cbn [rbind].
  rewrite Eq. unfold row_value. cbn [list_find]. rewrite (path_value_auto b _ (VString stored)) by done. cbn [rbind].
  by rewrite scalar_parts.
Qed.

(** A row that holds a text in the field of a handle: its sealed text, under the cipher of the
    field, is that of the text, and the parts stored with it are those of the text. *)
Definition holds_text {R} (view : R → option ClosedView) (bytes_of : R → bytes) (g : SearchGrant) (h : PrintHandle) (cipher : Aead) (value : str) (r : R) : Prop :=
  utf8_valid value = true ∧
  (∃ v plain, view r = Some v ∧ b_table_id (cv_at v) = g_table_id g ∧ b_field_id (cv_at v) = ph_field_id h ∧
     open_envelope cipher (place_of (cv_at v)) (cv_text v) = inl plain ∧ json_text plain = Some value) ∧
  ∃ tags, part_tags (g_keys g) (g_table_id g) (ph_field_id h) (ph_normalize h) (ph_window h) (ph_bits h) value = Ok tags ∧
    extract (bytes_of r) [Key (ph_key h); Key PARTS_KEY] = Ok (VString (join_tags tags)).

(** The same as a program. *)
Definition holds_text_b {R} (view : R → option ClosedView) (bytes_of : R → bytes) (g : SearchGrant) (h : PrintHandle) (cipher : Aead) (value : str) (r : R) : bool :=
  utf8_valid value &&
  match view r with
  | Some v => bool_decide (b_table_id (cv_at v) = g_table_id g) && (b_field_id (cv_at v) =? ph_field_id h) &&
      match open_envelope cipher (place_of (cv_at v)) (cv_text v) with inl plain => bool_decide (json_text plain = Some value) | inr _ => false end
  | None => false
  end &&
  match part_tags (g_keys g) (g_table_id g) (ph_field_id h) (ph_normalize h) (ph_window h) (ph_bits h) value,
        extract (bytes_of r) [Key (ph_key h); Key PARTS_KEY] with
  | Ok tags, Ok (VString s) => bool_decide (s = join_tags tags)
  | _, _ => false
  end.

Lemma holds_text_b_ok {R} (view : R → option ClosedView) bytes_of g h cipher value r :
  holds_text_b view bytes_of g h cipher value r = true → holds_text view bytes_of g h cipher value r.
Proof using Type.
  unfold holds_text_b, holds_text. destruct (view r) as [v|]; [|by rewrite andb_false_r]. destruct (open_envelope _ _ _) as [plain|] eqn:Eo; [|by rewrite !andb_false_r].
  destruct (part_tags _ _ _ _ _ _ _) as [tags|]; [|by rewrite !andb_false_r]. destruct (extract _ _) as [[]|] eqn:Ex; try by rewrite !andb_false_r.
  rewrite !andb_true_iff, !bool_decide_eq_true, N.eqb_eq. intros [[Hu [[? ?] ?]] ->]. split; [done|]. split; [by exists v, plain|by exists tags].
Qed.

(** What the query keeps. *)
Definition kept (r : result bool) : bool := match r with Ok yes => yes | Err _ => false end.

Definition text_found (h : PrintHandle) (text value : str) : bool :=
  contains (normalize value (ph_normalize h)) (normalize text (ph_normalize h)).

Lemma candidates_sound {R} (view : R → option ClosedView) bytes_of g h cipher text tags value r : has_parts (ph_method h) = true →
  utf8_valid text = true → ph_window h <= normalized_len (ph_normalize h) text →
  part_tags (g_keys g) (g_table_id g) (ph_field_id h) (ph_normalize h) (ph_window h) (ph_bits h) text = Ok tags →
  holds_text view bytes_of g h cipher value r →
  ∃ hit, matches (bytes_of r) (expression (part_candidates why h text g)) = Ok hit ∧ (text_found h text value = true → hit = true).
Proof using All.
  intros Hm Hu Hw Et (Hv & _ & ts & Ets & Ex). unfold part_candidates. rewrite Hm. cbn [negb].
  destruct (N.ltb_spec (normalized_len (ph_normalize h) text) (ph_window h)); [lia|]. rewrite Et. cbn [expression with_printed].
  rewrite (parts_condition _ _ _ _ Ex) by done. eexists. split; [done|]. intros Hf.
  pose proof (part_tags_hex _ _ _ _ _ _ _ _ Et) as Ht. pose proof (part_tags_hex _ _ _ _ _ _ _ _ Ets) as Hts.
  rewrite !tokens_join by (done || by apply Forall_take). pose proof (part_tags_some _ _ _ _ _ _ _ _ Et Hw) as Hne.
  apply andb_true_iff. split; [by destruct tags|]. apply forallb_forall. intros t Hin%list_elem_of_In. apply bool_decide_eq_true.
  eapply (part_tags_contained (g_keys g)); [| |exact Ets|exact Et|exact Hf|]; [done..|]. eapply elem_of_submseteq; [exact Hin|].
  apply sublist_submseteq, sublist_take.
Qed.

Lemma confirm_found {R} (view : R → option ClosedView) bytes_of g h cipher text value r : holds_text view bytes_of g h cipher value r →
  confirm view g h cipher (normalize text (ph_normalize h)) r = Ok (text_found h text value).
Proof using Type.
  intros (_ & (v & plain & Ev & Et & Ef & Eo & Ej) & _). unfold confirm. rewrite Ev, bool_decide_eq_true_2, Ef, N.eqb_refl by done. cbn [negb orb].
  by rewrite Eo; cbn [tampered rbind]; rewrite Ej.
Qed.

(** The other condition of a search, if it has one. *)
Definition meets {R} (bytes_of : R → bytes) (s : PartSearch) (r : R) : result bool :=
  match ps_filter s with Some extra => matches (bytes_of r) (expression extra) | None => Ok true end.

Lemma matches_and b x y : matches b (EAnd x y) = let? hit := matches b x in if hit then matches b y else Ok false.
Proof using Type.
  assert (Hm : ∀ e, matches b e = matches_uncached b e) by (intros e; apply (agrees_fst b []), row_matches_agrees, slots_ok_fresh).
  by rewrite !Hm.
Qed.

Lemma part_predicate_matches {R} (bytes_of : R → bytes) s g r hit :
  matches (bytes_of r) (expression (part_candidates why (ps_handle s) (ps_text s) g)) = Ok hit →
  matches (bytes_of r) (expression (part_predicate why s g)) = if hit then meets bytes_of s r else Ok false.
Proof using Type.
  intros Hh. unfold part_predicate, meets. destruct (ps_filter s) as [extra|]; [|rewrite Hh; by destruct hit].
  cbn [pred_and expression]. rewrite matches_and, Hh. done.
Qed.

(** C19: a search by a piece of a value, with the read key, over rows that hold texts in the
    field and on which the search's other condition can be decided: whatever the pages of the
    query of its candidates are, it ends, no row makes it fail, and its result is the rows that
    meet the other condition and whose normalised text contains the normalised piece, in order,
    and no others: all of them without a limit, the first [n] for a limit [n] of at least one.
    A limit of 0 keeps the first such row ([limit_zero_keeps_one]).  A program without the read
    key gets the first [n] candidates, none for 0, and among all candidates is every such row. *)
Theorem part_search_exact {R C} (view : R → option ClosedView) (bytes_of : R → bytes)
    (domain : Predicate → option C → result (list R * option C))
    n fuel g s tags cipher (value : R → str) (all : list R) :
  let h := ps_handle s in
  has_parts (ph_method h) = true → utf8_valid (ps_text s) = true → ph_window h <= normalized_len (ph_normalize h) (ps_text s) →
  part_tags (g_keys g) (g_table_id g) (ph_field_id h) (ph_normalize h) (ph_window h) (ph_bits h) (ps_text s) = Ok tags →
  (∀ a k, field_cipher (g_keys g) (g_table_id g) (ph_field_id h) = Ok (a, k) → a = cipher) →
  Forall (λ r, holds_text view bytes_of g h cipher (value r) r ∧ is_ok (meets bytes_of s r) = true) all →
  let p := part_predicate why s g in
  let candidates := filter (λ r, kept (matches (bytes_of r) (expression p)) = true) all in
  let found := filter (λ r, text_found h (ps_text s) (value r) && kept (meets bytes_of s r) = true) all in
  pages (domain p) n None candidates → (n <= fuel)%nat →
  Forall (λ r, is_ok (matches (bytes_of r) (expression p)) = true) all ∧
  (∀ r, r ∈ found → r ∈ candidates) ∧
  part_search_run why view domain fuel g s =
    Ok (match field_cipher (g_keys g) (g_table_id g) (ph_field_id h) with
        | Ok _ => Confirmed (limited (at_least_one (ps_limit s)) found)
        | Err _ => Candidates (limited (ps_limit s) candidates)
        end).
Proof using All.
  intros h Hm Hu Hw Et Hc Hall p candidates found Hp Hf. rewrite Forall_forall in Hall.
  assert (Hhit : ∀ r, r ∈ all → ∃ hit, matches (bytes_of r) (expression p) = Ok hit ∧
    (text_found h (ps_text s) (value r) && kept (meets bytes_of s r) = true → hit = true) ∧
    (hit = true → kept (meets bytes_of s r) = true)).
  { intros r Hr. destruct (Hall r Hr) as [Hh Hok].
    destruct (candidates_sound view bytes_of g h cipher (ps_text s) tags (value r) r Hm Hu Hw Et Hh) as (hit & Eh & Hin).
    pose proof (part_predicate_matches bytes_of s g r hit Eh) as Ep. fold p in Ep. rewrite Ep.
    destruct (meets bytes_of s r) as [yes|]; [|done]. cbn [kept]. destruct hit.
    - exists yes. split; [done|]. split; [by intros [_ ?]%andb_true_iff|done].
    - exists false. split; [done|]. split; [intros [Ht _]%andb_true_iff; by specialize (Hin Ht)|done]. }
  split_and!.
  - apply Forall_forall. intros r (hit & -> & _)%Hhit. done.
  - intros r [Hr Hin]%list_elem_of_filter. apply list_elem_of_filter. split; [|done]. destruct (Hhit r Hin) as (hit & -> & Hh & _). by rewrite Hh.
  - unfold part_search_run. fold h p. destruct (field_cipher _ _ _) as [[a k]|e]; [|by rewrite (candidates_loop_spec _ _ _ _ _ _ Hp Hf)].
    rewrite (Hc a k eq_refl). rewrite (confirm_loop_spec (domain p) _ (λ r, text_found h (ps_text s) (value r)) (ps_limit s) fuel n None candidates Hp Hf).
    + cbn [rmap]. do 2 f_equal. cbn [app]. f_equal. unfold candidates. rewrite list_filter_filter. unfold found. clear -Hhit. induction all as [|r l IH]; [done|]. rewrite !filter_cons, IH by (intros; apply Hhit; by right).
      destruct (Hhit r ltac:(left)) as (hit & -> & Hh & Hk). cbn [kept]. destruct (text_found h (ps_text s) (value r)), (kept (meets bytes_of s r)), hit; cbn [andb] in *; repeat case_decide; naive_solver.
    + apply Forall_forall. intros r [_ Hr]%list_elem_of_filter. by eapply confirm_found, Hall.
    + by destruct (ps_limit s) as [[|?]|].
Qed.
End search.

(** ** Written rows *)

Section written.
Context `{KL : KeyLib, CL : CipherLib, TL : TextLib, !TagText, !JsonText}.

(** C20: a row that is saved: the keys answer as before; each protected field holds what its value
    is (a new value sealed for this very table, field and row, with the fingerprints its method
    asks for, or a hash that verifies it, or its fingerprint; a closed value only if it was read
    from this place, and unchanged); every other field is as the entity has it. *)
Theorem seal_row_result k table specs key randoms parts object b k' : key_sorted object → NoDup (sp_key <$> specs) →
  (∀ i spec part, specs !! i = Some spec → parts !! i = Some part → salted spec part (default (inr Random) (randoms !! i))) →
  seal_row k table specs key randoms (Ok parts) (Ok (JObject object)) = Ok (b, k') →
  same_keys k k' ∧ length parts = length specs ∧ ∃ object', json_read b = Some (JObject object') ∧
    (∀ i spec part, specs !! i = Some spec → parts !! i = Some part →
       ∃ stored, find_key (sp_key spec) object' = Some stored ∧ sealed_ok object' spec = true ∧ holds_part k table key spec part stored) ∧
    (∀ name, name ∉ sp_key <$> specs → find_key name object' = find_key name object).
Proof using Type. apply seal_row_spec. Qed.

(** The handle of a field, and the look at its sealed text in a row read from storage. *)
Definition handle_of (spec : SealedSpec) : PrintHandle :=
  {| ph_key := sp_key spec; ph_field_id := sp_id spec; ph_method := sp_method spec; ph_normalize := sp_normalize spec;
     ph_window := sp_window spec; ph_bits := sp_bits spec |}.

Definition closed_view (spec : SealedSpec) (table : str) (row : str * bytes) : option ClosedView :=
  match json_read row.2 with
  | Some (JObject o) =>
      match find_key (sp_key spec) o with
      | Some j => match @sealed_deserialize () j with
                  | Ok (SealedClosed text _ _ _) =>
                      Some {| cv_text := text; cv_at := binding_of {| rb_table := []; rb_table_id := table; rb_row_key := row.1 |} (sp_id spec) |}
                  | _ => None
                  end
      | None => None
      end
  | _ => None
  end.

Lemma stored_form_reads text full parts : @sealed_deserialize () (stored_form text (Some full) (Some parts)) = Ok (SealedClosed text (Some full) (Some parts) None).
Proof using Type. reflexivity. Qed.

Lemma stored_form_parts text full parts : ∃ o, stored_form text (Some full) (Some parts) = JObject o ∧ find_key PARTS_KEY o = Some (JString (Some parts)).
Proof using Type. eexists. split; [reflexivity|]. reflexivity. Qed.

(** C21: a text saved in a field that is searched by parts is one that the search of that field
    works on: read back from the row as saved, its sealed text opens at its place to the text and
    the parts beside it are those of the text. *)
Theorem written_text_searchable k table specs key randoms parts object b k' i spec plain value name :
  key_sorted object → NoDup (sp_key <$> specs) →
  (∀ i spec part, specs !! i = Some spec → parts !! i = Some part → salted spec part (default (inr Random) (randoms !! i))) →
  seal_row k table specs key randoms (Ok parts) (Ok (JObject object)) = Ok (b, k') →
  specs !! i = Some spec → parts !! i = Some (PartNew plain) → sp_method spec = EncryptPartPrints →
  json_text plain = Some value → utf8_valid value = true →
  ∃ cipher, rmap fst (field_cipher k table (sp_id spec)) = Ok cipher ∧
    holds_text (closed_view spec table) snd {| g_keys := k; g_table := name; g_table_id := table |} (handle_of spec) cipher value (key, b).
Proof using Type.
  intros Hk Hn Hs E Ei Ej Hm Hv Hu. apply seal_row_spec in E as (_ & _ & o & Ej' & Hrows & _); [|done..].
  destruct (Hrows i spec _ Ei Ej) as (stored & Hf & _ & Hh). unfold holds_part in Hh. rewrite Hm in Hh. cbn [is_sealing has_stored_print has_parts made] in Hh.
  destruct Hh as (text & full & tags & cipher & -> & Hc & Ho & (f & _ & ->) & (t & Ht & ->)). exists cipher. split; [done|].
  unfold parts_of_json in Ht. rewrite Hv in Ht. destruct (part_tags _ _ _ _ _ _ _) as [ts|] eqn:Et; [|done]. injection Ht as <-.
  split; [done|]. split.
  - unfold closed_view. cbn [fst snd]. rewrite Ej', Hf, stored_form_reads. eexists _, plain. split_and!; try done.
  - exists ts. split; [done|]. destruct (stored_form_parts text f (join_tags ts)) as (o' & Eo & Ep). unfold extract. cbn [snd]. rewrite Ej'. cbn [ok_or rbind select handle_of ph_key].
    rewrite Hf, Eo. cbn [select]. by rewrite Ep.
Qed.
End written.

(** ** Queries *)

(** C22: a query that the check of its conditions lets through answers alike on two rows that
    differ only in protected fields and hold the same of the fingerprints issued for the query: a
    condition can learn of a protected field nothing else.  Two things are asked of the query:
    every path of it starts at a key ([rooted]; the check lets a path without a key pass, and the
    claim fails for it, see [rootless_condition_learns]), and no issued fingerprint reads as a
    date or a time ([timeless]). *)
Theorem accepted_learns_prints `{TL : TextLib} specs printed e b b' :
  rooted e = true → check_filter specs e printed = Ok () → timeless printed → alike specs printed b b' →
  matches b e = matches b' e.
Proof.
  intros Hr Hc Ht Hal. unfold matches, row_evaluation.
  rewrite !(agrees_fst _ [] _ _ (row_matches_agrees e _ [] _ (slots_ok_fresh _ []))). by eapply accepted_shared.
Qed.

(** ** Hashes *)

(** A stored verification hash verifies a secret exactly when it is what hashing that secret,
    under some salt, stores for this field and row; and text that is no such hash is refused,
    never an error. *)
Theorem hash_verifies_exactly `{KL : KeyLib, CL : CipherLib} k algo place secret stored :
  (verify_value k algo place secret stored = Ok true ↔
   ∃ salt, length salt = HASH_SALT ∧ hash_value k algo place (inl salt) secret = Ok stored) ∧
  (B64.decode stored = None → verify_value k algo place secret stored = Ok false).
Proof. split; [apply hash_exact|]. intros E. unfold verify_value. by rewrite E. Qed.

(** ** A concrete setting for evaluated examples of protected fields

    A text form of JSON, key derivations and tags that mix their input by a polynomial, and a table
    with one field of each kind. *)
Module FieldDemo.
(** ** JSON *)

(** Equality of the forms the examples use, as a program. *)
Fixpoint entries_eqb (eqb : json → json → bool) (o o' : list (str * json)) : bool :=
  match o, o' with
  | [], [] => true
  | p :: o, p' :: o' => bool_decide (p.1 = p'.1) && eqb p.2 p'.2 && entries_eqb eqb o o'
  | _, _ => false
  end.
Fixpoint json_eqb (a b : json) : bool :=
  match a, b with
  | JNull, JNull => true
  | JString (Some s), JString (Some s') => bool_decide (s = s')
  | JObject o, JObject o' => entries_eqb json_eqb o o'
  | _, _ => false
  end.

Definition entries_eqb_eq (eqb : json → json → bool) (Heqb : ∀ a b, eqb a b = true → a = b) :
  ∀ o o', entries_eqb eqb o o' = true → o = o'.
Proof.
  fix IH 1. intros [|[k v] o] [|[k' v'] o']; cbn; [done..|]. rewrite !andb_true_iff, bool_decide_eq_true. intros [[-> Hv] Ho].
  apply Heqb in Hv as ->. apply IH in Ho as ->. reflexivity.
Defined.

Lemma json_eqb_eq : ∀ a b, json_eqb a b = true → a = b.
Proof.
  fix IH 1. intros [|b|t|[s|]|l|o] [|b'|t'|[s'|]|l'|o']; cbn; try discriminate; [done| |].
  - by intros ->%bool_decide_eq_true.
  - intros Ho. apply (entries_eqb_eq json_eqb IH) in Ho as ->. done.
Qed.

Definition text_bytes (s : str) : bytes := le_bytes 4 (len s) ++ s.
Fixpoint text_json (j : json) : bytes :=
  match j with
  | JString (Some s) => lit "s" ++ text_bytes s
  | JObject o => lit "o" ++ (o ≫= λ p, lit "k" ++ text_bytes p.1 ++ text_json p.2) ++ lit "e"
  | _ => lit "n"
  end.

Definition read_text (b : bytes) : option (str * bytes) :=
  if (length b <? 4)%nat then None else
  let n := N.to_nat (of_le (take 4 b)) in Some (take n (drop 4 b), drop n (drop 4 b)).

Fixpoint read_json (fuel : nat) (b : bytes) : option (json * bytes) :=
  match fuel, b with
  | S fuel', c :: b' =>
      if byte_to_N c =? 115 then match read_text b' with Some (s, r) => Some (JString (Some s), r) | None => None end
      else if byte_to_N c =? 110 then Some (JNull, b')
      else if byte_to_N c =? 111 then
        (fix entries (n : nat) (b : bytes) (o : list (str * json)) : option (json * bytes) :=
           match n, b with
           | S n', c :: b' =>
               if byte_to_N c =? 101 then Some (JObject o, b') else
               match read_text b' with
               | Some (k, r) => match read_json fuel' r with Some (v, r') => entries n' r' (o ++ [(k, v)]) | None => None end
               | None => None
               end
           | _, _ => None
           end) fuel' b' []
      else None
  | _, _ => None
  end.
Definition parse_json (b : bytes) : option json := match read_json (S (length b)) b with Some (j, []) => Some j | _ => None end.

Definition field_text : TextLib := {|
  json_read := parse_json;
  raw_token s := Some s;
  to_lowercase s := s; is_alphanumeric c := (48 <=? c)%N; levenshtein _ _ := 0%N; json_string s := s;
  parse_rfc3339 _ := None; parse_date _ := None; parse_naive_t _ := None; parse_naive_space _ := None;
|}.
#[local] Existing Instance field_text.

Lemma field_text_tags : TagText.
Proof.
  split.
  - intros n Hn. cbn [is_alphanumeric field_text]. apply N.leb_le. unfold hex_digit. rewrite byte_to_of_N. destruct (N.ltb_spec n 10); rewrite N.mod_small; lia.
  - reflexivity.
  - reflexivity.
  - intros s Hs. exact Hs.
Qed.

Program Definition field_json : JsonText := {|
  json_write j := let b := text_json j in match parse_json b with Some j' => if json_eqb j' j then Some b else None | None => None end
|}.
Next Obligation.
  cbn. intros j b. destruct (parse_json (text_json j)) as [j'|] eqn:E; [|done]. destruct (json_eqb j' j) eqn:Eq; [|done]. apply json_eqb_eq in Eq as ->. by intros [= <-].
Qed.

(** ** Keys *)

Definition mixed (b : bytes) : N := foldl (λ a c, (a * 1000003 + byte_to_N c + 7) mod 2 ^ 61) 1 b.

Program Definition field_lib : KeyLib := {|
  hkdf _ salt ikm info n := Some (le_bytes n (mixed (ikm ++ info)));
  argon2id _ _ _ password salt n := Some (le_bytes n (mixed (password ++ salt)));
  scrypt _ _ _ password salt n := Some (le_bytes n (mixed (password ++ salt)));
  keyed_hash kind key data := Some (le_bytes (output_len kind) (mixed (key ++ data)));
|}.
Next Obligation. intros _ _ ikm info n k [= <-]. apply le_bytes_length. Qed.
Next Obligation. intros _ _ _ p s n k [= <-]. apply le_bytes_length. Qed.
Next Obligation. intros _ _ _ p s n k [= <-]. apply le_bytes_length. Qed.
Next Obligation. intros kind key data tag [= <-]. apply le_bytes_length. Qed.
#[local] Existing Instances field_lib field_json Cipher.toy_cipher.

Definition field_access : KeyAccess := {| ac_read := Some (replicate 32 Byte.x11); ac_search := Some (replicate 32 Byte.x22) |}.
Definition field_keys (a : KeyAccess) : FieldKeys := {| fk_suite := default_suite; fk_source := Some a; fk_ciphers := ∅; fk_carried := ∅ |}.
Example field_keys_made : field_keys_new default_suite field_access = Ok (field_keys field_access).
Proof. reflexivity. Qed.

(** ** A table *)

Definition phone : SealedSpec :=
  {| sp_id := 1; sp_key := lit "phone"; sp_method := EncryptPartPrints; sp_hash := None; sp_normalize := []; sp_window := 3; sp_bits := 16 |}.
Definition pin : SealedSpec :=
  {| sp_id := 2; sp_key := lit "pin"; sp_method := HashMethod; sp_hash := Some HashArgon2id; sp_normalize := []; sp_window := 0; sp_bits := 0 |}.
Definition mail : SealedSpec :=
  {| sp_id := 3; sp_key := lit "mail"; sp_method := SearchPrint; sp_hash := None; sp_normalize := [Trim]; sp_window := 0; sp_bits := 0 |}.
Definition people : list SealedSpec := [phone; pin; mail].

Definition person_object (id : str) : list (str * json) :=
  [(lit "id", JString (Some id)); (lit "mail", JNull); (lit "phone", JNull); (lit "pin", JNull)].
Definition person_parts (number : str) : list Part :=
  [PartNew (text_json (JString (Some number))); PartNew (lit "1234"); PartNew (lit " a@b ")].
Definition person_randoms : list (outcome CryptoError bytes) := [inl (replicate 12 Byte.x05); inl (replicate 16 Byte.x06)].
Definition person_row (id number : str) : result (bytes * FieldKeys) :=
  seal_row (field_keys field_access) (lit "t1") people id person_randoms (Ok (person_parts number)) (Ok (JObject (person_object id))).

Definition saved (id number : str) : str * bytes := (id, match person_row id number with Ok (b, _) => b | Err _ => [] end).
Example person_saved : is_ok (person_row (lit "r1") (lit "abcde")) = true.
Proof. vm_compute. reflexivity. Qed.
End FieldDemo.

(** ** Examples *)

Module FieldExamples.
Import FieldDemo.
#[local] Existing Instances field_text field_json field_lib field_text_tags.
#[local] Existing Instance toy_cipher.

Definition why (_ : ClError) : str := lit "error".
Definition grant : SearchGrant := {| g_keys := field_keys field_access; g_table := lit "people"; g_table_id := lit "t1" |}.
Definition phones : PrintHandle := handle_of phone.
Definition saved_numbers : list (str * str) := [(lit "r1", lit "abcdxbcde"); (lit "r2", lit "xxabcde"); (lit "r3", lit "cdeabc")].
Definition table_rows : list (str * bytes) := (λ p, saved p.1 p.2) <$> saved_numbers.
Definition number_of (row : str * bytes) : str := default [] (snd <$> head (filter (λ p, p.1 = row.1) saved_numbers)).
Definition cipher_of : Aead := match field_cipher (field_keys field_access) (lit "t1") 1 with Ok (a, _) => a | Err _ => {| kind := Aes256GcmSiv; a_key := [] |} end.
(** Only the row [r1] or [r2]. *)
Definition row_is (id : str) : Predicate :=
  pred_new (ECompare {| p_steps := [Key (lit "id")]; p_kind := Auto; p_transforms := [] |} CEq [VString id]).
Definition abcde : PartSearch := part_search phones (lit "abcde").
Definition search_of (id : str) : PartSearch := part_filter (row_is id) abcde.
(** A domain of one page. *)
Definition domain (p : Predicate) (_ : option N) : result (list (str * bytes) * option N) :=
  Ok (filter (λ r, kept (matches r.2 (expression p)) = true) table_rows, None).
Definition search_result (s : PartSearch) : result (list str) :=
  rmap (fmap fst) (rbind (part_search_run why (closed_view phone (lit "t1")) domain 5 grant s) into_confirmed).

(** The first row has every part of the text and does not contain it. *)
Lemma part_search_exact_witness :
  fst <$> filter (λ r, kept (matches r.2 (expression (part_predicate why abcde grant))) = true) table_rows = [lit "r1"; lit "r2"] ∧
  search_result abcde = Ok [lit "r2"] ∧ search_result (search_of (lit "r2")) = Ok [lit "r2"] ∧ search_result (search_of (lit "r1")) = Ok [].
Proof.
  split; [vm_compute; reflexivity|].
  destruct (part_tags (field_keys field_access) (lit "t1") 1 [] 3 16 (lit "abcde")) as [tags|e] eqn:Et; [|exfalso; vm_compute in Et; discriminate Et].
  assert (Hs : ∀ s, ps_handle s = phones → ps_text s = lit "abcde" → Forall (λ r, is_ok (meets snd s r) = true) table_rows →
    part_search_run why (closed_view phone (lit "t1")) domain 5 grant s =
      Ok (Confirmed (limited (at_least_one (ps_limit s)) (filter (λ r, text_found phones (lit "abcde") (number_of r) && kept (meets snd s r) = true) table_rows)))).
  { intros [h x f l] Eh Ex Hm. cbn [ps_handle ps_text] in Eh, Ex. subst h x.
    refine (proj2 (proj2 (part_search_exact why (closed_view phone (lit "t1")) snd domain 1 5 grant
      {| ps_handle := phones; ps_text := lit "abcde"; ps_filter := f; ps_limit := l |} tags cipher_of number_of table_rows
      eq_refl _ _ Et _ _ (pages_last _ _ _ eq_refl) ltac:(lia)))).
    - vm_compute. reflexivity.
    - apply N.leb_le. vm_compute. reflexivity.
    - intros a k E. unfold cipher_of. cbn [g_keys g_table_id ph_field_id grant phones handle_of phone sp_id ps_handle] in E. rewrite E. reflexivity.
    - apply Forall_and. split; [|exact Hm]. unfold table_rows, saved_numbers. cbn [fmap list_fmap fst snd].
      constructor; [|constructor; [|constructor; [|constructor]]]; apply holds_text_b_ok; vm_compute; reflexivity. }
  assert (Hm : ∀ s, forallb (λ r, is_ok (meets snd s r)) table_rows = true → Forall (λ r, is_ok (meets snd s r) = true) table_rows).
  { intros s Hf. apply Forall_forall. intros r Hr. rewrite forallb_forall in Hf. by apply Hf, list_elem_of_In. }
  assert (Hr : ∀ s l, ps_handle s = phones → ps_text s = lit "abcde" → forallb (λ r, is_ok (meets snd s r)) table_rows = true →
    fst <$> limited (at_least_one (ps_limit s)) (filter (λ r, text_found phones (lit "abcde") (number_of r) && kept (meets snd s r) = true) table_rows) = l →
    search_result s = Ok l).
  { intros s l Eh Ex Hf <-. unfold search_result. by rewrite (Hs s Eh Ex (Hm s Hf)). }
  split; [|split]; (apply Hr; [reflexivity|reflexivity|vm_compute; reflexivity|vm_compute; reflexivity]).
Defined.

Lemma person_sorted id : key_sorted (person_object id).
Proof. unfold key_sorted. cbn. repeat constructor. Qed.

Lemma person_salted number i spec part : people !! i = Some spec → person_parts number !! i = Some part →
  salted spec part (default (inr Random) (person_randoms !! i)).
Proof. destruct i as [|[|[|i]]]; cbn; intros [= <-] [= <-] plain s _; try done. by intros _ [= <-]. Qed.

Lemma people_distinct : NoDup (sp_key <$> people).
Proof. refine (bool_decide_unpack _ _). vm_compute. exact I. Qed.

(** The hash of the saved row verifies the number it was made of. *)
Lemma seal_row_result_witness : ∃ b k' object', person_row (lit "r1") (lit "abcde") = Ok (b, k') ∧ json_read b = Some (JObject object') ∧
  find_key (lit "id") object' = Some (JString (Some (lit "r1"))) ∧
  ∃ text, find_key (lit "pin") object' = Some (JString (Some text)) ∧
    verify_value (field_keys field_access) HashArgon2id {| table_id := lit "t1"; field_id := 2; row_key := lit "r1" |} (lit "1234") text = Ok true.
Proof.
  destruct (person_row (lit "r1") (lit "abcde")) as [[b k']|e] eqn:E; [|exfalso; vm_compute in E; discriminate E].
  destruct (seal_row_result (field_keys field_access) (lit "t1") people (lit "r1") person_randoms (person_parts (lit "abcde")) (person_object (lit "r1")) b k')
    as (_ & _ & object' & Ej & Hrows & Hrest).
  - apply person_sorted.
  - exact people_distinct.
  - apply person_salted.
  - exact E.
  - exists b, k', object'. split; [reflexivity|split; [exact Ej|split]].
    + rewrite Hrest; [reflexivity|]. refine (bool_decide_unpack _ _). vm_compute. exact I.
    + destruct (Hrows 1%nat pin (PartNew (lit "1234")) eq_refl eq_refl) as (stored & Ef & _ & Hh). destruct Hh as (algo & text & Ea & -> & Hv).
      injection Ea as <-. exists text. split; [exact Ef|exact Hv].
Defined.

Lemma written_text_searchable_witness : ∃ cipher, rmap fst (field_cipher (field_keys field_access) (lit "t1") 1) = Ok cipher ∧
  holds_text (closed_view phone (lit "t1")) snd grant phones cipher (lit "abcde") (saved (lit "r1") (lit "abcde")).
Proof.
  unfold saved. destruct (person_row (lit "r1") (lit "abcde")) as [[b k']|e] eqn:E; [|exfalso; vm_compute in E; discriminate E].
  apply (written_text_searchable (field_keys field_access) (lit "t1") people (lit "r1") person_randoms (person_parts (lit "abcde")) (person_object (lit "r1"))
    b k' 0 phone (text_json (JString (Some (lit "abcde")))) (lit "abcde") (lit "people")).
  - apply person_sorted.
  - exact people_distinct.
  - apply person_salted.
  - exact E.
  - reflexivity.
  - reflexivity.
  - reflexivity.
  - vm_compute. reflexivity.
  - vm_compute. reflexivity.
Defined.

(** ** Two rows with mail addresses that a query does not ask for *)

Definition mail_print (m : str) : str := match print_value (field_keys field_access) (lit "t1") 3 [Trim] m with Ok t => t | Err _ => [] end.
Definition mail_object (m : str) : list (str * json) := [(lit "id", JString (Some (lit "r1"))); (lit "mail", JString (Some (mail_print m)))].
Definition mail_query : Predicate := print_eq why (handle_of mail) (lit "z") grant.

Lemma mail_alike : alike [mail] (printed mail_query) (text_json (JObject (mail_object (lit "a@b")))) (text_json (JObject (mail_object (lit "c@d")))).
Proof.
  split.
  - exists (mail_object (lit "a@b")), (mail_object (lit "c@d")). split; [vm_compute; reflexivity|split; [vm_compute; reflexivity|]].
    intros name Hname. unfold mail_object. rewrite !find_key_cons. destruct (decide (lit "mail" = name)) as [<-|]; [|reflexivity].
    exfalso. apply Hname. by left.
  - intros spec steps ->%list_elem_of_singleton [= <-]. exists (mail_print (lit "a@b")), (mail_print (lit "c@d")).
    split; [vm_compute; reflexivity|split; [vm_compute; reflexivity|]].
    intros tag Htag. assert (tag = mail_print (lit "z")) as -> by (vm_compute in Htag |- *; by apply list_elem_of_singleton in Htag).
    split; intros E; vm_compute in E; discriminate E.
  - intros spec steps ->%list_elem_of_singleton. done.
Qed.

Lemma accepted_learns_prints_witness :
  let e := EAnd (ENot (expression mail_query)) (EPresence {| p_steps := [Key (lit "id")]; p_kind := Auto; p_transforms := [] |} PExists) in
  matches (text_json (JObject (mail_object (lit "a@b")))) e = Ok true ∧ matches (text_json (JObject (mail_object (lit "c@d")))) e = Ok true.
Proof.
  intros e. rewrite (accepted_learns_prints [mail] (printed mail_query) e (text_json (JObject (mail_object (lit "a@b")))) (text_json (JObject (mail_object (lit "c@d"))))).
  - split; vm_compute; reflexivity.
  - vm_compute. reflexivity.
  - vm_compute. reflexivity.
  - intros kind tag _ Hk. destruct kind; [contradiction|eexists; reflexivity..].
  - exact mail_alike.
Defined.

(** What [rooted] leaves out: the path of a public [Field::flattened] has no step, so the check
    finds no field for it and lets the condition pass; it compares the whole stored row, and
    tells apart rows that hold the same of the issued fingerprints. *)
Definition whole_row (b : bytes) : Predicate :=
  field_compare (field_flattened Auto) CEq (rmap (λ v, [v]) (extract b [])) (λ _, []).

Lemma rootless_condition_learns :
  let b := text_json (JObject (mail_object (lit "a@b"))) in
  let b' := text_json (JObject (mail_object (lit "c@d"))) in
  check_filter [mail] (expression (whole_row b)) (printed mail_query) = Ok () ∧
  alike [mail] (printed mail_query) b b' ∧
  matches b (expression (whole_row b)) = Ok true ∧ matches b' (expression (whole_row b)) = Ok false.
Proof.
  intros b b'. split; [vm_compute; reflexivity|]. split; [exact mail_alike|]. split; vm_compute; reflexivity.
Qed.

(** [.limit(0)] with the read key keeps one row, and none without it. *)
Example limit_zero_keeps_one :
  search_result (part_limit 0 abcde) = Ok [lit "r2"] ∧
  part_search_run why (closed_view phone (lit "t1")) domain 5
    {| g_keys := field_keys {| ac_read := None; ac_search := ac_search field_access |}; g_table := lit "people"; g_table_id := lit "t1" |}
    (part_limit 0 abcde) = Ok (Candidates []).
Proof. split; vm_compute; reflexivity. Qed.
End FieldExamples.
