(* ===== verification/Rekey.v ===== *)
(** * Changing the keys of protected fields ([field_crypto/carried.rs], [migrate.rs],
      [migration/encrypted/rekey.rs])

    A database is copied under new keys.  A sealed value is opened and sealed again; a verification
    hash and a search fingerprint cannot be made again, so the key each was made with is carried
    over, sealed under the new roots, in a table of the file.  The table of carried keys is a redb
    table, [None] when the file has none.  Rows are kept as the text of their values: the class
    [RawJson] has serde_json's reading of an object into its keys and the text of its values. *)
From S2P Require Import Prelude Order Redb Fields Eval BackupCodec B64 Cipher Index Keys Sealed Protected Slots.
Local Open Scope N_scope.

(** ** The table of carried keys *)

Definition bad_name {A : Type} : result A := bad "an entry of the carried keys has a name that is not one".

(** [parse::<u32>()]. *)
Definition parse_u32 (s : str) : option N :=
  match parse_u64 s with Some n => if n <? 2 ^ 32 then Some n else None | None => None end.

Definition parse_name (name : str) : result (str * N) :=
  match BackupCodec.rsplit_once name with
  | None => bad_name
  | Some (table_id, field) => match parse_u32 field with Some id => Ok (table_id, id) | None => bad_name end
  end.

Record CarryItem := { ci_table : str; ci_field : N; ci_kind : CarriedKind; ci_key : bytes }.

Record Loaded := { table_exists : bool; l_fields : list (str * N); l_opened : N }.

Section carried.
Context `{Redb, KeyLib, CipherLib}.
Abbreviation Carried := (Redb.table str bytes).

Definition load_entry (st : Loaded * FieldKeys) (row : str * bytes) : result (Loaded * FieldKeys) :=
  let '(loaded, keys) := st in
  let? '(table_id, field_id) := parse_name row.1 in
  let loaded := {| table_exists := table_exists loaded; l_fields := l_fields loaded ++ [(table_id, field_id)]; l_opened := l_opened loaded |} in
  let? opened := open_entry keys table_id field_id row.2 in
  match opened with
  | Some (kind, key) =>
      Ok ({| table_exists := table_exists loaded; l_fields := l_fields loaded; l_opened := l_opened loaded + 1 |},
          install_carried keys kind table_id field_id key)
  | None => Ok (loaded, keys)
  end.

Definition load (t : option Carried) (keys : FieldKeys) : result (Loaded * FieldKeys) :=
  match t with
  | None => Ok ({| table_exists := false; l_fields := []; l_opened := 0 |}, keys)
  | Some t => try_fold load_entry ({| table_exists := true; l_fields := []; l_opened := 0 |}, keys) (t_iter t)
  end.

Definition write_all (entries : list (str * bytes)) : Carried := foldl (λ t p, t_insert t p.1 p.2) t_new entries.

(** ** What is carried *)

Definition PROBE : str := lit "roots-probe".
Definition hash_root_changed (old new : FieldKeys) : result bool :=
  let? a := field_hash_key old PROBE 0 in let? b := field_hash_key new PROBE 0 in Ok (negb (bool_decide (a = b))).
Definition print_root_changed (old new : FieldKeys) : result bool :=
  let? a := print_key old PROBE 0 in let? b := print_key new PROBE 0 in Ok (negb (bool_decide (a = b))).

Definition carry_spec (old new : FieldKeys) (table_id : str) (spec : SealedSpec) : result (list CarryItem) :=
  match sp_method spec with
  | HashMethod =>
      let? changed := hash_root_changed old new in
      if changed then let? key := field_hash_key old table_id (sp_id spec) in
                      Ok [{| ci_table := table_id; ci_field := sp_id spec; ci_kind := CarriedHash; ci_key := key |}]
      else Ok []
  | SearchPrint =>
      let? changed := print_root_changed old new in
      if changed then let? key := print_key old table_id (sp_id spec) in
                      Ok [{| ci_table := table_id; ci_field := sp_id spec; ci_kind := CarriedPrint; ci_key := key |}]
      else Ok []
  | _ => Ok []
  end.
Definition carry_plan (old new : FieldKeys) (table_id : str) (specs : list SealedSpec) : result (list CarryItem) :=
  rmap mjoin (traverse (carry_spec old new table_id) specs).

Definition install_items (keys : FieldKeys) (items : list CarryItem) : FieldKeys :=
  foldl (λ k i, install_carried k (ci_kind i) (ci_table i) (ci_field i) (ci_key i)) keys items.

(** [randoms]: what the random source answers for the seals, in their order. *)
Fixpoint carry_old (old new : FieldKeys) (items : list CarryItem) (randoms : list (outcome CryptoError bytes)) (entries : list (str * bytes))
    : result (list (str * bytes) * list (outcome CryptoError bytes)) :=
  match entries with
  | [] => Ok ([], randoms)
  | (name, stored) :: entries' =>
      let? '(table_id, field_id) := parse_name name in
      if existsb (λ i, bool_decide (ci_table i = table_id) && (ci_field i =? field_id)) items then carry_old old new items randoms entries' else
      let? opened := open_entry old table_id field_id stored in
      match opened with
      | None => bad "an entry of the carried keys cannot be opened with these keys, so it cannot be carried on; nothing was changed"
      | Some (kind, key) =>
          let? sealed := seal_entry new kind table_id field_id (default (inr Random) (head randoms)) key in
          let? '(rest, randoms) := carry_old old new items (tail randoms) entries' in
          Ok ((name, sealed) :: rest, randoms)
      end
  end.

Fixpoint carry_new (new : FieldKeys) (randoms : list (outcome CryptoError bytes)) (items : list CarryItem) : result (list (str * bytes)) :=
  match items with
  | [] => Ok []
  | i :: items' =>
      let? sealed := seal_entry new (ci_kind i) (ci_table i) (ci_field i) (default (inr Random) (head randoms)) (ci_key i) in
      let? rest := carry_new new (tail randoms) items' in
      Ok ((entry_name (ci_table i) (ci_field i), sealed) :: rest)
  end.

Definition next_table (old new : FieldKeys) (old_entries : list (str * bytes)) (items : list CarryItem)
    (randoms : list (outcome CryptoError bytes)) : result (list (str * bytes)) :=
  let? '(kept, randoms) := carry_old old new items randoms old_entries in
  let? made := carry_new new randoms items in
  Ok (merge_sort (λ a b : str * bytes, cmp a b ≠ Gt) (kept ++ made)).

(** ** The plan of a change ([Rekey]) *)

Record Resolved := { rs_table : str; rs_id : str; rs_specs : list SealedSpec }.

(** The keys are those of [old] and [new] with the carried ones in place. *)
Record RekeyPlan := {
  rk_old : FieldKeys; rk_new : FieldKeys; rk_tables : list Resolved; rk_had_carried : bool; rk_written : list (str * bytes) }.

Definition take_carried (keys : FieldKeys) (row : str * bytes) : result FieldKeys :=
  let? '(table_id, field_id) := parse_name row.1 in
  let? opened := open_entry keys table_id field_id row.2 in
  Ok match opened with Some (kind, key) => install_carried keys kind table_id field_id key | None => keys end.

Definition rekey_plan (tables : list Resolved) (from : option Carried) (old new : FieldKeys) (randoms : list (outcome CryptoError bytes))
    : result RekeyPlan :=
  let old_entries := match from with Some t => t_iter t | None => [] end in
  let? old := try_fold take_carried old old_entries in
  let? items := rmap mjoin (traverse (λ t, carry_plan old new (rs_id t) (rs_specs t)) tables) in
  let new := install_items new items in
  let? written := next_table old new old_entries items randoms in
  Ok {| rk_old := old; rk_new := new; rk_tables := tables; rk_had_carried := bool_decide (is_Some from); rk_written := written |}.

Definition writes_carried (r : RekeyPlan) : bool := rk_had_carried r || negb (bool_decide (rk_written r = [])).

(** [extra_tables]: the table of the new file. *)
Definition carried_table (r : RekeyPlan) : option Carried := if writes_carried r then Some (write_all (rk_written r)) else None.
End carried.

(** ** Rows as text ([Row]) *)

(** The fields of an object in their order, each with the text of its value. *)
Abbreviation Row := (list (str * str)).

Fixpoint row_fields `{TextLib} (row : Row) : bytes :=
  match row with
  | [] => []
  | (k, v) :: row' => json_string k ++ lit ":" ++ v ++ match row' with [] => [] | _ => lit "," ++ row_fields row' end
  end.
Definition row_encode `{TextLib} (row : Row) : bytes := lit "{" ++ row_fields row ++ lit "}".

(** [serde_json] with raw values: the keys of an object and the text of each value, without the
    space around it, which reads as the value does; what [row_encode] writes reads as it was. *)
Class RawJson `{JsonText} := {
  raw_entries : bytes → option Row;
  raw_entries_texts : ∀ b row, raw_entries b = Some row → Forall (λ p, utf8_valid p.1 = true ∧ raw_token p.2 = Some p.2) row;
  raw_entries_encode : ∀ row, Forall (λ p, utf8_valid p.1 = true ∧ raw_token p.2 = Some p.2) row → raw_entries (row_encode row) = Some row;
  raw_token_again : ∀ s t, raw_token s = Some t → raw_token t = Some t;
  raw_token_reads : ∀ s t, raw_token s = Some t → json_read t = json_read s;
  json_write_token : ∀ j b, json_write j = Some b → is_Some (raw_token b);
}.

Definition row_get (key : str) (row : Row) : option str := snd <$> head (filter (λ p, p.1 = key) row).

(** The first field of the key gets the text. *)
Fixpoint row_replace (key v : str) (row : Row) : option Row :=
  match row with
  | [] => None
  | p :: row' => if decide (p.1 = key) then Some ((p.1, v) :: row') else match row_replace key v row' with Some r => Some (p :: r) | None => None end
  end.

Definition same_but (a b : Row) (changed : list str) : bool :=
  let keep := filter (λ p : str * str, p.1 ∉ changed) in
  bool_decide (keep a = keep b) && bool_decide (a.*1 = b.*1).

(** Every string of a value decodes, as [from_str::<Value>] demands. *)
Fixpoint decodes (j : json) : bool :=
  match j with
  | JString None => false
  | JArray l => forallb decodes l
  | JObject o => forallb (λ p, decodes p.2) o
  | _ => true
  end.

Record Stored := { st_sealed : str; st_full : option str; st_parts : option str }.

Definition wrong_form {A : Type} : result A := bad "a protected field does not have the stored form of a sealed value".

Section rows.
Context `{KeyLib, CipherLib, TL : TextLib, JT : !JsonText, !RawJson}.

Definition row_parse (b : bytes) : result Row :=
  match raw_entries b with
  | None => bad "a stored row is not a JSON object"
  | Some row => if bool_decide (NoDup row.*1) then Ok row else bad "a stored row has a field twice"
  end.

Definition row_set (key text : str) (row : Row) : result Row :=
  match raw_token text with
  | None => bad "a new field value is not JSON"
  | Some v => match row_replace key v row with Some r => Ok r | None => bad "a stored row has no such field" end
  end.

Definition text_at (key : str) (o : list (str * json)) : result (option str) :=
  match find_key key o with
  | None => Ok None
  | Some (JString (Some t)) => Ok (Some t)
  | Some _ => wrong_form
  end.

Definition read_stored (raw : str) : result Stored :=
  match json_read raw with
  | Some j =>
      if negb (decodes j) then wrong_form else
      match j with
      | JString (Some sealed) => Ok {| st_sealed := sealed; st_full := None; st_parts := None |}
      | JObject o =>
          let? s := text_at (lit "s") o in
          match s with
          | None => wrong_form
          | Some sealed =>
              if negb (forallb (λ p, bool_decide (p.1 ∈ [lit "s"; lit "f"; lit "p"])) o) then wrong_form else
              let? f := text_at (lit "f") o in
              let? p := text_at (lit "p") o in
              Ok {| st_sealed := sealed; st_full := f; st_parts := p |}
          end
      | _ => wrong_form
      end
  | None => wrong_form
  end.

(** The text of a stored value, which the source expects to be writable. *)
Definition value_text (j : json) : result str := ok_or (json_write j) (Serialization (lit "an object of texts serializes")).
Definition stored_text (sealed : str) (full parts : option str) : result str := value_text (stored_form sealed full parts).

Definition prints_for (k : FieldKeys) (table_id : str) (spec : SealedSpec) (plain : bytes) : result (option str * option str) :=
  let? full := if has_stored_print (sp_method spec) then rmap Some (full_print_of_json k table_id spec plain) else Ok None in
  let? parts := if has_parts (sp_method spec) then rmap Some (parts_of_json k table_id spec plain) else Ok None in
  Ok (full, parts).

Definition seal_plain (k : FieldKeys) (table_id : str) (spec : SealedSpec) (row_key : str) (random : outcome CryptoError bytes) (plain : bytes)
    : result (str * FieldKeys) :=
  if negb (is_sealing (sp_method spec)) then bad "this field is not one that seals its value" else
  let? '(full, parts) := prints_for k table_id spec plain in
  let? '(cipher, k) := field_cipher k table_id (sp_id spec) in
  let? sealed := bad_on "a value could not be sealed"
                   (seal_envelope cipher random {| table_id := table_id; field_id := sp_id spec; row_key := row_key |} plain) in
  let? text := stored_text sealed full parts in
  Ok (text, k).

Definition open_stored (k : FieldKeys) (table_id : str) (field_id : N) (row_key : str) (stored : Stored) : result (bytes * FieldKeys) :=
  let? '(cipher, k) := field_cipher k table_id field_id in
  let? plain := bad_on "a protected value did not open with these keys and this place; nothing was changed"
                  (open_envelope cipher {| table_id := table_id; field_id := field_id; row_key := row_key |} (st_sealed stored)) in
  Ok (plain, k).

Definition with_prints (k : FieldKeys) (table_id : str) (spec : SealedSpec) (sealed : str) (plain : bytes) : result str :=
  let? '(full, parts) := prints_for k table_id spec plain in stored_text sealed full parts.
Definition without_prints (stored : Stored) : result str := stored_text (st_sealed stored) None None.

Definition text_of (why : String.string) (plain : bytes) : result str := ok_or (json_text plain) (MigrationError (lit why)).
Arguments text_of why%_string_scope plain.

Definition hash_plain (k : FieldKeys) (table_id : str) (spec : SealedSpec) (row_key : str) (random : outcome CryptoError bytes) (plain : bytes)
    : result str :=
  let? secret := text_of "only a text can become a verification hash" plain in
  match sp_hash spec with
  | None => bad "a hashed field has no hash setting"
  | Some algo =>
      let? h := hash_value k algo {| table_id := table_id; field_id := sp_id spec; row_key := row_key |} random secret in
      value_text (JString (Some h))
  end.

Definition print_plain (k : FieldKeys) (table_id : str) (spec : SealedSpec) (plain : bytes) : result str :=
  let? value := text_of "only a text can become a search fingerprint" plain in
  let? tag := print_value k table_id (sp_id spec) (sp_normalize spec) value in
  value_text (JString (Some tag)).

Definition protect_plain (k : FieldKeys) (table_id : str) (spec : SealedSpec) (row_key : str) (random : outcome CryptoError bytes) (plain : bytes)
    : result (str * FieldKeys) :=
  match sp_method spec with
  | Encrypt | EncryptFullPrint | EncryptPartPrints => seal_plain k table_id spec row_key random plain
  | HashMethod => rmap (λ t, (t, k)) (hash_plain k table_id spec row_key random plain)
  | SearchPrint => rmap (λ t, (t, k)) (print_plain k table_id spec plain)
  end.

Definition parts_are_set_up (spec : SealedSpec) : bool :=
  negb (has_parts (sp_method spec)) || (negb (sp_window spec =? 0) && ((1 <=? sp_bits spec) && (sp_bits spec <=? 64))).

(** One field of [reseal_row]. *)
Definition reseal_field (old new : FieldKeys) (table_id row_key : str) (random : outcome CryptoError bytes) (spec : SealedSpec) (raw : str) (row : Row)
    : result (Row * (FieldKeys * FieldKeys)) :=
  let? stored := read_stored raw in
  let? '(plain, old) := open_stored old table_id (sp_id spec) row_key stored in
  let? '(fresh, new) := seal_plain new table_id spec row_key random plain in
  let? made := read_stored fresh in
  let? '(again, new) := open_stored new table_id (sp_id spec) row_key made in
  if negb (bool_decide (again = plain)) then bad "a value did not open to the same value after it was sealed again; nothing was changed" else
  let? changed := if has_stored_print (sp_method spec)
                  then let? root := print_root_changed old new in
                       Ok (negb root && negb (bool_decide (st_full stored = st_full made) && bool_decide (st_parts stored = st_parts made)))
                  else Ok false in
  if changed then bad "the fingerprints made again differ from the stored ones with the same keys; nothing was changed" else
  let? row := row_set (sp_key spec) fresh row in
  Ok (row, (old, new)).

Fixpoint reseal_fields (old new : FieldKeys) (table_id row_key : str) (randoms : list (outcome CryptoError bytes)) (specs : list SealedSpec) (row : Row)
    : result (Row * (FieldKeys * FieldKeys)) :=
  match specs with
  | [] => Ok (row, (old, new))
  | spec :: specs' =>
      match row_get (sp_key spec) row with
      | None => bad "a stored row has no value for a protected field; nothing was changed"
      | Some raw =>
          match sp_method spec with
          | HashMethod | SearchPrint => reseal_fields old new table_id row_key randoms specs' row
          | _ =>
              let? '(row, (old, new)) := reseal_field old new table_id row_key (default (inr Random) (head randoms)) spec raw row in
              reseal_fields old new table_id row_key (tail randoms) specs' row
          end
      end
  end.

Definition reseal_row (old new : FieldKeys) (table_id : str) (specs : list SealedSpec) (row_key : str) (randoms : list (outcome CryptoError bytes)) (row : bytes)
    : result (bytes * (FieldKeys * FieldKeys)) :=
  let? parsed := row_parse row in
  let? '(parsed, ks) := reseal_fields old new table_id row_key randoms specs parsed in
  Ok (row_encode parsed, ks).

(** [check_row]: every protected value opens to the same value, everything else is the same text. *)
Fixpoint check_fields (old new : FieldKeys) (table_id row_key : str) (specs : list SealedSpec) (a b : Row) : result () :=
  match specs with
  | [] => Ok ()
  | spec :: specs' =>
      match sp_method spec with
      | HashMethod | SearchPrint => check_fields old new table_id row_key specs' a b
      | _ =>
          match row_get (sp_key spec) a, row_get (sp_key spec) b with
          | Some x, Some y =>
              let? sx := read_stored x in
              let? '(before, old) := open_stored old table_id (sp_id spec) row_key sx in
              let? sy := read_stored y in
              let? '(after, new) := open_stored new table_id (sp_id spec) row_key sy in
              if bool_decide (before = after) then check_fields old new table_id row_key specs' a b
              else bad "a protected value is not the same after the change; nothing was changed"
          | _, _ => bad "a row lost a protected field; nothing was changed"
          end
      end
  end.
Definition sealing_keys (specs : list SealedSpec) : list str :=
  sp_key <$> filter (λ s, sp_method s ≠ HashMethod ∧ sp_method s ≠ SearchPrint) specs.
Definition check_row (old new : FieldKeys) (table_id : str) (specs : list SealedSpec) (key : str) (before after : bytes) : result () :=
  let? a := row_parse before in
  let? b := row_parse after in
  check? check_fields old new table_id key specs a b in
  if same_but a b (sealing_keys specs) then Ok () else bad "a row holds other data than it did; nothing was changed".

(** [settings_checks]. *)
Definition settings_check (k : FieldKeys) (table_id : str) (spec : SealedSpec) : result (N * option str) :=
  rmap (pair (sp_id spec))
    match sp_method spec with
    | Encrypt => Ok None
    | HashMethod =>
        match sp_hash spec with
        | None => bad "a hashed field has no hash setting"
        | Some algo => rmap Some (hash_settings_print k table_id (sp_id spec) algo)
        end
    | _ => rmap Some (print_settings k table_id (sp_id spec) (sp_normalize spec))
    end.
Definition settings_checks (k : FieldKeys) (table_id : str) (specs : list SealedSpec) : result (list (N * option str)) :=
  traverse (settings_check k table_id) specs.
End rows.

(** [metadata::types::SealedField]. *)
Record SealedField := { sf_id : N; sf_name : str; sf_method : N; sf_check : option str; sf_window : option N; sf_bits : option N }.

Definition apply_check (checks : list (N * option str)) (f : SealedField) : SealedField :=
  match list_find (λ c, c.1 = sf_id f) checks with
  | Some (_, (_, check)) =>
      {| sf_id := sf_id f; sf_name := sf_name f; sf_method := sf_method f; sf_check := check; sf_window := sf_window f; sf_bits := sf_bits f |}
  | None => f
  end.
Definition apply_checks (fields : list SealedField) (checks : list (N * option str)) : list SealedField := apply_check checks <$> fields.
