(* ===== verification/RekeyProps.v ===== *)
(** * What holds of a change of keys

    Hashes and fingerprints answer under the new keys as they did under the old ones, since the keys
    they were made with are carried over; sealed values open to the same values; nothing else of a
    row changes, and the check of the new file agrees. *)
From S2P Require Import Prelude Order Redb Fields Samples Eval BackupCodec BackupSpec B64 Cipher Index Keys Sealed Protected Slots FieldSpec FieldRows FieldProps Rekey.
Local Open Scope N_scope.

(** A step that succeeded, by rewriting: comparing the derivations by computation takes long. *)
Lemma rbind_Ok {A B} (a : A) (f : A → result B) : rbind (Ok a) f = f a.
Proof. done. Qed.

(** ** Names *)

Lemma parse_u32_dec n : n < 2 ^ 32 → parse_u32 (dec n) = Some n.
Proof.
  intros Hn. unfold parse_u32, parse_u64. pose proof (dec_all_digits n) as Hd. destruct (dec n) as [|b ds] eqn:E.
  { by apply dec_nonempty in E. }
  rewrite decide_False.
  - rewrite bool_decide_eq_false_2 by done. rewrite (proj2 (forallb_forall _ _)) by (intros x Hx%list_elem_of_In; rewrite Forall_forall in Hd; by apply Hd).
    cbn [negb orb]. rewrite <-E, of_dec_dec. destruct (N.ltb_spec n U64); [|unfold U64 in *; lia]. by destruct (N.ltb_spec n (2 ^ 32)); [|lia].
  - intros ->. apply Forall_inv in Hd. done.
Qed.

Lemma parse_entry_name table id : id < 2 ^ 32 → parse_name (entry_name table id) = Ok (table, id).
Proof.
  intros Hid. unfold parse_name, entry_name. change (lit ":") with [colon]. cbn [app]. rewrite (rsplit_app table (dec id)) by apply dec_no_colon.
  by rewrite parse_u32_dec.
Qed.

Lemma entry_name_inj table id table' id' : id < 2 ^ 32 → id' < 2 ^ 32 → entry_name table id = entry_name table' id' → table = table' ∧ id = id'.
Proof. intros H1 H2 E. apply (f_equal parse_name) in E. rewrite !parse_entry_name in E by done. by injection E. Qed.

(** ** Entries *)

Section carried.
Context `{KL : KeyLib, CL : CipherLib}.

Definition same_roots (k k' : FieldKeys) : Prop := fk_suite k = fk_suite k' ∧ fk_source k = fk_source k'.

Lemma seal_key_same k k' kind table id : same_roots k k' → carried_seal_key k kind table id = carried_seal_key k' kind table id.
Proof using Type. intros [Hs Ho]. unfold carried_seal_key. by rewrite Hs, Ho. Qed.

Lemma open_entry_same k k' table id stored : same_roots k k' → open_entry k table id stored = open_entry k' table id stored.
Proof using Type.
  intros Hk. unfold open_entry. destruct stored as [|v [|kd sealed]]; try done. destruct (negb _); [done|]. destruct (carried_from_code kd) as [kind|]; [|done].
  rewrite (seal_key_same k k') by done. by rewrite (proj1 Hk).
Qed.

Lemma open_entry_length k table id stored kind key : open_entry k table id stored = Ok (Some (kind, key)) → length key = KEY_LEN.
Proof using Type.
  unfold open_entry. destruct stored as [|v [|kd sealed]]; try done. destruct (negb _); [done|]. destruct (carried_from_code kd) as [kind'|]; [|done].
  destruct (carried_seal_key _ _ _ _) as [[sk|]|]; try done. cbn [rbind]. destruct (Cipher.open _ _ _) as [key'|]; [|done].
  destruct (Nat.eqb_spec (length key') KEY_LEN) as [Hl|]; [|done]. intros [= _ <-]. done.
Qed.

Lemma carried_code_back kind : carried_from_code (carried_code kind) = Some kind.
Proof using Type. by destruct kind. Qed.

(** A carried key that was sealed opens, with the same roots, to what was sealed. *)
Lemma seal_entry_opens k k' kind table id random key stored : same_roots k k' → length key = KEY_LEN →
  seal_entry k kind table id random key = Ok stored → open_entry k' table id stored = Ok (Some (kind, key)).
Proof using Type.
  intros Hk Hl E. unfold seal_entry in E. destruct (carried_seal_key k kind table id) as [[sk|]|] eqn:Es; [|by destruct kind|done].
  cbn [rbind] in E. destruct (seal _ random _ key) as [sealed|] eqn:Eseal; [|done]. injection E as <-. cbn [bad_on rbind app].
  unfold open_entry. rewrite carried_code_back, <-(seal_key_same k k') by done. rewrite Es. cbn [rbind negb].
  change (byte_to_N (byte_of_N 1) =? 1) with true. cbn [negb]. rewrite <-(proj1 Hk).
  assert (Cipher.open {| kind := s_cipher (fk_suite k); a_key := sk |} (carried_aad kind table id) sealed = inl key) as ->.
  { apply open_exact. destruct random as [nonce|]; [|done]. exists nonce. split; [|done]. unfold seal, seal_with in Eseal.
    destruct (Nat.eqb_spec (length nonce) (nonce_len (Cipher.kind {| kind := s_cipher (fk_suite k); a_key := sk |}))); [done|done]. }
  by rewrite Hl, Nat.eqb_refl.
Qed.

(** ** Loading *)

Definition named (es : list (str * bytes)) : Prop := Forall (λ p, ∃ table id, p.1 = entry_name table id ∧ id < 2 ^ 32) es.

Lemma install_same_roots k kind table id key : same_roots k (install_carried k kind table id key).
Proof using Type. by split. Qed.

Lemma same_roots_trans k k' k'' : same_roots k k' → same_roots k' k'' → same_roots k k''.
Proof using Type. intros [? ?] [? ?]. split; congruence. Qed.
Lemma same_roots_sym k k' : same_roots k k' → same_roots k' k.
Proof using Type. by intros [? ?]. Qed.

(** What an entry gives the keys. *)
Definition gives (k : FieldKeys) (es : list (str * bytes)) (table : str) (id : N) (kind : CarriedKind) (key : bytes) : Prop :=
  ∃ stored, (entry_name table id, stored) ∈ es ∧ open_entry k table id stored = Ok (Some (kind, key)).

Lemma gives_same k k' es table id kind key : same_roots k k' → gives k es table id kind key → gives k' es table id kind key.
Proof using Type. intros Hk (s & Hin & Ho). exists s. split; [done|]. by rewrite <-(open_entry_same k k'). Qed.

Lemma gives_or_not k es table id kind : (∃ key, gives k es table id kind key) ∨ (∀ key, ¬ gives k es table id kind key).
Proof using Type.
  induction es as [|[name stored] es IH]; [right; by intros key (s & Hs%elem_of_nil & _)|].
  destruct IH as [(key & s & Hs & Ho)|Hno]; [left; exists key, s; split; [by right|done]|].
  assert (Hother : ∀ key, gives k ((name, stored) :: es) table id kind key → name = entry_name table id ∧ open_entry k table id stored = Ok (Some (kind, key))).
  { intros key (s & [[= <- ->]|Hin]%elem_of_cons & Ho); [done|]. exfalso. apply (Hno key). by exists s. }
  destruct (decide (name = entry_name table id)) as [->|Hne]; [|right; by intros key [? _]%Hother].
  destruct (open_entry k table id stored) as [[[kind' key]|]|] eqn:Eo; [|right; by intros key [_ ?]%Hother..].
  destruct (decide (kind' = kind)) as [->|Hne]; [left; exists key, stored; split; [by left|done]|right; intros key' [_ [= ? _]]%Hother; done].
Qed.

Lemma take_carried_same k row k' : take_carried k row = Ok k' → same_roots k k'.
Proof using Type.
  unfold take_carried. destruct (parse_name _) as [[table id]|]; [|done]. cbn [rbind]. destruct (open_entry _ _ _ _) as [[[kind key]|]|]; [|by intros [= <-]|done].
  intros [= <-]. apply install_same_roots.
Qed.

Lemma take_all_spec es : ∀ k k', named es → NoDup es.*1 → try_fold take_carried k es = Ok k' →
  same_roots k k' ∧ (∀ p table id, p ∈ es → p.1 = entry_name table id → id < 2 ^ 32 → is_ok (open_entry k table id p.2) = true) ∧
  ∀ table id kind, id < 2 ^ 32 →
    (∀ key, gives k es table id kind key → fk_carried k' !! (table, id, kind) = Some key) ∧
    ((∀ key, ¬ gives k es table id kind key) → fk_carried k' !! (table, id, kind) = fk_carried k !! (table, id, kind)).
Proof using Type.
  induction es as [|[name stored] es IH]; intros k k' Hn Hd E.
  { injection E as <-. split; [done|]. split; [by intros p table id Hp%elem_of_nil|]. intros table id kind _. split; [by intros key (s & Hs%elem_of_nil & _)|done]. }
  apply Forall_cons in Hn as [(table0 & id0 & Ename & Hid0) Hn]. cbn in Ename. subst name. cbn [fmap list_fmap fst] in Hd. apply NoDup_cons in Hd as [Hnot Hd].
  cbn [try_fold] in E. apply rbind_ok in E as (k1 & E1 & E). pose proof (take_carried_same _ _ _ E1) as Hk1. apply IH in E as (Hk' & Hok & Hspec); [|done..].
  unfold take_carried in E1. cbn [fst snd] in E1. rewrite parse_entry_name in E1 by done. cbn [rbind] in E1.
  apply rbind_ok in E1 as (opened & Eo & [= E1]).
  assert (Hgives : ∀ table id kind key, id < 2 ^ 32 → gives k ((entry_name table0 id0, stored) :: es) table id kind key ↔
    (table = table0 ∧ id = id0 ∧ opened = Some (kind, key)) ∨ gives k es table id kind key).
  { intros table id kind key Hid. split.
    - intros (s & [[= En ->]|Hin]%elem_of_cons & Hs); [left|right; by exists s]. apply entry_name_inj in En as [-> ->]; [|done..]. rewrite Eo in Hs. by injection Hs.
    - intros [(-> & -> & ->)|(s & Hin & Hs)]; [exists stored; split; [by left|done]|exists s; split; [by right|done]]. }
  assert (Hother : ∀ key kind, ¬ gives k es table0 id0 kind key).
  { intros key kind (s & Hin & _). apply Hnot. apply list_elem_of_fmap. by exists (entry_name table0 id0, s). }
  split; [by eapply same_roots_trans|]. split.
  { intros p table id [->|Hp]%elem_of_cons Ep Hid; [|rewrite (open_entry_same k k1) by done; by eapply Hok].
    cbn [fst snd] in *. apply entry_name_inj in Ep as [-> ->]; [|done..]. by rewrite Eo. }
  intros table id kind Hid. destruct (Hspec table id kind Hid) as [Ha Hb].
  assert (Hk1es : ∀ key, gives k1 es table id kind key ↔ gives k es table id kind key) by (intros key; split; apply gives_same; [by apply same_roots_sym|done]).
  split.
  - intros key [(-> & -> & ->)|Hin]%Hgives; [|by apply Ha, Hk1es|done]. rewrite Hb by (intros key' Hg%Hk1es; by eapply Hother).
    subst k1. cbn [install_carried fk_carried]. by rewrite lookup_insert_eq.
  - intros Hno. rewrite Hb by (intros key' Hg%Hk1es; apply (Hno key'), Hgives; [done|by right]). subst k1. destruct opened as [[kind0 key0]|]; [|done].
    cbn [install_carried fk_carried]. apply lookup_insert_ne. intros [= <- <- <-]. apply (Hno key0), Hgives; [done|by left].
Qed.

Lemma take_all_ok es : ∀ k, named es → (∀ p table id, p ∈ es → p.1 = entry_name table id → id < 2 ^ 32 → is_ok (open_entry k table id p.2) = true) →
  ∃ k', try_fold take_carried k es = Ok k'.
Proof using Type.
  induction es as [|[name stored] es IH]; intros k Hn Hok; [by exists k|]. apply Forall_cons in Hn as [(table & id & Ename & Hid) Hn]. cbn in Ename. subst name.
  cbn [try_fold]. destruct (take_carried k (entry_name table id, stored)) as [k1|e] eqn:E.
  - cbn [rbind]. apply IH; [done|]. intros p table' id' Hp Ep Hid'. rewrite <-(open_entry_same k k1) by (by eapply take_carried_same). eapply Hok; [by right|done..].
  - exfalso. unfold take_carried in E. cbn [fst snd] in E. rewrite parse_entry_name in E by done. cbn [rbind] in E.
    specialize (Hok _ table id ltac:(left) eq_refl Hid). cbn [snd] in Hok. by destruct (open_entry k table id stored).
Qed.

Lemma take_all_lengths es : ∀ k k', (∀ x key, fk_carried k !! x = Some key → length key = KEY_LEN) → try_fold take_carried k es = Ok k' →
  ∀ x key, fk_carried k' !! x = Some key → length key = KEY_LEN.
Proof using Type.
  induction es as [|row es IH]; intros k k' Hk E; [by injection E as <-|]. cbn [try_fold] in E. apply rbind_ok in E as (k1 & E1 & E). eapply IH; [|exact E].
  unfold take_carried in E1. apply rbind_ok in E1 as ([table id] & _ & E1). apply rbind_ok in E1 as (opened & Eo & [= E1]). intros x key. subst k1.
  destruct opened as [[kind key0]|]; [|apply Hk]. cbn [install_carried fk_carried]. destruct (decide ((table, id, kind) = x)) as [<-|Hne].
  - rewrite lookup_insert_eq. intros [= <-]. by eapply open_entry_length.
  - rewrite lookup_insert_ne by done. apply Hk.
Qed.

Lemma load_takes `{Redb} es : ∀ l k, rmap snd (try_fold load_entry (l, k) es) = try_fold take_carried k es.
Proof using Type.
  induction es as [|row es IH]; intros l k; [done|]. cbn [try_fold]. unfold load_entry at 1, take_carried at 1.
  destruct (parse_name row.1) as [[table id]|]; [|done]. cbn [rbind]. destruct (open_entry k table id row.2) as [[[kind key]|]|]; [| |done]; cbn [rbind]; apply IH.
Qed.

(** ** What is carried on *)

Definition of_item (items : list CarryItem) (table : str) (id : N) : bool :=
  existsb (λ i, bool_decide (ci_table i = table) && (ci_field i =? id)) items.

Lemma of_item_spec items table id : of_item items table id = true ↔ ∃ i, i ∈ items ∧ ci_table i = table ∧ ci_field i = id.
Proof using Type.
  unfold of_item. rewrite existsb_exists. split.
  - intros (i & Hi%list_elem_of_In & [Ht%bool_decide_eq_true Hf%N.eqb_eq]%andb_true_iff). eauto.
  - intros (i & Hi%list_elem_of_In & Ht & Hf). exists i. split; [done|]. by rewrite Ht, Hf, bool_decide_eq_true_2, N.eqb_refl.
Qed.

(** The old entries that no new one replaces open, under the new roots, to what they held. *)
Lemma carry_old_spec old new items es : named es → NoDup es.*1 → ∀ randoms kept rest,
  carry_old old new items randoms es = Ok (kept, rest) →
  (∀ name, name ∈ kept.*1 → name ∈ es.*1) ∧ NoDup kept.*1 ∧
  (∀ table id, id < 2 ^ 32 → entry_name table id ∈ kept.*1 → of_item items table id = false) ∧
  ∀ table id kind key k', id < 2 ^ 32 → same_roots new k' → of_item items table id = false →
    gives k' kept table id kind key ↔ gives old es table id kind key.
Proof using Type.
  induction es as [|[name stored] es IH]; intros Hn Hd randoms kept rest E; cbn [carry_old] in E.
  { injection E as <- <-. split_and!; [done|constructor|by intros table id _ H%elem_of_nil|].
    intros table id kind key k' _ _ _. split; intros (s & Hs%elem_of_nil & _); done. }
  apply Forall_cons in Hn as [(table0 & id0 & Ename & Hid0) Hn]. cbn in Ename. subst name. cbn [fmap list_fmap fst] in Hd |- *. apply NoDup_cons in Hd as [Hnot Hd].
  rewrite parse_entry_name in E by done. cbn [rbind] in E. fold (of_item items table0 id0) in E. destruct (of_item items table0 id0) eqn:Ei.
  - apply IH in E as (Hsub & Hdk & Hno & Hg); [|done..]. split_and!; [intros n Hin; right; by apply Hsub|done|done|].
    intros table id kind key k' Hid Hk Hof. rewrite Hg by done. split; intros (s & Hs & Ho); exists s; (split; [|done]); [by right|].
    apply elem_of_cons in Hs as [[= En ->]|Hs]; [|done]. apply entry_name_inj in En as [-> ->]; [|done..]. by rewrite Hof in Ei.
  - apply rbind_ok in E as (opened & Eo & E). destruct opened as [[kind0 key0]|]; [|done]. apply rbind_ok in E as (sealed & Es & E).
    apply rbind_ok in E as ([kept1 rest1] & Er & [= <- <-]). apply IH in Er as (Hsub & Hdk & Hno & Hg); [|done..]. cbn [fmap list_fmap fst].
    pose proof (open_entry_length _ _ _ _ _ _ Eo) as Hlen. split_and!.
    + intros n [->|Hin]%elem_of_cons; [by left|right; by apply Hsub].
    + apply NoDup_cons. split; [|done]. intros Hin. apply Hnot, Hsub, Hin.
    + intros table id Hid [En|Hin]%elem_of_cons; [|by apply Hno]. apply entry_name_inj in En as [-> ->]; done.
    + intros table id kind key k' Hid Hk Hof. specialize (Hg table id kind key k' Hid Hk Hof). split.
      * intros (s & [[= En ->]|Hs]%elem_of_cons & Ho).
        -- apply entry_name_inj in En as [-> ->]; [|done..]. rewrite (seal_entry_opens _ _ _ _ _ _ _ _ Hk Hlen Es) in Ho. injection Ho as -> ->. exists stored. split; [by left|done].
        -- destruct (proj1 Hg) as (s' & Hs' & Ho'); [by exists s|]. exists s'. split; [by right|done].
      * intros (s & [[= En ->]|Hs]%elem_of_cons & Ho).
        -- apply entry_name_inj in En as [-> ->]; [|done..]. rewrite Eo in Ho. injection Ho as -> ->. exists sealed. split; [by left|]. by eapply seal_entry_opens.
        -- destruct (proj2 Hg) as (s' & Hs' & Ho'); [by exists s|]. exists s'. split; [by right|done].
Qed.

Lemma carry_old_opens old new items es : named es → ∀ randoms kept rest k', same_roots new k' → carry_old old new items randoms es = Ok (kept, rest) →
  ∀ p table id, p ∈ kept → p.1 = entry_name table id → id < 2 ^ 32 → ∃ kind key, open_entry k' table id p.2 = Ok (Some (kind, key)).
Proof using Type.
  induction es as [|[name stored] es IH]; intros Hn randoms kept rest k' Hk E p table id Hp Ep Hid; cbn [carry_old] in E; [injection E as <- <-; by apply elem_of_nil in Hp|].
  apply Forall_cons in Hn as [(table0 & id0 & Ename & Hid0) Hn]. cbn in Ename. subst name. rewrite parse_entry_name in E by done. cbn [rbind] in E.
  destruct (existsb _ items); [by eapply IH|]. apply rbind_ok in E as ([[kind key]|] & Eo & E); [|done]. apply rbind_ok in E as (sealed & Es & E).
  apply rbind_ok in E as ([kept1 rest1] & Er & [= <- <-]). apply elem_of_cons in Hp as [->|Hp]; [|by eapply IH].
  cbn [fst snd] in *. apply entry_name_inj in Ep as [-> ->]; [|done..]. exists kind, key. eapply seal_entry_opens; [done| |exact Es]. by eapply open_entry_length.
Qed.

Lemma carry_old_named old new items es : named es → ∀ randoms kept rest, carry_old old new items randoms es = Ok (kept, rest) → named kept.
Proof using Type.
  induction es as [|[name stored] es IH]; intros Hn randoms kept rest E; cbn [carry_old] in E; [injection E as <- <-; constructor|].
  apply Forall_cons in Hn as [Hname Hn]. apply rbind_ok in E as ([table id] & _ & E). destruct (existsb _ items); [by eapply IH|].
  apply rbind_ok in E as ([[kind key]|] & _ & E); [|done]. apply rbind_ok in E as (sealed & _ & E). apply rbind_ok in E as ([kept1 rest1] & Er & [= <- <-]).
  constructor; [exact Hname|by eapply IH].
Qed.

Lemma carry_new_spec new k' items : same_roots new k' → Forall (λ i, length (ci_key i) = KEY_LEN) items → ∀ randoms made,
  carry_new new randoms items = Ok made →
  Forall2 (λ i p, p.1 = entry_name (ci_table i) (ci_field i) ∧ open_entry k' (ci_table i) (ci_field i) p.2 = Ok (Some (ci_kind i, ci_key i))) items made.
Proof using Type.
  intros Hk. induction 1 as [|i items Hl _ IH]; intros randoms made E; cbn [carry_new] in E; [injection E as <-; constructor|].
  apply rbind_ok in E as (sealed & Es & E). apply rbind_ok in E as (rest & Er & [= <-]). constructor; [|by eapply IH].
  split; [done|]. cbn [snd]. by eapply seal_entry_opens.
Qed.
End carried.

(** ** The stored table *)

Lemma write_all_get `{Redb} es : NoDup es.*1 → ∀ name, t_get (write_all es) name = (snd <$> list_find (λ p, p.1 = name) es) ≫= λ p, Some p.2.
Proof.
  unfold write_all. assert (Hg : ∀ t name, NoDup es.*1 → t_get (foldl (λ t p, t_insert t p.1 p.2) t es) name =
    match (snd <$> list_find (λ p, p.1 = name) es) with Some p => Some p.2 | None => t_get t name end).
  { induction es as [|[n s] es IH]; intros t name Hd; [done|]. cbn [foldl fst snd fmap list_fmap] in *. apply NoDup_cons in Hd as [Hnot Hd]. rewrite IH by done.
    cbn [list_find]. cbn [fst]. destruct (decide (n = name)) as [->|Hne].
    - cbn [fmap option_fmap option_map snd]. rewrite t_get_insert_eq. destruct (list_find _ es) as [[i p]|] eqn:Ef; [|done]. exfalso.
      apply list_find_Some in Ef as (Hi & <- & _). apply Hnot, list_elem_of_fmap. exists p. split; [done|by eapply list_elem_of_lookup_2].
    - rewrite t_get_insert_ne by done. destruct (list_find _ es) as [[i p]|]; done. }
  intros Hd name. rewrite Hg by done. rewrite t_get_new. by destruct (list_find _ es) as [[i p]|].
Qed.

Lemma write_all_iter `{Redb} es p : NoDup es.*1 → p ∈ t_iter (write_all es) ↔ p ∈ es.
Proof.
  intros Hd. destruct p as [name stored]. rewrite <-t_get_iter, write_all_get by done. split.
  - destruct (list_find _ es) as [[i [n s]]|] eqn:Ef; [|done]. intros [= <-]. apply list_find_Some in Ef as (Hi & <- & _). by eapply list_elem_of_lookup_2.
  - intros Hin. destruct (list_find (λ p, p.1 = name) es) as [[i [n s]]|] eqn:Ef.
    + apply list_find_Some in Ef as (Hi & <- & _). cbn. f_equal. apply list_elem_of_lookup_1 in Hin as [j Hj].
      assert (i = j) as ->; [|congruence]. eapply (NoDup_lookup es.*1); [done| |]; rewrite list_lookup_fmap; [by rewrite Hi|by rewrite Hj].
    + apply list_find_None in Ef. rewrite Forall_forall in Ef. by specialize (Ef _ Hin eq_refl).
Qed.

Lemma iter_names_distinct `{Redb} (t : Redb.table str bytes) : NoDup (t_iter t).*1.
Proof.
  pose proof (t_iter_sorted t) as Hs. induction Hs as [|p l Hs IH Hf]; [constructor|]. cbn [fmap list_fmap]. constructor; [|done].
  intros (q & E & Hq)%list_elem_of_fmap. rewrite Forall_forall in Hf. apply Hf in Hq. unfold pair_lt in Hq. rewrite E in Hq. by apply key_lt_irrefl in Hq.
Qed.

(** ** The plan *)

Section plan.
Context `{RD : Redb, KL : KeyLib, CL : CipherLib}.

(** The same key at the probe place means the same keys everywhere: of two different roots the
    derivation makes different keys there. *)
Record probe_tells (old new : FieldKeys) : Prop := {
  probe_hash a a' r r' key : fk_source old = Some a → fk_source new = Some a' → ac_read a = Some r → ac_read a' = Some r' →
    derived (hash_key r (s_hkdf (fk_suite old)) (field_scope PROBE 0)) = Ok key → derived (hash_key r' (s_hkdf (fk_suite new)) (field_scope PROBE 0)) = Ok key →
    ∀ scope, hash_key r (s_hkdf (fk_suite old)) scope = hash_key r' (s_hkdf (fk_suite new)) scope;
  probe_print a a' r r' key : fk_source old = Some a → fk_source new = Some a' → ac_search a = Some r → ac_search a' = Some r' →
    derived (full_fingerprint_key r (s_hkdf (fk_suite old)) (field_scope PROBE 0)) = Ok key →
    derived (full_fingerprint_key r' (s_hkdf (fk_suite new)) (field_scope PROBE 0)) = Ok key →
    ∀ scope, full_fingerprint_key r (s_hkdf (fk_suite old)) scope = full_fingerprint_key r' (s_hkdf (fk_suite new)) scope;
}.

(** The key that a hash or a fingerprint of a field is made with. *)
Definition key_of (k : FieldKeys) (kind : CarriedKind) (table : str) (id : N) : result bytes :=
  match kind with CarriedHash => field_hash_key k table id | CarriedPrint => print_key k table id end.
Definition kind_of (m : Method) : option CarriedKind := match m with HashMethod => Some CarriedHash | SearchPrint => Some CarriedPrint | _ => None end.
Definition root_changed (old new : FieldKeys) (kind : CarriedKind) : result bool :=
  match kind with CarriedHash => hash_root_changed old new | CarriedPrint => print_root_changed old new end.

Lemma key_of_carried k kind table id key : fk_carried k !! (table, id, kind) = Some key → key_of k kind table id = Ok key.
Proof using Type. intros E. destruct kind; cbn [key_of]; [unfold field_hash_key|unfold print_key]; by rewrite E. Qed.

Lemma derived_length {r h role purpose scope key} : derived (derive_subkey r h role purpose scope) = Ok key → length key = KEY_LEN.
Proof using Type.
  unfold derive_subkey, hkdf_derive. destruct (subkey_info _ _ _); [|done]. cbn [obind]. destruct (hkdf _ _ _ _ _) as [k|] eqn:E; [|done].
  intros [= <-]. by eapply hkdf_len.
Qed.

Lemma hash_key_length {r h scope key} : derived (hash_key r h scope) = Ok key → length key = KEY_LEN.
Proof using Type. apply derived_length. Qed.
Lemma print_key_length {r h scope key} : derived (full_fingerprint_key r h scope) = Ok key → length key = KEY_LEN.
Proof using Type. apply derived_length. Qed.

(** The key of a field that has none carried. *)
Lemma hash_key_derived k table id : fk_carried k !! (table, id, CarriedHash) = None →
  field_hash_key k table id = let? r := read_root k no_read in derived (hash_key r (s_hkdf (fk_suite k)) (field_scope table id)).
Proof using Type. intros Ec. unfold field_hash_key. by rewrite Ec. Qed.
Lemma print_key_derived k table id : fk_carried k !! (table, id, CarriedPrint) = None →
  print_key k table id = let? r := search_root k in derived (full_fingerprint_key r (s_hkdf (fk_suite k)) (field_scope table id)).
Proof using Type. intros Ec. unfold print_key. by rewrite Ec. Qed.

Lemma key_of_length k kind table id key : (∀ x key, fk_carried k !! x = Some key → length key = KEY_LEN) → key_of k kind table id = Ok key → length key = KEY_LEN.
Proof using Type.
  intros Hk E. destruct (fk_carried k !! (table, id, kind)) as [key'|] eqn:Ec; [rewrite (key_of_carried _ _ _ _ _ Ec) in E; injection E as <-; exact (Hk _ _ Ec)|].
  destruct kind; cbn [key_of] in E.
  - rewrite hash_key_derived in E by done. destruct (read_root k no_read) as [r|]; [|done]. rewrite rbind_Ok in E. exact (hash_key_length E).
  - rewrite print_key_derived in E by done. destruct (search_root k) as [r|]; [|done]. rewrite rbind_Ok in E. exact (print_key_length E).
Qed.

(** Keys with the same roots, both without a carried key of the field, have the same key. *)
Lemma key_of_derived old new kind table id : probe_tells old new → root_changed old new kind = Ok false →
  fk_carried old !! (PROBE, 0, kind) = None → fk_carried new !! (PROBE, 0, kind) = None →
  fk_carried old !! (table, id, kind) = None → fk_carried new !! (table, id, kind) = None → key_of old kind table id = key_of new kind table id.
Proof using Type.
  intros [Hh Hp] Hr Ho Hn Eo En. destruct kind; cbn [root_changed key_of] in *.
  - unfold hash_root_changed in Hr. destruct (field_hash_key old PROBE 0) as [a|] eqn:Ea; [|done]. destruct (field_hash_key new PROBE 0) as [a'|] eqn:Ea'; [|done].
    cbn [rbind] in Hr. injection Hr as Heq. apply negb_false_iff, bool_decide_eq_true in Heq as ->. rewrite !hash_key_derived in * by done. unfold read_root in *.
    destruct (fk_source old) as [s|] eqn:Es; [|done]. destruct (ac_read s) as [r|] eqn:Er; [|done].
    destruct (fk_source new) as [s'|] eqn:Es'; [|done]. destruct (ac_read s') as [r'|] eqn:Er'; [|done]. cbn [rbind] in *.
    by rewrite (Hh s s' r r' a').
  - unfold print_root_changed in Hr. destruct (print_key old PROBE 0) as [a|] eqn:Ea; [|done]. destruct (print_key new PROBE 0) as [a'|] eqn:Ea'; [|done].
    cbn [rbind] in Hr. injection Hr as Heq. apply negb_false_iff, bool_decide_eq_true in Heq as ->. rewrite !print_key_derived in * by done. unfold search_root in *.
    destruct (fk_source old) as [s|] eqn:Es; [|done]. destruct (ac_search s) as [r|] eqn:Er; [|done].
    destruct (fk_source new) as [s'|] eqn:Es'; [|done]. destruct (ac_search s') as [r'|] eqn:Er'; [|done]. cbn [rbind] in *.
    by rewrite (Hp s s' r r' a').
Qed.

(** With the same roots too. *)
Lemma key_of_roots k k' kind table id : same_roots k k' → fk_carried k !! (table, id, kind) = None → fk_carried k' !! (table, id, kind) = None →
  key_of k kind table id = key_of k' kind table id.
Proof using Type.
  intros [Hs Ho] E E'. destruct kind; cbn [key_of]; [rewrite !hash_key_derived by done; unfold read_root|rewrite !print_key_derived by done; unfold search_root]; by rewrite Hs, Ho.
Qed.

Lemma root_changed_key old new new' kind : key_of new kind PROBE 0 = key_of new' kind PROBE 0 → root_changed old new kind = root_changed old new' kind.
Proof using Type. destruct kind; cbn [key_of root_changed]; intros E; [unfold hash_root_changed|unfold print_root_changed]; by rewrite E. Qed.

(** What is planned for the fields of some tables. *)
Definition fields_of (tables : list Resolved) : list (str * SealedSpec) := t ← tables; pair (rs_id t) <$> rs_specs t.

Lemma elem_of_fields tables table spec : (table, spec) ∈ fields_of tables ↔ ∃ t, t ∈ tables ∧ rs_id t = table ∧ spec ∈ rs_specs t.
Proof using Type.
  unfold fields_of. rewrite list_elem_of_bind. split.
  - intros (t & (s & [= -> ->] & Hs)%list_elem_of_fmap & Ht). eauto.
  - intros (t & Ht & <- & Hs). exists t. split; [|done]. apply list_elem_of_fmap. by exists spec.
Qed.

Lemma carry_spec_inv old new table spec l : carry_spec old new table spec = Ok l →
  match kind_of (sp_method spec) with
  | None => l = []
  | Some kind => ∃ changed, root_changed old new kind = Ok changed ∧
      if changed then ∃ key, key_of old kind table (sp_id spec) = Ok key ∧ l = [{| ci_table := table; ci_field := sp_id spec; ci_kind := kind; ci_key := key |}]
      else l = []
  end.
Proof using Type.
  unfold carry_spec. destruct (sp_method spec); cbn [kind_of]; try (by intros [= <-]); intros (changed & Ec & E)%rbind_ok; exists changed; (split; [done|]);
    (destruct changed; [|by injection E]); apply rbind_ok in E as (key & Ek & [= <-]); by exists key.
Qed.

Lemma plan_items old new tables items : rmap mjoin (traverse (λ t, carry_plan old new (rs_id t) (rs_specs t)) tables) = Ok items →
  (∀ table spec, (table, spec) ∈ fields_of tables → ∃ l, carry_spec old new table spec = Ok l ∧ ∀ i, i ∈ l → i ∈ items) ∧
  (∀ i, i ∈ items → ∃ table spec l, (table, spec) ∈ fields_of tables ∧ carry_spec old new table spec = Ok l ∧ i ∈ l).
Proof using Type.
  destruct (traverse _ tables) as [ls|] eqn:Et; [|done]. intros [= <-]. apply traverse_ok_Forall2 in Et.
  assert (Hplan : ∀ t l, carry_plan old new (rs_id t) (rs_specs t) = Ok l →
    (∀ spec, spec ∈ rs_specs t → ∃ l', carry_spec old new (rs_id t) spec = Ok l' ∧ ∀ i, i ∈ l' → i ∈ l) ∧
    (∀ i, i ∈ l → ∃ spec l', spec ∈ rs_specs t ∧ carry_spec old new (rs_id t) spec = Ok l' ∧ i ∈ l')).
  { intros t l E. unfold carry_plan in E. destruct (traverse _ (rs_specs t)) as [ms|] eqn:Em; [|done]. injection E as <-. apply traverse_ok_Forall2 in Em. split.
    - intros spec (i & Hi)%list_elem_of_lookup. destruct (Forall2_lookup_l _ _ _ _ _ Em Hi) as (m & Hm & Hc). exists m. split; [done|].
      intros x Hx. apply list_elem_of_join. exists m. split; [done|by eapply list_elem_of_lookup_2].
    - intros x (m & Hx & (i & Hi)%list_elem_of_lookup)%list_elem_of_join. destruct (Forall2_lookup_r _ _ _ _ _ Em Hi) as (spec & Hs & Hc).
      exists spec, m. split; [by eapply list_elem_of_lookup_2|done]. }
  split.
  - intros table spec (t & (i & Hi)%list_elem_of_lookup & <- & Hs)%elem_of_fields. destruct (Forall2_lookup_l _ _ _ _ _ Et Hi) as (l & Hl & Hc).
    destruct (proj1 (Hplan t l Hc) spec Hs) as (m & Hm & Hin). exists m. split; [done|]. intros x Hx. apply list_elem_of_join. exists l.
    split; [by apply Hin|by eapply list_elem_of_lookup_2].
  - intros x (l & Hx & (i & Hi)%list_elem_of_lookup)%list_elem_of_join. destruct (Forall2_lookup_r _ _ _ _ _ Et Hi) as (t & Ht & Hc).
    destruct (proj2 (Hplan t l Hc) x Hx) as (spec & m & Hs & Hm & Hxm). exists (rs_id t), spec, m. split_and!; [|done|done].
    apply elem_of_fields. exists t. split_and!; [by eapply list_elem_of_lookup_2|done|done].
Qed.

(** The names of the entries of a table of carried keys, and that none is of the probe. *)
Definition table_named (t : option (Redb.table str bytes)) : Prop :=
  match t with Some t => named (t_iter t) ∧ ∀ stored, (entry_name PROBE 0, stored) ∉ t_iter t | None => True end.
Definition entries (t : option (Redb.table str bytes)) : list (str * bytes) := match t with Some t => t_iter t | None => [] end.

Lemma entries_distinct t : NoDup (entries t).*1.
Proof using Type. destruct t; [apply iter_names_distinct|constructor]. Qed.

Lemma load_take t k loaded k' : load t k = Ok (loaded, k') → try_fold take_carried k (entries t) = Ok k'.
Proof using Type. destruct t as [t|]; cbn [load entries]; [|by intros [= _ <-]]. intros E. by rewrite <-(load_takes _ {| table_exists := true; l_fields := []; l_opened := 0 |}), E. Qed.
Lemma take_load t k k' : try_fold take_carried k (entries t) = Ok k' → ∃ loaded, load t k = Ok (loaded, k').
Proof using Type.
  destruct t as [t|]; cbn [load entries]; [|intros [= <-]; by eexists]. intros E. rewrite <-(load_takes _ {| table_exists := true; l_fields := []; l_opened := 0 |}) in E.
  destruct (try_fold load_entry _ _) as [[loaded k1]|]; [|done]. injection E as <-. by eexists.
Qed.

(** The new table's entries, by what they give under the new roots. *)
Lemma next_table_gives old new items es randoms written k' : named es → NoDup es.*1 → same_roots new k' →
  Forall (λ i, length (ci_key i) = KEY_LEN ∧ ci_field i < 2 ^ 32) items →
  NoDup ((λ i, (ci_table i, ci_field i)) <$> items) → next_table old new es items randoms = Ok written →
  named written ∧ NoDup written.*1 ∧
  (∀ name stored, (name, stored) ∈ written → name ∈ es.*1 ∨ ∃ i, i ∈ items ∧ name = entry_name (ci_table i) (ci_field i)) ∧
  (∀ p table id, p ∈ written → p.1 = entry_name table id → id < 2 ^ 32 → is_ok (open_entry k' table id p.2) = true) ∧
  (∀ i, i ∈ items → gives k' written (ci_table i) (ci_field i) (ci_kind i) (ci_key i)) ∧
  (∀ table id kind key, id < 2 ^ 32 → of_item items table id = false → gives k' written table id kind key ↔ gives old es table id kind key).
Proof using Type.
  intros Hn Hd Hk Hitems Hdist E. unfold next_table in E. apply rbind_ok in E as ([kept rest] & Eo & E). apply rbind_ok in E as (made & Em & [= <-]).
  pose proof (carry_old_named _ _ _ _ Hn _ _ _ Eo) as Hnk. pose proof (carry_old_spec _ _ _ _ Hn Hd _ _ _ Eo) as (Hsub & Hdk & Hno & Hg).
  assert (Hlen : Forall (λ i, length (ci_key i) = KEY_LEN) items) by (eapply Forall_impl; [exact Hitems|by intros i [? _]]).
  assert (Hfield : ∀ i, i ∈ items → ci_field i < 2 ^ 32) by (intros i Hi; rewrite Forall_forall in Hitems; by apply Hitems).
  pose proof (carry_new_spec _ k' _ Hk Hlen _ _ Em) as Hm.
  assert (Hperm : merge_sort (λ a b : str * bytes, cmp a b ≠ Gt) (kept ++ made) ≡ₚ kept ++ made) by apply merge_sort_Permutation.
  set (written := merge_sort _ _) in *. clearbody written.
  assert (Hin : ∀ p, p ∈ written ↔ p ∈ kept ∨ p ∈ made) by (intros p; by rewrite Hperm, elem_of_app).
  assert (Hmade : ∀ p, p ∈ made → ∃ i, i ∈ items ∧ p.1 = entry_name (ci_table i) (ci_field i) ∧ open_entry k' (ci_table i) (ci_field i) p.2 = Ok (Some (ci_kind i, ci_key i))).
  { intros p (j & Hj)%list_elem_of_lookup. destruct (Forall2_lookup_r _ _ _ _ _ Hm Hj) as (i & Hi & ? & ?). exists i. split_and!; [by eapply list_elem_of_lookup_2|done|done]. }
  assert (Hnames : ∀ i, i ∈ items → of_item items (ci_table i) (ci_field i) = true) by (intros i Hi; apply of_item_spec; by exists i).
  split_and!.
  - unfold named. rewrite Hperm. apply Forall_app. split; [exact Hnk|]. apply Forall_forall. intros p (i & Hi & -> & _)%Hmade. exists (ci_table i), (ci_field i). split; [done|by apply Hfield].
  - rewrite Hperm, fmap_app. apply NoDup_app. split_and!; [done| |].
    + intros name Hname (p & -> & (i & Hi & Ep & _)%Hmade)%list_elem_of_fmap. rewrite Ep in Hname. apply Hno in Hname; [|by apply Hfield]. by rewrite (Hnames i Hi) in Hname.
    + assert (made.*1 = (λ i, entry_name (ci_table i) (ci_field i)) <$> items) as ->.
      { clear -Hm. induction Hm as [|i p items made [Hp _] _ IH]; [done|]. cbn. by rewrite Hp, IH. }
      clear -Hdist Hfield. induction items as [|i items IH]; [constructor|]. cbn in *. apply NoDup_cons in Hdist as [Hnot Hd]. apply NoDup_cons. split; [|apply IH; [done|intros j Hj; apply Hfield; by right]].
      intros (j & E & Hj)%list_elem_of_fmap. apply entry_name_inj in E as [Et Ei]; [|apply Hfield; [by left || by right]..]. apply Hnot, list_elem_of_fmap. exists j. split; [by rewrite Et, Ei|done].
  - intros name stored [Hk'|(i & Hi & E & _)%Hmade]%Hin; [left; apply Hsub, list_elem_of_fmap; by exists (name, stored)|right; by exists i].
  - intros p table id [Hp|(i & Hi & E & Ho)%Hmade]%Hin Ep Hid.
    + assert (Hname : entry_name table id ∈ kept.*1) by (rewrite <-Ep; by apply list_elem_of_fmap_2). pose proof (Hno table id Hid Hname) as Hof.
      destruct (carry_old_opens _ _ _ _ Hn _ _ _ k' Hk Eo p table id Hp Ep Hid) as (kind & key & ->). done.
    + rewrite E in Ep. apply entry_name_inj in Ep as [<- <-]; [|by apply Hfield|done]. by rewrite Ho.
  - intros i Hi. apply list_elem_of_lookup in Hi as [j Hj]. destruct (Forall2_lookup_l _ _ _ _ _ Hm Hj) as ([name stored] & Hp & En & Ho). exists stored. split; [|done].
    apply Hin. right. cbn in En. rewrite <-En. by eapply list_elem_of_lookup_2.
  - intros table id kind key Hid Hof. rewrite <-(Hg table id kind key k' Hid Hk Hof). split.
    + intros (s & [Hs|(i & Hi & E & _)%Hmade]%Hin & Ho); [by exists s|]. apply entry_name_inj in E as [-> ->]; [|done|by apply Hfield]. by rewrite (Hnames i Hi) in Hof.
    + intros (s & Hs & Ho). exists s. split; [apply Hin; by left|done].
Qed.

(** Each field has at most one item, in the order of the fields. *)
Lemma carry_spec_place old new table spec l : carry_spec old new table spec = Ok l →
  (λ i, (ci_table i, ci_field i)) <$> l `sublist_of` [(table, sp_id spec)].
Proof using Type.
  intros E. apply carry_spec_inv in E. destruct (kind_of _); [|subst l; apply sublist_nil_l]. destruct E as ([] & _ & E).
  - destruct E as (key & _ & ->). done.
  - subst l. apply sublist_nil_l.
Qed.

Lemma carry_plan_places old new table specs l : carry_plan old new table specs = Ok l →
  (λ i, (ci_table i, ci_field i)) <$> l `sublist_of` (λ s, (table, sp_id s)) <$> specs.
Proof using Type.
  unfold carry_plan. destruct (traverse _ specs) as [ms|] eqn:E; [|done]. intros [= <-]. apply traverse_ok_Forall2 in E.
  induction E as [|spec m specs ms Hm _ IH]; [done|]. cbn [mjoin list_join fmap list_fmap]. rewrite fmap_app.
  apply (sublist_app _ [(table, sp_id spec)]); [by eapply carry_spec_place|exact IH].
Qed.

Lemma plan_places old new tables items : rmap mjoin (traverse (λ t, carry_plan old new (rs_id t) (rs_specs t)) tables) = Ok items →
  (λ i, (ci_table i, ci_field i)) <$> items `sublist_of` (λ p, (p.1, sp_id p.2)) <$> fields_of tables.
Proof using Type.
  destruct (traverse _ tables) as [ls|] eqn:E; [|done]. intros [= <-]. apply traverse_ok_Forall2 in E.
  induction E as [|t l tables ls Hl _ IH]; [done|]. unfold fields_of. rewrite bind_cons, fmap_app. cbn [mjoin list_join]. rewrite fmap_app.
  apply sublist_app; [|exact IH]. rewrite <-list_fmap_compose. exact (carry_plan_places _ _ _ _ _ Hl).
Qed.

Lemma install_items_roots items : ∀ k, same_roots k (install_items k items).
Proof using Type. induction items as [|i items IH]; intros k; [done|]. cbn. eapply same_roots_trans; [apply install_same_roots|apply IH]. Qed.

(** What keeps answers to hashes and fingerprints: their keys. *)
Lemma key_verify k k' table id : key_of k CarriedHash table id = key_of k' CarriedHash table id → ∀ algo place secret stored,
  table_id place = table → field_id place = id → verify_value k algo place secret stored = verify_value k' algo place secret stored.
Proof using Type. cbn [key_of]. intros E algo place secret stored Ht Hf. unfold verify_value, hash_compute. by rewrite Ht, Hf, E. Qed.
Lemma key_print `{TextLib} k k' table id kinds : key_of k CarriedPrint table id = key_of k' CarriedPrint table id → ∀ value,
  print_value k table id kinds value = print_value k' table id kinds value.
Proof using Type. cbn [key_of]. intros E value. unfold print_value. by rewrite E. Qed.

(** What a table of carried keys gives, when the keys are used. *)
Lemma keys_survive tables from old new randoms r loaded ko :
  fk_carried old = ∅ → fk_carried new = ∅ → probe_tells old new → table_named from →
  (∀ t, t ∈ tables → rs_id t ≠ PROBE) → NoDup ((λ p, (p.1, sp_id p.2)) <$> fields_of tables) → Forall (λ p, sp_id p.2 < 2 ^ 32) (fields_of tables) →
  load from old = Ok (loaded, ko) → rekey_plan tables from old new randoms = Ok r →
  ∃ loaded' kn, load (carried_table r) new = Ok (loaded', kn) ∧ table_named (carried_table r) ∧
    ∀ table spec kind, (table, spec) ∈ fields_of tables → kind_of (sp_method spec) = Some kind → key_of kn kind table (sp_id spec) = key_of ko kind table (sp_id spec).
Proof using Type.
  intros Ho Hnew Hprobe Hnamed Htables Hdist Hids Hload Hplan. apply load_take in Hload. unfold rekey_plan in Hplan. fold (entries from) in Hplan. rewrite Hload in Hplan. cbn [rbind] in Hplan.
  apply rbind_ok in Hplan as (items & Hitems & Hplan). apply rbind_ok in Hplan as (written & Hw & [= <-]). unfold carried_table, writes_carried. cbn [rk_had_carried rk_written].
  assert (Hn : named (entries from)) by (destruct from; [by apply Hnamed|constructor]). pose proof (entries_distinct from) as Hd.
  destruct (take_all_spec _ _ _ Hn Hd Hload) as (Hroots & _ & Hold).
  assert (Hlens : ∀ x key, fk_carried ko !! x = Some key → length key = KEY_LEN).
  { eapply take_all_lengths; [|exact Hload]. intros x key. by rewrite Ho, lookup_empty. }
  destruct (plan_items _ _ _ _ Hitems) as [Hplan1 Hplan2]. rewrite Forall_forall in Hids.
  assert (Hitem : ∀ i, i ∈ items → ∃ spec kind, (ci_table i, spec) ∈ fields_of tables ∧ sp_id spec = ci_field i ∧ kind_of (sp_method spec) = Some kind ∧
    ci_kind i = kind ∧ root_changed ko new kind = Ok true ∧ key_of ko kind (ci_table i) (ci_field i) = Ok (ci_key i)).
  { intros i (table & spec & l & Hf & Hl & Hi)%Hplan2. apply carry_spec_inv in Hl. destruct (kind_of (sp_method spec)) as [kind|] eqn:Ek; [|subst l; by apply elem_of_nil in Hi].
    destruct Hl as ([] & Hr & Hl); [|subst l; by apply elem_of_nil in Hi]. destruct Hl as (key & Hkey & ->). apply list_elem_of_singleton in Hi as ->. cbn. by exists spec, kind. }
  assert (Hwell : Forall (λ i, length (ci_key i) = KEY_LEN ∧ ci_field i < 2 ^ 32) items).
  { apply Forall_forall. intros i (spec & kind & Hf & <- & _ & _ & _ & Hkey)%Hitem. split; [by eapply key_of_length|by apply (Hids _ Hf)]. }
  assert (Hplaces : NoDup ((λ i, (ci_table i, ci_field i)) <$> items)) by (eapply sublist_NoDup; [exact Hdist|by eapply plan_places]).
  destruct (next_table_gives _ _ _ _ _ _ new Hn Hd (same_roots_sym _ _ (install_items_roots items new)) Hwell Hplaces Hw) as (Hnw & Hdw & Hsrc & Hokw & Hgi & Hgo).
  set (new_table := if _ || _ then Some (write_all written) else None).
  assert (Hel : ∀ p, p ∈ entries new_table ↔ p ∈ written).
  { intros p. unfold new_table. destruct (_ || _) eqn:Eb; cbn [entries]; [by apply write_all_iter|]. apply orb_false_iff in Eb as [_ Eb].
    apply negb_false_iff, bool_decide_eq_true in Eb as ->. done. }
  assert (Hgives : ∀ k table id kind key, gives k (entries new_table) table id kind key ↔ gives k written table id kind key).
  { intros k table id kind key. unfold gives. by setoid_rewrite Hel. }
  assert (Hnn : named (entries new_table)).
  { apply Forall_forall. intros p Hp%Hel. unfold named in Hnw. rewrite Forall_forall in Hnw. by apply Hnw. }
  destruct (take_all_ok (entries new_table) new Hnn) as (kn & Hkn); [intros p table id Hp%Hel; by apply Hokw|].
  destruct (take_load _ _ _ Hkn) as (loaded' & Hl). exists loaded', kn. split; [exact Hl|].
  destruct (take_all_spec _ _ _ Hnn (entries_distinct new_table) Hkn) as (Hroots' & _ & Hnewc).
  assert (Hnoprobe : ∀ stored, (entry_name PROBE 0, stored) ∉ entries from) by (destruct from as [t|]; [apply Hnamed|intros s; apply not_elem_of_nil]).
  assert (Hnoprobe' : ∀ stored, (entry_name PROBE 0, stored) ∉ entries new_table).
  { intros stored Hin%Hel. apply Hsrc in Hin as [(p & Ep & Hp)%list_elem_of_fmap|(i & Hi & Ei)].
    - destruct p as [n s']. cbn in Ep. subst n. by apply (Hnoprobe s').
    - destruct (Hitem i Hi) as (spec & kind & Hf & Hs & _). rewrite Forall_forall in Hwell. apply entry_name_inj in Ei as [Et' _]; [|done|by apply Hwell].
      apply elem_of_fields in Hf as (t' & Ht' & Eid & _). apply (Htables t' Ht'). by rewrite Eid, <-Et'. }
  split; [destruct new_table as [t|]; [by split|done]|].
  intros table spec kind Hf Ek. pose proof (Hids _ Hf) as Hid. cbn in Hid.
  destruct (Hplan1 _ _ Hf) as (l & Hl1 & Hin). apply carry_spec_inv in Hl1. rewrite Ek in Hl1. destruct Hl1 as (changed & Hr & Hl1). destruct changed.
  { destruct Hl1 as (key & Hkey & ->). rewrite Hkey. apply key_of_carried. apply (Hnewc table (sp_id spec) kind Hid), Hgives. apply (Hgi _ (Hin _ ltac:(left))). }
  assert (Hof : of_item items table (sp_id spec) = false).
  { destruct (of_item items table (sp_id spec)) eqn:Eof; [|done]. exfalso. apply of_item_spec in Eof as (i & Hi & Et & Ei). destruct (Hitem i Hi) as (spec' & kind' & Hf' & Es' & Ek' & _ & Hr' & _).
    assert ((table, spec) = (ci_table i, spec')) as [= _ <-].
    { apply list_elem_of_lookup in Hf as [a Ha], Hf' as [b Hb]. assert (a = b) as ->; [|congruence].
      eapply (NoDup_lookup _ _ _ _ Hdist); rewrite list_lookup_fmap; [rewrite Ha|rewrite Hb]; cbn; [done|]. by rewrite Et, Es', Ei. }
    rewrite Ek in Ek'. injection Ek' as <-. by rewrite Hr in Hr'. }
  assert (Hsame : ∀ key, gives new (entries new_table) table (sp_id spec) kind key ↔ gives old (entries from) table (sp_id spec) kind key).
  { intros key. rewrite Hgives, (Hgo _ _ _ _ Hid Hof). split; apply gives_same; [by apply same_roots_sym|done]. }
  destruct (Hold table (sp_id spec) kind Hid) as [Ha Hb]. destruct (Hnewc table (sp_id spec) kind Hid) as [Hc Hd'].
  destruct (gives_or_not old (entries from) table (sp_id spec) kind) as [(key & Hg)|Hno].
  - rewrite (key_of_carried ko _ _ _ key), (key_of_carried kn _ _ _ key); [done|by apply Hc, Hsame|by apply Ha].
  - assert (Hprobe' : fk_carried kn !! (PROBE, 0, kind) = None).
    { destruct (Hnewc PROBE 0 kind ltac:(done)) as [_ Hp]. rewrite Hp by (intros key (s & Hs & _); by apply (Hnoprobe' s)). by rewrite Hnew. }
    symmetry. apply key_of_derived.
    + destruct Hprobe as [Hh Hp]. destruct Hroots as [Es Eo], Hroots' as [Es' Eo']. split; rewrite <-Es, <-Eo, <-Es', <-Eo'; done.
    + rewrite <-Hr. apply root_changed_key. apply key_of_roots; [by apply same_roots_sym|exact Hprobe'|by rewrite Hnew].
    + destruct (Hold PROBE 0 kind ltac:(done)) as [_ Hp]. rewrite Hp by (intros key (s & Hs & _); by apply (Hnoprobe s)). by rewrite Ho.
    + exact Hprobe'.
    + rewrite Hb by done. by rewrite Ho.
    + rewrite Hd' by (intros key Hg%Hsame; by apply (Hno key)). by rewrite Hnew.
Qed.
End plan.

(** ** Rows *)

Section rows.
Context `{KL : KeyLib, CL : CipherLib, TL : TextLib, JT : !JsonText, RJ : !RawJson}.

Lemma row_get_cons key p row : row_get key (p :: row) = if decide (p.1 = key) then Some p.2 else row_get key row.
Proof using Type. unfold row_get. rewrite filter_cons. by case_decide. Qed.

Lemma row_replace_spec key v row : ∀ row', row_replace key v row = Some row' →
  row'.*1 = row.*1 ∧ row_get key row' = Some v ∧ (∀ k, k ≠ key → row_get k row' = row_get k row) ∧
  (∀ changed : list str, key ∈ changed → filter (λ p : str * str, p.1 ∉ changed) row' = filter (λ p : str * str, p.1 ∉ changed) row) ∧
  ∀ P : str * str → Prop, Forall P row → (∀ k, P (k, v) ∨ k ∉ row.*1) → Forall P row'.
Proof using Type.
  induction row as [|[k0 v0] row IH]; intros row' E; [done|]. cbn [row_replace fst] in E. destruct (decide (k0 = key)) as [->|Hne].
  - injection E as <-. cbn [fmap list_fmap fst]. rewrite !row_get_cons. cbn [fst snd]. rewrite decide_True by done. split_and!; [done|done| | |].
    + intros k Hk. rewrite !row_get_cons. cbn [fst]. by rewrite !decide_False by congruence.
    + intros changed Hin. rewrite !filter_cons. cbn [fst]. by rewrite !decide_False by tauto.
    + intros P [_ Hr]%Forall_cons HP. constructor; [|done]. destruct (HP key) as [|Hno]; [done|]. exfalso. apply Hno. cbn. by left.
  - destruct (row_replace key v row) as [r|] eqn:Er; [|done]. injection E as <-. destruct (IH r eq_refl) as (H1 & H2 & H3 & H4 & H5). cbn [fmap list_fmap fst].
    rewrite H1. split_and!; [done| | | |].
    + rewrite row_get_cons. cbn [fst]. by rewrite decide_False.
    + intros k Hk. rewrite !row_get_cons. cbn [fst snd]. case_decide; [done|by apply H3].
    + intros changed Hin. rewrite !filter_cons. cbn [fst]. case_decide; by rewrite H4.
    + intros P [Hp Hr]%Forall_cons HP. constructor; [done|]. apply H5; [done|]. intros k. destruct (HP k) as [|Hno]; [by left|right]. cbn in Hno. set_solver.
Qed.

Lemma stored_form_read raw sealed full parts : json_read raw = Some (stored_form sealed full parts) →
  read_stored raw = Ok {| st_sealed := sealed; st_full := full; st_parts := parts |}.
Proof using Type. intros E. unfold read_stored. rewrite E. destruct full, parts; reflexivity. Qed.

Lemma read_stored_token raw v : raw_token raw = Some v → read_stored v = read_stored raw.
Proof using RJ. intros E. unfold read_stored. by rewrite (raw_token_reads _ _ E). Qed.

Lemma seal_plain_spec k table spec key random plain text k' : seal_plain k table spec key random plain = Ok (text, k') →
  same_keys k k' ∧ is_Some (raw_token text) ∧ ∃ stored, read_stored text = Ok stored ∧
    made (has_stored_print (sp_method spec)) (full_print_of_json k table spec plain) (st_full stored) ∧
    made (has_parts (sp_method spec)) (parts_of_json k table spec plain) (st_parts stored).
Proof using RJ.
  unfold seal_plain. destruct (negb _); [done|]. intros ([full parts] & Ep & E)%rbind_ok. apply rbind_ok in E as ([cipher k1] & Ec & E).
  apply rbind_ok in E as (sealed & Es & E). apply rbind_ok in E as (t & Et & [= <- <-]). split; [by eapply field_cipher_same|].
  unfold stored_text, value_text in Et. destruct (json_write _) as [b|] eqn:Ew; [|done]. injection Et as <-. split; [by eapply json_write_token|].
  exists {| st_sealed := sealed; st_full := full; st_parts := parts |}. split; [apply stored_form_read; by apply json_write_read|].
  unfold prints_for in Ep. apply rbind_ok in Ep as (f & Ef & Ep). apply rbind_ok in Ep as (p & Ep' & [= <- <-]). split; by apply made_inv.
Qed.

Lemma open_stored_same k table id key stored plain k' : open_stored k table id key stored = Ok (plain, k') → same_keys k k'.
Proof using Type.
  unfold open_stored. intros ([cipher k1] & Ec & E)%rbind_ok. apply rbind_ok in E as (p & _ & [= _ <-]). by eapply field_cipher_same.
Qed.

(** What a stored value opens to does not depend on the ciphers made before. *)
#[global] Instance opens_same : Proper (same_keys ==> eq ==> eq ==> eq ==> eq ==> eq) (λ k table id key stored, rmap fst (open_stored k table id key stored)).
Proof using Type.
  intros k k' Hk ? table -> ? id -> ? key -> ? stored ->. unfold open_stored. pose proof (same_cipher _ _ Hk table id) as Hc.
  destruct (field_cipher k table id) as [[a k1]|], (field_cipher k' table id) as [[a' k1']|]; cbn [rmap rbind fst] in *; try done; [|by injection Hc as ->].
  injection Hc as ->. by destruct (bad_on _ _).
Qed.

Definition opens_to (k : FieldKeys) (table : str) (id : N) (key : str) (stored : Stored) (plain : bytes) : Prop :=
  rmap fst (open_stored k table id key stored) = Ok plain.

#[global] Instance opens_to_same : Proper (same_keys ==> eq ==> eq ==> eq ==> eq ==> eq ==> iff) opens_to.
Proof using Type.
  intros k k' Hk ? table -> ? id -> ? key -> ? stored -> ? plain ->. unfold opens_to.
  by rewrite (opens_same k k' Hk table _ eq_refl id _ eq_refl key _ eq_refl stored _ eq_refl).
Qed.

Lemma opens_to_inv k table id key stored plain : opens_to k table id key stored plain → ∃ k', open_stored k table id key stored = Ok (plain, k') ∧ same_keys k k'.
Proof using Type.
  unfold opens_to. destruct (open_stored k table id key stored) as [[p k']|] eqn:E; [|done]. intros [= ->]. exists k'. split; [done|by eapply open_stored_same].
Qed.

(** What a sealed field holds before and after. *)
Definition resealed (old new : FieldKeys) (table key : str) (spec : SealedSpec) (row row' : Row) : Prop :=
  ∃ raw raw' stored stored' plain, row_get (sp_key spec) row = Some raw ∧ row_get (sp_key spec) row' = Some raw' ∧
    read_stored raw = Ok stored ∧ read_stored raw' = Ok stored' ∧
    opens_to old table (sp_id spec) key stored plain ∧ opens_to new table (sp_id spec) key stored' plain ∧
    made (has_stored_print (sp_method spec)) (full_print_of_json new table spec plain) (st_full stored') ∧
    made (has_parts (sp_method spec)) (parts_of_json new table spec plain) (st_parts stored').

Definition texts (row : Row) : Prop := Forall (λ p, utf8_valid p.1 = true ∧ raw_token p.2 = Some p.2) row.

Lemma reseal_field_spec old new table key random spec raw row row' old' new' : row_get (sp_key spec) row = Some raw →
  reseal_field old new table key random spec raw row = Ok (row', (old', new')) →
  same_keys old old' ∧ same_keys new new' ∧ resealed old new table key spec row row' ∧ row'.*1 = row.*1 ∧
  (∀ k, k ≠ sp_key spec → row_get k row' = row_get k row) ∧
  (∀ changed : list str, sp_key spec ∈ changed → filter (λ p : str * str, p.1 ∉ changed) row' = filter (λ p : str * str, p.1 ∉ changed) row) ∧
  (texts row → texts row').
Proof using RJ.
  intros Hraw E. unfold reseal_field in E. apply rbind_ok in E as (stored & Es & E). apply rbind_ok in E as ([plain old1] & Eo & E).
  apply rbind_ok in E as ([fresh new1] & Ef & E). apply rbind_ok in E as (stored' & Es' & E). apply rbind_ok in E as ([again new2] & Eo' & E).
  destruct (bool_decide_reflect (again = plain)) as [->|]; [cbn [negb] in E|done]. apply rbind_ok in E as (changed & _ & E). destruct changed; [done|].
  apply rbind_ok in E as (r & Er & [= <- <- <-]). unfold row_set in Er. destruct (raw_token fresh) as [v|] eqn:Ev; [|done].
  destruct (row_replace (sp_key spec) v row) as [r'|] eqn:Err; [|done]. injection Er as <-. destruct (row_replace_spec _ _ _ _ Err) as (Hk & Hg & Hg' & Hf & HP).
  destruct (seal_plain_spec _ _ _ _ _ _ _ _ Ef) as (Hn1 & _ & made' & Em & Hfull & Hparts). rewrite Em in Es'. injection Es' as ->.
  pose proof (open_stored_same _ _ _ _ _ _ _ Eo') as Hn2. split_and!.
  - by eapply open_stored_same.
  - by etrans.
  - exists raw, v, stored, stored', plain. split_and!; try done.
    + by rewrite (read_stored_token fresh).
    + unfold opens_to. by rewrite Eo.
    + rewrite Hn1. unfold opens_to. by rewrite Eo'.
  - exact Hk.
  - exact Hg'.
  - exact Hf.
  - intros Ht. assert (Hv : raw_token v = Some v) by (by eapply raw_token_again). apply HP; [exact Ht|]. intros k.
    destruct (decide (utf8_valid k = true)) as [|Hno]; [by left|right]. intros (p & -> & Hp)%list_elem_of_fmap. unfold texts in Ht. rewrite Forall_forall in Ht. by apply Ht in Hp as [? _].
Qed.

Definition is_sealed (spec : SealedSpec) : Prop := sp_method spec ≠ HashMethod ∧ sp_method spec ≠ SearchPrint.

Lemma elem_of_sealing specs k : k ∈ sealing_keys specs ↔ ∃ spec, spec ∈ specs ∧ is_sealed spec ∧ sp_key spec = k.
Proof using Type.
  unfold sealing_keys. rewrite list_elem_of_fmap. split.
  - intros (spec & -> & [? ?]%list_elem_of_filter). eauto.
  - intros (spec & Hs & Hm & <-). exists spec. split; [done|]. by apply list_elem_of_filter.
Qed.

Lemma reseal_fields_spec specs : ∀ old new table key randoms row row' old' new', NoDup (sp_key <$> specs) →
  reseal_fields old new table key randoms specs row = Ok (row', (old', new')) →
  same_keys old old' ∧ same_keys new new' ∧ (∀ spec, spec ∈ specs → is_sealed spec → resealed old new table key spec row row') ∧ row'.*1 = row.*1 ∧
  (∀ k, k ∉ sealing_keys specs → row_get k row' = row_get k row) ∧
  (∀ changed : list str, (∀ k, k ∈ sealing_keys specs → k ∈ changed) → filter (λ p : str * str, p.1 ∉ changed) row' = filter (λ p : str * str, p.1 ∉ changed) row) ∧
  (texts row → texts row').
Proof using RJ.
  induction specs as [|spec specs IH]; intros old new table key randoms row row' old' new' Hd E; cbn [reseal_fields] in E.
  { injection E as <- <- <-. split_and!; try done. intros spec Hs%elem_of_nil. done. }
  apply NoDup_cons in Hd as [Hnot Hd]. destruct (row_get (sp_key spec) row) as [raw|] eqn:Eraw; [|done].
  assert (Hsub : ∀ k, k ∈ sealing_keys specs → k ∈ sealing_keys (spec :: specs)).
  { intros k (s & Hs & Hm & <-)%elem_of_sealing. apply elem_of_sealing. exists s. split; [by right|done]. }
  destruct (decide (is_sealed spec)) as [Hm|Hm].
  - assert (E2 : (let? '(row, (old, new)) := reseal_field old new table key (default (inr Random) (head randoms)) spec raw row in
       reseal_fields old new table key (tail randoms) specs row) = Ok (row', (old', new'))) by (destruct Hm; by destruct (sp_method spec)).
    apply rbind_ok in E2 as ([row1 [old1 new1]] & E1 & E2). destruct (reseal_field_spec _ _ _ _ _ _ _ _ _ _ _ Eraw E1) as (Ho & Hn & Hr & Hk & Hg & Hf & Ht).
    apply IH in E2 as (Ho' & Hn' & Hr' & Hk' & Hg' & Hf' & Ht'); [|done].
    assert (Hself : sp_key spec ∉ sealing_keys specs).
    { intros (s & Hs & _ & Es)%elem_of_sealing. apply Hnot. rewrite <-Es. by apply list_elem_of_fmap_2. }
    split_and!.
    + by etrans.
    + by etrans.
    + intros s [->|Hs]%elem_of_cons Hsm.
      * destruct Hr as (x & x' & st & st' & p & ? & Hx' & ?). exists x, x', st, st', p. split; [done|]. split; [|done]. by rewrite Hg'.
      * destruct (Hr' s Hs Hsm) as (x & x' & st & st' & p & Hx & Hx' & Hst & Hst' & Hop & Hop' & Hfull & Hparts). exists x, x', st, st', p.
        assert (Hne : sp_key s ≠ sp_key spec) by (intros Es; apply Hnot; rewrite <-Es; by apply list_elem_of_fmap_2).
        split_and!; [by rewrite <-Hg|done|done|done|by rewrite Ho|by rewrite Hn| |].
        -- by rewrite (full_print_same _ _ Hn).
        -- by rewrite (parts_same _ _ Hn).
    + by rewrite Hk'.
    + intros k Hno. rewrite Hg'; [|by intros Hin; apply Hno, Hsub]. apply Hg. intros ->. apply Hno, elem_of_sealing. exists spec. split; [by left|done].
    + intros changed Hc. rewrite Hf' by (intros k Hin; by apply Hc, Hsub). apply Hf, Hc, elem_of_sealing. exists spec. split; [by left|done].
    + auto.
  - assert (E2 : reseal_fields old new table key randoms specs row = Ok (row', (old', new'))).
    { clear -E Hm. unfold is_sealed in Hm. destruct (sp_method spec); try exact E; exfalso; apply Hm; done. }
    apply IH in E2 as (Ho' & Hn' & Hr' & Hk' & Hg' & Hf' & Ht'); [|done]. split_and!; try done.
    + intros s [->|Hs]%elem_of_cons Hsm; [done|by apply Hr'].
    + intros k Hno. apply Hg'. intros Hin. by apply Hno, Hsub.
    + intros changed Hc. apply Hf'. intros k Hin. by apply Hc, Hsub.
Qed.

Lemma resealed_same old old' new new' table key spec a b : same_keys old old' → same_keys new new' →
  resealed old new table key spec a b → resealed old' new' table key spec a b.
Proof using Type.
  intros Ho Hn (x & y & sx & sy & plain & Hx & Hy & Hsx & Hsy & Hox & Hoy & Hf & Hp). exists x, y, sx, sy, plain.
  split_and!; [done|done|done|done|by rewrite <-Ho|by rewrite <-Hn| |]; [by rewrite <-(full_print_same _ _ Hn)|by rewrite <-(parts_same _ _ Hn)].
Qed.

Lemma check_fields_ok specs : ∀ old new table key a b, (∀ spec, spec ∈ specs → is_sealed spec → resealed old new table key spec a b) →
  check_fields old new table key specs a b = Ok ().
Proof using Type.
  induction specs as [|spec specs IH]; intros old new table key a b Hr; [done|]. cbn [check_fields].
  destruct (decide (is_sealed spec)) as [Hm|Hm].
  - destruct (Hr spec ltac:(left) Hm) as (x & y & sx & sy & plain & Hx & Hy & Hsx & Hsy & Hox & Hoy & _).
    destruct (opens_to_inv _ _ _ _ _ _ Hox) as (old1 & Ex & Ho). destruct (opens_to_inv _ _ _ _ _ _ Hoy) as (new1 & Ey & Hn).
    rewrite Hx, Hy, Hsx. cbn [rbind]. rewrite Ex. cbn [rbind]. rewrite Hsy. cbn [rbind]. rewrite Ey. cbn [rbind]. rewrite bool_decide_eq_true_2 by done.
    assert (check_fields old1 new1 table key specs a b = Ok ()) as ->.
    { apply IH. intros s Hs Hsm. eapply resealed_same; [done..|]. by apply Hr; [right|]. }
    destruct Hm. by destruct (sp_method spec).
  - assert (Hrest : check_fields old new table key specs a b = Ok ()) by (apply IH; intros s Hs; apply Hr; by right).
    unfold is_sealed in Hm. destruct (sp_method spec); try exact Hrest; exfalso; apply Hm; done.
Qed.

Lemma row_parse_inv b row : row_parse b = Ok row → raw_entries b = Some row ∧ NoDup row.*1.
Proof using Type. unfold row_parse. destruct (raw_entries b); [|done]. case_bool_decide; [by intros [= <-]|done]. Qed.

(** C24: a row that is resealed under new keys: it has the same fields in the same order; every value
    that was sealed opens, with the new keys at the same place, to the bytes it opened to with the
    old ones, with the fingerprints the new keys make of them; every other field, hashes and search
    fingerprints among them, is the very text it was.  The check of the new file accepts it. *)
Theorem reseal_row_result old new table specs key randoms b b' old' new' : NoDup (sp_key <$> specs) →
  reseal_row old new table specs key randoms b = Ok (b', (old', new')) →
  same_keys old old' ∧ same_keys new new' ∧ check_row old new table specs key b b' = Ok () ∧
  ∃ row row', raw_entries b = Some row ∧ raw_entries b' = Some row' ∧ row'.*1 = row.*1 ∧
    (∀ k, k ∉ sealing_keys specs → row_get k row' = row_get k row) ∧
    ∀ spec, spec ∈ specs → is_sealed spec → resealed old new table key spec row row'.
Proof using All.
  intros Hd E. unfold reseal_row in E. apply rbind_ok in E as (row & Er & E). apply rbind_ok in E as ([row' [o n]] & Ef & [= <- <- <-]).
  pose proof (row_parse_inv _ _ Er) as [Eraw Hnd]. destruct (reseal_fields_spec _ _ _ _ _ _ _ _ _ _ Hd Ef) as (Ho & Hn & Hr & Hk & Hg & Hf & Ht).
  assert (Eraw' : raw_entries (row_encode row') = Some row') by (apply raw_entries_encode, Ht; by eapply raw_entries_texts).
  split_and!; [done|done| |by exists row, row'].
  unfold check_row. rewrite Er. cbn [rbind]. unfold row_parse. rewrite Eraw', bool_decide_eq_true_2 by (by rewrite Hk). cbn [rbind].
  rewrite check_fields_ok by done. unfold same_but. rewrite Hf by done. by rewrite Hk, !bool_decide_eq_true_2.
Qed.
End rows.

(** ** Hashes and fingerprints *)

(** C23: after a change of keys every verification hash and every search fingerprint of the declared
    tables answers under the new keys as it did under the old ones.  The change plans with the keys
    of the old file, its carried keys among them; whoever opens the new file with the new roots
    loads its table of carried keys without an error and has, for each such field, the key that was
    used before, so every secret verifies, and every text is found, exactly as before.  The new
    table is again of the form the next change expects. *)
Theorem carried_keys_survive `{RD : Redb, KL : KeyLib, CL : CipherLib, TL : TextLib} tables from old new randoms r loaded ko :
  fk_carried old = ∅ → fk_carried new = ∅ → probe_tells old new → table_named from →
  (∀ t, t ∈ tables → rs_id t ≠ PROBE) → NoDup ((λ p, (p.1, sp_id p.2)) <$> fields_of tables) → Forall (λ p, sp_id p.2 < 2 ^ 32) (fields_of tables) →
  load from old = Ok (loaded, ko) → rekey_plan tables from old new randoms = Ok r →
  ∃ loaded' kn, load (carried_table r) new = Ok (loaded', kn) ∧ table_named (carried_table r) ∧
    ∀ t spec, t ∈ tables → spec ∈ rs_specs t →
      (sp_method spec = HashMethod → ∀ algo place secret stored, table_id place = rs_id t → field_id place = sp_id spec →
         verify_value kn algo place secret stored = verify_value ko algo place secret stored) ∧
      (sp_method spec = SearchPrint → ∀ kinds value, print_value kn (rs_id t) (sp_id spec) kinds value = print_value ko (rs_id t) (sp_id spec) kinds value).
Proof.
  intros Ho Hn Hp Hnamed Htables Hd Hids Hl Hr. destruct (keys_survive tables from old new randoms r loaded ko) as (loaded' & kn & Hload & Hnew & Hkeys); [done..|].
  exists loaded', kn. split_and!; [done|done|]. intros t spec Ht Hs. assert (Hf : (rs_id t, spec) ∈ fields_of tables) by (apply elem_of_fields; by exists t).
  split; intros Hm.
  - apply key_verify. apply (Hkeys (rs_id t) spec CarriedHash Hf). by rewrite Hm.
  - intros kinds. apply key_print. apply (Hkeys (rs_id t) spec CarriedPrint Hf). by rewrite Hm.
Qed.

(** ** Examples *)

Module RekeyDemo.
Import FieldDemo ListRedb.
#[local] Existing Instances field_lib Cipher.toy_cipher list_redb.

Definition new_access : KeyAccess := {| ac_read := Some (replicate 32 Byte.x33); ac_search := Some (replicate 32 Byte.x44) |}.
Definition tables : list Resolved := [{| rs_table := lit "people"; rs_id := lit "t1"; rs_specs := people |}].
Definition nonces : list (outcome CryptoError bytes) := [inl (replicate 12 Byte.x05); inl (replicate 12 Byte.x07)].
Definition pin_place : Place := {| table_id := lit "t1"; field_id := 2; row_key := lit "r1" |}.
Definition pin_hash : result str := hash_value (field_keys field_access) HashArgon2id pin_place (inl (replicate 16 Byte.x06)) (lit "1234").
Definition plan : result RekeyPlan := rekey_plan tables None (field_keys field_access) (field_keys new_access) nonces.

Lemma new_probe : probe_tells (field_keys field_access) (field_keys new_access).
Proof.
  split; intros a a' r r' key [= <-] [= <-] [= <-] [= <-] E1 E2; exfalso; rewrite <-E1 in E2; vm_compute in E2; discriminate E2.
Qed.

(** The hash made under the old roots verifies its secret under the new ones. *)
Lemma carried_keys_survive_witness : ∃ r h loaded' kn, plan = Ok r ∧ pin_hash = Ok h ∧ load (carried_table r) (field_keys new_access) = Ok (loaded', kn) ∧
  verify_value kn HashArgon2id pin_place (lit "1234") h = Ok true ∧ verify_value (field_keys new_access) HashArgon2id pin_place (lit "1234") h = Ok false.
Proof.
  destruct plan as [r|e] eqn:Er; [|exfalso; vm_compute in Er; discriminate Er].
  destruct pin_hash as [h|e] eqn:Eh; [|exfalso; vm_compute in Eh; discriminate Eh].
  destruct (carried_keys_survive (TL := field_text) tables None (field_keys field_access) (field_keys new_access) nonces r
    {| table_exists := false; l_fields := []; l_opened := 0 |} (field_keys field_access)) as (loaded' & kn & Hl & _ & Hkeys).
  - reflexivity.
  - reflexivity.
  - exact new_probe.
  - exact I.
  - intros t ->%list_elem_of_singleton. discriminate.
  - refine (bool_decide_unpack _ _). vm_compute. exact I.
  - refine (bool_decide_unpack _ _). vm_compute. exact I.
  - reflexivity.
  - exact Er.
  - exists r, h, loaded', kn. split; [reflexivity|split; [reflexivity|split; [exact Hl|split]]].
    + destruct (Hkeys _ pin ltac:(left) ltac:(right; left)) as [Hv _]. rewrite (Hv eq_refl HashArgon2id pin_place (lit "1234") h eq_refl eq_refl).
      vm_compute in Eh. injection Eh as <-. vm_compute. reflexivity.
    + vm_compute in Eh. injection Eh as <-. vm_compute. reflexivity.
Defined.

(** *** A text form in which every value says where it ends *)

Definition frame (s : bytes) : bytes := ser (Serde := closed_serde (A := N)) (len s) ++ s.
Definition read_frame (b : bytes) : option (bytes * bytes) :=
  match de (Serde := closed_serde (A := N)) b with
  | Some n => let rest := drop (S (length (until_end b))) b in Some (take (N.to_nat n) rest, drop (N.to_nat n) rest)
  | None => None
  end.

Lemma read_frame_app s r : read_frame (frame s ++ r) = Some (s, r).
Proof.
  unfold read_frame, frame. cbn [ser de closed_serde]. rewrite <-!app_assoc. cbn [app]. rewrite until_end_pos, bytes_pos_bytes, decode_encode.
  unfold len. rewrite Nat2N.id. set (p := pos_bytes _). rewrite (cons_middle Byte.x02 p), app_assoc.
  rewrite (drop_app_length' (p ++ [Byte.x02])) by (rewrite length_app; simpl; lia). by rewrite take_app_length, drop_app_length.
Qed.

Lemma read_frame_all s : read_frame (frame s) = Some (s, []).
Proof. rewrite <-(app_nil_r (frame s)). apply read_frame_app. Qed.

Definition token_of (s : str) : option str := match read_frame s with Some (x, []) => if bool_decide (frame x = s) then Some s else None | _ => None end.
Lemma token_frame s : token_of (frame s) = Some (frame s).
Proof. unfold token_of. rewrite read_frame_all. by rewrite bool_decide_eq_true_2. Qed.
Lemma token_inv s t : token_of s = Some t → t = s ∧ ∃ x, s = frame x.
Proof.
  unfold token_of. destruct (read_frame s) as [[x [|]]|]; [|done..]. case_bool_decide as E; [|done]. intros [= <-]. split; [done|]. by exists x.
Qed.

Definition framed_text : TextLib := {|
  json_read b := match read_frame b with Some (x, []) => parse_json x | _ => None end;
  raw_token := token_of; json_string := frame;
  to_lowercase s := s; is_alphanumeric c := (48 <=? c)%N; levenshtein _ _ := 0%N;
  parse_rfc3339 _ := None; parse_date _ := None; parse_naive_t _ := None; parse_naive_space _ := None;
|}.
#[local] Existing Instance framed_text.

Definition framed_write (j : json) : option bytes :=
  match parse_json (text_json j) with Some j' => if json_eqb j' j then Some (frame (text_json j)) else None | None => None end.
Program Definition framed_json : JsonText := {| json_write := framed_write |}.
Next Obligation.
  intros j b. unfold framed_write. destruct (parse_json (text_json j)) as [j'|] eqn:E; [|done]. destruct (json_eqb j' j) eqn:Eq; [|done].
  apply json_eqb_eq in Eq as ->. intros [= <-]. cbn [json_read framed_text]. by rewrite read_frame_all.
Qed.
#[local] Existing Instance framed_json.

Definition is_byte (c : byte) (b : bytes) : option bytes := match b with x :: b' => if decide (x = c) then Some b' else None | [] => None end.
Fixpoint read_fields (fuel : nat) (b : bytes) : option Row :=
  match fuel with
  | O => None
  | S fuel' =>
      match read_frame b with
      | Some (k, b) =>
          match is_byte colon b ≫= read_frame with
          | Some (v, b) =>
              if negb (utf8_valid k) then None else
              match is_byte Byte.x2c b with
              | Some b => (λ r, (k, frame v) :: r) <$> read_fields fuel' b
              | None => if bool_decide (b = [Byte.x7d]) then Some [(k, frame v)] else None
              end
          | None => None
          end
      | None => None
      end
  end.
Definition read_row (b : bytes) : option Row :=
  match is_byte Byte.x7b b with Some b => if bool_decide (b = [Byte.x7d]) then Some [] else read_fields (length b) b | None => None end.

Lemma read_fields_texts fuel : ∀ b row, read_fields fuel b = Some row → Forall (λ p, utf8_valid p.1 = true ∧ token_of p.2 = Some p.2) row.
Proof.
  induction fuel as [|fuel IH]; intros b row E; cbn [read_fields] in E; [done|]. destruct (read_frame b) as [[k b1]|]; [|done].
  destruct (is_byte colon b1 ≫= read_frame) as [[v b2]|]; [|done]. destruct (utf8_valid k) eqn:Eu; [cbn [negb] in E|done].
  assert (Hp : utf8_valid (k, frame v).1 = true ∧ token_of (k, frame v).2 = Some (k, frame v).2) by (split; [done|apply token_frame]).
  destruct (is_byte Byte.x2c b2) as [b3|].
  - destruct (read_fields fuel b3) as [r|] eqn:Er; [|done]. injection E as <-. constructor; [done|by eapply IH].
  - case_bool_decide; [|done]. injection E as <-. by constructor.
Qed.

Lemma frame_length s : (0 < length (frame s))%nat.
Proof. unfold frame. cbn [ser closed_serde]. rewrite !length_app. simpl. lia. Qed.

Lemma read_fields_encode row : row ≠ [] → Forall (λ p, utf8_valid p.1 = true ∧ token_of p.2 = Some p.2) row → ∀ fuel, (length row <= fuel)%nat →
  read_fields fuel (row_fields row ++ [Byte.x7d]) = Some row.
Proof.
  intros Hne. induction 1 as [|[k v] row [Hu Hv] Hr IH]; [done|]. intros fuel Hf. destruct fuel as [|fuel]; [simpl in Hf; lia|]. cbn [fst snd] in *.
  apply token_inv in Hv as [_ [x ->]]. cbn [row_fields]. rewrite <-!app_assoc. cbn [read_fields]. cbn [json_string framed_text]. rewrite read_frame_app.
  change (lit ":") with [colon]. cbn [app is_byte]. rewrite decide_True by done. cbn [mbind option_bind]. rewrite read_frame_app, Hu. cbn [negb].
  destruct row as [|p row].
  - cbn [app is_byte]. rewrite decide_False by done. by rewrite bool_decide_eq_true_2.
  - change (lit ",") with [Byte.x2c]. rewrite <-app_assoc. cbn [app is_byte]. rewrite decide_True by done. rewrite IH; [done|done|]. simpl in *. lia.
Qed.

Lemma row_fields_length row : (length row <= length (row_fields row))%nat.
Proof.
  induction row as [|[k v] row IH]; [done|]. cbn [row_fields]. rewrite !length_app. pose proof (frame_length k). cbn [json_string framed_text length].
  destruct row; [simpl; lia|]. rewrite length_app. simpl in *. lia.
Qed.

Program Definition framed_rows : RawJson := {| raw_entries := read_row |}.
Next Obligation.
  intros b row. unfold read_row. destruct (is_byte _ b) as [b'|]; [|done]. case_bool_decide; [by intros [= <-]|]. apply read_fields_texts.
Qed.
Next Obligation.
  intros row Hr. unfold read_row, row_encode. change (lit "{") with [Byte.x7b]. change (lit "}") with [Byte.x7d]. cbn [app is_byte]. rewrite decide_True by done.
  destruct (decide (row = [])) as [->|Hne]; [done|]. case_bool_decide as E.
  - exfalso. apply (f_equal length) in E. rewrite length_app in E. pose proof (row_fields_length row). destruct row; [done|]. simpl in *. lia.
  - apply read_fields_encode; [done|done|]. rewrite length_app. pose proof (row_fields_length row). lia.
Qed.
Next Obligation. intros s t Ht. cbn in *. pose proof (token_inv _ _ Ht) as [-> _]. exact Ht. Qed.
Next Obligation. intros s t Ht. cbn in *. by apply token_inv in Ht as [-> _]. Qed.
Next Obligation.
  intros j b. cbn [json_write framed_json]. unfold framed_write. destruct (parse_json _) as [j'|]; [|done]. destruct (json_eqb j' j); [|done].
  intros [= <-]. cbn [raw_token framed_text]. rewrite token_frame. by eexists.
Qed.
#[local] Existing Instance framed_rows.

(** A row with a sealed number and a hash, before the change. *)
Definition phone_plain : bytes := frame (text_json (JString (Some (lit "abcde")))).
Definition old_phone : str := match seal_plain (field_keys field_access) (lit "t1") phone (lit "r1") (inl (replicate 12 Byte.x05)) phone_plain with Ok (t, _) => t | Err _ => [] end.
Definition plain_text (s : str) : str := frame (text_json (JString (Some s))).
Definition old_row : bytes :=
  row_encode [(lit "id", plain_text (lit "r1")); (lit "phone", old_phone); (lit "pin", plain_text (default [] (match pin_hash with Ok h => Some h | Err _ => None end)))].
Definition moved_row : result (bytes * (FieldKeys * FieldKeys)) :=
  reseal_row (field_keys field_access) (field_keys new_access) (lit "t1") [phone; pin] (lit "r1") [inl (replicate 12 Byte.x08)] old_row.

Lemma reseal_row_result_witness : ∃ b old' new' row row', moved_row = Ok (b, (old', new')) ∧ raw_entries old_row = Some row ∧ raw_entries b = Some row' ∧
  row_get (lit "pin") row' = row_get (lit "pin") row ∧ row_get (lit "phone") row' ≠ row_get (lit "phone") row ∧
  check_row (field_keys field_access) (field_keys new_access) (lit "t1") [phone; pin] (lit "r1") old_row b = Ok ().
Proof.
  destruct moved_row as [[b [old' new']]|e] eqn:Em; [|exfalso; vm_compute in Em; discriminate Em].
  destruct (reseal_row_result (field_keys field_access) (field_keys new_access) (lit "t1") [phone; pin] (lit "r1") [inl (replicate 12 Byte.x08)] old_row b old' new')
    as (_ & _ & Hc & row & row' & Er & Er' & _ & Hg & _).
  - refine (bool_decide_unpack _ _). vm_compute. exact I.
  - exact Em.
  - exists b, old', new', row, row'. split; [reflexivity|split; [exact Er|split; [exact Er'|split; [|split; [|exact Hc]]]]].
    + apply Hg. refine (bool_decide_unpack _ _). vm_compute. exact I.
    + intros E. vm_compute in Em. injection Em as Eb _ _. rewrite <-Eb in Er'. vm_compute in Er'. injection Er' as <-. vm_compute in Er. injection Er as <-. vm_compute in E. discriminate E.
Defined.
End RekeyDemo.
